(* ===== verification/_CoqProject ===== *)
-Q . S2P
Prelude.v
KeyedHeap.v
KubeTypes.v
ClusterEvents.v
Nominator.v
SchedQueue.v
SchedSpec.v
SchedFlight.v
SchedRefine.v
SchedProps.v
WorkQueue.v
AllocBitmap.v
RangeAllocator.v
MemoryStorage.v
Quantity.v
QuantityText.v
LeaderElection.v
RustText.v
BTree.v
Json.v
FieldErrors.v
Regex.v
Authz.v
Metav1.v
RbacValidation.v
RbacPolicy.v
RbacProps.v
LabelSelector.v
SelectorProps.v
ApiSelector.v
NodeGraph.v
NodeGraphPods.v
NodeGraphWf.v
NodeGraphWalk.v
NodeGraphProps.v
Populator.v
NodeAuthorizer.v
Patch.v
MergePatch.v
PatchPointer.v
JsonPatchProps.v
PatchMeta.v
StrategicMerge.v
StrategicOrder.v
StrategicTotal.v
PatchTyped.v
StatusMerge.v
StrategicProps.v
StrategicLists.v
FieldSet.v
FieldSetProps.v
FieldSetSpec.v
FieldWalk.v
FieldWalkProps.v
FieldSchema.v
FieldMerge.v
FieldMergeProps.v
FieldManager.v
ServerSideApply.v
FieldManagerCap.v
UpdateProps.v
ApplyProps.v
AllocInterface.v
PortAllocator.v
PortOperation.v
ServiceTypes.v
PortRepair.v
PortRepairProps.v
ServicePorts.v
ServicePortsProps.v
NodePortSystem.v
F64.v
DeploymentTypes.v
DeploymentController.v
DeploymentRuns.v
RolloutArith.v
RolloutPass.v
DeploymentSafety.v
RolloutExact.v
RolloutLiveness.v
