(* ===== verification/Prelude.v ===== *)
(** * rusternetes: a verification of its scheduling, storage and policy core

    rusternetes is a Kubernetes control plane in Rust: an API server over a
    pluggable storage, a scheduler, a controller manager, a kubelet and their
    tools.  This library models the parts of it that carry state machines,
    data structures and arithmetic of their own, and proves what they promise.
    Every definition is a translation of Rust code under [src/crates]; the
    theorems with a claim number (1 to 40) in their comment are the properties of the development, and
    every one with a hypothesis is followed by a [_witness] that applies it to a
    concrete input.

    ** The modelled parts

    The scheduler's queue ([scheduler/src/queue]).  A pod that is not scheduled
    yet is in activeQ, in one of the two heaps of the backoff queue, in
    unschedulablePods, or in flight (popped and being tried).
    - [KeyedHeap]: [heap.rs], a binary heap with an index by key.  State [Heap]
      (the [HashMap] [items] and the [Vec] [queue]).  It refines a map with a
      minimum, without an index panic ([C10]), and drains in order.
    - [KubeTypes]: the fields of [Pod] and [ObjectMeta] that the queue reads.
    - [ClusterEvents]: [events.rs], action masks, event matching and the
      classification of pod updates.
    - [Nominator]: [nominator.rs], the two maps of nominated pods, which agree,
      and the reservation an update keeps.
    - [SchedQueue]: [scheduling_queue.rs], every method, as functions on
      [Inner], the state behind the mutex.
    - [SchedSpec]: the abstract queue [AQ], a map from pod to sub-queue and a
      map from in-flight pod to the events since its pop, with its step relation.
    - [SchedFlight]: the representation of the in-flight map by the shared event
      list and its sequence numbers.
    - [SchedRefine]: the simulation: every method runs without panic and takes
      the abstract step.
    - [SchedProps]: the refinement for whole runs ([C1]); a pod is in one place;
      moves lose no pod; no event of a pod in flight is lost
      ([C11]); [pop] takes the most urgent pod ([C34]) and waiters are notified; the requeue
      verdict does not depend on the hash order;
      the backoff doubles up to its maximum.

    The controllers' work queue ([storage/src/workqueue.rs]).
    - [WorkQueue]: one function per critical section; a step relation of their
      interleavings.  A key is processed by one worker at a time, no
      added key is lost and [done] and [get] serve it ([C37]), keys leave in arrival order, and the
      backoff doubles with saturation.

    The service range allocator ([api-server/src/registry/core/service/allocator]).
    - [AllocBitmap]: [mod.rs], a bitmap in 64-bit words; it refines a finite set
      ([C36]) and its snapshot round-trips through bytes.
    - [RangeAllocator]: [storage.rs], the guaranteed-update loop of several API
      servers over one stored object.  The storage is the class [RangeStore].
      The system is linearizable: no offset is given out twice ([C3]);
      [create_or_update] compares versions.

    The node ports of services ([common/src/resources/service.rs] and
    [api-server/src/registry/core/service]).
    - [AllocInterface]: the trait [Interface] as a class, with the laws its clients
      rely on as the class [Allocator], and its instances, the bitmap in memory and
      the bitmap in storage ([InMemory], [Etcd]).
    - [PortAllocator]: [portallocator/mod.rs], port ranges and their text, read back, and the allocator of ports over any [Allocator].
    - [PortOperation]: [portallocator/operation.rs], the transaction of a request;
      whatever other requests do, it is atomic on every port but those that another
      request releases under it ([C15]).
    - [ServiceTypes]: the types of a service.
    - [PortRepair], [PortRepairProps]: [portallocator/repair.rs]; a pass rebuilds the
      ports from the services and reports what is wrong with them ([C17]), so three passes free every leak ([C38]),
      and fewer do when a port leaks again or when a pass is retried.
    - [ServicePorts], [ServicePortsProps]: the node-port half of [alloc.rs], what a
      create, an update and a delete claim and give back.
    - [NodePortSystem]: these requests in any order: the ports held are those of the
      stored services ([C4]), an update is exact ([C16]), and a service of type
      [ExternalName] gives back ports it never had ([C39]).

    The in-memory storage ([storage/src/memory.rs], with [concurrency.rs] and
    [preconditions.rs]).
    - [MemoryStorage]: data, revision counter, bounded history, leases with
      expiry.  JSON is the class [JsonLib].  Listing at an old revision is the
      old list ([C21]), a resumed watch misses nothing ([C22]), an update is a
      compare-and-swap, a conditional delete checks its preconditions, and the timer of a replaced TTL does nothing.

    Resource quantities ([common/src/quantity.rs]).
    - [Quantity]: the data and every function, over integers kept to their
      width; what a quantity stands for is the rational [qval].  Comparison,
      addition and subtraction and rounding ([C40]) are exact.
    - [QuantityText]: parsing reads the grammar, canonicalisation keeps
      the value and is idempotent ([C35]), resources are accounted rounded
      up; and the canonical form of an accepted quantity can panic.

    Leader election ([common/src/leaderelection.rs] over
    [storage/src/lease_lock.rs]).
    - [LeaderElection]: any number of electors with skewed clocks over one lease
      in a storage [LeaseStore].  Without releases they exclude each other
      ([C2]) and never steal a lease; with releases they do not; an expired lease
      is acquired.

    Authorization by role-based access control ([common/src/authz.rs],
    [common/src/authz/reasons.rs] and
    [api-server/src/registry/rbac]).
    - [Authz]: the attributes of a request, the decisions and opinions, the RBAC
      authorizer over the stored roles and bindings, the rules review, the union
      and the superuser and static node rules.
    - [RbacPolicy]: the comparator [covers], the compaction of rules, the rule
      resolver, the escalation checks and the create and update hooks of the four
      policy-based storages.
    - [RbacValidation]: [common/src/validation/rbac.rs], the validation and the
      defaults of roles and bindings.
    - [RbacProps]: [covers] decides inclusion ([C12]); the authorizer agrees with
      the resolver ([C28]); so an accepted write grants nothing its author did not
      have, but for three gaps, rules that leave out groups, resources or names
      ([C5]); the union decides by its first opinion; and a
      rule that names only URLs allows every resource.

    The node authorizer ([common/src/authz/node_graph.rs] and
    [node_authorizer.rs]).
    - [NodeGraph]: the graph from objects to nodes: vertices and their ids, edges,
      the destination index, the search.
    - [NodeGraphPods]: what pods and volumes refer to, the handlers that turn them
      into edges, the populator.
    - [NodeGraphWf]: the invariant [graph_wf] and what every operation does to it.
    - [NodeGraphWalk]: the search ends and finds exactly the reachable nodes.
    - [NodeGraphProps]: the abstract state [Objs] of the graph and the relation
      [related] of an object to a node; the graph refines it ([C6]), except when
      a pod refers to an object twice.
    - [Populator]: skipping unchanged pods keeps the graph exact ([C14]) as long as
      the references of a pod change only with its fingerprint.
    - [NodeAuthorizer]: the decisions; a node sees only its objects ([C13]).

    Label selectors ([common/src/label_selector.rs], the selector part of
    [common/src/types.rs] and of [common/src/validation/metav1.rs]).
    - [LabelSelector]: the lexer, the parser, validation, matching and printing.
    - [SelectorProps]: parsing terminates; printing and parsing
      round-trip ([C29]).
    - [Metav1] and [ApiSelector]: the validation of labels and of the selectors of
      the API, their conversion to text and their matching.  Validation accepts
      what conversion accepts; the text, parsed, matches the same labels
      as the selector itself ([C30]).
    - [FieldErrors]: [validation/field.rs], paths and errors of validation.
    - [Regex]: regular expressions by derivatives, equal to their language, with
      the expressions of [metav1.rs].
    - [RustText], [BTree], [Json]: the string functions of Rust, ordered maps with
      string keys and JSON values as the code uses them.

    Patches ([common/src/patch.rs], [patch/mergepatch.rs] and [patch/meta.rs]).
    - [Patch]: the patch types and errors, JSON pointers, JSON merge patch, the JSON
      patch operations, the merge of a status.
    - [MergePatch]: JSON merge patch is RFC 7386 but for the nulls of new objects
      ([C23]).
    - [PatchPointer]: pointers round-trip, and reading and writing
      through one are a lens.
    - [JsonPatchProps]: [add] ([C33]) is undone by [remove]; [replace] is [remove] and [add];
      when [add] panics.
    - [PatchMeta], [StrategicMerge]: the metadata of fields, the Go texts of errors,
      and the strategic merge with its directives.
    - [StrategicOrder], [StrategicTotal], [StrategicProps], [StrategicLists]: the
      order of merged lists; the merge ends without a panic ([C27]); [$retainKeys]
      bounds the keys; lists are merged by key ([C20]).
    - [PatchTyped]: every patch keeps documents well-formed.
    - [StatusMerge]: a status patch drops no condition.

    Field management and server-side apply ([common/src/fieldmanager]).
    - [FieldSet]: [fieldset.rs], a set of field paths as a trie, its [FieldsV1]
      encoding, the matchers and filters of reset fields.
    - [FieldSetProps], [FieldSetSpec]: canonical tries; the operations are those on
      sets of paths ([C24]); the encoding is read back ([C32]); what the filters
      keep, and that a merged matcher can drop what one of the two keeps.
    - [FieldWalk], [FieldWalkProps]: the fields of an object, by the names of its
      fields or by a schema, and the comparison of two objects.
    - [FieldSchema]: [schema.rs], the schema from OpenAPI definitions and from
      structural schemas; reading it ends.
    - [FieldMerge], [FieldMergeProps]: the merge of a configuration, idempotent
      ([C31]), and the paths into a value.
    - [FieldManager]: [mod.rs], the managers of an object, decoded and encoded, and
      the cap on their number.
    - [ServerSideApply]: the update and apply paths, [update_versions] and the
      pruning ([apply.rs], [versionconverter.rs]).
    - [FieldManagerCap]: the cap loses no ownership ([C19]) unless a bucket is
      merged with itself, and then it does.
    - [UpdateProps]: conflicts are exact ([C18]), and an operation takes exactly
      what it changed ([C26]).
    - [ApplyProps]: who owns what after an apply ([C25]) and after an update;
      applying again is a no-op.

    The deployment controller
    ([controller-manager/src/controllers/deployment.rs]).
    - [F64]: double-precision floats by the executable specification of IEEE 754.
    - [DeploymentTypes]: deployments, ReplicaSets and pods; percentages and the
      comparison of pod templates.
    - [DeploymentController]: a whole pass, [reconcile_deployment], in a monad [M]
      over a [World]: the ReplicaSets, the pods, the stored deployment and the
      answers of the storage to the writes of the pass.
    - [DeploymentRuns]: total triples [runs] for [M], and the relation [moved] of
      the ReplicaSets before and after.
    - [RolloutArith]: what [old_targets] takes and leaves, and what a proportional
      scaling adds up to.
    - [RolloutPass]: the pieces of a pass.
    - [DeploymentSafety]: whatever the storage answers, a pass of a rolling update
      whose counts fit in an [i32] stays within the surge ([C7]); when it is no
      scaling and no ReplicaSet has more available pods than replicas, it keeps the
      minimum available ([C8]).
    - [RolloutExact]: the counts a pass sets when no write is refused.
    - [RolloutLiveness]: a ReplicaSet created by a pass has the template of its
      deployment, and rolling updates complete ([C9]).

    ** How the code is modelled

    - A method is a function on the state it locks.  [Result] is [result]; a
      panic is [None] of an [option] type, so a theorem that concludes [= Some _]
      shows that there is none.
    - A clock reading, a random draw and a fresh UID are arguments; time is [Z]
      nanoseconds.
    - A machine integer is a [Z] or [nat] with its wrap-around, saturation or
      overflow written out where the code can reach it.
    - A [HashMap] is a [gmap]; where its iteration order shows, the code is
      modelled against [HashOrder] and the theorems hold for every order.
    - Code outside the repository is a class with the laws the code relies on
      ([JsonLib]); so is the storage behind the allocator and the lease lock
      ([RangeStore], [LeaseStore]).  Each class has an instance, and the
      witnesses use it.
    - Concurrency is a step relation whose steps are the critical sections
      ([wq_step], [sys_step], [step]).
    - Loops that are not structural take fuel: the sift loops of the heap run on
      the length of the queue, [unlocked_pop] on the number of queued pods,
      [strip_loop] on 40 (an [i128] has fewer than 40 digits), [word_bits] on 64,
      [rchunks] on the length of the data, [scan] on the bytes of a selector and
      [parse_loop] on its tokens, each plus one, [walk] on the vertices of the graph
      plus two, [smp_loop] on the depth of the patch plus one, [delete_matching] on
      the length of the list plus one, the [convert] of [FieldSchema] on the number
      of definitions times twice their depth, [try_update] on 1 (nobody writes in
      between), [get_loop] on the 31 attempts and [run_once_loop] on the 4 steps of
      the code.  Running out of fuel is [None] (or is
      ruled out by the bound), and the theorems show that it does not happen.

    ** What is not modelled

    Logging, metrics and events everywhere; the tokio tasks that only choose when
    to call a method; the scheduler's plugins (arguments of the queue's model),
    its cache and its scheduling cycle; the node side of the event
    classification; the etcd and SQL backends; the webhook
    authorizer; the validation of other kinds; the rest of the API server,
    the kubelet, the proxy, the DNS server and the command line.  The text of a
    quoted string, of a JSON value and of a float, and Unicode lower-casing, are the
    classes [TextFormat], [JsonText] and [PatchText]; the decoder that [serde] derives
    for a JSON patch document is [PatchDecode] and the table of [patch_meta.json] is
    [EmbeddedDefs]; the texts of a manager's identity and of the [managedFields]
    entries, and the JSON parser, are [IdText], [EntryText] and [JsonParse]: the
    theorems hold for every such function and table.
    The theorems on updates and on applying again of [ApplyProps] are for a resource
    served at one version and without reset fields; those on an apply and those of
    [UpdateProps] hold for every converter and filter.
    In [DeploymentController] reads of the storage succeed and the clock is read
    once per pass; the hash of a template is the class [TemplateHash].
    In [MemoryStorage] every method is atomic, though the code releases the data
    lock before it appends to the history.

    ** The plan

    Next: the interleavings of [MemoryStorage] and an instance of [RangeStore] and
    [LeaseStore] from it; the cluster addresses of services; the
    other controllers; the scheduler's cache and the filters of its plugins; pagination.

    This file holds what the components share. *)

From Corelib Require Export ssreflect.
From stdpp Require Export base gmap strings list fin_maps sets.
From Stdlib Require Export ZArith Lia.

#[export] Set Warnings "-rewrite-rw,-clear-no-such-hyp".
#[global] Open Scope general_if_scope.

(** ** Results and panics

    A Rust function that returns [Result<A, E>] is a Rocq function into
    [result A E].  A function that can panic (an index out of range, an
    [unwrap]/[expect] on [None], an arithmetic overflow with overflow checks
    on) returns [option _], with [None] for the panic; a loop run with fuel
    returns [None] too when the fuel runs out, so that a theorem with
    [= Some _] as its conclusion rules both out. *)

Inductive result (A E : Type) : Type :=
| Ok (a : A)
| Err (e : E).
Arguments Ok {A E} a.
Arguments Err {A E} e.

Definition result_bind {A B E} (r : result A E) (f : A -> result B E) : result B E :=
  match r with
  | Ok a => f a
  | Err e => Err e
  end.

Definition result_map {A B E} (f : A -> B) (r : result A E) : result B E :=
  match r with
  | Ok a => Ok (f a)
  | Err e => Err e
  end.

Definition is_ok {A E} (r : result A E) : bool :=
  match r with Ok _ => true | Err _ => false end.

Declare Scope rust_scope.
Delimit Scope rust_scope with rust.
Notation "'try' x <- c ; k" := (result_bind c (fun x => k))
  (at level 100, x pattern, c at level 200, k at level 200, right associativity) : rust_scope.

#[export] Instance result_eq_dec {A E} `{EqDecision A, EqDecision E} : EqDecision (result A E).
Proof. solve_decision. Defined.

(** ** Tactics of the development *)

(** Case analysis on the scrutinee of a [match] or [if] in the goal. *)
Ltac split_match := repeat case_match; simplify_eq/=; try done.

(** Invert every [mbind] on options in the hypotheses. *)
Ltac inv_bind :=
  repeat match goal with
  | H : (_ ≫= _) = Some _ |- _ =>
      let x := fresh "x" in let Hx := fresh "Hx" in
      apply bind_Some in H as (x & Hx & H); simplify_eq/=
  | H : _ <$> _ = Some _ |- _ =>
      let x := fresh "x" in let Hx := fresh "Hx" in
      apply fmap_Some in H as (x & Hx & H); simplify_eq/=
  end.

Create HintDb rusternetes.

(** ** Options and lists *)

Lemma fmap_is_Some_iff {A B} (f : A -> B) (o : option A) :
  is_Some (f <$> o) <-> is_Some o.
Proof. apply fmap_is_Some. Qed.

(** [Vec::swap]: exchanges two elements, and panics out of range. *)
Definition vec_swap {A} (l : list A) (i j : nat) : option (list A) :=
  match l !! i, l !! j with
  | Some a, Some b => Some (<[j := a]> (<[i := b]> l))
  | _, _ => None
  end.

Lemma vec_swap_length {A} (l l' : list A) i j :
  vec_swap l i j = Some l' -> length l' = length l.
Proof. unfold vec_swap. intros. split_match. by rewrite !length_insert. Qed.

Lemma vec_swap_total {A} (l : list A) i j :
  i < length l -> j < length l -> is_Some (vec_swap l i j).
Proof.
  intros Hi Hj. unfold vec_swap.
  destruct (lookup_lt_is_Some_2 l i Hi) as [a ->].
  destruct (lookup_lt_is_Some_2 l j Hj) as [b ->]. eauto.
Qed.

Lemma vec_swap_lookup {A} (l l' : list A) i j k :
  vec_swap l i j = Some l' ->
  l' !! k = if decide (k = i) then l !! j
            else if decide (k = j) then l !! i else l !! k.
Proof.
  unfold vec_swap. intros Hs.
  destruct (l !! i) as [a|] eqn:Hi; [|done].
  destruct (l !! j) as [b|] eqn:Hj; [|done]. simplify_eq.
  pose proof (lookup_lt_Some _ _ _ Hi). pose proof (lookup_lt_Some _ _ _ Hj).
  destruct (decide (k = j)) as [->|Hkj].
  - rewrite list_lookup_insert_eq ?length_insert //.
    destruct (decide (j = i)); congruence.
  - rewrite list_lookup_insert_ne //.
    destruct (decide (k = i)) as [->|Hki].
    + by apply list_lookup_insert_eq.
    + by rewrite list_lookup_insert_ne.
Qed.

Lemma vec_swap_bounds {A} (l l' : list A) i j :
  vec_swap l i j = Some l' -> i < length l /\ j < length l.
Proof.
  unfold vec_swap. intros. split_match.
  eauto using lookup_lt_Some.
Qed.

(** [Vec::pop]. *)
Definition vec_pop {A} (l : list A) : option (A * list A) :=
  match last l with
  | Some a => Some (a, take (length l - 1) l)
  | None => None
  end.

#[export] Hint Resolve vec_swap_total : rusternetes.

(** ** HashMap iteration order

    The iteration order of a Rust [HashMap] is unspecified.  Code that iterates
    over one is modelled against this interface, and its theorems hold for
    every order; the [map_to_list] instance is used to run examples. *)
Class HashOrder : Type := {
  hash_iter : forall {A : Type}, gmap string A -> list (string * A);
  hash_iter_perm : forall {A : Type} (m : gmap string A), hash_iter m ≡ₚ map_to_list m
}.

Definition default_hash_order : HashOrder :=
  {| hash_iter := fun A m => map_to_list m; hash_iter_perm := fun A m => Permutation_refl _ |}.

Lemma elem_of_hash_iter `{HashOrder} {A} (m : gmap string A) k a :
  (k, a) ∈ hash_iter m <-> m !! k = Some a.
Proof. by rewrite hash_iter_perm elem_of_map_to_list. Qed.

Lemma hash_iter_nodup `{HashOrder} {A} (m : gmap string A) : NoDup (hash_iter m).*1.
Proof. rewrite hash_iter_perm. apply NoDup_fst_map_to_list. Qed.

(** ** Versions of a counter

    Concrete storages number their writes; the version of a write is a string. *)

(** A version as a string: a letter per write. *)
Definition show_version (n : nat) : string := Nat.iter n (String.append "i") "v".

Lemma show_version_inj n m : show_version n = show_version m -> n = m.
Proof.
  revert m. induction n as [|n IH]; intros [|m]; [done|done|done|]. intros [= H]. f_equal. by apply IH.
Qed.

Lemma show_version_nonempty n : show_version n <> "".
Proof. by destruct n. Qed.

Definition versions_below (n : nat) : gset string := list_to_set (show_version <$> seq 0 n).

Lemma versions_below_spec n m : show_version m ∈ versions_below n <-> m < n.
Proof.
  unfold versions_below. rewrite elem_of_list_to_set list_elem_of_fmap. split.
  - intros (k & ->%show_version_inj & Hk%elem_of_seq). lia.
  - intros Hm. exists m. split; [done|]. apply elem_of_seq. lia.
Qed.

Lemma versions_fresh n : show_version n ∉ versions_below n.
Proof. rewrite versions_below_spec. lia. Qed.

Lemma versions_succ n : versions_below (S n) = {[show_version n]} ∪ versions_below n.
Proof. unfold versions_below. rewrite seq_S fmap_app list_to_set_app_L /=. set_solver. Qed.
