(* ===== verification/KeyedHeap.v ===== *)
(** * The scheduler's keyed heap

    Model of [crates/scheduler/src/queue/heap.rs]: a binary heap whose items
    are also reachable by key, so that an item can be updated in place or
    removed from the middle.  [items] is the [HashMap<String, HeapItem<T>>],
    [queue] the [Vec<String>] of keys in heap order.  Functions that index
    [queue] return [option], [None] standing for the panic of an index out of
    range. *)

From Stdlib Require Import Sorted.
From S2P Require Import Prelude.

(** ** Model *)

Section Heap.
Context {T : Type} (key_fn : T -> string) (less_fn : T -> T -> bool).

Record HeapItem := mkHeapItem { obj : T; index : nat }.

Record Heap := mkHeap {
  items : gmap string HeapItem;
  queue : list string
}.

Definition new : Heap := mkHeap ∅ [].

Definition less (h : Heap) (i j : nat) : option bool :=
  ki ← queue h !! i;
  kj ← queue h !! j;
  Some (match items h !! ki, items h !! kj with
        | Some a, Some b => less_fn (obj a) (obj b)
        | _, _ => false
        end).

(** [if let Some(it) = self.items.get_mut(&k) { it.index = i }] *)
Definition set_index (m : gmap string HeapItem) (k : string) (i : nat) : gmap string HeapItem :=
  match m !! k with
  | Some it => <[k := mkHeapItem (obj it) i]> m
  | None => m
  end.

Definition swap (h : Heap) (i j : nat) : option Heap :=
  q ← vec_swap (queue h) i j;
  ki ← q !! i;
  kj ← q !! j;
  Some (mkHeap (set_index (set_index (items h) ki i) kj j) q).

Fixpoint up_loop (fuel : nat) (h : Heap) (j : nat) : option Heap :=
  match fuel with
  | 0 => None
  | S fuel' =>
      if decide (0 < j) then
        let i := (j - 1) / 2 in
        if decide (i = j) then Some h
        else
          b ← less h j i;
          if negb b then Some h
          else h' ← swap h i j; up_loop fuel' h' i
      else Some h
  end.

Definition up (h : Heap) (j : nat) : option Heap := up_loop (S j) h j.

(** The child that the loop of [down] compares with its parent. *)
Definition min_child (h : Heap) (i n : nat) : option nat :=
  let j1 := 2 * i + 1 in
  let j2 := j1 + 1 in
  if decide (j2 < n) then
    b ← less h j2 j1;
    Some (if b : bool then j2 else j1)
  else Some j1.

Fixpoint down_loop (fuel : nat) (h : Heap) (i n : nat) : option (Heap * nat) :=
  match fuel with
  | 0 => None
  | S fuel' =>
      let j1 := 2 * i + 1 in
      if decide (n <= j1) then Some (h, i)
      else
        j ← min_child h i n;
        b ← less h j i;
        if negb b then Some (h, i)
        else h' ← swap h i j; down_loop fuel' h' j n
  end.

Definition down (h : Heap) (i0 n : nat) : option (Heap * bool) :=
  '(h', i) ← down_loop (S n) h i0 n;
  Some (h', bool_decide (i0 < i)).

Definition fix_ (h : Heap) (i : nat) : option Heap :=
  let n := length (queue h) in
  '(h', moved) ← down h i n;
  if moved : bool then Some h' else up h' i.

Definition remove_at (h : Heap) (i : nat) : option (Heap * T) :=
  match length (queue h) with
  | 0 => None
  | S n =>
      h1 ← (if decide (n = i) then Some h
            else
              h0 ← swap h i n;
              '(h', moved) ← down h0 i n;
              if moved : bool then Some h' else up h' i);
      '(key, q) ← vec_pop (queue h1);
      it ← items h1 !! key;
      Some (mkHeap (delete key (items h1)) q, obj it)
  end.

Definition add_or_update (h : Heap) (o : T) : option Heap :=
  let key := key_fn o in
  match items h !! key with
  | Some item =>
      fix_ (mkHeap (<[key := mkHeapItem o (index item)]> (items h)) (queue h)) (index item)
  | None =>
      let n := length (queue h) in
      up (mkHeap (<[key := mkHeapItem o n]> (items h)) (queue h ++ [key])) n
  end.

Definition delete_by_key (h : Heap) (key : string) : option (Heap * result T string) :=
  match items h !! key with
  | Some item =>
      '(h', o) ← remove_at h (index item);
      Some (h', Ok o)
  | None => Some (h, Err "object not found")
  end.

Definition delete_obj (h : Heap) (o : T) : option (Heap * result T string) :=
  delete_by_key h (key_fn o).

Definition peek (h : Heap) : option T :=
  k ← head (queue h);
  obj <$> items h !! k.

Definition pop (h : Heap) : option (Heap * result T string) :=
  if decide (queue h = []) then Some (h, Err "heap is empty")
  else
    '(h', o) ← remove_at h 0;
    Some (h', Ok o).

Definition get_by_key (h : Heap) (key : string) : option T := obj <$> items h !! key.
Definition get (h : Heap) (o : T) : option T := get_by_key h (key_fn o).
Definition has_key (h : Heap) (key : string) : bool := bool_decide (is_Some (items h !! key)).
Definition has (h : Heap) (o : T) : bool := has_key h (key_fn o).
Definition heap_list (h : Heap) : list T := obj <$> (map_to_list (items h)).*2.
Definition len (h : Heap) : nat := length (queue h).
Definition is_empty (h : Heap) : bool := bool_decide (queue h = []).
Definition key_of (o : T) : string := key_fn o.

(** [get_mut_by_key] hands out a mutable reference; the caller's write through
    it is the function [f]. *)
Definition get_mut_by_key (h : Heap) (key : string) (f : T -> T) : Heap :=
  match items h !! key with
  | Some it => mkHeap (<[key := mkHeapItem (f (obj it)) (index it)]> (items h)) (queue h)
  | None => h
  end.

(** ** Specification *)

(** What the heap holds, as a map from keys to objects. *)
Definition contents (h : Heap) : gmap string T := obj <$> items h.

(** The object at position [i] of the array. *)
Definition at_ (h : Heap) (i : nat) : option T :=
  k ← queue h !! i; obj <$> items h !! k.

(** "Items in [items] are exactly the keys in [queue] and vice versa." *)
Record wf (h : Heap) : Prop := {
  wf_queue i k : queue h !! i = Some k ->
    exists it, items h !! k = Some it /\ index it = i /\ key_fn (obj it) = k;
  wf_items k it : items h !! k = Some it -> queue h !! index it = Some k
}.

Definition parent (i : nat) : nat := (i - 1) / 2.

(** The edge between position [c] and its parent respects the order. *)
Definition edge_ok (h : Heap) (c : nat) : Prop :=
  forall a b, at_ h c = Some a -> at_ h (parent c) = Some b -> less_fn a b = false.

Definition ordered (h : Heap) : Prop := forall c, 0 < c -> edge_ok h c.

Definition heap_inv (h : Heap) : Prop := wf h /\ ordered h.

(** Pops until the heap is empty. *)
Fixpoint drain (fuel : nat) (h : Heap) : option (list T) :=
  match fuel with
  | 0 => if decide (queue h = []) then Some [] else None
  | S fuel' =>
      '(h', r) ← pop h;
      match r with
      | Ok o => l ← drain fuel' h'; Some (o :: l)
      | Err _ => Some []
      end
  end.

(** The operations of the heap as one step function, and the priority map they
    promise: [Pop] and [Peek] answer an object no other object is below. *)
Inductive heap_op :=
| AddOrUpdate (o : T)
| DeleteByKey (key : string)
| Pop
| Peek.

Inductive heap_out :=
| OutUnit
| OutRes (r : result T string)
| OutOpt (o : option T).

Definition run_op (h : Heap) (op : heap_op) : option (Heap * heap_out) :=
  match op with
  | AddOrUpdate o => h' ← add_or_update h o; Some (h', OutUnit)
  | DeleteByKey key => '(h', r) ← delete_by_key h key; Some (h', OutRes r)
  | Pop => '(h', r) ← pop h; Some (h', OutRes r)
  | Peek => Some (h, OutOpt (peek h))
  end.

Fixpoint run_ops (h : Heap) (ops : list heap_op) : option (Heap * list heap_out) :=
  match ops with
  | [] => Some (h, [])
  | op :: ops' =>
      '(h', out) ← run_op h op;
      '(h'', outs) ← run_ops h' ops';
      Some (h'', out :: outs)
  end.

Definition minimal (m : gmap string T) (a : T) : Prop :=
  m !! key_fn a = Some a /\ forall k b, m !! k = Some b -> less_fn b a = false.

Inductive pm_step (m : gmap string T) : heap_op -> gmap string T -> heap_out -> Prop :=
| pm_add o : pm_step m (AddOrUpdate o) (<[key_fn o := o]> m) OutUnit
| pm_delete k a : m !! k = Some a -> pm_step m (DeleteByKey k) (delete k m) (OutRes (Ok a))
| pm_delete_absent k : m !! k = None ->
    pm_step m (DeleteByKey k) m (OutRes (Err "object not found"))
| pm_pop a : minimal m a -> pm_step m Pop (delete (key_fn a) m) (OutRes (Ok a))
| pm_pop_empty : m = ∅ -> pm_step m Pop m (OutRes (Err "heap is empty"))
| pm_peek a : minimal m a -> pm_step m Peek m (OutOpt (Some a))
| pm_peek_empty : m = ∅ -> pm_step m Peek m (OutOpt None).

Inductive pm_steps : gmap string T -> list heap_op -> gmap string T -> list heap_out -> Prop :=
| pm_nil m : pm_steps m [] m []
| pm_cons m op m' out ops m'' outs :
    pm_step m op m' out -> pm_steps m' ops m'' outs ->
    pm_steps m (op :: ops) m'' (out :: outs).

End Heap.

Arguments Heap : clear implicits.
Arguments HeapItem : clear implicits.
Arguments mkHeapItem {T} _ _.
Arguments mkHeap {T} _ _.

(** The comparison is a strict weak order, as [container/heap] asks of [Less]. *)
Class StrictWeakOrder {T} (less_fn : T -> T -> bool) : Prop := {
  swo_irrefl a : less_fn a a = false;
  swo_trans a b c : less_fn a b = true -> less_fn b c = true -> less_fn a c = true;
  swo_ge_trans a b c : less_fn a b = false -> less_fn b c = false -> less_fn a c = false
}.

(** ** Proofs *)

#[local] Arguments Nat.div : simpl never.
#[local] Arguments Nat.mul : simpl never.

Section HeapFacts.
Context {T : Type} (key_fn : T -> string) (less_fn : T -> T -> bool).
Context `{!StrictWeakOrder less_fn}.
Implicit Types (h : Heap T).

Lemma at_contents h i : at_ h i = (k ← queue h !! i; contents h !! k).
Proof.
  unfold at_, contents. destruct (queue h !! i); [|done]. simpl.
  by rewrite lookup_fmap.
Qed.

Lemma at_is_Some h i : wf key_fn h -> i < length (queue h) -> is_Some (at_ h i).
Proof.
  intros Hwf Hi. destruct (lookup_lt_is_Some_2 _ _ Hi) as [k Hk].
  destruct (wf_queue _ _ Hwf _ _ Hk) as (it & Hit & _ & _).
  unfold at_. rewrite Hk /= Hit. eauto.
Qed.

Lemma at_Some h i a :
  at_ h i = Some a ->
  exists k it, queue h !! i = Some k /\ items h !! k = Some it /\ a = obj it.
Proof.
  unfold at_. intros (k & Hk & H)%bind_Some.
  apply fmap_Some in H as (it & Hit & ->). eauto.
Qed.

Lemma at_lt h i a : at_ h i = Some a -> i < length (queue h).
Proof. intros (k & it & Hk & _)%at_Some. eauto using lookup_lt_Some. Qed.

Lemma at_items h k it : wf key_fn h -> items h !! k = Some it -> at_ h (index it) = Some (obj it).
Proof. intros Hwf Hk. unfold at_. by rewrite (wf_items _ _ Hwf _ _ Hk) /= Hk. Qed.

Lemma less_at h i j a b :
  at_ h i = Some a -> at_ h j = Some b -> less less_fn h i j = Some (less_fn a b).
Proof.
  intros (k & it & Hk & Hit & ->)%at_Some (k' & it' & Hk' & Hit' & ->)%at_Some.
  unfold less. by rewrite Hk /= Hk' /= Hit Hit'.
Qed.

Lemma less_total h i j :
  wf key_fn h -> i < length (queue h) -> j < length (queue h) ->
  exists a b, at_ h i = Some a /\ at_ h j = Some b /\ less less_fn h i j = Some (less_fn a b).
Proof.
  intros Hwf Hi Hj.
  destruct (at_is_Some h i Hwf Hi) as [a Ha], (at_is_Some h j Hwf Hj) as [b Hb].
  exists a, b. eauto using less_at.
Qed.

Lemma swo_asym a b : less_fn a b = true -> less_fn b a = false.
Proof.
  intros Hab. destruct (less_fn b a) eqn:Hba; [|done].
  pose proof (swo_trans _ _ _ Hab Hba) as Hc. by rewrite swo_irrefl in Hc.
Qed.

Lemma set_index_lookup (m : gmap string (HeapItem T)) k i k' :
  set_index m k i !! k' =
  if decide (k = k') then (fun it => mkHeapItem (obj it) i) <$> m !! k' else m !! k'.
Proof.
  unfold set_index. destruct (m !! k) eqn:Hk; case_decide; subst.
  - by rewrite lookup_insert_eq Hk.
  - by rewrite lookup_insert_ne.
  - by rewrite Hk.
  - done.
Qed.

Lemma set_index_obj (m : gmap string (HeapItem T)) k i : obj <$> set_index m k i = obj <$> m.
Proof.
  apply map_eq. intros k'. rewrite !lookup_fmap set_index_lookup.
  case_decide; [|done]. by destruct (m !! k').
Qed.

Lemma wf_queue_inj h i j k :
  wf key_fn h -> queue h !! i = Some k -> queue h !! j = Some k -> i = j.
Proof.
  intros Hwf Hi Hj.
  destruct (wf_queue _ _ Hwf _ _ Hi) as (it & Hit & <- & _).
  destruct (wf_queue _ _ Hwf _ _ Hj) as (it' & Hit' & <- & _). congruence.
Qed.

Lemma swap_spec h i j :
  wf key_fn h -> i < length (queue h) -> j < length (queue h) ->
  exists h', swap h i j = Some h' /\ wf key_fn h' /\ contents h' = contents h /\
    length (queue h') = length (queue h) /\
    forall k, at_ h' k = if decide (k = i) then at_ h j
                         else if decide (k = j) then at_ h i else at_ h k.
Proof.
  intros Hwf Hi Hj.
  destruct (vec_swap_total (queue h) i j Hi Hj) as [q Hq].
  pose proof (fun k => vec_swap_lookup _ _ _ _ k Hq) as Hlk.
  destruct (lookup_lt_is_Some_2 _ _ Hi) as [ki Hki], (lookup_lt_is_Some_2 _ _ Hj) as [kj Hkj].
  assert (q !! i = Some kj) as Hqi by (rewrite Hlk decide_True //).
  assert (q !! j = Some ki) as Hqj.
  { rewrite Hlk. case_decide; [congruence|]. by rewrite decide_True. }
  set (h' := mkHeap (set_index (set_index (items h) kj i) ki j) q).
  assert (contents h' = contents h) as Hc by (by rewrite /contents /= !set_index_obj).
  exists h'. split_and!; [| |done|by eapply vec_swap_length|].
  - unfold swap. by rewrite Hq /= Hqi /= Hqj.
  - split.
    + intros n k Hn. simpl in Hn. rewrite Hlk in Hn.
      assert (exists m, queue h !! m = Some k) as [m Hm] by (repeat case_decide; eauto).
      destruct (wf_queue _ _ Hwf _ _ Hm) as (it & Hit & Hidx & Hkey).
      simpl. rewrite !set_index_lookup Hit /=.
      repeat case_decide; subst; simpl; eexists; (split; [done|]); simpl; split; try done;
        naive_solver eauto using wf_queue_inj.
    + intros k it Hk. simpl in *. rewrite !set_index_lookup in Hk.
      repeat case_decide; subst; simpl in *; inv_bind; simplify_eq/=; try done.
      pose proof (wf_items _ _ Hwf _ _ Hk) as Hq'. rewrite Hlk.
      repeat case_decide; subst; congruence.
  - intros k. rewrite !at_contents Hc /= Hlk. by repeat case_decide.
Qed.

Lemma parent_lt c : 0 < c -> parent c < c.
Proof. unfold parent. intros. apply Nat.Div0.div_lt_upper_bound; lia. Qed.

Lemma parent_child c i : 0 < c -> parent c = i <-> c = 2 * i + 1 \/ c = 2 * i + 2.
Proof.
  unfold parent. intros Hc.
  pose proof (Nat.div_mod_eq (c - 1) 2). pose proof (Nat.mod_upper_bound (c - 1) 2). lia.
Qed.

Lemma parent_left i : parent (2 * i + 1) = i.
Proof. apply parent_child; lia. Qed.

Lemma parent_right i : parent (2 * i + 1 + 1) = i.
Proof. apply parent_child; lia. Qed.

(** [h'] is [h] with the first [n] positions permuted. *)
Record reordered (n : nat) h h' : Prop := {
  reordered_wf : wf key_fn h';
  reordered_contents : contents h' = contents h;
  reordered_length : length (queue h') = length (queue h);
  reordered_rest k : n <= k -> at_ h' k = at_ h k
}.

Lemma reordered_refl n h : wf key_fn h -> reordered n h h.
Proof. by split. Qed.

Lemma reordered_trans n h1 h2 h3 : reordered n h1 h2 -> reordered n h2 h3 -> reordered n h1 h3.
Proof.
  intros [? E1 L1 R1] [? E2 L2 R2]. split; [done|congruence|congruence|].
  intros k Hk. by rewrite R2 // R1.
Qed.

Definition ordered_upto (n : nat) h : Prop := forall c, 0 < c < n -> edge_ok less_fn h c.

(** The children of position [i] are not below the parent of [i]. *)
Definition grand_ok (n : nat) h (i : nat) : Prop :=
  0 < i -> forall c a b, 0 < c < n -> parent c = i -> at_ h c = Some a ->
  at_ h (parent i) = Some b -> less_fn a b = false.

(** The order holds below [n] but for the edge above [j]. *)
Definition up_inv (n : nat) h (j : nat) : Prop :=
  (forall c, 0 < c < n -> c <> j -> edge_ok less_fn h c) /\ grand_ok n h j.

(** The order holds below [n] but for the edges below [i] and the edge above [e]. *)
Definition down_inv (n : nat) h (e i : nat) : Prop :=
  (forall c, 0 < c < n -> parent c <> i -> c <> e -> edge_ok less_fn h c) /\ grand_ok n h i.

Lemma ordered_grand_ok n h i : wf key_fn h -> ordered_upto n h -> grand_ok n h i.
Proof.
  intros Hwf Ho Hi c a b Hc Hp Ha Hb.
  pose proof (at_lt _ _ _ Ha). pose proof (parent_lt c ltac:(lia)).
  destruct (at_is_Some h i Hwf) as [m Hm]; [lia|].
  apply (swo_ge_trans a m b).
  - apply (Ho c Hc); [done|by rewrite Hp].
  - apply (Ho i); [lia|done..].
Qed.

(** What [swap i j] leaves at each position. *)
Definition swapped (i j : nat) h h' : Prop :=
  at_ h' i = at_ h j /\ at_ h' j = at_ h i /\
  forall k, k <> i -> k <> j -> at_ h' k = at_ h k.

Lemma swap_reordered n h i j :
  wf key_fn h -> i < n -> j < n -> n <= length (queue h) ->
  exists h', swap h i j = Some h' /\ reordered n h h' /\ swapped i j h h'.
Proof.
  intros Hwf Hi Hj Hn.
  destruct (swap_spec h i j Hwf) as (h' & -> & Hwf' & Hc & Hlen & Hat); [lia..|].
  exists h'. split_and!; [done| |].
  - split; try done. intros k Hk. rewrite Hat !decide_False //; lia.
  - split_and!.
    + by rewrite Hat decide_True.
    + rewrite Hat. case_decide; [by subst|by rewrite decide_True].
    + intros k ??. by rewrite Hat !decide_False.
Qed.

Lemma up_step n h h' j a b :
  0 < j < n -> at_ h j = Some a -> at_ h (parent j) = Some b -> less_fn a b = true ->
  up_inv n h j -> swapped (parent j) j h h' -> up_inv n h' (parent j).
Proof.
  intros Hj Ha Hb Hab [Hok Hgr] (Ha' & Hb' & Hoth).
  rewrite Ha in Ha'. rewrite Hb in Hb'. pose proof (parent_lt j ltac:(lia)). split.
  - intros c Hc Hcp x y Hx Hy. destruct (decide (c = j)) as [->|Hcj].
    { rewrite Hb' in Hx. rewrite Ha' in Hy. simplify_eq. by apply swo_asym. }
    rewrite Hoth // in Hx. destruct (decide (parent c = j)) as [Hpc|Hpc].
    { rewrite Hpc Hb' in Hy. simplify_eq. apply (Hgr ltac:(lia) c); done. }
    destruct (decide (parent c = parent j)) as [Hpp|Hpp].
    { rewrite Hpp Ha' in Hy. simplify_eq. destruct (less_fn x y) eqn:Hxy; [|done].
      pose proof (Hok c Hc Hcj x b Hx) as He. rewrite Hpp in He. specialize (He Hb).
      pose proof (swo_trans _ _ _ Hxy Hab). congruence. }
    rewrite Hoth // in Hy. by apply (Hok c).
  - intros Hp0 c x y Hc Hpc Hx Hy. pose proof (parent_lt (parent j) Hp0).
    rewrite Hoth in Hy; [lia..|].
    pose proof (Hok (parent j) ltac:(lia) ltac:(lia) b y Hb Hy).
    destruct (decide (c = j)) as [->|Hcj]; [rewrite Hb' in Hx; by simplify_eq|].
    pose proof (parent_lt c ltac:(lia)). rewrite Hoth in Hx; [lia..|].
    apply (swo_ge_trans x b y); [|done]. apply (Hok c Hc Hcj x b Hx). by rewrite Hpc.
Qed.

Lemma up_loop_spec n fuel h j :
  j < fuel -> wf key_fn h -> j < n -> n <= length (queue h) -> up_inv n h j ->
  exists h', up_loop less_fn fuel h j = Some h' /\ reordered n h h' /\ ordered_upto n h'.
Proof.
  revert h j. induction fuel as [|fuel IH]; intros h j Hfuel Hwf Hj Hn Hinv; [lia|]. simpl.
  case_decide as Hj0; last first.
  { assert (j = 0) as -> by lia. eexists. split_and!; eauto using reordered_refl.
    intros c Hc. apply Hinv; lia. }
  fold (parent j). pose proof (parent_lt j Hj0) as Hpj.
  rewrite decide_False; [lia|].
  destruct (less_total h j (parent j) Hwf) as (a & b & Ha & Hb & ->); [lia..|]. simpl.
  destruct (less_fn a b) eqn:Hab; simpl; last first.
  { eexists. split_and!; eauto using reordered_refl. intros c Hc.
    destruct (decide (c = j)) as [->|]; [|by apply Hinv].
    intros a' b' ??. by simplify_eq. }
  destruct (swap_reordered n h (parent j) j Hwf) as (h' & -> & Hre & Hsw); [lia..|]. simpl.
  destruct (IH h' (parent j)) as (h'' & ? & ? & ?).
  - lia.
  - apply Hre.
  - lia.
  - rewrite (reordered_length _ _ _ Hre). lia.
  - eapply up_step; eauto.
  - eauto using reordered_trans.
Qed.

Lemma min_child_spec n h i :
  wf key_fn h -> 2 * i + 1 < n -> n <= length (queue h) ->
  exists j x, min_child less_fn h i n = Some j /\ 0 < j < n /\ parent j = i /\ i < j /\
    at_ h j = Some x /\
    forall c y, 0 < c < n -> parent c = i -> at_ h c = Some y -> less_fn y x = false.
Proof.
  intros Hwf Hi Hn. unfold min_child.
  destruct (at_is_Some h (2 * i + 1) Hwf) as [x1 Hx1]; [lia|].
  case_decide as Hj2.
  - destruct (less_total h (2 * i + 1 + 1) (2 * i + 1) Hwf) as (x2 & x1' & Hx2 & Hx1' & ->); [lia..|].
    simpl. destruct (less_fn x2 x1') eqn:Hl.
    + exists (2 * i + 1 + 1), x2. split_and!; eauto using parent_left, parent_right with lia.
      intros c y Hc Hp Hy.
      destruct (proj1 (parent_child c i ltac:(lia)) Hp) as [->| ->]; [|replace (2 * i + 1 + 1) with (2 * i + 2) in Hx2 by lia]; simplify_eq;
        auto using swo_asym, swo_irrefl.
    + exists (2 * i + 1), x1'. split_and!; eauto using parent_left, parent_right with lia.
      intros c y Hc Hp Hy.
      destruct (proj1 (parent_child c i ltac:(lia)) Hp) as [->| ->]; [|replace (2 * i + 1 + 1) with (2 * i + 2) in Hx2 by lia]; simplify_eq;
        auto using swo_irrefl.
  - exists (2 * i + 1), x1. split_and!; eauto using parent_left, parent_right with lia.
    intros c y Hc Hp Hy.
    destruct (proj1 (parent_child c i ltac:(lia)) Hp) as [->| ->]; [|lia]. simplify_eq. apply swo_irrefl.
Qed.

Lemma down_step n h h' e i j x y :
  i < n -> 0 < j < n -> parent j = i -> at_ h j = Some x -> at_ h i = Some y ->
  (forall c z, 0 < c < n -> parent c = i -> at_ h c = Some z -> less_fn z x = false) ->
  less_fn x y = true -> (e = i \/ e = 0) ->
  down_inv n h e i -> swapped i j h h' -> down_inv n h' 0 j.
Proof.
  intros Hi Hj Hp Hx Hy Hmin Hxy He [Hok Hgr] (Hi' & Hj' & Hoth).
  rewrite Hx in Hi'. rewrite Hy in Hj'. pose proof (parent_lt j ltac:(lia)). split.
  - intros c Hc Hpc Hc0 u v Hu Hv. destruct (decide (c = j)) as [->|Hcj].
    { rewrite Hj' in Hu. rewrite Hp Hi' in Hv. simplify_eq. by apply swo_asym. }
    pose proof (parent_lt c ltac:(lia)).
    destruct (decide (c = i)) as [->|Hci].
    { rewrite Hi' in Hu. rewrite Hoth in Hv; [lia..|]. simplify_eq.
      apply (Hgr ltac:(lia) j); done. }
    rewrite Hoth // in Hu. destruct (decide (parent c = i)) as [Hpi|Hpi].
    { rewrite Hpi Hi' in Hv. simplify_eq. by apply (Hmin c). }
    rewrite Hoth // in Hv. apply (Hok c); try done. destruct He; lia.
  - intros _ c u v Hc Hpc Hu Hv. rewrite Hp Hi' in Hv. simplify_eq.
    pose proof (parent_lt c ltac:(lia)). rewrite Hoth in Hu; [lia..|].
    apply (Hok c Hc); [lia|destruct He; lia|done|done].
Qed.

Lemma down_loop_spec n fuel h e i :
  i < n -> n - i <= fuel -> wf key_fn h -> n <= length (queue h) ->
  (e = i \/ e = 0) -> down_inv n h e i ->
  exists h' i', down_loop less_fn fuel h i n = Some (h', i') /\ reordered n h h' /\ i <= i' /\
    (i' = i -> h' = h) /\
    (forall c, 0 < c < n -> (i' = i -> c <> e) -> edge_ok less_fn h' c).
Proof.
  revert h e i. induction fuel as [|fuel IH]; intros h e i Hi Hfuel Hwf Hn He Hinv; [lia|].
  cbn [down_loop]. case_decide as Hj1.
  { exists h, i. split_and!; eauto using reordered_refl. intros c Hc Hce.
    apply Hinv; [done| |by apply Hce]. rewrite parent_child; lia. }
  destruct (min_child_spec n h i) as (j & x & -> & Hj & Hp & Hij & Hx & Hmin); [done|lia|done|].
  cbn [mbind option_bind]. destruct (at_is_Some h i Hwf) as [y Hy]; [lia|].
  rewrite (less_at h j i x y Hx Hy). cbn [mbind option_bind].
  destruct (less_fn x y) eqn:Hxy; simpl; last first.
  { exists h, i. split_and!; eauto using reordered_refl. intros c Hc Hce u v Hu Hv.
    destruct (decide (parent c = i)) as [Hpc|Hpc]; [|by apply (proj1 Hinv c Hc Hpc (Hce eq_refl))].
    rewrite Hpc Hy in Hv. simplify_eq. apply (swo_ge_trans u x v); eauto. }
  destruct (swap_reordered n h i j Hwf) as (h' & -> & Hre & Hsw); [lia..|]. simpl.
  destruct (IH h' 0 j) as (h'' & i' & -> & Hre' & Hle & _ & Hall).
  - lia.
  - lia.
  - apply Hre.
  - rewrite (reordered_length _ _ _ Hre). lia.
  - by right.
  - by apply (down_step n h h' e i j x y).
  - exists h'', i'. split_and!; eauto using reordered_trans; [lia|lia|].
    intros c Hc _. apply Hall; lia.
Qed.

Lemma ordered_upto_all h : ordered_upto (length (queue h)) h -> ordered less_fn h.
Proof.
  intros Ho c Hc a b Ha Hb. apply (Ho c); [|done..].
  split; [done|]. by eapply at_lt.
Qed.

(** [down] followed by [up] when nothing moved: restores the order around [i]
    whatever object was put there. *)
Lemma down_up_spec n h i :
  i < n -> wf key_fn h -> n <= length (queue h) -> down_inv n h i i ->
  exists h1 h2 moved, down less_fn h i n = Some (h1, moved) /\
    (if moved : bool then Some h1 else up less_fn h1 i) = Some h2 /\
    reordered n h h2 /\ ordered_upto n h2.
Proof.
  intros Hi Hwf Hn Hinv. unfold down.
  destruct (down_loop_spec n (S n) h i i) as (h1 & i' & -> & Hre & Hle & Hsame & Hall); try done;
    [lia|by left|]. simpl.
  case_bool_decide as Hmv.
  - exists h1, h1, true. split_and!; try done. intros c Hc. apply Hall; [done|lia].
  - assert (i' = i) as -> by lia. rewrite (Hsame eq_refl) in Hall |- *.
    destruct (up_loop_spec n (S i) h i) as (h2 & ? & ? & ?); try done; [lia| |].
    { split; [|apply Hinv]. intros c Hc Hci. by apply Hall. }
    exists h, h2, false. by split_and!.
Qed.

Lemma wf_index_lt h k it : wf key_fn h -> items h !! k = Some it -> index it < length (queue h).
Proof. intros Hwf Hk. eapply lookup_lt_Some. by apply (wf_items _ _ Hwf). Qed.

Lemma wf_key h k it : wf key_fn h -> items h !! k = Some it -> key_fn (obj it) = k.
Proof.
  intros Hwf Hk.
  destruct (wf_queue _ _ Hwf _ _ (wf_items _ _ Hwf _ _ Hk)) as (it' & Hk' & _ & ?). congruence.
Qed.

Lemma at_key h i a : wf key_fn h -> at_ h i = Some a -> queue h !! i = Some (key_fn a).
Proof.
  intros Hwf (k & it & Hk & Hit & ->)%at_Some. by rewrite (wf_key h k it).
Qed.

(** Overwriting the object stored under a key keeps the heap well formed and
    changes the array at that key's position only. *)
Lemma replace_spec h k it o :
  wf key_fn h -> items h !! k = Some it -> key_fn o = k ->
  let h' := mkHeap (<[k := mkHeapItem o (index it)]> (items h)) (queue h) in
  wf key_fn h' /\ contents h' = <[k := o]> (contents h) /\
  at_ h' (index it) = Some o /\ (forall i, i <> index it -> at_ h' i = at_ h i).
Proof.
  intros Hwf Hk Hko h'. pose proof (wf_items _ _ Hwf _ _ Hk) as Hq. split_and!.
  - split; simpl.
    + intros i k' Hi. destruct (wf_queue _ _ Hwf _ _ Hi) as (it' & ? & ? & ?).
      destruct (decide (k' = k)) as [->|]; simplify_map_eq; eauto.
    + intros k' it' Hk'. destruct (decide (k' = k)) as [->|]; simplify_map_eq; [done|].
      by apply (wf_items _ _ Hwf).
  - by rewrite /contents /= fmap_insert.
  - rewrite /at_ /= Hq /=. by simplify_map_eq.
  - intros i Hi. rewrite /at_ /=. destruct (queue h !! i) as [k'|] eqn:Hk'; [|done]. simpl.
    rewrite lookup_insert_ne //. intros ->. apply Hi. by eapply wf_queue_inj.
Qed.

(** A change at one position breaks the order around that position only. *)
Lemma changed_at_down_inv n h h' i :
  wf key_fn h -> ordered_upto n h -> (forall k, k <> i -> k < n -> at_ h' k = at_ h k) ->
  down_inv n h' i i.
Proof.
  intros Hwf Ho Hoth. split.
  - intros c Hc Hp Hci a b Ha Hb. pose proof (parent_lt c ltac:(lia)).
    rewrite Hoth in Ha; [lia..|]. rewrite Hoth in Hb; [lia..|]. by apply (Ho c).
  - intros Hi0 c a b Hc Hp Ha Hb. pose proof (parent_lt c ltac:(lia)). pose proof (parent_lt i Hi0).
    rewrite Hoth in Ha; [lia..|]. rewrite Hoth in Hb; [lia..|].
    by apply (ordered_grand_ok n h i Hwf Ho Hi0 c).
Qed.

(** Appending a fresh key. *)
Lemma append_spec h o :
  wf key_fn h -> items h !! key_fn o = None ->
  let n := length (queue h) in
  let h' := mkHeap (<[key_fn o := mkHeapItem o n]> (items h)) (queue h ++ [key_fn o]) in
  wf key_fn h' /\ contents h' = <[key_fn o := o]> (contents h) /\
  (forall i, i < n -> at_ h' i = at_ h i).
Proof.
  intros Hwf Hk n h'.
  assert (forall i k, queue h !! i = Some k -> k <> key_fn o) as Hfresh.
  { intros i k Hi ->. destruct (wf_queue _ _ Hwf _ _ Hi) as (? & ? & _). congruence. }
  split_and!.
  - split; simpl.
    + intros i k [Hi|[Hi ?]]%lookup_app_Some.
      * destruct (wf_queue _ _ Hwf _ _ Hi) as (it & ? & ? & ?).
        rewrite lookup_insert_ne; [naive_solver|eauto].
      * destruct (i - length (queue h)) as [|d] eqn:Hd; [|done]. simplify_eq/=.
        simplify_map_eq. eexists. split_and!; [done| |done]. simpl. lia.
    + intros k it Hit. destruct (decide (k = key_fn o)) as [->|]; simplify_map_eq.
      * by rewrite lookup_app_r // Nat.sub_diag.
      * apply lookup_app_l_Some. by apply (wf_items _ _ Hwf).
  - by rewrite /contents /= fmap_insert.
  - intros i Hi. rewrite /at_ /= lookup_app_l //.
    destruct (queue h !! i) as [k|] eqn:Hki; [|done]. simpl. rewrite lookup_insert_ne //.
    intros <-. by eapply Hfresh.
Qed.

(** Dropping the last position. *)
Lemma drop_last_spec h n a :
  wf key_fn h -> length (queue h) = S n -> at_ h n = Some a ->
  exists it, items h !! key_fn a = Some it /\ obj it = a /\
    vec_pop (queue h) = Some (key_fn a, take n (queue h)) /\
    let h' := mkHeap (delete (key_fn a) (items h)) (take n (queue h)) in
    wf key_fn h' /\ contents h' = delete (key_fn a) (contents h) /\
    length (queue h') = n /\ (forall i, i < n -> at_ h' i = at_ h i).
Proof.
  intros Hwf Hlen Ha. pose proof (at_key h n a Hwf Ha) as Hq.
  destruct (wf_queue _ _ Hwf _ _ Hq) as (it & Hit & Hidx & Hkey).
  assert (obj it = a) as Hobj.
  { rewrite /at_ Hq /= Hit /= in Ha. by simplify_eq. }
  assert (forall i k, i < n -> queue h !! i = Some k -> k <> key_fn a) as Hne.
  { intros i k Hi Hk ->. pose proof (wf_queue_inj h i n _ Hwf Hk Hq). lia. }
  exists it. split_and!; [done|done| |].
  { unfold vec_pop. rewrite last_lookup Hlen /= Hq. by rewrite Nat.sub_0_r. }
  split_and!; simpl.
  - split; simpl.
    + intros i k [Hi Hk]%lookup_take_Some. destruct (wf_queue _ _ Hwf _ _ Hi) as (it' & ? & ? & ?).
      rewrite lookup_delete_ne; eauto. intros ?. by eapply Hne.
    + intros k it' [Hk Hit']%lookup_delete_Some.
      pose proof (wf_items _ _ Hwf _ _ Hit') as Hk'. apply lookup_take_Some. split; [done|].
      pose proof (lookup_lt_Some _ _ _ Hk'). destruct (decide (index it' = n)) as [E|]; [|lia].
      rewrite E Hq in Hk'. by simplify_eq.
  - by rewrite /contents /= fmap_delete.
  - rewrite length_take. lia.
  - intros i Hi. rewrite /at_ /= lookup_take_lt //.
    destruct (queue h !! i) as [k|] eqn:Hk; [|done]. simpl. rewrite lookup_delete_ne //.
    intros ?. by eapply Hne.
Qed.

(** The part of [remove_at] before the final [pop] moves the object of position
    [i] to the end and keeps the rest in order. *)
Lemma remove_at_spec h i :
  heap_inv key_fn less_fn h -> i < length (queue h) ->
  exists h' a, remove_at less_fn h i = Some (h', a) /\ at_ h i = Some a /\
    heap_inv key_fn less_fn h' /\ contents h' = delete (key_fn a) (contents h) /\
    S (length (queue h')) = length (queue h).
Proof.
  intros [Hwf Ho] Hi. unfold remove_at. destruct (length (queue h)) as [|n] eqn:Hlen; [lia|].
  assert (ordered_upto n h) as Hon by (intros c Hc; apply Ho; lia).
  destruct (at_is_Some h i Hwf) as [a Ha]; [lia|].
  match goal with |- context [mbind (M := option) _ ?e] => set (pre := e) end.
  assert (exists h1, pre = Some h1 /\ reordered (S n) h h1 /\ ordered_upto n h1 /\ at_ h1 n = Some a)
    as (h1 & -> & [Hwf1 Hc1 Hlen1 _] & Ho1 & Ha1).
  { subst pre. case_decide as Hni.
    { subst. exists h. split_and!; eauto using reordered_refl. }
    destruct (swap_reordered (S n) h i n Hwf) as (h0 & -> & Hre & Hsi & Hsn & Hoth); [lia..|]. simpl.
    destruct (down_up_spec n h0 i) as (h' & h1 & mv & -> & Hup & Hre1 & Ho1); try done.
    - lia.
    - apply Hre.
    - rewrite (reordered_length _ _ _ Hre). lia.
    - apply (changed_at_down_inv n h); try done. intros k ??. apply Hoth; lia.
    - simpl. exists h1. split_and!; try done.
      + eapply reordered_trans; [done|]. destruct Hre1 as [? ? ? Hr]. split; eauto with lia.
      + rewrite (reordered_rest _ _ _ Hre1 n) //. congruence. }
  destruct (drop_last_spec h1 n a) as (it & Hit & Hobj & Hpop & Hwf' & Hc' & Hl' & Hat'); try done.
  { congruence. }
  simpl. rewrite Hpop /= Hit /=. eexists _, _. split_and!; [by rewrite Hobj|done| | |].
  - split; [done|]. intros c Hc x y Hx Hy. pose proof (at_lt _ _ _ Hx) as Hlt. rewrite Hl' in Hlt.
    pose proof (parent_lt c Hc). rewrite Hat' // in Hx. rewrite Hat' in Hy; [lia|].
    by apply (Ho1 c).
  - by rewrite Hc' Hc1.
  - simpl in *. by rewrite Hl'.
Qed.

Lemma root_minimal h r i a :
  wf key_fn h -> ordered less_fn h -> at_ h 0 = Some r -> at_ h i = Some a -> less_fn a r = false.
Proof.
  intros Hwf Ho Hr. revert a. induction i as [i IH] using lt_wf_ind. intros a Ha.
  destruct (decide (i = 0)) as [->|Hi].
  { simplify_eq. apply swo_irrefl. }
  pose proof (parent_lt i ltac:(lia)). pose proof (at_lt _ _ _ Ha).
  destruct (at_is_Some h (parent i) Hwf) as [b Hb]; [lia|].
  apply (swo_ge_trans a b r); [apply (Ho i); [lia|done..]|]. by apply (IH (parent i)).
Qed.

Lemma contents_at h k a : wf key_fn h -> contents h !! k = Some a -> exists i, at_ h i = Some a.
Proof.
  intros Hwf. unfold contents. rewrite lookup_fmap. intros (it & Hk & ->)%fmap_Some.
  exists (index it). by eapply at_items.
Qed.

Lemma at_in_contents h i a : wf key_fn h -> at_ h i = Some a -> contents h !! key_fn a = Some a.
Proof. intros Hwf Ha. pose proof (at_key _ _ _ Hwf Ha) as Hq. rewrite at_contents Hq /= in Ha. done. Qed.

Lemma peek_at h : peek h = at_ h 0.
Proof. unfold peek, at_. by destruct (queue h). Qed.

Lemma empty_contents h : wf key_fn h -> queue h = [] <-> contents h = ∅.
Proof.
  intros Hwf. split; intros He.
  - apply map_eq. intros k. rewrite lookup_empty. apply eq_None_not_Some.
    intros [a [i Hi]%(contents_at _ _ _ Hwf)]. apply at_lt in Hi. rewrite He /= in Hi. lia.
  - destruct (queue h) as [|k q] eqn:Hq; [done|].
    destruct (at_is_Some h 0 Hwf) as [a Ha]; [rewrite Hq /=; lia|].
    apply (at_in_contents _ _ _ Hwf) in Ha. by rewrite He lookup_empty in Ha.
Qed.

Lemma heap_inv_new : heap_inv key_fn less_fn new.
Proof. split; [split|]; simpl; intros; simplify_map_eq; done. Qed.

Lemma add_or_update_spec h o :
  heap_inv key_fn less_fn h ->
  exists h', add_or_update key_fn less_fn h o = Some h' /\ heap_inv key_fn less_fn h' /\
    contents h' = <[key_fn o := o]> (contents h).
Proof.
  intros [Hwf Ho]. unfold add_or_update. destruct (items h !! key_fn o) as [it|] eqn:Hk.
  - destruct (replace_spec h _ it o Hwf Hk eq_refl) as (Hwf' & Hc & _ & Hoth).
    set (h' := mkHeap _ _) in *. pose proof (wf_index_lt _ _ _ Hwf Hk).
    destruct (down_up_spec (length (queue h')) h' (index it)) as (h1 & h2 & mv & Hd & Hu & Hre & Hor);
      [done..| |].
    { apply (changed_at_down_inv _ h); [done| |auto]. intros c Hc'. apply Ho; lia. }
    exists h2. unfold fix_. rewrite Hd. split_and!; [done| |by rewrite (reordered_contents _ _ _ Hre)].
    split; [apply Hre|]. apply ordered_upto_all. by rewrite (reordered_length _ _ _ Hre).
  - destruct (append_spec h o Hwf Hk) as (Hwf' & Hc & Hoth). set (h' := mkHeap _ _) in *.
    assert (length (queue h') = S (length (queue h))) as Hlen by (rewrite /= length_app /=; lia).
    destruct (up_loop_spec (S (length (queue h))) (S (length (queue h))) h' (length (queue h)))
      as (h2 & Hu & Hre & Hor); [lia|done|lia|lia| |].
    + split.
      * intros c Hc' Hcn a b Ha Hb. pose proof (parent_lt c ltac:(lia)).
        rewrite Hoth in Ha; [lia|]. rewrite Hoth in Hb; [lia|]. apply (Ho c); [lia|done..].
      * intros _ c a b Hc' Hp. pose proof (parent_lt c ltac:(lia)). lia.
    + exists h2. split_and!; [done| |by rewrite (reordered_contents _ _ _ Hre)].
      split; [apply Hre|]. apply ordered_upto_all. by rewrite (reordered_length _ _ _ Hre) Hlen.
Qed.

Lemma delete_by_key_spec h k :
  heap_inv key_fn less_fn h ->
  match contents h !! k with
  | Some a => exists h', delete_by_key less_fn h k = Some (h', Ok a) /\
      heap_inv key_fn less_fn h' /\ contents h' = delete k (contents h)
  | None => delete_by_key less_fn h k = Some (h, Err "object not found")
  end.
Proof.
  intros Hinv. pose proof (proj1 Hinv) as Hwf. rewrite /contents lookup_fmap /delete_by_key.
  destruct (items h !! k) as [it|] eqn:Hk; [simpl|done].
  destruct (remove_at_spec h (index it) Hinv) as (h' & a & -> & Ha & Hinv' & Hc & _).
  { by eapply wf_index_lt. }
  rewrite (at_items h k it Hwf Hk) in Ha. simplify_eq. exists h'. split_and!; [done|done|].
  by rewrite -/(contents h') -/(contents h) Hc (wf_key h k it).
Qed.

Lemma pop_spec h :
  heap_inv key_fn less_fn h ->
  match peek h with
  | Some a => minimal key_fn less_fn (contents h) a /\
      exists h', pop less_fn h = Some (h', Ok a) /\ heap_inv key_fn less_fn h' /\
        contents h' = delete (key_fn a) (contents h) /\ S (length (queue h')) = length (queue h)
  | None => contents h = ∅ /\ pop less_fn h = Some (h, Err "heap is empty")
  end.
Proof.
  intros Hinv. pose proof Hinv as [Hwf Ho]. rewrite peek_at /pop. case_decide as Hq.
  { rewrite {1}/at_ Hq /=. by split; [apply empty_contents|]. }
  assert (0 < length (queue h)) as Hlt by (destruct (queue h); simpl; [done|lia]).
  destruct (remove_at_spec h 0 Hinv Hlt) as (h' & a & -> & Ha & Hinv' & Hc & Hlen). rewrite Ha.
  split; [|by exists h']. split; [by eapply at_in_contents|].
  intros k b [i Hi]%(contents_at _ _ _ Hwf). by apply (root_minimal h a i b).
Qed.

Lemma run_op_spec h op :
  heap_inv key_fn less_fn h ->
  exists h' out, run_op key_fn less_fn h op = Some (h', out) /\ heap_inv key_fn less_fn h' /\
    pm_step key_fn less_fn (contents h) op (contents h') out.
Proof.
  intros Hinv. destruct op as [o|k| |]; simpl.
  - destruct (add_or_update_spec h o Hinv) as (h' & -> & ? & Hc). simpl.
    eexists _, _. split_and!; [done|done|]. rewrite Hc. constructor.
  - pose proof (delete_by_key_spec h k Hinv) as Hd. destruct (contents h !! k) as [a|] eqn:Hk.
    + destruct Hd as (h' & -> & ? & Hc). eexists _, _. split_and!; [done|done|].
      rewrite Hc. by constructor.
    + rewrite Hd. eexists _, _. split_and!; [done|done|]. by constructor.
  - pose proof (pop_spec h Hinv) as Hp. destruct (peek h) as [a|].
    + destruct Hp as (Hm & h' & -> & ? & Hc & _). eexists _, _. split_and!; [done|done|].
      rewrite Hc. by constructor.
    + destruct Hp as [He ->]. eexists _, _. split_and!; [done|done|]. by constructor.
  - pose proof (pop_spec h Hinv) as Hp. eexists _, _. split_and!; [done|done|].
    destruct (peek h); constructor; apply Hp.
Qed.

(** C10: every sequence of heap operations on a heap in good order runs without
    a panic (no index out of range, no failed [expect]) and without exhausting
    the loops' fuel, keeps the key index and the heap order, and answers what
    the priority map it represents answers: [add_or_update] inserts by key,
    [delete] removes by key or reports the absence, and [pop]/[peek] return an
    object that no stored object is less than. *)
Theorem heap_refines_priority_map h ops :
  heap_inv key_fn less_fn h ->
  exists h' outs, run_ops key_fn less_fn h ops = Some (h', outs) /\ heap_inv key_fn less_fn h' /\
    pm_steps key_fn less_fn (contents h) ops (contents h') outs.
Proof.
  revert h. induction ops as [|op ops IH]; intros h Hinv; simpl.
  { eexists _, _. split_and!; [done|done|constructor]. }
  destruct (run_op_spec h op Hinv) as (h1 & out & -> & Hinv1 & Hs). simpl.
  destruct (IH h1 Hinv1) as (h2 & outs & -> & Hinv2 & Hss). simpl.
  eexists _, _. split_and!; [done|done|]. by econstructor.
Qed.

(** Popping a heap of [n] objects until it is empty takes exactly [n] pops
    and yields every stored object once, in an order in which no object is
    less than an earlier one. *)
Theorem heap_drain_sorted h :
  heap_inv key_fn less_fn h ->
  exists l, drain less_fn (len h) h = Some l /\
    l ≡ₚ (map_to_list (contents h)).*2 /\
    StronglySorted (fun a b => less_fn b a = false) l.
Proof.
  unfold len. remember (length (queue h)) as n eqn:Hn. revert h Hn.
  induction n as [|n IH]; intros h Hn Hinv; simpl; pose proof (proj1 Hinv) as Hwf.
  { destruct (queue h) eqn:Hq; [|done]. exists []. split_and!; [done| |constructor].
    by rewrite (proj1 (empty_contents h Hwf) Hq) map_to_list_empty. }
  pose proof (pop_spec h Hinv) as Hp. destruct (peek h) as [a|]; last first.
  { destruct Hp as [He _]. apply empty_contents in He; [|done]. by rewrite He in Hn. }
  destruct Hp as ([Hka Hmin] & h' & -> & Hinv' & Hc & Hlen). simpl.
  destruct (IH h') as (l & -> & Hperm & Hsort); [lia|done|]. simpl.
  exists (a :: l). split_and!; [done| |].
  - rewrite Hperm Hc. rewrite -{2}(insert_delete_id (contents h) (key_fn a) a Hka).
    rewrite map_to_list_insert ?lookup_delete_eq //.
  - constructor; [done|]. apply Forall_forall. intros b Hb.
    rewrite Hperm Hc in Hb. apply list_elem_of_fmap in Hb as ([k b'] & -> & Hb).
    apply elem_of_map_to_list, lookup_delete_Some in Hb as [_ Hb]. by apply (Hmin k).
Qed.

End HeapFacts.

(** Witnesses: a heap of jobs ordered by their number. *)
Definition job_key (j : string * Z) : string := j.1.
Definition job_less (a b : string * Z) : bool := (a.2 <? b.2)%Z.

#[export] Instance job_less_swo : StrictWeakOrder job_less.
Proof. split; unfold job_less; intros; lia. Qed.

Lemma heap_refines_priority_map_witness :
  exists h' outs,
    run_ops job_key job_less new
      [AddOrUpdate ("a", 3%Z); AddOrUpdate ("b", 1%Z); AddOrUpdate ("a", 0%Z); Pop; DeleteByKey "z"]
    = Some (h', outs) /\ heap_inv job_key job_less h' /\
    pm_steps job_key job_less (contents (T := string * Z) new)
      [AddOrUpdate ("a", 3%Z); AddOrUpdate ("b", 1%Z); AddOrUpdate ("a", 0%Z); Pop; DeleteByKey "z"]
      (contents h') outs.
Proof. apply heap_refines_priority_map; [apply _|apply heap_inv_new]. Defined.

Definition job_heap : Heap (string * Z) :=
  mkHeap {[ "a" := mkHeapItem ("a", 3%Z) 1; "b" := mkHeapItem ("b", 1%Z) 0 ]} ["b"; "a"].

Lemma job_heap_inv : heap_inv job_key job_less job_heap.
Proof.
  destruct (add_or_update_spec job_key job_less new ("a", 3%Z)) as (h1 & H1 & Hi1 & _);
    [apply heap_inv_new|].
  destruct (add_or_update_spec job_key job_less h1 ("b", 1%Z) Hi1) as (h2 & H2 & Hi2 & _).
  vm_compute in H1. simplify_eq. vm_compute in H2. by simplify_eq.
Qed.

Lemma heap_drain_sorted_witness :
  exists l, drain job_less (len job_heap) job_heap = Some l /\
    l ≡ₚ (map_to_list (contents job_heap)).*2 /\
    StronglySorted (fun a b => job_less b a = false) l.
Proof. apply (heap_drain_sorted job_key job_less job_heap). apply job_heap_inv. Defined.

(** The model runs: three jobs come back in order, the updated one first. *)
Example drain_jobs :
  (h1 ← add_or_update job_key job_less new ("a", 3%Z);
   h2 ← add_or_update job_key job_less h1 ("b", 1%Z);
   h3 ← add_or_update job_key job_less h2 ("c", 2%Z);
   h4 ← add_or_update job_key job_less h3 ("a", 0%Z);
   drain job_less 3 h4) = Some [("a", 0%Z); ("b", 1%Z); ("c", 2%Z)].
Proof. vm_compute. reflexivity. Qed.
