(* ===== verification/KubeTypes.v ===== *)
(** * The API objects the modelled code reads

    The parts of [ObjectMeta] ([crates/common/src/types.rs]) and of [Pod]
    ([crates/common/src/resources/pod.rs]) that the scheduler's queue, its
    nominator and its event classification read.  A field the modelled code
    never looks at (containers, volumes, conditions, ...) is carried along in
    [pod_payload], a label that stands for the rest of the object. *)

From S2P Require Import Prelude.

Record ObjectMeta := mkObjectMeta {
  meta_name : string;
  meta_namespace : option string;
  meta_uid : string;
  meta_labels : option (gmap string string)
}.

Record Toleration := mkToleration {
  tol_key : option string;
  tol_operator : option string;
  tol_value : option string;
  tol_effect : option string;
  tol_toleration_seconds : option Z
}.

Record PodResourceClaimStatus := mkPodResourceClaimStatus {
  prcs_name : string;
  prcs_resource_claim_name : option string
}.

Record ContainerExtendedResourceRequest := mkContainerExtendedResourceRequest {
  cer_container_name : string;
  cer_request_name : string;
  cer_resource_name : string
}.

Record PodExtendedResourceClaimStatus := mkPodExtendedResourceClaimStatus {
  pecs_request_mappings : list ContainerExtendedResourceRequest;
  pecs_resource_claim_name : string
}.

Record PodSpec := mkPodSpec {
  spec_node_name : option string;
  spec_priority : option Z;
  spec_scheduler_name : option string;
  spec_tolerations : option (list Toleration);
  spec_scheduling_gates : option (list string)
}.

Record PodStatus := mkPodStatus {
  status_nominated_node_name : option string;
  status_resource_claim_statuses : option (list PodResourceClaimStatus);
  status_extended_resource_claim_status : option PodExtendedResourceClaimStatus
}.

Record Pod := mkPod {
  pod_metadata : ObjectMeta;
  pod_spec : option PodSpec;
  pod_status : option PodStatus;
  pod_payload : string
}.

(** [Option<String>::as_deref().unwrap_or("")] *)
Definition str_or_empty (o : option string) : string := default "" o.

Definition pod_name (p : Pod) : string := meta_name (pod_metadata p).
Definition pod_namespace (p : Pod) : string := str_or_empty (meta_namespace (pod_metadata p)).
Definition pod_uid (p : Pod) : string := meta_uid (pod_metadata p).

(** A pod with only its identity, for examples and witnesses. *)
Definition bare_pod (ns name uid : string) : Pod :=
  mkPod (mkObjectMeta name (Some ns) uid None) None None "".

#[export] Instance ObjectMeta_eq_dec : EqDecision ObjectMeta.
Proof. solve_decision. Defined.
#[export] Instance Toleration_eq_dec : EqDecision Toleration.
Proof. solve_decision. Defined.
#[export] Instance PodResourceClaimStatus_eq_dec : EqDecision PodResourceClaimStatus.
Proof. solve_decision. Defined.
#[export] Instance ContainerExtendedResourceRequest_eq_dec :
  EqDecision ContainerExtendedResourceRequest.
Proof. solve_decision. Defined.
#[export] Instance PodExtendedResourceClaimStatus_eq_dec :
  EqDecision PodExtendedResourceClaimStatus.
Proof. solve_decision. Defined.
#[export] Instance PodSpec_eq_dec : EqDecision PodSpec.
Proof. solve_decision. Defined.
#[export] Instance PodStatus_eq_dec : EqDecision PodStatus.
Proof. solve_decision. Defined.
#[export] Instance Pod_eq_dec : EqDecision Pod.
Proof. solve_decision. Defined.
