(* ===== verification/ClusterEvents.v ===== *)
(** * Cluster events

    Model of [crates/scheduler/src/queue/events.rs]: action types as bit masks,
    event resources, the matching of an incoming event with a registered one,
    and the classification of a pod update into events. *)

From S2P Require Import Prelude KubeTypes.

Open Scope Z_scope.

(** ** Action types: an [i64] bit mask *)

Definition ADD : Z := Z.shiftl 1 0.
Definition DELETE : Z := Z.shiftl 1 1.
Definition UPDATE_NODE_ALLOCATABLE : Z := Z.shiftl 1 2.
Definition UPDATE_NODE_LABEL : Z := Z.shiftl 1 3.
Definition UPDATE_NODE_TAINT : Z := Z.shiftl 1 4.
Definition UPDATE_NODE_CONDITION : Z := Z.shiftl 1 5.
Definition UPDATE_NODE_ANNOTATION : Z := Z.shiftl 1 6.
Definition UPDATE_NODE_DECLARED_FEATURE : Z := Z.shiftl 1 7.
Definition UPDATE_POD_LABEL : Z := Z.shiftl 1 8.
Definition UPDATE_POD_SCALE_DOWN : Z := Z.shiftl 1 9.
Definition UPDATE_POD_TOLERATION : Z := Z.shiftl 1 10.
Definition UPDATE_POD_SCHEDULING_GATES_ELIMINATED : Z := Z.shiftl 1 11.
Definition UPDATE_POD_GENERATED_RESOURCE_CLAIM : Z := Z.shiftl 1 12.
Definition ALL : Z := Z.shiftl 1 13 - 1.
Definition UPDATE : Z :=
  Z.lor UPDATE_NODE_ALLOCATABLE (Z.lor UPDATE_NODE_LABEL (Z.lor UPDATE_NODE_TAINT
  (Z.lor UPDATE_NODE_CONDITION (Z.lor UPDATE_NODE_ANNOTATION
  (Z.lor UPDATE_NODE_DECLARED_FEATURE (Z.lor UPDATE_POD_LABEL (Z.lor UPDATE_POD_SCALE_DOWN
  (Z.lor UPDATE_POD_TOLERATION (Z.lor UPDATE_POD_SCHEDULING_GATES_ELIMINATED
  UPDATE_POD_GENERATED_RESOURCE_CLAIM))))))))).
Definition NONE : Z := 0.

(** [impl fmt::Display for ActionType] *)
Definition action_type_string (a : Z) : string :=
  if decide (a = ADD) then "Add"
  else if decide (a = DELETE) then "Delete"
  else if decide (a = UPDATE_NODE_ALLOCATABLE) then "UpdateNodeAllocatable"
  else if decide (a = UPDATE_NODE_LABEL) then "UpdateNodeLabel"
  else if decide (a = UPDATE_NODE_TAINT) then "UpdateNodeTaint"
  else if decide (a = UPDATE_NODE_CONDITION) then "UpdateNodeCondition"
  else if decide (a = UPDATE_NODE_ANNOTATION) then "UpdateNodeAnnotation"
  else if decide (a = UPDATE_NODE_DECLARED_FEATURE) then "UpdateNodeDeclaredFeature"
  else if decide (a = UPDATE_POD_LABEL) then "UpdatePodLabel"
  else if decide (a = UPDATE_POD_SCALE_DOWN) then "UpdatePodScaleDown"
  else if decide (a = UPDATE_POD_TOLERATION) then "UpdatePodToleration"
  else if decide (a = UPDATE_POD_SCHEDULING_GATES_ELIMINATED) then
    "UpdatePodSchedulingGatesEliminated"
  else if decide (a = UPDATE_POD_GENERATED_RESOURCE_CLAIM) then "UpdatePodGeneratedResourceClaim"
  else if decide (a = ALL) then "All"
  else if decide (a = UPDATE) then "Update"
  else "".

(** ** Resources and events *)

Inductive EventResource :=
| RPod | RAssignedPod | RUnschedulablePod | RNode | RPersistentVolume | RPersistentVolumeClaim
| RCsiNode | RCsiDriver | RVolumeAttachment | RCsiStorageCapacity | RStorageClass
| RResourceClaim | RResourceSlice | RDeviceClass | RWorkload | RWildCard.

#[export] Instance EventResource_eq_dec : EqDecision EventResource.
Proof. solve_decision. Defined.

Definition event_resource_string (r : EventResource) : string :=
  match r with
  | RPod => "Pod"
  | RAssignedPod => "AssignedPod"
  | RUnschedulablePod => "UnschedulablePod"
  | RNode => "Node"
  | RPersistentVolume => "PersistentVolume"
  | RPersistentVolumeClaim => "PersistentVolumeClaim"
  | RCsiNode => "storage.k8s.io/CSINode"
  | RCsiDriver => "storage.k8s.io/CSIDriver"
  | RVolumeAttachment => "storage.k8s.io/VolumeAttachment"
  | RCsiStorageCapacity => "storage.k8s.io/CSIStorageCapacity"
  | RStorageClass => "storage.k8s.io/StorageClass"
  | RResourceClaim => "resource.k8s.io/ResourceClaim"
  | RResourceSlice => "resource.k8s.io/ResourceSlice"
  | RDeviceClass => "resource.k8s.io/DeviceClass"
  | RWorkload => "scheduling.k8s.io/Workload"
  | RWildCard => "*"
  end.

Record ClusterEvent := mkClusterEvent {
  ce_resource : EventResource;
  ce_action_type : Z;
  ce_custom_label : string
}.

#[export] Instance ClusterEvent_eq_dec : EqDecision ClusterEvent.
Proof. solve_decision. Defined.

Definition new_event (r : EventResource) (a : Z) : ClusterEvent := mkClusterEvent r a "".

Definition label (e : ClusterEvent) : string :=
  if decide (ce_custom_label e = "") then
    event_resource_string (ce_resource e) +:+ action_type_string (ce_action_type e)
  else ce_custom_label e.

Inductive QueueingHint := HintQueueSkip | HintQueue.

#[export] Instance QueueingHint_eq_dec : EqDecision QueueingHint.
Proof. solve_decision. Defined.

Definition SCHEDULE_ATTEMPT_FAILURE : string := "ScheduleAttemptFailure".
Definition BACKOFF_COMPLETE : string := "BackoffComplete".
Definition FORCE_ACTIVATE : string := "ForceActivate".
Definition UNSCHEDULABLE_TIMEOUT : string := "UnschedulableTimeout".

Definition EVENT_UNSCHEDULED_POD_ADD : ClusterEvent := new_event RUnschedulablePod ADD.
Definition EVENT_UNSCHEDULED_POD_UPDATE : ClusterEvent := new_event RUnschedulablePod UPDATE.
Definition EVENT_UNSCHEDULABLE_TIMEOUT : ClusterEvent :=
  mkClusterEvent RWildCard ALL UNSCHEDULABLE_TIMEOUT.
Definition EVENT_FORCE_ACTIVATE : ClusterEvent := mkClusterEvent RWildCard ALL FORCE_ACTIVATE.

(** ** Matching *)

Definition cluster_event_is_wild_card (ce : ClusterEvent) : bool :=
  bool_decide (ce_resource ce = RWildCard) && (ce_action_type ce =? ALL).

Definition match_event_resources (r resource : EventResource) : bool :=
  bool_decide (r = RWildCard) || bool_decide (r = resource)
  || (bool_decide (r = RPod)
      && (bool_decide (resource = RAssignedPod) || bool_decide (resource = RUnschedulablePod))).

Definition match_cluster_events (ce incoming : ClusterEvent) : bool :=
  cluster_event_is_wild_card ce
  || (match_event_resources (ce_resource ce) (ce_resource incoming)
      && negb (Z.land (ce_action_type ce) (ce_action_type incoming) =? NONE)
      && (ce_action_type incoming <=? ce_action_type ce)).

Definition match_any_cluster_event (ce : ClusterEvent) (incoming : list ClusterEvent) : bool :=
  existsb (fun e => match_cluster_events e ce) incoming.

(** ** Classification of a pod update

    [pod_requests_milli] stands for [quota::pod_requests_opts] followed by
    [Quantity::milli_value] on every request; the resource accounting of a pod
    is not part of this development. *)
Section PodUpdate.
Context (pod_requests_milli : Pod -> gmap string Z).

Definition is_label_changed (new_labels old_labels : option (gmap string string)) : bool :=
  negb (bool_decide (default ∅ new_labels = default ∅ old_labels)).

Definition extract_pod_labels_change (new_pod old_pod : Pod) : Z :=
  if is_label_changed (meta_labels (pod_metadata new_pod)) (meta_labels (pod_metadata old_pod))
  then UPDATE_POD_LABEL else NONE.

Definition extract_pod_scale_down (new_pod old_pod : Pod) : Z :=
  if existsb (fun '(name, old_req) =>
       match pod_requests_milli new_pod !! name with
       | None => true
       | Some new_req => new_req <? old_req
       end) (map_to_list (pod_requests_milli old_pod))
  then UPDATE_POD_SCALE_DOWN else NONE.

Definition opt_len {A} (o : option (list A)) : nat := length (default [] o).

Definition extract_pod_toleration_change (new_pod old_pod : Pod) : Z :=
  let len p := opt_len (pod_spec p ≫= spec_tolerations) in
  if decide (len new_pod = len old_pod) then NONE else UPDATE_POD_TOLERATION.

Definition extract_pod_scheduling_gate_eliminated_change (new_pod old_pod : Pod) : Z :=
  let len p := opt_len (pod_spec p ≫= spec_scheduling_gates) in
  if decide (len new_pod = 0%nat /\ len old_pod <> 0%nat)
  then UPDATE_POD_SCHEDULING_GATES_ELIMINATED else NONE.

(** [a.len() == b.len() && a.iter().zip(&b).all(..)] compares two lists of
    records on all their fields, so it is list equality. *)
Definition extract_pod_generated_resource_claim_change (new_pod old_pod : Pod) : Z :=
  let claims p := default [] (pod_status p ≫= status_resource_claim_statuses) in
  let ext p := pod_status p ≫= status_extended_resource_claim_status in
  if decide (claims new_pod = claims old_pod /\ ext new_pod = ext old_pod)
  then NONE else UPDATE_POD_GENERATED_RESOURCE_CLAIM.

Definition pod_node_name (p : Pod) : string := str_or_empty (pod_spec p ≫= spec_node_name).

Definition pod_scheduling_properties_change (new_pod old_pod : Pod) : list ClusterEvent :=
  let r := if decide (pod_node_name new_pod = "") then RUnschedulablePod else RAssignedPod in
  let extractors := [extract_pod_labels_change; extract_pod_scale_down;
    extract_pod_scheduling_gate_eliminated_change; extract_pod_toleration_change;
    extract_pod_generated_resource_claim_change] in
  let events :=
    omap (fun f : Pod -> Pod -> Z =>
      let event := f new_pod old_pod in
      if decide (event = NONE) then None else Some (new_event r event)) extractors in
  if decide (events = []) then [new_event r UPDATE] else events.

End PodUpdate.

(** ** Facts *)

Lemma land_pow2_testbit a k :
  0 <= k -> (Z.land a (2 ^ k) =? 0) = negb (Z.testbit a k).
Proof.
  intros Hk. destruct (Z.testbit a k) eqn:Ht; simpl.
  - apply Z.eqb_neq. intros H. apply (f_equal (fun z => Z.testbit z k)) in H.
    rewrite Z.land_spec Z.bits_0 Ht Z.pow2_bits_true // in H.
  - apply Z.eqb_eq. apply Z.bits_inj'. intros n Hn.
    rewrite Z.land_spec Z.bits_0. destruct (decide (n = k)) as [->|Hne].
    + by rewrite Ht.
    + rewrite Z.pow2_bits_false ?andb_false_r //.
Qed.

Lemma testbit_pow2_le a k : 0 <= k -> 0 <= a -> Z.testbit a k = true -> 2 ^ k <= a.
Proof.
  intros Hk Ha Ht. destruct (Z.le_gt_cases (2 ^ k) a) as [|Hlt]; [done|].
  destruct (decide (a = 0)) as [->|]; [by rewrite Z.bits_0 in Ht|].
  rewrite Z.bits_above_log2 // in Ht. apply Z.log2_lt_pow2; lia.
Qed.

(** An incoming event that names one action (one bit of the mask) matches a
    registered event exactly when the registered event is the wildcard, or its
    resource covers the incoming resource and its mask has that bit: the
    numeric comparison [incoming.action_type <= ce.action_type] in the code
    then never rejects a registered action. *)
Theorem match_cluster_events_single_action ce r k lbl :
  0 <= k -> 0 <= ce_action_type ce ->
  match_cluster_events ce (mkClusterEvent r (2 ^ k) lbl) =
  cluster_event_is_wild_card ce
  || (match_event_resources (ce_resource ce) r && Z.testbit (ce_action_type ce) k).
Proof.
  intros Hk Ha. unfold match_cluster_events, NONE. simpl. rewrite land_pow2_testbit // negb_involutive.
  destruct (Z.testbit (ce_action_type ce) k) eqn:Ht; [|by rewrite andb_false_r].
  apply testbit_pow2_le in Ht; [|done..].
  rewrite (proj2 (Z.leb_le _ _) Ht). by rewrite !andb_true_r.
Qed.

Lemma match_cluster_events_single_action_witness :
  match_cluster_events (new_event RPod UPDATE) (mkClusterEvent RAssignedPod (2 ^ 9) "") = true.
Proof.
  rewrite (match_cluster_events_single_action (new_event RPod UPDATE) RAssignedPod 9 "").
  - lia.
  - vm_compute. discriminate.
  - vm_compute. reflexivity.
Defined.

(** A pod update always yields an event, and the general [Update] one only when
    no specific change was found. *)
Lemma pod_scheduling_properties_change_nonempty f new_pod old_pod :
  pod_scheduling_properties_change f new_pod old_pod <> [].
Proof. unfold pod_scheduling_properties_change. by case_decide. Qed.

Close Scope Z_scope.
