(* ===== verification/Nominator.v ===== *)
(** * The nominator

    Model of [crates/scheduler/src/queue/nominator.rs]: which pods are
    nominated to run on which node.  [nominated_pods] lists the pods per node,
    [nominated_pod_to_node] is its inverse by pod UID; the invariant [nom_inv]
    says that the two agree. *)

From S2P Require Import Prelude KubeTypes.

Inductive NominatingMode := Noop | Override.

Record NominatingInfo := mkNominatingInfo {
  nominated_node_name : string;
  nominating_mode : NominatingMode
}.

Definition override_node (node : string) : NominatingInfo := mkNominatingInfo node Override.
Definition noop : NominatingInfo := mkNominatingInfo "" Noop.
Definition mode (info : option NominatingInfo) : NominatingMode :=
  match info with Some i => nominating_mode i | None => Noop end.

Record PodRef := mkPodRef { ref_name : string; ref_namespace : string; ref_uid : string }.

#[export] Instance PodRef_eq_dec : EqDecision PodRef.
Proof. solve_decision. Defined.

Definition from_pod (pod : Pod) : PodRef := mkPodRef (pod_name pod) (pod_namespace pod) (pod_uid pod).

(** [PodLister]: namespace and name to the pod in the informer cache. *)
Definition PodLister := string -> string -> option Pod.

Record Nominator := mkNominator {
  pod_lister : option PodLister;
  nominated_pods : gmap string (list PodRef);
  nominated_pod_to_node : gmap string string
}.

Definition nominator_new (lister : option PodLister) : Nominator := mkNominator lister ∅ ∅.

(** The free function [nominated_node_name] of the file. *)
Definition pod_nominated_node_name (pod : Pod) : string :=
  str_or_empty (pod_status pod ≫= status_nominated_node_name).

(** [list.iter().position(p)] then [list.remove(i)]: drops the first match. *)
Fixpoint remove_first {A} (p : A -> bool) (l : list A) : list A :=
  match l with
  | [] => []
  | x :: l' => if p x then l' else x :: remove_first p l'
  end.

Definition nominator_delete (n : Nominator) (pod : Pod) : Nominator :=
  let uid := pod_uid pod in
  match nominated_pod_to_node n !! uid with
  | None => n
  | Some nnn =>
      let pods' :=
        match nominated_pods n !! nnn with
        | None => nominated_pods n
        | Some l =>
            let l' := remove_first (fun np => bool_decide (ref_uid np = uid)) l in
            if decide (l' = []) then delete nnn (nominated_pods n)
            else <[nnn := l']> (nominated_pods n)
        end in
      mkNominator (pod_lister n) pods' (delete uid (nominated_pod_to_node n))
  end.

(** The lister check: the pod was removed, or already has a node. *)
Definition lister_rejects (n : Nominator) (pod : Pod) : bool :=
  match pod_lister n with
  | None => false
  | Some lister =>
      match lister (pod_namespace pod) (pod_name pod) with
      | None => true
      | Some updated => negb (bool_decide (str_or_empty (pod_spec updated ≫= spec_node_name) = ""))
      end
  end.

Definition add_nominated_pod (n0 : Nominator) (pod : Pod) (info : option NominatingInfo) : Nominator :=
  let n := nominator_delete n0 pod in
  let target :=
    match mode info with
    | Override => Some (match info with Some i => nominated_node_name i | None => "" end)
    | Noop =>
        let nnn := pod_nominated_node_name pod in
        if decide (nnn = "") then None else Some nnn
    end in
  match target with
  | None => n
  | Some node_name =>
      if lister_rejects n pod then n
      else
        let to_node := <[pod_uid pod := node_name]> (nominated_pod_to_node n) in
        let l := default [] (nominated_pods n !! node_name) in
        if existsb (fun np => bool_decide (ref_uid np = pod_uid pod)) l then
          mkNominator (pod_lister n) (<[node_name := l]> (nominated_pods n)) to_node
        else
          mkNominator (pod_lister n) (<[node_name := l ++ [from_pod pod]]> (nominated_pods n)) to_node
  end.

Definition update_nominated_pod (n : Nominator) (old_pod new_pod : Pod) : Nominator :=
  let info :=
    if decide (pod_nominated_node_name old_pod = "" /\ pod_nominated_node_name new_pod = "") then
      override_node <$> nominated_pod_to_node n !! pod_uid old_pod
    else None in
  add_nominated_pod (nominator_delete n old_pod) new_pod info.

Definition nominated_pods_for_node (n : Nominator) (node_name : string) : list PodRef :=
  default [] (nominated_pods n !! node_name).

(** ** Invariant *)

(** Every nominated pod is on exactly the list of the node it maps to, once,
    and no empty list is kept. *)
Record nom_inv (n : Nominator) : Prop := {
  nom_nodup node l : nominated_pods n !! node = Some l -> NoDup (ref_uid <$> l);
  nom_nonempty node : nominated_pods n !! node <> Some [];
  nom_agree uid node :
    nominated_pod_to_node n !! uid = Some node <->
    exists r, r ∈ nominated_pods_for_node n node /\ ref_uid r = uid
}.

(** A sequence of nominator operations. *)
Inductive nom_op :=
| NAdd (pod : Pod) (info : option NominatingInfo)
| NUpdate (old_pod new_pod : Pod)
| NDelete (pod : Pod).

Definition nom_step (n : Nominator) (op : nom_op) : Nominator :=
  match op with
  | NAdd pod info => add_nominated_pod n pod info
  | NUpdate old_pod new_pod => update_nominated_pod n old_pod new_pod
  | NDelete pod => nominator_delete n pod
  end.

(** The node [add_nominated_pod] reserves for the pod, if any. *)
Definition nominated_target (n : Nominator) (pod : Pod) (info : option NominatingInfo) : option string :=
  if lister_rejects n pod then None
  else
    match mode info with
    | Override => nominated_node_name <$> info
    | Noop => if decide (pod_nominated_node_name pod = "") then None
              else Some (pod_nominated_node_name pod)
    end.

(** ** Proofs *)

Section RemoveFirst.
Context {A : Type} (f : A -> string) (u : string).

Lemma remove_first_sublist (p : A -> bool) (l : list A) : sublist (remove_first p l) l.
Proof. induction l as [|x l IH]; simpl; [constructor|]. destruct (p x); by constructor. Qed.

Lemma remove_first_nodup (p : A -> bool) (l : list A) :
  NoDup (f <$> l) -> NoDup (f <$> remove_first p l).
Proof.
  intros Hnd. refine (sublist_NoDup _ _ Hnd _). apply fmap_sublist, remove_first_sublist.
Qed.

Lemma elem_of_remove_first (l : list A) r :
  NoDup (f <$> l) ->
  r ∈ remove_first (fun a => bool_decide (f a = u)) l <-> r ∈ l /\ f r <> u.
Proof.
  induction l as [|x l IH]; simpl; [set_solver|].
  intros [Hx Hnd]%NoDup_cons. case_bool_decide as Hu.
  - split; [|set_solver]. intros Hr. split; [set_solver|]. intros Hru. apply Hx.
    rewrite Hu -Hru. by apply list_elem_of_fmap_2.
  - rewrite !elem_of_cons IH //. naive_solver.
Qed.

End RemoveFirst.

Lemma nominator_delete_lister n pod : pod_lister (nominator_delete n pod) = pod_lister n.
Proof. unfold nominator_delete. by case_match. Qed.

Lemma nominator_delete_to_node n pod :
  nominated_pod_to_node (nominator_delete n pod) = delete (pod_uid pod) (nominated_pod_to_node n).
Proof.
  unfold nominator_delete. destruct (nominated_pod_to_node n !! pod_uid pod) eqn:E; [done|].
  by rewrite delete_id.
Qed.

Lemma nominator_delete_for_node n pod node :
  nominated_pods_for_node (nominator_delete n pod) node =
  if decide (nominated_pod_to_node n !! pod_uid pod = Some node) then
    remove_first (fun np => bool_decide (ref_uid np = pod_uid pod)) (nominated_pods_for_node n node)
  else nominated_pods_for_node n node.
Proof.
  unfold nominator_delete, nominated_pods_for_node.
  destruct (nominated_pod_to_node n !! pod_uid pod) as [nnn|] eqn:E; [|by destruct (decide _)]. simpl.
  destruct (decide (nnn = node)) as [->|Hne].
  - destruct (decide (Some node = Some node)) as [_|]; [|done].
    destruct (nominated_pods n !! node) as [l|] eqn:El; simpl.
    + case_decide as Hl; simplify_map_eq; [by rewrite Hl|done].
    + by rewrite El.
  - destruct (decide (Some nnn = Some node)) as [|_]; [congruence|]. destruct (nominated_pods n !! nnn) as [l|] eqn:El; [|done].
    case_decide; by simplify_map_eq.
Qed.

Lemma nom_for_node_nodup n node : nom_inv n -> NoDup (ref_uid <$> nominated_pods_for_node n node).
Proof.
  intros Hinv. unfold nominated_pods_for_node. destruct (nominated_pods n !! node) eqn:E; simpl.
  - by eapply nom_nodup.
  - constructor.
Qed.

Lemma nom_inv_delete n pod : nom_inv n -> nom_inv (nominator_delete n pod).
Proof.
  intros Hinv. split.
  - intros node l Hl.
    assert (l = nominated_pods_for_node (nominator_delete n pod) node) as ->
      by by rewrite /nominated_pods_for_node Hl.
    pose proof (nom_for_node_nodup n node Hinv) as Hnd.
    rewrite nominator_delete_for_node. case_decide; [by apply remove_first_nodup|done].
  - intros node Hl. unfold nominator_delete in Hl.
    destruct (nominated_pod_to_node n !! pod_uid pod) as [s|]; [|by eapply nom_nonempty]. simpl in Hl.
    destruct (nominated_pods n !! s); [|by eapply nom_nonempty].
    case_decide; [apply lookup_delete_Some in Hl as [_ ?]; by eapply nom_nonempty|].
    apply lookup_insert_Some in Hl as [[??]|[??]]; [done|]. by eapply nom_nonempty.
  - intros uid node. rewrite nominator_delete_to_node nominator_delete_for_node.
    rewrite lookup_delete_Some (nom_agree n Hinv).
    pose proof (nom_for_node_nodup n node Hinv) as Hnd.
    case_decide as Hd.
    + setoid_rewrite elem_of_remove_first; [|done]. naive_solver.
    + split; [naive_solver|]. intros (r & Hr & <-). split; [|eauto].
      intros Heq. apply Hd. apply (nom_agree n Hinv). exists r. by rewrite Heq.
Qed.

(** Appending a pod that is nominated nowhere. *)
Lemma nom_inv_append n pod node :
  nom_inv n -> nominated_pod_to_node n !! pod_uid pod = None ->
  nom_inv (mkNominator (pod_lister n)
    (<[node := nominated_pods_for_node n node ++ [from_pod pod]]> (nominated_pods n))
    (<[pod_uid pod := node]> (nominated_pod_to_node n))).
Proof.
  intros Hinv Hnone.
  assert (forall node' r, r ∈ nominated_pods_for_node n node' -> ref_uid r <> pod_uid pod) as Hfresh.
  { intros node' r Hr Heq. assert (nominated_pod_to_node n !! pod_uid pod = Some node') as E.
    { apply (nom_agree n Hinv). eauto. } congruence. }
  split; simpl.
  - intros node' l [[-> <-]|[_ Hl]]%lookup_insert_Some; [|by eapply nom_nodup].
    rewrite fmap_app. apply NoDup_app. split_and!; [by apply nom_for_node_nodup| |apply NoDup_singleton].
    intros u (r & -> & Hr)%list_elem_of_fmap Hu. apply list_elem_of_singleton in Hu. by eapply Hfresh.
  - intros node' [[-> Hl]|[_ Hl]]%lookup_insert_Some; [|by eapply nom_nonempty].
    by apply app_nil in Hl as [_ ?].
  - intros uid node'. rewrite /nominated_pods_for_node /=. destruct (decide (node = node')) as [->|Hn].
    + rewrite lookup_insert_eq /=. setoid_rewrite elem_of_app. setoid_rewrite list_elem_of_singleton.
      destruct (decide (uid = pod_uid pod)) as [->|Hu].
      * rewrite lookup_insert_eq. split; [|done]. intros _. exists (from_pod pod). naive_solver.
      * rewrite lookup_insert_ne // (nom_agree n Hinv). unfold from_pod. naive_solver.
    + rewrite (lookup_insert_ne (nominated_pods n)) //. fold (nominated_pods_for_node n node').
      rewrite -(nom_agree n Hinv). destruct (decide (uid = pod_uid pod)) as [->|Hu].
      * rewrite lookup_insert_eq Hnone. naive_solver.
      * by rewrite lookup_insert_ne.
Qed.

Lemma existsb_uid_false n pod node :
  nom_inv n -> nominated_pod_to_node n !! pod_uid pod = None ->
  existsb (fun np => bool_decide (ref_uid np = pod_uid pod)) (nominated_pods_for_node n node) = false.
Proof.
  intros Hinv Hnone. apply not_true_iff_false. rewrite existsb_exists.
  intros (r & Hr & Hu%bool_decide_eq_true). apply list_elem_of_In in Hr.
  assert (nominated_pod_to_node n !! pod_uid pod = Some node); [|congruence].
  apply (nom_agree n Hinv). eauto.
Qed.

(** With the invariant, [add_nominated_pod] first forgets the pod and then, if
    it has a target node, appends it there. *)
Lemma add_nominated_pod_eq n pod info :
  nom_inv n ->
  add_nominated_pod n pod info =
  let n' := nominator_delete n pod in
  match nominated_target n pod info with
  | None => n'
  | Some node =>
      mkNominator (pod_lister n')
        (<[node := nominated_pods_for_node n' node ++ [from_pod pod]]> (nominated_pods n'))
        (<[pod_uid pod := node]> (nominated_pod_to_node n'))
  end.
Proof.
  intros Hinv. unfold add_nominated_pod, nominated_target. set (n' := nominator_delete n pod).
  assert (lister_rejects n' pod = lister_rejects n pod) as Hrej.
  { unfold lister_rejects. by rewrite /n' nominator_delete_lister. }
  assert (Hex : forall node, existsb (fun np => bool_decide (ref_uid np = pod_uid pod))
            (default [] (nominated_pods n' !! node)) = false).
  { intros node. apply existsb_uid_false; [by apply nom_inv_delete|].
    by rewrite /n' nominator_delete_to_node lookup_delete_eq. }
  rewrite Hrej. destruct info as [[nn []]|]; simpl; repeat case_match; simplify_eq/=;
    rewrite ?Hex //; congruence.
Qed.

Lemma nom_inv_add n pod info : nom_inv n -> nom_inv (add_nominated_pod n pod info).
Proof.
  intros Hinv. rewrite add_nominated_pod_eq //. simpl. case_match; [|by apply nom_inv_delete].
  apply nom_inv_append; [by apply nom_inv_delete|]. by rewrite nominator_delete_to_node lookup_delete_eq.
Qed.

Lemma add_nominated_pod_to_node n pod info uid :
  nom_inv n ->
  nominated_pod_to_node (add_nominated_pod n pod info) !! uid =
  if decide (uid = pod_uid pod) then nominated_target n pod info
  else nominated_pod_to_node n !! uid.
Proof.
  intros Hinv. rewrite add_nominated_pod_eq //. simpl.
  destruct (nominated_target n pod info) as [node|]; simpl; rewrite nominator_delete_to_node;
    case_decide; subst; by simplify_map_eq.
Qed.

Lemma nom_inv_new lister : nom_inv (nominator_new lister).
Proof.
  split; simpl; intros *; simplify_map_eq; try done.
  rewrite /nominated_pods_for_node /= lookup_empty /=. split; [done|]. by intros (r & ?%elem_of_nil & _).
Qed.

Lemma nom_inv_step n op : nom_inv n -> nom_inv (nom_step n op).
Proof.
  destruct op; simpl; auto using nom_inv_add, nom_inv_delete.
  intros. unfold update_nominated_pod. auto using nom_inv_add, nom_inv_delete.
Qed.

(** After any sequence of nominator operations the two maps agree: a pod
    UID maps to a node exactly when that node's list holds a reference with
    this UID, each list holds a UID once, and no empty list is kept. *)
Theorem nominator_maps_agree lister ops : nom_inv (foldl nom_step (nominator_new lister) ops).
Proof.
  assert (forall n, nom_inv n -> nom_inv (foldl nom_step n ops)) as H.
  { induction ops as [|op ops IH]; simpl; auto using nom_inv_step. }
  apply H, nom_inv_new.
Qed.

(** [update_nominated_pod] moves exactly the reservation of the updated pod:
    the old UID is forgotten, the new one gets the node recorded earlier when
    neither version of the pod names a nominated node, and otherwise the node
    the new version names, provided the lister still knows the pod as unbound;
    every other pod keeps its reservation. *)
Theorem update_nominated_pod_reservation n old_pod new_pod uid :
  nom_inv n ->
  nominated_pod_to_node (update_nominated_pod n old_pod new_pod) !! uid =
  if decide (uid = pod_uid new_pod) then
    if lister_rejects n new_pod then None
    else if decide (pod_nominated_node_name new_pod = "") then
      if decide (pod_nominated_node_name old_pod = "") then
        nominated_pod_to_node n !! pod_uid old_pod
      else None
    else Some (pod_nominated_node_name new_pod)
  else if decide (uid = pod_uid old_pod) then None
  else nominated_pod_to_node n !! uid.
Proof.
  intros Hinv. unfold update_nominated_pod.
  rewrite add_nominated_pod_to_node; [by apply nom_inv_delete|].
  case_decide as Hu.
  - assert (lister_rejects (nominator_delete n old_pod) new_pod = lister_rejects n new_pod) as Hrej.
    { unfold lister_rejects. by rewrite nominator_delete_lister. }
    unfold nominated_target. rewrite Hrej. destruct (lister_rejects n new_pod); [done|].
    repeat case_decide; try naive_solver; destruct (nominated_pod_to_node n !! pod_uid old_pod); done.
  - rewrite nominator_delete_to_node. case_decide; subst; by simplify_map_eq.
Qed.

Lemma update_nominated_pod_reservation_witness :
  let p := bare_pod "ns" "p" "u1" in
  let n := add_nominated_pod (nominator_new None) p (Some (override_node "node-1")) in
  nominated_pod_to_node (update_nominated_pod n p p) !! "u1" = Some "node-1".
Proof.
  intros p n. rewrite (update_nominated_pod_reservation n p p "u1").
  - apply nom_inv_add, nom_inv_new.
  - vm_compute. reflexivity.
Defined.
