(* ===== verification/SchedQueue.v ===== *)
(** * The scheduling queue: model

    Model of [crates/scheduler/src/queue/scheduling_queue.rs]: activeQ,
    backoffQ (two heaps) and unschedulablePods, with the queueing-hint requeue
    mechanism and the bookkeeping of in-flight pods.

    - [Inner] is the state behind the queue's mutex, [PriorityQueue] the
      immutable configuration.  Every public method that takes the lock is one
      function from [Inner] to [option (Inner * _)]: the lock makes it atomic,
      and [None] is a panic inside a heap operation.
    - Times are [Z] nanoseconds since the Unix epoch, durations [Z]
      nanoseconds; a method that reads the clock takes the reading [now] as an
      argument (one reading per locked section).
    - [cond.notify_waiters()] is the [bool] in the result.
    - The event objects ([dyn Any]) are a pod or some other object. *)

From S2P Require Import Prelude KeyedHeap KubeTypes ClusterEvents Nominator.

(** ** Data *)

Inductive EventObject := ObjPod (p : Pod) | ObjOther (tag : string).

Record PreEnqueuePlugin := mkPreEnqueuePlugin {
  pl_name : string;
  pre_enqueue : Pod -> result unit string
}.

Record QueueingHintFunction := mkQueueingHintFunction {
  plugin_name : string;
  queueing_hint_fn : Pod -> option EventObject -> option EventObject -> result QueueingHint string
}.

(** [HashMap<ClusterEvent, Vec<QueueingHintFunction>>], in iteration order. *)
Definition QueueingHintMap := list (ClusterEvent * list QueueingHintFunction).

Record QueuedPodInfo := mkQueuedPodInfo {
  qp_pod : Pod;
  qp_timestamp : Z;
  qp_attempts : nat;
  qp_backoff_expiration : option Z;
  qp_unschedulable_count : nat;
  qp_consecutive_errors_count : nat;
  qp_initial_attempt_timestamp : option Z;
  qp_unschedulable_plugins : gset string;
  qp_pending_plugins : gset string;
  qp_gating_plugin : string;
  qp_gating_plugin_events : list ClusterEvent
}.

Definition for_lookup (pod : Pod) : QueuedPodInfo :=
  mkQueuedPodInfo pod 0 0 None 0 0 None ∅ ∅ "" [].

Definition gated (p : QueuedPodInfo) : bool := negb (bool_decide (qp_gating_plugin p = "")).

(** [QueuedPodInfo::update] *)
Definition qp_update (p : QueuedPodInfo) (pod : Pod) : QueuedPodInfo :=
  mkQueuedPodInfo pod (qp_timestamp p) (qp_attempts p) (qp_backoff_expiration p)
    (qp_unschedulable_count p) (qp_consecutive_errors_count p) (qp_initial_attempt_timestamp p)
    (qp_unschedulable_plugins p) (qp_pending_plugins p) (qp_gating_plugin p)
    (qp_gating_plugin_events p).

Definition pod_key (pod : Pod) : string := pod_namespace pod +:+ "/" +:+ pod_name pod.

(** The [key_fn] of the three heaps. *)
Definition qp_key (p : QueuedPodInfo) : string := pod_key (qp_pod p).

Definition DEFAULT_SCHEDULER_NAME : string := "default-scheduler".

Definition pod_scheduler_name (pod : Pod) : string :=
  default DEFAULT_SCHEDULER_NAME (pod_spec pod ≫= spec_scheduler_name).

Definition priority_sort_less (a b : QueuedPodInfo) : bool :=
  let p i := default 0%Z (pod_spec (qp_pod i) ≫= spec_priority) in
  ((p b <? p a) || ((p a =? p b) && (qp_timestamp a <? qp_timestamp b)))%Z.

Inductive QueueingStrategy := QueueSkip | QueueAfterBackoff | QueueImmediately.

#[export] Instance QueueingStrategy_eq_dec : EqDecision QueueingStrategy.
Proof. solve_decision. Defined.

Record InFlightEvent := mkInFlightEvent {
  ife_event : ClusterEvent;
  ife_old_obj : option EventObject;
  ife_new_obj : option EventObject
}.

Inductive InFlightEntry :=
| IFPod (seq : nat) (pod : Pod)
| IFEvent (seq : nat) (event : InFlightEvent).

Definition ife_seq (e : InFlightEntry) : nat :=
  match e with IFPod seq _ | IFEvent seq _ => seq end.

Record BackoffQueue := mkBackoffQueue {
  pod_backoff_q : Heap QueuedPodInfo;
  pod_error_backoff_q : Heap QueuedPodInfo
}.

Record Inner := mkInner {
  active_q : Heap QueuedPodInfo;
  backoff_q : BackoffQueue;
  unschedulable_pods : gmap string QueuedPodInfo;
  in_flight_pods : gmap string nat;
  in_flight_events : list InFlightEntry;
  next_seq : nat;
  sched_cycle : Z;
  closed : bool;
  nominator : Nominator
}.

Record PriorityQueue := mkPriorityQueue {
  less_fn : QueuedPodInfo -> QueuedPodInfo -> bool;
  pod_initial_backoff : Z;
  pod_max_backoff : Z;
  pod_max_in_unschedulable_pods_duration : Z;
  pre_enqueue_plugin_map : gmap string (list PreEnqueuePlugin);
  queueing_hint_map : gmap string QueueingHintMap
}.

(** Setters of [Inner]. *)
Definition set_active (i : Inner) (q : Heap QueuedPodInfo) : Inner :=
  mkInner q (backoff_q i) (unschedulable_pods i) (in_flight_pods i) (in_flight_events i)
    (next_seq i) (sched_cycle i) (closed i) (nominator i).
Definition set_backoff (i : Inner) (q : BackoffQueue) : Inner :=
  mkInner (active_q i) q (unschedulable_pods i) (in_flight_pods i) (in_flight_events i)
    (next_seq i) (sched_cycle i) (closed i) (nominator i).
Definition set_unsched (i : Inner) (m : gmap string QueuedPodInfo) : Inner :=
  mkInner (active_q i) (backoff_q i) m (in_flight_pods i) (in_flight_events i)
    (next_seq i) (sched_cycle i) (closed i) (nominator i).
Definition set_nominator (i : Inner) (n : Nominator) : Inner :=
  mkInner (active_q i) (backoff_q i) (unschedulable_pods i) (in_flight_pods i)
    (in_flight_events i) (next_seq i) (sched_cycle i) (closed i) n.
Definition set_in_flight (i : Inner) (pods : gmap string nat) (evs : list InFlightEntry)
    (seq : nat) : Inner :=
  mkInner (active_q i) (backoff_q i) (unschedulable_pods i) pods evs
    seq (sched_cycle i) (closed i) (nominator i).

(** ** Backoff times *)

Section Backoff.
Local Open Scope Z_scope.

Definition SECOND : Z := 1000000000.
(** [BACKOFF_Q_ORDERING_WINDOW_DURATION.as_secs()] *)
Definition WINDOW_SECS : Z := 1.

Definition align_to_window (t : Z) : Z :=
  let since := Z.max 0 t in
  let secs := since / SECOND / WINDOW_SECS * WINDOW_SECS in
  secs * SECOND.

(** [u128::checked_shr] and [u128::checked_shl]: [None] from 128 on; [checked_shl]
    drops the bits shifted out. *)
Definition u128_checked_shr (x shift : Z) : option Z :=
  if decide (shift < 128) then Some (Z.shiftr x shift) else None.
Definition u128_checked_shl (x shift : Z) : option Z :=
  if decide (shift < 128) then Some (Z.shiftl x shift mod 2 ^ 128) else None.

Definition u64_max : Z := 2 ^ 64 - 1.

Definition calculate_backoff_duration (initial max : Z) (count : nat) : Z :=
  if decide (count = 0%nat) then 0
  else
    let shift := Z.of_nat (count - 1) mod 2 ^ 32 in
    let max_shifted := default 0 (u128_checked_shr max shift) in
    if decide (max_shifted < initial) then max
    else
      match u128_checked_shl initial shift with
      | Some n => if decide (n <= u64_max) then n else max
      | None => max
      end.

Definition backoff_time (initial max : Z) (p : QueuedPodInfo) : Z :=
  if decide (max = 0) then 0
  else
    let count := if decide (0 < qp_consecutive_errors_count p)%nat
                 then qp_consecutive_errors_count p else qp_unschedulable_count p in
    if decide (count = 0%nat) then 0
    else
      match qp_backoff_expiration p with
      | Some cached => cached
      | None => align_to_window (qp_timestamp p + calculate_backoff_duration initial max count)
      end.

End Backoff.

(** ** Operations *)

Section Queue.
Context `{!HashOrder} (cfg : PriorityQueue) (pod_requests_milli : Pod -> gmap string Z).

Definition bo_time (p : QueuedPodInfo) : Z :=
  backoff_time (pod_initial_backoff cfg) (pod_max_backoff cfg) p.

(** The order of [podErrorBackoffQ] and of [podBackoffQ]. *)
Definition less_backoff_completed (a b : QueuedPodInfo) : bool := (bo_time a <? bo_time b)%Z.
Definition less_backoff_with_priority (a b : QueuedPodInfo) : bool :=
  if decide (bo_time a = bo_time b) then less_fn cfg a b else (bo_time a <? bo_time b)%Z.

Definition active_add := add_or_update qp_key (less_fn cfg).
Definition backoff_add := add_or_update qp_key less_backoff_with_priority.
Definition error_add := add_or_update qp_key less_backoff_completed.

Definition inner_new (lister : option PodLister) : Inner :=
  mkInner new (mkBackoffQueue new new) ∅ ∅ [] 0 0 false (nominator_new lister).

(** *** BackoffQueue *)

Definition is_error_pod (p : QueuedPodInfo) : bool :=
  bool_decide (qp_unschedulable_plugins p = ∅) && bool_decide (qp_pending_plugins p = ∅).

Definition bq_add (q : BackoffQueue) (p : QueuedPodInfo) : option BackoffQueue :=
  if is_error_pod p then
    e ← error_add (pod_error_backoff_q q) p;
    '(b, _) ← delete_by_key less_backoff_with_priority (pod_backoff_q q) (qp_key p);
    Some (mkBackoffQueue b e)
  else
    b ← backoff_add (pod_backoff_q q) p;
    '(e, _) ← delete_by_key less_backoff_completed (pod_error_backoff_q q) (qp_key p);
    Some (mkBackoffQueue b e).

(** One turn of the loop of [update]: [get_mut_by_key], the write through the
    reference, then [add_or_update] of the clone. *)
Definition update_in_heap (less : QueuedPodInfo -> QueuedPodInfo -> bool)
    (h : Heap QueuedPodInfo) (new_pod : Pod) : option (option (Heap QueuedPodInfo)) :=
  let key := pod_key new_pod in
  match get_by_key h key with
  | None => Some None
  | Some p =>
      let h1 := get_mut_by_key h key (fun p => qp_update p new_pod) in
      h2 ← add_or_update qp_key less h1 (qp_update p new_pod);
      Some (Some h2)
  end.

Definition bq_update (q : BackoffQueue) (new_pod : Pod) : option (BackoffQueue * bool) :=
  r ← update_in_heap less_backoff_with_priority (pod_backoff_q q) new_pod;
  match r with
  | Some b => Some (mkBackoffQueue b (pod_error_backoff_q q), true)
  | None =>
      r' ← update_in_heap less_backoff_completed (pod_error_backoff_q q) new_pod;
      match r' with
      | Some e => Some (mkBackoffQueue (pod_backoff_q q) e, true)
      | None => Some (q, false)
      end
  end.

Definition bq_take (q : BackoffQueue) (key : string) : option (BackoffQueue * option QueuedPodInfo) :=
  '(b, r) ← delete_by_key less_backoff_with_priority (pod_backoff_q q) key;
  match r with
  | Ok p => Some (mkBackoffQueue b (pod_error_backoff_q q), Some p)
  | Err _ =>
      '(e, r') ← delete_by_key less_backoff_completed (pod_error_backoff_q q) key;
      match r' with
      | Ok p => Some (mkBackoffQueue b e, Some p)
      | Err _ => Some (mkBackoffQueue b e, None)
      end
  end.

Definition bq_delete (q : BackoffQueue) (key : string) : option (BackoffQueue * bool) :=
  '(q', r) ← bq_take q key;
  Some (q', bool_decide (is_Some r)).

Definition bq_pop_backoff (q : BackoffQueue) : option (BackoffQueue * result QueuedPodInfo string) :=
  '(b, r) ← pop less_backoff_with_priority (pod_backoff_q q);
  Some (mkBackoffQueue b (pod_error_backoff_q q), r).

Definition bq_has (q : BackoffQueue) (key : string) : bool :=
  has_key (pod_backoff_q q) key || has_key (pod_error_backoff_q q) key.

Definition bq_get_by_key (q : BackoffQueue) (key : string) : option QueuedPodInfo :=
  match get_by_key (pod_backoff_q q) key with
  | Some p => Some p
  | None => get_by_key (pod_error_backoff_q q) key
  end.

Definition bq_len (q : BackoffQueue) : nat := len (pod_backoff_q q) + len (pod_error_backoff_q q).
Definition bq_len_backoff (q : BackoffQueue) : nat := len (pod_backoff_q q).
Definition bq_list (q : BackoffQueue) : list Pod :=
  qp_pod <$> heap_list (pod_backoff_q q) ++ heap_list (pod_error_backoff_q q).

(** The [while let Some(p) = q.peek()] loop over one heap. *)
Fixpoint pop_completed (fuel : nat) (less : QueuedPodInfo -> QueuedPodInfo -> bool) (window : Z)
    (h : Heap QueuedPodInfo) : option (Heap QueuedPodInfo * list QueuedPodInfo) :=
  match peek h with
  | None => Some (h, [])
  | Some p =>
      if decide (window <= bo_time p)%Z then Some (h, [])
      else
        match fuel with
        | 0 => None
        | S fuel' =>
            '(h', r) ← pop less h;
            match r with
            | Ok p' =>
                '(h'', ps) ← pop_completed fuel' less window h';
                Some (h'', p' :: ps)
            | Err _ => Some (h', [])
            end
        end
  end.

Definition bq_pop_all_backoff_completed (q : BackoffQueue) (now : Z)
    : option (BackoffQueue * list QueuedPodInfo) :=
  let window := align_to_window now in
  '(b, ps) ← pop_completed (len (pod_backoff_q q)) less_backoff_with_priority window (pod_backoff_q q);
  '(e, es) ← pop_completed (len (pod_error_backoff_q q)) less_backoff_completed window
               (pod_error_backoff_q q);
  Some (mkBackoffQueue b e, ps ++ es).

Definition is_pod_backing_off (p : QueuedPodInfo) (now : Z) : bool :=
  bool_decide (align_to_window now <= bo_time p)%Z.

(** *** Queueing hints *)

Definition is_event_of_interest (event : ClusterEvent) : bool :=
  cluster_event_is_wild_card event
  || existsb (fun '(_, hint_map) =>
       existsb (fun '(event_to_match, _) => match_cluster_events event_to_match event) hint_map)
       (hash_iter (queueing_hint_map cfg)).

(** The inner loop over [hintfns]: [inl] is the early return, [inr] the value of
    [queue_strategy] after the loop. *)
Fixpoint hint_fns_loop (p : QueuedPodInfo) (old_obj new_obj : option EventObject)
    (fns : list QueueingHintFunction) (strategy : QueueingStrategy)
    : QueueingStrategy + QueueingStrategy :=
  match fns with
  | [] => inr strategy
  | hintfn :: fns' =>
      if decide (plugin_name hintfn ∈ qp_unschedulable_plugins p ∪ qp_pending_plugins p) then
        let hint := match queueing_hint_fn hintfn (qp_pod p) old_obj new_obj with
                    | Ok h => h
                    | Err _ => HintQueue
                    end in
        if decide (hint = HintQueueSkip) then hint_fns_loop p old_obj new_obj fns' strategy
        else if decide (plugin_name hintfn ∈ qp_pending_plugins p) then inl QueueImmediately
        else if decide (qp_pending_plugins p = ∅) then inl QueueAfterBackoff
        else hint_fns_loop p old_obj new_obj fns' QueueAfterBackoff
      else hint_fns_loop p old_obj new_obj fns' strategy
  end.

Fixpoint hint_map_loop (p : QueuedPodInfo) (event : ClusterEvent) (old_obj new_obj : option EventObject)
    (hint_map : QueueingHintMap) (strategy : QueueingStrategy) : QueueingStrategy :=
  match hint_map with
  | [] => strategy
  | (event_to_match, hintfns) :: hint_map' =>
      if match_cluster_events event_to_match event then
        match hint_fns_loop p old_obj new_obj hintfns strategy with
        | inl r => r
        | inr strategy' => hint_map_loop p event old_obj new_obj hint_map' strategy'
        end
      else hint_map_loop p event old_obj new_obj hint_map' strategy
  end.

Definition is_pod_worth_requeuing (p : QueuedPodInfo) (event : ClusterEvent)
    (old_obj new_obj : option EventObject) : QueueingStrategy :=
  if decide (qp_unschedulable_plugins p ∪ qp_pending_plugins p = ∅) then QueueAfterBackoff
  else if cluster_event_is_wild_card event then
    match new_obj with
    | Some (ObjPod pod) =>
        if decide (pod_uid pod = pod_uid (qp_pod p)) then QueueAfterBackoff else QueueSkip
    | Some (ObjOther _) => QueueSkip
    | None => QueueAfterBackoff
    end
  else
    match queueing_hint_map cfg !! pod_scheduler_name (qp_pod p) with
    | None => QueueAfterBackoff
    | Some hint_map => hint_map_loop p event old_obj new_obj hint_map QueueSkip
    end.

(** *** PreEnqueue *)

(** [build_event_map]: the events registered by each plugin, over all profiles. *)
Definition plugin_to_events (name : string) : list ClusterEvent :=
  '(_, hint_map) ← hash_iter (queueing_hint_map cfg);
  '(event, q_hints) ← hint_map;
  q_hint ← q_hints;
  if decide (plugin_name q_hint = name) then [event] else [].

Definition set_gating (p : QueuedPodInfo) (plugin : string) (plugins : gset string)
    (events : list ClusterEvent) : QueuedPodInfo :=
  mkQueuedPodInfo (qp_pod p) (qp_timestamp p) (qp_attempts p) (qp_backoff_expiration p)
    (qp_unschedulable_count p) (qp_consecutive_errors_count p) (qp_initial_attempt_timestamp p)
    plugins (qp_pending_plugins p) plugin events.

(** [p_info.gating_plugin.clear()] *)
Definition clear_gating (p : QueuedPodInfo) : QueuedPodInfo :=
  set_gating p "" (qp_unschedulable_plugins p) (qp_gating_plugin_events p).

(** Returns the updated info and whether the status was an error. *)
Definition run_pre_enqueue_plugin (pl : PreEnqueuePlugin) (p : QueuedPodInfo) : QueuedPodInfo * bool :=
  match pre_enqueue pl (qp_pod p) with
  | Ok _ => (p, false)
  | Err _ =>
      (set_gating p (pl_name pl) ({[pl_name pl]} ∪ qp_unschedulable_plugins p)
         (plugin_to_events (pl_name pl)), true)
  end.

Fixpoint pre_enqueue_loop (gating_plugin : string) (pls : list PreEnqueuePlugin) (p : QueuedPodInfo)
    : QueuedPodInfo :=
  match pls with
  | [] => clear_gating p
  | pl :: pls' =>
      if decide (gating_plugin <> "" /\ pl_name pl = gating_plugin) then
        pre_enqueue_loop gating_plugin pls' p
      else
        let '(p', failed) := run_pre_enqueue_plugin pl p in
        if failed : bool then p' else pre_enqueue_loop gating_plugin pls' p'
  end.

Definition run_pre_enqueue_plugins (p : QueuedPodInfo) : QueuedPodInfo :=
  let gating_plugin := qp_gating_plugin p in
  match pre_enqueue_plugin_map cfg !! pod_scheduler_name (qp_pod p) with
  | None => clear_gating p
  | Some plugins =>
      if decide (gating_plugin = "") then pre_enqueue_loop gating_plugin plugins p
      else
        match List.find (fun pl => bool_decide (pl_name pl = gating_plugin)) plugins with
        | None => pre_enqueue_loop gating_plugin plugins p
        | Some pl =>
            let '(p', failed) := run_pre_enqueue_plugin pl p in
            if failed : bool then p' else pre_enqueue_loop gating_plugin plugins p'
        end
  end.

(** *** Moves between sub-queues *)

Definition set_initial_attempt (p : QueuedPodInfo) (now : Z) : QueuedPodInfo :=
  match qp_initial_attempt_timestamp p with
  | Some _ => p
  | None =>
      mkQueuedPodInfo (qp_pod p) (qp_timestamp p) (qp_attempts p) (qp_backoff_expiration p)
        (qp_unschedulable_count p) (qp_consecutive_errors_count p) (Some now)
        (qp_unschedulable_plugins p) (qp_pending_plugins p) (qp_gating_plugin p)
        (qp_gating_plugin_events p)
  end.

Definition move_to_active_q (i : Inner) (p0 : QueuedPodInfo) (event : string)
    (moves_from_backoff_q : bool) (now : Z) : option (Inner * bool) :=
  let p := if moves_from_backoff_q then p0 else run_pre_enqueue_plugins p0 in
  let key := qp_key p in
  if gated p then
    if has_key (active_q i) key || bq_has (backoff_q i) key
       || bool_decide (is_Some (unschedulable_pods i !! key)) then Some (i, false)
    else Some (set_unsched i (<[key := p]> (unschedulable_pods i)), false)
  else
    let p := set_initial_attempt p now in
    let i1 := set_unsched i (delete key (unschedulable_pods i)) in
    '(q, _) ← bq_delete (backoff_q i1) key;
    let i2 := set_backoff i1 q in
    let i3 :=
      if decide (event = label EVENT_UNSCHEDULED_POD_ADD \/ event = label EVENT_UNSCHEDULED_POD_UPDATE)
      then set_nominator i2 (add_nominated_pod (nominator i2) (qp_pod p) None) else i2 in
    a ← active_add (active_q i3) p;
    Some (set_active i3 a, true).

Definition move_to_backoff_q (i : Inner) (p0 : QueuedPodInfo) : option (Inner * bool) :=
  let p := run_pre_enqueue_plugins p0 in
  let key := qp_key p in
  if gated p then
    match unschedulable_pods i !! key with
    | None => Some (set_unsched i (<[key := p]> (unschedulable_pods i)), false)
    | Some _ => Some (i, false)
    end
  else
    q ← bq_add (backoff_q i) p;
    Some (set_backoff (set_unsched i (delete key (unschedulable_pods i))) q, true).

Inductive QueueName := ACTIVE_Q | BACKOFF_Q | UNSCHEDULABLE_Q.

#[export] Instance QueueName_eq_dec : EqDecision QueueName.
Proof. solve_decision. Defined.

Definition requeue_pod_with_queueing_strategy (i : Inner) (p : QueuedPodInfo)
    (strategy : QueueingStrategy) (event : string) (now : Z) : option (Inner * QueueName) :=
  if decide (strategy = QueueSkip) then
    Some (set_unsched i (<[qp_key p := p]> (unschedulable_pods i)), UNSCHEDULABLE_Q)
  else if decide (strategy = QueueAfterBackoff /\ is_pod_backing_off p now = true) then
    '(i', moved) ← move_to_backoff_q i p;
    Some (i', if moved : bool then BACKOFF_Q else UNSCHEDULABLE_Q)
  else
    '(i', added) ← move_to_active_q i p event false now;
    Some (i', if added : bool then ACTIVE_Q else UNSCHEDULABLE_Q).

(** [queue == ACTIVE_Q || queue == BACKOFF_Q] *)
Definition is_poppable (q : QueueName) : bool := negb (bool_decide (q = UNSCHEDULABLE_Q)).

(** *** In-flight bookkeeping *)

Definition push_event (i : Inner) (ev : InFlightEvent) : Inner :=
  set_in_flight i (in_flight_pods i) (in_flight_events i ++ [IFEvent (next_seq i) ev]) (S (next_seq i)).

Definition add_events_if_pod_in_flight (i : Inner) (old_pod : option Pod) (new_pod : Pod)
    (events : list ClusterEvent) : Inner * bool :=
  match in_flight_pods i !! pod_uid new_pod with
  | None => (i, false)
  | Some _ =>
      (foldl (fun i ev => push_event i
          (mkInFlightEvent ev (ObjPod <$> old_pod) (Some (ObjPod new_pod)))) i events, true)
  end.

Definition add_event_if_any_in_flight (i : Inner) (old_obj new_obj : option EventObject)
    (event : ClusterEvent) : Inner * bool :=
  if decide (in_flight_pods i = ∅) then (i, false)
  else (push_event i (mkInFlightEvent event old_obj new_obj), true).

(** [while let Some(front) = ...]: drops the events before the first pod entry. *)
Fixpoint prune_front (l : list InFlightEntry) : list InFlightEntry :=
  match l with
  | IFEvent _ _ :: l' => prune_front l'
  | _ => l
  end.

Definition unlocked_done (i : Inner) (uid : string) : Inner :=
  match in_flight_pods i !! uid with
  | None => i
  | Some seq =>
      let evs := remove_first (fun e => bool_decide (ife_seq e = seq)) (in_flight_events i) in
      set_in_flight i (delete uid (in_flight_pods i)) (prune_front evs) (next_seq i)
  end.

Definition cluster_events_for_pod (i : Inner) (p : QueuedPodInfo) : result (list InFlightEvent) string :=
  match in_flight_pods i !! pod_uid (qp_pod p) with
  | None => Err "in flight Pod isn't found in the scheduling queue. If you see this error log, it's likely a bug in the scheduler"
  | Some seq =>
      Ok (omap (fun e => match e with
                         | IFEvent s ev => if decide (seq < s) then Some ev else None
                         | IFPod _ _ => None
                         end) (in_flight_events i))
  end.

(** What [unlocked_pop] does to the popped pod. *)
Definition popped_info (p : QueuedPodInfo) : QueuedPodInfo :=
  mkQueuedPodInfo (qp_pod p) (qp_timestamp p) (S (qp_attempts p)) (qp_backoff_expiration p)
    (qp_unschedulable_count p) (qp_consecutive_errors_count p) (qp_initial_attempt_timestamp p)
    ∅ ∅ "" [].

(** The pod [unlocked_pop] tries: the head of activeQ, or of podBackoffQ when
    activeQ is empty. *)
Definition pop_head (i : Inner) : option (Inner * option QueuedPodInfo) :=
  '(a, r) ← pop (less_fn cfg) (active_q i);
  match r with
  | Ok p => Some (set_active i a, Some p)
  | Err _ =>
      '(q, r') ← bq_pop_backoff (backoff_q i);
      match r' with
      | Ok p => Some (set_backoff i q, Some p)
      | Err _ => Some (i, None)
      end
  end.

Fixpoint unlocked_pop_fuel (fuel : nat) (i : Inner) : option (Inner * option QueuedPodInfo) :=
  match fuel with
  | 0 => None
  | S fuel' =>
      '(i1, found) ← pop_head i;
      match found with
      | None => Some (i1, None)
      | Some p =>
          let uid := pod_uid (qp_pod p) in
          match in_flight_pods i1 !! uid with
          | Some _ => unlocked_pop_fuel fuel' i1
          | None =>
              let seq := next_seq i1 in
              Some (mkInner (active_q i1) (backoff_q i1) (unschedulable_pods i1)
                      (<[uid := seq]> (in_flight_pods i1))
                      (in_flight_events i1 ++ [IFPod seq (qp_pod p)])
                      (S seq) (sched_cycle i1 + 1)%Z (closed i1) (nominator i1),
                    Some (popped_info p))
          end
      end
  end.

Definition unlocked_pop (i : Inner) : option (Inner * option QueuedPodInfo) :=
  unlocked_pop_fuel (S (len (active_q i) + bq_len_backoff (backoff_q i))) i.

(** *** Public API *)

Definition new_queued_pod_info (pod : Pod) (now : Z) : QueuedPodInfo :=
  mkQueuedPodInfo pod now 0 None 0 0 None ∅ ∅ "" [].

(** [PriorityQueue::add] *)
Definition sq_add (i : Inner) (pod : Pod) (now : Z) : option (Inner * bool) :=
  move_to_active_q i (new_queued_pod_info pod now) (label EVENT_UNSCHEDULED_POD_ADD) false now.

Definition activate_one (i : Inner) (pod : Pod) (now : Z) : option (Inner * bool) :=
  let key := pod_key pod in
  match unschedulable_pods i !! key with
  | Some p =>
      (* removed, then put back under the key of the stored pod *)
      let i1 := set_unsched i (<[qp_key p := p]> (delete key (unschedulable_pods i))) in
      move_to_active_q i1 p FORCE_ACTIVATE false now
  | None =>
      '(q, r) ← bq_take (backoff_q i) key;
      match r with
      | None => Some (set_backoff i q, false)
      | Some p => move_to_active_q (set_backoff i q) p FORCE_ACTIVATE true now
      end
  end.

Fixpoint activate (i : Inner) (pods : list Pod) (now : Z) : option (Inner * bool) :=
  match pods with
  | [] => Some (i, false)
  | pod :: pods' =>
      '(i1, activated) ← activate_one i pod now;
      let i2 := if activated : bool then i1
                else (add_events_if_pod_in_flight i1 None pod [EVENT_FORCE_ACTIVATE]).1 in
      '(i3, rest) ← activate i2 pods' now;
      Some (i3, activated || rest)
  end.

Fixpoint in_flight_hint_loop (p : QueuedPodInfo) (events : list InFlightEvent)
    (strategy : QueueingStrategy) : QueueingStrategy :=
  match events with
  | [] => strategy
  | e :: events' =>
      match is_pod_worth_requeuing p (ife_event e) (ife_old_obj e) (ife_new_obj e) with
      | QueueSkip => in_flight_hint_loop p events' strategy
      | QueueImmediately => QueueImmediately
      | QueueAfterBackoff =>
          if decide (qp_pending_plugins p = ∅) then QueueAfterBackoff
          else in_flight_hint_loop p events' QueueAfterBackoff
      end
  end.

Definition determine_scheduling_hint_for_in_flight_pod (i : Inner) (p : QueuedPodInfo)
    : QueueingStrategy :=
  if is_error_pod p then QueueAfterBackoff
  else
    match cluster_events_for_pod i p with
    | Err _ => QueueAfterBackoff
    | Ok events => in_flight_hint_loop p events QueueSkip
    end.

(** The counters, timestamp and cached backoff time of a pod that comes back. *)
Definition returned_info (p : QueuedPodInfo) (now : Z) : QueuedPodInfo :=
  let err := is_error_pod p in
  mkQueuedPodInfo (qp_pod p) now (qp_attempts p) None
    (if err then qp_unschedulable_count p else S (qp_unschedulable_count p))
    (if err then S (qp_consecutive_errors_count p) else 0)
    (qp_initial_attempt_timestamp p) (qp_unschedulable_plugins p) (qp_pending_plugins p)
    (qp_gating_plugin p) (qp_gating_plugin_events p).

Definition add_unschedulable_if_not_present (i : Inner) (p0 : QueuedPodInfo) (now : Z)
    : option (Inner * (result unit string * bool)) :=
  let key := qp_key p0 in
  let uid := pod_uid (qp_pod p0) in
  '(i1, r) ←
    (if decide (is_Some (unschedulable_pods i !! key)) then
       Some (i, Err ("Pod " +:+ key +:+ " is already present in unschedulable queue"))
     else if has_key (active_q i) key then
       Some (i, Err ("Pod " +:+ key +:+ " is already present in the active queue"))
     else if bq_has (backoff_q i) key then
       Some (i, Err ("Pod " +:+ key +:+ " is already present in the backoff queue"))
     else
       let p := returned_info p0 now in
       let hint := determine_scheduling_hint_for_in_flight_pod i p in
       '(i', queue) ← requeue_pod_with_queueing_strategy i p hint SCHEDULE_ATTEMPT_FAILURE now;
       Some (i', Ok (is_poppable queue)));
  let i2 := unlocked_done i1 uid in
  Some (i2, match r with Ok notify => (Ok tt, notify) | Err e => (Err e, false) end).

Fixpoint move_completed (i : Inner) (ps : list QueuedPodInfo) (now : Z) : option (Inner * bool) :=
  match ps with
  | [] => Some (i, false)
  | p :: ps' =>
      '(i1, added) ← move_to_active_q i p BACKOFF_COMPLETE true now;
      '(i2, rest) ← move_completed i1 ps' now;
      Some (i2, added || rest)
  end.

Definition flush_backoff_q_completed (i : Inner) (now : Z) : option (Inner * bool) :=
  '(q, ps) ← bq_pop_all_backoff_completed (backoff_q i) now;
  move_completed (set_backoff i q) ps now.

(** The loop of [move_pods_to_active_or_backoff_queue]. *)
Fixpoint move_pods_loop (i : Inner) (ps : list QueuedPodInfo) (event : ClusterEvent)
    (old_obj new_obj : option EventObject) (now : Z) : option (Inner * bool) :=
  match ps with
  | [] => Some (i, false)
  | p :: ps' =>
      if gated p && negb (cluster_event_is_wild_card event)
         && negb (match_any_cluster_event event (qp_gating_plugin_events p)) then
        move_pods_loop i ps' event old_obj new_obj now
      else
        let hint := is_pod_worth_requeuing p event old_obj new_obj in
        if decide (hint = QueueSkip) then move_pods_loop i ps' event old_obj new_obj now
        else
          let i1 := set_unsched i (delete (qp_key p) (unschedulable_pods i)) in
          '(i2, queue) ← requeue_pod_with_queueing_strategy i1 p hint (label event) now;
          '(i3, rest) ← move_pods_loop i2 ps' event old_obj new_obj now;
          Some (i3, is_poppable queue || rest)
  end.

Definition move_pods_to_active_or_backoff_queue (i : Inner) (ps : list QueuedPodInfo)
    (event : ClusterEvent) (old_obj new_obj : option EventObject) (now : Z) : option (Inner * bool) :=
  if is_event_of_interest event then
    '(i', activated) ← move_pods_loop i ps event old_obj new_obj now;
    Some ((add_event_if_any_in_flight i' old_obj new_obj event).1, activated)
  else Some (i, false).

Definition flush_unschedulable_pods_leftover (i : Inner) (now : Z) : option (Inner * bool) :=
  let ps := filter (fun p => pod_max_in_unschedulable_pods_duration cfg < now - qp_timestamp p)%Z
              (hash_iter (unschedulable_pods i)).*2 in
  if decide (ps = []) then Some (i, false)
  else move_pods_to_active_or_backoff_queue i ps EVENT_UNSCHEDULABLE_TIMEOUT None None now.

Definition move_all_to_active_or_backoff_queue (i : Inner) (event : ClusterEvent)
    (old_obj new_obj : option EventObject) (pre_check : option (Pod -> bool)) (now : Z)
    : option (Inner * bool) :=
  if is_event_of_interest event then
    let ps := filter (fun p => match pre_check with None => true | Some check => check (qp_pod p) end = true)
                (hash_iter (unschedulable_pods i)).*2 in
    move_pods_to_active_or_backoff_queue i ps event old_obj new_obj now
  else Some (i, false).

(** One turn of the loop of [pop]. *)
Inductive PopOutcome :=
| Popped (p : QueuedPodInfo)
| PopClosed
| PopWait
| PopRetry.

Definition sq_pop (i : Inner) : option (Inner * PopOutcome) :=
  if negb (is_empty (active_q i)) || negb (bq_len_backoff (backoff_q i) =? 0)%nat then
    '(i', r) ← unlocked_pop i;
    Some (i', match r with Some p => Popped p | None => PopRetry end)
  else if closed i then Some (i, PopClosed)
  else Some (i, PopWait).

(** The loop over [events] for a pod in unschedulablePods. *)
Fixpoint update_unsched_loop (i : Inner) (old_pod : option Pod) (new_pod : Pod)
    (events : list ClusterEvent) (now : Z) : option (Inner * bool) :=
  match events with
  | [] => Some (i, false)
  | evt :: events' =>
      match unschedulable_pods i !! pod_key new_pod with
      | None => Some (i, false)
      | Some p =>
          let hint := is_pod_worth_requeuing p evt (ObjPod <$> old_pod) (Some (ObjPod new_pod)) in
          let i1 := if decide (hint = QueueSkip) then i
                    else set_unsched i (delete (pod_key new_pod) (unschedulable_pods i)) in
          '(i2, queue) ← requeue_pod_with_queueing_strategy i1 p hint (label evt) now;
          if is_poppable queue then Some (i2, true)
          else update_unsched_loop i2 old_pod new_pod events' now
      end
  end.

(** [PriorityQueue::update] *)
Definition sq_update (i : Inner) (old_pod : option Pod) (new_pod : Pod) (now : Z)
    : option (Inner * bool) :=
  let events := match old_pod with
                | Some old => pod_scheduling_properties_change pod_requests_milli new_pod old
                | None => []
                end in
  let '(i1, in_flight) := add_events_if_pod_in_flight i old_pod new_pod events in
  if in_flight : bool then Some (i1, false)
  else
    let key := pod_key new_pod in
    (* activeQ, then backoffQ, when the old pod is known *)
    r ← match old_pod with
        | None => Some None
        | Some old =>
            ra ← update_in_heap (less_fn cfg) (active_q i1) new_pod;
            match ra with
            | Some a =>
                Some (Some (set_nominator (set_active i1 a)
                              (update_nominated_pod (nominator i1) old new_pod)))
            | None =>
                '(q, found) ← bq_update (backoff_q i1) new_pod;
                Some (if found : bool then
                        Some (set_nominator (set_backoff i1 q)
                                (update_nominated_pod (nominator i1) old new_pod))
                      else None)
            end
        end;
    match r with
    | Some i2 => Some (i2, false)
    | None =>
        match unschedulable_pods i1 !! key with
        | Some p0 =>
            let p := qp_update p0 new_pod in
            let i2 := set_nominator i1
                        (update_nominated_pod (nominator i1) (default new_pod old_pod) new_pod) in
            let i3 := set_unsched i2 (<[qp_key p := p]> (delete key (unschedulable_pods i2))) in
            update_unsched_loop i3 old_pod new_pod events now
        | None =>
            move_to_active_q i1 (new_queued_pod_info new_pod now)
              (label EVENT_UNSCHEDULED_POD_UPDATE) false now
        end
    end.

(** [PriorityQueue::delete] *)
Definition sq_delete (i : Inner) (pod : Pod) : option Inner :=
  let i1 := set_nominator i (nominator_delete (nominator i) pod) in
  let key := pod_key pod in
  '(a, r) ← delete_by_key (less_fn cfg) (active_q i1) key;
  match r with
  | Ok _ => Some (set_active i1 a)
  | Err _ =>
      '(q, found) ← bq_delete (backoff_q i1) key;
      if found : bool then Some (set_backoff i1 q)
      else Some (set_unsched (set_backoff i1 q) (delete key (unschedulable_pods i1)))
  end.

Definition sq_done (i : Inner) (uid : string) : Inner := unlocked_done i uid.

Definition sq_close (i : Inner) : Inner :=
  let i1 := foldl unlocked_done i (hash_iter (in_flight_pods i)).*1 in
  mkInner (active_q i1) (backoff_q i1) (unschedulable_pods i1) (in_flight_pods i1)
    (in_flight_events i1) (next_seq i1) (sched_cycle i1) true (nominator i1).

Definition sq_add_nominated_pod (i : Inner) (pod : Pod) (info : option NominatingInfo) : Inner :=
  set_nominator i (add_nominated_pod (nominator i) pod info).

Definition sq_delete_nominated_pod_if_exists (i : Inner) (pod : Pod) : Inner :=
  set_nominator i (nominator_delete (nominator i) pod).

Definition get_pod (i : Inner) (name namespace : string) : option QueuedPodInfo :=
  let key := namespace +:+ "/" +:+ name in
  match get_by_key (active_q i) key with
  | Some p => Some p
  | None =>
      match bq_get_by_key (backoff_q i) key with
      | Some p => Some p
      | None => unschedulable_pods i !! key
      end
  end.

Definition nominated_pod_to_info (i : Inner) (np : PodRef) : Pod :=
  let key := ref_namespace np +:+ "/" +:+ ref_name np in
  match get_by_key (active_q i) key with
  | Some p => qp_pod p
  | None =>
      match unschedulable_pods i !! key with
      | Some p => qp_pod p
      | None =>
          match bq_get_by_key (backoff_q i) key with
          | Some p => qp_pod p
          | None => bare_pod (ref_namespace np) (ref_name np) (ref_uid np)
          end
      end
  end.

Definition sq_nominated_pods_for_node (i : Inner) (node_name : string) : list Pod :=
  nominated_pod_to_info i <$> nominated_pods_for_node (nominator i) node_name.

Definition pending_pods (i : Inner) : list Pod :=
  (qp_pod <$> heap_list (active_q i)) ++ bq_list (backoff_q i)
  ++ (qp_pod <$> (hash_iter (unschedulable_pods i)).*2).

Definition sq_in_flight_pods (i : Inner) : list Pod :=
  omap (fun e => match e with IFPod _ pod => Some pod | IFEvent _ _ => None end) (in_flight_events i).

End Queue.
