(* ===== verification/SchedSpec.v ===== *)
(** * The scheduling queue: specification

    What [crates/scheduler/src/queue/scheduling_queue.rs] promises, without
    heaps, indices or sequence numbers.  The abstract queue [AQ] is

    - one finite map from the pod key to the sub-queue that holds the pod and
      its [QueuedPodInfo] (so a pod is in at most one sub-queue by
      construction), and
    - one finite map from the UID of every in-flight pod to the cluster events
      that happened since it was popped, oldest first.

    [sq_step] is the step relation of the public methods on [AQ]; it is
    deterministic but for the pod [pop] picks, which is any minimal one.
    [sq_run] is the same alphabet of operations on the detailed state. *)

From S2P Require Import Prelude KeyedHeap KubeTypes ClusterEvents Nominator SchedQueue.

Inductive Pool := PActive | PBackoff | PError | PUnsched.

#[export] Instance Pool_eq_dec : EqDecision Pool.
Proof. solve_decision. Defined.

Record AQ := mkAQ {
  aq_pods : gmap string (Pool * QueuedPodInfo);
  aq_flight : gmap string (list InFlightEvent)
}.

(** The pods of one sub-queue. *)
Definition pool_of (M : gmap string (Pool * QueuedPodInfo)) (q : Pool) : gmap string QueuedPodInfo :=
  omap (fun '(q', p) => if decide (q' = q) then Some p else None) M.

(** The sub-queues [pop] takes pods from. *)
Definition poppable (q : Pool) : bool := bool_decide (q = PActive \/ q = PBackoff).

(** The public methods; [now] is the clock reading. *)
Inductive sq_op :=
| OpAdd (pod : Pod) (now : Z)
| OpActivate (pods : list Pod) (now : Z)
| OpAddUnschedulable (p : QueuedPodInfo) (now : Z)
| OpFlushBackoff (now : Z)
| OpFlushUnschedulable (now : Z)
| OpMoveAll (event : ClusterEvent) (old_obj new_obj : option EventObject)
    (pre_check : option (Pod -> bool)) (now : Z)
| OpPop
| OpDone (uid : string)
| OpUpdate (old_pod : option Pod) (new_pod : Pod) (now : Z)
| OpDelete (pod : Pod)
| OpClose
| OpAddNominated (pod : Pod) (info : option NominatingInfo)
| OpDeleteNominated (pod : Pod).

(** What a method answers: whether the waiters of [pop] are woken, the result
    of [add_unschedulable_if_not_present], the outcome of one turn of [pop]. *)
Inductive sq_out :=
| ONotify (b : bool)
| ORequeued (r : result unit string) (notify : bool)
| OPop (o : PopOutcome)
| ONone.

Section Spec.
Context `{!HashOrder} (cfg : PriorityQueue) (pod_requests_milli : Pod -> gmap string Z).

Definition sq_run (i : Inner) (op : sq_op) : option (Inner * sq_out) :=
  match op with
  | OpAdd pod now => '(i', b) ← sq_add cfg i pod now; Some (i', ONotify b)
  | OpActivate pods now => '(i', b) ← activate cfg i pods now; Some (i', ONotify b)
  | OpAddUnschedulable p now =>
      '(i', (r, b)) ← add_unschedulable_if_not_present cfg i p now; Some (i', ORequeued r b)
  | OpFlushBackoff now => '(i', b) ← flush_backoff_q_completed cfg i now; Some (i', ONotify b)
  | OpFlushUnschedulable now =>
      '(i', b) ← flush_unschedulable_pods_leftover cfg i now; Some (i', ONotify b)
  | OpMoveAll event old_obj new_obj pre_check now =>
      '(i', b) ← move_all_to_active_or_backoff_queue cfg i event old_obj new_obj pre_check now;
      Some (i', ONotify b)
  | OpPop => '(i', o) ← sq_pop cfg i; Some (i', OPop o)
  | OpDone uid => Some (sq_done i uid, ONone)
  | OpUpdate old_pod new_pod now =>
      '(i', b) ← sq_update cfg pod_requests_milli i old_pod new_pod now; Some (i', ONotify b)
  | OpDelete pod => i' ← sq_delete cfg i pod; Some (i', ONone)
  | OpClose => Some (sq_close i, ONotify true)
  | OpAddNominated pod info => Some (sq_add_nominated_pod i pod info, ONone)
  | OpDeleteNominated pod => Some (sq_delete_nominated_pod_if_exists i pod, ONone)
  end.

Fixpoint sq_runs (i : Inner) (ops : list sq_op) : option (Inner * list sq_out) :=
  match ops with
  | [] => Some (i, [])
  | op :: ops' =>
      '(i1, o) ← sq_run i op;
      '(i2, os) ← sq_runs i1 ops';
      Some (i2, o :: os)
  end.

(** Where a pod goes that is offered to activeQ: a gated pod to
    unschedulablePods. *)
Definition active_dest (p0 : QueuedPodInfo) (from_backoff : bool) (now : Z) : Pool * QueuedPodInfo :=
  let p := if from_backoff then p0 else run_pre_enqueue_plugins cfg p0 in
  if gated p then (PUnsched, p) else (PActive, set_initial_attempt p now).

(** A gated pod that is already queued stays where it is. *)
Definition spec_to_active (M : gmap string (Pool * QueuedPodInfo)) (p : QueuedPodInfo)
    (from_backoff : bool) (now : Z) : gmap string (Pool * QueuedPodInfo) :=
  let d := active_dest p from_backoff now in
  if decide (d.1 = PUnsched /\ is_Some (M !! qp_key p)) then M else <[qp_key p := d]> M.

(** Where the requeue strategy sends a pod. *)
Definition requeue_dest (p0 : QueuedPodInfo) (strategy : QueueingStrategy) (now : Z)
    : Pool * QueuedPodInfo :=
  if decide (strategy = QueueSkip) then (PUnsched, p0)
  else if decide (strategy = QueueAfterBackoff /\ is_pod_backing_off cfg p0 now = true) then
    let p := run_pre_enqueue_plugins cfg p0 in
    (if gated p then PUnsched else if is_error_pod p then PError else PBackoff, p)
  else active_dest p0 false now.

(** Whether a cluster event makes an unschedulable pod worth another attempt:
    [None] leaves it alone. *)
Definition event_strategy (p : QueuedPodInfo) (event : ClusterEvent)
    (old_obj new_obj : option EventObject) : option QueueingStrategy :=
  if gated p && negb (cluster_event_is_wild_card event)
     && negb (match_any_cluster_event event (qp_gating_plugin_events p)) then None
  else
    let hint := is_pod_worth_requeuing cfg p event old_obj new_obj in
    if decide (hint = QueueSkip) then None else Some hint.

(** The move of [movePodsToActiveOrBackoffQueue] on one pod, [sel] being the
    pods the caller selected. *)
Definition event_move (sel : QueuedPodInfo -> bool) (event : ClusterEvent)
    (old_obj new_obj : option EventObject) (now : Z) (qp : Pool * QueuedPodInfo)
    : Pool * QueuedPodInfo :=
  let '(q, p) := qp in
  if decide (q = PUnsched /\ sel p = true) then
    match event_strategy p event old_obj new_obj with
    | Some s => requeue_dest p s now
    | None => qp
    end
  else qp.

(** [flush_backoff_q_completed] on one pod. *)
Definition backoff_done (now : Z) (qp : Pool * QueuedPodInfo) : bool :=
  bool_decide ((qp.1 = PBackoff \/ qp.1 = PError) /\ bo_time cfg qp.2 < align_to_window now)%Z.
Definition flush_move (now : Z) (qp : Pool * QueuedPodInfo) : Pool * QueuedPodInfo :=
  if backoff_done now qp then (PActive, set_initial_attempt qp.2 now) else qp.

(** Every in-flight pod sees the event. *)
Definition see (F : gmap string (list InFlightEvent)) (evs : list InFlightEvent)
    : gmap string (list InFlightEvent) := (fun seen => seen ++ evs) <$> F.

(** An event some plugin is interested in moves the selected unschedulable pods
    and is recorded for the pods in flight. *)
Definition spec_event (A : AQ) (sel : QueuedPodInfo -> bool) (event : ClusterEvent)
    (old_obj new_obj : option EventObject) (now : Z) : AQ :=
  mkAQ (event_move sel event old_obj new_obj now <$> aq_pods A)
       (see (aq_flight A) [mkInFlightEvent event old_obj new_obj]).

(** Some pod that moved is now in a queue other than unschedulablePods. *)
Definition some_moved (M : gmap string (Pool * QueuedPodInfo))
    (f : Pool * QueuedPodInfo -> Pool * QueuedPodInfo) : Prop :=
  exists k qp, M !! k = Some qp /\ qp.1 <> (f qp).1 /\ (f qp).1 <> PUnsched.

(** The strategy for a pod that comes back from a failed attempt. *)
Definition return_strategy (F : gmap string (list InFlightEvent)) (p : QueuedPodInfo)
    : QueueingStrategy :=
  if is_error_pod p then QueueAfterBackoff
  else
    match F !! pod_uid (qp_pod p) with
    | None => QueueAfterBackoff
    | Some events => in_flight_hint_loop cfg p events QueueSkip
    end.

Definition already_present (q : Pool) (key : string) : string :=
  match q with
  | PUnsched => "Pod " +:+ key +:+ " is already present in unschedulable queue"
  | PActive => "Pod " +:+ key +:+ " is already present in the active queue"
  | PBackoff | PError => "Pod " +:+ key +:+ " is already present in the backoff queue"
  end.

(** [activate] on one pod: the new map and whether it reached activeQ. *)
Definition spec_activate_one (M : gmap string (Pool * QueuedPodInfo)) (pod : Pod) (now : Z)
    : gmap string (Pool * QueuedPodInfo) * bool :=
  match M !! pod_key pod with
  | Some (PUnsched, p) =>
      let d := active_dest p false now in
      if decide (d.1 = PUnsched) then (M, false) else (<[pod_key pod := d]> M, true)
  | Some (PBackoff, p) | Some (PError, p) =>
      (<[pod_key pod := (PActive, set_initial_attempt p now)]> M, true)
  | _ => (M, false)
  end.

Definition force_activate_event (pod : Pod) : InFlightEvent :=
  mkInFlightEvent EVENT_FORCE_ACTIVATE None (Some (ObjPod pod)).

Fixpoint spec_activate (A : AQ) (pods : list Pod) (now : Z) : AQ * bool :=
  match pods with
  | [] => (A, false)
  | pod :: pods' =>
      let '(M, activated) := spec_activate_one (aq_pods A) pod now in
      let F := if activated || bool_decide (aq_flight A !! pod_uid pod = None) then aq_flight A
               else see (aq_flight A) [force_activate_event pod] in
      let '(A', rest) := spec_activate (mkAQ M F) pods' now in
      (A', activated || rest)
  end.

(** The events of an update tried in turn on a pod of unschedulablePods, until
    one moves it. *)
Fixpoint spec_update_loop (p : QueuedPodInfo) (old_pod : option Pod) (new_pod : Pod)
    (events : list ClusterEvent) (now : Z) : Pool * QueuedPodInfo :=
  match events with
  | [] => (PUnsched, p)
  | evt :: events' =>
      let hint := is_pod_worth_requeuing cfg p evt (ObjPod <$> old_pod) (Some (ObjPod new_pod)) in
      let d := requeue_dest p hint now in
      if decide (d.1 = PUnsched) then spec_update_loop d.2 old_pod new_pod events' now else d
  end.

Definition update_events (old_pod : option Pod) (new_pod : Pod) : list ClusterEvent :=
  match old_pod with
  | Some old => pod_scheduling_properties_change pod_requests_milli new_pod old
  | None => []
  end.

Definition update_in_flight_events (old_pod : option Pod) (new_pod : Pod) : list InFlightEvent :=
  (fun ev => mkInFlightEvent ev (ObjPod <$> old_pod) (Some (ObjPod new_pod)))
    <$> update_events old_pod new_pod.

Definition spec_update (A : AQ) (old_pod : option Pod) (new_pod : Pod) (now : Z) : AQ * bool :=
  let M := aq_pods A in
  let key := pod_key new_pod in
  let fresh := new_queued_pod_info new_pod now in
  if decide (is_Some (aq_flight A !! pod_uid new_pod)) then
    (mkAQ M (see (aq_flight A) (update_in_flight_events old_pod new_pod)), false)
  else
    match M !! key with
    | Some (PUnsched, p) =>
        let d := spec_update_loop (qp_update p new_pod) old_pod new_pod
                   (update_events old_pod new_pod) now in
        (mkAQ (<[key := d]> M) (aq_flight A), negb (bool_decide (d.1 = PUnsched)))
    | r =>
        match r, old_pod with
        | Some (q, p), Some _ => (mkAQ (<[key := (q, qp_update p new_pod)]> M) (aq_flight A), false)
        | _, _ => (mkAQ (spec_to_active M fresh false now) (aq_flight A),
                   bool_decide ((active_dest fresh false now).1 = PActive))
        end
    end.

(** The pod [pop] may return: a minimal one of activeQ, or, when activeQ is
    empty, a minimal one of the backoff queue. *)
Definition pop_candidate (M : gmap string (Pool * QueuedPodInfo)) (p : QueuedPodInfo) : Prop :=
  minimal qp_key (less_fn cfg) (pool_of M PActive) p \/
  (pool_of M PActive = ∅ /\ minimal qp_key (less_backoff_with_priority cfg) (pool_of M PBackoff) p).

(** Pops that skip the pods whose UID is already in flight: [None] when the two
    queues ran out. *)
Inductive pop_steps (F : gmap string (list InFlightEvent)) :
    gmap string (Pool * QueuedPodInfo) -> gmap string (Pool * QueuedPodInfo) ->
    option QueuedPodInfo -> Prop :=
| pop_out M :
    pool_of M PActive = ∅ -> pool_of M PBackoff = ∅ -> pop_steps F M M None
| pop_take M p :
    pop_candidate M p -> F !! pod_uid (qp_pod p) = None ->
    pop_steps F M (delete (qp_key p) M) (Some p)
| pop_discard M p M' r :
    pop_candidate M p -> is_Some (F !! pod_uid (qp_pod p)) ->
    pop_steps F (delete (qp_key p) M) M' r -> pop_steps F M M' r.

Definition queues_empty (M : gmap string (Pool * QueuedPodInfo)) : Prop :=
  pool_of M PActive = ∅ /\ pool_of M PBackoff = ∅.

Inductive sq_step (A : AQ) : sq_op -> AQ -> sq_out -> Prop :=
| step_add pod now :
    let p := new_queued_pod_info pod now in
    sq_step A (OpAdd pod now) (mkAQ (spec_to_active (aq_pods A) p false now) (aq_flight A))
      (ONotify (bool_decide ((active_dest p false now).1 = PActive)))
| step_activate pods now :
    sq_step A (OpActivate pods now) (spec_activate A pods now).1
      (ONotify (spec_activate A pods now).2)
| step_requeue_present p now q p' :
    aq_pods A !! qp_key p = Some (q, p') ->
    sq_step A (OpAddUnschedulable p now)
      (mkAQ (aq_pods A) (delete (pod_uid (qp_pod p)) (aq_flight A)))
      (ORequeued (Err (already_present q (qp_key p))) false)
| step_requeue p now :
    aq_pods A !! qp_key p = None ->
    let d := requeue_dest (returned_info p now)
               (return_strategy (aq_flight A) (returned_info p now)) now in
    sq_step A (OpAddUnschedulable p now)
      (mkAQ (<[qp_key p := d]> (aq_pods A)) (delete (pod_uid (qp_pod p)) (aq_flight A)))
      (ORequeued (Ok tt) (negb (bool_decide (d.1 = PUnsched))))
| step_flush_backoff now b :
    (b = true <-> exists k qp, aq_pods A !! k = Some qp /\ backoff_done now qp = true) ->
    sq_step A (OpFlushBackoff now) (mkAQ (flush_move now <$> aq_pods A) (aq_flight A)) (ONotify b)
| step_flush_unsched now b :
    let sel p := bool_decide (pod_max_in_unschedulable_pods_duration cfg < now - qp_timestamp p)%Z in
    (exists k p, aq_pods A !! k = Some (PUnsched, p) /\ sel p = true) ->
    (b = true <-> some_moved (aq_pods A) (event_move sel EVENT_UNSCHEDULABLE_TIMEOUT None None now)) ->
    sq_step A (OpFlushUnschedulable now)
      (spec_event A sel EVENT_UNSCHEDULABLE_TIMEOUT None None now) (ONotify b)
| step_flush_unsched_none now :
    (forall k p, aq_pods A !! k = Some (PUnsched, p) ->
       (now - qp_timestamp p <= pod_max_in_unschedulable_pods_duration cfg)%Z) ->
    sq_step A (OpFlushUnschedulable now) A (ONotify false)
| step_move_all event old_obj new_obj pre_check now b :
    let sel p := match pre_check with None => true | Some check => check (qp_pod p) end in
    is_event_of_interest cfg event = true ->
    (b = true <-> some_moved (aq_pods A) (event_move sel event old_obj new_obj now)) ->
    sq_step A (OpMoveAll event old_obj new_obj pre_check now)
      (spec_event A sel event old_obj new_obj now) (ONotify b)
| step_move_all_ignored event old_obj new_obj pre_check now :
    is_event_of_interest cfg event = false ->
    sq_step A (OpMoveAll event old_obj new_obj pre_check now) A (ONotify false)
| step_pop M' p :
    pop_steps (aq_flight A) (aq_pods A) M' (Some p) ->
    sq_step A OpPop (mkAQ M' (<[pod_uid (qp_pod p) := []]> (aq_flight A)))
      (OPop (Popped (popped_info p)))
| step_pop_retry M' :
    ~ queues_empty (aq_pods A) -> pop_steps (aq_flight A) (aq_pods A) M' None ->
    sq_step A OpPop (mkAQ M' (aq_flight A)) (OPop PopRetry)
| step_pop_empty o :
    queues_empty (aq_pods A) -> o = PopClosed \/ o = PopWait ->
    sq_step A OpPop A (OPop o)
| step_done uid :
    sq_step A (OpDone uid) (mkAQ (aq_pods A) (delete uid (aq_flight A))) ONone
| step_update old_pod new_pod now :
    sq_step A (OpUpdate old_pod new_pod now) (spec_update A old_pod new_pod now).1
      (ONotify (spec_update A old_pod new_pod now).2)
| step_delete pod :
    sq_step A (OpDelete pod) (mkAQ (delete (pod_key pod) (aq_pods A)) (aq_flight A)) ONone
| step_close : sq_step A OpClose (mkAQ (aq_pods A) ∅) (ONotify true)
| step_add_nominated pod info : sq_step A (OpAddNominated pod info) A ONone
| step_delete_nominated pod : sq_step A (OpDeleteNominated pod) A ONone.

Inductive sq_steps : AQ -> list sq_op -> AQ -> list sq_out -> Prop :=
| steps_nil A : sq_steps A [] A []
| steps_cons A op A1 o ops A2 os :
    sq_step A op A1 o -> sq_steps A1 ops A2 os -> sq_steps A (op :: ops) A2 (o :: os).

End Spec.
