(* ===== verification/SchedFlight.v ===== *)
(** * The scheduling queue: in-flight pods

    The list [in_flight_events] interleaves the popped pods with the cluster
    events that happened since, under increasing sequence numbers, and
    [in_flight_pods] points from a UID to the number of its entry.
    [flight_repr] says that together they represent a map from each in-flight
    UID to the events since its pop, and that nothing older than the oldest
    in-flight pod is kept. *)

From Stdlib Require Import Sorted.
From S2P Require Import Prelude KubeTypes ClusterEvents Nominator SchedQueue SchedSpec.

Definition events_after (seq : nat) (evs : list InFlightEntry) : list InFlightEvent :=
  omap (fun e => match e with
                 | IFEvent s ev => if decide (seq < s) then Some ev else None
                 | IFPod _ _ => None
                 end) evs.

Lemma cluster_events_for_pod_eq i p :
  cluster_events_for_pod i p =
    match in_flight_pods i !! pod_uid (qp_pod p) with
    | None => Err "in flight Pod isn't found in the scheduling queue. If you see this error log, it's likely a bug in the scheduler"
    | Some seq => Ok (events_after seq (in_flight_events i))
    end.
Proof. done. Qed.

Record flight_repr (fp : gmap string nat) (evs : list InFlightEntry) (n : nat)
    (F : gmap string (list InFlightEvent)) : Prop := {
  fl_sorted : StronglySorted lt (ife_seq <$> evs);
  fl_bound e : e ∈ evs -> ife_seq e < n;
  fl_pod uid seq : fp !! uid = Some seq -> exists pod, IFPod seq pod ∈ evs /\ pod_uid pod = uid;
  fl_entry seq pod : IFPod seq pod ∈ evs -> fp !! pod_uid pod = Some seq;
  fl_head seq ev : head evs <> Some (IFEvent seq ev);
  fl_events : F = (fun seq => events_after seq evs) <$> fp
}.

Lemma events_after_app seq l1 l2 : events_after seq (l1 ++ l2) = events_after seq l1 ++ events_after seq l2.
Proof. unfold events_after. by rewrite omap_app. Qed.

Lemma events_after_none seq l :
  (forall e, e ∈ l -> ife_seq e <= seq) -> events_after seq l = [].
Proof.
  unfold events_after. induction l as [|e l IH]; intros H; [done|]. csimpl.
  pose proof (H e ltac:(set_solver)). destruct e; simpl in *; [|rewrite decide_False; [lia|]];
    apply IH; set_solver.
Qed.

Lemma seq_inj evs e e' :
  StronglySorted lt (ife_seq <$> evs) -> e ∈ evs -> e' ∈ evs -> ife_seq e = ife_seq e' -> e = e'.
Proof.
  induction evs as [|x evs IH]; csimpl; intros Hs He He' Heq; [set_solver|].
  apply StronglySorted_inv in Hs as [Hs Hf]. rewrite Forall_fmap Forall_forall in Hf.
  apply elem_of_cons in He as [->|He]; apply elem_of_cons in He' as [->|He']; [done| | |auto];
    [apply Hf in He'|apply Hf in He]; simpl in *; lia.
Qed.

Lemma fl_in_bound fp evs n F uid seq : flight_repr fp evs n F -> fp !! uid = Some seq -> seq < n.
Proof. intros H (pod & Hp & _)%(fl_pod _ _ _ _ H). by apply (fl_bound _ _ _ _ H) in Hp. Qed.

Lemma sorted_snoc evs n e :
  StronglySorted lt (ife_seq <$> evs) -> (forall e, e ∈ evs -> ife_seq e < n) -> ife_seq e = n ->
  StronglySorted lt (ife_seq <$> (evs ++ [e])).
Proof.
  induction evs as [|x evs IH]; csimpl; intros Hs Hb He; [repeat constructor|].
  apply StronglySorted_inv in Hs as [Hs Hf]. constructor; [apply IH; [done| |done]; set_solver|].
  rewrite fmap_app. apply Forall_app. split; [done|]. repeat constructor. rewrite He. apply Hb. set_solver.
Qed.

Lemma flight_new : flight_repr ∅ [] 0 ∅.
Proof. split; set_solver || by rewrite ?fmap_empty || constructor. Qed.

(** Without in-flight pods no event is kept. *)
Lemma flight_empty fp evs n F : flight_repr fp evs n F -> fp = ∅ -> evs = [].
Proof.
  intros H ->. destruct evs as [|[seq pod|seq ev] evs]; [done| |].
  - pose proof (fl_entry _ _ _ _ H seq pod ltac:(set_solver)). set_solver.
  - by destruct (fl_head _ _ _ _ H seq ev).
Qed.

Lemma flight_dom fp evs n F uid : flight_repr fp evs n F -> is_Some (F !! uid) <-> is_Some (fp !! uid).
Proof. intros H. by rewrite (fl_events _ _ _ _ H) lookup_fmap fmap_is_Some. Qed.

Lemma flight_dom_None fp evs n F uid : flight_repr fp evs n F -> F !! uid = None <-> fp !! uid = None.
Proof. intros H. by rewrite (fl_events _ _ _ _ H) lookup_fmap fmap_None. Qed.

Lemma flight_push fp evs n F ev :
  flight_repr fp evs n F -> fp <> ∅ ->
  flight_repr fp (evs ++ [IFEvent n ev]) (S n) (see F [ev]).
Proof.
  intros H Hne. pose proof H as [Hs Hb Hp He Hh HF]. split.
  - by apply (sorted_snoc _ n).
  - intros e [Hi|Hi%list_elem_of_singleton]%elem_of_app; [apply Hb in Hi; lia|by subst; simpl; lia].
  - intros uid seq (pod & ? & ?)%Hp. exists pod. set_solver.
  - intros seq pod. rewrite elem_of_app list_elem_of_singleton. intros [Hi|Hi]; [auto|done].
  - intros seq ev'. destruct evs; [|by apply Hh]. destruct Hne.
    apply map_eq. intros uid. rewrite lookup_empty. apply eq_None_not_Some. intros [s (pod & ? & _)%Hp].
    set_solver.
  - unfold see. rewrite HF -map_fmap_compose. apply map_fmap_ext. intros uid seq Hu. simpl.
    rewrite events_after_app. f_equal. unfold events_after. csimpl. rewrite decide_True //.
    by eapply fl_in_bound.
Qed.

Lemma flight_pop fp evs n F pod :
  flight_repr fp evs n F -> fp !! pod_uid pod = None ->
  flight_repr (<[pod_uid pod := n]> fp) (evs ++ [IFPod n pod]) (S n) (<[pod_uid pod := []]> F).
Proof.
  intros H Hne. pose proof H as [Hs Hb Hp He Hh HF]. split.
  - by apply (sorted_snoc _ n).
  - intros e [Hi|Hi%list_elem_of_singleton]%elem_of_app; [apply Hb in Hi; lia|by subst; simpl; lia].
  - intros uid seq. rewrite lookup_insert_Some. intros [[<- <-]|[? (pod' & ? & ?)%Hp]]; [exists pod|exists pod'];
      set_solver.
  - intros seq pod'. rewrite elem_of_app list_elem_of_singleton. intros [Hi|[= -> ->]].
    + apply He in Hi. rewrite lookup_insert_ne //. congruence.
    + by rewrite lookup_insert_eq.
  - intros seq ev'. destruct evs; [done|by apply Hh].
  - rewrite fmap_insert HF. f_equal.
    + rewrite events_after_none //. intros e [Hi|Hi%list_elem_of_singleton]%elem_of_app;
        [apply Hb in Hi; lia|by subst].
    + apply map_fmap_ext. intros uid seq Hu. by rewrite events_after_app app_nil_r.
Qed.

(** ** done *)

Lemma prune_front_split l :
  exists l1, l = l1 ++ prune_front l /\ (forall e, e ∈ l1 -> exists s ev, e = IFEvent s ev) /\
    forall s ev, head (prune_front l) <> Some (IFEvent s ev).
Proof.
  induction l as [|[s pod|s ev] l IH]; simpl.
  - exists []. split_and!; [done|set_solver|done].
  - exists []. split_and!; [done|set_solver|done].
  - destruct IH as (l1 & Hl & He & Hh). exists (IFEvent s ev :: l1). split_and!; [by rewrite /= -Hl| |done].
    intros e [->|?]%elem_of_cons; eauto.
Qed.

Lemma remove_first_split {A} (f : A -> bool) l :
  (exists x, x ∈ l /\ f x = true) ->
  exists l1 x l2, l = l1 ++ x :: l2 /\ f x = true /\ remove_first f l = l1 ++ l2 /\
    forall y, y ∈ l1 -> f y = false.
Proof.
  induction l as [|y l IH]; intros (x & Hx & Hf); [set_solver|]. simpl. destruct (f y) eqn:Hy.
  - exists [], y, l. split_and!; [done..|set_solver].
  - apply elem_of_cons in Hx as [->|Hx]; [congruence|].
    destruct IH as (l1 & z & l2 & -> & ? & -> & Hl); [eauto|]. exists (y :: l1), z, l2.
    split_and!; [done..|]. intros w [->|?]%elem_of_cons; auto.
Qed.

Lemma sorted_app_inv l1 l2 :
  StronglySorted lt (ife_seq <$> (l1 ++ l2)) ->
  StronglySorted lt (ife_seq <$> l1) /\ StronglySorted lt (ife_seq <$> l2) /\
  forall a b, a ∈ l1 -> b ∈ l2 -> ife_seq a < ife_seq b.
Proof.
  induction l1 as [|x l1 IH]; csimpl; intros Hs; [split_and!; [constructor|done|set_solver]|].
  apply StronglySorted_inv in Hs as [Hs Hf]. destruct (IH Hs) as (H1 & H2 & H3).
  rewrite fmap_app in Hf. apply Forall_app in Hf as [Hf1 Hf2]. split_and!; [by constructor|done|].
  intros a b [->|Ha]%elem_of_cons Hb; [|auto]. rewrite Forall_fmap Forall_forall in Hf2. by apply Hf2.
Qed.

Lemma sorted_remove l1 x l2 :
  StronglySorted lt (ife_seq <$> (l1 ++ x :: l2)) -> StronglySorted lt (ife_seq <$> (l1 ++ l2)).
Proof.
  induction l1 as [|y l1 IH]; csimpl; intros [Hs Hf]%StronglySorted_inv; [done|].
  constructor; [auto|]. rewrite fmap_app in Hf. apply Forall_app in Hf as [Hf1 Hf2].
  rewrite fmap_app. apply Forall_app. split; [done|]. by apply Forall_cons_1 in Hf2 as [_ ?].
Qed.

(** Removing the entry of [uid] and pruning the front. *)
Lemma flight_done fp evs n F uid seq :
  flight_repr fp evs n F -> fp !! uid = Some seq ->
  flight_repr (delete uid fp)
    (prune_front (remove_first (fun e => bool_decide (ife_seq e = seq)) evs)) n (delete uid F).
Proof.
  intros H Hu. pose proof H as [Hs Hb Hp He Hh HF]. destruct (Hp _ _ Hu) as (pod & Hpod & <-).
  destruct (remove_first_split (fun e => bool_decide (ife_seq e = seq)) evs)
    as (l1 & x & l2 & Hevs & Hx%bool_decide_eq_true & Hrem & _).
  { eexists. split; [done|]. by apply bool_decide_eq_true. }
  assert (x = IFPod seq pod) as -> by (apply (seq_inj evs); [done|set_solver|done|done]).
  rewrite Hrem. destruct (prune_front_split (l1 ++ l2)) as (pre & Hpre & Hev & Hhead).
  set (rest := prune_front (l1 ++ l2)) in *.
  assert (forall e, e ∈ rest -> e ∈ evs) as Hsub.
  { intros e Hi. assert (e ∈ l1 ++ l2) by (rewrite Hpre; set_solver). set_solver. }
  assert (forall s q, IFPod s q ∈ rest <-> IFPod s q ∈ l1 ++ l2) as Hpods.
  { intros s q. rewrite Hpre elem_of_app. split; [auto|]. intros [(s' & ev & ?)%Hev|?]; done. }
  assert (StronglySorted lt (ife_seq <$> (pre ++ rest))) as Hsr.
  { rewrite -Hpre. apply (sorted_remove l1 (IFPod seq pod)). by rewrite -Hevs. }
  apply sorted_app_inv in Hsr as (_ & Hsr & Hlt).
  assert (forall s q, IFPod s q ∈ evs -> s <> seq -> IFPod s q ∈ rest) as Hkeep.
  { intros s q Hi Hne. apply Hpods. rewrite Hevs in Hi. set_solver. }
  split; [done|auto| | |done|].
  - intros uid' s [Hne (q & Hq & <-)%Hp]%lookup_delete_Some. exists q. split; [|done].
    apply Hkeep; [done|]. intros ->. pose proof (seq_inj evs _ _ Hs Hq Hpod eq_refl). by simplify_eq.
  - intros s q Hi. pose proof (He _ _ (Hsub _ Hi)) as Hq. rewrite lookup_delete_ne //. intros Heq.
    rewrite -Heq Hu in Hq. assert (s = seq) as -> by congruence. apply Hpods in Hi.
    rewrite Hevs in Hs. apply sorted_app_inv in Hs as (_ & Hs2 & Hlt2). csimpl in Hs2.
    apply StronglySorted_inv in Hs2 as [_ Hf]. rewrite Forall_fmap Forall_forall in Hf.
    apply elem_of_app in Hi as [Hi|Hi]; [pose proof (Hlt2 _ (IFPod seq pod) Hi ltac:(set_solver))|apply Hf in Hi];
      simpl in *; lia.
  - rewrite HF fmap_delete. apply map_eq. intros uid'. rewrite !lookup_delete. case_decide; [done|].
    rewrite !lookup_fmap. destruct (fp !! uid') as [s|] eqn:Hs'; [|done]. simpl. f_equal.
    transitivity (events_after s (l1 ++ l2)).
    { rewrite Hevs !events_after_app. f_equal. }
    rewrite Hpre events_after_app (events_after_none s pre) //.
    destruct (Hp _ _ Hs') as (q & Hq & Huq). assert (IFPod s q ∈ rest) as Hqr.
    { apply Hkeep; [done|]. intros ->. pose proof (seq_inj evs _ _ Hs Hq Hpod eq_refl). by simplify_eq. }
    intros e Hi. pose proof (Hlt _ _ Hi Hqr). simpl in *. lia.
Qed.
