(* ===== verification/SchedRefine.v ===== *)
(** * The scheduling queue: refinement

    [sq_repr] relates the detailed state of [SchedQueue] to the abstract queue
    of [SchedSpec], and every public method is shown to run without a panic and
    to take the abstract step. *)

From S2P Require Import Prelude KeyedHeap KubeTypes ClusterEvents Nominator SchedQueue SchedSpec SchedFlight.

(** ** One map, four sub-queues *)

Section Pools.
Implicit Types (M : gmap string (Pool * QueuedPodInfo)) (p : QueuedPodInfo).

Lemma pool_of_Some M q k p : pool_of M q !! k = Some p <-> M !! k = Some (q, p).
Proof.
  unfold pool_of. rewrite lookup_omap. destruct (M !! k) as [[q' p']|]; simpl; [|naive_solver].
  case_decide; naive_solver.
Qed.

Lemma pool_of_insert M q k p : pool_of (<[k := (q, p)]> M) q = <[k := p]> (pool_of M q).
Proof. unfold pool_of. erewrite omap_insert_Some; [done|]. by rewrite decide_True. Qed.

Lemma pool_of_insert_ne M q q' k p :
  q <> q' -> pool_of (<[k := (q, p)]> M) q' = delete k (pool_of M q').
Proof. intros. unfold pool_of. rewrite omap_insert_None; [by rewrite decide_False|done]. Qed.

Lemma pool_of_delete M q k : pool_of (delete k M) q = delete k (pool_of M q).
Proof. unfold pool_of. by rewrite omap_delete. Qed.

Lemma pool_of_None M q k : (forall p, M !! k <> Some (q, p)) -> pool_of M q !! k = None.
Proof. intros H. apply eq_None_not_Some. intros [p Hp%pool_of_Some]. by eapply H. Qed.

Lemma pool_of_delete_id M q k : (forall p, M !! k <> Some (q, p)) -> delete k (pool_of M q) = pool_of M q.
Proof. intros H. apply delete_id. by apply pool_of_None. Qed.

Lemma pool_of_other M q q' k p : M !! k = Some (q, p) -> q <> q' -> pool_of M q' !! k = None.
Proof. intros H ?. apply pool_of_None. intros p'. congruence. Qed.

Lemma pool_of_absent M q k : M !! k = None -> pool_of M q !! k = None.
Proof. intros H. apply pool_of_None. intros p'. congruence. Qed.

End Pools.

Lemma foldl_delete_lookup {V} (F : gmap string V) l u :
  foldl (fun F u => delete u F) F l !! u = if decide (u ∈ l) then None else F !! u.
Proof.
  revert F. induction l as [|v l IH]; intros F; simpl; [done|]. rewrite IH.
  rewrite lookup_delete. destruct (decide (u ∈ l)); [by rewrite decide_True; [set_solver|]|].
  case_decide; [by rewrite decide_True; [set_solver|]|]. rewrite decide_False //. set_solver.
Qed.

Lemma gated_set_initial p now : gated (set_initial_attempt p now) = gated p.
Proof. unfold set_initial_attempt. by destruct (qp_initial_attempt_timestamp p). Qed.

Lemma key_set_initial p now : qp_key (set_initial_attempt p now) = qp_key p.
Proof. unfold set_initial_attempt. by destruct (qp_initial_attempt_timestamp p). Qed.

Lemma pod_set_initial p now : qp_pod (set_initial_attempt p now) = qp_pod p.
Proof. unfold set_initial_attempt. by destruct (qp_initial_attempt_timestamp p). Qed.

(** ** Orders *)

#[export] Instance swo_priority_sort : StrictWeakOrder priority_sort_less.
Proof.
  split; unfold priority_sort_less; intros *.
  - lia.
  - intros Hab Hbc. lia.
  - intros Hab Hbc. lia.
Qed.

Section Refine.
Context {HO : HashOrder} (cfg : PriorityQueue) (pod_requests_milli : Pod -> gmap string Z).
Context {SW : StrictWeakOrder (less_fn cfg)}.
Implicit Types (M : gmap string (Pool * QueuedPodInfo)) (p : QueuedPodInfo) (i : Inner).

#[export] Instance swo_backoff_completed : StrictWeakOrder (less_backoff_completed cfg).
Proof. split; unfold less_backoff_completed; intros *; lia. Qed.

#[export] Instance swo_backoff_with_priority : StrictWeakOrder (less_backoff_with_priority cfg).
Proof.
  split; unfold less_backoff_with_priority; intros *.
  - rewrite decide_True //. apply swo_irrefl.
  - repeat case_decide; try lia; try congruence. apply swo_trans.
  - repeat case_decide; try lia; try congruence. apply swo_ge_trans.
Qed.

(** ** The representation of the queued pods *)

Record pods_repr (a : Heap QueuedPodInfo) (b : BackoffQueue) (u : gmap string QueuedPodInfo)
    (M : gmap string (Pool * QueuedPodInfo)) : Prop := {
  pr_active : heap_inv qp_key (less_fn cfg) a;
  pr_backoff : heap_inv qp_key (less_backoff_with_priority cfg) (pod_backoff_q b);
  pr_error : heap_inv qp_key (less_backoff_completed cfg) (pod_error_backoff_q b);
  pr_active_c : contents a = pool_of M PActive;
  pr_backoff_c : contents (pod_backoff_q b) = pool_of M PBackoff;
  pr_error_c : contents (pod_error_backoff_q b) = pool_of M PError;
  pr_unsched_c : u = pool_of M PUnsched;
  pr_key k q p : M !! k = Some (q, p) -> qp_key p = k;
  pr_gated k q p : M !! k = Some (q, p) -> q <> PUnsched -> gated p = false
}.

Lemma has_key_pool (h : Heap QueuedPodInfo) M q k :
  contents h = pool_of M q -> has_key h k = bool_decide (is_Some (pool_of M q !! k)).
Proof.
  intros <-. unfold has_key, contents. apply bool_decide_ext. by rewrite lookup_fmap fmap_is_Some.
Qed.

Lemma get_by_key_pool (h : Heap QueuedPodInfo) M q k :
  contents h = pool_of M q -> get_by_key h k = pool_of M q !! k.
Proof. intros <-. unfold get_by_key, contents. by rewrite lookup_fmap. Qed.

Lemma present_pools a b u M k :
  pods_repr a b u M ->
  has_key a k || bq_has b k || bool_decide (is_Some (u !! k)) = bool_decide (is_Some (M !! k)).
Proof.
  intros [_ _ _ Ha Hb He -> _ _]. unfold bq_has.
  rewrite (has_key_pool _ _ _ k Ha) (has_key_pool _ _ _ k Hb) (has_key_pool _ _ _ k He).
  destruct (M !! k) as [[q p]|] eqn:Hk; simpl.
  - assert (pool_of M q !! k = Some p) as Hq by by apply pool_of_Some.
    destruct q; rewrite Hq; repeat case_bool_decide; simpl; naive_solver.
  - by rewrite !pool_of_absent.
Qed.

(** Deleting by key from a heap that represents a pool. *)
Lemma delete_pool less `{!StrictWeakOrder less} h M q k :
  heap_inv qp_key less h -> contents h = pool_of M q ->
  exists h', delete_by_key less h k =
      Some (h', match pool_of M q !! k with Some p => Ok p | None => Err "object not found" end) /\
    heap_inv qp_key less h' /\ contents h' = delete k (pool_of M q).
Proof.
  intros Hinv Hc. pose proof (delete_by_key_spec qp_key less h k Hinv) as Hd. rewrite Hc in Hd.
  destruct (pool_of M q !! k) eqn:Hk.
  - destruct Hd as (h' & -> & ? & Hc'). by exists h'.
  - rewrite Hd. exists h. by rewrite delete_id //.
Qed.

Lemma bq_take_spec b M k :
  heap_inv qp_key (less_backoff_with_priority cfg) (pod_backoff_q b) ->
  heap_inv qp_key (less_backoff_completed cfg) (pod_error_backoff_q b) ->
  contents (pod_backoff_q b) = pool_of M PBackoff ->
  contents (pod_error_backoff_q b) = pool_of M PError ->
  exists b', bq_take cfg b k =
      Some (b', match M !! k with Some (PBackoff, p) | Some (PError, p) => Some p | _ => None end) /\
    heap_inv qp_key (less_backoff_with_priority cfg) (pod_backoff_q b') /\
    heap_inv qp_key (less_backoff_completed cfg) (pod_error_backoff_q b') /\
    contents (pod_backoff_q b') = delete k (pool_of M PBackoff) /\
    contents (pod_error_backoff_q b') = delete k (pool_of M PError).
Proof.
  intros Hb He Hcb Hce. unfold bq_take.
  destruct (delete_pool _ _ M PBackoff k Hb Hcb) as (hb & -> & Hib & Hcb'). simpl.
  destruct (pool_of M PBackoff !! k) as [p|] eqn:Hk.
  - apply pool_of_Some in Hk as Hk'. rewrite Hk'. eexists. split; [done|]. simpl.
    split_and!; [done..|]. rewrite Hce delete_id //. by eapply pool_of_other.
  - destruct (delete_pool _ _ M PError k He Hce) as (he & -> & Hie & Hce'). simpl.
    destruct (M !! k) as [[q p]|] eqn:HM.
    + assert (pool_of M q !! k = Some p) as Hq by by apply pool_of_Some.
      destruct q; try congruence; rewrite ?Hq; try (rewrite (pool_of_other M _ _ k p HM) //);
        eexists; by split_and!.
    + rewrite pool_of_absent //. eexists. by split_and!.
Qed.

Lemma bq_delete_spec b M k :
  heap_inv qp_key (less_backoff_with_priority cfg) (pod_backoff_q b) ->
  heap_inv qp_key (less_backoff_completed cfg) (pod_error_backoff_q b) ->
  contents (pod_backoff_q b) = pool_of M PBackoff ->
  contents (pod_error_backoff_q b) = pool_of M PError ->
  exists b' found, bq_delete cfg b k = Some (b', found) /\
    found = match M !! k with Some (PBackoff, _) | Some (PError, _) => true | _ => false end /\
    heap_inv qp_key (less_backoff_with_priority cfg) (pod_backoff_q b') /\
    heap_inv qp_key (less_backoff_completed cfg) (pod_error_backoff_q b') /\
    contents (pod_backoff_q b') = delete k (pool_of M PBackoff) /\
    contents (pod_error_backoff_q b') = delete k (pool_of M PError).
Proof.
  intros Hb He Hcb Hce. unfold bq_delete.
  destruct (bq_take_spec b M k Hb He Hcb Hce) as (b' & -> & ? & ? & ? & ?). simpl.
  eexists _, _. split; [done|]. split_and!; [|done..].
  by destruct (M !! k) as [[[] p]|].
Qed.

Lemma pods_repr_put a b u M a' b' u' k q p :
  pods_repr a b u M -> k = qp_key p -> (q <> PUnsched -> gated p = false) ->
  heap_inv qp_key (less_fn cfg) a' ->
  heap_inv qp_key (less_backoff_with_priority cfg) (pod_backoff_q b') ->
  heap_inv qp_key (less_backoff_completed cfg) (pod_error_backoff_q b') ->
  contents a' = pool_of (<[k := (q, p)]> M) PActive ->
  contents (pod_backoff_q b') = pool_of (<[k := (q, p)]> M) PBackoff ->
  contents (pod_error_backoff_q b') = pool_of (<[k := (q, p)]> M) PError ->
  u' = pool_of (<[k := (q, p)]> M) PUnsched ->
  pods_repr a' b' u' (<[k := (q, p)]> M).
Proof.
  intros H -> Hg ? ? ? ? ? ? ?. split; [done..| |].
  - intros k' q' p'. rewrite lookup_insert_Some. intros [[? ?]|[_ ?]]; [by simplify_eq|].
    by eapply (pr_key _ _ _ _ H).
  - intros k' q' p'. rewrite lookup_insert_Some. intros [[? ?]|[_ ?]]; [by simplify_eq; auto|].
    by eapply (pr_gated _ _ _ _ H).
Qed.

Lemma pods_repr_drop a b u M a' b' u' k :
  pods_repr a b u M ->
  heap_inv qp_key (less_fn cfg) a' ->
  heap_inv qp_key (less_backoff_with_priority cfg) (pod_backoff_q b') ->
  heap_inv qp_key (less_backoff_completed cfg) (pod_error_backoff_q b') ->
  contents a' = delete k (pool_of M PActive) ->
  contents (pod_backoff_q b') = delete k (pool_of M PBackoff) ->
  contents (pod_error_backoff_q b') = delete k (pool_of M PError) ->
  u' = delete k (pool_of M PUnsched) ->
  pods_repr a' b' u' (delete k M).
Proof.
  intros H ? ? ? ? ? ? ?. split; rewrite ?pool_of_delete; [done..| |].
  - intros k' q' p' [_ ?]%lookup_delete_Some. by eapply (pr_key _ _ _ _ H).
  - intros k' q' p' [_ ?]%lookup_delete_Some. by eapply (pr_gated _ _ _ _ H).
Qed.

(** ** States *)

(** The fields the moves between sub-queues leave alone. *)
Definition same_flight i i' : Prop :=
  in_flight_pods i' = in_flight_pods i /\ in_flight_events i' = in_flight_events i /\
  next_seq i' = next_seq i /\ closed i' = closed i.

Record queued i M : Prop := {
  q_pods : pods_repr (active_q i) (backoff_q i) (unschedulable_pods i) M;
  q_nom : nom_inv (nominator i)
}.

Definition runs_to {R} (m : option (Inner * R)) i M' (r : R) : Prop :=
  exists i', m = Some (i', r) /\ queued i' M' /\ same_flight i i'.

Lemma same_flight_refl i : same_flight i i.
Proof. done. Qed.

Lemma same_flight_trans i1 i2 i3 : same_flight i1 i2 -> same_flight i2 i3 -> same_flight i1 i3.
Proof. unfold same_flight. intuition congruence. Qed.

Lemma pod_run_plugin pl p : qp_pod (run_pre_enqueue_plugin cfg pl p).1 = qp_pod p.
Proof. unfold run_pre_enqueue_plugin. by destruct (pre_enqueue pl (qp_pod p)). Qed.

Lemma pod_pre_enqueue_loop g pls p : qp_pod (pre_enqueue_loop cfg g pls p) = qp_pod p.
Proof.
  revert p. induction pls as [|pl pls IH]; intros p; simpl; [done|]. case_decide; [done|].
  pose proof (pod_run_plugin pl p). destruct (run_pre_enqueue_plugin cfg pl p) as [p' []]; [done|].
  by rewrite IH.
Qed.

Lemma pod_run_pre p : qp_pod (run_pre_enqueue_plugins cfg p) = qp_pod p.
Proof.
  unfold run_pre_enqueue_plugins.
  destruct (pre_enqueue_plugin_map cfg !! _) as [pls|]; [|done].
  case_decide; [apply pod_pre_enqueue_loop|].
  destruct (List.find _ pls) as [pl|]; [|apply pod_pre_enqueue_loop].
  pose proof (pod_run_plugin pl p). destruct (run_pre_enqueue_plugin cfg pl p) as [p' []]; [done|].
  by rewrite pod_pre_enqueue_loop.
Qed.

Lemma key_run_pre p : qp_key (run_pre_enqueue_plugins cfg p) = qp_key p.
Proof. unfold qp_key. by rewrite pod_run_pre. Qed.

(** ** Moves *)

(** unschedulablePods gets a pod that no sub-queue holds, or one it holds. *)
Lemma queued_unsched i M k p :
  queued i M -> k = qp_key p -> (forall q p', M !! k = Some (q, p') -> q = PUnsched) ->
  queued (set_unsched i (<[k := p]> (unschedulable_pods i))) (<[k := (PUnsched, p)]> M).
Proof.
  intros [H Hn] Hk HM. split; [|done]. simpl. pose proof H as [].
  eapply pods_repr_put; [done..| | | |]; rewrite ?pool_of_insert ?pool_of_insert_ne //.
  - rewrite pool_of_delete_id // => p' /HM //.
  - rewrite pool_of_delete_id // => p' /HM //.
  - rewrite pool_of_delete_id // => p' /HM //.
  - by rewrite -(pr_unsched_c _ _ _ _ H).
Qed.

Lemma move_to_active_q_spec i M p ev fb now :
  queued i M ->
  runs_to (move_to_active_q cfg i p ev fb now) i (spec_to_active cfg M p fb now)
    (bool_decide ((active_dest cfg p fb now).1 = PActive)).
Proof.
  intros Hq. pose proof Hq as [H Hn]. unfold move_to_active_q, spec_to_active, active_dest.
  set (p' := if fb then p else run_pre_enqueue_plugins cfg p).
  assert (qp_key p' = qp_key p) as Hkey by (subst p'; destruct fb; [done|apply key_run_pre]).
  destruct (gated p') eqn:Hg; simpl.
  - rewrite (present_pools _ _ _ M _ H) Hkey.
    destruct (decide (is_Some (M !! qp_key p))) as [Hs|Hs].
    + rewrite bool_decide_eq_true_2 // decide_True //. by exists i.
    + rewrite bool_decide_eq_false_2 // decide_False; [naive_solver|]. eexists. split; [done|].
      split; [|done]. apply queued_unsched; [done|done|]. intros q x Hx. by rewrite Hx in Hs; destruct Hs.
  - rewrite Hkey. pose proof H as [].
    destruct (bq_delete_spec (backoff_q i) M (qp_key p)) as (b' & f & -> & _ & ? & ? & Hb & He); [done..|].
    simpl. set (i3 := if decide _ then _ else _).
    assert (active_q i3 = active_q i /\ backoff_q i3 = b' /\
      unschedulable_pods i3 = delete (qp_key p) (unschedulable_pods i) /\ same_flight i i3 /\
      nom_inv (nominator i3)) as (-> & Hb3 & Hu3 & Hs & Hn3).
    { subst i3. case_decide; split_and!; try done. by apply nom_inv_add. }
    destruct (add_or_update_spec qp_key (less_fn cfg) (active_q i) (set_initial_attempt p' now))
      as (a' & Ha & Hinv & Hc); [done|]. unfold active_add. rewrite Ha /=.
    rewrite key_set_initial Hkey in Hc.
    eexists. split; [done|]. split; [|done]. split; [|done]. simpl. rewrite Hb3 Hu3.
    eapply pods_repr_put; [done|by rewrite key_set_initial|by rewrite gated_set_initial|done..| | | |];
      rewrite ?pool_of_insert ?pool_of_insert_ne //; congruence.
Qed.

Lemma bq_add_spec a b u M p :
  pods_repr a b u M -> gated p = false -> (forall p', M !! qp_key p <> Some (PActive, p')) ->
  exists b', bq_add cfg b p = Some b' /\
    pods_repr a b' (delete (qp_key p) u)
      (<[qp_key p := (if is_error_pod p then PError else PBackoff, p)]> M).
Proof.
  intros H Hg HM. pose proof H as []. unfold bq_add. destruct (is_error_pod p).
  - destruct (add_or_update_spec qp_key (less_backoff_completed cfg) (pod_error_backoff_q b) p)
      as (e' & He & ? & Hc); [done|]. unfold error_add. rewrite He /=.
    destruct (delete_pool (less_backoff_with_priority cfg) (pod_backoff_q b) M PBackoff (qp_key p))
      as (h' & -> & ? & ?); [done..|]. simpl. eexists. split; [done|].
    eapply pods_repr_put; [done..| | | |]; rewrite ?pool_of_insert ?pool_of_insert_ne //;
      rewrite ?(pool_of_delete_id M PActive) //=; congruence.
  - destruct (add_or_update_spec qp_key (less_backoff_with_priority cfg) (pod_backoff_q b) p)
      as (e' & He & ? & Hc); [done|]. unfold backoff_add. rewrite He /=.
    destruct (delete_pool (less_backoff_completed cfg) (pod_error_backoff_q b) M PError (qp_key p))
      as (h' & -> & ? & ?); [done..|]. simpl. eexists. split; [done|].
    eapply pods_repr_put; [done..| | | |]; rewrite ?pool_of_insert ?pool_of_insert_ne //;
      rewrite ?(pool_of_delete_id M PActive) //=; congruence.
Qed.

Lemma move_to_backoff_q_spec i M p :
  queued i M -> M !! qp_key p = None ->
  let p' := run_pre_enqueue_plugins cfg p in
  runs_to (move_to_backoff_q cfg i p) i
    (<[qp_key p := (if gated p' then PUnsched else if is_error_pod p' then PError else PBackoff, p')]> M)
    (negb (gated p')).
Proof.
  intros Hq HM p'. pose proof Hq as [H Hn]. unfold move_to_backoff_q. rewrite -/p'.
  assert (qp_key p' = qp_key p) as Hkey by apply key_run_pre. rewrite -Hkey in HM |- *.
  destruct (gated p') eqn:Hg.
  - rewrite (pr_unsched_c _ _ _ _ H) (pool_of_absent M PUnsched) //.
    eexists. split; [done|]. split; [|done]. rewrite -(pr_unsched_c _ _ _ _ H).
    apply queued_unsched; [done..|]. by rewrite HM.
  - destruct (bq_add_spec _ _ _ _ p' H Hg) as (b' & -> & ?); [by rewrite HM|].
    eexists. split; [done|]. by split.
Qed.

Definition queue_name_of (q : Pool) : QueueName :=
  match q with PActive => ACTIVE_Q | PBackoff | PError => BACKOFF_Q | PUnsched => UNSCHEDULABLE_Q end.

Lemma is_poppable_name q : is_poppable (queue_name_of q) = negb (bool_decide (q = PUnsched)).
Proof. by destruct q. Qed.

Lemma active_dest_cases p fb now :
  (active_dest cfg p fb now).1 = PActive \/ (active_dest cfg p fb now).1 = PUnsched.
Proof. unfold active_dest. case_match; auto. Qed.

(** The pod a strategy requeues: absent, or in unschedulablePods when the
    strategy leaves it there. *)
Lemma requeue_spec i M p s ev now :
  queued i M ->
  M !! qp_key p = None \/ (s = QueueSkip /\ exists p', M !! qp_key p = Some (PUnsched, p')) ->
  runs_to (requeue_pod_with_queueing_strategy cfg i p s ev now) i
    (<[qp_key p := requeue_dest cfg p s now]> M) (queue_name_of (requeue_dest cfg p s now).1).
Proof.
  intros Hq HM. unfold requeue_pod_with_queueing_strategy, requeue_dest.
  case_decide as Hs; [|destruct HM as [HM|[? _]]; [|done]; case_decide as Hb].
  - eexists. split; [done|]. split; [|done]. apply queued_unsched; [done..|].
    intros q p'. destruct HM as [->|(_ & p1 & ->)]; naive_solver.
  - destruct (move_to_backoff_q_spec i M p Hq HM) as (i' & -> & ? & ?). exists i'. simpl.
    split_and!; [|done..]. by repeat case_match.
  - destruct (move_to_active_q_spec i M p ev false now Hq) as (i' & -> & Hq' & ?). exists i'. simpl.
    split_and!; [|clear Hb|done].
    + by destruct (active_dest_cases p false now) as [-> | ->].
    + unfold spec_to_active in Hq'. rewrite decide_False in Hq'; [|done].
      rewrite HM. intros [_ []%is_Some_None].
Qed.

(** ** Deleting, taking, popping *)

Lemma update_in_heap_eq less (h : Heap QueuedPodInfo) pod :
  update_in_heap less h pod =
    match get_by_key h (pod_key pod) with
    | None => Some None
    | Some p => h' ← add_or_update qp_key less h (qp_update p pod); Some (Some h')
    end.
Proof.
  unfold update_in_heap, get_by_key, get_mut_by_key.
  destruct (items h !! pod_key pod) as [it|] eqn:Hk; [|done]. simpl.
  assert (qp_key (qp_update (obj it) pod) = pod_key pod) as Hkey by done.
  unfold add_or_update. rewrite Hkey Hk /= lookup_insert_eq /=. by rewrite insert_insert_eq.
Qed.

Lemma update_in_heap_spec less `{!StrictWeakOrder less} h M q pod :
  heap_inv qp_key less h -> contents h = pool_of M q ->
  match pool_of M q !! pod_key pod with
  | None => update_in_heap less h pod = Some None
  | Some p => exists h', update_in_heap less h pod = Some (Some h') /\ heap_inv qp_key less h' /\
      contents h' = <[pod_key pod := qp_update p pod]> (pool_of M q)
  end.
Proof.
  intros Hinv Hc. rewrite update_in_heap_eq (get_by_key_pool _ _ _ _ Hc).
  destruct (pool_of M q !! pod_key pod) as [p|]; [|done].
  destruct (add_or_update_spec qp_key less h (qp_update p pod) Hinv) as (h' & -> & ? & Hc').
  exists h'. by rewrite -Hc.
Qed.

(** Rewriting one entry in place leaves the other pools alone. *)
Lemma pool_of_insert_same M q q' k p p' :
  M !! k = Some (q, p) -> q <> q' -> pool_of (<[k := (q, p')]> M) q' = pool_of M q'.
Proof. intros HM ?. rewrite pool_of_insert_ne // pool_of_delete_id // => x. congruence. Qed.

Lemma bq_update_spec a b u M pod :
  pods_repr a b u M ->
  match M !! pod_key pod with
  | Some (PBackoff, p) => exists b', bq_update cfg b pod = Some (b', true) /\
      pods_repr a b' u (<[pod_key pod := (PBackoff, qp_update p pod)]> M)
  | Some (PError, p) => exists b', bq_update cfg b pod = Some (b', true) /\
      pods_repr a b' u (<[pod_key pod := (PError, qp_update p pod)]> M)
  | _ => bq_update cfg b pod = Some (b, false)
  end.
Proof.
  intros H. pose proof H as [].
  pose proof (update_in_heap_spec _ _ _ _ pod pr_backoff0 pr_backoff_c0) as Hb.
  pose proof (update_in_heap_spec _ _ _ _ pod pr_error0 pr_error_c0) as He.
  unfold bq_update. destruct (M !! pod_key pod) as [[q p]|] eqn:HM; last first.
  { rewrite !pool_of_absent // in Hb He. by rewrite Hb /= He. }
  assert (pool_of M q !! pod_key pod = Some p) as Hq by by apply pool_of_Some.
  destruct q.
  - rewrite !(pool_of_other M _ _ _ _ HM) // in Hb He. by rewrite Hb /= He.
  - rewrite Hq in Hb. destruct Hb as (h' & -> & ? & ?). eexists. split; [done|].
    eapply pods_repr_put; [done|done|by intros; eapply (pr_gated0 _ _ _ HM)|done|done|done| | | |];
      rewrite ?pool_of_insert ?(pool_of_insert_same _ _ _ _ _ _ HM) //=; congruence.
  - rewrite (pool_of_other M _ _ _ _ HM) // in Hb. rewrite Hb /=.
    rewrite Hq in He. destruct He as (h' & -> & ? & ?). eexists. split; [done|].
    eapply pods_repr_put; [done|done|by intros; eapply (pr_gated0 _ _ _ HM)|done|done|done| | | |];
      rewrite ?pool_of_insert ?(pool_of_insert_same _ _ _ _ _ _ HM) //=; congruence.
  - rewrite !(pool_of_other M _ _ _ _ HM) // in Hb He. by rewrite Hb /= He.
Qed.

Lemma active_update_spec a b u M pod :
  pods_repr a b u M ->
  match M !! pod_key pod with
  | Some (PActive, p) => exists a', update_in_heap (less_fn cfg) a pod = Some (Some a') /\
      pods_repr a' b u (<[pod_key pod := (PActive, qp_update p pod)]> M)
  | _ => update_in_heap (less_fn cfg) a pod = Some None
  end.
Proof.
  intros H. pose proof H as [].
  pose proof (update_in_heap_spec _ _ _ _ pod pr_active0 pr_active_c0) as Ha.
  destruct (M !! pod_key pod) as [[q p]|] eqn:HM; [|by rewrite pool_of_absent in Ha].
  destruct q; [|by rewrite (pool_of_other M _ _ _ _ HM) in Ha..].
  assert (pool_of M PActive !! pod_key pod = Some p) as Hq by by apply pool_of_Some.
  rewrite Hq in Ha. destruct Ha as (h' & -> & ? & ?). eexists. split; [done|].
  eapply pods_repr_put; [done|done|by intros; eapply (pr_gated0 _ _ _ HM)|done|done|done| | | |];
    rewrite ?pool_of_insert ?(pool_of_insert_same _ _ _ _ _ _ HM) //=; congruence.
Qed.

Lemma sq_delete_spec i M pod :
  queued i M ->
  exists i', sq_delete cfg i pod = Some i' /\ queued i' (delete (pod_key pod) M) /\ same_flight i i'.
Proof.
  intros [H Hn]. pose proof H as []. unfold sq_delete. simpl.
  destruct (delete_pool _ _ M PActive (pod_key pod) pr_active0 pr_active_c0) as (a' & -> & ? & Ha). simpl.
  destruct (pool_of M PActive !! pod_key pod) as [p|] eqn:Hp.
  - apply pool_of_Some in Hp. eexists. split; [done|]. split; [|done].
    split; [|by apply nom_inv_delete]. simpl. eapply pods_repr_drop; [done..| | |];
      rewrite delete_id //; by eapply pool_of_other.
  - destruct (bq_delete_spec (backoff_q i) M (pod_key pod)) as (b' & f & -> & Hf & ? & ? & Hb & He); [done..|].
    simpl. destruct f; (eexists; split; [done|]; split; [|done]; split; [|by apply nom_inv_delete]);
      simpl; (eapply pods_repr_drop; [done..|by rewrite delete_id|done|done|]).
    + rewrite delete_id //. destruct (M !! pod_key pod) as [[[] p]|] eqn:HM; try done;
        by eapply pool_of_other.
    + by rewrite pr_unsched_c0.
Qed.

(** ** Popping *)

Lemma candidate_key M p : pop_candidate cfg M p -> exists q, M !! qp_key p = Some (q, p).
Proof. intros [[Hp _]|[_ [Hp _]]]; apply pool_of_Some in Hp; eauto. Qed.

Lemma heap_len_pool less `{!StrictWeakOrder less} (h : Heap QueuedPodInfo) M q :
  heap_inv qp_key less h -> contents h = pool_of M q -> len h = 0 <-> pool_of M q = ∅.
Proof.
  intros [Hwf _] <-. rewrite -(empty_contents qp_key h Hwf). unfold len. by rewrite length_zero_iff_nil.
Qed.

(** One pop attempt: activeQ, then the backoff queue. *)
Lemma pop_attempt i M :
  queued i M ->
  (exists p i1, pop_head cfg i = Some (i1, Some p) /\ pop_candidate cfg M p /\
      queued i1 (delete (qp_key p) M) /\ same_flight i i1 /\
      S (len (active_q i1) + bq_len_backoff (backoff_q i1)) =
        len (active_q i) + bq_len_backoff (backoff_q i)) \/
  (pop_head cfg i = Some (i, None) /\ queues_empty M).
Proof.
  intros [H Hn]. pose proof H as []. unfold pop_head. pose proof (pop_spec qp_key (less_fn cfg) _ pr_active0) as Ha.
  destruct (peek (active_q i)) as [p|].
  - destruct Ha as (Hm & a' & -> & ? & Hc & Hl). left. eexists p, _. split; [done|].
    rewrite pr_active_c0 in Hm Hc. split; [by left|]. split_and!; [|done..|].
    + split; [|done]. destruct Hm as [Hm _]. apply pool_of_Some in Hm.
      eapply pods_repr_drop; [done..| | |]; rewrite delete_id //; by eapply pool_of_other.
    + unfold len, bq_len_backoff in *. simpl. lia.
  - destruct Ha as [Hempty ->]. simpl. unfold bq_pop_backoff.
    pose proof (pop_spec qp_key (less_backoff_with_priority cfg) _ pr_backoff0) as Hb.
    rewrite pr_active_c0 in Hempty.
    destruct (peek (pod_backoff_q (backoff_q i))) as [p|].
    + destruct Hb as (Hm & b' & -> & ? & Hc & Hl). left. eexists p, _. split; [done|].
      rewrite pr_backoff_c0 in Hm Hc. split; [by right|]. split_and!; [|done..|].
      * split; [|done]. destruct Hm as [Hm _]. apply pool_of_Some in Hm.
        eapply pods_repr_drop; [done..| |done| |]; simpl; rewrite delete_id //; by eapply pool_of_other.
      * unfold len, bq_len_backoff, len in *. simpl. lia.
    + destruct Hb as [Hempty' ->]. right. split; [done|]. split; [done|]. by rewrite -pr_backoff_c0.
Qed.

(** ** In-flight pods *)

Record sq_repr i (A : AQ) : Prop := {
  repr_queued : queued i (aq_pods A);
  repr_flight : flight_repr (in_flight_pods i) (in_flight_events i) (next_seq i) (aq_flight A)
}.

Lemma see_nil F : see F [] = F.
Proof.
  unfold see. transitivity (id <$> F); [|apply map_fmap_id]. apply map_fmap_ext.
  intros. by rewrite app_nil_r.
Qed.

Lemma see_see F l1 l2 : see (see F l1) l2 = see F (l1 ++ l2).
Proof. unfold see. rewrite -map_fmap_compose. apply map_fmap_ext. intros. by rewrite /= app_assoc. Qed.

Lemma see_dom F l uid : is_Some (see F l !! uid) <-> is_Some (F !! uid).
Proof. unfold see. by rewrite lookup_fmap fmap_is_Some. Qed.

Lemma repr_same i i' A M :
  sq_repr i A -> queued i' M -> same_flight i i' -> sq_repr i' (mkAQ M (aq_flight A)).
Proof. intros [_ Hf] Hq (Hp & He & Hn & _). split; [done|]. simpl. by rewrite Hp He Hn. Qed.

Lemma push_event_repr i A ev :
  sq_repr i A -> in_flight_pods i <> ∅ ->
  sq_repr (push_event i ev) (mkAQ (aq_pods A) (see (aq_flight A) [ev])).
Proof. intros [[] Hf] Hne. split; [by split|]. by apply flight_push. Qed.

Lemma push_events_repr i A evs :
  sq_repr i A -> in_flight_pods i <> ∅ ->
  sq_repr (foldl push_event i evs) (mkAQ (aq_pods A) (see (aq_flight A) evs)).
Proof.
  revert i A. induction evs as [|ev evs IH]; intros i A HA Hne; simpl.
  { rewrite see_nil. by destruct A. }
  specialize (IH _ _ (push_event_repr i A ev HA Hne) Hne). simpl in IH. by rewrite see_see in IH.
Qed.

Lemma add_events_in_flight_repr i A old new events :
  sq_repr i A ->
  exists i', add_events_if_pod_in_flight i old new events =
      (i', bool_decide (is_Some (aq_flight A !! pod_uid new))) /\
    sq_repr i' (mkAQ (aq_pods A)
      (if bool_decide (is_Some (aq_flight A !! pod_uid new))
       then see (aq_flight A)
              ((fun ev => mkInFlightEvent ev (ObjPod <$> old) (Some (ObjPod new))) <$> events)
       else aq_flight A)).
Proof.
  intros HA. pose proof HA as [_ Hf]. unfold add_events_if_pod_in_flight.
  destruct (in_flight_pods i !! pod_uid new) as [seq|] eqn:Hu.
  - rewrite bool_decide_eq_true_2; [apply (flight_dom _ _ _ _ _ Hf); by rewrite Hu|].
    eexists. split; [done|]. rewrite -foldl_fmap. apply push_events_repr; [done|].
    intros He. by rewrite He in Hu.
  - rewrite bool_decide_eq_false_2.
    { rewrite (flight_dom _ _ _ _ _ Hf) Hu. apply is_Some_None. }
    eexists. split; [done|]. by destruct A.
Qed.

Lemma add_event_any_repr i A old new event :
  sq_repr i A ->
  sq_repr (add_event_if_any_in_flight i old new event).1
    (mkAQ (aq_pods A) (see (aq_flight A) [mkInFlightEvent event old new])).
Proof.
  intros HA. unfold add_event_if_any_in_flight. case_decide as He; simpl.
  - assert (aq_flight A = ∅) as HF.
    { rewrite (fl_events _ _ _ _ (repr_flight _ _ HA)) He. apply fmap_empty. }
    unfold see. rewrite HF fmap_empty -HF. by destruct A.
  - by apply push_event_repr.
Qed.

Lemma done_repr i A uid :
  sq_repr i A -> sq_repr (unlocked_done i uid) (mkAQ (aq_pods A) (delete uid (aq_flight A))).
Proof.
  intros HA. pose proof HA as [[] Hf]. unfold unlocked_done.
  destruct (in_flight_pods i !! uid) as [seq|] eqn:Hu.
  - split; [by split|]. by apply flight_done.
  - rewrite delete_id; [|by destruct A]. by apply (flight_dom_None _ _ _ _ _ Hf).
Qed.

Lemma cluster_events_repr i A p :
  sq_repr i A ->
  determine_scheduling_hint_for_in_flight_pod cfg i p = return_strategy cfg (aq_flight A) p.
Proof.
  intros [_ Hf]. unfold determine_scheduling_hint_for_in_flight_pod, return_strategy.
  rewrite cluster_events_for_pod_eq (fl_events _ _ _ _ Hf) lookup_fmap.
  by destruct (in_flight_pods i !! _).
Qed.

Lemma unlocked_pop_repr fuel i A :
  sq_repr i A -> len (active_q i) + bq_len_backoff (backoff_q i) < fuel ->
  exists i' r M', unlocked_pop_fuel cfg fuel i = Some (i', popped_info <$> r) /\
    pop_steps cfg (aq_flight A) (aq_pods A) M' r /\
    sq_repr i' (mkAQ M' (match r with
                         | Some p => <[pod_uid (qp_pod p) := []]> (aq_flight A)
                         | None => aq_flight A
                         end)).
Proof.
  revert i A. induction fuel as [|fuel IH]; intros i A HA Hlt; [lia|]. simpl.
  destruct (pop_attempt i (aq_pods A) (repr_queued _ _ HA)) as
    [(p & i1 & -> & Hc & Hq & Hs & Hl)|[-> He]]; simpl; last first.
  { exists i, None, (aq_pods A). split_and!; [done|by constructor; apply He|by destruct A]. }
  pose proof (repr_same _ _ _ _ HA Hq Hs) as HA1. pose proof (repr_flight _ _ HA1) as Hf. simpl in Hf.
  destruct (in_flight_pods i1 !! pod_uid (qp_pod p)) as [seq|] eqn:Hu.
  - destruct (IH i1 _ HA1) as (i' & r & M' & -> & Hp & Hr); [lia|].
    exists i', r, M'. split_and!; [done| |done]. eapply pop_discard; [done| |done].
    apply (flight_dom _ _ _ _ _ Hf). by rewrite Hu.
  - eexists _, (Some p), _. split_and!; [done| |].
    + apply pop_take; [done|]. by apply (flight_dom_None _ _ _ _ _ Hf).
    + destruct Hq. split; [by split|]. simpl. by apply flight_pop.
Qed.

(** ** Loops over pods *)

(** The effect of moving the pods of [ps] one after the other, [g] saying where
    each goes, if anywhere. *)
Definition put_all (g : QueuedPodInfo -> option (Pool * QueuedPodInfo)) M (ps : list QueuedPodInfo) :=
  foldl (fun M p => match g p with Some d => <[qp_key p := d]> M | None => M end) M ps.

#[local] Arguments put_all : simpl never.

Lemma put_all_cons g M p ps :
  put_all g M (p :: ps) = put_all g (match g p with Some d => <[qp_key p := d]> M | None => M end) ps.
Proof. done. Qed.

Lemma put_all_other g M ps k :
  (forall p, p ∈ ps -> qp_key p = k -> g p = None) -> put_all g M ps !! k = M !! k.
Proof.
  unfold put_all. revert M. induction ps as [|p ps IH]; intros M H; simpl; [done|].
  rewrite IH; [set_solver|]. destruct (g p) eqn:Hg; [|done].
  destruct (decide (qp_key p = k)) as [Hk|]; [|by rewrite lookup_insert_ne].
  rewrite (H p) // in Hg. set_solver.
Qed.

Lemma put_all_in g M ps p d :
  NoDup (qp_key <$> ps) -> p ∈ ps -> g p = Some d -> put_all g M ps !! qp_key p = Some d.
Proof.
  revert M. induction ps as [|p' ps IH]; intros M; csimpl; [set_solver|].
  intros [Hn Hnd]%NoDup_cons [->|Hp]%elem_of_cons Hg; [|by rewrite put_all_cons; apply IH].
  rewrite put_all_cons Hg put_all_other; [|by rewrite lookup_insert_eq].
  intros p'' Hp'' Hk. destruct Hn. rewrite -Hk. by apply list_elem_of_fmap_2.
Qed.

(** Moving every pod of [ps] is mapping [f] over the queue, when [f] leaves the
    other pods alone. *)
Lemma put_all_fmap (g : QueuedPodInfo -> option (Pool * QueuedPodInfo))
    (f : Pool * QueuedPodInfo -> Pool * QueuedPodInfo) M ps :
  (forall k q p, M !! k = Some (q, p) -> qp_key p = k) -> NoDup (qp_key <$> ps) ->
  (forall p, p ∈ ps -> exists q, M !! qp_key p = Some (q, p) /\ f (q, p) = default (q, p) (g p)) ->
  (forall k q p, M !! k = Some (q, p) -> p ∉ ps -> f (q, p) = (q, p)) ->
  put_all g M ps = f <$> M.
Proof.
  intros Hkey Hnd Hin Hout. apply map_eq. intros k. rewrite lookup_fmap.
  destruct (decide (Exists (fun p => qp_key p = k) ps)) as [(p & Hp & <-)%Exists_exists|Hn].
  - destruct (Hin p Hp) as (q & HM & Hf). rewrite HM /= Hf. destruct (g p) as [d|] eqn:Hg; simpl.
    + by apply put_all_in.
    + rewrite put_all_other //. intros p' Hp' Hk.
      destruct (Hin p' Hp') as (q' & HM' & _). rewrite Hk HM in HM'. by simplify_eq.
  - rewrite Exists_exists in Hn. rewrite put_all_other; [by intros; destruct Hn; eauto|].
    destruct (M !! k) as [[q p]|] eqn:HM; [|done]. simpl. rewrite (Hout k) //.
    intros Hp. destruct Hn. exists p. split; [done|]. by eapply Hkey.
Qed.

Lemma move_pods_loop_spec i M ps ev old new now :
  queued i M -> NoDup (qp_key <$> ps) -> (forall p, p ∈ ps -> M !! qp_key p = Some (PUnsched, p)) ->
  let g p := s ← event_strategy cfg p ev old new; Some (requeue_dest cfg p s now) in
  runs_to (move_pods_loop cfg i ps ev old new now) i (put_all g M ps)
    (existsb (fun p => match g p with Some d => negb (bool_decide (d.1 = PUnsched)) | None => false end) ps).
Proof.
  intros Hq Hnd Hin g. revert i M Hq Hin. induction ps as [|p ps IH]; intros i M Hq Hin; simpl.
  { by exists i. }
  csimpl in Hnd. apply NoDup_cons in Hnd as [Hn Hnd]. rewrite put_all_cons.
  assert (event_strategy cfg p ev old new =
    if gated p && negb (cluster_event_is_wild_card ev)
       && negb (match_any_cluster_event ev (qp_gating_plugin_events p)) then None
    else if decide (is_pod_worth_requeuing cfg p ev old new = QueueSkip) then None
         else Some (is_pod_worth_requeuing cfg p ev old new)) as Hes by done.
  assert (forall p', p' ∈ ps -> qp_key p' <> qp_key p) as Hne.
  { intros p' Hp' Heq. destruct Hn. rewrite -Heq. by apply list_elem_of_fmap_2. }
  destruct (gated p && _ && _) eqn:Hg.
  { assert (g p = None) as -> by (unfold g; by rewrite Hes). apply IH; [done..|]. set_solver. }
  destruct (decide (is_pod_worth_requeuing cfg p ev old new = QueueSkip)) as [Hs|Hs].
  { assert (g p = None) as -> by (unfold g; by rewrite Hes). apply IH; [done..|]. set_solver. }
  assert (g p = Some (requeue_dest cfg p (is_pod_worth_requeuing cfg p ev old new) now)) as ->
    by (unfold g; by rewrite Hes).
  set (s := is_pod_worth_requeuing cfg p ev old new) in *.
  pose proof (Hin p ltac:(set_solver)) as HM.
  destruct (requeue_spec (set_unsched i (delete (qp_key p) (unschedulable_pods i)))
    (delete (qp_key p) M) p s (label ev) now) as (i2 & -> & Hq2 & Hs2).
  { destruct Hq as [H Hn']. split; [|done]. simpl. pose proof H as [].
    eapply pods_repr_drop; [done..| | | |congruence]; rewrite delete_id //; by eapply pool_of_other. }
  { left. by rewrite lookup_delete_eq. }
  simpl. rewrite insert_delete_eq in Hq2.
  destruct (IH Hnd i2 (<[qp_key p:=requeue_dest cfg p s now]> M) Hq2) as (i3 & -> & Hq3 & Hs3).
  { intros p' Hp'. rewrite lookup_insert_ne; [by apply not_eq_sym, Hne|]. apply Hin. set_solver. }
  exists i3. rewrite /= is_poppable_name. split_and!; [done|done|by eapply same_flight_trans].
Qed.

(** The pods selected from unschedulablePods, in iteration order. *)
Lemma selected_pods i M (P : QueuedPodInfo -> Prop) {HD : forall p, Decision (P p)} :
  queued i M ->
  let ps := filter P (hash_iter (unschedulable_pods i)).*2 in
  NoDup (qp_key <$> ps) /\
  forall p, p ∈ ps <-> P p /\ M !! qp_key p = Some (PUnsched, p).
Proof.
  intros [H _] ps.
  assert (forall p, p ∈ (hash_iter (unschedulable_pods i)).*2 <-> M !! qp_key p = Some (PUnsched, p)) as Hin.
  { intros p. rewrite list_elem_of_fmap (pr_unsched_c _ _ _ _ H). split.
    - intros ([k p'] & -> & Hk). rewrite elem_of_hash_iter pool_of_Some in Hk. simpl.
      by rewrite (pr_key _ _ _ _ H _ _ _ Hk).
    - intros Hp. exists (qp_key p, p). by rewrite elem_of_hash_iter pool_of_Some. }
  split; [|by intros p; rewrite list_elem_of_filter Hin].
  eapply sublist_NoDup; [|apply fmap_sublist, sublist_filter].
  pose proof (hash_iter_nodup (unschedulable_pods i)) as Hnd.
  replace (qp_key <$> (hash_iter (unschedulable_pods i)).*2) with (hash_iter (unschedulable_pods i)).*1; [done|].
  rewrite -list_fmap_compose. apply list_fmap_ext. intros n [k p] Hn. simpl.
  apply list_elem_of_lookup_2 in Hn. rewrite elem_of_hash_iter (pr_unsched_c _ _ _ _ H) pool_of_Some in Hn.
  symmetry. by eapply (pr_key _ _ _ _ H).
Qed.

(** [move_pods_to_active_or_backoff_queue] on the pods a caller selected. *)
Lemma move_pods_repr i A (P : QueuedPodInfo -> Prop) {HD : forall p, Decision (P p)} sel ev old new now :
  sq_repr i A -> (forall p, P p <-> sel p = true) -> is_event_of_interest cfg ev = true ->
  exists i' b, move_pods_to_active_or_backoff_queue cfg i
      (filter P (hash_iter (unschedulable_pods i)).*2) ev old new now = Some (i', b) /\
    sq_repr i' (spec_event cfg A sel ev old new now) /\
    (b = true <-> some_moved (aq_pods A) (event_move cfg sel ev old new now)).
Proof.
  intros HA Hsel Hint. pose proof HA as [Hq Hf]. unfold move_pods_to_active_or_backoff_queue. rewrite Hint.
  destruct (selected_pods i _ P Hq) as [Hnd Hin]. set (ps := filter P _) in *.
  set (g := fun p => s ← event_strategy cfg p ev old new; Some (requeue_dest cfg p s now)).
  assert (forall p, p ∈ ps -> event_move cfg sel ev old new now (PUnsched, p) = default (PUnsched, p) (g p))
    as Hmove.
  { intros p [HP _]%Hin. unfold event_move, g. rewrite decide_True; [by split; [|apply Hsel]|].
    by destruct (event_strategy cfg p ev old new). }
  destruct (move_pods_loop_spec i (aq_pods A) ps ev old new now Hq Hnd) as (i1 & -> & Hq1 & Hs1).
  { intros p Hp. by apply Hin. }
  rewrite -/g in Hq1 |- *. simpl. eexists _, _. split; [done|]. split.
  - replace (put_all g (aq_pods A) ps) with (event_move cfg sel ev old new now <$> aq_pods A) in Hq1.
    { apply (add_event_any_repr _ (mkAQ _ (aq_flight A))). by eapply repr_same. }
    symmetry. apply put_all_fmap; [by eapply pr_key, Hq|done| |].
    + intros p Hp. exists PUnsched. split; [by apply Hin|by apply Hmove].
    + intros k q p Hk Hp. unfold event_move. rewrite decide_False //. intros [-> Hsp]. destruct Hp.
      apply Hin. split; [by apply Hsel|]. pose proof (pr_key _ _ _ _ (q_pods _ _ Hq) _ _ _ Hk). congruence.
  - rewrite existsb_exists. split.
    + intros (p & Hp%list_elem_of_In & Hd). exists (qp_key p), (PUnsched, p). rewrite (Hmove _ Hp).
      split; [by apply Hin|]. rewrite -/(g p) in Hd. destruct (g p); [|done]. apply negb_true_iff, bool_decide_eq_false in Hd.
      simpl. auto.
    + intros (k & [q p] & Hk & Hne & Hnu). unfold event_move in Hne, Hnu. case_decide as Hc; [|done].
      destruct Hc as [-> Hsp]. assert (p ∈ ps) as Hp.
      { apply Hin. split; [by apply Hsel|]. pose proof (pr_key _ _ _ _ (q_pods _ _ Hq) _ _ _ Hk). congruence. }
      exists p. split; [by apply list_elem_of_In|]. unfold g.
      destruct (event_strategy cfg p ev old new); [|done]. simpl. by apply negb_true_iff, bool_decide_eq_false.
Qed.

(** ** Flushing the backoff queue *)

Lemma pop_completed_spec less `{!StrictWeakOrder less} w fuel h :
  (forall a b, less b a = false -> (bo_time cfg a <= bo_time cfg b)%Z) ->
  heap_inv qp_key less h -> len h <= fuel ->
  exists h' ps, pop_completed cfg fuel less w h = Some (h', ps) /\ heap_inv qp_key less h' /\
    contents h' = filter (fun kp => w <= bo_time cfg kp.2)%Z (contents h) /\
    ps ≡ₚ (map_to_list (filter (fun kp => ~ w <= bo_time cfg kp.2)%Z (contents h))).*2.
Proof.
  intros Hless. revert h. induction fuel as [|fuel IH]; intros h Hinv Hlen.
  all: pose proof (pop_spec qp_key less h Hinv) as Hp; simpl; destruct (peek h) as [a|] eqn:Hpk.
  2, 4: destruct Hp as [He _]; exists h, []; rewrite He !map_filter_empty map_to_list_empty; by split_and!.
  all: destruct Hp as ([Hka Hmin] & h1 & Hpop & Hinv1 & Hc1 & Hl1).
  { unfold len in Hlen. lia. }
  case_decide as Hw.
  - exists h, []. split_and!; [done|done| |].
    + symmetry. apply map_filter_id. intros k b Hb. simpl. pose proof (Hless _ _ (Hmin k b Hb)). lia.
    + rewrite map_empty_filter_2 ?map_to_list_empty //. intros k b Hb. simpl.
      pose proof (Hless _ _ (Hmin k b Hb)). lia.
  - rewrite Hpop /=. unfold len in *. destruct (IH h1 Hinv1) as (h2 & ps & -> & Hinv2 & Hc2 & Hps); [lia|].
    simpl. exists h2, (a :: ps). split_and!; [done|done| |].
    + rewrite Hc2 Hc1 map_filter_delete delete_id //. apply map_lookup_filter_None_2. right.
      intros x Hx. by simplify_eq.
    + rewrite Hps Hc1. rewrite -{2}(insert_delete_id (contents h) (qp_key a) a Hka).
      rewrite map_filter_insert_True //. rewrite map_to_list_insert //.
      apply map_lookup_filter_None_2. left. by rewrite lookup_delete_eq.
Qed.

Lemma pool_of_pending M now q :
  pool_of (filter (fun kx => ~ backoff_done cfg now kx.2 = true) M) q =
  filter (fun kp => ~ backoff_done cfg now (q, kp.2) = true) (pool_of M q).
Proof.
  apply map_eq. intros k. apply option_eq. intros p.
  by rewrite pool_of_Some !map_lookup_filter_Some pool_of_Some.
Qed.

Lemma move_completed_spec i M ps now :
  queued i M -> Forall (fun p => gated p = false) ps ->
  runs_to (move_completed cfg i ps now) i
    (put_all (fun p => Some (PActive, set_initial_attempt p now)) M ps) (negb (bool_decide (ps = []))).
Proof.
  revert i M. induction ps as [|p ps IH]; intros i M Hq Hg; simpl; [by exists i|].
  apply Forall_cons in Hg as [Hg Hgs].
  destruct (move_to_active_q_spec i M p BACKOFF_COMPLETE true now Hq) as (i1 & -> & Hq1 & Hs1). simpl.
  assert (active_dest cfg p true now = (PActive, set_initial_attempt p now)) as Hd
    by by rewrite /active_dest Hg.
  unfold spec_to_active in Hq1. rewrite Hd in Hq1 |- *. simpl in *.
  destruct (IH i1 _ Hq1 Hgs) as (i2 & -> & Hq2 & Hs2). exists i2. simpl.
  split_and!; [done| |by eapply same_flight_trans]. by rewrite put_all_cons.
Qed.

(** The pods that completed their backoff leave the two backoff heaps. *)
Lemma pop_all_spec i M now :
  queued i M ->
  exists q ps, bq_pop_all_backoff_completed cfg (backoff_q i) now = Some (q, ps) /\
    queued (set_backoff i q) (filter (fun kx => ~ backoff_done cfg now kx.2 = true) M) /\
    NoDup (qp_key <$> ps) /\
    forall p, p ∈ ps <-> exists k q, M !! k = Some (q, p) /\ backoff_done cfg now (q, p) = true.
Proof.
  intros Hq. pose proof Hq as [H Hn]. pose proof H as []. unfold bq_pop_all_backoff_completed.
  set (w := align_to_window now).
  destruct (pop_completed_spec (less_backoff_with_priority cfg) w (len (pod_backoff_q (backoff_q i)))
    (pod_backoff_q (backoff_q i))) as (b & ps & -> & Hib & Hcb & Hps); [|done|done|].
  { intros x y. unfold less_backoff_with_priority. case_decide; lia. }
  destruct (pop_completed_spec (less_backoff_completed cfg) w (len (pod_error_backoff_q (backoff_q i)))
    (pod_error_backoff_q (backoff_q i))) as (e & es & He & Hie & Hce & Hes); [|done|done|].
  { intros x y. unfold less_backoff_completed. lia. }
  simpl. rewrite He /=. rewrite pr_backoff_c0 in Hcb Hps. rewrite pr_error_c0 in Hce Hes.
  assert (forall q p, q = PBackoff \/ q = PError ->
    backoff_done cfg now (q, p) = true <-> ~ (w <= bo_time cfg p)%Z) as Hdone.
  { intros q p Hq'. unfold backoff_done. rewrite bool_decide_eq_true /= -/w.
    rewrite -Z.lt_nge. tauto. }
  assert (forall q p, q = PActive \/ q = PUnsched -> backoff_done cfg now (q, p) <> true) as Hnot.
  { intros q p Hq'. unfold backoff_done. rewrite bool_decide_eq_true /=. naive_solver. }
  eexists _, _. split; [done|]. split_and!.
  - split; [|done]. simpl. split; simpl; [done..| | | | | |];
      rewrite ?pool_of_pending.
    + rewrite pr_active_c0. symmetry. apply map_filter_id. intros k p _. apply Hnot. by left.
    + rewrite Hcb. apply map_filter_ext. intros k p _. simpl. rewrite Hdone; [by left|lia].
    + rewrite Hce. apply map_filter_ext. intros k p _. simpl. rewrite Hdone; [by right|lia].
    + rewrite pr_unsched_c0. symmetry. apply map_filter_id. intros k p _. apply Hnot. by right.
    + intros k q p. rewrite map_lookup_filter_Some. intros [? _]. by eapply pr_key0.
    + intros k q p. rewrite map_lookup_filter_Some. intros [? _]. by eapply pr_gated0.
  - rewrite Hps Hes -fmap_app. set (l := map_to_list _ ++ map_to_list _).
    assert (forall k p, (k, p) ∈ l -> M !! k = Some (PBackoff, p) \/ M !! k = Some (PError, p)) as Hl.
    { intros k p. unfold l. rewrite elem_of_app !elem_of_map_to_list !map_lookup_filter_Some !pool_of_Some.
      naive_solver. }
    replace (qp_key <$> l.*2) with l.*1; [|rewrite -list_fmap_compose; apply list_fmap_ext].
    + unfold l. rewrite fmap_app. apply NoDup_app. split_and!; [apply NoDup_fst_map_to_list| |apply NoDup_fst_map_to_list].
      intros k. rewrite !list_elem_of_fmap. intros ([k1 p] & Hk1 & Hp) ([k2 p'] & Hk2 & Hp').
      rewrite !elem_of_map_to_list !map_lookup_filter_Some !pool_of_Some in Hp Hp'. simpl in *.
      destruct Hp, Hp'. subst. congruence.
    + intros n [k p] Hx%list_elem_of_lookup_2. simpl. symmetry.
      destruct (Hl _ _ Hx) as [Hk|Hk]; by eapply pr_key0.
  - intros p. rewrite elem_of_app Hps Hes !list_elem_of_fmap. split.
    + intros [([k p'] & -> & Hk)|([k p'] & -> & Hk)];
        rewrite elem_of_map_to_list map_lookup_filter_Some pool_of_Some in Hk; destruct Hk as [Hk Hw];
        eexists k, _; (split; [done|]); apply Hdone; auto.
    + intros (k & q & Hk & Hd). assert (q = PBackoff \/ q = PError) as Hq'.
      { destruct q; auto; exfalso; refine (Hnot _ p _ Hd); auto. }
      apply Hdone in Hd; [|done]. destruct Hq' as [-> | ->]; [left|right]; exists (k, p);
        by rewrite elem_of_map_to_list map_lookup_filter_Some pool_of_Some.
Qed.

Lemma flush_backoff_repr i A now :
  sq_repr i A ->
  exists i' b, flush_backoff_q_completed cfg i now = Some (i', b) /\
    sq_repr i' (mkAQ (flush_move cfg now <$> aq_pods A) (aq_flight A)) /\
    (b = true <-> exists k qp, aq_pods A !! k = Some qp /\ backoff_done cfg now qp = true).
Proof.
  intros HA. pose proof HA as [Hq Hf]. set (M := aq_pods A) in *. unfold flush_backoff_q_completed.
  destruct (pop_all_spec i M now Hq) as (q & ps & -> & Hq1 & Hnd & Hin). simpl.
  pose proof (q_pods _ _ Hq) as H.
  destruct (move_completed_spec _ _ ps now Hq1) as (i' & -> & Hq2 & Hs2).
  { apply Forall_forall. intros p (k & q' & Hk & Hd)%Hin. eapply (pr_gated _ _ _ _ H); [done|].
    unfold backoff_done in Hd. rewrite bool_decide_eq_true in Hd. naive_solver. }
  eexists _, _. split; [done|]. split.
  - eapply repr_same; [done| |by eapply same_flight_trans].
    assert (flush_move cfg now <$> M =
      put_all (fun p => Some (PActive, set_initial_attempt p now))
        (filter (fun kx => ~ backoff_done cfg now kx.2 = true) M) ps) as ->; [|done].
    apply map_eq. intros k. rewrite lookup_fmap.
    destruct (M !! k) as [[q' p]|] eqn:Hk; simpl; [destruct (backoff_done cfg now (q', p)) eqn:Hd|].
    + unfold flush_move. rewrite Hd. rewrite -(pr_key _ _ _ _ H _ _ _ Hk). symmetry.
      apply put_all_in; [done| |done]. apply Hin. eauto.
    + unfold flush_move. rewrite Hd. rewrite put_all_other.
      * intros p' (k' & q'' & Hk' & Hd')%Hin <-.
        pose proof (pr_key _ _ _ _ H _ _ _ Hk') as Hkk. rewrite Hkk in Hk. congruence.
      * symmetry. apply map_lookup_filter_Some. split; [done|]. by rewrite /= Hd.
    + rewrite put_all_other.
      * intros p' (k' & q'' & Hk' & Hd')%Hin <-.
        pose proof (pr_key _ _ _ _ H _ _ _ Hk') as Hkk. rewrite Hkk in Hk. congruence.
      * symmetry. apply map_lookup_filter_None. by left.
  - rewrite negb_true_iff bool_decide_eq_false. split.
    + intros Hne. destruct ps as [|p ps]; [done|]. destruct (proj1 (Hin p)) as (k & q' & ? & ?); [set_solver|eauto].
    + intros (k & [q' p] & Hk & Hd) ->. assert (p ∈ @nil QueuedPodInfo) by (apply Hin; eauto). set_solver.
Qed.

(** ** The public methods *)

Lemma activate_one_spec i M pod now :
  queued i M ->
  runs_to (activate_one cfg i pod now) i (spec_activate_one cfg M pod now).1
    (spec_activate_one cfg M pod now).2.
Proof.
  intros Hq. pose proof Hq as [H Hn]. pose proof H as []. unfold activate_one, spec_activate_one.
  rewrite pr_unsched_c0. destruct (pool_of M PUnsched !! pod_key pod) as [p|] eqn:Hp.
  - apply pool_of_Some in Hp as HM. rewrite HM. pose proof (pr_key0 _ _ _ HM) as Hk.
    rewrite Hk insert_delete_id //.
    replace (set_unsched i (pool_of M PUnsched)) with i by by rewrite -pr_unsched_c0; destruct i.
    destruct (move_to_active_q_spec i M p FORCE_ACTIVATE false now Hq) as (i' & -> & Hq' & Hs').
    exists i'. unfold spec_to_active in Hq'. rewrite Hk in Hq'.
    destruct (active_dest_cases p false now) as [Hd|Hd]; rewrite Hd in Hq' |- *; simpl in *.
    + done.
    + rewrite decide_True in Hq'; [|done]. by rewrite HM.
  - destruct (bq_take_spec (backoff_q i) M (pod_key pod)) as (q & -> & ? & ? & Hb & He); [done..|]. simpl.
    assert (queued (set_backoff i q) (delete (pod_key pod) M) \/ exists p, M !! pod_key pod = Some (PActive, p))
      as Hdel.
    { destruct (M !! pod_key pod) as [[[] p]|] eqn:HM; [eauto|left..]; (split; [|done]); simpl;
        (eapply pods_repr_drop; [done..| |done|done|]); rewrite ?pr_unsched_c0 delete_id //;
        first [by eapply pool_of_other|by apply pool_of_absent]. }
    assert (forall p, M !! pod_key pod = Some (PBackoff, p) \/ M !! pod_key pod = Some (PError, p) ->
      runs_to (move_to_active_q cfg (set_backoff i q) p FORCE_ACTIVATE true now) i
        (<[pod_key pod := (PActive, set_initial_attempt p now)]> M) true) as Hmove.
    { intros p Hp'. destruct Hdel as [Hdel|[p1 Hp1]]; [|destruct Hp'; congruence].
      destruct (move_to_active_q_spec _ _ p FORCE_ACTIVATE true now Hdel) as (i' & -> & Hq' & Hs').
      assert (qp_key p = pod_key pod) as Hk by (destruct Hp'; by eapply pr_key0).
      assert (gated p = false) as Hg by (destruct Hp'; by eapply pr_gated0).
      unfold spec_to_active, active_dest in *. rewrite Hg /= Hk insert_delete_eq in Hq' |- *. by exists i'. }
    assert (forall r, M !! pod_key pod = Some (PActive, r) \/ M !! pod_key pod = None ->
      runs_to (Some (set_backoff i q, false)) i M false) as Hnone.
    { intros r HM. eexists. split; [done|]. split; [|done]. split; [|done]. simpl.
      split; simpl; [done..| | | | |].
      all: rewrite ?Hb ?He ?pool_of_delete_id //; intros p'; destruct HM; congruence. }
    destruct (M !! pod_key pod) as [[[] p]|] eqn:HM; simpl.
    + eapply Hnone; eauto.
    + auto.
    + auto.
    + apply pool_of_Some in HM. congruence.
    + apply (Hnone (for_lookup pod)). auto.
Qed.

Lemma activate_repr i A pods now :
  sq_repr i A ->
  exists i', activate cfg i pods now = Some (i', (spec_activate cfg A pods now).2) /\
    sq_repr i' (spec_activate cfg A pods now).1.
Proof.
  revert i A. induction pods as [|pod pods IH]; intros i A HA; simpl; [by exists i|].
  destruct (activate_one_spec i (aq_pods A) pod now (repr_queued _ _ HA)) as (i1 & -> & Hq1 & Hs1).
  destruct (spec_activate_one cfg (aq_pods A) pod now) as [M1 b1]. simpl in *.
  pose proof (repr_same _ _ _ _ HA Hq1 Hs1) as HA1.
  set (i2 := if b1 then i1 else _).
  assert (sq_repr i2 (mkAQ M1 (if b1 || bool_decide (aq_flight A !! pod_uid pod = None) then aq_flight A
               else see (aq_flight A) [force_activate_event pod]))) as HA2.
  { subst i2. destruct b1; [done|]. simpl.
    destruct (add_events_in_flight_repr i1 _ None pod [EVENT_FORCE_ACTIVATE] HA1) as (i' & -> & HA'). simpl in *.
    destruct (aq_flight A !! pod_uid pod) eqn:Hu.
    - by rewrite bool_decide_eq_true_2 in HA'.
    - rewrite bool_decide_eq_false_2 in HA'; [apply is_Some_None|done]. }
  destruct (IH i2 _ HA2) as (i' & -> & HA'). simpl.
  destruct (spec_activate cfg (mkAQ M1 _) pods now) as [A' rest]. simpl in *. by exists i'.
Qed.

Lemma update_unsched_loop_spec i M old new p events now :
  queued i M -> M !! pod_key new = Some (PUnsched, p) -> qp_key p = pod_key new ->
  let d := spec_update_loop cfg p old new events now in
  runs_to (update_unsched_loop cfg i old new events now) i (<[pod_key new := d]> M)
    (negb (bool_decide (d.1 = PUnsched))).
Proof.
  revert i M p. induction events as [|ev events IH]; intros i M p Hq HM Hk; simpl.
  { exists i. by rewrite insert_id. }
  assert (unschedulable_pods i !! pod_key new = Some p) as ->
    by (rewrite (pr_unsched_c _ _ _ _ (q_pods _ _ Hq)); by apply pool_of_Some).
  set (h := is_pod_worth_requeuing cfg p ev _ _). set (i1 := if decide _ then _ else _).
  assert (exists M1, queued i1 M1 /\ same_flight i i1 /\ (forall d, <[pod_key new := d]> M1 = <[pod_key new := d]> M) /\
    (M1 !! pod_key new = None \/ (h = QueueSkip /\ exists p', M1 !! pod_key new = Some (PUnsched, p'))))
    as (M1 & Hq1 & Hs1 & Hins & HM1).
  { subst i1. case_decide as Hskip; [exists M; split_and!; eauto using same_flight_refl|]. exists (delete (pod_key new) M).
    split_and!; [|done|intros; by rewrite insert_delete_eq|left; by rewrite lookup_delete_eq].
    destruct Hq as [H Hn]. split; [|done]. simpl. pose proof H as [].
    eapply pods_repr_drop; [done..| | | |congruence]; rewrite delete_id //; by eapply pool_of_other. }
  rewrite -Hk in HM1. destruct (requeue_spec i1 M1 p h (label ev) now Hq1 HM1) as (i2 & -> & Hq2 & Hs2).
  rewrite Hk Hins in Hq2. simpl. rewrite is_poppable_name.
  set (d := requeue_dest cfg p h now) in *. pose proof (same_flight_trans _ _ _ Hs1 Hs2) as Hs.
  case_decide as Hd; [|rewrite (bool_decide_eq_false_2 _ Hd); by exists i2].
  rewrite Hd /=.
  destruct (IH i2 (<[pod_key new := d]> M) d.2 Hq2) as (i3 & -> & Hq3 & Hs3).
  - rewrite lookup_insert_eq -Hd. by destruct d.
  - eapply (pr_key _ _ _ _ (q_pods _ _ Hq2) _ d.1). rewrite lookup_insert_eq. by destruct d.
  - exists i3. rewrite insert_insert_eq in Hq3. split_and!; [done|done|by eapply same_flight_trans].
Qed.

(** The tail of [update]: a pod that is in no sub-queue, or whose old version
    is unknown, is offered to activeQ; one in unschedulablePods tries its hints. *)
Lemma update_tail_repr i A old new now :
  sq_repr i A ->
  match aq_pods A !! pod_key new with Some (PUnsched, _) | None => True | _ => old = None end ->
  aq_flight A !! pod_uid new = None ->
  exists i', match unschedulable_pods i !! pod_key new with
    | Some p0 =>
        let p := qp_update p0 new in
        let i2 := set_nominator i (update_nominated_pod (nominator i) (default new old) new) in
        let i3 := set_unsched i2 (<[qp_key p := p]> (delete (pod_key new) (unschedulable_pods i2))) in
        update_unsched_loop cfg i3 old new (update_events pod_requests_milli old new) now
    | None =>
        move_to_active_q cfg i (new_queued_pod_info new now) (label EVENT_UNSCHEDULED_POD_UPDATE) false now
    end = Some (i', (spec_update cfg pod_requests_milli A old new now).2) /\
    sq_repr i' (spec_update cfg pod_requests_milli A old new now).1.
Proof.
  intros HA Hold Hfl. pose proof HA as [Hq Hf]. pose proof Hq as [H Hn]. unfold spec_update.
  rewrite decide_False; [rewrite Hfl; apply is_Some_None|]. set (M := aq_pods A) in *.
  rewrite (pr_unsched_c _ _ _ _ H). destruct (pool_of M PUnsched !! pod_key new) as [p|] eqn:Hp.
  - apply pool_of_Some in Hp. rewrite Hp. simpl. set (p' := qp_update p new). set (i3 := set_unsched _ _).
    assert (queued i3 (<[pod_key new := (PUnsched, p')]> M)) as Hq3.
    { subst i3. rewrite insert_delete_eq.
      refine (queued_unsched (set_nominator i _) M (pod_key new) p' _ eq_refl _).
      - split; [done|]. by apply nom_inv_add, nom_inv_delete.
      - intros q x Hx. congruence. }
    destruct (update_unsched_loop_spec i3 _ old new p' (update_events pod_requests_milli old new) now Hq3)
      as (i' & -> & Hq' & Hs'); [by rewrite lookup_insert_eq|done|].
    exists i'. split; [done|]. rewrite insert_insert_eq in Hq'. by eapply repr_same.
  - destruct (move_to_active_q_spec i M (new_queued_pod_info new now) (label EVENT_UNSCHEDULED_POD_UPDATE)
      false now Hq) as (i' & -> & Hq' & Hs'). exists i'.
    destruct (M !! pod_key new) as [[[] p]|] eqn:HM; try subst old; simpl.
    4: by rewrite (proj2 (pool_of_Some _ _ _ _) HM) in Hp.
    all: split; [done|by eapply repr_same].
Qed.

Lemma update_repr i A old new now :
  sq_repr i A ->
  exists i', sq_update cfg pod_requests_milli i old new now =
      Some (i', (spec_update cfg pod_requests_milli A old new now).2) /\
    sq_repr i' (spec_update cfg pod_requests_milli A old new now).1.
Proof.
  intros HA. unfold sq_update. rewrite -/(update_events pod_requests_milli old new).
  destruct (add_events_in_flight_repr i A old new (update_events pod_requests_milli old new) HA)
    as (i1 & -> & HA1).
  case_bool_decide as Hfl.
  { exists i1. unfold spec_update. by rewrite decide_True. }
  apply eq_None_not_Some in Hfl. destruct A as [M F]. simpl in *.
  pose proof HA1 as [[H Hn] Hf]. simpl in *. destruct old as [old|]; simpl; last first.
  { destruct (update_tail_repr i1 _ None new now HA1) as (i' & Heq & ?); [|done|by exists i'].
    by repeat case_match. }
  pose proof (active_update_spec _ _ _ _ new H) as Ha. pose proof (bq_update_spec _ _ _ _ new H) as Hb.
  destruct (M !! pod_key new) as [[[] p]|] eqn:HM.
  - destruct Ha as (a' & -> & ?). simpl. eexists. unfold spec_update. simpl. rewrite decide_False.
    { rewrite Hfl. apply is_Some_None. } rewrite HM. split; [done|]. split; [|done]. split; [done|].
    by apply nom_inv_add, nom_inv_delete.
  - destruct Hb as (b' & Hb & ?). rewrite Ha /= Hb. simpl. eexists. unfold spec_update. simpl. rewrite decide_False.
    { rewrite Hfl. apply is_Some_None. } rewrite HM. split; [done|]. split; [|done]. split; [done|].
    by apply nom_inv_add, nom_inv_delete.
  - destruct Hb as (b' & Hb & ?). rewrite Ha /= Hb. simpl. eexists. unfold spec_update. simpl. rewrite decide_False.
    { rewrite Hfl. apply is_Some_None. } rewrite HM. split; [done|]. split; [|done]. split; [done|].
    by apply nom_inv_add, nom_inv_delete.
  - rewrite Ha /= Hb /=. destruct (update_tail_repr i1 _ (Some old) new now HA1) as (i' & Heq & ?);
      [by rewrite /= HM|done|by exists i'].
  - rewrite Ha /= Hb /=. destruct (update_tail_repr i1 _ (Some old) new now HA1) as (i' & Heq & ?);
      [by rewrite /= HM|done|by exists i'].
Qed.

Lemma add_unschedulable_repr i A p now :
  sq_repr i A ->
  exists i' A' r b, add_unschedulable_if_not_present cfg i p now = Some (i', (r, b)) /\
    sq_step cfg pod_requests_milli A (OpAddUnschedulable p now) A' (ORequeued r b) /\ sq_repr i' A'.
Proof.
  intros HA. pose proof HA as [Hq Hf]. pose proof Hq as [H Hn]. pose proof H as [].
  unfold add_unschedulable_if_not_present, bq_has.
  rewrite (has_key_pool _ _ _ _ pr_active_c0) (has_key_pool _ _ _ _ pr_backoff_c0)
    (has_key_pool _ _ _ _ pr_error_c0) pr_unsched_c0.
  destruct (aq_pods A !! qp_key p) as [[q p']|] eqn:HM.
  - assert (forall q', pool_of (aq_pods A) q' !! qp_key p = if decide (q' = q) then Some p' else None) as Hpool.
    { intros q'. case_decide; [subst; by apply pool_of_Some|by eapply pool_of_other]. }
    eexists _, _, (Err (already_present q (qp_key p))), false.
    split; [|split; [by eapply step_requeue_present|by apply done_repr]].
    rewrite !Hpool. by destruct q.
  - rewrite !pool_of_absent //=.
    rewrite (cluster_events_repr i A _ HA).
    set (p1 := returned_info p now). set (st := return_strategy cfg (aq_flight A) p1).
    destruct (requeue_spec i (aq_pods A) p1 st SCHEDULE_ATTEMPT_FAILURE now Hq) as (i1 & -> & Hq1 & Hs1).
    { by left. }
    simpl. rewrite is_poppable_name. eexists _, _, (Ok tt), _. split; [done|].
    split; [by apply step_requeue|]. by apply (done_repr _ (mkAQ _ (aq_flight A))); eapply repr_same.
Qed.

Lemma pop_repr i A :
  sq_repr i A ->
  exists i' A' o, sq_pop cfg i = Some (i', o) /\
    sq_step cfg pod_requests_milli A OpPop A' (OPop o) /\ sq_repr i' A'.
Proof.
  intros HA. pose proof HA as [[[] _] _]. unfold sq_pop.
  assert (negb (is_empty (active_q i)) || negb (bq_len_backoff (backoff_q i) =? 0)%nat = true
    <-> ~ queues_empty (aq_pods A)) as Hempty.
  { unfold queues_empty, bq_len_backoff, is_empty. rewrite -pr_active_c0 -pr_backoff_c0.
    rewrite -(empty_contents qp_key _ (proj1 pr_active0)) -(empty_contents qp_key _ (proj1 pr_backoff0)).
    rewrite orb_true_iff !negb_true_iff bool_decide_eq_false Nat.eqb_neq.
    unfold len. rewrite length_zero_iff_nil.
    destruct (decide (queue (active_q i) = [])), (decide (queue (pod_backoff_q (backoff_q i)) = [])); tauto. }
  destruct (negb (is_empty _) || _) eqn:Hc.
  - apply proj1 in Hempty. specialize (Hempty eq_refl). unfold unlocked_pop.
    destruct (unlocked_pop_repr (S (len (active_q i) + bq_len_backoff (backoff_q i))) i A HA)
      as (i' & r & M' & -> & Hp & HA'); [lia|]. simpl. destruct r as [p|]; simpl.
    + eexists _, _, _. split; [done|]. split; [by eapply step_pop|done].
    + eexists _, _, _. split; [done|]. split; [by eapply step_pop_retry|done].
  - assert (queues_empty (aq_pods A)) as He.
    { apply dec_stable. intros Hn%Hempty. congruence. }
    exists i, A. destruct (closed i); eexists; (split; [done|]); (split; [|done]); apply step_pop_empty; auto.
Qed.

Lemma done_all_repr i A uids :
  sq_repr i A ->
  sq_repr (foldl unlocked_done i uids) (mkAQ (aq_pods A) (foldl (fun F u => delete u F) (aq_flight A) uids)).
Proof.
  revert i A. induction uids as [|u uids IH]; intros i A HA; simpl; [by destruct A|].
  by apply (IH _ (mkAQ _ _)), done_repr.
Qed.

Lemma close_repr i A : sq_repr i A -> sq_repr (sq_close i) (mkAQ (aq_pods A) ∅).
Proof.
  intros HA. unfold sq_close. set (uids := (hash_iter (in_flight_pods i)).*1).
  pose proof (done_all_repr i A uids HA) as HA'. set (i1 := foldl unlocked_done i uids) in *.
  assert (foldl (fun F u => delete u F) (aq_flight A) uids = ∅) as HF.
  { apply map_eq. intros u. rewrite lookup_empty.
    rewrite foldl_delete_lookup. case_decide as Hu; [done|].
    apply (flight_dom_None _ _ _ _ _ (repr_flight _ _ HA)).
    destruct (in_flight_pods i !! u) as [s|] eqn:Hs; [|done]. destruct Hu. unfold uids.
    apply list_elem_of_fmap. exists (u, s). split; [done|]. by apply elem_of_hash_iter. }
  rewrite HF in HA'. destruct HA' as [[] ?]. by split.
Qed.

Lemma sq_run_spec i A op :
  sq_repr i A ->
  exists i' A' o, sq_run cfg pod_requests_milli i op = Some (i', o) /\
    sq_step cfg pod_requests_milli A op A' o /\ sq_repr i' A'.
Proof.
  intros HA. pose proof (repr_queued _ _ HA) as Hq.
  destruct op as [pod now|pods now|p now|now|now|ev old new pre now| |uid|old new now|pod| |pod info|pod]; cbn [sq_run].
  - unfold sq_add. destruct (move_to_active_q_spec i _ (new_queued_pod_info pod now) (label EVENT_UNSCHEDULED_POD_ADD)
      false now Hq) as (i' & -> & Hq' & Hs'). eexists _, _, _. split; [done|]. split; [constructor|].
    by eapply repr_same.
  - destruct (activate_repr i A pods now HA) as (i' & -> & HA'). eexists _, _, _. split; [done|].
    split; [constructor|done].
  - destruct (add_unschedulable_repr i A p now HA) as (i' & A' & r & b & -> & ? & ?). by eexists _, _, _.
  - destruct (flush_backoff_repr i A now HA) as (i' & b & -> & ? & ?). eexists _, _, _. split; [done|].
    split; [by constructor|done].
  - unfold flush_unschedulable_pods_leftover.
    set (P := fun p => (pod_max_in_unschedulable_pods_duration cfg < now - qp_timestamp p)%Z).
    destruct (selected_pods i _ P Hq) as [_ Hin]. rewrite -/P. set (ps := filter P _) in *. case_decide as Hps.
    + exists i, A. eexists. split; [done|]. split; [|done]. apply step_flush_unsched_none. intros k p Hk.
      apply Z.nlt_ge. intros Hlt. assert (p ∈ ps) as Hp; [|rewrite Hps in Hp; set_solver].
      apply Hin. split; [done|]. pose proof (pr_key _ _ _ _ (q_pods _ _ Hq) _ _ _ Hk). congruence.
    + destruct (move_pods_repr i A P (fun p => bool_decide (P p)) EVENT_UNSCHEDULABLE_TIMEOUT None None now HA)
        as (i' & b & Hmv & ? & ?); [by intros; rewrite bool_decide_eq_true|done|].
      rewrite -/ps in Hmv. rewrite Hmv.
      eexists _, _, _. split; [done|]. split; [|done]. apply step_flush_unsched; [|done].
      destruct ps as [|p ps'] eqn:Hl; [done|]. destruct (proj1 (Hin p)) as [HP ?]; [set_solver|].
      exists (qp_key p), p. split; [done|]. by apply bool_decide_eq_true.
  - unfold move_all_to_active_or_backoff_queue. destruct (is_event_of_interest cfg ev) eqn:Hev.
    + destruct (move_pods_repr i A (fun p => match pre with None => true | Some check => check (qp_pod p) end = true)
        (fun p => match pre with None => true | Some check => check (qp_pod p) end) ev old new now HA)
        as (i' & b & -> & ? & ?); [done|done|]. eexists _, _, _. split; [done|]. split; [by constructor|done].
    + exists i, A. eexists. split; [done|]. split; [by apply step_move_all_ignored|done].
  - destruct (pop_repr i A HA) as (i' & A' & o & -> & ? & ?). by eexists _, _, _.
  - eexists _, _, _. split; [done|]. split; [constructor|by apply done_repr].
  - destruct (update_repr i A old new now HA) as (i' & -> & ?). eexists _, _, _. split; [done|].
    split; [constructor|done].
  - destruct (sq_delete_spec i _ pod Hq) as (i' & -> & ? & ?). eexists _, _, _. split; [done|].
    split; [constructor|by eapply repr_same].
  - eexists _, _, _. split; [done|]. split; [constructor|by apply close_repr].
  - eexists _, A, ONone. split; [done|]. split; [constructor|]. destruct HA as [[] ?]. split; [|done].
    split; [done|]. by apply nom_inv_add.
  - eexists _, A, ONone. split; [done|]. split; [constructor|]. destruct HA as [[] ?]. split; [|done].
    split; [done|]. by apply nom_inv_delete.
Qed.

Lemma new_repr lister : sq_repr (inner_new lister) (mkAQ ∅ ∅).
Proof.
  split; [|apply flight_new]. split; [|apply nom_inv_new].
  split; simpl; try apply heap_inv_new; try done.
Qed.

End Refine.
