(* ===== verification/SchedProps.v ===== *)
(** * The scheduling queue: properties

    What the refinement of [SchedRefine] gives on the states the queue can
    reach, on the concrete accessors of [SchedQueue]. *)

From Stdlib Require Import Sorted.
From S2P Require Import Prelude KeyedHeap KubeTypes ClusterEvents Nominator SchedQueue SchedSpec SchedFlight SchedRefine.

(** The guard of [pop]: some pod can be popped. *)
Definition can_pop (i : Inner) : bool :=
  negb (is_empty (active_q i)) || negb (bq_len_backoff (backoff_q i) =? 0)%nat.

(** [get_pod] by key. *)
Definition queued_pod (i : Inner) (key : string) : option QueuedPodInfo :=
  match get_by_key (active_q i) key with
  | Some p => Some p
  | None => match bq_get_by_key (backoff_q i) key with
            | Some p => Some p
            | None => unschedulable_pods i !! key
            end
  end.

Definition notified (o : sq_out) : bool :=
  match o with ONotify b => b | ORequeued _ b => b | _ => false end.

(** The operation ends the flight of [uid]. *)
Definition ends_flight (uid : string) (op : sq_op) : bool :=
  match op with
  | OpDone uid' => bool_decide (uid' = uid)
  | OpAddUnschedulable p _ => bool_decide (pod_uid (qp_pod p) = uid)
  | OpClose => true
  | _ => false
  end.

Section Props.
Context {HO : HashOrder} (cfg : PriorityQueue) (pod_requests_milli : Pod -> gmap string Z).
Context {SW : StrictWeakOrder (less_fn cfg)}.
Implicit Types (i : Inner) (A : AQ) (p : QueuedPodInfo).

(** The event an operation reports, when a plugin is interested in it. *)
Definition reported (op : sq_op) : list InFlightEvent :=
  match op with
  | OpMoveAll event old_obj new_obj _ _ =>
      if is_event_of_interest cfg event then [mkInFlightEvent event old_obj new_obj] else []
  | _ => []
  end.

Lemma sq_runs_spec i A ops :
  sq_repr cfg i A ->
  exists i' A' os, sq_runs cfg pod_requests_milli i ops = Some (i', os) /\
    sq_steps cfg pod_requests_milli A ops A' os /\ sq_repr cfg i' A'.
Proof.
  revert i A. induction ops as [|op ops IH]; intros i A HA; simpl.
  { exists i, A, []. split; [done|]. split; [constructor|done]. }
  destruct (sq_run_spec cfg pod_requests_milli i A op HA) as (i1 & A1 & o & -> & Hs & HA1). simpl.
  destruct (IH i1 A1 HA1) as (i2 & A2 & os & -> & Hss & HA2). simpl.
  exists i2, A2, (o :: os). split; [done|]. split; [by econstructor|done].
Qed.

Lemma reached_repr lister ops i os :
  sq_runs cfg pod_requests_milli (inner_new lister) ops = Some (i, os) -> exists A, sq_repr cfg i A.
Proof.
  intros Hr. destruct (sq_runs_spec _ _ ops (new_repr cfg lister)) as (i' & A' & os' & Hr' & _ & HA').
  rewrite Hr in Hr'. simplify_eq. eauto.
Qed.

Lemma run_repr i A op i' o :
  sq_repr cfg i A -> sq_run cfg pod_requests_milli i op = Some (i', o) ->
  exists A', sq_step cfg pod_requests_milli A op A' o /\ sq_repr cfg i' A'.
Proof.
  intros HA Hr. destruct (sq_run_spec cfg pod_requests_milli i A op HA) as (i1 & A' & o' & Hr' & ? & ?).
  rewrite Hr in Hr'. simplify_eq. eauto.
Qed.

(** C1: started empty, the scheduling queue answers any sequence of calls to
    its public methods without a panic and without exhausting a loop, each call
    takes the step the specification [sq_step] allows on the abstract queue
    (one map from pod keys to the sub-queue that holds the pod, one from the
    UIDs in flight to the events since their pop), and the three heaps, the
    nominator and the in-flight list represent that abstract queue at the end. *)
Theorem scheduling_queue_refines_spec lister ops :
  exists i A os, sq_runs cfg pod_requests_milli (inner_new lister) ops = Some (i, os) /\
    sq_steps cfg pod_requests_milli (mkAQ ∅ ∅) ops A os /\ sq_repr cfg i A.
Proof. apply sq_runs_spec, new_repr. Qed.

(** ** Pods *)

Lemma active_lookup i A k p :
  sq_repr cfg i A -> get_by_key (active_q i) k = Some p <-> aq_pods A !! k = Some (PActive, p).
Proof.
  intros [[[] _] _]. by rewrite (get_by_key_pool _ _ _ _ pr_active_c) pool_of_Some.
Qed.

Lemma unsched_lookup i A k p :
  sq_repr cfg i A -> unschedulable_pods i !! k = Some p <-> aq_pods A !! k = Some (PUnsched, p).
Proof. intros [[[] _] _]. by rewrite pr_unsched_c pool_of_Some. Qed.

Lemma backoff_lookup i A k p :
  sq_repr cfg i A -> bq_get_by_key (backoff_q i) k = Some p <->
    aq_pods A !! k = Some (PBackoff, p) \/ aq_pods A !! k = Some (PError, p).
Proof.
  intros [[[] _] _]. unfold bq_get_by_key.
  rewrite (get_by_key_pool _ _ _ _ pr_backoff_c) (get_by_key_pool _ _ _ _ pr_error_c) -!pool_of_Some.
  destruct (pool_of _ PBackoff !! k) as [p'|] eqn:Hb; [|naive_solver].
  apply pool_of_Some in Hb. rewrite (pool_of_other _ _ PError _ _ Hb) //. naive_solver.
Qed.

Lemma queued_pod_repr i A k : sq_repr cfg i A -> queued_pod i k = snd <$> aq_pods A !! k.
Proof.
  intros HA. unfold queued_pod.
  destruct (get_by_key (active_q i) k) as [p|] eqn:Ha.
  { apply (active_lookup i A) in Ha; [|done]. by rewrite Ha. }
  destruct (bq_get_by_key (backoff_q i) k) as [p|] eqn:Hb.
  { apply (backoff_lookup i A) in Hb; [|done]. by destruct Hb as [-> | ->]. }
  destruct (unschedulable_pods i !! k) as [p|] eqn:Hu.
  { apply (unsched_lookup i A) in Hu; [|done]. by rewrite Hu. }
  destruct (aq_pods A !! k) as [[q p]|] eqn:HM; [exfalso|done]. destruct q.
  - apply (active_lookup i A) in HM; [congruence|done].
  - assert (bq_get_by_key (backoff_q i) k = Some p); [|congruence]. apply (backoff_lookup i A); auto.
  - assert (bq_get_by_key (backoff_q i) k = Some p); [|congruence]. apply (backoff_lookup i A); auto.
  - apply (unsched_lookup i A) in HM; [congruence|done].
Qed.

(** In every reachable state a pod key is held by at most one of activeQ,
    the two backoff heaps and unschedulablePods, and a pod that a PreEnqueue
    plugin gates is only ever in unschedulablePods. *)
Theorem queued_pod_in_one_place lister ops i os k :
  sq_runs cfg pod_requests_milli (inner_new lister) ops = Some (i, os) ->
  length (omap id [get_by_key (active_q i) k; get_by_key (pod_backoff_q (backoff_q i)) k;
                   get_by_key (pod_error_backoff_q (backoff_q i)) k; unschedulable_pods i !! k]) <= 1 /\
  forall p, get_by_key (active_q i) k = Some p \/ bq_get_by_key (backoff_q i) k = Some p ->
    qp_key p = k /\ gated p = false.
Proof.
  intros [A HA]%reached_repr. split.
  - destruct HA as [[[] _] _].
    rewrite (get_by_key_pool _ _ _ _ pr_active_c) (get_by_key_pool _ _ _ _ pr_backoff_c)
      (get_by_key_pool _ _ _ _ pr_error_c) pr_unsched_c.
    destruct (aq_pods A !! k) as [[q p]|] eqn:HM; [|by rewrite !pool_of_absent //=; lia].
    assert (forall q', pool_of (aq_pods A) q' !! k = if decide (q' = q) then Some p else None) as Hpool.
    { intros q'. case_decide; [subst; by apply pool_of_Some|by eapply pool_of_other]. }
    rewrite !Hpool. destruct q; simpl; lia.
  - intros p Hp. assert (exists q, q <> PUnsched /\ aq_pods A !! k = Some (q, p)) as (q & Hq & HM).
    { destruct Hp as [Hp|Hp]; [apply (active_lookup i A) in Hp|apply (backoff_lookup i A) in Hp]; naive_solver. }
    destruct HA as [[[] _] _]. eauto.
Qed.

(** The abstract steps other than [pop] and [delete] keep every key. *)
Lemma step_keeps A op A' o k :
  sq_step cfg pod_requests_milli A op A' o -> op <> OpPop -> (forall pod, op <> OpDelete pod) ->
  is_Some (aq_pods A !! k) -> is_Some (aq_pods A' !! k).
Proof.
  assert (forall (M : gmap string (Pool * QueuedPodInfo)) k' x,
    is_Some (M !! k) -> is_Some (<[k' := x]> M !! k)) as Hins.
  { intros M k' x HM. rewrite lookup_insert. by case_decide. }
  assert (forall M p fb now, is_Some (M !! k) -> is_Some (spec_to_active cfg M p fb now !! k)) as Hact.
  { intros. unfold spec_to_active. case_decide; auto. }
  intros Hs Hp Hd HM. destruct Hs; simpl; auto; try done.
  - clear Hp Hd. revert A HM. induction pods as [|pod pods IH]; intros A HM; simpl; [done|].
    assert (is_Some ((spec_activate_one cfg (aq_pods A) pod now).1 !! k)) as HM'.
    { unfold spec_activate_one. repeat case_match; simpl; auto. }
    destruct (spec_activate_one cfg (aq_pods A) pod now) as [M1 b1]. simpl in *.
    specialize (IH (mkAQ M1 (if b1 || bool_decide (aq_flight A !! pod_uid pod = None) then aq_flight A
               else see (aq_flight A) [force_activate_event pod])) HM').
    by destruct (spec_activate cfg _ pods now).
  - by rewrite lookup_fmap fmap_is_Some.
  - by rewrite lookup_fmap fmap_is_Some.
  - by rewrite lookup_fmap fmap_is_Some.
  - unfold spec_update. repeat case_match; simpl; auto.
  - by destruct (Hd pod).
Qed.

(** No method but [pop] and [delete] loses a pod: whatever a flush, an
    activation, an event, an update or a returning pod does, every key the
    queue held is still held by one of its sub-queues afterwards. *)
Theorem moves_lose_no_pod lister ops i os op i' o k :
  sq_runs cfg pod_requests_milli (inner_new lister) ops = Some (i, os) ->
  sq_run cfg pod_requests_milli i op = Some (i', o) ->
  op <> OpPop -> (forall pod, op <> OpDelete pod) ->
  is_Some (queued_pod i k) -> is_Some (queued_pod i' k).
Proof.
  intros [A HA]%reached_repr Hr Hp Hd. destruct (run_repr i A op i' o HA Hr) as (A' & Hs & HA').
  rewrite (queued_pod_repr i A k HA) (queued_pod_repr i' A' k HA') !fmap_is_Some.
  by eapply step_keeps.
Qed.

(** ** In-flight pods *)

Lemma cluster_events_lookup i A p evs :
  sq_repr cfg i A -> aq_flight A !! pod_uid (qp_pod p) = Some evs -> cluster_events_for_pod i p = Ok evs.
Proof.
  intros [_ Hf]. rewrite cluster_events_for_pod_eq (fl_events _ _ _ _ Hf) lookup_fmap.
  destruct (in_flight_pods i !! _); simpl; congruence.
Qed.

Lemma pop_steps_fresh F M M' p : pop_steps cfg F M M' (Some p) -> F !! pod_uid (qp_pod p) = None.
Proof. intros H. remember (Some p) as r eqn:Hr. induction H; simplify_eq; auto. Qed.

Lemma see_lookup F l uid seen : F !! uid = Some seen -> see F l !! uid = Some (seen ++ l).
Proof. intros HF. unfold see. by rewrite lookup_fmap HF. Qed.

Lemma spec_activate_sees A pods now uid seen :
  aq_flight A !! uid = Some seen ->
  exists l, aq_flight (spec_activate cfg A pods now).1 !! uid = Some (seen ++ l).
Proof.
  revert A seen. induction pods as [|pod pods IH]; intros A seen HF; simpl.
  { exists []. by rewrite app_nil_r. }
  destruct (spec_activate_one cfg (aq_pods A) pod now) as [M1 b1]. set (F1 := if _ || _ then _ else _).
  assert (exists l, F1 !! uid = Some (seen ++ l)) as [l1 HF1].
  { subst F1. destruct (b1 || _); [exists []; by rewrite app_nil_r|]. eexists. by apply see_lookup. }
  destruct (IH (mkAQ M1 F1) _ HF1) as [l2 Hl2].
  destruct (spec_activate cfg (mkAQ M1 F1) pods now). exists (l1 ++ l2). by rewrite app_assoc.
Qed.

(** A step that does not end the flight of [uid] only appends to what it has
    seen, at least the event it reports. *)
Lemma step_sees A op A' o uid seen :
  sq_step cfg pod_requests_milli A op A' o -> ends_flight uid op = false ->
  aq_flight A !! uid = Some seen ->
  exists l, aq_flight A' !! uid = Some (seen ++ l) /\ sublist (reported op) l.
Proof.
  intros Hs He HF. assert (exists l, aq_flight A !! uid = Some (seen ++ l) /\ sublist [] l) as Hsame.
  { exists []. by rewrite app_nil_r. }
  destruct Hs; simpl in *; try done.
  - destruct (spec_activate_sees A pods now uid seen HF) as [l Hl]. exists l. split; [done|]. apply sublist_nil_l.
  - apply bool_decide_eq_false in He. by rewrite lookup_delete_ne.
  - apply bool_decide_eq_false in He. by rewrite lookup_delete_ne.
  - eexists. split; [by apply see_lookup|apply sublist_nil_l].
  - rewrite H. eexists. split; [by apply see_lookup|done].
  - by rewrite H.
  - rewrite lookup_insert_ne //. intros Heq. apply pop_steps_fresh in H. congruence.
  - apply bool_decide_eq_false in He. by rewrite lookup_delete_ne.
  - unfold spec_update. case_decide; [|repeat case_match; done].
    eexists. split; [by apply see_lookup|apply sublist_nil_l].
Qed.

Lemma steps_see A ops A' os uid seen :
  sq_steps cfg pod_requests_milli A ops A' os ->
  Forall (fun op => ends_flight uid op = false) ops -> aq_flight A !! uid = Some seen ->
  exists l, aq_flight A' !! uid = Some (seen ++ l) /\ sublist (mjoin (reported <$> ops)) l.
Proof.
  intros Hs. revert seen. induction Hs as [A|A op A1 o ops A2 os Hs _ IH]; intros seen He HF; csimpl.
  { exists []. by rewrite app_nil_r. }
  apply Forall_cons in He as [He Hes].
  destruct (step_sees _ _ _ _ _ _ Hs He HF) as (l1 & HF1 & Hl1).
  destruct (IH _ Hes HF1) as (l2 & HF2 & Hl2). exists (l1 ++ l2). rewrite app_assoc. split; [done|].
  by apply sublist_app.
Qed.

(** C11: no cluster event is lost for a pod in flight: after [pop] handed out a
    pod, and as long as its flight has not been ended, every event reported to
    the queue that some plugin registered for is among the events
    [cluster_events_for_pod] will check for it, in the order they happened,
    however many other pods were popped, finished or requeued meanwhile. *)
Theorem in_flight_events_not_lost lister ops i os i1 p ops' i2 os' :
  sq_runs cfg pod_requests_milli (inner_new lister) ops = Some (i, os) ->
  sq_pop cfg i = Some (i1, Popped p) ->
  Forall (fun op => ends_flight (pod_uid (qp_pod p)) op = false) ops' ->
  sq_runs cfg pod_requests_milli i1 ops' = Some (i2, os') ->
  exists evs, cluster_events_for_pod i2 p = Ok evs /\ sublist (mjoin (reported <$> ops')) evs.
Proof.
  intros [A HA]%reached_repr Hp He Hr.
  destruct (run_repr i A OpPop i1 (OPop (Popped p)) HA) as (A1 & Hs & HA1); [by rewrite /= Hp|].
  inversion Hs as [| | | | | | | | |M' p0 Hps| | | | | | | |]; subst; [|naive_solver].
  destruct (sq_runs_spec _ _ ops' HA1) as (i2' & A2 & os2 & Hr' & Hss & HA2).
  rewrite Hr in Hr'. simplify_eq.
  destruct (steps_see _ _ _ _ _ [] Hss He) as (l & Hl & Hsub); [by rewrite lookup_insert_eq|].
  exists l. split; [by eapply cluster_events_lookup|done].
Qed.

(** ** Pop *)

Lemma pop_steps_best F M M' p :
  pop_steps cfg F M M' (Some p) ->
  M' !! qp_key p = None /\
  ((M !! qp_key p = Some (PActive, p) /\
    forall k b, M !! k = Some (PActive, b) -> F !! pod_uid (qp_pod b) = None -> less_fn cfg b p = false) \/
   (M !! qp_key p = Some (PBackoff, p) /\
    (forall k b, M !! k = Some (PActive, b) -> is_Some (F !! pod_uid (qp_pod b))) /\
    forall k b, M !! k = Some (PBackoff, b) -> F !! pod_uid (qp_pod b) = None ->
      less_backoff_with_priority cfg b p = false)).
Proof.
  intros H. remember (Some p) as r eqn:Hr. induction H as [|M p' Hc Hf|M p' M' r Hc Hf Hs IH]; simplify_eq.
  - split; [by rewrite lookup_delete_eq|]. destruct Hc as [[Hp Hmin]|[Hemp [Hp Hmin]]]; [left|right];
      apply pool_of_Some in Hp; (split; [done|]).
    + intros k b Hb%pool_of_Some _. by eapply Hmin.
    + split; [intros k b Hb%pool_of_Some; by rewrite Hemp in Hb|]. intros k b Hb%pool_of_Some _. by eapply Hmin.
  - destruct (candidate_key cfg M p' Hc) as [q' Hp']. destruct (IH eq_refl) as [Hn Hor]. split; [done|].
    assert (forall k q b, M !! k = Some (q, b) -> F !! pod_uid (qp_pod b) = None ->
      delete (qp_key p') M !! k = Some (q, b)) as Hkeep.
    { intros k q b Hk Hb. rewrite lookup_delete_ne //. intros <-. rewrite Hp' in Hk. simplify_eq.
      rewrite Hb in Hf. by destruct Hf. }
    destruct Hor as [[Hp Hmin]|(Hp & Hact & Hmin)]; [left|right]; apply lookup_delete_Some in Hp as [_ Hp];
      (split; [done|]); [by eauto|split; [|by eauto]].
    intros k b Hb. destruct (F !! pod_uid (qp_pod b)) eqn:HF; [done|]. pose proof (Hact _ _ (Hkeep _ _ _ Hb HF)) as Hx.
    rewrite HF in Hx. by destruct Hx.
Qed.

(** C34: [pop] never hands out a pod whose UID is already in flight; it records
    the pod as in flight, removes it from the queue, counts the attempt, and
    picks, among the pods not in flight, one that no other pod of activeQ goes
    before, or, only when activeQ has none, one that no other pod of the
    backoff queue goes before. *)
Theorem pop_takes_the_most_urgent lister ops i os i' p :
  sq_runs cfg pod_requests_milli (inner_new lister) ops = Some (i, os) ->
  sq_pop cfg i = Some (i', Popped p) ->
  exists p0, p = popped_info p0 /\ queued_pod i' (qp_key p0) = None /\
    in_flight_pods i !! pod_uid (qp_pod p0) = None /\
    is_Some (in_flight_pods i' !! pod_uid (qp_pod p0)) /\
    let free b := in_flight_pods i !! pod_uid (qp_pod b) = None in
    ((get_by_key (active_q i) (qp_key p0) = Some p0 /\
      forall k b, get_by_key (active_q i) k = Some b -> free b -> less_fn cfg b p0 = false) \/
     (get_by_key (pod_backoff_q (backoff_q i)) (qp_key p0) = Some p0 /\
      (forall k b, get_by_key (active_q i) k = Some b -> ~ free b) /\
      forall k b, get_by_key (pod_backoff_q (backoff_q i)) k = Some b -> free b ->
        less_backoff_with_priority cfg b p0 = false)).
Proof.
  intros [A HA]%reached_repr Hp.
  destruct (run_repr i A OpPop i' (OPop (Popped p)) HA) as (A1 & Hs & HA1); [by rewrite /= Hp|].
  inversion Hs as [| | | | | | | | |M' p0 Hps| | | | | | | |]; subst; [|naive_solver].
  exists p0. pose proof (pop_steps_fresh _ _ _ _ Hps) as Hfr.
  pose proof HA as [[[] _] Hf]. pose proof (repr_flight _ _ _ HA1) as Hf1.
  destruct (pop_steps_best _ _ _ _ Hps) as [Hn Hor]. split_and!; [done| | | |].
  - by rewrite (queued_pod_repr _ _ _ HA1) /= Hn.
  - by apply (flight_dom_None _ _ _ _ _ Hf).
  - apply (flight_dom _ _ _ _ _ Hf1). by rewrite /= lookup_insert_eq.
  - simpl. setoid_rewrite (get_by_key_pool _ _ _ _ pr_active_c).
    setoid_rewrite (get_by_key_pool _ _ _ _ pr_backoff_c). setoid_rewrite pool_of_Some.
    setoid_rewrite <- (flight_dom_None _ _ _ _ _ Hf).
    destruct Hor as [?|(? & Hact & ?)]; [by left|right]. split_and!; [done| |done].
    intros k b Hb Hfree. destruct (Hact _ _ Hb) as [? ?]. congruence.
Qed.

(** ** Waking up [pop] *)

(** No pod that [pop] could take. *)
Definition quiet (M : gmap string (Pool * QueuedPodInfo)) : Prop :=
  forall k x, M !! k = Some x -> poppable x.1 = false.

Lemma can_pop_quiet i A : sq_repr cfg i A -> can_pop i = false <-> quiet (aq_pods A).
Proof.
  intros [[[] _] _]. unfold can_pop, is_empty, bq_len_backoff, len.
  rewrite orb_false_iff !negb_false_iff bool_decide_eq_true Nat.eqb_eq length_zero_iff_nil.
  rewrite (empty_contents qp_key _ (proj1 pr_active)) (empty_contents qp_key _ (proj1 pr_backoff)).
  rewrite pr_active_c pr_backoff_c. split.
  - intros [Ha Hb] k [q p] Hk. unfold poppable. apply bool_decide_eq_false. simpl. intros [-> | ->].
    + apply pool_of_Some in Hk. by rewrite Ha in Hk.
    + apply pool_of_Some in Hk. by rewrite Hb in Hk.
  - intros Hq. split; apply map_empty; intros k; apply eq_None_not_Some; intros [p Hp%pool_of_Some];
      by specialize (Hq _ _ Hp).
Qed.

Lemma quiet_insert M k x : quiet M -> poppable x.1 = false -> quiet (<[k := x]> M).
Proof. intros HM Hx k' y [[_ <-]|[_ ?]]%lookup_insert_Some; eauto. Qed.

Lemma quiet_fmap M f : quiet M -> ~ quiet (f <$> M) -> exists k x, M !! k = Some x /\ poppable (f x).1 = true.
Proof.
  intros HM Hn. destruct (decide (map_Forall (fun _ x => poppable (f x).1 = false) M)) as [Hf|Hf].
  - destruct Hn. intros k y. rewrite lookup_fmap. intros (x & Hx & ->)%fmap_Some. by eapply Hf.
  - apply map_not_Forall in Hf as (k & x & Hk & Hx); [|solve_decision].
    exists k, x. split; [done|]. by apply not_false_iff_true.
Qed.

Lemma not_unsched_of_poppable q : poppable q = true -> q <> PUnsched.
Proof. by destruct q. Qed.

Lemma quiet_to_active M p fb now :
  quiet M -> ~ quiet (spec_to_active cfg M p fb now) -> (active_dest cfg p fb now).1 = PActive.
Proof.
  intros HM Hn. destruct (active_dest_cases cfg p fb now) as [Hd|Hd]; [done|].
  destruct Hn. unfold spec_to_active. case_decide; [done|]. apply quiet_insert; [done|]. by rewrite Hd.
Qed.

Lemma quiet_activate A pods now :
  quiet (aq_pods A) -> (spec_activate cfg A pods now).2 = false ->
  quiet (aq_pods (spec_activate cfg A pods now).1).
Proof.
  revert A. induction pods as [|pod pods IH]; intros A HM; simpl; [done|].
  assert ((spec_activate_one cfg (aq_pods A) pod now).2 = false ->
    quiet (spec_activate_one cfg (aq_pods A) pod now).1) as H1.
  { unfold spec_activate_one. repeat case_match; done. }
  destruct (spec_activate_one cfg (aq_pods A) pod now) as [M1 b1]. simpl in *. set (F1 := if _ || _ then _ else _).
  specialize (IH (mkAQ M1 F1)). destruct (spec_activate cfg (mkAQ M1 F1) pods now) as [A' b']. simpl in *.
  intros [Hb1 Hb']%orb_false_iff. auto.
Qed.

Lemma step_wakes A op A' o :
  sq_step cfg pod_requests_milli A op A' o -> op <> OpPop ->
  quiet (aq_pods A) -> ~ quiet (aq_pods A') -> notified o = true.
Proof.
  intros Hs Hop HM Hn. destruct Hs; simpl in *; try done.
  - apply bool_decide_eq_true. by eapply quiet_to_active.
  - apply not_false_iff_true. intros Hb. destruct Hn. by apply quiet_activate.
  - apply negb_true_iff, bool_decide_eq_false. intros Hd. destruct Hn. apply quiet_insert; [done|].
    by rewrite Hd.
  - apply H. destruct (quiet_fmap _ _ HM Hn) as (k & x & Hk & Hx). exists k, x. split; [done|].
    unfold flush_move in Hx. destruct (backoff_done cfg now x); [done|]. by rewrite (HM _ _ Hk) in Hx.
  - apply H0. destruct (quiet_fmap _ _ HM Hn) as (k & x & Hk & Hx). exists k, x.
    pose proof (HM _ _ Hk). split_and!; [done|intros Heq; congruence|by apply not_unsched_of_poppable].
  - apply H0. destruct (quiet_fmap _ _ HM Hn) as (k & x & Hk & Hx). exists k, x.
    pose proof (HM _ _ Hk). split_and!; [done|intros Heq; congruence|by apply not_unsched_of_poppable].
  - unfold spec_update in *. case_decide; [done|].
    destruct (aq_pods A !! pod_key new_pod) as [[q p]|] eqn:Hk; last first.
    { apply bool_decide_eq_true. by eapply quiet_to_active. }
    pose proof (HM _ _ Hk) as Hq. destruct q; simpl in *; try done.
    + destruct old_pod; simpl in *; [destruct Hn; by apply quiet_insert|].
      apply bool_decide_eq_true. by eapply quiet_to_active.
    + apply negb_true_iff, bool_decide_eq_false. intros Hd. destruct Hn. apply quiet_insert; [done|].
      by rewrite Hd.
  - destruct Hn. intros k x [_ ?]%lookup_delete_Some. eauto.
Qed.

(** No wake-up is lost: whenever a method turns a queue on which [pop]
    blocks into one on which it would find a pod, that method notifies the
    waiters. *)
Theorem becoming_poppable_notifies lister ops i os op i' o :
  sq_runs cfg pod_requests_milli (inner_new lister) ops = Some (i, os) ->
  sq_run cfg pod_requests_milli i op = Some (i', o) ->
  can_pop i = false -> can_pop i' = true -> notified o = true.
Proof.
  intros [A HA]%reached_repr Hr Hc Hc'. destruct (run_repr i A op i' o HA Hr) as (A' & Hs & HA').
  assert (quiet (aq_pods A)) as HM by by apply (can_pop_quiet i).
  assert (~ quiet (aq_pods A')) as HM' by (intros Hq; apply (can_pop_quiet i') in Hq; [congruence|done]).
  assert (op = OpPop \/ op <> OpPop) as [->|Hop] by (destruct op; by auto); [|by eapply step_wakes].
  unfold sq_run, sq_pop in Hr. unfold can_pop in Hc. rewrite Hc in Hr.
  destruct (closed i); simpl in Hr; simplify_eq; by rewrite /can_pop Hc in Hc'.
Qed.

(** ** Queueing hints *)

(** Some registered hint function of a plugin in [plugins], for an event that
    matches, says that the pod is worth queueing; an error counts as yes. *)
Definition says_queue (plugins : gset string) (p : QueuedPodInfo) (event : ClusterEvent)
    (old_obj new_obj : option EventObject) (hint_map : QueueingHintMap) : Prop :=
  exists event_to_match fns f, (event_to_match, fns) ∈ hint_map /\
    match_cluster_events event_to_match event = true /\ f ∈ fns /\ plugin_name f ∈ plugins /\
    queueing_hint_fn f (qp_pod p) old_obj new_obj <> Ok HintQueueSkip.

Definition fn_says (plugins : gset string) p (old_obj new_obj : option EventObject) (fns : list QueueingHintFunction) : Prop :=
  exists f, f ∈ fns /\ plugin_name f ∈ plugins /\
    queueing_hint_fn f (qp_pod p) old_obj new_obj <> Ok HintQueueSkip.

Lemma fn_says_cons plugins p old new f fns :
  fn_says plugins p old new (f :: fns) <->
  (plugin_name f ∈ plugins /\ queueing_hint_fn f (qp_pod p) old new <> Ok HintQueueSkip) \/
  fn_says plugins p old new fns.
Proof.
  unfold fn_says. split.
  - intros (g & [->|Hg]%elem_of_cons & ? & ?); [by left|right; eauto].
  - intros [[? ?]|(g & ? & ? & ?)]; [exists f|exists g]; rewrite elem_of_cons; auto.
Qed.

Lemma hint_fns_loop_spec p old new fns s :
  s = QueueSkip \/ (s = QueueAfterBackoff /\ qp_pending_plugins p <> ∅) ->
  let pend := fn_says (qp_pending_plugins p) p old new fns in
  let any := fn_says (qp_unschedulable_plugins p ∪ qp_pending_plugins p) p old new fns in
  match hint_fns_loop p old new fns s with
  | inl QueueImmediately => pend
  | inl QueueAfterBackoff => any /\ qp_pending_plugins p = ∅
  | inl QueueSkip => False
  | inr QueueImmediately => False
  | inr QueueAfterBackoff => ~ pend /\ qp_pending_plugins p <> ∅ /\ (any \/ s = QueueAfterBackoff)
  | inr QueueSkip => ~ any /\ s = QueueSkip
  end.
Proof.
  revert s. induction fns as [|f fns IH]; intros s Hs; cbn [hint_fns_loop].
  { assert (forall pl, ~ fn_says pl p old new []) as Hnil by (intros pl (f & ? & _); set_solver).
    destruct Hs as [->|[-> ?]]; naive_solver. }
  pose proof (fn_says_cons (qp_pending_plugins p) p old new f fns) as Hp.
  pose proof (fn_says_cons (qp_unschedulable_plugins p ∪ qp_pending_plugins p) p old new f fns) as Ha.
  cbn zeta. case_decide as Hin; last first.
  { assert (plugin_name f ∉ qp_pending_plugins p) as Hin' by set_solver.
    specialize (IH s Hs). simpl in IH. destruct (hint_fns_loop p old new fns s) as [[]|[]]; naive_solver. }
  case_decide as Hh.
  { assert (queueing_hint_fn f (qp_pod p) old new = Ok HintQueueSkip) as Hq
      by (destruct (queueing_hint_fn f (qp_pod p) old new); congruence).
    specialize (IH s Hs). simpl in IH. destruct (hint_fns_loop p old new fns s) as [[]|[]]; naive_solver. }
  assert (queueing_hint_fn f (qp_pod p) old new <> Ok HintQueueSkip) as Hq.
  { intros Hq. by rewrite Hq in Hh. }
  case_decide as Hpp; [naive_solver|]. case_decide as He; [naive_solver|].
  specialize (IH QueueAfterBackoff (or_intror (conj eq_refl He))). simpl in IH.
  destruct (hint_fns_loop p old new fns QueueAfterBackoff) as [[]|[]]; naive_solver.
Qed.

Lemma says_queue_cons plugins p ev old new em fns hm :
  says_queue plugins p ev old new ((em, fns) :: hm) <->
  (match_cluster_events em ev = true /\ fn_says plugins p old new fns) \/ says_queue plugins p ev old new hm.
Proof.
  unfold says_queue, fn_says. split.
  - intros (em' & fns' & f & [[= -> ->]|Hin]%elem_of_cons & ?); [left; naive_solver|right; naive_solver].
  - intros [[? (f & ?)]|(em' & fns' & f & ?)]; [exists em, fns, f|exists em', fns', f];
      rewrite elem_of_cons; naive_solver.
Qed.

Lemma hint_map_loop_spec p ev old new hm s :
  s = QueueSkip \/ (s = QueueAfterBackoff /\ qp_pending_plugins p <> ∅) ->
  let pend := says_queue (qp_pending_plugins p) p ev old new hm in
  let any := says_queue (qp_unschedulable_plugins p ∪ qp_pending_plugins p) p ev old new hm in
  match hint_map_loop p ev old new hm s with
  | QueueImmediately => pend
  | QueueAfterBackoff => ~ pend /\ (any \/ s = QueueAfterBackoff)
  | QueueSkip => ~ any /\ s = QueueSkip
  end.
Proof.
  revert s. induction hm as [|[em fns] hm IH]; intros s Hs; cbn [hint_map_loop].
  { assert (forall pl, ~ says_queue pl p ev old new []) as Hnil
      by (intros pl (em & fns & f & ? & _); set_solver).
    destruct Hs as [->|[-> ?]]; naive_solver. }
  pose proof (says_queue_cons (qp_pending_plugins p) p ev old new em fns hm) as Hp.
  pose proof (says_queue_cons (qp_unschedulable_plugins p ∪ qp_pending_plugins p) p ev old new em fns hm) as Ha.
  cbn zeta. destruct (match_cluster_events em ev) eqn:Hm; last first.
  { specialize (IH s Hs). simpl in IH. destruct (hint_map_loop p ev old new hm s); naive_solver. }
  pose proof (hint_fns_loop_spec p old new fns s Hs) as Hf. simpl in Hf.
  destruct (hint_fns_loop p old new fns s) as [[]|s'].
  - done.
  - destruct Hf as [Hf He]. split; [|left; apply Ha; by left]. rewrite Hp He.
    intros [[_ (f & _ & ? & _)]|(em' & fns' & f & _ & _ & _ & ? & _)]; set_solver.
  - apply Hp. by left.
  - assert (s' = QueueSkip \/ (s' = QueueAfterBackoff /\ qp_pending_plugins p <> ∅)) as Hs'
      by (destruct s'; naive_solver).
    specialize (IH s' Hs'). simpl in IH.
    assert (fn_says (qp_pending_plugins p) p old new fns ->
      fn_says (qp_unschedulable_plugins p ∪ qp_pending_plugins p) p old new fns) as Hsub
      by (intros (f & ? & ? & ?); exists f; set_solver).
    destruct s'; destruct (hint_map_loop p ev old new hm _); naive_solver.
Qed.

(** For an event of the cluster, the requeue strategy of a pod rejected by
    some plugins is a function of what the registered hints say and not of the
    order the hash map lists them in: immediately if a matching hint of a
    pending plugin says queue (or fails), after backoff if only hints of
    unschedulable plugins do, and skip exactly when every hint of the plugins
    that rejected the pod says skip. *)
Theorem requeue_strategy_best_hint p event old_obj new_obj hint_map :
  qp_unschedulable_plugins p ∪ qp_pending_plugins p <> ∅ ->
  cluster_event_is_wild_card event = false ->
  queueing_hint_map cfg !! pod_scheduler_name (qp_pod p) = Some hint_map ->
  let pending := says_queue (qp_pending_plugins p) p event old_obj new_obj hint_map in
  let rejector := says_queue (qp_unschedulable_plugins p ∪ qp_pending_plugins p)
                    p event old_obj new_obj hint_map in
  let strategy := is_pod_worth_requeuing cfg p event old_obj new_obj in
  (strategy = QueueImmediately <-> pending) /\
  (strategy = QueueAfterBackoff <-> rejector /\ ~ pending) /\
  (strategy = QueueSkip <-> ~ rejector).
Proof.
  intros Hne Hw Hm pending rejector strategy.
  assert (strategy = hint_map_loop p event old_obj new_obj hint_map QueueSkip) as ->.
  { unfold strategy, is_pod_worth_requeuing. by rewrite decide_False // Hw Hm. }
  pose proof (hint_map_loop_spec p event old_obj new_obj hint_map QueueSkip (or_introl eq_refl)) as Hs.
  simpl in Hs. assert (pending -> rejector) as Hpr.
  { intros (em & fns & f & ? & ? & ? & ? & ?). exists em, fns, f. set_solver. }
  destruct (hint_map_loop p event old_obj new_obj hint_map QueueSkip); naive_solver.
Qed.

End Props.

(** ** Backoff *)

Section BackoffFacts.
Local Open Scope Z_scope.

(** The backoff of the [count]-th failed attempt is the initial backoff
    doubled [count - 1] times and capped at the maximum, with no overflow of
    the 128-bit intermediate values, for every count up to 2^32. *)
Theorem backoff_duration_doubles initial max (count : nat) :
  0 < initial -> 0 <= max <= u64_max -> (0 < count)%nat -> Z.of_nat count <= 2 ^ 32 ->
  calculate_backoff_duration initial max count = Z.min (initial * 2 ^ (Z.of_nat count - 1)) max.
Proof.
  intros Hi Hm Hc Hc32. unfold calculate_backoff_duration. rewrite decide_False; [lia|].
  replace (Z.of_nat (count - 1)) with (Z.of_nat count - 1) by lia.
  rewrite Z.mod_small; [lia|]. set (s := Z.of_nat count - 1). assert (0 <= s) as Hs by lia.
  assert (0 < 2 ^ s) as Hp by (apply Z.pow_pos_nonneg; lia).
  assert (initial <= initial * 2 ^ s) as Hge by nia.
  unfold u128_checked_shr, u128_checked_shl. destruct (decide (s < 128)) as [Hlt|Hlt]; simpl.
  - rewrite Z.shiftr_div_pow2 // Z.shiftl_mul_pow2 //.
    pose proof (Z.div_mod max (2 ^ s) ltac:(lia)) as Hdm. pose proof (Z.mod_pos_bound max (2 ^ s) Hp) as Hmb.
    case_decide as Hd.
    + rewrite Z.min_r //. nia.
    + assert (initial * 2 ^ s <= max) as Hle by nia.
      rewrite Z.mod_small; [unfold u64_max in Hm; lia|]. rewrite decide_True; [lia|]. lia.
  - rewrite decide_True //. rewrite Z.min_r //.
    assert (2 ^ 128 <= 2 ^ s) as H128 by (apply Z.pow_le_mono_r; lia). unfold u64_max in Hm. nia.
Qed.

Lemma backoff_duration_doubles_witness :
  calculate_backoff_duration (1 * SECOND) (10 * SECOND) 4 =
    Z.min (1 * SECOND * 2 ^ (Z.of_nat 4 - 1)) (10 * SECOND).
Proof. apply (backoff_duration_doubles (1 * SECOND) (10 * SECOND) 4); vm_compute; done || lia. Defined.

End BackoffFacts.

(** ** Witnesses: a scheduler with one plugin, [Fit], that waits for nodes *)

Definition fit_hint : QueueingHintFunction :=
  mkQueueingHintFunction "Fit" (fun _ _ _ => Ok HintQueue).
Definition node_add : ClusterEvent := new_event RNode ADD.
Definition demo_cfg : PriorityQueue :=
  mkPriorityQueue priority_sort_less (1 * SECOND) (10 * SECOND) (300 * SECOND) ∅
    {[ "default-scheduler" := [(node_add, [fit_hint])] ]}.
Definition no_requests (_ : Pod) : gmap string Z := ∅.
Definition pod_a : Pod := bare_pod "ns" "a" "uid-a".
Definition pod_b : Pod := bare_pod "ns" "b" "uid-b".

(** Pod [a] comes back rejected by [Fit] while [b] is in flight. *)
Definition rejected_a : QueuedPodInfo :=
  mkQueuedPodInfo pod_a 0 1 None 0 0 (Some 0%Z) {[ "Fit" ]} ∅ "" [].
Definition demo_ops : list sq_op :=
  [OpAdd pod_a 0; OpAdd pod_b 5; OpPop; OpAddUnschedulable rejected_a SECOND].

#[local] Existing Instance default_hash_order.

Definition demo_run (ops : list sq_op) : Inner * list sq_out :=
  default (inner_new None, []) (sq_runs demo_cfg no_requests (inner_new None) ops).

Lemma scheduling_queue_refines_spec_witness :
  exists i A os, sq_runs demo_cfg no_requests (inner_new None) demo_ops = Some (i, os) /\
    sq_steps demo_cfg no_requests (mkAQ ∅ ∅) demo_ops A os /\ sq_repr demo_cfg i A.
Proof. apply (scheduling_queue_refines_spec (SW := swo_priority_sort) demo_cfg no_requests None demo_ops). Defined.

Lemma queued_pod_in_one_place_witness :
  exists i os, sq_runs demo_cfg no_requests (inner_new None) demo_ops = Some (i, os) /\
    length (omap id [get_by_key (active_q i) "ns/a"; get_by_key (pod_backoff_q (backoff_q i)) "ns/a";
      get_by_key (pod_error_backoff_q (backoff_q i)) "ns/a"; unschedulable_pods i !! "ns/a"]) <= 1.
Proof.
  exists (demo_run demo_ops).1, (demo_run demo_ops).2. split; [vm_compute; reflexivity|].
  apply (queued_pod_in_one_place (SW := swo_priority_sort) demo_cfg no_requests None demo_ops _
    (demo_run demo_ops).2 "ns/a"). vm_compute. reflexivity.
Defined.

Lemma moves_lose_no_pod_witness :
  is_Some (queued_pod (demo_run demo_ops).1 "ns/a") /\
  is_Some (queued_pod (demo_run (demo_ops ++ [OpMoveAll node_add None None None (2 * SECOND)])).1 "ns/a").
Proof.
  split; [vm_compute; by eexists|].
  apply (moves_lose_no_pod (SW := swo_priority_sort) demo_cfg no_requests None demo_ops
    (demo_run demo_ops).1 (demo_run demo_ops).2 (OpMoveAll node_add None None None (2 * SECOND)) _ (ONotify true) "ns/a").
  - vm_compute. reflexivity.
  - vm_compute. reflexivity.
  - done.
  - done.
  - vm_compute. by eexists.
Defined.

Lemma in_flight_events_not_lost_witness :
  exists i2 os' p evs,
    sq_runs demo_cfg no_requests (demo_run [OpAdd pod_a 0; OpPop]).1
      [OpAdd pod_b 7; OpMoveAll node_add None None None 9; OpPop] = Some (i2, os') /\
    cluster_events_for_pod i2 p = Ok evs /\ sublist [mkInFlightEvent node_add None None] evs.
Proof.
  set (i1 := (demo_run [OpAdd pod_a 0; OpPop]).1).
  set (ops' := [OpAdd pod_b 7; OpMoveAll node_add None None None 9; OpPop]).
  set (r := default (i1, []) (sq_runs demo_cfg no_requests i1 ops')).
  exists r.1, r.2, (popped_info (set_initial_attempt (new_queued_pod_info pod_a 0) 0)).
  destruct (in_flight_events_not_lost (SW := swo_priority_sort) demo_cfg no_requests None [OpAdd pod_a 0]
    (demo_run [OpAdd pod_a 0]).1 (demo_run [OpAdd pod_a 0]).2 i1
    (popped_info (set_initial_attempt (new_queued_pod_info pod_a 0) 0)) ops' r.1 r.2) as (evs & He & Hs).
  - vm_compute. reflexivity.
  - vm_compute. reflexivity.
  - repeat constructor; vm_compute; reflexivity.
  - vm_compute. reflexivity.
  - exists evs. split; [vm_compute; reflexivity|]. split; [exact He|exact Hs].
Defined.

Lemma pop_takes_the_most_urgent_witness :
  exists p0, popped_info (set_initial_attempt (new_queued_pod_info pod_a 0) 0) = popped_info p0 /\
    queued_pod (demo_run [OpAdd pod_a 0; OpAdd pod_b 5; OpPop]).1 (qp_key p0) = None.
Proof.
  destruct (pop_takes_the_most_urgent (SW := swo_priority_sort) demo_cfg no_requests None
    [OpAdd pod_a 0; OpAdd pod_b 5] (demo_run [OpAdd pod_a 0; OpAdd pod_b 5]).1
    (demo_run [OpAdd pod_a 0; OpAdd pod_b 5]).2 (demo_run [OpAdd pod_a 0; OpAdd pod_b 5; OpPop]).1
    (popped_info (set_initial_attempt (new_queued_pod_info pod_a 0) 0))) as (p0 & H1 & H2 & _).
  - vm_compute. reflexivity.
  - vm_compute. reflexivity.
  - exists p0. split; [exact H1|exact H2].
Defined.

Lemma becoming_poppable_notifies_witness :
  can_pop (inner_new None) = false /\ can_pop (demo_run [OpAdd pod_a 0]).1 = true /\
  notified (ONotify true) = true.
Proof.
  split_and!; [vm_compute; reflexivity..|].
  apply (becoming_poppable_notifies (SW := swo_priority_sort) demo_cfg no_requests None []
    (inner_new None) [] (OpAdd pod_a 0) (demo_run [OpAdd pod_a 0]).1 (ONotify true)); vm_compute; reflexivity.
Defined.

Lemma requeue_strategy_best_hint_witness :
  is_pod_worth_requeuing demo_cfg rejected_a node_add None None = QueueAfterBackoff.
Proof.
  apply (requeue_strategy_best_hint demo_cfg rejected_a node_add None None [(node_add, [fit_hint])]).
  - vm_compute. discriminate.
  - vm_compute. reflexivity.
  - vm_compute. reflexivity.
  - split.
    + exists node_add, [fit_hint], fit_hint. split_and!; [set_solver|done|set_solver|set_solver|done].
    + intros (em & fns & f & _ & _ & _ & Hin & _). by apply not_elem_of_empty in Hin.
Defined.
