(* ===== verification/WorkQueue.v ===== *)
(** * The controllers' work queue

    Model of [crates/storage/src/workqueue.rs]: the deduplicating, rate-limited
    queue of resource keys between the watch handlers and the workers of a
    controller.

    - [WorkQueueInner] is the state behind the mutex; every method that takes
      the lock once is one function on it.  [get] takes it twice per turn of its
      loop: [get_turn] is the first critical section, [get_park] the second.
    - Instants and durations are [Z] nanoseconds; a reading of the clock is the
      argument [now].
    - The [bool] of a result is [notify.notify_one()].
    - The iteration over the [delayed] map follows [hash_iter]. *)

From S2P Require Import Prelude.

Record WorkQueueConfig := mkWorkQueueConfig { base_delay : Z; max_delay : Z }.

Record WorkQueueInner := mkWorkQueueInner {
  wq_queue : list string;
  dirty : gset string;
  processing : gset string;
  failures : gmap string Z;
  delayed : gmap string Z;
  last_dequeued : gmap string Z;
  shutdown : bool
}.

Definition MILLI : Z := 1000000.
(** [MIN_REPROCESS_INTERVAL] *)
Definition MIN_REPROCESS_INTERVAL : Z := 200 * MILLI.

(** [WorkQueueConfig::default] *)
Definition default_config : WorkQueueConfig := mkWorkQueueConfig (5 * MILLI) (1000 * 1000 * MILLI).

(** The state [with_config] starts from. *)
Definition wq_new : WorkQueueInner := mkWorkQueueInner [] ∅ ∅ ∅ ∅ ∅ false.

Definition set_lists (i : WorkQueueInner) (q : list string) (d p : gset string) (dl : gmap string Z)
    : WorkQueueInner :=
  mkWorkQueueInner q d p (failures i) dl (last_dequeued i) (shutdown i).

Definition wq_add (i : WorkQueueInner) (key : string) : WorkQueueInner * bool :=
  if shutdown i then (i, false)
  else if decide (key ∈ dirty i) then (i, false)
  else
    let d := {[key]} ∪ dirty i in
    if decide (key ∈ processing i) then (set_lists i (wq_queue i) d (processing i) (delayed i), false)
    else (set_lists i (wq_queue i ++ [key]) d (processing i) (delete key (delayed i)), true).

Definition add_after (i : WorkQueueInner) (key : string) (delay now : Z) : WorkQueueInner * bool :=
  if shutdown i then (i, false)
  else if decide (key ∈ dirty i) then (i, false)
  else
    let deadline := (now + delay)%Z in
    let entry := match delayed i !! key with
                 | Some e => if decide (deadline < e)%Z then deadline else e
                 | None => deadline
                 end in
    (set_lists i (wq_queue i) (dirty i) (processing i) (<[key := entry]> (delayed i)), true).

Section Get.
Context `{!HashOrder}.

(** One matured key handed over to the queue. *)
Definition promote (i : WorkQueueInner) (key : string) : WorkQueueInner :=
  let dl := delete key (delayed i) in
  if decide (key ∈ dirty i) then set_lists i (wq_queue i) (dirty i) (processing i) dl
  else
    let d := {[key]} ∪ dirty i in
    if decide (key ∈ processing i) then set_lists i (wq_queue i) d (processing i) dl
    else set_lists i (wq_queue i ++ [key]) d (processing i) dl.

Definition ready_keys (i : WorkQueueInner) (now : Z) : list string :=
  (filter (fun kd => kd.2 <= now)%Z (hash_iter (delayed i))).*1.

Inductive GetOutcome := GotKey (key : string) | GotNone | GotNothing.

(** The first critical section of [get], with its two clock readings;
    [GotNothing] goes on to the second. *)
Definition get_turn (i : WorkQueueInner) (now now' : Z) : WorkQueueInner * GetOutcome :=
  if shutdown i && bool_decide (wq_queue i = []) then (i, GotNone)
  else
    let i1 := foldl promote i (ready_keys i now) in
    match wq_queue i1 with
    | key :: q =>
        (mkWorkQueueInner q (dirty i1 ∖ {[key]}) ({[key]} ∪ processing i1) (failures i1)
           (delayed i1) (<[key := now']> (last_dequeued i1)) (shutdown i1), GotKey key)
    | [] => (i1, GotNothing)
    end.

(** The second: [None] returns from [get]; otherwise the earliest deadline to
    sleep to, if there is one. *)
Definition get_park (i : WorkQueueInner) : option (option Z) :=
  if shutdown i then None
  else Some (foldr (fun kd acc => Some (default kd.2 (Z.min kd.2 <$> acc))) None (hash_iter (delayed i))).

End Get.

Definition wq_done (i : WorkQueueInner) (key : string) (now : Z) : WorkQueueInner * bool :=
  let p := processing i ∖ {[key]} in
  if decide (key ∈ dirty i) then
    let requeue := (set_lists i (wq_queue i ++ [key]) (dirty i) p (delayed i), true) in
    match last_dequeued i !! key with
    | Some dequeued_at =>
        let elapsed := (now - dequeued_at)%Z in
        if decide (elapsed < MIN_REPROCESS_INTERVAL)%Z then
          let remaining := (MIN_REPROCESS_INTERVAL - elapsed)%Z in
          (set_lists i (wq_queue i) (dirty i ∖ {[key]}) p (<[key := (now + remaining)%Z]> (delayed i)), true)
        else requeue
    | None => requeue
    end
  else (set_lists i (wq_queue i) (dirty i) p (delayed i), false).

Definition u64_MAX : Z := 2 ^ 64 - 1.
Definition u64_saturating_mul (a b : Z) : Z := Z.min (a * b) u64_MAX.

(** [backoff_duration]; [failures] is a [u32]. *)
Definition backoff_duration (failures base max : Z) : Z :=
  (if decide (failures = 0) then 0
   else
     let s := Z.max 0 (failures - 1) in
     let multiplier := if decide (s < 64) then Z.shiftl 1 s mod 2 ^ 64 else u64_MAX in
     let delay_ms := u64_saturating_mul (base / MILLI mod 2 ^ 64) multiplier in
     let delay := Z.min delay_ms (max / MILLI mod 2 ^ 64) * MILLI in
     Z.min delay max)%Z.

(** The first critical section of [requeue_rate_limited]: the failure counter;
    the [u32] increment wraps as in a release build. *)
Definition count_failure (cfg : WorkQueueConfig) (i : WorkQueueInner) (key : string) : WorkQueueInner * Z :=
  let n := ((default 0 (failures i !! key) + 1) mod 2 ^ 32)%Z in
  (mkWorkQueueInner (wq_queue i) (dirty i) (processing i) (<[key := n]> (failures i))
     (delayed i) (last_dequeued i) (shutdown i), backoff_duration n (base_delay cfg) (max_delay cfg)).

Definition requeue_rate_limited (cfg : WorkQueueConfig) (i : WorkQueueInner) (key : string) (now : Z)
    : WorkQueueInner * bool :=
  let '(i1, delay) := count_failure cfg i key in
  add_after i1 key delay now.

Definition num_requeues (i : WorkQueueInner) (key : string) : Z := default 0%Z (failures i !! key).

Definition forget (i : WorkQueueInner) (key : string) : WorkQueueInner :=
  mkWorkQueueInner (wq_queue i) (dirty i) (processing i) (delete key (failures i)) (delayed i)
    (last_dequeued i) (shutdown i).

Definition wq_shutdown (i : WorkQueueInner) : WorkQueueInner :=
  mkWorkQueueInner (wq_queue i) (dirty i) (processing i) (failures i) (delayed i) (last_dequeued i) true.

Definition wq_len (i : WorkQueueInner) : nat := length (wq_queue i).

(** ** Interleavings *)

(** One critical section of some caller; [done] is called by the worker that
    holds the key. *)
Inductive wq_step `{!HashOrder} (cfg : WorkQueueConfig) : WorkQueueInner -> option string -> WorkQueueInner -> Prop :=
| ws_add i key : wq_step cfg i None (wq_add i key).1
| ws_add_after i key delay now : wq_step cfg i None (add_after i key delay now).1
| ws_count i key : wq_step cfg i None (count_failure cfg i key).1
| ws_get i now now' key i' : get_turn i now now' = (i', GotKey key) -> wq_step cfg i (Some key) i'
| ws_get_none i now now' i' o : get_turn i now now' = (i', o) -> (forall key, o <> GotKey key) -> wq_step cfg i None i'
| ws_done i key now : key ∈ processing i -> wq_step cfg i None (wq_done i key now).1
| ws_forget i key : wq_step cfg i None (forget i key)
| ws_shutdown i : wq_step cfg i None (wq_shutdown i).

(** A run: the keys handed out, in order. *)
Inductive wq_steps `{!HashOrder} (cfg : WorkQueueConfig) : WorkQueueInner -> list string -> WorkQueueInner -> Prop :=
| wss_nil i : wq_steps cfg i [] i
| wss_cons i o i1 l i2 :
    wq_step cfg i o i1 -> wq_steps cfg i1 l i2 -> wq_steps cfg i (option_list o ++ l) i2.

(** The queue holds each key once, only keys marked dirty and not in the hands
    of a worker; a dirty key is queued or being processed. *)
Record wq_inv (i : WorkQueueInner) : Prop := {
  wi_nodup : NoDup (wq_queue i);
  wi_queue key : key ∈ wq_queue i -> key ∈ dirty i /\ key ∉ processing i;
  wi_dirty key : key ∈ dirty i -> key ∈ wq_queue i \/ key ∈ processing i
}.

(** The key will be looked at again: it is in the queue, or it waits for its
    deadline, or it is marked for the [done] of the worker that holds it. *)
Definition pending (i : WorkQueueInner) (key : string) : Prop :=
  key ∈ wq_queue i \/ is_Some (delayed i !! key) \/ (key ∈ processing i /\ key ∈ dirty i).

(** As the steps keep it, with the invariant: marked, or waiting. *)
Definition marked (i : WorkQueueInner) (key : string) : Prop :=
  key ∈ dirty i \/ is_Some (delayed i !! key).

(** ** Proofs *)

Section Facts.
Context {HO : HashOrder} (cfg : WorkQueueConfig).
Implicit Types (i : WorkQueueInner) (key : string).

Lemma inv_new : wq_inv wq_new.
Proof. split; simpl; [constructor|set_solver..]. Qed.

(** The invariant reads only the queue and the two sets. *)
Lemma inv_same i i' :
  wq_queue i' = wq_queue i -> dirty i' = dirty i -> processing i' = processing i -> wq_inv i -> wq_inv i'.
Proof. intros Hq Hd Hp []. by split; rewrite ?Hq ?Hd ?Hp. Qed.

Lemma inv_enqueue i key dl :
  wq_inv i -> key ∉ dirty i -> key ∉ processing i ->
  wq_inv (set_lists i (wq_queue i ++ [key]) ({[key]} ∪ dirty i) (processing i) dl).
Proof.
  intros [Hn Hq Hd] Hk Hp. split; simpl.
  - apply NoDup_app. split_and!; [done| |apply NoDup_singleton]. intros x Hx%Hq. set_solver.
  - intros x. rewrite elem_of_app list_elem_of_singleton. intros [Hx%Hq| ->]; set_solver.
  - intros x [->%elem_of_singleton|Hx%Hd]%elem_of_union; set_solver.
Qed.

Lemma inv_mark i key dl :
  wq_inv i -> key ∈ processing i ->
  wq_inv (set_lists i (wq_queue i) ({[key]} ∪ dirty i) (processing i) dl).
Proof. intros [Hn Hq Hd] Hp. split; simpl; [done|set_solver..]. Qed.

Lemma inv_add i key : wq_inv i -> wq_inv (wq_add i key).1.
Proof.
  intros Hi. unfold wq_add. destruct (shutdown i); [done|]. case_decide; [done|].
  case_decide; simpl; [by apply inv_mark|by apply inv_enqueue].
Qed.

Lemma inv_promote i key : wq_inv i -> wq_inv (promote i key).
Proof.
  intros Hi. unfold promote. case_decide; [by apply (inv_same i)|].
  case_decide; simpl; [by apply inv_mark|by apply inv_enqueue].
Qed.

Lemma inv_promote_all i keys : wq_inv i -> wq_inv (foldl promote i keys).
Proof. revert i. induction keys as [|k keys IH]; intros i Hi; simpl; [done|]. by apply IH, inv_promote. Qed.

Lemma promote_processing i key : processing (promote i key) = processing i.
Proof. unfold promote. by repeat case_decide. Qed.

Lemma promote_all_processing i keys : processing (foldl promote i keys) = processing i.
Proof.
  revert i. induction keys as [|k keys IH]; intros i; simpl; [done|]. by rewrite IH promote_processing.
Qed.

(** A key that [get] hands out was queued, and in no worker's hands. *)
Lemma get_turn_spec i now now' key i' :
  wq_inv i -> get_turn i now now' = (i', GotKey key) ->
  exists i1 q, i1 = foldl promote i (ready_keys i now) /\ wq_queue i1 = key :: q /\
    ~ key ∈ processing i /\ wq_queue i' = q /\ dirty i' = dirty i1 ∖ {[key]} /\
    processing i' = {[key]} ∪ processing i /\ delayed i' = delayed i1 /\ wq_inv i1 /\ wq_inv i'.
Proof.
  intros Hi. unfold get_turn. destruct (shutdown i && _); [done|].
  pose proof (inv_promote_all i (ready_keys i now) Hi) as H1.
  pose proof (promote_all_processing i (ready_keys i now)) as Hp.
  set (i1 := foldl promote i (ready_keys i now)) in *.
  destruct (wq_queue i1) as [|k q] eqn:Hq; [done|]. intros [= <- <-].
  pose proof H1 as [Hn Hqd Hd]. rewrite Hq in Hn. apply NoDup_cons in Hn as [Hk Hn].
  assert (k ∈ dirty i1 /\ k ∉ processing i1) as [Hkd Hkp] by (apply Hqd; rewrite Hq; set_solver).
  exists i1, q. rewrite -Hp. split_and!; simpl; try done. split; simpl; [done| |].
  - intros x Hx. assert (x ∈ dirty i1 /\ x ∉ processing i1) as [? ?] by (apply Hqd; rewrite Hq; set_solver).
    set_solver.
  - intros x [Hx Hne]%elem_of_difference. apply Hd in Hx. rewrite Hq in Hx. set_solver.
Qed.

Lemma inv_done i key now : wq_inv i -> key ∈ processing i -> wq_inv (wq_done i key now).1.
Proof.
  intros [Hn Hq Hd] Hp. assert (key ∉ wq_queue i) as Hnq by (intros Hx%Hq; set_solver).
  assert (wq_inv (set_lists i (wq_queue i ++ [key]) (dirty i) (processing i ∖ {[key]}) (delayed i)) \/ key ∉ dirty i)
    as Hre.
  { destruct (decide (key ∈ dirty i)); [left|by right]. split; simpl.
    - apply NoDup_app. split_and!; [done|set_solver|apply NoDup_singleton].
    - intros x. rewrite elem_of_app list_elem_of_singleton. intros [Hx%Hq| ->]; set_solver.
    - intros x Hx%Hd. destruct (decide (x = key)); set_solver. }
  unfold wq_done. case_decide as Hk.
  - destruct Hre as [Hre|]; [|done]. destruct (last_dequeued i !! key); [case_decide|]; simpl; try done.
    split; simpl; [done| |].
    + intros x Hx. pose proof (Hq _ Hx). set_solver.
    + intros x [Hx%Hd ?]%elem_of_difference. set_solver.
  - split; simpl; [done| |].
    + intros x Hx%Hq. set_solver.
    + intros x Hx. destruct (Hd _ Hx); [by left|]. right. set_solver.
Qed.

Lemma inv_step i o i' : wq_inv i -> wq_step cfg i o i' -> wq_inv i'.
Proof.
  intros Hi Hs. destruct Hs as [i key|i key delay now|i key|i now now' key i' Hg|i now now' i' o Hg Ho|i key now Hp|i key|i].
  - by apply inv_add.
  - unfold add_after. repeat case_match; try done; by apply (inv_same i).
  - by apply (inv_same i).
  - by destruct (get_turn_spec _ _ _ _ _ Hi Hg) as (i1 & q & _ & _ & _ & _ & _ & _ & _ & _ & ?).
  - unfold get_turn in Hg. destruct (shutdown i && _); [by simplify_eq|].
    pose proof (inv_promote_all i (ready_keys i now) Hi) as H1.
    destruct (wq_queue (foldl promote i (ready_keys i now))); simplify_eq; [done|].
    by destruct (Ho s).
  - by apply inv_done.
  - by apply (inv_same i).
  - by apply (inv_same i).
Qed.

Lemma inv_steps i l i' : wq_inv i -> wq_steps cfg i l i' -> wq_inv i'.
Proof. intros Hi Hs. induction Hs; [done|]. eauto using inv_step. Qed.

(** A key is never in the hands of two workers: in every reachable state,
    whatever the interleaving of producers and workers, [get] only hands out a
    key no worker is processing, and the queue never holds a key twice. *)
Theorem workqueue_exclusive l i now now' key i' :
  wq_steps cfg wq_new l i -> get_turn i now now' = (i', GotKey key) ->
  ~ (key ∈ processing i) /\ (key ∈ processing i') /\ NoDup (wq_queue i').
Proof.
  intros Hs%inv_steps Hg; [|apply inv_new].
  destruct (get_turn_spec _ _ _ _ _ Hs Hg) as (i1 & q & _ & _ & Hk & _ & _ & Hp & _ & _ & Hi').
  split_and!; [done|rewrite Hp; set_solver|apply Hi'].
Qed.

(** ** No key is lost *)

Lemma marked_promote i k key : marked i key -> marked (promote i k) key.
Proof.
  unfold marked, promote. intros H. destruct (decide (k = key)) as [->|Hne].
  - repeat case_decide; simpl; left; set_solver.
  - repeat case_decide; simpl; rewrite lookup_delete_ne //; set_solver.
Qed.

Lemma marked_promote_all i keys key : marked i key -> marked (foldl promote i keys) key.
Proof. revert i. induction keys as [|k keys IH]; intros i Hi; simpl; [done|]. by apply IH, marked_promote. Qed.

Lemma marked_step i o i' key :
  wq_inv i -> wq_step cfg i o i' -> marked i key -> o <> Some key -> marked i' key.
Proof.
  intros Hi Hs Hp Ho.
  destruct Hs as [i k|i k delay now|i k|i now now' k i' Hg|i now now' i' o Hg Hn|i k now Hk|i k|i]; try done.
  - unfold wq_add, marked in *. destruct (shutdown i); [done|]. case_decide; [done|].
    destruct (decide (k = key)) as [->|Hne]; case_decide; simpl; [left; set_solver..| |].
    + set_solver.
    + rewrite lookup_delete_ne //. set_solver.
  - unfold add_after, marked in *. destruct (shutdown i); [done|]. case_decide; [done|]. simpl.
    destruct Hp as [?|Hp]; [by left|right]. rewrite lookup_insert. by case_decide.
  - destruct (get_turn_spec _ _ _ _ _ Hi Hg) as (i1 & q & -> & _ & _ & _ & Hd & _ & Hdl & _).
    pose proof (marked_promote_all i (ready_keys i now) key Hp) as Hp1. unfold marked in *.
    rewrite Hd Hdl. assert (k <> key) by congruence. set_solver.
  - unfold get_turn in Hg. destruct (shutdown i && _); [by simplify_eq|].
    pose proof (marked_promote_all i (ready_keys i now) key Hp) as Hp1.
    destruct (wq_queue (foldl promote i (ready_keys i now))); simplify_eq; [done|]. by destruct (Hn s).
  - unfold wq_done, marked in *. case_decide; simpl; [|done].
    destruct (last_dequeued i !! k); [case_decide|]; simpl; try done.
    destruct (decide (k = key)) as [->|]; [right; rewrite lookup_insert_eq; eauto|].
    rewrite lookup_insert_ne //. set_solver.
Qed.

Lemma marked_steps i l i' key :
  wq_inv i -> wq_steps cfg i l i' -> marked i key -> key ∉ l -> marked i' key.
Proof.
  intros Hi Hs. induction Hs as [|i o i1 l i2 Hs _ IH]; intros Hp Hl; [done|].
  apply not_elem_of_app in Hl as [Ho Hl]. apply IH; [by eapply inv_step| |done].
  eapply marked_step; [done..|]. intros ->. set_solver.
Qed.

Lemma marked_pending i key : wq_inv i -> marked i key -> pending i key.
Proof.
  intros Hi [Hd|Hd]; [|by right; left]. destruct (wi_dirty _ Hi key Hd); [by left|by right; right].
Qed.

Lemma marked_add i key : shutdown i = false -> marked (wq_add i key).1 key.
Proof. intros Hsd. left. unfold wq_add. rewrite Hsd. repeat case_decide; simpl; set_solver. Qed.

(** [done] of a pending key puts it back. *)
Lemma done_requeues i key now : pending i key -> key ∈ processing i -> wq_inv i ->
  key ∈ wq_queue (wq_done i key now).1 \/ is_Some (delayed (wq_done i key now).1 !! key).
Proof.
  intros Hp Hk Hi. unfold wq_done. case_decide as Hd.
  - destruct (last_dequeued i !! key); [case_decide|]; simpl; [right; rewrite lookup_insert_eq; eauto|left; set_solver..].
  - simpl. destruct Hp as [Hq|[Hdl|[_ ?]]]; [by left|by right|done].
Qed.

Lemma promote_keeps_queue i k key : key ∈ wq_queue i -> key ∈ wq_queue (promote i k).
Proof. intros Hq. unfold promote. repeat case_decide; simpl; set_solver. Qed.

Lemma promote_all_keeps_queue i keys key : key ∈ wq_queue i -> key ∈ wq_queue (foldl promote i keys).
Proof. revert i. induction keys as [|k keys IH]; intros i Hi; simpl; [done|]. by apply IH, promote_keeps_queue. Qed.

Lemma promote_queues i key : wq_inv i -> key ∉ processing i -> key ∈ wq_queue (promote i key).
Proof.
  intros Hi Hp. unfold promote. case_decide as Hd; [by destruct (wi_dirty _ Hi key Hd)|].
  rewrite decide_False //=. set_solver.
Qed.

Lemma promote_all_queues i keys key :
  wq_inv i -> key ∉ processing i -> key ∈ keys -> key ∈ wq_queue (foldl promote i keys).
Proof.
  revert i. induction keys as [|k keys IH]; intros i Hi Hp Hin; [by apply elem_of_nil in Hin|]. simpl.
  apply elem_of_cons in Hin as [<-|Hin].
  - by apply promote_all_keeps_queue, promote_queues.
  - apply IH; [by apply inv_promote|by rewrite promote_processing|done].
Qed.

(** A turn of [get] once the deadline of a pending key has passed. *)
Lemma get_turn_serves i key now now' : wq_inv i -> pending i key -> key ∉ processing i ->
  shutdown i = false \/ wq_queue i <> [] -> (forall t, delayed i !! key = Some t -> (t <= now)%Z) ->
  exists k i', get_turn i now now' = (i', GotKey k) /\ (k = key \/ key ∈ wq_queue i').
Proof.
  intros Hi Hp Hk Hs Hdl. unfold get_turn.
  assert (shutdown i && bool_decide (wq_queue i = []) = false) as ->.
  { destruct Hs as [->|Hq]; [done|]. by rewrite bool_decide_eq_false_2 // andb_false_r. }
  assert (key ∈ wq_queue (foldl promote i (ready_keys i now))) as Hin.
  { destruct Hp as [Hq|[[t Ht]|[? _]]]; [by apply promote_all_keeps_queue| |done].
    apply promote_all_queues; [done..|]. unfold ready_keys. apply list_elem_of_fmap. exists (key, t). split; [done|].
    apply list_elem_of_filter. split; [by apply Hdl|by apply elem_of_hash_iter]. }
  destruct (wq_queue (foldl promote i (ready_keys i now))) as [|k q]; [by apply elem_of_nil in Hin|].
  eexists k, _. split; [done|]. simpl. apply elem_of_cons in Hin as [->|Hin]; [by left|by right].
Qed.

(** C37: no work is lost.  Once a key has been added to a running queue, then
    whatever producers and workers do next, either the key has been handed out to
    a worker since, or it is in the queue, or waiting for its deadline, or held by
    a worker and marked; the [done] of that worker puts it back into the queue or
    gives it a deadline; and when no worker holds it, a turn of [get] after its
    deadline hands it out or hands out another key and leaves it in the queue,
    unless the queue has been shut down and is empty, which discards the keys that
    wait for a deadline. *)
Theorem workqueue_loses_no_key l i key l' i' :
  wq_steps cfg wq_new l i -> shutdown i = false -> wq_steps cfg (wq_add i key).1 l' i' ->
  key ∈ l' \/
  pending i' key /\
  (forall now, key ∈ processing i' ->
     key ∈ wq_queue (wq_done i' key now).1 \/ is_Some (delayed (wq_done i' key now).1 !! key)) /\
  (forall now now', key ∉ processing i' -> shutdown i' = false \/ wq_queue i' <> [] ->
     (forall t, delayed i' !! key = Some t -> (t <= now)%Z) ->
     exists k i2, get_turn i' now now' = (i2, GotKey k) /\ (k = key \/ key ∈ wq_queue i2)).
Proof.
  intros Hs%inv_steps Hsd Hs'; [|apply inv_new].
  destruct (decide (key ∈ l')) as [|Hl]; [by left|right].
  assert (wq_inv (wq_add i key).1) as Ha by by apply inv_add.
  assert (wq_inv i') as Hi' by by eapply inv_steps.
  assert (pending i' key) as Hp
    by (apply marked_pending; [done|]; apply (marked_steps (wq_add i key).1 l'); [done..|by apply marked_add|done]).
  split; [done|]. split; [intros now Hk; by apply done_requeues|]. intros now now' Hk Hr Hdl. by apply get_turn_serves.
Qed.

(** ** Arrival order *)

Lemma promote_all_queue i keys : exists l, wq_queue (foldl promote i keys) = wq_queue i ++ l.
Proof.
  revert i. induction keys as [|k keys IH]; intros i; simpl; [exists []; by rewrite app_nil_r|].
  destruct (IH (promote i k)) as [l ->]. unfold promote. repeat case_decide; simpl; [by eauto..|].
  eexists. by rewrite -app_assoc.
Qed.

Lemma step_fifo i o i' :
  wq_step cfg i o i' -> exists arrivals, wq_queue i ++ arrivals = option_list o ++ wq_queue i'.
Proof.
  assert (forall q : list string, exists arrivals, q ++ arrivals = q) as Hsame.
  { intros q. exists []. by rewrite app_nil_r. }
  intros Hs. destruct Hs as [i k|i k delay now|i k|i now now' k i' Hg|i now now' i' o Hg Hn|i k now Hk|i k|i];
    simpl; try done.
  - unfold wq_add. repeat case_match; simpl; eauto.
  - unfold add_after. repeat case_match; simpl; eauto.
  - unfold get_turn in Hg. destruct (shutdown i && _); [done|].
    destruct (promote_all_queue i (ready_keys i now)) as [l Hl].
    destruct (wq_queue (foldl promote i (ready_keys i now))); [done|]. simplify_eq. simpl. eauto.
  - unfold get_turn in Hg. destruct (shutdown i && _); [simplify_eq; eauto|].
    destruct (promote_all_queue i (ready_keys i now)) as [l Hl].
    destruct (wq_queue (foldl promote i (ready_keys i now))) eqn:Hq; [|by destruct (Hn s); simplify_eq].
    simplify_eq. rewrite Hq. eauto.
  - unfold wq_done. repeat case_match; simpl; eauto.
Qed.

(** Keys are handed out in arrival order: over any run, the keys handed
    out followed by the queue that is left are the queue at the start followed
    by what arrived meanwhile. *)
Theorem workqueue_fifo i l i' :
  wq_steps cfg i l i' -> exists arrivals, wq_queue i ++ arrivals = l ++ wq_queue i'.
Proof.
  induction 1 as [i|i o i1 l i2 Hs _ IH]; [exists []; by rewrite app_nil_r|].
  destruct (step_fifo _ _ _ Hs) as [a1 H1], IH as [a2 H2]. exists (a1 ++ a2).
  by rewrite app_assoc H1 -!app_assoc H2.
Qed.

End Facts.

(** ** Backoff *)

(** The delay after the [n]-th consecutive failure is the base delay
    doubled [n - 1] times and capped at the maximum, in whole milliseconds, for
    every [u32] count: the 64-bit shift and the saturating product never wrap. *)
Theorem backoff_duration_capped_doubling (n base max : Z) :
  (1 <= n < 2 ^ 32 -> 0 <= base / MILLI <= u64_MAX -> 0 <= max / MILLI <= u64_MAX ->
   backoff_duration n base max = Z.min (base / MILLI * 2 ^ (n - 1)) (max / MILLI) * MILLI)%Z.
Proof.
  intros Hn Hb Hm. unfold backoff_duration, u64_saturating_mul, u64_MAX in *.
  rewrite decide_False; [lia|]. rewrite Z.max_r; [lia|]. cbn zeta.
  rewrite (Z.mod_small (base / MILLI)); [lia|]. rewrite (Z.mod_small (max / MILLI)); [lia|].
  set (b := (base / MILLI)%Z) in *. set (m := (max / MILLI)%Z) in *.
  assert (m * MILLI <= max)%Z as Hle by (unfold m; pose proof (Z.mul_div_le max MILLI); unfold MILLI in *; lia).
  assert (0 < 2 ^ (n - 1))%Z as Hpos by (apply Z.pow_pos_nonneg; lia).
  match goal with |- Z.min (Z.min (Z.min (b * ?x) _) m * _) _ = _ => set (mult := x) end.
  assert (Z.min (Z.min (b * mult) (2 ^ 64 - 1)) m = Z.min (b * 2 ^ (n - 1)) m) as ->.
  { unfold mult. case_decide as Hs.
    - rewrite Z.shiftl_1_l Z.mod_small; [|lia]. split; [lia|]. apply Z.pow_lt_mono_r; lia.
    - assert (2 ^ 64 <= 2 ^ (n - 1))%Z by (apply Z.pow_le_mono_r; lia).
      destruct (decide (b = 0)%Z) as [Hb0|]; [rewrite Hb0; lia|]. nia. }
  unfold MILLI in *. lia.
Qed.

Lemma backoff_duration_capped_doubling_witness :
  backoff_duration 4 (5 * MILLI) (1000 * 1000 * MILLI) =
    (Z.min (5 * MILLI / MILLI * 2 ^ (4 - 1)) (1000 * 1000 * MILLI / MILLI) * MILLI)%Z.
Proof. apply backoff_duration_capped_doubling; vm_compute; by split. Defined.

(** ** Witnesses: key [a] is added, handed out, added again and done *)

#[local] Existing Instance default_hash_order.

Definition wq_one : WorkQueueInner := (wq_add wq_new "a").1.

Lemma workqueue_exclusive_witness :
  ~ ("a" ∈ processing wq_one) /\ NoDup (wq_queue (get_turn wq_one 5 5).1).
Proof.
  destruct (workqueue_exclusive default_config [] wq_one 5 5 "a" (get_turn wq_one 5 5).1) as (H1 & _ & H2).
  - apply (wss_cons default_config wq_new None wq_one [] wq_one); [apply (ws_add default_config)|constructor].
  - vm_compute. reflexivity.
  - split; [exact H1|exact H2].
Defined.

(** The second add arrives while the key is processed, [done] comes too early:
    the key waits for its deadline. *)
Definition wq_busy : WorkQueueInner := (get_turn wq_one 5 5).1.

Lemma workqueue_loses_no_key_witness :
  pending (wq_done (wq_add wq_busy "a").1 "a" 7).1 "a" /\
  exists i, get_turn (wq_done (wq_add wq_busy "a").1 "a" 7).1 (1000 * MILLI) 0 = (i, GotKey "a").
Proof.
  destruct (workqueue_loses_no_key default_config ["a"] wq_busy "a" [] (wq_done (wq_add wq_busy "a").1 "a" 7).1)
    as [[]%elem_of_nil|(Hp & _ & Hg)].
  - apply (wss_cons default_config wq_new None wq_one ["a"] wq_busy); [apply (ws_add default_config)|].
    apply (wss_cons default_config wq_one (Some "a") wq_busy [] wq_busy); [|constructor].
    apply (ws_get default_config _ 5 5). vm_compute. reflexivity.
  - vm_compute. reflexivity.
  - apply (wss_cons default_config _ None (wq_done (wq_add wq_busy "a").1 "a" 7).1 []); [|constructor].
    apply (ws_done default_config). apply elem_of_union_l, elem_of_singleton. reflexivity.
  - split; [exact Hp|]. destruct (Hg (1000 * MILLI) 0)%Z as (k & i & Hget & _); [by apply (bool_decide_unpack _)|by left| |].
    + intros t Ht. vm_compute in Ht. injection Ht as <-. vm_compute. discriminate.
    + pose proof Hget as Hk. vm_compute in Hk. injection Hk as _ <-. by exists i.
Defined.

Lemma workqueue_fifo_witness :
  exists arrivals, wq_queue wq_one ++ arrivals = ["a"] ++ wq_queue wq_busy.
Proof.
  apply (workqueue_fifo default_config wq_one ["a"] wq_busy).
  apply (wss_cons default_config wq_one (Some "a") wq_busy [] wq_busy); [|constructor].
  apply (ws_get default_config _ 5 5). vm_compute. reflexivity.
Defined.
