(* ===== verification/AllocBitmap.v ===== *)
(** * The allocation bitmap of service ranges

    Model of [crates/api-server/src/registry/core/service/allocator/mod.rs]:
    the bitmap behind the node-port and cluster-IP allocators.

    - A [usize] is a [nat], a [u64] word a [Z] in [0, 2^64), a byte a [Z] in
      [0, 256).
    - The random start positions of the scan are arguments; [None] from
      [random_scan_with_offset] and [free] is the panic of an empty range or of
      an underflow.
    - [Error::Internal(msg)] is [Err msg]. *)

From Stdlib Require Import Sorted DecimalString.
From S2P Require Import Prelude.

(** [format!("{n}")] for a [usize]. *)
Definition show_nat (n : nat) : string := NilZero.string_of_uint (Nat.to_uint n).

Record AllocationBitmap := mkBitmap {
  bm_offset : nat;
  bm_max : nat;
  bm_range_spec : string;
  bm_count : nat;
  bm_words : list Z
}.

Definition with_offset (max : nat) (range_spec : string) (offset : nat) : AllocationBitmap :=
  mkBitmap offset max range_spec 0 [].

Definition bitmap_new (max : nat) (range_spec : string) : AllocationBitmap :=
  with_offset max range_spec 0.

(** ** Words *)

Definition WORD_MAX : Z := 2 ^ 64 - 1.

(** [1 << (at % 64)] *)
Definition mask (at_ : nat) : Z := Z.shiftl 1 (Z.of_nat (at_ mod 64)).

Definition words_bit (ws : list Z) (at_ : nat) : bool :=
  match ws !! (at_ / 64) with
  | Some w => negb (bool_decide (Z.land w (mask at_) = 0%Z))
  | None => false
  end.

(** [while words.last() == Some(&0) { words.pop(); }] *)
Fixpoint normalise (ws : list Z) : list Z :=
  match ws with
  | [] => []
  | w :: ws' =>
      match normalise ws' with
      | [] => if decide (w = 0%Z) then [] else [w]
      | ws'' => w :: ws''
      end
  end.

(** [Vec::resize(n, 0)], for a vector not longer than [n]. *)
Definition resize (ws : list Z) (n : nat) : list Z := ws ++ replicate (n - length ws) 0%Z.

Definition words_set_bit (ws : list Z) (at_ : nat) (on : bool) : list Z :=
  let word := at_ / 64 in
  if on then
    let ws' := if decide (length ws <= word) then resize ws (word + 1) else ws in
    alter (fun w => Z.lor w (mask at_)) word ws'
  else
    match ws !! word with
    | Some w => normalise (<[word := Z.land w (Z.lxor WORD_MAX (mask at_))]> ws)
    | None => ws
    end.

Definition bit (b : AllocationBitmap) (at_ : nat) : bool := words_bit (bm_words b) at_.

Definition set_bit (b : AllocationBitmap) (at_ : nat) (on : bool) : AllocationBitmap :=
  mkBitmap (bm_offset b) (bm_max b) (bm_range_spec b) (bm_count b) (words_set_bit (bm_words b) at_ on).

Definition set_count (b : AllocationBitmap) (n : nat) : AllocationBitmap :=
  mkBitmap (bm_offset b) (bm_max b) (bm_range_spec b) n (bm_words b).

(** ** Operations *)

Definition allocate (b : AllocationBitmap) (offset : nat) : AllocationBitmap * result bool string :=
  if decide (bm_max b <= offset) then
    (b, Err ("offset " +:+ show_nat offset +:+ " out of range [0," +:+ show_nat (bm_max b) +:+ "]"))
  else if bit b offset then (b, Ok false)
  else (set_count (set_bit b offset true) (bm_count b + 1), Ok true).

(** A loop [for i in 0..n] that returns the first free position of the band
    [base, base + n), from [start] on and around. *)
Definition scan (b : AllocationBitmap) (base n start : nat) : option nat :=
  List.find (fun at_ => negb (bit b at_)) ((fun i => base + (start + i) mod n) <$> seq 0 n).

(** [start1] and [start2] are the two draws of [random_range]; [None] is its
    panic on an empty range, or the underflow of [max - offset]. *)
Definition random_scan_with_offset (b : AllocationBitmap) (start1 start2 : nat) : option (option nat) :=
  if decide (bm_max b <= bm_count b) then Some None
  else if decide (bm_max b <= bm_offset b) then None
  else
    match scan b (bm_offset b) (bm_max b - bm_offset b) start1 with
    | Some at_ => Some (Some at_)
    | None =>
        if decide (bm_offset b = 0) then Some None
        else Some (scan b 0 (bm_offset b) start2)
    end.

Definition allocate_next (b : AllocationBitmap) (start1 start2 : nat)
    : option (AllocationBitmap * option nat) :=
  next ← random_scan_with_offset b start1 start2;
  Some (match next with
        | None => (b, None)
        | Some next => (set_bit (set_count b (bm_count b + 1)) next true, Some next)
        end).

Definition release (b : AllocationBitmap) (offset : nat) : AllocationBitmap :=
  if negb (bit b offset) then b
  else
    let b' := set_bit b offset false in
    set_count b' (bm_count b' - 1).

(** [u64::trailing_zeros] *)
Definition trailing_zeros (w : Z) : nat :=
  default 64 (List.find (fun n => Z.testbit w (Z.of_nat n)) (seq 0 64)).

(** The [while w != 0] loop over one word; every turn clears one bit, so 64
    turns are enough. *)
Fixpoint word_bits (fuel : nat) (base : nat) (w : Z) : list nat :=
  match fuel with
  | 0 => []
  | S fuel' =>
      if decide (w = 0%Z) then []
      else base + trailing_zeros w :: word_bits fuel' base (Z.land w (w - 1))
  end.

Fixpoint words_bits (i : nat) (ws : list Z) : list nat :=
  match ws with
  | [] => []
  | w :: ws' => word_bits 64 (i * 64) w ++ words_bits (S i) ws'
  end.

Definition allocated (b : AllocationBitmap) : list nat := words_bits 0 (bm_words b).

Definition bm_has (b : AllocationBitmap) (offset : nat) : bool := bit b offset.

Definition bm_free (b : AllocationBitmap) : option nat :=
  if decide (bm_count b <= bm_max b) then Some (bm_max b - bm_count b) else None.

(** ** Snapshots *)

(** [u64::to_be_bytes] and [u64::from_be_bytes] *)
Definition to_be_bytes (w : Z) : list Z :=
  (fun n => Z.land (Z.shiftr w (Z.of_nat (8 * (7 - n)))) 255) <$> seq 0 8.
Definition from_be_bytes (l : list Z) : Z := foldl (fun acc x => acc * 256 + x)%Z 0%Z l.

(** [take_while(|b| **b == 0).count()] and [drain(..leading)] *)
Fixpoint strip_zeros (l : list Z) : list Z :=
  match l with
  | x :: l' => if decide (x = 0%Z) then strip_zeros l' else l
  | [] => []
  end.

Definition snapshot (b : AllocationBitmap) : string * list Z :=
  (bm_range_spec b, strip_zeros (flat_map to_be_bytes (reverse (bm_words b)))).

(** [slice::rchunks(n)]: chunks of [n] from the end; [fuel] bounds their number. *)
Fixpoint rchunks (fuel n : nat) (l : list Z) : list (list Z) :=
  match fuel with
  | 0 => []
  | S fuel' =>
      if decide (l = []) then []
      else drop (length l - n) l :: rchunks fuel' n (take (length l - n) l)
  end.

(** The word of one chunk: [buf[8 - chunk.len()..].copy_from_slice(chunk)]. *)
Definition chunk_word (chunk : list Z) : Z :=
  from_be_bytes (replicate (8 - length chunk) 0%Z ++ chunk).

(** [u64::count_ones] *)
Definition count_ones (w : Z) : nat :=
  length (filter (fun n => Z.testbit w (Z.of_nat n) = true) (seq 0 64)).

Definition restore (b : AllocationBitmap) (range_spec : string) (data : list Z)
    : AllocationBitmap * result unit string :=
  if decide (bm_range_spec b = range_spec) then
    let words := normalise (chunk_word <$> rchunks (length data) 8 data) in
    (mkBitmap (bm_offset b) (bm_max b) (bm_range_spec b)
       (sum_list (count_ones <$> words)) words, Ok tt)
  else (b, Err "the provided range does not match the current range").

(** ** Specification *)

Definition word_ok (w : Z) : Prop := (0 <= w <= WORD_MAX)%Z.

(** The set of allocated offsets. *)
Definition alloc_set (ws : list Z) : gset nat :=
  list_to_set (filter (fun at_ => words_bit ws at_ = true) (seq 0 (64 * length ws))).

(** "[count] is always the number of set bits", the words are normalised, and
    nothing beyond the range is taken. *)
Record bm_inv (b : AllocationBitmap) : Prop := {
  bi_words : Forall word_ok (bm_words b);
  bi_normal : last (bm_words b) <> Some 0%Z;
  bi_count : bm_count b = size (alloc_set (bm_words b));
  bi_range at_ : bit b at_ = true -> at_ < bm_max b;
  bi_offset : bm_max b = 0 \/ bm_offset b < bm_max b
}.

(** ** Bits *)

#[local] Arguments Nat.div : simpl never.
#[local] Arguments Nat.modulo : simpl never.
#[local] Arguments Nat.mul : simpl never.

Lemma testbit_mask at_ n : (0 <= n)%Z -> Z.testbit (mask at_) n = bool_decide (n = Z.of_nat (at_ mod 64)).
Proof.
  intros Hn. unfold mask. rewrite Z.shiftl_1_l Z.pow2_bits_eqb; [lia|].
  destruct (Z.eqb_spec (Z.of_nat (at_ mod 64)) n); case_bool_decide; congruence.
Qed.

Lemma land_mask w at_ :
  negb (bool_decide (Z.land w (mask at_) = 0%Z)) = Z.testbit w (Z.of_nat (at_ mod 64)).
Proof.
  destruct (Z.testbit w (Z.of_nat (at_ mod 64))) eqn:Hb.
  - rewrite bool_decide_eq_false_2 //. intros H0.
    assert (Z.testbit (Z.land w (mask at_)) (Z.of_nat (at_ mod 64)) = true) as Ht.
    { rewrite Z.land_spec Hb testbit_mask; [lia|]. by rewrite bool_decide_eq_true_2. }
    by rewrite H0 Z.bits_0 in Ht.
  - rewrite bool_decide_eq_true_2 //. apply Z.bits_inj'. intros n Hn.
    rewrite Z.land_spec Z.bits_0 testbit_mask //. case_bool_decide as Hc; [|by rewrite andb_false_r].
    by rewrite Hc Hb.
Qed.

Lemma words_bit_eq ws at_ :
  words_bit ws at_ = match ws !! (at_ / 64) with
                     | Some w => Z.testbit w (Z.of_nat (at_ mod 64))
                     | None => false
                     end.
Proof. unfold words_bit. destruct (ws !! _); [apply land_mask|done]. Qed.

Lemma words_bit_lt ws at_ : words_bit ws at_ = true -> at_ < 64 * length ws.
Proof.
  rewrite words_bit_eq. destruct (ws !! (at_ / 64)) as [w|] eqn:Hw; [|done]. intros _.
  apply lookup_lt_Some in Hw. pose proof (Nat.div_mod_eq at_ 64). pose proof (Nat.mod_upper_bound at_ 64). lia.
Qed.

Lemma elem_of_alloc_set ws at_ : at_ ∈ alloc_set ws <-> words_bit ws at_ = true.
Proof.
  unfold alloc_set. rewrite elem_of_list_to_set list_elem_of_filter elem_of_seq. split; [tauto|].
  intros H. pose proof (words_bit_lt _ _ H). split; [done|]. lia.
Qed.

Lemma divmod_inj x y : x / 64 = y / 64 -> x mod 64 = y mod 64 -> x = y.
Proof. intros. rewrite (Nat.div_mod_eq x 64) (Nat.div_mod_eq y 64). congruence. Qed.

Lemma word_ok_bits w : (0 <= w)%Z -> word_ok w <-> forall n, (64 <= n)%Z -> Z.testbit w n = false.
Proof.
  intros Hw. unfold word_ok, WORD_MAX. rewrite -(Z.bounded_iff_bits_nonneg 64 w); lia.
Qed.

(** *** Normalising *)

Lemma normalise_app ws : exists n, ws = normalise ws ++ replicate n 0%Z.
Proof.
  induction ws as [|w ws [n IH]]; simpl; [by exists 0|].
  destruct (normalise ws) as [|w' ws'] eqn:Hn.
  - case_decide as Hw; [exists (S n); by rewrite IH Hw|exists n; by rewrite {1}IH].
  - exists n. by rewrite {1}IH.
Qed.

Lemma normalise_last ws : last (normalise ws) <> Some 0%Z.
Proof.
  induction ws as [|w ws IH]; simpl; [done|].
  destruct (normalise ws) as [|w' ws'] eqn:Hn; [case_decide; simpl; congruence|]. by rewrite last_cons_cons.
Qed.

Lemma normalise_id ws : last ws <> Some 0%Z -> normalise ws = ws.
Proof.
  induction ws as [|w ws IH]; simpl; [done|]. destruct ws as [|w' ws'].
  - simpl. intros Hw. rewrite decide_False //. congruence.
  - rewrite last_cons_cons. intros Hl. rewrite IH //.
Qed.

Lemma normalise_ok ws : Forall word_ok ws -> Forall word_ok (normalise ws).
Proof.
  destruct (normalise_app ws) as [n Hn]. rewrite {1}Hn. by intros [? _]%Forall_app.
Qed.

Lemma words_bit_normalise ws at_ : words_bit (normalise ws) at_ = words_bit ws at_.
Proof.
  destruct (normalise_app ws) as [n Hn]. rewrite {2}Hn !words_bit_eq lookup_app.
  destruct (normalise ws !! (at_ / 64)); [done|].
  destruct (replicate n 0%Z !! _) as [w|] eqn:Hw; [|done].
  apply lookup_replicate in Hw as [-> _]. by rewrite Z.bits_0.
Qed.

(** *** Setting and clearing *)

Lemma lookup_resize ws n i :
  resize ws n !! i = match ws !! i with Some w => Some w | None => if decide (length ws <= i < n) then Some 0%Z else None end.
Proof.
  unfold resize. rewrite lookup_app. destruct (ws !! i) eqn:Hi; [done|]. apply lookup_ge_None in Hi.
  case_decide; [apply lookup_replicate_2; lia|]. apply lookup_replicate_None. lia.
Qed.

Lemma words_bit_set_true ws at_ x :
  words_bit (words_set_bit ws at_ true) x = bool_decide (x = at_) || words_bit ws x.
Proof.
  unfold words_set_bit. set (ws' := if decide _ then _ else _).
  assert (forall y, words_bit ws' y = words_bit ws y) as Hsame.
  { intros y. subst ws'. case_decide; [|done]. rewrite !words_bit_eq lookup_resize.
    destruct (ws !! (y / 64)); [done|]. case_decide; [by rewrite Z.bits_0|done]. }
  assert (is_Some (ws' !! (at_ / 64))) as [w Hw].
  { subst ws'. case_decide; [|apply lookup_lt_is_Some; lia]. rewrite lookup_resize.
    destruct (ws !! (at_ / 64)) eqn:Hl; [done|]. apply lookup_ge_None in Hl. rewrite decide_True; [lia|done]. }
  rewrite -Hsame !words_bit_eq. destruct (decide (x / 64 = at_ / 64)) as [Heq|Hne].
  - rewrite Heq list_lookup_alter_eq Hw /= Z.lor_spec testbit_mask; [lia|].
    destruct (decide (x = at_)) as [->|Hx]; [by rewrite !bool_decide_eq_true_2 // orb_true_r|].
    rewrite !bool_decide_eq_false_2 //; [|by rewrite orb_false_r].
    intros Hm%Nat2Z.inj. by apply Hx, divmod_inj.
  - rewrite list_lookup_alter_ne // bool_decide_eq_false_2 //. congruence.
Qed.

Lemma words_bit_set_false ws at_ x :
  Forall word_ok ws ->
  words_bit (words_set_bit ws at_ false) x = negb (bool_decide (x = at_)) && words_bit ws x.
Proof.
  intros Hok. unfold words_set_bit. destruct (ws !! (at_ / 64)) as [w|] eqn:Hw; last first.
  { case_bool_decide; [subst|done]. simpl. by rewrite words_bit_eq Hw. }
  rewrite words_bit_normalise !words_bit_eq. pose proof (Forall_lookup_1 _ _ _ _ Hok Hw) as Hwok.
  destruct (decide (x / 64 = at_ / 64)) as [Heq|Hne].
  - rewrite Heq list_lookup_insert_eq; [by eapply lookup_lt_Some|]. rewrite Hw.
    rewrite Z.land_spec Z.lxor_spec testbit_mask; [lia|].
    assert (Z.testbit WORD_MAX (Z.of_nat (x mod 64)) = true) as ->.
    { change WORD_MAX with (Z.ones 64). rewrite Z.ones_spec_low //. pose proof (Nat.mod_upper_bound x 64). lia. }
    destruct (decide (x = at_)) as [->|Hx]; [by rewrite !bool_decide_eq_true_2 // andb_false_r|].
    rewrite !bool_decide_eq_false_2 //; [|by rewrite andb_true_r].
    intros Hm%Nat2Z.inj. by apply Hx, divmod_inj.
  - rewrite list_lookup_insert_ne //. rewrite bool_decide_eq_false_2 //. congruence.
Qed.

Lemma alloc_set_set ws at_ : alloc_set (words_set_bit ws at_ true) = {[at_]} ∪ alloc_set ws.
Proof.
  apply set_eq. intros x. rewrite elem_of_union elem_of_singleton !elem_of_alloc_set words_bit_set_true.
  rewrite orb_true_iff bool_decide_eq_true. done.
Qed.

Lemma alloc_set_clear ws at_ :
  Forall word_ok ws -> alloc_set (words_set_bit ws at_ false) = alloc_set ws ∖ {[at_]}.
Proof.
  intros Hok. apply set_eq. intros x.
  rewrite elem_of_difference elem_of_singleton !elem_of_alloc_set words_bit_set_false //.
  rewrite andb_true_iff negb_true_iff bool_decide_eq_false. tauto.
Qed.

Lemma mask_ok at_ : word_ok (mask at_).
Proof.
  assert (0 <= mask at_)%Z as H0 by (unfold mask; rewrite Z.shiftl_1_l; lia).
  apply word_ok_bits; [done|]. intros n Hn. rewrite testbit_mask; [lia|].
  apply bool_decide_eq_false_2. pose proof (Nat.mod_upper_bound at_ 64). lia.
Qed.

Lemma word_ok_lor a b : word_ok a -> word_ok b -> word_ok (Z.lor a b).
Proof.
  intros Ha Hb. assert (0 <= Z.lor a b)%Z by (apply Z.lor_nonneg; unfold word_ok in *; lia).
  apply word_ok_bits; [done|]. intros n Hn. rewrite Z.lor_spec.
  rewrite (proj1 (word_ok_bits a _) Ha) // ?(proj1 (word_ok_bits b _) Hb) //; unfold word_ok in *; lia.
Qed.

Lemma word_ok_land a b : word_ok a -> word_ok (Z.land a b).
Proof.
  intros Ha. assert (0 <= Z.land a b)%Z by (apply Z.land_nonneg; unfold word_ok in *; lia).
  apply word_ok_bits; [done|]. intros n Hn. rewrite Z.land_spec.
  rewrite (proj1 (word_ok_bits a _) Ha) //; unfold word_ok in *; lia.
Qed.

Lemma words_ok_set ws at_ : Forall word_ok ws -> Forall word_ok (words_set_bit ws at_ true).
Proof.
  intros Hok. unfold words_set_bit. apply Forall_alter.
  - case_decide; [|done]. apply Forall_app. split; [done|]. apply Forall_replicate.
    unfold word_ok, WORD_MAX. lia.
  - intros w _ Hw. by apply word_ok_lor, mask_ok.
Qed.

Lemma words_ok_clear ws at_ : Forall word_ok ws -> Forall word_ok (words_set_bit ws at_ false).
Proof.
  intros Hok. unfold words_set_bit. destruct (ws !! _) as [w|] eqn:Hw; [|done].
  apply normalise_ok, Forall_insert; [done|]. apply word_ok_land. by eapply Forall_lookup_1.
Qed.

Lemma last_alter_ne0 (f : Z -> Z) i ws :
  (forall w, f w <> 0%Z \/ f w = w) -> last ws <> Some 0%Z -> last (alter f i ws) <> Some 0%Z.
Proof.
  intros Hf. rewrite !last_lookup length_alter. destruct (decide (i = pred (length ws))) as [->|Hne].
  - rewrite list_lookup_alter_eq. destruct (ws !! _) as [w|]; [|done]. simpl. destruct (Hf w); congruence.
  - by rewrite list_lookup_alter_ne.
Qed.

Lemma lor_mask_ne0 w at_ : Z.lor w (mask at_) <> 0%Z.
Proof.
  intros H0. assert (Z.testbit (Z.lor w (mask at_)) (Z.of_nat (at_ mod 64)) = true) as Ht.
  { rewrite Z.lor_spec testbit_mask; [lia|]. by rewrite bool_decide_eq_true_2 // orb_true_r. }
  by rewrite H0 Z.bits_0 in Ht.
Qed.

Lemma normal_set ws at_ : last ws <> Some 0%Z -> last (words_set_bit ws at_ true) <> Some 0%Z.
Proof.
  intros Hl. unfold words_set_bit. case_decide as Hlen.
  - rewrite last_lookup length_alter. unfold resize. rewrite length_app length_replicate.
    replace (pred (length ws + (at_ / 64 + 1 - length ws))) with (at_ / 64) by lia.
    rewrite list_lookup_alter_eq. destruct ((ws ++ _) !! _) as [w|]; [|done]. simpl.
    intros [= Hw]. by apply lor_mask_ne0 in Hw.
  - apply last_alter_ne0; [|done]. intros w. left. apply lor_mask_ne0.
Qed.

Lemma normal_clear ws at_ : last ws <> Some 0%Z -> last (words_set_bit ws at_ false) <> Some 0%Z.
Proof. intros Hl. unfold words_set_bit. destruct (ws !! _); [apply normalise_last|done]. Qed.

(** ** The operations against the set of allocated offsets *)

Section Ops.
Implicit Types (b : AllocationBitmap).

Definition taken b : gset nat := alloc_set (bm_words b).

Lemma elem_of_taken b at_ : at_ ∈ taken b <-> bit b at_ = true.
Proof. apply elem_of_alloc_set. Qed.

Lemma not_taken b at_ : bit b at_ = false <-> at_ ∉ taken b.
Proof. rewrite elem_of_taken. by destruct (bit b at_). Qed.

Lemma inv_with_offset max range offset : max = 0 \/ offset < max -> bm_inv (with_offset max range offset).
Proof. intros H. split; simpl; [constructor|done|done| |done]. intros at_. unfold bit. by rewrite words_bit_eq. Qed.

(** Taking a free offset of the range. *)
Lemma take_inv b at_ :
  bm_inv b -> at_ ∉ taken b -> at_ < bm_max b ->
  let b' := mkBitmap (bm_offset b) (bm_max b) (bm_range_spec b) (bm_count b + 1)
              (words_set_bit (bm_words b) at_ true) in
  bm_inv b' /\ taken b' = {[at_]} ∪ taken b.
Proof.
  intros [Hw Hn Hc Hr Ho] Ht Hm b'. assert (taken b' = {[at_]} ∪ taken b) as Htk by apply alloc_set_set.
  split; [|done]. split; simpl.
  - by apply words_ok_set.
  - by apply normal_set.
  - rewrite alloc_set_set Hc -/(taken b) size_union; [set_solver|]. rewrite size_singleton. lia.
  - intros x. rewrite -(elem_of_taken b') Htk elem_of_union elem_of_singleton elem_of_taken.
    intros [->|?]; [done|by apply Hr].
  - done.
Qed.

Lemma allocate_spec b at_ :
  bm_inv b ->
  let '(b', r) := allocate b at_ in
  bm_inv b' /\ bm_max b' = bm_max b /\ bm_offset b' = bm_offset b /\ bm_range_spec b' = bm_range_spec b /\
  match r with
  | Ok true => at_ < bm_max b /\ (at_ ∉ taken b) /\ taken b' = {[at_]} ∪ taken b
  | Ok false => at_ < bm_max b /\ at_ ∈ taken b /\ b' = b
  | Err _ => bm_max b <= at_ /\ b' = b
  end.
Proof.
  intros Hi. unfold allocate. case_decide; [done|]. destruct (bit b at_) eqn:Hb.
  - split_and!; try done; [lia|by apply elem_of_taken].
  - destruct (take_inv b at_ Hi) as [Hi' Ht]; [by apply not_taken|lia|].
    split_and!; try done; [lia|by apply not_taken].
Qed.

Lemma release_spec b at_ :
  bm_inv b ->
  let b' := release b at_ in
  bm_inv b' /\ bm_max b' = bm_max b /\ bm_offset b' = bm_offset b /\ bm_range_spec b' = bm_range_spec b /\
  taken b' = taken b ∖ {[at_]}.
Proof.
  intros Hi. pose proof Hi as [Hw Hn Hc Hr Ho]. unfold release. destruct (bit b at_) eqn:Hb; simpl; last first.
  { split_and!; try done. apply not_taken in Hb. set_solver. }
  set (b' := set_count _ _). assert (taken b' = taken b ∖ {[at_]}) as Ht by by apply alloc_set_clear.
  split_and!; try done. split; simpl.
  - by apply words_ok_clear.
  - by apply normal_clear.
  - rewrite alloc_set_clear // Hc -/(taken b).
    apply elem_of_taken in Hb. rewrite size_difference; [set_solver|]. by rewrite size_singleton.
  - intros x. rewrite -(elem_of_taken b') Ht elem_of_difference elem_of_taken. intros [? _]. by apply Hr.
  - done.
Qed.

(** *** Scanning *)

(** The scan visits the whole band [base, base + n). *)
Lemma scan_band base n start at_ :
  start < n -> at_ ∈ ((fun i => base + (start + i) mod n) <$> seq 0 n) <-> base <= at_ < base + n.
Proof.
  intros Hs. rewrite list_elem_of_fmap. split.
  - intros (i & -> & _). pose proof (Nat.mod_upper_bound (start + i) n). lia.
  - intros Hat. exists ((at_ - base + (n - start)) mod n). rewrite elem_of_seq.
    pose proof (Nat.mod_upper_bound (at_ - base + (n - start)) n). split; [|lia].
    rewrite Nat.Div0.add_mod_idemp_r.
    replace (start + (at_ - base + (n - start))) with (at_ - base + 1 * n) by lia.
    rewrite Nat.Div0.mod_add Nat.mod_small; lia.
Qed.

Lemma scan_spec b base n start :
  start < n ->
  match scan b base n start with
  | Some at_ => base <= at_ < base + n /\ at_ ∉ taken b
  | None => forall at_, base <= at_ < base + n -> at_ ∈ taken b
  end.
Proof.
  intros Hs. unfold scan. destruct (List.find _ _) as [at_|] eqn:Hf.
  - apply List.find_some in Hf as [Hin Hb]. apply list_elem_of_In, scan_band in Hin; [|done].
    split; [done|]. apply not_taken. by apply negb_true_iff.
  - intros at_ Hat. pose proof (List.find_none _ _ Hf at_) as Hn. apply elem_of_taken.
    apply negb_false_iff, Hn, list_elem_of_In. by apply scan_band.
Qed.

Lemma taken_full b : bm_inv b -> bm_max b <= bm_count b <-> forall at_, at_ < bm_max b -> at_ ∈ taken b.
Proof.
  intros [_ _ Hc Hr _]. assert (taken b ⊆ list_to_set (seq 0 (bm_max b))) as Hsub.
  { intros x Hx%elem_of_taken%Hr. apply elem_of_list_to_set, elem_of_seq. lia. }
  assert (size (list_to_set (seq 0 (bm_max b)) : gset nat) = bm_max b) as Hsz.
  { rewrite size_list_to_set; [apply NoDup_seq|]. apply length_seq. }
  fold (taken b) in Hc. split.
  - intros Hle at_ Hat. assert (taken b ≡ list_to_set (seq 0 (bm_max b))) as ->.
    { apply set_subseteq_size_equiv; [done|]. lia. }
    apply elem_of_list_to_set, elem_of_seq. lia.
  - intros Hall. rewrite Hc -{1}Hsz. apply subseteq_size. intros x. rewrite elem_of_list_to_set elem_of_seq.
    intros [_ Hx]. by apply Hall.
Qed.

Lemma allocate_next_spec b start1 start2 :
  bm_inv b -> start1 < bm_max b - bm_offset b \/ bm_max b = 0 -> start2 < bm_offset b \/ bm_offset b = 0 ->
  exists b' r, allocate_next b start1 start2 = Some (b', r) /\ bm_inv b' /\
    bm_max b' = bm_max b /\ bm_offset b' = bm_offset b /\ bm_range_spec b' = bm_range_spec b /\
    match r with
    | Some at_ => at_ < bm_max b /\ (at_ ∉ taken b) /\ taken b' = {[at_]} ∪ taken b /\
        (at_ < bm_offset b -> forall x, bm_offset b <= x < bm_max b -> x ∈ taken b)
    | None => b' = b /\ forall x, x < bm_max b -> x ∈ taken b
    end.
Proof.
  intros Hi H1 H2. pose proof (taken_full b Hi) as Hfull. pose proof (bi_offset _ Hi) as Ho.
  unfold allocate_next, random_scan_with_offset. case_decide as Hc.
  { exists b, None. simpl. split_and!; try done. by apply Hfull. }
  assert (bm_offset b < bm_max b) as Hlt by (destruct Ho as [Hz|?]; [|done]; lia).
  rewrite decide_False; [lia|].
  pose proof (scan_spec b (bm_offset b) (bm_max b - bm_offset b) start1) as Hs1.
  destruct (scan b (bm_offset b) _ start1) as [at_|].
  { destruct Hs1 as [Hr Ht]; [lia|]. destruct (take_inv b at_ Hi Ht) as [Hi' Ht']; [lia|].
    simpl. eexists _, (Some at_). split; [done|]. split; [exact Hi'|]. simpl. split_and!; try done; lia. }
  assert (forall x, bm_offset b <= x < bm_max b -> x ∈ taken b) as Hup by (intros; apply Hs1; lia).
  case_decide as Hz.
  { exists b, None. simpl. split_and!; try done. intros x Hx. apply Hup. lia. }
  pose proof (scan_spec b 0 (bm_offset b) start2) as Hs2.
  destruct (scan b 0 (bm_offset b) start2) as [at_|].
  - destruct Hs2 as [Hr Ht]; [lia|]. destruct (take_inv b at_ Hi Ht) as [Hi' Ht']; [lia|].
    simpl. eexists _, (Some at_). split; [done|]. split; [exact Hi'|]. simpl. split_and!; try done; lia.
  - exists b, None. simpl. split_and!; try done. intros x Hx. destruct (decide (x < bm_offset b)).
    + apply Hs2; lia.
    + apply Hup. lia.
Qed.

End Ops.

(** ** Listing the allocated offsets *)

Lemma find_seq_min (f : nat -> bool) a n x :
  List.find f (seq a n) = Some x -> a <= x < a + n /\ f x = true /\ forall y, a <= y < x -> f y = false.
Proof.
  revert a. induction n as [|n IH]; intros a; simpl; [done|]. destruct (f a) eqn:Ha.
  - intros [= <-]. split_and!; [lia|lia|done|]. intros; lia.
  - intros (Hx & Hf & Hy)%IH. split_and!; [lia|lia|done|]. intros y Hy'.
    destruct (decide (y = a)) as [->|]; [done|]. apply Hy. lia.
Qed.

Lemma trailing_zeros_spec w :
  word_ok w -> w <> 0%Z ->
  trailing_zeros w < 64 /\ Z.testbit w (Z.of_nat (trailing_zeros w)) = true /\
  forall n, n < trailing_zeros w -> Z.testbit w (Z.of_nat n) = false.
Proof.
  intros Hok Hw. unfold trailing_zeros. destruct (List.find _ _) as [t|] eqn:Hf; simpl.
  - apply find_seq_min in Hf as (Ht & Hb & Hmin). split_and!; [lia|done|]. intros n Hn. apply Hmin. lia.
  - destruct Hw. apply Z.bits_inj'. intros n Hn. rewrite Z.bits_0.
    destruct (decide (n < 64)%Z) as [Hlt|Hge].
    + pose proof (List.find_none _ _ Hf (Z.to_nat n)) as Hnone. cbv beta in Hnone.
      rewrite Z2Nat.id // in Hnone. apply Hnone, list_elem_of_In, elem_of_seq. lia.
    + apply (proj1 (word_ok_bits w ltac:(unfold word_ok in *; lia)) Hok). lia.
Qed.

(** [w & (w - 1)] clears the lowest set bit. *)
Lemma clear_lowest w t n :
  (0 <= w)%Z -> Z.testbit w (Z.of_nat t) = true ->
  (forall m, m < t -> Z.testbit w (Z.of_nat m) = false) -> (0 <= n)%Z ->
  Z.testbit (Z.land w (w - 1)) n = Z.testbit w n && negb (bool_decide (n = Z.of_nat t)).
Proof.
  intros Hw Ht Hlow Hn. rewrite Z.land_spec. set (T := Z.of_nat t) in *.
  assert (forall m, (0 <= m < T)%Z -> Z.testbit w m = false) as Hlow'.
  { intros m Hm. rewrite -(Z2Nat.id m); [lia|]. apply Hlow. lia. }
  destruct (decide (n < T)%Z) as [Hlt|Hge]; [by rewrite Hlow'|].
  set (m := Z.shiftr w T).
  assert (w = m * 2 ^ T)%Z as Hwm.
  { rewrite -Z.shiftl_mul_pow2; [lia|]. apply Z.bits_inj'. intros k Hk. rewrite Z.shiftl_spec //.
    destruct (decide (k < T)%Z); [rewrite Hlow' // Z.testbit_neg_r //; lia|].
    unfold m. rewrite Z.shiftr_spec; [lia|]. f_equal. lia. }
  assert (Z.odd m = true) as Hodd.
  { rewrite -Z.bit0_odd. unfold m. rewrite Z.shiftr_spec //. }
  apply Z.odd_spec in Hodd as [k Hk].
  assert (Z.shiftr (w - 1) T = 2 * k)%Z as Hshift.
  { rewrite Z.shiftr_div_pow2; [lia|]. assert (0 < 2 ^ T)%Z by (apply Z.pow_pos_nonneg; lia).
    symmetry. apply (Z.div_unique _ _ _ (2 ^ T - 1)); nia. }
  assert (Z.testbit (w - 1) n = Z.testbit (2 * k) (n - T)) as ->.
  { rewrite -Hshift Z.shiftr_spec; [lia|]. f_equal. lia. }
  assert (Z.testbit w n = Z.testbit (2 * k + 1) (n - T)) as ->.
  { rewrite -Hk. unfold m. rewrite Z.shiftr_spec; [lia|]. f_equal. lia. }
  destruct (decide (n = T)) as [->|Hne].
  - by rewrite Z.sub_diag Z.testbit_even_0 bool_decide_eq_true_2 // andb_false_r.
  - rewrite bool_decide_eq_false_2 // andb_true_r.
    replace (n - T)%Z with (Z.succ (n - T - 1)) by lia.
    rewrite Z.testbit_even_succ ?Z.testbit_odd_succ; [lia|lia|]. apply andb_diag.
Qed.

Lemma word_bits_spec fuel base w :
  word_ok w -> (forall n, n < 64 - fuel -> Z.testbit w (Z.of_nat n) = false) ->
  (forall x, x ∈ word_bits fuel base w <-> exists n, x = base + n /\ n < 64 /\ Z.testbit w (Z.of_nat n) = true) /\
  StronglySorted lt (word_bits fuel base w).
Proof.
  revert w. induction fuel as [|fuel IH]; intros w Hok Hlow; simpl.
  { split; [|constructor]. intros x. split; [set_solver|]. intros (n & _ & Hn & Hb). rewrite Hlow in Hb; [lia|done]. }
  case_decide as Hw.
  { split; [|constructor]. intros x. split; [set_solver|]. intros (n & _ & _ & Hb). by rewrite Hw Z.bits_0 in Hb. }
  destruct (trailing_zeros_spec w Hok Hw) as (Ht & Hb & Hmin). set (t := trailing_zeros w) in *.
  assert (forall n, Z.testbit (Z.land w (w - 1)) (Z.of_nat n) =
    Z.testbit w (Z.of_nat n) && negb (bool_decide (n = t))) as Hclear.
  { intros n. rewrite (clear_lowest w t); [unfold word_ok in Hok; lia|done|done|lia|].
    do 2 f_equal. apply bool_decide_ext. lia. }
  destruct (IH (Z.land w (w - 1))) as [Hin Hs].
  { by apply word_ok_land. }
  { intros n Hn. rewrite Hclear. destruct (decide (n < t)) as [|Hge]; [by rewrite Hmin|].
    assert (n = t) as ->; [|by rewrite bool_decide_eq_true_2 // andb_false_r].
    assert (64 - S fuel <= t); [|lia]. destruct (decide (t < 64 - S fuel)) as [Hlt|]; [|lia].
    rewrite Hlow // in Hb. }
  split.
  - intros x. rewrite elem_of_cons Hin. split.
    + intros [->|(n & -> & ? & Hn)]; [eauto|]. exists n. rewrite Hclear in Hn. apply andb_true_iff in Hn as [? _]. done.
    + intros (n & -> & Hn & Hbn). destruct (decide (n = t)) as [->|Hne]; [by left|right].
      exists n. by rewrite Hclear Hbn bool_decide_eq_false_2.
  - constructor; [done|]. apply Forall_forall. intros x (n & -> & ? & Hn)%Hin.
    rewrite Hclear in Hn. apply andb_true_iff in Hn as [Hn Hne%negb_true_iff%bool_decide_eq_false].
    destruct (decide (n < t)) as [Hlt|]; [by rewrite Hmin in Hn|]. lia.
Qed.

Lemma words_bit_cons w ws x :
  words_bit (w :: ws) x = if decide (x < 64) then Z.testbit w (Z.of_nat x) else words_bit ws (x - 64).
Proof.
  rewrite words_bit_eq. case_decide.
  - rewrite Nat.div_small // Nat.mod_small //.
  - rewrite words_bit_eq.
    assert (x / 64 = S ((x - 64) / 64)) as ->.
    { replace x with (x - 64 + 1 * 64) at 1 by lia. rewrite Nat.div_add //. lia. }
    assert (x mod 64 = (x - 64) mod 64) as ->; [|done].
    replace x with (x - 64 + 1 * 64) at 1 by lia. by rewrite Nat.Div0.mod_add.
Qed.

Lemma sorted_app (l1 l2 : list nat) :
  StronglySorted lt l1 -> StronglySorted lt l2 -> (forall x y, x ∈ l1 -> y ∈ l2 -> x < y) ->
  StronglySorted lt (l1 ++ l2).
Proof.
  intros H1 H2 Hlt. induction l1 as [|x l1 IH]; simpl; [done|]. apply StronglySorted_inv in H1 as [H1 Hf].
  constructor; [apply IH; [done|set_solver]|]. apply Forall_app. split; [done|].
  apply Forall_forall. intros y Hy. apply Hlt; set_solver.
Qed.

Lemma words_bits_spec i ws :
  Forall word_ok ws ->
  (forall x, x ∈ words_bits i ws <-> i * 64 <= x /\ words_bit ws (x - i * 64) = true) /\
  StronglySorted lt (words_bits i ws).
Proof.
  revert i. induction ws as [|w ws IH]; intros i Hok; cbn [words_bits].
  { split; [|constructor]. intros x. rewrite words_bit_eq. set_solver. }
  apply Forall_cons in Hok as [Hw Hok]. destruct (IH (S i) Hok) as [Hin Hs].
  destruct (word_bits_spec 64 (i * 64) w Hw) as [Hinw Hsw]; [lia|]. split.
  - intros x. rewrite elem_of_app Hinw Hin words_bit_cons. split.
    + intros [(n & -> & Hn & Hb)|[Hx Hb]].
      * split; [lia|]. rewrite decide_True; [lia|]. by replace (i * 64 + n - i * 64) with n by lia.
      * split; [lia|]. rewrite decide_False; [lia|]. by replace (x - i * 64 - 64) with (x - S i * 64) by lia.
    + intros [Hx Hb]. case_decide as Hlt.
      * left. exists (x - i * 64). split_and!; [lia|done|done].
      * right. split; [lia|]. by replace (x - S i * 64) with (x - i * 64 - 64) by lia.
  - apply sorted_app; [done|done|]. intros x y (n & -> & Hn & _)%Hinw [Hy _]%Hin. lia.
Qed.

(** ** Snapshots *)

Lemma be_byte w n : Z.land (Z.shiftr w (Z.of_nat n)) 255 = (w / 2 ^ Z.of_nat n mod 256)%Z.
Proof.
  rewrite Z.shiftr_div_pow2; [lia|]. change 255%Z with (Z.ones 8). by rewrite Z.land_ones.
Qed.

Lemma from_be_snoc l x : from_be_bytes (l ++ [x]) = (from_be_bytes l * 256 + x)%Z.
Proof. unfold from_be_bytes. by rewrite foldl_app. Qed.

(** The [k] low bytes of [w], big-endian. *)
Lemma from_be_low w k :
  (0 <= w)%Z ->
  from_be_bytes ((fun n => Z.land (Z.shiftr w (Z.of_nat (8 * (k - 1 - n)))) 255) <$> seq 0 k) =
    (w mod 2 ^ Z.of_nat (8 * k))%Z.
Proof.
  intros Hw. revert w Hw. induction k as [|k IH]; intros w Hw; [by rewrite Z.mod_1_r|].
  rewrite seq_S fmap_app from_be_snoc. cbn [fmap list_fmap].
  replace (S k - 1 - (0 + k)) with 0 by lia. rewrite be_byte Nat.mul_0_r Z.pow_0_r Z.div_1_r.
  assert ((fun n => Z.land (Z.shiftr w (Z.of_nat (8 * (S k - 1 - n)))) 255) <$> seq 0 k =
    (fun n => Z.land (Z.shiftr (w / 256) (Z.of_nat (8 * (k - 1 - n)))) 255) <$> seq 0 k) as ->.
  { apply list_fmap_ext. intros i n [-> Hi]%lookup_seq. rewrite !be_byte.
    rewrite Z.div_div; [lia|lia|]. f_equal. f_equal. change 256%Z with (2 ^ 8)%Z.
    rewrite -Z.pow_add_r; [lia|lia|]. f_equal. lia. }
  rewrite IH; [apply Z.div_pos; lia|].
  replace (Z.of_nat (8 * S k)) with (8 + Z.of_nat (8 * k))%Z by lia.
  rewrite Z.pow_add_r; [lia|lia|]. change (2 ^ 8)%Z with 256%Z.
  rewrite Z.rem_mul_r; [lia|apply Z.pow_pos_nonneg; lia|]. lia.
Qed.

Lemma from_to_be w : word_ok w -> from_be_bytes (to_be_bytes w) = w.
Proof.
  intros Hw. unfold word_ok, WORD_MAX in Hw. unfold to_be_bytes. rewrite (from_be_low w 8); [lia|].
  apply Z.mod_small. split; [lia|]. change (2 ^ Z.of_nat (8 * 8))%Z with (2 ^ 64)%Z. lia.
Qed.

Lemma from_be_zeros n l : from_be_bytes (replicate n 0%Z ++ l) = from_be_bytes l.
Proof. induction n as [|n IH]; simpl; [done|]. exact IH. Qed.

Lemma chunk_word_eq chunk : chunk_word chunk = from_be_bytes chunk.
Proof. apply from_be_zeros. Qed.

Lemma strip_zeros_app l : exists n, l = replicate n 0%Z ++ strip_zeros l.
Proof.
  induction l as [|x l [n IH]]; simpl; [by exists 0|]. case_decide as Hx; [|by exists 0].
  exists (S n). by rewrite Hx {1}IH.
Qed.

Lemma strip_zeros_nonzero l1 l2 : strip_zeros l1 <> [] -> strip_zeros (l1 ++ l2) = strip_zeros l1 ++ l2.
Proof. induction l1 as [|x l1 IH]; simpl; [done|]. case_decide; auto. Qed.

Lemma from_be_strip l : from_be_bytes (strip_zeros l) = from_be_bytes l.
Proof. destruct (strip_zeros_app l) as [n Hn]. by rewrite {2}Hn from_be_zeros. Qed.

Lemma length_to_be w : length (to_be_bytes w) = 8.
Proof. done. Qed.

#[local] Opaque to_be_bytes.

Lemma strip_length l : length (strip_zeros l) <= length l.
Proof. destruct (strip_zeros_app l) as [n Hn]. rewrite {2}Hn length_app. lia. Qed.

Lemma strip_word_nonempty w : word_ok w -> w <> 0%Z -> strip_zeros (to_be_bytes w) <> [].
Proof.
  intros Hok Hw Hs. destruct Hw. rewrite -(from_to_be w Hok) -from_be_strip Hs. done.
Qed.

(** The bytes of a normalised word list start with a nonzero byte of the top
    word; read back from the end in eights they are the words again. *)
Lemma rchunks_words ws fuel :
  Forall word_ok ws -> last ws <> Some 0%Z ->
  let bytes := strip_zeros (flat_map to_be_bytes (reverse ws)) in
  length bytes <= fuel -> (ws <> [] -> bytes <> []) /\ from_be_bytes <$> rchunks fuel 8 bytes = ws.
Proof.
  revert fuel. induction ws as [|w ws IH]; intros fuel Hok Hl bytes Hf.
  { split; [done|]. destruct fuel; done. }
  apply Forall_cons in Hok as [Hw Hok].
  assert (flat_map to_be_bytes (reverse (w :: ws)) = flat_map to_be_bytes (reverse ws) ++ to_be_bytes w) as Happ.
  { by rewrite reverse_cons flat_map_app. }
  destruct (decide (ws = [])) as [->|Hne].
  - assert (bytes = strip_zeros (to_be_bytes w)) as Hb by (unfold bytes; by rewrite Happ).
    assert (bytes <> []) as Hnb by (rewrite Hb; apply strip_word_nonempty; [done|simpl in Hl; congruence]).
    split; [done|]. destruct fuel as [|fuel]; [destruct bytes; [done|simpl in Hf; lia]|].
    assert (length bytes <= 8) as Hlen by (rewrite Hb -(length_to_be w); apply strip_length).
    clearbody bytes. cbn [rchunks]. rewrite decide_False //. replace (length bytes - 8) with 0 by lia. rewrite drop_0 take_0.
    cbn [fmap list_fmap]. rewrite Hb from_be_strip from_to_be //. by destruct fuel.
  - assert (last ws <> Some 0%Z) as Hl' by (destruct ws; [done|by rewrite last_cons_cons in Hl]).
    destruct (IH (length (strip_zeros (flat_map to_be_bytes (reverse ws)))) Hok Hl') as [Hnb _]; [done|].
    specialize (Hnb Hne). set (b' := strip_zeros (flat_map to_be_bytes (reverse ws))) in *.
    assert (bytes = b' ++ to_be_bytes w) as Hb by (unfold bytes; rewrite Happ; by apply strip_zeros_nonzero).
    split; [rewrite Hb; by destruct b'|]. rewrite Hb in Hf |- *. rewrite length_app length_to_be in Hf.
    destruct fuel as [|fuel]; [lia|]. cbn [rchunks]. rewrite decide_False; [by destruct b'|].
    rewrite length_app length_to_be Nat.add_sub drop_app_length take_app_length.
    cbn [fmap list_fmap]. rewrite from_to_be //. f_equal.
    destruct (IH fuel Hok Hl') as [_ ->]; [|done]. fold b'. lia.
Qed.

(** ** Counting *)

Lemma size_alloc_set ws :
  size (alloc_set ws) = length (filter (fun at_ => words_bit ws at_ = true) (seq 0 (64 * length ws))).
Proof. unfold alloc_set. apply size_list_to_set, NoDup_filter, NoDup_seq. Qed.

Lemma filter_fmap_length {A B} (f : A -> B) (P : B -> bool) (Q : A -> bool) (l : list A) :
  (forall x, x ∈ l -> P (f x) = Q x) ->
  length (filter (fun y => P y = true) (f <$> l)) = length (filter (fun x => Q x = true) l).
Proof.
  induction l as [|x l IH]; intros H; [done|]. rewrite fmap_cons !filter_cons.
  rewrite H; [set_solver|]. case_decide; simpl; rewrite IH //; set_solver.
Qed.

Lemma sum_count_ones ws : sum_list (count_ones <$> ws) = size (alloc_set ws).
Proof.
  rewrite size_alloc_set. induction ws as [|w ws IH]; [done|].
  change (sum_list (count_ones <$> w :: ws)) with (count_ones w + sum_list (count_ones <$> ws)).
  replace (64 * length (w :: ws)) with (64 + 64 * length ws) by (cbn [length]; lia).
  rewrite seq_app filter_app length_app. f_equal.
  - unfold count_ones. rewrite -{2}(list_fmap_id (seq 0 64)). symmetry. apply filter_fmap_length.
    intros x [_ Hx]%elem_of_seq. rewrite words_bit_cons decide_True //.
  - rewrite IH. change (0 + 64) with (64 + 0). rewrite -(fmap_add_seq 64 0).
    symmetry. apply filter_fmap_length. intros x _. rewrite words_bit_cons. destruct (decide _); [lia|].
    f_equal. lia.
Qed.

Lemma restore_snapshot b b' :
  bm_inv b -> bm_range_spec b' = bm_range_spec b ->
  restore b' (snapshot b).1 (snapshot b).2 =
    (mkBitmap (bm_offset b') (bm_max b') (bm_range_spec b') (bm_count b) (bm_words b), Ok tt).
Proof.
  intros [Hok Hn Hc _ _] Hr. unfold restore, snapshot. cbn [fst snd]. rewrite decide_True //.
  destruct (rchunks_words (bm_words b) _ Hok Hn (le_n _)) as [_ Hch].
  assert (chunk_word <$> rchunks (length (strip_zeros (flat_map to_be_bytes (reverse (bm_words b))))) 8
            (strip_zeros (flat_map to_be_bytes (reverse (bm_words b)))) = bm_words b) as ->.
  { rewrite -{3}Hch. apply list_fmap_ext. intros. apply chunk_word_eq. }
  rewrite normalise_id //. by rewrite sum_count_ones Hc.
Qed.

(** ** Properties *)

Inductive bm_op :=
| BAllocate (offset : nat)
| BAllocateNext (start1 start2 : nat)
| BRelease (offset : nat)
| BHas (offset : nat)
| BFree
| BAllocated.

Inductive bm_out :=
| RAllocate (r : result bool string)
| RNext (r : option nat)
| RUnit
| RHas (r : bool)
| RFree (n : nat)
| RAllocated (l : list nat).

Definition bm_run (b : AllocationBitmap) (op : bm_op) : option (AllocationBitmap * bm_out) :=
  match op with
  | BAllocate offset => let '(b', r) := allocate b offset in Some (b', RAllocate r)
  | BAllocateNext s1 s2 => '(b', r) ← allocate_next b s1 s2; Some (b', RNext r)
  | BRelease offset => Some (release b offset, RUnit)
  | BHas offset => Some (b, RHas (bm_has b offset))
  | BFree => n ← bm_free b; Some (b, RFree n)
  | BAllocated => Some (b, RAllocated (allocated b))
  end.

Fixpoint bm_runs (b : AllocationBitmap) (ops : list bm_op) : option (AllocationBitmap * list bm_out) :=
  match ops with
  | [] => Some (b, [])
  | op :: ops' =>
      '(b1, o) ← bm_run b op;
      '(b2, os) ← bm_runs b1 ops';
      Some (b2, o :: os)
  end.

(** The draws of [random_range] are inside their ranges. *)
Definition draws_ok (max offset : nat) (op : bm_op) : Prop :=
  match op with
  | BAllocateNext s1 s2 => s1 < max - offset /\ (s2 < offset \/ offset = 0)
  | _ => True
  end.

(** What the allocator of [0, max) promises, [A] being the offsets taken. *)
Inductive set_step (max offset : nat) (A : gset nat) : bm_op -> gset nat -> bm_out -> Prop :=
| ss_range at_ msg : max <= at_ -> set_step max offset A (BAllocate at_) A (RAllocate (Err msg))
| ss_taken at_ : at_ < max -> at_ ∈ A -> set_step max offset A (BAllocate at_) A (RAllocate (Ok false))
| ss_take at_ : at_ < max -> at_ ∉ A ->
    set_step max offset A (BAllocate at_) ({[at_]} ∪ A) (RAllocate (Ok true))
| ss_next s1 s2 at_ : at_ < max -> at_ ∉ A ->
    (at_ < offset -> forall x, offset <= x < max -> x ∈ A) ->
    set_step max offset A (BAllocateNext s1 s2) ({[at_]} ∪ A) (RNext (Some at_))
| ss_full s1 s2 : (forall x, x < max -> x ∈ A) ->
    set_step max offset A (BAllocateNext s1 s2) A (RNext None)
| ss_release at_ : set_step max offset A (BRelease at_) (A ∖ {[at_]}) RUnit
| ss_has at_ : set_step max offset A (BHas at_) A (RHas (bool_decide (at_ ∈ A)))
| ss_free : size A <= max -> set_step max offset A BFree A (RFree (max - size A))
| ss_allocated l : StronglySorted lt l -> (forall x, x ∈ l <-> x ∈ A) ->
    set_step max offset A BAllocated A (RAllocated l).

Inductive set_steps (max offset : nat) : gset nat -> list bm_op -> gset nat -> list bm_out -> Prop :=
| sss_nil A : set_steps max offset A [] A []
| sss_cons A op A1 o ops A2 os :
    set_step max offset A op A1 o -> set_steps max offset A1 ops A2 os ->
    set_steps max offset A (op :: ops) A2 (o :: os).

Lemma bm_run_spec b op :
  bm_inv b -> draws_ok (bm_max b) (bm_offset b) op ->
  exists b' o, bm_run b op = Some (b', o) /\ bm_inv b' /\ bm_max b' = bm_max b /\
    bm_offset b' = bm_offset b /\ set_step (bm_max b) (bm_offset b) (taken b) op (taken b') o.
Proof.
  intros Hi Hd. destruct op as [at_|s1 s2|at_|at_| |]; cbn [bm_run].
  - pose proof (allocate_spec b at_ Hi) as Ha. destruct (allocate b at_) as [b' r].
    destruct Ha as (Hi' & Hm & Ho & _ & Hr). eexists b', _. split; [done|]. split_and!; [done..|].
    destruct r as [[]|]; [destruct Hr as (? & ? & ->); by constructor|destruct Hr as (? & ? & ->); by constructor|].
    destruct Hr as (? & ->). by constructor.
  - destruct Hd as [Hd1 Hd2].
    destruct (allocate_next_spec b s1 s2 Hi (or_introl Hd1) Hd2) as (b' & r & -> & Hi' & Hm & Ho & _ & Hr).
    simpl. eexists b', _. split; [done|]. split_and!; [done..|].
    destruct r; [destruct Hr as (? & ? & -> & ?); by constructor|destruct Hr as (-> & ?); by constructor].
  - destruct (release_spec b at_ Hi) as (Hi' & Hm & Ho & _ & Ht). eexists _, _. split; [done|].
    split_and!; [done..|]. rewrite Ht. constructor.
  - exists b, (RHas (bm_has b at_)). split_and!; [done..|].
    replace (bm_has b at_) with (bool_decide (at_ ∈ taken b)); [constructor|].
    unfold bm_has. destruct (bit b at_) eqn:Hb; [apply bool_decide_eq_true_2|apply bool_decide_eq_false_2].
    + by apply elem_of_taken.
    + by apply not_taken.
  - unfold bm_free. assert (bm_count b <= bm_max b) as Hle.
    { destruct (decide (bm_count b <= bm_max b)) as [|Hn]; [done|].
      assert (taken b ⊆ list_to_set (seq 0 (bm_max b))) as Hsub%subseteq_size.
      { intros x Hx%elem_of_taken%(bi_range _ Hi). apply elem_of_list_to_set, elem_of_seq. lia. }
      rewrite size_list_to_set in Hsub; [apply NoDup_seq|]. rewrite length_seq in Hsub.
      rewrite (bi_count _ Hi) in Hn. unfold taken in Hsub. lia. }
    rewrite decide_True //. simpl. eexists _, _. split; [done|]. split_and!; [done..|].
    rewrite (bi_count _ Hi). apply ss_free. rewrite -/(taken b). pose proof (bi_count _ Hi). unfold taken. lia.
  - exists b, (RAllocated (allocated b)). split_and!; [done..|].
    destruct (words_bits_spec 0 (bm_words b) (bi_words _ Hi)) as [Hin Hs]. apply ss_allocated; [done|].
    intros x. unfold allocated. rewrite Hin elem_of_taken. rewrite Nat.mul_0_l Nat.sub_0_r. unfold bit. intuition lia.
Qed.

(** C36: the bitmap is the set of taken offsets of the range: over any sequence
    of calls, and whatever positions the random scans start from, no call
    panics, [allocate] refuses exactly what is taken or out of range,
    [allocate_next] hands out a free offset of the range, one of the static
    band only when the rest is full, and fails only when everything is taken,
    [free] counts what is left and [allocated] lists what is taken in order. *)
Theorem bitmap_refines_set b ops :
  bm_inv b -> Forall (draws_ok (bm_max b) (bm_offset b)) ops ->
  exists b' os, bm_runs b ops = Some (b', os) /\ bm_inv b' /\
    set_steps (bm_max b) (bm_offset b) (taken b) ops (taken b') os.
Proof.
  revert b. induction ops as [|op ops IH]; intros b Hi Hd.
  { exists b, []. split_and!; [done|done|constructor]. }
  apply Forall_cons in Hd as [Hd Hds]. cbn [bm_runs].
  destruct (bm_run_spec b op Hi Hd) as (b1 & o & -> & Hi1 & Hm & Ho & Hs). simpl.
  destruct (IH b1 Hi1) as (b2 & os & -> & Hi2 & Hss); [by rewrite Hm Ho|]. simpl.
  exists b2, (o :: os). split_and!; [done|done|]. rewrite Hm Ho in Hss. by econstructor.
Qed.

(** A snapshot restores: restoring the snapshot of a bitmap into any bitmap
    of the same range reproduces the words and the count exactly, whatever that
    bitmap held. *)
Theorem snapshot_restore_roundtrip b b' :
  bm_inv b -> bm_range_spec b' = bm_range_spec b ->
  restore b' (snapshot b).1 (snapshot b).2 =
    (mkBitmap (bm_offset b') (bm_max b') (bm_range_spec b') (bm_count b) (bm_words b), Ok tt).
Proof. apply restore_snapshot. Qed.

(** Witnesses: a range of 200 with a static band of 16. *)
Definition demo_bitmap : AllocationBitmap :=
  (allocate (allocate (with_offset 200 "30000-30199" 16) 70).1 3).1.

Lemma demo_bitmap_inv : bm_inv demo_bitmap.
Proof.
  assert (bm_inv (with_offset 200 "30000-30199" 16)) as H0 by (apply inv_with_offset; lia).
  pose proof (allocate_spec _ 70 H0) as H1.
  destruct (allocate (with_offset 200 "30000-30199" 16) 70) as [b1 r1] eqn:E1. destruct H1 as (H1 & _).
  pose proof (allocate_spec _ 3 H1) as H2. unfold demo_bitmap. rewrite E1. cbn [fst].
  destruct (allocate b1 3) as [b2 r2]. by destruct H2.
Qed.

Lemma bitmap_refines_set_witness :
  exists b' os, bm_runs demo_bitmap [BAllocateNext 54 0; BAllocate 3; BRelease 70; BFree] = Some (b', os).
Proof.
  destruct (bitmap_refines_set demo_bitmap [BAllocateNext 54 0; BAllocate 3; BRelease 70; BFree])
    as (b' & os & H & _).
  - exact demo_bitmap_inv.
  - repeat constructor; vm_compute; lia.
  - exists b', os. exact H.
Defined.

Lemma snapshot_restore_roundtrip_witness :
  restore (with_offset 200 "30000-30199" 16) (snapshot demo_bitmap).1 (snapshot demo_bitmap).2 =
    (mkBitmap 16 200 "30000-30199" 2 (bm_words demo_bitmap), Ok tt).
Proof.
  apply (snapshot_restore_roundtrip demo_bitmap (with_offset 200 "30000-30199" 16)).
  - exact demo_bitmap_inv.
  - reflexivity.
Defined.
