(* ===== verification/RangeAllocator.v ===== *)
(** * The storage-backed range allocator

    Model of [crates/api-server/src/registry/core/service/allocator/storage.rs]:
    every api-server keeps a bitmap in memory and persists it as a
    [RangeAllocation] after every change, with a compare-and-swap on the
    resource version; a conflict retries against the latest snapshot.

    - The storage is the interface [RangeStore]: what the allocator relies on
      from [Storage::get], [Storage::update] and [Storage::create] for its key.
    - A server holds its state lock for a whole operation, but other servers
      may write between its read and its update: [read_turn] is the body of the
      loop of [try_update] up to the update, [write_turn] the update, and
      [sys_step] interleaves the turns of any number of servers.
    - Errors of the storage other than a conflict are not modelled. *)

From S2P Require Import Prelude AllocBitmap.

Inductive AllocError :=
| EConflict (msg : string)
| EInternal (msg : string)
| ENotFound (msg : string).

Record RangeAllocation := mkRangeAllocation {
  ra_kind : string;
  ra_api_version : string;
  ra_resource_version : option string;
  ra_range : string;
  ra_data : list Z
}.

(** [RangeAllocation::default] *)
Definition ra_default : RangeAllocation := mkRangeAllocation "" "" None "" [].

Definition set_payload (r : RangeAllocation) (range : string) (data : list Z) : RangeAllocation :=
  mkRangeAllocation (ra_kind r) (ra_api_version r) (ra_resource_version r) range data.
Definition set_version (r : RangeAllocation) (rv : option string) : RangeAllocation :=
  mkRangeAllocation (ra_kind r) (ra_api_version r) rv (ra_range r) (ra_data r).

(** What the allocator relies on of the storage behind its key: an object read
    carries a nonempty resource version; an update of an absent key fails, one
    whose resource version is not the stored one is a conflict and changes
    nothing, any other stores the object under a version never used before. *)
Class RangeStore (S : Type) := {
  rs_get : S -> option RangeAllocation;
  rs_update : S -> RangeAllocation -> S * result unit AllocError;
  rs_create : S -> RangeAllocation -> S * result unit AllocError;
  rs_used : S -> gset string;
  rs_get_version s r : rs_get s = Some r ->
    exists rv, ra_resource_version r = Some rv /\ rv <> "" /\ rv ∈ rs_used s;
  rs_update_absent s r : rs_get s = None -> exists msg, rs_update s r = (s, Err (ENotFound msg));
  rs_update_conflict s r e rv : rs_get s = Some e -> ra_resource_version r = Some rv -> rv <> "" ->
    ra_resource_version e <> Some rv -> exists msg, rs_update s r = (s, Err (EConflict msg));
  rs_update_ok s r e : rs_get s = Some e ->
    ra_resource_version r = None \/ ra_resource_version r = ra_resource_version e ->
    exists s' rv, rs_update s r = (s', Ok tt) /\ rs_get s' = Some (set_version r (Some rv)) /\
      (rv ∉ rs_used s) /\ rs_used s' = {[rv]} ∪ rs_used s;
  rs_create_ok s r : rs_get s = None ->
    exists s' rv, rs_create s r = (s', Ok tt) /\ rs_get s' = Some (set_version r (Some rv)) /\
      (rv ∉ rs_used s) /\ rs_used s' = {[rv]} ∪ rs_used s
}.

(** [State] *)
Record AllocState := mkAllocState { st_alloc : AllocationBitmap; st_last : string }.

Definition UNABLE_TO_ALLOCATE : string := "unable to allocate".

(** The closures the three operations pass to [try_update]; a draw of the random
    scan comes with each call. *)
Inductive alloc_op :=
| AAllocate (offset : nat)
| AAllocateNext
| ARelease (offset : nat).

(** What the closure returns: the offset it reserved or released. *)
Definition apply_op (op : alloc_op) (draw1 draw2 : nat) (b : AllocationBitmap)
    : option (AllocationBitmap * result nat AllocError) :=
  match op with
  | AAllocate offset =>
      Some (match allocate b offset with
            | (b', Ok true) => (b', Ok offset)
            | (b', Ok false) => (b', Err (EInternal UNABLE_TO_ALLOCATE))
            | (b', Err msg) => (b', Err (EInternal msg))
            end)
  | AAllocateNext =>
      '(b', r) ← allocate_next b draw1 draw2;
      Some (b', match r with
                | Some offset => Ok offset
                | None => Err (EInternal UNABLE_TO_ALLOCATE)
                end)
  | ARelease offset => Some (release b offset, Ok offset)
  end.

Section Etcd.
Context {St : Type} `{!RangeStore St} (resource : string).

Definition stored (s : St) : option RangeAllocation := rs_get s.

(** The body of the loop of [try_update] up to the update: either it returns
    with an error, or it has the object to write and the offset. *)
Definition read_turn (s : St) (st : AllocState) (op : alloc_op) (draw1 draw2 : nat)
    : option (AllocState * result (RangeAllocation * nat) AllocError) :=
  let unavailable :=
    EInternal ("cannot allocate resources of type " +:+ resource +:+ " at this time") in
  match stored s with
  | None => Some (st, Err unavailable)
  | Some existing =>
      match ra_resource_version existing with
      | None => Some (st, Err unavailable)
      | Some rv =>
          let '(b1, r) := if decide (rv = st_last st) then (st_alloc st, Ok tt)
                          else restore (st_alloc st) (ra_range existing) (ra_data existing) in
          match r with
          | Err msg => Some (mkAllocState b1 (st_last st), Err (EInternal msg))
          | Ok _ =>
              '(b2, r2) ← apply_op op draw1 draw2 b1;
              match r2 with
              | Err e => Some (mkAllocState b2 (st_last st), Err e)
              | Ok offset =>
                  let '(range_spec, data) := snapshot b2 in
                  Some (mkAllocState b2 rv, Ok (set_payload existing range_spec data, offset))
              end
          end
      end
  end.

(** The update: [None] goes around the loop again. *)
Definition write_turn (s : St) (r : RangeAllocation) : St * option (result unit AllocError) :=
  match rs_update s r with
  | (s', Ok _) => (s', Some (Ok tt))
  | (s', Err (EConflict _)) => (s', None)
  | (s', Err e) => (s', Some (Err e))
  end.

(** What the caller of [allocate], [allocate_next] and [release] gets from the
    result of [try_update]. *)
Inductive alloc_answer :=
| AnsAllocate (r : result bool AllocError)
| AnsNext (r : result (option nat) AllocError)
| AnsRelease (r : result unit AllocError).

Definition answer (op : alloc_op) (r : result nat AllocError) : alloc_answer :=
  match op, r with
  | AAllocate _, Ok _ => AnsAllocate (Ok true)
  | AAllocate _, Err (EInternal msg) =>
      AnsAllocate (if decide (msg = UNABLE_TO_ALLOCATE) then Ok false else Err (EInternal msg))
  | AAllocate _, Err e => AnsAllocate (Err e)
  | AAllocateNext, Ok offset => AnsNext (Ok (Some offset))
  | AAllocateNext, Err (EInternal msg) =>
      AnsNext (if decide (msg = UNABLE_TO_ALLOCATE) then Ok None else Err (EInternal msg))
  | AAllocateNext, Err e => AnsNext (Err e)
  | ARelease _, Ok _ => AnsRelease (Ok tt)
  | ARelease _, Err e => AnsRelease (Err e)
  end.

(** [RangeRegistry::get] *)
Definition registry_get (s : St) : RangeAllocation := default ra_default (stored s).

(** [create_or_update], atomic on the storage. *)
Definition create_or_update (s : St) (st : AllocState) (snapshot : RangeAllocation)
    : St * AllocState * result unit AllocError :=
  let conflict reason :=
    EConflict ("Operation cannot be fulfilled on " +:+ resource +:+ ": " +:+ reason) in
  let want := default "" (ra_resource_version snapshot) in
  let '(s', r) :=
    match stored s with
    | Some existing =>
        let have := default "" (ra_resource_version existing) in
        if decide (want <> "" /\ have <> "" /\ want <> have) then
          (s, Err (conflict "the provided resource version does not match"))
        else if decide (want = "" /\ have <> "") then
          (s, Err (conflict "another caller has already initialized the resource"))
        else rs_update s snapshot
    | None =>
        rs_create s (mkRangeAllocation "RangeAllocation" "v1" None (ra_range snapshot) (ra_data snapshot))
    end in
  match r with
  | Err e => (s', st, Err e)
  | Ok _ =>
      match restore (st_alloc st) (ra_range snapshot) (ra_data snapshot) with
      | (b, Err msg) => (s', mkAllocState b (st_last st), Err (EInternal msg))
      | (b, Ok _) => (s', mkAllocState b want, Ok tt)
      end
  end.

(** ** Any number of servers *)

(** Where a server is: idle, about to read, or about to write. *)
Inductive server_pc :=
| Idle
| AboutToRead (op : alloc_op)
| AboutToWrite (op : alloc_op) (r : RangeAllocation) (offset : nat).

Record Server := mkServer { sv_state : AllocState; sv_pc : server_pc }.

Record Sys := mkSys { sys_store : St; sys_servers : gmap nat Server }.

(** The completion of an operation, seen from outside. *)
Definition event : Type := nat * alloc_op * result nat AllocError.

Inductive sys_step : Sys -> option event -> Sys -> Prop :=
| sys_start s svs n st op :
    svs !! n = Some (mkServer st Idle) ->
    sys_step (mkSys s svs) None (mkSys s (<[n := mkServer st (AboutToRead op)]> svs))
| sys_read s svs n st op draw1 draw2 st' r offset :
    svs !! n = Some (mkServer st (AboutToRead op)) ->
    draw1 < bm_max (st_alloc st) - bm_offset (st_alloc st) ->
    draw2 < bm_offset (st_alloc st) \/ bm_offset (st_alloc st) = 0 ->
    read_turn s st op draw1 draw2 = Some (st', Ok (r, offset)) ->
    sys_step (mkSys s svs) None (mkSys s (<[n := mkServer st' (AboutToWrite op r offset)]> svs))
| sys_refuse s svs n st op draw1 draw2 st' e :
    svs !! n = Some (mkServer st (AboutToRead op)) ->
    draw1 < bm_max (st_alloc st) - bm_offset (st_alloc st) ->
    draw2 < bm_offset (st_alloc st) \/ bm_offset (st_alloc st) = 0 ->
    read_turn s st op draw1 draw2 = Some (st', Err e) ->
    sys_step (mkSys s svs) (Some (n, op, Err e)) (mkSys s (<[n := mkServer st' Idle]> svs))
| sys_write s svs n st op r offset s' :
    svs !! n = Some (mkServer st (AboutToWrite op r offset)) ->
    write_turn s r = (s', Some (Ok tt)) ->
    sys_step (mkSys s svs) (Some (n, op, Ok offset)) (mkSys s' (<[n := mkServer st Idle]> svs))
| sys_conflict s svs n st op r offset s' :
    svs !! n = Some (mkServer st (AboutToWrite op r offset)) ->
    write_turn s r = (s', None) ->
    sys_step (mkSys s svs) None (mkSys s' (<[n := mkServer st (AboutToRead op)]> svs))
| sys_fail s svs n st op r offset s' e :
    svs !! n = Some (mkServer st (AboutToWrite op r offset)) ->
    write_turn s r = (s', Some (Err e)) ->
    sys_step (mkSys s svs) (Some (n, op, Err e)) (mkSys s' (<[n := mkServer st Idle]> svs)).

Inductive sys_steps : Sys -> list event -> Sys -> Prop :=
| sys_nil y : sys_steps y [] y
| sys_cons y o y1 l y2 :
    sys_step y o y1 -> sys_steps y1 l y2 -> sys_steps y (option_list o ++ l) y2.

(** The offsets held after an operation completed. *)
Definition held_after (held : gset nat) (e : event) : gset nat :=
  match e with
  | (_, ARelease offset, Ok _) => held ∖ {[offset]}
  | (_, _, Ok offset) => {[offset]} ∪ held
  | (_, _, Err _) => held
  end.

End Etcd.

Arguments Sys : clear implicits.
Arguments mkSys {St} _ _.

(** ** Proofs *)

Section Facts.
Context {St : Type} {RS : RangeStore St} (resource : string).
Context (max off : nat) (range : string).
Implicit Types (b : AllocationBitmap) (held : gset nat).

(** The bitmaps of one range. *)
Definition of_range b : Prop := bm_max b = max /\ bm_offset b = off /\ bm_range_spec b = range.

(** What an operation does to the set of held offsets. *)
Definition effect (op : alloc_op) held (offset : nat) held' : Prop :=
  match op with
  | AAllocate o => offset = o /\ o < max /\ (o ∉ held) /\ held' = {[o]} ∪ held
  | AAllocateNext => offset < max /\ (offset ∉ held) /\ held' = {[offset]} ∪ held
  | ARelease o => offset = o /\ held' = held ∖ {[o]}
  end.

(** When an operation may be refused. *)
Definition refusal (op : alloc_op) held : Prop :=
  match op with
  | AAllocate o => max <= o \/ o ∈ held
  | AAllocateNext => forall x, x < max -> x ∈ held
  | ARelease _ => False
  end.

(** A completed operation took effect on [held] at once, or was refused
    rightly. *)
Definition outcome_ok held (e : event) : Prop :=
  match e with
  | (_, op, Ok offset) => effect op held offset (held_after held e)
  | (_, op, Err _) => refusal op held
  end.

Fixpoint linear held (l : list event) : Prop :=
  match l with
  | [] => True
  | e :: l' => outcome_ok held e /\ linear (held_after held e) l'
  end.

Lemma apply_op_spec op d1 d2 b :
  bm_inv b -> of_range b -> d1 < max - off \/ max = 0 -> d2 < off \/ off = 0 ->
  exists b' r, apply_op op d1 d2 b = Some (b', r) /\ of_range b' /\
    match r with
    | Ok offset => bm_inv b' /\ effect op (taken b) offset (taken b')
    | Err _ => refusal op (taken b)
    end.
Proof.
  intros Hi (Hm & Ho & Hr) H1 H2. destruct op as [o| |o]; cbn [apply_op].
  - pose proof (allocate_spec b o Hi) as Ha. destruct (allocate b o) as [b' r].
    destruct Ha as (Hi' & Hm' & Ho' & Hr' & Hres). unfold of_range. rewrite Hm in Hm' Hres.
    destruct r as [[]|msg]; (eexists _, _; split; [done|]); (split; [split_and!; congruence|]); simpl.
    + destruct Hres as (? & ? & ?). by split_and!.
    + destruct Hres as (? & ? & ?). by right.
    + left. lia.
  - destruct (allocate_next_spec b d1 d2 Hi) as (b' & r & -> & Hi' & Hm' & Ho' & Hr' & Hres).
    { by rewrite Hm Ho. } { by rewrite Ho. }
    simpl. unfold of_range. rewrite Hm in Hm' Hres.
    destruct r as [x|]; (eexists _, _; split; [done|]); (split; [split_and!; congruence|]); simpl.
    + destruct Hres as (? & ? & ? & _). by split_and!.
    + apply Hres.
  - destruct (release_spec b o Hi) as (Hi' & Hm' & Ho' & Hr' & Ht). eexists _, _. split; [done|].
    unfold of_range. split; [split_and!; congruence|]. by split_and!.
Qed.

(** The stored object is the snapshot of the held offsets. *)
Definition store_ok (s : St) held : Prop :=
  exists e b, rs_get s = Some e /\ bm_inv b /\ of_range b /\ ra_range e = range /\
    ra_data e = (snapshot b).2 /\ taken b = held.

Definition version (s : St) : option string := rs_get s ≫= ra_resource_version.

(** A server that is about to read has to restore first; one that is about to
    write has the effect of its operation, unless the store moved on. *)
Definition server_ok (s : St) held (sv : Server) : Prop :=
  of_range (st_alloc (sv_state sv)) /\
  let last := st_last (sv_state sv) in
  last ∈ {[ "" ]} ∪ rs_used s /\
  match sv_pc sv with
  | Idle | AboutToRead _ => version s <> Some last
  | AboutToWrite op r offset =>
      ra_resource_version r = Some last /\ last <> "" /\
      (version s = Some last -> exists b', bm_inv b' /\ of_range b' /\ ra_range r = range /\
         ra_data r = (snapshot b').2 /\ effect op held offset (taken b'))
  end.

Record sys_inv (y : Sys St) held : Prop := {
  si_store : store_ok (sys_store y) held;
  si_servers n sv : sys_servers y !! n = Some sv -> server_ok (sys_store y) held sv
}.

Lemma version_used s v : version s = Some v -> v ∈ rs_used s /\ v <> "".
Proof.
  unfold version. intros (e & He & Hv)%bind_Some.
  destruct (rs_get_version s e He) as (rv & Hrv & ? & ?). rewrite Hrv in Hv. by simplify_eq.
Qed.

Lemma inv_update_server y held n sv :
  sys_inv y held -> server_ok (sys_store y) held sv ->
  sys_inv (mkSys (sys_store y) (<[n := sv]> (sys_servers y))) held.
Proof.
  intros [Hs Hsv] Hok. split; [done|]. simpl. intros m sv'.
  rewrite lookup_insert_Some. intros [[_ <-]|[_ ?]]; eauto.
Qed.

(** After a successful write the other servers are behind. *)
Lemma server_ok_moved s s' held held' sv rv :
  server_ok s held sv -> version s' = Some rv -> rv ∉ rs_used s -> rs_used s' = {[rv]} ∪ rs_used s ->
  rv <> "" -> server_ok s' held' sv.
Proof.
  intros (Hr & Hl & Hpc) Hv Hn Hu Hne. split; [done|]. split; [rewrite Hu; set_solver|].
  assert (version s' <> Some (st_last (sv_state sv))) as Hneq.
  { rewrite Hv. intros [= ->]. set_solver. }
  destruct (sv_pc sv) as [|op|op r offset]; [done|done|]. by destruct Hpc as (? & ? & _).
Qed.

Lemma read_turn_spec s st op d1 d2 held :
  store_ok s held -> server_ok s held (mkServer st (AboutToRead op)) -> d1 < max - off \/ max = 0 -> d2 < off \/ off = 0 ->
  exists st' res, read_turn resource s st op d1 d2 = Some (st', res) /\
    match res with
    | Ok (r, offset) => server_ok s held (mkServer st' (AboutToWrite op r offset))
    | Err _ => server_ok s held (mkServer st' Idle) /\ refusal op held
    end.
Proof.
  intros (e & b & He & Hi & (Hm & Ho & Hrg) & Hre & Hd & Ht) (Hr & Hl & Hv) H1 H2. simpl in *.
  destruct (rs_get_version s e He) as (rv & Hrv & Hne & Hu).
  assert (version s = Some rv) as Hvs by (unfold version; by rewrite He).
  unfold read_turn, stored. rewrite He Hrv decide_False; [congruence|].
  pose proof Hr as (Hm' & Ho' & Hr').
  assert (restore (st_alloc st) (ra_range e) (ra_data e) = (b, Ok tt)) as ->.
  { rewrite Hre Hd -Hrg. rewrite (restore_snapshot b (st_alloc st)); [done|congruence|].
    f_equal. destruct b. simpl in *. congruence. }
  destruct (apply_op_spec op d1 d2 b Hi (conj Hm (conj Ho Hrg)) H1 H2) as (b2 & r2 & -> & Hr2 & Hres). simpl.
  rewrite Ht in Hres. destruct r2 as [offset|err].
  - eexists _, (Ok _). split; [done|]. simpl. destruct Hres as [Hi2 Heff]. split; [done|]. simpl.
    split; [set_solver|]. split; [by simpl|]. split; [done|]. intros _. exists b2.
    split_and!; try done; apply Hr2.
  - eexists _, (Err err). split; [done|]. simpl. split; [|done]. split; [done|]. simpl. by split.
Qed.

Lemma write_turn_spec s st op r offset held :
  store_ok s held -> server_ok s held (mkServer st (AboutToWrite op r offset)) ->
  (exists s' rv b', write_turn s r = (s', Some (Ok tt)) /\ version s' = Some rv /\ (rv ∉ rs_used s) /\
     rs_used s' = {[rv]} ∪ rs_used s /\ store_ok s' (taken b') /\ effect op held offset (taken b')) \/
  (write_turn s r = (s, None) /\ version s <> Some (st_last st)).
Proof.
  intros (e & b & He & _) (_ & Hl & Hrv & Hne & Hpend). simpl in *. unfold write_turn.
  destruct (rs_get_version s e He) as (ev & Hev & _ & _).
  assert (version s = Some ev) as Hvs by (unfold version; by rewrite He).
  destruct (decide (ev = st_last st)) as [->|Hdiff].
  - left. destruct (Hpend Hvs) as (b' & Hi' & Hr' & Hrr & Hrd & Heff).
    destruct (rs_update_ok s r e He) as (s' & rv & -> & Hg & Hn & Hu); [right; congruence|].
    exists s', rv, b'. split; [done|]. split; [unfold version; by rewrite Hg|].
    split_and!; try done. by eexists _, b'.
  - right. destruct (rs_update_conflict s r e (st_last st) He) as [msg ->]; [done|done|congruence|].
    split; [done|]. congruence.
Qed.

Lemma effect_held op held offset held' n :
  effect op held offset held' -> held_after held (n, op, Ok offset) = held'.
Proof. destruct op; simpl; intros; destruct_and!; by subst. Qed.

#[local] Arguments held_after : simpl never.

Lemma sys_step_inv y o y' held :
  sys_inv y held -> sys_step resource y o y' ->
  (forall e, o = Some e -> outcome_ok held e) /\
  sys_inv y' (match o with Some e => held_after held e | None => held end).
Proof.
  intros Hy Hstep. pose proof Hy as [Hs Hsv].
  destruct Hstep as [s svs n st op Hn|s svs n st op d1 d2 st' r offset Hn Hd1 Hd2 Hrd
    |s svs n st op d1 d2 st' e Hn Hd1 Hd2 Hrd|s svs n st op r offset s' Hn Hw
    |s svs n st op r offset s' Hn Hw|s svs n st op r offset s' e Hn Hw]; simpl in *;
    pose proof (Hsv n _ Hn) as Hok.
  - split; [done|]. apply (inv_update_server (mkSys s svs)); done.
  - split; [done|]. pose proof (proj1 Hok) as (Hm & Ho & _). rewrite Hm Ho in Hd1. rewrite Ho in Hd2.
    destruct (read_turn_spec s st op d1 d2 held Hs Hok (or_introl Hd1) Hd2) as (st1 & res & Hr & Hres).
    rewrite Hrd in Hr. simplify_eq. by apply (inv_update_server (mkSys s svs)).
  - pose proof (proj1 Hok) as (Hm & Ho & _). rewrite Hm Ho in Hd1. rewrite Ho in Hd2.
    destruct (read_turn_spec s st op d1 d2 held Hs Hok (or_introl Hd1) Hd2) as (st1 & res & Hr & Hres).
    rewrite Hrd in Hr. simplify_eq. destruct Hres as [Hok' Href]. split; [by intros ? [= <-]|].
    destruct op; by apply (inv_update_server (mkSys s svs)).
  - destruct (write_turn_spec s st op r offset held Hs Hok) as
      [(s1 & rv & b' & Hw1 & Hv & Hnu & Hu & Hs1 & Heff)|[Hw1 _]]; rewrite Hw in Hw1; simplify_eq.
    pose proof (effect_held op held offset _ n Heff) as Hh.
    split; [intros ? [= <-]; unfold outcome_ok; by rewrite Hh|]. rewrite Hh.
    destruct (version_used _ _ Hv) as [_ Hrv]. split; [done|]. simpl. intros m sv.
    rewrite lookup_insert_Some. intros [[_ <-]|[_ Hm]].
    + destruct Hok as (Hr & Hl & _). split; [done|]. simpl in *. split; [rewrite Hu; set_solver|].
      rewrite Hv. intros [= ->]. set_solver.
    + by eapply server_ok_moved; [apply (Hsv m)|..].
  - split; [done|]. destruct (write_turn_spec s st op r offset held Hs Hok) as
      [(s1 & rv & b' & Hw1 & _)|[Hw1 Hv]]; rewrite Hw in Hw1; simplify_eq.
    apply (inv_update_server (mkSys s svs)); [done|]. destruct Hok as (Hr & Hl & _). by split_and!.
  - destruct (write_turn_spec s st op r offset held Hs Hok) as
      [(s1 & rv & b' & Hw1 & _)|[Hw1 Hv]]; rewrite Hw in Hw1; simplify_eq.
Qed.

(** C3: api-servers sharing a range never hand out an offset twice: for any
    number of servers and any interleaving of their reads and writes, every
    completed operation takes effect on the set of held offsets at one moment
    (an allocation only of an offset nobody holds, a refusal only when the
    offset is held or out of range, or everything is held), and the stored
    snapshot is always the set that results. *)
Theorem range_allocator_linearizable y held l y' :
  sys_inv y held -> sys_steps resource y l y' ->
  linear held l /\ store_ok (sys_store y') (foldl held_after held l).
Proof.
  intros Hy Hs. revert held Hy.
  induction Hs as [y|y o y1 l y2 Hstep _ IH]; intros held Hy; [split; [done|apply Hy]|].
  destruct (sys_step_inv y o y1 held Hy Hstep) as [Ho Hy1].
  destruct o as [e|]; simpl; [|by apply IH].
  destruct (IH _ Hy1) as [Hlin Hst]. split; [|done]. split; [by apply Ho|done].
Qed.

(** A range that has been initialised, and servers that have just started. *)
Lemma sys_inv_init s e b (svs : gmap nat Server) :
  rs_get s = Some e -> bm_inv b -> of_range b -> ra_range e = range -> ra_data e = (snapshot b).2 ->
  (forall n sv, svs !! n = Some sv -> of_range (st_alloc (sv_state sv)) /\ st_last (sv_state sv) = "" /\
     sv_pc sv = Idle) ->
  sys_inv (mkSys s svs) (taken b).
Proof.
  intros He Hi Hr Hre Hd Hsv. split; [by exists e, b|]. simpl. intros n sv (Hrg & Hl & Hpc)%Hsv.
  split; [done|]. rewrite Hpc Hl. split; [set_solver|]. intros [_ Hv]%version_used. done.
Qed.

(** [create_or_update] only replaces the snapshot the caller read: it
    succeeds on an uninitialised range, and otherwise exactly when the caller's
    resource version is the stored one; in every other case it answers a
    conflict and neither the storage nor the bitmap changes. *)
Theorem create_or_update_compares s st snap :
  bm_range_spec (st_alloc st) = ra_range snap ->
  let '(s', st', r) := create_or_update resource s st snap in
  match rs_get s with
  | None => r = Ok tt
  | Some e =>
      if decide (ra_resource_version snap = ra_resource_version e) then
        r = Ok tt /\ exists rv, rs_get s' = Some (set_version snap (Some rv)) /\ Some rv <> ra_resource_version e
      else exists msg, r = Err (EConflict msg) /\ s' = s /\ st' = st
  end.
Proof.
  intros Hrange. unfold create_or_update, stored.
  assert (exists b1, restore (st_alloc st) (ra_range snap) (ra_data snap) = (b1, Ok tt)) as [b1 Hb1].
  { unfold restore. rewrite decide_True //. eauto. }
  destruct (rs_get s) as [e|] eqn:He.
  - destruct (rs_get_version s e He) as (rv & Hrv & Hne & Hu). rewrite Hrv. simpl.
    destruct (decide (ra_resource_version snap = Some rv)) as [Hsn|Hsn].
    + rewrite Hsn /=. rewrite decide_False; [naive_solver|]. rewrite decide_False; [naive_solver|].
      destruct (rs_update_ok s snap e He) as (s' & rv' & -> & Hg & Hn & _); [right; congruence|].
      rewrite Hb1. split; [done|]. exists rv'. split; [done|]. congruence.
    + destruct (ra_resource_version snap) as [want|]; simpl.
      * case_decide; [by eexists|]. case_decide; [by eexists|].
        assert (want <> "" /\ want <> rv) by naive_solver. naive_solver.
      * rewrite decide_True //. by eexists.
  - destruct (rs_create_ok s (mkRangeAllocation "RangeAllocation" "v1" None (ra_range snap) (ra_data snap)) He)
      as (s' & rv & -> & _). by rewrite Hb1.
Qed.

End Facts.

(** ** A store: one cell with a counter of versions *)

Record Cell := mkCell { cell_value : option (RangeAllocation * nat); cell_next : nat }.

(** Versions below the counter have been used. *)
Definition cell_used (c : Cell) : gset string := versions_below (cell_next c).

Definition cell_get (c : Cell) : option RangeAllocation :=
  match cell_value c with
  | Some (r, n) => if decide (n < cell_next c) then Some (set_version r (Some (show_version n))) else None
  | None => None
  end.

Definition cell_put (c : Cell) (r : RangeAllocation) : Cell * result unit AllocError :=
  (mkCell (Some (r, cell_next c)) (S (cell_next c)), Ok tt).

Definition cell_update (c : Cell) (r : RangeAllocation) : Cell * result unit AllocError :=
  match cell_get c with
  | None => (c, Err (ENotFound ""))
  | Some e =>
      if decide (ra_resource_version r = None \/ ra_resource_version r = ra_resource_version e)
      then cell_put c r
      else (c, Err (EConflict "resourceVersion mismatch: resource was modified"))
  end.

Lemma cell_put_spec c r :
  exists s' rv, cell_put c r = (s', Ok tt) /\ cell_get s' = Some (set_version r (Some rv)) /\
    (rv ∉ cell_used c) /\ cell_used s' = {[rv]} ∪ cell_used c.
Proof.
  eexists _, (show_version (cell_next c)). split; [done|]. split_and!.
  - unfold cell_get. simpl. by rewrite decide_True; [lia|].
  - apply versions_fresh.
  - apply versions_succ.
Qed.

#[export] Program Instance cell_store : RangeStore Cell := {
  rs_get := cell_get;
  rs_update := cell_update;
  rs_create := cell_put;
  rs_used := cell_used
}.
Next Obligation.
  intros s r. unfold cell_get. destruct (cell_value s) as [[r' n]|]; [|done]. case_decide; [|done].
  intros [= <-]. exists (show_version n). split; [done|]. split; [apply show_version_nonempty|].
  by apply versions_below_spec.
Qed.
Next Obligation. intros s r He. exists "". unfold cell_update. by rewrite He. Qed.
Next Obligation.
  intros s r e rv He Hr Hne Hneq. unfold cell_update. rewrite He Hr. rewrite decide_False; [naive_solver|eauto].
Qed.
Next Obligation.
  intros s r e He Hr. unfold cell_update. rewrite He decide_True //. apply cell_put_spec.
Qed.
Next Obligation. intros s r _. apply cell_put_spec. Qed.

(** Witnesses: two servers on the range of [demo_bitmap]. *)
Definition demo_cell : Cell :=
  mkCell (Some (mkRangeAllocation "RangeAllocation" "v1" None "30000-30199" (snapshot demo_bitmap).2, 0)) 1.
Definition demo_server : Server :=
  mkServer (mkAllocState (with_offset 200 "30000-30199" 16) "") Idle.
Definition demo_sys : Sys Cell := mkSys demo_cell {[ 0 := demo_server; 1 := demo_server ]}.

Definition demo_res : string := "servicenodeportallocations".
Definition demo_read : AllocState * RangeAllocation * nat :=
  match read_turn demo_res demo_cell (sv_state demo_server) AAllocateNext 54 0 with
  | Some (st', Ok (r, offset)) => (st', r, offset)
  | _ => (sv_state demo_server, ra_default, 0)
  end.

(** Server 0 runs [allocate_next] from start to end, and gets 71. *)
Lemma range_allocator_linearizable_witness :
  exists y', sys_steps demo_res demo_sys [(0, AAllocateNext, Ok 71)] y' /\
    linear 200 (taken demo_bitmap) [(0, AAllocateNext, Ok 71)] /\
    store_ok 200 16 "30000-30199" (sys_store y') ({[71]} ∪ taken demo_bitmap).
Proof.
  set (svs1 := <[0 := mkServer (sv_state demo_server) (AboutToRead AAllocateNext)]> (sys_servers demo_sys)).
  set (svs2 := <[0 := mkServer demo_read.1.1 (AboutToWrite AAllocateNext demo_read.1.2 71)]> svs1).
  set (y' := mkSys (write_turn demo_cell demo_read.1.2).1 (<[0 := mkServer demo_read.1.1 Idle]> svs2)).
  assert (sys_steps demo_res demo_sys [(0, AAllocateNext, Ok 71)] y') as Hsteps.
  { apply (sys_cons _ demo_sys None (mkSys demo_cell svs1) [(0, AAllocateNext, Ok 71)]).
    { apply sys_start. reflexivity. }
    apply (sys_cons _ _ None (mkSys demo_cell svs2) [(0, AAllocateNext, Ok 71)]).
    { apply (sys_read _ demo_cell svs1 0 (sv_state demo_server) AAllocateNext 54 0).
      - reflexivity.
      - vm_compute. lia.
      - left. vm_compute. lia.
      - vm_compute. reflexivity. }
    apply (sys_cons _ _ (Some (0, AAllocateNext, Ok 71)) y' [] y'); [|constructor].
    apply (sys_write _ demo_cell svs2 0 demo_read.1.1 AAllocateNext demo_read.1.2 71).
    - reflexivity.
    - vm_compute. reflexivity. }
  exists y'. split; [exact Hsteps|].
  apply (range_allocator_linearizable demo_res 200 16 "30000-30199" demo_sys
    (taken demo_bitmap) [(0, AAllocateNext, Ok 71)] y'); [|exact Hsteps].
  apply (sys_inv_init 200 16 "30000-30199" demo_cell
    (mkRangeAllocation "RangeAllocation" "v1" (Some "v") "30000-30199" (snapshot demo_bitmap).2) demo_bitmap).
  - reflexivity.
  - exact demo_bitmap_inv.
  - split_and!; reflexivity.
  - reflexivity.
  - reflexivity.
  - intros n sv. rewrite lookup_insert_Some. intros [[_ <-]|[_ Hs]]; [done|].
    apply lookup_singleton_Some in Hs as [_ <-]. done.
Defined.

Lemma create_or_update_compares_witness :
  exists msg, (create_or_update "servicenodeportallocations" demo_cell (sv_state demo_server)
    (mkRangeAllocation "" "" (Some "iv") "30000-30199" [])).2 = Err (EConflict msg).
Proof.
  pose proof (create_or_update_compares "servicenodeportallocations" demo_cell (sv_state demo_server)
    (mkRangeAllocation "" "" (Some "iv") "30000-30199" []) eq_refl) as H.
  destruct (create_or_update _ _ _ _) as [[s' st'] r] eqn:E. simpl in H.
  destruct H as (msg & -> & _). exists msg. reflexivity.
Defined.
