(* ===== verification/MemoryStorage.v ===== *)
(** * The in-memory storage backend

    Model of [crates/storage/src/memory.rs], with [extract_resource_version] of
    [concurrency.rs] and [Preconditions::check] of [preconditions.rs]: a map
    from keys to serialised objects, a revision counter that every write
    advances and stamps on the object, a bounded history of events and of the
    values they replaced, and the bus the watchers read.

    - JSON is [serde_json]'s: the interface [JsonLib] states what the code uses
      of it.  The generic object type is the JSON value itself.
    - Every method is atomic here.  In the code a writer releases the data lock
      before it appends to the history, so another writer can come between.
    - [uuid] and [now] are the fresh UID and the timestamp of a creation.
    - [mem_bus] is the log of [bus.publish]. *)

From stdpp Require Import pretty sorting.
From Stdlib Require Import Sorted.
From Stdlib Require String.
From S2P Require Import Prelude.

(** What the code uses of [serde_json], and what it relies on: parsing undoes
    printing; a string put into the [metadata] object is read back, and the
    other fields are left alone. *)
Class JsonLib := {
  Value : Type;
  Blob : Type;
  json_to_string : Value -> Blob;
  json_from_str : Blob -> option Value;
  (** [value.get("metadata").and_then(|m| m.get(f)).and_then(|v| v.as_str())] *)
  meta_str : Value -> string -> option string;
  (** The field is absent or null. *)
  meta_missing : Value -> string -> bool;
  (** [metadata] is an object. *)
  has_metadata : Value -> bool;
  (** Insert a string into the [metadata] object, if there is one. *)
  set_meta : Value -> string -> string -> Value;
  json_round_trip v : json_from_str (json_to_string v) = Some v;
  set_meta_same v f s : has_metadata v = true -> meta_str (set_meta v f s) f = Some s;
  set_meta_other v f g s : f <> g -> meta_str (set_meta v f s) g = meta_str v g;
  set_meta_none v f s : has_metadata v = false -> set_meta v f s = v;
  has_metadata_set v f s : has_metadata (set_meta v f s) = has_metadata v;
  no_metadata v f : has_metadata v = false -> meta_str v f = None
}.

Section Memory.
Context `{!JsonLib}.
Local Open Scope rust_scope.

Inductive StorageError :=
| ENotFound (key : string)
| EAlreadyExists (key : string)
| EConflict (msg : string)
| EGone (msg : string)
| ESerialization.

Inductive WatchEvent :=
| EvAdded (key : string) (value : Blob)
| EvModified (key : string) (value : Blob)
| EvDeleted (key : string) (value : Blob).

Definition event_key (e : WatchEvent) : string :=
  match e with EvAdded k _ | EvModified k _ | EvDeleted k _ => k end.

Record History := mkHistory {
  h_events : list (Z * WatchEvent);
  h_capacity : nat;
  h_evicted_floor : Z;
  h_undo : list (Z * string * option Blob)
}.

Record MemoryStorage := mkMemory {
  mem_history : History;
  mem_data : gmap string Blob;
  mem_bus : list WatchEvent;
  mem_conflicts : nat;
  mem_compacted : Z;
  mem_revision : Z;
  mem_expiries : gmap string nat;
  mem_generation : nat
}.

Definition with_history_capacity (capacity : nat) : MemoryStorage :=
  mkMemory (mkHistory [] (Nat.max capacity 1) 0 []) ∅ [] 0 0 1 ∅ 0.

Definition set_data (m : MemoryStorage) (d : gmap string Blob) : MemoryStorage :=
  mkMemory (mem_history m) d (mem_bus m) (mem_conflicts m) (mem_compacted m) (mem_revision m)
    (mem_expiries m) (mem_generation m).
Definition set_revision (m : MemoryStorage) (r : Z) : MemoryStorage :=
  mkMemory (mem_history m) (mem_data m) (mem_bus m) (mem_conflicts m) (mem_compacted m) r
    (mem_expiries m) (mem_generation m).
Definition set_expiries (m : MemoryStorage) (e : gmap string nat) (g : nat) : MemoryStorage :=
  mkMemory (mem_history m) (mem_data m) (mem_bus m) (mem_conflicts m) (mem_compacted m)
    (mem_revision m) e g.
Definition set_conflicts (m : MemoryStorage) (n : nat) : MemoryStorage :=
  mkMemory (mem_history m) (mem_data m) (mem_bus m) n (mem_compacted m) (mem_revision m)
    (mem_expiries m) (mem_generation m).

(** ** Helpers *)

(** [mod_revision_to_resource_version] *)
Definition mod_revision_to_resource_version (rev : Z) : string := pretty rev.

(** [extract_resource_version] of the object's metadata: an empty string counts
    as absent. *)
Definition extract_resource_version (v : Value) : option string :=
  s ← meta_str v "resourceVersion";
  if decide (s = "") then None else Some s.

Definition set_ttl (m : MemoryStorage) (key : string) (ttl : nat) : MemoryStorage :=
  if decide (ttl = 0) then set_expiries m (delete key (mem_expiries m)) (mem_generation m)
  else set_expiries m (<[key := S (mem_generation m)]> (mem_expiries m)) (S (mem_generation m)).

(** What [emit] does to the history: drop the oldest event when full, append. *)
Definition emit_history (h : History) (rev : Z) (ev : WatchEvent) (previous : option Blob) : History :=
  let '(events, floor, undo) :=
    if decide (h_capacity h <= length (h_events h)) then
      match h_events h with
      | (r, _) :: events => (events, Z.max (h_evicted_floor h) r, tail (h_undo h))
      | [] => ([], h_evicted_floor h, tail (h_undo h))
      end
    else (h_events h, h_evicted_floor h, h_undo h) in
  mkHistory (events ++ [(rev, ev)]) (h_capacity h) floor (undo ++ [(rev, event_key ev, previous)]).

Definition emit (m : MemoryStorage) (rev : Z) (ev : WatchEvent) (previous : option Blob) : MemoryStorage :=
  mkMemory (emit_history (mem_history m) rev ev previous) (mem_data m) (mem_bus m ++ [ev])
    (mem_conflicts m) (mem_compacted m) (mem_revision m) (mem_expiries m) (mem_generation m).

Definition stamp_revision (m : MemoryStorage) (v : Value) : MemoryStorage * Z * Value :=
  let rev := (mem_revision m + 1)%Z in
  (set_revision m rev, rev, set_meta v "resourceVersion" (mod_revision_to_resource_version rev)).

Record Preconditions := mkPreconditions { pre_uid : option string; pre_rv : option string }.

(** [Preconditions::check] *)
Definition check (p : Preconditions) (obj : Value) : result unit StorageError :=
  let str_of f := default "" (meta_str obj f) in
  try _ <- match pre_uid p with
           | Some uid =>
               if decide (uid = str_of "uid") then Ok tt
               else Err (EConflict ("Precondition failed: UID in precondition: " +:+ uid
                                    +:+ ", UID in object meta: " +:+ str_of "uid"))
           | None => Ok tt
           end ;
  match pre_rv p with
  | Some rv =>
      if decide (rv = str_of "resourceVersion") then Ok tt
      else Err (EConflict ("Precondition failed: ResourceVersion in precondition: " +:+ rv
                           +:+ ", ResourceVersion in object meta: " +:+ str_of "resourceVersion"))
  | None => Ok tt
  end.

(** ** Writes *)

Definition stamp_creation (v : Value) (uuid now : string) : Value :=
  if has_metadata v then
    let v1 := match meta_str v "uid" with
              | Some s => if decide (s = "") then set_meta v "uid" uuid else v
              | None => set_meta v "uid" uuid
              end in
    if meta_missing v1 "creationTimestamp" then set_meta v1 "creationTimestamp" now else v1
  else v.

Definition create_with_ttl (m : MemoryStorage) (key : string) (value : Value) (ttl : nat)
    (uuid now : string) : MemoryStorage * result Value StorageError :=
  let v := stamp_creation value uuid now in
  match mem_data m !! key with
  | Some _ => (m, Err (EAlreadyExists key))
  | None =>
      let '(m1, rev, v1) := stamp_revision m v in
      let serialized := json_to_string v1 in
      let m2 := set_ttl (set_data m1 (<[key := serialized]> (mem_data m1))) key ttl in
      (emit m2 rev (EvAdded key serialized) None, Ok v1)
  end.

Definition mem_create (m : MemoryStorage) (key : string) (value : Value) (uuid now : string)
    : MemoryStorage * result Value StorageError := create_with_ttl m key value 0 uuid now.

Definition update_with_ttl (m : MemoryStorage) (key : string) (value : Value) (ttl : nat)
    : MemoryStorage * result Value StorageError :=
  if decide (0 < mem_conflicts m) then
    (set_conflicts m (mem_conflicts m - 1), Err (EConflict "injected conflict for test"))
  else
    match mem_data m !! key with
    | None => (m, Err (ENotFound key))
    | Some stored =>
        let stored_rv := json_from_str stored ≫= extract_resource_version in
        let mismatch :=
          match extract_resource_version value, stored_rv with
          | Some incoming, Some current =>
              if decide (current = incoming) then None
              else Some ("resourceVersion mismatch: resource was modified (expected: " +:+ incoming
                         +:+ ", current: " +:+ current +:+ ")")
          | _, _ => None
          end in
        match mismatch with
        | Some msg => (m, Err (EConflict msg))
        | None =>
            let '(m1, rev, v1) := stamp_revision m value in
            let serialized := json_to_string v1 in
            let m2 := set_ttl (set_data m1 (<[key := serialized]> (mem_data m1))) key ttl in
            (emit m2 rev (EvModified key serialized) (Some stored), Ok v1)
        end
    end.

Definition mem_update (m : MemoryStorage) (key : string) (value : Value)
    : MemoryStorage * result Value StorageError := update_with_ttl m key value 0.

Definition update_raw (m : MemoryStorage) (key : string) (value : Value)
    : MemoryStorage * result unit StorageError :=
  match mem_data m !! key with
  | None => (m, Err (ENotFound key))
  | Some stored =>
      let '(m1, rev, v1) := stamp_revision m value in
      let serialized := json_to_string v1 in
      (emit (set_data m1 (<[key := serialized]> (mem_data m1))) rev (EvModified key serialized) (Some stored),
       Ok tt)
  end.

(** The deleted object carries the revision of the deletion. *)
Definition stamp_deleted (previous : Blob) (rev : Z) : Blob :=
  match json_from_str previous with
  | Some v =>
      if has_metadata v
      then json_to_string (set_meta v "resourceVersion" (mod_revision_to_resource_version rev))
      else previous
  | None => previous
  end.

Definition delete_inner (m : MemoryStorage) (key : string) (preconditions : option Preconditions)
    : MemoryStorage * result unit StorageError :=
  let checked :=
    match preconditions with
    | None => Ok tt
    | Some pre =>
        match mem_data m !! key with
        | None => Err (ENotFound key)
        | Some current =>
            match json_from_str current with
            | None => Err ESerialization
            | Some obj => check pre obj
            end
        end
    end in
  match checked with
  | Err e => (m, Err e)
  | Ok _ =>
      match mem_data m !! key with
      | None => (m, Err (ENotFound key))
      | Some previous =>
          let rev := (mem_revision m + 1)%Z in
          let m1 := set_revision (set_data m (delete key (mem_data m))) rev in
          let m2 := set_expiries m1 (delete key (mem_expiries m1)) (mem_generation m1) in
          (emit m2 rev (EvDeleted key (stamp_deleted previous rev)) (Some previous), Ok tt)
      end
  end.

Definition mem_delete (m : MemoryStorage) (key : string) : MemoryStorage * result unit StorageError :=
  delete_inner m key None.
Definition delete_with_preconditions (m : MemoryStorage) (key : string) (pre : Preconditions)
    : MemoryStorage * result unit StorageError := delete_inner m key (Some pre).

(** The timer task of [set_ttl] when it fires. *)
Definition expire (m : MemoryStorage) (key : string) (generation : nat) : MemoryStorage :=
  if decide (mem_expiries m !! key = Some generation) then
    (mem_delete (set_expiries m (delete key (mem_expiries m)) (mem_generation m)) key).1
  else m.

Definition compact_to (m : MemoryStorage) (revision : Z) : MemoryStorage :=
  mkMemory (mem_history m) (mem_data m) (mem_bus m) (mem_conflicts m) revision (mem_revision m)
    (mem_expiries m) (mem_generation m).

Definition inject_conflicts (m : MemoryStorage) (n : nat) : MemoryStorage := set_conflicts m n.

Definition mem_clear (m : MemoryStorage) : MemoryStorage := set_data m ∅.

(** ** Reads *)

Definition mem_get (m : MemoryStorage) (key : string) : result Value StorageError :=
  match mem_data m !! key with
  | None => Err (ENotFound key)
  | Some value => match json_from_str value with Some v => Ok v | None => Err ESerialization end
  end.

Definition key_le (a b : string * Blob) : Prop := String.leb a.1 b.1 = true.

#[global] Instance key_le_dec : RelDecision key_le.
Proof. intros a b. unfold key_le. apply _. Defined.

(** The values under a prefix, in key order. *)
Definition values_in_order (d : gmap string Blob) (prefix : string) : list Blob :=
  (merge_sort key_le (map_to_list (filter (fun kv => String.prefix prefix kv.1 = true) d))).*2.

Fixpoint parse_all (l : list Blob) : result (list Value) StorageError :=
  match l with
  | [] => Ok []
  | b :: l' =>
      match json_from_str b with
      | None => Err ESerialization
      | Some v => try vs <- parse_all l' ; Ok (v :: vs)
      end
  end.

Definition mem_list (m : MemoryStorage) (prefix : string) : result (list Value) StorageError :=
  parse_all (values_in_order (mem_data m) prefix).

(** One entry of the undo log applied by [list_at_revision]. *)
Definition undo_entry (prefix : string) (revision : Z) (state : gmap string Blob)
    (entry : Z * string * option Blob) : gmap string Blob :=
  let '(rev, key, previous) := entry in
  if decide (rev <= revision \/ String.prefix prefix key = false)%Z then state
  else match previous with Some v => <[key := v]> state | None => delete key state end.

Definition list_at_revision (m : MemoryStorage) (prefix : string) (revision : Z)
    : result (list Value) StorageError :=
  if decide (revision <= 0 \/ mem_revision m <= revision)%Z then mem_list m prefix
  else
    let h := mem_history m in
    if decide (revision < h_evicted_floor h \/ (0 < mem_compacted m /\ revision <= mem_compacted m))%Z then
      Err (EGone "The resourceVersion for the provided list is too old.")
    else
      let state := filter (fun kv => String.prefix prefix kv.1 = true) (mem_data m) in
      let state := foldl (undo_entry prefix revision) state (reverse (h_undo h)) in
      parse_all (merge_sort key_le (map_to_list state)).*2.

(** The replayed part of the stream; the rest is what the bus publishes next. *)
Definition watch_from_revision (m : MemoryStorage) (prefix : string) (revision : Z)
    : result (list WatchEvent) StorageError :=
  if decide (revision <= 0)%Z then Ok []
  else
    let h := mem_history m in
    if decide (revision <= h_evicted_floor h \/ (0 < mem_compacted m /\ revision <= mem_compacted m))%Z then
      Err (EGone ("too old resource version: " +:+ pretty revision +:+ " ("
                  +:+ pretty (Z.max (h_evicted_floor h) (mem_compacted m) + 1)%Z +:+ ")"))
    else
      Ok (snd <$> filter (fun re => (revision <= re.1)%Z /\ String.prefix prefix (event_key re.2) = true)
                    (h_events h)).

Definition current_revision (m : MemoryStorage) : Z := mem_revision m.

Definition is_revision_compacted (m : MemoryStorage) (revision : Z) : bool :=
  bool_decide (0 < mem_compacted m /\ revision <= mem_compacted m)%Z.

(** ** Runs *)

(** The methods that change the storage; [mem_clear], a test helper that drops
    the data behind the history's back, is not one of them. *)
Inductive mem_op :=
| MCreate (key : string) (value : Value) (ttl : nat) (uuid now : string)
| MUpdate (key : string) (value : Value) (ttl : nat)
| MUpdateRaw (key : string) (value : Value)
| MDelete (key : string) (pre : option Preconditions)
| MExpire (key : string) (generation : nat)
| MCompact (revision : Z)
| MInject (n : nat).

Definition mem_run (m : MemoryStorage) (op : mem_op) : MemoryStorage :=
  match op with
  | MCreate key value ttl uuid now => (create_with_ttl m key value ttl uuid now).1
  | MUpdate key value ttl => (update_with_ttl m key value ttl).1
  | MUpdateRaw key value => (update_raw m key value).1
  | MDelete key pre => (delete_inner m key pre).1
  | MExpire key generation => expire m key generation
  | MCompact revision => compact_to m revision
  | MInject n => inject_conflicts m n
  end.

Definition mem_runs (m : MemoryStorage) (ops : list mem_op) : MemoryStorage := foldl mem_run m ops.


(** ** Proofs *)

(** A call either leaves data, history, bus and revision alone, or is one write:
    it advances the revision by one, changes one key, and emits one event with
    the value the key had. *)
Definition unchanged (m m' : MemoryStorage) : Prop :=
  mem_history m' = mem_history m /\ mem_data m' = mem_data m /\ mem_bus m' = mem_bus m /\
  mem_revision m' = mem_revision m.

Definition wrote (m : MemoryStorage) (ev : WatchEvent) (m' : MemoryStorage) : Prop :=
  mem_revision m' = (mem_revision m + 1)%Z /\ mem_bus m' = mem_bus m ++ [ev] /\
  mem_history m' = emit_history (mem_history m) (mem_revision m + 1) ev (mem_data m !! event_key ev) /\
  forall k, k <> event_key ev -> mem_data m' !! k = mem_data m !! k.

Lemma set_ttl_same m key ttl :
  mem_history (set_ttl m key ttl) = mem_history m /\ mem_data (set_ttl m key ttl) = mem_data m /\
  mem_bus (set_ttl m key ttl) = mem_bus m /\ mem_revision (set_ttl m key ttl) = mem_revision m.
Proof. unfold set_ttl. by case_decide. Qed.

Lemma delete_inner_shape m key pre :
  unchanged m (delete_inner m key pre).1 \/ exists ev, wrote m ev (delete_inner m key pre).1.
Proof.
  unfold delete_inner. destruct (match pre with None => Ok tt | Some _ => _ end); [|by left].
  destruct (mem_data m !! key) as [previous|] eqn:Hk; [right|by left].
  eexists. split_and!; simpl; [done|done|by rewrite Hk|]. intros k Hne. by rewrite lookup_delete_ne.
Qed.

Lemma write_shape m key v ttl ev :
  event_key (ev (json_to_string (stamp_revision m v).2)) = key ->
  let '(m1, rev, v1) := stamp_revision m v in
  wrote m (ev (json_to_string v1))
    (emit (set_ttl (set_data m1 (<[key := json_to_string v1]> (mem_data m1))) key ttl) rev
       (ev (json_to_string v1)) (mem_data m !! key)).
Proof.
  simpl. intros Hk. set (m2 := set_data _ _). destruct (set_ttl_same m2 key ttl) as (Hh & Hd & Hb & Hr).
  split_and!; simpl.
  - by rewrite Hr.
  - by rewrite Hb.
  - by rewrite Hh Hk.
  - intros k Hne. rewrite Hd. subst m2. simpl. rewrite lookup_insert_ne //. congruence.
Qed.

Lemma mem_run_shape m op :
  unchanged m (mem_run m op) \/ exists ev, wrote m ev (mem_run m op).
Proof.
  destruct op as [key v ttl uuid now|key v ttl|key v|key pre|key g|r|n]; cbn [mem_run]; [| | | | |by left|by left].
  - unfold create_with_ttl. destruct (mem_data m !! key) eqn:Hk; [by left|right].
    pose proof (write_shape m key (stamp_creation v uuid now) ttl (EvAdded key) eq_refl) as Hw.
    rewrite Hk in Hw. simpl in *. by eexists.
  - unfold update_with_ttl. case_decide; [by left|]. destruct (mem_data m !! key) eqn:Hk; [|by left].
    destruct (match extract_resource_version v with Some _ => _ | None => _ end); [by left|right].
    pose proof (write_shape m key v ttl (EvModified key) eq_refl) as Hw. rewrite Hk in Hw.
    simpl in *. by eexists.
  - unfold update_raw. destruct (mem_data m !! key) eqn:Hk; [right|by left]. eexists.
    split_and!; simpl; [done|done|by rewrite Hk|]. intros k Hne. by rewrite lookup_insert_ne.
  - apply delete_inner_shape.
  - unfold expire. case_decide; [|by left].
    destruct (delete_inner_shape (set_expiries m (delete key (mem_expiries m)) (mem_generation m)) key None)
      as [?|[ev ?]]; [by left|right; by exists ev].
Qed.

(** *** The history *)

Record hist_inv (h : History) (rev : Z) : Prop := {
  hi_capacity : 0 < h_capacity h;
  hi_aligned : (h_events h).*1 = (fun u => u.1.1) <$> h_undo h;
  hi_bound r ev : (r, ev) ∈ h_events h -> (r <= rev)%Z;
  hi_floor : (h_evicted_floor h <= rev)%Z
}.

Lemma hist_inv_new capacity : hist_inv (mem_history (with_history_capacity capacity)) 1.
Proof. split; simpl; [lia|done|set_solver|lia]. Qed.

(** Either nothing is dropped, or the oldest entry of both lists. *)
Lemma emit_history_cases h rev ev prev :
  hist_inv h rev ->
  let h' := emit_history h (rev + 1) ev prev in
  (h' = mkHistory (h_events h ++ [((rev + 1)%Z, ev)]) (h_capacity h) (h_evicted_floor h)
          (h_undo h ++ [((rev + 1)%Z, event_key ev, prev)])) \/
  (exists r e0 events k p undo, h_events h = (r, e0) :: events /\ h_undo h = (r, k, p) :: undo /\
     h' = mkHistory (events ++ [((rev + 1)%Z, ev)]) (h_capacity h) (Z.max (h_evicted_floor h) r)
            (undo ++ [((rev + 1)%Z, event_key ev, prev)])).
Proof.
  intros [Hc Ha _ _]. unfold emit_history. cbn zeta. case_decide as Hlen; [right|by left].
  destruct (h_events h) as [|[r e0] events] eqn:He; [simpl in Hlen; lia|].
  destruct (h_undo h) as [|[[r' k] p] undo] eqn:Hu; [done|]. csimpl in Ha. injection Ha as -> Ha.
  by exists r', e0, events, k, p, undo.
Qed.

Lemma hist_inv_emit h rev ev prev :
  hist_inv h rev -> hist_inv (emit_history h (rev + 1) ev prev) (rev + 1).
Proof.
  intros Hi. pose proof Hi as [Hc Ha Hb Hf].
  destruct (emit_history_cases h rev ev prev Hi) as [->|(r & e0 & events & k & p & undo & He & Hu & ->)].
  - split; simpl; [done| | |lia].
    + by rewrite !fmap_app Ha.
    + intros r e. rewrite elem_of_app list_elem_of_singleton. intros [?%Hb|[= -> ->]]; lia.
  - rewrite He Hu in Ha. csimpl in Ha. injection Ha as Ha. split; simpl; [done| | |].
    + by rewrite !fmap_app Ha.
    + intros r' e. rewrite elem_of_app list_elem_of_singleton. intros [?|[= -> ->]]; [|lia].
      assert (r' <= rev)%Z; [|lia]. apply (Hb r' e). rewrite He. set_solver.
    + assert (r <= rev)%Z; [|lia]. apply (Hb r e0). rewrite He. set_solver.
Qed.

Lemma mem_run_inv m op :
  hist_inv (mem_history m) (mem_revision m) -> hist_inv (mem_history (mem_run m op)) (mem_revision (mem_run m op)).
Proof.
  intros Hi. destruct (mem_run_shape m op) as [(-> & _ & _ & ->)|(ev & -> & _ & -> & _)]; [done|].
  by apply hist_inv_emit.
Qed.

(** *** Rewinding *)

(** Undoing one write newer than [r]. *)
Definition undo_full (r : Z) (d : gmap string Blob) (entry : Z * string * option Blob) : gmap string Blob :=
  let '(rev, key, previous) := entry in
  if decide (rev <= r)%Z then d
  else match previous with Some v => <[key := v]> d | None => delete key d end.

Definition rewind (undo : list (Z * string * option Blob)) (r : Z) (d : gmap string Blob) : gmap string Blob :=
  foldl (undo_full r) d (reverse undo).

(** The history of [m] still tells the data [d0] and the events since [r]. *)
Definition remembers (m : MemoryStorage) (r : Z) (d0 : gmap string Blob) (evs : list WatchEvent) : Prop :=
  (r <= mem_revision m)%Z /\ (mem_revision m = r -> mem_data m = d0) /\
  ((h_evicted_floor (mem_history m) <= r)%Z ->
   rewind (h_undo (mem_history m)) r (mem_data m) = d0 /\
   snd <$> filter (fun re => r + 1 <= re.1)%Z (h_events (mem_history m)) = evs).

Lemma undo_write r d d' rev k :
  (r < rev)%Z -> (forall k', k' <> k -> d' !! k' = d !! k') -> undo_full r d' (rev, k, d !! k) = d.
Proof.
  intros Hr Hd. unfold undo_full. rewrite decide_False; [lia|]. apply map_eq. intros k'.
  destruct (d !! k) eqn:Hk; (destruct (decide (k' = k)) as [->|Hne]).
  - by rewrite lookup_insert_eq.
  - by rewrite lookup_insert_ne // Hd.
  - by rewrite lookup_delete_eq.
  - by rewrite lookup_delete_ne // Hd.
Qed.

Lemma rewind_snoc undo r d d' rev k :
  (r < rev)%Z -> (forall k', k' <> k -> d' !! k' = d !! k') ->
  rewind (undo ++ [(rev, k, d !! k)]) r d' = rewind undo r d.
Proof. intros Hr Hd. unfold rewind. rewrite reverse_snoc. cbn [foldl]. by rewrite undo_write. Qed.

Lemma rewind_old undo r d rev k p : (rev <= r)%Z -> rewind ((rev, k, p) :: undo) r d = rewind undo r d.
Proof.
  intros Hr. unfold rewind. rewrite reverse_cons foldl_app. cbn [foldl undo_full]. by rewrite decide_True.
Qed.

Lemma remembers_step m op r d0 evs :
  hist_inv (mem_history m) (mem_revision m) -> remembers m r d0 evs ->
  exists evs', mem_bus (mem_run m op) = mem_bus m ++ evs' /\ remembers (mem_run m op) r d0 (evs ++ evs').
Proof.
  intros Hi (Hr & Hd & Hrem). destruct (mem_run_shape m op) as [(Hh & Hda & Hb & Hre)|(ev & Hre & Hb & Hh & Hda)].
  { exists []. rewrite !app_nil_r. split; [done|]. unfold remembers. by rewrite Hh Hda Hre. }
  exists [ev]. split; [done|]. unfold remembers. rewrite Hre Hh. split; [lia|]. split; [lia|].
  destruct (emit_history_cases (mem_history m) (mem_revision m) ev (mem_data m !! event_key ev) Hi)
    as [->|(r0 & e0 & events & k & p & undo & He & Hu & ->)]; cbn [h_evicted_floor h_undo h_events]; intros Hf.
  - destruct (Hrem Hf) as [Hrw Hev]. split; [by rewrite rewind_snoc //; lia|].
    rewrite filter_app fmap_app Hev. f_equal. rewrite filter_cons_True /=; [lia|done].
  - destruct Hrem as [Hrw Hev]; [lia|]. rewrite Hu rewind_old in Hrw; [lia|].
    split; [by rewrite rewind_snoc //; lia|]. rewrite He filter_cons_False /= in Hev; [lia|].
    rewrite filter_app fmap_app Hev. f_equal. rewrite filter_cons_True /=; [lia|done].
Qed.

Lemma remembers_runs m0 ops m r d0 evs :
  hist_inv (mem_history m) (mem_revision m) -> remembers m r d0 evs -> mem_bus m = mem_bus m0 ++ evs ->
  exists evs', mem_bus (mem_runs m ops) = mem_bus m0 ++ evs' /\ remembers (mem_runs m ops) r d0 evs'.
Proof.
  revert m evs. induction ops as [|op ops IH]; intros m evs Hi Hrem Hb; [by exists evs|].
  destruct (remembers_step m op r d0 evs Hi Hrem) as (evs' & Hb' & Hrem'). unfold mem_runs. cbn [foldl].
  apply (IH _ (evs ++ evs')); [by apply mem_run_inv|done|]. by rewrite Hb' Hb app_assoc.
Qed.

Lemma hist_inv_runs m ops :
  hist_inv (mem_history m) (mem_revision m) ->
  hist_inv (mem_history (mem_runs m ops)) (mem_revision (mem_runs m ops)).
Proof.
  revert m. induction ops as [|op ops IH]; intros m Hi; [done|]. unfold mem_runs. cbn [foldl].
  by apply IH, mem_run_inv.
Qed.

Lemma filter_none {A} (P : A -> Prop) {HD : forall x, Decision (P x)} (l : list A) :
  (forall x, x ∈ l -> ~ P x) -> filter P l = [].
Proof.
  induction l as [|x l IH]; intros Hl; [done|]. rewrite filter_cons_False; [apply Hl; set_solver|].
  apply IH. set_solver.
Qed.

Lemma revision_mono m ops : (mem_revision m <= mem_revision (mem_runs m ops))%Z.
Proof.
  revert m. induction ops as [|op ops IH]; intros m; [done|]. unfold mem_runs in *. cbn [foldl].
  specialize (IH (mem_run m op)). destruct (mem_run_shape m op) as [(_ & _ & _ & Hr)|(ev & Hr & _)]; lia.
Qed.

Lemma remembers_now m : hist_inv (mem_history m) (mem_revision m) -> remembers m (mem_revision m) (mem_data m) [].
Proof.
  intros [_ Ha Hb _]. split; [lia|]. split; [done|]. intros _. split.
  - assert (forall u, u ∈ h_undo (mem_history m) -> (u.1.1 <= mem_revision m)%Z) as Hu.
    { intros u Hu. assert (u.1.1 ∈ (h_events (mem_history m)).*1) as Hin.
      { rewrite Ha. by apply (list_elem_of_fmap_2 (fun u => u.1.1)). }
      apply list_elem_of_fmap in Hin as ([r ev] & -> & Hin). by eapply Hb. }
    unfold rewind. revert Hu. generalize (h_undo (mem_history m)). intros l.
    induction l as [|[[r k] p] l IH]; intros Hl; [done|]. rewrite reverse_cons foldl_app IH; [set_solver|].
    cbn [foldl undo_full]. rewrite decide_True //. apply (Hl (r, k, p)). set_solver.
  - rewrite filter_none //. intros [r ev] Hin%Hb. simpl. lia.
Qed.

Lemma undo_entry_filter prefix r d entry :
  undo_entry prefix r (filter (fun kv => String.prefix prefix kv.1 = true) d) entry =
  filter (fun kv => String.prefix prefix kv.1 = true) (undo_full r d entry).
Proof.
  destruct entry as [[rev k] p]. unfold undo_entry, undo_full.
  destruct (decide (rev <= r)%Z) as [Hr|Hr]; [by rewrite decide_True; [left|]|].
  destruct (String.prefix prefix k) eqn:Hp.
  - rewrite decide_False; [naive_solver|]. destruct p as [v|]; [by rewrite map_filter_insert_True|].
    by rewrite map_filter_delete.
  - rewrite decide_True; [by right|]. destruct p as [v|].
    + rewrite map_filter_insert_False /=; [congruence|]. rewrite map_filter_delete delete_id //.
      apply map_lookup_filter_None. right. intros x _. simpl. congruence.
    + rewrite map_filter_delete delete_id //. apply map_lookup_filter_None. right.
      intros x _. simpl. congruence.
Qed.

Lemma rewind_filter prefix r d undo :
  foldl (undo_entry prefix r) (filter (fun kv => String.prefix prefix kv.1 = true) d) (reverse undo) =
  filter (fun kv => String.prefix prefix kv.1 = true) (rewind undo r d).
Proof.
  unfold rewind. revert d. induction (reverse undo) as [|e l IH]; intros d; [done|].
  cbn [foldl]. by rewrite undo_entry_filter IH.
Qed.

(** The revision is no longer covered by the history, or compacted. *)
Definition too_old (m : MemoryStorage) (r : Z) : Prop :=
  (r < h_evicted_floor (mem_history m) \/ (0 < mem_compacted m /\ r <= mem_compacted m))%Z.

(** C21: reading at a past revision is reading the past: after any writes,
    deletions and expiries, [list_at_revision] at the revision a storage had
    answers exactly what [list] answered then, or that the revision is gone,
    and the latter only if it was evicted from the bounded history or
    compacted. *)
Theorem list_at_revision_time_travel capacity before after prefix :
  let m0 := mem_runs (with_history_capacity capacity) before in
  let m1 := mem_runs m0 after in
  let r := current_revision m0 in
  list_at_revision m1 prefix r = mem_list m0 prefix \/
  (too_old m1 r /\ list_at_revision m1 prefix r = Err (EGone "The resourceVersion for the provided list is too old.")).
Proof.
  intros m0 m1 r. pose proof (hist_inv_runs _ before (hist_inv_new capacity)) as Hi. fold m0 in Hi.
  destruct (remembers_runs m0 after m0 _ _ _ Hi (remembers_now m0 Hi)) as (evs & _ & Hle & Hsame & Hrem);
    [by rewrite app_nil_r|]. fold m1 in Hle, Hsame, Hrem. fold r in Hle, Hsame, Hrem.
  unfold list_at_revision. case_decide as Hlive.
  - left. pose proof (revision_mono (with_history_capacity capacity) before) as Hpos. fold m0 in Hpos.
    unfold mem_list. rewrite Hsame //. unfold r, current_revision in *. simpl in Hpos. lia.
  - case_decide as Hold; [by right|left]. destruct Hrem as [Hrw _]; [unfold r, current_revision in *; lia|].
    rewrite rewind_filter Hrw. done.
Qed.

(** C22: a watch that starts where a list ended misses nothing: resumed from the
    revision after the one a storage had, [watch_from_revision] replays exactly
    the events published since under the prefix, each once and in order, or
    answers that the revision is gone. *)
Theorem watch_resume_complete capacity before after prefix :
  let m0 := mem_runs (with_history_capacity capacity) before in
  let m1 := mem_runs m0 after in
  let start := (current_revision m0 + 1)%Z in
  exists since, mem_bus m1 = mem_bus m0 ++ since /\
    (watch_from_revision m1 prefix start =
       Ok (filter (fun ev => String.prefix prefix (event_key ev) = true) since) \/
     (too_old m1 start \/ start = h_evicted_floor (mem_history m1)) /\
     exists msg, watch_from_revision m1 prefix start = Err (EGone msg)).
Proof.
  intros m0 m1 start. pose proof (hist_inv_runs _ before (hist_inv_new capacity)) as Hi. fold m0 in Hi.
  destruct (remembers_runs m0 after m0 _ _ _ Hi (remembers_now m0 Hi)) as (evs & Hb & _ & _ & Hrem);
    [by rewrite app_nil_r|]. fold m1 in Hb, Hrem. exists evs. split; [done|].
  unfold watch_from_revision. assert (1 <= current_revision m0)%Z as Hpos
    by apply (revision_mono (with_history_capacity capacity)).
  rewrite decide_False; [unfold start; lia|]. case_decide as Hold.
  - right. split; [unfold too_old; lia|]. eauto.
  - left. destruct Hrem as [_ Hev]; [unfold start, current_revision in Hold; lia|]. f_equal.
    rewrite -Hev. fold start. clear. induction (h_events (mem_history m1)) as [|[r ev] l IH]; [done|].
    unfold start, current_revision in *. rewrite !filter_cons. simpl.
    destruct (decide (mem_revision m0 + 1 <= r)%Z) as [Hr|Hr].
    + rewrite fmap_cons filter_cons. simpl.
      destruct (decide (String.prefix prefix (event_key ev) = true)) as [Hp|Hp].
      * rewrite decide_True //. by rewrite fmap_cons IH.
      * rewrite decide_False; [naive_solver|]. by rewrite IH.
    + rewrite decide_False; [naive_solver|]. by rewrite IH.
Qed.

(** ** Optimistic concurrency *)

(** [update] is a compare-and-swap: when no test conflict is injected, it
    writes exactly when the key exists and the object's resource version is
    absent or the stored one; the written object is stored under the next
    revision, which is its new resource version, and any other call changes
    nothing. *)
Theorem update_compare_and_swap m key v ttl :
  mem_conflicts m = 0 ->
  let '(m', r) := update_with_ttl m key v ttl in
  match mem_data m !! key with
  | None => r = Err (ENotFound key) /\ m' = m
  | Some b =>
      let stored := json_from_str b ≫= extract_resource_version in
      let incoming := extract_resource_version v in
      if decide (incoming = None \/ stored = None \/ incoming = stored) then
        exists v', r = Ok v' /\ mem_get m' key = Ok v' /\ mem_revision m' = (mem_revision m + 1)%Z /\
          v' = set_meta v "resourceVersion" (mod_revision_to_resource_version (mem_revision m')) /\
          forall k, k <> key -> mem_get m' k = mem_get m k
      else (exists msg, r = Err (EConflict msg)) /\ m' = m
  end.
Proof.
  intros Hc. unfold update_with_ttl. rewrite decide_False; [lia|].
  destruct (mem_data m !! key) as [b|] eqn:Hk; [|done]. cbn zeta.
  set (stored := json_from_str b ≫= extract_resource_version). set (incoming := extract_resource_version v).
  assert (let '(m1, rev, v1) := stamp_revision m v in
    let m' := emit (set_ttl (set_data m1 (<[key := json_to_string v1]> (mem_data m1))) key ttl) rev
                (EvModified key (json_to_string v1)) (Some b) in
    mem_get m' key = Ok v1 /\ mem_revision m' = (mem_revision m + 1)%Z /\
    v1 = set_meta v "resourceVersion" (mod_revision_to_resource_version (mem_revision m')) /\
    forall k, k <> key -> mem_get m' k = mem_get m k) as Hw.
  { simpl. set (m2 := set_data _ _). destruct (set_ttl_same m2 key ttl) as (_ & Hd & _ & Hr).
    unfold mem_get. simpl. rewrite Hd Hr. subst m2. simpl. split_and!; [|done|done|].
    - by rewrite lookup_insert_eq json_round_trip.
    - intros k Hne. by rewrite lookup_insert_ne. }
  simpl in Hw. destruct (decide _) as [Hok|Hbad].
  - assert ((match incoming, stored with
             | Some inc, Some cur => if decide (cur = inc) then None else
                 Some ("resourceVersion mismatch: resource was modified (expected: " +:+ inc
                       +:+ ", current: " +:+ cur +:+ ")")
             | _, _ => None end) = None) as ->.
    { destruct incoming as [inc|], stored as [cur|]; [|done..]. rewrite decide_True //.
      destruct Hok as [?|[?|?]]; congruence. }
    eexists. split; [done|]. exact Hw.
  - destruct incoming as [inc|], stored as [cur|]; [|naive_solver..].
    rewrite decide_False; [naive_solver|]. split; [by eexists|done].
Qed.

(** A precondition on a field of the metadata, an absent field counting as "". *)
Definition field_matches (want : option string) (have : option string) : Prop :=
  forall w, want = Some w -> w = default "" have.

#[global] Instance field_matches_dec want have : Decision (field_matches want have).
Proof.
  destruct want as [w|]; [|left; intros w [=]].
  destruct (decide (w = default "" have)) as [Heq|Hne]; [left; by intros ? [= <-]|right].
  intros Hf. by apply Hne, Hf.
Defined.

Lemma check_spec p v :
  if decide (field_matches (pre_uid p) (meta_str v "uid") /\
             field_matches (pre_rv p) (meta_str v "resourceVersion"))
  then check p v = Ok tt else exists msg, check p v = Err (EConflict msg).
Proof.
  unfold check. destruct (pre_uid p) as [u|], (pre_rv p) as [w|]; simpl;
    repeat case_decide; simpl; try done; try (by eexists); unfold field_matches in *; naive_solver.
Qed.

(** A conditional delete removes the object exactly when it exists, parses,
    and its UID and resource version are the wanted ones; then the key is gone,
    the revision is one more, and one event tells the watchers of the object
    under the revision of its deletion.  Otherwise nothing changes. *)
Theorem delete_if_preconditions_hold m key p :
  let '(m', r) := delete_with_preconditions m key p in
  match mem_data m !! key with
  | None => r = Err (ENotFound key) /\ m' = m
  | Some b =>
      match json_from_str b with
      | None => r = Err ESerialization /\ m' = m
      | Some v =>
          if decide (field_matches (pre_uid p) (meta_str v "uid") /\
                     field_matches (pre_rv p) (meta_str v "resourceVersion")) then
            r = Ok tt /\ mem_data m' = delete key (mem_data m) /\
            mem_revision m' = (mem_revision m + 1)%Z /\
            exists b', mem_bus m' = mem_bus m ++ [EvDeleted key b'] /\
              (has_metadata v = true -> exists v', json_from_str b' = Some v' /\
                 meta_str v' "resourceVersion" = Some (mod_revision_to_resource_version (mem_revision m')))
          else (exists msg, r = Err (EConflict msg)) /\ m' = m
      end
  end.
Proof.
  unfold delete_with_preconditions, delete_inner. destruct (mem_data m !! key) as [b|] eqn:Hb; [|done].
  destruct (json_from_str b) as [v|] eqn:Hv; [|done]. pose proof (check_spec p v) as Hc.
  destruct (decide _) as [Hok|Hbad]; [|destruct Hc as [msg ->]; by eauto].
  rewrite Hc. split; [done|]. split; [done|]. split; [done|]. eexists. split; [done|]. intros Hm.
  unfold stamp_deleted. rewrite Hv Hm. eexists. split; [by rewrite json_round_trip|].
  by rewrite set_meta_same.
Qed.

(** ** Expiry *)

(** A call leaves the lease of a key alone, ends it, or gives it a new one. *)
Definition leases_step (m m' : MemoryStorage) : Prop :=
  mem_generation m <= mem_generation m' /\
  forall k g, mem_expiries m' !! k = Some g ->
    mem_expiries m !! k = Some g \/ (mem_generation m < g /\ g <= mem_generation m').

Lemma set_ttl_leases m key ttl : leases_step m (set_ttl m key ttl).
Proof.
  unfold set_ttl, leases_step. case_decide; simpl; (split; [lia|]); intros k g.
  - rewrite lookup_delete_Some. naive_solver.
  - rewrite lookup_insert_Some. intros [[_ <-]|[_ ?]]; [right; lia|by left].
Qed.

Lemma delete_inner_leases m key pre : leases_step m (delete_inner m key pre).1.
Proof.
  assert (forall m', mem_expiries m' = mem_expiries m -> mem_generation m' = mem_generation m ->
            leases_step m m') as Hsame by (intros m' He Hg; unfold leases_step; rewrite He Hg; auto).
  unfold delete_inner. destruct (match pre with None => Ok tt | Some _ => _ end); [|by apply Hsame].
  destruct (mem_data m !! key); [|by apply Hsame]. split; [done|]. simpl. intros k g.
  rewrite lookup_delete_Some. naive_solver.
Qed.

Lemma run_leases m op : leases_step m (mem_run m op).
Proof.
  assert (forall m', mem_expiries m' = mem_expiries m -> mem_generation m' = mem_generation m ->
            leases_step m m') as Hsame by (intros m' He Hg; unfold leases_step; rewrite He Hg; auto).
  destruct op as [key v ttl uuid now|key v ttl|key v|key pre|key g|r|n]; simpl; try by apply Hsame.
  - unfold create_with_ttl. destruct (mem_data m !! key); [by apply Hsame|]. simpl.
    apply (set_ttl_leases (set_data (set_revision m _) _)).
  - unfold update_with_ttl. case_decide; [by apply Hsame|]. destruct (mem_data m !! key) as [b|]; [|by apply Hsame].
    destruct (match extract_resource_version v with Some _ => _ | None => _ end); [by apply Hsame|]. simpl.
    apply (set_ttl_leases (set_data (set_revision m _) _)).
  - unfold update_raw. destruct (mem_data m !! key); by apply Hsame.
  - apply delete_inner_leases.
  - unfold expire. case_decide; [|by apply Hsame]. unfold mem_delete.
    destruct (delete_inner_leases (set_expiries m (delete key (mem_expiries m)) (mem_generation m)) key None)
      as [Hg He]. split; [done|]. intros k g' Hk. destruct (He k g' Hk) as [H1|H1]; [|by right].
    left. simpl in H1. rewrite lookup_delete_Some in H1. naive_solver.
Qed.

(** A timer that lost its lease never fires.  Once a later write or a
    deletion replaced or ended the TTL a timer was armed for, the timer changes
    nothing whenever it goes off, whatever happened to the key since. *)
Theorem orphaned_timer_never_fires m after key generation :
  generation <= mem_generation m -> mem_expiries m !! key <> Some generation ->
  expire (mem_runs m after) key generation = mem_runs m after.
Proof.
  intros Hg Hne.
  assert (mem_expiries (mem_runs m after) !! key <> Some generation) as Hne'.
  { revert m Hg Hne. induction after as [|op after IH]; intros m Hg Hne; [done|].
    unfold mem_runs. cbn [foldl]. destruct (run_leases m op) as [Hle He].
    apply IH; [lia|]. intros Hk. destruct (He key generation Hk) as [?|[? ?]]; [done|lia]. }
  unfold expire. by rewrite decide_False.
Qed.

End Memory.

(** ** A concrete JSON *)

(** An object with an optional [metadata] of strings and a payload; a blob that
    is not one does not parse. *)
Record Doc := mkDoc { doc_meta : option (gmap string string); doc_body : nat }.

#[global] Program Instance doc_json : JsonLib := {|
  Value := Doc;
  Blob := option Doc;
  json_to_string := Some;
  json_from_str b := b;
  meta_str v f := doc_meta v ≫= lookup f;
  meta_missing v f := bool_decide (doc_meta v ≫= lookup f = None);
  has_metadata v := bool_decide (is_Some (doc_meta v));
  set_meta v f s := mkDoc (insert f s <$> doc_meta v) (doc_body v)
|}.
Next Obligation. done. Qed.
Next Obligation. intros [[g|] b] f s ?; simpl in *; [by rewrite lookup_insert_eq|done]. Qed.
Next Obligation. intros [[g|] b] f h s ?; simpl in *; [by rewrite lookup_insert_ne|done]. Qed.
Next Obligation. intros [[g|] b] f s ?; simpl in *; [done|done]. Qed.
Next Obligation. intros [[g|] b] f s; simpl in *; done. Qed.
Next Obligation. intros [[g|] b] f ?; simpl in *; [done|done]. Qed.

Definition pod_doc (n : nat) : Doc := mkDoc (Some ∅) n.

(** Two pods are created; then one is updated, one deleted and one created. *)
Definition trace_before : list mem_op :=
  [MCreate "/pods/a" (pod_doc 1) 0 "u1" "t1"; MCreate "/pods/b" (pod_doc 2) 0 "u2" "t2"].
Definition trace_after : list mem_op :=
  [MUpdate "/pods/a" (pod_doc 5) 0; MDelete "/pods/b" None; MCreate "/pods/c" (pod_doc 7) 0 "u3" "t3"].

(** At capacity 3 the past list is rebuilt; at capacity 1 it is gone. *)
Lemma list_at_revision_time_travel_witness :
  (let m0 := mem_runs (with_history_capacity 3) trace_before in
   let m1 := mem_runs m0 trace_after in
   list_at_revision m1 "/pods/" (current_revision m0) = mem_list m0 "/pods/" /\
   mem_list m1 "/pods/" <> mem_list m0 "/pods/") /\
  (let m0 := mem_runs (with_history_capacity 1) trace_before in
   let m1 := mem_runs m0 trace_after in too_old m1 (current_revision m0)).
Proof.
  split.
  - split.
    + destruct (list_at_revision_time_travel 3 trace_before trace_after "/pods/") as [H|[_ H]]; [exact H|].
      exfalso. vm_compute in H. discriminate H.
    + vm_compute. discriminate.
  - destruct (list_at_revision_time_travel 1 trace_before trace_after "/pods/") as [H|[H _]]; [|exact H].
    exfalso. vm_compute in H. discriminate H.
Defined.

(** The resumed watch replays the three later events. *)
Lemma watch_resume_complete_witness :
  let m0 := mem_runs (with_history_capacity 3) trace_before in
  let m1 := mem_runs m0 trace_after in
  exists since, mem_bus m1 = mem_bus m0 ++ since /\ length since = 3 /\
    watch_from_revision m1 "/pods/" (current_revision m0 + 1) =
      Ok (filter (fun ev => String.prefix "/pods/" (event_key ev) = true) since).
Proof.
  intros m0 m1.
  assert (length (mem_bus m1) = 5) as H1 by (vm_compute; reflexivity).
  assert (length (mem_bus m0) = 2) as H0 by (vm_compute; reflexivity).
  assert (match watch_from_revision m1 "/pods/" (current_revision m0 + 1) with Ok _ => true | Err _ => false end
          = true) as Hok by (vm_compute; reflexivity).
  destruct (watch_resume_complete 3 trace_before trace_after "/pods/") as (since & Hb & Hw).
  fold m0 in Hb, Hw. fold m1 in Hb, Hw. exists since. split; [exact Hb|]. split.
  - rewrite Hb length_app H0 in H1. lia.
  - destruct Hw as [Hw|[_ [msg Hw]]]; [exact Hw|]. rewrite Hw in Hok. discriminate Hok.
Defined.

(** An update with the stored resource version succeeds, one with an older fails. *)
Lemma update_compare_and_swap_witness :
  let m := mem_runs (with_history_capacity 3) trace_before in
  let rv s := set_meta (pod_doc 9) "resourceVersion" s in
  mem_conflicts m = 0 /\
  (exists v', (update_with_ttl m "/pods/a" (rv "2") 0).2 = Ok v') /\
  (exists msg, (update_with_ttl m "/pods/a" (rv "1") 0).2 = Err (EConflict msg)).
Proof.
  intros m rv. split; [reflexivity|].
  assert (match mem_data m !! "/pods/a" with
          | Some b => json_from_str b ≫= extract_resource_version
          | None => None end = Some "2") as Hrv by (vm_compute; reflexivity).
  destruct (mem_data m !! "/pods/a") as [b|] eqn:Hb; [|discriminate Hrv]. split.
  - pose proof (update_compare_and_swap m "/pods/a" (rv "2") 0 eq_refl) as H.
    rewrite Hb in H. cbn zeta in H. rewrite Hrv in H.
    destruct (update_with_ttl m "/pods/a" (rv "2") 0) as [m' r].
    destruct (decide _) as [_|Hd] in H; [|exfalso; apply Hd; by right; right].
    destruct H as (v' & -> & _). by exists v'.
  - pose proof (update_compare_and_swap m "/pods/a" (rv "1") 0 eq_refl) as H.
    rewrite Hb in H. cbn zeta in H. rewrite Hrv in H.
    destruct (update_with_ttl m "/pods/a" (rv "1") 0) as [m' r].
    destruct (decide _) as [Hd|_] in H; [exfalso; destruct Hd as [Hd|[Hd|Hd]]; discriminate Hd|].
    destruct H as ((msg & ->) & _). by exists msg.
Defined.

(** The second write replaced the TTL of the first. *)
Lemma orphaned_timer_never_fires_witness :
  let m := mem_runs (with_history_capacity 3)
             [MCreate "/events/e" (pod_doc 1) 60 "u1" "t1"; MUpdate "/events/e" (pod_doc 2) 60] in
  1 <= mem_generation m /\ mem_expiries m !! "/events/e" <> Some 1 /\ expire (mem_runs m []) "/events/e" 1 = m.
Proof.
  intros m. assert (1 <= mem_generation m) as Hg by (vm_compute; lia).
  assert (mem_expiries m !! "/events/e" <> Some 1) as Hne by (vm_compute; discriminate).
  split; [exact Hg|]. split; [exact Hne|]. exact (orphaned_timer_never_fires m [] "/events/e" 1 Hg Hne).
Defined.

Lemma delete_if_preconditions_hold_witness :
  let m := mem_runs (with_history_capacity 3) trace_before in
  mem_data (delete_with_preconditions m "/pods/a" (mkPreconditions (Some "u1") None)).1 = delete "/pods/a" (mem_data m).
Proof.
  intros m. pose proof (delete_if_preconditions_hold m "/pods/a" (mkPreconditions (Some "u1") None)) as H.
  destruct (delete_with_preconditions m "/pods/a" (mkPreconditions (Some "u1") None)) as [m' r] eqn:Hd.
  assert (match mem_data m !! "/pods/a" with
          | Some b => match json_from_str b with Some v => meta_str v "uid" | None => None end
          | None => None end = Some "u1") as Huid by (vm_compute; reflexivity).
  destruct (mem_data m !! "/pods/a") as [b|]; [|discriminate Huid].
  destruct (json_from_str b) as [v|]; [|discriminate Huid].
  destruct (decide _) as [Hok|Hbad] in H; [by destruct H as (_ & H & _)|]. exfalso. apply Hbad.
  split; intros w; [intros [= <-]; by rewrite Huid|intros [=]].
Defined.
