(* ===== verification/Quantity.v ===== *)
(** * Resource quantities

    Model of [crates/common/src/quantity.rs]: parsing, comparison, arithmetic,
    rounding and the canonical form of values such as ["100m"] or ["1Gi"].

    - An [i128] or [i32] is a [Z] in its range; [checked] and [checked32] are
      the [checked_*] operations and the overflow checks of plain arithmetic,
      so a function that can overflow or fail an [expect] returns [option].
    - A string is its list of UTF-8 bytes.
    - A parse error is its kind; the messages, which quote the input, are not
      modelled.
    - The serde adapters of [wire] all go through [canonicalize]; the rest of
      them is [serde]'s. *)

From stdpp Require Import pretty.
From Stdlib Require Import Ascii QArith Qabs Qpower Qround.
From S2P Require Import Prelude.

Local Open Scope Z_scope.

(** ** Machine integers *)

Definition I128_MAX : Z := 2 ^ 127 - 1.
Definition I128_MIN : Z := - 2 ^ 127.
Definition I32_MAX : Z := 2 ^ 31 - 1.
Definition I32_MIN : Z := - 2 ^ 31.

Definition checked (x : Z) : option Z :=
  if decide (I128_MIN <= x <= I128_MAX) then Some x else None.
Definition checked32 (x : Z) : option Z :=
  if decide (I32_MIN <= x <= I32_MAX) then Some x else None.

(** [10i128.checked_pow(n)]: the largest power of ten of an [i128] is [10^38]. *)
Definition checked_pow10 (n : Z) : option Z :=
  if decide (n <= 38) then Some (10 ^ n) else None.

(** [x as i32] *)
Definition as_i32 (x : Z) : Z := (x + 2 ^ 31) mod 2 ^ 32 - 2 ^ 31.

Definition i32_saturate (x : Z) : Z := Z.max I32_MIN (Z.min I32_MAX x).

(** ** Data *)

Inductive Format := DecimalSI | BinarySI | DecimalExponent.

#[export] Instance Format_eq_dec : EqDecision Format.
Proof. solve_decision. Defined.

Record Quantity := mkQuantity { mantissa : Z; scale : Z; format : Format }.

Inductive ParseQuantityError :=
| EEmpty | ENoDigit | EMantissaOverflow | EBadSuffix | EScaleOverflow | EBinaryExponent | EValueOverflow.

Inductive SuffixKind := SDecimalSI (e : Z) | SDecimalExponent (e : Z) | SBinarySI (e : Z).

(** ** Digits *)

Definition digit_value (c : Ascii.ascii) : Z := Z.of_N (Ascii.N_of_ascii c) - 48.

Definition is_ascii_digit (c : Ascii.ascii) : bool :=
  (0 <=? digit_value c) && (digit_value c <=? 9).

(** The longest prefix of digits, and the rest. *)
Fixpoint span_digits (s : string) : string * string :=
  match s with
  | String c s' =>
      if is_ascii_digit c then let '(d, r) := span_digits s' in (String c d, r) else (EmptyString, s)
  | EmptyString => (EmptyString, EmptyString)
  end.

Fixpoint dec_value (acc : Z) (s : string) : Z :=
  match s with
  | String c s' => dec_value (10 * acc + digit_value c) s'
  | EmptyString => acc
  end.

(** [digits.parse::<i128>()] on a non-empty run of digits. *)
Definition parse_i128 (digits : string) : option Z :=
  let v := dec_value 0 digits in if decide (v <= I128_MAX) then Some v else None.

Definition all_digits (s : string) : bool :=
  match span_digits s with (String _ _, EmptyString) => true | _ => false end.

(** [s.parse::<i32>()] *)
Definition parse_i32 (s : string) : option Z :=
  let '(sign, digits) :=
    match s with
    | String c s' =>
        if decide (c = "+"%char) then (1, s') else if decide (c = "-"%char) then (-1, s') else (1, s)
    | EmptyString => (1, s)
    end in
  if all_digits digits then checked32 (sign * dec_value 0 digits) else None.

(** ** Parsing *)

Definition interpret_suffix (suffix : string) : option SuffixKind :=
  if decide (suffix = "") then Some (SDecimalSI 0)
  else
    let exponent :=
      match suffix with
      | String c rest =>
          if decide (c = "e"%char \/ c = "E"%char) then
            if decide (rest = "") then None else parse_i32 rest
          else None
      | EmptyString => None
      end in
    match exponent with
    | Some exp => Some (SDecimalExponent exp)
    | None =>
        if decide (suffix = "E") then Some (SDecimalSI 18)
        else if decide (suffix = "n") then Some (SDecimalSI (-9))
        else if decide (suffix = "u") then Some (SDecimalSI (-6))
        else if decide (suffix = "m") then Some (SDecimalSI (-3))
        else if decide (suffix = "k") then Some (SDecimalSI 3)
        else if decide (suffix = "M") then Some (SDecimalSI 6)
        else if decide (suffix = "G") then Some (SDecimalSI 9)
        else if decide (suffix = "T") then Some (SDecimalSI 12)
        else if decide (suffix = "P") then Some (SDecimalSI 15)
        else if decide (suffix = "Ki") then Some (SBinarySI 10)
        else if decide (suffix = "Mi") then Some (SBinarySI 20)
        else if decide (suffix = "Gi") then Some (SBinarySI 30)
        else if decide (suffix = "Ti") then Some (SBinarySI 40)
        else if decide (suffix = "Pi") then Some (SBinarySI 50)
        else if decide (suffix = "Ei") then Some (SBinarySI 60)
        else None
    end.

(** The sign, the whole digits, the fractional digits and the suffix. *)
Definition split_quantity (input : string) : Z * string * string * string :=
  let '(sign, rest) :=
    match input with
    | String c r =>
        if decide (c = "+"%char) then (1, r) else if decide (c = "-"%char) then (-1, r) else (1, input)
    | EmptyString => (1, input)
    end in
  let '(whole, rest) := span_digits rest in
  let '(frac, suffix) :=
    match rest with
    | String c r => if decide (c = "."%char) then span_digits r else ("", rest)
    | EmptyString => ("", rest)
    end in
  (sign, whole, frac, suffix).

Definition ok_or {A E} (o : option A) (e : E) : result A E :=
  match o with Some a => Ok a | None => Err e end.

(** The last part of [parse]: the suffix is applied to mantissa and scale. *)
Definition apply_suffix (m s : Z) (kind : SuffixKind) : result Quantity ParseQuantityError :=
  (match kind with
   | SDecimalSI e =>
       try s' <- ok_or (checked32 (s + e)) EScaleOverflow ; Ok (mkQuantity m s' DecimalSI)
   | SDecimalExponent e =>
       try s' <- ok_or (checked32 (s + e)) EScaleOverflow ; Ok (mkQuantity m s' DecimalExponent)
   | SBinarySI e =>
       if decide (0 <= e <= 120) then
         try m' <- ok_or (checked (m * Z.shiftl 1 e)) EValueOverflow ; Ok (mkQuantity m' s BinarySI)
       else Err EBinaryExponent
   end)%rust.

Definition parse (input : string) : result Quantity ParseQuantityError :=
  (if decide (input = "") then Err EEmpty
   else
     let '(sign, whole, frac, suffix) := split_quantity input in
     if decide (whole = "" /\ frac = "") then Err ENoDigit
     else
       let combined := (if decide (whole = "") then "0" else whole) +:+ frac in
       try m <- ok_or (parse_i128 combined) EMantissaOverflow ;
       let s := as_i32 (- Z.of_nat (String.length frac)) in
       try kind <- ok_or (interpret_suffix suffix) EBadSuffix ;
       apply_suffix (m * sign) s kind)%rust.

Definition from_value (value : Z) (f : Format) : Quantity := mkQuantity value 0 f.
Definition from_milli_value (value : Z) (f : Format) : Quantity := mkQuantity value (-3) f.
Definition from_scaled_value (value scale : Z) : Quantity := mkQuantity value scale DecimalSI.

(** ** Comparison and arithmetic *)

Definition is_zero (q : Quantity) : bool := mantissa q =? 0.
Definition is_negative (q : Quantity) : bool := mantissa q <? 0.

Definition saturated (m : Z) : Z := if decide (m < 0) then I128_MIN else I128_MAX.

(** [10i128.pow] and the subtraction of the scales are not checked in the code:
    [None] is their overflow. *)
Definition cmp_value (q other : Quantity) : option comparison :=
  let '(a, sa) := (mantissa q, scale q) in
  let '(b, sb) := (mantissa other, scale other) in
  if decide (sa = sb) then Some (a ?= b)
  else
    let common := Z.min sa sb in
    pa ← checked_pow10 (sa - common);
    pb ← checked_pow10 (sb - common);
    let a_scaled := default (saturated a) (checked (a * pa)) in
    let b_scaled := default (saturated b) (checked (b * pb)) in
    Some (a_scaled ?= b_scaled).

Definition value_eq (q other : Quantity) : option bool :=
  c ← cmp_value q other; Some (match c with Eq => true | _ => false end).

Definition align (q other : Quantity) : option (Z * Z * Z) :=
  let common := Z.min (scale q) (scale other) in
  pa ← checked_pow10 (scale q - common);
  a ← checked (mantissa q * pa);
  pb ← checked_pow10 (scale other - common);
  b ← checked (mantissa other * pb);
  Some (a, b, common).

Definition effective_format (q other : Quantity) : Format :=
  if decide (mantissa q = 0) then format other else format q.

Definition sub (q other : Quantity) : option Quantity :=
  '(a, b, common) ← align q other;
  m ← checked (a - b);
  Some (mkQuantity m common (effective_format q other)).

Definition add (q other : Quantity) : option Quantity :=
  '(a, b, common) ← align q other;
  m ← checked (a + b);
  Some (mkQuantity m common (effective_format q other)).

Definition neg (q : Quantity) : option Quantity :=
  m ← checked (- mantissa q); Some (mkQuantity m (scale q) (format q)).

Definition is_integer (q : Quantity) : option bool :=
  if decide (0 <= scale q) then Some true
  else
    n ← checked32 (- scale q);
    match checked_pow10 n with
    | Some d => Some (Z.rem (mantissa q) d =? 0)
    | None => Some (mantissa q =? 0)
    end.

Definition scaled_value (q : Quantity) (target_scale : Z) : Z :=
  let m := mantissa q in
  if decide (m = 0) then 0
  else
    let delta := i32_saturate (scale q - target_scale) in
    match delta ?= 0 with
    | Eq => m
    | Gt =>
        match checked_pow10 delta with
        | None => saturated m
        | Some factor => default (saturated m) (checked (m * factor))
        end
    | Lt =>
        match checked_pow10 (Z.abs delta) with
        | None => if decide (m < 0) then -1 else 1
        | Some divisor =>
            let q' := Z.quot m divisor in
            let r := Z.rem m divisor in
            if decide (0 < r) then q' + 1 else if decide (r < 0) then q' - 1 else q'
        end
    end.

Definition value (q : Quantity) : Z := scaled_value q 0.
Definition milli_value (q : Quantity) : Z := scaled_value q (-3).

(** ** Canonical form *)

(** The loop of [strip_trailing_zeros]. *)
Fixpoint strip_loop (fuel : nat) (m s : Z) : option (Z * Z) :=
  match fuel with
  | O => None
  | S fuel' =>
      if decide (Z.rem m 10 = 0) then strip_loop fuel' (Z.quot m 10) (i32_saturate (s + 1))
      else Some (m, s)
  end.

(** An [i128] has at most 38 trailing zeros. *)
Definition strip_trailing_zeros (m s : Z) : option (Z * Z) :=
  if decide (m = 0) then Some (0, s) else strip_loop 40 m s.

Definition VALID : list Z := [-9; -6; -3; 0; 3; 6; 9; 12; 15; 18].

Definition decimal_si_suffix (s : Z) : option string :=
  if decide (s = -9) then Some "n" else if decide (s = -6) then Some "u"
  else if decide (s = -3) then Some "m" else if decide (s = 0) then Some ""
  else if decide (s = 3) then Some "k" else if decide (s = 6) then Some "M"
  else if decide (s = 9) then Some "G" else if decide (s = 12) then Some "T"
  else if decide (s = 15) then Some "P" else if decide (s = 18) then Some "E" else None.

Definition canonical_decimal_exponent (m0 s0 : Z) : option string :=
  '(m, s) ← strip_trailing_zeros m0 s0;
  let r := Z.rem s 3 in
  '(m, s) ← (if decide (r = 1 \/ r = -2) then m' ← checked (m * 10); s' ← checked32 (s - 1); Some (m', s')
             else if decide (r = 2 \/ r = -1) then m' ← checked (m * 100); s' ← checked32 (s - 2); Some (m', s')
             else Some (m, s));
  if decide (s = 0) then Some (pretty m) else Some (pretty m +:+ "e" +:+ pretty s).

Definition canonical_decimal_si (m0 s0 : Z) : option string :=
  '(m, s) ← strip_trailing_zeros m0 s0;
  match List.find (fun v => v <=? s) (rev VALID) with
  | Some t =>
      factor ← checked_pow10 (s - t);
      final_m ← checked (m * factor);
      suffix ← decimal_si_suffix t;
      Some (pretty final_m +:+ suffix)
  | None =>
      if decide (18 < s) then
        factor ← checked_pow10 (s - 18);
        final_m ← checked (m * factor);
        suffix ← decimal_si_suffix 18;
        Some (pretty final_m +:+ suffix)
      else
        factor ← checked_pow10 (-9 - s);
        if decide (Z.rem m factor = 0) then
          suffix ← decimal_si_suffix (-9); Some (pretty (Z.quot m factor) +:+ suffix)
        else canonical_decimal_exponent m0 s0
  end.

Definition binary_si_suffix (k : Z) : option string :=
  if decide (k = 1) then Some "Ki" else if decide (k = 2) then Some "Mi"
  else if decide (k = 3) then Some "Gi" else if decide (k = 4) then Some "Ti"
  else if decide (k = 5) then Some "Pi" else if decide (k = 6) then Some "Ei" else None.

(** [while k < 6 && v % 1024 == 0], with [n] turns left. *)
Fixpoint binary_loop (n : nat) (v k : Z) : Z * Z :=
  match n with
  | O => (v, k)
  | S n' => if decide (Z.rem v 1024 = 0) then binary_loop n' (Z.quot v 1024) (k + 1) else (v, k)
  end.

(** The integer value, or [None] when the code falls back to [DecimalSI]. *)
Definition binary_value (m s : Z) : option (option Z) :=
  if decide (0 <= s) then
    Some (factor ← checked_pow10 s; checked (m * factor))
  else
    n ← checked32 (- s);
    Some (factor ← checked_pow10 n;
          if decide (Z.rem m factor = 0) then Some (Z.quot m factor) else None).

Definition canonical_binary_si (m s : Z) : option string :=
  v ← binary_value m s;
  match v with
  | None => canonical_decimal_si m s
  | Some value =>
      if decide (Z.abs value < 1024) then canonical_decimal_si m s
      else
        let '(v, k) := binary_loop 6 value 0 in
        if decide (k = 0) then canonical_decimal_si m s
        else suffix ← binary_si_suffix k; Some (pretty v +:+ suffix)
  end.

Definition canonical_string (q : Quantity) : option string :=
  if decide (mantissa q = 0) then Some "0"
  else match format q with
       | DecimalSI => canonical_decimal_si (mantissa q) (scale q)
       | DecimalExponent => canonical_decimal_exponent (mantissa q) (scale q)
       | BinarySI => canonical_binary_si (mantissa q) (scale q)
       end.

(** ** [wire::canonicalize] and [parse_resource_value] *)

(** The UTF-8 encodings of the characters [str::trim] removes. *)
Definition WHITE_SPACE : list (list N) :=
  ([[9]; [10]; [11]; [12]; [13]; [32]; [0xC2; 0x85]; [0xC2; 0xA0]; [0xE1; 0x9A; 0x80]] ++
   ((fun n => [0xE2; 0x80; n]) <$> [0x80; 0x81; 0x82; 0x83; 0x84; 0x85; 0x86; 0x87; 0x88; 0x89; 0x8A; 0xA8; 0xA9; 0xAF]) ++
   [[0xE2; 0x81; 0x9F]; [0xE3; 0x80; 0x80]])%N.

Fixpoint strip_bytes (enc : list N) (l : list ascii) : option (list ascii) :=
  match enc, l with
  | [], _ => Some l
  | n :: enc', c :: l' => if decide (N_of_ascii c = n) then strip_bytes enc' l' else None
  | _ :: _, [] => None
  end.

Fixpoint strip_any (encs : list (list N)) (l : list ascii) : option (list ascii) :=
  match encs with
  | [] => None
  | enc :: encs' => match strip_bytes enc l with Some l' => Some l' | None => strip_any encs' l end
  end.

Fixpoint trim_front (fuel : nat) (encs : list (list N)) (l : list ascii) : list ascii :=
  match fuel with
  | O => l
  | S fuel' => match strip_any encs l with Some l' => trim_front fuel' encs l' | None => l end
  end.

(** [str::trim]; every turn drops a byte, so the length is fuel enough. *)
Definition trim (s : string) : string :=
  let l := String.list_ascii_of_string s in
  let l1 := trim_front (length l) WHITE_SPACE l in
  let l2 := trim_front (length l1) (map (@rev N) WHITE_SPACE) (rev l1) in
  String.string_of_list_ascii (rev l2).

Definition I64_MAX : Z := 2 ^ 63 - 1.
Definition I64_MIN : Z := - 2 ^ 63.

Definition parse_resource_value (quantity resource_name : string) : result Z ParseQuantityError :=
  (try parsed <- parse (trim quantity) ;
   let v := if decide (resource_name = "cpu") then milli_value parsed else value parsed in
   Ok (Z.max I64_MIN (Z.min I64_MAX v)))%rust.

Definition canonicalize (s : string) : option string :=
  match parse (trim s) with
  | Ok q => canonical_string q
  | Err _ => Some s
  end.

(** * The value of a quantity *)

(** What a quantity stands for: [mantissa * 10^scale]. *)
Definition pow10 (s : Z) : Q := Qpower 10 s.
Definition qval (q : Quantity) : Q := (inject_Z (mantissa q) * pow10 (scale q))%Q.

Definition i128 (x : Z) : Prop := I128_MIN <= x <= I128_MAX.
Definition i32 (x : Z) : Prop := I32_MIN <= x <= I32_MAX.
Definition wf (q : Quantity) : Prop := i128 (mantissa q) /\ i32 (scale q).

Lemma pow10_pos s : (0 < pow10 s)%Q.
Proof. apply Qpower_0_lt. reflexivity. Qed.

Lemma pow10_plus a b : (pow10 (a + b) == pow10 a * pow10 b)%Q.
Proof. apply Qpower_plus. discriminate. Qed.

Lemma pow10_nonneg k : 0 <= k -> (pow10 k == inject_Z (10 ^ k))%Q.
Proof. intros Hk. unfold pow10. rewrite -(Zpower_Qpower 10 k Hk). reflexivity. Qed.

(** Shifting digits between mantissa and scale. *)
Lemma pow10_shift m s k : 0 <= k -> (inject_Z (m * 10 ^ k) * pow10 s == inject_Z m * pow10 (s + k))%Q.
Proof.
  intros Hk. rewrite inject_Z_mult pow10_plus -(pow10_nonneg k Hk). ring.
Qed.

Lemma checked_Some x y : checked x = Some y <-> y = x /\ i128 x.
Proof. unfold checked, i128. case_decide; naive_solver. Qed.

Lemma checked32_Some x y : checked32 x = Some y <-> y = x /\ i32 x.
Proof. unfold checked32, i32. case_decide; naive_solver. Qed.

Lemma checked_pow10_Some n p : checked_pow10 n = Some p <-> p = 10 ^ n /\ n <= 38.
Proof. unfold checked_pow10. case_decide; naive_solver. Qed.

Lemma pow10_38 n : 0 <= n <= 38 -> 1 <= 10 ^ n <= 10 ^ 38.
Proof. intros Hn. split; [|apply Z.pow_le_mono_r; lia]. pose proof (Z.pow_pos_nonneg 10 n); lia. Qed.

(** [checked_pow10] is exactly [10i128.checked_pow]. *)
Lemma checked_pow10_spec n : 0 <= n -> checked_pow10 n = checked (10 ^ n).
Proof.
  intros Hn. unfold checked_pow10. destruct (decide (n <= 38)) as [Hle|Hgt].
  - symmetry. apply checked_Some. split; [done|]. pose proof (pow10_38 n). unfold i128, I128_MIN, I128_MAX. lia.
  - unfold checked. rewrite decide_False //. assert (10 ^ 39 <= 10 ^ n) by (apply Z.pow_le_mono_r; lia).
    unfold I128_MAX. lia.
Qed.

(** ** Comparison *)

Lemma Qcompare_pow10 x y s : (inject_Z x * pow10 s ?= inject_Z y * pow10 s)%Q = (x ?= y).
Proof.
  pose proof (pow10_pos s) as Hp. symmetry. destruct (Z.compare_spec x y) as [->|Hlt|Hgt].
  - symmetry. by apply Qeq_alt.
  - symmetry. apply Qlt_alt. apply Qmult_lt_r; [done|]. by rewrite -Zlt_Qlt.
  - symmetry. apply Qgt_alt. apply Qmult_lt_r; [done|]. by rewrite -Zlt_Qlt.
Qed.

(** The value over a smaller scale. *)
Lemma qval_at q c : c <= scale q ->
  (qval q == inject_Z (mantissa q * 10 ^ (scale q - c)) * pow10 c)%Q.
Proof.
  intros Hc. rewrite pow10_shift; [lia|]. unfold qval. by replace (c + (scale q - c)) with (scale q) by lia.
Qed.

Lemma qcompare_at a b c : c <= scale a -> c <= scale b ->
  (qval a ?= qval b)%Q = (mantissa a * 10 ^ (scale a - c) ?= mantissa b * 10 ^ (scale b - c)).
Proof. intros Ha Hb. rewrite (qval_at a c Ha) (qval_at b c Hb). apply Qcompare_pow10. Qed.

(** Saturating a product keeps its order with numbers strictly inside the range. *)
Lemma saturated_bounds m p : 1 <= p -> i128 m ->
  let x := default (saturated m) (checked (m * p)) in
  (i128 (m * p) /\ x = m * p) \/ (m * p < I128_MIN /\ x = I128_MIN) \/ (I128_MAX < m * p /\ x = I128_MAX).
Proof.
  intros Hp Hm. unfold saturated, checked, i128, I128_MIN, I128_MAX in *. simpl.
  destruct (decide (- 2 ^ 127 <= m * p <= 2 ^ 127 - 1)); [by left|]. simpl. case_decide; nia.
Qed.

Lemma saturated_compare m p b : 1 <= p -> i128 m -> I128_MIN < b < I128_MAX ->
  (default (saturated m) (checked (m * p)) ?= b) = (m * p ?= b).
Proof.
  intros Hp Hm Hb. destruct (saturated_bounds m p Hp Hm) as [[_ ->]|[[? ->]|[? ->]]]; [done|..].
  - transitivity Lt; [|symmetry]; apply Z.compare_lt_iff; lia.
  - transitivity Gt; [|symmetry]; apply Z.compare_gt_iff; lia.
Qed.

Definition strict (q : Quantity) : Prop := I128_MIN < mantissa q < I128_MAX.

Lemma strict_checked q : strict q -> checked (mantissa q * 10 ^ 0) = Some (mantissa q).
Proof. intros Hq. rewrite Z.mul_1_r. apply checked_Some. unfold strict, i128 in *. split; [done|lia]. Qed.

(** [cmp_value] compares the numbers the quantities stand for, whatever
    their scales and formats, and although it saturates: it answers exactly
    when the scales differ by at most 38, and otherwise its power of ten
    overflows. *)
Theorem cmp_value_exact a b :
  strict a -> strict b ->
  cmp_value a b = if decide (Z.abs (scale a - scale b) <= 38) then Some (qval a ?= qval b)%Q else None.
Proof.
  intros Ha Hb. unfold cmp_value. destruct (decide (scale a = scale b)) as [He|Hne].
  { rewrite decide_True; [lia|]. rewrite (qcompare_at a b (scale a)); [lia..|].
    by rewrite -He Z.sub_diag !Z.mul_1_r. }
  set (c := Z.min (scale a) (scale b)). rewrite (qcompare_at a b c); [lia..|].
  unfold checked_pow10. destruct (decide (Z.abs (scale a - scale b) <= 38)) as [Hd|Hd].
  - rewrite !decide_True; [lia..|]. cbn [mbind option_bind]. f_equal.
    pose proof (pow10_38 (scale a - c)) as Hpa. pose proof (pow10_38 (scale b - c)) as Hpb.
    assert (scale a - c = 0 \/ scale b - c = 0) as [->| ->] by lia.
    + rewrite (strict_checked a Ha) Z.mul_1_r. cbn [default].
      rewrite Z.compare_antisym saturated_compare; [lia|unfold strict, i128 in *; lia|done|].
      by rewrite -Z.compare_antisym.
    + rewrite (strict_checked b Hb) Z.mul_1_r. cbn [default].
      rewrite saturated_compare; [lia|unfold strict, i128 in *; lia|done|done].
  - destruct (decide (scale a - c <= 38)); cbn [mbind option_bind]; [|done]. rewrite decide_False //. lia.
Qed.

(** ** Arithmetic *)

(** The mantissas over the common scale fit. *)
Definition aligned (a b : Quantity) (x y c : Z) : Prop :=
  c = Z.min (scale a) (scale b) /\ Z.abs (scale a - scale b) <= 38 /\
  x = mantissa a * 10 ^ (scale a - c) /\ y = mantissa b * 10 ^ (scale b - c) /\ i128 x /\ i128 y.

Lemma align_spec a b x y c : align a b = Some (x, y, c) <-> aligned a b x y c.
Proof.
  unfold align, aligned. set (c0 := Z.min (scale a) (scale b)). split.
  - intros H. inv_bind.
    repeat match goal with H : checked_pow10 _ = _ |- _ => apply checked_pow10_Some in H as [-> ?] end.
    repeat match goal with H : checked _ = _ |- _ => apply checked_Some in H as [-> ?] end.
    split_and!; try done. lia.
  - intros (-> & Hd & -> & -> & Hx & Hy). unfold checked_pow10. fold c0.
    rewrite !decide_True; [lia..|]. cbn [mbind option_bind].
    rewrite (proj2 (checked_Some _ _) (conj eq_refl Hx)). cbn [mbind option_bind].
    by rewrite (proj2 (checked_Some _ _) (conj eq_refl Hy)).
Qed.

Lemma aligned_qval a b x y c : aligned a b x y c ->
  (qval a == inject_Z x * pow10 c)%Q /\ (qval b == inject_Z y * pow10 c)%Q.
Proof. intros (-> & _ & -> & -> & _). split; apply qval_at; lia. Qed.

(** What a sum or difference of the aligned mantissas promises. *)
Definition exact_op (op : Z -> Z -> Z) (qop : Q -> Q -> Q) (a b : Quantity) (r : option Quantity) : Prop :=
  match r with
  | Some q => wf q /\ (qval q == qop (qval a) (qval b))%Q /\ scale q = Z.min (scale a) (scale b) /\
              format q = (if decide (mantissa a = 0) then format b else format a)
  | None => forall x y c, aligned a b x y c -> ~ i128 (op x y)
  end.

Lemma exact_op_intro op qop a b :
  (forall x y c, (inject_Z (op x y) * pow10 c == qop (inject_Z x * pow10 c) (inject_Z y * pow10 c))%Q) ->
  Proper (Qeq ==> Qeq ==> Qeq) qop -> wf a -> wf b ->
  exact_op op qop a b ('(x, y, common) ← align a b; m ← checked (op x y);
                       Some (mkQuantity m common (effective_format a b))).
Proof.
  intros Hop Hpr [_ Hsa] [_ Hsb]. destruct (align a b) as [[[x y] c]|] eqn:Hal; simpl.
  - apply align_spec in Hal. destruct (aligned_qval _ _ _ _ _ Hal) as [Ha Hb].
    destruct (checked (op x y)) as [m|] eqn:Hc; simpl.
    + apply checked_Some in Hc as [-> Hc]. assert (c = Z.min (scale a) (scale b)) as Hcm by apply Hal.
      split_and!; [|unfold qval at 1; simpl; by rewrite Ha Hb Hop|done|done].
      split; [done|]. subst c. unfold i32 in *. simpl. lia.
    + intros x' y' c' Hal'. apply align_spec in Hal, Hal'. rewrite Hal in Hal'. simplify_eq.
      intros Hi. by rewrite (proj2 (checked_Some _ _) (conj eq_refl Hi)) in Hc.
  - intros x y c Hal'. apply align_spec in Hal'. congruence.
Qed.

(** [add] and [sub] are exact: when they answer, the result is in range,
    stands for the sum or the difference, has the finer scale and the format of
    the left operand (of the right one when the left is zero); they decline
    only when the result, or an operand at the common scale, does not fit. *)
Theorem add_sub_exact a b :
  wf a -> wf b -> exact_op Z.add Qplus a b (add a b) /\ exact_op Z.sub Qminus a b (sub a b).
Proof.
  intros Ha Hb. split; apply exact_op_intro; try done; try apply _; intros x y c.
  - rewrite inject_Z_plus. ring.
  - unfold Z.sub. rewrite inject_Z_plus inject_Z_opp. ring.
Qed.

(** ** Rounding *)

Definition clamp128 (x : Z) : Z := Z.max I128_MIN (Z.min I128_MAX x).

Lemma Qceiling_unique x r : (inject_Z (r - 1) < x)%Q -> (x <= inject_Z r)%Q -> Qceiling x = r.
Proof.
  intros H1 H2. pose proof (Qceiling_lt x) as H3. pose proof (Qle_ceiling x) as H4.
  assert (r - 1 < Qceiling x) by (rewrite Zlt_Qlt; by eapply Qlt_le_trans).
  assert (Qceiling x - 1 < r) by (rewrite Zlt_Qlt; by eapply Qlt_le_trans). lia.
Qed.

Lemma sgn_mul_abs m : Z.sgn m * Z.abs m = m.
Proof. lia. Qed.

(** A ceiling division by a power of ten. *)
Lemma Qceiling_pow10 m k r : 0 <= k -> (r - 1) * 10 ^ k < m <= r * 10 ^ k ->
  Qceiling (inject_Z m * pow10 (- k)) = r.
Proof.
  intros Hk [Hlo Hhi]. assert (forall z, inject_Z z == inject_Z (z * 10 ^ k) * pow10 (- k))%Q as Hz.
  { intros z. rewrite pow10_shift //. rewrite Z.add_opp_diag_l. unfold pow10. simpl. ring. }
  pose proof (pow10_pos (- k)). apply Qceiling_unique.
  - rewrite (Hz (r - 1)). apply Qmult_lt_r; [done|]. by rewrite -Zlt_Qlt.
  - rewrite (Hz r). apply Qmult_le_r; [done|]. by rewrite -Zle_Qle.
Qed.

(** Truncated division, and one more away from zero when it is not exact. *)
Lemma quot_away m d : 0 < d -> m <> 0 ->
  let r := Z.sgn m * (let q := Z.quot m d in
    if decide (0 < Z.rem m d) then q + 1 else if decide (Z.rem m d < 0) then q - 1 else q) in
  (r - 1) * d < Z.abs m <= r * d.
Proof.
  intros Hd Hm. cbn zeta. pose proof (Z.quot_rem' m d) as He.
  pose proof (Z.rem_bound_abs m d) as Hb.
  destruct (decide (0 < m)) as [Hp|Hn].
  - pose proof (Z.rem_nonneg m d). rewrite Z.sgn_pos //. rewrite (Z.abs_eq m); [lia|].
    repeat case_decide; nia.
  - pose proof (Z.rem_nonpos m d). rewrite Z.sgn_neg; [lia|]. rewrite (Z.abs_neq m); [lia|].
    repeat case_decide; nia.
Qed.

Lemma qval_abs_shift q t : (Qabs (qval q) * pow10 (- t) == inject_Z (Z.abs (mantissa q)) * pow10 (scale q - t))%Q.
Proof.
  unfold qval. rewrite Qabs_Qmult (Qabs_pos (pow10 _)); [apply Qlt_le_weak, pow10_pos|].
  change (Qabs (inject_Z (mantissa q))) with (inject_Z (Z.abs (mantissa q))).
  unfold Z.sub. rewrite pow10_plus. ring.
Qed.

Lemma mul_pow10_big m d : m <> 0 -> 38 < d -> (m < 0 -> m * 10 ^ d < I128_MIN) /\ (0 < m -> I128_MAX < m * 10 ^ d).
Proof.
  intros Hm Hd. assert (10 ^ 39 <= 10 ^ d) by (apply Z.pow_le_mono_r; lia).
  unfold I128_MIN, I128_MAX. split; nia.
Qed.

Lemma scaled_value_spec q target :
  wf q -> i32 target ->
  scaled_value q target =
  clamp128 (Z.sgn (mantissa q) * Qceiling (Qabs (qval q) * pow10 (- target))).
Proof.
  intros [Hm Hs] Ht. rewrite qval_abs_shift. unfold scaled_value.
  destruct (decide (mantissa q = 0)) as [->|Hnz]; [done|].
  set (m := mantissa q) in *. set (d := scale q - target).
  assert (i32_saturate d = d \/ (38 < i32_saturate d /\ 38 < d) \/ (i32_saturate d < -38 /\ d < -38)) as Hdelta.
  { unfold i32_saturate, i32, I32_MIN, I32_MAX in *. lia. }
  destruct (Z.compare_spec (i32_saturate d) 0) as [Hd|Hd|Hd].
  - assert (d = 0) as -> by lia. unfold pow10. simpl.
    rewrite Qmult_1_r Qceiling_Z sgn_mul_abs. unfold clamp128, i128 in *. lia.
  - assert (d < 0) as Hneg by lia. replace (pow10 d) with (pow10 (- - d)) by (f_equal; lia).
    unfold checked_pow10. destruct (decide (Z.abs (i32_saturate d) <= 38)) as [Hle|Hgt].
    + replace (i32_saturate d) with d by lia. rewrite (Z.abs_neq d); [lia|].
      pose proof (pow10_38 (- d)) as Hp. pose proof (quot_away m (10 ^ (- d))) as Hq. cbn zeta in Hq.
      set (v := if decide (0 < Z.rem m _) then _ else _) in *.
      rewrite (Qceiling_pow10 _ (- d) (Z.sgn m * v)); [lia|apply Hq; lia|].
      specialize (Hq ltac:(lia) Hnz). unfold clamp128, i128, I128_MIN, I128_MAX in *. nia.
    + rewrite (Qceiling_pow10 _ (- d) 1); [lia|..].
      { assert (10 ^ 39 <= 10 ^ (- d)) by (apply Z.pow_le_mono_r; lia).
        unfold i128, I128_MIN, I128_MAX in *. lia. }
      unfold clamp128, I128_MIN, I128_MAX. case_decide; lia.
  - assert (0 < d) as Hpos by lia.
    assert (inject_Z (Z.abs m) * pow10 d == inject_Z (Z.abs m * 10 ^ d))%Q as ->.
    { rewrite pow10_nonneg; [lia|]. by rewrite inject_Z_mult. }
    rewrite Qceiling_Z Z.mul_assoc sgn_mul_abs. unfold checked_pow10.
    destruct (decide (i32_saturate d <= 38)) as [Hle|Hgt].
    + replace (i32_saturate d) with d by lia. pose proof (pow10_38 d).
      destruct (saturated_bounds m (10 ^ d)) as [[? ->]|[[? ->]|[? ->]]]; [lia|done|..];
        unfold clamp128, i128, I128_MIN, I128_MAX in *; lia.
    + pose proof (mul_pow10_big m d Hnz). unfold saturated, clamp128, I128_MIN, I128_MAX in *.
      case_decide; lia.
Qed.

(** C40: [scaled_value], and with it [value] and [milli_value], is the quantity
    over [10^target], rounded up away from zero and saturated at the bounds of
    [i128], for every mantissa and every scale. *)
Theorem scaled_value_rounds_away q target :
  wf q -> i32 target ->
  scaled_value q target =
  clamp128 (Z.sgn (mantissa q) * Qceiling (Qabs (qval q) * pow10 (- target))).
Proof. apply scaled_value_spec. Qed.

(** ** Examples *)

Lemma cmp_value_exact_witness :
  let a := mkQuantity 1500 (-3) DecimalSI in let b := mkQuantity 2 0 BinarySI in
  strict a /\ strict b /\ cmp_value a b = Some (qval a ?= qval b)%Q /\ cmp_value a b = Some Lt.
Proof.
  intros a b. assert (strict a /\ strict b) as [Ha Hb] by (split; split; reflexivity).
  split_and!; [done|done| |reflexivity]. rewrite (cmp_value_exact a b Ha Hb). reflexivity.
Defined.

Lemma add_sub_exact_witness :
  let a := mkQuantity 0 0 DecimalSI in let b := mkQuantity (2 ^ 30) 0 BinarySI in
  wf a /\ wf b /\ exact_op Z.add Qplus a b (add a b) /\ add a b = Some b.
Proof.
  intros a b. assert (wf a /\ wf b) as [Ha Hb] by (split; split; split; discriminate).
  split_and!; [done|done| |reflexivity]. apply (add_sub_exact a b Ha Hb).
Defined.

Lemma scaled_value_rounds_away_witness :
  let q := mkQuantity 1 (-60) DecimalSI in
  wf q /\ i32 0 /\
  scaled_value q 0 = clamp128 (Z.sgn (mantissa q) * Qceiling (Qabs (qval q) * pow10 (- 0))) /\
  scaled_value q 0 = 1.
Proof.
  intros q. assert (wf q) as Hq by (split; split; discriminate). assert (i32 0) as H0 by (split; discriminate).
  split_and!; [done|done| |reflexivity]. apply (scaled_value_rounds_away q 0 Hq H0).
Defined.
