(* ===== verification/QuantityText.v ===== *)
(** * Resource quantities: text

    The grammar that [Quantity::parse] accepts, what it reads, and the round
    trip of the canonical form through it. *)

From stdpp Require Import pretty.
From Stdlib Require Import Ascii QArith Qabs Qpower Qround.
From S2P Require Import Prelude Quantity.

Local Open Scope Z_scope.

(** ** Digit strings *)

Fixpoint digits (s : string) : bool :=
  match s with
  | String c s' => is_ascii_digit c && digits s'
  | EmptyString => true
  end.

(** The next character, if any, does not continue a run of digits. *)
Definition no_digit (s : string) : Prop :=
  match s with String c _ => is_ascii_digit c = false | EmptyString => True end.

Lemma span_digits_spec s : let '(d, r) := span_digits s in
  s = d +:+ r /\ digits d = true /\ no_digit r.
Proof.
  induction s as [|c s IH]; simpl; [done|]. destruct (is_ascii_digit c) eqn:Hc; [|by rewrite /no_digit].
  destruct (span_digits s) as [d r]. destruct IH as (-> & Hd & Hr). simpl. by rewrite Hc Hd.
Qed.

Lemma span_digits_app d r : digits d = true -> no_digit r -> span_digits (d +:+ r) = (d, r).
Proof.
  intros Hd Hr. induction d as [|c d IH]; simpl in *.
  - destruct r as [|c r]; [done|]. simpl in *. by rewrite Hr.
  - apply andb_true_iff in Hd as [Hc Hd]. by rewrite Hc IH.
Qed.

Lemma digit_bounds c : is_ascii_digit c = true -> 0 <= digit_value c <= 9.
Proof. unfold is_ascii_digit. lia. Qed.

Lemma dec_value_mono a s : 0 <= a -> digits s = true -> a <= dec_value a s.
Proof.
  revert a. induction s as [|c s IH]; intros a Ha Hs; simpl in *; [done|].
  apply andb_true_iff in Hs as [Hc%digit_bounds Hs]. specialize (IH (10 * a + digit_value c) ltac:(lia) Hs). lia.
Qed.

Lemma dec_value_app a s t : dec_value a (s +:+ t) = dec_value (dec_value a s) t.
Proof. revert a. induction s as [|c s IH]; intros a; simpl; [done|apply IH]. Qed.

Lemma digits_app s t : digits (s +:+ t) = digits s && digits t.
Proof. induction s as [|c s IH]; simpl; [done|]. by rewrite IH andb_assoc. Qed.

Lemma pretty_char_digit n : (n < 10)%N ->
  is_ascii_digit (pretty_N_char n) = true /\ digit_value (pretty_N_char n) = Z.of_N n.
Proof.
  intros Hn. destruct n as [|p]; [done|].
  do 4 (destruct p as [p|p|]; [..|done]); exfalso; lia.
Qed.

(** Printing a natural number and reading its digits. *)
Lemma pretty_go_spec n s : digits s = true ->
  digits (pretty_N_go n s) = true /\ dec_value 0 (pretty_N_go n s) = dec_value (Z.of_N n) s.
Proof.
  revert s. induction (N.lt_wf_0 n) as [n _ IH]; intros s Hs.
  destruct (decide (n = 0%N)) as [->|Hn]; [by rewrite pretty_N_go_0|].
  rewrite pretty_N_go_step; [lia|]. destruct (pretty_char_digit (n `mod` 10)) as [Hd Hv]; [by apply N.mod_lt|].
  destruct (IH (n `div` 10)%N) with (s := String (pretty_N_char (n `mod` 10)) s) as [H1 H2].
  { apply N.div_lt; lia. } { simpl. by rewrite Hd. }
  split; [done|]. rewrite H2. simpl. rewrite Hv. f_equal.
  rewrite N2Z.inj_div N2Z.inj_mod. pose proof (Z.div_mod (Z.of_N n) 10). lia.
Qed.

Lemma pretty_N_spec n : let s := pretty (n : N) in
  digits s = true /\ dec_value 0 s = Z.of_N n /\ s <> "".
Proof.
  unfold pretty, pretty_N. case_decide as Hn; [subst; done|].
  destruct (pretty_go_spec n "" eq_refl) as [H1 H2]. split_and!; [done|by rewrite H2|].
  intros Hs. rewrite Hs in H2. simpl in H2. lia.
Qed.

Definition sign_string (z : Z) : string := if decide (z < 0) then "-" else "".

Lemma pretty_Z_spec z : exists d, pretty z = sign_string z +:+ d /\
  digits d = true /\ dec_value 0 d = Z.abs z /\ d <> "".
Proof.
  destruct z as [|p|p].
  - by exists "0".
  - exists (pretty (N.pos p)). split; [done|]. apply (pretty_N_spec (N.pos p)).
  - exists (pretty (N.pos p)). split; [done|]. apply (pretty_N_spec (N.pos p)).
Qed.

(** ** The grammar *)

(** [input] is [[+-]? digits [. digits]? suffix], with at least one digit and a
    known suffix. *)
Inductive quantity_syntax (input : string) (sgn : Z) (whole frac : string) (kind : SuffixKind) : Prop :=
| quantity_syntax_intro signs point suffix
    (Hinput : input = signs +:+ whole +:+ point +:+ suffix)
    (Hsign : (signs, sgn) ∈ [("", 1); ("+", 1); ("-", -1)])
    (Hwhole : digits whole = true) (Hfrac : digits frac = true)
    (Hpoint : (point = "" /\ frac = "") \/ point = "." +:+ frac)
    (Hsome : whole <> "" \/ frac <> "")
    (Hsuffix : interpret_suffix suffix = Some kind).

(** A suffix starts with a letter. *)
Definition letter_head (s : string) : Prop :=
  match s with
  | String c _ => is_ascii_digit c = false /\ c <> "."%char /\ c <> "+"%char /\ c <> "-"%char
  | EmptyString => True
  end.

Lemma suffix_letter s k : interpret_suffix s = Some k -> letter_head s.
Proof.
  unfold interpret_suffix. destruct s as [|c s]; [done|]. destruct (decide (String c s = "")); [done|].
  destruct (decide (c = "e"%char \/ c = "E"%char)) as [[->| ->]|_]; [by intros _; unfold letter_head; split_and!..|].
  repeat (case_decide as Hs; [injection Hs as -> ->; by intros _; unfold letter_head; split_and!|clear Hs]). done.
Qed.

Lemma letter_no_digit s : letter_head s -> no_digit s.
Proof. destruct s; simpl; tauto. Qed.

(** The two ways the number part can start after the sign. *)
Definition number_head (s : string) : Prop :=
  match s with String c _ => c <> "+"%char /\ c <> "-"%char | EmptyString => True end.

Lemma digit_not_sign c : is_ascii_digit c = true -> c <> "+"%char /\ c <> "-"%char.
Proof. intros Hc. split; intros ->; discriminate. Qed.

Lemma split_quantity_sound input sgn whole frac suffix kind :
  split_quantity input = (sgn, whole, frac, suffix) -> whole <> "" \/ frac <> "" ->
  interpret_suffix suffix = Some kind -> quantity_syntax input sgn whole frac kind.
Proof.
  unfold split_quantity. intros Hs Hsome Hk.
  destruct (match input with String _ _ => _ | EmptyString => _ end) as [sgn' rest] eqn:Hsign.
  assert (exists signs, input = signs +:+ rest /\ (signs, sgn') ∈ [("", 1); ("+", 1); ("-", -1)]) as (signs & -> & Hin).
  { destruct input as [|c r]; [simplify_eq; exists ""; set_solver|]. repeat case_decide; simplify_eq.
    - exists "+". set_solver.
    - exists "-". set_solver.
    - exists "". set_solver. }
  pose proof (span_digits_spec rest) as Hw. destruct (span_digits rest) as [whole' rest'].
  destruct Hw as (-> & Hwd & _).
  destruct (match rest' with String _ _ => _ | EmptyString => _ end) as [frac' suffix'] eqn:Hpt. simplify_eq.
  assert (exists point, rest' = point +:+ suffix /\ digits frac = true /\
            ((point = "" /\ frac = "") \/ point = "." +:+ frac)) as (point & -> & Hfd & Hp).
  { destruct rest' as [|c r]; [simplify_eq; exists ""; naive_solver|]. case_decide; simplify_eq.
    - pose proof (span_digits_spec r) as Hr. rewrite Hpt in Hr. destruct Hr as (-> & ? & _).
      exists ("." +:+ frac). naive_solver.
    - exists "". naive_solver. }
  by apply (quantity_syntax_intro _ _ _ _ _ signs point suffix).
Qed.

(** [parse] on a string of the grammar. *)
Lemma parse_syntax input sgn whole frac kind :
  quantity_syntax input sgn whole frac kind ->
  parse input =
    (try m <- ok_or (parse_i128 (whole +:+ frac)) EMantissaOverflow ;
     apply_suffix (m * sgn) (as_i32 (- Z.of_nat (String.length frac))) kind)%rust.
Proof.
  intros [signs point suffix -> Hin Hwd Hfd Hp Hsome Hk]. pose proof (suffix_letter _ _ Hk) as Hl.
  assert (split_quantity (signs +:+ whole +:+ point +:+ suffix) = (sgn, whole, frac, suffix)) as Hsp.
  { unfold split_quantity.
    assert (no_digit (point +:+ suffix) /\ number_head (whole +:+ point +:+ suffix)) as [Hnd Hnh].
    { split.
      - destruct Hp as [[-> ->]| ->]; [by apply letter_no_digit|done].
      - destruct whole as [|c w]; simpl in *; [|apply andb_true_iff in Hwd as [Hc _]; by apply digit_not_sign].
        destruct Hp as [[-> ->]| ->]; [naive_solver|done]. }
    assert (span_digits (whole +:+ point +:+ suffix) = (whole, point +:+ suffix)) as Hspan
      by by apply span_digits_app.
    assert ((match signs +:+ whole +:+ point +:+ suffix with
             | String c r => if decide (c = "+"%char) then (1, r) else
                             if decide (c = "-"%char) then (-1, r) else (1, signs +:+ whole +:+ point +:+ suffix)
             | EmptyString => (1, signs +:+ whole +:+ point +:+ suffix) end)
            = (sgn, whole +:+ point +:+ suffix)) as ->.
    { assert ((signs = "" /\ sgn = 1) \/ (signs = "+" /\ sgn = 1) \/ (signs = "-" /\ sgn = -1)) as Hc
        by set_solver.
      destruct Hc as [[-> ->]|[[-> ->]|[-> ->]]]; simpl; try done.
      destruct (whole +:+ point +:+ suffix) as [|c r]; [done|]. destruct Hnh.
      by rewrite !decide_False. }
    rewrite Hspan. destruct Hp as [[-> ->]| ->]; simpl.
    - destruct suffix as [|c r]; [done|]. rewrite decide_False; [naive_solver|done].
    - rewrite span_digits_app //. by apply letter_no_digit. }
  unfold parse. rewrite decide_False.
  { intros He. rewrite He in Hsp. unfold split_quantity in Hsp. simpl in Hsp. naive_solver. }
  rewrite Hsp decide_False; [naive_solver|]. rewrite Hk.
  destruct (decide (whole = "")) as [->|_]; [|by destruct (parse_i128 (whole +:+ frac))].
  change (parse_i128 ("0" +:+ frac)) with (parse_i128 ("" +:+ frac)). by destruct (parse_i128 ("" +:+ frac)).
Qed.

Definition kind_format (k : SuffixKind) : Format :=
  match k with
  | SDecimalSI _ => DecimalSI
  | SDecimalExponent _ => DecimalExponent
  | SBinarySI _ => BinarySI
  end.

(** What a suffix multiplies by. *)
Definition suffix_factor (k : SuffixKind) : Q :=
  match k with
  | SDecimalSI e | SDecimalExponent e => pow10 e
  | SBinarySI e => inject_Z (2 ^ e)
  end.

(** The string refuses for its form, before its number is looked at. *)
Definition form_error (e : ParseQuantityError) : bool :=
  match e with EEmpty | ENoDigit | EBadSuffix => true | _ => false end.

Lemma parse_inv input :
  (exists e, parse input = Err e /\ (form_error e = true \/ e = EMantissaOverflow)) \/
  exists sgn whole frac kind, quantity_syntax input sgn whole frac kind.
Proof.
  unfold parse. destruct (decide (input = "")); [left; by eexists; split; [|left]|].
  destruct (split_quantity input) as [[[sgn whole] frac] suffix] eqn:Hsp.
  destruct (decide (whole = "" /\ frac = "")) as [|Hsome]; [left; by eexists; split; [|left]|].
  destruct (parse_i128 _) as [m|]; simpl; [|left; by eexists; split; [|right]].
  destruct (interpret_suffix suffix) as [kind|] eqn:Hk; simpl; [|left; by eexists; split; [|left]].
  right. exists sgn, whole, frac, kind. eapply split_quantity_sound; try done.
  destruct (decide (whole = "")); naive_solver.
Qed.

Lemma interpret_suffix_binary s e : interpret_suffix s = Some (SBinarySI e) -> 0 <= e <= 60.
Proof.
  unfold interpret_suffix. destruct (decide (s = "")); [done|]. intros H.
  destruct (match s with String _ _ => _ | EmptyString => _ end); [done|].
  repeat (case_decide; [simplify_eq; lia|]). done.
Qed.

Lemma as_i32_small x : i32 x -> as_i32 x = x.
Proof. unfold as_i32, i32, I32_MIN, I32_MAX. intros Hx. rewrite Z.mod_small; lia. Qed.

(** The result of [apply_suffix]. *)
Lemma apply_suffix_spec m s k q :
  i128 m -> i32 s -> apply_suffix m s k = Ok q ->
  wf q /\ format q = kind_format k /\ (qval q == inject_Z m * pow10 s * suffix_factor k)%Q.
Proof.
  intros Hm Hs. destruct k as [e|e|e]; simpl.
  1,2: destruct (checked32 (s + e)) as [s'|] eqn:Hc; simpl; intros ?; simplify_eq;
    apply checked32_Some in Hc as [-> Hc]; split; [done|]; split; [done|]; unfold qval; simpl;
    rewrite pow10_plus; ring.
  destruct (decide (0 <= e <= 120)) as [He|]; [|done].
  destruct (checked _) as [m'|] eqn:Hc; simpl; intros ?; simplify_eq. apply checked_Some in Hc as [-> Hc].
  split; [done|]. split; [done|]. unfold qval. simpl. rewrite Z.shiftl_1_l inject_Z_mult. ring.
Qed.

Lemma syntax_length input sgn whole frac kind :
  quantity_syntax input sgn whole frac kind -> (String.length frac <= String.length input)%nat.
Proof.
  intros [signs point suffix -> _ _ _ Hp _ _].
  assert (forall a b, String.length (a +:+ b) = String.length a + String.length b)%nat as Hl.
  { intros a b. induction a as [|c a IH]; simpl; [done|]. by rewrite IH. }
  destruct Hp as [[-> ->]| ->]; rewrite !Hl; simpl; lia.
Qed.

Lemma syntax_sign input sgn whole frac kind : quantity_syntax input sgn whole frac kind -> sgn = 1 \/ sgn = -1.
Proof. intros [signs point suffix _ Hin _ _ _ _ _]. set_solver. Qed.

Lemma syntax_digits input sgn whole frac kind :
  quantity_syntax input sgn whole frac kind -> 0 <= dec_value 0 (whole +:+ frac).
Proof. intros [? ? ? _ _ Hw Hf _ _ _]. apply dec_value_mono; [done|]. by rewrite digits_app Hw Hf. Qed.

(** [parse] reads the grammar of quantities.  It accepts a string only if
    it is of the grammar, and then the quantity is in range, has the format of
    the suffix and stands for the digits over their decimal places times the
    suffix; a string of the grammar is refused only because a number of it
    overflows. *)
Theorem parse_reads_grammar input :
  Z.of_nat (String.length input) < 2 ^ 31 ->
  match parse input with
  | Ok q =>
      wf q /\ exists sgn whole frac kind, quantity_syntax input sgn whole frac kind /\
        format q = kind_format kind /\
        (qval q == inject_Z (sgn * dec_value 0 (whole +:+ frac))
                   * pow10 (- Z.of_nat (String.length frac)) * suffix_factor kind)%Q
  | Err e =>
      forall sgn whole frac kind, quantity_syntax input sgn whole frac kind ->
        match e with
        | EMantissaOverflow => I128_MAX < dec_value 0 (whole +:+ frac)
        | EScaleOverflow | EValueOverflow => True
        | _ => False
        end
  end.
Proof.
  intros Hlen.
  assert (forall sgn whole frac kind, quantity_syntax input sgn whole frac kind ->
            i32 (- Z.of_nat (String.length frac))) as Hi32.
  { intros sgn whole frac kind Hsx%syntax_length. unfold i32, I32_MIN, I32_MAX. lia. }
  destruct (parse input) as [q|e] eqn:Hp.
  - destruct (parse_inv input) as [(e & He & _)|(sgn & whole & frac & kind & Hsx)]; [congruence|].
    rewrite (parse_syntax _ _ _ _ _ Hsx) as_i32_small in Hp; [by eapply Hi32|].
    unfold parse_i128 in Hp. destruct (decide (dec_value 0 (whole +:+ frac) <= I128_MAX)) as [Hle|]; [|done].
    simpl in Hp. pose proof (syntax_digits _ _ _ _ _ Hsx). pose proof (syntax_sign _ _ _ _ _ Hsx).
    apply apply_suffix_spec in Hp as (Hwf & Hf & Hv); [|unfold i128, I128_MIN, I128_MAX in *; nia|by eapply Hi32].
    split; [done|]. exists sgn, whole, frac, kind. by rewrite (Z.mul_comm sgn).
  - intros sgn whole frac kind Hsx. rewrite (parse_syntax _ _ _ _ _ Hsx) in Hp. unfold parse_i128 in Hp.
    destruct (decide (dec_value 0 (whole +:+ frac) <= I128_MAX)); simpl in Hp; [|simplify_eq; lia].
    destruct kind as [k|k|k]; simpl in Hp.
    1,2: destruct (checked32 _); by simplify_eq/=.
    destruct Hsx as [? ? suffix _ _ _ _ _ _ Hk%interpret_suffix_binary].
    rewrite decide_True in Hp; [lia|]. destruct (checked _); by simplify_eq/=.
Qed.

(** ** Stripping zeros *)

Lemma rem_mul_10 m k : 0 < k -> Z.rem (m * 10 ^ k) 10 = 0.
Proof.
  intros Hk. replace k with (Z.succ (k - 1)) by lia. rewrite Z.pow_succ_r; [lia|].
  replace (m * (10 * 10 ^ (k - 1))) with ((m * 10 ^ (k - 1)) * 10) by ring. by apply Z.rem_mul.
Qed.

Lemma quot_mul_10 m k : 0 < k -> Z.quot (m * 10 ^ k) 10 = m * 10 ^ (k - 1).
Proof.
  intros Hk. replace k with (Z.succ (k - 1)) at 1 by lia. rewrite Z.pow_succ_r; [lia|].
  replace (m * (10 * 10 ^ (k - 1))) with ((m * 10 ^ (k - 1)) * 10) by ring. by apply Z.quot_mul.
Qed.

Lemma strip_loop_eq fuel m k s :
  Z.rem m 10 <> 0 -> 0 <= k < Z.of_nat fuel -> i32 s -> i32 (s + k) ->
  strip_loop fuel (m * 10 ^ k) s = Some (m, s + k).
Proof.
  revert k s. induction fuel as [|fuel IH]; intros k s Hm Hk Hs Hsk; [lia|]. cbn [strip_loop].
  destruct (decide (k = 0)) as [->|Hk0].
  - rewrite Z.mul_1_r decide_False // Z.add_0_r //.
  - rewrite decide_True; [apply rem_mul_10; lia|]. rewrite quot_mul_10; [lia|].
    assert (i32_saturate (s + 1) = s + 1) as -> by (unfold i32_saturate, i32, I32_MIN, I32_MAX in *; lia).
    rewrite IH; [done|lia|unfold i32 in *; lia|unfold i32 in *; lia|]. f_equal. f_equal. lia.
Qed.

Lemma strip_eq m k s : Z.rem m 10 <> 0 -> 0 <= k <= 39 -> i32 s -> i32 (s + k) ->
  strip_trailing_zeros (m * 10 ^ k) s = Some (m, s + k).
Proof.
  intros Hm Hk Hs Hsk. unfold strip_trailing_zeros. rewrite decide_False.
  { pose proof (Z.pow_pos_nonneg 10 k). intros He. assert (m = 0) as -> by nia. done. }
  apply strip_loop_eq; [done|lia|done|done].
Qed.

(** Every number is one without trailing zeros times a power of ten. *)
Lemma ten_split n m : m <> 0 -> Z.abs m < 10 ^ Z.of_nat n ->
  exists m' k, m = m' * 10 ^ k /\ 0 <= k < Z.of_nat n /\ Z.rem m' 10 <> 0.
Proof.
  revert m. induction n as [|n IH]; intros m Hm Hb; [simpl in Hb; lia|].
  destruct (decide (Z.rem m 10 = 0)) as [Hz|Hz]; [|exists m, 0; rewrite Z.mul_1_r; split_and!; [done|lia|lia|done]].
  pose proof (Z.quot_rem' m 10) as He. rewrite Hz in He.
  destruct (IH (Z.quot m 10)) as (m' & k & Hq & Hk & Hr).
  - lia.
  - rewrite Nat2Z.inj_succ Z.pow_succ_r in Hb; lia.
  - exists m', (Z.succ k). rewrite Z.pow_succ_r; [lia|]. split_and!; [lia|lia|lia|done].
Qed.

(** ** The canonical forms by their stripped mantissa and scale *)

Definition exp_shift (s : Z) : Z := s mod 3.

Definition exp_body (m s : Z) : string :=
  let j := exp_shift s in
  if decide (s - j = 0) then pretty (m * 10 ^ j) else pretty (m * 10 ^ j) +:+ "e" +:+ pretty (s - j).

Definition tier (s : Z) : Z := if decide (18 <= s) then 18 else 3 * (s / 3).

Definition si_text (t : Z) : string := default "" (decimal_si_suffix t).

Definition si_body (m s : Z) : string :=
  if decide (-9 <= s) then pretty (m * 10 ^ (s - tier s)) +:+ si_text (tier s) else exp_body m s.

Lemma exp_shift_rem s : exp_shift s =
  if decide (Z.rem s 3 = 1 \/ Z.rem s 3 = -2) then 1
  else if decide (Z.rem s 3 = 2 \/ Z.rem s 3 = -1) then 2 else 0.
Proof.
  unfold exp_shift. pose proof (Z.quot_rem' s 3). pose proof (Z.rem_bound_abs s 3).
  pose proof (Z.mod_pos_bound s 3). pose proof (Z.div_mod s 3). repeat case_decide; lia.
Qed.

Lemma canonical_decimal_exponent_eq m k s :
  Z.rem m 10 <> 0 -> Z.abs m < 10 ^ 36 -> 0 <= k <= 38 -> i32 s -> i32 (s + k) -> I32_MIN + 2 <= s + k ->
  canonical_decimal_exponent (m * 10 ^ k) s = Some (exp_body m (s + k)).
Proof.
  intros Hm Hb Hk Hs Hsk Hlo. unfold canonical_decimal_exponent. rewrite strip_eq; [done|lia|done|done|].
  cbn [mbind option_bind]. unfold exp_body. rewrite exp_shift_rem.
  assert (forall j, 0 <= j <= 2 -> checked (m * 10 ^ j) = Some (m * 10 ^ j)) as Hc.
  { intros j Hj. apply checked_Some. split; [done|]. assert (10 ^ j <= 10 ^ 2) by (apply Z.pow_le_mono_r; lia).
    unfold i128, I128_MIN, I128_MAX. pose proof (Z.pow_pos_nonneg 10 j). nia. }
  assert (forall j, 0 <= j <= 2 -> checked32 (s + k - j) = Some (s + k - j)) as Hc32.
  { intros j Hj. apply checked32_Some. unfold i32 in *. split; [done|lia]. }
  repeat case_decide; simplify_eq; try lia;
    rewrite ?(Hc 1) ?(Hc 2) ?(Hc32 1) ?(Hc32 2) ?Z.sub_0_r ?Z.mul_1_r //=; case_decide; try done; lia.
Qed.

Lemma find_tier s : List.find (fun v => v <=? s) (rev VALID) = if decide (-9 <= s) then Some (tier s) else None.
Proof.
  unfold tier. pose proof (Z.div_mod s 3). pose proof (Z.mod_pos_bound s 3). cbn [rev VALID app List.find].
  repeat match goal with
  | |- context [?v <=? s] => destruct (Z.leb_spec v s); [repeat case_decide; (f_equal; lia) || lia|]
  end.
  rewrite decide_False //. lia.
Qed.

(** The tiers are the suffixes the parser knows. *)
Lemma tier_suffix s : -9 <= s ->
  decimal_si_suffix (tier s) = Some (si_text (tier s)) /\
  interpret_suffix (si_text (tier s)) = Some (SDecimalSI (tier s)).
Proof.
  intros Hs. assert (tier s ∈ VALID) as Hin.
  { unfold tier, VALID. case_decide; [set_solver|].
    assert (s / 3 = -3 \/ s / 3 = -2 \/ s / 3 = -1 \/ s / 3 = 0 \/ s / 3 = 1 \/ s / 3 = 2 \/ s / 3 = 3 \/
            s / 3 = 4 \/ s / 3 = 5) as Hc by (pose proof (Z.div_mod s 3); pose proof (Z.mod_pos_bound s 3); lia).
    destruct Hc as [->|[->|[->|[->|[->|[->|[->|[->| ->]]]]]]]]; set_solver. }
  revert Hin. generalize (tier s). intros t. unfold VALID. rewrite list_elem_of_In /=.
  intros [<-|[<-|[<-|[<-|[<-|[<-|[<-|[<-|[<-|[<-|[]]]]]]]]]]]; done.
Qed.

Lemma tier_bounds s : -9 <= s -> 0 <= s - tier s /\ (s < 18 -> s - tier s <= 2) /\ (18 <= s -> tier s = 18).
Proof.
  unfold tier. pose proof (Z.div_mod s 3). pose proof (Z.mod_pos_bound s 3). case_decide; lia.
Qed.

(** A mantissa shifted down to the tier of its scale is in range. *)
Lemma tier_mantissa m k s :
  Z.abs m < 10 ^ 36 -> Z.abs (m * 10 ^ k) < 10 ^ 38 -> 0 <= k <= 38 -> s <= 18 -> -9 <= s + k ->
  s + k - tier (s + k) <= 38 /\ Z.abs (m * 10 ^ (s + k - tier (s + k))) < 10 ^ 38.
Proof.
  intros Hm Hb Hk Hs Hlo. destruct (tier_bounds (s + k) Hlo) as (H0 & H2 & H18). set (j := s + k - tier (s + k)) in *.
  pose proof (Z.pow_pos_nonneg 10 k). pose proof (Z.pow_pos_nonneg 10 j).
  destruct (decide (s + k < 18)) as [Hlt|Hge].
  - split; [lia|]. assert (10 ^ j <= 10 ^ 2) by (apply Z.pow_le_mono_r; lia). nia.
  - assert (j <= k) by lia. split; [lia|]. assert (10 ^ j <= 10 ^ k) by (apply Z.pow_le_mono_r; lia). nia.
Qed.

Lemma mul_pow_abs m k : 0 <= k -> Z.abs m <= Z.abs (m * 10 ^ k).
Proof. intros Hk. pose proof (Z.pow_pos_nonneg 10 k). nia. Qed.

Lemma canonical_decimal_si_eq m k s :
  Z.rem m 10 <> 0 -> Z.abs m < 10 ^ 36 -> Z.abs (m * 10 ^ k) < 10 ^ 38 -> 0 <= k <= 38 -> -47 <= s <= 18 ->
  canonical_decimal_si (m * 10 ^ k) s = Some (si_body m (s + k)).
Proof.
  intros Hm Hb Hbk Hk Hs. unfold canonical_decimal_si.
  assert (i32 s /\ i32 (s + k)) as [Hi Hik] by (unfold i32, I32_MIN, I32_MAX; lia).
  rewrite strip_eq; [done|lia|done|done|]. cbn [mbind option_bind]. rewrite find_tier. unfold si_body.
  destruct (decide (-9 <= s + k)) as [Hlo|Hlo].
  - destruct (tier_mantissa m k s) as [Hj Hv]; [done|done|done|lia|done|]. unfold checked_pow10. rewrite decide_True //.
    cbn [mbind option_bind]. destruct (tier_suffix (s + k) Hlo) as [-> _].
    assert (i128 (m * 10 ^ (s + k - tier (s + k)))) as Hi128 by (unfold i128, I128_MIN, I128_MAX; lia).
    by rewrite (proj2 (checked_Some _ _) (conj eq_refl Hi128)).
  - rewrite decide_False; [lia|]. unfold checked_pow10. rewrite decide_True; [lia|]. cbn [mbind option_bind].
    rewrite decide_False.
    { intros Hz. apply Hm. pose proof (Z.quot_rem' m (10 ^ (-9 - (s + k)))) as He. rewrite Hz Z.add_0_r in He.
      rewrite He (Z.mul_comm (10 ^ _)). apply rem_mul_10. lia. }
    apply canonical_decimal_exponent_eq; try done. unfold I32_MIN. lia.
Qed.

(** ** Printed numbers are read back *)

Lemma app_empty_r s : s +:+ "" = s.
Proof. induction s as [|c s IH]; [done|]. exact (f_equal (String c) IH). Qed.

Lemma parse_printed z suffix kind : i128 (- z) -> i128 z -> interpret_suffix suffix = Some kind ->
  parse (pretty z +:+ suffix) = apply_suffix z 0 kind.
Proof.
  intros Hn Hz Hk. destruct (pretty_Z_spec z) as (d & -> & Hd & Hv & Hne).
  rewrite (parse_syntax _ (if decide (z < 0) then -1 else 1) d "" kind).
  - apply (quantity_syntax_intro _ _ _ _ _ (sign_string z) "" suffix); try done.
    + unfold sign_string. by case_decide.
    + unfold sign_string. case_decide; set_solver.
    + by left.
    + by left.
  - rewrite app_empty_r. unfold parse_i128. rewrite Hv decide_True; [unfold i128, I128_MIN, I128_MAX in *; lia|].
    simpl. f_equal. case_decide; lia.
Qed.

Lemma all_digits_spec d : digits d = true -> d <> "" -> all_digits d = true.
Proof.
  intros Hd Hne. unfold all_digits. rewrite -(app_empty_r d) span_digits_app //. by destruct d.
Qed.

Lemma parse_i32_pretty s : i32 s -> parse_i32 (pretty s) = Some s.
Proof.
  intros Hs. destruct (pretty_Z_spec s) as (d & -> & Hd & Hv & Hne). unfold parse_i32, sign_string.
  destruct (decide (s < 0)) as [Hneg|Hpos]; simpl.
  - rewrite all_digits_spec // Hv. apply checked32_Some. split; [lia|]. by replace (-1 * Z.abs s) with s by lia.
  - destruct d as [|c d]; [done|]. pose proof Hd as Hd'. simpl in Hd'. apply andb_true_iff in Hd' as [Hc _].
    destruct (digit_not_sign c Hc). rewrite !decide_False //. rewrite all_digits_spec // Hv.
    apply checked32_Some. rewrite Z.mul_1_l Z.abs_eq; [lia|]. done.
Qed.

Lemma interpret_exponent s : i32 s -> interpret_suffix ("e" +:+ pretty s) = Some (SDecimalExponent s).
Proof.
  intros Hs. change ("e" +:+ pretty s) with (String "e" (pretty s)). unfold interpret_suffix. simpl.
  rewrite decide_False.
  - intros He. pose proof (parse_i32_pretty s Hs) as Hp. by rewrite He in Hp.
  - by rewrite parse_i32_pretty.
Qed.

(** ** Canonical text *)

(** Printable ASCII without spaces. *)
Definition plain_char (c : ascii) : bool := (33 <=? N_of_ascii c)%N && (N_of_ascii c <=? 126)%N.
Fixpoint plain (s : string) : bool :=
  match s with String c s' => plain_char c && plain s' | EmptyString => true end.

Lemma plain_app s t : plain (s +:+ t) = plain s && plain t.
Proof. induction s as [|c s IH]; simpl; [done|]. by rewrite IH andb_assoc. Qed.

Lemma plain_digits s : digits s = true -> plain s = true.
Proof.
  induction s as [|c s IH]; simpl; [done|]. rewrite !andb_true_iff. intros [Hc Hs]. split; [|by apply IH].
  unfold is_ascii_digit, digit_value in Hc. unfold plain_char.
  rewrite ->!N.leb_le. rewrite ->!Z.leb_le in Hc. lia.
Qed.

Lemma plain_pretty (z : Z) : plain (pretty z) = true.
Proof.
  destruct (pretty_Z_spec z) as (d & -> & Hd & _). rewrite plain_app (plain_digits d Hd) andb_true_r.
  unfold sign_string. by case_decide.
Qed.

(** [t] is plain text that reads as the number [v] and is its own canonical
    form. *)
Definition canonical_text (t : string) (v : Q) : Prop :=
  plain t = true /\ exists q, parse t = Ok q /\ wf q /\ (qval q == v)%Q /\ canonical_string q = Some t.

Lemma rem_nonzero m : Z.rem m 10 <> 0 -> m <> 0.
Proof. by intros Hm ->. Qed.

Lemma mul_pow_ne m k : Z.rem m 10 <> 0 -> 0 <= k -> m * 10 ^ k <> 0.
Proof. intros Hm%rem_nonzero Hk. pose proof (Z.pow_pos_nonneg 10 k). nia. Qed.

Lemma small_i128 z : Z.abs z < 10 ^ 38 -> i128 z /\ i128 (- z).
Proof. unfold i128, I128_MIN, I128_MAX. lia. Qed.

Lemma si_body_text m s :
  Z.rem m 10 <> 0 -> Z.abs m < 10 ^ 36 -> -9 <= s -> s - tier s <= 38 ->
  Z.abs (m * 10 ^ (s - tier s)) < 10 ^ 38 ->
  canonical_text (si_body m s) (inject_Z m * pow10 s).
Proof.
  intros Hm Hmb Hs Hj Hb. destruct (tier_suffix s Hs) as [Hsuf Hk]. destruct (tier_bounds s Hs) as (H0 & H2 & H18).
  set (j := s - tier s) in *. set (t := tier s) in *.
  assert (-9 <= t <= 18) as Ht by (subst t; unfold tier in *; case_decide; lia).
  assert (i32 t) as Hi32 by (unfold i32, I32_MIN, I32_MAX; lia).
  destruct (small_i128 (m * 10 ^ j)) as [Hi Hin]; [lia|].
  unfold si_body. rewrite decide_True //. fold t. fold j. split.
  { rewrite plain_app plain_pretty. simpl. generalize Hsuf. unfold decimal_si_suffix.
    repeat (case_decide; [intros [= <-]; done|]). done. }
  rewrite (parse_printed _ _ _ Hin Hi Hk). simpl.
  rewrite (proj2 (checked32_Some _ _) (conj eq_refl Hi32)). simpl.
  eexists. split; [done|]. split; [done|]. split.
  - unfold qval. simpl. rewrite pow10_shift //. by replace (t + j) with s by lia.
  - unfold canonical_string. simpl. rewrite decide_False; [by apply mul_pow_ne|].
    rewrite canonical_decimal_si_eq; try done; [lia|]. replace (t + j) with s by lia.
    unfold si_body. by rewrite decide_True.
Qed.

Lemma exp_shift_bounds s : 0 <= exp_shift s <= 2.
Proof. unfold exp_shift. pose proof (Z.mod_pos_bound s 3). lia. Qed.

Lemma exp_body_text m s :
  Z.rem m 10 <> 0 -> Z.abs m < 10 ^ 36 -> I32_MIN + 2 <= s <= I32_MAX ->
  canonical_text (exp_body m s) (inject_Z m * pow10 s).
Proof.
  intros Hm Hb Hs. pose proof (exp_shift_bounds s) as Hj. unfold exp_body. set (j := exp_shift s) in *.
  assert (Z.abs (m * 10 ^ j) < 10 ^ 38) as Hbj.
  { assert (10 ^ j <= 10 ^ 2) by (apply Z.pow_le_mono_r; lia). pose proof (Z.pow_pos_nonneg 10 j). nia. }
  destruct (small_i128 (m * 10 ^ j) Hbj) as [Hi Hin]. case_decide as Hz.
  - assert (s = j) as Hsj by lia.
    assert (tier s = 0) as Ht by (unfold tier; rewrite decide_False; [lia|]; rewrite Z.div_small; lia).
    pose proof (si_body_text m s) as Hsi. unfold si_body in Hsi. rewrite decide_True in Hsi; [lia|].
    rewrite Ht Z.sub_0_r Hsj app_empty_r in Hsi. rewrite Hsj. apply Hsi; try done; lia.
  - assert (i32 (s - j)) as Hi32 by (unfold i32; lia). split.
    { by rewrite plain_app plain_pretty plain_app plain_pretty. }
    rewrite (parse_printed _ _ _ Hin Hi (interpret_exponent _ Hi32)). cbn [apply_suffix].
    rewrite Z.add_0_l (proj2 (checked32_Some _ _) (conj eq_refl Hi32)). cbn [ok_or result_bind].
    eexists. split; [done|]. split; [done|]. split.
    + unfold qval. simpl. rewrite pow10_shift; [lia|]. by replace (s - j + j) with s by lia.
    + unfold canonical_string. simpl. rewrite decide_False; [by apply mul_pow_ne; [|lia]|].
      assert (s - j + j = s) as Hsj by lia.
      rewrite canonical_decimal_exponent_eq; rewrite ?Hsj //; try (unfold i32; lia).
      unfold exp_body. fold j. by rewrite decide_False.
Qed.

(** ** The round trip *)

(** The quantities whose canonical form cannot overflow: at most 36 digits, at
    most 47 decimal places in the SI formats, and an exponent that leaves room
    for 38 digits. *)
Definition canonical_ok (q : Quantity) : Prop :=
  Z.abs (mantissa q) < 10 ^ 36 /\
  match format q with
  | DecimalExponent => I32_MIN + 2 <= scale q <= I32_MAX - 38
  | _ => -47 <= scale q <= 18
  end.

Lemma decimal_si_text m s : m <> 0 -> Z.abs m < 10 ^ 36 -> -47 <= s <= 18 ->
  exists t, canonical_decimal_si m s = Some t /\ canonical_text t (inject_Z m * pow10 s).
Proof.
  intros Hm Hb Hs. destruct (ten_split 36 m Hm Hb) as (m' & k & -> & Hk & Hr).
  assert (Z.abs m' < 10 ^ 36) as Hb' by (pose proof (mul_pow_abs m' k); lia).
  rewrite canonical_decimal_si_eq; try done; [lia|lia|]. eexists. split; [done|].
  unfold canonical_text. setoid_rewrite (pow10_shift m' s k); [|lia].
  change (canonical_text (si_body m' (s + k)) (inject_Z m' * pow10 (s + k))).
  destruct (decide (-9 <= s + k)) as [Hlo|Hlo].
  - destruct (tier_mantissa m' k s) as [Hj Hv]; [lia..|]. by apply si_body_text.
  - unfold si_body. rewrite decide_False //. apply exp_body_text; [done..|unfold I32_MIN, I32_MAX; lia].
Qed.

Lemma decimal_exponent_text m s :
  m <> 0 -> Z.abs m < 10 ^ 36 -> I32_MIN + 2 <= s <= I32_MAX - 38 ->
  exists t, canonical_decimal_exponent m s = Some t /\ canonical_text t (inject_Z m * pow10 s).
Proof.
  intros Hm Hb Hs. destruct (ten_split 36 m Hm Hb) as (m' & k & -> & Hk & Hr).
  assert (Z.abs m' < 10 ^ 36) as Hb' by (pose proof (mul_pow_abs m' k); lia).
  rewrite canonical_decimal_exponent_eq; try done; try (unfold i32; lia). eexists. split; [done|].
  unfold canonical_text. setoid_rewrite (pow10_shift m' s k); [|lia].
  apply exp_body_text; [done..|lia].
Qed.

Lemma binary_loop_spec n v k : let '(v', k') := binary_loop n v k in
  k <= k' <= k + Z.of_nat n /\ v = v' * 1024 ^ (k' - k).
Proof.
  revert v k. induction n as [|n IH]; intros v k; cbn [binary_loop].
  { rewrite Z.sub_diag. lia. }
  case_decide as Hr; [|rewrite Z.sub_diag; lia].
  specialize (IH (Z.quot v 1024) (k + 1)). destruct (binary_loop n (Z.quot v 1024) (k + 1)) as [v' k'].
  destruct IH as [Hk Hv]. split; [lia|]. pose proof (Z.quot_rem' v 1024) as He. rewrite Hr Hv in He.
  replace (k' - k) with (Z.succ (k' - (k + 1))) by lia. rewrite Z.pow_succ_r; [lia|]. lia.
Qed.

Lemma binary_value_spec m s v : i32 s -> binary_value m s = Some (Some v) -> Z.abs m < 10 ^ 36 ->
  i128 v /\ (inject_Z v == inject_Z m * pow10 s)%Q.
Proof.
  intros Hs H Hm. unfold binary_value in H. case_decide as H0.
  - injection H as (p & [-> _]%checked_pow10_Some & [-> Hi]%checked_Some)%bind_Some. split; [done|].
    by rewrite inject_Z_mult pow10_nonneg.
  - apply bind_Some in H as (n & [-> _]%checked32_Some & H).
    injection H as (p & [-> Hle]%checked_pow10_Some & H)%bind_Some.
    case_decide as Hr; simplify_eq. pose proof (Z.quot_rem' m (10 ^ (- s))) as He. rewrite Hr Z.add_0_r in He.
    pose proof (pow10_38 (- s)). split.
    + unfold i128, I128_MIN, I128_MAX. set (v := Z.quot m _) in *. nia.
    + rewrite {2}He Z.mul_comm pow10_shift; [lia|]. rewrite Z.add_opp_diag_r. unfold pow10. simpl. ring.
Qed.

(** The binary suffixes are the ones the parser knows. *)
Lemma binary_suffix k : 1 <= k <= 6 -> exists s, binary_si_suffix k = Some s /\
  interpret_suffix s = Some (SBinarySI (10 * k)) /\ plain s = true.
Proof.
  intros Hk. assert (k = 1 \/ k = 2 \/ k = 3 \/ k = 4 \/ k = 5 \/ k = 6) as Hc by lia.
  destruct Hc as [->|[->|[->|[->|[->| ->]]]]]; eexists; (split; [reflexivity|]); (split; reflexivity).
Qed.

Lemma binary_text m s : m <> 0 -> Z.abs m < 10 ^ 36 -> -47 <= s <= 18 ->
  exists t, canonical_binary_si m s = Some t /\ canonical_text t (inject_Z m * pow10 s).
Proof.
  intros Hm Hb Hs. assert (i32 s) as Hi by (unfold i32, I32_MIN, I32_MAX; lia). unfold canonical_binary_si.
  destruct (binary_value m s) as [[v|]|] eqn:Hbv; cbn [mbind option_bind]; [|by apply decimal_si_text|].
  2: { unfold binary_value in Hbv. case_decide; [done|]. assert (i32 (- s)) as Hn by (unfold i32, I32_MIN, I32_MAX; lia).
       by rewrite (proj2 (checked32_Some _ _) (conj eq_refl Hn)) in Hbv. }
  destruct (binary_value_spec m s v Hi Hbv Hb) as [Hv Hq].
  destruct (decide (Z.abs v < 1024)) as [Hsm|Hbig]; [by apply decimal_si_text|].
  pose proof (binary_loop_spec 6 v 0) as Hl. destruct (binary_loop 6 v 0) as [v' k] eqn:Hloop.
  destruct Hl as [Hk Hvk]. rewrite Z.sub_0_r in Hvk.
  destruct (decide (k = 0)) as [Hk0|Hk0]; [by apply decimal_si_text|].
  destruct (binary_suffix k) as (suf & Hsuf & Hint & Hpl); [lia|]. rewrite Hsuf.
  eexists. split; [done|]. split; [by rewrite plain_app plain_pretty|].
  assert (v = v' * Z.shiftl 1 (10 * k)) as Hsh.
  { rewrite Z.shiftl_1_l Hvk. f_equal. rewrite (Z.pow_mul_r 2 10 k); [lia..|done]. }
  assert (i128 v' /\ i128 (- v')) as [Hv' Hnv'].
  { assert (1024 ^ 1 <= 1024 ^ k) by (apply Z.pow_le_mono_r; lia).
    assert (Z.abs v' * 1024 <= Z.abs v) by (rewrite Hvk Z.abs_mul; nia). unfold i128, I128_MIN, I128_MAX in *. lia. }
  rewrite (parse_printed _ _ _ Hnv' Hv' Hint). cbn [apply_suffix]. rewrite decide_True; [lia|].
  rewrite -Hsh (proj2 (checked_Some _ _) (conj eq_refl Hv)). cbn [ok_or result_bind].
  eexists. split; [done|]. split; [|split].
  - split; [done|]. unfold i32, I32_MIN, I32_MAX. simpl. lia.
  - rewrite -Hq. unfold qval, pow10. simpl. ring.
  - unfold canonical_string. cbn [mantissa scale format]. rewrite decide_False; [lia|].
    assert (binary_value v 0 = Some (Some v)) as Hbv0.
    { unfold binary_value. destruct (decide (0 <= 0)) as [_|?]; [|lia]. change (checked_pow10 0) with (Some 1).
      cbn [mbind option_bind]. by rewrite Z.mul_1_r (proj2 (checked_Some _ _) (conj eq_refl Hv)). }
    unfold canonical_binary_si. rewrite Hbv0. cbn [mbind option_bind].
    rewrite (decide_False (P := Z.abs v < 1024)) // Hloop (decide_False (P := k = 0)) //. by rewrite Hsuf.
Qed.

Lemma canonical_string_text q : canonical_ok q ->
  exists t, canonical_string q = Some t /\ canonical_text t (qval q).
Proof.
  intros [Hb Hs]. unfold canonical_string. destruct (decide (mantissa q = 0)) as [Hz|Hnz].
  - exists "0". split; [done|]. split; [done|]. exists (mkQuantity 0 0 DecimalSI).
    split; [done|]. split; [done|]. split; [|done]. unfold qval. rewrite Hz. simpl. ring.
  - destruct (format q); [by apply decimal_si_text|by apply binary_text|by apply decimal_exponent_text].
Qed.

(** ** Trimming plain text *)

Definition odd_head (enc : list N) : bool :=
  match enc with n :: _ => negb ((33 <=? n) && (n <=? 126))%N | [] => false end.

Lemma strip_any_plain encs l : forallb odd_head encs = true ->
  Forall (fun c => plain_char c = true) l -> strip_any encs l = None.
Proof.
  intros He Hl. induction encs as [|enc encs IH]; [done|]. simpl in *.
  apply andb_true_iff in He as [Hh He]. assert (strip_bytes enc l = None) as ->; [|by apply IH].
  destruct enc as [|n enc]; [done|]. destruct l as [|c l]; [done|]. simpl in *.
  apply Forall_cons in Hl as [Hc _]. case_decide as Hn; [|done]. subst n. unfold plain_char in Hc.
  by rewrite Hc in Hh.
Qed.

Lemma trim_front_plain fuel encs l : forallb odd_head encs = true ->
  Forall (fun c => plain_char c = true) l -> trim_front fuel encs l = l.
Proof. intros He Hl. destruct fuel; [done|]. simpl. by rewrite strip_any_plain. Qed.

Lemma plain_chars s : plain s = true -> Forall (fun c => plain_char c = true) (String.list_ascii_of_string s).
Proof.
  induction s as [|c s IH]; simpl; [constructor|]. intros [Hc Hs]%andb_true_iff. constructor; [done|by apply IH].
Qed.

Lemma trim_plain s : plain s = true -> trim s = s.
Proof.
  intros Hs%plain_chars. unfold trim. rewrite (trim_front_plain _ WHITE_SPACE) //.
  rewrite trim_front_plain //; [by apply Forall_rev|]. rewrite rev_involutive.
  apply String.string_of_list_ascii_of_string.
Qed.

(** C35: canonicalisation keeps the value and is idempotent: a string that parses
    to a quantity within the bounds of [canonical_ok] (at most 36 digits, a scale
    from -47 to 18, or in the exponent format one that leaves room for 38 digits)
    has a canonical form, which parses to the same number and is its own canonical
    form.  Outside the bounds there may be none: [canonical_string_panics]. *)
Theorem canonicalize_roundtrip s q :
  parse (trim s) = Ok q -> canonical_ok q ->
  exists t q', canonicalize s = Some t /\ parse t = Ok q' /\ (qval q' == qval q)%Q /\
    canonicalize t = Some t.
Proof.
  intros Hp Hok. destruct (canonical_string_text q Hok) as (t & Ht & Hpl & q' & Hp' & _ & Hv & Hc).
  exists t, q'. unfold canonicalize. by rewrite Hp (trim_plain t Hpl) Hp'.
Qed.

Lemma canonicalize_roundtrip_witness :
  (exists q, parse (trim " 1536Mi ") = Ok q /\ canonical_ok q) /\
  exists t q', canonicalize " 1536Mi " = Some t /\ parse t = Ok q' /\ canonicalize t = Some t.
Proof.
  assert (exists q, parse (trim " 1536Mi ") = Ok q /\ canonical_ok q) as (q & Hp & Hok).
  { eexists. split; [vm_compute; reflexivity|]. split; [reflexivity|]. simpl. lia. }
  split; [by exists q|]. destruct (canonicalize_roundtrip _ q Hp Hok) as (t & q' & H1 & H2 & _ & H4).
  by exists t, q'.
Defined.

Lemma parse_reads_grammar_witness :
  parse "-2.5Gi" = Ok (mkQuantity (-25 * 2 ^ 30) (-1) BinarySI) /\
  exists sgn whole frac kind, quantity_syntax "-2.5Gi" sgn whole frac kind /\
    (qval (mkQuantity (-25 * 2 ^ 30) (-1) BinarySI) ==
       inject_Z (sgn * dec_value 0 (whole +:+ frac))
       * pow10 (- Z.of_nat (String.length frac)) * suffix_factor kind)%Q.
Proof.
  assert (parse "-2.5Gi" = Ok (mkQuantity (-25 * 2 ^ 30) (-1) BinarySI)) as Hp by (vm_compute; reflexivity).
  assert (Z.of_nat (String.length "-2.5Gi") < 2 ^ 31) as Hlen by (vm_compute; reflexivity).
  split; [exact Hp|]. pose proof (parse_reads_grammar "-2.5Gi" Hlen) as H. rewrite Hp in H.
  destruct H as (_ & sgn & whole & frac & kind & Hs & _ & Hv). by exists sgn, whole, frac, kind.
Defined.

(** ** Resource accounting *)

Lemma as_i32_range x : i32 (as_i32 x).
Proof. unfold as_i32, i32, I32_MIN, I32_MAX. pose proof (Z.mod_pos_bound (x + 2 ^ 31) (2 ^ 32)). lia. Qed.

Lemma parse_wf input q : parse input = Ok q -> wf q.
Proof.
  intros Hp. destruct (parse_inv input) as [(e & He & _)|(sgn & whole & frac & kind & Hsx)]; [congruence|].
  rewrite (parse_syntax _ _ _ _ _ Hsx) in Hp. unfold parse_i128 in Hp.
  destruct (decide (dec_value 0 (whole +:+ frac) <= I128_MAX)) as [Hle|]; [|done]. simpl in Hp.
  pose proof (syntax_digits _ _ _ _ _ Hsx). pose proof (syntax_sign _ _ _ _ _ Hsx).
  apply apply_suffix_spec in Hp as [? _]; [done| |apply as_i32_range].
  unfold i128, I128_MIN, I128_MAX in *. nia.
Qed.

Definition clamp64 (x : Z) : Z := Z.max I64_MIN (Z.min I64_MAX x).

(** The decimal places of the unit a resource is accounted in. *)
Definition unit_scale (resource : string) : Z := if decide (resource = "cpu") then 3 else 0.

Lemma Qceiling_pos x : (0 < x)%Q -> 1 <= Qceiling x.
Proof.
  intros Hx. pose proof (Qle_ceiling x) as Hc. assert (0 < Qceiling x); [|lia].
  rewrite Zlt_Qlt. by eapply Qlt_le_trans.
Qed.

(** A resource is accounted as its quantity in millicores for [cpu] and in
    the base unit otherwise, rounded up away from zero and saturated at the
    bounds of [i64]; in particular a quantity accounts as nothing only if it is
    zero. *)
Theorem resource_value_rounds_up s resource q :
  parse (trim s) = Ok q ->
  parse_resource_value s resource =
    Ok (clamp64 (Z.sgn (mantissa q) * Qceiling (Qabs (qval q) * pow10 (unit_scale resource)))) /\
  (parse_resource_value s resource = Ok 0 <-> (qval q == 0)%Q).
Proof.
  intros Hp. pose proof (parse_wf _ _ Hp) as Hwf.
  assert (parse_resource_value s resource =
    Ok (clamp64 (Z.sgn (mantissa q) * Qceiling (Qabs (qval q) * pow10 (unit_scale resource))))) as ->.
  { unfold parse_resource_value. rewrite Hp. simpl. f_equal. unfold clamp64, unit_scale, milli_value, value.
    assert (forall x, Z.max I64_MIN (Z.min I64_MAX (clamp128 x)) = Z.max I64_MIN (Z.min I64_MAX x)) as Hc
      by (intros x; unfold clamp128, I64_MIN, I64_MAX, I128_MIN, I128_MAX; lia).
    case_decide; rewrite scaled_value_spec //; try (split; discriminate); apply Hc. }
  split; [done|]. pose proof (pow10_pos (scale q)) as Hps. pose proof (pow10_pos (unit_scale resource)) as Hpu.
  destruct (decide (mantissa q = 0)) as [Hz|Hnz].
  - rewrite Hz. simpl. split; [|done]. intros _. unfold qval. rewrite Hz. ring.
  - assert (0 < Qabs (qval q) * pow10 (unit_scale resource))%Q as Hpos.
    { apply Qmult_lt_0_compat; [|done]. unfold qval. rewrite Qabs_Qmult.
      apply Qmult_lt_0_compat; [|rewrite Qabs_pos //; by apply Qlt_le_weak].
      change (Qabs (inject_Z (mantissa q))) with (inject_Z (Z.abs (mantissa q))).
      change 0%Q with (inject_Z 0). rewrite -Zlt_Qlt. lia. }
    pose proof (Qceiling_pos _ Hpos). split.
    + intros [= He]. exfalso. unfold clamp64, I64_MIN, I64_MAX in He.
      set (c := Qceiling _) in *. pose proof (Z.sgn_spec (mantissa q)). nia.
    + intros He. exfalso. rewrite He in Hpos. by vm_compute in Hpos.
Qed.

Lemma resource_value_rounds_up_witness :
  parse (trim "100u") = Ok (mkQuantity 100 (-6) DecimalSI) /\
  parse_resource_value "100u" "cpu" = Ok 1 /\ parse_resource_value "100u" "cpu" <> Ok 0.
Proof.
  assert (parse (trim "100u") = Ok (mkQuantity 100 (-6) DecimalSI)) as Hp by (vm_compute; reflexivity).
  destruct (resource_value_rounds_up "100u" "cpu" _ Hp) as [H1 H2]. split; [exact Hp|].
  split; [rewrite H1; vm_compute; reflexivity|]. intros H%H2. vm_compute in H. discriminate H.
Defined.

(** ** Where the canonical form does not exist *)

Fixpoint zeros (n : nat) : string := match n with O => "" | S n' => String "0" (zeros n') end.

(** A quantity with 60 decimal places parses and is accepted, but its
    canonical form panics: the factor [10^51] of [canonical_decimal_si] does
    not fit in an [i128], and the [expect] on it fails. *)
Theorem canonical_string_panics :
  exists q, parse ("0." +:+ zeros 59 +:+ "1") = Ok q /\ format q = DecimalSI /\ canonical_string q = None.
Proof. exists (mkQuantity 1 (-60) DecimalSI). split; [|split]; vm_compute; reflexivity. Qed.
