(* ===== verification/LeaderElection.v ===== *)
(** * Leader election

    Model of [crates/common/src/leaderelection.rs] over the lock of
    [crates/storage/src/lease_lock.rs]: any number of electors that share one
    [Lease] object through a storage with compare-and-swap.

    - A call to the storage is two steps: the storage answers ([send], or
      [fail] without effect), and the elector goes on with the answer ([recv]).
      Between them any other elector may act and time may pass; the future may
      also be dropped at any call ([el_cancel]), as the timeouts of [renew] and
      [release] do.
    - Times are [Z] nanoseconds.  The clock of an elector is the global time
      plus a constant [offset] of its own: clocks may disagree, but run at the
      same rate.
    - The storage is the interface [LeaseStore].  An object is stored as JSON,
      which keeps times to the microsecond ([micro]).
    - The loops [acquire] and [renew] call [try_acquire_or_renew] at times that
      the model leaves open; events, logs and callbacks are left out. *)

From S2P Require Import Prelude.

Local Open Scope Z_scope.

Definition SEC : Z := 10 ^ 9.

(** ** Records and leases *)

Record LeaderElectionRecord := mkLER {
  holder_identity : string;
  lease_duration_seconds : Z;
  acquire_time : Z;
  renew_time : Z;
  leader_transitions : Z;
  preferred_holder : string;
  strategy : string
}.

#[export] Instance LeaderElectionRecord_eq_dec : EqDecision LeaderElectionRecord.
Proof. solve_decision. Defined.

(** [LeaderElectionRecord::default]; the Unix epoch is 0. *)
Definition ler_default : LeaderElectionRecord := mkLER "" 0 0 0 0 "" "".

Record LeaseSpec := mkLeaseSpec {
  ls_holder : option string;
  ls_duration : option Z;
  ls_acquire : option Z;
  ls_renew : option Z;
  ls_transitions : option Z;
  ls_preferred : option string;
  ls_strategy : option string
}.

Definition spec_default : LeaseSpec := mkLeaseSpec None None None None None None None.

Record Lease := mkLease {
  lease_name : string;
  lease_namespace : string;
  lease_rv : option string;
  lease_spec : option LeaseSpec
}.

Definition lease_spec_to_record (s : LeaseSpec) : LeaderElectionRecord :=
  mkLER (default "" (ls_holder s)) (default 0 (ls_duration s)) (default 0 (ls_acquire s))
    (default 0 (ls_renew s)) (default 0 (ls_transitions s)) (default "" (ls_preferred s))
    (default "" (ls_strategy s)).

Definition nonempty (s : string) : option string := if decide (s = "") then None else Some s.

Definition record_to_lease_spec (r : LeaderElectionRecord) : LeaseSpec :=
  mkLeaseSpec (Some (holder_identity r)) (Some (lease_duration_seconds r)) (Some (acquire_time r))
    (Some (renew_time r)) (Some (leader_transitions r)) (nonempty (preferred_holder r))
    (nonempty (strategy r)).

(** [k8s_micro_time]: a time is written with six fractional digits. *)
Definition micro (t : Z) : Z := t - t mod 1000.

Definition micro_spec (s : LeaseSpec) : LeaseSpec :=
  mkLeaseSpec (ls_holder s) (ls_duration s) (micro <$> ls_acquire s) (micro <$> ls_renew s)
    (ls_transitions s) (ls_preferred s) (ls_strategy s).

Definition lease_new (name namespace : string) : Lease := mkLease name namespace None None.

Definition with_spec (l : Lease) (s : LeaseSpec) : Lease :=
  mkLease (lease_name l) (lease_namespace l) (lease_rv l) (Some s).

(** The lease as it is read back after it was written under [rv]. *)
Definition stored_as (l : Lease) (rv : string) : Lease :=
  mkLease (lease_name l) (lease_namespace l) (Some rv) (micro_spec <$> lease_spec l).

Inductive LockError := LNotFound | LNotInitialized | LOther (msg : string).

(** What the lock relies on of the storage: an object read has a resource
    version; an update or a create that fails changes nothing; an update
    succeeds exactly when the object exists and the versions agree, a create
    exactly when it does not; what is written gets a version never used. *)
Class LeaseStore (S : Type) := {
  lst_get : S -> option Lease;
  lst_update : S -> Lease -> S * result Lease LockError;
  lst_create : S -> Lease -> S * result Lease LockError;
  lst_used : S -> gset string;
  lst_get_version s l : lst_get s = Some l -> exists rv, lease_rv l = Some rv /\ rv ∈ lst_used s;
  lst_update_fails s l : (lst_get s ≫= lease_rv) <> lease_rv l ->
    exists e, lst_update s l = (s, Err e);
  lst_update_ok s l e : lst_get s = Some e -> lease_rv l = lease_rv e ->
    exists s' rv, lst_update s l = (s', Ok (stored_as l rv)) /\ lst_get s' = Some (stored_as l rv) /\
      (rv ∉ lst_used s) /\ lst_used s' = {[rv]} ∪ lst_used s;
  lst_create_fails s l e : lst_get s = Some e -> exists err, lst_create s l = (s, Err err);
  lst_create_ok s l : lst_get s = None ->
    exists s' rv, lst_create s l = (s', Ok (stored_as l rv)) /\ lst_get s' = Some (stored_as l rv) /\
      (rv ∉ lst_used s) /\ lst_used s' = {[rv]} ∪ lst_used s
}.

(** ** An elector *)

Record Observed := mkObserved {
  ob_record : LeaderElectionRecord;
  ob_time : Z;
  ob_reported_leader : string
}.

(** Which [lock.update] a call is: the optimistic one, the one of step 4, or
    the one of [release]. *)
Inductive UpdateKind := UFast | USlow | URelease.

(** Where an elector is: idle with the answer of the last call, before a call
    to the lock, or after the storage answered it.  [now] and [record] are the
    locals of [try_acquire_or_renew]. *)
Inductive elector_pc :=
| PIdle (answer : option bool)
| PUpdate (k : UpdateKind) (now : Z) (record : LeaderElectionRecord)
| PUpdated (k : UpdateKind) (now : Z) (record : LeaderElectionRecord) (r : result Lease LockError)
| PGet (now : Z) (record : LeaderElectionRecord)
| PGot (now : Z) (record : LeaderElectionRecord) (r : result Lease LockError)
| PCreate (record : LeaderElectionRecord)
| PCreated (record : LeaderElectionRecord) (r : result Lease LockError)
| PReleaseGet
| PReleaseGot (r : result Lease LockError).

Record Elector := mkElector {
  el_lease : option Lease;
  el_observed : Observed;
  el_pc : elector_pc
}.

Definition set_pc (e : Elector) (pc : elector_pc) : Elector := mkElector (el_lease e) (el_observed e) pc.

(** The elector [LeaderElector::new] and [LeaseLock::new] make. *)
Definition elector_new : Elector := mkElector None (mkObserved ler_default 0 "") (PIdle None).

(** [as_secs() as i32] *)
Definition as_secs_i32 (d : Z) : Z := (d / SEC + 2 ^ 31) mod 2 ^ 32 - 2 ^ 31.

Section Elector.
Context (identity : string) (lease_duration : Z) (name namespace : string).

Definition is_leader (o : Observed) : bool := bool_decide (holder_identity (ob_record o) = identity).

Definition is_lease_valid (o : Observed) (now : Z) : bool :=
  bool_decide (now < ob_time o + lease_duration_seconds (ob_record o) * SEC).

(** [set_observed], at the clock reading [clock]. *)
Definition set_observed (o : Observed) (record : LeaderElectionRecord) (clock : Z) : Observed :=
  mkObserved record clock (ob_reported_leader o).

(** [try_acquire_or_renew] up to its first call. *)
Definition try_start (e : Elector) (now : Z) : Elector :=
  let o := el_observed e in
  let record := mkLER identity (as_secs_i32 lease_duration) now now 0 "" "" in
  if is_leader o && is_lease_valid o now then
    let old := ob_record o in
    set_pc e (PUpdate UFast now
      (mkLER identity (as_secs_i32 lease_duration) (acquire_time old) now (leader_transitions old) "" ""))
  else set_pc e (PGet now record).

Definition release_start (e : Elector) : Elector := set_pc e PReleaseGet.

(** Steps 3 and 4 of [try_acquire_or_renew], from the answer of [lock.get] to
    the update. *)
Definition try_got (e : Elector) (now : Z) (record : LeaderElectionRecord) (l : Lease) (clock : Z) : Elector :=
  let old := lease_spec_to_record (default spec_default (lease_spec l)) in
  let o := el_observed e in
  let o := if decide (ob_record o = old) then o else mkObserved old clock (ob_reported_leader o) in
  let e := mkElector (Some l) o (el_pc e) in
  if negb (bool_decide (holder_identity old = "")) && is_lease_valid o now && negb (is_leader o) then
    set_pc e (PIdle (Some false))
  else if is_leader o then
    set_pc e (PUpdate USlow now
      (mkLER (holder_identity record) (lease_duration_seconds record) (acquire_time old)
         (renew_time record) (leader_transitions old) (preferred_holder record) (strategy record)))
  else
    set_pc e (PUpdate USlow now
      (mkLER (holder_identity record) (lease_duration_seconds record) (acquire_time record)
         (renew_time record) (leader_transitions old + 1) (preferred_holder record) (strategy record))).

(** The elector goes on with an answer of the storage at the clock reading
    [clock]. *)
Definition recv (e : Elector) (clock : Z) : option Elector :=
  let o := el_observed e in
  match el_pc e with
  | PUpdated _ _ record (Ok l) =>
      Some (mkElector (Some l) (set_observed o record clock) (PIdle (Some true)))
  | PUpdated UFast now record (Err _) => Some (set_pc e (PGet now record))
  | PUpdated _ _ _ (Err _) => Some (set_pc e (PIdle (Some false)))
  | PGot now record (Ok l) => Some (try_got e now record l clock)
  | PGot _ record (Err LNotFound) => Some (set_pc e (PCreate record))
  | PGot _ _ (Err _) => Some (set_pc e (PIdle (Some false)))
  | PCreated record (Ok l) =>
      Some (mkElector (Some l) (set_observed o record clock) (PIdle (Some true)))
  | PCreated _ (Err _) => Some (set_pc e (PIdle (Some false)))
  | PReleaseGot (Ok l) =>
      let old := lease_spec_to_record (default spec_default (lease_spec l)) in
      let e := mkElector (Some l) o (el_pc e) in
      if negb (is_leader o) then Some (set_pc e (PIdle (Some true)))
      else Some (set_pc e (PUpdate URelease clock (mkLER "" 1 clock clock (leader_transitions old) "" "")))
  | PReleaseGot (Err _) => Some (set_pc e (PIdle (Some false)))
  | _ => None
  end.

(** The storage serves the pending call of the elector ([LeaseLock::get],
    [create], [update]). *)
Definition send {St} `{!LeaseStore St} (s : St) (e : Elector) : option (St * Elector) :=
  match el_pc e with
  | PUpdate k now record =>
      match el_lease e with
      | None => Some (s, set_pc e (PUpdated k now record (Err LNotInitialized)))
      | Some l =>
          let '(s', r) := lst_update s (with_spec l (record_to_lease_spec record)) in
          Some (s', set_pc e (PUpdated k now record r))
      end
  | PGet now record =>
      Some (s, set_pc e (PGot now record (match lst_get s with Some l => Ok l | None => Err LNotFound end)))
  | PCreate record =>
      let '(s', r) := lst_create s (with_spec (lease_new name namespace) (record_to_lease_spec record)) in
      Some (s', set_pc e (PCreated record r))
  | PReleaseGet =>
      Some (s, set_pc e (PReleaseGot (match lst_get s with Some l => Ok l | None => Err LNotFound end)))
  | _ => None
  end.

(** The pending call fails without effect. *)
Definition fail (e : Elector) (msg : string) : option Elector :=
  match el_pc e with
  | PUpdate k now record => Some (set_pc e (PUpdated k now record (Err (LOther msg))))
  | PGet now record => Some (set_pc e (PGot now record (Err (LOther msg))))
  | PCreate record => Some (set_pc e (PCreated record (Err (LOther msg))))
  | PReleaseGet => Some (set_pc e (PReleaseGot (Err (LOther msg))))
  | _ => None
  end.

(** The future is dropped. *)
Definition el_cancel (e : Elector) : Elector := set_pc e (PIdle None).

(** [maybe_report_transition]: the new leader reported, if it changed. *)
Definition maybe_report_transition (e : Elector) : Elector * option string :=
  let o := el_observed e in
  let holder := holder_identity (ob_record o) in
  if decide (holder = ob_reported_leader o) then (e, None)
  else (mkElector (el_lease e) (mkObserved (ob_record o) (ob_time o) holder) (el_pc e), Some holder).

Definition get_leader (o : Observed) : string := holder_identity (ob_record o).

End Elector.

(** ** Any number of electors *)

Record Sys (St : Type) := mkSys { sys_time : Z; sys_store : St; sys_els : gmap nat Elector }.
Arguments mkSys {St}.
Arguments sys_time {St}.
Arguments sys_store {St}.
Arguments sys_els {St}.

Section System.
Context {St : Type} `{!LeaseStore St}.
(** Identity, lease duration and clock offset of each elector; the name of the
    lease; the configuration flag [release_on_cancel]. *)
Context (ident : nat -> string) (duration offset : nat -> Z) (name namespace : string)
  (release_on_cancel : bool).

Inductive step : Sys St -> Sys St -> Prop :=
| step_tick t s els dt : 0 <= dt -> step (mkSys t s els) (mkSys (t + dt) s els)
| step_try t s els n e a :
    els !! n = Some e -> el_pc e = PIdle a ->
    step (mkSys t s els) (mkSys t s (<[n := try_start (ident n) (duration n) e (t + offset n)]> els))
| step_release t s els n e a :
    release_on_cancel = true -> els !! n = Some e -> el_pc e = PIdle a ->
    step (mkSys t s els) (mkSys t s (<[n := release_start e]> els))
| step_send t s els n e s' e' :
    els !! n = Some e -> send name namespace s e = Some (s', e') ->
    step (mkSys t s els) (mkSys t s' (<[n := e']> els))
| step_fail t s els n e e' msg :
    els !! n = Some e -> fail e msg = Some e' ->
    step (mkSys t s els) (mkSys t s (<[n := e']> els))
| step_recv t s els n e e' :
    els !! n = Some e -> recv (ident n) e (t + offset n) = Some e' ->
    step (mkSys t s els) (mkSys t s (<[n := e']> els))
| step_cancel t s els n e :
    els !! n = Some e -> step (mkSys t s els) (mkSys t s (<[n := el_cancel e]> els))
| step_report t s els n e :
    els !! n = Some e -> step (mkSys t s els) (mkSys t s (<[n := (maybe_report_transition e).1]> els)).

Inductive steps : Sys St -> Sys St -> Prop :=
| steps_refl y : steps y y
| steps_step y y1 y2 : step y y1 -> steps y1 y2 -> steps y y2.

(** An elector whose last renewal that it knows of began less than its lease
    duration ago: it holds the record it wrote, and the record's renew time is
    that recent on its clock. *)
Definition live (y : Sys St) (n : nat) : Prop :=
  exists e, sys_els y !! n = Some e /\ is_leader (ident n) (el_observed e) = true /\
    sys_time y + offset n <
      micro (renew_time (ob_record (el_observed e))) + as_secs_i32 (duration n) * SEC.

End System.

(** ** Proofs *)

Lemma record_spec_record r : lease_spec_to_record (record_to_lease_spec r) = r.
Proof.
  destruct r as [h d a n t p s]. unfold lease_spec_to_record, record_to_lease_spec, nonempty. simpl.
  f_equal; case_decide; by subst.
Qed.

(** The record as it is read back. *)
Definition micro_record (r : LeaderElectionRecord) : LeaderElectionRecord :=
  mkLER (holder_identity r) (lease_duration_seconds r) (micro (acquire_time r)) (micro (renew_time r))
    (leader_transitions r) (preferred_holder r) (strategy r).

Definition record_of (l : Lease) : LeaderElectionRecord :=
  lease_spec_to_record (default spec_default (lease_spec l)).

Lemma record_of_stored l r rv :
  record_of (stored_as (with_spec l (record_to_lease_spec r)) rv) = micro_record r.
Proof.
  unfold record_of. simpl. destruct r as [h d a n t p s].
  unfold lease_spec_to_record, record_to_lease_spec, micro_spec, micro_record, nonempty. simpl.
  f_equal; case_decide; by subst.
Qed.

Lemma micro_le t : micro t <= t.
Proof. unfold micro. pose proof (Z.mod_pos_bound t 1000). lia. Qed.

Lemma micro_mono a b : a <= b -> micro a <= micro b.
Proof.
  unfold micro. intros H. pose proof (Z.div_mod a 1000). pose proof (Z.div_mod b 1000).
  pose proof (Z.div_le_mono a b 1000). lia.
Qed.

Lemma micro_idem t : micro (micro t) = micro t.
Proof.
  unfold micro. replace (t - t mod 1000) with (0 + (t / 1000) * 1000) by (pose proof (Z.div_mod t 1000); lia).
  rewrite Z.mod_add // Z.mod_0_l //. lia.
Qed.

Section Exclusion.
Context {St : Type} `{!LeaseStore St}.
Context (ident : nat -> string) (duration offset : nat -> Z) (name namespace : string).
Context (ident_inj : forall n m, ident n = ident m -> n = m) (ident_nonempty : forall n, ident n <> "").
Implicit Types (s : St) (t : Z) (n m h : nat) (e : Elector) (r : LeaderElectionRecord) (l : Lease).

Definition dur n : Z := as_secs_i32 (duration n).

(** A record some elector wrote, having read its clock before time [t]. *)
Definition genuine t r : Prop :=
  exists h, holder_identity r = ident h /\ lease_duration_seconds r = dur h /\ renew_time r - offset h <= t.

(** Its lease has run out at time [t]. *)
Definition expired t r : Prop :=
  forall h, holder_identity r = ident h -> renew_time r - offset h + dur h * SEC <= t.

(** A lease that was read: unless it was overwritten it is the stored one. *)
Definition coherent s l : Prop :=
  exists rv, lease_rv l = Some rv /\ rv ∈ lst_used s /\
    forall l', lst_get s = Some l' -> lease_rv l' = Some rv -> l' = l.

Definition read_ok t s l : Prop :=
  coherent s l /\ genuine t (record_of l) /\ micro_record (record_of l) = record_of l.

(** A record elector [n] wrote is still the stored one, or was renewed since, or
    has run out. *)
Definition claim t s n r : Prop :=
  holder_identity r = ident n ->
  (exists l, lst_get s = Some l /\ holder_identity (record_of l) = ident n /\
     micro (renew_time r) <= renew_time (record_of l)) \/
  micro (renew_time r) - offset n + dur n * SEC <= t.

(** [r] is what elector [n] is about to write; nothing newer of its own is
    around. *)
Definition newest t s n (o : Observed) r : Prop :=
  holder_identity r = ident n /\ lease_duration_seconds r = dur n /\ renew_time r - offset n <= t /\
  (holder_identity (ob_record o) = ident n -> renew_time (ob_record o) <= renew_time r) /\
  forall l, lst_get s = Some l -> holder_identity (record_of l) = ident n ->
    renew_time (record_of l) <= micro (renew_time r).

Definition written t s n r (x : result Lease LockError) : Prop :=
  match x with
  | Ok l => coherent s l /\ record_of l = micro_record r /\ claim t s n r
  | Err _ => True
  end.

Definition pc_ok t s n e : Prop :=
  let o := el_observed e in
  match el_pc e with
  | PIdle _ => True
  | PUpdate UFast now r => newest t s n o r /\ renew_time r = now /\ is_leader (ident n) o = true
  | PUpdate USlow now r => newest t s n o r /\ renew_time r = now /\
      forall l, el_lease e = Some l -> holder_identity (record_of l) = ident n \/ expired t (record_of l)
  | PUpdate URelease _ _ => False
  | PUpdated k now r x => k <> URelease /\ newest t s n o r /\ renew_time r = now /\ written t s n r x
  | PGet now r => newest t s n o r /\ renew_time r = now
  | PGot now r x => newest t s n o r /\ renew_time r = now /\
      match x with
      | Ok l => read_ok t s l /\ claim t s n (record_of l) /\
                (holder_identity (record_of l) = ident n -> renew_time (record_of l) <= micro (renew_time r))
      | Err _ => True
      end
  | PCreate r => newest t s n o r
  | PCreated r x => newest t s n o r /\ written t s n r x
  | PReleaseGet | PReleaseGot _ => False
  end.

Definition observed_ok t n (o : Observed) : Prop :=
  ob_record o = ler_default \/
  exists h, holder_identity (ob_record o) = ident h /\ lease_duration_seconds (ob_record o) = dur h /\
    renew_time (ob_record o) - offset h <= ob_time o - offset n <= t.

Definition lease_ok s e : Prop :=
  match el_lease e with
  | Some l => coherent s l /\ record_of l = micro_record (ob_record (el_observed e))
  | None => ob_record (el_observed e) = ler_default
  end.

Record el_inv t s n e : Prop := {
  ei_lease : lease_ok s e;
  ei_observed : observed_ok t n (el_observed e);
  ei_claim : claim t s n (ob_record (el_observed e));
  ei_pc : pc_ok t s n e
}.

Definition store_ok t s : Prop :=
  forall l, lst_get s = Some l -> genuine t (record_of l) /\ micro_record (record_of l) = record_of l.

Record sys_inv (y : Sys St) : Prop := {
  si_store : store_ok (sys_time y) (sys_store y);
  si_els : map_Forall (fun n e => el_inv (sys_time y) (sys_store y) n e) (sys_els y)
}.

(** *** Time passes *)

Lemma genuine_mono t t' r : t <= t' -> genuine t r -> genuine t' r.
Proof. intros Ht (h & ? & ? & ?). exists h. split_and!; [done|done|lia]. Qed.

Lemma claim_mono t t' s n r : t <= t' -> claim t s n r -> claim t' s n r.
Proof. intros Ht Hc Hh. destruct (Hc Hh) as [?|?]; [by left|right; lia]. Qed.

Lemma newest_mono t t' s n o r : t <= t' -> newest t s n o r -> newest t' s n o r.
Proof. intros Ht (? & ? & ? & ? & ?). split_and!; try done. lia. Qed.

Lemma pc_mono t t' s n e : t <= t' -> pc_ok t s n e -> pc_ok t' s n e.
Proof.
  intros Ht. unfold pc_ok. destruct (el_pc e) as [| [] | [] ? ? []|?|? ? []|?|? []| |]; simpl;
    unfold read_ok; intros; destruct_and?; split_and?; eauto using newest_mono, claim_mono, genuine_mono.
  intros l Hl. destruct (H2 l Hl) as [?|He]; [by left|right]. intros h Hh. specialize (He h Hh). lia.
Qed.

Lemma el_inv_mono t t' s n e : t <= t' -> el_inv t s n e -> el_inv t' s n e.
Proof.
  intros Ht [Hl Ho Hc Hp]. split; [done| |by eapply claim_mono|by eapply pc_mono].
  destruct Ho as [?|(h & ? & ? & ?)]; [by left|right]. exists h. split_and!; try done; lia.
Qed.

(** *** Another elector writes *)

(** [s'] is [s] with a lease of elector [n] written over nothing, over its own,
    or over one that has run out. *)
Definition wrote t s n s' l' : Prop :=
  lst_get s' = Some l' /\ holder_identity (record_of l') = ident n /\
  (exists rv, lease_rv l' = Some rv /\ (rv ∉ lst_used s) /\ lst_used s' = {[rv]} ∪ lst_used s) /\
  forall l, lst_get s = Some l -> holder_identity (record_of l) = ident n \/ expired t (record_of l).

Lemma coherent_wrote t s n s' l' l : wrote t s n s' l' -> coherent s l -> coherent s' l.
Proof.
  intros (Hg & _ & (rv & Hrv & Hfresh & Hu) & _) (rv0 & Hl & Hin & _). exists rv0.
  split; [done|]. split; [set_solver|]. intros l1 Hg1 Hl1. exfalso. simplify_eq. naive_solver.
Qed.

Lemma claim_wrote t s n s' l' m r : wrote t s n s' l' -> m <> n -> claim t s m r -> claim t s' m r.
Proof.
  intros (_ & _ & _ & Hover) Hne Hc Hh. right.
  destruct (Hc Hh) as [(l & Hg & Hl & Hr)|?]; [|done].
  destruct (Hover l Hg) as [Hn|He]; [rewrite Hl in Hn; by apply ident_inj in Hn|].
  specialize (He m Hl). lia.
Qed.

Lemma newest_wrote t s n s' l' m o r : wrote t s n s' l' -> m <> n -> newest t s m o r -> newest t s' m o r.
Proof.
  intros (Hg & Hh & _) Hne (? & ? & ? & ? & _). split_and!; try done. intros l Hl Hm. exfalso. simplify_eq.
  rewrite Hh in Hm. by apply ident_inj in Hm.
Qed.

Lemma el_inv_wrote t s n s' l' m e :
  wrote t s n s' l' -> m <> n -> el_inv t s m e -> el_inv t s' m e.
Proof.
  intros Hw Hne [Hl Ho Hc Hp]. split; [|done|by eapply claim_wrote|].
  - unfold lease_ok in *. destruct (el_lease e); [|done]. destruct Hl. split; [by eapply coherent_wrote|done].
  - revert Hp. unfold pc_ok. destruct (el_pc e) as [| [] | [] ? ? []|?|? ? []|?|? []| |]; simpl;
      unfold read_ok; intros; destruct_and?; split_and?;
      eauto using newest_wrote, claim_wrote, coherent_wrote.
Qed.

(** *** Steps that leave the store alone *)

Lemma new_inv t s n : el_inv t s n elector_new.
Proof.
  split; [done|by left| |done]. intros Hh. simpl in Hh. by destruct (ident_nonempty n).
Qed.

Lemma cancel_inv t s n e : el_inv t s n e -> el_inv t s n (el_cancel e).
Proof. intros [? ? ? ?]. by split. Qed.

Lemma report_inv t s n e : el_inv t s n e -> el_inv t s n (maybe_report_transition e).1.
Proof.
  intros [Hl Ho Hc Hp]. unfold maybe_report_transition. case_decide; [by split|].
  split; [done|done|done|]. revert Hp. unfold pc_ok. simpl. by destruct (el_pc e).
Qed.

Lemma fail_inv t s n e e' msg : el_inv t s n e -> fail e msg = Some e' -> el_inv t s n e'.
Proof.
  intros [Hl Ho Hc Hp] Hf. unfold fail in Hf. unfold pc_ok in Hp.
  destruct (el_pc e) as [|[]| | | | | | |] eqn:Hpc; simplify_eq; split; try done;
    unfold pc_ok, set_pc; simpl; naive_solver.
Qed.

(** What an elector knows of its own latest record when it starts. *)
Lemma newest_start t s n o acq tr :
  store_ok t s -> observed_ok t n o ->
  newest t s n o (mkLER (ident n) (dur n) acq (t + offset n) tr "" "").
Proof.
  intros Hs Ho. split_and!; try done; cbn [renew_time]; [lia| |].
  - intros Hh. destruct Ho as [Hd|(h & Hh' & _ & ? & ?)]; [rewrite Hd in Hh; by destruct (ident_nonempty n)|].
    rewrite Hh in Hh'. apply ident_inj in Hh' as <-. lia.
  - intros l Hl Hh. destruct (Hs l Hl) as ((h & Hh' & _ & Hr) & Hm). rewrite Hh in Hh'.
    apply ident_inj in Hh' as <-. rewrite -Hm. cbn [renew_time micro_record]. apply micro_mono. lia.
Qed.

Lemma try_inv t s n e : store_ok t s -> el_inv t s n e ->
  el_inv t s n (try_start (ident n) (duration n) e (t + offset n)).
Proof.
  intros Hs [Hl Ho Hc Hp]. unfold try_start.
  destruct (is_leader (ident n) (el_observed e) && _) eqn:Hfast; (split; [done|done|done|]); unfold pc_ok; simpl.
  - apply andb_true_iff in Hfast as [Hlead _]. split_and!; [by apply newest_start|done|done].
  - split; [by apply newest_start|done].
Qed.

Lemma micro_record_idem r : micro_record (micro_record r) = micro_record r.
Proof. unfold micro_record. simpl. by rewrite !micro_idem. Qed.

(** Steps 3 and 4: the elector writes over a lease of its own or one that it
    has seen unchanged for as long as it lasts. *)
Lemma try_got_inv t s n e now r l :
  el_inv t s n e -> el_pc e = PGot now r (Ok l) ->
  el_inv t s n (try_got (ident n) e now r l (t + offset n)).
Proof.
  intros [Hl Ho Hc Hp] Hpc. unfold pc_ok in Hp. rewrite Hpc in Hp.
  destruct Hp as (Hnew & Hnow & ((Hco & Hgen & Hfix) & Hcl & Hren)). unfold try_got.
  change (lease_spec_to_record (default spec_default (lease_spec l))) with (record_of l).
  set (old := record_of l) in *.
  set (o := if decide (ob_record (el_observed e) = old) then el_observed e else _).
  assert (ob_record o = old) as Hob by (subst o; by case_decide).
  assert (observed_ok t n o) as Hoo.
  { subst o. case_decide; [done|]. right. destruct Hgen as (h & ? & ? & ?). exists h. cbn [ob_record ob_time].
    split_and!; try done; lia. }
  assert (claim t s n (ob_record o)) as Hco' by by rewrite Hob.
  assert (forall pc, lease_ok s (mkElector (Some l) o pc)) as Hlo.
  { intros pc. split; [done|]. simpl. by rewrite Hob Hfix. }
  assert (forall acq tr, newest t s n o
            (mkLER (holder_identity r) (lease_duration_seconds r) acq (renew_time r) tr
               (preferred_holder r) (strategy r))) as Hnew'.
  { intros acq tr. destruct Hnew as (? & ? & ? & _ & ?). split_and!; try done. rewrite Hob. cbn [renew_time].
    intros Hh%Hren. pose proof (micro_le (renew_time r)). lia. }
  destruct (negb _ && _ && _) eqn:Hskip; [split; [apply Hlo|done..]|].
  destruct (is_leader (ident n) o) eqn:Hlead; (split; [apply Hlo|done|done|]);
    unfold pc_ok; cbn [el_pc el_observed el_lease set_pc];
    (split; [done|]); (split; [done|]); intros l0 [= <-]; fold old.
  - left. apply bool_decide_eq_true in Hlead. by rewrite -Hob.
  - right. intros h Hh. destruct Hoo as [Hd|(h' & Hh' & Hdur & Hle & _)].
    { rewrite -Hob Hd in Hh. symmetry in Hh. by apply ident_nonempty in Hh. }
    rewrite Hob Hh in Hh'. apply ident_inj in Hh' as <-.
    rewrite bool_decide_eq_false_2 in Hskip; [by rewrite Hh|]. simpl in Hskip. rewrite andb_true_r in Hskip.
    unfold is_lease_valid in Hskip. apply bool_decide_eq_false in Hskip. rewrite Hdur in Hskip.
    destruct Hnew as (_ & _ & Hrt & _). rewrite Hob in Hle. lia.
Qed.

Lemma recv_inv t s n e e' : el_inv t s n e -> recv (ident n) e (t + offset n) = Some e' -> el_inv t s n e'.
Proof.
  intros Hi Hr. pose proof Hi as [Hl Ho Hc Hp]. unfold recv in Hr. unfold pc_ok in Hp.
  assert (forall r l, written t s n r (Ok l) -> newest t s n (el_observed e) r ->
    el_inv t s n (mkElector (Some l) (set_observed (el_observed e) r (t + offset n)) (PIdle (Some true)))) as Hdone.
  { intros r l (? & ? & ?) (? & ? & ? & _). split; [done| |done|done]. right. exists n. simpl.
    split_and!; try done; lia. }
  destruct (el_pc e) as [|k|k now r x|now r|now r x|r|r x| |x] eqn:Hpc; try done.
  - destruct Hp as (Hk & Hnew & Hnow & Hw). destruct x as [l|err]; [destruct k; simplify_eq; by apply Hdone|].
    destruct k; simplify_eq; split; done.
  - destruct x as [l|[]]; simplify_eq; [by apply try_got_inv|..]; (split; [done..|]); unfold pc_ok; simpl; naive_solver.
  - destruct Hp as (Hnew & Hw). destruct x as [l|err]; simplify_eq; [by apply Hdone|by split].
Qed.

(** *** The storage serves a call *)

Lemma own_write t s s' n o r l0 rv :
  newest t s n o r -> (rv ∉ lst_used s) -> lst_used s' = {[rv]} ∪ lst_used s ->
  let l' := stored_as (with_spec l0 (record_to_lease_spec r)) rv in
  lst_get s' = Some l' ->
  (forall l, lst_get s = Some l -> holder_identity (record_of l) = ident n \/ expired t (record_of l)) ->
  wrote t s n s' l' /\ store_ok t s' /\ newest t s' n o r /\ written t s' n r (Ok l') /\
  claim t s' n (ob_record o).
Proof.
  intros (Hh & Hd & Hr & Hob & Hst) Hfresh Hused l' Hget Hover.
  assert (record_of l' = micro_record r) as Hrec by apply record_of_stored.
  assert (holder_identity (record_of l') = ident n) as Hh' by by rewrite Hrec.
  assert (forall x, renew_time x <= renew_time r -> claim t s' n x) as Hcl.
  { intros x Hx _. left. exists l'. split; [done|]. split; [done|]. rewrite Hrec. by apply micro_mono. }
  split; [|split; [|split; [|split]]].
  - split; [done|]. split; [done|]. split; [by exists rv|done].
  - intros l Hl. rewrite Hget in Hl. injection Hl as <-. rewrite Hrec. split; [|apply micro_record_idem].
    exists n. cbn [micro_record holder_identity lease_duration_seconds renew_time].
    pose proof (micro_le (renew_time r)). split_and!; try done. lia.
  - split_and!; try done. intros l Hl _. rewrite Hget in Hl. injection Hl as <-. by rewrite Hrec.
  - split; [|split; [done|by apply Hcl]]. exists rv. split; [done|]. split; [set_solver|]. intros l Hl _. congruence.
  - intros Hho. by apply Hcl; [apply Hob|].
Qed.

Lemma send_inv t s n e s' e' :
  store_ok t s -> el_inv t s n e -> send name namespace s e = Some (s', e') ->
  store_ok t s' /\ el_inv t s' n e' /\ (s' = s \/ exists l', wrote t s n s' l').
Proof.
  intros Hs Hi Hsend. pose proof Hi as [Hl Ho Hc Hp]. unfold send in Hsend. unfold pc_ok in Hp.
  assert (forall pc, pc_ok t s n (set_pc e pc) -> el_inv t s n (set_pc e pc)) as Hpure by (intros; by split).
  destruct (el_pc e) as [|k now r|k now r x|now r|now r x|r|r x| |x] eqn:Hpc; try done.
  - assert (newest t s n (el_observed e) r /\ renew_time r = now /\ k <> URelease) as (Hnew & Hnow & Hk)
      by (destruct k; naive_solver).
    assert (forall err, el_inv t s n (set_pc e (PUpdated k now r (Err err)))) as Herr
      by (intros err; apply Hpure; unfold pc_ok; cbn [el_pc set_pc el_observed el_lease]; done).
    unfold lease_ok in Hl. destruct (el_lease e) as [l|] eqn:Hel; [|simplify_eq; by eauto].
    destruct (decide ((lst_get s ≫= lease_rv) = lease_rv l)) as [Hv|Hv].
    2: { destruct (lst_update_fails s (with_spec l (record_to_lease_spec r)) Hv) as [err Hu].
         rewrite Hu in Hsend. simplify_eq. by eauto. }
    destruct Hl as [Hcoh Hrec]. pose proof Hcoh as (rv & Hrv & Hin & Huniq).
    destruct (lst_get s) as [l1|] eqn:Hg; simpl in Hv; [|congruence].
    assert (l1 = l) as -> by (apply Huniq; congruence).
    destruct (lst_update_ok s (with_spec l (record_to_lease_spec r)) l Hg eq_refl) as (s1 & rv1 & Hu & Hg1 & Hf & Hus).
    rewrite Hu in Hsend. simplify_eq.
    destruct (own_write t s s' n (el_observed e) r l rv1) as (Hw & Hst & Hnew' & Hwr & Hcl); try done.
    { intros l' [= <-]%(eq_trans (eq_sym Hg)). destruct k; [left|naive_solver|done].
      rewrite Hrec. destruct Hp as (_ & _ & Hlead). by apply bool_decide_eq_true in Hlead. }
    split; [done|]. split; [|by eauto]. split; [|done|done|unfold pc_ok; cbn [el_pc set_pc el_observed el_lease]; done].
    unfold lease_ok. cbn [el_lease set_pc]. rewrite Hel. split; [|done]. by apply (coherent_wrote t s n s' _ l Hw).
  - simplify_eq. split; [done|]. split; [|by left]. apply Hpure. unfold pc_ok. cbn [el_pc set_pc el_observed el_lease]. destruct Hp as [Hnew Hnow].
    split; [done|]. split; [done|]. destruct (lst_get s') as [l|] eqn:Hg; [|done].
    destruct (Hs l Hg) as [Hgen Hfix]. split; [split; [|done]|split].
    + destruct (lst_get_version s' l Hg) as (rv & Hrv & Hin). exists rv. split; [done|]. split; [done|].
      intros l' Hg' _. congruence.
    + intros Hh. left. exists l. split; [done|]. split; [done|]. rewrite -{2}Hfix. done.
    + intros Hh. by apply Hnew.
  - destruct (lst_get s) as [l|] eqn:Hg.
    { destruct (lst_create_fails s (with_spec (lease_new name namespace) (record_to_lease_spec r)) l Hg) as [err Hu].
      rewrite Hu in Hsend. simplify_eq. split; [done|]. split; [|by left]. by apply Hpure. }
    destruct (lst_create_ok s (with_spec (lease_new name namespace) (record_to_lease_spec r)) Hg)
      as (s1 & rv1 & Hu & Hg1 & Hf & Hus).
    rewrite Hu in Hsend. simplify_eq.
    destruct (own_write t s s' n (el_observed e) r (lease_new name namespace) rv1) as (Hw & Hst & Hnew' & Hwr & Hcl);
      try done; [intros l'; congruence|].
    split; [done|]. split; [|by eauto]. split; [|done|done|unfold pc_ok; cbn [el_pc set_pc el_observed el_lease]; done].
    unfold lease_ok in *. cbn [el_lease set_pc]. destruct (el_lease e); [|done]. destruct Hl. split; [by eapply coherent_wrote|done].
Qed.

Lemma step_inv y y' : step ident duration offset name namespace false y y' -> sys_inv y -> sys_inv y'.
Proof.
  intros Hstep [Hs He]. inversion Hstep as [t s els dt Hdt|t s els n e a Hn|t s els n e a Hrel|
    t s els n e s' e' Hn Hse|t s els n e e' msg Hn Hf|t s els n e e' Hn Hr|t s els n e Hn|t s els n e Hn];
    subst; simpl in *; [| |done|..].
  - split; simpl.
    + intros l Hl. destruct (Hs l Hl) as [? ?]. split; [|done]. by eapply genuine_mono; [|done]; lia.
    + intros n e Hn. eapply el_inv_mono; [|by apply He]. lia.
  - split; [done|]. apply map_Forall_insert_2; [|done]. apply try_inv; [done|by apply He].
  - destruct (send_inv t s n e s' e' Hs (He n e Hn) Hse) as (Hs' & He' & [->|[l' Hw]]).
    + split; [done|]. by apply map_Forall_insert_2.
    + split; [done|]. simpl. intros m em. rewrite lookup_insert_Some. intros [[<- <-]|[Hne Hm]]; [done|].
      eapply el_inv_wrote; [done|done|by apply He].
  - split; [done|]. apply map_Forall_insert_2; [|done]. eapply fail_inv; [by apply He|done].
  - split; [done|]. apply map_Forall_insert_2; [|done]. eapply recv_inv; [by apply He|done].
  - split; [done|]. apply map_Forall_insert_2; [|done]. apply cancel_inv. by apply He.
  - split; [done|]. apply map_Forall_insert_2; [|done]. apply report_inv. by apply He.
Qed.

Lemma steps_inv y y' : steps ident duration offset name namespace false y y' -> sys_inv y -> sys_inv y'.
Proof. induction 1; eauto using step_inv. Qed.

Lemma live_holds y n : sys_inv y -> live ident duration offset y n ->
  exists l, lst_get (sys_store y) = Some l /\ holder_identity (record_of l) = ident n.
Proof.
  intros [_ He] (e & Hn & Hlead & Ht). apply bool_decide_eq_true in Hlead.
  destruct (ei_claim _ _ _ _ (He n e Hn) Hlead) as [(l & ? & ? & _)|Hx]; [by exists l|].
  unfold dur in Hx. lia.
Qed.

End Exclusion.

(** *** The guarantees *)

(** The system at the start: no lease, and every elector new. *)
Definition fresh_sys {St} `{!LeaseStore St} (y : Sys St) : Prop :=
  lst_get (sys_store y) = None /\ map_Forall (fun _ e => e = elector_new) (sys_els y).

Lemma fresh_inv {St} `{!LeaseStore St} ident duration offset (y : Sys St) :
  (forall n, ident n <> "") -> fresh_sys y -> sys_inv ident duration offset y.
Proof.
  intros Hne [Hg Hnew]. split.
  - intros l Hl. congruence.
  - intros n e Hn. rewrite (Hnew n e Hn). by apply new_inv.
Qed.

(** C2: electors exclude each other.  Whatever the latencies, failures and
    cancellations of their calls and whatever their clocks show, as long as they
    run at the same rate and nobody releases: two electors are never within
    their lease duration of the last renewal they know of at the same time. *)
Theorem leaders_exclude {St} `{!LeaseStore St} ident duration offset name namespace (y0 y : Sys St) n m :
  (forall i j, ident i = ident j -> i = j) -> (forall i, ident i <> "") -> fresh_sys y0 ->
  steps ident duration offset name namespace false y0 y ->
  live ident duration offset y n -> live ident duration offset y m -> n = m.
Proof.
  intros Hinj Hne Hf Hsteps Hn Hm.
  assert (sys_inv ident duration offset y) as Hi by (eapply steps_inv; try done; by apply fresh_inv).
  destruct (live_holds _ _ _ y n Hi Hn) as (l & Hl & Hh). destruct (live_holds _ _ _ y m Hi Hm) as (l' & Hl' & Hh').
  apply Hinj. congruence.
Qed.

(** Nobody steals a lease.  A step that puts another holder in the lease
    comes no earlier than a lease duration after the old holder read its clock
    for the renewal it overwrites. *)
Theorem takeover_after_expiry {St} `{!LeaseStore St} ident duration offset name namespace
    (y0 y y' : Sys St) l l' h :
  (forall i j, ident i = ident j -> i = j) -> (forall i, ident i <> "") -> fresh_sys y0 ->
  steps ident duration offset name namespace false y0 y ->
  step ident duration offset name namespace false y y' ->
  lst_get (sys_store y) = Some l -> lst_get (sys_store y') = Some l' ->
  holder_identity (record_of l) = ident h -> holder_identity (record_of l') <> ident h ->
  renew_time (record_of l) - offset h + as_secs_i32 (duration h) * SEC <= sys_time y.
Proof.
  intros Hinj Hne Hf Hsteps Hstep Hl Hl' Hh Hh'.
  assert (sys_inv ident duration offset y) as [Hs He] by (eapply steps_inv; try done; by apply fresh_inv).
  inversion Hstep as [| | |t s els n e s' e' Hn Hse| | | |]; subst;
    cbn [sys_time sys_store sys_els] in *; try congruence.
  eapply send_inv in Hse as (_ & _ & [->|(l1 & Hg1 & Hh1 & _ & Hover)]); [congruence| |exact Hinj|exact Hne|exact Hs|exact (He n e Hn)].
  destruct (Hover l Hl) as [Hown|Hexp]; [congruence|]. by apply Hexp.
Qed.

(** An expired lease is acquired.  An elector that has seen the lease of
    another unchanged for its duration, and is not disturbed, takes it over with
    one attempt: the attempt answers true, the elector is the leader, and the
    lease names it and counts one transition more. *)
Theorem expired_lease_is_acquired {St} `{!LeaseStore St} identity duration name namespace
    (s : St) e a l now clock1 clock2 :
  el_pc e = PIdle a -> lst_get s = Some l -> ob_record (el_observed e) = record_of l ->
  holder_identity (record_of l) <> identity ->
  ob_time (el_observed e) + lease_duration_seconds (record_of l) * SEC <= now ->
  exists e1 e2 s' e3 e4 l',
    send name namespace s (try_start identity duration e now) = Some (s, e1) /\
    recv identity e1 clock1 = Some e2 /\ send name namespace s e2 = Some (s', e3) /\
    recv identity e3 clock2 = Some e4 /\ el_pc e4 = PIdle (Some true) /\
    is_leader identity (el_observed e4) = true /\
    lst_get s' = Some l' /\ holder_identity (record_of l') = identity /\
    leader_transitions (record_of l') = leader_transitions (record_of l) + 1.
Proof.
  intros Hpc Hl Hob Hh Hexp.
  assert (is_leader identity (el_observed e) = false) as Hlead.
  { apply bool_decide_eq_false. by rewrite Hob. }
  assert (is_lease_valid (el_observed e) now = false) as Hvalid.
  { apply bool_decide_eq_false. rewrite Hob. lia. }
  unfold try_start. rewrite Hlead /=. set (r := mkLER identity _ now now 0 "" "").
  set (r' := mkLER identity (as_secs_i32 duration) now now (leader_transitions (record_of l) + 1) "" "").
  destruct (lst_update_ok s (with_spec l (record_to_lease_spec r')) l Hl eq_refl) as (s' & rv & Hu & Hg & _).
  eexists _, (mkElector (Some l) (el_observed e) (PUpdate USlow now r')), s', _, _, _.
  split; [done|]. rewrite Hl. split.
  { unfold recv. cbn [set_pc el_pc]. unfold try_got. cbn [set_pc el_observed].
    change (lease_spec_to_record (default spec_default (lease_spec l))) with (record_of l).
    rewrite (decide_True (P := ob_record (el_observed e) = record_of l)) // Hlead Hvalid andb_false_r. done. }
  split; [unfold send; cbn [set_pc el_pc el_lease]; by rewrite Hu|].
  split; [done|]. split; [done|]. split; [by apply bool_decide_eq_true|]. split; [exact Hg|].
  by split.
Qed.

(** ** A store of one lease *)

Record LeaseCell := mkLeaseCell { lc_value : option (Lease * nat); lc_next : nat }.

Definition lc_get (c : LeaseCell) : option Lease :=
  match lc_value c with
  | Some (l, n) => if decide (n < lc_next c)%nat then Some (stored_as l (show_version n)) else None
  | None => None
  end.

Definition lc_put (c : LeaseCell) (l : Lease) : LeaseCell * result Lease LockError :=
  (mkLeaseCell (Some (l, lc_next c)) (S (lc_next c)), Ok (stored_as l (show_version (lc_next c)))).

Definition lc_update (c : LeaseCell) (l : Lease) : LeaseCell * result Lease LockError :=
  if decide (is_Some (lc_get c) /\ (lc_get c ≫= lease_rv) = lease_rv l) then lc_put c l
  else (c, Err (LOther "conflict")).

Definition lc_create (c : LeaseCell) (l : Lease) : LeaseCell * result Lease LockError :=
  match lc_get c with
  | Some _ => (c, Err (LOther "already exists"))
  | None => lc_put c l
  end.

Lemma lc_put_spec c l :
  exists c' rv, lc_put c l = (c', Ok (stored_as l rv)) /\ lc_get c' = Some (stored_as l rv) /\
    (rv ∉ versions_below (lc_next c)) /\ versions_below (lc_next c') = {[rv]} ∪ versions_below (lc_next c).
Proof.
  eexists _, (show_version (lc_next c)). split; [done|]. split_and!; [|apply versions_fresh|apply versions_succ].
  unfold lc_get. simpl. rewrite decide_True //. lia.
Qed.

#[export] Program Instance lease_cell_store : LeaseStore LeaseCell := {
  lst_get := lc_get;
  lst_update := lc_update;
  lst_create := lc_create;
  lst_used c := versions_below (lc_next c)
}.
Next Obligation.
  intros c l. unfold lc_get. destruct (lc_value c) as [[l' n]|]; [|done]. case_decide; [|done].
  intros [= <-]. exists (show_version n). split; [done|]. by apply versions_below_spec.
Qed.
Next Obligation. intros c l Hne. unfold lc_update. rewrite decide_False; [naive_solver|eauto]. Qed.
Next Obligation.
  intros c l e Hg Hrv. unfold lc_update. rewrite decide_True; [rewrite Hg; by eauto|]. apply lc_put_spec.
Qed.
Next Obligation. intros c l e Hg. unfold lc_create. rewrite Hg. eauto. Qed.
Next Obligation. intros c l Hg. unfold lc_create. rewrite Hg. apply lc_put_spec. Qed.

(** ** Running a schedule *)

Inductive action :=
| ATick (dt : Z) | ATry (n : nat) | ARelease (n : nat) | ASend (n : nat) | ARecv (n : nat) | ACancel (n : nat).

Section Exec.
Context (ident : nat -> string) (duration offset : nat -> Z) (name namespace : string) (rel : bool).

Definition exec1 (y : Sys LeaseCell) (a : action) : option (Sys LeaseCell) :=
  let '(mkSys t s els) := y in
  match a with
  | ATick dt => if decide (0 <= dt) then Some (mkSys (t + dt) s els) else None
  | ATry n =>
      e ← els !! n;
      match el_pc e with
      | PIdle _ => Some (mkSys t s (<[n := try_start (ident n) (duration n) e (t + offset n)]> els))
      | _ => None
      end
  | ARelease n =>
      e ← els !! n;
      match el_pc e with
      | PIdle _ => if rel then Some (mkSys t s (<[n := release_start e]> els)) else None
      | _ => None
      end
  | ASend n => e ← els !! n; '(s', e') ← send name namespace s e; Some (mkSys t s' (<[n := e']> els))
  | ARecv n => e ← els !! n; e' ← recv (ident n) e (t + offset n); Some (mkSys t s (<[n := e']> els))
  | ACancel n => e ← els !! n; Some (mkSys t s (<[n := el_cancel e]> els))
  end.

Fixpoint exec (y : Sys LeaseCell) (l : list action) : option (Sys LeaseCell) :=
  match l with
  | [] => Some y
  | a :: l' => y1 ← exec1 y a; exec y1 l'
  end.

Lemma exec1_step y a y' : exec1 y a = Some y' -> step ident duration offset name namespace rel y y'.
Proof.
  destruct y as [t s els]. destruct a as [dt|n|n|n|n|n]; simpl; intros H.
  - case_decide; simplify_eq. by apply step_tick.
  - inv_bind. destruct (el_pc x) eqn:Hpc; simplify_eq. by eapply step_try.
  - inv_bind. destruct (el_pc x) eqn:Hpc; simplify_eq. destruct rel; simplify_eq. by eapply step_release.
  - apply bind_Some in H as (e & Hn & H). apply bind_Some in H as ([s' e'] & Hs & H). simplify_eq.
    by eapply step_send.
  - inv_bind. by eapply step_recv.
  - inv_bind. by eapply step_cancel.
Qed.

Lemma exec_steps y l y' : exec y l = Some y' -> steps ident duration offset name namespace rel y y'.
Proof.
  revert y. induction l as [|a l IH]; intros y H; simpl in H; [simplify_eq; constructor|].
  apply bind_Some in H as (y1 & H1 & H2). econstructor; [by eapply exec1_step|by apply IH].
Qed.

End Exec.

(** Three electors with a lease of 15 seconds and clocks a second apart. *)
Definition demo_ident (n : nat) : string := show_version n.
Definition demo_duration (n : nat) : Z := 15 * SEC.
Definition demo_offset (n : nat) : Z := Z.of_nat n * SEC.
Definition demo_sys : Sys LeaseCell :=
  mkSys 0 (mkLeaseCell None 0) {[ 0%nat := elector_new; 1%nat := elector_new; 2%nat := elector_new ]}.
Definition demo_exec (rel : bool) (l : list action) : Sys LeaseCell :=
  default demo_sys (exec demo_ident demo_duration demo_offset "lock" "kube-system" rel demo_sys l).

(** Elector 0 creates the lease. *)
Definition acquire_0 : list action := [ATry 0; ASend 0; ARecv 0; ASend 0; ARecv 0].
(** Elector 1 looks at it at 20 s, and takes it over at 40 s. *)
Definition takeover_1 : list action :=
  [ATick (20 * SEC); ATry 1; ASend 1; ARecv 1; ATick (20 * SEC); ATry 1; ASend 1; ARecv 1].

Definition live_b (y : Sys LeaseCell) (n : nat) : bool :=
  match sys_els y !! n with
  | Some e =>
      is_leader (demo_ident n) (el_observed e) &&
      bool_decide (sys_time y + demo_offset n <
        micro (renew_time (ob_record (el_observed e))) + as_secs_i32 (demo_duration n) * SEC)
  | None => false
  end.

Lemma live_b_spec y n : live_b y n = true -> live demo_ident demo_duration demo_offset y n.
Proof.
  unfold live_b, live. destruct (sys_els y !! n) as [e|]; [|done].
  intros [H1 H2%bool_decide_eq_true]%andb_true_iff. by exists e.
Qed.

Lemma demo_fresh : fresh_sys demo_sys.
Proof.
  split; [done|]. intros n e. unfold demo_sys. cbn [sys_els].
  rewrite !lookup_insert_Some lookup_empty. naive_solver.
Qed.

Lemma demo_steps rel l y : exec demo_ident demo_duration demo_offset "lock" "kube-system" rel demo_sys l = Some y ->
  steps demo_ident demo_duration demo_offset "lock" "kube-system" rel demo_sys (demo_exec rel l) /\ demo_exec rel l = y.
Proof. intros H. unfold demo_exec. rewrite H. split; [by eapply exec_steps|done]. Qed.

(** Elector 0 is live after it created the lease, so elector 1 is not. *)
Lemma leaders_exclude_witness :
  let y := demo_exec false acquire_0 in
  live demo_ident demo_duration demo_offset y 0 /\ ~ live demo_ident demo_duration demo_offset y 1.
Proof.
  intros y. assert (live demo_ident demo_duration demo_offset y 0) as H0
    by (apply live_b_spec; vm_compute; reflexivity).
  split; [exact H0|]. intros H1.
  assert (steps demo_ident demo_duration demo_offset "lock" "kube-system" false demo_sys y) as Hs.
  { eapply demo_steps. vm_compute. reflexivity. }
  discriminate (leaders_exclude demo_ident demo_duration demo_offset "lock" "kube-system" demo_sys y 0 1
    show_version_inj show_version_nonempty demo_fresh Hs H0 H1).
Defined.

(** Elector 1 writes over the lease of elector 0, after it ran out. *)
Lemma takeover_after_expiry_witness :
  let y := demo_exec false (acquire_0 ++ takeover_1) in
  let y' := demo_exec false (acquire_0 ++ takeover_1 ++ [ASend 1]) in
  exists l, lst_get (sys_store y) = Some l /\ holder_identity (record_of l) = demo_ident 0 /\
    renew_time (record_of l) - demo_offset 0 + as_secs_i32 (demo_duration 0) * SEC <= sys_time y.
Proof.
  intros y y'.
  assert (steps demo_ident demo_duration demo_offset "lock" "kube-system" false demo_sys y) as Hs.
  { eapply demo_steps. vm_compute. reflexivity. }
  assert (step demo_ident demo_duration demo_offset "lock" "kube-system" false y y') as Hstep.
  { apply (exec1_step _ _ _ _ _ _ y (ASend 1)). vm_compute. reflexivity. }
  destruct (lst_get (sys_store y)) as [l|] eqn:Hl; [|vm_compute in Hl; discriminate Hl].
  destruct (lst_get (sys_store y')) as [l'|] eqn:Hl'; [|vm_compute in Hl'; discriminate Hl'].
  assert (holder_identity (record_of l) = demo_ident 0) as Hh.
  { vm_compute in Hl. injection Hl as <-. reflexivity. }
  assert (holder_identity (record_of l') <> demo_ident 0) as Hh'.
  { vm_compute in Hl'. injection Hl' as <-. discriminate. }
  exists l. split; [reflexivity|]. split; [exact Hh|].
  exact (takeover_after_expiry demo_ident demo_duration demo_offset "lock" "kube-system" demo_sys y y' l l' 0
    show_version_inj show_version_nonempty demo_fresh Hs Hstep Hl Hl' Hh Hh').
Defined.

(** With [release_on_cancel] the electors do not exclude each other.
    [release] reads the lease again but asks the record it observed before
    whether it is the leader: elector 0, whose lease was taken over by elector
    1, wipes out the lease of elector 1, elector 2 acquires it at once, and
    electors 1 and 2 are live at the same time. *)
Theorem release_breaks_exclusion :
  exists y, steps demo_ident demo_duration demo_offset "lock" "kube-system" true demo_sys y /\
    live demo_ident demo_duration demo_offset y 1 /\ live demo_ident demo_duration demo_offset y 2.
Proof.
  exists (demo_exec true (acquire_0 ++ takeover_1 ++ [ASend 1; ARecv 1] ++
            [ARelease 0; ASend 0; ARecv 0; ASend 0; ARecv 0] ++ [ATry 2; ASend 2; ARecv 2; ASend 2; ARecv 2])).
  split; [eapply demo_steps; vm_compute; reflexivity|].
  split; apply live_b_spec; vm_compute; reflexivity.
Qed.

Lemma expired_lease_is_acquired_witness :
  let y := demo_exec false (acquire_0 ++ [ATick (20 * SEC); ATry 1; ASend 1; ARecv 1; ATick (20 * SEC)]) in
  exists e l s' e4, sys_els y !! 1%nat = Some e /\ lst_get (sys_store y) = Some l /\
    el_pc e4 = PIdle (Some true) /\ is_leader (demo_ident 1) (el_observed e4) = true /\
    lst_get s' <> Some l.
Proof.
  intros y. destruct (sys_els y !! 1%nat) as [e|] eqn:He; [|vm_compute in He; discriminate He].
  destruct (lst_get (sys_store y)) as [l|] eqn:Hl; [|vm_compute in Hl; discriminate Hl].
  assert (exists a, el_pc e = PIdle a) as [a Ha].
  { vm_compute in He. injection He as <-. eexists. reflexivity. }
  assert (ob_record (el_observed e) = record_of l) as Hob.
  { vm_compute in He, Hl. injection He as <-. injection Hl as <-. reflexivity. }
  assert (holder_identity (record_of l) <> demo_ident 1) as Hh.
  { vm_compute in Hl. injection Hl as <-. discriminate. }
  assert (ob_time (el_observed e) + lease_duration_seconds (record_of l) * SEC <= 41 * SEC) as Hexp.
  { vm_compute in He, Hl. injection He as <-. injection Hl as <-. vm_compute. discriminate. }
  destruct (expired_lease_is_acquired (demo_ident 1) (demo_duration 1) "lock" "kube-system" (sys_store y) e a l
    (41 * SEC) (41 * SEC) (41 * SEC) Ha Hl Hob Hh Hexp)
    as (e1 & e2 & s' & e3 & e4 & l' & _ & _ & _ & _ & H4 & H5 & H6 & H7 & _).
  exists e, l, s', e4. split; [reflexivity|]. split; [reflexivity|]. split; [exact H4|]. split; [exact H5|].
  rewrite H6. intros [= ->]. by apply Hh.
Defined.
