(* ===== verification/RustText.v ===== *)
(** * Rust strings

    The string operations of the Rust standard library that several components
    use, on byte strings, and lemmas about them. *)

From stdpp Require Import strings sorting.
From Stdlib Require String.
From S2P Require Import Prelude.

(** [Option<&str>::filter(|s| !s.is_empty())]. *)
Definition non_empty (o : option string) : option string :=
  match o with Some s => if decide (s = "") then None else o | None => None end.

(** [slice.contains(&x)]. *)
Definition contains (l : list string) (x : string) : bool := bool_decide (x ∈ l).

(** [[..].join(sep)]. *)
Fixpoint join (sep : string) (l : list string) : string :=
  match l with
  | [] => ""
  | [x] => x
  | x :: l => x +:+ sep +:+ join sep l
  end.

Definition newline : string := String (Ascii.ascii_of_nat 10) "".

Definition dquote : string := String (Ascii.ascii_of_nat 34) "".

(** [s.split_once(c)]. *)
Fixpoint split_once (c : Ascii.ascii) (s : string) : option (string * string) :=
  match s with
  | EmptyString => None
  | String a s' =>
      if decide (a = c) then Some ("", s')
      else match split_once c s' with
           | Some (l, r) => Some (String a l, r)
           | None => None
           end
  end.

(** [s.split(c)]. *)
Fixpoint split_char (c : Ascii.ascii) (s : string) : list string :=
  match s with
  | EmptyString => [""]
  | String a s' =>
      if decide (a = c) then "" :: split_char c s'
      else match split_char c s' with
           | p :: ps => String a p :: ps
           | [] => [String a ""]
           end
  end.

(** [s.strip_prefix(p)]. *)
Fixpoint strip_prefix (p s : string) : option string :=
  match p, s with
  | EmptyString, _ => Some s
  | String a p', String b s' => if decide (a = b) then strip_prefix p' s' else None
  | String _ _, EmptyString => None
  end.

(** [s.trim_end_matches(c)]. *)
Fixpoint trim_end_matches (c : Ascii.ascii) (s : string) : string :=
  match s with
  | EmptyString => ""
  | String a s' =>
      match trim_end_matches c s' with
      | EmptyString => if decide (a = c) then "" else String a ""
      | t => String a t
      end
  end.

(** [s.ends_with(c)]. *)
Fixpoint ends_with (c : Ascii.ascii) (s : string) : bool :=
  match s with
  | EmptyString => false
  | String a EmptyString => bool_decide (a = c)
  | String _ s' => ends_with c s'
  end.

Definition slash : Ascii.ascii := Ascii.ascii_of_nat 47.
Definition star : Ascii.ascii := Ascii.ascii_of_nat 42.

(** [items.iter().collect::<BTreeSet<String>>()], in its order. *)
Definition string_le (a b : string) : Prop := String.leb a b = true.

#[export] Instance string_le_dec a b : Decision (string_le a b).
Proof. unfold string_le; apply _. Defined.

Definition btree_set (l : list string) : list string := merge_sort string_le (remove_dups l).

(** The quoting functions whose Unicode tables are not the program's: [quoted] of
    [authz/reasons.rs], over the [regex] crate, and Rust's [{:?}] of a string.
    They only shape messages. *)
Class TextFormat := {
  quoted : string -> string;
  debug_str : string -> string
}.

(** ** Orders *)

Definition string_lt (a b : string) : Prop := String.ltb a b = true.

#[export] Instance string_lt_dec a b : Decision (string_lt a b).
Proof. unfold string_lt; apply _. Defined.

(** [set.insert(x)] of a [BTreeSet<String>]. *)
Fixpoint btree_insert (x : string) (l : list string) : list string :=
  match l with
  | [] => [x]
  | y :: l' => if decide (x = y) then l else if String.ltb x y then x :: l else y :: btree_insert x l'
  end.

(** [v.sort_by(|a, b| a.key.cmp(&b.key))], a stable sort. *)
Fixpoint insert_by_key {A} (key : A -> string) (x : A) (l : list A) : list A :=
  match l with
  | [] => [x]
  | y :: l' => if String.leb (key x) (key y) then x :: l else y :: insert_by_key key x l'
  end.

Definition sort_by_key {A} (key : A -> string) (l : list A) : list A :=
  foldr (insert_by_key key) [] l.

(** [v.sort_by(cmp)], a stable sort: [le a b] when [cmp(a, b)] is not [Greater]. *)
Fixpoint insert_by {A} (le : A -> A -> bool) (x : A) (l : list A) : list A :=
  match l with
  | [] => [x]
  | y :: l' => if le x y then x :: l else y :: insert_by le x l'
  end.

Definition sort_by {A} (le : A -> A -> bool) (l : list A) : list A := foldr (insert_by le) [] l.

(** ** Lemmas *)

Lemma insert_by_perm {A} (le : A -> A -> bool) x l : insert_by le x l ≡ₚ x :: l.
Proof.
  induction l as [|y l IH]; simpl; [done|]. destruct (le x y); [done|]. rewrite IH. apply Permutation_swap.
Qed.

Lemma sort_by_perm {A} (le : A -> A -> bool) l : sort_by le l ≡ₚ l.
Proof. induction l as [|x l IH]; simpl; [done|]. by rewrite insert_by_perm IH. Qed.

Lemma contains_true l x : contains l x = true <-> x ∈ l.
Proof. apply bool_decide_eq_true. Qed.

Lemma append_cancel_l p s t : p +:+ s = p +:+ t <-> s = t.
Proof. split; [|by intros ->]. induction p as [|c p IH]; [done|]. intros [= ?]; auto. Qed.

Lemma strip_prefix_Some p s t : strip_prefix p s = Some t <-> s = p +:+ t.
Proof.
  revert s; induction p as [|c p IH]; intros s; [naive_solver|].
  change (String c p +:+ t) with (String c (p +:+ t)).
  destruct s as [|b s]; cbn [strip_prefix]; [naive_solver|].
  destruct (decide (c = b)) as [->|]; [rewrite IH; naive_solver|naive_solver].
Qed.

Lemma strip_prefix_append p t : strip_prefix p (p +:+ t) = Some t.
Proof. by apply strip_prefix_Some. Qed.

Lemma mbind_Some_ {A B} (x : A) (f : A -> option B) : (Some x ≫= f) = f x.
Proof. done. Qed.

Lemma split_once_inv c s l r :
  split_once c s = Some (l, r) -> s = l +:+ String c r /\ split_once c l = None.
Proof.
  revert l; induction s as [|a s IH]; intros l; cbn [split_once]; [done|].
  destruct (decide (a = c)) as [->|Hne]; [by intros [= <- <-]|].
  destruct (split_once c s) as [[l' r']|] eqn:Hs; [|done].
  intros [= <- <-]. destruct (IH l' eq_refl) as [-> Hl].
  split; [done|]. cbn [split_once]. by rewrite decide_False // Hl.
Qed.

Lemma split_once_append c l r :
  split_once c l = None -> split_once c (l +:+ String c r) = Some (l, r).
Proof.
  induction l as [|a l IH]; cbn [split_once]; intros Hl.
  - change ("" +:+ String c r) with (String c r). cbn [split_once]. by rewrite decide_True.
  - change (String a l +:+ String c r) with (String a (l +:+ String c r)). cbn [split_once].
    destruct (decide (a = c)); [done|].
    destruct (split_once c l) as [[]|] eqn:Hs; [done|]. by rewrite IH.
Qed.

Lemma string_length_append s t : String.length (s +:+ t) = String.length s + String.length t.
Proof. induction s as [|c s IH]; [done|]. exact (f_equal S IH). Qed.

Lemma string_append_assoc s t u : (s +:+ t) +:+ u = s +:+ (t +:+ u).
Proof. induction s as [|c s IH]; [done|]. exact (f_equal (String c) IH). Qed.

Lemma append_empty s : s +:+ "" = s.
Proof. induction s as [|c s IH]; [done|]. exact (f_equal (String c) IH). Qed.

Lemma string_prefix_append p s : String.prefix p s = true -> exists t, s = p +:+ t.
Proof.
  revert s; induction p as [|c p IH]; intros s H; [by exists s|].
  destruct s as [|b s]; [done|]. simpl in H. destruct (Ascii.ascii_dec c b) as [->|]; [|done].
  destruct (IH s H) as [t ->]. by exists t.
Qed.

Fixpoint occurs (c : Ascii.ascii) (s : string) : bool :=
  match s with
  | EmptyString => false
  | String a s => bool_decide (a = c) || occurs c s
  end.

Lemma occurs_append c s t : occurs c (s +:+ t) = occurs c s || occurs c t.
Proof.
  induction s as [|a s IH]; [done|].
  change (String a s +:+ t) with (String a (s +:+ t)). cbn [occurs]. by rewrite IH orb_assoc.
Qed.

Lemma ends_with_occurs c s : ends_with c s = true -> occurs c s = true.
Proof.
  induction s as [|a s IH]; [done|]. cbn [ends_with occurs]. rewrite orb_true_iff.
  destruct s; [naive_solver|]. auto.
Qed.

Lemma string_compare_trans a b c :
  String.compare a b = Lt -> String.compare b c = Lt -> String.compare a c = Lt.
Proof.
  revert b c; induction a as [|x a IH]; intros [|y b] [|z c]; simpl; try done.
  unfold Ascii.compare.
  destruct (N.compare_spec (Ascii.N_of_ascii x) (Ascii.N_of_ascii y)),
           (N.compare_spec (Ascii.N_of_ascii y) (Ascii.N_of_ascii z)),
           (N.compare_spec (Ascii.N_of_ascii x) (Ascii.N_of_ascii z)); try done; try lia.
  apply IH.
Qed.

Lemma string_lt_compare a b : string_lt a b <-> String.compare a b = Lt.
Proof. unfold string_lt, String.ltb. by destruct (String.compare a b). Qed.

Lemma string_compare_refl a : String.compare a a = Eq.
Proof.
  induction a as [|x a IH]; [done|]. simpl. unfold Ascii.compare. by rewrite N.compare_refl.
Qed.

#[export] Instance string_lt_strict : StrictOrder string_lt.
Proof.
  split.
  - intros a. rewrite /complement string_lt_compare string_compare_refl. done.
  - intros a b c. rewrite !string_lt_compare. apply string_compare_trans.
Qed.

Lemma string_le_lt a b : string_le a b <-> a = b \/ string_lt a b.
Proof.
  rewrite string_lt_compare. unfold string_le, String.leb.
  destruct (String.compare a b) eqn:Hc.
  - apply String.compare_eq_iff in Hc. naive_solver.
  - naive_solver.
  - split; [done|]. intros [->|]; [by rewrite string_compare_refl in Hc|done].
Qed.

Lemma string_le_not_lt a b : string_le a b <-> ~ string_lt b a.
Proof.
  rewrite string_lt_compare. unfold string_le, String.leb. rewrite (String.compare_antisym a b).
  destruct (String.compare b a); naive_solver.
Qed.

#[export] Instance string_le_trans : Transitive string_le.
Proof.
  intros a b c. rewrite !string_le_lt. intros [->|H1] [->|H2]; eauto. right. by etrans.
Qed.

#[export] Instance string_le_total : Total string_le.
Proof. intros a b. apply String.leb_total. Qed.

#[export] Instance string_le_antisym : AntiSymm eq string_le.
Proof. intros a b. apply String.leb_antisym. Qed.

(** A strictly sorted list is what its insertions build, one by one. *)
Definition strictly_sorted (l : list string) : Prop := StronglySorted string_lt l.

Lemma btree_insert_last x l : Forall (fun y => string_lt y x) l -> btree_insert x l = l ++ [x].
Proof.
  induction 1 as [|y l Hy _ IH]; [done|]. cbn [btree_insert].
  destruct (decide (x = y)) as [->|]; [destruct (irreflexivity string_lt y Hy)|].
  destruct (String.ltb x y) eqn:Hx; [|by rewrite IH].
  exfalso. apply (irreflexivity string_lt x). by transitivity y.
Qed.

Lemma btree_insert_elem x y l : y ∈ btree_insert x l <-> y = x \/ y ∈ l.
Proof.
  induction l as [|z l IH]; cbn [btree_insert]; [set_solver|].
  destruct (decide (x = z)) as [->|]; [set_solver|]. destruct (String.ltb x z); [set_solver|].
  rewrite !elem_of_cons IH. naive_solver.
Qed.

Lemma btree_insert_sorted x l : strictly_sorted l -> strictly_sorted (btree_insert x l).
Proof.
  unfold strictly_sorted. induction 1 as [|y l Hl IH Hy]; cbn [btree_insert]; [by repeat constructor|].
  destruct (decide (x = y)) as [->|Hne]; [by constructor|].
  destruct (String.ltb x y) eqn:Hx.
  - constructor; [by constructor|]. constructor; [done|].
    eapply Forall_impl; [done|]. intros z Hz. by transitivity y.
  - constructor; [done|]. rewrite Forall_forall. intros z Hz.
    apply btree_insert_elem in Hz as [->|Hz]; [|by rewrite Forall_forall in Hy; auto].
    assert (string_le y x) as Hle.
    { apply string_le_not_lt. unfold string_lt. by rewrite Hx. }
    apply string_le_lt in Hle as [->|]; done.
Qed.

Section SortByKey.
Context {A : Type} (key : A -> string).

Definition key_le (a b : A) : Prop := string_le (key a) (key b).

Lemma insert_by_key_perm r l : insert_by_key key r l ≡ₚ r :: l.
Proof.
  induction l as [|x l IH]; [done|]. cbn [insert_by_key]. destruct (String.leb _ _); [done|].
  rewrite IH. apply Permutation_swap.
Qed.

Lemma sort_by_key_perm l : sort_by_key key l ≡ₚ l.
Proof.
  induction l as [|r l IH]; [done|].
  change (sort_by_key key (r :: l)) with (insert_by_key key r (sort_by_key key l)).
  by rewrite insert_by_key_perm IH.
Qed.

Lemma insert_by_key_sorted r l :
  StronglySorted key_le l -> StronglySorted key_le (insert_by_key key r l).
Proof.
  induction 1 as [|x l Hl IH Hx]; cbn [insert_by_key]; [by repeat constructor|].
  destruct (String.leb (key r) (key x)) eqn:Hrx.
  - constructor; [by constructor|]. constructor; [done|]. eapply Forall_impl; [done|].
    intros y Hy. unfold key_le in *. by transitivity (key x).
  - constructor; [done|]. rewrite insert_by_key_perm. constructor; [|done].
    destruct (total string_le (key x) (key r)) as [|Ht]; [done|].
    unfold string_le in Ht. congruence.
Qed.

Lemma sort_by_key_sorted l : StronglySorted key_le (sort_by_key key l).
Proof. induction l; [constructor|]. by apply insert_by_key_sorted. Qed.

Lemma sort_by_key_id l : StronglySorted key_le l -> sort_by_key key l = l.
Proof.
  induction 1 as [|r l Hl IH Hr]; [done|].
  change (sort_by_key key (r :: l)) with (insert_by_key key r (sort_by_key key l)).
  rewrite IH. destruct l as [|x l]; [done|]. cbn [insert_by_key].
  apply Forall_cons in Hr as [Hx _]. unfold key_le, string_le in Hx. by rewrite Hx.
Qed.

Lemma sort_by_key_fmap {B} (f : B -> A) l :
  sort_by_key key (f <$> l) = f <$> sort_by_key (key ∘ f) l.
Proof.
  induction l as [|b l IH]; [done|].
  change (insert_by_key key (f b) (sort_by_key key (f <$> l))
          = f <$> insert_by_key (key ∘ f) b (sort_by_key (key ∘ f) l)).
  rewrite IH. generalize (sort_by_key (key ∘ f) l) as k. induction k as [|c k IHk]; [done|].
  cbn [insert_by_key fmap list_fmap compose]. destruct (String.leb _ _); [done|].
  cbn [fmap list_fmap]. f_equal. apply IHk.
Qed.

End SortByKey.

Lemma split_char_join c s : join (String c "") (split_char c s) = s.
Proof.
  induction s as [|a s IH]; [done|]. cbn [split_char].
  destruct (decide (a = c)) as [->|].
  - destruct (split_char c s) as [|p ps] eqn:Hs; [destruct s; simpl in Hs; repeat case_match; done|].
    change (String c (join (String c "") (p :: ps)) = String c s). by rewrite IH.
  - destruct (split_char c s) as [|p [|q ps]] eqn:Hs; [destruct s; simpl in Hs; repeat case_match; done| |].
    + change (String a (join (String c "") [p]) = String a s). by rewrite IH.
    + change (String a (join (String c "") (p :: q :: ps)) = String a s). by rewrite IH.
Qed.
