(* ===== verification/BTree.v ===== *)
(** * Ordered maps with string keys

    [BTreeMap<String, A>] and [serde_json]'s [Map]: an association list with its
    keys in strictly increasing order, its lookup, insertion and removal, the
    lemmas on them, and extensionality.  [obj_merge] is the shape shared by the
    merges of two maps: it changes a map member by member, in the order of
    another map. *)

From stdpp Require Import strings sorting.
From Stdlib Require String.
From S2P Require Import Prelude RustText.

#[local] Set Warnings "-register-all".

Section BTree.
Context {A : Type}.
Implicit Types (k a b : string) (v w u : A) (m n : list (string * A)).

(** ** Objects *)

(** [map.get(key)]. *)
Fixpoint obj_get (k : string) (m : list (string * A)) : option A :=
  match m with
  | [] => None
  | (a, v) :: m => if decide (a = k) then Some v else obj_get k m
  end.

(** [map.insert(key, value)]: replaces, or goes to its place in the order. *)
Fixpoint obj_insert (k : string) (v : A) (m : list (string * A)) : list (string * A) :=
  match m with
  | [] => [(k, v)]
  | (a, w) :: m' =>
      if decide (a = k) then (k, v) :: m'
      else if String.ltb k a then (k, v) :: m
      else (a, w) :: obj_insert k v m'
  end.

(** [map.remove(key)]. *)
Fixpoint obj_remove (k : string) (m : list (string * A)) : list (string * A) :=
  match m with
  | [] => []
  | (a, w) :: m' => if decide (a = k) then m' else (a, w) :: obj_remove k m'
  end.

(** The keys of a map are in strictly increasing order. *)
Definition keys_sorted (m : list (string * A)) : Prop :=
  StronglySorted (fun a b => String.ltb a b = true) m.*1.

(** ** Sorted keys *)

Lemma keys_sorted_cons k v m :
  keys_sorted ((k, v) :: m) <-> keys_sorted m /\ forall a w, (a, w) ∈ m -> string_lt k a.
Proof.
  unfold keys_sorted. cbn [fmap list_fmap fst]. split.
  - intros [Hm Hk]%StronglySorted_inv. split; [done|]. intros a w Ha.
    rewrite Forall_forall in Hk. apply Hk. by apply (list_elem_of_fmap_2 fst _ (a, w)).
  - intros [Hm Hk]. constructor; [done|]. apply Forall_forall. intros a ([a' w] & -> & Ha)%list_elem_of_fmap.
    by apply Hk with w.
Qed.

Lemma keys_sorted_nil : keys_sorted [].
Proof. constructor. Qed.

Lemma obj_get_elem k v m : obj_get k m = Some v -> (k, v) ∈ m.
Proof.
  induction m as [|[a w] m IH]; simpl; [done|].
  destruct (decide (a = k)) as [->|]; [intros [= ->]; left|intros H; right; auto].
Qed.

Lemma obj_get_None k m : obj_get k m = None <-> forall v, (k, v) ∉ m.
Proof.
  induction m as [|[a w] m IH]; simpl; [split; [intros _ v; apply not_elem_of_nil|done]|].
  destruct (decide (a = k)) as [->|Hne].
  - split; [done|]. intros H. destruct (H w). left.
  - rewrite IH. split; intros H v; [|intros Hv; apply (H v); by right].
    intros [[= -> ->]|Hv]%elem_of_cons; [done|by apply (H v)].
Qed.

Lemma keys_below k m : (forall a w, (a, w) ∈ m -> string_lt k a) -> obj_get k m = None.
Proof.
  intros H. apply obj_get_None. intros v Hv. apply (irreflexivity string_lt k). by apply H with v.
Qed.

Lemma elem_obj_get k v m : keys_sorted m -> (k, v) ∈ m -> obj_get k m = Some v.
Proof.
  induction m as [|[a w] m IH]; simpl; [intros _ []%elem_of_nil|].
  intros [Hm Ha]%keys_sorted_cons [[= <- <-]|Hv]%elem_of_cons; [by rewrite decide_True|].
  destruct (decide (a = k)) as [->|]; [|auto].
  destruct (irreflexivity string_lt k (Ha _ _ Hv)).
Qed.

Lemma string_lt_total a b : a <> b -> String.ltb a b = false -> string_lt b a.
Proof.
  intros Hne Hab. assert (string_le b a) as Hle by (apply string_le_not_lt; unfold string_lt; by rewrite Hab).
  apply string_le_lt in Hle as [->|]; done.
Qed.

Lemma obj_insert_elem k v m a w :
  (a, w) ∈ obj_insert k v m -> (a = k /\ w = v) \/ (a, w) ∈ m.
Proof.
  induction m as [|[b u] m IH]; simpl.
  { intros [= -> ->]%list_elem_of_singleton. by left. }
  destruct (decide (b = k)) as [->|].
  { intros [[= -> ->]|?]%elem_of_cons; [by left|right; by right]. }
  destruct (String.ltb k b).
  { intros [[= -> ->]|?]%elem_of_cons; [by left|by right]. }
  intros [[= -> ->]|H]%elem_of_cons; [right; left|]. destruct (IH H); [by left|right; by right].
Qed.

Lemma obj_insert_sorted k v m : keys_sorted m -> keys_sorted (obj_insert k v m).
Proof.
  induction m as [|[a w] m IH]; simpl; intros Hm; [apply keys_sorted_cons; split; [done|intros ?? []%elem_of_nil]|].
  pose proof Hm as [Hm' Ha]%keys_sorted_cons. destruct (decide (a = k)) as [->|Hne]; [by apply keys_sorted_cons|].
  destruct (String.ltb k a) eqn:Hk; apply keys_sorted_cons; split; [done| |by apply IH|].
  - intros b u [[= -> ->]|Hb]%elem_of_cons; [done|]. transitivity a; [done|eauto].
  - intros b u [[-> ->]|Hb]%obj_insert_elem; [by apply string_lt_total; [congruence|]|eauto].
Qed.

Lemma obj_remove_elem k m a w : (a, w) ∈ obj_remove k m -> (a, w) ∈ m.
Proof.
  induction m as [|[b u] m IH]; simpl; [done|]. destruct (decide (b = k)); [by right|].
  intros [->|H]%elem_of_cons; [left|right; auto].
Qed.

Lemma obj_remove_sorted k m : keys_sorted m -> keys_sorted (obj_remove k m).
Proof.
  induction m as [|[a w] m IH]; simpl; [done|]. intros [Hm Ha]%keys_sorted_cons.
  destruct (decide (a = k)); [done|]. apply keys_sorted_cons. split; [auto|].
  intros b u Hb%obj_remove_elem. eauto.
Qed.

(** A key above all others goes to the end. *)
Lemma obj_insert_last k v m :
  (forall a w, (a, w) ∈ m -> string_lt a k) -> obj_insert k v m = m ++ [(k, v)].
Proof.
  induction m as [|[a w] m IH]; intros H; simpl; [done|].
  assert (string_lt a k) as Hak by (apply (H a w); left).
  rewrite decide_False; [by intros ->; apply (irreflexivity string_lt k)|].
  destruct (String.ltb k a) eqn:E.
  { destruct (irreflexivity string_lt k). by transitivity a. }
  rewrite IH //. intros b u Hb. apply (H b u). by right.
Qed.

Lemma keys_sorted_app_lt m n a v b w :
  keys_sorted (m ++ n) -> (a, v) ∈ m -> (b, w) ∈ n -> string_lt a b.
Proof.
  induction m as [|[c u] m IH]; simpl; [by intros _ []%elem_of_nil|].
  intros [Hm Hc]%keys_sorted_cons [[= -> ->]|Ha]%elem_of_cons Hb; [|by apply IH].
  apply (Hc b w). apply elem_of_app. by right.
Qed.

(** ** Lookup after an update *)

Lemma obj_get_insert k v m a : obj_get a (obj_insert k v m) = if decide (a = k) then Some v else obj_get a m.
Proof.
  induction m as [|[b u] m IH]; simpl.
  { destruct (decide (k = a)), (decide (a = k)); congruence. }
  destruct (decide (b = k)) as [->|Hb]; [|destruct (String.ltb k b)]; simpl.
  - destruct (decide (k = a)), (decide (a = k)); congruence.
  - destruct (decide (k = a)), (decide (a = k)); congruence.
  - rewrite IH. destruct (decide (b = a)), (decide (a = k)); congruence.
Qed.

Lemma obj_get_insert_eq k v m : obj_get k (obj_insert k v m) = Some v.
Proof. rewrite obj_get_insert. by rewrite decide_True. Qed.

Lemma obj_get_insert_ne k v m a : a <> k -> obj_get a (obj_insert k v m) = obj_get a m.
Proof. intros. rewrite obj_get_insert. by rewrite decide_False. Qed.

Lemma obj_get_remove k m a :
  keys_sorted m -> obj_get a (obj_remove k m) = if decide (a = k) then None else obj_get a m.
Proof.
  induction m as [|[b u] m IH]; simpl; [by case_decide|]. intros [Hm Hb]%keys_sorted_cons.
  destruct (decide (b = k)) as [->|]; simpl.
  - destruct (decide (a = k)) as [->|]; [by apply keys_below|]. by rewrite decide_False.
  - rewrite IH //. destruct (decide (b = a)), (decide (a = k)); congruence.
Qed.

Lemma obj_get_remove_ne k m a : a <> k -> obj_get a (obj_remove k m) = obj_get a m.
Proof.
  intros Hne. induction m as [|[b u] m IH]; simpl; [done|].
  destruct (decide (b = k)) as [->|]; simpl; [by rewrite decide_False|]. by rewrite IH.
Qed.

(** Sorted objects with the same members are equal. *)
Lemma obj_ext m n :
  keys_sorted m -> keys_sorted n -> (forall k, obj_get k m = obj_get k n) -> m = n.
Proof.
  revert n. induction m as [|[a v] m IH]; intros [|[b w] n] Hm Hn Hext.
  - done.
  - specialize (Hext b). simpl in Hext. by rewrite decide_True in Hext.
  - specialize (Hext a). simpl in Hext. by rewrite decide_True in Hext.
  - pose proof Hm as [Hm' Ha]%keys_sorted_cons. pose proof Hn as [Hn' Hb]%keys_sorted_cons.
    assert (a = b) as ->.
    { pose proof (Hext a) as H1. pose proof (Hext b) as H2. simpl in H1, H2.
      rewrite decide_True // in H1. rewrite (decide_True (P := b = b)) // in H2.
      destruct (decide (b = a)) as [|Hne]; [done|]. destruct (decide (a = b)) as [|_]; [done|].
      symmetry in H1. apply obj_get_elem, Hb in H1. apply obj_get_elem, Ha in H2.
      destruct (irreflexivity string_lt a). by transitivity b. }
    assert (v = w) as ->.
    { specialize (Hext b). simpl in Hext. rewrite !decide_True in Hext; congruence. }
    f_equal. apply IH; [done|done|]. intros k. specialize (Hext k). simpl in Hext.
    destruct (decide (b = k)) as [<-|]; [|done]. by rewrite !keys_below.
Qed.

Lemma obj_insert_insert k v w m : keys_sorted m -> obj_insert k v (obj_insert k w m) = obj_insert k v m.
Proof.
  intros Hm. apply obj_ext; [by repeat apply obj_insert_sorted|by apply obj_insert_sorted|].
  intros a. rewrite !obj_get_insert. by case_decide.
Qed.

Lemma obj_insert_get k v m : keys_sorted m -> obj_get k m = Some v -> obj_insert k v m = m.
Proof.
  intros Hm Hk. apply obj_ext; [by apply obj_insert_sorted|done|].
  intros a. rewrite obj_get_insert. case_decide; congruence.
Qed.

Lemma obj_insert_remove k v m : keys_sorted m -> obj_insert k v (obj_remove k m) = obj_insert k v m.
Proof.
  intros Hm. apply obj_ext; [by apply obj_insert_sorted, obj_remove_sorted|by apply obj_insert_sorted|].
  intros a. rewrite !obj_get_insert obj_get_remove //. by case_decide.
Qed.

Lemma obj_remove_insert k v m : keys_sorted m -> obj_get k m = None -> obj_remove k (obj_insert k v m) = m.
Proof.
  intros Hm Hk. apply obj_ext; [by apply obj_remove_sorted, obj_insert_sorted|done|].
  intros a. rewrite obj_get_remove; [by apply obj_insert_sorted|]. rewrite obj_get_insert. case_decide; congruence.
Qed.

End BTree.

#[export] Hint Resolve obj_insert_sorted obj_remove_sorted keys_sorted_nil : rusternetes.

(** ** Merging one object into another, member by member *)

Section Merge.
Context {A B : Type}.
Implicit Types (m : list (string * A)) (ps : list (string * B)).

(** The new member under a key: from the key, the value it has and the value of
    the other object; [None] removes it. *)
Variable f : string -> option A -> B -> option A.

Definition obj_alter (k : string) (o : option A) (m : list (string * A)) : list (string * A) :=
  match o with Some v => obj_insert k v m | None => obj_remove k m end.

Fixpoint obj_merge (ps : list (string * B)) (m : list (string * A)) : list (string * A) :=
  match ps with
  | [] => m
  | (k, v) :: ps => obj_merge ps (obj_alter k (f k (obj_get k m) v) m)
  end.

Lemma obj_alter_sorted k o m : keys_sorted m -> keys_sorted (obj_alter k o m).
Proof. destruct o; simpl; auto with rusternetes. Qed.

Lemma obj_get_alter k o m a :
  keys_sorted m -> obj_get a (obj_alter k o m) = if decide (a = k) then o else obj_get a m.
Proof. intros. destruct o; simpl; [apply obj_get_insert|by apply obj_get_remove]. Qed.

Lemma obj_merge_sorted ps m : keys_sorted m -> keys_sorted (obj_merge ps m).
Proof. revert m. induction ps as [|[k v] ps IH]; intros m Hm; simpl; auto using obj_alter_sorted. Qed.

(** Each member of the result is decided by the two members under its key. *)
Lemma obj_get_merge ps m k :
  keys_sorted ps -> keys_sorted m ->
  obj_get k (obj_merge ps m) =
  match obj_get k ps with Some v => f k (obj_get k m) v | None => obj_get k m end.
Proof.
  revert m. induction ps as [|[a v] ps IH]; intros m Hps Hm; simpl; [done|].
  pose proof Hps as [Hps' Ha]%keys_sorted_cons.
  rewrite IH //; [by apply obj_alter_sorted|]. rewrite obj_get_alter //.
  destruct (decide (a = k)) as [->|].
  - rewrite keys_below //. by rewrite decide_True.
  - by rewrite decide_False.
Qed.

End Merge.

Lemma obj_merge_ext {A B} (f g : string -> option A -> B -> option A) ps m :
  (forall k o v, (k, v) ∈ ps -> f k o v = g k o v) -> obj_merge f ps m = obj_merge g ps m.
Proof.
  revert m. induction ps as [|[k v] ps IH]; intros m H; simpl; [done|].
  rewrite (H k) //; [left|]. apply IH. intros. apply H. by right.
Qed.

(** ** Filtering and mapping the members, in order *)

Section Omap.
Context {A B : Type}.
Variable f : string -> A -> option B.

Fixpoint obj_omap (m : list (string * A)) : list (string * B) :=
  match m with
  | [] => []
  | (k, v) :: m => match f k v with Some w => (k, w) :: obj_omap m | None => obj_omap m end
  end.

Lemma obj_omap_elem m k w : (k, w) ∈ obj_omap m -> exists v, (k, v) ∈ m /\ f k v = Some w.
Proof.
  induction m as [|[a v] m IH]; simpl; [by intros []%elem_of_nil|].
  destruct (f a v) as [u|] eqn:E; [intros [[= -> ->]|H]%elem_of_cons|intros H].
  1: by exists v; split; [left|].
  all: destruct (IH H) as (v' & ? & ?); exists v'; split; [by right|done].
Qed.

Lemma obj_omap_sorted m : keys_sorted m -> keys_sorted (obj_omap m).
Proof.
  induction m as [|[a v] m IH]; simpl; [done|]. intros [Hm Ha]%keys_sorted_cons.
  destruct (f a v); [|by apply IH]. apply keys_sorted_cons. split; [by apply IH|].
  intros k w (u & ? & ?)%obj_omap_elem. eauto.
Qed.

Lemma obj_get_omap m k : keys_sorted m -> obj_get k (obj_omap m) = obj_get k m ≫= f k.
Proof.
  induction m as [|[a v] m IH]; simpl; [done|]. intros [Hm Ha]%keys_sorted_cons.
  destruct (decide (a = k)) as [->|Hne].
  - simpl. destruct (f k v) as [w|] eqn:E; simpl; [by rewrite decide_True|].
    rewrite IH //. by rewrite keys_below.
  - rewrite -(IH Hm). destruct (f a v); simpl; [by rewrite decide_False|done].
Qed.
End Omap.

Lemma obj_omap_ext {A B} (f g : string -> A -> option B) m :
  (forall k v, (k, v) ∈ m -> f k v = g k v) -> obj_omap f m = obj_omap g m.
Proof.
  induction m as [|[k v] m IH]; intros H; simpl; [done|].
  rewrite (H k v) //; [left|]. rewrite IH //. intros. apply H. by right.
Qed.

Lemma obj_filter_omap {A} (f : string * A -> bool) m :
  List.filter f m = obj_omap (fun k v => if f (k, v) then Some v else None) m.
Proof. induction m as [|[k v] m IH]; simpl; [done|]. destruct (f (k, v)); by rewrite IH. Qed.

(** Lookup in a map whose members are filtered ([retain]). *)
Lemma obj_get_filter {A} (f : string * A -> bool) m k :
  keys_sorted m -> obj_get k (List.filter f m) = v ← obj_get k m; if f (k, v) then Some v else None.
Proof. intros Hm. by rewrite obj_filter_omap obj_get_omap. Qed.

Lemma obj_filter_sorted {A} (f : string * A -> bool) m : keys_sorted m -> keys_sorted (List.filter f m).
Proof. intros Hm. rewrite obj_filter_omap. by apply obj_omap_sorted. Qed.
