(* ===== verification/Json.v ===== *)
(** * JSON values

    [serde_json::Value] as the program uses it: the six constructors, the object
    a [BTreeMap] (an association list with its keys in increasing order), with
    the lookups, insertions and removals the components call.  A number is its
    text: no component here computes with it.  [serde_json] itself is a library;
    this is the part of its data type that the code pattern-matches on. *)

From stdpp Require Import strings sorting.
From Stdlib Require String.
From S2P Require Import Prelude BTree RustText.

#[local] Set Warnings "-register-all".

Inductive Json :=
| JNull
| JBool (b : bool)
| JNumber (text : string)
| JString (s : string)
| JArray (l : list Json)
| JObject (m : list (string * Json)).

(** The induction principle that goes under the lists. *)
Section JsonInd.
Variable P : Json -> Prop.
Hypothesis Hnull : P JNull.
Hypothesis Hbool : forall b, P (JBool b).
Hypothesis Hnumber : forall t, P (JNumber t).
Hypothesis Hstring : forall s, P (JString s).
Hypothesis Harray : forall l, Forall P l -> P (JArray l).
Hypothesis Hobject : forall m, Forall (fun kv => P kv.2) m -> P (JObject m).

Fixpoint Json_ind_nested (v : Json) : P v :=
  match v with
  | JNull => Hnull
  | JBool b => Hbool b
  | JNumber t => Hnumber t
  | JString s => Hstring s
  | JArray l =>
      Harray l ((fix go l : Forall P l :=
        match l with
        | [] => List.Forall_nil _
        | v :: l => List.Forall_cons _ v l (Json_ind_nested v) (go l)
        end) l)
  | JObject m =>
      Hobject m ((fix go m : Forall (fun kv => P kv.2) m :=
        match m with
        | [] => List.Forall_nil _
        | kv :: m => List.Forall_cons _ kv m (Json_ind_nested kv.2) (go m)
        end) m)
  end.
End JsonInd.

(** [Value]'s [==]. *)
Fixpoint json_eqb (v w : Json) : bool :=
  match v, w with
  | JNull, JNull => true
  | JBool b, JBool c => Bool.eqb b c
  | JNumber s, JNumber t => String.eqb s t
  | JString s, JString t => String.eqb s t
  | JArray l, JArray k =>
      (fix go (l k : list Json) :=
        match l, k with
        | [], [] => true
        | v :: l, w :: k => json_eqb v w && go l k
        | _, _ => false
        end) l k
  | JObject m, JObject n =>
      (fix go (m n : list (string * Json)) :=
        match m, n with
        | [], [] => true
        | (a, v) :: m, (b, w) :: n => String.eqb a b && (json_eqb v w && go m n)
        | _, _ => false
        end) m n
  | _, _ => false
  end.

Lemma json_eqb_eq v : forall w, json_eqb v w = true <-> v = w.
Proof.
  induction v as [|b|t|s|l IH|m IH] using Json_ind_nested; intros w; destruct w; simpl;
    try (split; [discriminate|intros [=]]); try done.
  - destruct b, b0; naive_solver.
  - rewrite String.eqb_eq; naive_solver.
  - rewrite String.eqb_eq; naive_solver.
  - transitivity (l = l0); [|naive_solver].
    revert l0; induction IH as [|v l Hv _ IHl]; intros [|w k]; try naive_solver.
    rewrite andb_true_iff Hv IHl; naive_solver.
  - transitivity (m = m0); [|naive_solver].
    revert m0; induction IH as [|[a v] m Hv _ IHm]; intros [|[b w] n]; try naive_solver.
    rewrite !andb_true_iff String.eqb_eq Hv IHm; naive_solver.
Qed.

#[export] Instance Json_eq_dec : EqDecision Json.
Proof.
  refine (fun v w => match decide (json_eqb v w = true) with
                     | left H => left (proj1 (json_eqb_eq v w) H)
                     | right H => right (fun e => H (proj2 (json_eqb_eq v w) e))
                     end).
Defined.

(** The depth of a value. *)
Fixpoint json_depth (v : Json) : nat :=
  match v with
  | JArray l => S ((fix go l := match l with [] => 0 | v :: l => Nat.max (json_depth v) (go l) end) l)
  | JObject m => S ((fix go m := match m with [] => 0 | kv :: m => Nat.max (json_depth kv.2) (go m) end) m)
  | _ => 0
  end.

(** [serde_json::to_string]. *)
Class JsonText := json_text : Json -> string.

(** * Well-formed JSON values

    The recursive well-formedness of a value: the keys of every object, at every
    depth, are in strictly increasing order ([serde_json]'s [BTreeMap]).  Updates
    and merges of objects keep it. *)

#[local] Set Warnings "-register-all".

(** ** Well-formed values *)

Fixpoint json_wf (v : Json) : Prop :=
  match v with
  | JArray l => (fix go l := match l with [] => True | v :: l => json_wf v /\ go l end) l
  | JObject m =>
      keys_sorted m
      /\ (fix go m := match m with [] => True | kv :: m => json_wf kv.2 /\ go m end) m
  | _ => True
  end.

(** Every member of the object is well-formed, and so is the object. *)
Definition obj_wf (m : list (string * Json)) : Prop :=
  keys_sorted m /\ Forall (fun kv => json_wf kv.2) m.

Lemma json_wf_array l : json_wf (JArray l) <-> Forall json_wf l.
Proof. simpl. induction l as [|v l IH]; [by split|]. rewrite Forall_cons IH. done. Qed.

Lemma json_wf_object m : json_wf (JObject m) <-> obj_wf m.
Proof.
  unfold obj_wf. simpl. apply and_iff_compat_l.
  induction m as [|kv m IH]; [by split|]. rewrite Forall_cons IH. done.
Qed.

(** ** Updates keep objects well-formed *)

Lemma obj_wf_nil : obj_wf [].
Proof. split; [apply keys_sorted_nil|constructor]. Qed.

Lemma obj_wf_get m k v : obj_wf m -> obj_get k m = Some v -> json_wf v.
Proof. intros [_ H] Hk%obj_get_elem. rewrite Forall_forall in H. by apply (H (k, v)). Qed.

Lemma obj_wf_insert m k v : obj_wf m -> json_wf v -> obj_wf (obj_insert k v m).
Proof.
  intros [Hs Hm] Hv. split; [by apply obj_insert_sorted|]. rewrite -> Forall_forall in *.
  intros [a w] [[-> ->]|H]%obj_insert_elem; [done|by apply (Hm (a, w))].
Qed.

Lemma obj_wf_remove m k : obj_wf m -> obj_wf (obj_remove k m).
Proof.
  intros [Hs Hm]. split; [by apply obj_remove_sorted|]. rewrite -> Forall_forall in *.
  intros [a w] H%obj_remove_elem. by apply (Hm (a, w)).
Qed.

Lemma obj_wf_cons k v m : obj_wf ((k, v) :: m) -> json_wf v /\ obj_wf m /\ obj_get k m = None.
Proof.
  intros [[Hs Hk]%keys_sorted_cons Hm]. apply Forall_cons in Hm as [Hv Hm].
  split_and!; [done|by split|by apply keys_below].
Qed.

Lemma obj_wf_filter (P : string * Json -> Prop) `{forall kv, Decision (P kv)} m :
  obj_wf m -> obj_wf (filter P m).
Proof.
  intros [Hs Hm]. split; [|by apply Forall_forall; intros kv [_ Hkv]%list_elem_of_filter; rewrite -> Forall_forall in Hm; auto].
  clear Hm. induction m as [|[k v] m IH]; [done|]. apply keys_sorted_cons in Hs as [Hs Hk].
  rewrite filter_cons. destruct (decide (P (k, v))); [|by apply IH]. apply keys_sorted_cons. split; [by apply IH|].
  intros a w [_ Ha]%list_elem_of_filter. eauto.
Qed.

#[export] Hint Resolve obj_wf_nil obj_wf_insert obj_wf_remove obj_wf_get : rusternetes.

Lemma obj_wf_merge (f : string -> option Json -> Json -> option Json) ps m :
  (forall k o v, from_option json_wf True o -> json_wf v -> from_option json_wf True (f k o v)) ->
  Forall (fun kv => json_wf kv.2) ps -> obj_wf m -> obj_wf (obj_merge f ps m).
Proof.
  intros Hf. revert m. induction ps as [|[k v] ps IH]; intros m Hps Hm; simpl; [done|].
  apply Forall_cons in Hps as [Hv Hps]. apply IH; [done|].
  assert (from_option json_wf True (f k (obj_get k m) v)) as Hk.
  { apply Hf; [|done]. destruct (obj_get k m) eqn:E; simpl; eauto with rusternetes. }
  destruct (f k (obj_get k m) v); simpl in *; auto with rusternetes.
Qed.

(** ** Depth *)

Lemma depth_member k v m : obj_get k m = Some v -> json_depth v < json_depth (JObject m).
Proof.
  simpl. induction m as [|[a w] m IH]; simpl; [done|]. destruct (decide (a = k)) as [->|].
  - intros [= ->]. lia.
  - intros H%IH. lia.
Qed.

Lemma depth_element v l : v ∈ l -> json_depth v < json_depth (JArray l).
Proof.
  simpl. induction l as [|w l IH]; [by intros ?%elem_of_nil|]. intros [->|H%IH]%elem_of_cons; lia.
Qed.

Lemma depth_elem k v m : (k, v) ∈ m -> json_depth v < json_depth (JObject m).
Proof.
  simpl. induction m as [|[a w] m IH]; simpl; [by intros []%elem_of_nil|].
  intros [[= -> ->]|H%IH]%elem_of_cons; lia.
Qed.

Lemma depth_insert_scalar k v m :
  json_depth v = 0 -> json_depth (JObject (obj_insert k v m)) <= json_depth (JObject m).
Proof.
  intros Hv. simpl. apply le_n_S. induction m as [|[a w] m IH]; simpl; [rewrite Hv; lia|].
  repeat case_match; simpl; lia.
Qed.
