(* ===== verification/FieldErrors.v ===== *)
(** * Field paths and validation errors

    Model of [crates/common/src/validation/field.rs]: the typed path, the error
    with its type, bad value and detail, and their text. *)

From stdpp Require Import strings pretty.
From S2P Require Import Prelude RustText BTree Json.

Inductive Segment :=
| Field (s : string)
| Index (i : nat)
| Key (k : string).

(** [Path]; [Path::default()] is the empty list. *)
Definition Path : Type := list Segment.

Definition path_new (nm : string) : Path := [Field nm].
Definition child (p : Path) (nm : string) : Path := p ++ [Field nm].
Definition index (p : Path) (i : nat) : Path := p ++ [Index i].
Definition key (p : Path) (k : string) : Path := p ++ [Key k].

(** [Display]: a dot before every field but the first segment. *)
Fixpoint path_loop (first : bool) (p : Path) : string :=
  match p with
  | [] => ""
  | seg :: p' =>
      match seg with
      | Field s => (if first then "" else ".") +:+ s
      | Index i => "[" +:+ pretty i +:+ "]"
      | Key k => "[" +:+ k +:+ "]"
      end +:+ path_loop false p'
  end.

Definition path_to_string (p : Path) : string := path_loop true p.

Inductive ErrorType :=
| EtNotFound | EtRequired | EtDuplicate | EtInvalid | EtNotSupported | EtForbidden
| EtTooLong | EtTooMany | EtInternal | EtTypeInvalid.

Definition as_str (t : ErrorType) : string :=
  match t with
  | EtNotFound => "Not found"
  | EtRequired => "Required value"
  | EtDuplicate => "Duplicate value"
  | EtInvalid => "Invalid value"
  | EtNotSupported => "Unsupported value"
  | EtForbidden => "Forbidden"
  | EtTooLong => "Too long"
  | EtTooMany => "Too many"
  | EtInternal => "Internal error"
  | EtTypeInvalid => "Invalid value"
  end.

Definition cause_reason (t : ErrorType) : string :=
  match t with
  | EtNotFound => "FieldValueNotFound"
  | EtRequired => "FieldValueRequired"
  | EtDuplicate => "FieldValueDuplicate"
  | EtInvalid => "FieldValueInvalid"
  | EtNotSupported => "FieldValueNotSupported"
  | EtForbidden => "FieldValueForbidden"
  | EtTooLong => "FieldValueTooLong"
  | EtTooMany => "FieldValueTooMany"
  | EtInternal => "InternalError"
  | EtTypeInvalid => "FieldValueTypeInvalid"
  end.

Inductive BadValue :=
| BvString (s : string)
| BvI64 (n : Z)
| BvBool (b : bool)
| BvJson (v : Json)
| BvMarshaled (s : string)
| BvOmit.

(** [From<&[String]> for BadValue]. *)
Definition bad_strings (l : list string) : BadValue := BvJson (JArray (JString <$> l)).

Record FieldError := mkFieldError {
  error_type : ErrorType;
  field : string;
  bad_value : BadValue;
  detail : string;
  origin : string
}.

Definition invalid (p : Path) (v : BadValue) (d : string) : FieldError :=
  mkFieldError EtInvalid (path_to_string p) v d "".

Definition internal (p : Path) (d : string) : FieldError :=
  mkFieldError EtInternal (path_to_string p) BvOmit d "".

Definition required (p : Path) (d : string) : FieldError :=
  mkFieldError EtRequired (path_to_string p) BvOmit d "".

Definition forbidden (p : Path) (d : string) : FieldError :=
  mkFieldError EtForbidden (path_to_string p) BvOmit d "".

Definition not_supported (p : Path) (v : BadValue) (valid_values : list string) : FieldError :=
  let quoted := (fun s => dquote +:+ s +:+ dquote) <$> valid_values in
  mkFieldError EtNotSupported (path_to_string p) v
    (if decide (quoted = []) then "" else "supported values: " +:+ join ", " quoted) "".

Definition duplicate (p : Path) (v : BadValue) : FieldError :=
  mkFieldError EtDuplicate (path_to_string p) v "" "".

Definition not_found (p : Path) (v : BadValue) : FieldError :=
  mkFieldError EtNotFound (path_to_string p) v "" "".

Definition too_long (p : Path) (max_length : nat) : FieldError :=
  mkFieldError EtTooLong (path_to_string p) BvOmit
    ("may not be more than " +:+ pretty max_length +:+ " bytes") "".

Definition too_many (p : Path) (actual max_items : nat) : FieldError :=
  mkFieldError EtTooMany (path_to_string p) (BvI64 (Z.of_nat actual))
    ("must have at most " +:+ pretty max_items +:+ " "
     +:+ (if decide (max_items = 1) then "item" else "items")) "".

Definition with_origin (e : FieldError) (o : string) : FieldError :=
  mkFieldError (error_type e) (field e) (bad_value e) (detail e) o.

Section Text.
Context `{!TextFormat, !JsonText}.

Definition error_body (e : FieldError) : string :=
  let head :=
    match error_type e with
    | EtRequired | EtForbidden | EtTooLong | EtInternal => as_str (error_type e)
    | _ =>
        match bad_value e with
        | BvOmit => as_str (error_type e)
        | BvString v => as_str (error_type e) +:+ ": " +:+ debug_str v
        | BvI64 v => as_str (error_type e) +:+ ": " +:+ pretty v
        | BvBool v => as_str (error_type e) +:+ ": " +:+ (if v then "true" else "false")
        | BvMarshaled v => as_str (error_type e) +:+ ": " +:+ v
        | BvJson v => as_str (error_type e) +:+ ": " +:+ json_text v
        end
    end in
  if decide (detail e = "") then head else head +:+ ": " +:+ detail e.

Definition field_error_to_string (e : FieldError) : string :=
  field e +:+ ": " +:+ error_body e.

End Text.
