(* ===== verification/Regex.v ===== *)
(** * Regular expressions

    The regular expressions of [common/src/validation/metav1.rs] are anchored and
    use classes, sequence, option, alternatives and repetition.  [re_match] runs
    one by derivatives; [lang] is its language, and the two agree.  The [regex]
    crate is a library; this is the textbook meaning of the patterns handed to
    it. *)

From Stdlib Require Import Ascii.
From stdpp Require Import strings.
From S2P Require Import Prelude RustText.

Inductive Re :=
| RNone
| REps
| RClass (f : Ascii.ascii -> bool)
| RSeq (r1 r2 : Re)
| RAlt (r1 r2 : Re)
| RStar (r : Re).

Fixpoint nullable (r : Re) : bool :=
  match r with
  | RNone | RClass _ => false
  | REps | RStar _ => true
  | RSeq r1 r2 => nullable r1 && nullable r2
  | RAlt r1 r2 => nullable r1 || nullable r2
  end.

Fixpoint deriv (c : Ascii.ascii) (r : Re) : Re :=
  match r with
  | RNone | REps => RNone
  | RClass f => if f c then REps else RNone
  | RSeq r1 r2 =>
      let d := RSeq (deriv c r1) r2 in
      if nullable r1 then RAlt d (deriv c r2) else d
  | RAlt r1 r2 => RAlt (deriv c r1) (deriv c r2)
  | RStar r' => RSeq (deriv c r') r
  end.

Fixpoint re_match (r : Re) (s : string) : bool :=
  match s with
  | EmptyString => nullable r
  | String c s => re_match (deriv c r) s
  end.

Inductive lang : Re -> string -> Prop :=
| lang_eps : lang REps ""
| lang_class f c : f c = true -> lang (RClass f) (String c "")
| lang_seq r1 r2 s1 s2 : lang r1 s1 -> lang r2 s2 -> lang (RSeq r1 r2) (s1 +:+ s2)
| lang_alt_l r1 r2 s : lang r1 s -> lang (RAlt r1 r2) s
| lang_alt_r r1 r2 s : lang r2 s -> lang (RAlt r1 r2) s
| lang_star_nil r : lang (RStar r) ""
| lang_star_cons r s1 s2 : lang r s1 -> lang (RStar r) s2 -> lang (RStar r) (s1 +:+ s2).

#[local] Hint Constructors lang : core.

Lemma append_nil_inv s t : s +:+ t = "" -> s = "" /\ t = "".
Proof. by destruct s. Qed.

Lemma nullable_lang r : nullable r = true <-> lang r "".
Proof.
  split.
  - induction r; simpl; try done; rewrite ?andb_true_iff ?orb_true_iff; intros; auto.
    + change "" with ("" +:+ ""). naive_solver.
    + naive_solver.
  - remember "" as s eqn:Hs. induction 1; simpl; try done; simplify_eq.
    + apply append_nil_inv in Hs as [-> ->]. by rewrite IHlang1 // IHlang2.
    + by rewrite IHlang.
    + by rewrite IHlang // orb_true_r.
Qed.

Lemma star_cons_inv r c s :
  lang (RStar r) (String c s) ->
  exists s1 s2, s = s1 +:+ s2 /\ lang r (String c s1) /\ lang (RStar r) s2.
Proof.
  remember (RStar r) as q eqn:Hq. remember (String c s) as t eqn:Ht. intros H.
  revert Ht. generalize s as u. clear s. induction H as [| | | | | |r' s1 s2 H1 _ H2 IH]; intros u Ht; simplify_eq.
  destruct s1 as [|b s1]; [by apply IH|].
  injection Ht as -> <-. eauto.
Qed.

Lemma deriv_lang c r : forall s, lang (deriv c r) s <-> lang r (String c s).
Proof.
  induction r as [| |f|r1 IH1 r2 IH2|r1 IH1 r2 IH2|r IH]; intros s; cbn [deriv].
  - split; intros H; inversion H.
  - split; intros H; inversion H.
  - destruct (f c) eqn:Hf; split; intros H; inversion H; subst; auto; congruence.
  - assert (lang (RSeq (deriv c r1) r2) s <->
            exists s1 s2, s = s1 +:+ s2 /\ lang r1 (String c s1) /\ lang r2 s2) as Hd.
    { split.
      - intros H; inversion H as [| |? ? s1 s2 H1 H2| | | |]; subst. exists s1, s2. by rewrite -IH1.
      - intros (s1 & s2 & -> & H1 & H2). constructor; [by apply IH1|done]. }
    assert (lang (RSeq r1 r2) (String c s) <->
            (exists s1 s2, s = s1 +:+ s2 /\ lang r1 (String c s1) /\ lang r2 s2)
            \/ (lang r1 "" /\ lang r2 (String c s))) as Hs.
    { split.
      - intros H; inversion H as [| |? ? s1 s2 H1 H2 Heq1 Heq2| | | |]; subst.
        destruct s1 as [|b s1]; [right|left].
        + change ("" +:+ s2) with s2 in Heq2. by subst.
        + injection Heq2 as -> <-. eauto.
      - intros [(s1 & s2 & -> & H1 & H2)|[H1 H2]].
        + change (String c (s1 +:+ s2)) with (String c s1 +:+ s2). auto.
        + change (String c s) with ("" +:+ String c s). auto. }
    rewrite Hs -Hd. destruct (nullable r1) eqn:Hn.
    + apply nullable_lang in Hn. split.
      * intros H; inversion H; subst; [by left|right]. by rewrite -IH2.
      * intros [H|[_ H]]; [by apply lang_alt_l|]. apply lang_alt_r. by apply IH2.
    + apply not_true_iff_false in Hn. rewrite nullable_lang in Hn. tauto.
  - split; intros H; inversion H; subst.
    + apply lang_alt_l. by apply IH1.
    + apply lang_alt_r. by apply IH2.
    + apply lang_alt_l. by apply IH1.
    + apply lang_alt_r. by apply IH2.
  - split.
    + intros H; inversion H as [| |? ? s1 s2 H1 H2| | | |]; subst.
      change (String c (s1 +:+ s2)) with (String c s1 +:+ s2). apply lang_star_cons; [by apply IH|done].
    + intros (s1 & s2 & -> & H1 & H2)%star_cons_inv. constructor; [by apply IH|done].
Qed.

Lemma re_match_lang r s : re_match r s = true <-> lang r s.
Proof.
  revert r; induction s as [|c s IH]; intros r; simpl; [apply nullable_lang|].
  by rewrite IH deriv_lang.
Qed.

(** Every character of a matched string is in a class of the expression. *)
Fixpoint re_chars (r : Re) (c : Ascii.ascii) : bool :=
  match r with
  | RNone | REps => false
  | RClass f => f c
  | RSeq r1 r2 | RAlt r1 r2 => re_chars r1 c || re_chars r2 c
  | RStar r => re_chars r c
  end.

Fixpoint all_chars (f : Ascii.ascii -> bool) (s : string) : bool :=
  match s with
  | EmptyString => true
  | String c s => f c && all_chars f s
  end.

Lemma all_chars_app f s t : all_chars f (s +:+ t) = all_chars f s && all_chars f t.
Proof.
  induction s as [|c s IH]; [done|].
  change (String c s +:+ t) with (String c (s +:+ t)). cbn [all_chars]. by rewrite IH andb_assoc.
Qed.

Lemma all_chars_impl (f g : Ascii.ascii -> bool) s :
  (forall c, f c = true -> g c = true) -> all_chars f s = true -> all_chars g s = true.
Proof.
  intros Hfg. induction s as [|c s IH]; [done|]. cbn [all_chars]. rewrite !andb_true_iff. naive_solver.
Qed.

Lemma lang_all_chars r s : lang r s -> all_chars (re_chars r) s = true.
Proof.
  induction 1 as [|f c Hf|r1 r2 s1 s2 _ IH1 _ IH2|r1 r2 s _ IH|r1 r2 s _ IH|r|r s1 s2 _ IH1 _ IH2];
    cbn [re_chars all_chars]; rewrite ?all_chars_app ?andb_true_iff //.
  - split; [apply (all_chars_impl (re_chars r1))|apply (all_chars_impl (re_chars r2))]; auto;
      intros c ->; by rewrite ?orb_true_r.
  - eapply all_chars_impl; [|exact IH]. by intros c ->.
  - eapply all_chars_impl; [|exact IH]. intros c ->; apply orb_true_r.
Qed.

(** ** The expressions of [metav1.rs] *)

Definition between (a b c : Ascii.ascii) : bool :=
  (Ascii.nat_of_ascii a <=? Ascii.nat_of_ascii c)%nat && (Ascii.nat_of_ascii c <=? Ascii.nat_of_ascii b)%nat.

Definition is_char (a c : Ascii.ascii) : bool := Ascii.eqb a c.

Definition lower_alnum (c : Ascii.ascii) : bool := between "a"%char "z"%char c || between "0"%char "9"%char c.

Definition alnum (c : Ascii.ascii) : bool := between "A"%char "Z"%char c || lower_alnum c.

Definition ROpt (r : Re) : Re := RAlt REps r.

Definition LABEL_KEY_FMT : Re :=
  RSeq (ROpt (RSeq (RClass alnum)
                   (RStar (RClass (fun c => is_char "-"%char c || alnum c || is_char "_"%char c || is_char "."%char c)))))
       (RClass alnum).

Definition DNS1123_LABEL_FMT : Re :=
  RSeq (RClass lower_alnum)
       (ROpt (RSeq (RStar (RClass (fun c => is_char "-"%char c || lower_alnum c))) (RClass lower_alnum))).

Definition DNS1123_SUBDOMAIN_FMT : Re :=
  RSeq DNS1123_LABEL_FMT (RStar (RSeq (RClass (is_char "."%char)) DNS1123_LABEL_FMT)).
