(* ===== verification/Authz.v ===== *)
(** * Authorization: request attributes, decisions, the RBAC authorizer

    Model of [crates/common/src/authz.rs] and [authz/reasons.rs], over the types
    of [resources/rbac.rs], and of the [AuthzStorage] adapter that turns a role
    name into a storage key.

    - [RbacStorage] is the storage as the two readers of roles see it: typed
      [get] and [list] by full key and by prefix.
    - The quoting functions of messages are [RustText.TextFormat].
    - The selector fields of [RequestAttributes], which RBAC does not read, are
      left out; [async] is sequential. *)

From stdpp Require Import strings.
From S2P Require Import Prelude RustText KubeTypes.

(** ** Errors ([error.rs]): the variants these components build or inspect;
    [OtherError] is any other variant, by its message. *)
Inductive Error :=
| NotFound (m : string)
| BadRequest (m : string)
| Authorization (m : string)
| Forbidden (m : string)
| Internal (m : string)
| OtherError (display : string).

Definition error_to_string (e : Error) : string :=
  match e with
  | NotFound m => "Resource not found: " +:+ m
  | BadRequest m => "Bad request: " +:+ m
  | Authorization m => "Authorization error: " +:+ m
  | Forbidden m => "Forbidden: " +:+ m
  | Internal m => "Internal error: " +:+ m
  | OtherError m => m
  end.

(** ** RBAC objects ([resources/rbac.rs]) *)

Record PolicyRule := mkPolicyRule {
  verbs : list string;
  api_groups : option (list string);
  resources : option (list string);
  resource_names : option (list string);
  non_resource_urls : option (list string)
}.

#[export] Instance PolicyRule_eq_dec : EqDecision PolicyRule.
Proof. solve_decision. Defined.

Record LabelSelectorRequirement := mkLabelSelectorRequirement {
  lsr_key : string;
  lsr_operator : string;
  lsr_values : option (list string)
}.

Record LabelSelector := mkLabelSelector {
  match_labels : option (gmap string string);
  match_expressions : option (list LabelSelectorRequirement)
}.

Record AggregationRule := mkAggregationRule {
  cluster_role_selectors : option (list LabelSelector)
}.

Record Role := mkRole {
  role_metadata : ObjectMeta;
  role_rules : list PolicyRule
}.

Record ClusterRole := mkClusterRole {
  cluster_role_metadata : ObjectMeta;
  cluster_role_rules : list PolicyRule;
  aggregation_rule : option AggregationRule
}.

Record Subject := mkSubject {
  subject_kind : string;
  subject_name : string;
  subject_namespace : option string;
  subject_api_group : option string
}.

Record RoleRef := mkRoleRef {
  ref_api_group : string;
  ref_kind : string;
  ref_name : string
}.

Record RoleBinding := mkRoleBinding {
  rb_metadata : ObjectMeta;
  rb_subjects : list Subject;
  rb_role_ref : RoleRef
}.

Record ClusterRoleBinding := mkClusterRoleBinding {
  crb_metadata : ObjectMeta;
  crb_subjects : list Subject;
  crb_role_ref : RoleRef
}.

(** ** Requests and decisions *)

Record UserInfo := mkUserInfo {
  username : string;
  user_uid : string;
  groups : list string;
  extra : gmap string (list string)
}.

(** Of [field_selector.rs], what a request carries. *)
Inductive FieldOperator := FieldEquals | FieldNotEquals.

#[export] Instance FieldOperator_eq_dec : EqDecision FieldOperator.
Proof. solve_decision. Defined.

Record FieldRequirement := mkFieldRequirement {
  field : string;
  field_operator : FieldOperator;
  field_value : string
}.

Record RequestAttributes := mkRequestAttributes {
  user : UserInfo;
  verb : string;
  namespace : option string;
  api_group : string;
  api_version : string;
  resource : string;
  name : option string;
  subresource : option string;
  path : option string;
  is_non_resource_request : bool;
  field_selector_requirements : list FieldRequirement
}.

(** [RequestAttributes::new] and the [with_] builders. *)
Definition new_attrs (u : UserInfo) (v r : string) : RequestAttributes :=
  mkRequestAttributes u v None "" "" r None None None false [].

Definition new_non_resource (u : UserInfo) (v p : string) : RequestAttributes :=
  mkRequestAttributes u v None "" "" "" None None (Some p) true [].

Definition with_namespace (a : RequestAttributes) (n : string) : RequestAttributes :=
  mkRequestAttributes (user a) (verb a) (Some n) (api_group a) (api_version a) (resource a)
    (name a) (subresource a) (path a) (is_non_resource_request a)
    (field_selector_requirements a).

Definition with_api_group (a : RequestAttributes) (g : string) : RequestAttributes :=
  mkRequestAttributes (user a) (verb a) (namespace a) g (api_version a) (resource a)
    (name a) (subresource a) (path a) (is_non_resource_request a)
    (field_selector_requirements a).

Definition with_name (a : RequestAttributes) (n : string) : RequestAttributes :=
  mkRequestAttributes (user a) (verb a) (namespace a) (api_group a) (api_version a) (resource a)
    (Some n) (subresource a) (path a) (is_non_resource_request a)
    (field_selector_requirements a).

Definition with_subresource (a : RequestAttributes) (s : string) : RequestAttributes :=
  mkRequestAttributes (user a) (verb a) (namespace a) (api_group a) (api_version a) (resource a)
    (name a) (Some s) (path a) (is_non_resource_request a)
    (field_selector_requirements a).

Inductive Decision_ := DAllow | DDeny (reason : string).

Inductive Opinion :=
| OAllow (reason : string)
| ODeny (reason : string)
| ONoOpinion (reason : string) (error : option string).

Record AuthorizationOutcome := mkOutcome {
  opinion : Opinion;
  outcome_error : option string
}.

(** [Option::or]. *)
Definition option_or {A} (o p : option A) : option A :=
  match o with Some _ => o | None => p end.

Definition from_opinion (o : Opinion) : AuthorizationOutcome :=
  match o with
  | ONoOpinion reason error => mkOutcome (ONoOpinion reason None) error
  | _ => mkOutcome o None
  end.

Definition into_opinion (o : AuthorizationOutcome) : Opinion :=
  match opinion o with
  | ONoOpinion reason error => ONoOpinion reason (option_or (outcome_error o) error)
  | op => op
  end.

Definition into_decision (o : AuthorizationOutcome) : result Decision_ Error :=
  match opinion o with
  | OAllow _ => Ok DAllow
  | ODeny reason =>
      match outcome_error o with
      | Some error => Err (Authorization error)
      | None => Ok (DDeny reason)
      end
  | ONoOpinion reason error =>
      match option_or (outcome_error o) error with
      | Some error => Err (Authorization error)
      | None => Ok (DDeny reason)
      end
  end.

(** ** One rule against one request *)

Definition combined_resource (a : RequestAttributes) : string :=
  match non_empty (subresource a) with
  | Some s => resource a +:+ "/" +:+ s
  | None => resource a
  end.

Definition resource_matches (rs : list string) (a : RequestAttributes) : bool :=
  existsb (fun r =>
    bool_decide (r = "*") || bool_decide (r = combined_resource a)
    || match non_empty (subresource a) with
       | Some s => bool_decide (r = "*/" +:+ s)
       | None => false
       end) rs.

Definition rule_allows (rule : PolicyRule) (a : RequestAttributes) : bool :=
  if negb (contains (verbs rule) (verb a)) && negb (contains (verbs rule) "*") then false
  else if is_non_resource_request a then
    match non_resource_urls rule, path a with
    | Some urls, Some p =>
        existsb (fun url => bool_decide (url = "*") || bool_decide (url = p)
                            || String.prefix url p) urls
    | _, _ => false
    end
  else if match api_groups rule with
          | Some gs => negb (contains gs (api_group a)) && negb (contains gs "*")
          | None => false
          end then false
  else if match resources rule with
          | Some rs => negb (resource_matches rs a)
          | None => false
          end then false
  else
    match name a, resource_names rule with
    | Some n, Some ns => negb (negb (contains ns n) && negb (contains ns "*"))
    | _, _ => true
    end.

Definition check_policy_rules (rules : list PolicyRule) (a : RequestAttributes) : bool :=
  existsb (fun rule => rule_allows rule a) rules.

(** ** Subjects ([reasons.rs]) *)

(** The closure of [applicable_subject]. *)
Definition subject_applies (u : UserInfo) (ns : string) (s : Subject) : bool :=
  if decide (subject_kind s = "User") then bool_decide (subject_name s = username u)
  else if decide (subject_kind s = "Group") then contains (groups u) (subject_name s)
  else if decide (subject_kind s = "ServiceAccount") then
    let ns := default ns (non_empty (subject_namespace s)) in
    bool_decide (ns <> "")
    && bool_decide (username u = "system:serviceaccount:" +:+ ns +:+ ":" +:+ subject_name s)
  else false.

Definition applicable_subject (subjects : list Subject) (u : UserInfo) (ns : string)
    : option Subject :=
  List.find (subject_applies u ns) subjects.

(** Errors in order, each once. *)
Definition unique_errors (errors : list string) : list string :=
  foldl (fun unique e => if contains unique e then unique else unique ++ [e]) [] errors.

Definition aggregate_errors (errors : list string) : option string :=
  match unique_errors errors with
  | [] => None
  | [e] => Some e
  | unique => Some ("[" +:+ join ", " unique +:+ "]")
  end.

(** The typed storage: [Storage::get::<T>(key)] and [Storage::list::<T>(prefix)]
    for the four RBAC kinds. *)
Class RbacStorage := {
  storage_get_role : string -> result Role Error;
  storage_get_cluster_role : string -> result ClusterRole Error;
  storage_list_role_bindings : string -> result (list RoleBinding) Error;
  storage_list_cluster_role_bindings : string -> result (list ClusterRoleBinding) Error
}.

Section RBACAuthorizer.
Context `{!TextFormat, !RbacStorage}.

Definition describe_subject (s : Subject) (binding_namespace : string) : string :=
  let nm :=
    if decide (subject_kind s = "ServiceAccount") then
      subject_name s +:+ "/" +:+ default binding_namespace (non_empty (subject_namespace s))
    else subject_name s in
  subject_kind s +:+ " " +:+ quoted nm.

(** [AuthzStorage::get]/[list] of a backend: the key is derived from the type's
    name and the namespace. *)
Definition authz_get_role (key : string) (ns : option string) : result Role Error :=
  match ns with
  | Some ns => storage_get_role ("/registry/roles/" +:+ ns +:+ "/" +:+ key)
  | None => storage_get_role ("/registry/unknown/" +:+ key)
  end.

Definition authz_get_cluster_role (key : string) (ns : option string) : result ClusterRole Error :=
  match ns with
  | Some ns => storage_get_cluster_role ("/registry/unknown/" +:+ ns +:+ "/" +:+ key)
  | None => storage_get_cluster_role ("/registry/clusterroles/" +:+ key)
  end.

Definition authz_list_role_bindings (ns : option string) : result (list RoleBinding) Error :=
  match ns with
  | Some ns => storage_list_role_bindings ("/registry/rolebindings/" +:+ ns +:+ "/")
  | None => storage_list_role_bindings "/registry/unknown/"
  end.

Definition authz_list_cluster_role_bindings (ns : option string)
    : result (list ClusterRoleBinding) Error :=
  match ns with
  | Some ns => storage_list_cluster_role_bindings ("/registry/unknown/" +:+ ns +:+ "/")
  | None => storage_list_cluster_role_bindings "/registry/clusterrolebindings/"
  end.

Definition map_err {A E F} (f : E -> F) (r : result A E) : result A F :=
  match r with Ok a => Ok a | Err e => Err (f e) end.

Definition reference_rules (reference : RoleRef) (ns : string) : result (list PolicyRule) string :=
  if decide (ref_kind reference = "Role") then
    map_err error_to_string (result_map role_rules (authz_get_role (ref_name reference) (Some ns)))
  else if decide (ref_kind reference = "ClusterRole") then
    map_err error_to_string
      (result_map cluster_role_rules (authz_get_cluster_role (ref_name reference) None))
  else Err ("unsupported role reference kind: " +:+ quoted (ref_kind reference)).

(** The first loop of [check_rbac]: the reason of the first binding that allows
    the request, or the errors met so far. *)
Fixpoint visit_cluster_role_bindings (a : RequestAttributes) (errors : list string)
    (bindings : list ClusterRoleBinding) : string + list string :=
  match bindings with
  | [] => inr errors
  | binding :: rest =>
      match applicable_subject (crb_subjects binding) (user a) "" with
      | None => visit_cluster_role_bindings a errors rest
      | Some subject =>
          match reference_rules (crb_role_ref binding) "" with
          | Err error => visit_cluster_role_bindings a (errors ++ [error]) rest
          | Ok rules =>
              if check_policy_rules rules a then
                inl ("RBAC: allowed by ClusterRoleBinding "
                     +:+ quoted (meta_name (crb_metadata binding)) +:+ " of "
                     +:+ ref_kind (crb_role_ref binding) +:+ " "
                     +:+ quoted (ref_name (crb_role_ref binding)) +:+ " to "
                     +:+ describe_subject subject "")
              else visit_cluster_role_bindings a errors rest
          end
      end
  end.

(** The second loop, over the bindings of the request's namespace. *)
Fixpoint visit_role_bindings (a : RequestAttributes) (ns : string) (errors : list string)
    (bindings : list RoleBinding) : string + list string :=
  match bindings with
  | [] => inr errors
  | binding :: rest =>
      match applicable_subject (rb_subjects binding) (user a) ns with
      | None => visit_role_bindings a ns errors rest
      | Some subject =>
          match reference_rules (rb_role_ref binding) ns with
          | Err error => visit_role_bindings a ns (errors ++ [error]) rest
          | Ok rules =>
              if check_policy_rules rules a then
                let binding_namespace := default "" (meta_namespace (rb_metadata binding)) in
                inl ("RBAC: allowed by RoleBinding "
                     +:+ quoted (meta_name (rb_metadata binding) +:+ "/" +:+ binding_namespace)
                     +:+ " of " +:+ ref_kind (rb_role_ref binding) +:+ " "
                     +:+ quoted (ref_name (rb_role_ref binding)) +:+ " to "
                     +:+ describe_subject subject binding_namespace)
              else visit_role_bindings a ns errors rest
          end
      end
  end.

Definition no_opinion_of (errors : list string) : Opinion :=
  ONoOpinion (match aggregate_errors errors with
              | Some error => "RBAC: " +:+ error
              | None => ""
              end) None.

Definition check_rbac (a : RequestAttributes) : Opinion :=
  match match authz_list_cluster_role_bindings None with
        | Err error => inr [error_to_string error]
        | Ok bindings => visit_cluster_role_bindings a [] bindings
        end with
  | inl reason => OAllow reason
  | inr errors =>
      match non_empty (namespace a) with
      | None => no_opinion_of errors
      | Some ns =>
          match match authz_list_role_bindings (Some ns) with
                | Err error => inr (errors ++ [error_to_string error])
                | Ok bindings => visit_role_bindings a ns errors bindings
                end with
          | inl reason => OAllow reason
          | inr errors => no_opinion_of errors
          end
      end
  end.

End RBACAuthorizer.

(** ** The [Authorizer] trait and its implementations

    [authorize_opinion] and [authorize_outcome] have default bodies, which
    [authorizer_of] and [authorizer_of_opinion] fill in. *)

Record Authorizer := mkAuthorizer {
  authorize : RequestAttributes -> result Decision_ Error;
  authorize_opinion : RequestAttributes -> result Opinion Error;
  authorize_outcome : RequestAttributes -> result AuthorizationOutcome Error
}.

Definition default_opinion (auth : RequestAttributes -> result Decision_ Error)
    (a : RequestAttributes) : result Opinion Error :=
  result_map (fun d => match d with
                       | DAllow => OAllow ""
                       | DDeny reason => ONoOpinion reason None
                       end) (auth a).

Definition default_outcome (op : RequestAttributes -> result Opinion Error)
    (a : RequestAttributes) : result AuthorizationOutcome Error :=
  result_map from_opinion (op a).

Definition authorizer_of (auth : RequestAttributes -> result Decision_ Error) : Authorizer :=
  mkAuthorizer auth (default_opinion auth) (default_outcome (default_opinion auth)).

Definition authorizer_of_opinion (auth : RequestAttributes -> result Decision_ Error)
    (op : RequestAttributes -> result Opinion Error) : Authorizer :=
  mkAuthorizer auth op (default_outcome op).

Definition RBACAuthorizer `{!TextFormat, !RbacStorage} : Authorizer :=
  authorizer_of_opinion (fun a => into_decision (from_opinion (check_rbac a)))
                        (fun a => Ok (check_rbac a)).

Definition AlwaysAllowAuthorizer : Authorizer :=
  authorizer_of_opinion (fun _ => Ok DAllow) (fun _ => Ok (OAllow "")).

Definition AlwaysDenyAuthorizer : Authorizer :=
  authorizer_of_opinion (fun _ => Ok (DDeny "Everything is forbidden."))
                        (fun _ => Ok (ONoOpinion "Everything is forbidden." None)).

Definition privileged_authorize (privileged : list string) (a : RequestAttributes)
    : result Decision_ Error :=
  if existsb (fun g => existsb (fun p => bool_decide (p = g)) privileged) (groups (user a))
  then Ok DAllow else Ok (DDeny "").

Definition PrivilegedGroupAuthorizer (privileged : list string) : Authorizer :=
  authorizer_of_opinion (privileged_authorize privileged)
    (fun a => result_map (fun d => match d with
                                   | DAllow => OAllow ""
                                   | DDeny _ => ONoOpinion "" None
                                   end) (privileged_authorize privileged a)).

(** [UnionAuthorizer::authorize_outcome]: the loop, with the reasons and errors
    of the abstentions so far. *)
Fixpoint union_loop (a : RequestAttributes) (reasons errors : list string)
    (authorizers : list Authorizer) : AuthorizationOutcome :=
  match authorizers with
  | [] => mkOutcome (ONoOpinion (join newline reasons) None) (aggregate_errors errors)
  | auth :: rest =>
      let outcome := match authorize_outcome auth a with
                     | Ok outcome => outcome
                     | Err error => mkOutcome (ONoOpinion "" None) (Some (error_to_string error))
                     end in
      match opinion outcome with
      | ONoOpinion reason error =>
          union_loop a (if decide (reason = "") then reasons else reasons ++ [reason])
            (errors ++ option_list (option_or (outcome_error outcome) error)) rest
      | _ => outcome
      end
  end.

Definition UnionAuthorizer (authorizers : list Authorizer) : Authorizer :=
  let outcome a := union_loop a [] [] authorizers in
  mkAuthorizer (fun a => into_decision (outcome a)) (fun a => Ok (into_opinion (outcome a)))
               (fun a => Ok (outcome a)).

Definition SYSTEM_PRIVILEGED_GROUP : string := "system:masters".

Definition superuser_then (rest : list Authorizer) : Authorizer :=
  UnionAuthorizer (PrivilegedGroupAuthorizer [SYSTEM_PRIVILEGED_GROUP] :: rest).

(** ** The rules of a user ([RBACAuthorizer::get_user_rules]) *)

Definition subject_matches (s : Subject) (u : UserInfo) : bool :=
  if decide (subject_kind s = "User") then bool_decide (subject_name s = username u)
  else if decide (subject_kind s = "Group") then contains (groups u) (subject_name s)
  else if decide (subject_kind s = "ServiceAccount") then
    let ns := default "" (subject_namespace s) in
    if decide (ns = "") then false
    else bool_decide (username u = "system:serviceaccount:" +:+ ns +:+ ":" +:+ subject_name s)
  else bool_decide (subject_name s = username u) || contains (groups u) (subject_name s).

Record ResourceRule := mkResourceRule {
  rr_verbs : list string;
  rr_api_groups : option (list string);
  rr_resources : option (list string);
  rr_resource_names : option (list string)
}.

Record NonResourceRule := mkNonResourceRule {
  nrr_verbs : list string;
  nrr_non_resource_urls : option (list string)
}.

Section UserRules.
Context `{!TextFormat, !RbacStorage}.
Local Open Scope rust_scope.

Definition resource_rule_of (rule : PolicyRule) : ResourceRule :=
  mkResourceRule (verbs rule) (api_groups rule) (resources rule) (resource_names rule).

Definition non_resource_rules_of (rule : PolicyRule) : list NonResourceRule :=
  match non_resource_urls rule with
  | Some urls => [mkNonResourceRule (verbs rule) (Some urls)]
  | None => []
  end.

(** The rules of a ClusterRole, of both kinds. *)
Definition cluster_role_user_rules (nm : string) : list ResourceRule * list NonResourceRule :=
  match authz_get_cluster_role nm None with
  | Ok role => (resource_rule_of <$> cluster_role_rules role,
                cluster_role_rules role ≫= non_resource_rules_of)
  | Err _ => ([], [])
  end.

Definition role_binding_user_rules (u : UserInfo) (ns : string) (b : RoleBinding)
    : list ResourceRule * list NonResourceRule :=
  if negb (existsb (fun s => subject_matches s u) (rb_subjects b)) then ([], [])
  else if decide (ref_kind (rb_role_ref b) = "Role") then
    match authz_get_role (ref_name (rb_role_ref b)) (Some ns) with
    | Ok role => (resource_rule_of <$> role_rules role, [])
    | Err _ => ([], [])
    end
  else if decide (ref_kind (rb_role_ref b) = "ClusterRole") then
    cluster_role_user_rules (ref_name (rb_role_ref b))
  else ([], []).

Definition cluster_role_binding_user_rules (u : UserInfo) (b : ClusterRoleBinding)
    : list ResourceRule * list NonResourceRule :=
  if negb (existsb (fun s => subject_matches s u) (crb_subjects b)) then ([], [])
  else cluster_role_user_rules (ref_name (crb_role_ref b)).

Definition get_user_rules (u : UserInfo) (ns : string)
    : result (list ResourceRule * list NonResourceRule) Error :=
  try role_bindings <- authz_list_role_bindings (Some ns);
  try cluster_role_bindings <- authz_list_cluster_role_bindings None;
  let found := (role_binding_user_rules u ns <$> role_bindings)
               ++ (cluster_role_binding_user_rules u <$> cluster_role_bindings) in
  Ok (found ≫= fst, found ≫= snd).

End UserRules.

(** ** Static node rules *)

Definition NODE_RULES : list (string * string * list string) :=
  [("authentication.k8s.io", "tokenreviews", ["create"]);
   ("authorization.k8s.io", "subjectaccessreviews", ["create"]);
   ("authorization.k8s.io", "localsubjectaccessreviews", ["create"]);
   ("", "services", ["get"; "list"; "watch"]);
   ("", "nodes", ["create"; "get"; "list"; "watch"; "update"; "patch"]);
   ("", "nodes/status", ["update"; "patch"]);
   ("", "events", ["create"; "update"; "patch"]);
   ("events.k8s.io", "events", ["create"; "update"; "patch"]);
   ("", "pods", ["get"; "list"; "watch"; "create"; "delete"]);
   ("", "pods/status", ["update"; "patch"]);
   ("", "secrets", ["get"; "list"; "watch"]);
   ("", "configmaps", ["get"; "list"; "watch"]);
   ("", "persistentvolumeclaims", ["get"]);
   ("", "persistentvolumeclaims/status", ["get"; "update"; "patch"]);
   ("", "persistentvolumes", ["get"]);
   ("", "endpoints", ["get"]);
   ("", "serviceaccounts/token", ["create"]);
   ("certificates.k8s.io", "certificatesigningrequests", ["create"; "get"; "list"; "watch"]);
   ("coordination.k8s.io", "leases", ["get"; "create"; "update"; "patch"; "delete"]);
   ("storage.k8s.io", "volumeattachments", ["get"]);
   ("storage.k8s.io", "csidrivers", ["get"; "list"; "watch"]);
   ("storage.k8s.io", "csinodes", ["get"; "create"; "update"; "patch"; "delete"]);
   ("node.k8s.io", "runtimeclasses", ["get"; "list"; "watch"])].

Definition node_rules_allow (a : RequestAttributes) : bool :=
  existsb (fun '(group, res, vs) =>
    bool_decide (group = api_group a) && bool_decide (res = combined_resource a)
    && contains vs (verb a)) NODE_RULES.
