(* ===== verification/Metav1.v ===== *)
(** * Label keys and values

    Model of the label validators of [crates/common/src/validation/metav1.rs]:
    qualified names, label values, labels, and the requirements of an API label
    selector.  The regular expressions are those of [Regex]. *)

From Stdlib Require Import Ascii.
From stdpp Require Import strings pretty sorting.
From S2P Require Import Prelude RustText BTree Json FieldErrors Regex Authz.

Definition LABEL_KEY_MAX_LENGTH : nat := 63.
Definition LABEL_VALUE_MAX_LENGTH : nat := 63.
Definition DNS1123_SUBDOMAIN_MAX_LENGTH : nat := 253.

Definition LABEL_KEY_ERR_MSG : string :=
  "must consist of alphanumeric characters, '-', '_' or '.', and must start and end with an alphanumeric character".
Definition LABEL_VALUE_ERR_MSG : string :=
  "a valid label must be an empty string or consist of alphanumeric characters, '-', '_' or '.', and must start and end with an alphanumeric character".
Definition DNS1123_SUBDOMAIN_ERR_MSG : string :=
  "a lowercase RFC 1123 subdomain must consist of lower case alphanumeric characters, '-' or '.', and must start and end with an alphanumeric character".

(** The texts of the expressions, for the messages. *)
Definition LABEL_KEY_TEXT : string := "([A-Za-z0-9][-A-Za-z0-9_.]*)?[A-Za-z0-9]".
Definition DNS1123_SUBDOMAIN_TEXT : string :=
  "[a-z0-9]([-a-z0-9]*[a-z0-9])?(\.[a-z0-9]([-a-z0-9]*[a-z0-9])?)*".

(** The examples of [regex_error], with their separators. *)
Fixpoint examples_text (first : bool) (examples : list string) : string :=
  match examples with
  | [] => ""
  | ex :: rest => (if first then "" else " or ") +:+ "'" +:+ ex +:+ "', " +:+ examples_text false rest
  end.

Definition regex_error (msg fmt : string) (examples : list string) : string :=
  if decide (examples = []) then msg +:+ " (regex used for validation is '" +:+ fmt +:+ "')"
  else msg +:+ " (e.g. " +:+ examples_text true examples +:+ "regex used for validation is '"
       +:+ fmt +:+ "')".

Definition max_len_error (n : nat) : string := "must be no more than " +:+ pretty n +:+ " bytes".
Definition empty_error : string := "must be non-empty".

Definition is_dns1123_subdomain (v : string) : list string :=
  (if decide (DNS1123_SUBDOMAIN_MAX_LENGTH < String.length v)
   then [max_len_error DNS1123_SUBDOMAIN_MAX_LENGTH] else [])
  ++ (if re_match DNS1123_SUBDOMAIN_FMT v then []
      else [regex_error DNS1123_SUBDOMAIN_ERR_MSG DNS1123_SUBDOMAIN_TEXT ["example.com"]]).

(** The checks of the name part of a qualified name. *)
Definition name_part_errors (nm : string) : list string :=
  (if decide (nm = "") then ["name part " +:+ empty_error]
   else if decide (LABEL_KEY_MAX_LENGTH < String.length nm)
        then ["name part " +:+ max_len_error LABEL_KEY_MAX_LENGTH] else [])
  ++ (if re_match LABEL_KEY_FMT nm then []
      else ["name part " +:+ regex_error LABEL_KEY_ERR_MSG LABEL_KEY_TEXT
                               ["MyName"; "my.name"; "123-abc"]]).

Definition is_qualified_name (v : string) : list string :=
  match split_char slash v with
  | [nm] => name_part_errors nm
  | [prefix; nm] =>
      (if decide (prefix = "") then ["prefix part " +:+ empty_error]
       else (fun msg => "prefix part " +:+ msg) <$> is_dns1123_subdomain prefix)
      ++ name_part_errors nm
  | _ => ["a valid label key " +:+ regex_error LABEL_KEY_ERR_MSG LABEL_KEY_TEXT
                                     ["MyName"; "my.name"; "123-abc"]
          +:+ " with an optional DNS subdomain prefix and '/' (e.g. 'example.com/MyName')"]
  end.

Definition is_valid_label_value (v : string) : list string :=
  (if decide (LABEL_VALUE_MAX_LENGTH < String.length v)
   then [max_len_error LABEL_VALUE_MAX_LENGTH] else [])
  ++ (if re_match (ROpt LABEL_KEY_FMT) v then []
      else [regex_error LABEL_VALUE_ERR_MSG ("(" +:+ LABEL_KEY_TEXT +:+ ")?")
              ["MyValue"; "my_value"; "12345"]]).

Definition validate_label_name (label_name : string) (p : Path) : list FieldError :=
  (fun msg => with_origin (invalid p (BvString label_name) msg) "format=k8s-label-key")
    <$> is_qualified_name label_name.

Definition label_value_errors (v : string) (p : Path) : list FieldError :=
  (fun msg => invalid p (BvString v) msg) <$> is_valid_label_value v.

(** The labels in the order of their sorted keys. *)
Definition validate_labels (labels : gmap string string) (p : Path) : list FieldError :=
  merge_sort string_le (map_to_list labels).*1 ≫= fun k =>
    match labels !! k with
    | Some v =>
        validate_label_name k p
        ++ ((fun e => with_origin e "format=k8s-label-value") <$> label_value_errors v p)
    | None => []
    end.

Record LabelSelectorValidationOptions := mkLabelSelectorValidationOptions {
  allow_invalid_label_value_in_selector : bool;
  allow_unknown_operator_in_requirement : bool
}.

Definition validate_label_selector_requirement (req : LabelSelectorRequirement)
    (opts : LabelSelectorValidationOptions) (p : Path) : list FieldError :=
  (if decide (lsr_operator req = "In" \/ lsr_operator req = "NotIn") then
     match lsr_values req with
     | Some (_ :: _) => []
     | _ => [required (child p "values") "must be specified when `operator` is 'In' or 'NotIn'"]
     end
   else if decide (lsr_operator req = "Exists" \/ lsr_operator req = "DoesNotExist") then
     match lsr_values req with
     | Some (_ :: _) =>
         [forbidden (child p "values")
            "may not be specified when `operator` is 'Exists' or 'DoesNotExist'"]
     | _ => []
     end
   else if allow_unknown_operator_in_requirement opts then []
   else [invalid (child p "operator") (BvString (lsr_operator req)) "not a valid selector operator"])
  ++ validate_label_name (lsr_key req) (child p "key")
  ++ (if allow_invalid_label_value_in_selector opts then []
      else match lsr_values req with
           | Some values =>
               concat (imap (fun i v => label_value_errors v (index (child p "values") i)) values)
           | None => []
           end).

Definition validate_label_selector (sel : LabelSelector) (opts : LabelSelectorValidationOptions)
    (p : Path) : list FieldError :=
  match match_labels sel with
  | Some labels => validate_labels labels (child p "matchLabels")
  | None => []
  end
  ++ match match_expressions sel with
     | Some reqs =>
         concat (imap (fun i r => validate_label_selector_requirement r opts
                                    (index (child p "matchExpressions") i)) reqs)
     | None => []
     end.

(** ** What valid keys and values are made of *)

(** The characters of a label key: no separator of a selector, no space, no
    control character. *)
Definition key_char (c : ascii) : bool :=
  alnum c || is_char "-"%char c || is_char "_"%char c || is_char "."%char c || is_char "/"%char c.

Lemma label_key_chars s : re_match LABEL_KEY_FMT s = true -> all_chars key_char s = true.
Proof.
  intros H%re_match_lang%lang_all_chars. eapply all_chars_impl; [|exact H]. intros c.
  cbn [re_chars LABEL_KEY_FMT ROpt]. unfold key_char.
  destruct (alnum c), (is_char "-"%char c), (is_char "_"%char c), (is_char "."%char c); done.
Qed.

Lemma label_value_chars v : is_valid_label_value v = [] -> all_chars key_char v = true.
Proof.
  unfold is_valid_label_value. intros [_ H]%app_nil.
  destruct (re_match (ROpt LABEL_KEY_FMT) v) eqn:Hm; [|done].
  apply re_match_lang in Hm. inversion Hm as [| | |? ? ? Hl|? ? ? Hl| |]; subst.
  - by inversion Hl.
  - by apply label_key_chars, re_match_lang.
Qed.

Lemma subdomain_chars s : is_dns1123_subdomain s = [] -> all_chars key_char s = true.
Proof.
  unfold is_dns1123_subdomain. intros [_ H]%app_nil.
  destruct (re_match DNS1123_SUBDOMAIN_FMT s) eqn:Hm; [|done].
  apply re_match_lang, lang_all_chars in Hm. eapply all_chars_impl; [|exact Hm]. intros c.
  cbn [re_chars DNS1123_SUBDOMAIN_FMT DNS1123_LABEL_FMT ROpt]. unfold key_char, alnum.
  destruct (lower_alnum c), (is_char "-"%char c), (is_char "."%char c); rewrite ?orb_true_r //.
Qed.

Lemma name_part_ok nm : name_part_errors nm = [] -> nm <> "" /\ all_chars key_char nm = true.
Proof.
  unfold name_part_errors. intros [Hn Hr]%app_nil. case_decide; [done|]. split; [done|].
  apply label_key_chars. by destruct (re_match _ _).
Qed.

Lemma qualified_name_ok k : is_qualified_name k = [] -> k <> "" /\ all_chars key_char k = true.
Proof.
  unfold is_qualified_name. pose proof (split_char_join slash k) as Hk.
  destruct (split_char slash k) as [|p [|q [|]]]; [done| | |done].
  - simpl in Hk. subst. apply name_part_ok.
  - change (p +:+ String slash "" +:+ q = k) in Hk. subst. intros [Hp Hn]%app_nil.
    apply name_part_ok in Hn as [Hne Hq]. split.
    + destruct p; simpl; done.
    + rewrite !all_chars_app Hq andb_true_r. destruct (decide (p = "")) as [->|]; [done|].
      apply fmap_nil_inv in Hp. by rewrite (subdomain_chars p Hp).
Qed.
