(* ===== verification/RbacValidation.v ===== *)
(** * Validation of RBAC objects

    Model of [crates/common/src/validation/rbac.rs]: the policy rules of roles,
    the role reference and the subjects of bindings, and the aggregation rule. *)

From stdpp Require Import strings.
From S2P Require Import Prelude RustText BTree Json FieldErrors KubeTypes Authz Metav1.

Definition VALIDATION_RBAC_GROUP : string := "rbac.authorization.k8s.io".

Fixpoint has_char (c : Ascii.ascii) (s : string) : bool :=
  match s with
  | EmptyString => false
  | String a s' => bool_decide (a = c) || has_char c s'
  end.

Definition percent : Ascii.ascii := Ascii.ascii_of_nat 37.

Definition rbac_name_errors (nm : string) : list string :=
  if decide (nm = "." \/ nm = "..") then ["may not be '" +:+ nm +:+ "'"]
  else (if has_char slash nm then ["may not contain '/'"] else [])
       ++ (if has_char percent nm then ["may not contain '%'"] else []).

Definition is_empty_opt (v : option (list string)) : bool :=
  match v with Some (_ :: _) => false | _ => true end.

Definition validate_policy_rule (rule : PolicyRule) (is_namespaced : bool) (fld_path : Path)
    : list FieldError :=
  let urls := default [] (non_resource_urls rule) in
  (if decide (verbs rule = []) then
     [required (child fld_path "verbs") "verbs must contain at least one value"] else [])
  ++
  if decide (urls <> []) then
    (if is_namespaced then
       [invalid (child fld_path "nonResourceURLs") (BvString (join "," urls))
          "namespaced rules cannot apply to non-resource URLs"] else [])
    ++
    (if negb (is_empty_opt (api_groups rule)) || negb (is_empty_opt (resources rule))
        || negb (is_empty_opt (resource_names rule)) then
       [invalid (child fld_path "nonResourceURLs") (BvString (join "," urls))
          "rules cannot apply to both regular resources and non-resource URLs"] else [])
  else
    (if is_empty_opt (api_groups rule) then
       [required (child fld_path "apiGroups")
          "resource rules must supply at least one api group"] else [])
    ++
    (if is_empty_opt (resources rule) then
       [required (child fld_path "resources")
          "resource rules must supply at least one resource"] else []).

Definition validate_subject (s : Subject) (is_namespaced : bool) (fld_path : Path)
    : list FieldError :=
  let group := default "" (subject_api_group s) in
  (if decide (subject_name s = "") then [required (child fld_path "name") ""] else [])
  ++
  if decide (subject_kind s = "ServiceAccount") then
    (if decide (subject_name s = "") then []
     else (fun msg => invalid (child fld_path "name") (BvString (subject_name s)) msg)
            <$> is_dns1123_subdomain (subject_name s))
    ++ (if decide (group = "") then []
        else [not_supported (child fld_path "apiGroup") (BvString group) [""]])
    ++ (if negb is_namespaced && bool_decide (default "" (subject_namespace s) = "")
        then [required (child fld_path "namespace") ""] else [])
  else if decide (subject_kind s = "User" \/ subject_kind s = "Group") then
    (if decide (group = VALIDATION_RBAC_GROUP) then []
     else [not_supported (child fld_path "apiGroup") (BvString group) [VALIDATION_RBAC_GROUP]])
  else [not_supported (child fld_path "kind") (BvString (subject_kind s))
          ["ServiceAccount"; "User"; "Group"]].

Definition validate_binding (r : RoleRef) (subjects : list Subject) (role_kinds : list string)
    (is_namespaced : bool) : list FieldError :=
  let rr := path_new "roleRef" in
  (if decide (ref_api_group r = VALIDATION_RBAC_GROUP) then []
   else [not_supported (child rr "apiGroup") (BvString (ref_api_group r)) [VALIDATION_RBAC_GROUP]])
  ++ (if contains role_kinds (ref_kind r) then []
      else [not_supported (child rr "kind") (BvString (ref_kind r)) role_kinds])
  ++ (if decide (ref_name r = "") then [required (child rr "name") ""]
      else (fun msg => invalid (child rr "name") (BvString (ref_name r)) msg)
             <$> rbac_name_errors (ref_name r))
  ++ concat (imap (fun i s => validate_subject s is_namespaced (index (path_new "subjects") i))
               subjects).

Definition validate_rules (rules : list PolicyRule) (is_namespaced : bool) : list FieldError :=
  concat (imap (fun i r => validate_policy_rule r is_namespaced (index (path_new "rules") i)) rules).

Definition validate_role (role : Role) : list FieldError := validate_rules (role_rules role) true.

Definition has_invalid_label_value_in_label_selector (role : ClusterRole) : bool :=
  match aggregation_rule role ≫= cluster_role_selectors with
  | None => false
  | Some sels =>
      existsb (fun sel => bool_decide
        (validate_label_selector sel (mkLabelSelectorValidationOptions false false)
           (path_new "selector") <> [])) sels
  end.

Definition validate_cluster_role_with_options (role : ClusterRole)
    (allow_invalid_label_value_in_selector : bool) : list FieldError :=
  let base := child (path_new "aggregationRule") "clusterRoleSelectors" in
  validate_rules (cluster_role_rules role) false
  ++ match aggregation_rule role with
     | None => []
     | Some agg =>
         match cluster_role_selectors agg with
         | None | Some [] =>
             [required base
                "at least one clusterRoleSelector required if aggregationRule is non-nil"]
         | Some sels =>
             concat (imap (fun i sel => validate_label_selector sel
               (mkLabelSelectorValidationOptions allow_invalid_label_value_in_selector false)
               (index base i)) sels)
         end
     end.

Definition validate_cluster_role (role : ClusterRole) : list FieldError :=
  validate_cluster_role_with_options role false.

Definition validate_role_binding (rb : RoleBinding) : list FieldError :=
  validate_binding (rb_role_ref rb) (rb_subjects rb) ["Role"; "ClusterRole"] true.

Definition validate_cluster_role_binding (crb : ClusterRoleBinding) : list FieldError :=
  validate_binding (crb_role_ref crb) (crb_subjects crb) ["ClusterRole"] false.

Definition role_ref_changed (new old : RoleRef) : list FieldError :=
  if decide (ref_api_group new = ref_api_group old /\ ref_kind new = ref_kind old
             /\ ref_name new = ref_name old) then []
  else [invalid (path_new "roleRef") (BvString (ref_name new)) "cannot change roleRef"].

Definition validate_role_binding_update (new old : RoleBinding) : list FieldError :=
  validate_role_binding new ++ role_ref_changed (rb_role_ref new) (rb_role_ref old).

Definition validate_cluster_role_binding_update (new old : ClusterRoleBinding) : list FieldError :=
  validate_cluster_role_binding new ++ role_ref_changed (crb_role_ref new) (crb_role_ref old).

(** ** Defaults *)

Definition default_subject (s : Subject) : Subject :=
  if decide (default "" (subject_api_group s) = ""
             /\ (subject_kind s = "User" \/ subject_kind s = "Group"))
  then mkSubject (subject_kind s) (subject_name s) (subject_namespace s) (Some VALIDATION_RBAC_GROUP)
  else s.

Definition default_role_ref (r : RoleRef) : RoleRef :=
  if decide (ref_api_group r = "") then mkRoleRef VALIDATION_RBAC_GROUP (ref_kind r) (ref_name r)
  else r.

Definition default_role_binding (rb : RoleBinding) : RoleBinding :=
  mkRoleBinding (rb_metadata rb) (default_subject <$> rb_subjects rb)
    (default_role_ref (rb_role_ref rb)).

Definition default_cluster_role_binding (crb : ClusterRoleBinding) : ClusterRoleBinding :=
  mkClusterRoleBinding (crb_metadata crb) (default_subject <$> crb_subjects crb)
    (default_role_ref (crb_role_ref crb)).
