(* ===== verification/RbacPolicy.v ===== *)
(** * RBAC policy: covering, compaction, and the escalation checks

    Model of [crates/api-server/src/registry/rbac]: [policy_comparator.rs]
    (whether one list of rules covers another), [policy_compact.rs], [rule.rs]
    (the rule resolver and [confirm_no_escalation]), [escalation_check.rs] and
    [policybased.rs] (the checks that wrap the four RBAC storages).

    [GcEncode] is [serde_json::to_value] of an object, which
    [is_only_mutating_gc_fields] compares; a [Finish] has nothing to commit, so
    a hook returns [unit]. *)

From stdpp Require Import strings sorting.
From Stdlib Require String.
From S2P Require Import Prelude RustText KubeTypes BTree Json Authz.

Local Open Scope rust_scope.

(** ** [policy_comparator.rs] *)

Definition ALL : string := "*".

Definition rule_groups (r : PolicyRule) : list string := default [] (api_groups r).
Definition rule_resources (r : PolicyRule) : list string := default [] (resources r).
Definition rule_names (r : PolicyRule) : list string := default [] (resource_names r).
Definition rule_urls (r : PolicyRule) : list string := default [] (non_resource_urls r).

Definition breakdown_rule (r : PolicyRule) : list PolicyRule :=
  (group ← rule_groups r;
   res ← rule_resources r;
   v ← verbs r;
   if decide (rule_names r = []) then
     [mkPolicyRule [v] (Some [group]) (Some [res]) None None]
   else
     (fun n => mkPolicyRule [v] (Some [group]) (Some [res]) (Some [n]) None) <$> rule_names r)
  ++
  (url ← rule_urls r;
   (fun v => mkPolicyRule [v] None None None (Some [url])) <$> verbs r).

Definition has (set : list string) (ele : string) : bool :=
  existsb (fun s => bool_decide (s = ele)) set.

Definition has_all (set contains : list string) : bool :=
  forallb (fun ele => has set ele) contains.

(** The loop of [resource_covers_all]. *)
Fixpoint resources_covered (set_resources covers_resources : list string) : bool :=
  match covers_resources with
  | [] => true
  | p :: rest =>
      if has set_resources p then resources_covered set_resources rest
      else
        match split_once slash p with
        | None => false
        | Some (_, sub) =>
            if has set_resources ("*/" +:+ sub) then resources_covered set_resources rest
            else false
        end
  end.

Definition resource_covers_all (set_resources covers_resources : list string) : bool :=
  if has set_resources ALL || has_all set_resources covers_resources then true
  else resources_covered set_resources covers_resources.

Definition non_resource_url_covers (owner_path sub_path : string) : bool :=
  if decide (owner_path = sub_path) then true
  else ends_with star owner_path && String.prefix (trim_end_matches star owner_path) sub_path.

Definition non_resource_urls_covers_all (set covers : list string) : bool :=
  forallb (fun p => existsb (fun owner => non_resource_url_covers owner p) set) covers.

Definition rule_covers (owner_rule sub_rule : PolicyRule) : bool :=
  let verb_matches := has (verbs owner_rule) ALL || has_all (verbs owner_rule) (verbs sub_rule) in
  let group_matches :=
    has (rule_groups owner_rule) ALL || has_all (rule_groups owner_rule) (rule_groups sub_rule) in
  let resource_matches :=
    resource_covers_all (rule_resources owner_rule) (rule_resources sub_rule) in
  let non_resource_url_matches :=
    non_resource_urls_covers_all (rule_urls owner_rule) (rule_urls sub_rule) in
  let resource_name_matches :=
    if decide (rule_names sub_rule = []) then bool_decide (rule_names owner_rule = [])
    else bool_decide (rule_names owner_rule = [])
         || has_all (rule_names owner_rule) (rule_names sub_rule) in
  verb_matches && group_matches && resource_matches && resource_name_matches
  && non_resource_url_matches.

Definition covers (owner_rules servant_rules : list PolicyRule) : bool * list PolicyRule :=
  let uncovered :=
    List.filter (fun sub => negb (existsb (fun owner => rule_covers owner sub) owner_rules))
      (servant_rules ≫= breakdown_rule) in
  (bool_decide (uncovered = []), uncovered).

(** ** [policy_compact.rs] *)

Record SimpleResource := mkSimpleResource {
  sr_group : string;
  sr_resource : string;
  sr_resource_name : option string
}.

#[export] Instance SimpleResource_eq_dec : EqDecision SimpleResource.
Proof. solve_decision. Defined.

Definition is_simple_resource_rule (r : PolicyRule) : option SimpleResource :=
  if bool_decide (1 < length (rule_names r)) || bool_decide (rule_urls r <> []) then None
  else
    match rule_groups r, rule_resources r with
    | [g], [res] => Some (mkSimpleResource g res (head (rule_names r)))
    | _, _ => None
    end.

Definition extend_verbs (r : PolicyRule) (vs : list string) : PolicyRule :=
  mkPolicyRule (verbs r ++ vs) (api_groups r) (resources r) (resource_names r)
    (non_resource_urls r).

(** [simple_rules.iter_mut().find(|(r, _)| *r == resource)], then extend or push. *)
Fixpoint add_simple_rule (sr : SimpleResource) (rule : PolicyRule)
    (simple_rules : list (SimpleResource * PolicyRule)) : list (SimpleResource * PolicyRule) :=
  match simple_rules with
  | [] => [(sr, rule)]
  | (sr', existing) :: rest =>
      if decide (sr' = sr) then (sr', extend_verbs existing (verbs rule)) :: rest
      else (sr', existing) :: add_simple_rule sr rule rest
  end.

Fixpoint compact_loop (compacted : list PolicyRule)
    (simple_rules : list (SimpleResource * PolicyRule)) (rules : list PolicyRule)
    : list PolicyRule :=
  match rules with
  | [] => compacted ++ simple_rules.*2
  | rule :: rest =>
      match is_simple_resource_rule rule with
      | Some sr => compact_loop compacted (add_simple_rule sr rule simple_rules) rest
      | None => compact_loop (compacted ++ [rule]) simple_rules rest
      end
  end.

Definition compact_rules (rules : list PolicyRule) : list PolicyRule := compact_loop [] [] rules.

Section Policy.
Context `{!TextFormat, !RbacStorage}.

Definition quote_strings (items : list string) : string :=
  "[" +:+ join " " (debug_str <$> items) +:+ "]".

Definition compact_string (r : PolicyRule) : string :=
  let part label items := if decide (items = []) then []
                          else [label +:+ ":" +:+ quote_strings items] in
  "{" +:+ join ", " (part "APIGroups" (rule_groups r) ++ part "Resources" (rule_resources r)
                     ++ part "NonResourceURLs" (rule_urls r)
                     ++ part "ResourceNames" (rule_names r) ++ part "Verbs" (verbs r)) +:+ "}".

(** ** [rule.rs]: the rule resolver over the storage *)

Definition build_key (resource_type : string) (ns : option string) (nm : string) : string :=
  match ns with
  | Some ns => "/registry/" +:+ resource_type +:+ "/" +:+ ns +:+ "/" +:+ nm
  | None => "/registry/" +:+ resource_type +:+ "/" +:+ nm
  end.

Definition build_prefix (resource_type : string) (ns : option string) : string :=
  match ns with
  | Some ns => "/registry/" +:+ resource_type +:+ "/" +:+ ns +:+ "/"
  | None => "/registry/" +:+ resource_type +:+ "/"
  end.

Definition matches_service_account_username (ns nm uname : string) : bool :=
  match (strip_prefix "system:serviceaccount:" uname ≫= strip_prefix ns) ≫= strip_prefix ":" with
  | Some rest => bool_decide (rest = nm)
  | None => false
  end.

Definition applies_to_user (u : UserInfo) (s : Subject) (ns : string) : bool :=
  if decide (subject_kind s = "User") then bool_decide (username u = subject_name s)
  else if decide (subject_kind s = "Group") then contains (groups u) (subject_name s)
  else if decide (subject_kind s = "ServiceAccount") then
    let sa_namespace := match subject_namespace s with
                        | Some n => if decide (n = "") then ns else n
                        | None => ns
                        end in
    if decide (sa_namespace = "") then false
    else matches_service_account_username sa_namespace (subject_name s) (username u)
  else false.

Definition applies_to (u : UserInfo) (subjects : list Subject) (ns : string) : bool :=
  existsb (fun s => applies_to_user u s ns) subjects.

(** [map_err] of the two arms: a missing role is named by its API group. *)
Definition rename_not_found (kind nm : string) (e : Error) : Error :=
  match e with
  | NotFound _ => NotFound (kind +:+ ".rbac.authorization.k8s.io " +:+ dquote +:+ nm
                            +:+ dquote +:+ " not found")
  | e => e
  end.

Definition get_role_reference_rules (role_ref : RoleRef) (binding_namespace : string)
    : result (list PolicyRule) Error :=
  if decide (ref_kind role_ref = "Role") then
    map_err (rename_not_found "role" (ref_name role_ref))
      (result_map role_rules
        (storage_get_role (build_key "roles" (Some binding_namespace) (ref_name role_ref))))
  else if decide (ref_kind role_ref = "ClusterRole") then
    map_err (rename_not_found "clusterrole" (ref_name role_ref))
      (result_map cluster_role_rules
        (storage_get_cluster_role (build_key "clusterroles" None (ref_name role_ref))))
  else Err (Internal ("unsupported role reference kind: " +:+ debug_str (ref_kind role_ref))).

(** The body of both loops of [rules_for]: one binding, given by its subjects
    and its role reference. *)
Definition visit_binding (u : UserInfo) (ns : string) (found : list PolicyRule * list string)
    (binding : list Subject * RoleRef) : list PolicyRule * list string :=
  if negb (applies_to u binding.1 ns) then found
  else
    match get_role_reference_rules binding.2 ns with
    | Ok r => (found.1 ++ r, found.2)
    | Err e => (found.1, found.2 ++ [error_to_string e])
    end.

Definition rules_for (u : UserInfo) (ns : string) : list PolicyRule * list string :=
  let cluster :=
    match storage_list_cluster_role_bindings (build_prefix "clusterrolebindings" None) with
    | Err e => ([], [error_to_string e])
    | Ok bindings =>
        foldl (visit_binding u "") ([], []) ((fun b => (crb_subjects b, crb_role_ref b)) <$> bindings)
    end in
  if decide (ns = "") then cluster
  else
    match storage_list_role_bindings (build_prefix "rolebindings" (Some ns)) with
    | Err e => (cluster.1, cluster.2 ++ [error_to_string e])
    | Ok bindings =>
        foldl (visit_binding u ns) cluster ((fun b => (rb_subjects b, rb_role_ref b)) <$> bindings)
    end.

Definition escalation_message (u : UserInfo) (missing : list PolicyRule) (errors : list string)
    : string :=
  "user " +:+ debug_str (username u) +:+ " (groups=" +:+ quote_strings (groups u)
  +:+ ") is attempting to grant RBAC permissions not currently held:" +:+ newline
  +:+ join newline (btree_set (compact_string <$> compact_rules missing))
  +:+ (if decide (errors = []) then "" else "; resolution errors: [" +:+ join ", " errors +:+ "]").

Definition confirm_no_escalation (u : option UserInfo) (ns : option string)
    (rules : list PolicyRule) : result unit string :=
  match u with
  | None => Err "no user on context"
  | Some u =>
      let '(owner_rules, resolution_errors) := rules_for u (default "" ns) in
      let '(owner_rights_cover, missing_rights) := covers owner_rules rules in
      if owner_rights_cover then Ok tt
      else Err (escalation_message u missing_rights resolution_errors)
  end.

(** ** [escalation_check.rs] *)

Record RequestContext := mkRequestContext {
  ctx_namespace : option string;
  ctx_user : option UserInfo;
  ctx_name : option string
}.

Definition RBAC_GROUP : string := "rbac.authorization.k8s.io".

Definition escalation_allowed (ctx : RequestContext) : bool :=
  match ctx_user ctx with
  | Some u => existsb (fun g => bool_decide (g = SYSTEM_PRIVILEGED_GROUP)) (groups u)
  | None => false
  end.

Definition authorize_allowed (auth : Authorizer) (a : RequestAttributes) : bool :=
  match authorize auth a with
  | Ok DAllow => true
  | Ok (DDeny _) => false
  | Err _ => false
  end.

Definition with_opt (f : RequestAttributes -> string -> RequestAttributes)
    (o : option string) (a : RequestAttributes) : RequestAttributes :=
  match o with Some s => f a s | None => a end.

Definition role_escalation_authorized (ctx : RequestContext) (auth : Authorizer)
    (res : string) : bool :=
  match ctx_user ctx with
  | None => false
  | Some u =>
      let attrs := with_api_group (new_attrs u "escalate" res) RBAC_GROUP in
      let attrs := with_opt with_name (non_empty (ctx_name ctx)) attrs in
      let attrs := with_opt with_namespace (non_empty (ctx_namespace ctx)) attrs in
      authorize_allowed auth attrs
  end.

Definition binding_authorized (ctx : RequestContext) (role_ref : RoleRef)
    (binding_namespace : string) (auth : Authorizer) : bool :=
  match ctx_user ctx with
  | None => false
  | Some u =>
      match (if decide (ref_kind role_ref = "ClusterRole") then Some "clusterroles"
             else if decide (ref_kind role_ref = "Role") then Some "roles" else None) with
      | None => false
      | Some res =>
          let attrs := with_api_group (new_attrs u "bind" res) (ref_api_group role_ref) in
          let attrs := with_opt with_name (non_empty (Some (ref_name role_ref))) attrs in
          let attrs := with_opt with_namespace (non_empty (Some binding_namespace)) attrs in
          authorize_allowed auth attrs
      end
  end.

End Policy.

(** [serde_json::to_value] of an object; [None] when it fails. *)
Class GcEncode (T : Type) := to_value : T -> option Json.

(** [value["metadata"]] with the four fields removed, where it is an object. *)
Definition strip_gc_fields (v : Json) : Json :=
  match v with
  | JObject m =>
      match obj_get "metadata" m with
      | Some (JObject meta) =>
          JObject (obj_insert "metadata"
            (JObject (foldl (fun meta f => obj_remove f meta) meta
                        ["ownerReferences"; "finalizers"; "selfLink"; "managedFields"])) m)
      | _ => v
      end
  | _ => v
  end.

Definition is_only_mutating_gc_fields {T} `{!GcEncode T} (obj old : T) : bool :=
  match to_value obj, to_value old with
  | Some o, Some o' => json_eqb (strip_gc_fields o) (strip_gc_fields o')
  | _, _ => false
  end.

(** ** [policybased.rs] *)

Record GroupResource := mkGroupResource { gr_group : string; gr_resource : string }.

Definition group_resource_string (g : GroupResource) : string :=
  if decide (gr_group g = "") then gr_resource g
  else gr_resource g +:+ "." +:+ gr_group g.

Definition rbac_resource (res : string) : GroupResource :=
  mkGroupResource "rbac.authorization.k8s.io" res.

Definition new_forbidden (g : GroupResource) (nm err : string) : Error :=
  Forbidden (if decide (nm = "") then group_resource_string g +:+ " is forbidden: " +:+ err
             else group_resource_string g +:+ " " +:+ dquote +:+ nm +:+ dquote
                  +:+ " is forbidden: " +:+ err).

Definition missing_object : Error :=
  Internal "no object was supplied to the update transformer".

Definition full_authority : list PolicyRule :=
  [mkPolicyRule ["*"] (Some ["*"]) (Some ["*"]) None None;
   mkPolicyRule ["*"] None None None (Some ["*"])].

Section PolicyBased.
Context `{!TextFormat, !RbacStorage, !GcEncode Role, !GcEncode RoleBinding,
          !GcEncode ClusterRoleBinding, !GcEncode ClusterRole}.
(** [PolicyBased.authorizer]; the resolver is [DefaultRuleResolver], above. *)
Variable authorizer : Authorizer.

Definition confirm_rules (ctx : RequestContext) (g : GroupResource) (nm : string)
    (rules : list PolicyRule) : result unit Error :=
  map_err (new_forbidden g nm) (confirm_no_escalation (ctx_user ctx) (ctx_namespace ctx) rules).

Definition escalation_bypassed (ctx : RequestContext) (res : string) : bool :=
  escalation_allowed ctx || role_escalation_authorized ctx authorizer res.

Definition confirm_binding (ctx : RequestContext) (g : GroupResource) (nm : string)
    (role_ref : RoleRef) (binding_namespace : string) : result unit Error :=
  if binding_authorized ctx role_ref binding_namespace authorizer then Ok tt
  else
    try rules <- get_role_reference_rules role_ref binding_namespace;
    map_err (new_forbidden g nm) (confirm_no_escalation (ctx_user ctx) (ctx_namespace ctx) rules).

(** *** Role *)

Definition role_begin_create (ctx : RequestContext) (obj : Role) : result unit Error :=
  if negb (escalation_bypassed ctx "roles") then
    confirm_rules ctx (rbac_resource "roles") (meta_name (role_metadata obj)) (role_rules obj)
  else Ok tt.

Definition role_transform (ctx : RequestContext) (new old : option Role) : result Role Error :=
  try obj <- match new with Some obj => Ok obj | None => Err missing_object end;
  match old with
  | None => Ok obj
  | Some old =>
      if negb (escalation_bypassed ctx "roles") && negb (is_only_mutating_gc_fields obj old) then
        try _ <- confirm_rules ctx (rbac_resource "roles") (meta_name (role_metadata obj))
                   (role_rules obj);
        Ok obj
      else Ok obj
  end.

(** *** RoleBinding *)

Definition request_namespace (ctx : RequestContext) : result string Error :=
  match ctx_namespace ctx with
  | Some ns => Ok ns
  | None => Err (BadRequest "namespace is required")
  end.

Definition role_binding_begin_create (ctx : RequestContext) (obj : RoleBinding)
    : result unit Error :=
  if escalation_allowed ctx then Ok tt
  else
    try ns <- request_namespace ctx;
    confirm_binding ctx (rbac_resource "rolebindings") (meta_name (rb_metadata obj))
      (rb_role_ref obj) ns.

Definition role_binding_transform (ctx : RequestContext) (new old : option RoleBinding)
    : result RoleBinding Error :=
  try obj <- match new with Some obj => Ok obj | None => Err missing_object end;
  match old with
  | None => Ok obj
  | Some old =>
      if escalation_allowed ctx then Ok obj
      else
        try ns <- request_namespace ctx;
        if is_only_mutating_gc_fields obj old then Ok obj
        else
          try _ <- confirm_binding ctx (rbac_resource "rolebindings")
                     (meta_name (rb_metadata obj)) (rb_role_ref obj) ns;
          Ok obj
  end.

(** *** ClusterRoleBinding *)

Definition cluster_role_binding_begin_create (ctx : RequestContext) (obj : ClusterRoleBinding)
    : result unit Error :=
  if escalation_allowed ctx then Ok tt
  else confirm_binding ctx (rbac_resource "clusterrolebindings") (meta_name (crb_metadata obj))
         (crb_role_ref obj) "".

Definition cluster_role_binding_transform (ctx : RequestContext)
    (new old : option ClusterRoleBinding) : result ClusterRoleBinding Error :=
  try obj <- match new with Some obj => Ok obj | None => Err missing_object end;
  match old with
  | None => Ok obj
  | Some old =>
      if escalation_allowed ctx || is_only_mutating_gc_fields obj old then Ok obj
      else
        try _ <- confirm_binding ctx (rbac_resource "clusterrolebindings")
                   (meta_name (crb_metadata obj)) (crb_role_ref obj) "";
        Ok obj
  end.

(** *** ClusterRole *)

Definition has_aggregation_rule (role : ClusterRole) : bool :=
  match aggregation_rule role ≫= cluster_role_selectors with
  | Some (_ :: _) => true
  | _ => false
  end.

Definition confirm_aggregation_rule (ctx : RequestContext) (role : ClusterRole)
    : result unit Error :=
  map_err (fun _ => new_forbidden (rbac_resource "clusterroles")
                      (meta_name (cluster_role_metadata role))
                      "must have cluster-admin privileges to use the aggregationRule")
    (confirm_no_escalation (ctx_user ctx) (ctx_namespace ctx) full_authority).

Definition check_create (ctx : RequestContext) (obj : ClusterRole) : result unit Error :=
  if escalation_bypassed ctx "clusterroles" then Ok tt
  else
    try _ <- confirm_rules ctx (rbac_resource "clusterroles")
               (meta_name (cluster_role_metadata obj)) (cluster_role_rules obj);
    if has_aggregation_rule obj then confirm_aggregation_rule ctx obj else Ok tt.

Definition check_update (ctx : RequestContext) (obj old : ClusterRole) : result unit Error :=
  if escalation_bypassed ctx "clusterroles" || is_only_mutating_gc_fields obj old then Ok tt
  else
    try _ <- confirm_rules ctx (rbac_resource "clusterroles")
               (meta_name (cluster_role_metadata obj)) (cluster_role_rules obj);
    if has_aggregation_rule obj || has_aggregation_rule old then confirm_aggregation_rule ctx obj
    else Ok tt.

Definition cluster_role_transform (ctx : RequestContext) (new old : option ClusterRole)
    : result ClusterRole Error :=
  try obj <- match new with Some obj => Ok obj | None => Err missing_object end;
  match old with
  | None => Ok obj
  | Some old => try _ <- check_update ctx obj old; Ok obj
  end.

End PolicyBased.
