(* ===== verification/RbacProps.v ===== *)
(** * Properties of RBAC authorization

    What a rule allows, as a proposition; the authorizer and the rule resolver
    visit the same rules; [covers] decides the inclusion of permissions; an
    accepted write grants nothing its author does not hold, but for three gaps; the
    superuser chain;
    and the rule that names only URLs. *)

From stdpp Require Import strings fin_sets infinite.
From Stdlib Require String.
From S2P Require Import Prelude RustText KubeTypes BTree Json FieldErrors Authz Metav1 RbacValidation RbacPolicy.

(** ** What a rule allows *)

Lemma has_true l x : has l x = true <-> x ∈ l.
Proof.
  unfold has. rewrite existsb_exists. setoid_rewrite <- list_elem_of_In.
  setoid_rewrite bool_decide_eq_true. naive_solver.
Qed.

Lemma has_all_singleton l x : has_all l [x] = true <-> x ∈ l.
Proof. unfold has_all; simpl. rewrite andb_true_r. apply has_true. Qed.

(** A resource of a rule names the resource and subresource of the request. *)
Definition resource_named (r : string) (a : RequestAttributes) : Prop :=
  r = "*" \/ r = combined_resource a
  \/ exists s, non_empty (subresource a) = Some s /\ r = "*/" +:+ s.

Lemma resource_matches_true rs a :
  resource_matches rs a = true <-> exists r, r ∈ rs /\ resource_named r a.
Proof.
  unfold resource_matches. rewrite existsb_exists. setoid_rewrite <- list_elem_of_In.
  split; intros (r & Hr & H); exists r; (split; [done|]).
  - rewrite !orb_true_iff !bool_decide_eq_true in H. unfold resource_named.
    destruct H as [[?|?]|H]; [naive_solver..|].
    destruct (non_empty (subresource a)) as [s|]; [|done].
    apply bool_decide_eq_true in H. naive_solver.
  - rewrite !orb_true_iff !bool_decide_eq_true.
    destruct H as [?|[?|(s & -> & ->)]]; [naive_solver..|]. right. by apply bool_decide_eq_true.
Qed.

(** [x] is in [l], or the wildcard is. *)
Definition listed (x : string) (l : list string) : Prop := x ∈ l \/ "*" ∈ l.

Definition allows_resource (r : PolicyRule) (a : RequestAttributes) : Prop :=
  listed (verb a) (verbs r)
  /\ (forall gs, api_groups r = Some gs -> listed (api_group a) gs)
  /\ (forall rs, resources r = Some rs -> exists x, x ∈ rs /\ resource_named x a)
  /\ (forall n ns, name a = Some n -> resource_names r = Some ns -> listed n ns).

Lemma not_listed_false l x :
  negb (contains l x) && negb (contains l "*") = false <-> listed x l.
Proof.
  rewrite andb_false_iff !negb_false_iff !contains_true. done.
Qed.

Lemma not_listed_true l x :
  negb (contains l x) && negb (contains l "*") = true <-> ~ listed x l.
Proof. rewrite -not_listed_false. by destruct (_ && _). Qed.

Lemma rule_allows_resource r a :
  is_non_resource_request a = false -> rule_allows r a = true <-> allows_resource r a.
Proof.
  intros Ha. unfold rule_allows, allows_resource. rewrite Ha.
  destruct (negb (contains (verbs r) _) && _) eqn:Hv.
  { apply not_listed_true in Hv. naive_solver. }
  apply not_listed_false in Hv.
  destruct (match api_groups r with Some _ => _ | None => _ end) eqn:Hg.
  { destruct (api_groups r) as [gs|]; [|done]. apply not_listed_true in Hg. naive_solver. }
  assert (forall gs, api_groups r = Some gs -> listed (api_group a) gs) as Hgs.
  { intros gs Hs. rewrite Hs in Hg. by apply not_listed_false in Hg. }
  destruct (match resources r with Some _ => _ | None => _ end) eqn:Hr.
  { destruct (resources r) as [rs|]; [|done]. apply negb_true_iff, not_true_iff_false in Hr.
    rewrite resource_matches_true in Hr. naive_solver. }
  assert (forall rs, resources r = Some rs -> exists x, x ∈ rs /\ resource_named x a) as Hrs.
  { intros rs Hs. rewrite Hs in Hr. apply negb_false_iff in Hr. by apply resource_matches_true. }
  destruct (name a) as [n|], (resource_names r) as [ns|]; try naive_solver.
  rewrite negb_true_iff not_listed_false. naive_solver.
Qed.

Lemma check_policy_rules_true rules a :
  check_policy_rules rules a = true <-> exists r, r ∈ rules /\ rule_allows r a = true.
Proof.
  unfold check_policy_rules. rewrite existsb_exists. by setoid_rewrite <- list_elem_of_In.
Qed.

Lemma check_policy_rules_app r1 r2 a :
  check_policy_rules (r1 ++ r2) a = check_policy_rules r1 a || check_policy_rules r2 a.
Proof. apply existsb_app. Qed.

(** ** The authorizer and the rule resolver visit the same rules *)

Lemma matches_service_account_username_true ns nm u :
  matches_service_account_username ns nm u = true
  <-> u = "system:serviceaccount:" +:+ ns +:+ ":" +:+ nm.
Proof.
  unfold matches_service_account_username. split.
  - destruct (_ ≫= strip_prefix ":") as [t|] eqn:H; [|done].
    rewrite bool_decide_eq_true. intros ->.
    apply bind_Some in H as (t & H & Ht). apply bind_Some in H as (w & Hw & Hns).
    apply strip_prefix_Some in Ht, Hw, Hns. by subst.
  - intros ->.
    rewrite (strip_prefix_append _ (ns +:+ _)) mbind_Some_ (strip_prefix_append ns) mbind_Some_
      strip_prefix_append.
    by apply bool_decide_eq_true_2.
Qed.

(** The namespace a service account subject is read in: three spellings. *)
Lemma subject_namespace_default s ns :
  match subject_namespace s with
  | Some n => if decide (n = "") then ns else n
  | None => ns
  end = default ns (non_empty (subject_namespace s)).
Proof. destruct (subject_namespace s); simpl; [by case_decide|done]. Qed.

Lemma subject_applies_agree u ns s : subject_applies u ns s = applies_to_user u s ns.
Proof.
  unfold subject_applies, applies_to_user. rewrite subject_namespace_default.
  destruct (decide (subject_kind s = "User")); [by apply bool_decide_ext|].
  destruct (decide (subject_kind s = "Group")); [done|].
  destruct (decide (subject_kind s = "ServiceAccount")); [|done].
  generalize (default ns (non_empty (subject_namespace s))). intros ns'. simpl.
  destruct (decide (ns' = "")) as [->|Hne]; [by rewrite (bool_decide_eq_false_2 ("" <> "")); [naive_solver|]|].
  rewrite (bool_decide_eq_true_2 (ns' <> "")) //. apply eq_true_iff_eq.
  by rewrite /= bool_decide_eq_true matches_service_account_username_true.
Qed.

Lemma applicable_subject_applies subjects u ns :
  is_Some (applicable_subject subjects u ns) <-> applies_to u subjects ns = true.
Proof.
  unfold applicable_subject, applies_to. rewrite existsb_exists.
  setoid_rewrite <- subject_applies_agree. split.
  - intros [s Hs]. apply find_some in Hs. naive_solver.
  - intros (s & Hin & Hs). destruct (find _ _) eqn:Hf; [done|].
    pose proof (find_none _ _ Hf _ Hin). congruence.
Qed.

Section Agreement.
Context `{TF : !TextFormat, RS : !RbacStorage}.

Lemma reference_rules_agree ref ns rules :
  reference_rules ref ns = Ok rules <-> get_role_reference_rules ref ns = Ok rules.
Proof.
  unfold reference_rules, get_role_reference_rules. repeat case_decide; [| |naive_solver].
  - change (authz_get_role (ref_name ref) (Some ns))
      with (storage_get_role (build_key "roles" (Some ns) (ref_name ref))).
    destruct (storage_get_role _); simpl; naive_solver.
  - change (authz_get_cluster_role (ref_name ref) None)
      with (storage_get_cluster_role (build_key "clusterroles" None (ref_name ref))).
    destruct (storage_get_cluster_role _); simpl; naive_solver.
Qed.

(** One binding grants the request. *)
Definition binding_grants (u : UserInfo) (ns : string) (a : RequestAttributes)
    (b : list Subject * RoleRef) : bool :=
  applies_to u b.1 ns
  && match get_role_reference_rules b.2 ns with
     | Ok rules => check_policy_rules rules a
     | Err _ => false
     end.

Lemma binding_grants_not_applicable u ns a b :
  applicable_subject b.1 u ns = None -> binding_grants u ns a b = false.
Proof.
  intros H. unfold binding_grants. apply andb_false_iff; left. apply not_true_iff_false.
  rewrite -applicable_subject_applies H. by intros [].
Qed.

Lemma binding_grants_applicable u ns a b s :
  applicable_subject b.1 u ns = Some s ->
  binding_grants u ns a b
  = match reference_rules b.2 ns with Ok rules => check_policy_rules rules a | Err _ => false end.
Proof.
  intros H. unfold binding_grants.
  rewrite (proj1 (applicable_subject_applies b.1 u ns)); [by rewrite H|]. simpl.
  destruct (get_role_reference_rules b.2 ns) as [rules|e] eqn:Hr.
  - by apply reference_rules_agree in Hr as ->.
  - destruct (reference_rules b.2 ns) as [rules|] eqn:Hr'; [|done].
    apply reference_rules_agree in Hr'. congruence.
Qed.

Definition is_allow (o : string + list string) : bool := match o with inl _ => true | inr _ => false end.

Lemma visit_cluster_role_bindings_allow a bs : forall errors,
  is_allow (visit_cluster_role_bindings a errors bs)
  = existsb (binding_grants (user a) "" a) ((fun b => (crb_subjects b, crb_role_ref b)) <$> bs).
Proof.
  induction bs as [|b bs IH]; intros errors; [done|]. cbn [visit_cluster_role_bindings fmap list_fmap existsb].
  destruct (applicable_subject _ _ _) as [s|] eqn:Hs.
  - rewrite (binding_grants_applicable _ _ _ (crb_subjects b, crb_role_ref b) _ Hs). simpl.
    destruct (reference_rules _ _); [|apply IH].
    destruct (check_policy_rules _ _); [done|apply IH].
  - rewrite (binding_grants_not_applicable _ _ _ (crb_subjects b, crb_role_ref b) Hs). apply IH.
Qed.

Lemma visit_role_bindings_allow a ns bs : forall errors,
  is_allow (visit_role_bindings a ns errors bs)
  = existsb (binding_grants (user a) ns a) ((fun b => (rb_subjects b, rb_role_ref b)) <$> bs).
Proof.
  induction bs as [|b bs IH]; intros errors; [done|]. cbn [visit_role_bindings fmap list_fmap existsb].
  destruct (applicable_subject _ _ _) as [s|] eqn:Hs.
  - rewrite (binding_grants_applicable _ _ _ (rb_subjects b, rb_role_ref b) _ Hs). simpl.
    destruct (reference_rules _ _); [|apply IH].
    destruct (check_policy_rules _ _); [done|apply IH].
  - rewrite (binding_grants_not_applicable _ _ _ (rb_subjects b, rb_role_ref b) Hs). apply IH.
Qed.

Lemma visit_binding_check u ns a bs : forall found,
  check_policy_rules (foldl (visit_binding u ns) found bs).1 a
  = check_policy_rules found.1 a || existsb (binding_grants u ns a) bs.
Proof.
  induction bs as [|b bs IH]; intros found; cbn [foldl existsb]; [by rewrite orb_false_r|].
  rewrite IH orb_assoc. f_equal. unfold visit_binding, binding_grants.
  destruct (applies_to u b.1 ns); simpl; [|by rewrite orb_false_r].
  destruct (get_role_reference_rules _ _); simpl; [by rewrite check_policy_rules_app|].
  by rewrite orb_false_r.
Qed.

(** The rules the resolver collects for a user, against a request. *)
Definition resolver_allows (u : UserInfo) (ns : string) (a : RequestAttributes) : bool :=
  check_policy_rules (rules_for u ns).1 a.

Lemma resolver_allows_unfold u ns a :
  resolver_allows u ns a
  = match storage_list_cluster_role_bindings (build_prefix "clusterrolebindings" None) with
    | Err _ => false
    | Ok bs => existsb (binding_grants u "" a) ((fun b => (crb_subjects b, crb_role_ref b)) <$> bs)
    end
    || (if decide (ns = "") then false
        else match storage_list_role_bindings (build_prefix "rolebindings" (Some ns)) with
             | Err _ => false
             | Ok bs => existsb (binding_grants u ns a) ((fun b => (rb_subjects b, rb_role_ref b)) <$> bs)
             end).
Proof.
  unfold resolver_allows, rules_for.
  destruct (storage_list_cluster_role_bindings _) as [cbs|]; case_decide;
    [| destruct (storage_list_role_bindings _) | |destruct (storage_list_role_bindings _)];
    rewrite ?visit_binding_check /= ?visit_binding_check ?orb_false_r //=.
Qed.

Lemma check_rbac_resolver a :
  (exists reason, check_rbac a = OAllow reason)
  <-> resolver_allows (user a) (default "" (namespace a)) a = true.
Proof.
  rewrite resolver_allows_unfold. unfold check_rbac.
  change (authz_list_cluster_role_bindings None)
    with (storage_list_cluster_role_bindings (build_prefix "clusterrolebindings" None)).
  set (first := match storage_list_cluster_role_bindings _ with Ok _ => _ | Err _ => inr _ end).
  assert (is_allow first
    = match storage_list_cluster_role_bindings (build_prefix "clusterrolebindings" None) with
      | Err _ => false
      | Ok bs => existsb (binding_grants (user a) "" a) ((fun b => (crb_subjects b, crb_role_ref b)) <$> bs)
      end) as <-.
  { unfold first. destruct (storage_list_cluster_role_bindings _); [|done].
    apply visit_cluster_role_bindings_allow. }
  destruct first as [r|errors]; simpl; [naive_solver|].
  assert (non_empty (namespace a) = if decide (default "" (namespace a) = "") then None
                                    else Some (default "" (namespace a))) as ->.
  { unfold non_empty. destruct (namespace a); simpl; [|done]. by destruct (decide _). }
  case_decide; [split; [by intros []|done]|].
  change (authz_list_role_bindings (Some (default "" (namespace a))))
    with (storage_list_role_bindings (build_prefix "rolebindings" (Some (default "" (namespace a))))).
  destruct (storage_list_role_bindings _) as [bs|]; [|split; [by intros []|done]].
  rewrite -(visit_role_bindings_allow a _ bs errors).
  destruct (visit_role_bindings _ _ _ _); naive_solver.
Qed.

End Agreement.

(** ** [covers] decides the inclusion of permissions *)

(** A request for a resource, with the resource's plural as the path names it. *)
Definition resource_request (a : RequestAttributes) : Prop :=
  is_non_resource_request a = false /\ split_once slash (resource a) = None.

(** A rule that names the groups and resources it is about. *)
Definition scoped_rule (r : PolicyRule) : Prop := is_Some (api_groups r) /\ is_Some (resources r).

(** [split_once slash] of ["x/"] leaves no subresource to request. *)
Definition requestable (r : string) : Prop := forall l, split_once slash r <> Some (l, "").

(** The rules the API means by a resource rule: groups and resources, no URL, no
    resource that ends in a slash, and names, if any, that are names. *)
Definition plain_resource_rule (r : PolicyRule) : Prop :=
  scoped_rule r /\ Forall requestable (rule_resources r) /\ rule_urls r = []
  /\ resource_names r <> Some [] /\ "*" ∉ rule_names r.

#[export] Instance requestable_dec r : Decision (requestable r).
Proof.
  refine (match split_once slash r as o
                return (split_once slash r = o -> Decision (requestable r)) with
          | Some (l, "") => fun E => right _
          | _ => fun E => left _
          end eq_refl); unfold requestable; naive_solver.
Defined.

#[export] Instance plain_resource_rule_dec r : Decision (plain_resource_rule r).
Proof. unfold plain_resource_rule, scoped_rule; apply _. Defined.

(** The atomic resource rules of [breakdown_rule]. *)
Definition atomic (v g r : string) (n : option string) : PolicyRule :=
  mkPolicyRule [v] (Some [g]) (Some [r]) ((fun n => [n]) <$> n) None.

(** [sub] is one of the atomic resource rules of [rule]. *)
Definition atom_of (rule sub : PolicyRule) : Prop :=
  exists v g r n, sub = atomic v g r n /\ v ∈ verbs rule /\ g ∈ rule_groups rule
    /\ r ∈ rule_resources rule
    /\ match n with Some n => n ∈ rule_names rule | None => rule_names rule = [] end.

Lemma breakdown_atomic rule sub :
  sub ∈ breakdown_rule rule <->
  atom_of rule sub
  \/ exists u v, u ∈ rule_urls rule /\ v ∈ verbs rule /\ sub = mkPolicyRule [v] None None None (Some [u]).
Proof.
  unfold breakdown_rule, atom_of. rewrite elem_of_app. apply Morphisms_Prop.or_iff_morphism.
  - rewrite list_elem_of_bind. setoid_rewrite list_elem_of_bind. setoid_rewrite list_elem_of_bind.
    case_decide as Hn.
    + setoid_rewrite list_elem_of_singleton. split.
      * intros (g & (r & (v & -> & Hv) & Hr) & Hg). by exists v, g, r, None.
      * intros (v & g & r & [n|] & -> & Hv & Hg & Hr & Hn').
        { rewrite Hn in Hn'. by apply elem_of_nil in Hn'. }
        by exists g; split; [exists r; split; [exists v|]|].
    + setoid_rewrite list_elem_of_fmap. split.
      * intros (g & (r & (v & (n & -> & Hn') & Hv) & Hr) & Hg). by exists v, g, r, (Some n).
      * intros (v & g & r & [n|] & -> & Hv & Hg & Hr & Hn'); [|done].
        exists g; split; [exists r; split; [exists v; split; [by exists n|]|]|]; done.
  - rewrite list_elem_of_bind. setoid_rewrite list_elem_of_fmap. naive_solver.
Qed.

Lemma atomic_allows v g r n a :
  allows_resource (atomic v g r n) a <->
  (verb a = v \/ v = "*") /\ (api_group a = g \/ g = "*") /\ resource_named r a
  /\ (forall x y, name a = Some x -> n = Some y -> x = y \/ y = "*").
Proof.
  unfold allows_resource, atomic, listed; simpl.
  setoid_rewrite list_elem_of_singleton.
  split.
  - intros (Hv & Hg & Hr & Hn). split_and!; [naive_solver| | |].
    + destruct (Hg _ eq_refl) as [H|H]; apply list_elem_of_singleton in H; naive_solver.
    + destruct (Hr _ eq_refl) as (x & Hx%list_elem_of_singleton & ?). by subst.
    + intros x y Hx ->. destruct (Hn x [y] Hx eq_refl) as [H|H]; apply list_elem_of_singleton in H; naive_solver.
  - intros (Hv & Hg & Hr & Hn). split_and!.
    + naive_solver.
    + intros gs [= <-]. rewrite !list_elem_of_singleton. naive_solver.
    + intros rs [= <-]. exists r. by rewrite list_elem_of_singleton.
    + intros x ns Hx. destruct n as [y|]; [|done]. simpl. intros [= <-]. rewrite !list_elem_of_singleton. naive_solver.
Qed.

(** Breaking a scoped rule down loses nothing. *)
Lemma breakdown_sound rule a :
  scoped_rule rule -> is_non_resource_request a = false -> rule_allows rule a = true ->
  exists sub, atom_of rule sub /\ rule_allows sub a = true.
Proof.
  intros [[gs Hgs] [rs Hrs]] Ha. rewrite rule_allows_resource //.
  intros (Hv & Hg & Hr & Hn).
  destruct (Hr rs Hrs) as (r & Hrin & Hr').
  assert (exists v, v ∈ verbs rule /\ (verb a = v \/ v = "*")) as (v & Hvin & Hv') by (destruct Hv; eauto).
  assert (exists g, g ∈ gs /\ (api_group a = g \/ g = "*")) as (g & Hgin & Hg') by (destruct (Hg gs Hgs); eauto).
  assert (exists n, match n with Some n => n ∈ rule_names rule | None => rule_names rule = [] end
    /\ forall x y, name a = Some x -> n = Some y -> x = y \/ y = "*") as (n & Hnin & Hn').
  { destruct (resource_names rule) as [[|n0 ns]|] eqn:Hns; unfold rule_names; rewrite Hns; simpl.
    - by exists None.
    - destruct (name a) as [x|].
      + destruct (Hn x _ eq_refl eq_refl) as [H|H];
          [exists (Some x)|exists (Some "*")]; naive_solver.
      + exists (Some n0). split; [left|naive_solver].
    - by exists None. }
  exists (atomic v g r n). split.
  - exists v, g, r, n. unfold rule_groups, rule_resources. by rewrite Hgs Hrs.
  - apply rule_allows_resource; [done|]. by apply atomic_allows.
Qed.

(** ... and adds nothing, unless the rule has an empty list of names. *)
Lemma breakdown_complete rule sub a :
  atom_of rule sub -> resource_names rule <> Some [] ->
  is_non_resource_request a = false -> rule_allows sub a = true -> rule_allows rule a = true.
Proof.
  intros (v & g & r & n & -> & Hv & Hg & Hr & Hn) Hne Ha.
  rewrite !rule_allows_resource // atomic_allows.
  intros (Hav & Hag & Har & Han). unfold rule_groups, rule_resources, rule_names in *.
  split_and!; unfold listed.
  - naive_solver.
  - intros gs Hgs. rewrite Hgs in Hg. naive_solver.
  - intros rs Hrs. rewrite Hrs in Hr. naive_solver.
  - intros x ns Hx Hns. rewrite Hns in Hn. destruct n as [y|]; simpl in Hn; [|naive_solver].
    destruct (Han x y Hx eq_refl); naive_solver.
Qed.

(** A resource named by a rule's list, as [resource_covers_all] reads it. *)
Definition resource_covered (os : list string) (r : string) : Prop :=
  "*" ∈ os \/ r ∈ os \/ exists l s, split_once slash r = Some (l, s) /\ "*/" +:+ s ∈ os.

Lemma resource_covers_all_singleton os r :
  resource_covers_all os [r] = true <-> resource_covered os r.
Proof.
  unfold resource_covers_all, resource_covered, ALL.
  destruct (has os "*") eqn:Hs; simpl; [apply has_true in Hs; naive_solver|].
  apply not_true_iff_false in Hs. rewrite has_true in Hs. rewrite andb_true_r.
  destruct (has os r) eqn:Hr; [apply has_true in Hr; naive_solver|].
  apply not_true_iff_false in Hr. rewrite has_true in Hr.
  destruct (split_once slash r) as [[l s]|]; [|naive_solver].
  destruct (has os ("*/" +:+ s)) eqn:Hx.
  - apply has_true in Hx. naive_solver.
  - apply not_true_iff_false in Hx. rewrite has_true in Hx. naive_solver.
Qed.

Lemma rule_covers_atomic o v g r n :
  rule_covers o (atomic v g r n) = true <->
  listed v (verbs o) /\ listed g (rule_groups o) /\ resource_covered (rule_resources o) r
  /\ (rule_names o = [] \/ exists y, n = Some y /\ y ∈ rule_names o).
Proof.
  unfold rule_covers. rewrite !andb_true_iff.
  change (non_resource_urls_covers_all _ _) with true.
  change (verbs (atomic v g r n)) with [v].
  change (rule_groups (atomic v g r n)) with [g].
  change (rule_resources (atomic v g r n)) with [r].
  rewrite resource_covers_all_singleton (orb_true_iff (has (verbs o) ALL))
    (orb_true_iff (has (rule_groups o) ALL)) !has_all_singleton !has_true.
  unfold listed, ALL.
  destruct n as [y|].
  - change (rule_names (atomic _ _ _ _)) with [y]. destruct (decide ([y] = [])) as [|_]; [done|].
    rewrite (orb_true_iff (bool_decide _)) bool_decide_eq_true has_all_singleton. naive_solver.
  - change (rule_names (atomic _ _ _ _)) with (@nil string).
    destruct (decide ([] = [])) as [_|]; [|done].
    rewrite bool_decide_eq_true. naive_solver.
Qed.

Lemma combined_resource_cases a :
  (non_empty (subresource a) = None /\ combined_resource a = resource a)
  \/ exists s, s <> "" /\ non_empty (subresource a) = Some s
      /\ combined_resource a = resource a +:+ String slash s.
Proof.
  unfold combined_resource. destruct (subresource a) as [s|]; simpl; [|by left].
  destruct (decide (s = "")); [by left|]. right. by exists s.
Qed.

Lemma split_star s : split_once slash ("*/" +:+ s) = Some ("*", s).
Proof. exact (split_once_append slash "*" s eq_refl). Qed.

(** Covering a resource covers the requests that name it. *)
Lemma resource_covered_named os r a :
  split_once slash (resource a) = None ->
  resource_covered os r -> resource_named r a -> exists x, x ∈ os /\ resource_named x a.
Proof.
  intros Hsl [H|[H|(l & s & Hsp & H)]] Hr; [by exists "*"; split; [|left]|by exists r|].
  destruct Hr as [->|[->|(t & Ht & ->)]].
  - by vm_compute in Hsp.
  - destruct (combined_resource_cases a) as [[_ Hc]|(t & Ht & Hsub & Hc)]; rewrite Hc in Hsp.
    + congruence.
    + rewrite split_once_append // in Hsp. injection Hsp as <- <-.
      exists ("*/" +:+ t). split; [done|]. right; right. by exists t.
  - rewrite split_star in Hsp. injection Hsp as <- <-.
    exists ("*/" +:+ t). split; [done|]. right; right. by exists t.
Qed.

Lemma listed_trans x v l : listed v l -> (x = v \/ v = "*") -> listed x l.
Proof. unfold listed. naive_solver. Qed.

Lemma rule_covers_sound o v g r n a :
  resource_names o <> Some [] -> resource_request a ->
  rule_covers o (atomic v g r n) = true -> rule_allows (atomic v g r n) a = true ->
  rule_allows o a = true.
Proof.
  intros Hne [Ha Hsl] Hc. rewrite !rule_allows_resource // atomic_allows.
  apply rule_covers_atomic in Hc as (Hv & Hg & Hr & Hn).
  intros (Hav & Hag & Har & Han). split_and!.
  - eauto using listed_trans.
  - intros gs Hgs. unfold rule_groups in Hg. rewrite Hgs in Hg. eauto using listed_trans.
  - intros rs Hrs. unfold rule_resources in Hr. rewrite Hrs in Hr. eauto using resource_covered_named.
  - intros x ns Hx Hns. unfold rule_names in Hn. rewrite Hns in Hn. simpl in Hn.
    destruct Hn as [->|(y & -> & Hy)]; [done|]. apply (listed_trans _ y); [by left|eauto].
Qed.

Lemma covers_true owner servant :
  (covers owner servant).1 = true <->
  forall sub, sub ∈ servant ≫= breakdown_rule -> exists o, o ∈ owner /\ rule_covers o sub = true.
Proof.
  unfold covers. cbn [fst]. rewrite bool_decide_eq_true. split.
  - intros Hnil sub Hsub.
    destruct (existsb (fun o => rule_covers o sub) owner) eqn:He.
    + apply existsb_exists in He as (o & Ho%list_elem_of_In & ?). by exists o.
    + assert (sub ∈ (@nil PolicyRule)) as []%elem_of_nil.
      rewrite -Hnil list_elem_of_In filter_In. rewrite He -list_elem_of_In. done.
  - intros H. apply elem_of_nil_inv. intros sub. rewrite list_elem_of_In filter_In.
    intros [Hin%list_elem_of_In Hn]. destruct (H sub Hin) as (o & Ho & Hc).
    apply negb_true_iff, not_true_iff_false in Hn. apply Hn, existsb_exists.
    exists o. by rewrite -list_elem_of_In.
Qed.

(** A rule as the comparison reads it: an empty list of names is no list. *)
Definition unnamed (o : PolicyRule) : PolicyRule :=
  mkPolicyRule (verbs o) (api_groups o) (resources o)
    (if decide (resource_names o = Some []) then None else resource_names o) (non_resource_urls o).

Lemma rule_covers_unnamed o sub : rule_covers (unnamed o) sub = rule_covers o sub.
Proof.
  unfold rule_covers. assert (rule_names (unnamed o) = rule_names o) as ->; [|done].
  unfold rule_names, unnamed. cbn [resource_names]. by case_decide as H; [rewrite H|].
Qed.

Lemma unnamed_same o : resource_names o <> Some [] -> unnamed o = o.
Proof. intros H. destruct o. unfold unnamed. cbn in *. by rewrite decide_False. Qed.

Lemma covers_sound_rule owner servant rule a :
  rule ∈ servant -> scoped_rule rule -> (covers owner servant).1 = true -> resource_request a ->
  rule_allows rule a = true -> exists o, o ∈ owner /\ rule_allows (unnamed o) a = true.
Proof.
  rewrite covers_true. intros Hin Hs Hc Ha Hr.
  destruct (breakdown_sound rule a) as (sub & Hsub & Hall); [done|apply Ha|done|].
  destruct (Hc sub) as (o & Hoin & Hcov).
  { apply list_elem_of_bind. exists rule. split; [|done]. apply breakdown_atomic. by left. }
  destruct Hsub as (v & g & r & n & -> & _). exists o. split; [done|].
  eapply rule_covers_sound; [|done|by rewrite rule_covers_unnamed|done].
  unfold unnamed. cbn. by case_decide.
Qed.

(** A rule of URLs is compared by its verbs and URLs. *)
Lemma covers_url_rule owner servant rule a :
  rule ∈ servant -> rule_urls rule <> [] -> (covers owner servant).1 = true -> is_non_resource_request a = false ->
  rule_allows rule a = true -> exists o, o ∈ owner /\ rule_urls o <> [] /\ listed (verb a) (verbs o).
Proof.
  rewrite covers_true. intros Hin Hu Hc Ha (Hv & _)%rule_allows_resource; [|done].
  destruct (rule_urls rule) as [|u us] eqn:Hus; [done|].
  assert (exists v, v ∈ verbs rule /\ (verb a = v \/ v = "*")) as (v & Hvin & Hva)
    by (destruct Hv; [exists (verb a)|exists "*"]; auto).
  destruct (Hc (mkPolicyRule [v] None None None (Some [u]))) as (o & Ho & Hcov).
  { apply list_elem_of_bind. exists rule. split; [|done]. apply breakdown_atomic. right. exists u, v.
    split; [rewrite Hus; left|done]. }
  exists o. split; [done|]. unfold rule_covers in Hcov. rewrite !andb_true_iff orb_true_iff in Hcov.
  destruct Hcov as [[[[Hvo _] _] _] Huo]. split.
  - intros E. rewrite E in Huo; by destruct Huo as [Huo _]; vm_compute in Huo.
  - destruct Hvo as [Hall|Hall]; [right; by apply has_true in Hall|].
    apply has_all_singleton in Hall. apply (listed_trans _ v); [by left|done].
Qed.

Lemma covers_sound owner servant a :
  Forall scoped_rule servant -> Forall (fun o => resource_names o <> Some []) owner ->
  (covers owner servant).1 = true -> resource_request a ->
  check_policy_rules servant a = true -> check_policy_rules owner a = true.
Proof.
  rewrite !Forall_forall !check_policy_rules_true. intros Hs Ho Hc Ha (rule & Hin & Hr).
  destruct (covers_sound_rule owner servant rule a) as (o & Hoin & Hall); [auto..|].
  exists o. split; [done|]. rewrite unnamed_same in Hall; auto.
Qed.

(** *** Completeness: a request that only a covering rule allows *)

(** A name longer than every string the owner's rules mention. *)
Definition rule_strings (r : PolicyRule) : list string :=
  verbs r ++ rule_groups r ++ rule_resources r ++ rule_names r.

Definition fresh_name (owner : list PolicyRule) : string :=
  show_version (list_max (String.length <$> (owner ≫= rule_strings))).

Lemma show_version_length n : String.length (show_version n) = S n.
Proof.
  induction n as [|n IH]; [done|]. unfold show_version in *. simpl Nat.iter.
  rewrite string_length_append IH. done.
Qed.

Lemma show_version_no_slash n : split_once slash (show_version n) = None.
Proof.
  induction n as [|n IH]; [done|].
  change (show_version (S n)) with (String (Ascii.ascii_of_nat 105) (show_version n)). cbn [split_once].
  by rewrite IH.
Qed.

Lemma fresh_name_longer owner o x t :
  o ∈ owner -> x ∈ rule_strings o -> x <> fresh_name owner +:+ t.
Proof.
  intros Ho Hx ->. unfold fresh_name in Hx.
  set (l := String.length <$> (owner ≫= rule_strings)) in *.
  assert (String.length (show_version (list_max l) +:+ t) <= list_max l) as Hle.
  { assert (Forall (fun k => k <= list_max l) l) as Hall by by apply list_max_le.
    rewrite Forall_forall in Hall. apply Hall. apply list_elem_of_fmap. eexists; split; [done|].
    apply list_elem_of_bind. by exists o. }
  rewrite string_length_append show_version_length in Hle. lia.
Qed.

Lemma fresh_name_not_in owner o x : o ∈ owner -> x ∈ rule_strings o -> x <> fresh_name owner.
Proof. intros Ho Hx. rewrite -(append_empty (fresh_name owner)). by apply (fresh_name_longer _ o). Qed.

(** The wildcard stands for the fresh name. *)
Definition generic (f x : string) : string := if decide (x = "*") then f else x.

Lemma generic_matches f x : generic f x = x \/ x = "*".
Proof. unfold generic. case_decide; auto. Qed.

Lemma generic_listed f x l : f ∉ l -> listed (generic f x) l -> listed x l.
Proof. unfold generic, listed. case_decide; naive_solver. Qed.

Definition generic_request (f v g r : string) (n : option string) : RequestAttributes :=
  let '(res, sub) := match split_once slash r with
                     | Some (l, s) => (generic f l, Some s)
                     | None => (generic f r, None)
                     end in
  mkRequestAttributes (mkUserInfo "" "" [] ∅) (generic f v) None (generic f g) "" res
    (Some (default f n)) sub None false [].

Lemma split_once_left c s l r : split_once c s = Some (l, r) -> split_once c l = None.
Proof. intros H. by apply split_once_inv in H as [_ ?]. Qed.

Lemma generic_request_ok owner v g r n :
  resource_request (generic_request (fresh_name owner) v g r n).
Proof.
  unfold generic_request, resource_request, generic.
  destruct (split_once slash r) as [[l s]|] eqn:Hs; simpl; (split; [done|]); case_decide;
    eauto using show_version_no_slash, split_once_left; apply show_version_no_slash.
Qed.

Lemma generic_request_allowed f v g r n :
  requestable r -> rule_allows (atomic v g r n) (generic_request f v g r n) = true.
Proof.
  intros Hreq. unfold generic_request.
  destruct (split_once slash r) as [[l s]|] eqn:Hs; apply rule_allows_resource; try done;
    apply atomic_allows; cbn [verb api_group name]; (split_and!; [apply generic_matches..| |naive_solver]).
  - assert (s <> "") as Hne by (intros ->; by apply (Hreq l)).
    apply split_once_inv in Hs as [-> _]. unfold generic, resource_named, combined_resource; simpl.
    rewrite decide_False //. case_decide as Hl.
    + subst. right; right. by exists s.
    + by right; left.
  - destruct (decide (r = "*")) as [->|Hl]; [by left|]. right; left.
    unfold combined_resource, generic; simpl. by rewrite decide_False.
Qed.

Lemma generic_request_resource owner o v g r n :
  o ∈ owner -> requestable r ->
  (exists x, x ∈ rule_resources o /\ resource_named x (generic_request (fresh_name owner) v g r n)) ->
  resource_covered (rule_resources o) r.
Proof.
  intros Ho Hreq (x & Hx & Hn). set (f := fresh_name owner) in *.
  assert (x ∈ rule_strings o) as Hxs by (unfold rule_strings; set_solver).
  unfold generic_request in Hn. unfold resource_covered.
  destruct (split_once slash r) as [[l s]|] eqn:Hs.
  - assert (s <> "") as Hne by (intros ->; by apply (Hreq l)).
    destruct Hn as [->|[Hc|(t & Ht & ->)]]; [by left| |].
    + unfold combined_resource in Hc; simpl in Hc. rewrite decide_False // in Hc.
      unfold generic in Hc. case_decide as Hl; [by destruct (fresh_name_longer owner o x ("/" +:+ s))|].
      right; left. apply split_once_inv in Hs as [-> _]. by rewrite Hc in Hx.
    + simpl in Ht. rewrite decide_False // in Ht. injection Ht as <-.
      right; right. by exists l, s.
  - destruct Hn as [->|[Hc|(t & Ht & _)]]; [by left| |done].
    unfold combined_resource, generic in Hc; simpl in Hc.
    case_decide; [by destruct (fresh_name_not_in owner o x)|]. right; left. by rewrite Hc in Hx.
Qed.

Lemma generic_request_covered owner o v g r n :
  o ∈ owner -> plain_resource_rule o -> requestable r ->
  rule_allows o (generic_request (fresh_name owner) v g r n) = true ->
  rule_covers o (atomic v g r n) = true.
Proof.
  intros Ho ([[gs Hgs] [rs Hrs]] & _ & _ & Hne & Hstar) Hreq.
  set (f := fresh_name owner). set (a := generic_request f v g r n).
  destruct (generic_request_ok owner v g r n) as [Ha _]. rewrite rule_allows_resource //.
  assert (verb a = generic f v /\ api_group a = generic f g /\ name a = Some (default f n)) as (Hva & Hga & Hna).
  { unfold a, generic_request. by destruct (split_once slash r) as [[]|]. }
  assert (forall l, l ⊆ rule_strings o -> f ∉ l) as Hf.
  { intros l Hl Hin. by destruct (fresh_name_not_in owner o f Ho (Hl _ Hin)). }
  intros (Hv & Hg & Hr & Hn). rewrite Hva in Hv. rewrite Hga in Hg.
  apply rule_covers_atomic. split_and!.
  - eapply generic_listed; [|done]. apply Hf. unfold rule_strings. set_solver.
  - eapply generic_listed; [|unfold rule_groups; rewrite Hgs; simpl; eauto].
    apply Hf. unfold rule_strings. set_solver.
  - eapply generic_request_resource; [done..|]. unfold rule_resources. rewrite Hrs. by apply Hr.
  - assert (f ∉ rule_names o) as Hfn by (apply Hf; unfold rule_strings; set_solver).
    unfold rule_names in *. destruct (resource_names o) as [ns|]; [|by left]. simpl in *.
    destruct (Hn _ ns Hna eq_refl) as [H|H]; [|done].
    destruct n as [y|]; simpl in H; [right; eauto|done].
Qed.

Lemma covers_complete owner servant :
  Forall plain_resource_rule owner -> Forall plain_resource_rule servant ->
  (forall a, resource_request a -> check_policy_rules servant a = true ->
             check_policy_rules owner a = true) ->
  (covers owner servant).1 = true.
Proof.
  rewrite !Forall_forall covers_true. intros Ho Hs H sub Hsub.
  apply list_elem_of_bind in Hsub as (rule & Hsub & Hrule).
  destruct (Hs rule Hrule) as (_ & Hreq & Hurls & Hne & _). rewrite Forall_forall in Hreq.
  apply breakdown_atomic in Hsub as [Hat|(u & v & Hu & _)]; [|rewrite Hurls in Hu; by apply elem_of_nil in Hu].
  pose proof Hat as (v & g & r & n & -> & _ & _ & Hr & _).
  destruct (generic_request_ok owner v g r n) as [Ha Hsl].
  pose proof (H (generic_request (fresh_name owner) v g r n) (conj Ha Hsl)) as Hall.
  rewrite !check_policy_rules_true in Hall. destruct Hall as (o & Hoin & Hallow).
  { exists rule. split; [done|]. eapply breakdown_complete; eauto using generic_request_allowed. }
  exists o. split; [done|]. eapply generic_request_covered; eauto.
Qed.

(** C12: For resource rules, [covers] answers true exactly when every resource
    request that the servant's rules allow is allowed by the owner's rules: the
    comparison by verbs, groups, resources, subresource wildcards and names is
    the inclusion of what [rule_allows] lets through, neither weaker (nobody is
    let to grant more than they hold) nor stronger (nobody is refused what they
    could grant). *)
Theorem covers_decides_inclusion owner servant :
  Forall plain_resource_rule owner -> Forall plain_resource_rule servant ->
  (covers owner servant).1 = true <->
  (forall a, resource_request a -> check_policy_rules servant a = true ->
             check_policy_rules owner a = true).
Proof.
  intros Ho Hs. split; [|by apply covers_complete].
  intros Hc a Ha. apply covers_sound; [| |done..].
  - by eapply Forall_impl; [done|]; intros r [? _].
  - by eapply Forall_impl; [done|]; intros r (_ & _ & _ & ? & _).
Qed.

Definition witness_owner : list PolicyRule :=
  [mkPolicyRule ["get"; "list"] (Some [""]) (Some ["pods"; "*/status"]) None None;
   mkPolicyRule ["*"] (Some ["apps"]) (Some ["deployments"]) (Some ["web"; "db"]) None].

Definition witness_servant : list PolicyRule :=
  [mkPolicyRule ["get"] (Some [""]) (Some ["pods"; "nodes/status"]) None None;
   mkPolicyRule ["delete"] (Some ["apps"]) (Some ["deployments"]) (Some ["db"]) None].

Lemma covers_decides_inclusion_witness :
  (forall a, resource_request a -> check_policy_rules witness_servant a = true ->
             check_policy_rules witness_owner a = true)
  /\ ~ (forall a, resource_request a -> check_policy_rules witness_owner a = true ->
                  check_policy_rules witness_servant a = true).
Proof.
  assert (Forall plain_resource_rule witness_owner) as Ho
    by (apply (bool_decide_unpack _); vm_compute; exact I).
  assert (Forall plain_resource_rule witness_servant) as Hs
    by (apply (bool_decide_unpack _); vm_compute; exact I).
  split.
  - apply (covers_decides_inclusion _ _ Ho Hs). by vm_compute.
  - intros H. apply (covers_decides_inclusion _ _ Hs Ho) in H. by vm_compute in H.
Defined.

(** C28: The authorizer allows a request exactly when the rules that the
    resolver collects for its user and namespace allow it: the two walks over
    the bindings, the two spellings of the service account match, the two ways
    to build a storage key and the two treatments of errors (an unreadable role
    or binding list hides no other rule) agree. *)
Theorem authorizer_agrees_with_resolver `{!TextFormat, !RbacStorage} a :
  (exists reason, check_rbac a = OAllow reason)
  <-> check_policy_rules (rules_for (user a) (default "" (namespace a))).1 a = true.
Proof. apply check_rbac_resolver. Qed.

(** ** Accepted writes grant nothing new *)

Inductive RbacWrite :=
| CreateRole (r : Role)
| UpdateRole (new old : Role)
| CreateClusterRole (r : ClusterRole)
| UpdateClusterRole (new old : ClusterRole)
| CreateRoleBinding (b : RoleBinding)
| UpdateRoleBinding (new old : RoleBinding)
| CreateClusterRoleBinding (b : ClusterRoleBinding)
| UpdateClusterRoleBinding (new old : ClusterRoleBinding).

Section Escalation.
Context `{TF : !TextFormat, RS : !RbacStorage, !GcEncode Role, !GcEncode RoleBinding,
          !GcEncode ClusterRoleBinding, !GcEncode ClusterRole}.
Variable authorizer : Authorizer.
Variable ctx : RequestContext.

(** The storage's hook accepts the write. *)
Definition accepted (w : RbacWrite) : bool :=
  match w with
  | CreateRole r => is_ok (role_begin_create authorizer ctx r)
  | UpdateRole new old => is_ok (role_transform authorizer ctx (Some new) (Some old))
  | CreateClusterRole r => is_ok (check_create authorizer ctx r)
  | UpdateClusterRole new old => is_ok (cluster_role_transform authorizer ctx (Some new) (Some old))
  | CreateRoleBinding b => is_ok (role_binding_begin_create authorizer ctx b)
  | UpdateRoleBinding new old => is_ok (role_binding_transform authorizer ctx (Some new) (Some old))
  | CreateClusterRoleBinding b => is_ok (cluster_role_binding_begin_create authorizer ctx b)
  | UpdateClusterRoleBinding new old =>
      is_ok (cluster_role_binding_transform authorizer ctx (Some new) (Some old))
  end.

(** One of the documented exemptions: the superuser group, the [escalate] or
    [bind] permission, or a change of garbage collection fields only. *)
Definition exempted (w : RbacWrite) : bool :=
  let bind_in r ns := escalation_allowed ctx || binding_authorized ctx r ns authorizer in
  let ns := default "" (ctx_namespace ctx) in
  match w with
  | CreateRole _ => escalation_bypassed authorizer ctx "roles"
  | UpdateRole new old =>
      escalation_bypassed authorizer ctx "roles" || is_only_mutating_gc_fields new old
  | CreateClusterRole _ => escalation_bypassed authorizer ctx "clusterroles"
  | UpdateClusterRole new old =>
      escalation_bypassed authorizer ctx "clusterroles" || is_only_mutating_gc_fields new old
  | CreateRoleBinding b => bind_in (rb_role_ref b) ns
  | UpdateRoleBinding new old =>
      bind_in (rb_role_ref new) ns || is_only_mutating_gc_fields new old
  | CreateClusterRoleBinding b => bind_in (crb_role_ref b) ""
  | UpdateClusterRoleBinding new old =>
      bind_in (crb_role_ref new) "" || is_only_mutating_gc_fields new old
  end.

(** The rules the written object gives to others. *)
Definition granted (w : RbacWrite) : list PolicyRule :=
  let resolve r ns := match get_role_reference_rules r ns with Ok rules => rules | Err _ => [] end in
  let ns := default "" (ctx_namespace ctx) in
  match w with
  | CreateRole r | UpdateRole r _ => role_rules r
  | CreateClusterRole r | UpdateClusterRole r _ => cluster_role_rules r
  | CreateRoleBinding b | UpdateRoleBinding b _ => resolve (rb_role_ref b) ns
  | CreateClusterRoleBinding b | UpdateClusterRoleBinding b _ => resolve (crb_role_ref b) ""
  end.

(** The requester holds the rules, by the comparison of [policy_comparator]. *)
Definition holds (rules : list PolicyRule) : Prop :=
  exists u, ctx_user ctx = Some u
    /\ (covers (rules_for u (default "" (ctx_namespace ctx))).1 rules).1 = true.

Lemma confirm_no_escalation_ok rules :
  is_ok (confirm_no_escalation (ctx_user ctx) (ctx_namespace ctx) rules) = true -> holds rules.
Proof.
  unfold confirm_no_escalation, holds. destruct (ctx_user ctx) as [u|]; [|done].
  destruct (rules_for u _) as [owner errors] eqn:Hr.
  destruct (covers owner rules) as [[] missing] eqn:Hc; [|done]. intros _.
  exists u. split; [done|]. rewrite Hr. cbn [fst]. by rewrite Hc.
Qed.

Lemma is_ok_map_err {A E F} (f : E -> F) (r : result A E) : is_ok (map_err f r) = is_ok r.
Proof. by destruct r. Qed.

Lemma is_ok_bind {A B E} (r : result A E) (f : A -> result B E) :
  is_ok (result_bind r f) = true -> is_ok r = true /\ exists a, r = Ok a /\ is_ok (f a) = true.
Proof. destruct r; naive_solver. Qed.

Lemma confirm_rules_ok g nm rules : is_ok (confirm_rules ctx g nm rules) = true -> holds rules.
Proof. unfold confirm_rules. rewrite is_ok_map_err. apply confirm_no_escalation_ok. Qed.

Lemma confirm_binding_ok g nm r ns :
  is_ok (confirm_binding authorizer ctx g nm r ns) = true ->
  binding_authorized ctx r ns authorizer = false ->
  holds (match get_role_reference_rules r ns with Ok rules => rules | Err _ => [] end).
Proof.
  unfold confirm_binding. intros H Hb. rewrite Hb in H.
  apply is_ok_bind in H as (_ & rules & -> & H). rewrite is_ok_map_err in H.
  by apply confirm_no_escalation_ok.
Qed.

(** Peel the guards off an accepted, not exempted write. *)
Ltac peel_guards :=
  repeat match goal with
  | H : _ || _ = false |- _ => apply orb_false_iff in H as [? H]
  | H : ?b = false, K : context [?b] |- _ => rewrite H in K
  | H : is_ok (result_bind _ _) = true |- _ => apply is_ok_bind in H as (? & ? & ? & H); simplify_eq/=
  end.

Lemma accepted_holds w : accepted w = true -> exempted w = false -> holds (granted w).
Proof.
  destruct w; cbn [accepted exempted granted]; intros Ha He;
    unfold role_begin_create, role_transform, check_create, cluster_role_transform, check_update,
      role_binding_begin_create, role_binding_transform, cluster_role_binding_begin_create,
      cluster_role_binding_transform, request_namespace in Ha; simpl in Ha; peel_guards;
    destruct (ctx_namespace ctx); simplify_eq/=; peel_guards;
    eauto using confirm_rules_ok, confirm_binding_ok.
Qed.

(** The cluster-wide rules of a user apply in every namespace. *)
Lemma resolver_allows_mono u ns a :
  resolver_allows u "" a = true -> resolver_allows u ns a = true.
Proof.
  rewrite !resolver_allows_unfold. destruct (decide ("" = "")) as [_|]; [|done].
  rewrite orb_false_r. by intros ->.
Qed.

(** A rule of URLs that lists groups, resources or names as well. *)
Definition mixed_rule (o : PolicyRule) : Prop :=
  rule_urls o <> [] /\ ~ (api_groups o = None /\ resources o = None /\ resource_names o = None).

Lemma url_rule_allows o a :
  rule_urls o <> [] -> ~ mixed_rule o -> is_non_resource_request a = false -> listed (verb a) (verbs o) ->
  rule_allows o a = true.
Proof.
  intros Hu Hm Ha Hv. apply rule_allows_resource; [done|]. unfold allows_resource.
  destruct (api_groups o) eqn:Hg; [exfalso; apply Hm; split; [done|]; rewrite Hg; naive_solver|].
  destruct (resources o) eqn:Hr; [exfalso; apply Hm; split; [done|]; rewrite Hr; naive_solver|].
  destruct (resource_names o) eqn:Hn; [exfalso; apply Hm; split; [done|]; rewrite Hn; naive_solver|]. naive_solver.
Qed.

(** C5: What a write to the RBAC objects can give away.  When the hook of one of
    the four RBAC storages accepts a create or an update that is not exempted, and
    the rules of the written object (of the role a binding refers to) allow a
    resource request of the requester in the request's namespace (in any namespace
    for a cluster-scoped write), then the authorizer already allows that request,
    but for three gaps: the rule that allows it names no groups or no resources
    and no URLs either, so that there is nothing to compare; or it is a rule of
    URLs, and the requester holds a rule of URLs that lists groups, resources or
    names as well; or the requester holds a rule with an empty list of resource
    names that would allow the request without the list, which the comparison
    reads as every name and the authorizer as none. *)
Theorem accepted_write_grants_nothing_new w a :
  accepted w = true -> exempted w = false ->
  ctx_user ctx = Some (user a) ->
  ctx_namespace ctx = None \/ namespace a = ctx_namespace ctx ->
  resource_request a ->
  check_policy_rules (granted w) a = true ->
  let held := (rules_for (user a) (default "" (ctx_namespace ctx))).1 in
  (exists reason, check_rbac a = OAllow reason) \/
  (exists r, r ∈ granted w /\ rule_allows r a = true /\ ~ scoped_rule r /\
     (rule_urls r = [] \/ exists o, o ∈ held /\ mixed_rule o)) \/
  (exists o, o ∈ held /\ resource_names o = Some [] /\ rule_allows o a = false /\ rule_allows (unnamed o) a = true).
Proof.
  intros Hacc Hex Hu Hns Ha (r & Hin & Hr)%check_policy_rules_true held.
  destruct (accepted_holds w Hacc Hex) as (u & Hu' & Hc). rewrite Hu in Hu'. injection Hu' as <-. fold held in Hc.
  assert (forall o, o ∈ held -> rule_allows o a = true -> exists reason, check_rbac a = OAllow reason) as Hheld.
  { intros o Ho Hoa. apply check_rbac_resolver.
    assert (check_policy_rules held a = true) as Hok by (apply check_policy_rules_true; by exists o).
    unfold held in Hok. destruct Hns as [Hns| ->]; [|done]. rewrite Hns in Hok. by apply resolver_allows_mono. }
  destruct (decide (scoped_rule r)) as [Hs|Hs].
  - destruct (covers_sound_rule _ _ r a Hin Hs Hc Ha Hr) as (o & Ho & Hall).
    destruct (rule_allows o a) eqn:Hoa; [left; by apply (Hheld o)|]. right; right. exists o. split_and!; [done| |done|done].
    destruct (decide (resource_names o = Some [])) as [|Hn]; [done|]. rewrite unnamed_same // in Hall. congruence.
  - destruct (decide (rule_urls r = [])) as [Hurl|Hurl]; [right; left; exists r; auto|].
    destruct (covers_url_rule _ _ r a Hin Hurl Hc (proj1 Ha) Hr) as (o & Ho & Hou & Hv).
    destruct (decide (mixed_rule o)) as [Hm|Hm]; [right; left; exists r; eauto 10|].
    left. apply (Hheld o Ho). apply url_rule_allows; [done..|apply Ha|done].
Qed.

(** What the API server's validation accepts is scoped: every rule of a Role, and
    every rule of a ClusterRole that names no URL. *)
Lemma validated_rule_scoped r namespaced fld :
  validate_policy_rule r namespaced fld = [] -> namespaced = true \/ rule_urls r = [] ->
  scoped_rule r.
Proof.
  unfold validate_policy_rule, scoped_rule, is_empty_opt. intros H Hn.
  apply app_nil in H as [_ H].
  change (default [] (non_resource_urls r)) with (rule_urls r) in H.
  destruct (decide (rule_urls r <> [])) as [Hu|_].
  { destruct Hn as [->|]; [|done]. by apply app_nil in H as [? _]. }
  apply app_nil in H as [Hg Hr].
  destruct (api_groups r) as [[|]|], (resources r) as [[|]|]; try done; eauto.
Qed.

End Escalation.

(** A cluster with one ClusterRole, bound to the group [dev]. *)
Definition witness_format : TextFormat := Build_TextFormat (fun s => s) (fun s => s).

Definition witness_meta (nm : string) : ObjectMeta := mkObjectMeta nm None "" None.

Definition witness_storage : RbacStorage :=
  Build_RbacStorage (fun _ => Err (NotFound "role"))
    (fun k => if decide (k = "/registry/clusterroles/editor")
              then Ok (mkClusterRole (witness_meta "editor") witness_owner None)
              else Err (NotFound k))
    (fun _ => Ok [])
    (fun _ => Ok [mkClusterRoleBinding (witness_meta "editors")
                    [mkSubject "Group" "dev" None None]
                    (mkRoleRef "rbac.authorization.k8s.io" "ClusterRole" "editor")]).

Definition witness_user : UserInfo := mkUserInfo "jane" "" ["dev"] ∅.

Definition witness_ctx : RequestContext := mkRequestContext (Some "prod") (Some witness_user) None.

Definition witness_role : Role := mkRole (witness_meta "viewer") witness_servant.

Definition witness_attrs : RequestAttributes :=
  with_namespace (with_subresource (new_attrs witness_user "get" "nodes") "status") "prod".

Lemma accepted_write_grants_nothing_new_witness :
  exists reason, @check_rbac witness_format witness_storage witness_attrs = OAllow reason.
Proof.
  assert (Forall scoped_rule witness_servant) as Hs by (apply (bool_decide_unpack _); vm_compute; exact I).
  assert (Forall (fun o => resource_names o <> Some []) (@rules_for witness_format witness_storage witness_user "prod").1) as Ho
    by (apply (bool_decide_unpack _); vm_compute; exact I).
  rewrite Forall_forall in Hs. rewrite Forall_forall in Ho.
  destruct (@accepted_write_grants_nothing_new witness_format witness_storage
           (fun _ => None) (fun _ => None) (fun _ => None) (fun _ => None)
           (@RBACAuthorizer witness_format witness_storage) witness_ctx
           (CreateRole witness_role) witness_attrs) as [H|[(r & Hr & _ & Hn & _)|(o & Hin & Hn & _)]];
    try (vm_compute; reflexivity); [right; reflexivity|split; reflexivity|exact H| |].
  - destruct (Hn (Hs r Hr)).
  - destruct (Ho o Hin Hn).
Defined.

(** The last gap is real: with a rule for no secret by name, the requester may
    write a role for every secret, and the authorizer allows them none by name. *)
Definition no_secret_by_name : PolicyRule := mkPolicyRule ["get"] (Some [""]) (Some ["secrets"]) (Some []) None.

Definition gap_storage : RbacStorage :=
  Build_RbacStorage (fun _ => Err (NotFound "role"))
    (fun k => if decide (k = "/registry/clusterroles/editor")
              then Ok (mkClusterRole (witness_meta "editor") [no_secret_by_name] None)
              else Err (NotFound k))
    (fun _ => Ok [])
    (fun _ => Ok [mkClusterRoleBinding (witness_meta "editors")
                    [mkSubject "Group" "dev" None None]
                    (mkRoleRef "rbac.authorization.k8s.io" "ClusterRole" "editor")]).

Definition secret_reader : Role := mkRole (witness_meta "reader") [unnamed no_secret_by_name].

Definition read_secret : RequestAttributes :=
  with_name (with_namespace (new_attrs witness_user "get" "secrets") "prod") "token".

Lemma empty_names_escalate :
  let auth := @RBACAuthorizer witness_format gap_storage in
  @accepted witness_format gap_storage (fun _ => None) (fun _ => None) (fun _ => None) (fun _ => None)
    auth witness_ctx (CreateRole secret_reader) = true /\
  @exempted (fun _ => None) (fun _ => None) (fun _ => None) (fun _ => None)
    auth witness_ctx (CreateRole secret_reader) = false /\
  check_policy_rules (role_rules secret_reader) read_secret = true /\
  ~ exists reason, @check_rbac witness_format gap_storage read_secret = OAllow reason.
Proof. split_and!; [vm_compute; reflexivity..|]. intros [r Hr]. vm_compute in Hr. discriminate Hr. Qed.

(** ** The union of authorizers *)

(** The authorizer abstains: no opinion, or an error. *)
Definition abstains (a : RequestAttributes) (auth : Authorizer) : bool :=
  match authorize_outcome auth a with
  | Ok o => match opinion o with ONoOpinion _ _ => true | _ => false end
  | Err _ => true
  end.

Lemma union_loop_abstain a pre : forall reasons errors rest,
  forallb (abstains a) pre = true ->
  exists reasons' errors', union_loop a reasons errors (pre ++ rest) = union_loop a reasons' errors' rest.
Proof.
  induction pre as [|auth pre IH]; intros reasons errors rest; simpl; [eauto|].
  rewrite andb_true_iff. intros [Ha Hpre]. unfold abstains in Ha.
  destruct (authorize_outcome auth a) as [o|]; [|apply IH; done].
  destruct (opinion o); [done..|]. by apply IH.
Qed.

Lemma union_loop_no_opinion a auths : forall reasons errors,
  forallb (abstains a) auths = true ->
  exists reason, opinion (union_loop a reasons errors auths) = ONoOpinion reason None.
Proof.
  intros reasons errors H.
  destruct (union_loop_abstain a auths reasons errors [] H) as (r & e & Hu).
  rewrite app_nil_r in Hu. rewrite Hu. simpl. eauto.
Qed.

(** The chain of authorizers decides as its first member that does not
    abstain, whatever the members before it failed with, and allows nothing when
    all abstain; and with the superuser authorizer in front a member of
    system:masters is always allowed, while for anybody else the chain answers
    as it does without it. *)
Theorem union_first_decision (auths rest : list Authorizer) a :
  (forall pre auth post o, auths = pre ++ auth :: post ->
     forallb (abstains a) pre = true -> authorize_outcome auth a = Ok o ->
     abstains a auth = false -> authorize_outcome (UnionAuthorizer auths) a = Ok o)
  /\ (forallb (abstains a) auths = true -> authorize (UnionAuthorizer auths) a <> Ok DAllow)
  /\ authorize_outcome (superuser_then rest) a
     = if decide (SYSTEM_PRIVILEGED_GROUP ∈ groups (user a)) then Ok (mkOutcome (OAllow "") None)
       else authorize_outcome (UnionAuthorizer rest) a.
Proof.
  split_and!.
  - intros pre auth post o -> Hpre Ho Hd. simpl.
    destruct (union_loop_abstain a pre [] [] (auth :: post) Hpre) as (r & e & ->).
    unfold abstains in Hd. simpl. rewrite Ho in Hd |- *. by destruct (opinion o).
  - intros H. simpl. destruct (union_loop_no_opinion a auths [] [] H) as [r Hr].
    unfold into_decision. rewrite Hr. by destruct (option_or _ _).
  - unfold superuser_then. cbn [authorize_outcome UnionAuthorizer union_loop].
    change (authorize_outcome (PrivilegedGroupAuthorizer [SYSTEM_PRIVILEGED_GROUP]) a)
      with (result_map from_opinion (authorize_opinion (PrivilegedGroupAuthorizer [SYSTEM_PRIVILEGED_GROUP]) a)).
    cbn [authorize_opinion PrivilegedGroupAuthorizer authorizer_of_opinion]. unfold privileged_authorize.
    destruct (existsb _ (groups (user a))) eqn:He.
    + apply existsb_exists in He as (g & Hg%list_elem_of_In & Hp).
      simpl in Hp. rewrite orb_false_r bool_decide_eq_true in Hp. subst.
      by destruct (decide _).
    + destruct (decide _) as [Hin|]; [|done]. exfalso.
      apply not_true_iff_false in He. apply He, existsb_exists.
      exists SYSTEM_PRIVILEGED_GROUP. rewrite -list_elem_of_In. by split.
Qed.

Lemma union_first_decision_witness :
  authorize_outcome (UnionAuthorizer [AlwaysDenyAuthorizer; AlwaysAllowAuthorizer; AlwaysDenyAuthorizer])
    witness_attrs = Ok (mkOutcome (OAllow "") None).
Proof.
  apply (proj1 (union_first_decision
    [AlwaysDenyAuthorizer; AlwaysAllowAuthorizer; AlwaysDenyAuthorizer] [] witness_attrs)
    [AlwaysDenyAuthorizer] AlwaysAllowAuthorizer [AlwaysDenyAuthorizer]); reflexivity.
Defined.

(** ** Rules that name only URLs *)

(** A rule that names only non-resource URLs, as validation requires such a
    rule to be written, allows its verbs on every resource of every group, with
    every name: the group and resource checks are skipped when the fields are
    absent. *)
Theorem url_rule_grants_every_resource rule fld a :
  validate_policy_rule rule false fld = [] -> rule_urls rule <> [] ->
  api_groups rule = None -> resources rule = None -> resource_names rule = None ->
  is_non_resource_request a = false -> listed (verb a) (verbs rule) ->
  rule_allows rule a = true.
Proof.
  intros _ _ Hg Hr Hn Ha Hv. apply rule_allows_resource; [done|].
  unfold allows_resource. rewrite Hg Hr Hn. naive_solver.
Qed.

(** The rule of the bootstrapped ClusterRole [system:public-info-viewer], bound to
    [system:unauthenticated]. *)
Definition public_info_viewer : PolicyRule :=
  mkPolicyRule ["get"] None None None
    (Some ["/healthz"; "/livez"; "/readyz"; "/version"; "/version/"]).

Definition anonymous_secret_read : RequestAttributes :=
  with_name (with_namespace
    (new_attrs (mkUserInfo "system:anonymous" "" ["system:unauthenticated"] ∅) "get" "secrets")
    "kube-system") "bootstrap-token".

Lemma url_rule_grants_every_resource_witness :
  rule_allows public_info_viewer anonymous_secret_read = true.
Proof.
  apply (url_rule_grants_every_resource public_info_viewer (index (path_new "rules") 0)); try reflexivity; try done.
  left. apply (bool_decide_unpack _). vm_compute. exact I.
Defined.

(** A URL that ends in a star, other than the star alone, allows no path that
    has no star in it, although [non_resource_url_covers] reads it as a prefix. *)
Lemma url_wildcard_matches_no_path url p v u :
  url <> "*" -> ends_with star url = true -> occurs star p = false ->
  rule_allows (mkPolicyRule [v] None None None (Some [url])) (new_non_resource u v p) = false.
Proof.
  intros Hs He Hp. unfold rule_allows. cbn [is_non_resource_request new_non_resource].
  destruct (_ && _); [done|]. cbn [non_resource_urls path new_non_resource existsb]. rewrite orb_false_r.
  apply ends_with_occurs in He.
  rewrite bool_decide_eq_false_2 // (bool_decide_eq_false_2 (url = p)) /=; [congruence|].
  destruct (String.prefix url p) eqn:Hpre; [|done].
  apply string_prefix_append in Hpre as [t ->]. by rewrite occurs_append He in Hp.
Qed.

(** ** The rules review *)

(** [get_user_rules] reads a service account subject without a namespace as no
    subject, where the authorizer takes the binding's namespace. *)
Definition local_account_storage : RbacStorage :=
  Build_RbacStorage (fun _ => Ok (mkRole (witness_meta "editor") witness_owner))
    (fun k => Err (NotFound k))
    (fun _ => Ok [mkRoleBinding (mkObjectMeta "editors" (Some "prod") "" None)
                    [mkSubject "ServiceAccount" "ci" None None]
                    (mkRoleRef "rbac.authorization.k8s.io" "Role" "editor")])
    (fun _ => Ok []).

Lemma rules_review_misses_local_account :
  let u := mkUserInfo "system:serviceaccount:prod:ci" "" [] ∅ in
  @get_user_rules local_account_storage u "prod" = Ok ([], [])
  /\ exists reason, @check_rbac witness_format local_account_storage
       (with_namespace (new_attrs u "get" "pods") "prod") = OAllow reason.
Proof. split; [vm_compute; reflexivity|]. eexists. vm_compute. reflexivity. Qed.

(** ** Compaction *)

(** Rules with the same simple key, none with an empty name list, allow the same
    requests up to their verbs. *)
Lemma simple_rule_fields r sr :
  is_simple_resource_rule r = Some sr -> resource_names r <> Some [] ->
  api_groups r = Some [sr_group sr] /\ resources r = Some [sr_resource sr]
  /\ resource_names r = (fun n => [n]) <$> sr_resource_name sr /\ rule_urls r = [].
Proof.
  unfold is_simple_resource_rule, rule_groups, rule_resources, rule_names, rule_urls. intros H Hne.
  destruct (bool_decide (1 < _)) eqn:Hl; [done|]. apply bool_decide_eq_false in Hl.
  destruct (bool_decide (default [] (non_resource_urls r) <> [])) eqn:Hu; [done|].
  apply bool_decide_eq_false, dec_stable in Hu. simpl in H.
  destruct (api_groups r) as [[|g [|]]|]; try done.
  destruct (resources r) as [[|x [|]]|]; try done. injection H as <-. simpl.
  destruct (resource_names r) as [[|n [|]]|]; simpl in *; try done; lia.
Qed.

Lemma extend_verbs_allows r r' sr a :
  is_simple_resource_rule r = Some sr -> is_simple_resource_rule r' = Some sr ->
  resource_names r <> Some [] -> resource_names r' <> Some [] ->
  rule_allows (extend_verbs r (verbs r')) a = rule_allows r a || rule_allows r' a.
Proof.
  intros Hr Hr' Hn Hn'.
  destruct (simple_rule_fields r sr Hr Hn) as (Hg & Hs & Hm & Hu).
  destruct (simple_rule_fields r' sr Hr' Hn') as (Hg' & Hs' & Hm' & Hu').
  destruct (is_non_resource_request a) eqn:Ha.
  - assert (forall x, rule_urls x = [] -> rule_allows x a = false) as Hf.
    { intros x Hx. unfold rule_allows, rule_urls in *. rewrite Ha.
      destruct (_ && _); [done|]. destruct (non_resource_urls x), (path a); simpl in *; by subst. }
    rewrite !Hf //.
  - apply eq_true_iff_eq. rewrite orb_true_iff !rule_allows_resource //.
    unfold allows_resource, listed. cbn [verbs api_groups resources resource_names extend_verbs].
    rewrite Hg Hs Hm Hg' Hs' Hm' !elem_of_app. tauto.
Qed.

(** Every entry of [simple_rules] is keyed by its rule. *)
Definition keyed (srs : list (SimpleResource * PolicyRule)) : Prop :=
  Forall (fun p => is_simple_resource_rule p.2 = Some p.1 /\ resource_names p.2 <> Some []) srs.

Lemma add_simple_rule_spec sr rule srs a :
  keyed srs -> is_simple_resource_rule rule = Some sr -> resource_names rule <> Some [] ->
  keyed (add_simple_rule sr rule srs)
  /\ check_policy_rules (add_simple_rule sr rule srs).*2 a
     = check_policy_rules srs.*2 a || rule_allows rule a.
Proof.
  intros Hk Hs Hn. induction Hk as [|[sr' ex] srs [Hx Hxn] Hk [IHk IHc]]; cbn [add_simple_rule].
  { split; [by repeat constructor|]. simpl. by rewrite orb_false_r. }
  cbn [fst snd] in Hx, Hxn. destruct (decide (sr' = sr)) as [->|].
  - split; [by repeat constructor|]. cbn [fmap list_fmap check_policy_rules existsb snd].
    rewrite (extend_verbs_allows ex rule sr) //.
    rewrite -!orb_assoc. f_equal. apply orb_comm.
  - split; [by constructor|]. cbn [fmap list_fmap snd].
    change (check_policy_rules (ex :: ?l) a) with (rule_allows ex a || check_policy_rules l a).
    unfold check_policy_rules in *. cbn [existsb]. by rewrite IHc orb_assoc.
Qed.

Lemma compact_loop_spec a rules : forall compacted srs,
  keyed srs -> Forall (fun r => resource_names r <> Some []) rules ->
  check_policy_rules (compact_loop compacted srs rules) a
  = check_policy_rules compacted a || check_policy_rules srs.*2 a || check_policy_rules rules a.
Proof.
  induction rules as [|r rules IH]; intros compacted srs Hk Hn; cbn [compact_loop].
  { by rewrite check_policy_rules_app orb_false_r. }
  apply Forall_cons in Hn as [Hr Hn].
  assert (check_policy_rules (r :: rules) a = rule_allows r a || check_policy_rules rules a) as -> by done.
  destruct (is_simple_resource_rule r) as [sr|] eqn:Hs.
  - destruct (add_simple_rule_spec sr r srs a) as [Hk' Hc]; [done..|].
    rewrite IH // Hc. by rewrite !orb_assoc.
  - rewrite IH // check_policy_rules_app.
    assert (check_policy_rules [r] a = rule_allows r a) as -> by apply orb_false_r.
    rewrite -!orb_assoc. f_equal. rewrite !orb_assoc. f_equal. apply orb_comm.
Qed.

(** Compaction changes no permission: the merged rules allow exactly the
    requests the original rules allow, resource and non-resource ones. *)
Theorem compact_rules_equivalent rules a :
  Forall (fun r => resource_names r <> Some []) rules ->
  check_policy_rules (compact_rules rules) a = check_policy_rules rules a.
Proof. intros H. unfold compact_rules. by rewrite compact_loop_spec; [constructor| |]. Qed.

Lemma compact_rules_equivalent_witness :
  check_policy_rules (compact_rules (witness_owner ≫= breakdown_rule)) witness_attrs
  = check_policy_rules (witness_owner ≫= breakdown_rule) witness_attrs
  /\ length (compact_rules (witness_owner ≫= breakdown_rule))
     < length (witness_owner ≫= breakdown_rule).
Proof.
  split; [|vm_compute; lia]. apply compact_rules_equivalent.
  apply (bool_decide_unpack _). vm_compute. exact I.
Defined.
