(* ===== verification/LabelSelector.v ===== *)
(** * Label selectors

    Model of [crates/common/src/label_selector.rs]: the lexer, the recursive
    descent parser, the requirements and their validation, matching and text.

    - The lexer's state [(s, pos)] is the input from [pos] on: [read] takes its
      head (0 at the end) and [unread], which always follows the [read] of a byte
      that is not 0, puts it back.
    - The parser's state [(scanned_items, position)] is the items from [position]
      on; [item] past the end is the end of the string.
    - [scan] and [parse_loop] run on fuel, [None] when it runs out; the fuel of
      [parse] is one more than the length of the input, which is always enough. *)

From Stdlib Require Import Ascii.
From stdpp Require Import strings pretty sorting.
From S2P Require Import Prelude RustText BTree Json FieldErrors Regex Authz Metav1 Quantity.

Local Open Scope rust_scope.
Local Open Scope nat_scope.

(** ** The lexer *)

Inductive Token :=
| TError | EndOfString | ClosedPar | Comma | TDoesNotExist | TDoubleEquals | TEquals
| TGreaterThan | Identifier | TIn | TLessThan | TNotEquals | TNotIn | OpenPar.

#[export] Instance Token_eq_dec : EqDecision Token.
Proof. solve_decision. Defined.

Definition string2token (s : string) : option Token :=
  if decide (s = ")") then Some ClosedPar
  else if decide (s = ",") then Some Comma
  else if decide (s = "!") then Some TDoesNotExist
  else if decide (s = "==") then Some TDoubleEquals
  else if decide (s = "=") then Some TEquals
  else if decide (s = ">") then Some TGreaterThan
  else if decide (s = "in") then Some TIn
  else if decide (s = "<") then Some TLessThan
  else if decide (s = "!=") then Some TNotEquals
  else if decide (s = "notin") then Some TNotIn
  else if decide (s = "(") then Some OpenPar
  else None.

Definition NUL : ascii := ascii_of_nat 0.

Definition is_whitespace (ch : ascii) : bool :=
  bool_decide (ch ∈ [" "%char; ascii_of_nat 9; ascii_of_nat 13; ascii_of_nat 10]).

Definition is_special_symbol (ch : ascii) : bool :=
  bool_decide (ch ∈ ["="%char; "!"%char; "("%char; ")"%char; ","%char; ">"%char; "<"%char]).

Definition Item : Type := Token * string.

(** The loop of [scanIDOrKeyword]: the buffer and the rest of the input. *)
Fixpoint scan_id (s : string) : string * string :=
  match s with
  | EmptyString => ("", "")
  | String ch s' =>
      if decide (ch = NUL) then ("", s')
      else if is_special_symbol ch || is_whitespace ch then ("", s)
      else let '(buffer, rest) := scan_id s' in (String ch buffer, rest)
  end.

Definition scan_id_or_keyword (s : string) : Item * string :=
  let '(buffer, rest) := scan_id s in
  match string2token buffer with
  | Some tok => ((tok, buffer), rest)
  | None => ((Identifier, buffer), rest)
  end.

(** The loop of [scanSpecialSymbol]. *)
Fixpoint scan_special (last : option Item) (buffer s : string) : option Item * string * string :=
  match s with
  | EmptyString => (last, buffer, "")
  | String ch s' =>
      if decide (ch = NUL) then (last, buffer, s')
      else if is_special_symbol ch then
        let buffer := buffer +:+ String ch "" in
        match string2token buffer with
        | Some token => scan_special (Some (token, buffer)) buffer s'
        | None =>
            match last with
            | Some _ => (last, buffer, s)
            | None => scan_special None buffer s'
            end
        end
      else (last, buffer, s)
  end.

Definition scan_special_symbol (s : string) : Item * string :=
  let '(last, buffer, rest) := scan_special None "" s in
  match last with
  | Some item => (item, rest)
  | None => ((TError, "error expected: keyword found '" +:+ buffer +:+ "'"), rest)
  end.

Fixpoint skip_white_spaces (s : string) : string :=
  match s with
  | String ch s' => if is_whitespace ch then skip_white_spaces s' else s
  | EmptyString => ""
  end.

Definition lex (s : string) : Item * string :=
  match skip_white_spaces s with
  | EmptyString => ((EndOfString, ""), "")
  | String ch s' as rest =>
      if decide (ch = NUL) then ((EndOfString, ""), s')
      else if is_special_symbol ch then scan_special_symbol rest
      else scan_id_or_keyword rest
  end.

Fixpoint scan (fuel : nat) (s : string) : option (list Item) :=
  match fuel with
  | 0 => None
  | S fuel =>
      let '(item, rest) := lex s in
      if decide (item.1 = EndOfString) then Some [item]
      else items ← scan fuel rest; Some (item :: items)
  end.

(** ** Requirements *)

Inductive LabelOperator :=
| OEquals | ODoubleEquals | ONotEquals | OIn | ONotIn | OExists | ODoesNotExist
| OGreaterThan | OLessThan.

#[export] Instance LabelOperator_eq_dec : EqDecision LabelOperator.
Proof. solve_decision. Defined.

Record LabelRequirement := mkLabelRequirement {
  req_key : string;
  req_operator : LabelOperator;
  req_values : option (list string)
}.

Definition BINARY_OPERATORS : list string := ["in"; "notin"; "="; "=="; "!="; "gt"; "lt"].

(** [s.parse::<i64>()]. *)
Definition parse_i64 (s : string) : option Z :=
  let '(sign, ds) :=
    match s with
    | String c s' =>
        if decide (c = "+"%char) then (1%Z, s')
        else if decide (c = "-"%char) then ((-1)%Z, s') else (1%Z, s)
    | EmptyString => (1%Z, s)
    end in
  if all_digits ds then
    let v := (sign * dec_value 0 ds)%Z in
    if decide (- 2 ^ 63 <= v < 2 ^ 63)%Z then Some v else None
  else None.

Definition validate_label_key (k : string) (p : Path) : result unit FieldError :=
  let errs := is_qualified_name k in
  if decide (errs = []) then Ok tt else Err (invalid p (BvString k) (join "; " errs)).

Definition validate_label_value (k v : string) (p : Path) : result unit FieldError :=
  let errs := is_valid_label_value v in
  if decide (errs = []) then Ok tt else Err (invalid (key p k) (BvString v) (join "; " errs)).

Definition errs_of (r : result unit FieldError) : list FieldError :=
  match r with Ok _ => [] | Err e => [e] end.

(** The checks of [validate_at] that depend on the operator. *)
Definition operator_errors (value_path : Path) (op : LabelOperator) (vals : list string)
    : list FieldError :=
  match op with
  | OIn | ONotIn =>
      if decide (vals = []) then
        [invalid value_path (bad_strings vals)
           "for 'in', 'notin' operators, values set can't be empty"] else []
  | OEquals | ODoubleEquals | ONotEquals =>
      if decide (length vals <> 1) then
        [invalid value_path (bad_strings vals)
           "exact-match compatibility requires one single value"] else []
  | OExists | ODoesNotExist =>
      if decide (vals <> []) then
        [invalid value_path (bad_strings vals)
           "values set must be empty for exists and does not exist"] else []
  | OGreaterThan | OLessThan =>
      (if decide (length vals <> 1) then
         [invalid value_path (bad_strings vals)
            "for 'Gt', 'Lt' operators, exactly one value is required"] else [])
      ++ concat (imap (fun i v =>
           match parse_i64 v with
           | Some _ => []
           | None => [invalid (index value_path i) (BvString v)
                        "for 'Gt', 'Lt' operators, the value must be an integer"]
           end) vals)
  end.

Definition validate_at (p : Path) (k : string) (op : LabelOperator) (vals : list string)
    : list FieldError :=
  let value_path := child p "values" in
  errs_of (validate_label_key k (child p "key"))
  ++ operator_errors value_path op vals
  ++ concat (imap (fun i v => errs_of (validate_label_value k v (index value_path i))) vals).

Definition has_value (r : LabelRequirement) (v : string) : bool :=
  match req_values r with Some vs => existsb (fun s => bool_decide (s = v)) vs | None => false end.

Definition req_matches (r : LabelRequirement) (labels : gmap string string) : bool :=
  match req_operator r with
  | OIn | OEquals | ODoubleEquals =>
      match labels !! req_key r with Some v => has_value r v | None => false end
  | ONotIn | ONotEquals =>
      match labels !! req_key r with Some v => negb (has_value r v) | None => true end
  | OExists => bool_decide (is_Some (labels !! req_key r))
  | ODoesNotExist => negb (bool_decide (is_Some (labels !! req_key r)))
  | OGreaterThan | OLessThan =>
      match labels !! req_key r ≫= parse_i64 with
      | None => false
      | Some ls_value =>
          match req_values r with
          | Some [v] =>
              match parse_i64 v with
              | None => false
              | Some r_value =>
                  (bool_decide (req_operator r = OGreaterThan) && (r_value <? ls_value)%Z)
                  || (bool_decide (req_operator r = OLessThan) && (ls_value <? r_value)%Z)
              end
          | _ => false
          end
      end
  end.

(** [Display for LabelRequirement]. *)
Definition req_to_string (r : LabelRequirement) : string :=
  (if decide (req_operator r = ODoesNotExist) then "!" else "") +:+ req_key r
  +:+ match req_operator r with
      | OExists | ODoesNotExist => ""
      | op =>
          match op with
          | OEquals => "="
          | ODoubleEquals => "=="
          | ONotEquals => "!="
          | OIn => " in "
          | ONotIn => " notin "
          | OGreaterThan => ">"
          | OLessThan => "<"
          | OExists | ODoesNotExist => ""
          end
          +:+ (if decide (op = OIn \/ op = ONotIn) then "(" else "")
          +:+ (let vals := default [] (req_values r) in
               match vals with
               | [v] => v
               | _ => join "," (merge_sort string_le vals)
               end)
          +:+ (if decide (op = OIn \/ op = ONotIn) then ")" else "")
      end.

(** ** Selectors *)

(** [LabelSelector] of [label_selector.rs]: its requirements. *)
Record Selector := mkSelector { requirements : list LabelRequirement }.

Definition selector_matches (sel : Selector) (labels : gmap string string) : bool :=
  forallb (fun r => req_matches r labels) (requirements sel).

(** The string fields of [metadata.labels]. *)
Definition resource_labels (resource : Json) : gmap string string :=
  let obj v := match v with JObject m => Some m | _ => None end in
  match (m ← obj resource; meta ← obj_get "metadata" m; mm ← obj meta;
         labels ← obj_get "labels" mm; obj labels) with
  | Some m =>
      list_to_map (omap (fun kv => match kv.2 with JString s => Some (kv.1, s) | _ => None end) m)
  | None => ∅
  end.

Definition matches_resource (sel : Selector) (resource : Json) : bool :=
  selector_matches sel (resource_labels resource).

Definition selector_to_string (sel : Selector) : string :=
  join "," (req_to_string <$> requirements sel).

(** ** The parser *)

Inductive ParserContext := KeyAndOperator | Values.

Definition adjust (tok : Token) (context : ParserContext) : Token :=
  match context, tok with
  | Values, (TIn | TNotIn) => Identifier
  | _, _ => tok
  end.

Definition item (items : list Item) : Item := default (EndOfString, "") (head items).

Definition lookahead (context : ParserContext) (items : list Item) : Item :=
  (adjust (item items).1 context, (item items).2).

Definition consume (context : ParserContext) (items : list Item) : Item * list Item :=
  (lookahead context items, tail items).

Section Parser.
Context `{!TextFormat, !JsonText}.

(** [aggregate_message]: each message once. *)
Definition aggregate_message (errs : list FieldError) : string :=
  match unique_errors (field_error_to_string <$> errs) with
  | [m] => m
  | seen => "[" +:+ join ", " seen +:+ "]"
  end.

(** [LabelRequirement::new]. *)
Definition new_requirement (k : string) (op : LabelOperator) (vals : list string)
    : result LabelRequirement string :=
  let all_errs := validate_at [] k op vals in
  if decide (all_errs = []) then
    Ok (mkLabelRequirement k op
          (match op with OExists | ODoesNotExist => None | _ => Some vals end))
  else Err (aggregate_message all_errs).

Definition parse_key_and_infer_operator (items : list Item)
    : result ((string * option LabelOperator) * list Item) string :=
  let '((tok, literal), items) := consume Values items in
  let '(operator, (tok, literal), items) :=
    if decide (tok = TDoesNotExist) then
      let '(it, items) := consume Values items in (Some ODoesNotExist, it, items)
    else (None, (tok, literal), items) in
  if decide (tok <> Identifier) then Err ("found '" +:+ literal +:+ "', expected: identifier")
  else
    try _ <- map_err field_error_to_string (validate_label_key literal []);
    let t := (lookahead Values items).1 in
    let operator :=
      if decide ((t = EndOfString \/ t = Comma) /\ operator <> Some ODoesNotExist)
      then Some OExists else operator in
    Ok ((literal, operator), items).

Definition parse_operator (items : list Item) : result (LabelOperator * list Item) string :=
  let '((tok, lit), items) := consume KeyAndOperator items in
  match tok with
  | TIn => Ok (OIn, items)
  | TEquals => Ok (OEquals, items)
  | TDoubleEquals => Ok (ODoubleEquals, items)
  | TGreaterThan => Ok (OGreaterThan, items)
  | TLessThan => Ok (OLessThan, items)
  | TNotIn => Ok (ONotIn, items)
  | TNotEquals => Ok (ONotEquals, items)
  | _ => Err ("found '" +:+ lit +:+ "', expected: " +:+ join ", " BINARY_OPERATORS)
  end.

(** [parse_identifiers_list]; the set so far is [s]. *)
Fixpoint parse_identifiers_list (s : list string) (items : list Item)
    : result (list string * list Item) string :=
  match items with
  | [] => Err ("found '" +:+ "" +:+ "', expected: ',', or identifier")
  | it :: rest =>
      let lit := it.2 in
      match adjust it.1 Values with
      | Identifier =>
          let s := btree_insert lit s in
          match lookahead Values rest with
          | (Comma, _) => parse_identifiers_list s rest
          | (ClosedPar, _) => Ok (s, rest)
          | (_, lit2) => Err ("found '" +:+ lit2 +:+ "', expected: ',' or ')'")
          end
      | Comma =>
          let s := if decide (s = []) then btree_insert "" s else s in
          match (lookahead Values rest).1 with
          | ClosedPar => Ok (btree_insert "" s, rest)
          | Comma => parse_identifiers_list (btree_insert "" s) rest
          | _ => parse_identifiers_list s rest
          end
      | _ => Err ("found '" +:+ lit +:+ "', expected: ',', or identifier")
      end
  end.

Definition parse_values (items : list Item) : result (list string * list Item) string :=
  let '((tok, lit), items) := consume Values items in
  if decide (tok <> OpenPar) then Err ("found '" +:+ lit +:+ "' expected: '('")
  else
    let '(tok, lit) := lookahead Values items in
    match tok with
    | Identifier | Comma =>
        try (s, items) <- parse_identifiers_list [] items;
        let '((tok, _), items) := consume Values items in
        if decide (tok <> ClosedPar) then Err ("found '" +:+ lit +:+ "', expected: ')'")
        else Ok (s, items)
    | ClosedPar => Ok ([""], (consume Values items).2)
    | _ => Err ("found '" +:+ lit +:+ "', expected: ',', ')' or identifier")
    end.

Definition parse_exact_value (items : list Item) : result (list string * list Item) string :=
  let tok := (lookahead Values items).1 in
  if decide (tok = EndOfString \/ tok = Comma) then Ok ([""], items)
  else
    let '((tok, lit), items) := consume Values items in
    if decide (tok = Identifier) then Ok ([lit], items)
    else Err ("found '" +:+ lit +:+ "', expected: identifier").

Definition parse_requirement (items : list Item) : result (LabelRequirement * list Item) string :=
  try ((k, operator), items) <- parse_key_and_infer_operator items;
  match operator with
  | Some ((OExists | ODoesNotExist) as op) =>
      try r <- new_requirement k op [];
      Ok (r, items)
  | _ =>
      try (op, items) <- parse_operator items;
      try (values, items) <- match op with
                             | OIn | ONotIn => parse_values items
                             | _ => parse_exact_value items
                             end;
      try r <- new_requirement k op values;
      Ok (r, items)
  end.

(** The loop of [Parser::parse]. *)
Fixpoint parse_loop (fuel : nat) (acc : list LabelRequirement) (items : list Item)
    : option (result (list LabelRequirement) string) :=
  match fuel with
  | 0 => None
  | S fuel =>
      match lookahead Values items with
      | ((Identifier | TDoesNotExist), _) =>
          match parse_requirement items with
          | Err e => Some (Err ("unable to parse requirement: " +:+ e))
          | Ok (r, items) =>
              let acc := acc ++ [r] in
              match consume Values items with
              | ((EndOfString, _), _) => Some (Ok acc)
              | ((Comma, _), items) =>
                  match lookahead Values items with
                  | ((Identifier | TDoesNotExist), _) => parse_loop fuel acc items
                  | (_, l2) => Some (Err ("found '" +:+ l2 +:+ "', expected: identifier after ','"))
                  end
              | ((_, l), _) =>
                  Some (Err ("found '" +:+ l +:+ "', expected: ',' or 'end of string'"))
              end
          end
      | (EndOfString, _) => Some (Ok acc)
      | (_, lit) =>
          Some (Err ("found '" +:+ lit +:+ "', expected: !, identifier, or 'end of string'"))
      end
  end.

(** [LabelSelector::parse]. *)
Definition parse (selector : string) : option (result Selector string) :=
  items ← scan (S (String.length selector)) selector;
  r ← parse_loop (S (length items)) [] items;
  Some (result_map (fun reqs => mkSelector (sort_by_key req_key reqs)) r).

End Parser.
