(* ===== verification/SelectorProps.v ===== *)
(** * Properties of label selectors

    The parser terminates on every input; the text of a parsed selector parses
    back to it. *)

From Stdlib Require Import Ascii.
From stdpp Require Import strings pretty sorting.
From S2P Require Import Prelude RustText BTree Json FieldErrors Regex Authz Metav1 Quantity LabelSelector.

Local Open Scope rust_scope.
Local Open Scope nat_scope.

(** ** The lexer advances *)

Lemma scan_id_length s : String.length (scan_id s).2 <= String.length s.
Proof.
  induction s as [|ch s IH]; cbn [scan_id]; [done|].
  destruct (decide (ch = NUL)); [simpl; lia|]. destruct (_ || _); [done|].
  destruct (scan_id s) as [b r]. simpl in *. lia.
Qed.

Lemma scan_special_length s : forall last buffer,
  String.length (scan_special last buffer s).2 <= String.length s.
Proof.
  induction s as [|ch s IH]; intros last buffer; cbn [scan_special]; [done|].
  destruct (decide (ch = NUL)); [simpl; lia|].
  destruct (is_special_symbol ch); [|done].
  assert (forall l b, String.length (scan_special l b s).2 <= String.length (String ch s)) as IH'.
  { intros l b. specialize (IH l b). simpl. lia. }
  destruct (string2token _); [apply IH'|]. destruct last; [done|apply IH'].
Qed.

(** Every special symbol is a token of its own, so [scanSpecialSymbol] always
    finds one: its error branch is never taken. *)
Lemma special_is_token ch :
  is_special_symbol ch = true -> ch <> NUL /\ is_Some (string2token (String ch "")).
Proof.
  unfold is_special_symbol. rewrite bool_decide_eq_true. intros H.
  repeat (apply elem_of_cons in H as [->|H]; [split; [done|]; vm_compute; eauto|]).
  by apply elem_of_nil in H.
Qed.

Lemma scan_special_last s : forall item buffer,
  is_Some (scan_special (Some item) buffer s).1.1.
Proof.
  induction s as [|ch s IH]; intros item buffer; cbn [scan_special]; [eauto|].
  destruct (decide (ch = NUL)); [eauto|]. destruct (is_special_symbol ch); [|eauto].
  destruct (string2token _); eauto.
Qed.

Lemma scan_special_symbol_advances ch s :
  is_special_symbol ch = true ->
  String.length (scan_special_symbol (String ch s)).2 <= String.length s.
Proof.
  intros Hch. destruct (special_is_token ch Hch) as [Hn [tok Ht]].
  unfold scan_special_symbol. cbn [scan_special]. rewrite decide_False // Hch.
  change ("" +:+ String ch "") with (String ch ""). rewrite Ht.
  pose proof (scan_special_length s (Some (tok, String ch "")) (String ch "")) as Hl.
  destruct (scan_special _ _ s) as [[last b] r]. by destruct last.
Qed.

Lemma skip_white_spaces_length s : String.length (skip_white_spaces s) <= String.length s.
Proof.
  induction s as [|ch s IH]; [done|]. cbn [skip_white_spaces]. destruct (is_whitespace ch); simpl; lia.
Qed.

Lemma skip_white_spaces_head s :
  match skip_white_spaces s with String ch _ => is_whitespace ch = false | EmptyString => True end.
Proof.
  induction s as [|ch s IH]; [done|]. cbn [skip_white_spaces]. by destruct (is_whitespace ch) eqn:H.
Qed.

Lemma lex_advances s :
  (lex s).1.1 = EndOfString \/ String.length (lex s).2 < String.length s.
Proof.
  unfold lex. pose proof (skip_white_spaces_length s) as Hl.
  pose proof (skip_white_spaces_head s) as Hh.
  destruct (skip_white_spaces s) as [|ch r]; [by left|].
  destruct (decide (ch = NUL)) as [|Hn]; [by left|]. right. simpl in Hl.
  destruct (is_special_symbol ch) eqn:Hs.
  - pose proof (scan_special_symbol_advances ch r Hs). lia.
  - unfold scan_id_or_keyword. cbn [scan_id]. rewrite decide_False // Hs Hh. simpl.
    pose proof (scan_id_length r). destruct (scan_id r) as [b t]. simpl in *.
    destruct (string2token _); simpl; lia.
Qed.

(** The items of an input, as a relation. *)
Inductive lexed : string -> list Item -> Prop :=
| lexed_end s it rest : lex s = (it, rest) -> it.1 = EndOfString -> lexed s [it]
| lexed_cons s it rest items :
    lex s = (it, rest) -> it.1 <> EndOfString -> lexed rest items -> lexed s (it :: items).

Lemma scan_lexed fuel s items : scan fuel s = Some items -> lexed s items.
Proof.
  revert s items; induction fuel as [|fuel IH]; intros s items; cbn [scan]; [done|].
  destruct (lex s) as [it rest] eqn:Hl. case_decide as He; [intros [= <-]; by eapply lexed_end|].
  intros H. inv_bind. eapply lexed_cons; eauto.
Qed.

Lemma lexed_scan s items : lexed s items ->
  forall fuel, String.length s < fuel -> scan fuel s = Some items.
Proof.
  induction 1 as [s it rest Hl He|s it rest items Hl He _ IH]; intros [|fuel] Hf; try lia;
    cbn [scan]; rewrite Hl.
  - by rewrite decide_True.
  - rewrite decide_False //. pose proof (lex_advances s) as Ha. rewrite Hl in Ha. simpl in Ha.
    destruct Ha; [done|]. rewrite IH; [lia|]. done.
Qed.

Lemma scan_total fuel s : String.length s < fuel -> is_Some (scan fuel s).
Proof.
  revert s; induction fuel as [|fuel IH]; intros s Hf; [lia|]. cbn [scan].
  pose proof (lex_advances s) as Ha. destruct (lex s) as [it rest]. simpl in Ha.
  case_decide; [eauto|]. destruct Ha as [|Ha]; [done|].
  destruct (IH rest) as [items ->]; [lia|]. simpl. eauto.
Qed.

(** ** The parser advances *)

Lemma tail_length {A} (l : list A) : length (tail l) <= length l.
Proof. destruct l; simpl; lia. Qed.

Section Advance.
Context `{TF : !TextFormat, JT : !JsonText}.

Lemma parse_identifiers_list_length items : forall s s' rest,
  parse_identifiers_list s items = Ok (s', rest) -> length rest <= length items.
Proof.
  induction items as [|it items IH]; intros s s' rest H; cbn [parse_identifiers_list] in H; [done|].
  simpl. repeat case_match; simplify_eq; try lia; apply IH in H; lia.
Qed.

Lemma parse_values_length items s rest :
  parse_values items = Ok (s, rest) -> length rest <= length items.
Proof.
  unfold parse_values, consume. intros H. pose proof (tail_length items).
  pose proof (tail_length (tail items)).
  destruct (lookahead Values items) as [tok0 lit0]. case_decide; [done|].
  destruct (lookahead Values (tail items)) as [tok lit].
  destruct tok; try done; try (injection H as <- <-; simpl; lia).
  all: destruct (parse_identifiers_list [] (tail items)) as [[s1 r1]|] eqn:Hp; [|done].
  all: cbn [result_bind] in H; destruct (lookahead Values r1) as [tok1 lit1]; case_decide; [done|].
  all: injection H as <- <-; apply parse_identifiers_list_length in Hp; pose proof (tail_length r1); lia.
Qed.

Lemma parse_exact_value_length items s rest :
  parse_exact_value items = Ok (s, rest) -> length rest <= length items.
Proof.
  unfold parse_exact_value, consume. intros H. pose proof (tail_length items).
  case_decide; [by simplify_eq|]. destruct (lookahead Values items) as [tok lit].
  case_decide; by simplify_eq.
Qed.

Lemma parse_operator_length items op rest :
  parse_operator items = Ok (op, rest) -> length rest <= length items.
Proof.
  unfold parse_operator, consume. intros H. pose proof (tail_length items).
  destruct (lookahead KeyAndOperator items) as [tok lit]. by destruct tok; simplify_eq.
Qed.

Lemma parse_key_length items ko rest :
  parse_key_and_infer_operator items = Ok (ko, rest) -> length rest <= length (tail items).
Proof.
  unfold parse_key_and_infer_operator, consume. intros H.
  pose proof (tail_length (tail items)).
  destruct (lookahead Values items) as [tok lit].
  destruct (decide (tok = TDoesNotExist)).
  - destruct (lookahead Values (tail items)) as [tok2 lit2]. case_decide; [done|].
    destruct (map_err _ _); [|done]. simpl in H. simplify_eq. lia.
  - case_decide; [done|]. destruct (map_err _ _); [|done]. simpl in H. simplify_eq. lia.
Qed.

Lemma parse_requirement_length items r rest :
  parse_requirement items = Ok (r, rest) -> length rest <= length (tail items).
Proof.
  unfold parse_requirement. intros H.
  destruct (parse_key_and_infer_operator items) as [[[k op] items1]|] eqn:Hk; [|done].
  apply parse_key_length in Hk. cbn [result_bind] in H.
  assert (forall ops, (try (op0, items2) <- parse_operator items1;
     try (values, items3) <- match op0 with
                             | OIn | ONotIn => parse_values items2
                             | _ => parse_exact_value items2 end;
     try r0 <- new_requirement k op0 values; Ok (r0, items3)) = Ok (r, ops) ->
     length ops <= length (tail items)) as Hbin.
  { intros ops Ho. destruct (parse_operator items1) as [[op0 items2]|] eqn:Hp; [|done].
    apply parse_operator_length in Hp. cbn [result_bind] in Ho.
    destruct (match op0 with OIn | ONotIn => _ | _ => _ end) as [[vs items3]|] eqn:Hv; [|done].
    cbn [result_bind] in Ho. destruct (new_requirement _ _ _); [|done]. simpl in Ho. simplify_eq.
    assert (length ops <= length items2); [|lia].
    destruct op0; eauto using parse_values_length, parse_exact_value_length. }
  destruct op as [[]|]; try (by apply Hbin);
    destruct (new_requirement _ _ _); simplify_eq/=; lia.
Qed.

Lemma parse_loop_total fuel : forall acc items,
  length items < fuel -> is_Some (parse_loop fuel acc items).
Proof.
  induction fuel as [|fuel IH]; intros acc items Hf; [lia|]. cbn [parse_loop].
  assert (is_Some
    (match parse_requirement items with
     | Err e => Some (Err ("unable to parse requirement: " +:+ e))
     | Ok (r, items) =>
         let acc := acc ++ [r] in
         match consume Values items with
         | ((EndOfString, _), _) => Some (Ok acc)
         | ((Comma, _), items) =>
             match lookahead Values items with
             | ((Identifier | TDoesNotExist), _) => parse_loop fuel acc items
             | (_, l2) => Some (Err ("found '" +:+ l2 +:+ "', expected: identifier after ','"))
             end
         | ((_, l), _) => Some (Err ("found '" +:+ l +:+ "', expected: ',' or 'end of string'"))
         end
     end)) as Hreq.
  { destruct (parse_requirement items) as [[r rest]|] eqn:Hp; [|eauto].
    apply parse_requirement_length in Hp. unfold consume. cbn zeta.
    destruct (lookahead Values rest) as [tok lit] eqn:Hla.
    destruct tok; eauto. destruct (lookahead Values (tail rest)) as [tok2 lit2] eqn:Hl2.
    assert (tok2 = EndOfString \/ length (tail rest) < fuel) as [->|Hlt]; [|eauto|].
    { destruct items; simpl in *; [|right; pose proof (tail_length rest); lia].
      destruct rest; simpl in *; [|lia]. by injection Hl2 as <- _; left. }
    destruct tok2; eauto. }
  destruct (lookahead Values items) as [tok lit]. destruct tok; eauto.
Qed.

Lemma parse_is_total s : is_Some (parse s).
Proof.
  unfold parse. destruct (scan_total (S (String.length s)) s) as [items ->]; [lia|]. rewrite mbind_Some_.
  destruct (parse_loop_total (S (length items)) [] items) as [r ->]; [lia|]. rewrite mbind_Some_. eauto.
Qed.

End Advance.

(** Parsing a selector terminates with an answer on every input: each
    token takes at least one byte, each requirement at least one token, and no
    other loop of the lexer or the parser can go on without taking one. *)
Theorem selector_parse_terminates `{!TextFormat, !JsonText} (s : string) :
  exists r, parse s = Some r.
Proof. apply parse_is_total. Qed.

(** ** Lexing printed text *)

(** The next character ends a word: there is none, or it is special or blank. *)
Definition stops (t : string) : Prop :=
  match t with
  | EmptyString => True
  | String c _ => c <> NUL /\ is_special_symbol c || is_whitespace c = true
  end.

(** The next character does not extend the symbol. *)
Definition ends_symbol (sym t : string) : Prop :=
  match t with
  | EmptyString => True
  | String c _ =>
      c <> NUL /\ (is_special_symbol c = false \/ string2token (sym +:+ String c "") = None)
  end.

Lemma key_char_plain c :
  key_char c = true -> c <> NUL /\ is_special_symbol c = false /\ is_whitespace c = false.
Proof.
  destruct c as [[] [] [] [] [] [] [] []]; intros H; vm_compute in H; try discriminate H;
    repeat split; discriminate.
Qed.

Lemma scan_id_word w t :
  all_chars key_char w = true -> stops t -> scan_id (w +:+ t) = (w, t).
Proof.
  intros Hw Ht. induction w as [|c w IH].
  - change ("" +:+ t) with t. destruct t as [|c t]; [done|]. destruct Ht as [Hn Hs].
    cbn [scan_id]. by rewrite decide_False // Hs.
  - cbn [all_chars] in Hw. apply andb_true_iff in Hw as [Hc Hw].
    apply key_char_plain in Hc as (Hn & Hs & Hb).
    change (String c w +:+ t) with (String c (w +:+ t)). cbn [scan_id].
    by rewrite decide_False // Hs Hb /= IH.
Qed.

(** The item of a word: a keyword only for [in] and [notin]. *)
Definition word_item (w : string) : Item := (default Identifier (string2token w), w).

Lemma lex_word w t :
  w <> "" -> all_chars key_char w = true -> stops t -> lex (w +:+ t) = (word_item w, t).
Proof.
  intros Hne Hw Ht. pose proof (scan_id_word w t Hw Ht) as Hs.
  destruct w as [|c w]; [done|]. cbn [all_chars] in Hw. apply andb_true_iff in Hw as [Hc _].
  apply key_char_plain in Hc as (Hn & Hsp & Hb).
  unfold lex. change (String c w +:+ t) with (String c (w +:+ t)) in *. cbn [skip_white_spaces].
  rewrite Hb decide_False // Hsp. unfold scan_id_or_keyword, word_item. rewrite Hs.
  by destruct (string2token (String c w)).
Qed.

Lemma lex_space s : lex (" " +:+ s) = lex s.
Proof. done. Qed.

Lemma scan_special_ends tok sym t :
  ends_symbol sym t -> exists b, scan_special (Some (tok, sym)) sym t = (Some (tok, sym), b, t).
Proof.
  destruct t as [|c t]; [by exists sym|]. intros [Hn Hs]. cbn [scan_special].
  rewrite decide_False //. destruct (is_special_symbol c) eqn:Hc; [|by exists sym].
  destruct Hs as [|Hs]; [done|]. rewrite Hs. eauto.
Qed.

(** A one-character symbol. *)
Lemma lex_symbol1 c tok t :
  is_special_symbol c = true -> string2token (String c "") = Some tok ->
  ends_symbol (String c "") t -> lex (String c t) = ((tok, String c ""), t).
Proof.
  intros Hc Ht He. destruct (special_is_token c Hc) as [Hn _].
  assert (is_whitespace c = false) as Hb.
  { unfold is_special_symbol in Hc. rewrite bool_decide_eq_true in Hc.
    repeat (apply elem_of_cons in Hc as [->|Hc]; [done|]). by apply elem_of_nil in Hc. }
  unfold lex. cbn [skip_white_spaces]. rewrite Hb decide_False // Hc.
  unfold scan_special_symbol. cbn [scan_special]. rewrite decide_False // Hc.
  change ("" +:+ String c "") with (String c ""). rewrite Ht.
  by destruct (scan_special_ends tok (String c "") t He) as [b ->].
Qed.

(** A two-character symbol whose first character is a symbol too. *)
Lemma lex_symbol2 c1 c2 tok t :
  is_special_symbol c1 = true -> is_special_symbol c2 = true ->
  string2token (String c1 (String c2 "")) = Some tok ->
  ends_symbol (String c1 (String c2 "")) t ->
  lex (String c1 (String c2 t)) = ((tok, String c1 (String c2 "")), t).
Proof.
  intros Hc Hc2 Ht He. destruct (special_is_token c1 Hc) as [Hn [tok1 Ht1]].
  destruct (special_is_token c2 Hc2) as [Hn2 _].
  assert (is_whitespace c1 = false) as Hb.
  { unfold is_special_symbol in Hc. rewrite bool_decide_eq_true in Hc.
    repeat (apply elem_of_cons in Hc as [->|Hc]; [done|]). by apply elem_of_nil in Hc. }
  unfold lex. cbn [skip_white_spaces]. rewrite Hb decide_False // Hc.
  unfold scan_special_symbol. cbn [scan_special]. rewrite decide_False // Hc.
  change ("" +:+ String c1 "") with (String c1 ""). rewrite Ht1 decide_False // Hc2.
  change (String c1 "" +:+ String c2 "") with (String c1 (String c2 "")). rewrite Ht.
  by destruct (scan_special_ends tok (String c1 (String c2 "")) t He) as [b ->].
Qed.

(** The rest of a selector after a requirement. *)
Definition rest_text (t : string) : Prop := t = "" \/ exists u, t = "," +:+ u.

Lemma rest_stops t : rest_text t -> stops t.
Proof. intros [->|[u ->]]; done. Qed.

Lemma word_ends_symbol sym w t :
  all_chars key_char w = true -> ends_symbol sym t -> ends_symbol sym (w +:+ t).
Proof.
  intros Hw Ht. destruct w as [|c w]; [done|]. cbn [all_chars] in Hw.
  apply andb_true_iff in Hw as [Hc _]. apply key_char_plain in Hc as (Hn & Hs & _).
  change (String c w +:+ t) with (String c (w +:+ t)). simpl. auto.
Qed.

Lemma rest_ends_symbol sym t :
  string2token (sym +:+ ",") = None -> rest_text t -> ends_symbol sym t.
Proof. intros Hs [->|[u ->]]; simpl; [done|]. split; [done|by right]. Qed.

(** ** The items of a printed requirement *)

Definition opt_word (v : string) : list Item := if decide (v = "") then [] else [word_item v].

Fixpoint values_items (vs : list string) : list Item :=
  match vs with
  | [] => []
  | [v] => opt_word v
  | v :: vs => opt_word v ++ (Comma, ",") :: values_items vs
  end.

Definition set_items (kw : Item) (vs : list string) : list Item :=
  kw :: (OpenPar, "(") :: values_items vs ++ [(ClosedPar, ")")].

Definition raw_items (k : string) (op : LabelOperator) (vs : list string) : list Item :=
  let v := default "" (head vs) in
  match op with
  | OExists => [word_item k]
  | ODoesNotExist => [(TDoesNotExist, "!"); word_item k]
  | OEquals => word_item k :: (TEquals, "=") :: opt_word v
  | ODoubleEquals => word_item k :: (TDoubleEquals, "==") :: opt_word v
  | ONotEquals => word_item k :: (TNotEquals, "!=") :: opt_word v
  | OGreaterThan => word_item k :: (TGreaterThan, ">") :: opt_word v
  | OLessThan => word_item k :: (TLessThan, "<") :: opt_word v
  | OIn => word_item k :: set_items (TIn, "in") vs
  | ONotIn => word_item k :: set_items (TNotIn, "notin") vs
  end.

(** [lexes s items t]: lexing [s] yields [items] and leaves [t]. *)
Inductive lexes : string -> list Item -> string -> Prop :=
| lexes_nil t : lexes t [] t
| lexes_cons s it rest items t :
    lex s = (it, rest) -> it.1 <> EndOfString -> lexes rest items t -> lexes s (it :: items) t.

Lemma lexes_app s l t l' u : lexes s l t -> lexes t l' u -> lexes s (l ++ l') u.
Proof. induction 1; intros H'; simpl; eauto using lexes_cons. Qed.

Lemma lexes_lexed s l t l' : lexes s l t -> lexed t l' -> lexed s (l ++ l').
Proof. induction 1; intros H'; simpl; eauto using lexed_cons. Qed.

Lemma word_item_token w : (word_item w).1 <> EndOfString.
Proof. unfold word_item, string2token. repeat (case_decide; [done|]). done. Qed.

Lemma lexes_word w t :
  w <> "" -> all_chars key_char w = true -> stops t -> lexes (w +:+ t) [word_item w] t.
Proof.
  intros. eapply lexes_cons; [by apply lex_word|apply word_item_token|constructor].
Qed.

Lemma lexes_opt_word v t : all_chars key_char v = true -> stops t -> lexes (v +:+ t) (opt_word v) t.
Proof.
  intros Hv Ht. unfold opt_word. case_decide; [subst; constructor|by apply lexes_word].
Qed.

Lemma lexes_values vs t :
  Forall (fun v => all_chars key_char v = true) vs ->
  lexes (join "," vs +:+ ")" +:+ t) (values_items vs) (")" +:+ t).
Proof.
  induction 1 as [|v vs Hv Hvs IH]; [constructor|].
  destruct vs as [|v2 vs]; [by apply lexes_opt_word|].
  change (join "," (v :: v2 :: vs)) with (v +:+ "," +:+ join "," (v2 :: vs)).
  change (values_items (v :: v2 :: vs)) with (opt_word v ++ (Comma, ",") :: values_items (v2 :: vs)).
  rewrite !string_append_assoc. eapply lexes_app; [by apply lexes_opt_word|].
  eapply lexes_cons; [|done|exact IH]. apply lex_symbol1; [done..|].
  assert (all_chars key_char v2 = true) by by apply Forall_cons in Hvs as [? _].
  destruct vs as [|v3 vs].
  - apply (word_ends_symbol "," v2); [done|]. split; [done|by right].
  - change (join "," (v2 :: v3 :: vs)) with (v2 +:+ "," +:+ join "," (v3 :: vs)).
    rewrite !string_append_assoc. apply word_ends_symbol; [done|]. split; [done|by right].
Qed.

(** ** Well-formed requirements *)

(** What [LabelRequirement::new] returns on sorted values. *)
Definition req_ok (r : LabelRequirement) : Prop :=
  exists vals, validate_at [] (req_key r) (req_operator r) vals = []
    /\ strictly_sorted vals
    /\ req_values r = match req_operator r with OExists | ODoesNotExist => None | _ => Some vals end.

Lemma errs_of_key k p : errs_of (validate_label_key k p) = [] <-> is_qualified_name k = [].
Proof. unfold validate_label_key. case_decide; naive_solver. Qed.

Lemma errs_of_value k v p : errs_of (validate_label_value k v p) = [] <-> is_valid_label_value v = [].
Proof. unfold validate_label_value. case_decide; naive_solver. Qed.

Lemma concat_imap_nil {A B} (f : nat -> A -> list B) l :
  concat (imap f l) = [] -> forall x, x ∈ l -> exists i, f i x = [].
Proof.
  revert f; induction l as [|y l IH]; intros f H x Hx; [by apply elem_of_nil in Hx|].
  simpl in H. apply app_nil in H as [Hy H]. apply elem_of_cons in Hx as [->|Hx]; [by exists 0|].
  destruct (IH (f ∘ S) H x Hx) as [i Hi]. by exists (S i).
Qed.

Lemma validate_at_ok p k op vals :
  validate_at p k op vals = [] ->
  is_qualified_name k = [] /\ Forall (fun v => is_valid_label_value v = []) vals
  /\ operator_errors (child p "values") op vals = [].
Proof.
  unfold validate_at. intros [Hk [Ho Hv]%app_nil]%app_nil. split_and!; [by eapply errs_of_key| |done].
  rewrite Forall_forall. intros v Hin. apply (concat_imap_nil _ _ Hv) in Hin as [i Hi].
  by eapply errs_of_value.
Qed.

(** What validation says of the values of a requirement, in any order. *)
Lemma valid_values p k op vs :
  validate_at p k op vs = [] ->
  Forall (fun v => all_chars key_char v = true) vs
  /\ match op with
     | OExists | ODoesNotExist => vs = []
     | OIn | ONotIn => vs <> []
     | _ => exists v, vs = [v]
     end.
Proof.
  intros (_ & Hvals & Ho)%validate_at_ok. split.
  { eapply Forall_impl; [done|]. apply label_value_chars. }
  destruct op; cbn [operator_errors] in Ho;
    try (destruct vs; [done|by intros [=]]); try (destruct vs; [done|by case_decide]).
  all: destruct vs as [|v [|]]; try (by eauto); try (by case_decide).
Qed.

Lemma valid_key p k op vs :
  validate_at p k op vs = [] -> k <> "" /\ all_chars key_char k = true.
Proof. intros (Hk & _)%validate_at_ok. by apply qualified_name_ok. Qed.

(** Sorting sorted values changes nothing. *)
Lemma merge_sort_sorted l : strictly_sorted l -> merge_sort string_le l = l.
Proof.
  intros Hs. apply (StronglySorted_unique string_le).
  - apply StronglySorted_merge_sort; apply _.
  - induction Hs; constructor; [done|]. eapply Forall_impl; [done|].
    intros x Hx. apply string_le_lt. by right.
  - apply merge_sort_Permutation.
Qed.

Lemma printed_values vs : strictly_sorted vs ->
  match vs with [v] => v | _ => join "," (merge_sort string_le vs) end = join "," vs.
Proof. intros Hs. destruct vs as [|v [|]]; [done..|]. by rewrite merge_sort_sorted. Qed.

(** ** A printed requirement lexes to its items *)

Lemma lexes_exact sym tok k v t :
  k <> "" -> all_chars key_char k = true -> all_chars key_char v = true -> rest_text t ->
  stops (sym +:+ v +:+ t) ->
  (forall u, ends_symbol sym u -> lex (sym +:+ u) = ((tok, sym), u)) ->
  tok <> EndOfString -> string2token (sym +:+ ",") = None ->
  lexes (k +:+ sym +:+ v +:+ t) (word_item k :: (tok, sym) :: opt_word v) t.
Proof.
  intros Hk Hkc Hv Ht Hst Hlex Htok Hsym.
  eapply (lexes_app _ [word_item k]); [by apply lexes_word|].
  eapply lexes_cons; [apply Hlex|done|by apply lexes_opt_word, rest_stops].
  by apply word_ends_symbol, rest_ends_symbol.
Qed.

Lemma lexes_set kw tok k vs t :
  k <> "" -> all_chars key_char k = true ->
  Forall (fun v => all_chars key_char v = true) vs -> rest_text t ->
  kw <> "" -> all_chars key_char kw = true -> string2token kw = Some tok -> tok <> EndOfString ->
  lexes (k +:+ " " +:+ kw +:+ " " +:+ "(" +:+ join "," vs +:+ ")" +:+ t)
    (word_item k :: set_items (tok, kw) vs) t.
Proof.
  intros Hk Hkc Hvs Ht Hkw Hkwc Hs Htok.
  eapply (lexes_app _ [word_item k]); [by apply lexes_word|].
  assert (word_item kw = (tok, kw)) as Hw by (unfold word_item; by rewrite Hs).
  unfold set_items. rewrite -Hw. eapply lexes_cons; [rewrite lex_space; by apply lex_word|by rewrite Hw|].
  eapply lexes_cons; [rewrite lex_space; apply lex_symbol1; [done..|]|done|].
  { destruct vs as [|v [|v2 vs]]; [split; [done|by right]| |];
      apply Forall_cons in Hvs as [Hv _];
      change (join "," (v :: v2 :: vs)) with (v +:+ "," +:+ join "," (v2 :: vs)) || simpl join;
      rewrite ?string_append_assoc; apply word_ends_symbol; try done; split; try done; by right. }
  eapply lexes_app; [by apply lexes_values|].
  eapply lexes_cons; [apply lex_symbol1; [done..|]|done|constructor].
  by apply (rest_ends_symbol ")").
Qed.

(** The text of a requirement, with its values in any order. *)
Definition raw_text (k : string) (op : LabelOperator) (vs : list string) : string :=
  let vs := join "," vs in
  match op with
  | OExists => k
  | ODoesNotExist => "!" +:+ k
  | OEquals => k +:+ "=" +:+ vs
  | ODoubleEquals => k +:+ "==" +:+ vs
  | ONotEquals => k +:+ "!=" +:+ vs
  | OGreaterThan => k +:+ ">" +:+ vs
  | OLessThan => k +:+ "<" +:+ vs
  | OIn => k +:+ " " +:+ "in" +:+ " " +:+ "(" +:+ vs +:+ ")"
  | ONotIn => k +:+ " " +:+ "notin" +:+ " " +:+ "(" +:+ vs +:+ ")"
  end.

Lemma req_to_string_raw r : strictly_sorted (default [] (req_values r)) ->
  req_to_string r = raw_text (req_key r) (req_operator r) (default [] (req_values r)).
Proof.
  intros Hs. unfold req_to_string, raw_text. rewrite printed_values //.
  destruct (req_operator r); simpl; rewrite ?append_empty //.
Qed.

Lemma lexes_raw k op vs t :
  validate_at [] k op vs = [] -> rest_text t -> lexes (raw_text k op vs +:+ t) (raw_items k op vs) t.
Proof.
  intros Hv Ht. destruct (valid_key _ _ _ _ Hv) as [Hk Hkc].
  destruct (valid_values _ _ _ _ Hv) as [Hvs Hshape].
  unfold raw_text, raw_items. cbn zeta.
  destruct op; rewrite ?string_append_assoc.
  4-5: by apply lexes_set.
  4: by apply lexes_word; [..|apply rest_stops].
  4: eapply lexes_cons; [apply lex_symbol1; [done..|]|done|by apply lexes_word; [..|apply rest_stops]];
     apply word_ends_symbol; [done|]; by apply rest_ends_symbol.
  all: destruct Hshape as [v ->]; apply Forall_cons in Hvs as [Hvc _];
    apply lexes_exact; try done; intros u Hu.
  all: first [by apply lex_symbol1|by apply lex_symbol2].
Qed.

Lemma raw_text_ends k op vs t :
  validate_at [] k op vs = [] -> ends_symbol "," (raw_text k op vs +:+ t).
Proof.
  intros Hv. destruct (valid_key _ _ _ _ Hv) as [Hk Hc].
  assert (forall u, ends_symbol "," (k +:+ u)) as Hkey.
  { intros u. destruct k as [|c k]; [done|]. cbn [all_chars] in Hc.
    apply andb_true_iff in Hc as [Hc _]. apply key_char_plain in Hc as (Hn & Hsp & _).
    change (String c k +:+ u) with (String c (k +:+ u)). simpl. auto. }
  unfold raw_text. destruct op; rewrite ?string_append_assoc; try apply Hkey.
  split; [done|by right].
Qed.

(** ** The items of a requirement parse to it *)

Section Roundtrip.
Context `{TF : !TextFormat, JT : !JsonText}.

Lemma string2token_key_char w :
  w <> "" -> all_chars key_char w = true ->
  string2token w = None \/ string2token w = Some TIn \/ string2token w = Some TNotIn.
Proof.
  intros Hne Hw. unfold string2token.
  repeat (case_decide; [subst; first [by vm_compute in Hw|by auto]|]). auto.
Qed.

Lemma adjust_word w :
  w <> "" -> all_chars key_char w = true -> adjust (word_item w).1 Values = Identifier.
Proof.
  intros Hne Hw. unfold word_item.
  destruct (string2token_key_char w Hne Hw) as [->|[->| ->]]; done.
Qed.

Lemma lookahead_word w items :
  w <> "" -> all_chars key_char w = true ->
  lookahead Values (word_item w :: items) = (Identifier, w).
Proof. intros. unfold lookahead, item. simpl head. simpl default. by rewrite adjust_word. Qed.

Lemma ids_word_comma s w rest :
  w <> "" -> all_chars key_char w = true ->
  parse_identifiers_list s (word_item w :: (Comma, ",") :: rest)
  = parse_identifiers_list (btree_insert w s) ((Comma, ",") :: rest).
Proof. intros. cbn [parse_identifiers_list]. by rewrite adjust_word. Qed.

Lemma ids_word_close s w rest :
  w <> "" -> all_chars key_char w = true ->
  parse_identifiers_list s (word_item w :: (ClosedPar, ")") :: rest)
  = Ok (btree_insert w s, (ClosedPar, ")") :: rest).
Proof. intros. cbn [parse_identifiers_list]. by rewrite adjust_word. Qed.

(** [set.extend(values)]. *)
Definition insert_all (s vs : list string) : list string := foldl (fun s v => btree_insert v s) s vs.

Lemma btree_insert_nonempty x l : btree_insert x l <> [].
Proof. destruct l; cbn [btree_insert]; [done|]. repeat case_match; done. Qed.

(** After the first value, a comma and the remaining values. *)
Lemma parse_identifiers_rest vs : forall s rest,
  s <> [] -> vs <> [] -> Forall (fun v => all_chars key_char v = true) vs ->
  parse_identifiers_list s ((Comma, ",") :: values_items vs ++ (ClosedPar, ")") :: rest)
  = Ok (insert_all s vs, (ClosedPar, ")") :: rest).
Proof.
  induction vs as [|v vs IH]; intros s rest Hs Hne Hvs; [done|].
  apply Forall_cons in Hvs as [Hv Hvs].
  assert (forall X, parse_identifiers_list s ((Comma, ",") :: X)
    = match (lookahead Values X).1 with
      | ClosedPar => Ok (btree_insert "" s, X)
      | Comma => parse_identifiers_list (btree_insert "" s) X
      | _ => parse_identifiers_list s X
      end) as Hcomma.
  { intros X. cbn [parse_identifiers_list fst]. change (adjust Comma Values) with Comma.
    by rewrite decide_False. }
  rewrite Hcomma. destruct vs as [|v2 vs].
  - cbn [values_items]. unfold opt_word. destruct (decide (v = "")) as [->|Hv']; cbn [app]; [done|].
    rewrite lookahead_word //. cbn [fst]. by rewrite ids_word_close.
  - change (values_items (v :: v2 :: vs)) with (opt_word v ++ (Comma, ",") :: values_items (v2 :: vs)).
    unfold opt_word. destruct (decide (v = "")) as [->|Hv']; cbn [app].
    + change (lookahead Values ((Comma, ",") :: _)).1 with Comma.
      rewrite (IH (btree_insert "" s)) //. apply btree_insert_nonempty.
    + rewrite lookahead_word //. cbn [fst]. rewrite ids_word_comma // IH //. apply btree_insert_nonempty.
Qed.

(** The whole value set between its parentheses. *)
Lemma parse_values_items vs rest :
  vs <> [] -> Forall (fun v => all_chars key_char v = true) vs ->
  parse_values ((OpenPar, "(") :: values_items vs ++ (ClosedPar, ")") :: rest)
  = Ok (insert_all [] vs, rest).
Proof.
  intros Hne Hvs. destruct vs as [|v vs]; [done|]. apply Forall_cons in Hvs as [Hv Hvs].
  unfold parse_values, consume.
  change (lookahead Values ((OpenPar, "(") :: _)) with (OpenPar, "("). cbn [tail].
  destruct (decide (OpenPar <> OpenPar)) as [|_]; [done|].
  destruct vs as [|v2 vs].
  - cbn [values_items]. unfold opt_word. destruct (decide (v = "")) as [->|Hv']; cbn [app]; [done|].
    rewrite lookahead_word // ids_word_close //.
  - change (values_items (v :: v2 :: vs)) with (opt_word v ++ (Comma, ",") :: values_items (v2 :: vs)).
    unfold opt_word. destruct (decide (v = "")) as [->|Hv']; cbn [app].
    + change (lookahead Values ((Comma, ",") :: _)) with (Comma, ",").
      assert (forall X, parse_identifiers_list [] ((Comma, ",") :: X)
                        = parse_identifiers_list [""] ((Comma, ",") :: X)) as -> by done.
      by rewrite parse_identifiers_rest.
    + rewrite lookahead_word // ids_word_comma //.
      by rewrite parse_identifiers_rest.
Qed.

Lemma sorted_app_lt s v vs : strictly_sorted (s ++ v :: vs) -> Forall (fun y => string_lt y v) s.
Proof.
  unfold strictly_sorted. induction s as [|y s IHs]; intros Hs; [constructor|].
  simpl in Hs. apply StronglySorted_inv in Hs as [Hs Hy]. constructor; [|auto].
  rewrite Forall_app Forall_cons in Hy. naive_solver.
Qed.

Lemma insert_all_sorted vs : strictly_sorted vs -> insert_all [] vs = vs.
Proof.
  enough (forall s, strictly_sorted (s ++ vs) -> insert_all s vs = s ++ vs) as H by apply (H []).
  induction vs as [|v vs IH]; intros s Hs; [by rewrite app_nil_r|].
  cbn [insert_all foldl]. rewrite btree_insert_last; [by eapply sorted_app_lt|].
  fold (insert_all (s ++ [v]) vs). rewrite IH; by rewrite -app_assoc.
Qed.

Lemma parse_exact_items v rest :
  all_chars key_char v = true -> lookahead Values rest = (EndOfString, "") \/ lookahead Values rest = (Comma, ",") ->
  parse_exact_value (opt_word v ++ rest) = Ok ([v], rest).
Proof.
  intros Hv Hr. unfold opt_word. destruct (decide (v = "")) as [->|Hne].
  - cbn [app]. unfold parse_exact_value. by destruct Hr as [-> | ->].
  - cbn [app]. unfold parse_exact_value, consume. rewrite lookahead_word //.
Qed.

Lemma new_requirement_ok k op vals :
  validate_at [] k op vals = [] ->
  new_requirement k op vals
  = Ok (mkLabelRequirement k op (match op with OExists | ODoesNotExist => None | _ => Some vals end)).
Proof. intros H. unfold new_requirement. by rewrite H. Qed.

(** What follows a requirement in the items: the end or a comma. *)
Definition rest_items (rest : list Item) : Prop :=
  lookahead Values rest = (EndOfString, "") \/ lookahead Values rest = (Comma, ",").

Lemma parse_key_items k rest :
  is_qualified_name k = [] ->
  parse_key_and_infer_operator (word_item k :: rest)
  = Ok ((k, if decide ((lookahead Values rest).1 = EndOfString \/ (lookahead Values rest).1 = Comma)
            then Some OExists else None), rest).
Proof.
  intros Hk. destruct (qualified_name_ok k Hk) as [Hne Hc].
  unfold parse_key_and_infer_operator, consume. rewrite lookahead_word //. cbn [tail].
  destruct (decide (Identifier = TDoesNotExist)) as [|_]; [done|].
  destruct (decide (Identifier <> Identifier)) as [|_]; [done|].
  unfold validate_label_key. rewrite Hk. cbn [map_err result_bind].
  destruct (decide ([] = [])) as [_|]; [|done]. cbn [map_err result_bind].
  set (t := (lookahead Values rest).1).
  destruct (decide (t = EndOfString \/ t = Comma)), (decide ((t = EndOfString \/ t = Comma) /\ _));
    naive_solver.
Qed.

Lemma parse_negated_key_items k rest :
  is_qualified_name k = [] ->
  parse_key_and_infer_operator ((TDoesNotExist, "!") :: word_item k :: rest)
  = Ok ((k, Some ODoesNotExist), rest).
Proof.
  intros Hk. destruct (qualified_name_ok k Hk) as [Hne Hc].
  unfold parse_key_and_infer_operator, consume.
  change (lookahead Values ((TDoesNotExist, "!") :: _)) with (TDoesNotExist, "!"). cbn [tail].
  destruct (decide (TDoesNotExist = TDoesNotExist)) as [_|]; [|done].
  rewrite lookahead_word //. destruct (decide (Identifier <> Identifier)) as [|_]; [done|].
  unfold validate_label_key. rewrite Hk. destruct (decide ([] = [])) as [_|]; [|done].
  cbn [map_err result_bind]. destruct (decide (_ /\ _)) as [[_ []]|_]; done.
Qed.

Lemma parse_binary_items k op sym body vals rest :
  validate_at [] k op vals = [] -> op <> OExists -> op <> ODoesNotExist ->
  ~ (adjust sym.1 Values = EndOfString \/ adjust sym.1 Values = Comma) ->
  parse_operator (sym :: body) = Ok (op, body) ->
  match op with OIn | ONotIn => parse_values body | _ => parse_exact_value body end = Ok (vals, rest) ->
  parse_requirement (word_item k :: sym :: body) = Ok (mkLabelRequirement k op (Some vals), rest).
Proof.
  intros Hval H1 H2 Hsym Hop Hb. pose proof (validate_at_ok _ _ _ _ Hval) as (Hk & _ & _).
  unfold parse_requirement. rewrite parse_key_items //.
  change (lookahead Values (sym :: body)).1 with (adjust sym.1 Values).
  destruct (decide (adjust sym.1 Values = EndOfString \/ adjust sym.1 Values = Comma)) as [|_]; [done|].
  cbn [result_bind]. rewrite Hop. cbn [result_bind]. rewrite Hb. cbn [result_bind].
  rewrite new_requirement_ok //. by destruct op.
Qed.

(** The values a requirement keeps: the set of those written. *)
Definition kept_values (op : LabelOperator) (vs : list string) : list string :=
  match op with OIn | ONotIn => insert_all [] vs | _ => vs end.

Lemma insert_all_elem x vs : forall s, x ∈ insert_all s vs <-> x ∈ s \/ x ∈ vs.
Proof.
  induction vs as [|v vs IH]; intros s; cbn [insert_all foldl]; [set_solver|].
  fold (insert_all (btree_insert v s) vs). rewrite IH btree_insert_elem elem_of_cons. naive_solver.
Qed.

Lemma concat_imap_all_nil {A B} (f : nat -> A -> list B) l :
  (forall i x, x ∈ l -> f i x = []) -> concat (imap f l) = [].
Proof.
  revert f; induction l as [|y l IH]; intros f H; [done|]. simpl.
  rewrite H; [left|]. apply (IH (f ∘ S)). intros i x Hx. apply H. by right.
Qed.

Lemma kept_values_valid k op vs :
  validate_at [] k op vs = [] -> validate_at [] k op (kept_values op vs) = [].
Proof.
  intros Hv. unfold kept_values. destruct op; try done.
  all: destruct (valid_values _ _ _ _ Hv) as [_ Hne];
    pose proof (validate_at_ok _ _ _ _ Hv) as (Hk & Hvals & _); unfold validate_at;
    rewrite (proj2 (errs_of_key _ _) Hk); cbn [app operator_errors].
  all: rewrite decide_False;
    [intros He; destruct vs as [|v vs]; [done|];
     assert (v ∈ insert_all [] (v :: vs)) as Hin by (apply insert_all_elem; right; left);
     rewrite He in Hin; by apply elem_of_nil in Hin|].
  all: cbn [app]; apply concat_imap_all_nil; intros i x Hx; apply errs_of_value;
    apply insert_all_elem in Hx as [Hx|Hx]; [by apply elem_of_nil in Hx|];
    rewrite Forall_forall in Hvals; auto.
Qed.

Definition raw_requirement (k : string) (op : LabelOperator) (vs : list string) : LabelRequirement :=
  mkLabelRequirement k op
    (match op with OExists | ODoesNotExist => None | _ => Some (kept_values op vs) end).

Lemma parse_raw k op vs rest :
  validate_at [] k op vs = [] -> rest_items rest ->
  parse_requirement (raw_items k op vs ++ rest) = Ok (raw_requirement k op vs, rest).
Proof.
  intros Hval Hrest. destruct (valid_values _ _ _ _ Hval) as [Hvs Hshape].
  pose proof (validate_at_ok _ _ _ _ Hval) as (Hk & _ & Ho).
  pose proof (kept_values_valid _ _ _ Hval) as Hkept.
  unfold raw_items, raw_requirement. destruct op; cbn [kept_values] in *.
  6: { unfold parse_requirement. cbn [app]. rewrite parse_key_items //.
       destruct (decide (_ \/ _)) as [_|Hn]; [|destruct Hn, Hrest as [-> | ->]; auto].
       cbn [result_bind]. subst vs. by rewrite new_requirement_ok. }
  6: { unfold parse_requirement. cbn [app]. rewrite parse_negated_key_items //.
       cbn [result_bind]. subst vs. by rewrite new_requirement_ok. }
  4,5: unfold set_items; cbn [app]; rewrite -app_assoc; cbn [app];
    apply parse_binary_items; [done..|by intros [[=]|[=]]|done|by apply parse_values_items].
  all: destruct Hshape as [v ->]; apply Forall_cons in Hvs as [Hvc _]; cbn [app head];
    apply parse_binary_items; [done..|by intros [[=]|[=]]|done|by apply parse_exact_items].
Qed.

Lemma raw_items_head k op vs rest :
  validate_at [] k op vs = [] ->
  exists l, lookahead Values (raw_items k op vs ++ rest) = (Identifier, l)
            \/ lookahead Values (raw_items k op vs ++ rest) = (TDoesNotExist, l).
Proof.
  intros Hv. destruct (valid_key _ _ _ _ Hv) as [Hk Hc]. unfold raw_items.
  destruct op; simpl app; rewrite ?lookahead_word //; eauto.
Qed.

(** A list of written requirements: key, operator and values. *)
Definition Raw : Type := string * LabelOperator * list string.
Definition raw_valid (e : Raw) : Prop := validate_at [] e.1.1 e.1.2 e.2 = [].
Definition text_of (e : Raw) : string := raw_text e.1.1 e.1.2 e.2.
Definition items_of (e : Raw) : list Item := raw_items e.1.1 e.1.2 e.2.
Definition req_of (e : Raw) : LabelRequirement := raw_requirement e.1.1 e.1.2 e.2.

Fixpoint raws_items (l : list Raw) : list Item :=
  match l with
  | [] => []
  | [e] => items_of e
  | e :: l => items_of e ++ (Comma, ",") :: raws_items l
  end.

Lemma parse_loop_raws l : forall fuel acc,
  Forall raw_valid l -> length l < fuel ->
  parse_loop fuel acc (raws_items l ++ [(EndOfString, "")]) = Some (Ok (acc ++ (req_of <$> l))).
Proof.
  induction l as [|e l IH]; intros [|fuel] acc Hl Hf; [simpl in Hf; lia| |simpl in Hf; lia|].
  { simpl. by rewrite app_nil_r. }
  apply Forall_cons in Hl as [He Hl].
  assert (forall rest, rest_items rest ->
    parse_loop (S fuel) acc (items_of e ++ rest)
    = match lookahead Values rest with
      | (EndOfString, _) => Some (Ok (acc ++ [req_of e]))
      | (Comma, _) =>
          match lookahead Values (tail rest) with
          | ((Identifier | TDoesNotExist), _) => parse_loop fuel (acc ++ [req_of e]) (tail rest)
          | (_, l2) => Some (Err ("found '" +:+ l2 +:+ "', expected: identifier after ','"))
          end
      | (_, l) => Some (Err ("found '" +:+ l +:+ "', expected: ',' or 'end of string'"))
      end) as Hstep.
  { intros rest Hrest. cbn [parse_loop]. unfold items_of.
    destruct (raw_items_head e.1.1 e.1.2 e.2 rest He) as [lit [-> | ->]];
      rewrite parse_raw //; unfold consume; by destruct Hrest as [-> | ->]. }
  destruct l as [|e2 l].
  - cbn [raws_items]. rewrite Hstep; [by left|]. done.
  - change (raws_items (e :: e2 :: l)) with (items_of e ++ (Comma, ",") :: raws_items (e2 :: l)).
    rewrite -app_assoc Hstep; [by right|]. cbn [app tail].
    change (lookahead Values ((Comma, ",") :: _)) with (Comma, ",").
    assert (exists lit, lookahead Values (raws_items (e2 :: l) ++ [(EndOfString, "")]) = (Identifier, lit)
      \/ lookahead Values (raws_items (e2 :: l) ++ [(EndOfString, "")]) = (TDoesNotExist, lit)) as [lit Hlit].
    { apply Forall_cons in Hl as [He2 _]. destruct l as [|e3 l]; [by apply raw_items_head|].
      change (raws_items (e2 :: e3 :: l)) with (items_of e2 ++ (Comma, ",") :: raws_items (e3 :: l)).
      rewrite -app_assoc. by apply raw_items_head. }
    assert (parse_loop fuel (acc ++ [req_of e]) (raws_items (e2 :: l) ++ [(EndOfString, "")])
            = Some (Ok (acc ++ (req_of <$> e :: e2 :: l)))) as Hrec.
    { rewrite IH //; [simpl in *; lia|]. by rewrite -app_assoc. }
    destruct Hlit as [-> | ->]; exact Hrec.
Qed.

Lemma lexed_raws l :
  Forall raw_valid l -> lexed (join "," (text_of <$> l)) (raws_items l ++ [(EndOfString, "")]).
Proof.
  induction 1 as [|e l He Hl IH]; [by eapply lexed_end|].
  destruct l as [|e2 l].
  - cbn [fmap list_fmap join raws_items]. rewrite -{1}(append_empty (text_of e)).
    eapply lexes_lexed; [apply lexes_raw; [done|by left]|]. by eapply lexed_end.
  - change (join "," (text_of <$> e :: e2 :: l))
      with (text_of e +:+ "," +:+ join "," (text_of <$> e2 :: l)).
    change (raws_items (e :: e2 :: l)) with (items_of e ++ (Comma, ",") :: raws_items (e2 :: l)).
    rewrite -app_assoc. eapply lexes_lexed; [apply lexes_raw; [done|by right; eauto]|].
    cbn [app]. eapply lexed_cons; [|done|exact IH]. apply lex_symbol1; [done..|].
    apply Forall_cons in Hl as [He2 _]. destruct l as [|e3 l].
    + cbn [fmap list_fmap join]. rewrite -(append_empty (text_of e2)). by apply raw_text_ends.
    + change (join "," (text_of <$> e2 :: e3 :: l))
        with (text_of e2 +:+ "," +:+ join "," (text_of <$> e3 :: l)).
      by apply raw_text_ends.
Qed.

Lemma raws_items_length l : length l <= length (raws_items l).
Proof.
  induction l as [|e l IH]; [done|].
  assert (1 <= length (items_of e)) by (unfold items_of, raw_items; destruct e.1.2; simpl; lia).
  destruct l as [|e2 l]; [done|].
  change (raws_items (e :: e2 :: l)) with (items_of e ++ (Comma, ",") :: raws_items (e2 :: l)).
  rewrite length_app. cbn [length] in *. lia.
Qed.

(** The text of valid requirements parses to them, sorted by key. *)
Lemma parse_raws l :
  Forall raw_valid l ->
  parse (join "," (text_of <$> l)) = Some (Ok (mkSelector (sort_by_key req_key (req_of <$> l)))).
Proof.
  intros Hl. unfold parse. rewrite (lexed_scan _ _ (lexed_raws _ Hl)); [lia|].
  rewrite mbind_Some_ parse_loop_raws //.
  rewrite length_app. pose proof (raws_items_length l). simpl. lia.
Qed.

(** ** What the parser returns is well formed *)

Lemma strictly_sorted_singleton x : strictly_sorted [x].
Proof. by repeat constructor. Qed.

Lemma parse_identifiers_sorted items : forall s s' rest,
  strictly_sorted s -> parse_identifiers_list s items = Ok (s', rest) -> strictly_sorted s'.
Proof.
  induction items as [|it items IH]; intros s s' rest Hs H; cbn [parse_identifiers_list] in H; [done|].
  repeat case_match; simplify_eq;
    try (apply IH in H; [exact H|]); eauto 6 using btree_insert_sorted, strictly_sorted_singleton.
Qed.

Lemma parse_values_sorted items s rest :
  parse_values items = Ok (s, rest) -> strictly_sorted s.
Proof.
  unfold parse_values, consume. intros H.
  destruct (lookahead Values items) as [tok0 lit0]. case_decide; [done|].
  destruct (lookahead Values (tail items)) as [tok lit].
  destruct tok; try done; try (injection H as <- <-; apply strictly_sorted_singleton).
  all: destruct (parse_identifiers_list [] (tail items)) as [[s1 r1]|] eqn:Hp; [|done].
  all: cbn [result_bind] in H; destruct (lookahead Values r1) as [tok1 lit1]; case_decide; [done|].
  all: injection H as <- <-; eapply parse_identifiers_sorted; [|exact Hp]; constructor.
Qed.

Lemma parse_exact_sorted items s rest :
  parse_exact_value items = Ok (s, rest) -> strictly_sorted s.
Proof.
  unfold parse_exact_value, consume. intros H.
  case_decide; [simplify_eq; apply strictly_sorted_singleton|].
  destruct (lookahead Values items) as [tok lit].
  case_decide; [simplify_eq; apply strictly_sorted_singleton|done].
Qed.

Lemma new_requirement_req_ok k op vals r :
  new_requirement k op vals = Ok r -> strictly_sorted vals -> req_ok r.
Proof.
  unfold new_requirement. intros H Hs. case_decide as Hv; [|done]. injection H as <-. by exists vals.
Qed.

Lemma parse_requirement_ok items r rest : parse_requirement items = Ok (r, rest) -> req_ok r.
Proof.
  unfold parse_requirement. intros H.
  destruct (parse_key_and_infer_operator items) as [[[k op] items1]|]; [|done].
  cbn [result_bind] in H.
  destruct op as [[]|];
    try (destruct (new_requirement k _ []) as [r'|] eqn:Hn; [|done]; cbn [result_bind] in H;
         injection H as -> _; apply (new_requirement_req_ok _ _ _ _ Hn); constructor).
  all: destruct (parse_operator items1) as [[op0 items2]|]; [|done]; cbn [result_bind] in H;
    destruct (match op0 with OIn | ONotIn => _ | _ => _ end) as [[vs items3]|] eqn:Hv; [|done];
    cbn [result_bind] in H; destruct (new_requirement k op0 vs) as [r'|] eqn:Hn; [|done];
    cbn [result_bind] in H; injection H as -> _; apply (new_requirement_req_ok _ _ _ _ Hn);
    destruct op0; eauto using parse_values_sorted, parse_exact_sorted.
Qed.

Lemma parse_loop_ok fuel : forall acc items reqs,
  Forall req_ok acc -> parse_loop fuel acc items = Some (Ok reqs) -> Forall req_ok reqs.
Proof.
  induction fuel as [|fuel IH]; intros acc items reqs Hacc H; cbn [parse_loop] in H; [done|].
  destruct (lookahead Values items) as [tok lit]; destruct tok; try done;
    try (injection H as <-; done);
    (destruct (parse_requirement items) as [[r rest]|] eqn:Hp; [|done]);
    apply parse_requirement_ok in Hp;
    assert (Forall req_ok (acc ++ [r])) as Hacc' by (by apply Forall_app; split; [|constructor]);
    unfold consume in H; cbn zeta in H;
    destruct (lookahead Values rest) as [tok2 lit2]; destruct tok2; try done;
    try (injection H as <-; done);
    (destruct (lookahead Values (tail rest)) as [tok3 lit3]; destruct tok3; try done; by eapply IH).
Qed.

(** A parsed requirement is what was written, up to the order of its values. *)
Lemma req_ok_raw r : req_ok r -> exists e, raw_valid e /\ text_of e = req_to_string r /\ req_of e = r.
Proof.
  intros (vals & Hval & Hs & Hv). exists (req_key r, req_operator r, vals). split; [done|].
  destruct (valid_values _ _ _ _ Hval) as [_ Hshape]. split.
  - unfold text_of. rewrite req_to_string_raw; [|]; rewrite Hv; destruct (req_operator r); try done;
      try by constructor. all: by subst vals.
  - unfold req_of, raw_requirement, kept_values. destruct r as [k op vs]; simpl in *. subst vs.
    destruct op; try done; by rewrite insert_all_sorted.
Qed.

Lemma parse_print sel :
  Forall req_ok (requirements sel) -> StronglySorted (key_le req_key) (requirements sel) ->
  parse (selector_to_string sel) = Some (Ok sel).
Proof.
  intros Hok Hs.
  assert (exists l, Forall raw_valid l /\ text_of <$> l = req_to_string <$> requirements sel
                    /\ req_of <$> l = requirements sel) as (l & Hl & Ht & Hr).
  { clear Hs. induction Hok as [|r rs Hr _ (l & Hl & Ht & Hrs)]; [by exists []|].
    destruct (req_ok_raw r Hr) as (e & He & Hte & Hre). exists (e :: l).
    split_and!; [by constructor|..]; rewrite !fmap_cons; by f_equal. }
  unfold selector_to_string. rewrite -Ht parse_raws // Hr sort_by_key_id //. by destruct sel.
Qed.

Lemma parsed_ok s sel : parse s = Some (Ok sel) ->
  Forall req_ok (requirements sel) /\ StronglySorted (key_le req_key) (requirements sel).
Proof.
  unfold parse. intros H. apply bind_Some in H as (items & _ & H).
  apply bind_Some in H as ([reqs|] & Hp & H); [|done]. injection H as <-.
  cbn [requirements]. split; [|apply sort_by_key_sorted].
  rewrite sort_by_key_perm. eapply parse_loop_ok; [|exact Hp]. constructor.
Qed.

End Roundtrip.

(** C29: The text of a parsed selector parses back to the same selector: for
    every string that parses, printing the result and parsing it again gives
    requirements with the same keys, operators and values in the same order, so
    the selection survives being stored and sent as text. *)
Theorem selector_print_parse `{!TextFormat, !JsonText} (s : string) (sel : Selector) :
  parse s = Some (Ok sel) -> parse (selector_to_string sel) = Some (Ok sel).
Proof. intros Hp. destruct (parsed_ok s sel Hp). by apply parse_print. Qed.

Definition plain_format : TextFormat := Build_TextFormat (fun s => s) (fun s => s).
Definition plain_json : JsonText := fun _ => "".

Definition witness_selector : string := "tier notin (b, ,a),!x, in in (), example.com/y==, z>7".

Definition witness_parsed : Selector :=
  mkSelector [mkLabelRequirement "example.com/y" ODoubleEquals (Some [""]);
              mkLabelRequirement "in" OIn (Some [""]);
              mkLabelRequirement "tier" ONotIn (Some [""; "a"; "b"]);
              mkLabelRequirement "x" ODoesNotExist None;
              mkLabelRequirement "z" OGreaterThan (Some ["7"])].

Lemma selector_print_parse_witness :
  selector_to_string witness_parsed = "example.com/y==,in in (),tier notin (,a,b),!x,z>7"
  /\ @parse plain_format plain_json (selector_to_string witness_parsed) = Some (Ok witness_parsed).
Proof.
  split; [vm_compute; reflexivity|].
  apply (@selector_print_parse plain_format plain_json witness_selector).
  vm_compute. reflexivity.
Defined.
