(* ===== verification/ApiSelector.v ===== *)
(** * API label selectors

    Model of the selector part of [crates/common/src/types.rs]: the conversion of
    a [LabelSelector] of the API to requirements, its text, and matching, with
    [label_selector_matches_labels] of [validation/metav1.rs].  The order in which
    the [HashMap] of [match_labels] is walked is [HashOrder]. *)

From Stdlib Require Import Ascii.
From stdpp Require Import strings sorting.
From S2P Require Import Prelude RustText BTree Json FieldErrors Regex Authz Metav1 Quantity LabelSelector SelectorProps.

Local Open Scope rust_scope.
Local Open Scope nat_scope.

(** [types::Selector]. *)
Inductive ApiSelector :=
| Nothing
| Everything
| Requirements (selector : Authz.LabelSelector).

(** One call of the closure [require]: key, operator and values. *)
Definition Entry : Type := string * string * list string.

Definition require_errors (e : Entry) : list FieldError :=
  let '(k, op, values) := e in
  let key_errs := is_qualified_name k in
  (if decide (key_errs = []) then []
   else [invalid (path_new "key") (BvString k) (join "; " key_errs)])
  ++ match (if decide ((op = "in" \/ op = "notin") /\ values = []) then
              Some "for 'in', 'notin' operators, values set can't be empty"
            else if decide (op = "=" /\ length values <> 1) then
              Some "exact-match compatibility requires one single value"
            else if decide ((op = "" \/ op = "!") /\ values <> []) then
              Some "values set must be empty for exists and does not exist"
            else None) with
     | Some msg => [invalid (path_new "values") (bad_strings values) msg]
     | None => []
     end
  ++ values ≫= fun v =>
       let value_errs := is_valid_label_value v in
       if decide (value_errs = []) then []
       else [invalid (key (path_new "values") k) (BvString v) (join "; " value_errs)].

Definition require_text (e : Entry) : string * string :=
  let '(k, op, values) := e in
  let sorted := merge_sort string_le values in
  (k, if decide (op = "=") then k +:+ "=" +:+ join "," sorted
      else if decide (op = "in" \/ op = "notin") then
        k +:+ " " +:+ op +:+ " (" +:+ join "," sorted +:+ ")"
      else if decide (op = "!") then "!" +:+ k
      else k).

(** The operator of an expression. *)
Definition expression_op (operator : string) : result string string :=
  if decide (operator = "In") then Ok "in"
  else if decide (operator = "NotIn") then Ok "notin"
  else if decide (operator = "Exists") then Ok ""
  else if decide (operator = "DoesNotExist") then Ok "!"
  else Err (dquote +:+ operator +:+ dquote +:+ " is not a valid label selector operator").

(** The loop over [match_expressions]: it stops at an unknown operator. *)
Fixpoint expression_entries (exprs : list LabelSelectorRequirement) : result (list Entry) string :=
  match exprs with
  | [] => Ok []
  | expr :: rest =>
      try op <- expression_op (lsr_operator expr);
      try entries <- expression_entries rest;
      Ok ((lsr_key expr, op, default [] (lsr_values expr)) :: entries)
  end.

Section Api.
Context `{!TextFormat, !JsonText, !HashOrder}.

Definition label_entries (sel : Authz.LabelSelector) : list Entry :=
  match match_labels sel with
  | Some labels => (fun kv => (kv.1, "=", [kv.2])) <$> hash_iter labels
  | None => []
  end.

(** [LabelSelector::requirements]. *)
Definition selector_requirements (sel : Authz.LabelSelector) (render : bool) : result string string :=
  try exprs <- expression_entries (default [] (match_expressions sel));
  let entries := label_entries sel ++ exprs in
  match field_error_to_string <$> (entries ≫= require_errors) with
  | [] =>
      let requirements := if render then require_text <$> entries else [] in
      Ok (join "," (sort_by_key fst requirements).*2)
  | [e] => Err e
  | all => Err ("[" +:+ join ", " all +:+ "]")
  end.

Definition as_selector_string (sel : Authz.LabelSelector) : result string string :=
  selector_requirements sel true.

Definition validate_requirements (sel : Authz.LabelSelector) : result unit string :=
  result_map (fun _ => tt) (selector_requirements sel false).

Definition label_selector_as_selector (sel : option Authz.LabelSelector)
    : result ApiSelector string :=
  match sel with
  | None => Ok Nothing
  | Some sel =>
      let labels := match match_labels sel with Some m => size m | None => 0 end in
      let exprs := match match_expressions sel with Some l => length l | None => 0 end in
      if decide (labels + exprs = 0) then Ok Everything
      else
        try _ <- validate_requirements sel;
        Ok (Requirements sel)
  end.

End Api.

(** One expression of [Selector::matches]. *)
Definition expression_matches (labels : option (gmap string string))
    (req : LabelSelectorRequirement) : bool :=
  let value := labels ≫= lookup (lsr_key req) in
  let in_values := match value, lsr_values req with
                   | Some v, Some values => contains values v
                   | _, _ => false
                   end in
  if decide (lsr_operator req = "In") then in_values
  else if decide (lsr_operator req = "NotIn") then negb in_values
  else if decide (lsr_operator req = "Exists") then bool_decide (is_Some value)
  else if decide (lsr_operator req = "DoesNotExist") then bool_decide (value = None)
  else false.

(** [Selector::matches]; every pair of [match_labels] is checked, in any order. *)
Definition api_matches (s : ApiSelector) (labels : option (gmap string string)) : bool :=
  match s with
  | Nothing => false
  | Everything => true
  | Requirements sel =>
      forallb (fun kv => bool_decide (labels ≫= lookup kv.1 = Some kv.2))
        (map_to_list (default ∅ (match_labels sel)))
      && forallb (expression_matches labels) (default [] (match_expressions sel))
  end.

Section ApiMatch.
Context `{!TextFormat, !JsonText, !HashOrder}.

(** [LabelSelector::matches_labels]: an invalid selector matches nothing. *)
Definition matches_labels (sel : Authz.LabelSelector) (labels : gmap string string) : bool :=
  match label_selector_as_selector (Some sel) with
  | Ok s => api_matches s (Some labels)
  | Err _ => false
  end.

(** [label_selector_matches_labels]: an invalid selector matches everything. *)
Definition label_selector_matches_labels (sel : Authz.LabelSelector) (labels : gmap string string)
    : bool :=
  match label_selector_as_selector (Some sel) with
  | Ok s => api_matches s (Some labels)
  | Err _ => true
  end.

End ApiMatch.

(** ** Entries as written requirements *)

Definition entry_op (op : string) : LabelOperator :=
  if decide (op = "=") then OEquals
  else if decide (op = "in") then OIn
  else if decide (op = "notin") then ONotIn
  else if decide (op = "!") then ODoesNotExist
  else OExists.

Definition known_op (op : string) : Prop := op ∈ ["="; "in"; "notin"; "!"; ""].

Definition raw_of (e : Entry) : Raw := (e.1.1, entry_op e.1.2, merge_sort string_le e.2).

Ltac eval_op :=
  match goal with
  | |- context [entry_op ?o] => let x := eval vm_compute in (entry_op o) in change (entry_op o) with x
  end.

Lemma merge_sort_elem x l : x ∈ merge_sort string_le l <-> x ∈ l.
Proof. by rewrite merge_sort_Permutation. Qed.

Lemma merge_sort_length l : length (merge_sort string_le l) = length l.
Proof. by rewrite merge_sort_Permutation. Qed.

Lemma merge_sort_nil l : merge_sort string_le l = [] <-> l = [].
Proof. rewrite -!length_zero_iff_nil. by rewrite merge_sort_length. Qed.

Ltac known_ops H := repeat (apply elem_of_cons in H as [->|H]); [..|by apply elem_of_nil in H].

Lemma bind_nil {A B} (f : A -> list B) l : l ≫= f = [] <-> forall x, x ∈ l -> f x = [].
Proof.
  induction l as [|y l IH]; [set_solver|]. rewrite bind_cons app_nil IH.
  setoid_rewrite elem_of_cons. naive_solver.
Qed.

Lemma require_errors_nil k op values :
  require_errors (k, op, values) = [] <->
  is_qualified_name k = [] /\ (forall v, v ∈ values -> is_valid_label_value v = [])
  /\ ~ ((op = "in" \/ op = "notin") /\ values = [])
  /\ ~ (op = "=" /\ length values <> 1) /\ ~ ((op = "" \/ op = "!") /\ values <> []).
Proof.
  unfold require_errors. rewrite !app_nil bind_nil.
  assert (forall v, (if decide (is_valid_label_value v = []) then []
     else [invalid (key (path_new "values") k) (BvString v) (join "; " (is_valid_label_value v))]) = []
     <-> is_valid_label_value v = []) as Hv by (intros v; case_decide; naive_solver).
  setoid_rewrite Hv.
  destruct (decide (is_qualified_name k = [])), (decide ((op = "in" \/ op = "notin") /\ values = [])),
    (decide (op = "=" /\ length values <> 1)), (decide ((op = "" \/ op = "!") /\ values <> []));
    naive_solver.
Qed.

Lemma raw_of_valid e : known_op e.1.2 -> require_errors e = [] -> raw_valid (raw_of e).
Proof.
  destruct e as [[k op] values]. intros Hop (Hk & Hv & Hin & Heq & Hex)%require_errors_nil.
  unfold raw_valid, raw_of, validate_at. cbn [fst snd] in *.
  rewrite (proj2 (errs_of_key _ _) Hk). cbn [app].
  apply app_nil. split.
  - unfold known_op in Hop. known_ops Hop;
      eval_op;
      unfold operator_errors; rewrite ?merge_sort_length;
      case_decide as Hd; try done; rewrite ?merge_sort_nil in Hd; naive_solver.
  - apply concat_imap_all_nil; intros i x Hx. rewrite merge_sort_elem in Hx.
    apply errs_of_value. auto.
Qed.

Lemma raw_of_text e :
  known_op e.1.2 -> (require_text e).2 = text_of (raw_of e).
Proof.
  destruct e as [[k op] values]. intros Hop. unfold known_op in Hop. cbn [fst snd] in Hop.
  known_ops Hop; reflexivity.
Qed.

(** What an entry asks of the labels. *)
Definition entry_matches (labels : gmap string string) (e : Entry) : bool :=
  let '(k, op, values) := e in
  let in_values := match labels !! k with Some v => contains values v | None => false end in
  if decide (op = "=" \/ op = "in") then in_values
  else if decide (op = "notin") then negb in_values
  else if decide (op = "!") then bool_decide (labels !! k = None)
  else bool_decide (is_Some (labels !! k)).

Lemma existsb_contains l l' v :
  (forall x, x ∈ l <-> x ∈ l') -> existsb (fun s => bool_decide (s = v)) l = contains l' v.
Proof.
  intros Hl. apply eq_true_iff_eq. rewrite contains_true -Hl existsb_exists.
  setoid_rewrite bool_decide_eq_true. setoid_rewrite <- list_elem_of_In. naive_solver.
Qed.

Lemma raw_of_matches e labels :
  known_op e.1.2 -> req_matches (req_of (raw_of e)) labels = entry_matches labels e.
Proof.
  destruct e as [[k op] values]. intros Hop. unfold known_op in Hop. cbn [fst snd] in Hop.
  assert (forall vs v, (forall x, x ∈ vs <-> x ∈ values) ->
    existsb (fun s => bool_decide (s = v)) vs = contains values v) as Hc
    by (intros; by apply existsb_contains).
  assert (forall x, x ∈ insert_all [] (merge_sort string_le values) <-> x ∈ values) as Hset.
  { intros x. rewrite insert_all_elem merge_sort_elem. set_solver. }
  unfold req_matches, has_value, req_of, raw_requirement, raw_of, entry_matches.
  known_ops Hop; eval_op; cbn -[merge_sort insert_all contains decide];
    destruct (labels !! k) as [v|]; try done.
  all: rewrite Hc //; auto using merge_sort_elem.
Qed.

Lemma expression_entries_ok exprs entries :
  expression_entries exprs = Ok entries ->
  Forall (fun e => known_op e.1.2) entries
  /\ forall labels, forallb (expression_matches (Some labels)) exprs
                    = forallb (entry_matches labels) entries.
Proof.
  revert entries; induction exprs as [|expr exprs IH]; intros entries H; [by injection H as <-|].
  cbn [expression_entries] in H.
  destruct (expression_op (lsr_operator expr)) as [op|] eqn:Hop; [|done].
  destruct (expression_entries exprs) as [es|]; [|done]. injection H as <-.
  destruct (IH es eq_refl) as [Hk Hm].
  assert (known_op op /\ forall labels, expression_matches (Some labels) expr
     = entry_matches labels (lsr_key expr, op, default [] (lsr_values expr))) as [Hko Hmo].
  { unfold expression_op in Hop. unfold expression_matches, entry_matches, known_op. cbn [mbind option_bind].
    destruct expr as [k o vs]. cbn [lsr_operator lsr_key lsr_values] in *.
    repeat (case_decide; [injection Hop as <-; split; [set_solver|]; subst; intros labels;
      cbn -[contains]; destruct (labels !! k), vs; try done|]). done. }
  split; [by constructor|]. intros labels. cbn [forallb]. by rewrite Hmo Hm.
Qed.

Lemma forallb_perm {A} (f : A -> bool) l l' : l ≡ₚ l' -> forallb f l = forallb f l'.
Proof.
  intros Hp. apply eq_true_iff_eq. rewrite !forallb_forall. setoid_rewrite <- list_elem_of_In.
  by setoid_rewrite Hp.
Qed.

Section ApiProps.
Context `{TF : !TextFormat, JT : !JsonText, HO : !HashOrder}.

Lemma label_entries_ok sel :
  Forall (fun e => known_op e.1.2) (label_entries sel)
  /\ forall labels,
     forallb (fun kv => bool_decide (Some labels ≫= lookup kv.1 = Some kv.2))
       (map_to_list (default ∅ (match_labels sel)))
     = forallb (entry_matches labels) (label_entries sel).
Proof.
  unfold label_entries. destruct (match_labels sel) as [m|]; cbn [default from_option id]; [|by rewrite map_to_list_empty].
  split.
  - apply Forall_fmap, Forall_forall. intros [k v] _. unfold known_op; cbn; set_solver.
  - intros labels. rewrite -(forallb_perm _ _ _ (hash_iter_perm m)).
    induction (hash_iter m) as [|[k v] l IH]; [done|].
    cbn [fmap list_fmap forallb]. rewrite IH. f_equal. cbn -[contains].
    destruct (labels !! k) as [w|]; cbn; apply eq_true_iff_eq.
    + rewrite contains_true bool_decide_eq_true list_elem_of_singleton. naive_solver.
    + rewrite bool_decide_eq_true. naive_solver.
Qed.

(** The entries of a selector that converts, all valid. *)
Lemma selector_requirements_ok sel render text :
  selector_requirements sel render = Ok text ->
  exists entries, Forall (fun e => known_op e.1.2 /\ require_errors e = []) entries
    /\ (forall labels, api_matches (Requirements sel) (Some labels) = forallb (entry_matches labels) entries)
    /\ (render = true -> text = join "," (sort_by_key fst (require_text <$> entries)).*2).
Proof.
  unfold selector_requirements. intros H.
  destruct (expression_entries (default [] (match_expressions sel))) as [exprs|] eqn:He; [|done].
  cbn [result_bind] in H. apply expression_entries_ok in He as [Hke Hme].
  destruct (label_entries_ok sel) as [Hkl Hml].
  exists (label_entries sel ++ exprs).
  destruct (field_error_to_string <$> _) as [|e [|]] eqn:Hf; [|done..].
  injection H as <-. apply fmap_nil_inv in Hf. rewrite bind_nil in Hf. split_and!.
  - rewrite Forall_forall. intros e Hin. split; [|auto].
    apply elem_of_app in Hin as [Hin|Hin]; [rewrite Forall_forall in Hkl|rewrite Forall_forall in Hke]; auto.
  - intros labels. cbn [api_matches]. by rewrite Hml Hme forallb_app.
  - by intros ->.
Qed.

Lemma selector_text_parses sel text :
  as_selector_string sel = Ok text ->
  exists p, parse text = Some (Ok p)
    /\ forall labels, selector_matches p labels = api_matches (Requirements sel) (Some labels).
Proof.
  intros (entries & Hok & Hm & Ht)%selector_requirements_ok. specialize (Ht eq_refl).
  set (sorted := sort_by_key (fst ∘ require_text) entries).
  assert (sorted ≡ₚ entries) as Hperm by apply sort_by_key_perm.
  assert (Forall (fun e => known_op e.1.2 /\ require_errors e = []) sorted) as Hs by by rewrite Hperm.
  assert (text = join "," (text_of <$> (raw_of <$> sorted))) as Htext.
  { rewrite Ht sort_by_key_fmap. f_equal. rewrite -!list_fmap_compose. fold sorted.
    clear -Hs. induction Hs as [|e l [Hk _] _ IH]; [done|]. rewrite !fmap_cons IH. f_equal.
    by apply raw_of_text. }
  eexists. split.
  - rewrite Htext. apply parse_raws. rewrite Forall_fmap. eapply Forall_impl; [exact Hs|].
    intros e [Hk He]. by apply raw_of_valid.
  - intros labels. rewrite Hm. unfold selector_matches. cbn [requirements].
    rewrite (forallb_perm _ _ _ (sort_by_key_perm req_key _)).
    rewrite -(forallb_perm _ _ _ Hperm). clear -Hs.
    induction Hs as [|e l [Hk _] _ IH]; [done|]. cbn [fmap list_fmap forallb].
    rewrite raw_of_matches //. by f_equal.
Qed.

(** ** Validation and conversion agree *)

Definition strict : LabelSelectorValidationOptions := mkLabelSelectorValidationOptions false false.

Definition entry_ok (req : LabelSelectorRequirement) : Prop :=
  exists op, expression_op (lsr_operator req) = Ok op
             /\ require_errors (lsr_key req, op, default [] (lsr_values req)) = [].

Lemma concat_imap_nil_iff {A B} (f : nat -> A -> list B) (P : A -> Prop) l :
  (forall i x, f i x = [] <-> P x) -> concat (imap f l) = [] <-> Forall P l.
Proof.
  intros Hf. rewrite Forall_forall. split.
  - intros H x Hx. destruct (concat_imap_nil _ _ H _ Hx) as [i Hi]. by apply (Hf i).
  - intros H. apply concat_imap_all_nil. intros i x Hx. apply Hf. auto.
Qed.

Lemma fmap_nil_iff {A B} (f : A -> B) l : f <$> l = [] <-> l = [].
Proof. by destruct l. Qed.

Lemma label_name_nil k p : validate_label_name k p = [] <-> is_qualified_name k = [].
Proof. apply fmap_nil_iff. Qed.

Lemma label_value_nil v p : label_value_errors v p = [] <-> is_valid_label_value v = [].
Proof. apply fmap_nil_iff. Qed.

Lemma requirement_valid_iff req p :
  validate_label_selector_requirement req strict p = [] <-> entry_ok req.
Proof.
  unfold validate_label_selector_requirement, entry_ok, strict. cbn [allow_invalid_label_value_in_selector allow_unknown_operator_in_requirement].
  rewrite !app_nil label_name_nil. setoid_rewrite require_errors_nil.
  assert (match lsr_values req with
    | Some values => concat (imap (fun i v => label_value_errors v (index (child p "values") i)) values)
    | None => [] end = [] <-> forall v, v ∈ default [] (lsr_values req) -> is_valid_label_value v = []) as ->.
  { destruct (lsr_values req) as [vs|]; cbn [default from_option id]; [|set_solver].
    rewrite -Forall_forall. apply concat_imap_nil_iff. intros; apply label_value_nil. }
  unfold expression_op. destruct (lsr_values req) as [[|v vs]|]; cbn [default from_option id];
    repeat case_decide; naive_solver.
Qed.

Lemma expression_entries_valid exprs :
  Forall entry_ok exprs <->
  exists entries, expression_entries exprs = Ok entries /\ forall e, e ∈ entries -> require_errors e = [].
Proof.
  induction exprs as [|req exprs IH]; [split; [exists []; set_solver|constructor]|].
  rewrite Forall_cons IH. cbn [expression_entries]. unfold entry_ok. split.
  - intros [(op & -> & Hr) (es & -> & Hes)]. eexists; split; [done|].
    intros e [->|He]%elem_of_cons; auto.
  - intros (es & H & Hes). destruct (expression_op (lsr_operator req)) as [op|]; [|done].
    destruct (expression_entries exprs) as [es'|]; [|done]. injection H as <-. split.
    + exists op. split; [done|]. apply Hes. by left.
    + exists es'. split; [done|]. intros e He. apply Hes. by right.
Qed.

Lemma labels_valid_iff labels p :
  validate_labels labels p = [] <->
  forall k v, labels !! k = Some v -> is_qualified_name k = [] /\ is_valid_label_value v = [].
Proof.
  unfold validate_labels. rewrite bind_nil. split.
  - intros H k v Hk. specialize (H k). rewrite merge_sort_elem Hk in H.
    rewrite app_nil label_name_nil fmap_nil_iff label_value_nil in H. apply H.
    apply list_elem_of_fmap. exists (k, v). split; [done|]. by apply elem_of_map_to_list.
  - intros H k _. destruct (labels !! k) as [w|] eqn:Hw; [|done].
    rewrite app_nil label_name_nil fmap_nil_iff label_value_nil. eauto.
Qed.

Lemma label_entries_valid sel :
  (forall e, e ∈ label_entries sel -> require_errors e = []) <->
  match match_labels sel with
  | Some labels => forall k v, labels !! k = Some v ->
                     is_qualified_name k = [] /\ is_valid_label_value v = []
  | None => True
  end.
Proof.
  unfold label_entries. destruct (match_labels sel) as [m|]; [|set_solver].
  assert (forall k v, require_errors (k, "=", [v]) = [] <->
            is_qualified_name k = [] /\ is_valid_label_value v = []) as He.
  { intros k v. rewrite require_errors_nil. setoid_rewrite list_elem_of_singleton. naive_solver. }
  split.
  - intros H k v Hk. apply He, H, list_elem_of_fmap. exists (k, v).
    split; [done|]. by apply elem_of_hash_iter.
  - intros H e ([k v] & -> & Hin)%list_elem_of_fmap. apply elem_of_hash_iter in Hin. apply He. eauto.
Qed.

Lemma selector_converts_iff sel render :
  is_ok (selector_requirements sel render) = true <->
  (forall e, e ∈ label_entries sel -> require_errors e = [])
  /\ Forall entry_ok (default [] (match_expressions sel)).
Proof.
  unfold selector_requirements. rewrite expression_entries_valid.
  destruct (expression_entries _) as [exprs|] eqn:He; cbn [result_bind]; [|naive_solver].
  transitivity (field_error_to_string <$> ((label_entries sel ++ exprs) ≫= require_errors) = []).
  { destruct (field_error_to_string <$> _) as [|? [|]]; naive_solver. }
  rewrite fmap_nil_iff bind_nil. setoid_rewrite elem_of_app. naive_solver.
Qed.

Lemma selector_valid_iff sel p :
  validate_label_selector sel strict p = [] <->
  is_ok (selector_requirements sel false) = true.
Proof.
  unfold validate_label_selector. rewrite selector_converts_iff label_entries_valid app_nil.
  apply Morphisms_Prop.and_iff_morphism.
  - destruct (match_labels sel); [apply labels_valid_iff|done].
  - destruct (match_expressions sel); cbn [default from_option id]; [|split; [constructor|done]].
    apply concat_imap_nil_iff. intros. apply requirement_valid_iff.
Qed.

Lemma empty_selector sel :
  match match_labels sel with Some m => size m | None => 0 end
  + match match_expressions sel with Some l => length l | None => 0 end = 0 ->
  label_entries sel = [] /\ default [] (match_expressions sel) = []
  /\ map_to_list (default ∅ (match_labels sel)) = [].
Proof.
  unfold label_entries. intros H.
  destruct (match_expressions sel) as [[|]|]; cbn [default from_option id length] in *; try lia;
    (destruct (match_labels sel) as [m|]; cbn [default from_option id] in *;
     [assert (m = ∅) as -> by (apply map_size_empty_inv; lia)|]);
    rewrite map_to_list_empty; repeat split; try done;
    pose proof (hash_iter_perm (∅ : gmap string string)) as Hp; rewrite map_to_list_empty in Hp;
    apply Permutation_nil_r in Hp; by rewrite Hp.
Qed.

Lemma conversion_iff sel :
  is_ok (label_selector_as_selector (Some sel)) = is_ok (selector_requirements sel false).
Proof.
  cbn [label_selector_as_selector]. case_decide as Hd.
  - apply empty_selector in Hd as (Hl & He & _). symmetry. apply selector_converts_iff.
    rewrite Hl He. split; [set_solver|constructor].
  - unfold validate_requirements. by destruct (selector_requirements sel false).
Qed.

Lemma matches_labels_valid sel labels :
  is_ok (selector_requirements sel false) = true ->
  matches_labels sel labels = api_matches (Requirements sel) (Some labels).
Proof.
  intros Hok. unfold matches_labels, label_selector_as_selector. case_decide as Hd.
  - apply empty_selector in Hd as (_ & He & Hl). cbn [api_matches]. by rewrite He Hl.
  - unfold validate_requirements. by destruct (selector_requirements sel false).
Qed.

End ApiProps.

(** Validation and conversion accept the same selectors: [validate_label_selector]
    with its default options reports nothing for a selector exactly when
    [label_selector_as_selector] converts it, though each has its own table of
    operators and its own checks of keys and values.  So no selector that
    admission lets in is later treated as invalid. *)
Theorem selector_validation_is_conversion `{!TextFormat, !JsonText, !HashOrder}
    (sel : Authz.LabelSelector) (p : Path) :
  validate_label_selector sel strict p = [] <->
  is_ok (label_selector_as_selector (Some sel)) = true.
Proof. by rewrite conversion_iff selector_valid_iff. Qed.

(** C30: For a selector of the API that validates, the two ways to apply it
    agree: it converts to text, the text parses as a label selector, and the
    parsed selector matches exactly the labels that the API selector matches
    directly, whatever the order in which the map of labels is walked. *)
Theorem api_selector_text_agrees `{!TextFormat, !JsonText, !HashOrder}
    (sel : Authz.LabelSelector) (p : Path) :
  validate_label_selector sel strict p = [] ->
  exists text parsed,
    as_selector_string sel = Ok text
    /\ parse text = Some (Ok parsed)
    /\ forall labels, selector_matches parsed labels = matches_labels sel labels.
Proof.
  intros Hv. pose proof (proj1 (selector_valid_iff _ _) Hv) as Hok.
  assert (is_ok (as_selector_string sel) = true) as Ht.
  { apply selector_converts_iff. by apply selector_converts_iff in Hok. }
  destruct (as_selector_string sel) as [text|] eqn:Htext; [|done].
  destruct (selector_text_parses _ _ Htext) as (parsed & Hp & Hm).
  exists text, parsed. split_and!; [done..|]. intros labels.
  rewrite matches_labels_valid //.
Qed.

Definition witness_api : Authz.LabelSelector :=
  Authz.mkLabelSelector (Some {["app" := "web"]})
    (Some [mkLabelSelectorRequirement "tier" "NotIn" (Some ["b"; ""; "a"]);
           mkLabelSelectorRequirement "example.com/zone" "DoesNotExist" None]).

Lemma api_selector_text_agrees_witness :
  validate_label_selector witness_api strict [] = []
  /\ @as_selector_string plain_format plain_json default_hash_order witness_api
     = Ok "app=web,!example.com/zone,tier notin (,a,b)"
  /\ exists text parsed,
      @as_selector_string plain_format plain_json default_hash_order witness_api = Ok text
      /\ @parse plain_format plain_json text = Some (Ok parsed)
      /\ forall labels, selector_matches parsed labels
           = @matches_labels plain_format plain_json default_hash_order witness_api labels.
Proof.
  split; [vm_compute; reflexivity|]. split; [vm_compute; reflexivity|].
  apply (@api_selector_text_agrees plain_format plain_json default_hash_order witness_api []).
  vm_compute. reflexivity.
Defined.
