(* ===== verification/NodeGraph.v ===== *)
(** * The graph of the node authorizer

    Model of [crates/common/src/authz/node_graph.rs]: the relationship graph from
    secrets, config maps, claims and volumes through pods to the nodes, with the
    edge storage of the forked gonum graph, the destination edge index and its
    reference counts, the search for a path, the handlers that add and delete
    objects, and the populator in front of them.

    An assertion that fails is [None].  The order in which the [HashMap]s keyed by
    vertex ids are walked is [IdOrder].  Metrics are left out. *)

From stdpp Require Import strings countable.
From S2P Require Import Prelude RustText BTree Json.

Local Open Scope nat_scope.

(** ** [intSet] *)

Definition IntSet : Type := gmap nat nat.

Definition has (s : IntSet) (i : nat) : bool := bool_decide (0 < default 0 (s !! i)).

Definition reset (s : IntSet) : IntSet := ∅.

Definition increment (i : nat) (s : IntSet) : IntSet := <[i := S (default 0 (s !! i))]> s.

Definition decrement (i : nat) (s : IntSet) : IntSet :=
  match default 0 (s !! i) with
  | 0 | 1 => delete i s
  | S n => <[i := n]> s
  end.

(** ** Vertices and edges *)

Inductive VertexType :=
| ConfigMap | Slice | Node | VPod | Pvc | Pv | ResourceClaim | Secret | Va | ServiceAccount | Pcr.

#[export] Instance VertexType_eq_dec : EqDecision VertexType.
Proof. solve_decision. Defined.

Definition vertex_types : list VertexType :=
  [ConfigMap; Slice; Node; VPod; Pvc; Pv; ResourceClaim; Secret; Va; ServiceAccount; Pcr].

Definition vertex_code (t : VertexType) : nat :=
  match t with
  | ConfigMap => 0 | Slice => 1 | Node => 2 | VPod => 3 | Pvc => 4 | Pv => 5
  | ResourceClaim => 6 | Secret => 7 | Va => 8 | ServiceAccount => 9 | Pcr => 10
  end.

#[export] Program Instance VertexType_countable : Countable VertexType :=
  inj_countable vertex_code (fun n => vertex_types !! n) _.
Next Obligation. by intros []. Qed.

(** [VertexType::name]. *)
Definition type_name (t : VertexType) : string :=
  match t with
  | ConfigMap => "configmap"
  | Slice => "resourceslice"
  | Node => "node"
  | VPod => "pod"
  | Pvc => "pvc"
  | Pv => "pv"
  | ResourceClaim => "resourceclaim"
  | Secret => "secret"
  | Va => "volumeattachment"
  | ServiceAccount => "serviceAccount"
  | Pcr => "podcertificaterequest"
  end.

Definition has_authoritative_index (t : VertexType) : bool :=
  match t with
  | ConfigMap | Slice | VPod | Pvc | ResourceClaim | Va | ServiceAccount | Pcr => true
  | Node | Pv | Secret => false
  end.

Record NamedVertex := mkVertex {
  vertex_type : VertexType;
  vertex_namespace : string;
  vertex_name : string;
  vertex_id : nat
}.

Definition describe (v : NamedVertex) : string :=
  if decide (vertex_namespace v = "") then type_name (vertex_type v) +:+ ":" +:+ vertex_name v
  else type_name (vertex_type v) +:+ ":" +:+ vertex_namespace v +:+ "/" +:+ vertex_name v.

Record Edge := mkEdge {
  from : nat;
  to : nat;
  destination : option nat
}.

#[export] Instance Edge_eq_dec : EqDecision Edge.
Proof. solve_decision. Defined.

(** The state behind the lock. *)
Record GraphInner := mkGraph {
  nodes : gmap nat NamedVertex;
  edges : gmap nat (gmap nat Edge);
  free_ids : gset nat;
  used_ids : gset nat;
  vertices : gmap VertexType (gmap string (gmap string nat));
  destination_edge_index : gmap nat IntSet;
  destination_edge_threshold : nat
}.

Definition DEFAULT_DESTINATION_EDGE_THRESHOLD : nat := 200.

Definition graph_new : GraphInner :=
  mkGraph ∅ ∅ ∅ ∅ ∅ ∅ DEFAULT_DESTINATION_EDGE_THRESHOLD.

Definition set_destination_edge_threshold (threshold : nat) (g : GraphInner) : GraphInner :=
  mkGraph (nodes g) (edges g) (free_ids g) (used_ids g) (vertices g) (destination_edge_index g)
    threshold.

(** Field updates. *)
Definition set_index (g : GraphInner) (ix : gmap nat IntSet) : GraphInner :=
  mkGraph (nodes g) (edges g) (free_ids g) (used_ids g) (vertices g) ix
    (destination_edge_threshold g).

Definition set_edges (g : GraphInner) (es : gmap nat (gmap nat Edge)) : GraphInner :=
  mkGraph (nodes g) es (free_ids g) (used_ids g) (vertices g) (destination_edge_index g)
    (destination_edge_threshold g).

Definition set_vertices (g : GraphInner) (vs : gmap VertexType (gmap string (gmap string nat)))
    : GraphInner :=
  mkGraph (nodes g) (edges g) (free_ids g) (used_ids g) vs (destination_edge_index g)
    (destination_edge_threshold g).

Definition set_free_ids (g : GraphInner) (s : gset nat) : GraphInner :=
  mkGraph (nodes g) (edges g) s (used_ids g) (vertices g) (destination_edge_index g)
    (destination_edge_threshold g).

(** The walk of a [HashMap<usize, _>]. *)
Class IdOrder : Type := {
  id_iter : forall {A : Type}, gmap nat A -> list (nat * A);
  id_iter_perm : forall {A : Type} (m : gmap nat A), id_iter m ≡ₚ map_to_list m
}.

Definition default_id_order : IdOrder :=
  {| id_iter := fun A m => map_to_list m; id_iter_perm := fun A m => Permutation_refl _ |}.

(** [BTreeSet::first] and [BTreeSet::last]. *)
Definition set_first (s : gset nat) : option nat :=
  match elements s with [] => None | x :: l => Some (foldr Nat.min x l) end.

Definition set_last (s : gset nat) : option nat :=
  match elements s with [] => None | x :: l => Some (foldr Nat.max x l) end.

(** ** [simple.UndirectedGraph] *)

Definition new_node_id (g : GraphInner) : nat * GraphInner :=
  if decide (nodes g = ∅) then (0, g)
  else match set_first (free_ids g) with
       | Some id => (id, set_free_ids g (free_ids g ∖ {[id]}))
       | None => (match set_last (used_ids g) with Some max => max + 1 | None => 0 end, g)
       end.

Definition add_node (vertex : NamedVertex) (g : GraphInner) : option GraphInner :=
  let id := vertex_id vertex in
  match nodes g !! id with
  | Some _ => None
  | None => Some (mkGraph (<[id := vertex]> (nodes g)) (<[id := ∅]> (edges g))
                    (free_ids g ∖ {[id]}) (used_ids g ∪ {[id]}) (vertices g)
                    (destination_edge_index g) (destination_edge_threshold g))
  end.

(** The edge maps after the neighbours of [id] have dropped it. *)
Definition drop_from_neighbors (id : nat) (neighbors : gmap nat Edge)
    (es : gmap nat (gmap nat Edge)) : gmap nat (gmap nat Edge) :=
  foldr (fun neighbor es => alter (delete id) neighbor es) es (map_to_list neighbors).*1.

Definition remove_node (id : nat) (g : GraphInner) : GraphInner :=
  match nodes g !! id with
  | None => g
  | Some _ =>
      let es := match edges g !! id with
                | Some neighbors => drop_from_neighbors id neighbors (delete id (edges g))
                | None => delete id (edges g)
                end in
      mkGraph (delete id (nodes g)) es (free_ids g ∪ {[id]}) (used_ids g ∖ {[id]}) (vertices g)
        (destination_edge_index g) (destination_edge_threshold g)
  end.

(** [entry(a).or_default().insert(b, e)]. *)
Definition put_edge (a b : nat) (e : Edge) (es : gmap nat (gmap nat Edge))
    : gmap nat (gmap nat Edge) :=
  <[a := <[b := e]> (default ∅ (es !! a))]> es.

Definition set_edge (e : Edge) (g : GraphInner) : option GraphInner :=
  if decide (from e = to e) then None
  else match nodes g !! from e, nodes g !! to e with
       | Some _, Some _ =>
           Some (set_edges g (put_edge (to e) (from e) e (put_edge (from e) (to e) e (edges g))))
       | _, _ => None
       end.

Definition remove_edge (e : Edge) (g : GraphInner) : GraphInner :=
  match nodes g !! from e, nodes g !! to e with
  | Some _, Some _ =>
      set_edges g (alter (delete (from e)) (to e) (alter (delete (to e)) (from e) (edges g)))
  | _, _ => g
  end.

Definition degree (g : GraphInner) (id : nat) : nat :=
  match edges g !! id with Some m => size m | None => 0 end.

Definition edge_between (g : GraphInner) (a b : nat) : option Edge := edges g !! a ≫= lookup b.

Section Graph.
Context `{!IdOrder}.

Definition neighbors_from (g : GraphInner) (id : nat) : list nat :=
  match edges g !! id with
  | Some m => to <$> filter (fun e => from e = id) (id_iter m).*2
  | None => []
  end.

Definition neighbors_to (g : GraphInner) (id : nat) : list nat :=
  match edges g !! id with
  | Some m => from <$> filter (fun e => to e = id) (id_iter m).*2
  | None => []
  end.

(** ** Vertices by name *)

Definition get_vertex (g : GraphInner) (t : VertexType) (ns nm : string) : option NamedVertex :=
  by_namespace ← vertices g !! t;
  by_name ← by_namespace !! ns;
  id ← by_name !! nm;
  nodes g !! id.

Definition get_vertex_id (g : GraphInner) (t : VertexType) (ns nm : string) : option nat :=
  vertex_id <$> get_vertex g t ns nm.

Definition create_vertex (t : VertexType) (ns nm : string) (g : GraphInner)
    : option (nat * GraphInner) :=
  let '(id, g) := new_node_id g in
  let by_namespace := default ∅ (vertices g !! t) in
  let by_name := default ∅ (by_namespace !! ns) in
  let g := set_vertices g (<[t := <[ns := <[nm := id]> by_name]> by_namespace]> (vertices g)) in
  g ← add_node (mkVertex t ns nm id) g;
  Some (id, g).

Definition get_or_create_vertex (t : VertexType) (ns nm : string) (g : GraphInner)
    : option (nat * GraphInner) :=
  match get_vertex_id g t ns nm with
  | Some id => Some (id, g)
  | None => create_vertex t ns nm g
  end.

Definition drop_vertex_name (vertex : NamedVertex)
    (vs : gmap VertexType (gmap string (gmap string nat)))
    : gmap VertexType (gmap string (gmap string nat)) :=
  match vs !! vertex_type vertex with
  | Some by_namespace =>
      match by_namespace !! vertex_namespace vertex with
      | Some by_name =>
          let by_name := delete (vertex_name vertex) by_name in
          <[vertex_type vertex :=
              if decide (by_name = ∅) then delete (vertex_namespace vertex) by_namespace
              else <[vertex_namespace vertex := by_name]> by_namespace]> vs
      | None => vs
      end
  | None => vs
  end.

Definition remove_vertex (id : nat) (g : GraphInner) : GraphInner :=
  match nodes g !! id with
  | None => g
  | Some vertex =>
      let g := remove_node id g in
      let g := set_index g (delete id (destination_edge_index g)) in
      set_vertices g (drop_vertex_name vertex (vertices g))
  end.

(** ** The destination edge index *)

Definition remove_edge_from_destination_index (e : Edge) (g : GraphInner) : GraphInner :=
  let n := from e in
  if decide (degree g n < destination_edge_threshold g) then
    set_index g (delete n (destination_edge_index g))
  else match destination_edge_index g !! n with
       | None => g
       | Some index =>
           match destination e with
           | Some d => set_index g (<[n := decrement d index]> (destination_edge_index g))
           | None => g
           end
       end.

Definition count_destination (g : GraphInner) (n : nat) (index : IntSet) (dest : nat) : IntSet :=
  match edge_between g n dest with
  | Some e => match destination e with Some d => increment d index | None => index end
  | None => index
  end.

Definition recompute_destination_index (n : nat) (g : GraphInner) : GraphInner :=
  if decide (degree g n < destination_edge_threshold g) then
    set_index g (delete n (destination_edge_index g))
  else
    let index := reset (default ∅ (destination_edge_index g !! n)) in
    let index := foldl (count_destination g n) index (neighbors_from g n) in
    set_index g (<[n := index]> (destination_edge_index g)).

Definition add_edge_to_destination_index (e : Edge) (g : GraphInner) : GraphInner :=
  let n := from e in
  match destination_edge_index g !! n with
  | None => recompute_destination_index n g
  | Some index =>
      match destination e with
      | Some d => set_index g (<[n := increment d index]> (destination_edge_index g))
      | None => g
      end
  end.

Definition add_edge (a b : nat) (dest : option nat) (g : GraphInner) : option GraphInner :=
  match dest with
  | Some _ =>
      let e := mkEdge a b dest in
      g ← set_edge e g;
      Some (add_edge_to_destination_index e g)
  | None =>
      vertex ← nodes g !! a;
      if has_authoritative_index (vertex_type vertex) then None
      else set_edge (mkEdge a b None) g
  end.

(** ** Deletions *)

Definition delete_vertex (t : VertexType) (ns nm : string) (g : GraphInner) : GraphInner :=
  match get_vertex_id g t ns nm with
  | None => g
  | Some vertex =>
      let downstream := filter (fun n => degree g n = 1) (neighbors_from g vertex) in
      let upstream := neighbors_to g vertex in
      let neighbors_to_remove := downstream ++ filter (fun n => degree g n = 1) upstream in
      let edges_to_remove_from_indexes :=
        omap (edge_between g vertex) (filter (fun n => degree g n <> 1) upstream) in
      let g := remove_vertex vertex g in
      let g := foldl (fun g n => remove_vertex n g) g neighbors_to_remove in
      foldl (fun g e => remove_edge_from_destination_index e g) g edges_to_remove_from_indexes
  end.

(** [None] when [self.nodes[&from]] indexes an absent vertex. *)
Definition delete_edges (from_type to_type : VertexType) (to_namespace to_name : string)
    (g : GraphInner) : option GraphInner :=
  match get_vertex_id g to_type to_namespace to_name with
  | None => Some g
  | Some to_vert =>
      sources ← mapM (fun n => v ← nodes g !! n; Some (n, v)) (neighbors_to g to_vert);
      let sources := (filter (fun nv => vertex_type nv.2 = from_type) sources).*1 in
      let neighbors_to_remove := filter (fun n => degree g n = 1) sources in
      let edges_to_remove :=
        omap (fun n => edge_between g n to_vert) (filter (fun n => degree g n <> 1) sources) in
      let g := foldl (fun g n => remove_vertex n g) g neighbors_to_remove in
      Some (foldl (fun g e => remove_edge_from_destination_index e (remove_edge e g)) g
              edges_to_remove)
  end.

(** ** The search for a path *)

(** What one step of the walk leaves. *)
Inductive Walk :=
| Found
| Continue (visited : gset nat) (stack : list nat).

(** The [for] over the neighbours of [t]; [stack] is pushed at its head. *)
Fixpoint visit_neighbors (g : GraphInner) (node_vertex t : nat) (visited : gset nat)
    (stack ns : list nat) : Walk :=
  match ns with
  | [] => Continue visited stack
  | n :: ns =>
      let go (found : bool) :=
        if decide (n ∈ visited) then
          if found then Found else visit_neighbors g node_vertex t visited stack ns
        else if found || bool_decide (n = node_vertex) then Found
        else visit_neighbors g node_vertex t (visited ∪ {[n]}) (n :: stack) ns in
      match edge_between g t n ≫= destination with
      | Some d => if decide (d = node_vertex) then go true
                  else visit_neighbors g node_vertex t visited stack ns
      | None => go false
      end
  end.

(** The ['walk] loop.  [None] is out of fuel. *)
Fixpoint walk (fuel : nat) (g : GraphInner) (node_vertex : nat) (visited : gset nat)
    (stack : list nat) : option bool :=
  match fuel with
  | 0 => None
  | S fuel =>
      match stack with
      | [] => Some false
      | t :: stack =>
          match visit_neighbors g node_vertex t visited stack (neighbors_from g t) with
          | Found => Some true
          | Continue visited stack => walk fuel g node_vertex visited stack
          end
      end
  end.

(** A vertex is pushed at most once, so the walk ends after as many turns as there
    are vertices. *)
Definition walk_from (g : GraphInner) (start node_vertex : nat) : option bool :=
  if decide (start = node_vertex) then Some true
  else walk (S (S (size (nodes g)))) g node_vertex {[start]} [start].

Definition no_relationship (node_name : string) (t : VertexType) (ns nm : string) : string :=
  "node '" +:+ node_name +:+ "' cannot get " +:+ type_name t +:+ " " +:+ ns +:+ "/" +:+ nm
  +:+ ", no relationship to this object was found in the node authorizer graph".

(** [None] is a walk that does not end. *)
Definition has_path_from (g : GraphInner) (node_name : string) (t : VertexType) (ns nm : string)
    : option (result bool string) :=
  match get_vertex_id g Node "" node_name with
  | None => Some (Err ("unknown node '" +:+ node_name +:+ "' cannot get " +:+ type_name t
                       +:+ " " +:+ ns +:+ "/" +:+ nm))
  | Some node_vertex =>
      match get_vertex_id g t ns nm with
      | None => Some (Err ("node '" +:+ node_name +:+ "' cannot get unknown " +:+ type_name t
                           +:+ " " +:+ ns +:+ "/" +:+ nm))
      | Some starting_vertex =>
          let search :=
            found ← walk_from g starting_vertex node_vertex;
            Some (if found : bool then Ok true else Err (no_relationship node_name t ns nm)) in
          match destination_edge_index g !! starting_vertex with
          | Some index =>
              if has index node_vertex then Some (Ok true)
              else if has_authoritative_index t
                   then Some (Err (no_relationship node_name t ns nm))
              else search
          | None => search
          end
      end
  end.

End Graph.
