(* ===== verification/NodeGraphPods.v ===== *)
(** * The objects behind the node graph

    The second half of [crates/common/src/authz/node_graph.rs]: which secrets,
    config maps and claims a pod or a persistent volume refers to, the handlers
    that turn an object into edges, and the populator.

    The objects hold the fields the handlers read.  The handlers read the untyped
    volume sources from the [serde_json] value of the volume or of the volume's
    specification; that value is a field of the record. *)

From stdpp Require Import strings.
From S2P Require Import Prelude RustText BTree Json NodeGraph.

Local Open Scope nat_scope.

(** ** Objects *)

(** An [EnvVar] or [EnvFromSource]: the names of the secret and of the config map it
    refers to. *)
Record EnvRef := mkEnvRef {
  env_secret : option string;
  env_config_map : option string
}.

Record Container := mkContainer {
  env : option (list EnvRef);
  env_from : option (list EnvRef)
}.

Record Volume := mkVolume {
  volume_name : string;
  persistent_volume_claim : option string;
  ephemeral : bool;
  (** the sources of a projected volume: the config map each one refers to *)
  projected : option (option (list (option (option string))));
  config_map : option (option string);
  (** [serde_json::to_value(volume)] *)
  volume_value : option Json
}.

Record PodResourceClaim := mkPodResourceClaim {
  claim_name : string;
  resource_claim_name_field : option string;
  resource_claim_template_name : option string
}.

Record GPodSpec := mkGPodSpec {
  node_name : option string;
  service_account_name : option string;
  image_pull_secrets : option (list string);
  init_containers : option (list Container);
  containers : list Container;
  ephemeral_containers : option (list Container);
  volumes : option (list Volume);
  resource_claims : option (list PodResourceClaim)
}.

Record GPodStatus := mkGPodStatus {
  resource_claim_statuses : option (list (string * option string));
  extended_resource_claim_name : option string
}.

Record GPod := mkGPod {
  gpod_name : string;
  gpod_namespace : option string;
  gpod_uid : string;
  gpod_annotations : option (gmap string string);
  gpod_spec : option GPodSpec;
  gpod_status : option GPodStatus
}.

Record PersistentVolume := mkPersistentVolume {
  pv_name : string;
  (** namespace and name of [spec.claim_ref] *)
  claim_ref : option (option string * option string);
  (** [serde_json::to_value(&pv.spec)] *)
  pv_spec_value : option Json
}.

Definition MIRROR_POD_ANNOTATION_KEY : string := "kubernetes.io/config.mirror".

(** ** The references of a pod *)

(** [Value::get]. *)
Definition json_get (v : Json) (k : string) : option Json :=
  match v with JObject m => obj_get k m | _ => None end.

Definition as_str (v : Json) : option string := match v with JString s => Some s | _ => None end.

Fixpoint json_str (v : Json) (p : list string) : option string :=
  match p with
  | [] => as_str v
  | k :: p => match json_get v k with Some w => json_str w p | None => None end
  end.

Definition json_present (v : Json) (k : string) : option Json :=
  match json_get v k with Some JNull | None => None | Some w => Some w end.

(** The closure [push]: an empty name is skipped. *)
Definition push (n : string) : list string := if decide (n = "") then [] else [n].

Definition resource_claim_name (pod : GPod) (pod_claim : PodResourceClaim) : option string :=
  match resource_claim_name_field pod_claim with
  | Some nm => Some nm
  | None =>
      match resource_claim_template_name pod_claim with
      | Some _ =>
          match find (fun status => bool_decide (status.1 = claim_name pod_claim))
                  (default [] (gpod_status pod ≫= resource_claim_statuses)) with
          | Some status => status.2
          | None => None
          end
      | None => None
      end
  end.

(** [visit_container_env]: the containers in the order they are visited. *)
Definition all_containers (spec : GPodSpec) : list Container :=
  default [] (init_containers spec) ++ containers spec ++ default [] (ephemeral_containers spec).

Definition env_refs (f : EnvRef -> option string) (c : Container) : list string :=
  (default [] (env_from c) ++ default [] (env c)) ≫= fun e =>
    match f e with Some n => push n | None => [] end.

Definition secret_ref_name (s : Json) : list string :=
  match json_str s ["secretRef"; "name"] with Some n => push n | None => [] end.

(** The secrets of one serialized volume: the first source that is present. *)
Definition volume_secret_names (source : Json) : list string :=
  match json_present source "azureFile" with
  | Some s => push (default "" (json_str s ["secretName"]))
  | None =>
  match json_present source "cephfs" with Some s => secret_ref_name s | None =>
  match json_present source "cinder" with Some s => secret_ref_name s | None =>
  match json_present source "flexVolume" with Some s => secret_ref_name s | None =>
  match json_present source "projected" with
  | Some s =>
      match json_get s "sources" with
      | Some (JArray l) => l ≫= fun src =>
          match json_present src "secret" with
          | Some secret => push (default "" (json_str secret ["name"]))
          | None => []
          end
      | _ => []
      end
  | None =>
  match json_present source "rbd" with Some s => secret_ref_name s | None =>
  match json_present source "secret" with
  | Some s => push (default "" (json_str s ["secretName"]))
  | None =>
  match json_present source "scaleIO" with Some s => secret_ref_name s | None =>
  match json_present source "iscsi" with Some s => secret_ref_name s | None =>
  match json_present source "storageos" with Some s => secret_ref_name s | None =>
  match json_present source "csi" with
  | Some s => match json_str s ["nodePublishSecretRef"; "name"] with
              | Some n => push n
              | None => []
              end
  | None => []
  end end end end end end end end end end end.

Definition visit_pod_secret_names (pod : GPod) : list string :=
  match gpod_spec pod with
  | None => []
  | Some spec =>
      (default [] (image_pull_secrets spec) ≫= push)
      ++ (all_containers spec ≫= env_refs env_secret)
      ++ (default [] (volumes spec) ≫= fun v =>
            match volume_value v with Some source => volume_secret_names source | None => [] end)
  end.

Definition volume_config_map_names (v : Volume) : list string :=
  match projected v with
  | Some sources => default [] sources ≫= fun c =>
      match c with Some nm => push (default "" nm) | None => [] end
  | None => match config_map v with Some nm => push (default "" nm) | None => [] end
  end.

Definition visit_pod_configmap_names (pod : GPod) : list string :=
  match gpod_spec pod with
  | None => []
  | Some spec =>
      (all_containers spec ≫= env_refs env_config_map)
      ++ (default [] (volumes spec) ≫= volume_config_map_names)
  end.

(** The claim of a volume, the empty string for none. *)
Definition volume_claim_name (pod : GPod) (v : Volume) : string :=
  match persistent_volume_claim v with
  | Some c => c
  | None => if ephemeral v then gpod_name pod +:+ "-" +:+ volume_name v else ""
  end.

(** ** The references of a persistent volume *)

Definition pv_claim_ns (pv : PersistentVolume) : string :=
  default "" (claim_ref pv ≫= fst).

Definition pv_push (ns nm : string) (kubelet_visible : bool) : list (string * string * bool) :=
  if decide (nm = "") then [] else [(ns, nm, kubelet_visible)].

(** [s.get("secretRef").is_some_and(|r| !r.is_null())]. *)
Definition has_secret_ref (s : Json) : bool := bool_decide (is_Some (json_present s "secretRef")).

(** [ns_defaulting_to_claim], pushed. *)
Definition push_defaulting_to_claim (claim_ns : string) (s : Json) : list (string * string * bool) :=
  if has_secret_ref s then
    pv_push (default claim_ns (non_empty (json_str s ["secretRef"; "namespace"])))
      (default "" (json_str s ["secretRef"; "name"])) true
  else [].

Definition push_secret_ref (s : Json) : list (string * string * bool) :=
  if has_secret_ref s then
    pv_push (default "" (json_str s ["secretRef"; "namespace"]))
      (default "" (json_str s ["secretRef"; "name"])) true
  else [].

Definition csi_secret_refs : list (string * bool) :=
  [("controllerPublishSecretRef", false); ("controllerExpandSecretRef", false);
   ("nodePublishSecretRef", true); ("nodeStageSecretRef", true); ("nodeExpandSecretRef", true)].

Definition pv_value_secret_names (claim_ns : string) (spec : Json) : list (string * string * bool) :=
  match json_present spec "azureFile" with
  | Some s =>
      pv_push (default claim_ns (non_empty (json_str s ["secretNamespace"])))
        (default "" (json_str s ["secretName"])) true
  | None =>
  match json_present spec "cephfs" with Some s => push_defaulting_to_claim claim_ns s | None =>
  match json_present spec "cinder" with Some s => push_secret_ref s | None =>
  match json_present spec "flexVolume" with Some s => push_defaulting_to_claim claim_ns s | None =>
  match json_present spec "rbd" with Some s => push_defaulting_to_claim claim_ns s | None =>
  match json_present spec "scaleIO" with Some s => push_defaulting_to_claim claim_ns s | None =>
  match json_present spec "iscsi" with Some s => push_defaulting_to_claim claim_ns s | None =>
  match json_present spec "storageos" with Some s => push_secret_ref s | None =>
  match json_present spec "csi" with
  | Some s => csi_secret_refs ≫= fun '(field, visible) =>
      match json_present s field with
      | Some r => pv_push (default "" (json_str r ["namespace"])) (default "" (json_str r ["name"]))
                    visible
      | None => []
      end
  | None => []
  end end end end end end end end end.

Definition visit_pv_secret_names (pv : PersistentVolume) : list (string * string * bool) :=
  match pv_spec_value pv with
  | Some spec => pv_value_secret_names (pv_claim_ns pv) spec
  | None => []
  end.

(** ** The handlers of [NodeGraph] *)

Section Handlers.
Context `{!IdOrder}.

(** [get_or_create_vertex] and the edge to the pod. *)
Definition add_reference (ns : string) (pod_vertex node_vertex : nat) (t : VertexType) (nm : string)
    (g : GraphInner) : option GraphInner :=
  '(v, g) ← get_or_create_vertex t ns nm g;
  add_edge v pod_vertex (Some node_vertex) g.

Definition add_references (ns : string) (pod_vertex node_vertex : nat) (t : VertexType)
    (names : list string) (g : GraphInner) : option GraphInner :=
  foldl (fun og nm => g ← og; add_reference ns pod_vertex node_vertex t nm g) (Some g) names.

Definition is_mirror_pod (pod : GPod) : bool :=
  match gpod_annotations pod with
  | Some a => bool_decide (is_Some (a !! MIRROR_POD_ANNOTATION_KEY))
  | None => false
  end.

Definition graph_add_pod (pod : GPod) (g : GraphInner) : option GraphInner :=
  let ns := default "" (gpod_namespace pod) in
  let nm := gpod_name pod in
  let node := default "" (gpod_spec pod ≫= node_name) in
  let g := delete_vertex VPod ns nm g in
  '(pod_vertex, g) ← get_or_create_vertex VPod ns nm g;
  '(node_vertex, g) ← get_or_create_vertex Node "" node g;
  g ← add_edge pod_vertex node_vertex (Some node_vertex) g;
  if is_mirror_pod pod then Some g
  else match gpod_spec pod with
  | None => Some g
  | Some spec =>
      let refer := add_references ns pod_vertex node_vertex in
      g ← refer ServiceAccount (default [] (push <$> service_account_name spec)) g;
      g ← refer Secret (visit_pod_secret_names pod) g;
      g ← refer ConfigMap (visit_pod_configmap_names pod) g;
      g ← refer Pvc (default [] (volumes spec) ≫= fun v => push (volume_claim_name pod v)) g;
      g ← refer ResourceClaim (omap (resource_claim_name pod) (default [] (resource_claims spec))) g;
      refer ResourceClaim
        (default [] (push <$> (gpod_status pod ≫= extended_resource_claim_name))) g
  end.

Definition graph_delete_pod (nm ns : string) (g : GraphInner) : GraphInner :=
  delete_vertex VPod ns nm g.

(** An object with one edge, to its node: [add_pod_certificate_request], and
    [add_volume_attachment] and [add_resource_slice] with a node. *)
Definition add_node_object (t : VertexType) (ns nm node : string) (g : GraphInner)
    : option GraphInner :=
  '(v, g) ← get_or_create_vertex t ns nm g;
  '(node_vertex, g) ← get_or_create_vertex Node "" node g;
  add_edge v node_vertex (Some node_vertex) g.

Definition add_pod_certificate_request (ns nm node : string) (g : GraphInner) : option GraphInner :=
  add_node_object Pcr ns nm node (delete_vertex Pcr ns nm g).

Definition delete_pcr_by_key (ns nm : string) (g : GraphInner) : GraphInner :=
  delete_vertex Pcr ns nm g.

Definition add_volume_attachment (nm node : string) (g : GraphInner) : option GraphInner :=
  let g := delete_vertex Va "" nm g in
  if decide (node = "") then Some g else add_node_object Va "" nm node g.

Definition graph_delete_volume_attachment (nm : string) (g : GraphInner) : GraphInner :=
  delete_vertex Va "" nm g.

Definition add_resource_slice (nm node : string) (g : GraphInner) : option GraphInner :=
  let g := delete_vertex Slice "" nm g in
  if decide (node = "") then Some g else add_node_object Slice "" nm node g.

Definition delete_resource_slice (nm : string) (g : GraphInner) : GraphInner :=
  delete_vertex Slice "" nm g.

Definition add_pv_secret (pv_vertex : nat) (g : GraphInner) (s : string * string * bool)
    : option GraphInner :=
  let '(ns, secret, kubelet_visible) := s in
  if kubelet_visible : bool then
    '(v, g) ← get_or_create_vertex Secret ns secret g;
    add_edge v pv_vertex None g
  else Some g.

Definition add_pv (pv : PersistentVolume) (g : GraphInner) : option GraphInner :=
  let g := delete_vertex Pv "" (pv_name pv) g in
  match claim_ref pv with
  | None => Some g
  | Some (ns, nm) =>
      '(pv_vertex, g) ← get_or_create_vertex Pv "" (pv_name pv) g;
      '(pvc_vertex, g) ← get_or_create_vertex Pvc (default "" ns) (default "" nm) g;
      g ← add_edge pv_vertex pvc_vertex None g;
      foldl (fun og s => g ← og; add_pv_secret pv_vertex g s) (Some g) (visit_pv_secret_names pv)
  end.

Definition delete_pv (nm : string) (g : GraphInner) : GraphInner := delete_vertex Pv "" nm g.

End Handlers.

(** ** The populator *)

Record PodFingerprint := mkPodFingerprint {
  fp_node_name : string;
  fp_uid : string;
  fp_ephemeral_containers : nat;
  fp_claim_statuses : list (string * option string)
}.

Definition pod_node_name (pod : GPod) : string := default "" (gpod_spec pod ≫= node_name).

(** [PodFingerprint::of]. *)
Definition fingerprint (pod : GPod) : PodFingerprint :=
  mkPodFingerprint (pod_node_name pod) (gpod_uid pod)
    (match gpod_spec pod ≫= ephemeral_containers with Some l => length l | None => 0 end)
    (default [] (gpod_status pod ≫= resource_claim_statuses)).

Definition unchanged_from (new old : PodFingerprint) : bool :=
  bool_decide (fp_node_name new = fp_node_name old)
  && bool_decide (fp_uid new = fp_uid old)
  && negb (bool_decide (fp_ephemeral_containers old < fp_ephemeral_containers new))
  && bool_decide (fp_claim_statuses new = fp_claim_statuses old).

Record GraphPopulator := mkPopulator {
  p_graph : GraphInner;
  p_pods : gmap (string * string) PodFingerprint;
  p_attachments : gmap string string
}.

Definition populator_new (g : GraphInner) : GraphPopulator := mkPopulator g ∅ ∅.

Section Populator.
Context `{!IdOrder}.

Definition with_graph (p : GraphPopulator) (og : option GraphInner) : option GraphPopulator :=
  g ← og; Some (mkPopulator g (p_pods p) (p_attachments p)).

Definition update_pod (old : option GPod) (pod : GPod) (p : GraphPopulator) : option GraphPopulator :=
  if decide (pod_node_name pod = "") then Some p
  else if match old with
          | Some old => unchanged_from (fingerprint pod) (fingerprint old)
          | None => false
          end then Some p
  else with_graph p (graph_add_pod pod (p_graph p)).

Definition pod_key (pod : GPod) : string * string := (default "" (gpod_namespace pod), gpod_name pod).

Definition apply_pod (pod : GPod) (p : GraphPopulator) : option GraphPopulator :=
  if decide (pod_node_name pod = "") then Some p
  else if match p_pods p !! pod_key pod with
          | Some old => unchanged_from (fingerprint pod) old
          | None => false
          end then Some p
  else
    let p := mkPopulator (p_graph p) (<[pod_key pod := fingerprint pod]> (p_pods p)) (p_attachments p) in
    with_graph p (graph_add_pod pod (p_graph p)).

Definition delete_pod_by_key (ns nm : string) (p : GraphPopulator) : GraphPopulator :=
  mkPopulator (graph_delete_pod nm ns (p_graph p)) (delete (ns, nm) (p_pods p)) (p_attachments p).

Definition delete_pod (pod : GPod) (p : GraphPopulator) : GraphPopulator :=
  if decide (pod_node_name pod = "") then p
  else delete_pod_by_key (default "" (gpod_namespace pod)) (gpod_name pod) p.

Definition update_volume_attachment (old_node_name : option string) (nm node : string)
    (p : GraphPopulator) : option GraphPopulator :=
  if decide (old_node_name = Some node) then Some p
  else with_graph p (add_volume_attachment nm node (p_graph p)).

Definition apply_volume_attachment (nm node : string) (p : GraphPopulator) : option GraphPopulator :=
  if decide (p_attachments p !! nm = Some node) then Some p
  else
    let p := mkPopulator (p_graph p) (p_pods p) (<[nm := node]> (p_attachments p)) in
    with_graph p (add_volume_attachment nm node (p_graph p)).

Definition delete_volume_attachment (nm : string) (p : GraphPopulator) : GraphPopulator :=
  mkPopulator (graph_delete_volume_attachment nm (p_graph p)) (p_pods p) (delete nm (p_attachments p)).

End Populator.
