(* ===== verification/NodeGraphWf.v ===== *)
(** * Well-formedness of the node graph

    The invariant of [GraphInner]: ids and names are a bijection, edges are
    stored under both ends, a destination edge ends at its destination or one edge
    before it, and a destination index counts the destination edges of its vertex.
    Every operation of the graph preserves it, and changes the edges as its name
    says. *)

From stdpp Require Import strings.
From S2P Require Import Prelude RustText BTree Json NodeGraph.

Local Open Scope nat_scope.

(** A vertex by type, namespace and name. *)
Definition V : Type := VertexType * string * string.

Definition vname (v : NamedVertex) : V := (vertex_type v, vertex_namespace v, vertex_name v).

Definition name_id (vs : gmap VertexType (gmap string (gmap string nat))) (x : V) : option nat :=
  by_namespace ← vs !! x.1.1; by_name ← by_namespace !! x.1.2; by_name !! x.2.

Definition id_of (g : GraphInner) (x : V) : option nat := name_id (vertices g) x.

(** The directed edge from [a] to [b]. *)
Definition arc (g : GraphInner) (a b : nat) (o : option nat) : Prop :=
  edge_between g a b = Some (mkEdge a b o).

(** The edges of [n] that lead to the destination [d]. *)
Definition leads_to (n d : nat) (e : Edge) : Prop := from e = n /\ destination e = Some d.

#[export] Instance leads_to_dec n d e : Decision (leads_to n d e).
Proof. unfold leads_to. apply _. Defined.

(** The edges stored under [n]. *)
Definition adj (g : GraphInner) (n : nat) : gmap nat Edge := default ∅ (edges g !! n).

Definition dest_count (g : GraphInner) (n d : nat) : nat :=
  size (filter (fun ke => leads_to n d ke.2) (adj g n)).

(** What holds at every step inside an operation. *)
Record graph_core (g : GraphInner) : Prop := mkCore {
  core_id : forall i v, nodes g !! i = Some v -> vertex_id v = i /\ id_of g (vname v) = Some i;
  core_name : forall x i, id_of g x = Some i -> exists v, nodes g !! i = Some v /\ vname v = x;
  core_dom : forall i, is_Some (edges g !! i) <-> is_Some (nodes g !! i);
  core_edge : forall a b e, edge_between g a b = Some e ->
    edge_between g b a = Some e /\ a <> b
    /\ (e = mkEdge a b (destination e) \/ e = mkEdge b a (destination e));
  core_used : forall i, i ∈ used_ids g <-> is_Some (nodes g !! i);
  core_free : forall i, i ∈ free_ids g -> nodes g !! i = None;
  core_index : forall i, is_Some (destination_edge_index g !! i) -> is_Some (nodes g !! i)
}.

(** What holds between operations. *)
Record graph_wf (g : GraphInner) : Prop := mkWf {
  wf_core : graph_core g;
  wf_dest : forall a b d, arc g a b (Some d) ->
    (exists v, nodes g !! d = Some v /\ vertex_type v = Node) /\ (d = b \/ exists o, arc g b d o);
  wf_index : forall n m, destination_edge_index g !! n = Some m ->
    forall d, default 0 (m !! d) = dest_count g n d
}.

(** ** Reference counts *)

Lemma increment_count i s d :
  default 0 (increment i s !! d) = default 0 (s !! d) + (if decide (d = i) then 1 else 0).
Proof.
  unfold increment. destruct (decide (d = i)) as [->|Hd].
  - rewrite lookup_insert_eq. cbn [default from_option id]. lia.
  - by rewrite lookup_insert_ne // Nat.add_0_r.
Qed.

Lemma decrement_count i s d :
  default 0 (decrement i s !! d) = default 0 (s !! d) - (if decide (d = i) then 1 else 0).
Proof.
  unfold decrement. destruct (decide (d = i)) as [->|Hd].
  - destruct (s !! i) as [[|[|n]]|] eqn:Hs; cbn [default from_option id];
      rewrite ?lookup_delete_eq ?lookup_insert_eq /=; lia.
  - rewrite Nat.sub_0_r. destruct (default 0 (s !! i)) as [|[|n]];
      rewrite ?lookup_delete_ne ?lookup_insert_ne //.
Qed.

Lemma has_count s i : has s i = true <-> 0 < default 0 (s !! i).
Proof. apply bool_decide_eq_true. Qed.

(** ** Vertices by name *)

Lemma get_vertex_id_of g t ns nm :
  graph_core g -> get_vertex_id g t ns nm = id_of g (t, ns, nm).
Proof.
  intros Hc. unfold get_vertex_id, get_vertex, id_of, name_id. cbn [fst snd].
  destruct (vertices g !! t) as [by_ns|] eqn:H1; [|done]. cbn [mbind option_bind].
  destruct (by_ns !! ns) as [by_name|] eqn:H2; [|done]. cbn [mbind option_bind].
  destruct (by_name !! nm) as [i|] eqn:H3; [|done]. cbn [mbind option_bind].
  destruct (core_name g Hc (t, ns, nm) i) as (v & Hv & _).
  { unfold id_of, name_id. cbn [fst snd]. rewrite H1. cbn [mbind option_bind]. by rewrite H2. }
  rewrite Hv /=. f_equal. by apply (core_id g Hc).
Qed.

Lemma id_of_inj g x y i : graph_core g -> id_of g x = Some i -> id_of g y = Some i -> x = y.
Proof.
  intros Hc Hx Hy. destruct (core_name g Hc x i Hx) as (v & Hv & <-).
  destruct (core_name g Hc y i Hy) as (w & Hw & <-). congruence.
Qed.

Lemma name_id_insert vs t ns nm i x :
  name_id (<[t := <[ns := <[nm := i]> (default ∅ (default ∅ (vs !! t) !! ns))]>
             (default ∅ (vs !! t))]> vs) x
  = if decide (x = (t, ns, nm)) then Some i else name_id vs x.
Proof.
  destruct x as [[t' ns'] nm']. unfold name_id. cbn [fst snd].
  destruct (decide (t' = t)) as [->|Ht].
  2: { rewrite lookup_insert_ne //. rewrite decide_False //. congruence. }
  rewrite lookup_insert_eq. cbn [mbind option_bind].
  destruct (decide (ns' = ns)) as [->|Hns].
  2: { rewrite lookup_insert_ne // decide_False; [congruence|]. by destruct (vs !! t). }
  rewrite lookup_insert_eq. cbn [mbind option_bind].
  destruct (decide (nm' = nm)) as [->|Hnm].
  - rewrite lookup_insert_eq decide_True //.
  - rewrite lookup_insert_ne // decide_False; [congruence|].
    destruct (vs !! t) as [m|]; [|done]. cbn [default from_option id mbind option_bind].
    by destruct (m !! ns).
Qed.

Lemma name_id_drop vs v x :
  name_id (drop_vertex_name v vs) x = if decide (x = vname v) then None else name_id vs x.
Proof.
  destruct x as [[t ns] nm]. unfold drop_vertex_name, vname, name_id. cbn [fst snd].
  destruct v as [vt vns vnm vid]. cbn [vertex_type vertex_namespace vertex_name].
  destruct (vs !! vt) as [m|] eqn:Hm.
  2: { case_decide; [|done]. simplify_eq. by rewrite Hm. }
  destruct (m !! vns) as [b|] eqn:Hb.
  2: { case_decide; [|done]. simplify_eq. rewrite Hm. cbn [mbind option_bind]. by rewrite Hb. }
  destruct (decide (t = vt)) as [->|Ht].
  2: { rewrite lookup_insert_ne // decide_False //. congruence. }
  rewrite lookup_insert_eq Hm. cbn [mbind option_bind].
  destruct (decide (ns = vns)) as [->|Hns].
  2: { rewrite (decide_False (P := (vt, ns, nm) = (vt, vns, vnm))); [congruence|].
       destruct (decide (delete vnm b = ∅)); rewrite ?lookup_delete_ne ?lookup_insert_ne //. }
  rewrite Hb. cbn [mbind option_bind].
  destruct (decide (nm = vnm)) as [->|Hnm].
  - rewrite (decide_True (P := (vt, vns, vnm) = (vt, vns, vnm))) //. destruct (decide (delete vnm b = ∅)).
    + by rewrite lookup_delete_eq.
    + rewrite lookup_insert_eq. cbn [mbind option_bind]. by rewrite lookup_delete_eq.
  - rewrite (decide_False (P := (vt, vns, nm) = (vt, vns, vnm))); [congruence|].
    destruct (decide (delete vnm b = ∅)) as [He|].
    + rewrite lookup_delete_eq. cbn [mbind option_bind].
      rewrite -(lookup_delete_ne b vnm nm) // He. done.
    + rewrite lookup_insert_eq. cbn [mbind option_bind]. by rewrite lookup_delete_ne.
Qed.

(** ** Edges *)

Lemma adj_lookup g n k : adj g n !! k = edge_between g n k.
Proof. unfold adj, edge_between. by destruct (edges g !! n). Qed.

Lemma degree_adj g n : degree g n = size (adj g n).
Proof. unfold degree, adj. by destruct (edges g !! n). Qed.

Lemma adj_ext g g' n : (forall k, edge_between g' n k = edge_between g n k) -> adj g' n = adj g n.
Proof. intros H. apply map_eq. intros k. by rewrite !adj_lookup H. Qed.

Lemma edge_node g a b e : graph_core g -> edge_between g a b = Some e -> is_Some (nodes g !! a).
Proof.
  intros Hc He. apply (core_dom g Hc). unfold edge_between in He.
  destruct (edges g !! a); [eauto|done].
Qed.

Lemma edge_node_r g a b e : graph_core g -> edge_between g a b = Some e -> is_Some (nodes g !! b).
Proof. intros Hc He. apply (core_edge g Hc) in He as [He _]. eauto using edge_node. Qed.

(** A vertex of degree one has one neighbour. *)
Lemma degree_one g n a b e f :
  degree g n = 1 -> edge_between g n a = Some e -> edge_between g n b = Some f -> a = b.
Proof.
  rewrite degree_adj -!adj_lookup. intros Hd Ha Hb. destruct (decide (a = b)); [done|].
  assert (size (delete a (adj g n)) = 0) as Hs.
  { pose proof (map_size_delete_Some a (adj g n) (mk_is_Some _ _ Ha)). lia. }
  apply map_size_empty_inv in Hs.
  assert (delete a (adj g n) !! b = Some f) as Hf by by rewrite lookup_delete_ne.
  by rewrite Hs lookup_empty in Hf.
Qed.

Lemma arc_nodes g a b o : graph_core g -> arc g a b o -> is_Some (nodes g !! a) /\ is_Some (nodes g !! b).
Proof. intros Hc H. split; [by eapply edge_node|by eapply edge_node_r]. Qed.

Lemma node_named g i : graph_core g -> is_Some (nodes g !! i) -> exists x, id_of g x = Some i.
Proof. intros Hc [v Hv]. exists (vname v). by apply (core_id g Hc). Qed.

(** ** Removing vertices *)

Lemma drop_from_neighbors_lookup id nb es a :
  drop_from_neighbors id nb es !! a
  = if decide (is_Some (nb !! a)) then delete id <$> es !! a else es !! a.
Proof.
  unfold drop_from_neighbors.
  assert (forall l, foldr (fun neighbor es => alter (delete id) neighbor es) es l !! a
    = if decide (a ∈ l) then delete id <$> es !! a else es !! a) as Hl.
  { induction l as [|n l IH]; [case_decide as Hx; [by apply elem_of_nil in Hx|done]|]. cbn [foldr].
    destruct (decide (n = a)) as [->|Hn].
    - rewrite lookup_alter_eq IH (decide_True (P := a ∈ a :: l)); [set_solver|].
      case_decide; [|done]. destruct (es !! a) as [m|]; [|done]. simpl. f_equal.
      apply delete_id, lookup_delete_eq.
    - rewrite lookup_alter_ne // IH. do 2 case_decide; set_solver. }
  rewrite Hl. destruct (decide (a ∈ _)) as [H1|H1], (decide (is_Some _)) as [H0|H0]; try done; exfalso.
  - apply H0. apply list_elem_of_fmap in H1 as ([k e] & -> & Hk%elem_of_map_to_list). eauto.
  - apply H1. destruct H0 as [e He]. apply list_elem_of_fmap. exists (a, e).
    split; [done|]. by apply elem_of_map_to_list.
Qed.

(** [g'] is [g] without the vertices of [l]. *)
Record removes (l : list nat) (g g' : GraphInner) : Prop := mkRemoves {
  rm_nodes : forall a, nodes g' !! a = if decide (a ∈ l) then None else nodes g !! a;
  rm_edges : forall a b, edge_between g' a b
               = if decide (a ∈ l \/ b ∈ l) then None else edge_between g a b;
  rm_id : forall x, id_of g' x = k ← id_of g x; if decide (k ∈ l) then None else Some k;
  rm_index : forall a, destination_edge_index g' !! a
               = if decide (a ∈ l) then None else destination_edge_index g !! a;
  rm_threshold : destination_edge_threshold g' = destination_edge_threshold g
}.

Lemma removes_nil g : removes [] g g.
Proof.
  split; intros; try done;
    try (case_decide as H; [exfalso; set_solver|done]).
  destruct (id_of g x) as [k|]; [|done]. cbn [mbind option_bind].
  case_decide as H; [set_solver|done].
Qed.

Lemma removes_app l l' g g1 g2 :
  removes l g g1 -> removes l' g1 g2 -> removes (l ++ l') g g2.
Proof.
  intros [A1 A2 A3 A4 A5] [B1 B2 B3 B4 B5]. split.
  - intros a. rewrite B1 A1. repeat case_decide; set_solver.
  - intros a b. rewrite B2 A2. repeat case_decide; set_solver.
  - intros x. rewrite B3 A3. destruct (id_of g x) as [k|]; [|done]. cbn [mbind option_bind].
    repeat case_decide; cbn [mbind option_bind]; repeat case_decide; set_solver.
  - intros a. rewrite B4 A4. repeat case_decide; set_solver.
  - by rewrite B5.
Qed.

Lemma edges_remove_node g i v a :
  graph_core g -> nodes g !! i = Some v ->
  edges (remove_node i g) !! a = if decide (a = i) then None else delete i <$> edges g !! a.
Proof.
  intros Hc Hv. unfold remove_node. rewrite Hv. cbn [edges].
  destruct (proj2 (core_dom g Hc i) (mk_is_Some _ _ Hv)) as [nb Hnb]. rewrite Hnb.
  rewrite drop_from_neighbors_lookup. destruct (decide (a = i)) as [->|Ha].
  - rewrite lookup_delete_eq. by case_decide.
  - rewrite lookup_delete_ne //. case_decide as Hn; [done|].
    destruct (edges g !! a) as [m|] eqn:Hm; [|done]. simpl. f_equal. symmetry. apply delete_id.
    apply eq_None_not_Some. intros [e He]. apply Hn.
    assert (edge_between g a i = Some e) as Hei by (unfold edge_between; by rewrite Hm).
    apply (core_edge g Hc) in Hei as [Hei _]. unfold edge_between in Hei. rewrite Hnb in Hei. eauto.
Qed.

Lemma remove_vertex_removes g i :
  graph_core g -> removes [i] g (remove_vertex i g).
Proof.
  intros Hc. unfold remove_vertex. destruct (nodes g !! i) as [v|] eqn:Hv.
  2: { assert (forall a, edge_between g i a = None) as Hi.
       { intros a. apply eq_None_not_Some. intros [e He]. apply (edge_node g) in He; [|done].
         rewrite Hv in He. by destruct He. }
       split; try done.
       - intros a. case_decide as Ha; [|done]. apply list_elem_of_singleton in Ha. congruence.
       - intros a b. case_decide as Ha; [|done]. rewrite !list_elem_of_singleton in Ha.
         destruct Ha as [->| ->]; [done|]. apply eq_None_not_Some. intros [e He].
         apply (core_edge g Hc) in He as [He _]. congruence.
       - intros x. destruct (id_of g x) as [k|] eqn:Hk; [|done]. cbn [mbind option_bind].
         case_decide as H; [|done]. apply list_elem_of_singleton in H as ->.
         apply (core_name g Hc) in Hk as (w & Hw & _). congruence.
       - intros a. case_decide as Ha; [|done]. apply list_elem_of_singleton in Ha as ->.
         apply eq_None_not_Some. intros Hx%(core_index g Hc). rewrite Hv in Hx. by destruct Hx. }
  pose proof (edges_remove_node g i v) as He. unfold remove_node in *. rewrite Hv in He |- *.
  cbn [edges set_index set_vertices nodes vertices destination_edge_index] in *.
  split; cbn [set_index set_vertices nodes vertices destination_edge_index destination_edge_threshold].
  - intros a. case_decide as Ha; rewrite list_elem_of_singleton in Ha;
      [subst; by rewrite lookup_delete_eq|by rewrite lookup_delete_ne].
  - intros a b. unfold edge_between at 1.
    cbn [set_index set_vertices edges]. rewrite He //.
    destruct (decide (a ∈ [i] \/ b ∈ [i])) as [Hab|Hab]; rewrite !list_elem_of_singleton in Hab.
    + destruct (decide (a = i)) as [->|Ha]; [done|]. destruct Hab as [|Hb]; [done|]. subst b.
      destruct (edges g !! a) as [m|]; [|done]. apply lookup_delete_eq.
    + rewrite decide_False; [tauto|]. unfold edge_between.
      destruct (edges g !! a) as [m|]; [|done]. apply lookup_delete_ne. naive_solver.
  - intros x. unfold id_of at 1. cbn [vertices set_index set_vertices]. rewrite name_id_drop.
    fold (id_of g x). pose proof (core_id g Hc i v Hv) as [_ Hid].
    case_decide as Hx; [subst; rewrite Hid; cbn [mbind option_bind]|].
    + by rewrite decide_True; [set_solver|].
    + destruct (id_of g x) as [k|] eqn:Hk; [|done]. cbn [mbind option_bind].
      rewrite decide_False //. rewrite list_elem_of_singleton. intros ->.
      apply Hx. by eapply id_of_inj.
  - intros a. case_decide as Ha; rewrite list_elem_of_singleton in Ha;
      [subst; by rewrite lookup_delete_eq|by rewrite lookup_delete_ne].
  - done.
Qed.

Lemma remove_vertex_ids g i a :
  graph_core g ->
  (a ∈ used_ids (remove_vertex i g) <-> a ∈ used_ids g /\ a <> i)
  /\ (a ∈ free_ids (remove_vertex i g) -> a ∈ free_ids g \/ a = i)
  /\ (is_Some (edges (remove_vertex i g) !! a) <-> is_Some (edges g !! a) /\ a <> i).
Proof.
  intros Hc. unfold remove_vertex. destruct (nodes g !! i) as [v|] eqn:Hv.
  - pose proof (edges_remove_node g i v a Hc Hv) as He. unfold remove_node in *. rewrite Hv in He |- *.
    cbn [set_index set_vertices used_ids free_ids edges] in *. rewrite He. split_and!; [set_solver..|].
    case_decide; [|rewrite fmap_is_Some; tauto]. split; [by intros [? ?]|tauto].
  - assert (forall b, is_Some (nodes g !! b) -> b <> i) as Hne by (intros b [w Hw] ->; congruence).
    split_and!; [|tauto|].
    + rewrite (core_used g Hc). naive_solver.
    + rewrite (core_dom g Hc). naive_solver.
Qed.

Lemma remove_vertex_core g i : graph_core g -> graph_core (remove_vertex i g).
Proof.
  intros Hc. destruct (remove_vertex_removes g i Hc) as [R1 R2 R3 R4 R5]. split.
  - intros a v Ha. rewrite R1 in Ha. case_decide as Hi; [done|].
    destruct (core_id g Hc a v Ha) as [H1 H2]. split; [done|].
    rewrite R3 H2. cbn [mbind option_bind]. by rewrite decide_False.
  - intros x a Hx. rewrite R3 in Hx. apply bind_Some in Hx as (k & Hk & Hx).
    case_decide as Hi; [done|]. injection Hx as ->.
    destruct (core_name g Hc x a Hk) as (v & Hv & <-). exists v. split; [|done].
    by rewrite R1 decide_False.
  - intros a. destruct (remove_vertex_ids g i a Hc) as (_ & _ & ->). rewrite R1 (core_dom g Hc).
    case_decide as Hi; rewrite list_elem_of_singleton in Hi; [|naive_solver].
    split; [tauto|by intros [? ?]].
  - intros a b e He. rewrite R2 in He. case_decide as Hi; [done|].
    destruct (core_edge g Hc a b e He) as (H1 & H2 & H3). split_and!; [|done..].
    rewrite R2 decide_False //. tauto.
  - intros a. destruct (remove_vertex_ids g i a Hc) as (-> & _). rewrite R1 (core_used g Hc).
    case_decide as Hi; rewrite list_elem_of_singleton in Hi; [|naive_solver].
    split; [tauto|by intros [? ?]].
  - intros a Ha. apply (remove_vertex_ids g i a Hc) in Ha. rewrite R1.
    case_decide as Hi; rewrite list_elem_of_singleton in Hi; [done|].
    destruct Ha; [|done]. by apply (core_free g Hc).
  - intros a. rewrite R4 R1. case_decide; [by intros [? ?]|]. apply (core_index g Hc).
Qed.

Lemma remove_vertices_spec l : forall g,
  graph_core g ->
  let g' := foldl (fun g n => remove_vertex n g) g l in
  graph_core g' /\ removes l g g'.
Proof.
  induction l as [|i l IH]; intros g Hc; cbn [foldl]; [auto using removes_nil|].
  destruct (IH (remove_vertex i g)) as [Hc' Hr]; [by apply remove_vertex_core|]. split; [done|].
  by apply (removes_app [i] l _ (remove_vertex i g)); [apply remove_vertex_removes|].
Qed.

(** ** Neighbours *)

Section Neighbors.
Context `{IO : !IdOrder}.

Lemma elem_of_id_iter {A} (m : gmap nat A) k x : (k, x) ∈ id_iter m <-> m !! k = Some x.
Proof. by rewrite id_iter_perm elem_of_map_to_list. Qed.

Lemma elem_of_neighbors_from g a b :
  graph_core g -> b ∈ neighbors_from g a <-> exists o, arc g a b o.
Proof.
  intros Hc. unfold neighbors_from, arc.
  assert (forall b, edge_between g a b = edges g !! a ≫= lookup b) as Heb by done.
  destruct (edges g !! a) as [m|] eqn:Hm.
  2: { split; [set_solver|]. intros [o Ho]. by rewrite Heb in Ho. }
  cbn [mbind option_bind] in Heb. rewrite list_elem_of_fmap. split.
  - intros (e & -> & He). apply list_elem_of_filter in He as [Hf He].
    apply list_elem_of_fmap in He as ([k e'] & -> & Hk). apply elem_of_id_iter in Hk. cbn [snd] in *.
    rewrite -Heb in Hk. destruct (core_edge g Hc a k e' Hk) as (_ & Hne & [E|E]); rewrite E in Hf Hk |- *;
      cbn [from to] in *; [eauto|congruence].
  - intros [o Ho]. rewrite Heb in Ho. exists (mkEdge a b o). split; [done|].
    apply list_elem_of_filter. split; [done|]. apply list_elem_of_fmap. exists (b, mkEdge a b o).
    split; [done|]. by apply elem_of_id_iter.
Qed.

Lemma elem_of_neighbors_to g a b :
  graph_core g -> b ∈ neighbors_to g a <-> exists o, arc g b a o.
Proof.
  intros Hc. unfold neighbors_to, arc.
  assert (forall b, edge_between g a b = edges g !! a ≫= lookup b) as Heb by done.
  destruct (edges g !! a) as [m|] eqn:Hm.
  2: { split; [set_solver|]. intros [o Ho]. apply (core_edge g Hc) in Ho as [Ho _].
       by rewrite Heb in Ho. }
  cbn [mbind option_bind] in Heb. rewrite list_elem_of_fmap. split.
  - intros (e & -> & He). apply list_elem_of_filter in He as [Hf He].
    apply list_elem_of_fmap in He as ([k e'] & -> & Hk). apply elem_of_id_iter in Hk. cbn [snd] in *.
    rewrite -Heb in Hk. destruct (core_edge g Hc a k e' Hk) as (Hk' & Hne & [E|E]); rewrite E in Hf Hk' |- *;
      cbn [from to] in *; [congruence|eauto].
  - intros [o Ho]. apply (core_edge g Hc) in Ho as [Ho _]. rewrite Heb in Ho.
    exists (mkEdge b a o). split; [done|].
    apply list_elem_of_filter. split; [done|]. apply list_elem_of_fmap. exists (b, mkEdge b a o).
    split; [done|]. by apply elem_of_id_iter.
Qed.

Lemma NoDup_neighbors_to g a : graph_core g -> NoDup (neighbors_to g a).
Proof.
  intros Hc. unfold neighbors_to. destruct (edges g !! a) as [m|] eqn:Hm; [|constructor].
  assert (forall k e, m !! k = Some e -> to e = a -> from e = k) as Hk.
  { intros k e He Ht. destruct (core_edge g Hc a k e) as (_ & Hne & [E|E]).
    - unfold edge_between. by rewrite Hm.
    - rewrite E in Ht. by cbn [to] in Ht.
    - by rewrite E. }
  assert (NoDup (id_iter m).*1) as Hnd by (rewrite id_iter_perm; apply NoDup_fst_map_to_list).
  assert (forall k e, (k, e) ∈ id_iter m -> m !! k = Some e) as Hin by (intros k e; apply elem_of_id_iter).
  induction (id_iter m) as [|[k e] l IH]; [constructor|].
  rewrite fmap_cons in Hnd. apply NoDup_cons in Hnd as [Hnk Hnd].
  rewrite fmap_cons filter_cons. cbn [snd].
  assert (NoDup (from <$> filter (fun e => to e = a) l.*2)) as HIH.
  { apply IH; [done|]. intros k' e' H'. apply Hin. by right. }
  case_decide as Ht; [|done]. rewrite fmap_cons. apply NoDup_cons. split; [|done].
  rewrite (Hk k e) //; [apply Hin; by left|]. intros Hf. apply Hnk.
  apply list_elem_of_fmap in Hf as (e' & Hfe & He'). apply list_elem_of_filter in He' as [Ht' He'].
  apply list_elem_of_fmap in He' as ([k' e''] & E & He'). cbn [snd] in E. subst e''.
  rewrite (Hk k' e') in Hfe; [apply Hin; by right|done|]. subst k'.
  apply list_elem_of_fmap. by exists (k, e').
Qed.

End Neighbors.

(** ** Counting destination edges *)

Lemma size_filter_delete {A} (P : nat * A -> Prop) `{!forall x, Decision (P x)} (m : gmap nat A) i :
  size (filter P (delete i m))
  = size (filter P m) - match m !! i with Some e => if decide (P (i, e)) then 1 else 0 | None => 0 end.
Proof.
  rewrite map_filter_delete map_size_delete map_lookup_filter.
  destruct (m !! i) as [e|]; cbn [mbind option_bind]; [|unfold id; lia].
  unfold guard. destruct (decide (P (i, e))) as [Hp|Hp]; cbn; [|unfold id]; lia.
Qed.

Lemma size_filter_insert {A} (P : nat * A -> Prop) `{!forall x, Decision (P x)} (m : gmap nat A) i e :
  m !! i = None ->
  size (filter P (<[i := e]> m)) = size (filter P m) + (if decide (P (i, e)) then 1 else 0).
Proof.
  intros Hi. destruct (decide (P (i, e))) as [Hp|Hp].
  - rewrite map_filter_insert_True // map_size_insert_None; [|lia].
    apply map_lookup_filter_None. by left.
  - rewrite map_filter_insert_False // delete_id // Nat.add_0_r //.
Qed.

Lemma dest_count_ext g g' n d :
  (forall k, edge_between g' n k = edge_between g n k) -> dest_count g' n d = dest_count g n d.
Proof. intros H. unfold dest_count. by rewrite (adj_ext g g' n H). Qed.

(** The count of [n] when its edge to [i] goes away. *)
Lemma dest_count_drop g g' n i d :
  (forall k, edge_between g' n k = if decide (k = i) then None else edge_between g n k) ->
  dest_count g' n d
  = dest_count g n d
    - match edge_between g n i with Some e => if decide (leads_to n d e) then 1 else 0 | None => 0 end.
Proof.
  intros H. unfold dest_count.
  assert (adj g' n = delete i (adj g n)) as ->.
  { apply map_eq. intros k. rewrite adj_lookup H. destruct (decide (k = i)) as [->|].
    - by rewrite lookup_delete_eq.
    - by rewrite lookup_delete_ne // adj_lookup. }
  by rewrite size_filter_delete adj_lookup.
Qed.

(** The count of [n] when an edge to [i] is added. *)
Lemma dest_count_add g g' n i e d :
  edge_between g n i = None ->
  (forall k, edge_between g' n k = if decide (k = i) then Some e else edge_between g n k) ->
  dest_count g' n d = dest_count g n d + (if decide (leads_to n d e) then 1 else 0).
Proof.
  intros Hi H. unfold dest_count.
  assert (adj g' n = <[i := e]> (adj g n)) as ->.
  { apply map_eq. intros k. rewrite adj_lookup H. destruct (decide (k = i)) as [->|].
    - by rewrite lookup_insert_eq.
    - by rewrite lookup_insert_ne // adj_lookup. }
  by rewrite size_filter_insert // adj_lookup.
Qed.

(** ** Deleting edges from the index *)

Lemma remove_from_index_eq e g :
  exists ix, remove_edge_from_destination_index e g = set_index g ix
    /\ (forall n, n <> from e -> ix !! n = destination_edge_index g !! n)
    /\ ix !! from e = if decide (degree g (from e) < destination_edge_threshold g) then None
                      else match destination e with
                           | Some d => decrement d <$> destination_edge_index g !! from e
                           | None => destination_edge_index g !! from e
                           end.
Proof.
  unfold remove_edge_from_destination_index. case_decide as Hd.
  - eexists; split_and!; [done| |apply lookup_delete_eq]. intros n Hn. by rewrite lookup_delete_ne.
  - destruct (destination_edge_index g !! from e) as [m|] eqn:Hm.
    + destruct (destination e) as [d|].
      * eexists; split_and!; [done| |by rewrite lookup_insert_eq].
        intros n Hn. by rewrite lookup_insert_ne.
      * exists (destination_edge_index g). by destruct g.
    + exists (destination_edge_index g). split_and!; [by destruct g|done|]. rewrite Hm. by destruct (destination e).
Qed.

Lemma remove_from_indexes_eq es : forall g,
  NoDup (from <$> es) ->
  exists ix, foldl (fun g e => remove_edge_from_destination_index e g) g es = set_index g ix
    /\ (forall n, n ∉ from <$> es -> ix !! n = destination_edge_index g !! n)
    /\ (forall e, e ∈ es ->
          ix !! from e = if decide (degree g (from e) < destination_edge_threshold g) then None
                         else match destination e with
                              | Some d => decrement d <$> destination_edge_index g !! from e
                              | None => destination_edge_index g !! from e
                              end).
Proof.
  induction es as [|e es IH]; intros g Hnd; cbn [foldl].
  - exists (destination_edge_index g). split_and!; [by destruct g|done|set_solver].
  - rewrite fmap_cons in Hnd. apply NoDup_cons in Hnd as [Hn Hnd].
    destruct (remove_from_index_eq e g) as (ix & -> & Hix & Hixe).
    destruct (IH (set_index g ix) Hnd) as (ix' & -> & Hix' & Hixe').
    cbn [destination_edge_index set_index] in *.
    exists ix'. split_and!; [done| |].
    + intros n Hne. rewrite fmap_cons in Hne. rewrite Hix'; [set_solver|]. apply Hix. set_solver.
    + intros f [->|Hf]%elem_of_cons; [by rewrite Hix'|]. rewrite Hixe' //.
      assert (from f <> from e) as Hfe by (intros Heq; apply Hn; rewrite -Heq; set_solver).
      rewrite Hix //.
Qed.

(** ** Deleting a vertex *)

Section Delete.
Context `{IO : !IdOrder}.

Lemma omap_neighbors g i (l : list nat) :
  graph_core g -> (forall n, n ∈ l -> exists o, arc g n i o) ->
  from <$> omap (edge_between g i) l = l
  /\ forall e, e ∈ omap (edge_between g i) l -> arc g (from e) i (destination e).
Proof.
  intros Hc. induction l as [|n l IH]; intros Hl; [split; [done|set_solver]|].
  destruct (Hl n) as [o Ho]; [by left|].
  destruct IH as [IH1 IH2]; [intros k Hk; apply Hl; by right|].
  assert (edge_between g i n = Some (mkEdge n i o)) as He by by apply (core_edge g Hc) in Ho as [? _].
  simpl. rewrite He. split; [by rewrite fmap_cons IH1|].
  intros e [->|Hin]%elem_of_cons; [done|auto].
Qed.

(** [g'] has the edges of [g] but those of [i]. *)
Definition drops (i : nat) (g g' : GraphInner) : Prop :=
  forall a b, edge_between g' a b = if decide (a = i \/ b = i) then None else edge_between g a b.

(** The graph after a vertex and the neighbours it leaves without edges are
    removed: only the edges of the vertex are gone. *)
Lemma removed_edges g g' i (l : list nat) :
  graph_core g -> removes (i :: l) g g' ->
  (forall n, n ∈ l -> degree g n = 1 /\ is_Some (edge_between g n i)) ->
  drops i g g'.
Proof.
  intros Hc Hr Hl a b. rewrite (rm_edges _ _ _ Hr).
  assert (forall n k, n ∈ l -> k <> i -> edge_between g n k = None) as Hn.
  { intros n k Hin Hk. destruct (Hl n Hin) as [Hd [e He]]. apply eq_None_not_Some. intros [f Hf].
    by apply Hk; eapply degree_one. }
  destruct (decide (a = i \/ b = i)) as [Hab|Hab].
  - rewrite decide_True //. set_solver.
  - case_decide as Hin; [|done]. symmetry.
    destruct Hin as [Hin|Hin]; (apply elem_of_cons in Hin as [|Hin]; [exfalso; tauto|]).
    + apply Hn; [done|tauto].
    + apply eq_None_not_Some. intros [e He]. apply (core_edge g Hc) in He as [He _].
      rewrite Hn in He; [done|tauto|done].
Qed.

Lemma set_index_core g ix :
  graph_core g -> (forall i, is_Some (ix !! i) -> is_Some (nodes g !! i)) -> graph_core (set_index g ix).
Proof. intros [] H. by split. Qed.

Lemma drops_arc i g g' a b o : drops i g g' -> arc g' a b o <-> arc g a b o /\ a <> i /\ b <> i.
Proof. intros H. unfold arc. rewrite H. case_decide; naive_solver. Qed.

Lemma drops_dest i g g' :
  graph_wf g -> graph_core g' -> drops i g g' ->
  (forall v, nodes g !! i = Some v -> vertex_type v <> Node) ->
  (forall k v, nodes g' !! k = Some v -> nodes g !! k = Some v) ->
  forall a b d, arc g' a b (Some d) ->
  (exists v, nodes g' !! d = Some v /\ vertex_type v = Node) /\ (d = b \/ exists o, arc g' b d o).
Proof.
  intros Hw Hc' Hd Hi Hsub a b d Ha. pose proof (arc_nodes g' a b _ Hc' Ha) as [_ Hb].
  apply (drops_arc i g g') in Ha as (Ha & Hai & Hbi); [|done].
  destruct (wf_dest g Hw a b d Ha) as [(v & Hv & Ht) Hdb].
  assert (d <> i) as Hdi by (intros ->; by apply (Hi v)).
  assert (d = b \/ exists o, arc g' b d o) as Hdb'.
  { destruct Hdb as [|[o Ho]]; [by left|]. right. exists o. by apply (drops_arc i g g'). }
  split; [|done].
  assert (is_Some (nodes g' !! d)) as [w Hw'].
  { destruct Hdb' as [->|[o Ho]]; [done|]. by apply arc_nodes in Ho as [_ ?]. }
  exists w. split; [done|]. apply Hsub in Hw'. congruence.
Qed.

(** The counts when the edge of [n] to [i] is dropped. *)
Lemma drops_count i g g' n d :
  graph_core g -> drops i g g' -> n <> i ->
  dest_count g' n d
  = dest_count g n d
    - match edge_between g n i with Some e => if decide (leads_to n d e) then 1 else 0 | None => 0 end.
Proof.
  intros Hc Hd Hn. apply dest_count_drop. intros k. rewrite Hd.
  destruct (decide (k = i)); [rewrite decide_True //; tauto|rewrite decide_False //; tauto].
Qed.

Lemma drops_index i g g' (ix : gmap nat IntSet) (es : list Edge) :
  graph_wf g -> drops i g g' ->
  (forall n m, ix !! n = Some m -> n <> i) ->
  (forall n m, ix !! n = Some m -> n ∉ from <$> es ->
     destination_edge_index g !! n = Some m /\ forall o, ~ arc g n i o) ->
  (forall e m, e ∈ es -> ix !! from e = Some m ->
     arc g (from e) i (destination e)
     /\ exists m0, destination_edge_index g !! from e = Some m0
          /\ m = match destination e with Some d => decrement d m0 | None => m0 end) ->
  forall n m, ix !! n = Some m -> forall d, default 0 (m !! d) = dest_count g' n d.
Proof.
  intros Hw Hd Hne Hout Hin n m Hm d. rewrite (drops_count i g) //; [apply Hw|by eapply Hne|].
  destruct (decide (n ∈ from <$> es)) as [He|He].
  - apply list_elem_of_fmap in He as (e & -> & He). destruct (Hin e m He Hm) as (Ha & m0 & Hm0 & ->).
    rewrite Ha -(wf_index g Hw _ _ Hm0). unfold leads_to. cbn [from destination].
    destruct (destination e) as [d'|].
    + rewrite decrement_count. do 2 case_decide; naive_solver lia.
    + rewrite decide_False; [naive_solver|]. lia.
  - destruct (Hout n m Hm He) as [Hm0 Hna]. rewrite -(wf_index g Hw _ _ Hm0).
    destruct (edge_between g n i) as [e|] eqn:Hni; [|lia].
    destruct (core_edge g (wf_core g Hw) n i e Hni) as (_ & Hni' & [E|E]).
    + exfalso. apply (Hna (destination e)). unfold arc. by rewrite -E.
    + rewrite E. rewrite decide_False; [|lia]. intros [Hf _]. by cbn [from] in Hf.
Qed.

(** The index once the dropped edges have been taken out of it. *)
Lemma index_after_delete g g2 i (l : list nat) (es : list Edge) (ix : gmap nat IntSet) :
  graph_wf g -> removes (i :: l) g g2 -> drops i g g2 ->
  (forall n o, arc g n i o -> n ∈ l \/ n ∈ from <$> es) ->
  (forall e, e ∈ es -> arc g (from e) i (destination e)) ->
  (forall n, n ∉ from <$> es -> ix !! n = destination_edge_index g2 !! n) ->
  (forall e, e ∈ es ->
     ix !! from e = if decide (degree g2 (from e) < destination_edge_threshold g2) then None
                    else match destination e with
                         | Some d => decrement d <$> destination_edge_index g2 !! from e
                         | None => destination_edge_index g2 !! from e
                         end) ->
  (forall n, is_Some (ix !! n) -> is_Some (destination_edge_index g2 !! n))
  /\ forall n m, ix !! n = Some m -> forall d, default 0 (m !! d) = dest_count g2 n d.
Proof.
  intros Hw Hr Hd Hup Harcs Hix Hixe.
  assert (forall n m, destination_edge_index g2 !! n = Some m ->
    (n ∉ i :: l) /\ destination_edge_index g !! n = Some m) as Hg2.
  { intros n m. rewrite (rm_index _ _ _ Hr). by case_decide. }
  assert (forall n, is_Some (ix !! n) -> is_Some (destination_edge_index g2 !! n)) as Hdom.
  { intros n [m Hm]. destruct (decide (n ∈ from <$> es)) as [He|He].
    - apply list_elem_of_fmap in He as (e & -> & He). rewrite Hixe // in Hm. case_decide; [done|].
      destruct (destination e); [apply fmap_Some in Hm as (? & ? & ?)|]; eauto.
    - rewrite Hix // in Hm. eauto. }
  split; [done|]. apply (drops_index i g g2 ix es Hw Hd).
  - intros n m Hm ->. destruct (Hdom i (mk_is_Some _ _ Hm)) as [m0 [Hn _]%Hg2]. set_solver.
  - intros n m Hm Hn. rewrite Hix // in Hm. apply Hg2 in Hm as [Hnl Hm]. split; [done|].
    intros o [Ho|Ho]%Hup; set_solver.
  - intros e m He Hm. split; [auto|]. rewrite Hixe // in Hm. case_decide; [done|].
    destruct (destination e); [apply fmap_Some in Hm as (m0 & [_ Hm0]%Hg2 & ->)|apply Hg2 in Hm as [_ Hm]]; eauto.
Qed.

Lemma delete_vertex_spec g t ns nm :
  graph_wf g -> t <> Node ->
  let g' := delete_vertex t ns nm g in
  graph_wf g'
  /\ destination_edge_threshold g' = destination_edge_threshold g
  /\ match id_of g (t, ns, nm) with
     | None => g' = g
     | Some i =>
         drops i g g'
         /\ exists l : list nat, (i ∉ l) /\ (forall n, n ∈ l -> degree g n = 1 /\ is_Some (edge_between g n i))
            /\ forall x, id_of g' x = (k ← id_of g x; if decide (k ∈ i :: l) then None else Some k)
     end.
Proof.
  intros Hw Ht. pose proof (wf_core g Hw) as Hc. cbn zeta. unfold delete_vertex. rewrite get_vertex_id_of //.
  destruct (id_of g (t, ns, nm)) as [i|] eqn:Hi; [|done].
  set (l := filter (fun n => degree g n = 1) (neighbors_from g i)
            ++ filter (fun n => degree g n = 1) (neighbors_to g i)).
  assert (forall n, n ∈ l -> degree g n = 1 /\ is_Some (edge_between g n i)) as Hl.
  { intros n [Hn|Hn]%elem_of_app; apply list_elem_of_filter in Hn as [Hn1 Hn2]; (split; [done|]).
    - apply elem_of_neighbors_from in Hn2 as [o Ho]; [|done].
      apply (core_edge g Hc) in Ho as [Ho _]. eauto.
    - apply elem_of_neighbors_to in Hn2 as [o Ho]; [|done]. eauto. }
  set (up := filter (fun n => degree g n <> 1) (neighbors_to g i)).
  destruct (omap_neighbors g i up Hc) as [Hfrom Harcs].
  { intros n Hn. apply list_elem_of_filter in Hn as [_ Hn]. by apply elem_of_neighbors_to. }
  set (es := omap (edge_between g i) up) in *.
  destruct (remove_vertices_spec (i :: l) g Hc) as [Hc2 Hr]. cbn [foldl] in Hc2, Hr.
  set (g2 := foldl (fun g n => remove_vertex n g) (remove_vertex i g) l) in *.
  destruct (remove_from_indexes_eq es g2) as (ix & -> & Hix & Hixe).
  { rewrite Hfrom. apply NoDup_filter, NoDup_neighbors_to, Hc. }
  pose proof (removed_edges g g2 i l Hc Hr Hl) as He2.
  destruct (index_after_delete g g2 i l es ix) as [Hdom Hcount]; [done..| |done|done|done|].
  { intros n o Ho. assert (n ∈ neighbors_to g i) as Hn by (apply elem_of_neighbors_to; eauto).
    rewrite Hfrom. destruct (decide (degree g n = 1)) as [H1|H1]; [left|right].
    - apply elem_of_app. right. by apply list_elem_of_filter.
    - by apply list_elem_of_filter. }
  assert (graph_core (set_index g2 ix)) as Hc3.
  { apply set_index_core; [done|]. intros n Hn. by apply (core_index g2 Hc2), Hdom. }
  split_and!; [split; [done| |exact Hcount]|apply (rm_threshold _ _ _ Hr)|exact He2|].
  - apply (drops_dest i g (set_index g2 ix) Hw Hc3 He2).
    + destruct (core_name g Hc _ _ Hi) as (v & Hv & Hvn). intros v' Hv'. simplify_eq.
      injection Hvn as -> _ _. done.
    + intros k v. cbn [nodes set_index]. rewrite (rm_nodes _ _ _ Hr). by case_decide.
  - exists l. split_and!; [|done|apply (rm_id _ _ _ Hr)].
    intros Hin. destruct (Hl i Hin) as [_ [e He]]. by apply (core_edge g Hc) in He as (_ & ? & _).
Qed.


(** ** Creating a vertex *)

Lemma foldr_max_le x l y : y ∈ x :: l -> y <= foldr Nat.max x l.
Proof. induction l as [|z l IH]; intros Hy; simpl; set_solver by lia. Qed.

Lemma set_last_max s m i : set_last s = Some m -> i ∈ s -> i <= m.
Proof.
  unfold set_last. intros Hm Hi%elem_of_elements. destruct (elements s) as [|x l]; [done|].
  injection Hm as <-. by apply foldr_max_le.
Qed.

Lemma foldr_min_in x l : foldr Nat.min x l ∈ x :: l.
Proof.
  induction l as [|y l IH]; simpl; [set_solver|].
  destruct (Nat.min_spec y (foldr Nat.min x l)) as [[_ ->]|[_ ->]]; set_solver.
Qed.

Lemma set_first_in s i : set_first s = Some i -> i ∈ s.
Proof.
  unfold set_first. intros Hi. apply elem_of_elements. destruct (elements s) as [|x l]; [done|].
  injection Hi as <-. apply foldr_min_in.
Qed.

(** The id of a new vertex is not in use. *)
Lemma new_node_id_fresh g i g' :
  graph_core g -> new_node_id g = (i, g') ->
  nodes g !! i = None /\ exists f, g' = set_free_ids g f /\ f ⊆ free_ids g.
Proof.
  intros Hc. unfold new_node_id. case_decide as He.
  - intros [= <- <-]. rewrite He lookup_empty. split; [done|]. exists (free_ids g). by destruct g.
  - destruct (set_first (free_ids g)) as [j|] eqn:Hf; intros [= <- <-].
    + split; [by apply (core_free g Hc), set_first_in|]. eexists. split; [done|]. set_solver.
    + split; [|exists (free_ids g); by destruct g].
      apply eq_None_not_Some. intros Hu. destruct (set_last (used_ids g)) as [m|] eqn:Hm.
      * apply (core_used g Hc), (set_last_max _ m) in Hu; [lia|done].
      * apply (core_used g Hc) in Hu. unfold set_last in Hm.
        apply elem_of_elements in Hu. destruct (elements (used_ids g)); set_solver.
Qed.

(** [g'] is [g] with the vertex [x], without edges when it is new. *)
Record has_vertex (x : V) (i : nat) (g g' : GraphInner) : Prop := mkHasVertex {
  hv_wf : graph_wf g';
  hv_id : forall y, id_of g' y = if decide (y = x) then Some i else id_of g y;
  hv_nodes : forall k v, nodes g !! k = Some v -> nodes g' !! k = Some v;
  hv_old : forall k, id_of g x = Some k -> k = i;
  hv_edges : forall a b, edge_between g' a b = edge_between g a b;
  hv_threshold : destination_edge_threshold g' = destination_edge_threshold g
}.

Lemma create_vertex_core g x i f :
  graph_core g -> nodes g !! i = None -> id_of g x = None -> f ⊆ free_ids g ->
  let g1 := set_free_ids g f in
  let by_ns := default ∅ (vertices g1 !! x.1.1) in
  let g2 := set_vertices g1
    (<[x.1.1 := <[x.1.2 := <[x.2 := i]> (default ∅ (by_ns !! x.1.2))]> by_ns]> (vertices g1)) in
  exists g', add_node (mkVertex x.1.1 x.1.2 x.2 i) g2 = Some g'
    /\ graph_core g'
    /\ nodes g' = <[i := mkVertex x.1.1 x.1.2 x.2 i]> (nodes g)
    /\ (forall y, id_of g' y = if decide (y = x) then Some i else id_of g y)
    /\ (forall a b, edge_between g' a b = edge_between g a b)
    /\ destination_edge_index g' = destination_edge_index g
    /\ destination_edge_threshold g' = destination_edge_threshold g.
Proof.
  intros Hc Hi Hx Hf g1 by_ns g2. unfold add_node. cbn [vertex_id nodes set_vertices set_free_ids].
  rewrite Hi. eexists. split; [done|]. set (g' := mkGraph _ _ _ _ _ _ _).
  assert (forall y, id_of g' y = if decide (y = x) then Some i else id_of g y) as Hid.
  { intros y. unfold id_of. cbn [vertices g' set_vertices]. unfold by_ns.
    cbn [g1 set_free_ids vertices]. rewrite name_id_insert. destruct x as [[t ns] nm]. done. }
  assert (forall b, edge_between g i b = None) as Hei.
  { intros b. apply eq_None_not_Some. intros [e He]. apply edge_node in He; [|done].
    rewrite Hi in He. by destruct He. }
  assert (forall a b, edge_between g' a b = edge_between g a b) as He.
  { intros a b. unfold edge_between at 1. cbn [edges g']. destruct (decide (a = i)) as [->|].
    - rewrite lookup_insert_eq Hei. apply lookup_empty.
    - by rewrite lookup_insert_ne. }
  split_and!; try done. split.
  - intros k v. cbn [nodes g']. destruct (decide (k = i)) as [->|Hk].
    + rewrite lookup_insert_eq. intros [= <-]. split; [done|]. rewrite Hid decide_True //.
      by destruct x as [[? ?] ?].
    + rewrite lookup_insert_ne //. intros Hv. destruct (core_id g Hc k v Hv) as [? Hv'].
      split; [done|]. rewrite Hid. case_decide; [congruence|done].
  - intros y k Hy. rewrite Hid in Hy. cbn [nodes g']. case_decide as Hyx.
    + injection Hy as <-. rewrite lookup_insert_eq. eexists. split; [done|]. subst. by destruct x as [[? ?] ?].
    + destruct (core_name g Hc y k Hy) as (v & Hv & <-). exists v.
      rewrite lookup_insert_ne; [congruence|done].
  - intros k. cbn [nodes edges g']. destruct (decide (k = i)) as [->|Hk].
    + rewrite !lookup_insert_eq. split; eauto.
    + rewrite !lookup_insert_ne //. apply (core_dom g Hc).
  - intros a b e. rewrite !He. apply (core_edge g Hc).
  - intros k. cbn [nodes used_ids g']. rewrite elem_of_union elem_of_singleton.
    destruct (decide (k = i)) as [->|Hk].
    + rewrite lookup_insert_eq. split; eauto.
    + rewrite lookup_insert_ne // -(core_used g Hc). naive_solver.
  - intros k. cbn [nodes free_ids g']. rewrite elem_of_difference elem_of_singleton. intros [Hk Hki].
    rewrite lookup_insert_ne //. apply (core_free g Hc). set_solver.
  - intros k. cbn [nodes destination_edge_index g']. intros Hk%(core_index g Hc).
    destruct (decide (k = i)) as [->|Hki]; [rewrite lookup_insert_eq; eauto|by rewrite lookup_insert_ne].
Qed.

Lemma get_or_create_spec g t ns nm :
  graph_wf g ->
  exists i g', get_or_create_vertex t ns nm g = Some (i, g') /\ has_vertex (t, ns, nm) i g g'.
Proof.
  intros Hw. pose proof (wf_core g Hw) as Hc. unfold get_or_create_vertex. rewrite get_vertex_id_of //.
  destruct (id_of g (t, ns, nm)) as [i|] eqn:Hi.
  { exists i, g. split; [done|]. split; try done; [|congruence].
    intros y. case_decide; [by subst|done]. }
  unfold create_vertex. destruct (new_node_id g) as [i g1] eqn:Hn.
  destruct (new_node_id_fresh g i g1 Hc Hn) as (Hfresh & f & -> & Hf).
  destruct (create_vertex_core g (t, ns, nm) i f Hc Hfresh Hi Hf) as
    (g' & Ha & Hc' & Hno & Hid & He & Hix & Hth).
  cbn [fst snd] in Ha. rewrite Ha. exists i, g'. split; [done|]. split; try done.
  2: { intros k v Hv. rewrite Hno lookup_insert_ne //. congruence. }
  2: congruence.
  split; [done| |].
  - intros a b d Hd. unfold arc in Hd. rewrite He in Hd. destruct (wf_dest g Hw a b d Hd) as [(v & Hv & Ht) Hdb].
    split.
    + exists v. split; [|done]. rewrite Hno lookup_insert_ne //. congruence.
    + destruct Hdb as [|[o Ho]]; [by left|right]. exists o. unfold arc in *. by rewrite ?He.
  - intros n m. rewrite Hix. intros Hm d. rewrite (wf_index g Hw _ _ Hm). symmetry.
    apply dest_count_ext. auto.
Qed.
(** ** Adding an edge *)

Lemma put_edge_lookup a b e es x y :
  put_edge a b e es !! x ≫= lookup y
  = if decide (x = a /\ y = b) then Some e else es !! x ≫= lookup y.
Proof.
  unfold put_edge. destruct (decide (x = a)) as [->|Hx].
  - rewrite lookup_insert_eq. cbn [mbind option_bind]. destruct (decide (y = b)) as [->|Hy].
    + by rewrite lookup_insert_eq decide_True.
    + rewrite lookup_insert_ne // decide_False; [tauto|]. by destruct (es !! a).
  - rewrite lookup_insert_ne // decide_False //. tauto.
Qed.

Lemma set_edge_spec g a b o :
  graph_core g -> a <> b -> is_Some (nodes g !! a) -> is_Some (nodes g !! b) ->
  exists es, set_edge (mkEdge a b o) g = Some (set_edges g es)
    /\ (forall x, is_Some (es !! x) <-> is_Some (edges g !! x))
    /\ forall x y, es !! x ≫= lookup y
         = if decide (x = a /\ y = b \/ x = b /\ y = a) then Some (mkEdge a b o) else edge_between g x y.
Proof.
  intros Hc Hab [va Ha] [vb Hb]. unfold set_edge. cbn [from to].
  rewrite decide_False // Ha Hb. eexists. split; [done|]. split.
  - intros x. unfold put_edge. rewrite !lookup_insert_is_Some (core_dom g Hc).
    split; [|destruct (decide (x = a)), (decide (x = b)); naive_solver].
    intros [<-|[_ [<-|[_ ?]]]]; eauto.
  - intros x y. rewrite !put_edge_lookup. unfold edge_between.
    destruct (decide (x = b /\ y = a)), (decide (x = a /\ y = b)), (decide (_ \/ _)); try done; tauto.
Qed.

Lemma set_edges_core g a b o es :
  graph_core g -> a <> b ->
  (forall x, is_Some (es !! x) <-> is_Some (edges g !! x)) ->
  (forall x y, es !! x ≫= lookup y
     = if decide (x = a /\ y = b \/ x = b /\ y = a) then Some (mkEdge a b o) else edge_between g x y) ->
  graph_core (set_edges g es).
Proof.
  intros Hc Hab Hdom He. destruct Hc as [C1 C2 C3 C4 C5 C6 C7]. split; try done.
  - intros i. cbn [edges nodes set_edges]. by rewrite Hdom.
  - intros x y e. unfold edge_between. cbn [edges set_edges]. rewrite !He. case_decide as H1.
    + intros [= <-]. rewrite decide_True; [tauto|]. cbn [destination]. split; [done|].
      destruct H1 as [[-> ->]|[-> ->]]; naive_solver.
    + rewrite decide_False; [tauto|]. apply C4.
Qed.

(** The recomputed index counts the destination edges. *)
Lemma recomputed_count g n m :
  graph_core g -> edges g !! n = Some m ->
  forall d, default 0 (foldl (count_destination g n) ∅ (neighbors_from g n) !! d) = dest_count g n d.
Proof.
  intros Hc Hm d. unfold dest_count, neighbors_from, adj. rewrite Hm. cbn [default from_option id].
  assert (forall k e, (k, e) ∈ id_iter m -> edge_between g n k = Some e /\ (from e = n -> to e = k)) as Hl.
  { intros k e Hk%elem_of_id_iter. assert (edge_between g n k = Some e) as He.
    { unfold edge_between. by rewrite Hm. }
    split; [done|]. intros Hf. destruct (core_edge g Hc n k e He) as (_ & Hne & [E|E]); rewrite E in Hf |- *;
      cbn [from to] in *; congruence. }
  assert (size (filter (fun ke => leads_to n d ke.2) m)
          = length (filter (fun ke => leads_to n d ke.2) (id_iter m))) as ->.
  { rewrite id_iter_perm map_filter_alt map_size_list_to_map //.
    apply NoDup_fmap_fst; [|apply NoDup_filter, NoDup_map_to_list].
    intros k e1 e2 [_ H1]%list_elem_of_filter [_ H2]%list_elem_of_filter.
    apply elem_of_map_to_list in H1, H2. congruence. }
  assert (forall s, default 0 (foldl (count_destination g n) s
      (to <$> filter (fun e => from e = n) (id_iter m).*2) !! d)
    = default 0 (s !! d) + length (filter (fun ke => leads_to n d ke.2) (id_iter m))) as Hs.
  { induction (id_iter m) as [|[k e] l IH]; intros s; [simpl; lia|].
    destruct (Hl k e) as [He Hto]; [by left|].
    assert (forall s, default 0 (foldl (count_destination g n) s
        (to <$> filter (fun e => from e = n) l.*2) !! d)
      = default 0 (s !! d) + length (filter (fun ke => leads_to n d ke.2) l)) as IH'.
    { apply IH. intros; apply Hl; by right. }
    rewrite fmap_cons !filter_cons. cbn [snd].
    destruct (decide (leads_to n d e)) as [[Hf Hd]|Hn], (decide (from e = n)) as [Hf'|Hf'];
      try done; rewrite ?fmap_cons; cbn [foldl length]; rewrite IH' //.
    - rewrite Hto // /count_destination He Hd increment_count decide_True //. lia.
    - rewrite Hto // /count_destination He. destruct (destination e) as [d'|] eqn:Hd; [|done].
      rewrite increment_count decide_False //; [|lia]. intros ->. by apply Hn. }
  rewrite Hs lookup_empty. done.
Qed.

Lemma index_insert_ext (g g' : GraphInner) (ix : gmap nat IntSet) a :
  graph_wf g ->
  (forall n, n <> a -> ix !! n = destination_edge_index g !! n) ->
  (forall n d, n <> a -> dest_count g' n d = dest_count g n d) ->
  (forall m, ix !! a = Some m -> forall d, default 0 (m !! d) = dest_count g' a d) ->
  forall n m, ix !! n = Some m -> forall d, default 0 (m !! d) = dest_count g' n d.
Proof.
  intros Hw Hix Hc Ha n m Hm d. destruct (decide (n = a)) as [->|Hn]; [by apply Ha|].
  rewrite Hc //. apply (wf_index g Hw). by rewrite -Hix.
Qed.

(** [g'] is [g] with a new edge. *)
Record has_edge (a b : nat) (o : option nat) (g g' : GraphInner) : Prop := mkHasEdge {
  he_wf : graph_wf g';
  he_id : forall x, id_of g' x = id_of g x;
  he_nodes : nodes g' = nodes g;
  he_edges : forall x y, edge_between g' x y
    = if decide (x = a /\ y = b \/ x = b /\ y = a) then Some (mkEdge a b o) else edge_between g x y;
  he_threshold : destination_edge_threshold g' = destination_edge_threshold g
}.

Lemma has_edge_arc a b o g g' x y p :
  has_edge a b o g g' -> edge_between g a b = None -> graph_core g -> a <> b ->
  arc g' x y p <-> (x = a /\ y = b /\ p = o) \/ arc g x y p.
Proof.
  intros He Hn Hc Hab. unfold arc. rewrite (he_edges _ _ _ _ _ He).
  assert (edge_between g b a = None) as Hn'.
  { apply eq_None_not_Some. intros [e Ha]. apply (core_edge g Hc) in Ha as [Ha _]. congruence. }
  case_decide as H1; [|naive_solver]. destruct H1 as [[-> ->]|[-> ->]]; [|naive_solver].
  rewrite Hn. naive_solver.
Qed.

(** What an edge must satisfy to be added. *)
Definition edge_allowed (g : GraphInner) (a b : nat) (o : option nat) : Prop :=
  match o with
  | Some d => (exists v, nodes g !! d = Some v /\ vertex_type v = Node)
              /\ (d = b \/ exists p, arc g b d p)
  | None => forall v, nodes g !! a = Some v -> has_authoritative_index (vertex_type v) = false
  end.

Lemma add_index_eq e g :
  graph_core g -> is_Some (nodes g !! from e) ->
  exists ix, add_edge_to_destination_index e g = set_index g ix
    /\ (forall n, n <> from e -> ix !! n = destination_edge_index g !! n)
    /\ match destination_edge_index g !! from e with
       | Some m0 => ix !! from e = Some (match destination e with Some d => increment d m0 | None => m0 end)
       | None => forall m, ix !! from e = Some m -> forall d, default 0 (m !! d) = dest_count g (from e) d
       end.
Proof.
  intros Hc Hn. unfold add_edge_to_destination_index.
  destruct (destination_edge_index g !! from e) as [m0|] eqn:Hm.
  - destruct (destination e) as [d|].
    + eexists. split_and!; [done| |by rewrite lookup_insert_eq]. intros n Hne. by rewrite lookup_insert_ne.
    + exists (destination_edge_index g). split_and!; [by destruct g|done|done].
  - unfold recompute_destination_index. rewrite Hm. case_decide.
    + eexists. split_and!; [done| |].
      * intros n Hne. by rewrite lookup_delete_ne.
      * intros m. by rewrite lookup_delete_eq.
    + eexists. split_and!; [done| |].
      * intros n Hne. by rewrite lookup_insert_ne.
      * intros m. rewrite lookup_insert_eq. intros [= <-].
        destruct (proj2 (core_dom g Hc (from e)) Hn) as [nb Hnb]. by eapply recomputed_count.
Qed.

Lemma added_dest g es a b o ix :
  graph_wf g -> a <> b -> edge_between g a b = None -> edge_allowed g a b o ->
  (forall x y, es !! x ≫= lookup y
     = if decide (x = a /\ y = b \/ x = b /\ y = a) then Some (mkEdge a b o) else edge_between g x y) ->
  let g' := set_index (set_edges g es) ix in
  forall x y d, arc g' x y (Some d) ->
  (exists v, nodes g' !! d = Some v /\ vertex_type v = Node) /\ (d = y \/ exists p, arc g' y d p).
Proof.
  intros Hw Hab Hn Hok He g' x y d Ha.
  assert (forall p q r, arc g p q r -> arc g' p q r) as Hmono.
  { intros p q r Hp. unfold arc, edge_between. cbn [edges g' set_index set_edges]. rewrite He.
    rewrite decide_False //. intros [[-> ->]|[-> ->]]; unfold arc in Hp; [congruence|].
    apply (core_edge g (wf_core g Hw)) in Hp as [Hp _]. congruence. }
  unfold arc, edge_between in Ha. cbn [edges g' set_index set_edges] in Ha. rewrite He in Ha.
  case_decide as Hc.
  - destruct Hc as [[-> ->]|[-> ->]]; [|naive_solver]. injection Ha as ->. destruct Hok as [Hv Hd].
    split; [done|]. destruct Hd as [|[p Hp]]; [by left|right]. eauto.
  - destruct (wf_dest g Hw x y d Ha) as [Hv Hd]. split; [done|].
    destruct Hd as [|[p Hp]]; [by left|right]. eauto.
Qed.

Lemma add_edge_spec g a b o :
  graph_wf g -> a <> b -> is_Some (nodes g !! a) -> is_Some (nodes g !! b) ->
  edge_between g a b = None -> edge_allowed g a b o ->
  exists g', add_edge a b o g = Some g' /\ has_edge a b o g g'.
Proof.
  intros Hw Hab Ha Hb Hn Hok. pose proof (wf_core g Hw) as Hc.
  destruct (set_edge_spec g a b o Hc Hab Ha Hb) as (es & Hset & Hdom & He).
  pose proof (set_edges_core g a b o es Hc Hab Hdom He) as Hc1.
  assert (edge_between g b a = None) as Hn'.
  { apply eq_None_not_Some. intros [e Hba]. apply (core_edge g Hc) in Hba as [Hba _]. congruence. }
  assert (forall n d, dest_count (set_edges g es) n d
    = dest_count g n d + if decide (n = a /\ o = Some d) then 1 else 0) as Hcount.
  { intros n d. destruct (decide (n = a)) as [->|Hna].
    - rewrite (dest_count_add g (set_edges g es) a b (mkEdge a b o)) //.
      intros k. unfold edge_between at 1. cbn [edges set_edges]. rewrite He.
      do 2 case_decide; naive_solver.
    - rewrite (decide_False (P := n = a /\ _)); [tauto|]. rewrite Nat.add_0_r.
      destruct (decide (n = b)) as [->|Hnb].
      + rewrite (dest_count_add g (set_edges g es) b a (mkEdge a b o)) //.
        * intros k. unfold edge_between at 1. cbn [edges set_edges]. rewrite He.
          do 2 case_decide; naive_solver.
        * rewrite decide_False; [intros [Hf _]; by cbn [from] in Hf|]. lia.
      + apply dest_count_ext. intros k. unfold edge_between at 1. cbn [edges set_edges]. rewrite He.
        rewrite decide_False //. tauto. }
  assert (exists ix, add_edge a b o g = Some (set_index (set_edges g es) ix)
    /\ (forall n, n <> a -> ix !! n = destination_edge_index g !! n)
    /\ (forall m, ix !! a = Some m -> forall d, default 0 (m !! d) = dest_count (set_edges g es) a d))
    as (ix & -> & Hix & Hixa).
  { unfold add_edge. destruct o as [d|].
    - rewrite Hset. cbn [mbind option_bind].
      destruct (add_index_eq (mkEdge a b (Some d)) (set_edges g es) Hc1 Ha) as (ix & -> & Hix & Hixa).
      cbn [from destination destination_edge_index set_edges] in *. exists ix. split_and!; [done..|].
      intros m Hm d'. destruct (destination_edge_index g !! a) as [m0|] eqn:Hm0; [|by apply Hixa].
      rewrite Hixa in Hm. injection Hm as <-. rewrite increment_count Hcount (wf_index g Hw _ _ Hm0).
      do 2 case_decide; naive_solver.
    - destruct Ha as [v Hv]. rewrite Hv. cbn [mbind option_bind]. rewrite (Hok v Hv) Hset.
      exists (destination_edge_index g). split_and!; [done..|]. intros m Hm d.
      rewrite Hcount decide_False; [naive_solver|]. rewrite Nat.add_0_r. by apply (wf_index g Hw). }
  eexists. split; [done|]. split; try done. split.
  - apply set_index_core; [done|]. intros i [m Hm]. cbn [nodes set_edges].
    destruct (decide (i = a)) as [->|Hi]; [done|]. rewrite Hix // in Hm. apply (core_index g Hc). eauto.
  - by apply (added_dest g es a b o).
  - cbn [destination_edge_index set_index]. apply (index_insert_ext g (set_edges g es) ix a); try done.
    intros n d Hna. rewrite Hcount decide_False; [tauto|]. lia.
Qed.

End Delete.
