(* ===== verification/NodeGraphWalk.v ===== *)
(** * The search of the node graph

    The depth-first walk finds the node exactly when it is reachable, and ends;
    the destination index gives the same answer. *)

From stdpp Require Import strings relations.
From S2P Require Import Prelude RustText BTree Json NodeGraph NodeGraphWf.

Local Open Scope nat_scope.

Section Walk.
Context `{IO : !IdOrder}.

(** An edge without a destination. *)
Definition plain (g : GraphInner) (u v : nat) : Prop := arc g u v None.

(** A destination edge to the node. *)
Definition hit (g : GraphInner) (node u : nat) : Prop := exists v, arc g u v (Some node).

(** The node is reached over plain edges and at most one destination edge. *)
Definition reaches (g : GraphInner) (s node : nat) : Prop :=
  exists u, rtc (plain g) s u /\ (u = node \/ hit g node u).

Lemma visit_found g node t ns : forall visited stack,
  (forall n, n ∈ ns -> exists o, arc g t n o) -> node ∉ visited ->
  visit_neighbors g node t visited stack ns = Found -> plain g t node \/ hit g node t.
Proof.
  induction ns as [|n ns IH]; intros visited stack Hns Hv; cbn [visit_neighbors]; [done|].
  destruct (Hns n) as [o Ho]; [by left|].
  assert (forall m, m ∈ ns -> exists o, arc g t m o) as Hns' by (intros m Hm; apply Hns; by right).
  unfold arc in Ho. rewrite Ho. cbn [mbind option_bind destination]. destruct o as [d|].
  - case_decide; [|by apply IH]. subst d. intros _. right. by exists n.
  - case_decide; [by apply IH|]. cbn [orb]. case_bool_decide as Hn; [subst; by left|].
    apply IH; [done|set_solver].
Qed.

(** What a pass over the neighbours leaves when it does not find the node. *)
Lemma visit_continue g node t ns : forall visited stack visited' stack',
  (forall n, n ∈ ns -> exists o, arc g t n o) -> node ∉ visited ->
  visit_neighbors g node t visited stack ns = Continue visited' stack' ->
  (forall n, n ∈ ns -> ~ arc g t n (Some node))
  /\ (forall n, n ∈ ns -> plain g t n -> n ∈ visited')
  /\ exists new, visited' = visited ∪ list_to_set new /\ length stack' = length new + length stack
       /\ size visited' = length new + size visited
       /\ (forall x, x ∈ stack' <-> x ∈ new \/ x ∈ stack)
       /\ (forall x, x ∈ new -> plain g t x /\ x <> node).
Proof.
  induction ns as [|n ns IH]; intros visited stack visited' stack' Hns Hv; cbn [visit_neighbors].
  { intros [= <- <-]. split_and!; [set_solver..|]. exists []. split_and!; simpl; set_solver. }
  destruct (Hns n) as [o Ho]; [by left|].
  assert (forall m, m ∈ ns -> exists o, arc g t m o) as Hns' by (intros m Hm; apply Hns; by right).
  assert (forall p, arc g t n p -> p = o) as Hfun by (intros p Hp; unfold arc in *; congruence).
  pose proof Ho as Ho'. unfold arc in Ho'. rewrite Ho'. cbn [mbind option_bind destination].
  destruct o as [d|].
  - case_decide as Hd; [by case_decide|]. intros H. destruct (IH _ _ _ _ Hns' Hv H) as (H1 & H2 & H3).
    split_and!; [| |done].
    + intros m [->|Hm]%elem_of_cons; [intros Hp%Hfun; congruence|auto].
    + intros m [->|Hm]%elem_of_cons; [intros Hp%Hfun; congruence|auto].
  - case_decide as Hvis; [|cbn [orb]; case_bool_decide as Hn; [done|]]; intros H.
    + destruct (IH _ _ _ _ Hns' Hv H) as (H1 & H2 & new & H3 & H4).
      split_and!; [| |by exists new].
      * intros m [->|Hm]%elem_of_cons; [intros Hp%Hfun; congruence|auto].
      * intros m [->|Hm]%elem_of_cons; [set_solver|auto].
    + destruct (IH (visited ∪ {[n]}) (n :: stack) visited' stack' Hns') as (H1 & H2 & new & H3 & H4 & H5 & H6 & H7);
        [set_solver|done|].
      split_and!.
      * intros m [->|Hm]%elem_of_cons; [intros Hp%Hfun; congruence|auto].
      * intros m [->|Hm]%elem_of_cons; [set_solver|auto].
      * exists (n :: new). split_and!.
        -- set_solver.
        -- simpl in *. lia.
        -- rewrite H5 size_union; [set_solver|]. rewrite size_singleton /=. lia.
        -- set_solver.
        -- intros x [->|Hx]%elem_of_cons; [done|auto].
Qed.

(** The invariant of the walk. *)
Record walk_inv (g : GraphInner) (s node : nat) (visited : gset nat) (stack : list nat) : Prop := {
  wi_start : s ∈ visited;
  wi_reach : forall v, v ∈ visited -> rtc (plain g) s v;
  wi_stack : forall v, v ∈ stack -> v ∈ visited;
  wi_node : node ∉ visited;
  wi_nodes : visited ⊆ dom (nodes g);
  wi_closed : forall v, v ∈ visited -> v ∉ stack -> ~ hit g node v /\ forall w, plain g v w -> w ∈ visited
}.

Lemma rtc_closed (R : nat -> nat -> Prop) (S : gset nat) s u :
  (forall v w, v ∈ S -> R v w -> w ∈ S) -> rtc R s u -> s ∈ S -> u ∈ S.
Proof. intros H. induction 1; eauto. Qed.

Lemma walk_spec g s node :
  graph_core g -> forall fuel visited stack,
  walk_inv g s node visited stack ->
  size (dom (nodes g)) - size visited + length stack < fuel ->
  exists b, walk fuel g node visited stack = Some b /\ (b = true <-> reaches g s node).
Proof.
  intros Hc. induction fuel as [|fuel IH]; intros visited stack [I1 I2 I3 I4 I5 I6] Hf; [lia|].
  cbn [walk]. destruct stack as [|t stack].
  { exists false. split; [done|]. split; [done|]. intros (u & Hu & Hgoal). exfalso.
    assert (u ∈ visited) as Hv.
    { eapply rtc_closed; [|done|done]. intros v w Hv. apply I6; set_solver. }
    destruct Hgoal as [->|Hh]; [done|]. eapply I6; [done|set_solver|done]. }
  assert (t ∈ visited) as Ht by (apply I3; by left).
  assert (forall n, n ∈ neighbors_from g t -> exists o, arc g t n o) as Hns
    by (intros n; by apply elem_of_neighbors_from).
  destruct (visit_neighbors g node t visited stack (neighbors_from g t)) as [|visited' stack'] eqn:Hvis.
  { exists true. split; [done|]. split; [|done]. intros _.
    apply visit_found in Hvis as [Hp|Hh]; [| |done|done].
    - exists node. split; [|by left]. eapply rtc_r; [by apply I2|done].
    - exists t. split; [by apply I2|by right]. }
  destruct (visit_continue g node t _ _ _ _ _ Hns I4 Hvis) as (H1 & H2 & new & -> & Hlen & Hsz & Hst & Hnew).
  assert (visited ∪ list_to_set new ⊆ dom (nodes g)) as Hdom.
  { intros x [Hx|Hx]%elem_of_union; [by apply I5|]. apply elem_of_list_to_set, Hnew in Hx as [Hx _].
    apply elem_of_dom. by apply arc_nodes in Hx as [_ ?]. }
  apply IH.
  - split.
    + set_solver.
    + intros v [Hv|Hv]%elem_of_union; [by apply I2|]. apply elem_of_list_to_set, Hnew in Hv as [Hv _].
      eapply rtc_r; [by apply I2|done].
    + intros v Hv%Hst. set_solver.
    + intros [Hv|Hv]%elem_of_union; [done|]. apply elem_of_list_to_set, Hnew in Hv as [_ Hv]. done.
    + done.
    + intros v Hv Hvs. rewrite Hst in Hvs. destruct (decide (v = t)) as [->|Hvt].
      * split.
        -- intros [w Hw]. apply (H1 w); [apply elem_of_neighbors_from; eauto|done].
        -- intros w Hw. apply H2; [apply elem_of_neighbors_from; eauto|done].
      * destruct (I6 v) as [H3 H4]; [set_solver..|]. split; [done|]. intros w Hw. set_solver.
  - apply subseteq_size in Hdom. simpl in Hf. lia.
Qed.

Lemma walk_from_spec g s node :
  graph_core g -> is_Some (nodes g !! s) ->
  exists b, walk_from g s node = Some b /\ (b = true <-> reaches g s node).
Proof.
  intros Hc Hs. unfold walk_from. case_decide as Hd.
  - exists true. split; [done|]. split; [|done]. intros _. exists s. split; [apply rtc_refl|by left].
  - apply walk_spec; [done| |].
    + split; try set_solver. intros v ->%elem_of_singleton. by apply elem_of_dom.
    + rewrite size_dom size_singleton /=. lia.
Qed.

(** ** The answer *)

Lemma index_hit g n m node :
  graph_wf g -> destination_edge_index g !! n = Some m -> has m node = true <-> hit g node n.
Proof.
  intros Hw Hm. rewrite has_count (wf_index g Hw n m Hm). unfold dest_count.
  split.
  - intros Hpos. destruct (map_choose (filter (fun ke => leads_to n node ke.2) (adj g n))) as (k & e & He).
    { intros Hz. rewrite Hz map_size_empty in Hpos. lia. }
    apply map_lookup_filter_Some in He as [He [Hf Hd]]. rewrite adj_lookup in He. cbn [snd] in *.
    exists k. unfold arc. rewrite He. f_equal.
    destruct (core_edge g (wf_core g Hw) n k e He) as (_ & Hne & [E|E]); [by rewrite -Hd|].
    rewrite E in Hf. by cbn [from] in Hf.
  - intros [v Hv]. apply Nat.neq_0_lt_0. intros Hz%map_size_empty_inv.
    assert (filter (fun ke => leads_to n node ke.2) (adj g n) !! v = Some (mkEdge n v (Some node))) as Hl.
    { apply map_lookup_filter_Some. rewrite adj_lookup. done. }
    by rewrite Hz lookup_empty in Hl.
Qed.

(** [hasPathFrom] answers [Ok true] exactly when both vertices exist and the node
    is reached, where the vertices of the types with an authoritative index have
    destination edges only. *)
Lemma has_path_from_spec g node_name t ns nm :
  graph_wf g -> t <> Node ->
  (forall i v, id_of g (t, ns, nm) = Some i -> has_authoritative_index t = true -> ~ plain g i v) ->
  exists r, has_path_from g node_name t ns nm = Some r
    /\ (r = Ok true <-> exists i k, id_of g (t, ns, nm) = Some i /\ id_of g (Node, "", node_name) = Some k
                                    /\ reaches g i k).
Proof.
  intros Hw Ht Hauth. pose proof (wf_core g Hw) as Hc. unfold has_path_from. rewrite !get_vertex_id_of //.
  destruct (id_of g (Node, "", node_name)) as [k|] eqn:Hk; [|eexists; split; [done|]; naive_solver].
  destruct (id_of g (t, ns, nm)) as [i|] eqn:Hi; [|eexists; split; [done|]; naive_solver].
  assert (i <> k) as Hik by (intros ->; pose proof (id_of_inj g _ _ k Hc Hi Hk); congruence).
  destruct (core_name g Hc _ _ Hi) as (v & Hv & _).
  destruct (walk_from_spec g i k Hc (mk_is_Some _ _ Hv)) as (b & Hwalk & Hb).
  assert (forall r : result bool string, (r = Ok true <-> reaches g i k) ->
    (r = Ok true <-> exists i' k', Some i = Some i' /\ Some k = Some k' /\ reaches g i' k')) as Hwrap
    by (intros r ->; naive_solver).
  assert (exists r, (found ← walk_from g i k;
            Some (if found : bool then Ok true else Err (no_relationship node_name t ns nm))) = Some r
            /\ (r = Ok true <-> reaches g i k)) as Hsearch.
  { rewrite Hwalk. cbn [mbind option_bind]. eexists. split; [done|]. rewrite -Hb. by destruct b. }
  destruct (destination_edge_index g !! i) as [m|] eqn:Hm.
  2: { destruct Hsearch as (r & -> & Hr). exists r. auto. }
  pose proof (index_hit g i m k Hw Hm) as Hh. destruct (has m k).
  - eexists; split; [done|]. apply Hwrap. split; [|done]. intros _. exists i. split; [apply rtc_refl|]. right. by apply Hh.
  - destruct (has_authoritative_index t) eqn:Ha.
    + eexists; split; [done|]. apply Hwrap. split; [done|]. intros (u & Hu & Hgoal). exfalso.
      apply rtc_inv in Hu as [<-|(w & Hw' & _)]; [|by eapply Hauth].
      destruct Hgoal as [|Hg]; [done|]. by apply Hh in Hg.
    + destruct Hsearch as (r & -> & Hr). exists r. auto.
Qed.

End Walk.
