(* ===== verification/NodeGraphProps.v ===== *)
(** * What the node graph stands for

    The abstract state of the graph is the set of objects it was told about.  The
    handlers keep the named edges equal to the relationships of these objects, so
    the graph has a path from an object to a node exactly when the object belongs
    to a pod, volume or attachment of the node. *)

From stdpp Require Import strings relations pretty.
From S2P Require Import Prelude RustText BTree Json NodeGraph NodeGraphPods NodeGraphWf NodeGraphWalk.

Local Open Scope nat_scope.

(** ** Named edges *)

Definition opt_named (g : GraphInner) (z : option V) (o : option nat) : Prop :=
  match z, o with
  | None, None => True
  | Some w, Some d => id_of g w = Some d
  | _, _ => False
  end.

Definition narc (g : GraphInner) (x y : V) (z : option V) : Prop :=
  exists i j o, id_of g x = Some i /\ id_of g y = Some j /\ arc g i j o /\ opt_named g z o.

Lemma dest_named g a b o : graph_wf g -> arc g a b o -> exists z, opt_named g z o.
Proof.
  intros Hw Ha. destruct o as [d|]; [|by exists None].
  destruct (wf_dest g Hw a b d Ha) as [(v & Hv & _) _].
  destruct (node_named g d (wf_core g Hw)) as [x Hx]; [eauto|]. by exists (Some x).
Qed.

Lemma arc_named g a b o :
  graph_wf g -> arc g a b o ->
  exists x y z, id_of g x = Some a /\ id_of g y = Some b /\ opt_named g z o /\ narc g x y z.
Proof.
  intros Hw Ha. pose proof (wf_core g Hw) as Hc. destruct (arc_nodes g a b o Hc Ha) as [Hna Hnb].
  destruct (node_named g a Hc Hna) as [x Hx]. destruct (node_named g b Hc Hnb) as [y Hy].
  destruct (dest_named g a b o Hw Ha) as [z Hz]. exists x, y, z. split_and!; [done..|]. by exists a, b, o.
Qed.

Lemma no_edge g x y a b :
  graph_wf g -> id_of g x = Some a -> id_of g y = Some b ->
  (forall z, ~ narc g x y z) -> (forall z, ~ narc g y x z) -> edge_between g a b = None.
Proof.
  intros Hw Hx Hy Hxy Hyx. apply eq_None_not_Some. intros [e He]. pose proof (wf_core g Hw) as Hc.
  destruct (core_edge g Hc a b e He) as (He' & _ & [E|E]).
  - assert (arc g a b (destination e)) as Ha by by unfold arc; rewrite -E.
    destruct (dest_named g _ _ _ Hw Ha) as [z Hz]. apply (Hxy z). by exists a, b, (destination e).
  - assert (arc g b a (destination e)) as Ha by by unfold arc; rewrite -E.
    destruct (dest_named g _ _ _ Hw Ha) as [z Hz]. apply (Hyx z). by exists b, a, (destination e).
Qed.

Lemma opt_named_inj g z z' o :
  graph_core g -> opt_named g z o -> opt_named g z' o -> z = z'.
Proof.
  intros Hc. destruct z, z', o; simpl; try done. intros H1 H2. f_equal. by eapply id_of_inj.
Qed.

Section Named.
Context `{IO : !IdOrder}.

Lemma narc_get_or_create g x i g' y z w :
  graph_wf g -> has_vertex x i g g' -> narc g' y z w <-> narc g y z w.
Proof.
  intros Hw [W Hid Hno Hold He _]. pose proof (wf_core g Hw) as Hc.
  assert (forall y k, is_Some (nodes g !! k) -> id_of g' y = Some k <-> id_of g y = Some k) as Hsame.
  { intros u k [v Hv]. rewrite Hid. case_decide as Hu; [subst u|done].
    destruct (core_id g Hc k v Hv) as [_ Hk]. split; intros H.
    - injection H as <-. apply (Hno _ _) in Hv. destruct (core_id g' (wf_core g' W) i v Hv) as [_ Hi].
      destruct (core_name g' (wf_core g' W) x i) as (v' & Hv' & Hx).
      { by rewrite Hid decide_True. }
      simplify_eq. done.
    - f_equal. symmetry. auto. }
  assert (forall a b o, arc g' a b o <-> arc g a b o) as Ha by (intros; unfold arc; by rewrite He).
  assert (forall a b o, arc g a b o -> opt_named g' w o <-> opt_named g w o) as Hopt.
  { intros a b o Hab. destruct w as [w0|], o as [d|]; try done. simpl. apply Hsame.
    destruct (wf_dest g Hw a b d Hab) as [(v & Hv & _) _]. eauto. }
  split.
  - intros (a & b & o & Hy & Hz & Hab & Hn). apply Ha in Hab. pose proof (arc_nodes g a b o Hc Hab) as [Hna Hnb].
    exists a, b, o. apply Hsame in Hy, Hz; [|done..]. split_and!; [done..|]. by eapply Hopt.
  - intros (a & b & o & Hy & Hz & Hab & Hn). pose proof (arc_nodes g a b o Hc Hab) as [Hna Hnb].
    exists a, b, o. apply Hsame in Hy, Hz; [|done..]. split_and!; [done..|by apply Ha|]. by eapply Hopt.
Qed.

Lemma narc_add_edge g g' a b o x y z u v w :
  graph_wf g -> has_edge a b o g g' -> a <> b -> edge_between g a b = None ->
  id_of g x = Some a -> id_of g y = Some b -> opt_named g z o ->
  narc g' u v w <-> (u = x /\ v = y /\ w = z) \/ narc g u v w.
Proof.
  intros Hw He Hab Hn Hx Hy Hz. pose proof (wf_core g Hw) as Hc.
  assert (forall o, opt_named g' w o <-> opt_named g w o) as Hopt.
  { intros p. destruct w, p; simpl; try done. by rewrite (he_id _ _ _ _ _ He). }
  unfold narc. setoid_rewrite (he_id _ _ _ _ _ He).
  setoid_rewrite (fun p q r => has_edge_arc a b o g g' p q r He Hn Hc Hab). setoid_rewrite Hopt. split.
  - intros (i & j & p & Hu & Hv & [(-> & -> & ->)|Ha] & Hp); [left|right; eauto 10].
    split_and!; [by eapply id_of_inj..|by eapply opt_named_inj].
  - intros [(-> & -> & ->)|(i & j & p & ? & ? & ? & ?)]; [exists a, b, o; eauto 10|exists i, j, p; eauto 10].
Qed.

Lemma narc_delete g t ns nm y z w :
  graph_wf g -> t <> Node ->
  narc (delete_vertex t ns nm g) y z w
  <-> narc g y z w /\ y <> (t, ns, nm) /\ z <> (t, ns, nm).
Proof.
  intros Hw Ht. pose proof (wf_core g Hw) as Hc.
  destruct (delete_vertex_spec g t ns nm Hw Ht) as (Hw' & _ & Hcase). cbn zeta in *.
  set (g' := delete_vertex t ns nm g) in *. pose proof (wf_core g' Hw') as Hc'.
  destruct (id_of g (t, ns, nm)) as [i|] eqn:Hi.
  2: { rewrite Hcase. split; [|tauto]. intros Hn. split; [done|].
       destruct Hn as (a & b & o & Hy & Hz & _). split; congruence. }
  destruct Hcase as (Hd & l & Hil & Hl & Hid).
  assert (forall u k, is_Some (nodes g' !! k) -> id_of g' u = Some k <-> id_of g u = Some k) as Hsame.
  { intros u k [v Hv]. rewrite Hid. split.
    - intros (k' & Hk' & Hk)%bind_Some. case_decide; [done|]. congruence.
    - intros Hu. rewrite Hu. cbn [mbind option_bind]. rewrite decide_False //.
      intros Hkl. destruct (core_id g' Hc' k v Hv) as [_ Hk'].
      rewrite Hid in Hk'. apply bind_Some in Hk' as (k'' & _ & Hk'').
      case_decide as Hd'; [done|]. congruence. }
  assert (forall a b o, arc g' a b o -> opt_named g' w o <-> opt_named g w o) as Hopt.
  { intros a b o Hab. destruct w as [w0|], o as [d|]; try done. simpl. apply Hsame.
    destruct (wf_dest g' Hw' a b d Hab) as [(v & Hv & _) _]. eauto. }
  split.
  - intros (a & b & o & Hy & Hz & Hab & Hn). pose proof (arc_nodes g' a b o Hc' Hab) as [Hna Hnb].
    apply Hsame in Hy, Hz; [|done..]. apply (Hopt a b) in Hn; [|done].
    apply (drops_arc i g g') in Hab as (Hab & Hai & Hbi); [|done].
    split; [by exists a, b, o|]. split; congruence.
  - intros ((a & b & o & Hy & Hz & Hab & Hn) & Hyx & Hzx).
    assert (arc g' a b o) as Hab'.
    { apply (drops_arc i g g' a b o Hd). split; [done|].
      split; intros ->; [apply Hyx|apply Hzx]; eapply (id_of_inj g); eauto. }
    pose proof (arc_nodes g' a b o Hc' Hab') as [Hna Hnb].
    exists a, b, o. split_and!; [by apply Hsame..|done|]. by apply (Hopt a b).
Qed.

End Named.

(** ** Objects *)

(** The references of a pod, as [add_pod] visits them. *)
Definition pod_refs (pod : GPod) : list (VertexType * string) :=
  if is_mirror_pod pod then []
  else match gpod_spec pod with
  | None => []
  | Some spec =>
      (pair ServiceAccount <$> default [] (push <$> service_account_name spec))
      ++ (pair Secret <$> visit_pod_secret_names pod)
      ++ (pair ConfigMap <$> visit_pod_configmap_names pod)
      ++ (pair Pvc <$> (default [] (volumes spec) ≫= fun v => push (volume_claim_name pod v)))
      ++ (pair ResourceClaim <$> omap (resource_claim_name pod) (default [] (resource_claims spec)))
      ++ (pair ResourceClaim
            <$> default [] (push <$> (gpod_status pod ≫= extended_resource_claim_name)))
  end.

Record Objs := mkObjs {
  (** namespace and name of a pod: its node and its references *)
  o_pods : gmap (string * string) (string * list (VertexType * string));
  (** name of a bound volume: its claim and the secrets the kubelet sees *)
  o_pvs : gmap string ((string * string) * list (string * string));
  (** volume attachments, resource slices and certificate requests: their node *)
  o_single : gmap V string
}.

Definition node_v (node : string) : V := (Node, "", node).

(** The relationships of the objects. *)
Inductive edge_of (A : Objs) : V -> V -> option V -> Prop :=
| edge_pod ns n node refs :
    o_pods A !! (ns, n) = Some (node, refs) ->
    edge_of A (VPod, ns, n) (node_v node) (Some (node_v node))
| edge_ref ns n node refs t m :
    o_pods A !! (ns, n) = Some (node, refs) -> (t, m) ∈ refs ->
    edge_of A (t, ns, m) (VPod, ns, n) (Some (node_v node))
| edge_pv pv c secrets :
    o_pvs A !! pv = Some (c, secrets) -> edge_of A (Pv, "", pv) (Pvc, c.1, c.2) None
| edge_pv_secret pv c secrets s :
    o_pvs A !! pv = Some (c, secrets) -> s ∈ secrets ->
    edge_of A (Secret, s.1, s.2) (Pv, "", pv) None
| edge_single x node :
    o_single A !! x = Some node -> edge_of A x (node_v node) (Some (node_v node)).

Definition ref_types : list VertexType := [ServiceAccount; Secret; ConfigMap; Pvc; ResourceClaim].
Definition single_types : list VertexType := [Va; Slice; Pcr].

Record objs_ok (A : Objs) : Prop := {
  ok_refs : forall k node refs t m,
    o_pods A !! k = Some (node, refs) -> (t, m) ∈ refs -> t ∈ ref_types;
  ok_single : forall x node, o_single A !! x = Some node -> x.1.1 ∈ single_types
}.

Lemma pod_refs_types pod t m : (t, m) ∈ pod_refs pod -> t ∈ ref_types.
Proof.
  unfold pod_refs. destruct (is_mirror_pod pod); [by intros ?%elem_of_nil|].
  destruct (gpod_spec pod); [|by intros ?%elem_of_nil]. rewrite !elem_of_app !list_elem_of_fmap.
  unfold ref_types. set_solver.
Qed.

(** The graph holds the relationships of the objects. *)
Record represents (A : Objs) (g : GraphInner) : Prop := mkRepresents {
  rep_wf : graph_wf g;
  rep_ok : objs_ok A;
  rep_edges : forall x y z, narc g x y z <-> edge_of A x y z
}.

(** ** What belongs to a node *)

Inductive related (A : Objs) (node : string) : V -> Prop :=
| related_pod ns n refs :
    o_pods A !! (ns, n) = Some (node, refs) -> related A node (VPod, ns, n)
| related_ref ns n refs t m :
    o_pods A !! (ns, n) = Some (node, refs) -> (t, m) ∈ refs -> related A node (t, ns, m)
| related_pv ns n refs claim pv secrets :
    o_pods A !! (ns, n) = Some (node, refs) -> (Pvc, claim) ∈ refs ->
    o_pvs A !! pv = Some ((ns, claim), secrets) -> related A node (Pv, "", pv)
| related_pv_secret ns n refs claim pv secrets s :
    o_pods A !! (ns, n) = Some (node, refs) -> (Pvc, claim) ∈ refs ->
    o_pvs A !! pv = Some ((ns, claim), secrets) -> s ∈ secrets ->
    related A node (Secret, s.1, s.2)
| related_single x : o_single A !! x = Some node -> related A node x.

(** Reachability over the relationships. *)
Definition oreaches (A : Objs) (x node : V) : Prop :=
  exists u, rtc (fun a b => edge_of A a b None) x u /\ (u = node \/ exists v, edge_of A u v (Some node)).

Lemma oreaches_step A x y node : edge_of A x y None -> oreaches A y node -> oreaches A x node.
Proof. intros He (u & Hu & Hg). exists u. split; [by eapply rtc_l|done]. Qed.

Lemma oreaches_dest A x v node : edge_of A x v (Some node) -> oreaches A x node.
Proof. intros He. exists x. split; [constructor|right; eauto]. Qed.

Lemma related_reaches A node x : related A node x -> oreaches A x (node_v node).
Proof.
  intros [ns n refs H|ns n refs t m H Hin|ns n refs c pv secrets H Hin Hpv
          |ns n refs c pv secrets s H Hin Hpv Hs|y H].
  - eapply oreaches_dest. by eapply edge_pod.
  - eapply oreaches_dest. by eapply edge_ref.
  - eapply oreaches_step; [by eapply (edge_pv A pv)|]. eapply oreaches_dest. by eapply edge_ref.
  - eapply oreaches_step; [by eapply edge_pv_secret|].
    eapply oreaches_step; [by eapply (edge_pv A pv)|]. eapply oreaches_dest. by eapply edge_ref.
  - eapply oreaches_dest. by eapply edge_single.
Qed.

(** A destination edge to the node. *)
Lemma dest_related A node u v :
  edge_of A u v (Some (node_v node)) ->
  (exists ns n refs, u = (VPod, ns, n) /\ o_pods A !! (ns, n) = Some (node, refs))
  \/ (exists ns n refs t m, u = (t, ns, m) /\ o_pods A !! (ns, n) = Some (node, refs) /\ (t, m) ∈ refs)
  \/ o_single A !! u = Some node.
Proof. inversion 1; subst; naive_solver. Qed.

Lemma edge_none_inv A u v :
  edge_of A u v None ->
  (exists pv c secrets, u = (Pv, "", pv) /\ v = (Pvc, c.1, c.2) /\ o_pvs A !! pv = Some (c, secrets))
  \/ (exists pv c secrets s, u = (Secret, s.1, s.2) /\ v = (Pv, "", pv)
        /\ o_pvs A !! pv = Some (c, secrets) /\ s ∈ secrets).
Proof. inversion 1; subst; naive_solver. Qed.

Lemma reaches_related A node x :
  objs_ok A -> x.1.1 <> Node -> oreaches A x (node_v node) -> related A node x.
Proof.
  intros [Hrefs Hsingle] Hx (u & Hu & Hg).
  assert (forall c, rtc (fun a b => edge_of A a b None) (Pvc, c.1, c.2) u ->
    exists n refs, o_pods A !! (c.1, n) = Some (node, refs) /\ (Pvc, c.2) ∈ refs) as Hpvc.
  { intros c Hc. apply rtc_inv in Hc as [<-|(w & [(?&?&?&?&_)|(?&?&?&?&?&_)]%edge_none_inv & _)]; [|done..].
    destruct Hg as [|[v Hv]]; [done|]. apply dest_related in Hv as [(?&?&?&?&_)|[(?&?&?&?&?&?&?&?)|Hs]].
    - done.
    - simplify_eq. eauto.
    - apply Hsingle in Hs. cbn in Hs. set_solver. }
  assert (forall pv, rtc (fun a b => edge_of A a b None) (Pv, "", pv) u ->
    exists c secrets n refs, o_pvs A !! pv = Some (c, secrets)
      /\ o_pods A !! (c.1, n) = Some (node, refs) /\ (Pvc, c.2) ∈ refs) as Hpv.
  { intros pv Hpv. apply rtc_inv in Hpv as [<-|(w & Hw & Hr)].
    - destruct Hg as [|[v Hv]]; [done|]. apply dest_related in Hv as [(?&?&?&?&_)|[(?&?&?&?&?&?&?&Hin)|Hs]].
      + done.
      + simplify_eq. eapply Hrefs in Hin; [|done]. set_solver.
      + apply Hsingle in Hs. cbn in Hs. set_solver.
    - apply edge_none_inv in Hw as [(pv' & c & secrets & ? & -> & Hc)|(?&?&?&?&?&_)]; [|done].
      simplify_eq. destruct (Hpvc c Hr) as (n & refs & ? & ?). exists c, secrets, n, refs. done. }
  apply rtc_inv in Hu as [<-|(w & Hw & Hr)].
  - destruct Hg as [->|[v Hv]]; [done|].
    apply dest_related in Hv as [(?&?&?&->&?)|[(?&?&?&?&?&->&?&?)|Hs]].
    + by eapply related_pod.
    + by eapply related_ref.
    + by apply related_single.
  - apply edge_none_inv in Hw as [(pv & c & secrets & -> & -> & Hc)|(pv & c & secrets & s & -> & -> & Hc & Hs)].
    + destruct (Hpvc c Hr) as (n & refs & Hp & Hin). destruct c. by eapply related_pv.
    + destruct (Hpv pv Hr) as (c' & secrets' & n & refs & Hc' & Hp & Hin). simplify_eq.
      destruct c. by eapply related_pv_secret.
Qed.

(** The paths of the graph are the paths of the objects. *)
Lemma reaches_names A g x node i k :
  represents A g -> id_of g x = Some i -> id_of g node = Some k ->
  reaches g i k <-> oreaches A x node.
Proof.
  intros [Hw _ He] Hx Hk. pose proof (wf_core g Hw) as Hc. split.
  - intros (u & Hu & Hg). revert x Hx. induction Hu as [u|a b c Hab _ IH]; intros x Hx.
    + destruct Hg as [->|[v Hv]].
      * rewrite (id_of_inj g x node k) //. exists node. split; [constructor|by left].
      * destruct (arc_named g _ _ _ Hw Hv) as (x' & y & z & Hx' & Hy & Hz & Hn).
        rewrite (id_of_inj g x x' u) //. destruct z as [z|]; [|done]. cbn in Hz.
        rewrite (id_of_inj g node z k) //. eapply oreaches_dest. by apply He.
    + destruct (arc_named g _ _ _ Hw Hab) as (x' & y & z & Hx' & Hy & Hz & Hn).
      rewrite (id_of_inj g x x' a) //. destruct z as [z|]; [done|].
      eapply oreaches_step; [by apply He|]. auto.
  - intros (u & Hu & Hg). revert i Hx. induction Hu as [u|a b c Hab _ IH]; intros i Hx.
    + destruct Hg as [->|[v Hv]].
      * exists k. split; [|by left]. replace i with k by congruence. constructor.
      * apply He in Hv as (i' & j & o & Hi' & Hj & Ha & Ho). destruct o as [d|]; [|done]. cbn in Ho.
        simplify_eq. eexists. split; [constructor|right; by exists j].
    + apply He in Hab as (i' & j & o & Hi' & Hj & Ha & Ho). destruct o as [d|]; [done|].
      simplify_eq. destruct (IH Hg j Hj) as (w & Hw' & Hgw). exists w. split; [by eapply rtc_l|done].
Qed.

Section Refine.
Context `{IO : !IdOrder}.

Lemma represents_answer A g node t ns nm :
  represents A g -> t <> Node ->
  exists r, has_path_from g node t ns nm = Some r /\ (r = Ok true <-> related A node (t, ns, nm)).
Proof.
  intros Hrep Ht. pose proof Hrep as [Hw Hok He].
  destruct (has_path_from_spec g node t ns nm Hw Ht) as (r & Hr & Hiff).
  { intros i v Hi Ha Hp. destruct (arc_named g i v None Hw Hp) as (x & y & z & Hx & _ & Hz & Hn).
    destruct z; [done|]. apply He, edge_none_inv in Hn.
    pose proof (id_of_inj g _ _ i (wf_core g Hw) Hi Hx) as <-.
    destruct Hn as [(?&?&?&?&_)|(?&?&?&?&?&_)]; simplify_eq; done. }
  exists r. split; [done|]. rewrite Hiff. split.
  - intros (i & k & Hi & Hk & Hreach). apply reaches_related; [done..|]. by eapply (reaches_names A g).
  - intros Hrel. pose proof (related_reaches A node _ Hrel) as Horeach.
    assert (exists k, id_of g (node_v node) = Some k) as [k Hk].
    { destruct Hrel as [? ? ? H|? ? ? ? ? H|? ? ? ? ? ? H|? ? ? ? ? ? ? H|? H];
        [apply edge_pod in H..|apply edge_single in H]; apply He in H as (? & j & ? & _ & Hj & _); eauto. }
    assert (exists i, id_of g (t, ns, nm) = Some i) as [i Hi].
    { destruct Horeach as (u & Hu & Hg). apply rtc_inv in Hu as [<-|(w & Hw' & _)].
      - destruct Hg as [Heq|[v Hv]]; [by injection Heq|]. apply He in Hv as (i & _ & _ & Hi & _). eauto.
      - apply He in Hw' as (i & _ & _ & Hi & _). eauto. }
    exists i, k. split_and!; [done..|]. by eapply (reaches_names A g).
Qed.

(** ** Edges of one vertex *)

(** [g'] has the named edges of [g] and one more. *)
Definition one_more (g g' : GraphInner) (x y : V) (z : option V) : Prop :=
  graph_wf g' /\ forall u v w, narc g' u v w <-> narc g u v w \/ (u = x /\ v = y /\ w = z).

(** [get_or_create_vertex] and [add_edge] to a vertex that is there. *)
Lemma new_edge g x y z b o :
  graph_wf g -> x <> y -> id_of g y = Some b ->
  (forall w, ~ narc g x y w) -> (forall w, ~ narc g y x w) ->
  match o with
  | Some d => exists nd, z = Some nd /\ id_of g nd = Some d /\ nd.1.1 = Node
                         /\ (nd = y \/ exists w, narc g y nd w)
  | None => z = None /\ has_authoritative_index x.1.1 = false
  end ->
  exists a g1 g2, get_or_create_vertex x.1.1 x.1.2 x.2 g = Some (a, g1) /\ add_edge a b o g1 = Some g2
    /\ one_more g g2 x y z
    /\ (forall u k, id_of g u = Some k -> id_of g2 u = Some k).
Proof.
  intros Hw Hxy Hy Hn1 Hn2 Ho.
  destruct (get_or_create_spec g x.1.1 x.1.2 x.2 Hw) as (a & g1 & Hgc & Hv).
  replace (x.1.1, x.1.2, x.2) with x in Hv by by destruct x as [[? ?] ?].
  pose proof (hv_wf _ _ _ _ Hv) as Hw1. pose proof (wf_core g1 Hw1) as Hc1.
  assert (id_of g1 x = Some a) as Hx1 by by rewrite (hv_id _ _ _ _ Hv) decide_True.
  assert (forall u k, id_of g u = Some k -> id_of g1 u = Some k) as Hid.
  { intros u k Hu. rewrite (hv_id _ _ _ _ Hv). case_decide; [subst|done]. f_equal. symmetry.
    by apply (hv_old _ _ _ _ Hv). }
  assert (forall u v w, narc g1 u v w <-> narc g u v w) as Hn by (intros; by eapply narc_get_or_create).
  assert (a <> b) as Hab by (intros ->; apply Hxy; eapply (id_of_inj g1); eauto).
  assert (forall u k, id_of g1 u = Some k -> is_Some (nodes g1 !! k)) as Hsome.
  { intros u k Hu. destruct (core_name g1 Hc1 u k Hu) as (v & Hv' & _). eauto. }
  assert (edge_between g1 a b = None) as Hnone.
  { eapply (no_edge g1 x y); eauto; intros w; rewrite Hn; auto. }
  assert (edge_allowed g1 a b o /\ opt_named g1 z o) as [Hok Hz].
  { destruct o as [d|].
    - destruct Ho as (nd & -> & Hnd & Hty & Hcase). apply Hid in Hnd. split; [|done].
      destruct (core_name g1 Hc1 nd d Hnd) as (v & Hv' & Hvn). split; [exists v; by subst nd|].
      destruct Hcase as [->|[w (i & j & p & Hi & Hj & Ha & _)%Hn]]; [left; apply Hid in Hy; congruence|].
      right. exists p. apply Hid in Hy. simplify_eq. done.
    - destruct Ho as [-> Ha]. split; [|done]. intros v Hv'.
      destruct (core_name g1 Hc1 x a Hx1) as (v' & Hv'' & <-). simplify_eq. done. }
  destruct (add_edge_spec g1 a b o Hw1 Hab) as (g2 & Hadd & He); eauto.
  exists a, g1, g2. split_and!; [done..| |].
  - split; [apply (he_wf _ _ _ _ _ He)|]. intros u v w.
    rewrite (narc_add_edge g1 g2 a b o x y z) //; [auto|]. rewrite Hn. tauto.
  - intros u k Hu. rewrite (he_id _ _ _ _ _ He). auto.
Qed.

(** [get_or_create_vertex] twice, and the edge between the two. *)
Lemma new_edge_both g x y (dest : bool) :
  graph_wf g -> x <> y ->
  (forall w, ~ narc g x y w) -> (forall w, ~ narc g y x w) ->
  (if dest then y.1.1 = Node else has_authoritative_index x.1.1 = false) ->
  exists a g1 b g2 g3, get_or_create_vertex x.1.1 x.1.2 x.2 g = Some (a, g1)
    /\ get_or_create_vertex y.1.1 y.1.2 y.2 g1 = Some (b, g2)
    /\ add_edge a b (if dest then Some b else None) g2 = Some g3
    /\ one_more g g3 x y (if dest then Some y else None)
    /\ id_of g3 x = Some a /\ id_of g3 y = Some b.
Proof.
  intros Hw Hxy Hn1 Hn2 Ho.
  destruct (get_or_create_spec g x.1.1 x.1.2 x.2 Hw) as (a & g1 & Hgc & Hv).
  destruct (get_or_create_spec g1 y.1.1 y.1.2 y.2 (hv_wf _ _ _ _ Hv)) as (b & g2 & Hgc2 & Hv2).
  replace (x.1.1, x.1.2, x.2) with x in Hv by by destruct x as [[? ?] ?].
  replace (y.1.1, y.1.2, y.2) with y in Hv2 by by destruct y as [[? ?] ?].
  pose proof (hv_wf _ _ _ _ Hv) as Hw1. pose proof (hv_wf _ _ _ _ Hv2) as Hw2.
  assert (id_of g2 x = Some a) as Hx2.
  { rewrite (hv_id _ _ _ _ Hv2) decide_False // (hv_id _ _ _ _ Hv) decide_True //. }
  assert (id_of g2 y = Some b) as Hy2 by by rewrite (hv_id _ _ _ _ Hv2) decide_True.
  assert (forall u v w, narc g2 u v w <-> narc g u v w) as Hn.
  { intros u v w. rewrite (narc_get_or_create g1 y b g2) // (narc_get_or_create g x a g1) //. }
  destruct (new_edge g2 x y (if dest then Some y else None) b (if dest then Some b else None) Hw2 Hxy Hy2)
    as (a' & g2' & g3 & Hgc3 & Hadd & [Hw3 Hmore] & Hids).
  { intros w. rewrite Hn. auto. }
  { intros w. rewrite Hn. auto. }
  { destruct dest; [|done]. exists y. eauto. }
  assert (a' = a /\ g2' = g2) as [-> ->].
  { unfold get_or_create_vertex in Hgc3. rewrite get_vertex_id_of in Hgc3; [apply wf_core, Hw2|].
    replace (x.1.1, x.1.2, x.2) with x in Hgc3 by by destruct x as [[? ?] ?].
    rewrite Hx2 in Hgc3. by simplify_eq. }
  exists a, g1, b, g2, g3. split_and!; [done..| |by apply Hids|by apply Hids]. split; [done|].
  intros u v w. rewrite Hmore Hn. done.
Qed.

(** The references of a pod, one edge each. *)
Definition add_refs (ns : string) (p n : nat) (l : list (VertexType * string)) (g : GraphInner)
    : option GraphInner :=
  foldl (fun og r => g ← og; add_reference ns p n r.1 r.2 g) (Some g) l.

Lemma foldl_None {A B} (f : B -> A -> option A) (l : list B) :
  foldl (fun og r => g ← og; f r g) None l = None.
Proof. by induction l. Qed.

Lemma add_refs_cons ns p n r l g :
  add_refs ns p n (r :: l) g = g' ← add_reference ns p n r.1 r.2 g; add_refs ns p n l g'.
Proof.
  unfold add_refs. cbn [foldl mbind option_bind]. destruct (add_reference ns p n r.1 r.2 g); [done|].
  cbn [mbind option_bind]. apply (foldl_None (fun r g => add_reference ns p n r.1 r.2 g)).
Qed.

Lemma add_refs_app ns p n l l' g :
  add_refs ns p n (l ++ l') g = g' ← add_refs ns p n l g; add_refs ns p n l' g'.
Proof.
  unfold add_refs at 1. rewrite foldl_app. fold (add_refs ns p n l g).
  destruct (add_refs ns p n l g); [done|].
  apply (foldl_None (fun r g => add_reference ns p n r.1 r.2 g)).
Qed.

Lemma add_references_refs ns p n t names g :
  add_references ns p n t names g = add_refs ns p n (pair t <$> names) g.
Proof.
  unfold add_references, add_refs. generalize (Some g). induction names as [|nm names IH]; intros og; [done|].
  cbn [foldl fmap list_fmap fst snd]. apply IH.
Qed.

Lemma add_refs_spec ns pod node p n l : forall g,
  graph_wf g -> pod.1.1 = VPod -> node.1.1 = Node ->
  id_of g pod = Some p -> id_of g node = Some n -> narc g pod node (Some node) ->
  NoDup l -> (forall r, r ∈ l -> r.1 ∈ ref_types) ->
  (forall r w, r ∈ l -> ~ narc g (r.1, ns, r.2) pod w) ->
  (forall r w, r.1 ∈ ref_types -> ~ narc g pod (r.1, ns, r.2) w) ->
  exists g', add_refs ns p n l g = Some g' /\ graph_wf g'
    /\ forall x y z, narc g' x y z
         <-> narc g x y z \/ exists r, r ∈ l /\ x = (r.1, ns, r.2) /\ y = pod /\ z = Some node.
Proof.
  induction l as [|r l IH]; intros g Hw Hpt Hnt Hp Hn Hpn Hnd Hty Hnone Hback.
  { exists g. split_and!; [done..|]. set_solver. }
  apply NoDup_cons in Hnd as [Hr Hnd].
  assert ((r.1, ns, r.2) <> pod) as Hrp.
  { intros Heq. rewrite -Heq in Hpt. cbn in Hpt. specialize (Hty r). rewrite Hpt in Hty.
    unfold ref_types in Hty. set_solver. }
  destruct (new_edge g (r.1, ns, r.2) pod (Some node) p (Some n) Hw Hrp Hp) as
    (a & g1 & g2 & Hgc & Hadd & [Hw2 Hmore] & Hids).
  { intros w. apply Hnone. by left. }
  { intros w. apply Hback, Hty. by left. }
  { exists node. eauto 10. }
  destruct (IH g2) as (g' & Hg' & Hw' & Hiff); try done.
  { auto. } { auto. } { apply Hmore. by left. }
  { intros r' Hr'. apply Hty. by right. }
  { intros r' w Hr'. rewrite Hmore. intros [Hna|(Heq & _)]; [by eapply Hnone; [right|]|].
    apply Hr. destruct r, r'. cbn in Heq. by simplify_eq. }
  { intros r' w Hr'. rewrite Hmore. intros [Hna|(Heq & _)]; [by eapply Hback|]. congruence. }
  exists g'. split_and!; [|done|].
  - rewrite add_refs_cons. unfold add_reference. cbn [fst snd] in Hgc. rewrite Hgc. cbn [mbind option_bind].
    by rewrite Hadd.
  - intros x y z. rewrite Hiff Hmore. split; [|set_solver]. intros [[?|(->&->&->)]|(r'&?&?&?&?)]; [by left|..];
      right; eexists; (split; [|done]); set_solver.
Qed.

(** ** The objects after an event *)

Definition put_pod (ns n node : string) (refs : list (VertexType * string)) (A : Objs) : Objs :=
  mkObjs (<[(ns, n) := (node, refs)]> (o_pods A)) (o_pvs A) (o_single A).

Definition del_pod (ns n : string) (A : Objs) : Objs :=
  mkObjs (delete (ns, n) (o_pods A)) (o_pvs A) (o_single A).

Definition put_pv (pv : string) (c : string * string) (secrets : list (string * string)) (A : Objs) : Objs :=
  mkObjs (o_pods A) (<[pv := (c, secrets)]> (o_pvs A)) (o_single A).

Definition del_pv (pv : string) (A : Objs) : Objs :=
  mkObjs (o_pods A) (delete pv (o_pvs A)) (o_single A).

Definition put_single (x : V) (node : string) (A : Objs) : Objs :=
  mkObjs (o_pods A) (o_pvs A) (<[x := node]> (o_single A)).

Definition del_single (x : V) (A : Objs) : Objs :=
  mkObjs (o_pods A) (o_pvs A) (delete x (o_single A)).

Ltac edge_inv H := inversion H; subst; clear H.

Lemma del_pod_edges A ns n x y z :
  objs_ok A ->
  edge_of (del_pod ns n A) x y z <-> edge_of A x y z /\ x <> (VPod, ns, n) /\ y <> (VPod, ns, n).
Proof.
  intros [Hr Hs]. split.
  - intros H. edge_inv H; cbn [o_pods o_pvs o_single del_pod] in *;
      try match goal with H : delete _ _ !! _ = Some _ |- _ => apply lookup_delete_Some in H as [? H] end;
      (split; [by econstructor|]); split; intros ?; simplify_eq;
      match goal with
      | H : _ ∈ _ |- _ => eapply Hr in H; [|eassumption]; unfold ref_types in H; set_solver
      | H : o_single A !! _ = Some _ |- _ => apply Hs in H; cbn in H; set_solver
      end.
  - intros (H & Hx & Hy). edge_inv H; econstructor; cbn [o_pods o_pvs o_single del_pod]; try done;
      rewrite lookup_delete_ne //; congruence.
Qed.

Lemma put_pod_edges A ns n node refs x y z :
  edge_of (put_pod ns n node refs A) x y z
  <-> edge_of (del_pod ns n A) x y z
      \/ (x = (VPod, ns, n) /\ y = node_v node /\ z = Some (node_v node))
      \/ exists r, r ∈ refs /\ x = (r.1, ns, r.2) /\ y = (VPod, ns, n) /\ z = Some (node_v node).
Proof.
  split.
  - intros H. edge_inv H; cbn [o_pods o_pvs o_single put_pod] in *;
      try match goal with H : <[_ := _]> _ !! ?k = Some _ |- _ =>
            apply lookup_insert_Some in H as [[? ?]|[? H]]; simplify_eq end.
    all: try by (right; left).
    all: try by (right; right; eexists; split; [eassumption|]).
    all: left; econstructor; cbn [o_pods o_pvs o_single del_pod]; try done; by rewrite lookup_delete_ne.
  - intros [H|[(-> & -> & ->)|(r & Hr & -> & -> & ->)]].
    + edge_inv H; cbn [o_pods o_pvs o_single del_pod] in *;
        try match goal with H : delete _ _ !! _ = Some _ |- _ => apply lookup_delete_Some in H as [? H] end;
        econstructor; cbn [o_pods o_pvs o_single put_pod]; try done; by rewrite lookup_insert_ne.
    + eapply edge_pod. cbn [o_pods put_pod]. by rewrite lookup_insert_eq.
    + eapply edge_ref; [|by destruct r]. cbn [o_pods put_pod]. by rewrite lookup_insert_eq.
Qed.

Lemma del_pod_ok A ns n : objs_ok A -> objs_ok (del_pod ns n A).
Proof.
  intros [Hr Hs]. split; [|done]. intros k node refs t m Hk. cbn [o_pods del_pod] in Hk.
  apply lookup_delete_Some in Hk as [_ Hk]. by eapply Hr.
Qed.

Lemma put_pod_ok A ns n node refs :
  objs_ok A -> (forall r, r ∈ refs -> r.1 ∈ ref_types) -> objs_ok (put_pod ns n node refs A).
Proof.
  intros [Hr Hs] Hrefs. split; [|done]. intros k node' refs' t m Hk. cbn [o_pods put_pod] in Hk.
  apply lookup_insert_Some in Hk as [[_ ?]|[_ Hk]]; [simplify_eq; apply (Hrefs (t, m))|by eapply Hr].
Qed.

Lemma represents_del_pod A g ns n :
  represents A g -> represents (del_pod ns n A) (delete_vertex VPod ns n g).
Proof.
  intros [Hw Hok He]. split; [by apply delete_vertex_spec|by apply del_pod_ok|].
  intros x y z. by rewrite narc_delete // del_pod_edges // He.
Qed.

Lemma graph_add_pod_refs pod g :
  graph_add_pod pod g =
  let ns := default "" (gpod_namespace pod) in
  '(p, g) ← get_or_create_vertex VPod ns (gpod_name pod) (delete_vertex VPod ns (gpod_name pod) g);
  '(n, g) ← get_or_create_vertex Node "" (default "" (gpod_spec pod ≫= node_name)) g;
  g ← add_edge p n (Some n) g;
  add_refs ns p n (pod_refs pod) g.
Proof.
  unfold graph_add_pod, pod_refs. cbn zeta.
  destruct (get_or_create_vertex _ _ _ _) as [[p g1]|]; [|done]. cbn [mbind option_bind].
  destruct (get_or_create_vertex _ _ _ _) as [[n g2]|]; [|done]. cbn [mbind option_bind].
  destruct (add_edge p n (Some n) g2) as [g3|]; [|done]. cbn [mbind option_bind].
  destruct (is_mirror_pod pod); [done|]. destruct (gpod_spec pod) as [spec|]; [|done].
  rewrite !add_refs_app !add_references_refs.
  repeat (match goal with |- context [add_refs ?a ?b ?c ?l ?x ≫= _] =>
            destruct (add_refs a b c l x) as [?g|]; [|done]; cbn [mbind option_bind];
            rewrite ?add_refs_app ?add_references_refs end).
  done.
Qed.

Lemma represents_add_pod A g pod :
  represents A g -> NoDup (pod_refs pod) ->
  exists g', graph_add_pod pod g = Some g'
    /\ represents (put_pod (default "" (gpod_namespace pod)) (gpod_name pod)
         (default "" (gpod_spec pod ≫= node_name)) (pod_refs pod) A) g'.
Proof.
  intros Hrep Hnd. rewrite graph_add_pod_refs. cbn zeta.
  set (ns := default "" (gpod_namespace pod)). set (nm := gpod_name pod).
  set (node := default "" (gpod_spec pod ≫= node_name)).
  destruct (represents_del_pod A g ns nm Hrep) as [Hw0 Hok0 He0].
  set (g0 := delete_vertex VPod ns nm g) in *.
  assert (forall x w, ~ narc g0 (VPod, ns, nm) x w /\ ~ narc g0 x (VPod, ns, nm) w) as Hnone.
  { intros x w. rewrite !He0 !del_pod_edges; [apply Hrep|apply Hrep|]. naive_solver. }
  destruct (new_edge_both g0 (VPod, ns, nm) (node_v node) true) as
    (p & g1 & n & g2 & g3 & H1 & H2 & H3 & [Hw3 Hmore] & Hp & Hn); [done|done|intros w; apply Hnone|intros w; apply Hnone|done|].
  cbn [fst snd node_v] in H1, H2. rewrite H1. cbn [mbind option_bind]. rewrite H2. cbn [mbind option_bind].
  rewrite H3. cbn [mbind option_bind].
  destruct (add_refs_spec ns (VPod, ns, nm) (node_v node) p n (pod_refs pod) g3) as (g' & Hg' & Hw' & Hiff);
    try done.
  { apply Hmore. by right. }
  { intros [t m]. apply pod_refs_types. }
  { intros r w Hr. rewrite Hmore. intros [Ha|(_ & Heq & _)]; [by destruct (Hnone (r.1, ns, r.2) w)|done]. }
  { intros r w Hr. rewrite Hmore. intros [Ha|(_ & Heq & _)]; [by destruct (Hnone (r.1, ns, r.2) w)|].
    injection Heq as Ht. rewrite Ht in Hr. unfold ref_types in Hr. set_solver. }
  exists g'. split; [done|]. split; [done| |].
  - apply put_pod_ok; [apply Hrep|]. intros [t m]. apply pod_refs_types.
  - intros x y z. rewrite Hiff Hmore put_pod_edges He0. tauto.
Qed.

(** ** Objects with one node *)

Lemma del_single_edges A v x y z :
  objs_ok A -> v.1.1 ∈ single_types ->
  edge_of (del_single v A) x y z <-> edge_of A x y z /\ x <> v /\ y <> v.
Proof.
  intros [Hr Hs] Hv. unfold single_types in Hv. split.
  - intros H. edge_inv H; cbn [o_pods o_pvs o_single del_single] in *;
      try match goal with H : delete _ _ !! _ = Some _ |- _ => apply lookup_delete_Some in H as [? H] end;
      (split; [by econstructor|]); split; intros ?; subst; cbn in Hv; try (by set_solver); try done;
      match goal with H : _ ∈ _ |- _ => eapply Hr in H; [|eassumption]; unfold ref_types in H; set_solver end.
  - intros (H & Hx & Hy). edge_inv H; econstructor; cbn [o_pods o_pvs o_single del_single]; try done;
      by rewrite lookup_delete_ne.
Qed.

Lemma put_single_edges A v node x y z :
  edge_of (put_single v node A) x y z
  <-> edge_of (del_single v A) x y z \/ (x = v /\ y = node_v node /\ z = Some (node_v node)).
Proof.
  split.
  - intros H. edge_inv H; cbn [o_pods o_pvs o_single put_single] in *;
      try match goal with H : <[_ := _]> _ !! ?k = Some _ |- _ =>
            apply lookup_insert_Some in H as [[? ?]|[? H]]; simplify_eq end.
    all: try by right.
    all: left; econstructor; cbn [o_pods o_pvs o_single del_single]; try done; by rewrite lookup_delete_ne.
  - intros [H|(-> & -> & ->)].
    + edge_inv H; cbn [o_pods o_pvs o_single del_single] in *;
        try match goal with H : delete _ _ !! _ = Some _ |- _ => apply lookup_delete_Some in H as [? H] end;
        econstructor; cbn [o_pods o_pvs o_single put_single]; try done; by rewrite lookup_insert_ne.
    + apply edge_single. cbn [o_single put_single]. by rewrite lookup_insert_eq.
Qed.

Lemma represents_del_single A g t ns nm :
  represents A g -> t ∈ single_types ->
  represents (del_single (t, ns, nm) A) (delete_vertex t ns nm g).
Proof.
  intros [Hw Hok He] Ht. assert (t <> Node) by (intros ->; unfold single_types in Ht; set_solver).
  split; [by apply delete_vertex_spec| |].
  - destruct Hok as [Hr Hs]. split; [done|]. intros x node Hx. cbn [o_single del_single] in Hx.
    apply lookup_delete_Some in Hx as [_ Hx]. by eapply Hs.
  - intros x y z. rewrite narc_delete // del_single_edges // He. done.
Qed.

Lemma represents_add_single A g t ns nm node :
  represents A g -> t ∈ single_types ->
  exists g', add_node_object t ns nm node (delete_vertex t ns nm g) = Some g'
    /\ represents (put_single (t, ns, nm) node A) g'.
Proof.
  intros Hrep Ht. destruct (represents_del_single A g t ns nm Hrep Ht) as [Hw0 Hok0 He0].
  set (g0 := delete_vertex t ns nm g) in *. unfold add_node_object.
  assert (forall x w, ~ narc g0 (t, ns, nm) x w /\ ~ narc g0 x (t, ns, nm) w) as Hnone.
  { intros x w. rewrite !He0 !del_single_edges //; [apply Hrep|apply Hrep|]. naive_solver. }
  assert ((t, ns, nm) <> node_v node) as Hne.
  { intros [= -> _ _]. unfold single_types in Ht. set_solver. }
  destruct (new_edge_both g0 (t, ns, nm) (node_v node) true) as
    (p & g1 & n & g2 & g3 & H1 & H2 & H3 & [Hw3 Hmore] & _); [done|done|intros w; apply Hnone..|done|].
  cbn [fst snd node_v] in H1, H2. rewrite H1. cbn [mbind option_bind]. rewrite H2. cbn [mbind option_bind].
  exists g3. split; [done|]. split; [done| |].
  - destruct (rep_ok A g Hrep) as [Hr Hs]. split; [done|]. intros x node' Hx. cbn [o_single put_single] in Hx.
    apply lookup_insert_Some in Hx as [[<- _]|[_ Hx]]; [done|by eapply Hs].
  - intros x y z. by rewrite Hmore put_single_edges He0.
Qed.

(** ** Persistent volumes *)

Lemma put_edge_same a b e es m : es !! a = Some m -> m !! b = Some e -> put_edge a b e es = es.
Proof. intros Ha Hb. unfold put_edge. rewrite Ha. cbn [default from_option id]. by rewrite !insert_id. Qed.

(** Adding an edge without destination again changes nothing. *)
Lemma add_edge_again g a b v :
  graph_core g -> arc g a b None -> nodes g !! a = Some v ->
  has_authoritative_index (vertex_type v) = false -> add_edge a b None g = Some g.
Proof.
  intros Hc Ha Hv Hauth. unfold add_edge. rewrite Hv. cbn [mbind option_bind]. rewrite Hauth.
  destruct (core_edge g Hc a b _ Ha) as (Hb & Hab & _).
  destruct (arc_nodes g a b None Hc Ha) as [_ [w Hw]].
  unfold set_edge. cbn [from to]. rewrite decide_False // Hv Hw. f_equal.
  unfold arc, edge_between in Ha, Hb.
  destruct (edges g !! a) as [ma|] eqn:Hma; [|done]. destruct (edges g !! b) as [mb|] eqn:Hmb; [|done].
  cbn [mbind option_bind] in Ha, Hb.
  rewrite (put_edge_same a b _ _ ma) // (put_edge_same b a _ _ mb) //. by destruct g.
Qed.

(** The secrets of a volume that the kubelet sees. *)
Definition visible_secrets (l : list (string * string * bool)) : list (string * string) :=
  omap (fun s : string * string * bool => if s.2 then Some s.1 else None) l.

Lemma add_pv_secret_spec g pv p s :
  graph_wf g -> pv.1.1 = Pv -> id_of g pv = Some p ->
  (forall x z, x.1.1 = Secret -> narc g x pv z -> z = None) ->
  (forall x z, x.1.1 = Secret -> ~ narc g pv x z) ->
  exists g', add_pv_secret p g s = Some g' /\ graph_wf g' /\ id_of g' pv = Some p
    /\ forall x y z, narc g' x y z
         <-> narc g x y z \/ (s.2 = true /\ x = (Secret, s.1.1, s.1.2) /\ y = pv /\ z = None).
Proof.
  destruct s as [[ns nm] []]; cbn [add_pv_secret fst snd]; intros Hw Hpv Hp Hz Hback.
  2: { exists g. split_and!; [done..|]. naive_solver. }
  set (x := (Secret, ns, nm)) in *. pose proof (wf_core g Hw) as Hc.
  destruct (id_of g x) as [a|] eqn:Hx; [destruct (decide (edge_between g a p = None)) as [Hn|Hn]|].
  2: { assert (arc g a p None) as Ha.
       { destruct (edge_between g a p) as [e|] eqn:He; [|done].
         destruct (core_edge g Hc a p e He) as (He' & _ & [E|E]).
         - assert (arc g a p (destination e)) as Ha by (unfold arc; by rewrite -E).
           destruct (dest_named g a p _ Hw Ha) as [z Hzo].
           assert (z = None) as -> by (apply (Hz x z eq_refl); by exists a, p, (destination e)).
           by destruct (destination e).
         - assert (arc g p a (destination e)) as Ha by (unfold arc; by rewrite He' -E).
           destruct (dest_named g p a _ Hw Ha) as [z Hzo]. exfalso.
           apply (Hback x z eq_refl). by exists p, a, (destination e). }
       exists g. unfold get_or_create_vertex. rewrite get_vertex_id_of // -/x Hx. cbn [mbind option_bind].
       destruct (core_name g Hc x a Hx) as (v & Hv & Hvn).
       rewrite (add_edge_again g a p v) //; [by injection Hvn as -> _ _|].
       split_and!; [done..|]. intros u w z. split; [by left|]. intros [?|(_ & -> & -> & ->)]; [done|].
       by exists a, p, None. }
  all: assert (x <> pv) as Hne by (intros Heq; by rewrite -Heq in Hpv).
  all: destruct (new_edge g x pv None p None Hw Hne Hp) as (a' & g1 & g2 & Hgc & Hadd & [Hw2 Hmore] & Hids);
    [intros w (i & j & o & Hi & Hj & Ha & _); unfold arc in Ha; congruence
    |intros w; by apply Hback|done|].
  all: cbn [fst snd x] in Hgc; rewrite Hgc; cbn [mbind option_bind]; exists g2; split_and!; [done..|auto|].
  all: intros u w z; rewrite Hmore; naive_solver.
Qed.

Definition add_pv_secrets (p : nat) (l : list (string * string * bool)) (g : GraphInner) : option GraphInner :=
  foldl (fun og s => g ← og; add_pv_secret p g s) (Some g) l.

Lemma add_pv_secrets_spec pv p l : forall g,
  graph_wf g -> pv.1.1 = Pv -> id_of g pv = Some p ->
  (forall x z, x.1.1 = Secret -> narc g x pv z -> z = None) ->
  (forall x z, x.1.1 = Secret -> ~ narc g pv x z) ->
  exists g', add_pv_secrets p l g = Some g' /\ graph_wf g'
    /\ forall x y z, narc g' x y z
         <-> narc g x y z \/ exists s, s ∈ visible_secrets l /\ x = (Secret, s.1, s.2) /\ y = pv /\ z = None.
Proof.
  unfold add_pv_secrets. induction l as [|s l IH]; intros g Hw Hpv Hp Hz Hback; cbn [foldl].
  { exists g. split_and!; [done..|]. set_solver. }
  destruct (add_pv_secret_spec g pv p s Hw Hpv Hp Hz Hback) as (g1 & Hg1 & Hw1 & Hp1 & Hmore).
  cbn [mbind option_bind]. rewrite Hg1.
  destruct (IH g1) as (g' & Hg' & Hw' & Hiff); try done.
  { intros x z Hx. rewrite Hmore. intros [Hna|(_ & _ & _ & ->)]; [by eapply Hz|done]. }
  { intros x z Hx. rewrite Hmore. intros [Hna|(_ & -> & _)]; [by eapply Hback|done]. }
  exists g'. split_and!; [done..|]. intros x y z. rewrite Hiff Hmore.
  assert (forall r, r ∈ visible_secrets (s :: l) <-> (s.2 = true /\ r = s.1) \/ r ∈ visible_secrets l) as Hvis.
  { intros r. unfold visible_secrets. cbn [omap list_omap]. destruct (s.2); [|naive_solver].
    rewrite elem_of_cons. naive_solver. }
  setoid_rewrite Hvis. destruct s as [[ns nm] b]. cbn [fst snd]. naive_solver.
Qed.

Lemma del_pv_edges A pv x y z :
  objs_ok A ->
  edge_of (del_pv pv A) x y z <-> edge_of A x y z /\ x <> (Pv, "", pv) /\ y <> (Pv, "", pv).
Proof.
  intros [Hr Hs]. split.
  - intros H. edge_inv H; cbn [o_pods o_pvs o_single del_pv] in *;
      try match goal with H : delete _ _ !! _ = Some _ |- _ => apply lookup_delete_Some in H as [? H] end;
      (split; [by econstructor|]); split; intros ?; simplify_eq;
      match goal with
      | H : (_, _) ∈ _ |- _ => eapply Hr in H; [|eassumption]; unfold ref_types in H; set_solver
      | H : o_single A !! _ = Some _ |- _ => apply Hs in H; cbn in H; set_solver
      end.
  - intros (H & Hx & Hy). edge_inv H; econstructor; cbn [o_pods o_pvs o_single del_pv]; try done;
      rewrite lookup_delete_ne //; congruence.
Qed.

Lemma put_pv_edges A pv c secrets x y z :
  edge_of (put_pv pv c secrets A) x y z
  <-> edge_of (del_pv pv A) x y z
      \/ (x = (Pv, "", pv) /\ y = (Pvc, c.1, c.2) /\ z = None)
      \/ exists s, s ∈ secrets /\ x = (Secret, s.1, s.2) /\ y = (Pv, "", pv) /\ z = None.
Proof.
  split.
  - intros H. edge_inv H; cbn [o_pods o_pvs o_single put_pv] in *;
      try match goal with H : <[_ := _]> _ !! ?k = Some _ |- _ =>
            apply lookup_insert_Some in H as [[? ?]|[? H]]; simplify_eq end.
    all: try by (right; left).
    all: try by (right; right; eexists; split; [eassumption|]).
    all: left; econstructor; cbn [o_pods o_pvs o_single del_pv]; try done; by rewrite lookup_delete_ne.
  - intros [H|[(-> & -> & ->)|(r & Hr & -> & -> & ->)]].
    + edge_inv H; cbn [o_pods o_pvs o_single del_pv] in *;
        try match goal with H : delete _ _ !! _ = Some _ |- _ => apply lookup_delete_Some in H as [? H] end;
        econstructor; cbn [o_pods o_pvs o_single put_pv]; try done; by rewrite lookup_insert_ne.
    + eapply edge_pv. cbn [o_pvs put_pv]. by rewrite lookup_insert_eq.
    + eapply edge_pv_secret; [|done]. cbn [o_pvs put_pv]. by rewrite lookup_insert_eq.
Qed.

Lemma represents_del_pv A g pv : represents A g -> represents (del_pv pv A) (delete_vertex Pv "" pv g).
Proof.
  intros [Hw Hok He]. split; [by apply delete_vertex_spec|by destruct Hok; split|].
  intros x y z. by rewrite narc_delete // del_pv_edges // He.
Qed.

Lemma represents_add_pv A g pv :
  represents A g ->
  exists g', add_pv pv g = Some g'
    /\ represents match claim_ref pv with
                  | Some (ns, nm) =>
                      put_pv (pv_name pv) (default "" ns, default "" nm)
                        (visible_secrets (visit_pv_secret_names pv)) A
                  | None => del_pv (pv_name pv) A
                  end g'.
Proof.
  intros Hrep. unfold add_pv. destruct (represents_del_pv A g (pv_name pv) Hrep) as [Hw0 Hok0 He0].
  set (g0 := delete_vertex Pv "" (pv_name pv) g) in *.
  destruct (claim_ref pv) as [[ns nm]|]; [|by exists g0].
  assert (forall x w, ~ narc g0 (Pv, "", pv_name pv) x w /\ ~ narc g0 x (Pv, "", pv_name pv) w) as Hnone.
  { intros x w. rewrite !He0 !del_pv_edges; [apply Hrep|apply Hrep|]. naive_solver. }
  destruct (new_edge_both g0 (Pv, "", pv_name pv) (Pvc, default "" ns, default "" nm) false) as
    (p & g1 & n & g2 & g3 & H1 & H2 & H3 & [Hw3 Hmore] & Hp & _);
    [done|done|intros w; apply Hnone..|done|].
  cbn [fst snd] in H1, H2. rewrite H1. cbn [mbind option_bind]. rewrite H2. cbn [mbind option_bind].
  rewrite H3. cbn [mbind option_bind].
  destruct (add_pv_secrets_spec (Pv, "", pv_name pv) p (visit_pv_secret_names pv) g3) as (g' & Hg' & Hw' & Hiff);
    try done.
  { intros x z Hx. rewrite Hmore. intros [Ha|(_ & Heq & _)]; [by destruct (Hnone x z)|done]. }
  { intros x z Hx. rewrite Hmore. intros [Ha|(_ & Heq & _)]; [by destruct (Hnone x z)|by subst]. }
  exists g'. split; [done|]. split; [done|by destruct (rep_ok A g Hrep); split|].
  intros x y z. rewrite Hiff Hmore put_pv_edges He0. cbn [fst snd]. tauto.
Qed.

End Refine.

(** ** Runs of the graph *)

(** The calls of [NodeGraph]. *)
Inductive GraphOp :=
| OpAddPod (pod : GPod)
| OpDeletePod (ns nm : string)
| OpAddPv (pv : PersistentVolume)
| OpDeletePv (nm : string)
| OpAddVolumeAttachment (nm node : string)
| OpDeleteVolumeAttachment (nm : string)
| OpAddResourceSlice (nm node : string)
| OpDeleteResourceSlice (nm : string)
| OpAddPodCertificateRequest (ns nm node : string)
| OpDeletePodCertificateRequest (ns nm : string).

Definition run_op `{!IdOrder} (op : GraphOp) (g : GraphInner) : option GraphInner :=
  match op with
  | OpAddPod pod => graph_add_pod pod g
  | OpDeletePod ns nm => Some (graph_delete_pod nm ns g)
  | OpAddPv pv => add_pv pv g
  | OpDeletePv nm => Some (delete_pv nm g)
  | OpAddVolumeAttachment nm node => add_volume_attachment nm node g
  | OpDeleteVolumeAttachment nm => Some (graph_delete_volume_attachment nm g)
  | OpAddResourceSlice nm node => add_resource_slice nm node g
  | OpDeleteResourceSlice nm => Some (delete_resource_slice nm g)
  | OpAddPodCertificateRequest ns nm node => add_pod_certificate_request ns nm node g
  | OpDeletePodCertificateRequest ns nm => Some (delete_pcr_by_key ns nm g)
  end.

Definition run_ops `{!IdOrder} (ops : list GraphOp) (g : GraphInner) : option GraphInner :=
  foldl (fun og op => g ← og; run_op op g) (Some g) ops.

(** The objects after a call. *)
Definition objs_op (op : GraphOp) (A : Objs) : Objs :=
  match op with
  | OpAddPod pod => put_pod (default "" (gpod_namespace pod)) (gpod_name pod)
                      (default "" (gpod_spec pod ≫= node_name)) (pod_refs pod) A
  | OpDeletePod ns nm => del_pod ns nm A
  | OpAddPv pv =>
      match claim_ref pv with
      | Some (ns, nm) => put_pv (pv_name pv) (default "" ns, default "" nm)
                           (visible_secrets (visit_pv_secret_names pv)) A
      | None => del_pv (pv_name pv) A
      end
  | OpDeletePv nm => del_pv nm A
  | OpAddVolumeAttachment nm node =>
      if decide (node = "") then del_single (Va, "", nm) A else put_single (Va, "", nm) node A
  | OpDeleteVolumeAttachment nm => del_single (Va, "", nm) A
  | OpAddResourceSlice nm node =>
      if decide (node = "") then del_single (Slice, "", nm) A else put_single (Slice, "", nm) node A
  | OpDeleteResourceSlice nm => del_single (Slice, "", nm) A
  | OpAddPodCertificateRequest ns nm node => put_single (Pcr, ns, nm) node A
  | OpDeletePodCertificateRequest ns nm => del_single (Pcr, ns, nm) A
  end.

Definition no_objs : Objs := mkObjs ∅ ∅ ∅.

Definition objs_ops (ops : list GraphOp) (A : Objs) : Objs := foldl (fun A op => objs_op op A) A ops.

(** A pod refers to nothing twice. *)
Definition refers_once (op : GraphOp) : Prop :=
  match op with OpAddPod pod => NoDup (pod_refs pod) | _ => True end.

#[export] Instance refers_once_dec op : Decision (refers_once op).
Proof. destruct op; apply _. Defined.

Lemma represents_new threshold : represents no_objs (set_destination_edge_threshold threshold graph_new).
Proof.
  assert (forall x, id_of (set_destination_edge_threshold threshold graph_new) x = None) as Hid by done.
  split.
  - split.
    + split; try done.
      * intros i. split; intros [? H]; by rewrite lookup_empty in H.
      * intros i. split; [set_solver|]. intros [? H]; by rewrite lookup_empty in H.
      * intros i [? H]. by rewrite lookup_empty in H.
    + done.
    + done.
  - by split.
  - intros x y z. split; [by intros (? & ? & ? & ? & _)|]. by inversion 1.
Qed.

Section Runs.
Context `{IO : !IdOrder}.

Lemma represents_op A g op :
  represents A g -> refers_once op ->
  exists g', run_op op g = Some g' /\ represents (objs_op op A) g'.
Proof.
  assert (Va ∈ single_types /\ Slice ∈ single_types /\ Pcr ∈ single_types) as (Hva & Hsl & Hpcr)
    by (unfold single_types; set_solver).
  intros Hrep Hop. destruct op as [pod|ns nm|pv|nm|nm node|nm|nm node|nm|ns nm node|ns nm]; cbn [run_op objs_op].
  - by apply represents_add_pod.
  - eexists; split; [done|]. by apply represents_del_pod.
  - by apply represents_add_pv.
  - eexists; split; [done|]. by apply represents_del_pv.
  - unfold add_volume_attachment. case_decide; [|by apply represents_add_single].
    eexists; split; [done|]. by apply represents_del_single.
  - eexists; split; [done|]. by apply represents_del_single.
  - unfold add_resource_slice. case_decide; [|by apply represents_add_single].
    eexists; split; [done|]. by apply represents_del_single.
  - eexists; split; [done|]. by apply represents_del_single.
  - by apply represents_add_single.
  - eexists; split; [done|]. by apply represents_del_single.
Qed.

Lemma represents_ops ops : forall A g,
  represents A g -> Forall refers_once ops ->
  exists g', run_ops ops g = Some g' /\ represents (objs_ops ops A) g'.
Proof.
  unfold run_ops, objs_ops. induction ops as [|op ops IH]; intros A g Hrep Hops; cbn [foldl]; [eauto|].
  apply Forall_cons in Hops as [Hop Hops]. destruct (represents_op A g op Hrep Hop) as (g1 & Hg1 & Hrep1).
  cbn [mbind option_bind]. rewrite Hg1. by apply IH.
Qed.

End Runs.

(** C6: The node graph is exact.  After any sequence of calls that add and delete
    pods, persistent volumes, volume attachments, resource slices and certificate
    requests, in which no pod refers to the same object twice, no assertion of the
    graph has failed, and [has_path_from] returns for every node and object:
    [Ok true] exactly when the object belongs to the node, by being a pod of the
    node, referenced by one, bound to a claim of one, or attached to the node.
    The destination index, which replaces the search for vertices with many edges,
    gives the same answers for every threshold. *)
Theorem node_graph_exact `{!IdOrder} (threshold : nat) (ops : list GraphOp) :
  Forall refers_once ops ->
  exists g, run_ops ops (set_destination_edge_threshold threshold graph_new) = Some g
    /\ forall node t ns nm, t <> Node ->
       exists r, has_path_from g node t ns nm = Some r
         /\ (r = Ok true <-> related (objs_ops ops no_objs) node (t, ns, nm)).
Proof.
  intros Hops.
  destruct (represents_ops ops no_objs _ (represents_new threshold) Hops) as (g & Hg & Hrep).
  exists g. split; [done|]. intros node t ns nm Ht. by apply represents_answer.
Qed.

(** A pod with a node and references to config maps from its environment. *)
Definition example_pod (nm node : string) (config_maps : list string) : GPod :=
  mkGPod nm (Some "ns") nm None
    (Some (mkGPodSpec (Some node) None None None
             [mkContainer None (Some ((fun c => mkEnvRef None (Some c)) <$> config_maps))] None None None))
    None.

Definition example_pv : PersistentVolume :=
  mkPersistentVolume "pv" (Some (Some "ns", Some "claim"))
    (Some (JObject [("rbd", JObject [("secretRef", JObject [("name", JString "key")])])])).

Definition example_claim_pod : GPod :=
  mkGPod "db" (Some "ns") "u" None
    (Some (mkGPodSpec (Some "b") (Some "sa") None None [] None
             (Some [mkVolume "data" (Some "claim") false None None None]) None)) None.

Lemma node_graph_exact_witness :
  let ops := [OpAddPod (example_pod "p" "a" ["c"]); OpAddPv example_pv; OpAddPod example_claim_pod;
              OpAddVolumeAttachment "va" "a"; OpDeletePod "ns" "p"] in
  Forall refers_once ops
  /\ exists g, @run_ops default_id_order ops (set_destination_edge_threshold 1 graph_new) = Some g
     /\ forall node t ns nm, t <> Node ->
        exists r, @has_path_from default_id_order g node t ns nm = Some r
          /\ (r = Ok true <-> related (objs_ops ops no_objs) node (t, ns, nm)).
Proof.
  intros ops. assert (Forall refers_once ops) as Hops by (apply (bool_decide_unpack _); vm_compute; exact I).
  split; [exact Hops|]. apply (@node_graph_exact default_id_order 1 ops Hops).
Defined.

(** ** A reference that outlives its pod *)

(** Two hundred pods of node [a] refer to the config map [c], so that the graph
    keeps an index for it.  A pod of node [b] refers to it from two environment
    entries and is deleted; another pod of [b] has no reference. *)
Definition leak_ops : list GraphOp :=
  ((fun n => OpAddPod (example_pod (pretty.pretty n) "a" ["c"])) <$> seq 0 200)
  ++ [OpAddPod (example_pod "quiet" "b" []); OpAddPod (example_pod "twice" "b" ["c"; "c"]);
      OpDeletePod "ns" "twice"].

(** A node whose pods refer to nothing is related to its pods only. *)
Lemma no_refs_unrelated A node t ns nm :
  t <> VPod -> map_Forall (fun _ v => v.1 = node -> v.2 = []) (o_pods A) -> o_single A = ∅ ->
  ~ related A node (t, ns, nm).
Proof.
  intros Ht Hall Hs Hr.
  assert (forall k refs r, o_pods A !! k = Some (node, refs) -> r ∉ refs) as Hno.
  { intros k refs r Hk. apply Hall in Hk. cbn in Hk. rewrite Hk //. apply not_elem_of_nil. }
  inversion Hr; subst;
    match goal with
    | H : o_pods _ !! _ = Some _, Hin : _ ∈ _ |- _ => exact (Hno _ _ _ H Hin)
    | H : o_single _ !! _ = Some _ |- _ => by rewrite Hs lookup_empty in H
    | _ => done
    end.
Qed.

(** A pod that refers to an object twice leaves its node access to the object
    for good: adding the second, equal edge increments the reference count of the
    destination index again, and deleting the pod decrements it once.  Here, with
    the default threshold, node [b] still has a path to the config map although no
    pod of [b] refers to it. *)
Theorem repeated_reference_outlives_pod :
  exists g, @run_ops default_id_order leak_ops graph_new = Some g
    /\ @has_path_from default_id_order g "b" ConfigMap "ns" "c" = Some (Ok true)
    /\ ~ related (objs_ops leak_ops no_objs) "b" (ConfigMap, "ns", "c").
Proof.
  assert (match @run_ops default_id_order leak_ops graph_new with
          | Some g => @has_path_from default_id_order g "b" ConfigMap "ns" "c" = Some (Ok true)
          | None => False
          end) as Hp by (vm_compute; reflexivity).
  destruct (@run_ops default_id_order leak_ops graph_new) as [g|]; [|done].
  exists g. split_and!; [done..|]. apply no_refs_unrelated; [done| |].
  - apply (bool_decide_unpack _). vm_compute. exact I.
  - vm_compute. reflexivity.
Qed.
