(* ===== verification/Populator.v ===== *)
(** * The populator of the node graph

    The populator skips a pod whose fingerprint is unchanged and an attachment
    whose node is unchanged.  When pods keep their references as long as their
    fingerprint does not change, skipping changes nothing. *)

From stdpp Require Import strings.
From S2P Require Import Prelude RustText BTree Json NodeGraph NodeGraphPods NodeGraphWf NodeGraphWalk NodeGraphProps.

Local Open Scope nat_scope.

(** The events a watch without old objects delivers. *)
Inductive Event :=
| EvPod (pod : GPod)
| EvDeletePod (ns nm : string)
| EvPv (pv : PersistentVolume)
| EvDeletePv (nm : string)
| EvVolumeAttachment (nm node : string)
| EvDeleteVolumeAttachment (nm : string)
| EvResourceSlice (nm node : string)
| EvDeleteResourceSlice (nm : string)
| EvPcr (ns nm node : string)
| EvDeletePcr (ns nm : string).

Definition run_event `{!IdOrder} (e : Event) (p : GraphPopulator) : option GraphPopulator :=
  match e with
  | EvPod pod => apply_pod pod p
  | EvDeletePod ns nm => Some (delete_pod_by_key ns nm p)
  | EvPv pv => with_graph p (add_pv pv (p_graph p))
  | EvDeletePv nm => with_graph p (Some (delete_pv nm (p_graph p)))
  | EvVolumeAttachment nm node => apply_volume_attachment nm node p
  | EvDeleteVolumeAttachment nm => Some (delete_volume_attachment nm p)
  | EvResourceSlice nm node => with_graph p (add_resource_slice nm node (p_graph p))
  | EvDeleteResourceSlice nm => with_graph p (Some (delete_resource_slice nm (p_graph p)))
  | EvPcr ns nm node => with_graph p (add_pod_certificate_request ns nm node (p_graph p))
  | EvDeletePcr ns nm => with_graph p (Some (delete_pcr_by_key ns nm (p_graph p)))
  end.

Definition run_events `{!IdOrder} (es : list Event) (p : GraphPopulator) : option GraphPopulator :=
  foldl (fun op e => p ← op; run_event e p) (Some p) es.

(** The graph call of an event; a pod without a node makes none. *)
Definition event_op (e : Event) : option GraphOp :=
  match e with
  | EvPod pod => if decide (pod_node_name pod = "") then None else Some (OpAddPod pod)
  | EvDeletePod ns nm => Some (OpDeletePod ns nm)
  | EvPv pv => Some (OpAddPv pv)
  | EvDeletePv nm => Some (OpDeletePv nm)
  | EvVolumeAttachment nm node => Some (OpAddVolumeAttachment nm node)
  | EvDeleteVolumeAttachment nm => Some (OpDeleteVolumeAttachment nm)
  | EvResourceSlice nm node => Some (OpAddResourceSlice nm node)
  | EvDeleteResourceSlice nm => Some (OpDeleteResourceSlice nm)
  | EvPcr ns nm node => Some (OpAddPodCertificateRequest ns nm node)
  | EvDeletePcr ns nm => Some (OpDeletePodCertificateRequest ns nm)
  end.

(** The objects after the events, none of them skipped. *)
Definition objs_events (es : list Event) : Objs := objs_ops (omap event_op es) no_objs.

(** Pods of one key keep their references while the fingerprint is unchanged. *)
Definition references_fixed (es : list Event) : Prop :=
  forall p q, EvPod p ∈ es -> EvPod q ∈ es -> pod_key p = pod_key q ->
  unchanged_from (fingerprint p) (fingerprint q) = true -> pod_refs p = pod_refs q.

Definition event_refers_once (e : Event) : Prop :=
  match event_op e with Some op => refers_once op | None => True end.

#[export] Instance event_refers_once_dec e : Decision (event_refers_once e).
Proof. unfold event_refers_once. destruct (event_op e); apply _. Defined.

(** ** The invariant *)

Definition pod_entry (pod : GPod) : string * list (VertexType * string) := (pod_node_name pod, pod_refs pod).

Record populated (es : list Event) (A : Objs) (p : GraphPopulator) : Prop := {
  po_rep : represents A (p_graph p);
  po_pods : forall k f, p_pods p !! k = Some f ->
    exists pod, EvPod pod ∈ es /\ pod_key pod = k /\ fingerprint pod = f
                /\ o_pods A !! k = Some (pod_entry pod);
  po_attachments : forall nm node, p_attachments p !! nm = Some node ->
    o_single A !! (Va, "", nm) = if decide (node = "") then None else Some node
}.

Lemma unchanged_node f f' : unchanged_from f f' = true -> fp_node_name f = fp_node_name f'.
Proof.
  unfold unchanged_from. rewrite !andb_true_iff. intros [[[H _] _] _]. by apply bool_decide_eq_true in H.
Qed.

Lemma put_pod_same A ns n node refs :
  o_pods A !! (ns, n) = Some (node, refs) -> put_pod ns n node refs A = A.
Proof. intros H. unfold put_pod. rewrite insert_id //. by destruct A. Qed.

Lemma objs_va_same A nm node :
  o_single A !! (Va, "", nm) = (if decide (node = "") then None else Some node) ->
  objs_op (OpAddVolumeAttachment nm node) A = A.
Proof.
  intros H. cbn [objs_op]. case_decide; unfold del_single, put_single.
  - rewrite delete_id //. by destruct A.
  - rewrite insert_id //. by destruct A.
Qed.

Section Events.
Context `{IO : !IdOrder}.

(** A call that leaves the pods and the attachments alone. *)
Lemma populated_graph es A p op og :
  populated es A p -> refers_once op -> run_op op (p_graph p) = og ->
  o_pods (objs_op op A) = o_pods A ->
  (forall nm, o_single (objs_op op A) !! (Va, "", nm) = o_single A !! (Va, "", nm)) ->
  exists p', with_graph p og = Some p' /\ populated es (objs_op op A) p'.
Proof.
  intros [Hr Hp Ha] Ho <- Hpods Hva. destruct (represents_op A (p_graph p) op Hr Ho) as (g' & -> & Hr').
  eexists. split; [done|]. split; [done| |].
  - intros k f Hk. rewrite Hpods. by apply Hp.
  - intros nm node Hn. rewrite Hva. by apply Ha.
Qed.

Lemma populated_pod es A p pod :
  populated es A p -> EvPod pod ∈ es -> references_fixed es -> event_refers_once (EvPod pod) ->
  exists p', apply_pod pod p = Some p'
    /\ populated es (if decide (pod_node_name pod = "") then A else objs_op (OpAddPod pod) A) p'.
Proof.
  intros Hpo Hin Hfix Honce. unfold apply_pod. unfold event_refers_once, event_op in Honce.
  case_decide as Hnode; [eauto|]. destruct Hpo as [Hr Hp Ha].
  destruct (match p_pods p !! pod_key pod with Some old => _ | None => false end) eqn:Hskip.
  - exists p. split; [done|]. destruct (p_pods p !! pod_key pod) as [f|] eqn:Hf; [|done].
    destruct (Hp _ _ Hf) as (q & Hq & Hkey & <- & Hlook).
    cbn [objs_op]. rewrite put_pod_same; [|done]. fold (pod_key pod). rewrite Hlook. unfold pod_entry.
    rewrite (Hfix pod q) //. apply unchanged_node in Hskip. cbn [fingerprint fp_node_name] in Hskip.
    fold (pod_node_name pod). congruence.
  - destruct (represents_op A (p_graph p) (OpAddPod pod) Hr Honce) as (g' & Hg' & Hr'). cbn [run_op] in Hg'.
    cbn [p_graph]. rewrite Hg'. eexists. split; [done|]. split; [done| |done].
    intros k f. cbn [p_pods objs_op put_pod o_pods]. fold (pod_key pod). destruct (decide (k = pod_key pod)) as [->|Hk].
    + rewrite !lookup_insert_eq. intros [= <-]. exists pod. done.
    + rewrite !lookup_insert_ne //. apply Hp.
Qed.

Lemma populated_attachment es A p nm node :
  populated es A p ->
  exists p', apply_volume_attachment nm node p = Some p'
    /\ populated es (objs_op (OpAddVolumeAttachment nm node) A) p'.
Proof.
  intros [Hr Hp Ha]. unfold apply_volume_attachment. case_decide as Hsame.
  - exists p. split; [done|]. rewrite objs_va_same; [by apply Ha|done].
  - destruct (represents_op A (p_graph p) (OpAddVolumeAttachment nm node) Hr I) as (g' & Hg' & Hr').
    cbn [run_op] in Hg'. cbn [p_graph]. rewrite Hg'. eexists. split; [done|]. split; [done| |].
    + intros k f Hk. destruct (Hp k f Hk) as (pod & H). exists pod. cbn [objs_op]. by case_decide.
    + intros nm' node'. cbn [p_attachments objs_op]. destruct (decide (nm' = nm)) as [->|Hne].
      * rewrite lookup_insert_eq. intros [= <-]. case_decide; cbn [o_single del_single put_single].
        -- by rewrite lookup_delete_eq.
        -- by rewrite lookup_insert_eq.
      * rewrite lookup_insert_ne //. intros Hn. rewrite -(Ha nm' node' Hn).
        destruct (decide (node = "")); cbn [o_single del_single put_single].
        -- rewrite lookup_delete_ne //. congruence.
        -- rewrite lookup_insert_ne //. congruence.
Qed.

Lemma populated_event es A p e :
  populated es A p -> e ∈ es -> references_fixed es -> event_refers_once e ->
  exists p', run_event e p = Some p'
    /\ populated es match event_op e with Some op => objs_op op A | None => A end p'.
Proof.
  intros Hpo Hin Hfix Honce. destruct e as [pod|ns nm|pv|nm|nm node|nm|nm node|nm|ns nm node|ns nm];
    cbn [run_event event_op].
  - destruct (populated_pod es A p pod) as (p' & ? & ?); try done. exists p'. split; [done|]. by case_decide.
  - destruct Hpo as [Hr Hp Ha]. eexists. split; [done|]. split; [by apply represents_del_pod| |done].
    intros k f Hk. cbn [p_pods delete_pod_by_key] in Hk. apply lookup_delete_Some in Hk as [Hne Hk].
    destruct (Hp k f Hk) as (pod & ? & ? & ? & Hl). exists pod. split_and!; [done..|].
    cbn [objs_op del_pod o_pods]. by rewrite lookup_delete_ne.
  - apply (populated_graph es A p (OpAddPv pv)); try done; [|intros nm]; cbn [objs_op];
      by destruct (claim_ref pv) as [[? ?]|].
  - by apply (populated_graph es A p (OpDeletePv nm)).
  - by apply populated_attachment.
  - destruct Hpo as [Hr Hp Ha]. eexists. split; [done|]. split.
    + destruct (represents_op A (p_graph p) (OpDeleteVolumeAttachment nm) Hr I) as (g' & [= <-] & ?). done.
    + done.
    + intros nm' node. cbn [p_attachments delete_volume_attachment objs_op del_single o_single].
      intros [Hne Hn]%lookup_delete_Some. rewrite lookup_delete_ne; [congruence|auto].
  - apply (populated_graph es A p (OpAddResourceSlice nm node)); try done; [|intros nm']; cbn [objs_op];
      case_decide; try done; cbn [o_single del_single put_single];
      by rewrite ?lookup_delete_ne ?lookup_insert_ne.
  - apply (populated_graph es A p (OpDeleteResourceSlice nm)); try done. intros nm'.
    cbn [objs_op o_single del_single]. by rewrite lookup_delete_ne.
  - apply (populated_graph es A p (OpAddPodCertificateRequest ns nm node)); try done. intros nm'.
    cbn [objs_op o_single put_single]. by rewrite lookup_insert_ne.
  - apply (populated_graph es A p (OpDeletePodCertificateRequest ns nm)); try done. intros nm'.
    cbn [objs_op o_single del_single]. by rewrite lookup_delete_ne.
Qed.

Lemma populated_events es l : forall A p,
  populated es A p -> (forall e, e ∈ l -> e ∈ es) -> references_fixed es -> Forall event_refers_once l ->
  exists p', run_events l p = Some p' /\ populated es (objs_ops (omap event_op l) A) p'.
Proof.
  unfold run_events, objs_ops. induction l as [|e l IH]; intros A p Hpo Hsub Hfix Honce; [eauto|].
  apply Forall_cons in Honce as [Hone Honce].
  destruct (populated_event es A p e Hpo) as (p1 & Hp1 & Hpo1); [apply Hsub; by left|done..|].
  cbn [foldl mbind option_bind]. rewrite Hp1.
  destruct (IH _ p1 Hpo1) as (p' & Hp' & Hpo'); [intros e' He'; apply Hsub; by right|done..|].
  exists p'. split; [done|]. cbn [omap list_omap]. by destruct (event_op e).
Qed.

End Events.

(** C14: The populator keeps the graph exact although it skips unchanged pods and
    attachments: after any sequence of watch events in which no pod refers to an
    object twice and a pod keeps its references while its fingerprint is
    unchanged, no assertion has failed, and a search of the graph answers
    [Ok true] exactly for the objects that belong to the node after all events.
    The second condition is needed: [extended_claim_skipped]. *)
Theorem populator_exact `{!IdOrder} (threshold : nat) (es : list Event) :
  Forall event_refers_once es -> references_fixed es ->
  exists p, run_events es (populator_new (set_destination_edge_threshold threshold graph_new)) = Some p
    /\ forall node t ns nm, t <> Node ->
       exists r, has_path_from (p_graph p) node t ns nm = Some r
         /\ (r = Ok true <-> related (objs_events es) node (t, ns, nm)).
Proof.
  intros Honce Hfix.
  destruct (populated_events es es no_objs
              (populator_new (set_destination_edge_threshold threshold graph_new))) as (p & Hp & Hpo); try done.
  { split; [apply represents_new|done..]. }
  exists p. split; [done|]. intros node t ns nm Ht. apply represents_answer; [apply Hpo|done].
Qed.

Definition example_events : list Event :=
  [EvPod (example_pod "p" "" ["c"]); EvPod (example_pod "p" "a" ["c"]); EvPod (example_pod "p" "a" ["c"]);
   EvPv example_pv; EvPod example_claim_pod; EvVolumeAttachment "va" "a"; EvVolumeAttachment "va" "a"].

Lemma populator_exact_witness :
  Forall event_refers_once example_events /\ references_fixed example_events
  /\ exists p, @run_events default_id_order example_events
                 (populator_new (set_destination_edge_threshold 1 graph_new)) = Some p
     /\ forall node t ns nm, t <> Node ->
        exists r, @has_path_from default_id_order (p_graph p) node t ns nm = Some r
          /\ (r = Ok true <-> related (objs_events example_events) node (t, ns, nm)).
Proof.
  assert (Forall event_refers_once example_events) as H1 by (apply (bool_decide_unpack _); vm_compute; exact I).
  assert (references_fixed example_events) as H2.
  { intros p q Hp Hq. unfold example_events in Hp, Hq.
    repeat (apply elem_of_cons in Hp as [Hp|Hp]; [try discriminate Hp; injection Hp as ->|]);
      try (exfalso; by apply elem_of_nil in Hp);
      repeat (apply elem_of_cons in Hq as [Hq|Hq]; [try discriminate Hq; injection Hq as ->|]);
      try (exfalso; by apply elem_of_nil in Hq); intros Hk Hu; try (vm_compute in Hk; discriminate Hk); vm_compute; reflexivity. }
  split; [exact H1|]. split; [exact H2|]. apply (@populator_exact default_id_order 1 example_events H1 H2).
Defined.

(** ** What the fingerprint leaves out *)

Definition claim_pod (extended : option string) : GPod :=
  mkGPod "p" (Some "ns") "u" None (Some (mkGPodSpec (Some "a") None None None [] None None None))
    (Some (mkGPodStatus None extended)).

(** A pod that gets the claim of its extended resources after it was first seen
    has an unchanged fingerprint, so its node never gets access to the claim. *)
Lemma extended_claim_skipped :
  unchanged_from (fingerprint (claim_pod (Some "claim"))) (fingerprint (claim_pod None)) = true
  /\ (p ← @run_events default_id_order [EvPod (claim_pod None); EvPod (claim_pod (Some "claim"))]
            (populator_new graph_new);
      @has_path_from default_id_order (p_graph p) "a" ResourceClaim "ns" "claim")
     = Some (Err "node 'a' cannot get unknown resourceclaim ns/claim")
  /\ related (objs_events [EvPod (claim_pod None); EvPod (claim_pod (Some "claim"))]) "a"
       (ResourceClaim, "ns", "claim").
Proof.
  split; [done|]. split; [vm_compute; reflexivity|].
  eapply (related_ref _ _ "ns" "p" [(ResourceClaim, "claim")]); [vm_compute; reflexivity|]. by left.
Qed.
