(* ===== verification/NodeAuthorizer.v ===== *)
(** * The node authorizer

    Model of [crates/common/src/authz/node_authorizer.rs]: a kubelet may read what
    the pods bound to its node refer to, its own leases and node objects, and what
    the static node rules give every node.  [None] is a search of the graph that
    does not end. *)

From stdpp Require Import strings.
From S2P Require Import Prelude RustText Authz BTree Json NodeGraph NodeGraphPods NodeGraphWf NodeGraphWalk NodeGraphProps.

Local Open Scope nat_scope.

Definition NAMESPACE_NODE_LEASE : string := "kube-node-lease".

Record NodeAuthorizerFeatures := mkNodeAuthorizerFeatures {
  authorize_node_with_selectors : bool;
  kubelet_service_account_token_for_credential_providers : bool;
  pod_certificate_request : bool
}.

Inductive Verdict :=
| VAllow
| VNoOpinion (reason : string).

#[export] Instance Verdict_eq_dec : EqDecision Verdict.
Proof. solve_decision. Defined.

Definition node_identity (u : UserInfo) : string * bool :=
  match strip_prefix "system:node:" (username u) with
  | None => ("", false)
  | Some nm => if contains (groups u) "system:nodes" then (nm, true) else ("", false)
  end.

Definition sub (a : RequestAttributes) : string := default "" (subresource a).
Definition ns_of (a : RequestAttributes) : string := default "" (namespace a).
Definition name_of (a : RequestAttributes) : string := default "" (name a).

Definition has_node_name_selector (a : RequestAttributes) (f node_name : string) : bool :=
  existsb (fun req => bool_decide (field req = f) && bool_decide (field_operator req = FieldEquals)
                      && bool_decide (field_value req = node_name)) (field_selector_requirements a).

Section NodeAuthorizer.
Context `{!TextFormat, !IdOrder}.
Variable graph : GraphInner.
Variable features : NodeAuthorizerFeatures.

Definition path_verdict (node_name : string) (t : VertexType) (a : RequestAttributes) : option Verdict :=
  r ← has_path_from graph node_name t (ns_of a) (name_of a);
  Some (match r with
        | Ok true => VAllow
        | Ok false | Err _ =>
            VNoOpinion ("no relationship found between node '" +:+ node_name +:+ "' and this object")
        end).

(** [NodeAuthorizer::authorize], the method on the graph. *)
Definition authorize_path (node_name : string) (t : VertexType) (a : RequestAttributes) : option Verdict :=
  if decide (name_of a = "") then Some (VNoOpinion "No Object name found")
  else path_verdict node_name t a.

Definition authorize_status_update (node_name : string) (t : VertexType) (a : RequestAttributes)
    : option Verdict :=
  if negb (contains ["update"; "patch"] (verb a)) then
    Some (VNoOpinion "can only get/update/patch this type")
  else if decide (sub a <> "status") then Some (VNoOpinion "can only update status subresource")
  else authorize_path node_name t a.

Definition authorize_get (node_name : string) (t : VertexType) (a : RequestAttributes) : option Verdict :=
  if decide (verb a <> "get") then Some (VNoOpinion "can only get individual resources of this type")
  else if decide (sub a <> "") then Some (VNoOpinion "cannot get subresource")
  else authorize_path node_name t a.

Definition authorize_read_namespaced_object (node_name : string) (t : VertexType) (a : RequestAttributes)
    : option Verdict :=
  if negb (contains ["get"; "list"; "watch"] (verb a)) then
    Some (VNoOpinion "can only read resources of this type")
  else if decide (sub a <> "") then Some (VNoOpinion "cannot read subresource")
  else if decide (ns_of a = "") then Some (VNoOpinion "can only read namespaced object of this type")
  else authorize_path node_name t a.

Definition authorize_create_token (node_name : string) (t : VertexType) (a : RequestAttributes)
    : option Verdict :=
  if decide (verb a <> "create" \/ name_of a = "") then
    Some (VNoOpinion "can only create tokens for individual service accounts")
  else if decide (sub a <> "token") then
    Some (VNoOpinion "can only create token subresource of serviceaccount")
  else path_verdict node_name t a.

Definition authorize_service_account (node_name : string) (a : RequestAttributes) : option Verdict :=
  if decide (verb a = "get" /\ sub a = "") then
    if negb (kubelet_service_account_token_for_credential_providers features
             || pod_certificate_request features) then
      Some (VNoOpinion "not allowed to get service accounts")
    else authorize_read_namespaced_object node_name ServiceAccount a
  else authorize_create_token node_name ServiceAccount a.

Definition authorize_lease (node_name : string) (a : RequestAttributes) : Verdict :=
  if negb (contains ["get"; "create"; "update"; "patch"; "delete"] (verb a)) then
    VNoOpinion "can only get, create, update, patch, or delete a node lease"
  else if decide (ns_of a <> NAMESPACE_NODE_LEASE) then
    VNoOpinion ("can only access leases in the " +:+ quoted NAMESPACE_NODE_LEASE +:+ " system namespace")
  else if decide (verb a <> "create" /\ name_of a <> node_name) then
    VNoOpinion "can only access node lease with the same name as the requesting node"
  else VAllow.

Definition authorize_csi_node (node_name : string) (a : RequestAttributes) : Verdict :=
  if negb (contains ["get"; "create"; "update"; "patch"; "delete"] (verb a)) then
    VNoOpinion "can only get, create, update, patch, or delete a CSINode"
  else if decide (sub a <> "") then VNoOpinion "cannot authorize CSINode subresources"
  else if decide (verb a <> "create" /\ name_of a <> node_name) then
    VNoOpinion "can only access CSINode with the same name as the requesting node"
  else VAllow.

Definition authorize_resource_slice (node_name : string) (a : RequestAttributes) : option Verdict :=
  if decide (sub a <> "") then Some (VNoOpinion "cannot authorize ResourceSlice subresources")
  else if decide (verb a = "create") then Some VAllow
  else if contains ["get"; "update"; "patch"; "delete"] (verb a) then authorize_path node_name Slice a
  else if contains ["watch"; "list"; "deletecollection"] (verb a) then
    if authorize_node_with_selectors features then
      if has_node_name_selector a "spec.nodeName" node_name then Some VAllow
      else Some (VNoOpinion
        "can only list/watch/deletecollection resourceslices with nodeName field selector")
    else Some VAllow
  else Some (VNoOpinion
    "only the following verbs are allowed for a ResourceSlice: get, watch, list, create, update, patch, delete, deletecollection").

Definition authorize_pod_certificate_request (node_name : string) (a : RequestAttributes) : option Verdict :=
  if decide (sub a <> "") then
    Some (VNoOpinion "nodes may not access the status subresource of PodCertificateRequests")
  else if decide (verb a = "create") then Some VAllow
  else if decide (verb a = "get") then authorize_path node_name Pcr a
  else if contains ["list"; "watch"] (verb a) then
    if has_node_name_selector a "spec.nodeName" node_name then Some VAllow
    else Some (VNoOpinion "can only list/watch podcertificaterequests with nodeName field selector")
  else Some (VNoOpinion ("nodes may not " +:+ verb a +:+ " podcertificaterequests")).

Definition authorize_node (node_name : string) (a : RequestAttributes) : Verdict :=
  if decide (sub a = "") then
    if contains ["create"; "update"; "patch"] (verb a) then VAllow
    else if contains ["get"; "list"; "watch"] (verb a) then
      if decide (name_of a = node_name) then VAllow
      else if decide (name_of a = "") then
        VNoOpinion ("node '" +:+ node_name +:+ "' cannot read all nodes, only its own Node object")
      else VNoOpinion ("node '" +:+ node_name +:+ "' cannot read '" +:+ name_of a
                       +:+ "', only its own Node object")
    else VNoOpinion ""
  else if decide (sub a = "status") then
    if contains ["update"; "patch"] (verb a) then VAllow else VNoOpinion ""
  else VNoOpinion "".

Definition authorize_pod (node_name : string) (a : RequestAttributes) : option Verdict :=
  if decide (sub a = "") then
    if decide (verb a = "get") then authorize_get node_name VPod a
    else if contains ["list"; "watch"] (verb a) then
      if has_node_name_selector a "spec.nodeName" node_name then Some VAllow
      else if decide (name_of a <> "") then authorize_path node_name VPod a
      else Some (VNoOpinion "can only list/watch pods with spec.nodeName field selector")
    else if contains ["create"; "delete"] (verb a) then Some VAllow
    else Some (VNoOpinion "")
  else if decide (sub a = "status") then
    Some (if contains ["update"; "patch"] (verb a) then VAllow else VNoOpinion "")
  else if decide (sub a = "eviction" /\ verb a = "create") then Some VAllow
  else Some (VNoOpinion "").

(** The [match] on group and resource; [None] falls through to the static rules. *)
Definition subdivided (node_name : string) (a : RequestAttributes) : option (option Verdict) :=
  let at_ g r := bool_decide (api_group a = g) && bool_decide (resource a = r) in
  if at_ "" "secrets" then Some (authorize_read_namespaced_object node_name Secret a)
  else if at_ "" "configmaps" then Some (authorize_read_namespaced_object node_name ConfigMap a)
  else if at_ "" "persistentvolumeclaims" then
    Some (if decide (sub a = "status") then authorize_status_update node_name Pvc a
          else authorize_get node_name Pvc a)
  else if at_ "" "persistentvolumes" then Some (authorize_get node_name Pv a)
  else if at_ "resource.k8s.io" "resourceclaims" then Some (authorize_get node_name ResourceClaim a)
  else if at_ "storage.k8s.io" "volumeattachments" then Some (authorize_get node_name Va a)
  else if at_ "" "serviceaccounts" then Some (authorize_service_account node_name a)
  else if at_ "coordination.k8s.io" "leases" then Some (Some (authorize_lease node_name a))
  else if at_ "storage.k8s.io" "csinodes" then Some (Some (authorize_csi_node node_name a))
  else if at_ "resource.k8s.io" "resourceslices" then Some (authorize_resource_slice node_name a)
  else if at_ "" "nodes" then
    if authorize_node_with_selectors features then Some (Some (authorize_node node_name a)) else None
  else if at_ "" "pods" then
    if authorize_node_with_selectors features then Some (authorize_pod node_name a) else None
  else if at_ "certificates.k8s.io" "podcertificaterequests" then
    if pod_certificate_request features && authorize_node_with_selectors features then
      Some (authorize_pod_certificate_request node_name a)
    else Some (Some (VNoOpinion ""))
  else None.

(** [evaluate]; the inner [None] is a request that is not from a node. *)
Definition evaluate (a : RequestAttributes) : option (option Verdict) :=
  let '(node_name, is_node) := node_identity (user a) in
  if negb is_node then Some None
  else if decide (node_name = "") then
    Some (Some (VNoOpinion ("unknown node for user " +:+ quoted (username (user a)))))
  else match (if is_non_resource_request a then None else subdivided node_name a) with
  | Some v => Some <$> v
  | None => Some (Some (if node_rules_allow a then VAllow else VNoOpinion ""))
  end.

Definition node_authorize (a : RequestAttributes) : option Decision_ :=
  v ← evaluate a;
  Some (match v with
        | Some VAllow => DAllow
        | Some (VNoOpinion reason) =>
            if decide (reason <> "") then DDeny reason
            else DDeny ("Node " +:+ (node_identity (user a)).1 +:+ " is not authorized to " +:+ verb a
                        +:+ " " +:+ resource a +:+ " in namespace " +:+ ns_of a)
        | None => DDeny "Not a node user"
        end).

Definition node_authorize_opinion (a : RequestAttributes) : option Opinion :=
  v ← evaluate a;
  Some (match v with
        | Some VAllow => OAllow ""
        | Some (VNoOpinion reason) => ONoOpinion reason None
        | None => ONoOpinion "" None
        end).

End NodeAuthorizer.

(** ** What the authorizer lets a node see *)

(** The resources a graph search decides, with the type of their vertices. *)
Definition graph_resources : list (string * string * VertexType) :=
  [("", "secrets", Secret); ("", "configmaps", ConfigMap); ("", "persistentvolumeclaims", Pvc);
   ("", "persistentvolumes", Pv); ("resource.k8s.io", "resourceclaims", ResourceClaim);
   ("storage.k8s.io", "volumeattachments", Va); ("", "serviceaccounts", ServiceAccount)].

(** The object of a request. *)
Definition object_of (t : VertexType) (a : RequestAttributes) : V := (t, ns_of a, name_of a).

Section Decisions.
Context `{TF : !TextFormat, IO : !IdOrder}.
Variable A : Objs.
Variable graph : GraphInner.
Hypothesis Hrep : represents A graph.
Variable features : NodeAuthorizerFeatures.

(** [v] allows only related objects, and is an answer. *)
Definition sound (node : string) (t : VertexType) (a : RequestAttributes) (o : option Verdict) : Prop :=
  exists v, o = Some v /\ (v = VAllow -> related A node (object_of t a) /\ name_of a <> "").

Lemma refusal_sound node t a reason : sound node t a (Some (VNoOpinion reason)).
Proof. eexists. split; [done|]. done. Qed.

Lemma path_verdict_spec node t a :
  t <> Node ->
  exists v, path_verdict graph node t a = Some v /\ (v = VAllow <-> related A node (object_of t a)).
Proof.
  intros Ht. unfold path_verdict.
  destruct (represents_answer A graph node t (ns_of a) (name_of a) Hrep Ht) as (r & -> & Hr).
  cbn [mbind option_bind]. eexists. split; [done|]. unfold object_of. rewrite -Hr. by destruct r as [[]|].
Qed.

Lemma path_sound node t a :
  t <> Node -> name_of a <> "" -> sound node t a (path_verdict graph node t a).
Proof.
  intros Ht Hn. destruct (path_verdict_spec node t a Ht) as (v & -> & Hv). exists v. split; [done|].
  intros ->. split; [by apply Hv|done].
Qed.

Lemma authorize_path_sound node t a : t <> Node -> sound node t a (authorize_path graph node t a).
Proof.
  intros Ht. unfold authorize_path. case_decide; [apply refusal_sound|by apply path_sound].
Qed.

#[local] Hint Resolve refusal_sound authorize_path_sound path_sound : rusternetes.

Lemma subdivided_sound node t a :
  (api_group a, resource a, t) ∈ graph_resources ->
  exists o, subdivided graph features node a = Some o /\ sound node t a o.
Proof.
  intros Hin. assert (t <> Node) as Ht by (intros ->; unfold graph_resources in Hin; set_solver).
  unfold subdivided. unfold graph_resources in Hin.
  repeat (apply elem_of_cons in Hin as [[= Hg Hr ->]|Hin]; [rewrite Hg Hr; eexists; split; [reflexivity|]|]);
    [..|by apply elem_of_nil in Hin].
  all: unfold authorize_read_namespaced_object, authorize_status_update, authorize_get,
         authorize_service_account, authorize_read_namespaced_object, authorize_create_token.
  all: repeat case_match; try (by auto with rusternetes).
  all: apply path_sound; [done|tauto].
Qed.

(** A plain read of one object. *)
Definition plain_get (a : RequestAttributes) : Prop :=
  verb a = "get" /\ sub a = "" /\ name_of a <> "" /\ ns_of a <> "".

Lemma read_get_exact node t a :
  t <> Node -> plain_get a ->
  authorize_read_namespaced_object graph node t a = path_verdict graph node t a
  /\ authorize_get graph node t a = path_verdict graph node t a.
Proof.
  intros Ht (Hv & Hs & Hn & Hns). unfold authorize_read_namespaced_object, authorize_get, authorize_path.
  rewrite Hv Hs. split.
  - change (contains ["get"; "list"; "watch"] "get") with true. cbn [negb].
    rewrite !decide_False //; naive_solver.
  - rewrite !decide_False //; naive_solver.
Qed.

Lemma subdivided_get node t a :
  (api_group a, resource a, t) ∈ graph_resources -> plain_get a ->
  (t = ServiceAccount -> kubelet_service_account_token_for_credential_providers features = true) ->
  subdivided graph features node a = Some (path_verdict graph node t a).
Proof.
  intros Hin Hget Hsa. pose proof Hget as (Hv & Hs & Hn & Hns).
  assert (t <> Node) as Ht by (intros ->; unfold graph_resources in Hin; set_solver).
  destruct (read_get_exact node t a Ht Hget) as [H1 H2].
  unfold subdivided. unfold graph_resources in Hin.
  repeat (apply elem_of_cons in Hin as [[= Hg Hr ->]|Hin]; [rewrite Hg Hr; cbn -[decide]; f_equal|]);
    [..|by apply elem_of_nil in Hin]; try done.
  - case_decide; congruence.
  - unfold authorize_service_account. rewrite decide_True // Hsa //.
Qed.

End Decisions.

(** C13: What the node authorizer lets a kubelet see.  With the graph built by any
    sequence of calls in which no pod refers to an object twice, a request of a
    node for a secret, config map, claim, volume, resource claim, volume attachment
    or service account is answered; whatever its verb and subresource, it is
    allowed only for a named object that belongs to the node; and a get of a
    namespaced object is allowed exactly when the object belongs to the node (for a
    service account, with the feature gate for credential providers on).  A pod
    that refers to an object twice can leave it readable for too long:
    [repeated_reference_outlives_pod]. *)
Theorem node_sees_only_its_objects `{!TextFormat, !IdOrder} (threshold : nat) (ops : list GraphOp)
    (g : GraphInner) (features : NodeAuthorizerFeatures) (a : RequestAttributes) (node : string)
    (t : VertexType) :
  Forall refers_once ops ->
  run_ops ops (set_destination_edge_threshold threshold graph_new) = Some g ->
  node_identity (user a) = (node, true) -> node <> "" -> is_non_resource_request a = false ->
  (api_group a, resource a, t) ∈ graph_resources ->
  exists v, evaluate g features a = Some (Some v)
    /\ (v = VAllow -> related (objs_ops ops no_objs) node (object_of t a) /\ name_of a <> "")
    /\ (plain_get a ->
        (t = ServiceAccount -> kubelet_service_account_token_for_credential_providers features = true) ->
        (v = VAllow <-> related (objs_ops ops no_objs) node (object_of t a))).
Proof.
  intros Hops Hg Hid Hne Hnr Hin.
  destruct (represents_ops ops no_objs _ (represents_new threshold) Hops) as (g' & Hg' & Hrep).
  replace g' with g in Hrep by congruence.
  unfold evaluate. rewrite Hid Hnr. cbn [negb]. rewrite decide_False //.
  destruct (subdivided_sound _ g Hrep features node t a Hin) as (o & Ho & v & -> & Hsound).
  rewrite Ho. exists v. split; [done|]. split; [done|]. intros Hget Hsa.
  rewrite (subdivided_get _ g Hrep features node t a Hin Hget Hsa) in Ho. injection Ho as Ho.
  assert (t <> Node) as Ht by (intros ->; unfold graph_resources in Hin; set_solver).
  destruct (path_verdict_spec _ g Hrep node t a Ht) as (v' & Hv' & Hiff). congruence.
Qed.

Definition kubelet_b : UserInfo := mkUserInfo "system:node:b" "" ["system:nodes"] ∅.

Definition get_key : RequestAttributes :=
  with_name (with_namespace (new_attrs kubelet_b "get" "secrets") "ns") "key".

Lemma node_sees_only_its_objects_witness :
  let ops := [OpAddPod (example_pod "p" "a" ["c"]); OpAddPv example_pv; OpAddPod example_claim_pod] in
  let fmt := Build_TextFormat (fun s => s) (fun s => s) in
  let features := mkNodeAuthorizerFeatures true true false in
  exists g, @run_ops default_id_order ops (set_destination_edge_threshold 1 graph_new) = Some g
    /\ @evaluate fmt default_id_order g features get_key = Some (Some VAllow)
    /\ related (objs_ops ops no_objs) "b" (Secret, "ns", "key").
Proof.
  intros ops fmt features.
  assert (Forall refers_once ops) as Hops by (apply (bool_decide_unpack _); vm_compute; exact I).
  destruct (@run_ops default_id_order ops (set_destination_edge_threshold 1 graph_new)) as [g|] eqn:Hg;
    [|exfalso; vm_compute in Hg; discriminate Hg].
  assert (@evaluate fmt default_id_order g features get_key = Some (Some VAllow)) as He.
  { vm_compute in Hg. injection Hg as <-. vm_compute. reflexivity. }
  exists g. split; [reflexivity|]. split; [exact He|].
  destruct (@node_sees_only_its_objects fmt default_id_order 1 ops g features get_key "b" Secret Hops Hg)
    as (v & Hv & Hsafe & _); [vm_compute; reflexivity|done|done|unfold graph_resources; left|].
  assert (v = VAllow) as Hva by congruence. exact (proj1 (Hsafe Hva)).
Defined.
