(* ===== verification/Patch.v ===== *)
(** * Patches: JSON merge patch, JSON patch, status merge

    Model of [crates/common/src/patch.rs] but for the strategic merge patch
    (which is [StrategicMerge]): the patch types, JSON pointers, [apply_merge_patch],
    the six JSON patch operations and [apply_json_patch], and [deep_merge_objects].

    A [&mut Value] obtained by [get_mut_value] is the value it points to together
    with the function that writes a new value there.  [Vec::insert] panics past
    the end of the vector: the operations that reach it return an [option], [None]
    for the panic.  The derived decoder of a JSON patch document is [serde]'s and
    is a parameter. *)

From Stdlib Require Import Ascii.
From stdpp Require Import strings pretty.
From S2P Require Import Prelude RustText Quantity BTree Json.

#[local] Set Warnings "-register-all".
#[local] Open Scope rust_scope.

(** ** Types *)

Inductive PatchType := StrategicMergePatch | JsonMergePatch | JsonPatch.

#[export] Instance PatchType_eq_dec : EqDecision PatchType.
Proof. solve_decision. Defined.

Inductive PatchError :=
| UnsupportedContentType (s : string)
| InvalidPatch (s : string)
| DecodeFailed (s : string)
| OperationFailed (s : string)
| RequestEntityTooLarge (s : string)
| BadRequest (s : string)
| Uninterpreted (s : string)
| UnprocessableEntity (s : string)
| PathNotFound (s : string)
| JsonError (s : string)
| ResourceVersionConflict.

#[export] Instance PatchError_eq_dec : EqDecision PatchError.
Proof. solve_decision. Defined.

Inductive JsonPatchOp := Add | Remove | Replace | Move | Copy | Test.

Record JsonPatchOperation := mkJsonPatchOperation {
  op : JsonPatchOp;
  path : string;
  value : option Json;
  from : option string
}.

(** A call that may panic: [None] is the panic. *)
Definition outcome (A : Type) : Type := option (result A PatchError).

Notation "'attempt' x <- c ; k" :=
  (match c with Some (Ok x) => k | Some (Err e) => Some (Err e) | None => None end)
  (at level 100, x pattern, c at level 200, k at level 200, right associativity) : rust_scope.

Definition from_content_type (content_type : string) : result PatchType PatchError :=
  if decide (content_type = "application/strategic-merge-patch+json") then Ok StrategicMergePatch
  else if decide (content_type = "application/merge-patch+json") then Ok JsonMergePatch
  else if decide (content_type = "application/json-patch+json") then Ok JsonPatch
  else Err (UnsupportedContentType content_type).

Definition content_type (t : PatchType) : string :=
  match t with
  | StrategicMergePatch => "application/strategic-merge-patch+json"
  | JsonMergePatch => "application/merge-patch+json"
  | JsonPatch => "application/json-patch+json"
  end.

(** ** Values *)

Definition is_null (v : Json) : bool := match v with JNull => true | _ => false end.
Definition is_object (v : Json) : bool := match v with JObject _ => true | _ => false end.
Definition is_array (v : Json) : bool := match v with JArray _ => true | _ => false end.
Definition as_str (v : Json) : option string := match v with JString s => Some s | _ => None end.

(** [value.get(key)] with a string index. *)
Definition get (key : string) (v : Json) : option Json :=
  match v with JObject m => obj_get key m | _ => None end.

(** [obj[key]] of a member that is there. *)
Definition member (key : string) (m : list (string * Json)) : Json := default JNull (obj_get key m).

(** [Value]'s [==] on numbers compares floats, so the two zeros are equal. *)
Fixpoint fold_zero (v : Json) : Json :=
  match v with
  | JNumber t => if decide (t = "-0.0") then JNumber "0.0" else v
  | JArray l => JArray (map fold_zero l)
  | JObject m => JObject (map (fun kv => (kv.1, fold_zero kv.2)) m)
  | _ => v
  end.

Definition value_eqb (v w : Json) : bool := json_eqb (fold_zero v) (fold_zero w).

(** [list.contains(v)]. *)
Definition json_contains (l : list Json) (v : Json) : bool := existsb (value_eqb v) l.

(** ** Pointers *)

(** [s.replace("xy", "r")], a pattern of two characters replaced by one. *)
Fixpoint replace2 (x y r : Ascii.ascii) (s : string) : string :=
  match s with
  | EmptyString => EmptyString
  | String a s' =>
      match s' with
      | String b s'' =>
          if decide (a = x /\ b = y) then String r (replace2 x y r s'')
          else String a (replace2 x y r s')
      | EmptyString => s
      end
  end.

Definition tilde : Ascii.ascii := Ascii.ascii_of_nat 126.

Definition unescape_token (token : string) : string :=
  replace2 tilde "0"%char tilde (replace2 tilde "1"%char slash token).

(** [s.starts_with('/')]. *)
Definition starts_with_slash (s : string) : bool :=
  match s with String a _ => bool_decide (a = slash) | EmptyString => false end.

(** [&s[1..]]. *)
Definition tail_string (s : string) : string :=
  match s with String _ s' => s' | EmptyString => "" end.

(** [s.trim_start_matches('/')]. *)
Fixpoint trim_start_slash (s : string) : string :=
  match s with
  | String a s' => if decide (a = slash) then trim_start_slash s' else s
  | EmptyString => ""
  end.

(** The text before and after the last occurrence of [c]. *)
Fixpoint rsplit_once (c : Ascii.ascii) (s : string) : option (string * string) :=
  match s with
  | EmptyString => None
  | String a s' =>
      match rsplit_once c s' with
      | Some (l, r) => Some (String a l, r)
      | None => if decide (a = c) then Some ("", s') else None
      end
  end.

(** [s.parse::<usize>()]. *)
Definition parse_usize (s : string) : option Z :=
  let ds := match s with
            | String c s' => if decide (c = "+"%char) then s' else s
            | EmptyString => s
            end in
  if all_digits ds then
    let v := dec_value 0 ds in if decide (v < 2 ^ 64)%Z then Some v else None
  else None.

(** [arr.get(index)]. *)
Definition vec_get {A} (l : list A) (i : Z) : option A :=
  if decide (i < Z.of_nat (length l))%Z then l !! Z.to_nat i else None.

Fixpoint field_path_parts (out : string) (parts : list string) : string :=
  match parts with
  | [] => out
  | part :: parts =>
      let unescaped := unescape_token part in
      match parse_usize unescaped with
      | Some _ => field_path_parts (out +:+ "[" +:+ unescaped +:+ "]") parts
      | None =>
          field_path_parts ((if decide (out = "") then out else out +:+ ".") +:+ unescaped) parts
      end
  end.

Definition json_pointer_to_field_path (ptr : string) : string :=
  if decide (ptr = "" \/ ptr = "/") then ""
  else field_path_parts "" (split_char slash (trim_start_slash ptr)).

Definition must_start (path : string) : PatchError :=
  InvalidPatch ("Path must start with '/': " +:+ path).

Definition parse_path (path : string) : result (list string) PatchError :=
  if starts_with_slash path then Ok (unescape_token <$> split_char slash (tail_string path))
  else Err (must_start path).

Definition split_path (path : string) : result (string * string) PatchError :=
  if starts_with_slash path then
    if decide (path = "/") then Err (InvalidPatch "Cannot split root path")
    else match rsplit_once slash path with
         | Some (l, r) => Ok (if decide (l = "") then "/" else l, unescape_token r)
         | None => Err (must_start path)
         end
  else Err (must_start path).

Definition invalid_index (part : string) : PatchError :=
  InvalidPatch ("Invalid array index: " +:+ part).

Definition out_of_bounds (i : Z) : PatchError :=
  OperationFailed ("Array index out of bounds: " +:+ pretty i).

(** ** Reading and writing at a pointer *)

(** The loop of [get_value]. *)
Fixpoint get_parts (path : string) (parts : list string) (current : Json) : result Json PatchError :=
  match parts with
  | [] => Ok current
  | part :: parts =>
      match current with
      | JObject obj =>
          match obj_get part obj with
          | Some v => get_parts path parts v
          | None => Err (OperationFailed ("Path not found: " +:+ path))
          end
      | JArray arr =>
          match parse_usize part with
          | None => Err (invalid_index part)
          | Some index =>
              match vec_get arr index with
              | Some v => get_parts path parts v
              | None => Err (out_of_bounds index)
              end
          end
      | _ => Err (OperationFailed ("Cannot traverse non-object/array at path: " +:+ path))
      end
  end.

Definition get_value (v : Json) (path : string) : result Json PatchError :=
  if decide (path = "" \/ path = "/") then Ok v
  else try parts <- parse_path path; get_parts path parts v.

(** The loop of [get_mut_value]; a missing member is created as [{}]. *)
Fixpoint get_mut_parts (path : string) (parts : list string) (current : Json)
  : result (Json * (Json -> Json)) PatchError :=
  match parts with
  | [] => Ok (current, fun v => v)
  | part :: parts =>
      match current with
      | JObject obj =>
          try (focus, put) <- get_mut_parts path parts (default (JObject []) (obj_get part obj));
          Ok (focus, fun v => JObject (obj_insert part (put v) obj))
      | JArray arr =>
          match parse_usize part with
          | None => Err (invalid_index part)
          | Some index =>
              match vec_get arr index with
              | Some child =>
                  try (focus, put) <- get_mut_parts path parts child;
                  Ok (focus, fun v => JArray (<[Z.to_nat index := put v]> arr))
              | None => Err (out_of_bounds index)
              end
          end
      | _ => Err (OperationFailed ("Cannot traverse non-object/array in path: " +:+ path))
      end
  end.

Definition get_mut_value (v : Json) (path : string) : result (Json * (Json -> Json)) PatchError :=
  if decide (path = "" \/ path = "/") then Ok (v, fun w => w)
  else try parts <- parse_path path; get_mut_parts path parts v.

(** ** The operations of a JSON patch *)

(** [arr.insert(index, v)]: panics when [index > len]. *)
Definition vec_insert {A} (l : list A) (i : Z) (v : A) : option (list A) :=
  if decide (i <= Z.of_nat (length l))%Z
  then Some (take (Z.to_nat i) l ++ v :: drop (Z.to_nat i) l) else None.

(** [arr.remove(index)] below the length. *)
Definition vec_remove {A} (l : list A) (i : nat) : list A := take i l ++ drop (S i) l.

Definition add_operation (v : Json) (path : string) (new_value : Json) : outcome Json :=
  attempt (parent_path, key) <- Some (split_path path);
  if decide (parent_path = "") then Some (Ok new_value)
  else
    attempt (parent, put) <- Some (get_mut_value v parent_path);
    match parent with
    | JObject obj => Some (Ok (put (JObject (obj_insert key new_value obj))))
    | JArray arr =>
        attempt index <- Some (if decide (key = "-") then Ok (Z.of_nat (length arr))
                               else match parse_usize key with
                                    | Some i => Ok i
                                    | None => Err (invalid_index key)
                                    end);
        arr' ← vec_insert arr index new_value;
        Some (Ok (put (JArray arr')))
    | _ => Some (Err (OperationFailed
             ("Cannot add to non-object/array at path: " +:+ parent_path)))
    end.

Definition path_not_found (path : string) : PatchError :=
  PathNotFound (json_pointer_to_field_path path).

Definition remove_operation (v : Json) (path : string) : result Json PatchError :=
  try (parent_path, key) <- split_path path;
  try (parent, put) <- get_mut_value v parent_path;
  match parent with
  | JObject obj =>
      match obj_get key obj with
      | None => Err (path_not_found path)
      | Some _ => Ok (put (JObject (obj_remove key obj)))
      end
  | JArray arr =>
      match parse_usize key with
      | None => Err (invalid_index key)
      | Some index =>
          if decide (Z.of_nat (length arr) <= index)%Z then Err (path_not_found path)
          else Ok (put (JArray (vec_remove arr (Z.to_nat index))))
      end
  | _ => Err (OperationFailed ("Cannot remove from non-object/array at path: " +:+ parent_path))
  end.

Definition replace_operation (v : Json) (path : string) (new_value : Json) : result Json PatchError :=
  if decide (path = "" \/ path = "/") then Ok new_value
  else
    try (parent_path, key) <- split_path path;
    try (parent, put) <- get_mut_value v parent_path;
    match parent with
    | JObject obj =>
        match obj_get key obj with
        | None => Err (path_not_found path)
        | Some _ => Ok (put (JObject (obj_insert key new_value obj)))
        end
    | JArray arr =>
        match parse_usize key with
        | None => Err (invalid_index key)
        | Some index =>
            if decide (Z.of_nat (length arr) <= index)%Z then Err (path_not_found path)
            else Ok (put (JArray (<[Z.to_nat index := new_value]> arr)))
        end
    | _ => Err (OperationFailed ("Cannot replace in non-object/array at path: " +:+ parent_path))
    end.

Definition is_proper_prefix (from to : string) : bool :=
  if decide (from = to) then true
  else match strip_prefix from to with
       | Some rest => starts_with_slash rest
       | None => false
       end.

Definition move_operation (v : Json) (from to : string) : outcome Json :=
  if is_proper_prefix from to then
    Some (Err (InvalidPatch ("move: 'from' location (" +:+ from
      +:+ ") must not be a proper prefix of 'path' (" +:+ to +:+ ") per RFC 6902 §4.4")))
  else
    attempt moved_value <- Some (get_value v from);
    attempt result <- Some (remove_operation v from);
    add_operation result to moved_value.

Definition copy_operation (v : Json) (from to : string) : outcome Json :=
  attempt copied_value <- Some (get_value v from);
  add_operation v to copied_value.

Definition test_operation (v : Json) (path : string) (test_value : Json) : result unit PatchError :=
  try current_value <- get_value v path;
  if value_eqb current_value test_value then Ok tt
  else Err (OperationFailed ("Test failed at path: " +:+ path)).

Definition require_value (o : JsonPatchOperation) (what : string) : result Json PatchError :=
  match value o with
  | Some v => Ok v
  | None => Err (InvalidPatch ("'value' required for " +:+ what))
  end.

Definition require_from (o : JsonPatchOperation) (what : string) : result string PatchError :=
  match from o with
  | Some f => Ok f
  | None => Err (InvalidPatch ("'from' required for " +:+ what))
  end.

Definition apply_json_patch_operation (v : Json) (o : JsonPatchOperation) : outcome Json :=
  match op o with
  | Add => attempt new_value <- Some (require_value o "add"); add_operation v (path o) new_value
  | Remove => Some (remove_operation v (path o))
  | Replace =>
      attempt new_value <- Some (require_value o "replace");
      Some (replace_operation v (path o) new_value)
  | Move => attempt f <- Some (require_from o "move"); move_operation v f (path o)
  | Copy => attempt f <- Some (require_from o "copy"); copy_operation v f (path o)
  | Test =>
      attempt test_value <- Some (require_value o "test");
      attempt _ <- Some (test_operation v (path o) test_value);
      Some (Ok v)
  end.

Definition MAX_JSON_PATCH_OPERATIONS : nat := Nat.mul 100 100.

Fixpoint apply_operations (current : Json) (operations : list JsonPatchOperation) : outcome Json :=
  match operations with
  | [] => Some (Ok current)
  | o :: operations =>
      attempt current <- apply_json_patch_operation current o;
      apply_operations current operations
  end.

(** [serde_json::from_value::<Vec<JsonPatchOperation>>]. *)
Class PatchDecode := decode_operations : Json -> result (list JsonPatchOperation) string.

Definition apply_json_patch `{!PatchDecode} (original patch : Json) : outcome Json :=
  match decode_operations patch with
  | Err e => Some (Err (DecodeFailed e))
  | Ok operations =>
      if decide (MAX_JSON_PATCH_OPERATIONS < length operations) then
        Some (Err (RequestEntityTooLarge
          ("The allowed maximum operations in a JSON patch is " +:+ pretty MAX_JSON_PATCH_OPERATIONS
           +:+ ", got " +:+ pretty (length operations))))
      else apply_operations original operations
  end.

(** ** JSON merge patch *)

(** The object that the members of a patch go into. *)
Definition object_or_empty (v : Json) : list (string * Json) :=
  match v with JObject m => m | _ => [] end.

Fixpoint apply_merge_patch (original patch : Json) {struct patch} : result Json PatchError :=
  match patch with
  | JObject patch_obj =>
      result_map JObject
        ((fix each (patch_obj result_obj : list (string * Json)) {struct patch_obj}
            : result (list (string * Json)) PatchError :=
            match patch_obj with
            | [] => Ok result_obj
            | (key, v) :: patch_obj =>
                if is_null v then each patch_obj (obj_remove key result_obj)
                else if is_object v && from_option is_object false (obj_get key result_obj) then
                  try merged <- apply_merge_patch (member key result_obj) v;
                  each patch_obj (obj_insert key merged result_obj)
                else each patch_obj (obj_insert key v result_obj)
            end) patch_obj (object_or_empty original))
  | _ => Ok patch
  end.

(** ** Merging a status *)

Definition condition_type (v : Json) : option string := get "type" v ≫= as_str.

(** The first condition with the given type, updated by [f]. *)
Fixpoint update_condition (f : Json -> Json) (ty : string) (l : list Json) : option (list Json) :=
  match l with
  | [] => None
  | c :: l =>
      if decide (condition_type c = Some ty) then Some (f c :: l)
      else (c ::.) <$> update_condition f ty l
  end.

Section Conditions.
Variable deep_merge_objects : Json -> Json -> Json.

Fixpoint merge_conditions (target_arr patch_arr : list Json) {struct patch_arr} : list Json :=
  match patch_arr with
  | [] => target_arr
  | pc :: patch_arr =>
      merge_conditions
        (match condition_type pc ≫= fun ty =>
                 update_condition (fun existing => deep_merge_objects existing pc) ty target_arr with
         | Some arr => arr
         | None => target_arr ++ [pc]
         end) patch_arr
  end.

Definition merge_conditions_by_type (target patch : Json) : Json :=
  match patch with
  | JArray patch_arr =>
      match target with
      | JArray target_arr => JArray (merge_conditions target_arr patch_arr)
      | _ => patch
      end
  | _ => target
  end.
End Conditions.

Fixpoint deep_merge_objects (target patch : Json) {struct patch} : Json :=
  match target, patch with
  | JObject target_obj, JObject patch_obj =>
      JObject
        ((fix each (patch_obj target_obj : list (string * Json)) {struct patch_obj} :=
            match patch_obj with
            | [] => target_obj
            | (k, v) :: patch_obj =>
                each patch_obj
                  (match v with
                   | JNull => obj_remove k target_obj
                   | JObject _ =>
                       let existing := default (JObject []) (obj_get k target_obj) in
                       obj_insert k (deep_merge_objects existing v) target_obj
                   | JArray _ =>
                       if decide (k = "conditions") then
                         let existing := default (JArray []) (obj_get k target_obj) in
                         obj_insert k (merge_conditions_by_type deep_merge_objects existing v) target_obj
                       else obj_insert k v target_obj
                   | _ => obj_insert k v target_obj
                   end)
            end) patch_obj target_obj)
  | _, _ => target
  end.
