(* ===== verification/MergePatch.v ===== *)
(** * JSON merge patch against RFC 7386

    [apply_merge_patch] never fails, its result is decided member by member, and
    it is compared with the [MergePatch] function of RFC 7386, the specification
    its documentation names.  The two differ in exactly one situation: an object
    of the patch that meets no object in the document is stored as it is, with its
    nulls, where the RFC merges it into an empty object and so drops them. *)

From stdpp Require Import strings.
From S2P Require Import Prelude RustText BTree Json Patch.

#[local] Open Scope rust_scope.

(** ** The specification *)

(** [MergePatch(Target, Patch)] of RFC 7386, section 2; an undefined target
    member is not an object, like [null]. *)
Fixpoint rfc7386 (target patch : Json) {struct patch} : Json :=
  match patch with
  | JObject ps =>
      JObject
        ((fix each (ps target_obj : list (string * Json)) {struct ps} :=
            match ps with
            | [] => target_obj
            | (name, JNull) :: ps => each ps (obj_remove name target_obj)
            | (name, v) :: ps =>
                each ps (obj_insert name (rfc7386 (default JNull (obj_get name target_obj)) v) target_obj)
            end) ps (object_or_empty target))
  | _ => patch
  end.

(** No object reachable through objects has a null member. *)
Fixpoint null_free (v : Json) : bool :=
  match v with
  | JObject m =>
      (fix go m :=
         match m with
         | [] => true
         | (_, w) :: m => negb (json_eqb w JNull) && null_free w && go m
         end) m
  | _ => true
  end.

(** The nulls of the patch are under objects that the document has too. *)
Fixpoint nulls_meet_objects (original patch : Json) {struct patch} : bool :=
  match patch with
  | JObject ps =>
      (fix go ps :=
         match ps with
         | [] => true
         | (k, v) :: ps =>
             match obj_get k (object_or_empty original) with
             | Some (JObject m) => nulls_meet_objects (JObject m) v
             | _ => null_free v
             end && go ps
         end) ps
  | _ => true
  end.

(** ** Both are member-wise merges *)

Definition rfc_member (_ : string) (o : option Json) (v : Json) : option Json :=
  match v with JNull => None | _ => Some (rfc7386 (default JNull o) v) end.

(** The value [apply_merge_patch] returns. *)
Definition merged (original patch : Json) : Json :=
  match apply_merge_patch original patch with Ok v => v | Err _ => patch end.

Definition merge_member (_ : string) (o : option Json) (v : Json) : option Json :=
  match v, o with
  | JNull, _ => None
  | JObject _, Some (JObject m) => Some (merged (JObject m) v)
  | _, _ => Some v
  end.

Lemma rfc7386_object target ps :
  rfc7386 target (JObject ps) = JObject (obj_merge rfc_member ps (object_or_empty target)).
Proof.
  simpl. f_equal. generalize (object_or_empty target) as m.
  induction ps as [|[k v] ps IH]; intros m; [done|]. destruct v; apply IH.
Qed.

Lemma apply_merge_patch_total patch : forall original, apply_merge_patch original patch = Ok (merged original patch).
Proof.
  enough (forall original, exists v, apply_merge_patch original patch = Ok v) as H.
  { intros original. unfold merged. by destruct (H original) as [v ->]. }
  induction patch as [|b|t|s|l IH|ps IH] using Json_ind_nested; intros original; cbn [apply_merge_patch]; eauto.
  generalize (object_or_empty original) as m.
  induction IH as [|[k v] ps Hv _ IHps]; intros m; [by eexists|]. simpl in Hv.
  destruct (is_null v); [apply IHps|]. destruct (is_object v && _); [|apply IHps].
  destruct (Hv (member k m)) as [w ->]. apply IHps.
Qed.

Lemma apply_merge_patch_object original ps :
  apply_merge_patch original (JObject ps) = Ok (JObject (obj_merge merge_member ps (object_or_empty original))).
Proof.
  cbn [apply_merge_patch]. generalize (object_or_empty original) as m.
  induction ps as [|[k v] ps IH]; intros m; [done|]. cbn [obj_merge]. unfold member.
  destruct v; try apply IH; destruct (obj_get k m) as [[]|];
    cbn [is_null is_object andb from_option default merge_member]; try apply IH.
  rewrite apply_merge_patch_total. apply IH.
Qed.

Lemma merged_object original ps :
  merged original (JObject ps) = JObject (obj_merge merge_member ps (object_or_empty original)).
Proof. unfold merged. by rewrite apply_merge_patch_object. Qed.

Lemma object_or_empty_wf v : json_wf v -> obj_wf (object_or_empty v).
Proof. destruct v; try (intros _; apply obj_wf_nil). apply json_wf_object. Qed.

#[export] Hint Resolve object_or_empty_wf : rusternetes.

(** A merge changes nothing exactly when no member changes. *)
Lemma obj_merge_eq (f g : string -> option Json -> Json -> option Json) ps m :
  obj_wf ps -> keys_sorted m ->
  obj_merge f ps m = obj_merge g ps m
  <-> Forall (fun kv => f kv.1 (obj_get kv.1 m) kv.2 = g kv.1 (obj_get kv.1 m) kv.2) ps.
Proof.
  intros [Hps _] Hm. rewrite Forall_forall. split.
  - intros H [k v] Hk%elem_obj_get; [|done]. apply (f_equal (obj_get k)) in H.
    rewrite !obj_get_merge // in H. by rewrite Hk in H.
  - intros H. apply obj_ext; [by apply obj_merge_sorted|by apply obj_merge_sorted|]. intros k.
    rewrite !obj_get_merge //. destruct (obj_get k ps) as [v|] eqn:E; [|done].
    apply (H (k, v)). by apply obj_get_elem.
Qed.

(** Merging with the patch's own values gives the patch back. *)
Lemma obj_merge_copy ps : obj_wf ps -> obj_merge (fun _ _ v => Some v) ps [] = ps.
Proof.
  intros [Hps _]. apply obj_ext; [apply obj_merge_sorted, keys_sorted_nil|done|]. intros k.
  rewrite obj_get_merge; [done|apply keys_sorted_nil|]. by destruct (obj_get k ps).
Qed.

Lemma null_free_object ps :
  null_free (JObject ps) = true <-> Forall (fun kv => kv.2 <> JNull /\ null_free kv.2 = true) ps.
Proof.
  simpl. induction ps as [|[k v] ps IH]; [split; [intros _; constructor|done]|].
  rewrite !andb_true_iff negb_true_iff Forall_cons IH. simpl.
  rewrite -not_true_iff_false json_eqb_eq. naive_solver.
Qed.

(** A fresh object is stored unchanged by the RFC exactly when it has no nulls. *)
Lemma rfc7386_fresh v : forall target,
  json_wf v -> is_object target = false -> rfc7386 target v = v <-> null_free v = true.
Proof.
  induction v as [|b|t|s|l IH|ps IH] using Json_ind_nested; intros target Hwf Ht; try done.
  rewrite rfc7386_object null_free_object. apply json_wf_object in Hwf.
  assert (object_or_empty target = []) as -> by by destruct target.
  transitivity (obj_merge rfc_member ps [] = obj_merge (fun _ _ v => Some v) ps []).
  { rewrite (obj_merge_copy ps) //. split; [congruence|by intros ->]. }
  rewrite obj_merge_eq; [done|apply keys_sorted_nil|]. destruct Hwf as [_ Hwf]. rewrite !Forall_forall.
  rewrite -> Forall_forall in IH, Hwf. split; intros H [k v] Hk; specialize (H _ Hk);
    specialize (IH _ Hk); specialize (Hwf _ Hk); cbn [fst snd obj_get] in *.
  - assert (v <> JNull) as Hv by by destruct v. split; [done|]. apply (IH JNull); [done|done|].
    unfold rfc_member in H. destruct v; try done. exact (Some_inj _ _ H).
  - destruct H as [Hv Hnf]. apply (IH JNull) in Hnf as Heq; [|done|done].
    unfold rfc_member. destruct v; try done. cbn [default]. by rewrite Heq.
Qed.

Lemma nulls_meet_object original ps :
  nulls_meet_objects original (JObject ps) = true
  <-> Forall (fun kv => match obj_get kv.1 (object_or_empty original) with
                        | Some (JObject m) => nulls_meet_objects (JObject m) kv.2
                        | _ => null_free kv.2
                        end = true) ps.
Proof.
  simpl. generalize (object_or_empty original) as m. intros m.
  induction ps as [|[k v] ps IH]; [split; [intros _; constructor|done]|]. rewrite andb_true_iff Forall_cons IH. done.
Qed.

Lemma impl_iff_compat (P Q R : Prop) : (P -> (Q <-> R)) -> (P -> Q) <-> (P -> R).
Proof. naive_solver. Qed.

(** One member: the code and the RFC agree on it under the condition on it. *)
Lemma member_agrees k o v :
  from_option json_wf True o -> json_wf v ->
  (forall original, json_wf original ->
     merged original v = rfc7386 original v <-> nulls_meet_objects original v = true) ->
  merge_member k o v = rfc_member k o v
  <-> match o with
      | Some (JObject m) => nulls_meet_objects (JObject m) v
      | _ => null_free v
      end = true.
Proof.
  intros Ho Hv IH. destruct v as [|?|?|?|?|ps]; try by destruct o as [[]|].
  assert (forall t, is_object t = false ->
            Some (JObject ps) = Some (rfc7386 t (JObject ps)) <-> null_free (JObject ps) = true) as Hfresh.
  { intros t Ht. rewrite -(rfc7386_fresh _ t) //. split; [congruence|by intros ->]. }
  destruct o as [w|]; [|by apply (Hfresh JNull)].
  destruct w as [|b|t|s|l|m]; try by apply Hfresh.
  rewrite -IH //. apply (inj_iff Some).
Qed.

(** C23: [apply_merge_patch] gives the result of RFC 7386's [MergePatch] exactly
    when every null of the patch lies under objects the document has as well; an
    object of the patch that is new in the document keeps its null members, which
    the RFC drops. *)
Theorem merge_patch_is_rfc7386 original patch :
  json_wf original -> json_wf patch ->
  apply_merge_patch original patch = Ok (rfc7386 original patch)
  <-> nulls_meet_objects original patch = true.
Proof.
  rewrite apply_merge_patch_total. intros Ho Hp.
  transitivity (merged original patch = rfc7386 original patch); [split; [congruence|by intros ->]|].
  revert original Ho. induction patch as [|b|t|s|l IH|ps IH] using Json_ind_nested; intros original Ho; try done.
  rewrite merged_object rfc7386_object nulls_meet_object. apply json_wf_object in Hp.
  apply object_or_empty_wf in Ho. set (m := object_or_empty original) in *. clearbody m.
  transitivity (obj_merge merge_member ps m = obj_merge rfc_member ps m); [split; [congruence|by intros ->]|].
  rewrite obj_merge_eq; [done|apply Ho|]. destruct Hp as [_ Hp]. rewrite !Forall_forall.
  rewrite -> Forall_forall in IH, Hp.
  apply forall_proper. intros [k v]. apply impl_iff_compat. intros Hk.
  apply member_agrees; [|exact (Hp _ Hk)|exact (fun o Ho => IH _ Hk (Hp _ Hk) o Ho)].
  cbn [fst]. destruct (obj_get k m) eqn:E; simpl; eauto with rusternetes.
Qed.

Lemma merge_patch_is_rfc7386_witness :
  let original := JObject [("a", JObject [("b", JNull); ("c", JNumber "1")])] in
  let patch := JObject [("a", JObject [("b", JNull)])] in
  let fresh := JObject [("z", JObject [("b", JNull)])] in
  apply_merge_patch original patch = Ok (JObject [("a", JObject [("c", JNumber "1")])])
  /\ apply_merge_patch original fresh <> Ok (rfc7386 original fresh).
Proof.
  split.
  - rewrite (proj2 (merge_patch_is_rfc7386
      (JObject [("a", JObject [("b", JNull); ("c", JNumber "1")])])
      (JObject [("a", JObject [("b", JNull)])]) ltac:(repeat constructor) ltac:(repeat constructor))
      eq_refl). reflexivity.
  - intros H. apply merge_patch_is_rfc7386 in H; [discriminate H|repeat constructor..].
Defined.

(** Merging well-formed values gives a well-formed value. *)
Lemma merged_wf patch : forall original, json_wf original -> json_wf patch -> json_wf (merged original patch).
Proof.
  induction patch as [|b|t|s|l IH|ps IH] using Json_ind_nested; intros original Ho Hp; try done.
  rewrite merged_object. apply json_wf_object in Hp as [_ Hp]. apply json_wf_object.
  apply object_or_empty_wf in Ho. revert Ho. generalize (object_or_empty original) as m.
  induction IH as [|[k v] ps IHv _ IHps]; intros m Hm; [done|]. apply Forall_cons in Hp as [Hv Hp].
  cbn [obj_merge]. apply IHps; [done|]. cbn [snd] in *.
  assert (forall w, obj_get k m = Some w -> json_wf w) as Hw by eauto with rusternetes.
  destruct v; simpl; auto with rusternetes. destruct (obj_get k m) as [[]|]; simpl; auto with rusternetes.
Qed.
