(* ===== verification/PatchPointer.v ===== *)
(** * JSON pointers, and writing through them

    RFC 6901 pointers: [pointer] renders reference tokens, and [parse_path] and
    [split_path] read them back.  A reference semantics of reading by tokens
    ([lookup_at]) is shown to be [get_value], and the value and write-back function
    of [get_mut_value] to satisfy the laws of a lens: what is written is read
    back, writing what is there changes nothing, the last write wins, and members
    off the path are left alone. *)

From Stdlib Require Import Ascii.
From stdpp Require Import strings pretty.
From S2P Require Import Prelude RustText Quantity BTree Json Patch.

#[local] Open Scope rust_scope.

(** ** Rendering *)

(** RFC 6901, section 3: [~] is written [~0] and [/] is written [~1]. *)
Fixpoint escape_token (t : string) : string :=
  match t with
  | EmptyString => ""
  | String c t =>
      if decide (c = tilde) then String tilde (String "0" (escape_token t))
      else if decide (c = slash) then String tilde (String "1" (escape_token t))
      else String c (escape_token t)
  end.

Fixpoint pointer (l : list string) : string :=
  match l with [] => "" | t :: l => String slash (escape_token t +:+ pointer l) end.

Lemma replace2_other x y r a s : a <> x -> replace2 x y r (String a s) = String a (replace2 x y r s).
Proof. intros. destruct s as [|b s]; [done|]. cbn [replace2]. by rewrite decide_False; [naive_solver|]. Qed.

Lemma replace2_skip x y r b s : b <> y -> b <> x ->
  replace2 x y r (String x (String b s)) = String x (String b (replace2 x y r s)).
Proof.
  intros. cbn [replace2]. rewrite decide_False; [naive_solver|]. f_equal. by apply (replace2_other x y r b s).
Qed.

Lemma replace2_hit x y r s : replace2 x y r (String x (String y s)) = String r (replace2 x y r s).
Proof. cbn [replace2]. by rewrite decide_True. Qed.

(** Only the tilde escaped: the text between the two replacements. *)
Fixpoint escape_tilde (t : string) : string :=
  match t with
  | EmptyString => ""
  | String c t =>
      if decide (c = tilde) then String tilde (String "0" (escape_tilde t)) else String c (escape_tilde t)
  end.

Lemma unescape_escape t : unescape_token (escape_token t) = t.
Proof.
  unfold unescape_token. assert (replace2 tilde "1" slash (escape_token t) = escape_tilde t) as ->.
  { induction t as [|c t IH]; [done|]. cbn [escape_token escape_tilde].
    destruct (decide (c = tilde)) as [->|]; [by rewrite replace2_skip // IH|].
    destruct (decide (c = slash)) as [->|]; [by rewrite replace2_hit IH|]. by rewrite replace2_other // IH. }
  induction t as [|c t IH]; [done|]. cbn [escape_tilde].
  destruct (decide (c = tilde)) as [->|]; [by rewrite replace2_hit IH|]. by rewrite replace2_other // IH.
Qed.

Lemma escape_no_slash t : occurs slash (escape_token t) = false.
Proof.
  induction t as [|c t IH]; [done|]. cbn [escape_token]. repeat case_decide; simpl; rewrite ?IH; try done.
  by rewrite bool_decide_false.
Qed.

Lemma escape_empty t : escape_token t = "" <-> t = "".
Proof. split; [|by intros ->]. destruct t as [|c t]; [done|]. cbn [escape_token]. by repeat case_decide. Qed.

(** ** Parsing what was rendered *)

Lemma split_char_segment p s :
  occurs slash p = false -> split_char slash (p +:+ String slash s) = p :: split_char slash s.
Proof.
  induction p as [|c p IH]; intros Hp.
  - change (("" : string) +:+ String slash s) with (String slash s). cbn [split_char]. by case_decide.
  - apply orb_false_iff in Hp as [Hc%bool_decide_eq_false_1 Hp]. change (String c p +:+ String slash s) with (String c (p +:+ String slash s)).
    cbn [split_char]. rewrite decide_False //. by rewrite IH.
Qed.

Lemma split_char_last p : occurs slash p = false -> split_char slash p = [p].
Proof.
  induction p as [|c p IH]; intros Hp; [done|]. apply orb_false_iff in Hp as [Hc%bool_decide_eq_false_1 Hp].
  cbn [split_char]. rewrite decide_False //. by rewrite IH.
Qed.

Lemma split_pointer t l : split_char slash (escape_token t +:+ pointer l) = escape_token <$> t :: l.
Proof.
  revert t. induction l as [|u l IH]; intros t; cbn [pointer].
  - rewrite append_empty split_char_last //. apply escape_no_slash.
  - rewrite split_char_segment; [apply escape_no_slash|]. by rewrite IH.
Qed.

Lemma parse_pointer t l : parse_path (pointer (t :: l)) = Ok (t :: l).
Proof.
  unfold parse_path. cbn [pointer starts_with_slash tail_string]. rewrite bool_decide_true //.
  f_equal. rewrite split_pointer -list_fmap_compose. rewrite -{2}(list_fmap_id (t :: l)).
  apply list_fmap_ext. intros i x _. apply unescape_escape.
Qed.

Lemma rsplit_once_last c p s :
  occurs c s = false -> rsplit_once c (p +:+ String c s) = Some (p, s).
Proof.
  intros Hs. assert (rsplit_once c s = None) as Hn.
  { induction s as [|a s IH]; [done|]. apply orb_false_iff in Hs as [Hc%bool_decide_eq_false_1 Hs].
    cbn [rsplit_once]. rewrite IH //. by case_decide. }
  induction p as [|a p IH].
  - change (("" : string) +:+ String c s) with (String c s). cbn [rsplit_once]. rewrite Hn. by case_decide.
  - change (String a p +:+ String c s) with (String a (p +:+ String c s)). cbn [rsplit_once]. by rewrite IH.
Qed.

Lemma pointer_app l k : pointer (l ++ [k]) = pointer l +:+ String slash (escape_token k).
Proof.
  induction l as [|t l IH]; cbn [app pointer].
  - change (("" : string) +:+ ?x) with x. by rewrite append_empty.
  - rewrite IH. change (String slash ?x +:+ ?y) with (String slash (x +:+ y)). by rewrite string_append_assoc.
Qed.

Lemma pointer_root l : pointer l = "/" <-> l = [""].
Proof.
  split; [|by intros ->]. destruct l as [|t l]; [done|]. cbn [pointer]. intros [= H].
  destruct t as [|c t]; [|cbn [escape_token] in H; by repeat case_decide].
  destruct l; [done|]. cbn in H. done.
Qed.

Lemma pointer_empty l : pointer l = "" <-> l = [].
Proof. split; [by destruct l|by intros ->]. Qed.

(** The parent of a pointer as [split_path] returns it. *)
Definition parent_pointer (l : list string) : string := if decide (l = []) then "/" else pointer l.

Lemma starts_with_pointer t l : starts_with_slash (pointer (t :: l)) = true.
Proof. cbn [pointer starts_with_slash]. by rewrite bool_decide_true. Qed.

Lemma split_pointer_path l k :
  l ++ [k] <> [""] -> split_path (pointer (l ++ [k])) = Ok (parent_pointer l, k).
Proof.
  intros Hne. unfold split_path. assert (starts_with_slash (pointer (l ++ [k])) = true) as ->.
  { destruct l; apply starts_with_pointer. }
  rewrite decide_False; [by rewrite pointer_root|].
  rewrite pointer_app rsplit_once_last; [apply escape_no_slash|]. rewrite unescape_escape.
  unfold parent_pointer. repeat f_equal. by repeat case_decide; rewrite -> ?pointer_empty in *.
Qed.

(** ** Reading by tokens *)

(** The child of a value under a reference token. *)
Definition child (v : Json) (t : string) : option Json :=
  match v with
  | JObject m => obj_get t m
  | JArray a => parse_usize t ≫= vec_get a
  | _ => None
  end.

Fixpoint lookup_at (l : list string) (v : Json) : option Json :=
  match l with [] => Some v | t :: l => child v t ≫= lookup_at l end.

Lemma lookup_at_app l q v : lookup_at (l ++ q) v = lookup_at l v ≫= lookup_at q.
Proof. revert v. induction l as [|t l IH]; intros v; [done|]. cbn [app lookup_at]. destruct (child v t); [apply IH|done]. Qed.

Lemma get_parts_lookup path l v w : get_parts path l v = Ok w <-> lookup_at l v = Some w.
Proof.
  revert v. induction l as [|t l IH]; intros v; cbn [get_parts lookup_at]; [naive_solver|].
  destruct v as [| | | |a|m]; simpl; try naive_solver.
  - destruct (parse_usize t) as [i|]; simpl; [|naive_solver]. destruct (vec_get a i); simpl; [apply IH|naive_solver].
  - destruct (obj_get t m); simpl; [apply IH|naive_solver].
Qed.

(** [get_value] reads what the tokens of the pointer lead to; only the pointer
    [/], the token [""], is taken for the whole document. *)
Lemma get_value_pointer l v w : l <> [""] -> get_value v (pointer l) = Ok w <-> lookup_at l v = Some w.
Proof.
  intros Hl. unfold get_value. case_decide as Hd; rewrite pointer_root pointer_empty in Hd.
  { destruct Hd as [->| ->]; [simpl; naive_solver|done]. }
  destruct l as [|t l]; [naive_solver|]. rewrite parse_pointer. apply get_parts_lookup.
Qed.

Lemma vec_get_lookup {A} (a : list A) i c : vec_get a i = Some c -> a !! Z.to_nat i = Some c.
Proof. unfold vec_get. by case_decide. Qed.

Lemma dec_value_nonneg s : forall acc, (0 <= acc)%Z -> all_digits s = true \/ s = "" -> (0 <= dec_value acc s)%Z.
Proof.
  unfold all_digits. induction s as [|c s IH]; intros acc Ha Hs; [done|]. cbn [dec_value].
  destruct Hs as [Hs|]; [|done]. cbn [span_digits] in Hs.
  destruct (is_ascii_digit c) eqn:Hc; [|done]. unfold is_ascii_digit in Hc.
  apply andb_true_iff in Hc as [Hc _]. apply Z.leb_le in Hc. apply IH; [lia|].
  destruct s as [|d s]; [by right|left]. cbn [span_digits] in *. destruct (is_ascii_digit d); [|done].
  by destruct (span_digits s).
Qed.

Lemma parse_usize_range s i : parse_usize s = Some i -> (0 <= i < 2 ^ 64)%Z.
Proof.
  unfold parse_usize. destruct (all_digits _) eqn:Hd; [|done]. case_decide; [|done]. intros [= <-].
  split; [|done]. apply dec_value_nonneg; [done|by left].
Qed.

Lemma vec_get_insert {A} (a : list A) i c d :
  vec_get a i = Some c -> vec_get (<[Z.to_nat i := d]> a) i = Some d.
Proof.
  unfold vec_get. rewrite length_insert. case_decide; [|done]. intros Hi.
  apply list_lookup_insert_eq. by eapply lookup_lt_Some.
Qed.

Lemma vec_get_insert_ne {A} (a : list A) i j d :
  (0 <= i)%Z -> (0 <= j)%Z -> i <> j -> vec_get (<[Z.to_nat i := d]> a) j = vec_get a j.
Proof.
  intros. unfold vec_get. rewrite length_insert. case_decide; [|done]. apply list_lookup_insert_ne. lia.
Qed.

(** * The laws of [get_mut_value]

    The value a pointer leads to and the function that writes there form a lens,
    on documents whose objects have sorted keys. *)

#[local] Open Scope rust_scope.

(** [get_mut_parts] goes down one token: the child, created if an object lacks
    it, and the function that puts a new child there. *)
Definition step_into (v : Json) (t : string) : option (Json * (Json -> Json)) :=
  match v with
  | JObject m => Some (default (JObject []) (obj_get t m), fun w => JObject (obj_insert t w m))
  | JArray a =>
      i ← parse_usize t; c ← vec_get a i; Some (c, fun w => JArray (<[Z.to_nat i := w]> a))
  | _ => None
  end.

Lemma get_mut_parts_cons path t l v f put :
  get_mut_parts path (t :: l) v = Ok (f, put)
  <-> exists c up down, step_into v t = Some (c, up) /\ get_mut_parts path l c = Ok (f, down)
                        /\ put = fun w => up (down w).
Proof.
  cbn [get_mut_parts]. unfold step_into. destruct v as [| | | |a|m]; try (split; [done|naive_solver]).
  - destruct (parse_usize t) as [i|]; simpl; [|split; [done|naive_solver]].
    destruct (vec_get a i) as [c|]; simpl; [|split; [done|naive_solver]].
    destruct (get_mut_parts path l c) as [[f' down]|] eqn:E; simpl; (split; [intros [= <- <-]; eauto 10|]).
    all: intros (c' & up & down' & [= <- <-] & Hl & ->); rewrite Hl in E; by simplify_eq.
  - destruct (get_mut_parts path l (default _ _)) as [[f' down]|] eqn:E; simpl;
      (split; [intros [= <- <-]; eauto 10|]).
    all: intros (c' & up & down' & [= <- <-] & Hl & ->); rewrite Hl in E; by simplify_eq.
Qed.

(** The laws of one step. *)
Lemma step_into_spec v t c up :
  step_into v t = Some (c, up) ->
  c = default (JObject []) (child v t)
  /\ (forall w, child (up w) t = Some w)
  /\ (json_wf v -> child v t = Some c -> up c = v)
  /\ (json_wf v -> json_wf c)
  /\ (forall w, json_wf v -> json_wf w -> json_wf (up w)).
Proof.
  unfold step_into. intros Hs. destruct v as [| | | |a|m]; try done; inv_bind; simplify_eq/=.
  - rewrite Hx /= Hx0 /=. pose proof (vec_get_lookup _ _ _ Hx0) as Hl. split_and!; [done|..].
    + intros w. by eapply vec_get_insert.
    + intros _ _. by rewrite list_insert_id.
    + intros Hwf. eapply Forall_lookup_1; [by apply json_wf_array|done].
    + intros w Hwf Hw. apply json_wf_array. apply Forall_insert; [by apply json_wf_array|done].
  - split_and!; [done|..].
    + intros w. apply obj_get_insert_eq.
    + intros [Hs _]%json_wf_object Hc. destruct (obj_get t m) eqn:E; simplify_eq/=. by rewrite obj_insert_get.
    + intros Hwf%json_wf_object. destruct (obj_get t m) eqn:E; simpl; [by eapply obj_wf_get|].
      apply json_wf_object, obj_wf_nil.
    + intros w Hwf%json_wf_object Hw. apply json_wf_object. auto with rusternetes.
Qed.

(** Stepping into a value that was just written there. *)
Lemma step_into_again v t c up w :
  step_into v t = Some (c, up) ->
  exists up', step_into (up w) t = Some (w, up') /\ (json_wf v -> forall x, up' x = up x).
Proof.
  unfold step_into. intros Hs. destruct v as [| | | |a|m]; try done; inv_bind; simplify_eq/=.
  - rewrite Hx /=. rewrite (vec_get_insert _ _ _ _ Hx0) /=. eexists. split; [done|].
    intros _ y. cbn beta. by rewrite list_insert_insert_eq.
  - rewrite obj_get_insert_eq /=. eexists. split; [done|].
    intros [Hm _]%json_wf_object y. by rewrite obj_insert_insert.
Qed.

(** Off the path: two tokens that lead to different children. *)
Definition tokens_differ (v : Json) (t u : string) : bool :=
  match v with
  | JArray _ => bool_decide (parse_usize t <> parse_usize u)
  | _ => bool_decide (t <> u)
  end.

Lemma step_into_frame v t c up u w :
  step_into v t = Some (c, up) -> tokens_differ v t u = true -> child (up w) u = child v u.
Proof.
  unfold step_into, tokens_differ. intros Hs Hd.
  destruct v as [| | | |a|m]; try done; inv_bind; simplify_eq/=; apply bool_decide_eq_true in Hd.
  - rewrite Hx in Hd. destruct (parse_usize u) as [j|] eqn:Hj; simpl; [|done].
    apply parse_usize_range in Hx as [], Hj as []. apply vec_get_insert_ne; [done|done|congruence].
  - by apply obj_get_insert_ne.
Qed.

(** The pointer [q] leaves the path [l] at some token of [l]. *)
Fixpoint diverge (v : Json) (l q : list string) : bool :=
  match l, q with
  | t :: l, u :: q =>
      if tokens_differ v t u then true
      else diverge (default (JObject []) (child v t)) l q
  | _, _ => false
  end.

Section Lens.
Context (path : string).

(** What the pointer leads to; missing objects on the way count as empty. *)
Lemma lens_focus l v f put : get_mut_parts path l v = Ok (f, put) -> f = default (JObject []) (lookup_at l v).
Proof.
  revert v f put. induction l as [|t l IH]; intros v f put H; [by injection H as <- <-|].
  apply get_mut_parts_cons in H as (c & up & down & Hs & Hl & ->).
  apply step_into_spec in Hs as (-> & _). apply IH in Hl as ->. cbn [lookup_at].
  destruct (child v t); [done|]. simpl. clear. by destruct l.
Qed.

Lemma lens_exists l v p : lookup_at l v = Some p -> exists put, get_mut_parts path l v = Ok (p, put).
Proof.
  revert v. induction l as [|t l IH]; intros v H; [by injection H as ->; eexists|].
  cbn [lookup_at] in H. apply bind_Some in H as (c & Hc & [down Hl]%IH).
  assert (exists up, step_into v t = Some (c, up)) as [up Hs].
  { destruct v as [| | | |a|m]; try done; simpl in *; [|rewrite Hc; by eexists].
    destruct (parse_usize t); simpl in *; [|done]. rewrite Hc. by eexists. }
  eexists. apply get_mut_parts_cons. eauto 10.
Qed.

(** What is written is read back. *)
Lemma lens_put_get l v f put w q :
  get_mut_parts path l v = Ok (f, put) -> lookup_at (l ++ q) (put w) = lookup_at q w.
Proof.
  revert v f put. induction l as [|t l IH]; intros v f put H; [by injection H as <- <-|].
  apply get_mut_parts_cons in H as (c & up & down & Hs & Hl & ->).
  apply step_into_spec in Hs as (_ & Hup & _). cbn [app lookup_at]. rewrite Hup. by eapply IH.
Qed.

(** Writing what is there changes nothing. *)
Lemma lens_get_put l v f put :
  json_wf v -> get_mut_parts path l v = Ok (f, put) -> lookup_at l v = Some f -> put f = v.
Proof.
  revert v f put. induction l as [|t l IH]; intros v f put Hv H Hf; [by injection H as <- <-|].
  apply get_mut_parts_cons in H as (c & up & down & Hs & Hl & ->).
  cbn [lookup_at] in Hf. apply bind_Some in Hf as (c' & Hc & Hf).
  apply step_into_spec in Hs as (Hd & _ & Hgp & Hwf & _). rewrite Hc in Hd. simpl in Hd. subst c'.
  rewrite (IH c f down) //; auto.
Qed.

(** The last write wins. *)
Lemma lens_put_put l v f put w :
  get_mut_parts path l v = Ok (f, put) ->
  exists put', get_mut_parts path l (put w) = Ok (w, put') /\ (json_wf v -> forall x, put' x = put x).
Proof.
  revert v f put. induction l as [|t l IH]; intros v f put H.
  { injection H as <- <-. by eexists. }
  apply get_mut_parts_cons in H as (c & up & down & Hs & Hl & ->).
  destruct (IH _ _ _ Hl) as (down' & Hl' & Hd).
  destruct (step_into_again _ _ _ _ (down w) Hs) as (up' & Hs' & Hu).
  eexists. split; [apply get_mut_parts_cons; eauto 10|].
  intros Hv x. cbn beta. rewrite Hu // Hd //. apply step_into_spec in Hs as (_ & _ & _ & Hwf & _). auto.
Qed.

(** Members off the path are left alone. *)
Lemma lens_frame l v f put w q :
  get_mut_parts path l v = Ok (f, put) -> diverge v l q = true -> lookup_at q (put w) = lookup_at q v.
Proof.
  revert v f put q. induction l as [|t l IH]; intros v f put q H Hq; [done|].
  destruct q as [|u q]; [done|]. apply get_mut_parts_cons in H as (c & up & down & Hs & Hl & ->).
  cbn [diverge] in Hq. cbn [lookup_at]. destruct (tokens_differ v t u) eqn:Hd.
  { by rewrite (step_into_frame _ _ _ _ _ _ Hs Hd). }
  pose proof (step_into_spec _ _ _ _ Hs) as (-> & Hup & _). specialize (IH _ _ _ _ Hl Hq).
  assert (child (up (down w)) u = Some (down w) /\ child v u = child v t) as [-> ->].
  { unfold tokens_differ in Hd. unfold step_into in Hs.
    destruct v as [| | | |a|m]; try done; inv_bind; simplify_eq/=; apply bool_decide_eq_false, dec_stable in Hd.
    - rewrite -Hd. specialize (Hup (down w)). by rewrite Hx in Hup |- *.
    - subst. by split; [apply obj_get_insert_eq|]. }
  simpl. rewrite IH. destruct (child v t); [done|]. simpl. destruct l, q; done.
Qed.

(** Well-formed documents stay so. *)
Lemma lens_wf l v f put :
  get_mut_parts path l v = Ok (f, put) -> json_wf v ->
  json_wf f /\ forall w, json_wf w -> json_wf (put w).
Proof.
  revert v f put. induction l as [|t l IH]; intros v f put H Hv; [by injection H as <- <-|].
  apply get_mut_parts_cons in H as (c & up & down & Hs & Hl & ->).
  apply step_into_spec in Hs as (_ & _ & _ & Hc & Hup). destruct (IH _ _ _ Hl (Hc Hv)) as [Hf Hd]. auto.
Qed.
End Lens.
