(* ===== verification/JsonPatchProps.v ===== *)
(** * JSON patch operations

    What [add], [remove], [replace], [move], [copy] and [test] do to the document
    a pointer leads into, on every branch, and when they panic. *)

From stdpp Require Import strings.
From S2P Require Import Prelude RustText Quantity BTree Json Patch PatchPointer.

#[local] Open Scope rust_scope.

(** The tokens [l] of a parent and the last token [k] of a pointer, other than
    the two pointers ([/] and a parent [/]) that the code reads as the root. *)
Definition plain (l : list string) (k : string) : Prop := l <> [""] /\ l ++ [k] <> [""].

Lemma get_mut_value_pointer l v :
  l <> [""] -> get_mut_value v (parent_pointer l) = get_mut_parts (pointer l) l v.
Proof.
  intros Hl. unfold parent_pointer. destruct (decide (l = [])) as [->|Hn]; [done|]. unfold get_mut_value.
  rewrite decide_False; [rewrite pointer_root pointer_empty; naive_solver|].
  destruct l as [|t l]; [done|]. by rewrite parse_pointer.
Qed.

Lemma parent_pointer_nonempty l : parent_pointer l <> "".
Proof. unfold parent_pointer. case_decide; [done|]. by rewrite pointer_empty. Qed.

(** ** The three writing operations, relative to the parent *)

Definition array_index (arr : list Json) (key : string) : result Z PatchError :=
  if decide (key = "-") then Ok (Z.of_nat (length arr))
  else match parse_usize key with Some i => Ok i | None => Err (invalid_index key) end.

(** The parent with the new child. *)
Definition add_child (parent_path key : string) (v parent : Json) : outcome Json :=
  match parent with
  | JObject obj => Some (Ok (JObject (obj_insert key v obj)))
  | JArray arr =>
      attempt index <- Some (array_index arr key);
      arr' ← vec_insert arr index v; Some (Ok (JArray arr'))
  | _ => Some (Err (OperationFailed ("Cannot add to non-object/array at path: " +:+ parent_path)))
  end.

Lemma add_operation_pointer l k doc v :
  plain l k ->
  add_operation doc (pointer (l ++ [k])) v
  = (attempt (parent, put) <- Some (get_mut_parts (pointer l) l doc);
     attempt parent' <- add_child (parent_pointer l) k v parent;
     Some (Ok (put parent'))).
Proof.
  intros [Hl Hk]. unfold add_operation. rewrite split_pointer_path //.
  rewrite decide_False; [apply parent_pointer_nonempty|]. rewrite get_mut_value_pointer //.
  destruct (get_mut_parts _ _ _) as [[parent put]|]; [|done]. unfold add_child, array_index.
  destruct parent; try done. case_decide; [by destruct (vec_insert _ _ _)|].
  destruct (parse_usize k); [|done]. by destruct (vec_insert _ _ _).
Qed.

(** The parent without the child, or with another value for it. *)
Definition remove_child (path parent_path key : string) (parent : Json) : result Json PatchError :=
  match parent with
  | JObject obj =>
      match obj_get key obj with
      | None => Err (path_not_found path)
      | Some _ => Ok (JObject (obj_remove key obj))
      end
  | JArray arr =>
      match parse_usize key with
      | None => Err (invalid_index key)
      | Some index =>
          if decide (Z.of_nat (length arr) <= index)%Z then Err (path_not_found path)
          else Ok (JArray (vec_remove arr (Z.to_nat index)))
      end
  | _ => Err (OperationFailed ("Cannot remove from non-object/array at path: " +:+ parent_path))
  end.

Definition replace_child (path parent_path key : string) (v parent : Json) : result Json PatchError :=
  match parent with
  | JObject obj =>
      match obj_get key obj with
      | None => Err (path_not_found path)
      | Some _ => Ok (JObject (obj_insert key v obj))
      end
  | JArray arr =>
      match parse_usize key with
      | None => Err (invalid_index key)
      | Some index =>
          if decide (Z.of_nat (length arr) <= index)%Z then Err (path_not_found path)
          else Ok (JArray (<[Z.to_nat index := v]> arr))
      end
  | _ => Err (OperationFailed ("Cannot replace in non-object/array at path: " +:+ parent_path))
  end.

Lemma remove_operation_pointer l k doc :
  plain l k ->
  remove_operation doc (pointer (l ++ [k]))
  = (try (parent, put) <- get_mut_parts (pointer l) l doc;
     try parent' <- remove_child (pointer (l ++ [k])) (parent_pointer l) k parent;
     Ok (put parent')).
Proof.
  intros [Hl Hk]. unfold remove_operation. rewrite split_pointer_path //=. rewrite get_mut_value_pointer //.
  destruct (get_mut_parts _ _ _) as [[parent put]|]; [|done]. simpl. unfold remove_child.
  destruct parent; try done; [destruct (parse_usize k); [|done]; by case_decide|by case_match].
Qed.

Lemma replace_operation_pointer l k doc v :
  plain l k ->
  replace_operation doc (pointer (l ++ [k])) v
  = (try (parent, put) <- get_mut_parts (pointer l) l doc;
     try parent' <- replace_child (pointer (l ++ [k])) (parent_pointer l) k v parent;
     Ok (put parent')).
Proof.
  intros [Hl Hk]. unfold replace_operation.
  rewrite decide_False; [rewrite pointer_root pointer_empty; by intros [[]%app_nil|]|].
  rewrite split_pointer_path //=. rewrite get_mut_value_pointer //.
  destruct (get_mut_parts _ _ _) as [[parent put]|]; [|done]. simpl. unfold replace_child.
  destruct parent; try done; [destruct (parse_usize k); [|done]; by case_decide|by case_match].
Qed.

(** ** Adding *)

(** The parent after an addition: a member of an object is set, an element goes
    into an array before the element that had its index. *)
Definition added (parent : Json) (k : string) (v parent' : Json) : Prop :=
  match parent with
  | JObject m =>
      exists m', parent' = JObject m'
        /\ forall a, obj_get a m' = if decide (a = k) then Some v else obj_get a m
  | JArray arr =>
      exists i, array_index arr k = Ok (Z.of_nat i) /\ i <= length arr
        /\ parent' = JArray (take i arr ++ v :: drop i arr)
  | _ => False
  end.

Lemma add_child_added pp k v parent parent' :
  add_child pp k v parent = Some (Ok parent') -> added parent k v parent'.
Proof.
  unfold add_child, added. intros H. destruct parent as [| | | |arr|m]; try done.
  - destruct (array_index arr k) as [i|] eqn:Hi; [|done].
    assert (0 <= i)%Z. { unfold array_index in Hi. case_decide; simplify_eq; [lia|].
      destruct (parse_usize k) as [j|] eqn:Hj; simplify_eq. by apply parse_usize_range in Hj as []. }
    unfold vec_insert in H. case_decide; simplify_eq/=. exists (Z.to_nat i).
    rewrite Z2Nat.id //. split_and!; [done|lia|done].
  - injection H as <-. eexists. split; [done|]. intros a. apply obj_get_insert.
Qed.

Lemma add_child_defined pp k v parent :
  (exists m, parent = JObject m)
  \/ (exists arr i, parent = JArray arr /\ array_index arr k = Ok i /\ (i <= Z.of_nat (length arr))%Z) ->
  exists parent', add_child pp k v parent = Some (Ok parent').
Proof.
  intros [[m ->]|(arr & i & -> & Hi & Hle)]; simpl; [by eexists|].
  rewrite Hi. unfold vec_insert. rewrite decide_True //. by eexists.
Qed.

(** C33: [add] at a pointer, when it succeeds, sets the member of the object or
    inserts into the array that the parent pointer leads to (an empty object when
    the document has none there) and leaves every location off the path to the
    parent as it was; it does succeed when the parent is an object, or an array
    and the last token is [-] or an index no greater than its length. *)
Theorem json_patch_add_correct l k doc v :
  plain l k ->
  (forall doc', add_operation doc (pointer (l ++ [k])) v = Some (Ok doc') ->
     exists parent', lookup_at l doc' = Some parent'
       /\ added (default (JObject []) (lookup_at l doc)) k v parent'
       /\ forall q, diverge doc l q = true -> lookup_at q doc' = lookup_at q doc)
  /\ (forall parent, lookup_at l doc = Some parent ->
        (exists m, parent = JObject m)
        \/ (exists arr i, parent = JArray arr /\ array_index arr k = Ok i
                          /\ (i <= Z.of_nat (length arr))%Z) ->
        exists doc', add_operation doc (pointer (l ++ [k])) v = Some (Ok doc')).
Proof.
  intros Hp. rewrite add_operation_pointer //. split.
  - intros doc' H. destruct (get_mut_parts _ _ _) as [[parent put]|] eqn:Hg; [|done].
    destruct (add_child _ _ _ _) as [[parent'|]|] eqn:Ha; simplify_eq.
    exists parent'. rewrite -(lens_focus _ _ _ _ _ Hg). split_and!.
    + rewrite -(app_nil_r l). by rewrite (lens_put_get _ _ _ _ _ _ _ Hg).
    + by eapply add_child_added.
    + intros q Hq. by eapply lens_frame.
  - intros parent Hl Hok. destruct (lens_exists (pointer l) _ _ _ Hl) as [put ->].
    destruct (add_child_defined (parent_pointer l) k v parent Hok) as [parent' ->]. by eexists.
Qed.

Lemma json_patch_add_correct_witness :
  let doc := JObject [("a/b", JArray [JNumber "1"; JNumber "3"]); ("c", JNull)] in
  exists doc', add_operation doc "/a~1b/1" (JNumber "2") = Some (Ok doc')
    /\ lookup_at ["c"] doc' = Some JNull.
Proof.
  set (doc := JObject [("a/b", JArray [JNumber "1"; JNumber "3"]); ("c", JNull)]).
  assert (plain ["a/b"] "1") as Hp by done.
  destruct (json_patch_add_correct ["a/b"] "1" doc (JNumber "2") Hp) as [Hok Hdef].
  destruct (Hdef (JArray [JNumber "1"; JNumber "3"]) eq_refl) as [doc' Hd].
  { right. exists [JNumber "1"; JNumber "3"], 1%Z. by vm_compute. }
  exists doc'. split; [exact Hd|]. destruct (Hok doc' Hd) as (_ & _ & _ & Hf). by rewrite Hf.
Defined.

(** ** Removing and replacing *)

Lemma vec_insert_defined {A} (arr : list A) i v :
  (i <= Z.of_nat (length arr))%Z ->
  vec_insert arr i v = Some (take (Z.to_nat i) arr ++ v :: drop (Z.to_nat i) arr).
Proof. intros. unfold vec_insert. by rewrite decide_True. Qed.

Lemma vec_remove_insert {A} (arr : list A) i v :
  i <= length arr -> vec_remove (take i arr ++ v :: drop i arr) i = arr.
Proof.
  intros Hi. unfold vec_remove. assert (length (take i arr) = i) as Hlen by (rewrite length_take; lia).
  rewrite take_app_length' // -(Nat.add_1_r i) drop_app_add' //= drop_0. apply take_drop.
Qed.

Lemma vec_insert_remove {A} (arr : list A) i v :
  (0 <= i < Z.of_nat (length arr))%Z ->
  vec_insert (vec_remove arr (Z.to_nat i)) i v = Some (<[Z.to_nat i := v]> arr).
Proof.
  intros Hi. assert (Z.to_nat i < length arr) as Hn by lia. set (n := Z.to_nat i) in *.
  assert (length (take n arr) = n) as Hlen by (rewrite length_take; lia).
  unfold vec_remove. rewrite vec_insert_defined; [rewrite length_app length_drop Hlen; lia|].
  f_equal. fold n. rewrite take_app_length' // drop_app_length' //. by rewrite insert_take_drop.
Qed.

Lemma array_index_parsed arr k i : parse_usize k = Some i -> array_index arr k = Ok i.
Proof. intros Hk. unfold array_index. rewrite decide_False ?Hk //. by intros ->. Qed.

(** What can be added and taken back: a member the object does not have, or an
    element at an index of the array or at its end. *)
Definition addable (parent : Json) (k : string) : Prop :=
  match parent with
  | JObject m => obj_get k m = None
  | JArray arr => exists i, parse_usize k = Some i /\ (i <= Z.of_nat (length arr))%Z
  | _ => False
  end.

Lemma remove_added path pp k v parent :
  json_wf parent -> addable parent k ->
  exists parent', add_child pp k v parent = Some (Ok parent') /\ remove_child path pp k parent' = Ok parent.
Proof.
  intros Hwf Hadd. destruct parent as [| | | |arr|m]; try done; simpl in Hadd.
  - destruct Hadd as (i & Hk & Hi). pose proof (parse_usize_range _ _ Hk) as [H0 _].
    unfold add_child. rewrite (array_index_parsed _ _ _ Hk) vec_insert_defined //. eexists. split; [done|].
    simpl. rewrite Hk. rewrite decide_False; [rewrite length_app length_cons length_take length_drop; lia|].
    rewrite vec_remove_insert //. lia.
  - eexists. split; [done|]. simpl. rewrite obj_get_insert_eq obj_remove_insert //. by apply json_wf_object in Hwf as [].
Qed.

(** An [add] of a new member of an object, or of an element at an index of
    an array or at its end, is undone by [remove] at the same pointer: the
    document is what it was. *)
Theorem json_patch_add_remove l k doc v parent :
  plain l k -> json_wf doc -> lookup_at l doc = Some parent -> addable parent k ->
  exists doc', add_operation doc (pointer (l ++ [k])) v = Some (Ok doc')
    /\ remove_operation doc' (pointer (l ++ [k])) = Ok doc.
Proof.
  intros Hp Hwf Hl Hadd. rewrite add_operation_pointer //.
  destruct (lens_exists (pointer l) _ _ _ Hl) as [put Hg]. rewrite Hg.
  destruct (lens_wf _ _ _ _ _ Hg Hwf) as [Hpw _].
  destruct (remove_added (pointer (l ++ [k])) (parent_pointer l) k v parent Hpw Hadd) as (parent' & -> & Hr).
  eexists. split; [done|]. rewrite remove_operation_pointer //.
  destruct (lens_put_put _ _ _ _ _ parent' Hg) as (put' & -> & Hput). simpl. rewrite Hr /= Hput //.
  by rewrite (lens_get_put _ _ _ _ _ Hwf Hg Hl).
Qed.

Lemma json_patch_add_remove_witness :
  let doc := JObject [("a", JArray [JNumber "1"]); ("m~", JObject [])] in
  (exists doc', add_operation doc "/a/1" JNull = Some (Ok doc') /\ remove_operation doc' "/a/1" = Ok doc)
  /\ (exists doc', add_operation doc "/m~0/x" JNull = Some (Ok doc') /\ remove_operation doc' "/m~0/x" = Ok doc).
Proof.
  split.
  - apply (json_patch_add_remove ["a"] "1" _ JNull (JArray [JNumber "1"])); [done|by repeat constructor|done|].
    exists 1%Z. by vm_compute.
  - by apply (json_patch_add_remove ["m~"] "x" _ JNull (JObject [])); [|repeat constructor|..].
Defined.

(** Failures with the same variant; the two texts of a parent that is no
    container differ in their verb. *)
Definition same_failure (e e' : PatchError) : Prop :=
  e = e' \/ exists s s', e = OperationFailed s /\ e' = OperationFailed s'.

Lemma replace_child_spec path pp k v parent :
  json_wf parent ->
  match remove_child path pp k parent with
  | Ok parent' => exists p, add_child pp k v parent' = Some (Ok p) /\ replace_child path pp k v parent = Ok p
  | Err e => exists e', replace_child path pp k v parent = Err e' /\ same_failure e e'
  end.
Proof.
  intros Hwf. unfold same_failure. destruct parent as [| | | |arr|m];
    cbn [remove_child replace_child]; try by eauto 10.
  - destruct (parse_usize k) as [i|] eqn:Hk; [|by eauto]. case_decide as Hi; [by eauto|].
    pose proof (parse_usize_range _ _ Hk) as [H0 _].
    cbn [add_child]. rewrite (array_index_parsed _ _ _ Hk) vec_insert_remove; [lia|]. simpl. by eauto.
  - destruct (obj_get k m); [|by eauto]. eexists. split; [done|].
    by rewrite obj_insert_remove; [apply json_wf_object in Hwf as []|].
Qed.

(** [replace] is [remove] followed by [add] at the same pointer, with
    [remove]'s failures: where the remove succeeds the add cannot fail or panic
    and gives the replaced document, and where it fails the replace fails alike. *)
Theorem json_patch_replace_is_remove_add l k doc v :
  plain l k -> json_wf doc ->
  match remove_operation doc (pointer (l ++ [k])) with
  | Ok removed =>
      exists doc', add_operation removed (pointer (l ++ [k])) v = Some (Ok doc')
        /\ replace_operation doc (pointer (l ++ [k])) v = Ok doc'
  | Err e => exists e', replace_operation doc (pointer (l ++ [k])) v = Err e' /\ same_failure e e'
  end.
Proof.
  intros Hp Hwf. rewrite remove_operation_pointer // replace_operation_pointer //.
  destruct (get_mut_parts _ _ _) as [[parent put]|e] eqn:Hg; simpl; [|by exists e; split; [|left]].
  destruct (lens_wf _ _ _ _ _ Hg Hwf) as [Hpw _].
  pose proof (replace_child_spec (pointer (l ++ [k])) (parent_pointer l) k v parent Hpw) as Hr.
  destruct (remove_child _ _ _ parent) as [parent'|e]; simpl.
  - destruct Hr as (p & Ha & ->). rewrite add_operation_pointer //.
    destruct (lens_put_put _ _ _ _ _ parent' Hg) as (put' & -> & Hput). rewrite Ha /= Hput //. by eexists.
  - by destruct Hr as (e' & -> & He); eexists.
Qed.

Lemma json_patch_replace_is_remove_add_witness :
  let doc := JObject [("a", JArray [JNumber "1"])] in
  replace_operation doc "/a/0" JNull = Ok (JObject [("a", JArray [JNull])])
  /\ exists e, replace_operation doc "/a/1" JNull = Err e.
Proof.
  set (doc := JObject [("a", JArray [JNumber "1"])]). assert (json_wf doc) as Hwf by by repeat constructor.
  split.
  - assert (plain ["a"] "0") as Hp by done.
    destruct (json_patch_replace_is_remove_add ["a"] "0" doc JNull Hp Hwf) as (doc' & Ha & Hr).
    vm_compute in Ha. injection Ha as <-. exact Hr.
  - assert (plain ["a"] "1") as Hp by done.
    destruct (json_patch_replace_is_remove_add ["a"] "1" doc JNull Hp Hwf) as (e & Hr & _). by exists e.
Defined.

(** ** The panic *)

(** [add] panics exactly when its parent is an array and the last token is
    an index beyond the array's length ([Vec::insert] past the end); a patch with
    that single operation takes [apply_json_patch] down with it instead of being
    refused. *)
Theorem json_patch_add_panics `{!PatchDecode} l k doc v :
  plain l k ->
  (add_operation doc (pointer (l ++ [k])) v = None
   <-> exists arr i, lookup_at l doc = Some (JArray arr) /\ parse_usize k = Some i
                     /\ (Z.of_nat (length arr) < i)%Z)
  /\ forall patch arr i,
       lookup_at l doc = Some (JArray arr) -> parse_usize k = Some i -> (Z.of_nat (length arr) < i)%Z ->
       decode_operations patch = Ok [mkJsonPatchOperation Add (pointer (l ++ [k])) (Some v) None] ->
       apply_json_patch doc patch = None.
Proof.
  intros Hp. assert (forall arr i,
    lookup_at l doc = Some (JArray arr) -> parse_usize k = Some i -> (Z.of_nat (length arr) < i)%Z ->
    add_operation doc (pointer (l ++ [k])) v = None) as Hnone.
  { intros arr i Hl Hk Hi. rewrite add_operation_pointer //.
    destruct (lens_exists (pointer l) _ _ _ Hl) as [put ->]. unfold add_child.
    rewrite (array_index_parsed _ _ _ Hk). unfold vec_insert. by rewrite decide_False; [lia|]. }
  split; [split|].
  - rewrite add_operation_pointer //. intros Hn. destruct (get_mut_parts _ _ _) as [[parent put]|] eqn:Hg; [|done].
    pose proof (lens_focus _ _ _ _ _ Hg) as Hf. unfold add_child in Hn. destruct parent as [| | | |arr|m]; try done.
    unfold array_index in Hn. case_decide; [by rewrite vec_insert_defined in Hn|].
    destruct (parse_usize k) as [i|] eqn:Hk; [|done]. exists arr, i.
    destruct (lookup_at l doc); simplify_eq/=. split_and!; [done|done|].
    unfold vec_insert in Hn. case_decide; [done|lia].
  - intros (arr & i & ? & ? & ?). eauto.
  - intros patch arr i Hl Hk Hi Hd. unfold apply_json_patch. rewrite Hd.
    case_decide as Hlen; [unfold MAX_JSON_PATCH_OPERATIONS in Hlen; cbn [length] in Hlen; lia|].
    cbn [apply_operations]. unfold apply_json_patch_operation, require_value. cbn [op value path].
    by rewrite (Hnone arr i).
Qed.

Lemma json_patch_add_panics_witness :
  let doc := JObject [("a", JArray [])] in
  let decode : PatchDecode := fun _ => Ok [mkJsonPatchOperation Add "/a/1" (Some JNull) None] in
  apply_json_patch doc JNull = None.
Proof.
  set (decode := (fun _ => Ok [mkJsonPatchOperation Add "/a/1" (Some JNull) None]) : PatchDecode).
  assert (plain ["a"] "1") as Hp by done.
  destruct (json_patch_add_panics ["a"] "1" (JObject [("a", JArray [])]) JNull Hp) as [_ H].
  by apply (H JNull [] 1%Z).
Defined.
