(* ===== verification/PatchMeta.v ===== *)
(** * Strategic merge: error texts and field metadata

    Model of [crates/common/src/patch/mergepatch.rs] (the Go texts of the errors)
    and of [crates/common/src/patch/meta.rs] (the patch strategy and merge key of
    every field of the built-in kinds).  [patch_meta.json], which the metadata is
    read from, is data: every theorem holds for every table. *)

From stdpp Require Import strings pretty.
From S2P Require Import Prelude RustText Quantity BTree Json Patch.

#[local] Open Scope rust_scope.

(** The text functions whose tables are the standard library's: the float format
    of [go_number_v], and [str::to_lowercase]. *)
Class PatchText := {
  go_float : string -> string;
  to_lowercase : string -> string
}.

(** ** [mergepatch.rs] *)

(** [n.is_i64() || n.is_u64()]: the text of a float has a point or an exponent. *)
Definition is_integer (text : string) : bool :=
  all_digits (match text with
              | String c s => if decide (c = Ascii.ascii_of_nat 45) then s else text
              | EmptyString => text
              end).

Definition GO_SLICE : string := "[]interface {}".
Definition GO_MAP : string := "map[string]interface {}".

Definition go_type_name (v : Json) : option string :=
  match v with
  | JNull => None
  | JBool _ => Some "bool"
  | JNumber n => Some (if is_integer n then "int64" else "float64")
  | JString _ => Some "string"
  | JArray _ => Some GO_SLICE
  | JObject _ => Some GO_MAP
  end.

Inductive Verb := V | S_.

#[export] Instance Verb_eq_dec : EqDecision Verb.
Proof. solve_decision. Defined.

Section GoText.
Context `{!PatchText}.

Definition go_number_v (n : string) : string := if is_integer n then n else go_float n.

(** A scalar under the verb; [ty] is its Go type. *)
Definition go_scalar (verb : Verb) (ty rendered : string) : string :=
  match verb with V => rendered | S_ => "%!s(" +:+ ty +:+ "=" +:+ rendered +:+ ")" end.

(** The keys of a [Map] are already sorted. *)
Fixpoint go_fmt (verb : Verb) (top : bool) (v : Json) : string :=
  match v with
  | JNull => if top && bool_decide (verb = S_) then "%!s(<nil>)" else "<nil>"
  | JString s => s
  | JArray items => "[" +:+ join " " (map (go_fmt verb false) items) +:+ "]"
  | JObject m =>
      "map[" +:+ join " " (map (fun kv => kv.1 +:+ ":" +:+ go_fmt verb false kv.2) m) +:+ "]"
  | JBool b => go_scalar verb "bool" (if b then "true" else "false")
  | JNumber n => go_scalar verb (if is_integer n then "int64" else "float64") (go_number_v n)
  end.

Definition go_fmt_v (v : Json) : string := go_fmt V true v.

Definition err_no_merge_key (m : Json) (k : string) : string :=
  "map: " +:+ go_fmt_v m +:+ " does not contain declared merge key: " +:+ k.

Definition err_bad_arg_type (expected : string) (actual : Json) : string :=
  "expected a " +:+ expected +:+ ", but received a " +:+ default "%!s(<nil>)" (go_type_name actual).

Definition err_bad_patch_type (t m : Json) : string :=
  "unknown patch type: " +:+ go_fmt S_ true t +:+ " in map: " +:+ go_fmt_v m.
End GoText.

(** ** [meta.rs] *)

Record FieldMeta := mkFieldMeta {
  strategies : list string;
  merge_key : string
}.

Inductive Ty :=
| Struct (d : string)
| Slice (e : Ty)
| Map_
| Prim (k : string).

Definition colon : Ascii.ascii := Ascii.ascii_of_nat 58.
Definition comma : Ascii.ascii := Ascii.ascii_of_nat 44.
Definition dot : Ascii.ascii := Ascii.ascii_of_nat 46.

(** [Ty::parse]; every recursive call is on a shorter text. *)
Fixpoint ty_parse_loop (fuel : nat) (s : string) : Ty :=
  match fuel, split_once colon s with
  | S fuel, Some (p, r) =>
      if decide (p = "S") then Struct r
      else if decide (p = "L") then Slice (ty_parse_loop fuel r)
      else if decide (p = "M") then Map_
      else Prim r
  | _, _ => Prim s
  end.

Definition ty_parse (s : string) : Ty := ty_parse_loop (String.length s) s.

Definition ty_kind (t : Ty) : string :=
  match t with Struct _ => "struct" | Slice _ => "slice" | Map_ => "map" | Prim k => k end.

Record Field := mkField { field_name : string; field_ty : Ty; field_meta : FieldMeta }.

Record Defs := mkDefs {
  defs : gmap string (list Field);
  gvk : gmap string string
}.

(** [spec.get(i).and_then(Value::as_str).unwrap_or("")]. *)
Definition spec_str (spec : Json) (i : nat) : string :=
  default "" (match spec with JArray l => l !! i ≫= as_str | _ => None end).

Definition field_of (f : string) (spec : Json) : Field :=
  mkField f (ty_parse (spec_str spec 0))
    (mkFieldMeta (split_char comma (spec_str spec 1)) (spec_str spec 2)).

(** [Defs::from_json] after [serde_json::from_str]. *)
Definition defs_from_json (v : Json) : Defs :=
  mkDefs
    (match get "defs" v with
     | Some (JObject m) =>
         foldl (fun out kv => <[kv.1 := map (fun fs => field_of fs.1 fs.2) (object_or_empty kv.2)]> out) ∅ m
     | _ => ∅
     end)
    (match get "gvk" v with
     | Some (JObject m) =>
         foldl (fun out kv => match as_str kv.2 with Some d => <[kv.1 := d]> out | None => out end) ∅ m
     | _ => ∅
     end).

Record PatchSchema := mkPatchSchema { schema_defs : Defs; schema_ty : Ty }.

(** [Defs::embedded()]: the table of [patch_meta.json]. *)
Class EmbeddedDefs := embedded : Defs.

Definition for_kind `{!EmbeddedDefs} (group version kind : string) : option PatchSchema :=
  def ← gvk embedded !! (group +:+ "/" +:+ version +:+ "/" +:+ kind);
  Some (mkPatchSchema embedded (Struct def)).

Definition for_object `{!EmbeddedDefs} (obj : Json) : option PatchSchema :=
  api_version ← get "apiVersion" obj ≫= as_str;
  kind ← get "kind" obj ≫= as_str;
  let '(group, version) := default ("", api_version) (split_once slash api_version) in
  for_kind group version kind.

Definition schema_name (s : PatchSchema) : string := ty_kind (schema_ty s).

Section Lookup.
Context `{!PatchText, !TextFormat}.

(** [def.rsplit('.').next().unwrap_or(def)]. *)
Definition last_segment (def : string) : string :=
  match rsplit_once dot def with Some (_, r) => r | None => def end.

Definition lookup_field (s : PatchSchema) (key : string) : result (Ty * FieldMeta) string :=
  match schema_ty s with
  | Struct def =>
      let fields := default [] (defs (schema_defs s) !! def) in
      let found :=
        match list_find (fun f => field_name f = key) fields with
        | Some (_, f) => Some f
        | None => snd <$> list_find (fun f => to_lowercase (field_name f) = to_lowercase key) fields
        end in
      match found with
      | Some f => Ok (field_ty f, field_meta f)
      | None => Err ("unable to find api field in struct " +:+ last_segment def
                     +:+ " for the json field " +:+ debug_str key)
      end
  | t => Err ("merging an object in json but data type is not struct, instead is: " +:+ ty_kind t)
  end.

Definition lookup_struct (s : PatchSchema) (key : string) : result (PatchSchema * FieldMeta) string :=
  try (ty, meta) <- lookup_field s key;
  Ok (mkPatchSchema (schema_defs s) ty, meta).

Definition lookup_slice (s : PatchSchema) (key : string) : result (PatchSchema * FieldMeta) string :=
  try (ty, meta) <- lookup_field s key;
  match ty with
  | Slice (Slice _) => Err "unexpected slice of slice"
  | Slice elem => Ok (mkPatchSchema (schema_defs s) elem, meta)
  | other => Err ("expected slice or array type, but got: " +:+ ty_kind other)
  end.
End Lookup.

(** ** Parsing a type needs no more fuel than its text is long *)

Lemma split_once_shorter c s p r : split_once c s = Some (p, r) -> String.length r < String.length s.
Proof.
  intros H. apply split_once_inv in H as [-> _]. rewrite string_length_append. simpl. lia.
Qed.

Lemma ty_parse_fuel fuel s : String.length s <= fuel -> ty_parse_loop fuel s = ty_parse s.
Proof.
  unfold ty_parse. revert s. assert (forall n m s, String.length s <= n -> String.length s <= m ->
    ty_parse_loop n s = ty_parse_loop m s) as H.
  { induction n as [|n IH]; intros [|m] s Hn Hm; simpl; destruct (split_once colon s) as [[p r]|] eqn:E; try done.
    all: pose proof (split_once_shorter _ _ _ _ E); try lia.
    by rewrite (IH m); [lia|lia|]. }
  intros s Hs. by apply H.
Qed.

(** A slice of a slice of structs, as the table writes it. *)
Example ty_parse_slices : ty_parse "L:L:S:io.k8s.Pod" = Slice (Slice (Struct "io.k8s.Pod")).
Proof. reflexivity. Qed.
