(* ===== verification/StrategicMerge.v ===== *)
(** * Strategic merge patch

    Model of the strategic merge of [crates/common/src/patch.rs]: [smp_merge_map],
    the list merges it runs, their directives ([$patch], [$retainKeys],
    [$setElementOrder], [$deleteFromPrimitiveList]), and [apply_patch], which
    dispatches on the patch type.

    [smp_merge_map] recurses through [merge_slice]; the functions that take part
    are written over the recursive call [rec] and tied with fuel, the depth of the
    patch.  [None] is a panic (a failed [expect], an index out of range) or the
    end of the fuel; [StrategicProps] rules both out. *)

From stdpp Require Import strings pretty.
From S2P Require Import Prelude RustText BTree Json Patch PatchMeta.

#[local] Open Scope rust_scope.

Definition DELETE_FROM_PRIMITIVE_LIST : string := "$deleteFromPrimitiveList".
Definition SET_ELEMENT_ORDER : string := "$setElementOrder".

Definition starts_with_dollar (s : string) : bool :=
  match s with String c _ => bool_decide (c = Ascii.ascii_of_nat 36) | EmptyString => false end.

Definition obj_has (key : string) (m : list (string * Json)) : bool := bool_decide (is_Some (obj_get key m)).

Section StrategicMerge.
Context {PT : PatchText} {TF : TextFormat} {JT : JsonText}.

(** ** Ordering a merged list *)

Definition is_scalar_list (l : list Json) : bool := forallb (fun v => negb (is_object v) && negb (is_array v)) l.

Definition ItemId : Type := Json -> option string.

Definition scalar_id : ItemId := fun v => Some (json_text v).

(** The [merge_key] of a map. *)
Definition key_id (merge_key : string) : ItemId := fun v => json_text <$> get merge_key v.

Definition index_of (l : list Json) (v : Json) (id : ItemId) : option nat :=
  target ← id v; fst <$> list_find (fun x => id x = Some target) l.

(** [Option<usize>]'s order. *)
Definition index_le (a b : option nat) : bool :=
  match a, b with None, _ => true | Some _, None => false | Some i, Some j => Nat.leb i j end.

(** [v.sort_by_key(f)], a stable sort. *)
Fixpoint insert_by_index (f : Json -> option nat) (x : Json) (l : list Json) : list Json :=
  match l with
  | [] => [x]
  | y :: l' => if index_le (f x) (f y) then x :: l else y :: insert_by_index f x l'
  end.

Definition sort_by_index (f : Json -> option nat) (l : list Json) : list Json :=
  foldr (insert_by_index f) [] l.

(** The [while] loop of [normalize_order]. *)
Fixpoint merge_sorted (less : Json -> Json -> bool) (left : list Json) : list Json -> list Json :=
  fix inner (right : list Json) : list Json :=
    match left, right with
    | [], _ => right
    | _, [] => left
    | l :: left', r :: right' =>
        if less l r then l :: merge_sorted less left' right else r :: inner right'
    end.

Definition order_less (server_order : list Json) (id : ItemId) (l r : Json) : bool :=
  match index_of server_order l id, index_of server_order r id with
  | Some li, Some ri => Nat.ltb li ri
  | _, _ => false
  end.

Definition order_items (merged patch_order server_order : list Json) (id : ItemId) : list Json :=
  let in_patch v := is_Some (index_of patch_order v id) in
  let patch_items := sort_by_index (fun v => index_of patch_order v id) (filter in_patch merged) in
  let server_only :=
    sort_by_index (fun v => index_of server_order v id) (filter (fun v => ~ in_patch v) merged) in
  merge_sorted (order_less server_order id) server_only patch_items.

Definition normalize_order (merged patch_order server_order : list Json) (id : ItemId)
    (merge_key : option string) : result (list Json) PatchError :=
  let bad :=
    match merge_key with
    | Some key =>
        match list_find (fun v => is_object v = true /\ id v = None) merged with
        | Some (_, bad) => Some (Uninterpreted (err_no_merge_key bad key))
        | None => None
        end
    | None => None
    end in
  match bad with
  | Some e => Err e
  | None => Ok (order_items merged patch_order server_order id)
  end.

(** The union of [merge_scalar_lists]. *)
Fixpoint dedup (merged l : list Json) : list Json :=
  match l with
  | [] => merged
  | v :: l => dedup (if json_contains merged v then merged else merged ++ [v]) l
  end.

Definition merge_scalar_lists (original patch : list Json) : option (list Json) :=
  match normalize_order (dedup [] (original ++ patch)) patch original scalar_id None with
  | Ok l => Some l
  | Err _ => None
  end.

(** ** Checking a patch list against its order list *)

Definition is_delete_directive (item : Json) : bool :=
  bool_decide (get "$patch" item ≫= as_str = Some "delete").

Definition has_directive (item : Json) : bool := bool_decide (is_Some (get "$patch" item)).

(** The [while] loop of [validate_patch_with_set_order_list]: the items of the
    patch list and of the order list that are left. *)
Fixpoint order_walk (id : ItemId) (merge_key : option string) (patch_list : list Json)
  : list Json -> result (list Json * list Json) PatchError :=
  fix inner (order : list Json) : result (list Json * list Json) PatchError :=
    match patch_list, order with
    | p :: patch_list', o :: order' =>
        if bool_decide (is_Some merge_key) && has_directive p
        then order_walk id merge_key patch_list' order
        else
          let missing :=
            match merge_key with
            | Some key =>
                match id p, id o with
                | None, _ => Some (err_no_merge_key p key)
                | _, None => Some (err_no_merge_key o key)
                | _, _ => None
                end
            | None => None
            end in
          match missing with
          | Some msg => Err (Uninterpreted msg)
          | None =>
              if decide (id p = id o) then order_walk id merge_key patch_list' order'
              else inner order'
          end
    | _, _ => Ok (patch_list, order)
    end.

Definition validate_patch_with_set_order_list (patch_list order : list Json) (id : ItemId)
    (merge_key : option string) : result unit PatchError :=
  if decide (patch_list = [] \/ order = []) then Ok tt
  else
    let non_delete :=
      filter (fun v => bool_decide (is_Some merge_key) && is_delete_directive v = false) patch_list in
    try (rest, rest_order) <- order_walk id merge_key non_delete order;
    if decide (rest <> [] /\ rest_order = []) then
      Err (Uninterpreted ("The order in patch list:" +:+ newline +:+ go_fmt_v (JArray patch_list)
        +:+ newline +:+ " doesn't match " +:+ SET_ELEMENT_ORDER +:+ " list:" +:+ newline
        +:+ go_fmt_v (JArray order) +:+ newline))
    else Ok tt.

(** ** Directives *)

Fixpoint remove_directives_deep (v : Json) : option Json :=
  match v with
  | JObject m =>
      if obj_has "$patch" m then None
      else Some (JObject
        ((fix go m := match m with
           | [] => []
           | (k, w) :: m =>
               match remove_directives_deep w with Some w' => (k, w') :: go m | None => go m end
           end) m))
  | JArray a =>
      Some (JArray
        ((fix go a := match a with
           | [] => []
           | w :: a => match remove_directives_deep w with Some w' => w' :: go a | None => go a end
           end) a))
  | other => Some other
  end.

(** A failed lookup becomes [lookup_error]. *)
Definition looked_up {A} (r : result A string) : outcome A :=
  Some (match r with Ok a => Ok a | Err msg => Err (Uninterpreted msg) end).

Definition extract_retain_keys_strategy (strategies : list string) : result (bool * string) PatchError :=
  match strategies with
  | [] => Ok (false, "")
  | [one] => if decide (one = "retainKeys") then Ok (true, "") else Ok (false, one)
  | [a; b] =>
      if decide (a = "retainKeys") then Ok (true, b)
      else if decide (b = "retainKeys") then Ok (true, a)
      else Err (Uninterpreted ("unexpected patch strategy: [" +:+ join " " strategies +:+ "]"))
  | _ => Err (Uninterpreted ("unexpected patch strategy: [" +:+ join " " strategies +:+ "]"))
  end.

(** The patch keys [apply_retain_keys_directive] does not look up in the list. *)
Definition retain_exempt (k : string) (v : Json) : bool :=
  is_null v || bool_decide (k = "$retainKeys") || bool_decide (k = "$patch")
  || String.prefix (DELETE_FROM_PRIMITIVE_LIST +:+ "/") k || String.prefix (SET_ELEMENT_ORDER +:+ "/") k.

Definition strings_of (l : list Json) : list string := omap as_str l.

Definition apply_retain_keys_directive (original patch : list (string * Json)) (retain : Json)
  : result (list (string * Json)) PatchError :=
  let bad := BadRequest "invalid patch format of retainKeys" in
  match retain with
  | JArray l =>
      let keys := strings_of l in
      if forallb (fun kv => retain_exempt kv.1 kv.2 || contains keys kv.1) patch
      then Ok (filter (fun kv => contains keys kv.1 = true) original)
      else Err bad
  | _ => Err bad
  end.

(** ** Merging lists *)

(** The loop of [slice_elements_are_maps] over all elements, in order. *)
Fixpoint element_types (all : list (list Json)) (prev : option (option string)) (l : list Json)
  : result (option (option string)) PatchError :=
  match l with
  | [] => Ok prev
  | v :: l =>
      match prev with
      | None =>
          if is_array v then Err (UnprocessableEntity "lists of lists are not supported")
          else element_types all (Some (go_type_name v)) l
      | Some p =>
          if decide (p = go_type_name v) then element_types all prev l
          else Err (Uninterpreted ("list element types are not identical: "
                 +:+ go_fmt_v (JArray (map JArray all))))
      end
  end.

Definition slice_elements_are_maps (slices : list (list Json)) : result bool PatchError :=
  try t <- element_types slices None (concat slices);
  match t with
  | None => Err (Uninterpreted "no elements in any of the given slices")
  | Some t => Ok (bool_decide (t = Some GO_MAP))
  end.

(** [find_map_in_slice]; [i] is the index of the head of the list. *)
Fixpoint find_map_from (i : nat) (l : list Json) (key : string) (v : Json) : result (option nat) PatchError :=
  match l with
  | [] => Ok None
  | JObject m :: l =>
      if from_option (value_eqb v) false (obj_get key m) then Ok (Some i)
      else find_map_from (S i) l key v
  | _ :: _ => Err (Uninterpreted ("value for key " +:+ pretty i +:+ " is not a map"))
  end.

Definition find_map_in_slice : list Json -> string -> Json -> result (option nat) PatchError := find_map_from 0.

(** The [while let] loop of a delete: it ends because the list gets shorter. *)
Fixpoint delete_matching (fuel : nat) (original : list Json) (key : string) (v : Json) : outcome (list Json) :=
  match fuel with
  | O => None
  | S fuel =>
      attempt found <- Some (find_map_in_slice original key v);
      match found with
      | Some i => delete_matching fuel (vec_remove original i) key v
      | None => Some (Ok original)
      end
  end.

(** The loop of [merge_slice_with_special_elements]. *)
Fixpoint special_elements (merge_key : string) (original plain : list Json) (replace : bool) (patch : list Json)
  : outcome (list Json * list Json) :=
  match patch with
  | [] => Some (Ok (if replace then (plain, []) else (original, plain)))
  | JObject m as v :: patch =>
      match obj_get "$patch" m with
      | None => special_elements merge_key original (plain ++ [v]) replace patch
      | Some directive =>
          match directive with
          | JString s =>
              if decide (s = "delete") then
                match obj_get merge_key m with
                | None => Some (Err (Uninterpreted (err_no_merge_key v merge_key)))
                | Some key_value =>
                    attempt original <- delete_matching (S (length original)) original merge_key key_value;
                    special_elements merge_key original plain replace patch
                end
              else if decide (s = "replace") then special_elements merge_key original plain true patch
              else if decide (s = "merge") then
                Some (Err (Uninterpreted "merging lists cannot yet be specified in the patch"))
              else Some (Err (Uninterpreted (err_bad_patch_type directive v)))
          | _ => Some (Err (Uninterpreted (err_bad_patch_type directive v)))
          end
      end
  | _ :: _ => None
  end.

Definition merge_slice_with_special_elements (original patch : list Json) (merge_key : string)
  : outcome (list Json * list Json) := special_elements merge_key original [] false patch.

Section Recursion.
(** The recursive call of [smp_merge_map]. *)
Variable rec : Json -> Json -> option PatchSchema -> outcome Json.

Fixpoint merge_slice_without_special_elements (original patch : list Json) (merge_key : string)
    (schema : option PatchSchema) : outcome (list Json) :=
  match patch with
  | [] => Some (Ok original)
  | JObject m as v :: patch =>
      match obj_get merge_key m with
      | None => Some (Err (Uninterpreted (err_no_merge_key v merge_key)))
      | Some key_value =>
          attempt found <- Some (find_map_in_slice original merge_key key_value);
          match found with
          | Some i =>
              match original !! i with
              | Some live =>
                  attempt merged <- rec live v schema;
                  merge_slice_without_special_elements (<[i := merged]> original) patch merge_key schema
              | None => None
              end
          | None => merge_slice_without_special_elements (original ++ [v]) patch merge_key schema
          end
      end
  | _ :: _ => None
  end.

Definition merge_slice (original patch : list Json) (schema : option PatchSchema) (merge_key : string)
  : outcome (list Json) :=
  if decide (original = [] /\ patch = []) then Some (Ok original)
  else
    attempt is_map <- Some (slice_elements_are_maps [original; patch]);
    if is_map : bool then
      if decide (merge_key = "") then
        Some (Err (Uninterpreted ("cannot merge lists without merge key for "
                                  +:+ default "" (schema_name <$> schema))))
      else
        attempt (original, patch) <- merge_slice_with_special_elements original patch merge_key;
        attempt merged <- merge_slice_without_special_elements original patch merge_key schema;
        Some (normalize_order merged patch original (key_id merge_key) (Some merge_key))
    else l ← merge_scalar_lists original patch; Some (Ok l).

Definition as_list (v : option Json) : result (option (list Json)) PatchError :=
  match v with
  | Some (JArray a) => Ok (Some a)
  | None => Ok None
  | Some other => Err (Uninterpreted (err_bad_arg_type GO_SLICE other))
  end.

(** One [$setElementOrder/field] of the loop of [merge_set_element_order_lists];
    the state is the object and the fields consumed so far. *)
Definition set_element_order (patch_obj : list (string * Json)) (schema : option PatchSchema)
    (field : string) (order_v : Json) (st : list (string * Json) * list string)
  : outcome (list (string * Json) * list string) :=
  let '(result_obj, consumed) := st in
  attempt order <- Some (match order_v with
                         | JArray a => Ok a
                         | _ => Err (Uninterpreted (err_bad_arg_type GO_SLICE order_v))
                         end);
  attempt original <- Some (as_list (obj_get field result_obj));
  attempt patch_list <- Some (as_list (obj_get field patch_obj));
  match schema with
  | None => Some (Ok st)
  | Some schema =>
      attempt (sub, meta) <- looked_up (lookup_slice schema field);
      attempt (_, strategy) <- Some (extract_retain_keys_strategy (strategies meta));
      let key := merge_key meta in
      let id := if decide (key = "") then scalar_id else key_id key in
      let mk := if decide (key = "") then None else Some key in
      attempt _ <- Some (validate_patch_with_set_order_list (default [] patch_list) order id mk);
      attempt merged <-
        match original, patch_list with
        | None, None => Some (Ok None)
        | Some o, None => Some (Ok (Some o))
        | None, Some p =>
            match remove_directives_deep (JArray p) with
            | Some (JArray a) => Some (Ok (Some a))
            | _ => Some (Ok None)
            end
        | Some o, Some p =>
            if decide (strategy = "merge")
            then attempt l <- merge_slice o p (Some sub) key; Some (Ok (Some l))
            else Some (Ok (Some p))
        end;
      match merged with
      | None => Some (Ok st)
      | Some merged =>
          let server_order := default [] original in
          attempt _ <- Some (slice_elements_are_maps [server_order; default [] patch_list]);
          attempt ordered <- Some (normalize_order merged order server_order id mk);
          Some (Ok (obj_insert field (JArray ordered) result_obj, field :: consumed))
      end
  end.

Fixpoint set_element_orders (patch_obj : list (string * Json)) (schema : option PatchSchema)
    (items : list (string * Json)) (st : list (string * Json) * list string)
  : outcome (list (string * Json) * list string) :=
  match items with
  | [] => Some (Ok st)
  | (key, order_v) :: items =>
      match strip_prefix (SET_ELEMENT_ORDER +:+ "/") key with
      | None => set_element_orders patch_obj schema items st
      | Some field =>
          attempt st <- set_element_order patch_obj schema field order_v st;
          set_element_orders patch_obj schema items st
      end
  end.

Definition merge_set_element_order_lists (result_obj patch_obj : list (string * Json))
    (schema : option PatchSchema) : outcome (list (string * Json) * list string) :=
  set_element_orders patch_obj schema patch_obj (result_obj, []).

(** The merge by the field's metadata: [None] inside when the two values are not
    two maps or two lists. *)
Definition merge_by_schema (schema : PatchSchema) (key : string) (live : option Json) (patch_value : Json)
  : outcome (option Json) :=
  match live, patch_value with
  | Some (JObject _ as live), JObject _ =>
      attempt (sub, meta) <- looked_up (lookup_struct schema key);
      attempt (_, strategy) <- Some (extract_retain_keys_strategy (strategies meta));
      if decide (strategy = "replace") then Some (Ok (Some patch_value))
      else attempt merged <- rec live patch_value (Some sub); Some (Ok (Some merged))
  | Some (JArray orig), JArray patch_arr =>
      attempt (sub, meta) <- looked_up (lookup_slice schema key);
      attempt (_, strategy) <- Some (extract_retain_keys_strategy (strategies meta));
      if decide (strategy = "merge")
      then attempt l <- merge_slice orig patch_arr (Some sub) (merge_key meta); Some (Ok (Some (JArray l)))
      else Some (Ok (Some patch_value))
  | _, _ => Some (Ok None)
  end.

(** The merge of one member without metadata, or of values of other types. *)
Definition merge_by_value (patch_obj : list (string * Json)) (key : string) (patch_value : Json)
    (result_obj : list (string * Json)) : outcome (list (string * Json)) :=
  if is_null patch_value then Some (Ok (obj_remove key result_obj))
  else
    match obj_get key result_obj, patch_value with
    | Some (JArray live), JArray patch_arr =>
        if obj_has (DELETE_FROM_PRIMITIVE_LIST +:+ "/" +:+ key) patch_obj
           && is_scalar_list patch_arr && is_scalar_list live
        then l ← merge_scalar_lists live patch_arr; Some (Ok (obj_insert key (JArray l) result_obj))
        else Some (Ok (obj_insert key patch_value result_obj))
    | Some (JObject _ as live), JObject _ =>
        attempt merged <- rec live patch_value None;
        Some (Ok (obj_insert key merged result_obj))
    | _, _ =>
        Some (Ok (match remove_directives_deep patch_value with
                  | Some v => obj_insert key v result_obj
                  | None => obj_remove key result_obj
                  end))
    end.

(** One member of the default merge loop. *)
Definition merge_member_step (patch_obj : list (string * Json)) (schema : option PatchSchema)
    (consumed : list string) (key : string) (patch_value : Json) (result_obj : list (string * Json))
  : outcome (list (string * Json)) :=
  if starts_with_dollar key then Some (Ok result_obj)
  else if contains consumed key then Some (Ok result_obj)
  else
    attempt handled <-
      match schema with
      | Some schema =>
          if is_null patch_value then Some (Ok None)
          else merge_by_schema schema key (obj_get key result_obj) patch_value
      | None => Some (Ok None)
      end;
    match handled with
    | Some merged => Some (Ok (obj_insert key merged result_obj))
    | None => merge_by_value patch_obj key patch_value result_obj
    end.

Fixpoint merge_members (patch_obj : list (string * Json)) (schema : option PatchSchema)
    (consumed : list string) (items result_obj : list (string * Json)) : outcome (list (string * Json)) :=
  match items with
  | [] => Some (Ok result_obj)
  | (key, patch_value) :: items =>
      attempt result_obj <- merge_member_step patch_obj schema consumed key patch_value result_obj;
      merge_members patch_obj schema consumed items result_obj
  end.

(** One [$deleteFromPrimitiveList/field]. *)
Definition delete_list_step (schema : option PatchSchema) (field : string) (patch_value : Json)
    (result_obj : list (string * Json)) : outcome (list (string * Json)) :=
  if is_null patch_value then Some (Ok (obj_remove field result_obj))
  else
    match obj_get field result_obj with
    | None => Some (Ok result_obj)
    | Some current =>
        if decide (go_type_name current = go_type_name patch_value) then
          match current, patch_value with
          | JArray current, JArray to_delete =>
              Some (Ok (obj_insert field
                (JArray (filter (fun v => json_contains to_delete v = false) current)) result_obj))
          | JObject _, JObject _ =>
              attempt sub <-
                match schema with
                | Some s => attempt (sub, _) <- looked_up (lookup_struct s field); Some (Ok (Some sub))
                | None => Some (Ok None)
                end;
              attempt merged <- rec current patch_value sub;
              Some (Ok (obj_insert field merged result_obj))
          | _, _ => Some (Ok (obj_insert field patch_value result_obj))
          end
        else Some (Ok result_obj)
    end.

Fixpoint delete_lists (schema : option PatchSchema) (items result_obj : list (string * Json))
  : outcome (list (string * Json)) :=
  match items with
  | [] => Some (Ok result_obj)
  | (key, patch_value) :: items =>
      attempt result_obj <-
        match strip_prefix (DELETE_FROM_PRIMITIVE_LIST +:+ "/") key with
        | None => Some (Ok result_obj)
        | Some field => delete_list_step schema field patch_value result_obj
        end;
      delete_lists schema items result_obj
  end.

(** The [$patch] directive of a map. *)
Definition patch_strategy (patch : Json) (patch_obj : list (string * Json)) : result string PatchError :=
  match obj_get "$patch" patch_obj with
  | None => Ok "merge"
  | Some (JString s as other) =>
      if decide (s = "replace" \/ s = "delete") then Ok s
      else Err (Uninterpreted (err_bad_patch_type other patch))
  | Some other => Err (Uninterpreted (err_bad_patch_type other patch))
  end.

(** The members of a [$patch: replace]: the retained ones, then the patch's. *)
Definition replaced_object (patch_obj result_obj : list (string * Json)) : list (string * Json) :=
  let retained :=
    match obj_get "$retainKeys" patch_obj with
    | Some (JArray l) =>
        foldl (fun new_obj key => match obj_get key result_obj with
                                  | Some v => obj_insert key v new_obj
                                  | None => new_obj
                                  end) [] (strings_of l)
    | _ => []
    end in
  foldl (fun new_obj kv => if starts_with_dollar kv.1 then new_obj else obj_insert kv.1 kv.2 new_obj)
    retained patch_obj.

(** The default strategy. *)
Definition merge_object (patch_obj result_obj : list (string * Json)) (schema : option PatchSchema)
  : outcome Json :=
  attempt result_obj <-
    match obj_get "$retainKeys" patch_obj with
    | Some retain => Some (apply_retain_keys_directive result_obj patch_obj retain)
    | None => Some (Ok result_obj)
    end;
  attempt (result_obj, consumed) <- merge_set_element_order_lists result_obj patch_obj schema;
  attempt result_obj <- merge_members patch_obj schema consumed patch_obj result_obj;
  attempt result_obj <- delete_lists schema patch_obj result_obj;
  Some (Ok (JObject result_obj)).

Definition smp_body (original patch : Json) (schema : option PatchSchema) : outcome Json :=
  match patch with
  | JObject patch_obj =>
      let result_obj := object_or_empty original in
      attempt strategy <- Some (patch_strategy patch patch_obj);
      if decide (strategy = "replace") then Some (Ok (JObject (replaced_object patch_obj result_obj)))
      else if decide (strategy = "delete") then Some (Ok (JObject []))
      else merge_object patch_obj result_obj schema
  | _ => Some (Ok patch)
  end.
End Recursion.

Fixpoint smp_loop (fuel : nat) (original patch : Json) (schema : option PatchSchema) : outcome Json :=
  match fuel with
  | O => None
  | S fuel => smp_body (smp_loop fuel) original patch schema
  end.

Definition smp_merge_map (original patch : Json) (schema : option PatchSchema) : outcome Json :=
  smp_loop (S (json_depth patch)) original patch schema.

(** ** The patch types together *)

Context {ED : EmbeddedDefs} {PD : PatchDecode}.

Definition apply_patch_with_schema (original patch : Json) (patch_type : PatchType)
    (schema : option PatchSchema) : outcome Json :=
  match patch_type with
  | JsonMergePatch =>
      if is_object patch || is_array patch then Some (apply_merge_patch original patch)
      else Some (Err (BadRequest "Invalid JSON Patch"))
  | JsonPatch => apply_json_patch original patch
  | StrategicMergePatch => smp_merge_map original patch schema
  end.

Definition apply_patch (original patch : Json) (patch_type : PatchType) : outcome Json :=
  apply_patch_with_schema original patch patch_type (for_object original).
End StrategicMerge.
