(* ===== verification/StrategicOrder.v ===== *)
(** * The order of a merged list

    [normalize_order] rearranges a merged list: its result is a permutation of the
    list, with the items of the patch in the order of the patch and the others in
    the order of the live list. *)

From stdpp Require Import strings sorting.
From S2P Require Import Prelude RustText BTree Json Patch PatchMeta StrategicMerge.

Section Order.
Context {PT : PatchText} {JT : JsonText}.

(** ** Sorting by position *)

Definition index_order (f : Json -> option nat) (v w : Json) : Prop := index_le (f v) (f w) = true.

#[local] Instance index_order_trans f : Transitive (index_order f).
Proof.
  intros u v w. unfold index_order. destruct (f u), (f v), (f w); simpl; try done.
  rewrite !Nat.leb_le. lia.
Qed.

Lemma index_order_total f v w : index_le (f v) (f w) = false -> index_order f w v.
Proof.
  unfold index_order. destruct (f v), (f w); simpl; try done. rewrite Nat.leb_le Nat.leb_gt. lia.
Qed.

Lemma insert_by_index_perm f x l : insert_by_index f x l ≡ₚ x :: l.
Proof.
  induction l as [|y l IH]; simpl; [done|]. destruct (index_le _ _); [done|]. rewrite IH. apply Permutation_swap.
Qed.

Lemma sort_by_index_perm f l : sort_by_index f l ≡ₚ l.
Proof. induction l as [|x l IH]; simpl; [done|]. by rewrite insert_by_index_perm IH. Qed.

Lemma sort_by_index_sorted f l : StronglySorted (index_order f) (sort_by_index f l).
Proof.
  induction l as [|x l IH]; simpl; [constructor|].
  induction IH as [|y k Hk IHk Hy]; simpl; [by repeat constructor|].
  destruct (index_le (f x) (f y)) eqn:E.
  - constructor; [by constructor|]. constructor; [done|].
    eapply Forall_impl; [done|]. intros z Hz. by transitivity y.
  - constructor; [done|]. rewrite insert_by_index_perm. constructor; [by apply index_order_total|done].
Qed.

(** ** Interleaving *)

Lemma merge_sorted_perm less l : forall r, merge_sorted less l r ≡ₚ l ++ r.
Proof.
  induction l as [|x l IHl]; intros r; [by destruct r|].
  induction r as [|y r IHr]; [by rewrite app_nil_r|]. cbn [merge_sorted].
  destruct (less x y); [by rewrite IHl|].
  transitivity (y :: (x :: l) ++ r); [by constructor|]. apply Permutation_middle.
Qed.

(** Each of the two lists stays in its order. *)
Lemma merge_sorted_filter less (P : Json -> Prop) `{forall v, Decision (P v)} l : forall r,
  Forall (fun v => ~ P v) l -> Forall P r ->
  filter P (merge_sorted less l r) = r /\ filter (fun v => ~ P v) (merge_sorted less l r) = l.
Proof.
  assert (forall r, Forall P r -> filter P r = r /\ filter (fun v => ~ P v) r = []) as Hall.
  { induction 1 as [|y r Hy _ [IH1 IH2]]; [done|].
    rewrite !filter_cons decide_True // decide_False; [tauto|]. by rewrite IH1 IH2. }
  assert (forall l, Forall (fun v => ~ P v) l -> filter P l = [] /\ filter (fun v => ~ P v) l = l) as Hnone.
  { induction 1 as [|y r Hy _ [IH1 IH2]]; [done|].
    rewrite !filter_cons decide_False // decide_True //. by rewrite IH1 IH2. }
  induction l as [|x l IHl]; intros r Hl Hr; [by destruct r; apply Hall|].
  induction r as [|y r IHr]; [by apply Hnone|]. cbn [merge_sorted].
  apply Forall_cons in Hl as [Hx Hl]. pose proof Hr as [Hy Hr']%Forall_cons. destruct (less x y).
  - destruct (IHl _ Hl Hr) as [IH1 IH2]. rewrite !filter_cons decide_False // decide_True //.
    by rewrite IH1 IH2.
  - destruct (IHr Hr') as [IH1 IH2]. rewrite !filter_cons decide_True // decide_False; [tauto|].
    cbn [merge_sorted] in IH1, IH2. by rewrite IH1 IH2.
Qed.

(** ** The whole *)

Definition in_order (order : list Json) (id : ItemId) (v : Json) : Prop := is_Some (index_of order v id).

Lemma order_items_perm merged patch_order server_order id :
  order_items merged patch_order server_order id ≡ₚ merged.
Proof.
  unfold order_items. rewrite merge_sorted_perm !sort_by_index_perm Permutation_app_comm.
  apply filter_app_complement.
Qed.

Lemma normalize_order_perm merged patch_order server_order id mk out :
  normalize_order merged patch_order server_order id mk = Ok out -> out ≡ₚ merged.
Proof.
  unfold normalize_order. intros Hn. repeat case_match; simplify_eq; apply order_items_perm.
Qed.

(** A list that [normalize_order] has ordered is a permutation of the merged
    list in which the items named by the patch's order are in that order and the
    other items are in the order of the live list. *)
Theorem normalize_order_spec merged patch_order server_order id mk out :
  normalize_order merged patch_order server_order id mk = Ok out ->
  out ≡ₚ merged
  /\ StronglySorted (index_order (fun v => index_of patch_order v id)) (filter (in_order patch_order id) out)
  /\ StronglySorted (index_order (fun v => index_of server_order v id))
       (filter (fun v => ~ in_order patch_order id v) out).
Proof.
  intros Hn. split; [by eapply normalize_order_perm|].
  assert (out = order_items merged patch_order server_order id) as ->.
  { unfold normalize_order in Hn. by repeat case_match; simplify_eq. }
  unfold order_items. set (P := in_order patch_order id).
  edestruct (merge_sorted_filter (order_less server_order id) P) as [-> ->].
  - rewrite sort_by_index_perm. apply Forall_forall. by intros v [Hv _]%list_elem_of_filter.
  - rewrite sort_by_index_perm. apply Forall_forall. by intros v [Hv _]%list_elem_of_filter.
  - split; apply sort_by_index_sorted.
Qed.

(** [merge_scalar_lists]'s [expect] does not fail, and every item is from one of
    the two lists. *)
Lemma dedup_elem l : forall merged v, v ∈ dedup merged l -> v ∈ merged \/ v ∈ l.
Proof.
  induction l as [|x l IH]; intros merged v Hv; [by left|]. simpl in Hv. apply IH in Hv as [Hv|Hv].
  - destruct (json_contains merged x); [by left|]. apply elem_of_app in Hv as [Hv|Hv]; [by left|].
    apply list_elem_of_singleton in Hv as ->. right. left.
  - right. by right.
Qed.

Lemma merge_scalar_lists_total original patch :
  exists l, merge_scalar_lists original patch = Some l /\ forall v, v ∈ l -> v ∈ original \/ v ∈ patch.
Proof.
  unfold merge_scalar_lists, normalize_order. eexists. split; [done|]. intros v Hv.
  rewrite order_items_perm in Hv. apply dedup_elem in Hv as [[]%elem_of_nil|Hv].
  by apply elem_of_app in Hv.
Qed.
End Order.

Lemma normalize_order_spec_witness :
  let id : ItemId := as_str in
  let order := [JString "c"; JString "a"] in
  exists out,
    normalize_order (PT := Build_PatchText (fun s => s) (fun s => s)) [JString "a"; JString "b"; JString "c"] order
      [JString "a"; JString "b"] id None = Ok out
    /\ out ≡ₚ [JString "a"; JString "b"; JString "c"].
Proof.
  eexists. split; [reflexivity|].
  refine (proj1 (normalize_order_spec (PT := Build_PatchText (fun s => s) (fun s => s))
    [JString "a"; JString "b"; JString "c"] [JString "c"; JString "a"] [JString "a"; JString "b"] as_str None _ _)).
  reflexivity.
Defined.
