(* ===== verification/StrategicTotal.v ===== *)
(** * The strategic merge is total and typed

    [smp_body] uses its recursive call only on parts of the patch, so the depth of
    the patch is fuel enough; no [expect] of the code fails and no index is out of
    range; and the result of merging well-formed values is well-formed.  The three
    are proved together: [agree P a b] says that two runs give the same answer,
    which is not a panic, and satisfies [P] when it is not an error. *)

From stdpp Require Import strings.
From S2P Require Import Prelude RustText BTree Json Patch MergePatch PatchMeta StrategicMerge StrategicOrder.

#[local] Open Scope rust_scope.

(** ** Agreement *)

Definition agree {A} (P : A -> Prop) (a b : outcome A) : Prop :=
  exists r, a = Some r /\ b = Some r /\ match r with Ok x => P x | Err _ => True end.

Lemma agree_ok {A} (P : A -> Prop) x : P x -> agree P (Some (Ok x)) (Some (Ok x)).
Proof. by exists (Ok x). Qed.

Lemma agree_err {A} (P : A -> Prop) e : agree P (Some (Err e)) (Some (Err e)).
Proof. by exists (Err e). Qed.

Lemma agree_bind {A B} (P : A -> Prop) (Q : B -> Prop) a b (f g : A -> outcome B) :
  agree P a b -> (forall x, P x -> agree Q (f x) (g x)) ->
  agree Q (attempt x <- a; f x) (attempt x <- b; g x).
Proof. intros (r & -> & -> & Hr) Hfg. destruct r as [x|e]; [by apply Hfg|by exists (Err e)]. Qed.

Lemma agree_pair {A B C} (P : A * B -> Prop) (Q : C -> Prop) a b (f g : A -> B -> outcome C) :
  agree P a b -> (forall x y, P (x, y) -> agree Q (f x y) (g x y)) ->
  agree Q (attempt (x, y) <- a; f x y) (attempt (x, y) <- b; g x y).
Proof. intros (r & -> & -> & Hr) Hfg. destruct r as [[x y]|e]; [by apply Hfg|by exists (Err e)]. Qed.

(** The same two for a call that cannot panic. *)
Lemma agree_res {A B} (P : A -> Prop) (Q : B -> Prop) (r : result A PatchError) (f g : A -> outcome B) :
  agree P (Some r) (Some r) -> (forall x, P x -> agree Q (f x) (g x)) ->
  agree Q (match r with Ok x => f x | Err e => Some (Err e) end)
          (match r with Ok x => g x | Err e => Some (Err e) end).
Proof. apply (agree_bind P Q (Some r) (Some r)). Qed.

Lemma agree_res_pair {A B C} (P : A * B -> Prop) (Q : C -> Prop) (r : result (A * B) PatchError)
    (f g : A -> B -> outcome C) :
  agree P (Some r) (Some r) -> (forall x y, P (x, y) -> agree Q (f x y) (g x y)) ->
  agree Q (match r with Ok (x, y) => f x y | Err e => Some (Err e) end)
          (match r with Ok (x, y) => g x y | Err e => Some (Err e) end).
Proof. apply (agree_pair P Q (Some r) (Some r)). Qed.

Lemma agree_result {A} (P : A -> Prop) r :
  (forall x, r = Ok x -> P x) -> agree P (Some r) (Some r).
Proof. intros H. exists r. split_and!; [done..|]. destruct r; [by apply H|done]. Qed.

Lemma agree_any {A} (r : result A PatchError) : agree (fun _ => True) (Some r) (Some r).
Proof. by apply agree_result. Qed.

Lemma agree_weaken {A} (P Q : A -> Prop) a b : agree P a b -> (forall x, P x -> Q x) -> agree Q a b.
Proof. intros (r & Ha & Hb & Hr) Hpq. exists r. split_and!; [done..|]. destruct r; auto. Qed.

#[export] Hint Resolve agree_ok agree_err agree_any : rusternetes.

(** ** Lists of maps *)

Definition all_maps (l : list Json) : Prop := Forall (fun v => is_object v = true) l.

Section Strategic.
Context {PT : PatchText} {TF : TextFormat} {JT : JsonText}.

Lemma element_types_inv all l : forall prev t,
  element_types all prev l = Ok t ->
  (forall p, prev = Some p -> t = Some p) /\ forall v, v ∈ l -> t = Some (go_type_name v).
Proof.
  induction l as [|v l IH]; intros prev t H; simpl in H.
  { simplify_eq. split; [done|]. by intros v ?%elem_of_nil. }
  destruct prev as [p|].
  - case_decide as Hp; [|done]. apply IH in H as [H1 H2]. split; [done|].
    intros w [->|Hw]%elem_of_cons; [rewrite -Hp; by apply H1|auto].
  - destruct (is_array v); [done|]. apply IH in H as [H1 H2]. split; [done|].
    intros w [->|Hw]%elem_of_cons; auto.
Qed.

(** [slice_elements_are_maps] tells the truth about the elements. *)
Lemma slice_elements_maps slices :
  slice_elements_are_maps slices = Ok true -> all_maps (concat slices).
Proof.
  unfold slice_elements_are_maps. destruct (element_types _ _ _) as [t|] eqn:E; simpl; [|done].
  destruct t as [t|]; [|done]. intros [= Ht%bool_decide_eq_true]. subst t.
  apply element_types_inv in E as [_ E]. apply Forall_forall. intros v Hv%E.
  destruct v as [|b|n|s|l|m]; simpl in Hv; try done. by destruct (is_integer n).
Qed.

Lemma find_map_from_lt l key v : forall i j, find_map_from i l key v = Ok (Some j) -> i <= j < i + length l.
Proof.
  induction l as [|w l IH]; intros i j H; simpl in H; [done|]. destruct w; try done.
  destruct (from_option _ _ _); [injection H as <-; simpl; lia|]. apply IH in H. simpl. lia.
Qed.

Lemma find_map_lt l key v j : find_map_in_slice l key v = Ok (Some j) -> j < length l.
Proof. intros H%find_map_from_lt. lia. Qed.

Lemma vec_remove_length {A} (l : list A) i : i < length l -> S (length (vec_remove l i)) = length l.
Proof. intros. unfold vec_remove. rewrite length_app length_take length_drop. lia. Qed.

Lemma vec_remove_elem {A} (l : list A) i v : v ∈ vec_remove l i -> v ∈ l.
Proof.
  unfold vec_remove. rewrite elem_of_app -{3}(take_drop i l) elem_of_app.
  intros [H|H]; [by left|right]. destruct (drop i l) as [|w k] eqn:E.
  - assert (drop (S i) l = []) as Hn by (apply drop_ge; apply (f_equal length) in E; rewrite length_drop in E; simpl in E; lia).
    rewrite Hn in H. by apply elem_of_nil in H.
  - apply (f_equal (drop 1)) in E. rewrite drop_drop Nat.add_1_r in E. rewrite E /= drop_0 in H. by right.
Qed.

(** The loop of a delete ends within its fuel and only removes elements. *)
Lemma delete_matching_total fuel key v : forall l,
  length l < fuel ->
  exists r, delete_matching fuel l key v = Some r
    /\ match r with Ok l' => forall x, x ∈ l' -> x ∈ l | Err _ => True end.
Proof.
  induction fuel as [|fuel IH]; intros l Hl; [lia|]. simpl.
  destruct (find_map_in_slice l key v) as [[i|]|e] eqn:E; [|by exists (Ok l)|by exists (Err e)].
  apply find_map_lt in E as Hi. pose proof (vec_remove_length l i Hi).
  destruct (IH (vec_remove l i)) as (r & -> & Hr); [lia|]. exists r. split; [done|].
  destruct r; [|done]. intros x Hx%Hr. by eapply vec_remove_elem.
Qed.

(** Deletes only remove live elements; what is left of the patch is from it. *)
Lemma special_elements_total mk patch : forall original plain replace,
  all_maps patch ->
  agree (fun '(o, p) =>
           (forall x, x ∈ o -> x ∈ original \/ x ∈ plain \/ x ∈ patch)
           /\ forall x, x ∈ p -> x ∈ plain \/ x ∈ patch)
    (special_elements mk original plain replace patch) (special_elements mk original plain replace patch).
Proof.
  induction patch as [|v patch IH]; intros original plain replace Hp; cbn [special_elements].
  { apply agree_ok. destruct replace; (split; [tauto|]); [by intros x ?%elem_of_nil|tauto]. }
  apply Forall_cons in Hp as [Hv Hp]. destruct v as [| | | | |m]; try done.
  destruct (obj_get "$patch" m) as [directive|].
  - destruct directive as [| | |s| |]; auto with rusternetes. case_decide.
    { destruct (obj_get mk m) as [key_value|]; [|auto with rusternetes].
      destruct (delete_matching_total (S (length original)) mk key_value original) as ([o|e] & -> & Ho);
        [lia| |apply agree_err].
      eapply agree_weaken; [by apply IH|]. intros [o' p'] [H1 H2].
      split; intros x Hx; [apply H1 in Hx as [Hx%Ho|[]]|apply H2 in Hx as []]; rewrite ?elem_of_cons; tauto. }
    case_decide; [|case_decide; auto with rusternetes].
    eapply agree_weaken; [by apply IH|]. intros [o' p'] [H1 H2].
    split; intros x Hx; [apply H1 in Hx as [|[]]|apply H2 in Hx as []]; rewrite ?elem_of_cons; tauto.
  - eapply agree_weaken; [by apply IH|]. intros [o' p'] [H1 H2].
    split; intros x Hx; [apply H1 in Hx as [|[Hx|]]|apply H2 in Hx as [Hx|]]; rewrite ?elem_of_cons; try tauto.
    all: apply elem_of_app in Hx as [|Hx%list_elem_of_singleton]; tauto.
Qed.

(** ** Directives keep values well-formed *)

Lemma remove_directives_object m :
  exists m', remove_directives_deep (JObject m) = (if obj_has "$patch" m then None else Some (JObject m'))
    /\ (forall k v, (k, v) ∈ m' -> exists w, (k, w) ∈ m /\ remove_directives_deep w = Some v)
    /\ (keys_sorted m -> keys_sorted m').
Proof.
  eexists. split; [cbn [remove_directives_deep]; reflexivity|].
  induction m as [|[a w] m [IH1 IH2]]; [by split; [intros ?? ?%elem_of_nil|]|].
  destruct (remove_directives_deep w) as [w'|] eqn:E; split.
  - intros k v [[= -> ->]|Hk]%elem_of_cons; [exists w; split; [left|done]|].
    destruct (IH1 _ _ Hk) as (w2 & ? & ?). exists w2. split; [by right|done].
  - intros [Hm Ha]%keys_sorted_cons. apply keys_sorted_cons. split; [auto|].
    intros k v Hk. destruct (IH1 _ _ Hk) as (w2 & Hw2 & _). eauto.
  - intros k v Hk. destruct (IH1 _ _ Hk) as (w2 & ? & ?). exists w2. split; [by right|done].
  - intros [Hm Ha]%keys_sorted_cons. auto.
Qed.

Lemma remove_directives_array a :
  exists a', remove_directives_deep (JArray a) = Some (JArray a')
    /\ forall v, v ∈ a' -> exists w, w ∈ a /\ remove_directives_deep w = Some v.
Proof.
  eexists. split; [cbn [remove_directives_deep]; reflexivity|].
  induction a as [|w a IH]; [by intros v ?%elem_of_nil|].
  destruct (remove_directives_deep w) as [w'|] eqn:E; intros v Hv.
  - apply elem_of_cons in Hv as [->|Hv]; [exists w; split; [left|done]|].
    destruct (IH _ Hv) as (w2 & ? & ?). exists w2. split; [by right|done].
  - destruct (IH _ Hv) as (w2 & ? & ?). exists w2. split; [by right|done].
Qed.

Lemma remove_directives_wf v : forall w, remove_directives_deep v = Some w -> json_wf v -> json_wf w.
Proof.
  induction v as [|b|t|s|l IH|m IH] using Json_ind_nested; intros w Hw Hwf; try by injection Hw as <-.
  - destruct (remove_directives_array l) as (a' & Ha & Hin). rewrite Ha in Hw. injection Hw as <-.
    apply json_wf_array in Hwf. apply json_wf_array. rewrite -> Forall_forall in *.
    intros v (u & Hu & Hv)%Hin. eauto.
  - destruct (remove_directives_object m) as (m' & Hm & Hin & Hs). rewrite Hm in Hw.
    destruct (obj_has _ _); [done|]. injection Hw as <-.
    apply json_wf_object in Hwf as [Hsm Hwf]. apply json_wf_object. split; [auto|].
    rewrite -> Forall_forall in *. intros [k v] (u & Hu & Hv)%Hin. simpl.
    apply (IH _ Hu _ Hv). exact (Hwf _ Hu).
Qed.

Lemma replaced_object_wf ps m : obj_wf ps -> obj_wf m -> obj_wf (replaced_object ps m).
Proof.
  intros [_ Hps] Hm. unfold replaced_object.
  assert (forall l new, obj_wf new ->
    obj_wf (foldl (fun new_obj key => match obj_get key m with
                                      | Some v => obj_insert key v new_obj
                                      | None => new_obj
                                      end) new l)) as Hret.
  { induction l as [|k l IH]; intros new Hn; simpl; [done|]. apply IH.
    destruct (obj_get k m) eqn:E; eauto with rusternetes. }
  assert (forall new, obj_wf new ->
    obj_wf (foldl (fun new_obj kv => if starts_with_dollar kv.1 then new_obj
                                     else obj_insert kv.1 kv.2 new_obj) new ps)) as Hpat.
  { induction Hps as [|[k v] ps Hv _ IH]; intros new Hn; simpl; [done|]. apply IH.
    destruct (starts_with_dollar k); auto with rusternetes. }
  apply Hpat. repeat case_match; auto with rusternetes.
Qed.

Lemma retain_keys_wf m ps retain m' :
  apply_retain_keys_directive m ps retain = Ok m' -> obj_wf m -> obj_wf m'.
Proof.
  unfold apply_retain_keys_directive. intros H Hm. destruct retain; try done.
  destruct (forallb _ _); [|done]. injection H as <-. by apply obj_wf_filter.
Qed.

(** ** One level of the merge, over two recursive calls that agree on parts *)

Section Level.
Variables rec1 rec2 : Json -> Json -> option PatchSchema -> outcome Json.
Variable d : nat.

(** The parts of the patch the recursive call is made on. *)
Definition part (v : Json) : Prop := json_wf v /\ json_depth v < d.

Hypothesis rec_agree : forall o p s, json_wf o -> part p -> agree json_wf (rec1 o p s) (rec2 o p s).

Lemma part_elements l : part (JArray l) -> Forall part l.
Proof.
  intros [Hw%json_wf_array Hd]. apply Forall_forall. intros v Hv. split.
  - by eapply Forall_forall in Hw.
  - pose proof (depth_element _ _ Hv). lia.
Qed.

Lemma merge_slice_without_agree patch mk s : forall original,
  all_maps patch -> Forall part patch -> Forall json_wf original ->
  agree (Forall json_wf) (merge_slice_without_special_elements rec1 original patch mk s)
    (merge_slice_without_special_elements rec2 original patch mk s).
Proof.
  induction patch as [|v patch IH]; intros original Hm Hp Ho;
    cbn [merge_slice_without_special_elements]; [by apply agree_ok|].
  apply Forall_cons in Hm as [Hv Hm]. apply Forall_cons in Hp as [Hpv Hp]. destruct v as [| | | | |m]; try done.
  destruct (obj_get mk m) as [key_value|]; [|apply agree_err].
  destruct (find_map_in_slice original mk key_value) as [[i|]|] eqn:E; [| |apply agree_err].
  - apply find_map_lt in E. destruct (lookup_lt_is_Some_2 original i E) as [live Hl]. rewrite Hl.
    eapply agree_bind; [apply rec_agree; [by eapply Forall_lookup_1|done]|].
    intros x Hx. apply IH; [done|done|]. by apply Forall_insert.
  - apply IH; [done|done|]. apply Forall_app. split; [done|]. constructor; [apply Hpv|done].
Qed.

Lemma normalize_order_wf merged po so id mk :
  Forall json_wf merged -> agree (Forall json_wf) (Some (normalize_order merged po so id mk)) (Some (normalize_order merged po so id mk)).
Proof. intros Hm. apply agree_result. intros out Ho%normalize_order_perm. by rewrite Ho. Qed.

Lemma merge_scalar_lists_wf original patch :
  Forall json_wf original -> Forall json_wf patch ->
  exists l, merge_scalar_lists original patch = Some l /\ Forall json_wf l.
Proof.
  intros Ho Hp. destruct (merge_scalar_lists_total original patch) as (l & -> & Hl). exists l. split; [done|].
  rewrite -> Forall_forall in *. intros v [Hv|Hv]%Hl; auto.
Qed.

Lemma merge_slice_agree original patch s mk :
  Forall part patch -> Forall json_wf original ->
  agree (Forall json_wf) (merge_slice rec1 original patch s mk) (merge_slice rec2 original patch s mk).
Proof.
  intros Hp Ho. assert (Forall json_wf patch) as Hpw by (eapply Forall_impl; [done|]; by intros v []).
  unfold merge_slice. case_decide; [by apply agree_ok|].
  destruct (slice_elements_are_maps _) as [[|]|] eqn:E; [| |apply agree_err].
  - apply slice_elements_maps in E. cbn [concat] in E. rewrite app_nil_r in E.
    apply Forall_app in E as [Hom Hpm]. case_decide; [apply agree_err|].
    eapply agree_pair; [by apply special_elements_total|]. intros o p [H1 H2].
    assert (Forall part p) as Hpp.
    { rewrite -> Forall_forall in Hp |- *. intros x [[]%elem_of_nil|Hx]%H2. auto. }
    assert (all_maps p) as Hpm'.
    { unfold all_maps in *. rewrite -> Forall_forall in Hpm |- *. intros x [[]%elem_of_nil|Hx]%H2. auto. }
    assert (Forall json_wf o) as How.
    { rewrite -> Forall_forall in Ho, Hpw |- *. intros x [|[[]%elem_of_nil|]]%H1; auto. }
    eapply agree_bind; [by apply merge_slice_without_agree|]. intros merged Hmg. by apply normalize_order_wf.
  - destruct (merge_scalar_lists_wf original patch Ho Hpw) as (l & -> & Hl). by apply agree_ok.
Qed.

(** The members of the patch are parts of it. *)
Definition parts (ps : list (string * Json)) : Prop := forall k v, obj_get k ps = Some v -> part v.

Lemma as_list_wf o :
  from_option json_wf True o ->
  agree (fun l => Forall json_wf (default [] l)) (Some (as_list o)) (Some (as_list o)).
Proof.
  intros Ho. apply agree_result. intros l Hl. destruct o as [[]|]; simplify_eq/=; [|constructor].
  by apply json_wf_array.
Qed.

Lemma as_list_parts ps field :
  parts ps ->
  agree (fun l => Forall part (default [] l)) (Some (as_list (obj_get field ps))) (Some (as_list (obj_get field ps))).
Proof.
  intros Hps. apply agree_result. intros l Hl. destruct (obj_get field ps) as [[]|] eqn:E; simplify_eq/=; [|constructor].
  eapply part_elements; eauto.
Qed.

Lemma get_wf m k : obj_wf m -> from_option json_wf True (obj_get k m).
Proof. intros Hm. destruct (obj_get k m) eqn:E; simpl; eauto with rusternetes. Qed.

Lemma part_wf l : Forall part l -> Forall json_wf l.
Proof. intros Hl. eapply Forall_impl; [done|]. by intros v []. Qed.

Lemma looked_up_any {A} (r : result A string) : agree (fun _ => True) (looked_up r) (looked_up r).
Proof. apply agree_any. Qed.

Lemma set_element_order_agree ps s field order_v m consumed :
  parts ps -> obj_wf m ->
  agree (fun st => obj_wf st.1) (set_element_order rec1 ps s field order_v (m, consumed))
    (set_element_order rec2 ps s field order_v (m, consumed)).
Proof.
  intros Hps Hm. unfold set_element_order. eapply agree_res; [apply agree_any|]. intros order _.
  eapply agree_res; [by apply as_list_wf, get_wf|]. intros original Ho.
  eapply agree_res; [by apply as_list_parts|]. intros patch_list Hp.
  destruct s as [s|]; [|by apply agree_ok].
  eapply agree_pair; [apply looked_up_any|]. intros sub meta _.
  eapply agree_res_pair; [apply agree_any|]. intros b strategy _.
  eapply agree_res; [apply agree_any|]. intros _ _.
  eapply (agree_bind (fun l => Forall json_wf (default [] l))).
  { destruct original as [o|], patch_list as [p|]; cbn [default from_option id] in *.
    - case_decide; [|apply agree_ok; by apply part_wf].
      eapply agree_bind; [by apply merge_slice_agree|]. intros l Hl. by apply agree_ok.
    - by apply agree_ok.
    - destruct (remove_directives_array p) as (a & Ha & Hin). rewrite Ha. apply agree_ok. simpl.
      apply part_wf in Hp. rewrite -> Forall_forall in *. intros v (w & Hw & Hv)%Hin.
      eapply remove_directives_wf; eauto.
    - apply agree_ok. constructor. }
  intros [merged|] Hmg; [|by apply agree_ok]. simpl in Hmg.
  eapply agree_res; [apply agree_any|]. intros _ _.
  eapply agree_res; [by apply normalize_order_wf|]. intros ordered Hord. apply agree_ok. simpl.
  apply obj_wf_insert; [done|by apply json_wf_array].
Qed.

Lemma set_element_orders_agree ps s items : forall m consumed,
  parts ps -> obj_wf m ->
  agree (fun st => obj_wf st.1) (set_element_orders rec1 ps s items (m, consumed))
    (set_element_orders rec2 ps s items (m, consumed)).
Proof.
  induction items as [|[k order_v] items IH]; intros m consumed Hps Hm; cbn [set_element_orders];
    [by apply agree_ok|].
  destruct (strip_prefix _ k); [|by apply IH].
  eapply agree_bind; [by apply set_element_order_agree|]. intros [m' c'] Hm'. by apply IH.
Qed.

Lemma merge_by_schema_agree s key live v :
  from_option json_wf True live -> part v ->
  agree (fun o => from_option json_wf True o) (merge_by_schema rec1 s key live v) (merge_by_schema rec2 s key live v).
Proof.
  intros Hl Hv. unfold merge_by_schema.
  destruct live as [[| | | |l|m]|]; try by apply agree_ok.
  - destruct v as [| | | |arr|]; try by apply agree_ok.
    eapply agree_pair; [apply looked_up_any|]. intros sub meta _.
    eapply agree_res_pair; [apply agree_any|]. intros b strategy _. case_decide; [|apply agree_ok; apply Hv].
    eapply agree_bind; [apply merge_slice_agree; [by apply part_elements|by apply json_wf_array]|].
    intros x Hx. apply agree_ok. by apply json_wf_array.
  - destruct v as [| | | | |pm]; try by apply agree_ok.
    eapply agree_pair; [apply looked_up_any|]. intros sub meta _.
    eapply agree_res_pair; [apply agree_any|]. intros b strategy _. case_decide; [apply agree_ok; apply Hv|].
    eapply agree_bind; [by apply rec_agree|]. intros x Hx. by apply agree_ok.
Qed.

Lemma merge_by_value_agree ps key v m :
  obj_wf m -> part v ->
  agree obj_wf (merge_by_value rec1 ps key v m) (merge_by_value rec2 ps key v m).
Proof.
  intros Hm Hv. unfold merge_by_value. destruct (is_null v); [apply agree_ok; auto with rusternetes|].
  assert (agree obj_wf (Some (Ok (match remove_directives_deep v with
                                   | Some w => obj_insert key w m
                                   | None => obj_remove key m
                                   end)))
                       (Some (Ok (match remove_directives_deep v with
                                   | Some w => obj_insert key w m
                                   | None => obj_remove key m
                                   end)))) as Hother.
  { apply agree_ok. destruct (remove_directives_deep v) eqn:E; [|auto with rusternetes].
    apply obj_wf_insert; [done|]. eapply remove_directives_wf; [done|apply Hv]. }
  pose proof (get_wf m key Hm) as Hg.
  destruct (obj_get key m) as [[| | | |l|lm]|]; try done; destruct v as [| | | |arr|pm]; try done.
  - destruct (_ && _ && _); [|apply agree_ok; apply obj_wf_insert; [done|apply Hv]].
    destruct (merge_scalar_lists_wf l arr) as (x & -> & Hx); [by apply json_wf_array|by apply json_wf_array, Hv|].
    apply agree_ok, obj_wf_insert; [done|by apply json_wf_array].
  - eapply agree_bind; [by apply rec_agree|]. intros x Hx. apply agree_ok. auto with rusternetes.
Qed.

Lemma merge_members_agree ps s consumed items : forall m,
  Forall (fun kv => part kv.2) items -> obj_wf m ->
  agree obj_wf (merge_members rec1 ps s consumed items m) (merge_members rec2 ps s consumed items m).
Proof.
  induction items as [|[k v] items IH]; intros m Hi Hm; cbn [merge_members]; [by apply agree_ok|].
  apply Forall_cons in Hi as [Hv Hi]. eapply agree_bind; [|intros x Hx; by apply IH].
  unfold merge_member_step. destruct (starts_with_dollar k); [by apply agree_ok|].
  destruct (contains consumed k); [by apply agree_ok|].
  eapply (agree_bind (fun o => from_option json_wf True o)).
  { destruct s; [|by apply agree_ok]. destruct (is_null v); [by apply agree_ok|].
    by apply merge_by_schema_agree; [apply get_wf|]. }
  intros [x|] Hx; [apply agree_ok; auto with rusternetes|by apply merge_by_value_agree].
Qed.

Lemma delete_list_step_agree s field v m :
  part v -> obj_wf m ->
  agree obj_wf (delete_list_step rec1 s field v m) (delete_list_step rec2 s field v m).
Proof.
  intros Hv Hm. unfold delete_list_step. destruct (is_null v); [apply agree_ok; auto with rusternetes|].
  destruct (obj_get field m) as [current|] eqn:E; [|by apply agree_ok].
  pose proof (obj_wf_get _ _ _ Hm E) as Hc. case_decide; [|by apply agree_ok].
  assert (agree obj_wf (Some (Ok (obj_insert field v m))) (Some (Ok (obj_insert field v m)))) as Hins.
  { apply agree_ok, obj_wf_insert; [done|apply Hv]. }
  destruct current as [| | | |l|cm]; try done; destruct v as [| | | |del|pm]; try done.
  - apply agree_ok, obj_wf_insert; [done|]. apply json_wf_array in Hc. apply json_wf_array.
    rewrite -> Forall_forall in *. intros x [_ Hx]%list_elem_of_filter. auto.
  - eapply (agree_bind (fun _ => True)).
    { destruct s; [|by apply agree_ok]. eapply agree_pair; [apply looked_up_any|]. intros; by apply agree_ok. }
    intros sub _. eapply agree_bind; [by apply rec_agree|]. intros x Hx. apply agree_ok. auto with rusternetes.
Qed.

Lemma delete_lists_agree s items : forall m,
  Forall (fun kv => part kv.2) items -> obj_wf m ->
  agree obj_wf (delete_lists rec1 s items m) (delete_lists rec2 s items m).
Proof.
  induction items as [|[k v] items IH]; intros m Hi Hm; cbn [delete_lists]; [by apply agree_ok|].
  apply Forall_cons in Hi as [Hv Hi]. eapply agree_bind; [|intros x Hx; by apply IH].
  destruct (strip_prefix _ k); [by apply delete_list_step_agree|by apply agree_ok].
Qed.

Lemma smp_body_agree o p s :
  json_wf o -> json_wf p -> json_depth p <= d ->
  agree json_wf (smp_body rec1 o p s) (smp_body rec2 o p s).
Proof.
  intros Ho Hp Hd. unfold smp_body. destruct p as [| | | | |ps]; try by apply agree_ok.
  pose proof Hp as Hps%json_wf_object. apply object_or_empty_wf in Ho. set (m := object_or_empty o) in *.
  assert (parts ps) as Hparts.
  { intros k v Hk. pose proof (depth_member _ _ _ Hk). split; [by eapply obj_wf_get|lia]. }
  assert (Forall (fun kv => part kv.2) ps) as Hitems.
  { apply Forall_forall. intros [k v] Hk. apply (Hparts k). apply elem_obj_get; [apply Hps|done]. }
  eapply agree_res; [apply agree_any|]. intros strategy _.
  case_decide; [by apply agree_ok, json_wf_object, replaced_object_wf|].
  case_decide; [by apply agree_ok, json_wf_object, obj_wf_nil|]. unfold merge_object.
  eapply (agree_bind obj_wf).
  { destruct (obj_get "$retainKeys" ps); [|by apply agree_ok]. apply agree_result. intros x Hx.
    by eapply retain_keys_wf. }
  intros m1 Hm1. eapply agree_pair; [by apply set_element_orders_agree|]. intros m2 consumed Hm2.
  eapply agree_bind; [by apply merge_members_agree|]. intros m3 Hm3.
  eapply agree_bind; [by apply delete_lists_agree|]. intros m4 Hm4. by apply agree_ok, json_wf_object.
Qed.
End Level.

(** Any fuel above the depth of the patch gives the same answer. *)
Lemma smp_loop_agree n : forall k o p s,
  json_wf o -> json_wf p -> json_depth p < n -> json_depth p < k ->
  agree json_wf (smp_loop n o p s) (smp_loop k o p s).
Proof.
  induction n as [|n IH]; intros [|k] o p s Ho Hp Hn Hk; [lia..|]. cbn [smp_loop].
  apply (smp_body_agree _ _ (Nat.min n k)); [|done|done|lia].
  intros o' p' s' Ho' [Hp' Hd]. apply IH; [done|done|lia|lia].
Qed.

(** C27: the strategic merge ends and does not panic: on every pair of values
    there is one answer (a value or an error) that every amount of fuel above the
    depth of the patch gives; in particular no [expect] of the code fails and no
    list index is out of range. *)
Theorem strategic_merge_terminates original patch schema :
  json_wf original -> json_wf patch ->
  exists r, smp_merge_map original patch schema = Some r
    /\ forall fuel, json_depth patch < fuel -> smp_loop fuel original patch schema = Some r.
Proof.
  intros Ho Hp. destruct (smp_loop_agree (S (json_depth patch)) (S (json_depth patch)) original patch schema)
    as (r & Hr & _ & _); [done|done|lia|lia|]. exists r. split; [done|]. intros fuel Hf.
  destruct (smp_loop_agree (S (json_depth patch)) fuel original patch schema) as (r' & Hr' & Hf' & _);
    [done|done|lia|done|]. congruence.
Qed.
End Strategic.

Lemma strategic_merge_terminates_witness :
  let live := JObject [("a", JObject [("b", JNumber "1")])] in
  let patch := JObject [("a", JObject [("b", JNull)])] in
  exists r, smp_merge_map (PT := Build_PatchText id id) (TF := Build_TextFormat id id) (JT := fun _ => "")
              live patch None = Some r
    /\ forall fuel, 2 < fuel ->
         smp_loop (PT := Build_PatchText id id) (TF := Build_TextFormat id id) (JT := fun _ => "")
           fuel live patch None = Some r.
Proof.
  apply (strategic_merge_terminates (PT := Build_PatchText id id) (TF := Build_TextFormat id id) (JT := fun _ => "")
    (JObject [("a", JObject [("b", JNumber "1")])]) (JObject [("a", JObject [("b", JNull)])]) None);
    by repeat constructor.
Defined.
