(* ===== verification/PatchTyped.v ===== *)
(** * Patching keeps documents well-formed

    Every patch type, and the merge of a status, gives a document whose objects
    have sorted, distinct keys at every depth when the document and the patch have
    them. *)

From stdpp Require Import strings.
From S2P Require Import Prelude RustText BTree Json Patch MergePatch PatchPointer PatchMeta StrategicMerge StrategicTotal.

#[local] Open Scope rust_scope.

(** ** JSON patch *)

Lemma get_parts_wf path l v w : get_parts path l v = Ok w -> json_wf v -> json_wf w.
Proof.
  revert v. induction l as [|t l IH]; intros v H Hv; cbn [get_parts] in H; [by simplify_eq|].
  destruct v as [| | | |a|m]; try done.
  - destruct (parse_usize t) as [i|]; [|done]. destruct (vec_get a i) as [c|] eqn:E; [|done].
    apply IH in H; [done|]. apply json_wf_array in Hv. eapply Forall_lookup_1; [done|by apply vec_get_lookup].
  - destruct (obj_get t m) eqn:E; [|done]. apply IH in H; [done|]. apply json_wf_object in Hv. by eapply obj_wf_get.
Qed.

Lemma get_value_wf v path w : get_value v path = Ok w -> json_wf v -> json_wf w.
Proof.
  unfold get_value. case_decide; [by intros [= ->]|]. destruct (parse_path path); [|done]. apply get_parts_wf.
Qed.

Lemma get_mut_value_wf v path f put :
  get_mut_value v path = Ok (f, put) -> json_wf v -> json_wf f /\ forall w, json_wf w -> json_wf (put w).
Proof.
  unfold get_mut_value. case_decide; [by intros [= <- <-]|]. destruct (parse_path path); [|done]. apply lens_wf.
Qed.

Lemma vec_insert_wf arr i v arr' :
  vec_insert arr i v = Some arr' -> Forall json_wf arr -> json_wf v -> Forall json_wf arr'.
Proof.
  unfold vec_insert. case_decide; [|done]. intros [= <-] Ha Hv. rewrite Forall_app Forall_cons.
  auto using Forall_take, Forall_drop.
Qed.

Lemma add_operation_wf v path w v' :
  add_operation v path w = Some (Ok v') -> json_wf v -> json_wf w -> json_wf v'.
Proof.
  unfold add_operation. intros H Hv Hw. destruct (split_path path) as [[pp k]|]; [|done].
  case_decide; [by simplify_eq|]. destruct (get_mut_value v pp) as [[parent put]|] eqn:E; [|done].
  destruct (get_mut_value_wf _ _ _ _ E Hv) as [Hp Hput]. destruct parent as [| | | |arr|m]; try done.
  - destruct (if decide (k = "-") then _ else _) as [i|]; [|done].
    destruct (vec_insert arr i w) as [arr'|] eqn:Ei; [|done]. simpl in H. injection H as <-. apply Hput, json_wf_array.
    eapply vec_insert_wf; [done|by apply json_wf_array|done].
  - injection H as <-. apply Hput, json_wf_object. apply json_wf_object in Hp. auto with rusternetes.
Qed.

Lemma remove_operation_wf v path v' : remove_operation v path = Ok v' -> json_wf v -> json_wf v'.
Proof.
  unfold remove_operation. intros H Hv. destruct (split_path path) as [[pp k]|]; [|done]. simpl in H.
  destruct (get_mut_value v pp) as [[parent put]|] eqn:E; [|done]. simpl in H.
  destruct (get_mut_value_wf _ _ _ _ E Hv) as [Hp Hput]. destruct parent as [| | | |arr|m]; try done.
  - destruct (parse_usize k); [|done]. case_decide; [done|]. injection H as <-. apply Hput, json_wf_array.
    apply json_wf_array in Hp. unfold vec_remove. apply Forall_app. auto using Forall_take, Forall_drop.
  - destruct (obj_get k m); [|done]. injection H as <-. apply Hput, json_wf_object. apply json_wf_object in Hp.
    auto with rusternetes.
Qed.

Lemma replace_operation_wf v path w v' :
  replace_operation v path w = Ok v' -> json_wf v -> json_wf w -> json_wf v'.
Proof.
  unfold replace_operation. intros H Hv Hw. case_decide; [by simplify_eq|].
  destruct (split_path path) as [[pp k]|]; [|done]. simpl in H.
  destruct (get_mut_value v pp) as [[parent put]|] eqn:E; [|done]. simpl in H.
  destruct (get_mut_value_wf _ _ _ _ E Hv) as [Hp Hput]. destruct parent as [| | | |arr|m]; try done.
  - destruct (parse_usize k); [|done]. case_decide; [done|]. injection H as <-. apply Hput, json_wf_array.
    apply json_wf_array in Hp. by apply Forall_insert.
  - destruct (obj_get k m); [|done]. injection H as <-. apply Hput, json_wf_object. apply json_wf_object in Hp.
    auto with rusternetes.
Qed.

Lemma operation_wf v o v' :
  apply_json_patch_operation v o = Some (Ok v') -> json_wf v -> from_option json_wf True (value o) -> json_wf v'.
Proof.
  unfold apply_json_patch_operation, require_value, require_from. intros H Hv Ho.
  destruct (op o).
  - destruct (value o); [|done]. by eapply add_operation_wf.
  - injection H as H. by eapply remove_operation_wf.
  - destruct (value o); [|done]. injection H as H. by eapply replace_operation_wf.
  - destruct (from o) as [f|]; [|done]. unfold move_operation in H. destruct (is_proper_prefix _ _); [done|].
    destruct (get_value v f) eqn:Eg; [|done]. destruct (remove_operation v f) eqn:Er; [|done].
    eapply add_operation_wf; [done|by eapply remove_operation_wf|by eapply get_value_wf].
  - destruct (from o) as [f|]; [|done]. unfold copy_operation in H.
    destruct (get_value v f) eqn:Eg; [|done]. eapply add_operation_wf; [done..|]. by eapply get_value_wf.
  - destruct (value o); [|done]. destruct (test_operation _ _ _); by simplify_eq.
Qed.

Lemma apply_operations_wf ops : forall v v',
  apply_operations v ops = Some (Ok v') -> json_wf v ->
  Forall (fun o => from_option json_wf True (value o)) ops -> json_wf v'.
Proof.
  induction ops as [|o ops IH]; intros v v' H Hv Hops; cbn [apply_operations] in H; [by simplify_eq|].
  apply Forall_cons in Hops as [Ho Hops].
  destruct (apply_json_patch_operation v o) as [[w|]|] eqn:E; try done. eapply IH; [done| |done].
  by eapply operation_wf.
Qed.

Section Typed.
Context {PT : PatchText} {TF : TextFormat} {JT : JsonText} {PD : PatchDecode}.

(** The values of the decoded operations are values of the patch document. *)
Definition decodes_values (patch : Json) : Prop :=
  forall ops, decode_operations patch = Ok ops -> Forall (fun o => from_option json_wf True (value o)) ops.

(** A document that a patch of any of the three types gives is well-formed,
    the keys of each of its objects sorted and distinct at every depth, when the
    document and the patch are. *)
Theorem patched_document_wf original patch ty schema patched :
  json_wf original -> json_wf patch -> decodes_values patch ->
  apply_patch_with_schema original patch ty schema = Some (Ok patched) -> json_wf patched.
Proof.
  intros Ho Hp Hd. destruct ty; simpl.
  - destruct (smp_loop_agree (S (json_depth patch)) (S (json_depth patch)) original patch schema)
      as (r & Hr & _ & Hwf); [done|done|lia|lia|].
    unfold smp_merge_map. rewrite Hr. intros [= ->]. done.
  - destruct (_ || _); [|done]. rewrite apply_merge_patch_total. intros [= <-]. by apply merged_wf.
  - unfold apply_json_patch. destruct (decode_operations patch) as [ops|] eqn:E; [|done].
    case_decide; [done|]. intros Hops. eapply apply_operations_wf; [done..|]. by apply Hd.
Qed.
End Typed.

(** One operation, [add] of a value, as the decoder would give it. *)
Definition decode_one : PatchDecode := fun patch =>
  match patch with
  | JArray [JObject m] =>
      match obj_get "path" m, obj_get "value" m with
      | Some (JString p), Some v => Ok [mkJsonPatchOperation Add p (Some v) None]
      | _, _ => Err "missing field"
      end
  | _ => Err "invalid type"
  end.

Lemma patched_document_wf_witness :
  let patch := JArray [JObject [("path", JString "/b"); ("value", JObject [("c", JNull); ("d", JNull)])]] in
  let doc := JObject [("a", JNull); ("z", JNull)] in
  exists patched,
    apply_patch_with_schema (PT := Build_PatchText id id) (TF := Build_TextFormat id id) (JT := fun _ => "")
      (PD := decode_one) doc patch JsonPatch None = Some (Ok patched) /\ json_wf patched.
Proof.
  eexists. split; [reflexivity|].
  eapply (patched_document_wf (PT := Build_PatchText id id) (TF := Build_TextFormat id id) (JT := fun _ => "")
    (PD := decode_one) (JObject [("a", JNull); ("z", JNull)])
    (JArray [JObject [("path", JString "/b"); ("value", JObject [("c", JNull); ("d", JNull)])]]) JsonPatch None).
  - by repeat constructor.
  - by repeat constructor.
  - intros ops [= <-]. by repeat constructor.
  - reflexivity.
Defined.

(** ** Merging a status *)

Lemma update_condition_wf f ty l l' :
  (forall c, json_wf c -> json_wf (f c)) -> update_condition f ty l = Some l' ->
  Forall json_wf l -> Forall json_wf l'.
Proof.
  intros Hf. revert l'. induction l as [|c l IH]; intros l' H Hl; [done|]. cbn [update_condition] in H.
  apply Forall_cons in Hl as [Hc Hl]. case_decide.
  - injection H as <-. constructor; auto.
  - apply fmap_Some in H as (k & Hk & ->). constructor; auto.
Qed.

Lemma merge_conditions_wf deep ps : forall l,
  Forall (fun p => json_wf p /\ forall c, json_wf c -> json_wf (deep c p)) ps ->
  Forall json_wf l -> Forall json_wf (merge_conditions deep l ps).
Proof.
  induction ps as [|p ps IH]; intros l Hps Hl; cbn [merge_conditions]; [done|].
  apply Forall_cons in Hps as [[Hp Hd] Hps]. apply IH; [done|].
  assert (Forall json_wf (l ++ [p])) as Happ by (apply Forall_app; auto).
  destruct (condition_type p) as [ty|]; [|done]. simpl.
  destruct (update_condition _ ty l) as [l'|] eqn:E; [|done]. by eapply update_condition_wf in E.
Qed.

Section Deep.
(** The member of a merged status. *)
Definition deep_member (k : string) (o : option Json) (v : Json) : option Json :=
  match v with
  | JNull => None
  | JObject _ => Some (deep_merge_objects (default (JObject []) o) v)
  | JArray _ =>
      if decide (k = "conditions") then
        Some (merge_conditions_by_type deep_merge_objects (default (JArray []) o) v)
      else Some v
  | _ => Some v
  end.

Lemma deep_merge_object m ps :
  deep_merge_objects (JObject m) (JObject ps) = JObject (obj_merge deep_member ps m).
Proof.
  cbn [deep_merge_objects]. f_equal. revert m. induction ps as [|[k v] ps IH]; intros m; [done|].
  cbn [obj_merge]. destruct v; cbn [deep_member]; try apply IH. case_decide; apply IH.
Qed.

Lemma deep_merge_wf n : forall target patch,
  json_depth patch < n -> json_wf target -> json_wf patch -> json_wf (deep_merge_objects target patch).
Proof.
  induction n as [|n IH]; intros target patch Hd Ht Hp; [lia|].
  destruct target as [| | | | |m], patch as [| | | | |ps]; try done. rewrite deep_merge_object.
  apply json_wf_object in Ht, Hp. apply json_wf_object.
  assert (forall k v, (k, v) ∈ ps -> json_depth v < n) as Hdep.
  { intros k v Hk. apply elem_obj_get in Hk; [|apply Hp]. apply depth_member in Hk. lia. }
  destruct Hp as [_ Hp]. clear Hd. revert m Ht. induction Hp as [|[k v] ps Hv _ IHps]; intros m Hm; [done|].
  cbn [obj_merge]. apply IHps; [intros; eapply Hdep; by right|]. cbn [snd] in Hv.
  assert (json_depth v < n) as Hvd by (apply (Hdep k); left).
  pose proof (get_wf m k Hm) as Hg. destruct v as [| | | |l|vm]; cbn [deep_member obj_alter]; auto with rusternetes.
  - case_decide; cbn [obj_alter]; [|auto with rusternetes]. apply obj_wf_insert; [done|].
    destruct (obj_get k m) as [[| | | |tl|]|]; cbn [default from_option id merge_conditions_by_type] in *; try done;
      apply json_wf_array.
    all: apply merge_conditions_wf; [|try by apply json_wf_array].
    all: try constructor.
    all: apply json_wf_array in Hv; rewrite -> Forall_forall in *; intros p Hpl; split; [by apply Hv|].
    all: intros c Hc; apply IH; [pose proof (depth_element _ _ Hpl); simpl in *; lia|done|by apply Hv].
  - apply obj_wf_insert; [done|]. apply IH; [done| |done].
    destruct (obj_get k m); [done|]. by apply json_wf_object, obj_wf_nil.
Qed.
End Deep.
