(* ===== verification/StatusMerge.v ===== *)
(** * Merging a status

    [deep_merge_objects] on the [conditions] of a status: a patch updates or adds
    conditions by their type and never drops one. *)

From stdpp Require Import strings.
From S2P Require Import Prelude RustText BTree Json Patch MergePatch PatchMeta StrategicMerge StrategicTotal PatchTyped.

(** ** One condition *)

(** A merge of two objects takes the patch's value of a string member. *)
Lemma deep_merge_string m ps k s :
  obj_wf m -> obj_wf ps -> obj_get k ps = Some (JString s) ->
  get k (deep_merge_objects (JObject m) (JObject ps)) = Some (JString s).
Proof.
  intros [Hm _] [Hps _] Hk. rewrite deep_merge_object. cbn [get]. rewrite obj_get_merge //. by rewrite Hk.
Qed.

Lemma condition_type_object c ty : condition_type c = Some ty -> exists m, c = JObject m.
Proof. unfold condition_type. destruct c; try done. by eexists. Qed.

Lemma deep_merge_type c p ty :
  json_wf c -> json_wf p -> condition_type c = Some ty -> condition_type p = Some ty ->
  condition_type (deep_merge_objects c p) = Some ty.
Proof.
  intros Hc Hp Htc Htp. destruct (condition_type_object _ _ Htc) as [m ->].
  destruct (condition_type_object _ _ Htp) as [ps ->]. unfold condition_type in *. cbn [get] in Htp.
  apply bind_Some in Htp as (v & Hv & Hs). destruct v; try done. injection Hs as ->.
  by rewrite (deep_merge_string m ps "type" ty); [apply json_wf_object|apply json_wf_object|..].
Qed.

(** ** The list *)

(** The first condition of the type is the one that is changed. *)
Lemma update_condition_spec f ty l l' :
  update_condition f ty l = Some l' ->
  exists i c, l !! i = Some c /\ condition_type c = Some ty /\ l' = <[i := f c]> l.
Proof.
  revert l'. induction l as [|c l IH]; intros l' H; [done|]. cbn [update_condition] in H. case_decide as Hc.
  - injection H as <-. by exists 0, c.
  - apply fmap_Some in H as (k & Hk & ->). destruct (IH _ Hk) as (i & x & Hi & Hx & ->). by exists (S i), x.
Qed.

Lemma update_condition_None f ty l :
  update_condition f ty l = None -> Forall (fun c => condition_type c <> Some ty) l.
Proof.
  induction l as [|c l IH]; intros H; [constructor|]. cbn [update_condition] in H. case_decide; [done|].
  destruct (update_condition f ty l); [done|]. constructor; auto.
Qed.

(** One patch condition. *)
Definition merge_condition (l : list Json) (p : Json) : list Json :=
  match condition_type p ≫= fun ty => update_condition (fun c => deep_merge_objects c p) ty l with
  | Some l' => l'
  | None => l ++ [p]
  end.

Lemma merge_conditions_cons l p ps :
  merge_conditions deep_merge_objects l (p :: ps) = merge_conditions deep_merge_objects (merge_condition l p) ps.
Proof. done. Qed.

(** The types in their places: the list is extended, never reordered. *)
Lemma merge_condition_types l p :
  Forall json_wf l -> json_wf p ->
  (exists i c, l !! i = Some c /\ condition_type c = condition_type p /\ is_Some (condition_type p)
     /\ merge_condition l p = <[i := deep_merge_objects c p]> l
     /\ condition_type <$> merge_condition l p = condition_type <$> l)
  \/ (merge_condition l p = l ++ [p]).
Proof.
  intros Hl Hp. unfold merge_condition. destruct (condition_type p) as [ty|] eqn:Ht; simpl; [|by right].
  destruct (update_condition _ ty l) as [l'|] eqn:E; [|by right]. left.
  apply update_condition_spec in E as (i & c & Hi & Hc & ->). exists i, c. split_and!; [done|done|by eexists|done|].
  rewrite list_fmap_insert. apply list_insert_id. rewrite list_lookup_fmap Hi /=. f_equal. rewrite Hc.
  symmetry. apply deep_merge_type; [by eapply Forall_lookup_1|done|done|done].
Qed.

Lemma merge_condition_wf l p : Forall json_wf l -> json_wf p -> Forall json_wf (merge_condition l p).
Proof.
  intros Hl Hp. destruct (merge_condition_types l p Hl Hp) as [(i & c & Hi & _ & _ & -> & _)| ->].
  - apply Forall_insert; [done|]. apply (deep_merge_wf (S (json_depth p))); [lia|by eapply Forall_lookup_1|done].
  - apply Forall_app. auto.
Qed.

(** Types already there stay where they are. *)
Lemma merge_conditions_prefix ps : forall l,
  Forall json_wf l -> Forall json_wf ps ->
  exists more, condition_type <$> merge_conditions deep_merge_objects l ps = (condition_type <$> l) ++ more.
Proof.
  induction ps as [|p ps IH]; intros l Hl Hps; [exists []; by rewrite app_nil_r|].
  apply Forall_cons in Hps as [Hp Hps]. rewrite merge_conditions_cons.
  destruct (IH (merge_condition l p)) as [more ->]; [by apply merge_condition_wf|done|].
  destruct (merge_condition_types l p Hl Hp) as [(i & c & _ & _ & _ & _ & ->)| ->]; [by eexists|].
  rewrite fmap_app -app_assoc. by eexists.
Qed.

Lemma merge_conditions_untouched ps : forall l i c,
  Forall json_wf l -> Forall json_wf ps -> l !! i = Some c ->
  Forall (fun p => condition_type p = None \/ condition_type p <> condition_type c) ps ->
  merge_conditions deep_merge_objects l ps !! i = Some c.
Proof.
  induction ps as [|p ps IH]; intros l i c Hl Hps Hi Hnot; [done|].
  apply Forall_cons in Hps as [Hp Hps]. apply Forall_cons in Hnot as [Hn Hnot]. rewrite merge_conditions_cons.
  apply IH; [by apply merge_condition_wf|done| |done].
  destruct (merge_condition_types l p Hl Hp) as [(j & x & Hj & Hx & [ty Hty] & -> & _)| ->].
  - rewrite list_lookup_insert_ne //. intros ->. simplify_eq. destruct Hn; congruence.
  - by apply lookup_app_l_Some.
Qed.

Lemma merge_conditions_present ps : forall l p,
  Forall json_wf l -> Forall json_wf ps -> p ∈ ps ->
  exists c, c ∈ merge_conditions deep_merge_objects l ps /\ condition_type c = condition_type p.
Proof.
  induction ps as [|q ps IH]; intros l p Hl Hps Hp; [by apply elem_of_nil in Hp|].
  apply Forall_cons in Hps as [Hq Hps]. rewrite merge_conditions_cons.
  pose proof (merge_condition_wf l q Hl Hq) as Hwf. apply elem_of_cons in Hp as [->|Hp]; [|by apply IH].
  assert (condition_type q ∈ condition_type <$> merge_condition l q) as Hin.
  { destruct (merge_condition_types l q Hl Hq) as [(i & c & Hi & Hc & _ & _ & ->)| ->].
    - rewrite -Hc. apply list_elem_of_fmap_2. by eapply list_elem_of_lookup_2.
    - rewrite fmap_app elem_of_app. right. left. }
  destruct (merge_conditions_prefix ps _ Hwf Hps) as [more Hm].
  assert (condition_type q ∈ condition_type <$> merge_conditions deep_merge_objects (merge_condition l q) ps) as H.
  { rewrite Hm. apply elem_of_app. by left. }
  apply list_elem_of_fmap in H as (c & Hc & Hin'). by exists c.
Qed.

(** Merging a status patch with conditions into a status with conditions
    keeps every condition whose type the patch does not name, unchanged and in its
    place, keeps the type of every condition in its place, and leaves a condition
    for each type the patch names. *)
Theorem status_conditions_kept m ps l cs :
  obj_wf m -> obj_wf ps ->
  obj_get "conditions" m = Some (JArray l) -> obj_get "conditions" ps = Some (JArray cs) ->
  exists out, get "conditions" (deep_merge_objects (JObject m) (JObject ps)) = Some (JArray out)
    /\ (forall i c, l !! i = Some c ->
          Forall (fun p => condition_type p = None \/ condition_type p <> condition_type c) cs ->
          out !! i = Some c)
    /\ (exists more, condition_type <$> out = (condition_type <$> l) ++ more)
    /\ (forall p, p ∈ cs -> exists c, c ∈ out /\ condition_type c = condition_type p).
Proof.
  intros Hm Hps Hl Hcs. exists (merge_conditions deep_merge_objects l cs).
  pose proof (obj_wf_get _ _ _ Hm Hl) as Hlw%json_wf_array.
  pose proof (obj_wf_get _ _ _ Hps Hcs) as Hcw%json_wf_array. split_and!.
  - rewrite deep_merge_object. cbn [get]. rewrite obj_get_merge; [apply Hps|apply Hm|]. rewrite Hcs Hl. done.
  - intros i c Hi Hn. by apply merge_conditions_untouched.
  - by apply merge_conditions_prefix.
  - intros p Hp. by apply merge_conditions_present.
Qed.

Lemma status_conditions_kept_witness :
  let ready v := JObject [("status", JString v); ("type", JString "Ready")] in
  let sched := JObject [("type", JString "PodScheduled")] in
  get "conditions"
    (deep_merge_objects (JObject [("conditions", JArray [sched; ready "False"])])
                        (JObject [("conditions", JArray [ready "True"])]))
  ≫= (fun v => match v with JArray l => l !! 0 | _ => None end) = Some sched.
Proof.
  intros ready sched.
  destruct (status_conditions_kept [("conditions", JArray [sched; ready "False"])]
    [("conditions", JArray [ready "True"])] [sched; ready "False"] [ready "True"]) as (out & Hget & Hkeep & _).
  - by repeat constructor.
  - by repeat constructor.
  - reflexivity.
  - reflexivity.
  - rewrite -> Hget. apply (Hkeep 0 sched); [reflexivity|]. constructor; [by right|constructor].
Defined.
