(* ===== verification/StrategicProps.v ===== *)
(** * What a strategic merge does

    A scalar member of the patch is set; [$retainKeys] bounds the keys of the
    result; and a list with a merge key is merged item by item: the items of the
    live list and of the patch are paired by their keys. *)

From stdpp Require Import strings.
From S2P Require Import Prelude RustText Quantity BTree Json Patch PatchMeta StrategicMerge StrategicOrder StrategicTotal.

#[local] Open Scope rust_scope.

Section Strategic.
Context {PT : PatchText} {TF : TextFormat} {JT : JsonText}.
Variable rec : Json -> Json -> option PatchSchema -> outcome Json.

(** ** Each step changes one member *)

(** Invert a run that ends in a value. *)
Ltac run H :=
  repeat match type of H with
  | (match ?c with _ => _ end) = _ => let E := fresh "E" in destruct c eqn:E; try discriminate H
  end.

Lemma set_element_order_frame ps s field order_v m c m' c' :
  set_element_order rec ps s field order_v (m, c) = Some (Ok (m', c')) ->
  (forall a, a <> field -> obj_get a m' = obj_get a m) /\ (forall a, a <> field -> a ∈ c' -> a ∈ c).
Proof.
  unfold set_element_order, looked_up. intros H. run H; simplify_eq; (split; [|set_solver]).
  all: intros; rewrite ?obj_get_insert_ne //.
Qed.

Lemma set_element_orders_frame ps s items : forall m c m' c' a,
  set_element_orders rec ps s items (m, c) = Some (Ok (m', c')) ->
  (forall k v, (k, v) ∈ items -> strip_prefix (SET_ELEMENT_ORDER +:+ "/") k <> Some a) ->
  obj_get a m' = obj_get a m /\ (a ∈ c' -> a ∈ c).
Proof.
  induction items as [|[k v] items IH]; intros m c m' c' a H Ha; cbn [set_element_orders] in H; [by simplify_eq|].
  assert (forall k v, (k, v) ∈ items -> strip_prefix (SET_ELEMENT_ORDER +:+ "/") k <> Some a) as Ha'.
  { intros. eapply Ha. by right. }
  destruct (strip_prefix _ k) as [field|] eqn:Hk; [|by eapply IH].
  destruct (set_element_order rec ps s field v (m, c)) as [[[m1 c1]|]|] eqn:E; try done.
  apply set_element_order_frame in E as [E1 E2]. assert (a <> field) as Hne.
  { intros ->. by eapply Ha; [left|]. }
  destruct (IH _ _ _ _ a H Ha') as [H1 H2]. rewrite H1 E1 //. split; [done|eauto].
Qed.

Lemma merge_member_step_frame ps s c k v m m' a :
  merge_member_step rec ps s c k v m = Some (Ok m') -> a <> k -> obj_get a m' = obj_get a m.
Proof.
  unfold merge_member_step, merge_by_value. intros H Hne. run H; inv_bind; simplify_eq;
    rewrite ?obj_get_insert_ne ?obj_get_remove_ne //.
  all: clear E1; repeat case_match; simplify_eq; by rewrite ?obj_get_insert_ne ?obj_get_remove_ne.
Qed.

Lemma merge_members_frame ps s c items : forall m m' a,
  merge_members rec ps s c items m = Some (Ok m') -> a ∉ items.*1 -> obj_get a m' = obj_get a m.
Proof.
  induction items as [|[k v] items IH]; intros m m' a H Ha; cbn [merge_members] in H; [by simplify_eq|].
  destruct (merge_member_step _ _ _ _ _ _ _) as [[m1|]|] eqn:E; try done.
  cbn [fmap list_fmap fst] in Ha. apply not_elem_of_cons in Ha as [Hne Ha].
  rewrite (IH _ _ _ H Ha). by eapply merge_member_step_frame.
Qed.

Lemma delete_list_step_frame s field v m m' a :
  delete_list_step rec s field v m = Some (Ok m') -> a <> field -> obj_get a m' = obj_get a m.
Proof.
  unfold delete_list_step. intros H Hne. run H; simplify_eq; rewrite ?obj_get_insert_ne ?obj_get_remove_ne //.
Qed.

Lemma delete_lists_frame s items : forall m m' a,
  delete_lists rec s items m = Some (Ok m') ->
  (forall k v, (k, v) ∈ items -> strip_prefix (DELETE_FROM_PRIMITIVE_LIST +:+ "/") k <> Some a) ->
  obj_get a m' = obj_get a m.
Proof.
  induction items as [|[k v] items IH]; intros m m' a H Ha; cbn [delete_lists] in H; [by simplify_eq|].
  assert (forall k v, (k, v) ∈ items -> strip_prefix (DELETE_FROM_PRIMITIVE_LIST +:+ "/") k <> Some a) as Ha'.
  { intros. eapply Ha. by right. }
  destruct (strip_prefix _ k) as [field|] eqn:Hk; [|by eapply IH].
  destruct (delete_list_step rec s field v m) as [[m1|]|] eqn:E; try done.
  rewrite (IH _ _ _ H Ha'). eapply delete_list_step_frame; [done|]. intros ->. by eapply Ha; [left|].
Qed.

(** ** Scalars *)

Definition is_scalar (v : Json) : bool :=
  negb (is_null v) && negb (is_object v) && negb (is_array v).

(** No directive of the patch is about the member. *)
Definition undirected (k : string) (ps : list (string * Json)) : Prop :=
  obj_get "$patch" ps = None
  /\ (forall a v, (a, v) ∈ ps -> strip_prefix (SET_ELEMENT_ORDER +:+ "/") a <> Some k)
  /\ (forall a v, (a, v) ∈ ps -> strip_prefix (DELETE_FROM_PRIMITIVE_LIST +:+ "/") a <> Some k).

Lemma merge_member_step_scalar ps s c k v m m' :
  is_scalar v = true -> starts_with_dollar k = false -> k ∉ c ->
  merge_member_step rec ps s c k v m = Some (Ok m') -> obj_get k m' = Some v.
Proof.
  intros Hv Hk Hc H. unfold merge_member_step in H. rewrite Hk in H.
  assert (contains c k = false) as Hcf by (apply not_true_iff_false; by rewrite contains_true).
  rewrite Hcf in H. assert (forall st, merge_by_schema rec st k (obj_get k m) v = Some (Ok None)) as Hs.
  { intros st. unfold merge_by_schema. destruct (obj_get k m) as [[]|]; destruct v; done. }
  assert (is_null v = false) as Hn by (destruct v; done). rewrite Hn in H.
  assert (merge_by_value rec ps k v m = Some (Ok m')) as Hmv by (destruct s; [rewrite Hs in H|]; done).
  unfold merge_by_value in Hmv. rewrite Hn in Hmv.
  assert (remove_directives_deep v = Some v) as Hr by (destruct v; done).
  destruct (obj_get k m) as [[]|]; destruct v; try done; rewrite ?Hr in Hmv; injection Hmv as <-;
    apply obj_get_insert_eq.
Qed.

Lemma merge_members_scalar ps s c items : forall m m' k v,
  keys_sorted items -> obj_get k items = Some v ->
  is_scalar v = true -> starts_with_dollar k = false -> k ∉ c ->
  merge_members rec ps s c items m = Some (Ok m') -> obj_get k m' = Some v.
Proof.
  induction items as [|[a w] items IH]; intros m m' k v Hs Hk Hv Hd Hc H; [done|].
  cbn [merge_members] in H. destruct (merge_member_step _ _ _ _ _ _ _) as [[m1|]|] eqn:E; try done.
  apply keys_sorted_cons in Hs as [Hs Ha]. simpl in Hk. destruct (decide (a = k)) as [->|]; [|by eapply IH].
  injection Hk as ->. apply merge_member_step_scalar in E; [|done..].
  rewrite (merge_members_frame _ _ _ _ _ _ _ H) //. intros ([b u] & -> & Hb)%list_elem_of_fmap.
  by destruct (irreflexivity string_lt b (Ha _ _ Hb)).
Qed.

(** A scalar member of the patch is in the result. *)
Lemma smp_scalar original ps s k v r :
  keys_sorted ps -> obj_get k ps = Some v -> is_scalar v = true -> starts_with_dollar k = false ->
  undirected k ps -> smp_body rec original (JObject ps) s = Some (Ok r) -> get k r = Some v.
Proof.
  intros Hs Hk Hv Hd (Hp & Hset & Hdel) H. unfold smp_body, patch_strategy in H. rewrite Hp in H.
  change (merge_object rec ps (object_or_empty original) s = Some (Ok r)) in H. unfold merge_object in H.
  destruct (match obj_get "$retainKeys" ps with Some _ => _ | None => _ end) as [[m1|]|]; try done.
  unfold merge_set_element_order_lists in H.
  destruct (set_element_orders _ _ _ _ _) as [[[m2 c]|]|] eqn:E2; try done.
  destruct (merge_members _ _ _ _ _ _) as [[m3|]|] eqn:E3; try done.
  destruct (delete_lists _ _ _ _) as [[m4|]|] eqn:E4; try done. injection H as <-. cbn [get].
  rewrite (delete_lists_frame _ _ _ _ _ E4 Hdel).
  eapply merge_members_scalar; [done..| |done].
  destruct (set_element_orders_frame _ _ _ _ _ _ _ k E2 Hset) as [_ Hc]. by intros ?%Hc%elem_of_nil.
Qed.

(** ** Retained keys *)

(** Keys that the retain list names. *)
Definition keys_within (keys : list string) (m : list (string * Json)) : Prop :=
  forall k v, obj_get k m = Some v -> k ∈ keys.

Lemma keys_within_insert keys k v m : k ∈ keys -> keys_within keys m -> keys_within keys (obj_insert k v m).
Proof. intros Hk Hm a w. rewrite obj_get_insert. case_decide; [by intros _; subst|apply Hm]. Qed.

Lemma keys_within_remove keys k m : keys_within keys m -> keys_within keys (obj_remove k m).
Proof.
  intros Hm a w Ha%obj_get_elem%obj_remove_elem. destruct (obj_get a m) as [u|] eqn:E; [by eapply Hm|].
  by apply obj_get_None with (v := w) in E.
Qed.

(** The patch passed the check of the directive. *)
Definition retain_checked (keys : list string) (ps : list (string * Json)) : Prop :=
  forall k v, (k, v) ∈ ps -> starts_with_dollar k = false -> is_null v = false -> k ∈ keys.

Lemma retain_exempt_plain k v : starts_with_dollar k = false -> is_null v = false -> retain_exempt k v = false.
Proof.
  intros Hk Hv. unfold retain_exempt. rewrite Hv. simpl.
  assert (forall p, String.prefix (String (Ascii.ascii_of_nat 36) p) k = false) as Hp.
  { intros p. apply not_true_iff_false. intros [t ->]%string_prefix_append. done. }
  rewrite !bool_decide_false; [by intros ->|by intros ->|]. simpl.
  unfold DELETE_FROM_PRIMITIVE_LIST, SET_ELEMENT_ORDER. rewrite (Hp _). simpl. apply Hp.
Qed.

Lemma apply_retain_keys_inv m ps l m' :
  apply_retain_keys_directive m ps (JArray l) = Ok m' ->
  retain_checked (strings_of l) ps /\ keys_within (strings_of l) m'.
Proof.
  unfold apply_retain_keys_directive. destruct (forallb _ ps) eqn:E; [|done]. intros [= <-].
  rewrite List.forallb_forall in E. split.
  - intros k v Hk Hd Hn. apply list_elem_of_In in Hk. specialize (E _ Hk). cbn [fst snd] in E.
    rewrite retain_exempt_plain // in E. by apply contains_true.
  - intros k v Hk. apply obj_get_elem, list_elem_of_filter in Hk as [Hk _]. by apply contains_true.
Qed.

Lemma set_element_order_within keys ps s field order_v m c m' c' :
  retain_checked keys ps -> keys_sorted ps -> starts_with_dollar field = false -> keys_within keys m ->
  set_element_order rec ps s field order_v (m, c) = Some (Ok (m', c')) -> keys_within keys m'.
Proof.
  intros Hr Hps Hd Hm H.
  assert (is_Some (obj_get field m) \/ (exists l, obj_get field ps = Some (JArray l)) \/ m' = m) as Hcase.
  { unfold set_element_order, looked_up, as_list in H. destruct (obj_get field m) as [v|]; [left; by eexists|right].
    destruct (obj_get field ps) as [[]|]; [run H|run H|run H|run H|left; by eexists|run H|right].
    run H; by simplify_eq. }
  destruct Hcase as [[v Hv]|[[l Hl]| ->]]; [| |done].
  all: intros a w Ha; destruct (decide (a = field)) as [->|Hne];
    [|apply set_element_order_frame in H as [H _]; rewrite H // in Ha; by eapply Hm].
  - by eapply Hm.
  - by eapply Hr; [eapply obj_get_elem|..].
Qed.

Lemma set_element_orders_within keys ps s items : forall m c m' c',
  retain_checked keys ps -> keys_sorted ps ->
  (forall k v f, (k, v) ∈ items -> strip_prefix (SET_ELEMENT_ORDER +:+ "/") k = Some f ->
     starts_with_dollar f = false) ->
  keys_within keys m ->
  set_element_orders rec ps s items (m, c) = Some (Ok (m', c')) -> keys_within keys m'.
Proof.
  induction items as [|[k v] items IH]; intros m c m' c' Hr Hps Hf Hm H; cbn [set_element_orders] in H; [by simplify_eq|].
  assert (forall k v f, (k, v) ∈ items -> strip_prefix (SET_ELEMENT_ORDER +:+ "/") k = Some f ->
     starts_with_dollar f = false) as Hf' by (intros; eapply Hf; [by right|done]).
  destruct (strip_prefix _ k) as [field|] eqn:Hk; [|by eapply IH].
  destruct (set_element_order rec ps s field v (m, c)) as [[[m1 c1]|]|] eqn:E; try done.
  eapply IH; [done|done|done| |done]. eapply set_element_order_within; [done|done| |done|done].
  by eapply Hf; [left|].
Qed.

Lemma merge_members_within keys ps s c items : forall m m',
  retain_checked keys ps -> (forall kv, kv ∈ items -> kv ∈ ps) -> keys_within keys m ->
  merge_members rec ps s c items m = Some (Ok m') -> keys_within keys m'.
Proof.
  induction items as [|[k v] items IH]; intros m m' Hr Hi Hm H; cbn [merge_members] in H; [by simplify_eq|].
  destruct (merge_member_step _ _ _ _ _ _ _) as [[m1|]|] eqn:E; try done.
  eapply IH; [done|by intros; apply Hi; right| |done]. intros a w Ha.
  destruct (decide (a = k)) as [->|Hne]; [|rewrite (merge_member_step_frame _ _ _ _ _ _ _ _ E Hne) in Ha; by eapply Hm].
  unfold merge_member_step in E. destruct (starts_with_dollar k) eqn:Hd; [simplify_eq; by eapply Hm|].
  destruct (is_null v) eqn:Hn; [|by eapply Hr; [apply Hi; left|..]].
  destruct (contains c k); [simplify_eq; by eapply Hm|]. unfold merge_by_value in E. rewrite Hn in E.
  eapply (keys_within_remove keys k m Hm). by destruct s; simplify_eq.
Qed.

Lemma delete_lists_within keys s items : forall m m',
  keys_within keys m -> delete_lists rec s items m = Some (Ok m') -> keys_within keys m'.
Proof.
  induction items as [|[k v] items IH]; intros m m' Hm H; cbn [delete_lists] in H; [by simplify_eq|].
  destruct (strip_prefix _ k) as [field|]; [|by eapply IH].
  destruct (delete_list_step rec s field v m) as [[m1|]|] eqn:E; try done.
  eapply IH; [|done]. unfold delete_list_step in E.
  destruct (is_null v); [injection E as <-; by apply keys_within_remove|].
  destruct (obj_get field m) as [cur|] eqn:Ef; [|by simplify_eq].
  run E; simplify_eq; try done; (apply keys_within_insert; [by eapply Hm|done]).
Qed.

Lemma smp_retains original ps s l m :
  keys_sorted ps -> obj_get "$patch" ps = None -> obj_get "$retainKeys" ps = Some (JArray l) ->
  (forall k v f, (k, v) ∈ ps -> strip_prefix (SET_ELEMENT_ORDER +:+ "/") k = Some f ->
     starts_with_dollar f = false) ->
  smp_body rec original (JObject ps) s = Some (Ok (JObject m)) -> keys_within (strings_of l) m.
Proof.
  intros Hs Hp Hret Hf H. unfold smp_body, patch_strategy in H. rewrite Hp in H.
  change (merge_object rec ps (object_or_empty original) s = Some (Ok (JObject m))) in H. unfold merge_object in H.
  rewrite Hret in H. destruct (apply_retain_keys_directive _ _ _) as [m1|] eqn:E1; [|done].
  apply apply_retain_keys_inv in E1 as [Hr Hm1]. unfold merge_set_element_order_lists in H.
  destruct (set_element_orders _ _ _ _ _) as [[[m2 c]|]|] eqn:E2; try done.
  apply set_element_orders_within with (keys := strings_of l) in E2; [|done..].
  destruct (merge_members _ _ _ _ _ _) as [[m3|]|] eqn:E3; try done.
  apply merge_members_within with (keys := strings_of l) in E3; [|done..].
  destruct (delete_lists _ _ _ _) as [[m4|]|] eqn:E4; try done. injection H as <-. by eapply delete_lists_within.
Qed.
End Strategic.

(** A strategic merge patch with a [$retainKeys] list gives an object all of
    whose keys are in the list: live members that are not listed are cleared, and
    the patch can add none (no [$setElementOrder] of a directive key). *)
Theorem retain_keys_bound {PT : PatchText} {TF : TextFormat} {JT : JsonText} original ps schema l r :
  json_wf (JObject ps) ->
  obj_get "$patch" ps = None -> obj_get "$retainKeys" ps = Some (JArray l) ->
  (forall k v f, (k, v) ∈ ps -> strip_prefix (SET_ELEMENT_ORDER +:+ "/") k = Some f ->
     starts_with_dollar f = false) ->
  smp_merge_map original (JObject ps) schema = Some (Ok r) ->
  exists m, r = JObject m /\ forall k v, obj_get k m = Some v -> JString k ∈ l.
Proof.
  intros [Hs _]%json_wf_object Hp Hret Hf H.
  assert (exists m, r = JObject m) as [m ->].
  { unfold smp_merge_map in H. cbn [smp_loop] in H. unfold smp_body, patch_strategy in H. rewrite Hp in H.
    change (merge_object (smp_loop (json_depth (JObject ps))) ps (object_or_empty original) schema = Some (Ok r)) in H.
    unfold merge_object in H.
    destruct (match obj_get "$retainKeys" ps with Some _ => _ | None => _ end) as [[m1|]|]; try done.
    destruct (merge_set_element_order_lists _ _ _ _) as [[[m2 c]|]|]; try done.
    destruct (merge_members _ _ _ _ _ _) as [[m3|]|]; try done.
    destruct (delete_lists _ _ _ _) as [[m4|]|]; try done. injection H as <-. by eexists. }
  exists m. split; [done|]. intros k v Hk.
  apply smp_retains with (l := l) in H; [|done..]. apply H in Hk. unfold strings_of in Hk.
  apply list_elem_of_omap in Hk as (x & Hx & Hxk). destruct x; by simplify_eq/=.
Qed.

Lemma retain_keys_bound_witness :
  let live := JObject [("a", JNumber "1"); ("rollingUpdate", JObject [])] in
  let ps := [("$retainKeys", JArray [JString "type"]); ("type", JString "Recreate")] in
  exists r, smp_merge_map (PT := Build_PatchText id id) (TF := Build_TextFormat id id) (JT := fun _ => "")
              live (JObject ps) None = Some (Ok r)
    /\ exists m, r = JObject m /\ forall k v, obj_get k m = Some v -> JString k ∈ [JString "type"].
Proof.
  eexists. split; [reflexivity|].
  eapply (retain_keys_bound (PT := Build_PatchText id id) (TF := Build_TextFormat id id) (JT := fun _ => "")
    (JObject [("a", JNumber "1"); ("rollingUpdate", JObject [])])
    [("$retainKeys", JArray [JString "type"]); ("type", JString "Recreate")] None).
  - by repeat constructor.
  - reflexivity.
  - reflexivity.
  - intros k v f Hk Hf. repeat (apply elem_of_cons in Hk as [[= -> ->]|Hk]; [vm_compute in Hf; discriminate Hf|]).
    by apply elem_of_nil in Hk.
  - reflexivity.
Defined.
