(* ===== verification/StrategicLists.v ===== *)
(** * Merging lists by their key

    [merge_slice] on a list of maps with a merge key: the items of the live list
    and of the patch are paired by the value of the key. *)

From stdpp Require Import strings.
From S2P Require Import Prelude RustText Quantity BTree Json Patch PatchMeta StrategicMerge StrategicOrder StrategicTotal StrategicProps.

#[local] Open Scope rust_scope.

(** ** Keys *)

(** A value that can be a merge key: a string, a boolean or an integer. *)
Definition key_value (v : Json) : bool :=
  match v with JString _ | JBool _ => true | JNumber t => is_integer t | _ => false end.

Lemma value_eqb_key k w : key_value k = true -> value_eqb k w = true <-> k = w.
Proof.
  intros Hk. unfold value_eqb. rewrite json_eqb_eq. split; [|by intros ->].
  destruct k as [|b|t|s|l|m]; try done; cbn [fold_zero].
  - destruct w as [|b'|t'|s'|l'|m']; cbn [fold_zero]; try done. by case_decide.
  - cbn [key_value] in Hk. rewrite decide_False; [by intros ->|].
    destruct w as [|b'|t'|s'|l'|m']; cbn [fold_zero]; try done. case_decide; [|done]. by intros [= ->].
  - destruct w as [|b'|t'|s'|l'|m']; cbn [fold_zero]; try done. by case_decide.
Qed.

Section Lists.
Context {PT : PatchText} {TF : TextFormat} {JT : JsonText}.
Variable mk : string.

(** A map with a usable merge key. *)
Definition keyed (v : Json) : Prop :=
  is_object v = true /\ exists k, get mk v = Some k /\ key_value k = true.

Definition keys (l : list Json) : list (option Json) := get mk <$> l.

Lemma keyed_get v : keyed v -> exists m k, v = JObject m /\ obj_get mk m = Some k /\ key_value k = true.
Proof. intros [Ho (k & Hk & Hv)]. destruct v; try done. eauto. Qed.

Lemma elem_keys l v : v ∈ l -> get mk v ∈ keys l.
Proof. apply list_elem_of_fmap_2. Qed.

(** Items with distinct keys are equal when their keys are. *)
Lemma keys_inj l v w : NoDup (keys l) -> v ∈ l -> w ∈ l -> get mk v = get mk w -> v = w.
Proof.
  unfold keys. induction l as [|x l IH]; intros Hnd Hv Hw Heq; [by apply elem_of_nil in Hv|].
  apply NoDup_cons in Hnd as [Hx Hnd]. apply elem_of_cons in Hv as [->|Hv], Hw as [->|Hw]; [done| | |auto].
  - rewrite Heq in Hx. by destruct Hx; apply elem_keys.
  - rewrite -Heq in Hx. by destruct Hx; apply elem_keys.
Qed.

Lemma find_map_from_spec k l : key_value k = true -> Forall keyed l -> forall i,
  (exists j v, find_map_from i l mk k = Ok (Some (i + j)) /\ l !! j = Some v /\ get mk v = Some k)
  \/ (find_map_from i l mk k = Ok None /\ Some k ∉ keys l).
Proof.
  intros Hk. induction 1 as [|v l Hv Hl IH]; intros i; [right; split; [done|]; by intros ?%elem_of_nil|].
  destruct (keyed_get v Hv) as (m & c & -> & Hc & _). cbn [find_map_from]. rewrite Hc. cbn [from_option].
  destruct (value_eqb k c) eqn:E.
  - apply value_eqb_key in E; [|done]. subst c. left. exists 0, (JObject m). by rewrite Nat.add_0_r.
  - destruct (IH (S i)) as [(j & w & Hf & Hj & Hw)|[Hf Hn]].
    + left. exists (S j), w. rewrite Hf. by replace (S i + j) with (i + S j) by lia.
    + right. split; [done|]. intros [Heq|]%elem_of_cons; [|done]. cbn [get] in Heq.
      rewrite Hc in Heq. injection Heq as <-. by rewrite (proj2 (value_eqb_key k k Hk) eq_refl) in E.
Qed.

Lemma find_map_spec k l :
  key_value k = true -> Forall keyed l ->
  (exists j v, find_map_in_slice l mk k = Ok (Some j) /\ l !! j = Some v /\ get mk v = Some k)
  \/ (find_map_in_slice l mk k = Ok None /\ Some k ∉ keys l).
Proof. intros Hk Hl. apply (find_map_from_spec k l Hk Hl 0). Qed.

(** ** Deletes *)

Lemma vec_remove_perm {A} (l : list A) j v : l !! j = Some v -> l ≡ₚ v :: vec_remove l j.
Proof. intros Hj. unfold vec_remove. rewrite -delete_take_drop. by apply delete_Permutation. Qed.

(** The items but those with the key. *)
Definition without (k : Json) (l l' : list Json) : Prop :=
  NoDup (keys l') /\ Forall keyed l' /\ forall v, v ∈ l' <-> v ∈ l /\ get mk v <> Some k.

Lemma delete_matching_spec k l fuel :
  key_value k = true -> Forall keyed l -> NoDup (keys l) -> length l < fuel ->
  exists l', delete_matching fuel l mk k = Some (Ok l') /\ without k l l'.
Proof.
  intros Hk Hl Hnd Hf. destruct fuel as [|fuel]; [lia|]. cbn [delete_matching].
  assert (forall l, Forall keyed l -> Some k ∉ keys l -> forall n, delete_matching (S n) l mk k = Some (Ok l)) as Hstop.
  { intros l0 Hl0 Hn n. cbn [delete_matching]. destruct (find_map_spec k l0 Hk Hl0) as [(j & v & _ & Hj & Hv)|[-> _]]; [|done].
    destruct Hn. rewrite -Hv. apply elem_keys. by eapply list_elem_of_lookup_2. }
  destruct (find_map_spec k l Hk Hl) as [(j & v & -> & Hj & Hv)|[-> Hn]].
  - pose proof (vec_remove_perm l j v Hj) as Hperm. set (l' := vec_remove l j) in *. clearbody l'.
    assert (keys l ≡ₚ get mk v :: keys l') as Hkeys by (unfold keys; by rewrite Hperm).
    rewrite Hkeys in Hnd. apply NoDup_cons in Hnd as [Hvn Hnd]. rewrite Hperm in Hl. apply Forall_cons in Hl as [_ Hl].
    exists l'. destruct fuel as [|fuel]; [rewrite Hperm in Hf; simpl in Hf; lia|].
    split; [apply Hstop; [done|by rewrite -Hv]|]. split_and!; [done|done|]. intros w. rewrite Hperm elem_of_cons. split.
    + intros Hw. split; [by right|]. intros Hwk. destruct Hvn. rewrite Hv -Hwk. by apply elem_keys.
    + intros [[->|Hw] Hne]; [by destruct Hne|done].
  - exists l. split; [done|]. split_and!; [done|done|]. intros w. split; [|by intros []].
    intros Hw. split; [done|]. intros Hwk. destruct Hn. rewrite -Hwk. by apply elem_keys.
Qed.

(** A patch item that is merged, and one that deletes. *)
Definition plain_item (v : Json) : Prop := keyed v /\ get "$patch" v = None.
Definition delete_item (v : Json) : Prop := keyed v /\ get "$patch" v = Some (JString "delete").

#[local] Instance plain_dec v : Decision (get "$patch" v = None).
Proof. apply _. Defined.

Definition plain_items (patch : list Json) : list Json := filter (fun v => get "$patch" v = None) patch.
Definition deleted (patch : list Json) : list (option Json) :=
  keys (filter (fun v => get "$patch" v <> None) patch).

Lemma special_elements_spec patch : forall l plain,
  Forall (fun v => plain_item v \/ delete_item v) patch -> Forall keyed l -> NoDup (keys l) ->
  exists l', special_elements mk l plain false patch = Some (Ok (l', plain ++ plain_items patch))
    /\ NoDup (keys l') /\ Forall keyed l'
    /\ forall v, v ∈ l' <-> v ∈ l /\ get mk v ∉ deleted patch.
Proof.
  unfold plain_items, deleted. induction patch as [|v patch IH]; intros l plain Hp Hl Hnd.
  { exists l. rewrite app_nil_r. split_and!; [done..|]. intros v. split; [|by intros []].
    intros Hv. split; [done|]. by intros ?%elem_of_nil. }
  apply Forall_cons in Hp as [Hv Hp]. cbn [special_elements].
  assert (keyed v) as Hkv by by destruct Hv as [[]|[]].
  destruct (keyed_get v Hkv) as (m & k & -> & Hk & Hkk). rewrite !filter_cons.
  destruct Hv as [[_ Hd]|[_ Hd]]; pose proof Hd as Hd'; cbn [get] in Hd'; rewrite Hd'.
  - rewrite decide_True // decide_False; [naive_solver|].
    destruct (IH l (plain ++ [JObject m]) Hp Hl Hnd) as (l' & -> & Hl'). exists l'.
    by rewrite -app_assoc.
  - rewrite decide_False; [by rewrite Hd|]. rewrite decide_True; [by rewrite Hd|].
    destruct (decide ("delete" = "delete")) as [_|]; [|done]. rewrite Hk.
    destruct (delete_matching_spec k l (S (length l)) Hkk Hl Hnd) as (l1 & -> & Hnd1 & Hl1 & Hin1); [lia|].
    destruct (IH l1 plain Hp Hl1 Hnd1) as (l' & -> & Hnd' & Hl' & Hin'). exists l'. split_and!; [done..|].
    intros w. rewrite Hin' Hin1. unfold keys. rewrite fmap_cons not_elem_of_cons. cbn [get]. rewrite Hk. naive_solver.
Qed.

(** ** Merging what is left *)

(** A plain item none of whose own directives is about the merge key. *)
Definition mergeable (v : Json) : Prop :=
  plain_item v /\ json_wf v /\ undirected mk (object_or_empty v).

Hypothesis mk_plain : starts_with_dollar mk = false.

Lemma key_value_scalar k : key_value k = true -> is_scalar k = true.
Proof. by destruct k. Qed.

(** A merged item has the key of the two items it is merged from. *)
Lemma merged_keeps_key n o p s x :
  mergeable p -> smp_loop n o p s = Some (Ok x) -> keyed x /\ get mk x = get mk p.
Proof.
  intros ([Hkp _] & Hwf & Hu) H. destruct n as [|n]; [done|]. cbn [smp_loop] in H.
  destruct (keyed_get p Hkp) as (ps & k & -> & Hk & Hkk). apply json_wf_object in Hwf as [Hs _].
  apply (smp_scalar _ _ _ _ mk k) in H; [|done|done|by apply key_value_scalar|done|done].
  cbn [get]. rewrite H Hk. split; [|done]. split; [by destruct x|]. eauto.
Qed.

(** The merged list: untouched live items, new patch items, and pairs merged. *)
Definition merges (n : nat) (s : option PatchSchema) (live patch : list Json) (x : Json) : Prop :=
  (x ∈ live /\ get mk x ∉ keys patch)
  \/ (x ∈ patch /\ get mk x ∉ keys live)
  \/ exists o p, o ∈ live /\ p ∈ patch /\ get mk o = get mk p /\ smp_loop n o p s = Some (Ok x).

Lemma merges_found n s l j o p x ps y :
  NoDup (keys l) -> l !! j = Some o -> get mk o = get mk p -> get mk x = get mk p ->
  smp_loop n o p s = Some (Ok x) -> get mk p ∉ keys ps ->
  merges n s (<[j := x]> l) ps y <-> merges n s l (p :: ps) y.
Proof.
  intros Hnd Hj Hop Hxp Hrec Hps.
  pose proof (list_elem_of_lookup_2 _ _ _ Hj) as Ho.
  assert (keys (<[j := x]> l) = keys l) as Hkeys.
  { unfold keys. rewrite list_fmap_insert. apply list_insert_id. by rewrite list_lookup_fmap Hj /= Hop Hxp. }
  assert (forall z, z ∈ <[j := x]> l <-> z = x \/ (z ∈ l /\ get mk z <> get mk p)) as Hin.
  { intros z. rewrite (list_elem_of_lookup (<[j := x]> l)). split.
    - intros [i Hi]. apply list_lookup_insert_Some in Hi as [(-> & -> & _)|[Hne Hi]]; [by left|right].
      split; [by eapply list_elem_of_lookup_2|]. intros Hz. destruct Hne.
      eapply (NoDup_lookup (keys l)); [done|by rewrite list_lookup_fmap Hj|]. by rewrite list_lookup_fmap Hi /= Hz Hop.
    - intros [->|[Hz Hne]]; [exists j; apply list_lookup_insert_eq; by eapply lookup_lt_Some|].
      apply list_elem_of_lookup in Hz as [i Hi]. exists i. rewrite list_lookup_insert_ne //.
      intros ->. rewrite Hj in Hi. injection Hi as ->. by destruct Hne. }
  assert (get mk p ∈ keys l) as Hpl by (rewrite -Hop; by apply elem_keys).
  unfold merges. rewrite Hkeys. unfold keys at 3. rewrite fmap_cons. fold (keys ps).
  setoid_rewrite Hin. setoid_rewrite elem_of_cons. split.
  - intros [[[->|[Hy Hne]] Hk]|[[Hy Hk]|(o' & p' & [->|[Ho' Hne]] & Hp' & Heq & Hr)]].
    + right; right. exists o, p. auto.
    + left. split; [done|]. by intros [|].
    + right; left. auto.
    + destruct Hps. rewrite -Hxp Heq. by apply elem_keys.
    + right; right. exists o', p'. auto.
  - intros [[Hy Hk]|[[[->|Hy] Hk]|(o' & p' & Ho' & [->|Hp'] & Heq & Hr)]].
    + left. split; [right|]; naive_solver.
    + done.
    + right; left. auto.
    + left. assert (o' = o) as -> by (eapply keys_inj; [done..|congruence]). simplify_eq. split; [by left|].
      by rewrite Hxp.
    + right; right. exists o', p'. split_and!; [|done..]. right. split; [done|]. rewrite Heq. intros Hpp.
      destruct Hps. rewrite -Hpp. by apply elem_keys.
Qed.

Lemma merges_new n s l p ps y :
  get mk p ∉ keys l -> get mk p ∉ keys ps ->
  merges n s (l ++ [p]) ps y <-> merges n s l (p :: ps) y.
Proof.
  intros Hl Hps. unfold merges, keys. rewrite fmap_app fmap_cons. cbn [fmap list_fmap].
  fold (keys l). fold (keys ps). setoid_rewrite elem_of_app. setoid_rewrite elem_of_cons.
  setoid_rewrite elem_of_nil. split.
  - intros [[[Hy|[->|[]]] Hk]|[[Hy Hk]|(o' & p' & [Ho'|[->|[]]] & Hp' & Heq & Hr)]].
    + left. split; [done|]. intros [Heq|]; [|done]. destruct Hl. rewrite -Heq. by apply elem_keys.
    + right; left. auto.
    + right; left. split; [by right|]. tauto.
    + right; right. exists o', p'. auto.
    + destruct Hps. rewrite Heq. by apply elem_keys.
  - intros [[Hy Hk]|[[[->|Hy] Hk]|(o' & p' & Ho' & [->|Hp'] & Heq & Hr)]].
    + left. split; [by left|]. tauto.
    + left. split; [right; by left|done].
    + right; left. split; [done|]. intros [|[Heq|[]]]; [done|]. destruct Hps. rewrite -Heq. by apply elem_keys.
    + destruct Hl. rewrite -Heq. by apply elem_keys.
    + right; right. exists o', p'. auto.
Qed.

Lemma merge_without_spec n s ps : forall l out,
  Forall mergeable ps -> NoDup (keys ps) -> Forall keyed l -> NoDup (keys l) ->
  merge_slice_without_special_elements (smp_loop n) l ps mk s = Some (Ok out) ->
  NoDup (keys out) /\ Forall keyed out /\ forall x, x ∈ out <-> merges n s l ps x.
Proof.
  induction ps as [|p ps IH]; intros l out Hps Hnp Hl Hnl H; cbn [merge_slice_without_special_elements] in H.
  { injection H as <-. split_and!; [done|done|]. intros x. unfold merges. split.
    - intros Hx. left. split; [done|]. by intros ?%elem_of_nil.
    - intros [[Hx _]|[[[]%elem_of_nil _]|(o & p & _ & []%elem_of_nil & _)]]. done. }
  apply Forall_cons in Hps as [Hp Hps]. apply NoDup_cons in Hnp as [Hpn Hnp]. fold (keys ps) in Hpn, Hnp.
  pose proof Hp as ([Hkp _] & _ & _). destruct (keyed_get p Hkp) as (m & k & -> & Hk & Hkk). rewrite Hk in H.
  destruct (find_map_spec k l Hkk Hl) as [(j & o & Hf & Hj & Ho)|[Hf Hn]]; rewrite Hf in H.
  - rewrite Hj in H. destruct (smp_loop n o (JObject m) s) as [[x|]|] eqn:E; try done.
    destruct (merged_keeps_key _ _ _ _ _ Hp E) as [Hkx Hgx].
    apply IH in H as (Hn1 & Hk1 & Hin); [|done|done|by apply Forall_insert|].
    + split_and!; [done|done|]. intros y. rewrite Hin. eapply merges_found; [done|done| |done|done|done].
      cbn [get]. by rewrite Ho Hk.
    + unfold keys. rewrite list_fmap_insert list_insert_id //. rewrite list_lookup_fmap Hj /= Ho Hgx /=. by rewrite Hk.
  - assert (get mk (JObject m) ∉ keys l) as Hnl' by (cbn [get]; by rewrite Hk).
    apply IH in H as (Hn1 & Hk1 & Hin); [|done|done| |].
    + split_and!; [done|done|]. intros y. rewrite Hin. by apply merges_new.
    + apply Forall_app. split; [done|]. by constructor.
    + unfold keys. rewrite fmap_app. apply NoDup_app. split_and!; [done| |apply NoDup_singleton].
      intros z Hz ->%list_elem_of_singleton. done.
Qed.
End Lists.

(** ** The whole list merge *)

Lemma elem_of_keys mk l z : z ∈ keys mk l <-> exists v, v ∈ l /\ z = get mk v.
Proof. unfold keys. rewrite list_elem_of_fmap. naive_solver. Qed.

Lemma merges_ext {PT : PatchText} {TF : TextFormat} {JT : JsonText} mk n s l l' ps x :
  (forall v, v ∈ l <-> v ∈ l') -> merges mk n s l ps x <-> merges mk n s l' ps x.
Proof.
  intros Hl. assert (forall z, z ∈ keys mk l <-> z ∈ keys mk l') as Hk.
  { intros z. rewrite !elem_of_keys. by setoid_rewrite Hl. }
  unfold merges. rewrite Hl Hk. by setoid_rewrite Hl.
Qed.

Lemma keyed_slices {PT : PatchText} slices v b :
  v ∈ concat slices -> is_object v = true -> slice_elements_are_maps slices = Ok b -> b = true.
Proof.
  intros Hv Ho H. unfold slice_elements_are_maps in H. destruct (element_types _ _ _) as [t|] eqn:E; [|done].
  apply element_types_inv in E as [_ E]. apply E in Hv as ->. destruct v; try done. by injection H as <-.
Qed.

(** The live items that no delete directive of the patch names. *)
Definition kept (mk : string) (patch live : list Json) : list Json :=
  filter (fun v => get mk v ∉ deleted mk patch) live.

(** C20: a list of maps with distinct merge keys, merged with a patch of items
    with distinct keys and of [$patch: delete] items, has distinct keys again and
    exactly these items: the live ones that the patch neither deletes nor names,
    the patch's own where the live list (without the deleted items) has no such
    key, and for every key in both the strategic merge of the two items. *)
Theorem merge_slice_by_key {PT : PatchText} {TF : TextFormat} {JT : JsonText} mk fuel live patch schema out :
  starts_with_dollar mk = false ->
  Forall (keyed mk) live -> NoDup (keys mk live) ->
  Forall (fun v => mergeable mk v \/ delete_item mk v) patch -> NoDup (keys mk (plain_items patch)) ->
  merge_slice (smp_loop fuel) live patch schema mk = Some (Ok out) ->
  NoDup (keys mk out)
  /\ forall x, x ∈ out <-> merges mk fuel schema (kept mk patch live) (plain_items patch) x.
Proof.
  intros Hmk Hl Hnl Hp Hnp H. unfold merge_slice in H. case_decide as Hempty.
  { destruct Hempty as [-> ->]. injection H as <-. split; [constructor|]. intros x. unfold merges. split.
    - by intros ?%elem_of_nil.
    - by intros [[?%elem_of_nil _]|[[?%elem_of_nil _]|(o & p & ?%elem_of_nil & _)]]. }
  destruct (slice_elements_are_maps [live; patch]) as [b|] eqn:Eb; [|done].
  assert (b = true) as ->.
  { assert (Forall (fun v => is_object v = true) (concat [live; patch])) as Hobj.
    { cbn [concat]. rewrite app_nil_r. apply Forall_app. split; [eapply Forall_impl; [exact Hl|by intros v []]|].
      eapply Forall_impl; [done|]. by intros v [[[[] _] _]|[[] _]]. }
    destruct (concat [live; patch]) as [|v rest] eqn:Ec.
    - cbn [concat] in Ec. rewrite app_nil_r in Ec. apply app_nil in Ec. done.
    - apply Forall_cons in Hobj as [Hv _]. eapply keyed_slices; [|done|done]. rewrite Ec. left. }
  case_decide; [done|]. unfold merge_slice_with_special_elements in H.
  destruct (special_elements_spec mk patch live []) as (l' & Hs & Hnl' & Hl' & Hin); [|done|done|].
  { eapply Forall_impl; [done|]. intros v [[Hpl _]|Hd]; auto. }
  rewrite Hs app_nil_l in H.
  destruct (merge_slice_without_special_elements _ _ _ _ _) as [[merged|]|] eqn:Em; try done.
  assert (Forall (mergeable mk) (plain_items patch)) as Hplain.
  { apply Forall_forall. intros v [Hv Hvp]%list_elem_of_filter. rewrite -> Forall_forall in Hp.
    destruct (Hp _ Hvp) as [|[_ Hd]]; [done|]. by rewrite Hd in Hv. }
  apply merge_without_spec in Em as (Hn1 & Hk1 & Hin1); [|done..].
  injection H as H. apply normalize_order_perm in H. split; [unfold keys; by rewrite H|].
  intros x. rewrite H Hin1. apply merges_ext. intros v. rewrite Hin. unfold kept.
  rewrite list_elem_of_filter. tauto.
Qed.

Lemma merge_slice_by_key_witness :
  let c name image := JObject [("image", JString image); ("name", JString name)] in
  let del name := JObject [("$patch", JString "delete"); ("name", JString name)] in
  exists out,
    merge_slice (PT := Build_PatchText id id) (JT := fun v => default "" (as_str v))
      (smp_loop (PT := Build_PatchText id id) (TF := Build_TextFormat id id) (JT := fun v => default "" (as_str v)) 3)
      [c "a" "1"; c "b" "1"] [c "b" "2"; del "a"] None "name" = Some (Ok out)
    /\ NoDup (keys "name" out).
Proof.
  intros c del. eexists. split; [reflexivity|].
  refine (proj1 (merge_slice_by_key (PT := Build_PatchText id id) (TF := Build_TextFormat id id)
    (JT := fun v => default "" (as_str v)) "name" 3 [c "a" "1"; c "b" "1"] [c "b" "2"; del "a"] None _
    _ _ _ _ _ _)).
  - reflexivity.
  - repeat constructor; eexists; split; reflexivity.
  - apply (bool_decide_unpack _). vm_compute. exact I.
  - constructor; [|constructor; [|constructor]].
    + left. split_and!; [split; [split; [reflexivity|eexists; split; reflexivity]|reflexivity]|by repeat constructor|].
      split; [reflexivity|]. split; intros a v Ha.
      all: repeat (apply elem_of_cons in Ha as [[= -> ->]|Ha]; [by vm_compute|]); by apply elem_of_nil in Ha.
    + right. split; [split; [reflexivity|eexists; split; reflexivity]|reflexivity].
  - apply (bool_decide_unpack _). vm_compute. exact I.
  - reflexivity.
Defined.

(** A pod's containers are merged by name under the kind's metadata. *)
Example containers_by_name :
  let table : EmbeddedDefs := defs_from_json (JObject
    [("defs", JObject [("Container", JObject []);
                       ("Pod", JObject [("spec", JArray [JString "S:Spec"; JString ""; JString ""])]);
                       ("Spec", JObject [("containers",
                          JArray [JString "L:S:Container"; JString "merge"; JString "name"])])]);
     ("gvk", JObject [("/v1/Pod", JString "Pod")])]) in
  let pod l := JObject [("apiVersion", JString "v1"); ("kind", JString "Pod");
                        ("spec", JObject [("containers", JArray l)])] in
  let c name image := JObject [("image", JString image); ("name", JString name)] in
  apply_patch (PT := Build_PatchText id id) (TF := Build_TextFormat id id) (JT := fun v => default "" (as_str v))
    (PD := fun _ => Err "") (pod [c "a" "1"; c "b" "1"])
    (JObject [("spec", JObject [("containers", JArray [c "b" "2"; c "new" "1"])])]) StrategicMergePatch
  = Some (Ok (pod [c "a" "1"; c "b" "2"; c "new" "1"])).
Proof. vm_compute. reflexivity. Qed.
