(* ===== verification/FieldSet.v ===== *)
(** * Field sets

    Model of [Set] of [crates/common/src/fieldmanager/fieldset.rs]: the field
    paths a manager owns, as a trie.  A node says whether the path that ends at it
    is a member, and has its children in a [BTreeMap].  The matchers and filters
    of the reset fields are here too.

    A loop that goes over a [BTreeMap] in its order and inserts into a new map is
    a list of members in that order. *)

From stdpp Require Import strings pretty sorting.
From Stdlib Require String.
From S2P Require Import Prelude RustText BTree Json.

#[local] Set Warnings "-register-all".

Inductive FieldSet := mkSet { set_member : bool; set_children : list (string * FieldSet) }.

(** [Set::new()]. *)
Definition set_new : FieldSet := mkSet false [].

Definition set_is_empty (s : FieldSet) : bool := negb (set_member s) && bool_decide (set_children s = []).

(** [set.insert(path)]. *)
Fixpoint set_insert (path : list string) (s : FieldSet) : FieldSet :=
  match path with
  | [] => mkSet true (set_children s)
  | element :: path =>
      mkSet (set_member s)
        (obj_insert element (set_insert path (default set_new (obj_get element (set_children s)))) (set_children s))
  end.

(** [set.has(path)]. *)
Fixpoint set_has (path : list string) (s : FieldSet) : bool :=
  match path with
  | [] => set_member s
  | element :: path =>
      match obj_get element (set_children s) with Some child => set_has path child | None => false end
  end.

Fixpoint set_union (self other : FieldSet) {struct other} : FieldSet :=
  mkSet (set_member self || set_member other)
    ((fix go vs out :=
        match vs with
        | [] => out
        | (k, v) :: vs =>
            go vs (obj_insert k (match obj_get k out with Some mine => set_union mine v | None => v end) out)
        end) (set_children other) (set_children self)).

(** [if !child.is_empty() { out.children.insert(k, child) }]. *)
Definition keep (k : string) (child : FieldSet) (out : list (string * FieldSet)) : list (string * FieldSet) :=
  if set_is_empty child then out else (k, child) :: out.

Fixpoint set_difference (self other : FieldSet) {struct self} : FieldSet :=
  mkSet (set_member self && negb (set_member other))
    ((fix go vs :=
        match vs with
        | [] => []
        | (k, v) :: vs =>
            keep k (match obj_get k (set_children other) with Some o => set_difference v o | None => v end) (go vs)
        end) (set_children self)).

Fixpoint set_recursive_difference (self other : FieldSet) {struct self} : FieldSet :=
  mkSet (set_member self && negb (set_member other))
    ((fix go vs :=
        match vs with
        | [] => []
        | (k, v) :: vs =>
            keep k
              (match obj_get k (set_children other) with
               | Some o => if set_member o then set_new else set_recursive_difference v o
               | None => v
               end) (go vs)
        end) (set_children self)).

Fixpoint set_intersection (self other : FieldSet) {struct self} : FieldSet :=
  mkSet (set_member self && set_member other)
    ((fix go vs :=
        match vs with
        | [] => []
        | (k, v) :: vs =>
            match obj_get k (set_children other) with
            | Some o => keep k (set_intersection v o) (go vs)
            | None => go vs
            end
        end) (set_children self)).

(** [set.members()]: every member path, in order. *)
Fixpoint set_members (s : FieldSet) : list (list string) :=
  (if set_member s then [[]] else [])
  ++ (fix go vs :=
        match vs with
        | [] => []
        | (k, v) :: vs => map (cons k) (set_members v) ++ go vs
        end) (set_children s).

(** ** The [FieldsV1] encoding *)

Fixpoint to_fields_v1 (s : FieldSet) : Json :=
  JObject
    ((fix go vs (out : list (string * Json)) :=
        match vs with
        | [] => out
        | (k, v) :: vs => go vs (obj_insert k (to_fields_v1 v) out)
        end) (set_children s)
       (if set_member s && negb (bool_decide (set_children s = [])) then [(".", JObject [])] else [])).

(** [k.starts_with("f:") || ...]. *)
Definition is_path_element (k : string) : bool :=
  String.prefix "f:" k || String.prefix "k:" k || String.prefix "v:" k || String.prefix "i:" k.

(** The loop of [from_fields_v1] over the members of an object. *)
Definition read_members (rec : Json -> option FieldSet) :=
  fix go (obj : list (string * Json)) (set : FieldSet) : option FieldSet :=
    match obj with
    | [] => Some set
    | (k, v) :: obj =>
        if decide (k = ".") then go obj (mkSet true (set_children set))
        else if negb (is_path_element k) then None
        else
          match rec v with
          | Some child => go obj (mkSet (set_member set) (obj_insert k child (set_children set)))
          | None => None
          end
    end.

Fixpoint from_fields_v1 (fields : Json) : option FieldSet :=
  match fields with
  | JObject obj =>
      if decide (obj = []) then Some (mkSet true []) else read_members from_fields_v1 obj set_new
  | _ => None
  end.

Definition from_root_fields_v1 (fields : Json) : option FieldSet :=
  (fun set => mkSet false (set_children set)) <$> from_fields_v1 fields.

(** ** Matchers and filters *)

Inductive PathElementMatcher := Any | Element (e : string).

#[export] Instance PathElementMatcher_eq_dec : EqDecision PathElementMatcher.
Proof. solve_decision. Defined.

Definition matches (pm : PathElementMatcher) (element : string) : bool :=
  match pm with Any => true | Element e => bool_decide (e = element) end.

Definition is_any (pm : PathElementMatcher) : bool :=
  match pm with Any => true | Element _ => false end.

Inductive SetMatcher :=
  mkMatcher { wildcard : bool; matchers : list (PathElementMatcher * SetMatcher) }.

(** [SetMatcher::any()]. *)
Definition matcher_any : SetMatcher := mkMatcher true [].

Definition matcher_prefix (parts : list PathElementMatcher) : SetMatcher :=
  foldr (fun part current => mkMatcher false [(part, current)]) matcher_any parts.

(** [members.iter().find(|(pm, _)| f(pm))]. *)
Fixpoint find_matcher (f : PathElementMatcher -> bool) (ms : list (PathElementMatcher * SetMatcher)) : option SetMatcher :=
  match ms with
  | [] => None
  | (pm, child) :: ms => if f pm then Some child else find_matcher f ms
  end.

(** The matcher of an element: the wildcard takes precedence. *)
Definition matcher_for (element : string) (pattern : SetMatcher) : option SetMatcher :=
  match find_matcher is_any (matchers pattern) with
  | Some child => Some child
  | None => find_matcher (fun pm => matches pm element) (matchers pattern)
  end.

(** The code clears the member flag of a node before the recursive call and takes
    only the children of the result; they do not depend on the flag. *)
Fixpoint filter_include_matches (self : FieldSet) (pattern : SetMatcher) {struct self} : FieldSet :=
  if wildcard pattern then self
  else
    mkSet false
      ((fix go vs :=
          match vs with
          | [] => []
          | (element, node) :: vs =>
              match matcher_for element pattern with
              | None => go vs
              | Some child_matcher =>
                  keep element
                    (mkSet (set_member node) (set_children (filter_include_matches node child_matcher))) (go vs)
              end
          end) (set_children self)).

(** [members.iter_mut().find(|(p, _)| p == path)] is changed by [f], or the
    matcher is added at the end. *)
Definition merge_one (f : SetMatcher -> SetMatcher) (path : PathElementMatcher) (child : SetMatcher) :=
  fix put (l : list (PathElementMatcher * SetMatcher)) : list (PathElementMatcher * SetMatcher) :=
    match l with
    | [] => [(path, child)]
    | (p, existing) :: l => if decide (p = path) then (p, f existing) :: l else (p, existing) :: put l
    end.

(** [SetMatcher::merge]. *)
Fixpoint matcher_merge (self other : SetMatcher) {struct other} : SetMatcher :=
  if wildcard self || wildcard other then matcher_any
  else
    mkMatcher false
      ((fix go ms out :=
          match ms with
          | [] => out
          | (path, child) :: ms =>
              go ms (merge_one (fun existing => matcher_merge existing child) path child out)
          end) (matchers other) (matchers self)).

Inductive Filter :=
| Exclude (exclude : FieldSet)
| IncludeMatcher (matcher : SetMatcher).

Definition include_matcher (l : list SetMatcher) : Filter :=
  match l with
  | [] => IncludeMatcher matcher_any
  | first :: rest => IncludeMatcher (foldl matcher_merge first rest)
  end.

(** [Filter::filter]. *)
Definition filter_set (f : Filter) (set : FieldSet) : FieldSet :=
  match f with
  | Exclude exclude => set_recursive_difference set exclude
  | IncludeMatcher matcher => filter_include_matches set matcher
  end.

(** [fieldpath.MakePathOrDie]. *)
Definition field_path (names : list string) : list string := map (fun n => "f:" +:+ n) names.
