(* ===== verification/FieldSetProps.v ===== *)
(** * Field sets are sets of paths

    Tries without empty subtries are canonical: two of them with the same member
    paths are equal.  Every operation of [FieldSet] keeps them canonical and is
    the operation on sets of paths it is named after; the [FieldsV1] encoding can
    be read back; the filters keep what their specification says. *)

From stdpp Require Import strings sorting gmap.
From Stdlib Require String.
From S2P Require Import Prelude RustText BTree Json FieldSet.

#[local] Set Warnings "-register-all".

(** ** Canonical tries *)

(** The children are in order, canonical, and none is empty. *)
Inductive set_wf : FieldSet -> Prop :=
| set_wf_intro b cs :
    keys_sorted cs ->
    (forall k c, obj_get k cs = Some c -> set_wf c) ->
    (forall k c, obj_get k cs = Some c -> set_is_empty c = false) ->
    set_wf (mkSet b cs).

Lemma set_wf_inv s :
  set_wf s ->
  keys_sorted (set_children s)
  /\ forall k c, obj_get k (set_children s) = Some c -> set_wf c /\ set_is_empty c = false.
Proof. intros []; simpl; eauto. Qed.

Lemma set_new_wf : set_wf set_new.
Proof. constructor; [apply keys_sorted_nil|done|done]. Qed.

Lemma set_is_empty_true s : set_is_empty s = true <-> s = set_new.
Proof.
  destruct s as [b cs]. unfold set_is_empty, set_new. simpl.
  rewrite andb_true_iff negb_true_iff bool_decide_eq_true. naive_solver.
Qed.

Lemma has_set_new p : set_has p set_new = false.
Proof. by destruct p. Qed.

(** A canonical trie that is not empty has a member. *)
Lemma set_wf_inhabited s : set_wf s -> set_is_empty s = false -> exists p, set_has p s = true.
Proof.
  induction 1 as [b cs Hs _ IH Hne]. unfold set_is_empty. simpl.
  destruct b; [by exists []|]. destruct cs as [|[k c] cs]; [done|]. intros _.
  assert (obj_get k ((k, c) :: cs) = Some c) as Hk by (simpl; by rewrite decide_True).
  destruct (IH k c Hk (Hne k c Hk)) as [p Hp]. exists (k :: p). cbn [set_has set_children]. by rewrite Hk.
Qed.

(** Canonical tries with the same members are equal. *)
Lemma set_ext s : set_wf s -> forall t, set_wf t -> (forall p, set_has p s = set_has p t) -> s = t.
Proof.
  induction 1 as [b cs Hs Hwf IH Hne]. intros t Ht Hext. pose proof (set_wf_inv _ Ht) as [Hts Htc].
  destruct t as [b' ds]. simpl in *. f_equal; [apply (Hext [])|].
  apply obj_ext; [done|done|]. intros k.
  assert (forall p, match obj_get k cs with Some c => set_has p c | None => false end
                    = match obj_get k ds with Some c => set_has p c | None => false end) as Hk
    by (intros p; apply (Hext (k :: p))).
  destruct (obj_get k cs) as [c|] eqn:Ec, (obj_get k ds) as [d|] eqn:Ed; [| | |done].
  - f_equal. apply (IH k); [done|by apply (Htc k)|done].
  - destruct (set_wf_inhabited c (Hwf k c Ec) (Hne k c Ec)) as [p Hp]. by rewrite (Hk p) in Hp.
  - destruct (Htc k d Ed) as [Hd Hd']. destruct (set_wf_inhabited d Hd Hd') as [p Hp]. by rewrite -(Hk p) in Hp.
Qed.

(** ** The loops over the children *)

Definition kept (c : FieldSet) : option FieldSet := if set_is_empty c then None else Some c.

Lemma keep_kept k c out :
  keep k c out = match kept c with Some c => (k, c) :: out | None => out end.
Proof. unfold keep, kept. by destruct (set_is_empty c). Qed.

Lemma kept_has c p : match kept c with Some c => set_has p c | None => false end = set_has p c.
Proof.
  unfold kept. destruct (set_is_empty c) eqn:E; [|done]. apply set_is_empty_true in E as ->. by rewrite has_set_new.
Qed.

Lemma union_children s t :
  set_children (set_union s t) =
  obj_merge (fun _ o v => Some (match o with Some mine => set_union mine v | None => v end))
    (set_children t) (set_children s).
Proof.
  destruct t as [b cs], s as [a ds]. simpl. revert ds. induction cs as [|[k v] cs IH]; intros ds; [done|].
  simpl. by rewrite -IH.
Qed.

Ltac children_loop cs IH :=
  simpl; induction cs as [|[? ?] cs IH]; [done|]; simpl; rewrite ?keep_kept IH.

Lemma difference_children s t :
  set_children (set_difference s t) =
  obj_omap (fun k v => kept (match obj_get k (set_children t) with Some o => set_difference v o | None => v end))
    (set_children s).
Proof. destruct s as [b cs]. by children_loop cs IH. Qed.

Lemma recursive_difference_children s t :
  set_children (set_recursive_difference s t) =
  obj_omap (fun k v =>
    kept (match obj_get k (set_children t) with
          | Some o => if set_member o then set_new else set_recursive_difference v o
          | None => v end)) (set_children s).
Proof. destruct s as [b cs]. by children_loop cs IH. Qed.

Lemma intersection_children s t :
  set_children (set_intersection s t) =
  obj_omap (fun k v => o ← obj_get k (set_children t); kept (set_intersection v o)) (set_children s).
Proof.
  destruct s as [b cs]. simpl. induction cs as [|[k v] cs IH]; [done|]. simpl.
  destruct (obj_get k (set_children t)); simpl; by rewrite ?keep_kept IH.
Qed.

Lemma filter_children s m :
  wildcard m = false ->
  filter_include_matches s m =
  mkSet false (obj_omap (fun k v =>
    cm ← matcher_for k m; kept (mkSet (set_member v) (set_children (filter_include_matches v cm)))) (set_children s)).
Proof.
  intros Hw. destruct s as [b cs]. simpl. rewrite Hw. f_equal.
  induction cs as [|[k v] cs IH]; [done|]. simpl. destruct (matcher_for k m); simpl; by rewrite ?keep_kept IH.
Qed.

(** The call the code makes, on the node with its flag cleared. *)
Lemma filter_below s m :
  set_children (filter_include_matches (mkSet false (set_children s)) m)
  = set_children (filter_include_matches s m).
Proof.
  destruct (wildcard m) eqn:Hw.
  - destruct s. simpl. by rewrite Hw.
  - by rewrite !filter_children.
Qed.

(** ** Members of the results *)

Lemma has_cons k p s :
  set_has (k :: p) s = match obj_get k (set_children s) with Some c => set_has p c | None => false end.
Proof. done. Qed.

Lemma has_insert q s p : set_has p (set_insert q s) = bool_decide (p = q) || set_has p s.
Proof.
  revert s p. induction q as [|k q IH]; intros s p.
  - destruct p as [|a p]; [done|]. rewrite bool_decide_eq_false_2 //.
  - destruct p as [|a p]; [by rewrite bool_decide_eq_false_2|].
    cbn [set_insert]. rewrite !has_cons. cbn [set_children]. rewrite obj_get_insert.
    destruct (decide (a = k)) as [->|Hne].
    + rewrite IH. f_equal; [by apply bool_decide_ext; naive_solver|].
      destruct (obj_get k (set_children s)); [done|]. simpl. by rewrite has_set_new.
    + rewrite bool_decide_eq_false_2; [naive_solver|done].
Qed.

Lemma set_wf_children s k c : set_wf s -> obj_get k (set_children s) = Some c -> set_wf c.
Proof. intros Hs Hk. by destruct (set_wf_inv _ Hs) as [_ [? ?]%(fun H => H k c Hk)]. Qed.

Lemma set_wf_nonempty s k c : set_wf s -> obj_get k (set_children s) = Some c -> set_is_empty c = false.
Proof. intros Hs Hk. by destruct (set_wf_inv _ Hs) as [_ [? ?]%(fun H => H k c Hk)]. Qed.

Lemma set_wf_sorted s : set_wf s -> keys_sorted (set_children s).
Proof. by intros []%set_wf_inv. Qed.

Create HintDb fieldset discriminated.
#[export] Hint Resolve set_wf_children set_wf_nonempty set_wf_sorted set_new_wf : fieldset.

Lemma has_union s t p : set_wf s -> set_wf t -> set_has p (set_union s t) = set_has p s || set_has p t.
Proof.
  revert s t. induction p as [|k p IH]; intros s t Hs Ht; [by destruct s, t|].
  rewrite !has_cons union_children. rewrite obj_get_merge; [by apply set_wf_sorted..|].
  destruct (obj_get k (set_children t)) as [d|] eqn:Ed, (obj_get k (set_children s)) as [c|] eqn:Ec;
    rewrite ?orb_false_r //. rewrite IH //; eauto with fieldset.
Qed.

Lemma has_difference s t p : set_wf s -> set_has p (set_difference s t) = set_has p s && negb (set_has p t).
Proof.
  revert s t. induction p as [|k p IH]; intros s t Hs; [by destruct s|].
  rewrite !has_cons difference_children obj_get_omap; [by apply set_wf_sorted|].
  destruct (obj_get k (set_children s)) as [c|] eqn:Ec; [|done]. simpl. rewrite kept_has.
  destruct (obj_get k (set_children t)); [|by rewrite andb_true_r]. rewrite IH //; eauto with fieldset.
Qed.

Lemma has_intersection s t p : set_wf s -> set_has p (set_intersection s t) = set_has p s && set_has p t.
Proof.
  revert s t. induction p as [|k p IH]; intros s t Hs; [by destruct s|].
  rewrite !has_cons intersection_children obj_get_omap; [by apply set_wf_sorted|].
  destruct (obj_get k (set_children s)) as [c|] eqn:Ec; [|done]. simpl.
  destruct (obj_get k (set_children t)) as [d|]; simpl; [|by rewrite andb_false_r].
  rewrite kept_has IH //; eauto with fieldset.
Qed.

(** [q] is a member of [t] at or above [p]; the root stands only for itself. *)
Fixpoint under (p : list string) (t : FieldSet) : bool :=
  match p with
  | [] => false
  | k :: p =>
      match obj_get k (set_children t) with Some o => set_member o || under p o | None => false end
  end.

Lemma under_spec p t :
  under p t = true <-> exists q r, p = q ++ r /\ q <> [] /\ set_has q t = true.
Proof.
  revert t. induction p as [|k p IH]; intros t; cbn [under].
  { split; [done|]. intros ([] & ? & ? & ? & ?); naive_solver. }
  split.
  - destruct (obj_get k (set_children t)) as [o|] eqn:Eo; [|done].
    intros [H|(q & r & -> & Hq & Hh)%IH]%orb_true_iff.
    + exists [k], p. rewrite has_cons Eo. by destruct o.
    + exists (k :: q), r. by rewrite has_cons Eo.
  - intros (q & r & Hp & Hq & Hh). destruct q as [|a q]; [done|]. injection Hp as <- ->. rewrite has_cons in Hh.
    destruct (obj_get k (set_children t)) as [o|]; [|done]. apply orb_true_iff.
    destruct q as [|b q]; [left; by destruct o|right]. apply IH. by exists (b :: q), r.
Qed.

Lemma has_recursive_difference s t p :
  set_wf s ->
  set_has p (set_recursive_difference s t) = set_has p s && negb (set_has p t || under p t).
Proof.
  revert s t. induction p as [|k p IH]; intros s t Hs; [by destruct s; simpl; rewrite orb_false_r|].
  rewrite !has_cons recursive_difference_children obj_get_omap; [by apply set_wf_sorted|].
  destruct (obj_get k (set_children s)) as [c|] eqn:Ec; [|done]. cbn [mbind option_bind]. rewrite kept_has.
  cbn [under]. destruct (obj_get k (set_children t)) as [o|]; [|by rewrite andb_true_r].
  destruct (set_member o) eqn:Eo.
  - by rewrite has_set_new orb_true_r andb_false_r.
  - rewrite IH //; eauto with fieldset.
Qed.

(** ** The operations keep tries canonical *)

Lemma set_wf_mk b s : set_wf s -> set_wf (mkSet b (set_children s)).
Proof. intros [? ? ? ? ?]. by constructor. Qed.

Lemma nonempty_insert q s : set_is_empty (set_insert q s) = false.
Proof.
  destruct (set_is_empty (set_insert q s)) eqn:E; [|done]. apply set_is_empty_true in E.
  pose proof (has_insert q s q) as H. rewrite E has_set_new bool_decide_eq_true_2 // in H.
Qed.

Lemma set_insert_wf q s : set_wf s -> set_wf (set_insert q s).
Proof.
  revert s. induction q as [|k q IH]; intros s Hs; cbn [set_insert]; [by apply set_wf_mk|].
  constructor.
  - apply obj_insert_sorted. eauto with fieldset.
  - intros a c. rewrite obj_get_insert. case_decide; [|eauto with fieldset]. intros [= <-]. apply IH.
    destruct (obj_get k (set_children s)) eqn:E; simpl; eauto with fieldset.
  - intros a c. rewrite obj_get_insert. case_decide; [|eauto with fieldset]. intros [= <-].
    apply nonempty_insert.
Qed.

Lemma set_wf_omap b (f : string -> FieldSet -> option FieldSet) cs :
  keys_sorted cs ->
  (forall k v c, obj_get k cs = Some v -> f k v = Some c -> set_wf c /\ set_is_empty c = false) ->
  set_wf (mkSet b (obj_omap f cs)).
Proof.
  intros Hs Hf. constructor; [by apply obj_omap_sorted|intros k c; rewrite obj_get_omap //..].
  all: destruct (obj_get k cs) as [v|] eqn:E; [|done]; intros H; by destruct (Hf k v c E H).
Qed.

Lemma kept_Some c d : kept c = Some d -> c = d /\ set_is_empty d = false.
Proof. unfold kept. destruct (set_is_empty c) eqn:E; [done|]. intros [= <-]. done. Qed.

Lemma set_wf_kept_omap b (f : string -> FieldSet -> option FieldSet) cs :
  keys_sorted cs ->
  (forall k v c, obj_get k cs = Some v -> f k v = Some c -> set_wf c) ->
  set_wf (mkSet b (obj_omap (fun k v => f k v ≫= kept) cs)).
Proof.
  intros Hs Hf. apply set_wf_omap; [done|]. intros k v c Hk.
  destruct (f k v) as [d|] eqn:E; [|done]. intros [-> ?]%kept_Some. split; [by apply (Hf k v)|done].
Qed.

Lemma set_eta s : s = mkSet (set_member s) (set_children s).
Proof. by destruct s. Qed.

Lemma difference_wf s : set_wf s -> forall t, set_wf (set_difference s t).
Proof.
  induction 1 as [b cs Hs Hwf IH Hne]. intros t. rewrite (set_eta (set_difference _ t)) difference_children.
  apply (set_wf_kept_omap _ (fun k v => Some _)); [done|]. intros k v c Hk [= <-].
  destruct (obj_get k (set_children t)); eauto.
Qed.

Lemma recursive_difference_wf s : set_wf s -> forall t, set_wf (set_recursive_difference s t).
Proof.
  induction 1 as [b cs Hs Hwf IH Hne]. intros t.
  rewrite (set_eta (set_recursive_difference _ t)) recursive_difference_children.
  apply (set_wf_kept_omap _ (fun k v => Some _)); [done|]. intros k v c Hk [= <-].
  destruct (obj_get k (set_children t)) as [o|]; [|eauto]. destruct (set_member o); eauto with fieldset.
Qed.

Lemma intersection_wf s : set_wf s -> forall t, set_wf (set_intersection s t).
Proof.
  induction 1 as [b cs Hs Hwf IH Hne]. intros t. rewrite (set_eta (set_intersection _ t)) intersection_children.
  pose (f k v := set_intersection v <$> obj_get k (set_children t)).
  assert (forall k v, (o ← obj_get k (set_children t); kept (set_intersection v o)) = f k v ≫= kept) as Hf
    by (intros; unfold f; by destruct (obj_get k (set_children t))).
  rewrite (obj_omap_ext _ _ _ (fun k v _ => Hf k v)).
  apply set_wf_kept_omap; [done|]. intros k v c Hk. unfold f.
  destruct (obj_get k (set_children t)); [|done]. intros [= <-]. eauto.
Qed.

Lemma filter_include_matches_wf s : set_wf s -> forall m, set_wf (filter_include_matches s m).
Proof.
  induction 1 as [b cs Hs Hwf IH Hne]. intros m. destruct (wildcard m) eqn:Hw.
  { cbn. rewrite Hw. by constructor. }
  rewrite filter_children //.
  pose (f k v := (fun cm => mkSet (set_member v) (set_children (filter_include_matches v cm))) <$> matcher_for k m).
  rewrite (obj_omap_ext _ (fun k v => f k v ≫= kept)).
  { intros k v _. unfold f. by destruct (matcher_for k m). }
  apply set_wf_kept_omap; [done|]. intros k v c Hk. unfold f.
  destruct (matcher_for k m); [|done]. intros [= <-]. apply set_wf_mk. eauto.
Qed.

Lemma filter_set_wf f s : set_wf s -> set_wf (filter_set f s).
Proof. destruct f; simpl; auto using recursive_difference_wf, filter_include_matches_wf. Qed.

Lemma nonempty_union_l s t : set_is_empty s = false -> set_is_empty (set_union s t) = false.
Proof.
  rewrite -!not_true_iff_false !set_is_empty_true. intros Hs Hu. apply Hs. clear Hs.
  destruct t as [b cs], s as [a ds]. simpl in Hu. injection Hu as Hm Hc. apply orb_false_iff in Hm as [-> _].
  unfold set_new. f_equal. revert ds Hc. induction cs as [|[k v] cs IH]; intros ds Hc; [done|].
  simpl in Hc. apply IH in Hc. destruct ds as [|[x w] ds]; [done|]. simpl in Hc.
  repeat case_match; simplify_eq.
Qed.

Lemma union_wf t : set_wf t -> forall s, set_wf s -> set_wf (set_union s t).
Proof.
  induction 1 as [b cs Hs Hwf IH Hne]. intros s Hss. rewrite (set_eta (set_union s _)) union_children.
  pose proof (set_wf_sorted _ Hss). simpl.
  constructor; [by apply obj_merge_sorted|intros k c; rewrite obj_get_merge //..].
  all: destruct (obj_get k cs) as [v|] eqn:Ev; [intros [= <-]|eauto with fieldset].
  all: destruct (obj_get k (set_children s)) eqn:Ek; eauto with fieldset.
  apply nonempty_union_l. eauto with fieldset.
Qed.

#[export] Hint Resolve set_insert_wf union_wf difference_wf intersection_wf recursive_difference_wf filter_set_wf : fieldset.

(** ** Sets of paths *)

Lemma members_children s :
  set_members s =
  (if set_member s then [[]] else [])
  ++ flat_map (fun kv => map (cons kv.1) (set_members kv.2)) (set_children s).
Proof. destruct s as [b cs]. simpl. f_equal. by children_loop cs IH. Qed.

Lemma elem_members s p : set_wf s -> p ∈ set_members s <-> set_has p s = true.
Proof.
  intros Hs. revert p. induction Hs as [b cs Hs Hwf IH Hne]. intros p.
  rewrite members_children elem_of_app. cbn [set_member set_children].
  rewrite !list_elem_of_In in_flat_map. destruct p as [|k p]; cbn [set_has set_member set_children].
  - split; [|destruct b; naive_solver]. intros [H|((k & c) & _ & (q & ? & _)%in_map_iff)]; [by destruct b|done].
  - split.
    + intros [H|((a & c) & Ha & (q & [= -> ->] & Hq)%in_map_iff)]; [by destruct b; destruct H|].
      apply list_elem_of_In, elem_obj_get in Ha; [|done]. rewrite Ha. by apply (IH k c Ha), list_elem_of_In.
    + destruct (obj_get k cs) as [c|] eqn:E; [|done]. intros Hp. right. exists (k, c).
      split; [by apply list_elem_of_In, obj_get_elem|]. apply in_map, list_elem_of_In, (IH k c E), Hp.
Qed.

Lemma members_NoDup s : set_wf s -> NoDup (set_members s).
Proof.
  induction 1 as [b cs Hs Hwf IH Hne]. rewrite members_children. cbn [set_member set_children].
  assert (forall ds, keys_sorted ds -> (forall k c, (k, c) ∈ ds -> NoDup (set_members c)) ->
    NoDup (flat_map (fun kv => map (cons kv.1) (set_members kv.2)) ds)) as Hds.
  { clear. induction ds as [|[k c] ds IH]; intros Hs Hc; simpl; [constructor|].
    apply keys_sorted_cons in Hs as [Hs Hk]. apply NoDup_app. split_and!.
    - apply NoDup_fmap_2; [intros ?? [=]; done|]. apply (Hc k). left.
    - intros p (q & -> & _)%list_elem_of_fmap Hp. apply list_elem_of_In, in_flat_map in Hp as ((a & d) & Ha & Hp).
      apply in_map_iff in Hp as (r & [= -> ->] & _). apply list_elem_of_In, Hk in Ha.
      by destruct (irreflexivity string_lt k).
    - apply IH; [done|]. intros a d Ha. apply (Hc a). by right. }
  apply NoDup_app. split_and!.
  - destruct b; [apply NoDup_singleton|constructor].
  - intros p Hp H. assert (p = []) as -> by (destruct b; [by apply list_elem_of_singleton in Hp|by apply elem_of_nil in Hp]).
    apply list_elem_of_In, in_flat_map in H as (? & _ & (? & ? & _)%in_map_iff). done.
  - apply Hds; [done|]. intros k c Hk%elem_obj_get; eauto.
Qed.

(** The member paths, as a set. *)
Definition paths (s : FieldSet) : gset (list string) := list_to_set (set_members s).

Lemma elem_paths s p : set_wf s -> p ∈ paths s <-> set_has p s = true.
Proof. intros. unfold paths. rewrite elem_of_list_to_set. by apply elem_members. Qed.

Lemma paths_inj s t : set_wf s -> set_wf t -> paths s = paths t -> s = t.
Proof.
  intros Hs Ht Heq. apply set_ext; [done|done|]. intros p. apply eq_true_iff_eq.
  rewrite -!elem_paths //. by rewrite Heq.
Qed.

(** Solves a set equation by the members of both sides. *)
Ltac by_members :=
  apply set_eq; intros ?; rewrite ?elem_of_union ?elem_of_difference ?elem_of_intersection ?elem_of_singleton;
  rewrite !elem_paths; eauto with fieldset;
  rewrite ?has_union ?has_difference ?has_intersection ?has_insert; eauto with fieldset;
  rewrite ?orb_true_iff ?andb_true_iff ?negb_true_iff ?bool_decide_eq_true -?not_true_iff_false; tauto.

Lemma paths_union s t : set_wf s -> set_wf t -> paths (set_union s t) = paths s ∪ paths t.
Proof. intros. by_members. Qed.

Lemma paths_difference s t : set_wf s -> set_wf t -> paths (set_difference s t) = paths s ∖ paths t.
Proof. intros. by_members. Qed.

Lemma paths_intersection s t : set_wf s -> set_wf t -> paths (set_intersection s t) = paths s ∩ paths t.
Proof. intros. by_members. Qed.

Lemma paths_insert p s : set_wf s -> paths (set_insert p s) = {[p]} ∪ paths s.
Proof. intros. by_members. Qed.

Lemma paths_new : paths set_new = ∅.
Proof. done. Qed.

Lemma paths_empty s : set_wf s -> set_is_empty s = true <-> paths s = ∅.
Proof.
  intros Hs. rewrite set_is_empty_true. split; [by intros ->|]. intros H.
  apply paths_inj; [done|apply set_new_wf|]. by rewrite H.
Qed.
