(* ===== verification/FieldSetSpec.v ===== *)
(** * What the field sets promise

    The operations of [FieldSet] refine those on sets of paths; the [FieldsV1]
    encoding of a set is read back as the set; what the reset filters keep. *)

From stdpp Require Import strings sorting gmap.
From Stdlib Require String.
From S2P Require Import Prelude RustText BTree Json FieldSet FieldSetProps.

#[local] Set Warnings "-register-all".

(** A set with the given members. *)
Definition set_of (ps : list (list string)) : FieldSet := foldr set_insert set_new ps.

Lemma set_of_wf ps : set_wf (set_of ps).
Proof. induction ps; simpl; auto with fieldset. Qed.

Lemma paths_set_of ps : paths (set_of ps) = list_to_set ps.
Proof. induction ps as [|p ps IH]; simpl; [done|]. rewrite paths_insert; [apply set_of_wf|]. by rewrite IH. Qed.

#[export] Hint Resolve set_of_wf : fieldset.

(** ** Refinement *)

(** C24: field sets are sets of field paths.  On tries that are in order and
    have no empty subtrie, union, difference, intersection and insertion are the
    operations on the sets of member paths and keep the tries so; [members] lists
    each member path once; the set is empty exactly when [is_empty] says so; and
    the derived equality of two tries is the equality of the sets. *)
Theorem field_set_refines_paths s t p :
  set_wf s -> set_wf t ->
  (paths (set_union s t) = paths s ∪ paths t /\ set_wf (set_union s t))
  /\ (paths (set_difference s t) = paths s ∖ paths t /\ set_wf (set_difference s t))
  /\ (paths (set_intersection s t) = paths s ∩ paths t /\ set_wf (set_intersection s t))
  /\ (paths (set_insert p s) = {[p]} ∪ paths s /\ set_wf (set_insert p s))
  /\ (set_has p s = true <-> p ∈ paths s)
  /\ (NoDup (set_members s) /\ forall q, q ∈ set_members s <-> q ∈ paths s)
  /\ (set_is_empty s = true <-> paths s = ∅)
  /\ (s = t <-> paths s = paths t).
Proof.
  intros Hs Ht. split_and!; eauto using paths_union, paths_difference, paths_intersection, paths_insert with fieldset.
  - by rewrite elem_paths.
  - by apply members_NoDup.
  - intros q. rewrite elem_paths //. by apply elem_members.
  - by apply paths_empty.
  - split; [by intros ->|by apply paths_inj].
Qed.

Lemma field_set_refines_paths_witness :
  let s := set_of [["f:spec"; "f:replicas"]; ["f:spec"]] in
  let t := set_of [["f:spec"]; ["f:status"]] in
  paths (set_difference s t) = {[ ["f:spec"; "f:replicas"] ]} /\ set_wf (set_difference s t).
Proof.
  destruct (field_set_refines_paths _ _ [] (set_of_wf [["f:spec"; "f:replicas"]; ["f:spec"]])
    (set_of_wf [["f:spec"]; ["f:status"]])) as (_ & [H Hwf] & _).
  split; [|exact Hwf]. apply set_eq. intros p. rewrite H !paths_set_of. set_solver.
Defined.

(** ** The encoding *)

(** Every element of a path is a field, a key, a value or an index. *)
Inductive set_named : FieldSet -> Prop :=
| set_named_intro b cs :
    (forall k c, (k, c) ∈ cs -> is_path_element k = true) ->
    (forall k c, (k, c) ∈ cs -> set_named c) ->
    set_named (mkSet b cs).

Lemma path_element_after_dot k : is_path_element k = true -> string_lt "." k /\ k <> ".".
Proof.
  unfold is_path_element. rewrite !orb_true_iff.
  intros [[[[t ->]%string_prefix_append|[t ->]%string_prefix_append]|[t ->]%string_prefix_append]|[t ->]%string_prefix_append];
    (split; [done|by intros [=]]).
Qed.

(** The children, encoded, in their order. *)
Definition encode_children (cs : list (string * FieldSet)) : list (string * Json) :=
  map (fun kv => (kv.1, to_fields_v1 kv.2)) cs.

Definition dot_member (b : bool) (cs : list (string * FieldSet)) : list (string * Json) :=
  if b && negb (bool_decide (cs = [])) then [(".", JObject [])] else [].

Lemma encode_loop cs (out : list (string * Json)) :
  keys_sorted (out ++ encode_children cs) ->
  (fix go vs (out : list (string * Json)) :=
     match vs with
     | [] => out
     | (k, v) :: vs => go vs (obj_insert k (to_fields_v1 v) out)
     end) cs out = out ++ encode_children cs.
Proof.
  revert out. induction cs as [|[k c] cs IH]; intros out Hs; simpl; [by rewrite app_nil_r|].
  rewrite obj_insert_last.
  { intros a w Ha. eapply keys_sorted_app_lt; [apply Hs|apply Ha|left]. }
  rewrite IH -?app_assoc //.
Qed.

Lemma keys_sorted_encode cs : keys_sorted cs -> keys_sorted (encode_children cs).
Proof. unfold keys_sorted, encode_children. by rewrite -list_fmap_compose. Qed.

Lemma to_fields_v1_named b cs :
  keys_sorted cs -> (forall k c, (k, c) ∈ cs -> is_path_element k = true) ->
  to_fields_v1 (mkSet b cs) = JObject (dot_member b cs ++ encode_children cs).
Proof.
  intros Hs Hk. cbn [to_fields_v1 set_children set_member]. f_equal. apply encode_loop.
  unfold dot_member. destruct (b && _); [|by apply keys_sorted_encode].
  apply keys_sorted_cons. split; [by apply keys_sorted_encode|].
  intros a w ([c d] & [= -> ->] & Hc)%list_elem_of_fmap. by apply path_element_after_dot, (Hk c d).
Qed.

Lemma decode_loop cs b ds :
  keys_sorted (ds ++ cs) ->
  (forall k c, (k, c) ∈ cs -> is_path_element k = true /\ from_fields_v1 (to_fields_v1 c) = Some c) ->
  read_members from_fields_v1 (encode_children cs) (mkSet b ds) = Some (mkSet b (ds ++ cs)).
Proof.
  revert ds. induction cs as [|[k c] cs IH]; intros ds Hs Hc; simpl; [by rewrite app_nil_r|].
  destruct (Hc k c) as [Hk ->]; [left|]. destruct (path_element_after_dot k Hk) as [_ Hne].
  rewrite decide_False // Hk /=. rewrite obj_insert_last.
  { intros a w Ha. eapply keys_sorted_app_lt; [apply Hs|apply Ha|left]. }
  rewrite IH -?app_assoc //. intros a d Ha. apply Hc. by right.
Qed.

Lemma read_dot_member b cs rest :
  b && negb (bool_decide (cs = [])) = b ->
  read_members from_fields_v1 (dot_member b cs ++ rest) set_new = read_members from_fields_v1 rest (mkSet b []).
Proof. unfold dot_member. intros ->. by destruct b. Qed.

Lemma fields_v1_node s :
  set_wf s -> set_named s -> set_is_empty s = false -> from_fields_v1 (to_fields_v1 s) = Some s.
Proof.
  induction 1 as [b cs Hs Hwf IH Hne]. inversion_clear 1 as [? ? Hk Hn]. intros He.
  rewrite to_fields_v1_named //. cbn [from_fields_v1].
  destruct cs as [|kc cs]; [by destruct b|].
  assert (b && negb (bool_decide (kc :: cs = [])) = b) as Hb by (by rewrite bool_decide_eq_false_2 ?andb_true_r).
  rewrite decide_False; [destruct b; done|]. rewrite read_dot_member // decode_loop //.
  intros k c Hc. split; [by apply (Hk k c)|]. pose proof (elem_obj_get _ _ _ Hs Hc). eauto.
Qed.

(** C32: the [FieldsV1] encoding of a field set is read back as the set, for
    every canonical set whose path elements have one of the four prefixes and
    whose root is not a member (no manager owns the object as a whole): a member
    with members below it keeps its ["."], and the empty set stays empty although
    an empty object below the root stands for a leaf. *)
Theorem fields_v1_roundtrip s :
  set_wf s -> set_named s -> set_member s = false -> from_root_fields_v1 (to_fields_v1 s) = Some s.
Proof.
  intros Hs Hn Hm. unfold from_root_fields_v1. destruct (set_is_empty s) eqn:He.
  - by apply set_is_empty_true in He as ->.
  - rewrite fields_v1_node //. destruct s as [b cs]. simpl in Hm. by subst b.
Qed.

Lemma set_named_get s k c :
  set_named s -> obj_get k (set_children s) = Some c -> set_named c.
Proof. intros [b cs _ H] Hk%obj_get_elem. eauto. Qed.

Lemma set_insert_named p s :
  Forall (fun k => is_path_element k = true) p -> set_named s -> set_named (set_insert p s).
Proof.
  intros Hp. revert s. induction Hp as [|k p Hk Hp IH]; intros s Hs; [by destruct Hs|].
  pose proof Hs as [b cs Hk' Hn]. cbn [set_insert set_member set_children]. constructor.
  - intros a c [[-> ->]|H]%obj_insert_elem; eauto.
  - intros a c [[-> ->]|H]%obj_insert_elem; [|eauto]. apply IH.
    destruct (obj_get k cs) as [d|] eqn:E; simpl; [eauto using obj_get_elem|].
    constructor; intros ?? []%elem_of_nil.
Qed.

Lemma set_of_named ps :
  Forall (Forall (fun k => is_path_element k = true)) ps -> set_named (set_of ps).
Proof.
  induction 1; simpl; [constructor; intros ?? []%elem_of_nil|]. by apply set_insert_named.
Qed.

Lemma fields_v1_roundtrip_witness :
  let s := set_of [["f:metadata"; "f:labels"]; ["f:metadata"; "f:labels"; "f:app"]; ["f:spec"]] in
  to_fields_v1 s =
    JObject [("f:metadata", JObject [("f:labels", JObject [(".", JObject []); ("f:app", JObject [])])]);
             ("f:spec", JObject [])]
  /\ from_root_fields_v1 (to_fields_v1 s) = Some s.
Proof.
  split; [reflexivity|]. apply fields_v1_roundtrip; [apply set_of_wf| |reflexivity].
  apply set_of_named. repeat constructor.
Defined.

(** What is read is canonical and named. *)
Lemma from_fields_v1_wf v s :
  json_wf v -> from_fields_v1 v = Some s -> set_wf s /\ set_named s /\ set_is_empty s = false.
Proof.
  revert s. induction v as [|b|t|x|l IH|m IH] using Json_ind_nested; intros s Hv; cbn [from_fields_v1]; try done.
  case_decide as Hm.
  { intros [= <-]. split_and!; [by constructor; [apply keys_sorted_nil|..]|by constructor; intros ?? []%elem_of_nil|done]. }
  intros Hgo. apply json_wf_object in Hv as [Hks Hv].
  assert (forall obj set, Forall (fun kv => json_wf kv.2) obj ->
    Forall (fun kv => forall s, json_wf kv.2 -> from_fields_v1 kv.2 = Some s ->
       set_wf s /\ set_named s /\ set_is_empty s = false) obj ->
    set_wf set -> set_named set -> obj <> [] \/ set_is_empty set = false ->
    read_members from_fields_v1 obj set = Some s -> set_wf s /\ set_named s /\ set_is_empty s = false) as Hloop.
  { clear. induction obj as [|[k v] obj IH]; intros set Hwf Hrec Hs Hn He; simpl.
    { intros [= <-]. naive_solver. }
    apply Forall_cons in Hwf as [Hv Hwf]. apply Forall_cons in Hrec as [Hk Hrec].
    case_decide.
    { apply IH; [done|done|by apply set_wf_mk| |by right]. by destruct Hn. }
    destruct (is_path_element k) eqn:Ek; [simpl|done].
    destruct (from_fields_v1 v) as [c|] eqn:Ec; [|done]. destruct (Hk c Hv Ec) as (Hc & Hcn & Hce).
    apply IH; [done|done| | |].
    - constructor; [by apply obj_insert_sorted, set_wf_sorted|intros a d; rewrite obj_get_insert..].
      all: case_decide; [by intros [= <-]|eauto with fieldset].
    - destruct Hn as [b cs Hk' Hn]. constructor; intros a d [[-> ->]|Ha]%obj_insert_elem; eauto.
    - right. unfold set_is_empty. simpl. apply andb_false_iff. right. apply bool_decide_eq_false_2.
      intros E. pose proof (obj_get_insert_eq k c (set_children set)) as Hg. by rewrite E in Hg. }
  apply (Hloop m set_new); [done|done|apply set_new_wf| |by left|done].
  constructor; intros ?? []%elem_of_nil.
Qed.

Lemma from_root_fields_v1_wf v s :
  json_wf v -> from_root_fields_v1 v = Some s -> set_wf s /\ set_named s /\ set_member s = false.
Proof.
  intros Hv. unfold from_root_fields_v1. destruct (from_fields_v1 v) as [t|] eqn:E; [|done].
  intros [= <-]. destruct (from_fields_v1_wf v t Hv E) as (Ht & Hn & _).
  split_and!; [by apply set_wf_mk|by destruct Hn|done].
Qed.

(** ** Reset filters *)

(** [recursive_difference], which the exclude filter of the reset fields
    applies, keeps exactly the members of the set that are not members of the
    other and have no member of the other above them. *)
Theorem exclude_filter_spec s t p :
  set_wf s -> set_wf t ->
  p ∈ paths (filter_set (Exclude t) s) <->
  (p ∈ paths s /\ (p ∉ paths t) /\ (forall q r, p = q ++ r -> q <> [] -> q ∉ paths t)).
Proof.
  intros Hs Ht. cbn [filter_set]. rewrite !elem_paths; eauto with fieldset. rewrite has_recursive_difference //.
  rewrite andb_true_iff negb_true_iff orb_false_iff -!not_true_iff_false under_spec.
  split; [|intros (? & ? & H); split_and!; [done..|]; intros (q & r & -> & Hq & Hh); apply (H q r); by rewrite ?elem_paths].
  intros (? & ? & H). split_and!; [done..|]. intros q r -> Hq. rewrite elem_paths //. naive_solver.
Qed.

Lemma exclude_filter_spec_witness :
  let s := set_of [["f:spec"; "f:replicas"]; ["f:status"; "f:phase"]] in
  let t := set_of [["f:status"]] in
  ["f:spec"; "f:replicas"] ∈ paths (filter_set (Exclude t) s)
  /\ ["f:status"; "f:phase"] ∉ paths (filter_set (Exclude t) s).
Proof.
  split.
  - apply (exclude_filter_spec _ _ _ (set_of_wf _) (set_of_wf _)). rewrite !paths_set_of.
    split_and!; [set_solver|set_solver|]. intros q r Hq Hne.
    destruct q as [|a q]; [done|]. injection Hq as <- _. set_solver.
  - intros H. apply (exclude_filter_spec _ _ _ (set_of_wf _) (set_of_wf _)) in H as (_ & _ & H).
    apply (H ["f:status"] ["f:phase"]); [done|done|]. rewrite paths_set_of. set_solver.
Defined.

(** What a matcher selects: a wildcard everything; otherwise the matcher of the
    first element, and below it the rest of the path, if there is one. *)
Fixpoint selects (p : list string) (m : SetMatcher) : bool :=
  wildcard m
  || match p with
     | [] => false
     | k :: p =>
         match matcher_for k m with
         | None => false
         | Some cm => match p with [] => true | _ => selects p cm end
         end
     end.

Lemma has_filter_include_matches p s m :
  set_wf s -> set_has p (filter_include_matches s m) = set_has p s && selects p m.
Proof.
  revert s m. induction p as [|k p IH]; intros s m Hs; (destruct (wildcard m) eqn:Hw; [by destruct s; simpl; rewrite Hw andb_true_r|]).
  { rewrite filter_children //=. by rewrite Hw andb_false_r. }
  rewrite filter_children // !has_cons. cbn [set_children selects]. rewrite Hw orb_false_l.
  rewrite obj_get_omap; [by apply set_wf_sorted|].
  destruct (obj_get k (set_children s)) as [c|] eqn:Ec; [|done]. cbn [mbind option_bind].
  destruct (matcher_for k m) as [cm|]; cbn [mbind option_bind]; [|by rewrite andb_false_r]. rewrite kept_has.
  destruct p as [|a p]; [by rewrite andb_true_r|].
  rewrite -IH; [eauto with fieldset|]. done.
Qed.

Lemma selects_prefix parts p :
  selects p (matcher_prefix parts) = true <->
  parts = [] \/ p <> [] /\ forall i pm e, parts !! i = Some pm -> p !! i = Some e -> matches pm e = true.
Proof.
  revert p. induction parts as [|part parts IH]; intros p; [destruct p; naive_solver|].
  destruct p as [|k p]; cbn [selects matcher_prefix foldr wildcard]; [naive_solver|]. rewrite orb_false_l.
  unfold matcher_for. cbn [matchers find_matcher].
  transitivity (matches part k = true /\ (p = [] \/ selects p (matcher_prefix parts) = true)).
  { fold (matcher_prefix parts). destruct part as [|e]; cbn [matches].
    - destruct p; naive_solver.
    - simpl. destruct (bool_decide (e = k)); destruct p; naive_solver. }
  rewrite IH. split.
  - intros [Hk H]. right. split; [done|]. intros [|i] pm e; [naive_solver|]. simpl. intros Hi Hp.
    destruct H as [->|[->|[_ H]]]; [done|done|eauto].
  - intros [?|[_ H]]; [done|]. split; [by apply (H 0)|]. destruct p as [|a p]; [by left|right; right].
    split; [done|]. intros i pm e ??. by apply (H (S i) pm e).
Qed.

(** A filter built from one prefix matcher keeps exactly the members that
    agree with the prefix as far as both go: the paths under the prefix, and also
    the members above it, which are shorter than the prefix. *)
Theorem include_prefix_spec s parts p :
  set_wf s -> parts <> [] ->
  p ∈ paths (filter_set (include_matcher [matcher_prefix parts]) s) <->
  (p ∈ paths s /\ p <> []
   /\ (forall i pm e, parts !! i = Some pm -> p !! i = Some e -> matches pm e = true)).
Proof.
  intros Hs Hne. cbn [filter_set include_matcher foldl]. rewrite !elem_paths; eauto using filter_include_matches_wf.
  rewrite has_filter_include_matches // andb_true_iff selects_prefix. naive_solver.
Qed.

Lemma include_prefix_spec_witness :
  let s := set_of [["f:spec"; "f:replicas"]; ["f:spec"]; ["f:status"]] in
  ["f:spec"] ∈ paths (filter_set (include_matcher [matcher_prefix [Element "f:spec"; Element "f:replicas"]]) s).
Proof.
  apply (include_prefix_spec _ _ _ (set_of_wf _)); [done|]. rewrite paths_set_of. split_and!; [set_solver|done|].
  intros [|[|i]] pm e; simpl; intros [= <-]; [by intros [= <-]|done].
Defined.

(** ** Merged matchers *)

(** No wildcard element, and one matcher for each element, at every level. *)
Inductive matcher_plain : SetMatcher -> Prop :=
| matcher_plain_intro w ms :
    NoDup ms.*1 ->
    Any ∉ ms.*1 ->
    (forall e child, (Element e, child) ∈ ms -> matcher_plain child) ->
    matcher_plain (mkMatcher w ms).

(** One round of the loop of [merge]. *)
Definition merge_step (out : list (PathElementMatcher * SetMatcher)) (pc : PathElementMatcher * SetMatcher) :=
  merge_one (fun existing => matcher_merge existing pc.2) pc.1 pc.2 out.

Lemma matcher_merge_eq a b :
  wildcard a = false -> wildcard b = false ->
  matcher_merge a b =
  mkMatcher false (foldl merge_step (matchers a) (matchers b)).
Proof.
  destruct b as [w ms], a as [w' ns]. simpl. intros -> ->. simpl. f_equal.
  revert ns. induction ms as [|[pm child] ms IH]; intros ns; [done|]. simpl. by rewrite -IH.
Qed.

(** The matcher of an element, among matchers without a wildcard. *)
Definition find_element (e : string) := find_matcher (fun pm => matches pm e).

Lemma find_any_None ms : Any ∉ ms.*1 -> find_matcher is_any ms = None.
Proof.
  induction ms as [|[pm c] ms IH]; [done|]. intros [Hne H]%not_elem_of_cons. simpl in *.
  destruct pm; naive_solver.
Qed.

Lemma find_element_cons e pm c ms :
  pm <> Any ->
  find_element e ((pm, c) :: ms) = if decide (pm = Element e) then Some c else find_element e ms.
Proof.
  intros Hpm. destruct pm as [|f]; [done|]. unfold find_element. cbn [find_matcher matches].
  case_bool_decide; case_decide; naive_solver.
Qed.

Lemma find_element_None e ms : Any ∉ ms.*1 -> Element e ∉ ms.*1 -> find_element e ms = None.
Proof.
  induction ms as [|[pm c] ms IH]; [done|]. intros [HA ?]%not_elem_of_cons [HE ?]%not_elem_of_cons.
  rewrite find_element_cons; [naive_solver|]. rewrite decide_False; [naive_solver|auto].
Qed.

Lemma find_merge_one e pm child l :
  pm <> Any -> Any ∉ l.*1 ->
  find_element e (merge_step l (pm, child)) =
  if decide (pm = Element e) then
    Some (match find_element e l with Some old => matcher_merge old child | None => child end)
  else find_element e l.
Proof.
  intros Hpm. destruct pm as [|f]; [done|]. unfold find_element. induction l as [|[p c] l IH]; intros Hl.
  - simpl. case_decide; case_bool_decide; naive_solver.
  - apply not_elem_of_cons in Hl as [Hp Hl]. specialize (IH Hl). destruct p as [|g]; [done|]. simpl in *.
    destruct (decide (Element g = Element f)) as [[= ->]|Hne]; simpl.
    + case_bool_decide; case_decide; naive_solver.
    + rewrite IH. case_bool_decide; case_decide; naive_solver.
Qed.

Lemma merge_one_keys pm child l : pm <> Any -> Any ∉ l.*1 -> Any ∉ (merge_step l (pm, child)).*1.
Proof.
  intros Hpm. induction l as [|[p c] l IH]; simpl; [set_solver|].
  intros [Hp Hl]%not_elem_of_cons. case_decide; simpl; set_solver.
Qed.

Lemma find_element_merge e ms ns :
  NoDup ms.*1 -> Any ∉ ms.*1 -> Any ∉ ns.*1 ->
  find_element e (foldl merge_step ns ms) =
  match find_element e ms with
  | Some child => Some (match find_element e ns with Some old => matcher_merge old child | None => child end)
  | None => find_element e ns
  end
  /\ Any ∉ (foldl merge_step ns ms).*1.
Proof.
  revert ns. induction ms as [|[pm child] ms IH]; intros ns; [done|]. simpl.
  intros [Hnew Hnd]%NoDup_cons [Hne HA]%not_elem_of_cons Hns. simpl in *.
  destruct (IH (merge_step ns (pm, child)) Hnd HA) as [-> ?]; [by apply merge_one_keys|]. split; [|done].
  rewrite find_merge_one // find_element_cons //. case_decide as Hf; [|done]. subst pm.
  by rewrite find_element_None.
Qed.

Lemma find_element_elem e ms c : Any ∉ ms.*1 -> find_element e ms = Some c -> (Element e, c) ∈ ms.
Proof.
  induction ms as [|[pm d] ms IH]; [done|]. intros [HA ?]%not_elem_of_cons.
  rewrite find_element_cons; [naive_solver|]. case_decide as He; [intros [= ->]; subst; left|right; auto].
Qed.

Lemma matcher_for_plain e m : Any ∉ (matchers m).*1 -> matcher_for e m = find_element e (matchers m).
Proof. intros H. unfold matcher_for. by rewrite find_any_None. Qed.

(** A merged matcher selects what either of the two selects, when neither
    has a wildcard element below a level that is not itself a wildcard and both
    have one matcher for each element. *)
Theorem matcher_merge_selects p a b :
  matcher_plain a -> matcher_plain b ->
  selects p (matcher_merge a b) = selects p a || selects p b.
Proof.
  revert a b. induction p as [|k p IH]; intros a b Ha Hb;
    (destruct (wildcard a || wildcard b) eqn:Hw;
      [destruct a, b; simpl in *; rewrite Hw; apply orb_true_iff in Hw as [->| ->]; simpl; by rewrite ?orb_true_r|
       apply orb_false_iff in Hw as [Hwa Hwb]; rewrite matcher_merge_eq //]).
  { simpl. by rewrite Hwa Hwb. }
  destruct Ha as [wa ms Hnd HA Hch], Hb as [wb ns Hnd' HA' Hch']. simpl in Hwa, Hwb. subst wa wb.
  destruct (find_element_merge k ns ms Hnd' HA' HA) as [Hf HA''].
  cbn [selects wildcard]. rewrite !orb_false_l !matcher_for_plain //. cbn [matchers]. rewrite Hf.
  destruct (find_element k ns) as [d|] eqn:Ed, (find_element k ms) as [c|] eqn:Ec; rewrite ?orb_false_r //.
  destruct p as [|j p]; [done|]. apply find_element_elem in Ed, Ec; [|done..]. eauto.
Qed.

(** Prefix matchers without a wildcard are plain. *)
Lemma matcher_prefix_plain parts : Any ∉ parts -> matcher_plain (matcher_prefix parts).
Proof.
  induction parts as [|pm parts IH]; [by constructor; [constructor|set_solver|intros ?? []%elem_of_nil]|].
  intros [Hne HA]%not_elem_of_cons. constructor; [apply NoDup_singleton|set_solver|].
  intros e c [= _ ->]%list_elem_of_singleton. by apply IH.
Qed.

Lemma matcher_merge_selects_witness :
  selects ["f:spec"; "f:replicas"]
    (matcher_merge (matcher_prefix [Element "f:status"]) (matcher_prefix [Element "f:spec"; Element "f:replicas"])) = true.
Proof.
  rewrite (matcher_merge_selects _ _ _); [apply matcher_prefix_plain; set_solver..|reflexivity].
Defined.

(** A filter built from two matchers can drop a path that the filter built
    from one of them keeps: an element's matcher is the wildcard's as soon as one
    of the two has a wildcard at that level, and the other's is not asked. *)
Theorem include_matcher_merge_drops :
  exists s a b p,
    set_wf s
    /\ set_has p (filter_set (include_matcher [b]) s) = true
    /\ set_has p (filter_set (include_matcher [a; b]) s) = false.
Proof.
  exists (set_of [["f:status"; "f:phase"]]),
    (matcher_prefix [Any; Element "f:conditions"]), (matcher_prefix [Element "f:status"; Element "f:phase"]),
    ["f:status"; "f:phase"].
  split; [apply set_of_wf|split; reflexivity].
Qed.
