(* ===== verification/FieldWalk.v ===== *)
(** * The fields of an object

    Model of the walkers of [crates/common/src/fieldmanager/fieldset.rs] ([Fields],
    [Comparison]) and of the types of [fieldmanager/schema.rs] that drive them.

    [path] is pushed to and popped by the code: it is an argument here.  The leaf
    values are a map by path; the loops over it insert into a set, so its order is
    not modelled.  [serde_json]'s printer is the parameter [json_text]. *)

From stdpp Require Import strings gmap pretty.
From S2P Require Import Prelude RustText BTree Json Patch FieldSet.

#[local] Set Warnings "-register-all".

(** ** The schema *)

Inductive ListKind :=
| LAtomic
| LSet
| LMap (keys : list (string * option Json)).

Record StructOf (T : Type) := mkStruct {
  fields : list (string * T);
  atomic : bool;
  unknown_legacy : bool
}.
Arguments mkStruct {T}.
Arguments fields {T}.
Arguments atomic {T}.
Arguments unknown_legacy {T}.

Inductive Ty :=
| Scalar
| Deduced
| Legacy
| Struct (s : StructOf Ty)
| TMap (elem : Ty) (map_atomic : bool)
| TList (elem : Ty) (kind : ListKind).

Definition StructType : Type := StructOf Ty.

(** [Type::field]. *)
Definition ty_field (ty : Ty) (name : string) : option Ty :=
  match ty with
  | Struct s =>
      match obj_get name (fields s) with
      | Some t => Some t
      | None => if unknown_legacy s then None else Some Deduced
      end
  | TMap elem _ => Some elem
  | Deduced => Some Deduced
  | _ => None
  end.

(** ** Fields known by name *)

Inductive FieldKind :=
| KStruct
| KMap
| KeyedList (keys : list string)
| ScalarSet
| KAtomic.

#[export] Instance FieldKind_eq_dec : EqDecision FieldKind.
Proof. solve_decision. Defined.

Definition field_kind (name : string) : FieldKind :=
  if contains ["labels"; "annotations"; "data"; "binaryData"; "stringData"; "nodeSelector";
               "matchLabels"; "limits"; "requests"; "capacity"; "allocatable"] name then KMap
  else if contains ["containers"; "initContainers"; "ephemeralContainers"; "volumes"; "env";
                    "imagePullSecrets"] name then KeyedList ["name"]
  else if decide (name = "volumeMounts") then KeyedList ["mountPath"]
  else if decide (name = "volumeDevices") then KeyedList ["devicePath"]
  else if decide (name = "conditions") then KeyedList ["type"]
  else if decide (name = "ownerReferences") then KeyedList ["uid"]
  else if decide (name = "hostAliases") then KeyedList ["ip"]
  else if decide (name = "finalizers") then ScalarSet
  else if contains ["selector"; "podSelector"; "namespaceSelector"; "labelSelector"] name then KAtomic
  else KStruct.

Section Walk.
Context {JT : JsonText}.

(** ** Keys of list items *)

(** [obj.get(key).filter(|v| !v.is_null())]. *)
Definition get_non_null (key : string) (obj : list (string * Json)) : option Json :=
  match obj_get key obj with
  | Some v => if is_null v then None else Some v
  | None => None
  end.

(** The loops of [key_element] and [typed_key_element]. *)
Fixpoint key_fields (keys : list string) (obj sorted : list (string * Json)) : option (list (string * Json)) :=
  match keys with
  | [] => Some sorted
  | key :: keys => v ← get_non_null key obj; key_fields keys obj (obj_insert key v sorted)
  end.

Definition key_element (keys : list string) (item : Json) : option string :=
  match item with
  | JObject obj => (fun sorted => "k:" +:+ json_text (JObject sorted)) <$> key_fields keys obj []
  | _ => None
  end.

Fixpoint typed_key_fields (keys : list (string * option Json)) (obj sorted : list (string * Json)) : option (list (string * Json)) :=
  match keys with
  | [] => Some sorted
  | (key, dflt) :: keys =>
      v ← match get_non_null key obj with Some v => Some v | None => dflt end;
      typed_key_fields keys obj (obj_insert key v sorted)
  end.

Definition typed_key_element (keys : list (string * option Json)) (item : Json) : option string :=
  match item with
  | JObject obj => (fun sorted => "k:" +:+ json_text (JObject sorted)) <$> typed_key_fields keys obj []
  | _ => None
  end.

(** [PathElementMatcher::key]: [None] when there is no key. *)
Definition matcher_key (keys : list (string * Json)) : option PathElementMatcher :=
  match keys with
  | [] => None
  | _ =>
      Some (Element ("k:" +:+ json_text (JObject (foldl (fun m kv => obj_insert kv.1 kv.2 m) [] keys))))
  end.

Definition matcher_field (name : string) : PathElementMatcher := Element ("f:" +:+ name).
Definition matcher_index (index : nat) : PathElementMatcher := Element ("i:" +:+ pretty index).
Definition matcher_value (value : Json) : PathElementMatcher := Element ("v:" +:+ json_text value).

(** ** Walking an object *)

Record Fields := mkFields { set : FieldSet; leaves : gmap (list string) Json }.

Definition no_fields : Fields := mkFields set_new ∅.

(** [self.leaf(path, v)]. *)
Definition leaf (path : list string) (v : Json) (self : Fields) : Fields :=
  mkFields (set_insert path (set self)) (<[path := v]> (leaves self)).

(** [self.set.insert(path)]. *)
Definition own (path : list string) (self : Fields) : Fields :=
  mkFields (set_insert path (set self)) (leaves self).

Definition is_scalar (v : Json) : bool := negb (is_object v) && negb (is_array v).

(** [for (k, child) in m { f(k, child) }]. *)
Definition walk_members (f : string -> Json -> Fields -> Fields) :=
  fix go (m : list (string * Json)) (self : Fields) : Fields :=
    match m with
    | [] => self
    | (k, child) :: m => go m (f k child self)
    end.

(** The items of an associative list: each item is a member, and its members are
    walked below it. *)
Definition walk_items (f : list string -> string -> Json -> Fields -> Fields) (path : list string) :=
  fix go (elements : list string) (items : list Json) (self : Fields) {struct items} : Fields :=
    match elements, items with
    | element :: elements, item :: items =>
        let path' := path ++ [element] in
        let self := own path' self in
        go elements items
          (match item with JObject m => walk_members (f path') m self | _ => self end)
    | _, _ => self
    end.

(** The items of a set of scalars. *)
Fixpoint walk_scalars (path : list string) (items : list Json) (self : Fields) : Fields :=
  match items with
  | [] => self
  | item :: items => walk_scalars path items (leaf (path ++ ["v:" +:+ json_text item]) item self)
  end.

(** [Fields::list]. *)
Definition list_fields (f : list string -> string -> Json -> Fields -> Fields)
    (path : list string) (kind : FieldKind) (items : list Json) (whole : Json) (self : Fields) : Fields :=
  match kind with
  | KeyedList keys =>
      match mapM (key_element keys) items with
      | Some elements =>
          if decide (items = []) then leaf path whole self else walk_items f path elements items self
      | None => leaf path whole self
      end
  | ScalarSet => if forallb is_scalar items then walk_scalars path items self else leaf path whole self
  | _ => leaf path whole self
  end.

(** [Fields::field]. *)
Fixpoint field (path : list string) (name : string) (v : Json) (self : Fields) {struct v} : Fields :=
  let path' := path ++ ["f:" +:+ name] in
  match v with
  | JNull => self
  | JObject m =>
      if decide (m = []) then leaf path' v self
      else if decide (field_kind name = KAtomic) then leaf path' v self
      else
        walk_members (field path') m (if decide (field_kind name = KMap) then own path' self else self)
  | JArray items => list_fields field path' (field_kind name) items v self
  | _ => leaf path' v self
  end.

(** [Fields::of]. *)
Definition fields_of_object (obj : Json) : Fields :=
  match obj with
  | JObject m => walk_members (field []) m no_fields
  | _ => no_fields
  end.

(** [Fields::typed_field], over the walk of a typed value. *)
Definition typed_field (typed : list string -> Json -> Ty -> Fields -> Fields)
    (path : list string) (name : string) (v : Json) (ty : option Ty) (self : Fields) : Fields :=
  match ty with
  | None | Some Legacy => field path name v self
  | Some t => if is_null v then self else typed (path ++ ["f:" +:+ name]) v t self
  end.

(** [Fields::struct_children]. *)
Definition struct_children (typed : list string -> Json -> Ty -> Fields -> Fields)
    (path : list string) (ty : Ty) : list (string * Json) -> Fields -> Fields :=
  walk_members (fun k child => typed_field typed path k child (ty_field ty k)).

(** [Fields::typed]. *)
Fixpoint typed (path : list string) (v : Json) (ty : Ty) (self : Fields) {struct v} : Fields :=
  match v with
  | JNull => self
  | JObject m =>
      match ty with
      | Scalar | Legacy => leaf path v self
      | _ =>
          if decide (m = []) then leaf path v self
          else
            match ty with
            | Struct s => if atomic s then leaf path v self else struct_children typed path ty m self
            | TMap elem is_atomic =>
                if is_atomic then leaf path v self
                else walk_members (fun k child => typed_field typed path k child (Some elem)) m (own path self)
            | Deduced => struct_children typed path ty m self
            | _ => leaf path v self
            end
      end
  | JArray items =>
      match ty with
      | TList elem (LMap keys) =>
          if decide (items = []) then leaf path v self
          else
            match mapM (typed_key_element keys) items with
            | Some elements =>
                walk_items (fun p k child => typed_field typed p k child (ty_field elem k)) path elements items self
            | None => leaf path v self
            end
      | TList _ LSet => if forallb is_scalar items then walk_scalars path items self else leaf path v self
      | _ => leaf path v self
      end
  | _ => leaf path v self
  end.

(** [Fields::of_typed]. *)
Definition fields_of_typed (obj : Json) (ty : Ty) : Fields :=
  match obj with
  | JObject m => struct_children typed [] ty m no_fields
  | _ => no_fields
  end.

(** ** Comparison *)

Record Comparison := mkComparison { removed : FieldSet; modified : FieldSet; added : FieldSet }.

(** The paths of [compare] whose value changed. *)
Definition modified_paths (old new : gmap (list string) Json) : list (list string) :=
  omap (fun pv : list string * Json =>
          match new !! pv.1 with
          | Some new_value => if value_eqb pv.2 new_value then None else Some pv.1
          | None => None
          end) (map_to_list old).

(** [Fields::compare]. *)
Definition compare (self new : Fields) : Comparison :=
  mkComparison (set_difference (set self) (set new))
    (foldl (fun m p => set_insert p m) set_new (modified_paths (leaves self) (leaves new)))
    (set_difference (set new) (set self)).

Definition filter_fields (c : Comparison) (f : Filter) : Comparison :=
  mkComparison (filter_set f (removed c)) (filter_set f (modified c)) (filter_set f (added c)).

(** [Comparison::exclude]. *)
Definition exclude (c : Comparison) (s : FieldSet) : Comparison :=
  mkComparison (set_recursive_difference (removed c) s) (set_recursive_difference (modified c) s)
    (set_recursive_difference (added c) s).
End Walk.
