(* ===== verification/FieldWalkProps.v ===== *)
(** * Walking an object, and comparing two

    The walkers build canonical sets and record a value for leaves only; the
    comparison of two objects is exact on their leaves and paths, and an object
    compared with itself has no difference. *)

From stdpp Require Import strings gmap sorting.
From S2P Require Import Prelude RustText BTree Json Patch FieldSet FieldSetProps FieldSetSpec FieldWalk.

(** Induction on a value that also reaches the members of the items of an array. *)
Section JsonIndItems.
Variable P : Json -> Prop.
Hypothesis Hscalar : forall v, is_scalar v = true -> P v.
Hypothesis Hobject : forall m, Forall (fun kv => P kv.2) m -> P (JObject m).
Hypothesis Harray : forall l,
  Forall P l -> (forall m, JObject m ∈ l -> Forall (fun kv => P kv.2) m) -> P (JArray l).

Lemma Json_ind_items v : P v.
Proof.
  enough (P v /\ forall m, v = JObject m -> Forall (fun kv => P kv.2) m) as [? ?] by done.
  induction v as [|b|t|s|l IH|m IH] using Json_ind_nested; try (split; [by apply Hscalar|done]).
  - split; [|done]. apply Harray; [by eapply Forall_impl; [apply IH|intros ? []]|].
    intros m Hm. rewrite Forall_forall in IH. by destruct (IH _ Hm) as [_ H]; apply H.
  - assert (Forall (fun kv => P kv.2) m) as Hm by (eapply Forall_impl; [apply IH|by intros ? []]).
    split; [by apply Hobject|]. intros ? [= <-]. done.
Qed.
End JsonIndItems.

Section WalkProps.
Context {JT : JsonText}.

(** ** An invariant of the walk *)

(** What the walkers do to a [Fields] is a sequence of [leaf] and [own]. *)
Section Preserve.
Variable I : Fields -> Prop.
Hypothesis Hleaf : forall path v self, I self -> I (leaf path v self).
Hypothesis Hown : forall path self, I self -> I (own path self).

Lemma walk_members_inv f m self :
  (forall k child, (k, child) ∈ m -> forall self, I self -> I (f k child self)) -> I self -> I (walk_members f m self).
Proof.
  revert self. induction m as [|[k child] m IH]; intros self Hf Hs; simpl; [done|].
  apply IH; [intros a w Ha; apply Hf; by right|]. apply Hf; [left|done].
Qed.

Lemma walk_items_inv f path elements items self :
  (forall p m, JObject m ∈ items -> forall k child, (k, child) ∈ m -> forall self, I self -> I (f p k child self)) ->
  I self -> I (walk_items f path elements items self).
Proof.
  revert elements self. induction items as [|item items IH]; intros [|e es] self Hf Hs; simpl; try done.
  apply IH; [intros p m Hm; apply Hf; by right|].
  destruct item as [| | | | |m]; auto. apply walk_members_inv; [|auto]. apply Hf. left.
Qed.

Lemma walk_scalars_inv path items self : I self -> I (walk_scalars path items self).
Proof. revert self. induction items; simpl; auto. Qed.

Lemma field_inv v : forall path name self, I self -> I (field path name v self).
Proof.
  induction v as [v Hv|m IH|l IH IHm] using Json_ind_items; intros path name self Hs.
  - destruct v; simpl; auto; done.
  - cbn [field]. case_decide; [auto|]. case_decide; [auto|]. apply walk_members_inv; [|case_decide; auto].
    intros k child Hk. rewrite Forall_forall in IH. apply (IH (k, child) Hk).
  - cbn [field]. unfold list_fields. destruct (field_kind name) as [| |keys| |]; auto.
    + destruct (mapM _ _); [|auto]. case_decide; [auto|]. apply walk_items_inv; [|done].
      intros p m Hm k child Hk. specialize (IHm m Hm). rewrite Forall_forall in IHm. apply (IHm (k, child) Hk).
    + destruct (forallb _ _); auto using walk_scalars_inv.
Qed.

Lemma typed_inv v : forall path ty self, I self -> I (typed path v ty self).
Proof.
  assert (forall m f path g, Forall (fun kv => forall path ty self, I self -> I (typed path kv.2 ty self)) m ->
    (forall k child, f k child = typed_field typed path k child (g k)) ->
    forall k child, (k, child) ∈ m -> forall self, I self -> I (f k child self)) as Hmem.
  { intros m f path g Hm Hf k child Hk self Hs. rewrite Hf. unfold typed_field.
    rewrite Forall_forall in Hm. specialize (Hm (k, child) Hk). simpl in Hm.
    destruct (g k) as [[]|]; auto using field_inv; destruct (is_null child); auto. }
  induction v as [v Hv|m IH|l IH IHm] using Json_ind_items; intros path ty self Hs.
  - destruct v; simpl; auto; done.
  - cbn [typed]. destruct ty as [| | |s|elem ia|elem kind]; auto; (case_decide; [auto|]); auto.
    + apply walk_members_inv; [|done]. eapply Hmem; [done|]. by intros.
    + destruct (atomic s); [auto|]. apply walk_members_inv; [|done]. eapply Hmem; [done|]. by intros.
    + destruct ia; [auto|]. apply walk_members_inv; [|auto]. eapply (Hmem _ _ _ (fun _ => Some elem)); [done|]. by intros.
  - cbn [typed]. destruct ty as [| | |s|elem ia|elem kind]; auto. destruct kind as [| |keys]; auto.
    + destruct (forallb _ _); auto using walk_scalars_inv.
    + case_decide; [auto|]. destruct (mapM _ _); [|auto]. apply walk_items_inv; [|done].
      intros p m Hm. eapply Hmem; [by apply IHm|]. by intros.
Qed.

Lemma fields_of_object_inv obj : I no_fields -> I (fields_of_object obj).
Proof. intros. destruct obj; simpl; auto. apply walk_members_inv; auto using field_inv. Qed.

Lemma fields_of_typed_inv obj ty : I no_fields -> I (fields_of_typed obj ty).
Proof.
  intros. destruct obj; simpl; auto. apply walk_members_inv; [|done]. intros k child _ s Hs. unfold typed_field.
  destruct (ty_field ty k) as [[]|]; auto using field_inv; destruct (is_null child); auto using typed_inv.
Qed.
End Preserve.

(** The set is canonical, and has the path of every leaf. *)
Definition fields_wf (f : Fields) : Prop :=
  set_wf (set f) /\ forall p v, leaves f !! p = Some v -> set_has p (set f) = true.

Lemma fields_wf_leaf path v self : fields_wf self -> fields_wf (leaf path v self).
Proof.
  intros [Hs Hl]. split; simpl; [auto with fieldset|]. intros p w. rewrite has_insert.
  destruct (decide (p = path)) as [->|Hne]; [by rewrite bool_decide_eq_true_2|].
  rewrite lookup_insert_ne; [done|]. intros ->%Hl. apply orb_true_r.
Qed.

Lemma fields_wf_own path self : fields_wf self -> fields_wf (own path self).
Proof.
  intros [Hs Hl]. split; simpl; [auto with fieldset|]. intros p w Hp%Hl. rewrite has_insert Hp. apply orb_true_r.
Qed.

Lemma no_fields_wf : fields_wf no_fields.
Proof. split; [apply set_new_wf|]. intros p v. simpl. by rewrite lookup_empty. Qed.

Lemma fields_of_object_wf obj : fields_wf (fields_of_object obj).
Proof. apply fields_of_object_inv; auto using fields_wf_leaf, fields_wf_own, no_fields_wf. Qed.

Lemma fields_of_typed_wf obj ty : fields_wf (fields_of_typed obj ty).
Proof. apply fields_of_typed_inv; auto using fields_wf_leaf, fields_wf_own, no_fields_wf. Qed.

(** ** Comparison *)

Record comparison_wf (c : Comparison) : Prop := {
  cw_removed : set_wf (removed c);
  cw_modified : set_wf (modified c);
  cw_added : set_wf (added c)
}.

Lemma foldl_insert_wf ps s : set_wf s -> set_wf (foldl (fun m p => set_insert p m) s ps).
Proof. revert s. induction ps; simpl; auto with fieldset. Qed.

Lemma has_foldl_insert ps s p :
  set_has p (foldl (fun m p => set_insert p m) s ps) = bool_decide (p ∈ ps) || set_has p s.
Proof.
  revert s. induction ps as [|q ps IH]; intros s; simpl; [done|]. rewrite IH has_insert orb_assoc. f_equal.
  destruct (decide (p ∈ ps)), (decide (p = q)); repeat case_bool_decide; set_solver.
Qed.

Lemma compare_wf f g : fields_wf f -> fields_wf g -> comparison_wf (compare f g).
Proof.
  intros [Hf _] [Hg _]. split; simpl; auto with fieldset. apply foldl_insert_wf, set_new_wf.
Qed.

Lemma filter_fields_wf c f : comparison_wf c -> comparison_wf (filter_fields c f).
Proof. intros []. split; simpl; auto with fieldset. Qed.

(** A leaf is modified when both objects have it, with different values. *)
Lemma has_modified f g p :
  set_has p (modified (compare f g)) = true <->
  exists v w, leaves f !! p = Some v /\ leaves g !! p = Some w /\ value_eqb v w = false.
Proof.
  simpl. rewrite has_foldl_insert has_set_new orb_false_r bool_decide_eq_true. unfold modified_paths.
  rewrite list_elem_of_omap. split.
  - intros ([q v] & Hq%elem_of_map_to_list & H). simpl in *. destruct (leaves g !! q) as [w|] eqn:E; [|done].
    destruct (value_eqb v w) eqn:Ev; [done|]. injection H as ->. eauto.
  - intros (v & w & Hv & Hw & Hne). exists (p, v). split; [by apply elem_of_map_to_list|]. simpl. by rewrite Hw Hne.
Qed.

Lemma value_eqb_refl v : value_eqb v v = true.
Proof. unfold value_eqb. by apply json_eqb_eq. Qed.

Lemma compare_self f p :
  fields_wf f ->
  set_has p (removed (compare f f)) = false /\ set_has p (modified (compare f f)) = false
  /\ set_has p (added (compare f f)) = false.
Proof.
  intros [Hf _]. split_and!.
  - simpl. rewrite has_difference //. by destruct (set_has p (set f)).
  - apply not_true_iff_false. rewrite has_modified. intros (v & w & Hv & Hw & Hne).
    assert (v = w) as -> by congruence. by rewrite value_eqb_refl in Hne.
  - simpl. rewrite has_difference //. by destruct (set_has p (set f)).
Qed.
End WalkProps.
