(* ===== verification/FieldSchema.v ===== *)
(** * The schema of a kind

    Model of [crates/common/src/fieldmanager/schema.rs]: the type of a kind from
    the OpenAPI definitions ([convert], [from_openapi], [root_of]) and from the
    structural schema of a custom resource ([structural], [from_structural]).

    [convert] follows references and keeps the definitions it is in on a stack, so
    that it ends; it is run here with fuel, and [convert_fuel] is enough: a
    definition is entered at most once on a path, and between two of them the node
    gets smaller. *)

From stdpp Require Import strings gmap.
From S2P Require Import Prelude RustText BTree Json Patch FieldWalk.

#[local] Set Warnings "-register-all".

(** ** OpenAPI *)

(** [r.rsplit('/').next()]. *)
Definition last_segment (r : string) : option string := last (split_char slash r).

Definition ref_name (node : Json) : option string :=
  r ← match get "$ref" node ≫= as_str with
      | Some r => Some r
      | None =>
          match get "allOf" node with
          | Some (JArray [a]) => get "$ref" a ≫= as_str
          | _ => None
          end
      end;
  last_segment r.

Definition as_object (v : Json) : option (list (string * Json)) := match v with JObject m => Some m | _ => None end.

Definition openapi_key_default (schemas : list (string * Json)) (items : Json) (key : string) : option Json :=
  def ← match ref_name items with Some n => obj_get n schemas | None => Some items end;
  props ← get "properties" def;
  prop ← get key props;
  get "default" prop.

(** The strings of an array. *)
Definition strings_of (v : Json) : list string :=
  match v with JArray a => omap as_str a | _ => [] end.

Section Convert.
Variable schemas : list (string * Json).

(** The body of [convert], once a reference is followed: [outer] is the node,
    [def] its definition. *)
Definition convert_def (rec : Json -> list string -> option Ty) (outer def : Json) (stack : list string) : option Ty :=
  let ext key := match get key outer with Some v => Some v | None => get key def end in
  match get "type" def ≫= as_str with
  | Some t =>
      if decide (t = "object") then
        let is_atomic := bool_decide ((ext "x-kubernetes-map-type" ≫= as_str) = Some "atomic") in
        match get "properties" def ≫= as_object with
        | Some props =>
            fs ← mapM (fun kv => pair kv.1 <$> rec kv.2 stack) props;
            Some (Struct (mkStruct fs is_atomic false))
        | None =>
            match get "additionalProperties" def with
            | Some (JObject _ as add) => elem ← rec add stack; Some (TMap elem is_atomic)
            | _ => if is_atomic then Some (Struct (mkStruct [] true false)) else Some Deduced
            end
        end
      else if decide (t = "array") then
        let items := default JNull (get "items" def) in
        elem ← rec items stack;
        let kind :=
          match ext "x-kubernetes-list-type" ≫= as_str with
          | Some k =>
              if decide (k = "set") then LSet
              else if decide (k = "map") then
                match map (fun k => (k, openapi_key_default schemas items k))
                        (from_option strings_of [] (ext "x-kubernetes-list-map-keys")) with
                | [] => LAtomic
                | keys => LMap keys
                end
              else LAtomic
          | None => LAtomic
          end in
        Some (TList elem kind)
      else Some Scalar
  | None =>
      match get "properties" def with
      | Some _ =>
          rec (match def with JObject o => JObject (obj_insert "type" (JString "object") o) | _ => def end) stack
      | None => Some Scalar
      end
  end.

Fixpoint convert (fuel : nat) (node : Json) (stack : list string) : option Ty :=
  match fuel with
  | O => None
  | S fuel =>
      match ref_name node with
      | Some name =>
          if contains stack name then Some Deduced
          else
            match obj_get name schemas with
            | Some d => convert_def (convert fuel) node d (stack ++ [name])
            | None => Some Deduced
            end
      | None => convert_def (convert fuel) node node stack
      end
  end.

(** The deepest definition. *)
Definition max_depth : nat := foldr (fun kv d => Nat.max (json_depth kv.2) d) 0 schemas.

Definition convert_fuel : nat := S (length schemas * (2 * max_depth + 2) + 2 * max_depth + 1).

Definition root_legacy (t : Ty) : Ty :=
  match t with Struct s => Struct (mkStruct (fields s) (atomic s) true) | t => t end.

(** [Type::from_openapi]; the outer [option] is the end of the fuel. *)
Definition from_openapi (definition : string) : option (option Ty) :=
  match obj_get definition schemas with
  | None => Some None
  | Some node => (fun t => Some (root_legacy t)) <$> convert convert_fuel node [definition]
  end.

(** [Type::root_of]. *)
Fixpoint root_fields (l : list (string * string)) (out : list (string * Ty)) : option (option (list (string * Ty))) :=
  match l with
  | [] => Some (Some out)
  | (name, definition) :: l =>
      match obj_get definition schemas with
      | None => Some None
      | Some node => t ← convert convert_fuel node [definition]; root_fields l (obj_insert name t out)
      end
  end.

Definition root_of (l : list (string * string)) : option (option Ty) :=
  match root_fields l [] with
  | Some (Some out) => Some (Some (Struct (mkStruct out false true)))
  | Some None => Some None
  | None => None
  end.
End Convert.

(** ** Structural schemas *)

Record Generic := mkGeneric {
  g_description : string;
  g_type : string;
  g_title : string;
  g_default : option Json;
  g_nullable : bool
}.

Record Extensions := mkExtensions {
  x_preserve_unknown_fields : bool;
  x_embedded_resource : bool;
  x_int_or_string : bool;
  x_list_map_keys : list string;
  x_list_type : option string;
  x_map_type : option string
}.

(** [Structural], without its value validations, which the conversion does not
    read; [additional_properties] is the schema and the bool of [StructuralOrBool]. *)
Inductive Structural := mkStructural {
  s_items : option Structural;
  s_properties : list (string * Structural);
  s_additional_properties : option (option Structural * bool);
  s_generic : Generic;
  s_extensions : Extensions
}.

Fixpoint structural (s : Structural) : Ty :=
  let ext := s_extensions s in
  if x_int_or_string ext then Scalar
  else
    let is_atomic := bool_decide (x_map_type ext = Some "atomic") in
    let t := g_type (s_generic s) in
    if decide (t = "object") then
      match s_properties s with
      | [] =>
          match s_additional_properties s with
          | Some (Some add, _) => TMap (structural add) is_atomic
          | _ => if is_atomic then Struct (mkStruct [] true false) else Deduced
          end
      | props => Struct (mkStruct (map (fun kv => (kv.1, structural kv.2)) props) is_atomic false)
      end
    else if decide (t = "array") then
      let elem := match s_items s with Some i => structural i | None => Deduced end in
      let key_default k :=
        match s_items s with
        | Some i => p ← obj_get k (s_properties i); g_default (s_generic p)
        | None => None
        end in
      let kind :=
        match x_list_type ext with
        | Some k =>
            if decide (k = "set") then LSet
            else if decide (k = "map" /\ x_list_map_keys ext <> []) then LMap (map (fun k => (k, key_default k)) (x_list_map_keys ext))
            else LAtomic
        | None => LAtomic
        end in
      TList elem kind
    else if decide (t = "") then Deduced
    else Scalar.

(** [Type::from_structural]. *)
Definition from_structural (s : Structural) : Ty :=
  match structural s with
  | Struct st => Struct (mkStruct (fields st) (atomic st) true)
  | _ => Struct (mkStruct [] false true)
  end.

(** ** [convert] ends *)

Section Ends.
Variable schemas : list (string * Json).

(** The definitions that are not on the stack. *)
Definition unvisited (stack : list string) : nat := length (filter (fun n => n ∉ stack) schemas.*1).

Definition typed_node (v : Json) : bool := bool_decide (is_Some (get "type" v ≫= as_str)).

Definition node_size (v : Json) : nat := 2 * json_depth v + (if typed_node v then 0 else 1).

(** What a node needs: fuel for the definitions that can still be entered, and for
    the node itself. *)
Definition needed (node : Json) (stack : list string) : nat :=
  unvisited stack * (2 * max_depth schemas + 2) + node_size node.

Lemma max_depth_ge n d : obj_get n schemas = Some d -> json_depth d <= max_depth schemas.
Proof.
  unfold max_depth. intros H%obj_get_elem. induction schemas as [|[a w] l IH]; [by apply elem_of_nil in H|].
  simpl. apply elem_of_cons in H as [[= -> ->]|H]; [lia|]. specialize (IH H). lia.
Qed.

Lemma unvisited_push n d stack :
  obj_get n schemas = Some d -> n ∉ stack -> unvisited (stack ++ [n]) < unvisited stack.
Proof.
  intros H%obj_get_elem Hn. unfold unvisited. assert (n ∈ schemas.*1) as Hin by (by apply (list_elem_of_fmap_2 fst _ (n, d))).
  induction (schemas.*1) as [|a l IH]; [by apply elem_of_nil in Hin|].
  assert (length (filter (fun m => m ∉ stack ++ [n]) l) <= length (filter (fun m => m ∉ stack) l)) as Hle.
  { clear. induction l as [|b l IH]; [done|]. rewrite !filter_cons. repeat case_decide; simpl; try lia. set_solver. }
  rewrite !filter_cons. apply elem_of_cons in Hin as [->|Hin].
  - rewrite decide_False; [set_solver|]. rewrite decide_True //=. lia.
  - specialize (IH Hin). repeat case_decide; simpl; try lia. set_solver.
Qed.

Lemma node_size_child k v c : get k v = Some c -> node_size c < 2 * json_depth v.
Proof.
  destruct v; try done. simpl. intros H%depth_member. unfold node_size. cbn [json_depth] in H. destruct (typed_node c); simpl in *; lia.
Qed.

(** [convert_def] has an answer when its recursive call has one on every node that
    needs less. *)
Section Body.
Variables (rec rec' : Json -> list string -> option Ty) (outer def : Json) (stack : list string).
Hypothesis Hrec : forall c, node_size c < node_size def ->
  exists t, rec c stack = Some t /\ rec' c stack = Some t.

Lemma props_total props :
  (get "properties" def ≫= as_object) = Some props ->
  exists fs, mapM (fun kv => pair kv.1 <$> rec kv.2 stack) props = Some fs
    /\ mapM (fun kv => pair kv.1 <$> rec' kv.2 stack) props = Some fs.
Proof.
  intros Hp. assert (forall k v, (k, v) ∈ props -> node_size v < node_size def) as Hsize.
  { destruct (get "properties" def) as [p|] eqn:E; [|done]. destruct p as [| | | | |m]; try done. injection Hp as ->.
    intros k v Hk. apply node_size_child in E. unfold node_size in *. pose proof (depth_elem k v props Hk).
    destruct (typed_node (JObject props)), (typed_node v), (typed_node def); lia. }
  clear Hp. induction props as [|[k v] props IH]; [by exists []|].
  destruct (Hrec v) as (t & Ht & Ht'); [apply (Hsize k); left|].
  destruct IH as (fs & Hf & Hf'); [intros a w Ha; apply (Hsize a); by right|].
  exists ((k, t) :: fs). cbn. rewrite Ht Ht'. cbn. cbn in Hf, Hf'. by rewrite Hf Hf'.
Qed.

Lemma convert_def_total :
  exists t, convert_def schemas rec outer def stack = Some t /\ convert_def schemas rec' outer def stack = Some t.
Proof.
  unfold convert_def. destruct (get "type" def ≫= as_str) as [t|] eqn:Et.
  - assert (node_size def = 2 * json_depth def) as Hd.
    { unfold node_size, typed_node. rewrite Et bool_decide_eq_true_2 //. }
    case_decide; [|case_decide; [|by eexists]].
    + destruct (get "properties" def ≫= as_object) as [props|] eqn:Ep.
      { destruct (props_total props Ep) as (fs & -> & ->). by eexists. }
      destruct (get "additionalProperties" def) as [[| | | | |m]|] eqn:Ea; try (case_bool_decide; by eexists).
      destruct (Hrec (JObject m)) as (t' & -> & ->); [|by eexists].
      apply node_size_child in Ea. lia.
    + destruct (Hrec (default JNull (get "items" def))) as (t' & -> & ->); [|by eexists].
      destruct (get "items" def) as [i|] eqn:Ei; [apply node_size_child in Ei; cbn [from_option id]; lia|].
      assert (0 < json_depth def) by (destruct def; [done..|cbn [json_depth]; lia]).
      change (1 < node_size def). lia.
  - destruct (get "properties" def) as [p|] eqn:Ep; [|by eexists].
    destruct def as [| | | | |o]; try done. apply Hrec.
    unfold node_size. cbn [get] in *. 
    assert (typed_node (JObject (obj_insert "type" (JString "object") o)) = true) as ->.
    { unfold typed_node. cbn [get]. by rewrite obj_get_insert_eq. }
    assert (typed_node (JObject o) = false) as ->.
    { unfold typed_node. cbn [get]. rewrite Et. by apply bool_decide_eq_false_2; intros []. }
    pose proof (depth_insert_scalar "type" (JString "object") o eq_refl). lia.
Qed.
End Body.

(** With the fuel a node needs, [convert] answers, and more fuel does not change
    the answer. *)
Lemma convert_total fuel fuel' node stack :
  needed node stack < fuel -> needed node stack < fuel' ->
  exists t, convert schemas fuel node stack = Some t /\ convert schemas fuel' node stack = Some t.
Proof.
  revert fuel' node stack. induction fuel as [|fuel IH]; intros [|fuel'] node stack Hf Hf'; [lia..|].
  cbn [convert]. destruct (ref_name node) as [name|].
  - destruct (contains stack name) eqn:Ec; [by eexists|].
    apply not_true_iff_false in Ec. rewrite contains_true in Ec.
    destruct (obj_get name schemas) as [d|] eqn:Ed; [|by eexists].
    apply convert_def_total. intros c Hc. pose proof (max_depth_ge _ _ Ed). pose proof (unvisited_push _ _ _ Ed Ec).
    assert (needed c (stack ++ [name]) < needed node stack); [|apply IH; lia].
    unfold needed. assert (node_size c <= 2 * max_depth schemas + 1) by (unfold node_size in *; destruct (typed_node d); lia). nia.
  - apply convert_def_total. intros c Hc. unfold needed in *. apply IH; unfold needed; lia.
Qed.
End Ends.

(** Reading a schema ends.  For every set of OpenAPI definitions, references
    in a circle included, [convert] on a definition answers within [convert_fuel],
    and every larger fuel gives the same answer; so [from_openapi] answers for
    every name, with no type exactly when there is no such definition. *)
Theorem openapi_schema_terminates schemas definition :
  exists o, from_openapi schemas definition = Some o
    /\ (o = None <-> obj_get definition schemas = None)
    /\ (forall node fuel, obj_get definition schemas = Some node -> convert_fuel schemas <= fuel ->
          convert schemas fuel node [definition] = convert schemas (convert_fuel schemas) node [definition]).
Proof.
  unfold from_openapi. destruct (obj_get definition schemas) as [node|] eqn:E; [|by exists None].
  assert (needed schemas node [definition] < convert_fuel schemas) as Hn.
  { unfold needed, convert_fuel. pose proof (max_depth_ge _ _ _ E).
    assert (unvisited schemas [definition] <= length schemas) as Hu.
    { unfold unvisited. rewrite -(length_fmap fst schemas). apply length_filter. }
    assert (node_size node <= 2 * max_depth schemas + 1) by (unfold node_size; destruct (typed_node node); lia). nia. }
  destruct (convert_total schemas (convert_fuel schemas) (convert_fuel schemas) node [definition] Hn Hn) as (t & Ht & _).
  rewrite Ht. eexists. split; [done|]. split; [done|]. intros ? fuel [= <-] Hle.
  destruct (convert_total schemas fuel (convert_fuel schemas) node [definition]) as (t' & -> & ->); [lia|done|done].
Qed.
