(* ===== verification/FieldMerge.v ===== *)
(** * Merging an applied configuration

    Model of the merges and of the paths into a value of
    [crates/common/src/fieldmanager/apply.rs] and
    [fieldmanager/versionconverter.rs]: [merge_values] and [merge_typed], with
    [merge_keyed] for associative lists; [remove_path], [value_at] and
    [extract_path]; [path_string].

    [serde_json]'s printer and parser are the parameters [json_text] and
    [json_parse]. *)

From stdpp Require Import strings gmap.
From S2P Require Import Prelude RustText BTree Json Patch FieldSet FieldWalk.

(** [serde_json::from_str::<Value>(s).ok()]. *)
Class JsonParse := json_parse : string -> option Json.

(** [retain_live_system_metadata]. *)
Definition system_metadata : list string :=
  ["uid"; "resourceVersion"; "generation"; "creationTimestamp"; "deletionTimestamp"; "deletionGracePeriodSeconds"].

Definition retain_key (live meta : list (string * Json)) (key : string) : list (string * Json) :=
  match obj_get key live with
  | Some v => obj_insert key v meta
  | None => obj_remove key meta
  end.

Definition retain_live_system_metadata (applied : Json) (live : option Json) : Json :=
  match applied with
  | JObject m =>
      match obj_get "metadata" m, live ≫= get "metadata" with
      | Some (JObject meta), Some (JObject lmeta) =>
          JObject (obj_insert "metadata" (JObject (foldl (retain_key lmeta) meta system_metadata)) m)
      | _, _ => applied
      end
  | _ => applied
  end.

Section Merge.
Context {JT : JsonText}.

(** ** Lists *)

Definition union_scalars (l c : list Json) : Json :=
  JArray (foldl (fun out item => if json_contains out item then out else out ++ [item]) l c).

Definition position (k : string) (ks : list string) : option nat := fst <$> list_find (fun x => x = k) ks.

(** The first loop of [merge_keyed]: [merges] holds, for each item of the
    configuration, the function that merges a live item with it. *)
Fixpoint merge_live_items (ck : list string) (merges : list (Json -> Json))
    (l : list Json) (lk merged_keys : list string) : list Json :=
  match l, lk with
  | item :: l, k :: lk =>
      match position k ck with
      | Some i =>
          if contains merged_keys k then merge_live_items ck merges l lk merged_keys
          else default id (merges !! i) item :: merge_live_items ck merges l lk (merged_keys ++ [k])
      | None => item :: merge_live_items ck merges l lk merged_keys
      end
  | _, _ => []
  end.

(** The second loop: the items of the configuration that are new. *)
Fixpoint new_items (lk : list string) (c : list Json) (ck : list string) : list Json :=
  match c, ck with
  | item :: c, k :: ck => if contains lk k then new_items lk c ck else item :: new_items lk c ck
  | _, _ => []
  end.

Definition merge_keyed (key : Json -> option string) (merges : list (Json -> Json)) (l c : list Json) : option Json :=
  lk ← mapM key l;
  ck ← mapM key c;
  Some (JArray (merge_live_items ck merges l lk [] ++ new_items lk c ck)).

(** The loop over the members of the configuration, with the merge of a field. *)
Definition merge_members (f : string -> Json -> Json -> Json) (l : list (string * Json)) :=
  fix go (c out : list (string * Json)) : list (string * Json) :=
    match c with
    | [] => out
    | (k, cv) :: c =>
        if is_null cv then go c (obj_remove k out)
        else go c (obj_insert k (match obj_get k l with Some lv => f k lv cv | None => cv end) out)
    end.

(** ** Values *)

Fixpoint merge_values (live config : Json) (name : string) {struct config} : Json :=
  match live, config with
  | JObject l, JObject c =>
      if decide (field_kind name = KAtomic) then config
      else JObject (merge_members (fun k lv cv => merge_values lv cv k) l c l)
  | JArray l, JArray c =>
      match field_kind name with
      | KeyedList keys =>
          default config (merge_keyed (key_element keys) (map (fun b a => merge_values a b "") c) l c)
      | ScalarSet => if forallb is_scalar (c ++ l) then union_scalars l c else config
      | _ => config
      end
  | _, _ => config
  end.

(** [merge_field], over the merge of typed values. *)
Definition merge_field (typed : Json -> Json -> Ty -> Json) (live config : Json) (name : string) (ty : option Ty) : Json :=
  match ty with
  | None | Some Legacy => merge_values live config name
  | Some t => typed live config t
  end.

Fixpoint merge_typed (live config : Json) (ty : Ty) {struct config} : Json :=
  let merge_objects l c := JObject (merge_members (fun k lv cv => merge_field merge_typed lv cv k (ty_field ty k)) l c l) in
  match live, config, ty with
  | JObject l, JObject c, Struct s => if atomic s then config else merge_objects l c
  | JObject l, JObject c, TMap _ is_atomic => if is_atomic then config else merge_objects l c
  | JObject l, JObject c, Deduced => merge_objects l c
  | JArray l, JArray c, TList elem kind =>
      match kind with
      | LMap keys =>
          default config
            (merge_keyed (typed_key_element keys) (map (fun b a => merge_typed a b elem) c) l c)
      | LSet => if forallb is_scalar (c ++ l) then union_scalars l c else config
      | LAtomic => config
      end
  | _, _, Legacy => merge_values live config ""
  | _, _, _ => config
  end.
End Merge.

(** ** Paths into a value *)

Section Paths.
Context {JT : JsonText} {JP : JsonParse}.

(** [serde_json::from_str::<Map<String, Value>>(key).ok()]. *)
Definition parse_map (key : string) : option (list (string * Json)) :=
  match json_parse key with Some (JObject m) => Some m | _ => None end.

(** [want.iter().all(|(k, v)| item.get(k) == Some(v))]. *)
Definition item_matches (want : list (string * Json)) (item : Json) : bool :=
  forallb (fun kv => match get kv.1 item with Some v => value_eqb v kv.2 | None => false end) want.

(** [items.iter_mut().find(p)] changed by [f]. *)
Fixpoint alter_first (p : Json -> bool) (f : Json -> Json) (items : list Json) : list Json :=
  match items with
  | [] => []
  | item :: items => if p item then f item :: items else item :: alter_first p f items
  end.

Fixpoint remove_path (path : list string) (v : Json) : Json :=
  match path with
  | [] => v
  | first :: rest =>
      match strip_prefix "f:" first with
      | Some name =>
          match v with
          | JObject m =>
              match rest with
              | [] => JObject (obj_remove name m)
              | _ =>
                  match obj_get name m with
                  | Some child => JObject (obj_insert name (remove_path rest child) m)
                  | None => v
                  end
              end
          | _ => v
          end
      | None =>
          match strip_prefix "k:" first with
          | Some key =>
              match parse_map key, v with
              | Some want, JArray items =>
                  match rest with
                  | [] => JArray (List.filter (fun i => negb (item_matches want i)) items)
                  | _ => JArray (alter_first (item_matches want) (remove_path rest) items)
                  end
              | _, _ => v
              end
          | None =>
              match strip_prefix "v:" first with
              | Some text =>
                  match json_parse text, rest, v with
                  | Some want, [], JArray items => JArray (List.filter (fun i => negb (value_eqb i want)) items)
                  | _, _, _ => v
                  end
              | None => v
              end
          end
      end
  end.

(** [value_at]: one element, then the rest. *)
Definition step_at (v : Json) (element : string) : option Json :=
  match strip_prefix "f:" element with
  | Some name => match v with JObject m => obj_get name m | _ => None end
  | None =>
      match strip_prefix "k:" element with
      | Some key =>
          want ← parse_map key;
          match v with JArray items => List.find (item_matches want) items | _ => None end
      | None =>
          match strip_prefix "v:" element with
          | Some text =>
              want ← json_parse text;
              match v with JArray items => List.find (fun i => value_eqb i want) items | _ => None end
          | None => None
          end
      end
  end.

Fixpoint value_at (v : Json) (path : list string) : option Json :=
  match path with
  | [] => Some v
  | first :: rest => c ← step_at v first; value_at c rest
  end.

(** [items.iter().position(p)]. *)
Definition find_position (p : Json -> bool) (items : list Json) : option nat :=
  fst <$> list_find (fun i => p i = true) items.

Fixpoint extract_path (merged : Json) (path : list string) (out : Json) : Json :=
  match path with
  | [] => out
  | first :: rest =>
      match value_at merged [first] with
      | None => out
      | Some source =>
          match strip_prefix "f:" first with
          | Some name =>
              let m := match out with JObject m => m | _ => [] end in
              match rest with
              | [] =>
                  let value := match source with JObject _ => default (JObject []) (obj_get name m) | other => other end in
                  JObject (obj_insert name value m)
              | _ => JObject (obj_insert name (extract_path source rest (default JNull (obj_get name m))) m)
              end
          | None =>
              match strip_prefix "k:" first with
              | Some key =>
                  match parse_map key with
                  | None => out
                  | Some want =>
                      let items := match out with JArray items => items | _ => [] end in
                      match find_position (item_matches want) items with
                      | Some at_ => JArray (alter (extract_path source rest) at_ items)
                      | None => JArray (items ++ [extract_path source rest (JObject want)])
                      end
                  end
              | None =>
                  match strip_prefix "v:" first with
                  | Some _ =>
                      let items := match out with JArray items => items | _ => [] end in
                      if json_contains items source then JArray items else JArray (items ++ [source])
                  | None => out
                  end
              end
          end
      end
  end.

Definition path_element_string (element : string) : string :=
  match strip_prefix "f:" element with
  | Some name => "." +:+ name
  | None =>
      match strip_prefix "k:" element with
      | Some key =>
          "[" +:+ join "," (map (fun kv => kv.1 +:+ "=" +:+ json_text kv.2) (default [] (parse_map key))) +:+ "]"
      | None =>
          match strip_prefix "v:" element with
          | Some v => "[=" +:+ v +:+ "]"
          | None =>
              match strip_prefix "i:" element with
              | Some i => "[" +:+ i +:+ "]"
              | None => ""
              end
          end
      end
  end.

(** [path_string]. *)
Definition path_string (path : list string) : string :=
  foldl (fun out element => out +:+ path_element_string element) "" path.
End Paths.
