(* ===== verification/FieldMergeProps.v ===== *)
(** * Merging a configuration twice

    The merge of an applied configuration is idempotent: merging it again into
    the result changes nothing.  The loops over members and over associative lists
    are treated once, for any merge of two values, and used for the merge by name
    and for the merge by schema. *)

From stdpp Require Import strings gmap sorting.
From S2P Require Import Prelude RustText BTree Json Patch FieldSet FieldWalk FieldMerge.

(** ** Members *)

Section Members.
Variable f : string -> Json -> Json -> Json.

Lemma merge_members_get l c out k :
  keys_sorted c -> keys_sorted out ->
  keys_sorted (merge_members f l c out)
  /\ obj_get k (merge_members f l c out) =
     match obj_get k c with
     | None => obj_get k out
     | Some cv => if is_null cv then None else Some (match obj_get k l with Some lv => f k lv cv | None => cv end)
     end.
Proof.
  revert out. induction c as [|[a v] c IH]; intros out Hc Ho; [done|].
  pose proof Hc as [Hc' Ha]%keys_sorted_cons. cbn [merge_members]. fold (merge_members f l).
  destruct (is_null v) eqn:Ev.
  - destruct (IH (obj_remove a out)) as [H1 ->]; [done|by apply obj_remove_sorted|]. split; [done|].
    cbn [obj_get]. destruct (decide (a = k)) as [->|].
    + rewrite keys_below // Ev obj_get_remove // decide_True //.
    + rewrite obj_get_remove // decide_False //.
  - destruct (IH (obj_insert a (match obj_get a l with Some lv => f a lv v | None => v end) out)) as [H1 ->];
      [done|by apply obj_insert_sorted|]. split; [done|].
    cbn [obj_get]. destruct (decide (a = k)) as [->|].
    + rewrite keys_below // Ev obj_get_insert_eq //.
    + rewrite obj_get_insert_ne //.
Qed.

(** Merging a configuration of members that merge with themselves into the result
    of merging it. *)
Lemma merge_members_idem l c :
  keys_sorted l -> keys_sorted c ->
  (forall k cv, obj_get k c = Some cv ->
     cv <> JNull /\ f k cv cv = cv
     /\ forall lv, obj_get k l = Some lv -> f k (f k lv cv) cv = f k lv cv) ->
  merge_members f (merge_members f l c l) c (merge_members f l c l) = merge_members f l c l.
Proof.
  intros Hl Hc Hf. pose proof (fun k => merge_members_get l c l k Hc Hl) as Hr.
  destruct (Hr "") as [Hs _]. apply obj_ext; [by apply (merge_members_get _ _ _ "" Hc)|done|]. intros k.
  rewrite (proj2 (merge_members_get _ c _ k Hc Hs)) (proj2 (Hr k)).
  destruct (obj_get k c) as [cv|] eqn:E; [|done]. destruct (Hf k cv E) as (Hn & Hself & Hidem).
  destruct (is_null cv) eqn:Ev; [by destruct cv|].
  destruct (obj_get k l) as [lv|] eqn:El; f_equal; auto.
Qed.

Lemma merge_members_self c :
  keys_sorted c -> (forall k cv, obj_get k c = Some cv -> cv <> JNull /\ f k cv cv = cv) -> merge_members f c c c = c.
Proof.
  intros Hc Hf. apply obj_ext; [by apply (merge_members_get _ _ _ "" Hc)|done|]. intros k.
  rewrite (proj2 (merge_members_get _ c _ k Hc Hc)). destruct (obj_get k c) as [cv|] eqn:E; [|done].
  destruct (Hf k cv E) as (Hn & Hself). destruct (is_null cv) eqn:Ev; [by destruct cv|]. by f_equal.
Qed.
End Members.

(** ** Associative lists *)

Section Keyed.
Variable key : Json -> option string.
Variable g : Json -> Json -> Json.

(** The functions that [merge_keyed] is given. *)
Definition merges_of (c : list Json) : list (Json -> Json) := map (fun b a => g a b) c.

(** The items [l] have the keys [ks]. *)
Definition keyed (l : list Json) (ks : list string) : Prop := Forall2 (fun i k => key i = Some k) l ks.

Lemma mapM_keyed l ks : mapM key l = Some ks <-> keyed l ks.
Proof. apply mapM_Some. Qed.

Lemma position_Some k ks i : position k ks = Some i -> ks !! i = Some k.
Proof. unfold position. destruct (list_find _ ks) as [[j x]|] eqn:E; [|done]. intros [= <-]. by apply list_find_Some in E as (? & -> & _). Qed.

Lemma position_is_Some k ks : is_Some (position k ks) <-> k ∈ ks.
Proof.
  unfold position. split.
  - intros [i Hi]. apply list_elem_of_lookup. exists i. by apply position_Some.
  - intros Hk. destruct (list_find_elem_of (fun x => x = k) ks k Hk eq_refl) as [p Hp]. rewrite Hp. by eexists.
Qed.

Lemma merges_lookup c ck k i :
  keyed c ck -> position k ck = Some i ->
  exists b, b ∈ c /\ key b = Some k /\ c !! i = Some b /\ merges_of c !! i = Some (fun a => g a b).
Proof.
  intros Hc Hi%position_Some. destruct (Forall2_lookup_r _ _ _ _ _ Hc Hi) as (b & Hb & Hk).
  exists b. split_and!; [by apply list_elem_of_lookup; eauto|done|done|]. unfold merges_of. by rewrite list_lookup_fmap Hb.
Qed.

(** The items with a key of the configuration, after which nothing changes. *)
Lemma merge_live_items_id ck c l lk mk :
  keyed c ck -> keyed l lk -> NoDup (mk ++ filter (fun k => k ∈ ck) lk) ->
  (forall a k b, (a, k) ∈ zip l lk -> b ∈ c -> key b = Some k -> g a b = a) ->
  merge_live_items ck (merges_of c) l lk mk = l.
Proof.
  intros Hc Hl. revert mk. induction Hl as [|a k l lk Ha Hl IH]; intros mk Hnd Hg; [done|]. simpl in *.
  destruct (position k ck) as [i|] eqn:Ei.
  - assert (k ∈ ck) as Hk by (apply position_is_Some; eauto). rewrite filter_cons_True // in Hnd.
    assert (contains mk k = false) as ->.
    { apply not_true_iff_false. rewrite contains_true. intros Hin. apply NoDup_app in Hnd as (_ & H & _). by apply (H k Hin); left. }
    destruct (merges_lookup c ck k i Hc Ei) as (b & Hb & Hkb & _ & ->). simpl. f_equal; [apply (Hg a k b); [left|done|done]|].
    apply IH; [by rewrite -app_assoc|]. intros a' k' b' H. apply Hg. by right.
  - assert (k ∉ ck) as Hk by (intros H%position_is_Some; rewrite Ei in H; by destruct H). rewrite filter_cons_False // in Hnd.
    f_equal. apply IH; [done|]. intros a' k' b' H. apply Hg. by right.
Qed.

Lemma new_items_nil lk c ck : keyed c ck -> (forall k, k ∈ ck -> k ∈ lk) -> new_items lk c ck = [].
Proof.
  induction 1 as [|b k c ck Hb Hc IH]; intros H; [done|]. simpl.
  assert (contains lk k = true) as -> by (apply contains_true, H; left). apply IH. intros k' ?. apply H. by right.
Qed.

Lemma new_items_spec lk c ck :
  keyed c ck ->
  exists nk, keyed (new_items lk c ck) nk /\ (forall b, b ∈ new_items lk c ck -> b ∈ c)
    /\ sublist nk ck /\ (forall k, k ∈ nk <-> k ∈ ck /\ (k ∉ lk)).
Proof.
  induction 1 as [|b k c ck Hb Hc (nk & H1 & H2 & H3 & H4)]; simpl.
  - exists []. split_and!; [constructor|done|constructor|set_solver].
  - destruct (contains lk k) eqn:Ek.
    + apply contains_true in Ek. exists nk. split_and!; [done|set_solver|by constructor|]. intros x. rewrite H4. set_solver.
    + apply not_true_iff_false in Ek. rewrite contains_true in Ek.
      exists (k :: nk). split_and!; [by constructor|set_solver|by constructor|].
      intros x. rewrite !elem_of_cons H4. set_solver.
Qed.

(** The first loop: its items have keys of live items; those with a key of the
    configuration come once, and are merged. *)
Lemma merge_live_items_spec ck c l lk mk :
  keyed c ck -> keyed l lk ->
  (forall a b k, a ∈ l -> b ∈ c -> key a = Some k -> key b = Some k -> key (g a b) = Some k) ->
  exists ok, keyed (merge_live_items ck (merges_of c) l lk mk) ok
    /\ NoDup (filter (fun k => k ∈ ck) ok)
    /\ (forall k, k ∈ mk -> k ∈ ck -> k ∉ ok)
    /\ (forall k, k ∈ ok -> k ∈ lk)
    /\ (forall k, k ∈ lk -> k ∈ ok \/ k ∈ mk)
    /\ (forall x k, (x, k) ∈ zip (merge_live_items ck (merges_of c) l lk mk) ok ->
          k ∈ ck -> exists a b, a ∈ l /\ b ∈ c /\ key a = Some k /\ key b = Some k /\ x = g a b
            /\ exists i, position k ck = Some i /\ c !! i = Some b).
Proof.
  intros Hc Hl Hg. revert mk. induction Hl as [|a k l lk Ha Hl IH]; intros mk; simpl.
  { exists []. split_and!; [constructor|constructor|set_solver..]. }
  assert (forall a b k, a ∈ l -> b ∈ c -> key a = Some k -> key b = Some k -> key (g a b) = Some k) as Hg'
    by (intros; eapply Hg; eauto; by right).
  destruct (position k ck) as [i|] eqn:Ei.
  - assert (k ∈ ck) as Hk by (apply position_is_Some; eauto). destruct (contains mk k) eqn:Em.
    + apply contains_true in Em. destruct (IH Hg' mk) as (ok & H1 & H2 & H3 & H4 & H5 & H6).
      exists ok. split_and!; [done|done|done|set_solver| |].
      * intros x [->|Hx]%elem_of_cons; [by right|auto].
      * intros x k' Hx Hk'. destruct (H6 x k' Hx Hk') as (a' & b & ? & ?). exists a', b. split; [by right|done].
    + apply not_true_iff_false in Em. rewrite contains_true in Em.
      destruct (merges_lookup c ck k i Hc Ei) as (b & Hb & Hkb & Hib & ->). simpl.
      destruct (IH Hg' (mk ++ [k])) as (ok & H1 & H2 & H3 & H4 & H5 & H6).
      assert (k ∉ ok) as Hko by (apply H3; set_solver).
      exists (k :: ok). split_and!.
      * constructor; [|done]. apply (Hg a b k); [left|done..].
      * rewrite filter_cons_True //. constructor; [|done]. intros [_ ?]%list_elem_of_filter. done.
      * intros x Hx Hxc [->|Hxo]%elem_of_cons; [done|]. apply (H3 x); [set_solver|done|done].
      * set_solver.
      * intros x [->|Hx]%elem_of_cons; [left; left|]. destruct (H5 x Hx) as [?|?]; set_solver.
      * intros x k' [[= -> ->]|Hx]%elem_of_cons Hk'; [exists a, b; split; [left|eauto 10]|].
        destruct (H6 x k' Hx Hk') as (a' & b' & ? & ?). exists a', b'. split; [by right|done].
  - assert (k ∉ ck) as Hk by (intros H%position_is_Some; rewrite Ei in H; by destruct H).
    destruct (IH Hg' mk) as (ok & H1 & H2 & H3 & H4 & H5 & H6).
    exists (k :: ok). split_and!.
    + by constructor.
    + rewrite filter_cons_False //.
    + intros x Hx Hxc [->|?]%elem_of_cons; [done|]. by apply (H3 x).
    + set_solver.
    + set_solver.
    + intros x k' [[= -> ->]|Hx]%elem_of_cons Hk'; [done|].
      destruct (H6 x k' Hx Hk') as (a' & b' & ? & ?). exists a', b'. split; [by right|done].
Qed.

Lemma keyed_elem c ck b k : keyed c ck -> b ∈ c -> key b = Some k -> k ∈ ck.
Proof.
  intros Hc [i Hi]%list_elem_of_lookup Hk. destruct (Forall2_lookup_l _ _ _ _ _ Hc Hi) as (k' & Hk' & ?).
  apply list_elem_of_lookup. exists i. congruence.
Qed.

Lemma keyed_inj c ck a b k :
  keyed c ck -> NoDup ck -> a ∈ c -> b ∈ c -> key a = Some k -> key b = Some k -> a = b.
Proof.
  intros Hc Hnd [i Hi]%list_elem_of_lookup [j Hj]%list_elem_of_lookup Ha Hb.
  destruct (Forall2_lookup_l _ _ _ _ _ Hc Hi) as (k1 & Hk1 & ?). destruct (Forall2_lookup_l _ _ _ _ _ Hc Hj) as (k2 & Hk2 & ?).
  assert (i = j) as ->; [|congruence]. eapply (NoDup_lookup _ _ _ k Hnd); congruence.
Qed.

Lemma keyed_zip l ks a k : keyed l ks -> (a, k) ∈ zip l ks -> a ∈ l /\ key a = Some k.
Proof.
  induction 1 as [|b j l ks Hb Hl IH]; simpl; [by intros []%elem_of_nil|].
  intros [[= -> ->]|[? ?]%IH]%elem_of_cons; split; [left|done|by right|done].
Qed.

Section Config.
Variables (c : list Json) (ck : list string).
Hypothesis Hkeyed : keyed c ck.
Hypothesis Hunique : NoDup ck.
Hypothesis Hself : forall b, b ∈ c -> g b b = b.

Lemma merge_keyed_self : merge_keyed key (merges_of c) c c = Some (JArray c).
Proof.
  unfold merge_keyed. rewrite (proj2 (mapM_keyed c ck) Hkeyed). cbn [mbind option_bind].
  rewrite (new_items_nil ck c ck) // app_nil_r. do 2 f_equal. apply merge_live_items_id; [done|done|by apply NoDup_filter|].
  intros a k b [Ha Hak]%keyed_zip Hb Hbk; [|done].
  assert (a = b) as -> by (by apply (keyed_inj c ck _ _ k)). auto.
Qed.

Lemma merge_keyed_idem l lk :
  keyed l lk ->
  (forall a b k, a ∈ l -> b ∈ c -> key a = Some k -> key b = Some k -> key (g a b) = Some k /\ g (g a b) b = g a b) ->
  exists r, merge_keyed key (merges_of c) l c = Some (JArray r) /\ merge_keyed key (merges_of c) r c = Some (JArray r).
Proof.
  intros Hl Hg. unfold merge_keyed at 1. rewrite (proj2 (mapM_keyed l lk) Hl) (proj2 (mapM_keyed c ck) Hkeyed).
  cbn [mbind option_bind]. eexists. split; [done|].
  destruct (merge_live_items_spec ck c l lk [] Hkeyed Hl) as (ok & H1 & H2 & _ & H4 & H5 & H6); [intros; by apply Hg|].
  destruct (new_items_spec lk c ck Hkeyed) as (nk & N1 & N2 & N3 & N4).
  set (live := merge_live_items _ _ _ _ _) in *. set (fresh := new_items _ _ _) in *.
  assert (keyed (live ++ fresh) (ok ++ nk)) as Hr by (by apply Forall2_app).
  unfold merge_keyed. rewrite (proj2 (mapM_keyed _ _) Hr) (proj2 (mapM_keyed c ck) Hkeyed). cbn [mbind option_bind].
  rewrite (new_items_nil (ok ++ nk) c ck) // ?app_nil_r.
  { intros k Hk. apply elem_of_app. destruct (decide (k ∈ lk)) as [Hkl|Hkl]; [left|right; by apply N4].
    destruct (H5 k Hkl) as [?|[]%elem_of_nil]. done. }
  do 2 f_equal. apply merge_live_items_id; [done|done| |].
  - rewrite filter_app. simpl. apply NoDup_app. split_and!; [done| |apply NoDup_filter; by apply (sublist_NoDup _ ck)].
    intros k [_ Hk]%list_elem_of_filter [_ Hk']%list_elem_of_filter. apply N4 in Hk' as [_ []]. auto.
  - intros x k b Hx Hb Hbk. assert (k ∈ ck) as Hk by (by eapply keyed_elem).
    rewrite zip_with_app in Hx; [by apply (Forall2_length _ _ _ H1)|]. apply elem_of_app in Hx as [Hx|Hx].
    + destruct (H6 x k Hx Hk) as (a & b' & Ha & Hb' & Hak & Hbk' & -> & _).
      assert (b' = b) as -> by (by apply (keyed_inj c ck _ _ k)). by apply (Hg a b k).
    + apply keyed_zip in Hx as [Hx Hxk]; [|done]. assert (x = b) as -> by (apply (keyed_inj c ck _ _ k); auto). auto.
Qed.
End Config.
End Keyed.

(** ** Sets of scalars *)

Lemma json_contains_elem out v : v ∈ out -> json_contains out v = true.
Proof.
  intros Hv. unfold json_contains. apply existsb_exists. exists v. split; [by apply list_elem_of_In|].
  unfold value_eqb. by apply json_eqb_eq.
Qed.

Abbreviation push_scalar := (fun out item => if json_contains out item then out else out ++ [item]).

Lemma union_contained out c : (forall v, v ∈ c -> json_contains out v = true) -> foldl push_scalar out c = out.
Proof.
  revert out. induction c as [|v c IH]; intros out H; [done|]. cbn [foldl]. rewrite (H v); [left|].
  apply IH. intros w ?. apply H. by right.
Qed.

Lemma union_grows out c v : json_contains out v = true -> json_contains (foldl push_scalar out c) v = true.
Proof.
  revert out. induction c as [|w c IH]; intros out H; [done|]. cbn [foldl]. apply IH.
  destruct (json_contains out w); [done|]. unfold json_contains in *. by rewrite existsb_app H.
Qed.

Lemma union_has out c v : v ∈ c -> json_contains (foldl push_scalar out c) v = true.
Proof.
  revert out. induction c as [|w c IH]; intros out; [by intros []%elem_of_nil|].
  intros [->|Hv]%elem_of_cons; cbn [foldl]; [|by apply IH]. apply union_grows.
  destruct (json_contains out w) eqn:E; [done|]. apply json_contains_elem. set_solver.
Qed.

Lemma union_scalars_self c : union_scalars c c = JArray c.
Proof. unfold union_scalars. f_equal. apply union_contained. apply json_contains_elem. Qed.

Lemma union_scalars_idem l c : union_scalars (foldl push_scalar l c) c = union_scalars l c.
Proof. unfold union_scalars. f_equal. apply union_contained. intros v. apply union_has. Qed.

Lemma union_scalars_scalar l c :
  forallb is_scalar (c ++ l) = true -> forallb is_scalar (c ++ foldl push_scalar l c) = true.
Proof.
  rewrite !forallb_app !andb_true_iff. intros [Hc Hl]. split; [done|]. revert l Hc Hl.
  induction c as [|v c IH]; intros l Hc Hl; [done|]. simpl in Hc. apply andb_true_iff in Hc as [Hv Hc].
  cbn [foldl]. apply IH; [done|]. destruct (json_contains l v); [done|]. by rewrite forallb_app Hl /= Hv.
Qed.

(** ** The merge by name *)

Section ByName.
Context {JT : JsonText}.

(** The key fields of an item are scalars. *)
Definition scalar_keys (keys : list string) (item : Json) : Prop :=
  match item with
  | JObject m => forall key v, key ∈ keys -> obj_get key m = Some v -> is_scalar v = true
  | _ => True
  end.

(** A configuration of the field [name] that can be applied again: no null below
    an object that is merged, and in a list that is merged by key one item for
    each key, with scalar key fields. *)
Fixpoint applicable (name : string) (v : Json) {struct v} : Prop :=
  match v with
  | JObject m =>
      field_kind name = KAtomic
      \/ (keys_sorted m
          /\ (fix go m := match m with [] => True | (k, v) :: m => (v <> JNull /\ applicable k v) /\ go m end) m)
  | JArray l =>
      match field_kind name with
      | KeyedList keys =>
          (forall ks, mapM (key_element keys) l = Some ks -> NoDup ks)
          /\ (fix go l := match l with [] => True | i :: l => (applicable "" i /\ scalar_keys keys i) /\ go l end) l
      | _ => True
      end
  | _ => True
  end.

Lemma applicable_object name m :
  applicable name (JObject m) <->
  field_kind name = KAtomic \/ (keys_sorted m /\ forall k v, (k, v) ∈ m -> v <> JNull /\ applicable k v).
Proof.
  cbn [applicable]. apply or_iff_compat_l, and_iff_compat_l.
  induction m as [|[k v] m IH]; [split; [intros _ ?? []%elem_of_nil|done]|]. rewrite IH. split.
  - intros [Hv H] a w [[= -> ->]|Ha]%elem_of_cons; [done|by apply H].
  - intros H. split; [apply H; left|]. intros a w Ha. apply H. by right.
Qed.

Lemma applicable_items name keys l :
  field_kind name = KeyedList keys ->
  applicable name (JArray l) <->
  (forall ks, mapM (key_element keys) l = Some ks -> NoDup ks)
  /\ (forall i, i ∈ l -> applicable "" i /\ scalar_keys keys i).
Proof.
  intros Hk. cbn [applicable]. rewrite Hk. apply and_iff_compat_l.
  induction l as [|i l IH]; [split; [intros _ ? []%elem_of_nil|done]|]. rewrite IH. split.
  - intros [Hi H] j [->|Hj]%elem_of_cons; [done|by apply H].
  - intros H. split; [apply H; left|]. intros j Hj. apply H. by right.
Qed.

Lemma merge_scalar live v name : is_scalar v = true -> merge_values live v name = v.
Proof. destruct v, live; simpl; try done. Qed.

Lemma merge_objects l m :
  merge_values (JObject l) (JObject m) "" = JObject (merge_members (fun k lv cv => merge_values lv cv k) l m l).
Proof. done. Qed.

Lemma key_fields_ext keys obj obj' sorted r :
  (forall key, key ∈ keys -> get_non_null key obj <> None -> get_non_null key obj' = get_non_null key obj) ->
  key_fields keys obj sorted = Some r -> key_fields keys obj' sorted = Some r.
Proof.
  revert sorted. induction keys as [|key keys IH]; intros sorted H; [done|]. cbn [key_fields].
  destruct (get_non_null key obj) as [v|] eqn:E; [|done]. cbn [mbind option_bind].
  rewrite (H key); [left|congruence|]. rewrite E. cbn [mbind option_bind]. apply IH. intros. apply H; [by right|done].
Qed.

(** A merged item has the key of the item it was merged with. *)
Lemma merge_item_key keys a b k :
  json_wf a -> json_wf b -> scalar_keys keys b ->
  key_element keys a = Some k -> key_element keys b = Some k ->
  key_element keys (merge_values a b "") = Some k.
Proof.
  intros Hwa Hwb Hsc. destruct b as [| | | | |m]; try done. destruct a as [| | | | |l]; try done.
  apply json_wf_object in Hwa as [Hl _], Hwb as [Hm _]. intros _. rewrite merge_objects. cbn [key_element].
  destruct (key_fields keys m []) as [r|] eqn:Er; [|done]. intros [= <-].
  rewrite (key_fields_ext keys m _ [] r) // => key Hkey. unfold get_non_null.
  rewrite (proj2 (merge_members_get _ l m l key Hm Hl)).
  destruct (obj_get key m) as [v|] eqn:E; [|done]. destruct (is_null v) eqn:En; [done|]. intros _.
  assert (is_scalar v = true) as Hv by (by apply (Hsc key v)).
  destruct (obj_get key l); [rewrite merge_scalar //|]; by rewrite En.
Qed.

Lemma merge_values_keyed name keys l c :
  field_kind name = KeyedList keys ->
  merge_values (JArray l) (JArray c) name
  = default (JArray c) (merge_keyed (key_element keys) (merges_of (fun a b => merge_values a b "") c) l c).
Proof. intros Hk. cbn [merge_values]. by rewrite Hk. Qed.

(** A configuration merged into itself. *)
Lemma merge_values_self c : forall name, json_wf c -> applicable name c -> merge_values c c name = c.
Proof.
  induction c as [|b|t|s|l IH|m IH] using Json_ind_nested; intros name Hwf Hap; try done.
  - apply json_wf_array in Hwf. destruct (field_kind name) as [| |keys| |] eqn:Hk; try (cbn [merge_values]; by rewrite Hk).
    + rewrite (merge_values_keyed name keys) //. destruct (proj1 (applicable_items name keys l Hk) Hap) as [Hnd Hi].
      destruct (mapM (key_element keys) l) as [ck|] eqn:Eck; [|unfold merge_keyed; by rewrite Eck].
      apply mapM_keyed in Eck as Hck. rewrite (merge_keyed_self _ _ l ck) //; [by apply Hnd|].
      intros b Hb. rewrite -> Forall_forall in IH, Hwf. apply IH; [done|by apply Hwf|by apply Hi].
    + cbn [merge_values]. rewrite Hk. destruct (forallb _ _); [apply union_scalars_self|done].
  - apply json_wf_object in Hwf as [Hs Hwf]. cbn [merge_values]. case_decide as Hk; [done|].
    apply applicable_object in Hap as [?|[_ Hap]]; [done|]. f_equal. apply merge_members_self; [done|].
    intros k cv Hkv%obj_get_elem. destruct (Hap k cv Hkv) as [Hn Ha]. split; [done|].
    rewrite -> Forall_forall in IH, Hwf. apply (IH (k, cv)); [done|by apply (Hwf (k, cv))|done].
Qed.

Lemma merge_values_idem c : forall live name,
  json_wf live -> json_wf c -> applicable name c ->
  merge_values (merge_values live c name) c name = merge_values live c name.
Proof.
  induction c as [|b|t|s|l IH|m IH] using Json_ind_nested; intros live name Hwl Hwf Hap; try by destruct live.
  - destruct live as [| | | |ll|]; try (by apply merge_values_self).
    destruct (field_kind name) as [| |keys| |] eqn:Hk; try (cbn [merge_values]; rewrite Hk; by destruct l).
    + rewrite (merge_values_keyed name keys) //.
      destruct (mapM (key_element keys) l) as [ck|] eqn:Eck.
      2: { unfold merge_keyed. rewrite Eck. destruct (mapM _ ll); by apply merge_values_self. }
      destruct (mapM (key_element keys) ll) as [lk|] eqn:Elk.
      2: { unfold merge_keyed. rewrite Elk. by apply merge_values_self. }
      destruct (proj1 (applicable_items name keys l Hk) Hap) as [Hnd Hi].
      apply json_wf_array in Hwf, Hwl. rewrite -> Forall_forall in IH, Hwf, Hwl.
      apply mapM_keyed in Eck as Hck, Elk as Hlk.
      destruct (merge_keyed_idem (key_element keys) (fun a b => merge_values a b "") l ck Hck (Hnd _ Eck)) with ll lk as (r & -> & Hr).
      * intros b Hb. apply merge_values_self; [by apply Hwf|by apply Hi].
      * done.
      * intros a b k Ha Hb Hak Hbk. split; [apply merge_item_key; auto; by apply Hi|]. apply IH; auto. by apply Hi.
      * cbn [from_option id]. rewrite (merge_values_keyed name keys) //. by rewrite Hr.
    + cbn [merge_values]. rewrite Hk. destruct (forallb is_scalar (l ++ ll)) eqn:E.
      * unfold union_scalars at 1. rewrite union_scalars_scalar //. apply union_scalars_idem.
      * destruct (forallb is_scalar (l ++ l)); [apply union_scalars_self|done].
  - destruct live as [| | | | |ll]; try (by apply merge_values_self).
    apply json_wf_object in Hwl as [Hsl Hwl], Hwf as [Hs Hwf]. cbn [merge_values].
    case_decide as Hk; [done|]. f_equal.
    apply applicable_object in Hap as [?|[_ Hap]]; [done|]. apply merge_members_idem; [done|done|].
    intros k cv Hkv%obj_get_elem. destruct (Hap k cv Hkv) as [Hn Ha]. rewrite -> Forall_forall in IH, Hwf, Hwl.
    split_and!; [done|apply merge_values_self; [by apply (Hwf (k, cv))|done]|].
    intros lv Hlv%obj_get_elem. apply (IH (k, cv)); [done|by apply (Hwl (k, lv))|by apply (Hwf (k, cv))|done].
Qed.
End ByName.

(** C31: merging an applied configuration is idempotent.  Without a schema, and
    for a configuration with no null member in the objects that are merged and
    with one item for each key, of scalar key fields, in the lists that are merged
    by key, merging it again into the merged object changes nothing, whatever the
    live object was (its lists may have items with the same key). *)
Theorem merge_idempotent {JT : JsonText} live config :
  json_wf live -> json_wf config -> applicable "" config ->
  merge_values (merge_values live config "") config "" = merge_values live config "".
Proof. intros. by apply merge_values_idem. Qed.

(** A container renamed by key, a new one, a label. *)
Definition sample_live : Json :=
  JObject [("metadata", JObject [("labels", JObject [("a", JString "1")])]);
           ("spec", JObject [("containers",
              JArray [JObject [("image", JString "x"); ("name", JString "c")];
                      JObject [("image", JString "y"); ("name", JString "c")]])])].

Definition sample_config : Json :=
  JObject [("metadata", JObject [("labels", JObject [("b", JString "2")])]);
           ("spec", JObject [("containers", JArray [JObject [("name", JString "c"); ("tty", JBool true)]])])].

#[local] Instance quoted_text : JsonText :=
  fun v => match v with JObject [(_, JString s)] => s | _ => "" end.

Lemma sample_live_wf : json_wf sample_live.
Proof. repeat (split || constructor || reflexivity). Qed.

Lemma sample_config_wf : json_wf sample_config.
Proof. repeat (split || constructor || reflexivity). Qed.

(** Goes into the members of a concrete object. *)
Ltac applicable_members :=
  apply applicable_object; right; split;
  [repeat (split || constructor || reflexivity)
  |let H := fresh in
   intros ? ? H; repeat (apply elem_of_cons in H as [[= -> ->]|H]); try (by apply elem_of_nil in H); (split; [done|])].

Lemma sample_config_applicable : applicable "" sample_config.
Proof.
  unfold sample_config. applicable_members; applicable_members; [applicable_members; done|].
  apply (applicable_items _ ["name"]); [reflexivity|]. split; [intros ks [= <-]; apply NoDup_singleton|].
  intros i ->%list_elem_of_singleton. split; [applicable_members; done|].
  intros key v ->%list_elem_of_singleton [= <-]. reflexivity.
Qed.

Lemma merge_idempotent_witness :
  merge_values sample_live sample_config ""
  = JObject [("metadata", JObject [("labels", JObject [("a", JString "1"); ("b", JString "2")])]);
             ("spec", JObject [("containers",
                JArray [JObject [("image", JString "x"); ("name", JString "c"); ("tty", JBool true)]])])]
  /\ merge_values (merge_values sample_live sample_config "") sample_config "" = merge_values sample_live sample_config "".
Proof.
  split; [vm_compute; reflexivity|]. apply merge_idempotent;
    [apply sample_live_wf|apply sample_config_wf|apply sample_config_applicable].
Defined.
