(* ===== verification/FieldManager.v ===== *)
(** * The field manager

    Model of [crates/common/src/fieldmanager/mod.rs], of [FieldManager::apply_value]
    in [fieldmanager/apply.rs] and of [fieldmanager/versionconverter.rs]: the
    entries of [managedFields], the Update path, the Apply path and its conflicts,
    the pruning of what an applier no longer applies.

    [Utc::now()] is the argument [now].  The texts of a manager's identity and of
    the entries are [serde]'s: the parameters [id_text] and [id_parse],
    [entries_of_json] and [entries_to_json].  A [Converter] is a trait object: a
    record of its two methods. *)

From stdpp Require Import strings gmap pretty.
From Stdlib Require Import ZArith.
From S2P Require Import Prelude RustText BTree Json Patch FieldSet FieldWalk FieldMerge.

#[local] Open Scope rust_scope.

(** ** Times *)

(** [DateTime<Utc>]: nanoseconds since the epoch. *)
Definition Time : Type := Z.

Definition nanos_per_second : Z := 1000000000.

Definition timestamp (t : Time) : Z := Z.div t nanos_per_second.

(** [t.trunc_subsecs(0)]. *)
Definition trunc_subsecs (t : Time) : Time := (t - Z.modulo t nanos_per_second)%Z.

(** ** Conversion between versions *)

Inductive ConvertError := MissingVersion (gvk : string) | Other (e : string).

Definition convert_error_text (e : ConvertError) : string :=
  match e with MissingVersion gvk => "no corresponding type for " +:+ gvk | Other e => e end.

Record Converter := mkConverter {
  convert : Json -> string -> result Json ConvertError;
  is_missing_version_error : ConvertError -> bool
}.

(** The trait's default method. *)
Definition default_is_missing (e : ConvertError) : bool :=
  match e with MissingVersion _ => true | Other _ => false end.

(** [ObjectConvertor::convert_to_version]. *)
Definition ObjectConvertor : Type := Json -> string -> result Json ConvertError.

Definition parse_group_version (gv : string) : result (string * string) ConvertError :=
  if decide (gv = "" \/ gv = "/") then Ok ("", "")
  else
    match split_char slash gv with
    | [v] => Ok ("", v)
    | [g; v] => Ok (g, v)
    | _ => Err (Other ("unexpected GroupVersion string: " +:+ gv))
    end.

Definition group_version_string (group version : string) : string :=
  if decide (group = "") then version else group +:+ "/" +:+ version.

Definition API_VERSION_INTERNAL : string := "__internal".

(** [VersionConverter::new]'s and [VersionConverter::new_crd]'s hub. *)
Definition hub_of_group (hub_version from : string) : string :=
  group_version_string (match parse_group_version from with Ok gv => gv.1 | Err _ => "" end) hub_version.

Definition hub_fixed (hub : string) (_ : string) : string := hub.

(** [VersionConverter::convert]. *)
Definition convert_through_hub (oc : ObjectConvertor) (hub_getter : string -> string)
    (object : Json) (version : string) : result Json ConvertError :=
  try target <- parse_group_version version;
  let from_version := default "" (get "apiVersion" object ≫= as_str) in
  try from <- parse_group_version from_version;
  if decide (from = target) then Ok object
  else
    try internal <- oc object (hub_getter from_version);
    oc internal version.

Definition version_converter (oc : ObjectConvertor) (hub_getter : string -> string) : Converter :=
  mkConverter (convert_through_hub oc hub_getter) default_is_missing.

(** [NopObjectConvertor]. *)
Definition nop_convertor : ObjectConvertor := fun object group_version =>
  Ok (match object with
      | JObject m => JObject (obj_insert "apiVersion" (JString group_version) m)
      | _ => object
      end).

(** ** Reset fields *)

Record ResetFields := mkReset {
  sets : list (string * list (list string));
  filters : list (string * Filter)
}.

Definition reset_none : ResetFields := mkReset [] [].

Definition with_set (r : ResetFields) (version : string) (ps : list (list string)) : ResetFields :=
  mkReset (obj_insert version ps (sets r)) (filters r).

Definition with_filter (r : ResetFields) (version : string) (f : Filter) : ResetFields :=
  mkReset (sets r) (obj_insert version f (filters r)).

Definition for_version (r : ResetFields) (version : string) : list (list string) :=
  default [] (obj_get version (sets r)).

Definition filter_for (r : ResetFields) (version : string) : option Filter :=
  match obj_get version (filters r) with
  | Some f => Some f
  | None =>
      if decide (for_version r version = []) then None
      else Some (Exclude (foldl (fun s p => set_insert (field_path p) s) set_new (for_version r version)))
  end.

Definition combine (s f : ResetFields) : result ResetFields string :=
  if decide (sets s <> [] /\ length (filters f) <> 0) then
    Err "may not implement both ResetFieldsStrategy and ResetFieldsFilterStrategy"
  else Ok (mkReset (sets s) (filters f)).

(** ** Managers *)

Definition OPERATION_APPLY : string := "Apply".
Definition OPERATION_UPDATE : string := "Update".
Definition ANCIENT_CHANGES : string := "ancient-changes".
Definition BEFORE_FIRST_APPLY : string := "before-first-apply".
Definition DEFAULT_MAX_UPDATE_MANAGERS : nat := 10.

Record ManagerIdentity := mkIdentity {
  id_manager : string;
  id_operation : string;
  id_api_version : string;
  id_subresource : string
}.

#[export] Instance ManagerIdentity_eq_dec : EqDecision ManagerIdentity.
Proof. solve_decision. Defined.

(** [ManagerIdentity::default()]. *)
Definition identity_default : ManagerIdentity := mkIdentity "" "" "" "".

(** The JSON text of an identity, and its parser. *)
Class IdText := {
  id_text : ManagerIdentity -> string;
  id_parse : string -> option ManagerIdentity
}.

Record VersionedSet := mkVersioned {
  vs_set : FieldSet;
  vs_api_version : string;
  vs_applied : bool
}.

Record Managed := mkManaged {
  managed_fields : list (string * VersionedSet);
  managed_times : list (string * option Time)
}.

Definition managed_default : Managed := mkManaged [] [].

Record ManagedFieldsEntry := mkEntry {
  e_manager : option string;
  e_operation : option string;
  e_api_version : option string;
  e_time : option Time;
  e_fields_type : option string;
  e_fields_v1 : option Json;
  e_subresource : option string
}.

(** [serde]'s decoder and encoder of a list of entries. *)
Class EntryText := {
  entries_of_json : Json -> option (list ManagedFieldsEntry);
  entries_to_json : list ManagedFieldsEntry -> Json
}.

Section Managers.
Context {IT : IdText} {TF : TextFormat}.

(** The identity [build_manager_identifier] serialises. *)
Definition manager_identity (manager operation api_version subresource : string) : ManagerIdentity :=
  mkIdentity manager operation (if decide (operation = OPERATION_APPLY) then "" else api_version) subresource.

Definition build_manager_identifier (manager operation api_version subresource : string) : string :=
  id_text (manager_identity manager operation api_version subresource).

(** [serde_json::from_str(id).unwrap_or_default()]. *)
Definition identity_of (id : string) : ManagerIdentity := default identity_default (id_parse id).

(** One entry of [Managed::decode]. *)
Definition decode_entry (i : nat) (entry : ManagedFieldsEntry) : result (string * VersionedSet) string :=
  let operation := default "" (e_operation entry) in
  if decide (operation <> OPERATION_APPLY /\ operation <> OPERATION_UPDATE) then
    Err "operation must be `Apply` or `Update`"
  else
    let api_version := default "" (e_api_version entry) in
    if decide (api_version = "") then Err "apiVersion must not be empty"
    else
      try _ <- match e_fields_type entry with
               | None => Err ("missing fieldsType in managed fields entry " +:+ pretty i)
               | Some t =>
                   if decide (t = "FieldsV1") then Ok tt
                   else if decide (t = "") then Err ("missing fieldsType in managed fields entry " +:+ pretty i)
                   else Err ("invalid fieldsType " +:+ debug_str t +:+ " in managed fields entry " +:+ pretty i)
               end;
      let id := build_manager_identifier (default "" (e_manager entry)) operation api_version
                  (default "" (e_subresource entry)) in
      try s <- match e_fields_v1 entry with
               | None => Ok set_new
               | Some v =>
                   match from_root_fields_v1 v with
                   | Some s => Ok s
                   | None => Err "error decoding set: invalid fieldsV1"
                   end
               end;
      Ok (id, mkVersioned s api_version (bool_decide (operation = OPERATION_APPLY))).

Fixpoint decode_from (i : nat) (entries : list ManagedFieldsEntry) (managed : Managed) : result Managed string :=
  match entries with
  | [] => Ok managed
  | entry :: entries =>
      try (id, vs) <- decode_entry i entry;
      decode_from (S i) entries
        (mkManaged (obj_insert id vs (managed_fields managed)) (obj_insert id (e_time entry) (managed_times managed)))
  end.

(** [Managed::decode]. *)
Definition decode (entries : list ManagedFieldsEntry) : result Managed string :=
  decode_from 0 entries managed_default.

(** [self.times.get(id).copied().flatten()]. *)
Definition time_of (managed : Managed) (id : string) : option Time := mjoin (obj_get id (managed_times managed)).

Definition encode_entry (managed : Managed) (id : string) (vs : VersionedSet) : ManagedFieldsEntry :=
  let identity := identity_of id in
  mkEntry (non_empty (Some (id_manager identity)))
    (Some (if vs_applied vs then OPERATION_APPLY else OPERATION_UPDATE))
    (Some (vs_api_version vs)) (time_of managed id) (Some "FieldsV1") (Some (to_fields_v1 (vs_set vs)))
    (non_empty (Some (id_subresource identity))).

(** [Option<String>]'s order. *)
Definition option_string_cmp (a b : option string) : comparison :=
  match a, b with
  | None, None => Eq
  | None, Some _ => Lt
  | Some _, None => Gt
  | Some a, Some b => String.compare a b
  end.

(** [Ordering::then]. *)
Definition then_cmp (a b : comparison) : comparison := match a with Eq => b | _ => a end.

(** [e.time.map(|t| t.timestamp()).unwrap_or(0)]. *)
Definition seconds_of (t : option Time) : Z := from_option timestamp 0%Z t.

Definition entry_cmp (p q : ManagedFieldsEntry) : comparison :=
  then_cmp (option_string_cmp (e_operation p) (e_operation q))
    (then_cmp (Z.compare (seconds_of (e_time p)) (seconds_of (e_time q)))
       (then_cmp (option_string_cmp (e_manager p) (e_manager q))
          (then_cmp (option_string_cmp (e_api_version p) (e_api_version q))
             (option_string_cmp (e_subresource p) (e_subresource q))))).

Definition not_greater (c : comparison) : bool := match c with Gt => false | _ => true end.

(** [Managed::encode]. *)
Definition encode (managed : Managed) : option (list ManagedFieldsEntry) :=
  match managed_fields managed with
  | [] => None
  | fs => Some (sort_by (fun p q => not_greater (entry_cmp p q)) (map (fun kv => encode_entry managed kv.1 kv.2) fs))
  end.

Definition is_reset_managed_fields (entries : option (list ManagedFieldsEntry)) : bool :=
  match entries with
  | None => false
  | Some [] => true
  | Some [mkEntry None None None None None None None] => true
  | Some _ => false
  end.

(** ** The cap on the number of managers *)

Definition seconds_at (managed : Managed) (id : string) : Z := seconds_of (time_of managed id).

Definition updater_cmp (managed : Managed) (i j : string) : comparison :=
  then_cmp (Z.compare (seconds_at managed i) (seconds_at managed j)) (String.compare i j).

(** The identifier of the bucket of a version. *)
Definition bucket_of (version : string) : string :=
  build_manager_identifier ANCIENT_CHANGES OPERATION_UPDATE version "".

(** A round of the loop that merges an updater into its bucket. *)
Definition merge_into_bucket (managed : Managed) (first manager : string) (vs : VersionedSet) : Managed :=
  let time := time_of managed manager in
  let bucket := bucket_of (vs_api_version vs) in
  let fs := managed_fields managed in
  let fs :=
    match obj_get bucket fs with
    | Some _ => fs
    | None =>
        match obj_get first fs with
        | Some s => obj_insert bucket s (obj_remove first fs)
        | None => fs
        end
    end in
  let existing := from_option vs_set set_new (obj_get bucket fs) in
  let fs := obj_insert bucket (mkVersioned (set_union (vs_set vs) existing) (vs_api_version vs) (vs_applied vs)) fs in
  mkManaged (obj_remove manager fs) (obj_insert bucket time (managed_times managed)).

Fixpoint cap_loop (max : nat) (updaters : list string) (length : nat)
    (version_to_first : list (string * string)) (managed : Managed) : Managed :=
  match updaters with
  | [] => managed
  | manager :: updaters =>
      if decide (length <= max) then managed
      else
        match obj_get manager (managed_fields managed) with
        | None => cap_loop max updaters length version_to_first managed
        | Some vs =>
            match obj_get (vs_api_version vs) version_to_first with
            | Some first =>
                cap_loop max updaters (length - 1) version_to_first (merge_into_bucket managed first manager vs)
            | None =>
                cap_loop max updaters length (obj_insert (vs_api_version vs) manager version_to_first) managed
            end
        end
  end.

(** The identifiers of the Update entries. *)
Definition updaters_of (managed : Managed) : list string :=
  map fst (List.filter (fun kv => negb (vs_applied kv.2)) (managed_fields managed)).

Definition sorted_updaters (managed : Managed) : list string :=
  sort_by (fun i j => not_greater (updater_cmp managed i j)) (updaters_of managed).

Definition cap_update_managers (managed : Managed) (max : nat) : Managed :=
  if decide (length (updaters_of managed) <= max) then managed
  else cap_loop max (sorted_updaters managed) (length (updaters_of managed)) [] managed.
End Managers.
