(* ===== verification/ServerSideApply.v ===== *)
(** * Updates and server-side apply

    Model of the methods of [FieldManager] in [crates/common/src/fieldmanager/mod.rs]
    ([update_managed]), [fieldmanager/apply.rs] ([apply_managed], [apply_value]) and
    [fieldmanager/versionconverter.rs] ([update_versions], [prune_versioned]). *)

From stdpp Require Import strings gmap pretty.
From Stdlib Require Import ZArith.
From S2P Require Import Prelude RustText BTree Json Patch FieldSet FieldWalk FieldMerge FieldManager.

#[local] Open Scope rust_scope.

Record ApplyConflict := mkConflict { conflict_manager : string; conflict_path : string }.

Inductive UpdateFailure :=
| Conflicts (l : list ApplyConflict)
| Convert (e : string).

Record FieldManager := mkFieldManager {
  api_version : string;
  subresource : string;
  reset_fields : ResetFields;
  schema : option Ty;
  converter : option Converter
}.

Definition field_manager_new (version : string) (sub : option string) (reset : ResetFields) : FieldManager :=
  mkFieldManager version (default "" sub) reset None None.

Definition with_schema (fm : FieldManager) (s : option Ty) : FieldManager :=
  mkFieldManager (api_version fm) (subresource fm) (reset_fields fm) s (converter fm).

Definition with_converter (fm : FieldManager) (c : option Converter) : FieldManager :=
  mkFieldManager (api_version fm) (subresource fm) (reset_fields fm) (schema fm) c.

Definition strip_paths : list (list string) :=
  [["apiVersion"]; ["kind"]; ["metadata"]; ["metadata"; "name"]; ["metadata"; "namespace"];
   ["metadata"; "creationTimestamp"]; ["metadata"; "selfLink"]; ["metadata"; "uid"];
   ["metadata"; "clusterName"]; ["metadata"; "generation"]; ["metadata"; "managedFields"];
   ["metadata"; "resourceVersion"]].

Definition strip_set : FieldSet := foldl (fun s p => set_insert (field_path p) s) set_new strip_paths.

Definition remove_managed_fields (obj : Json) : Json :=
  match obj with
  | JObject m =>
      match obj_get "metadata" m with
      | Some (JObject meta) => JObject (obj_insert "metadata" (JObject (obj_remove "managedFields" meta)) m)
      | _ => obj
      end
  | _ => obj
  end.

Section Apply.
Context {JT : JsonText} {JP : JsonParse} {IT : IdText}.
Variable self : FieldManager.

Definition fields_of (obj : Json) : Fields :=
  match schema self with
  | Some t => fields_of_typed obj t
  | None => fields_of_object obj
  end.

(** [FieldManager::merge]. *)
Definition merge_config (live config : Json) : Json :=
  match schema self with
  | Some t => merge_typed live config t
  | None => merge_values live config ""
  end.

Definition reset_filter_for (version : string) : option Filter := filter_for (reset_fields self) version.
Definition reset_filter : option Filter := reset_filter_for (api_version self).

Definition convert_to (object : Json) (version : string) : result Json ConvertError :=
  match converter self with
  | None => Ok object
  | Some c =>
      if decide (default "" (get "apiVersion" object ≫= as_str) <> "") then convert c object version
      else
        convert c
          (match object with
           | JObject m => JObject (obj_insert "apiVersion" (JString (api_version self)) m)
           | _ => object
           end) version
  end.

Definition is_missing_version (e : ConvertError) : bool :=
  match converter self with Some c => is_missing_version_error c e | None => false end.

(** ** [update_versions] *)

Definition compare_at (old new : Json) (version : string) : Comparison :=
  let comparison := compare (fields_of old) (fields_of new) in
  match reset_filter_for version with
  | Some reset => filter_fields comparison reset
  | None => comparison
  end.

(** What the loop of [update_versions] collects. *)
Record Found := mkFound {
  versions : list (string * Comparison);
  conflicts : list (string * FieldSet);
  removals : list (string * FieldSet);
  missing : list string
}.

(** The comparison at a manager's version: computed once for each version. [None]
    when the version is missing. *)
Definition comparison_for (old new : Json) (current : Comparison) (version : string) (found : Found)
    : result (option (Comparison * Found)) UpdateFailure :=
  if decide (version = api_version self) then Ok (Some (current, found))
  else
    match obj_get version (versions found) with
    | Some c => Ok (Some (c, found))
    | None =>
        let failed which e :=
          if is_missing_version e then Ok None
          else Err (Convert ("failed to convert " +:+ which +:+ " object: " +:+ convert_error_text e)) in
        match convert_to old version with
        | Err e => failed "old" e
        | Ok o =>
            match convert_to new version with
            | Err e => failed "new" e
            | Ok n =>
                let c := compare_at o n version in
                Ok (Some (c, mkFound (obj_insert version c (versions found)) (conflicts found)
                               (removals found) (missing found)))
            end
        end
    end.

(** One round of the loop, for the manager [id]. *)
Definition check_manager (old new : Json) (current : Comparison) (skip : option string)
    (id : string) (vs : VersionedSet) (found : Found) : result Found UpdateFailure :=
  if decide (skip = Some id) then Ok found
  else
    try found' <- comparison_for old new current (vs_api_version vs) found;
    match found' with
    | None => Ok (mkFound (versions found) (conflicts found) (removals found) (missing found ++ [id]))
    | Some (c, found) =>
        let changed := set_union (modified c) (added c) in
        let conflict_set := set_intersection (vs_set vs) changed in
        Ok (mkFound (versions found)
              (if set_is_empty conflict_set then conflicts found else conflicts found ++ [(id, conflict_set)])
              (if set_is_empty (removed c) then removals found else removals found ++ [(id, removed c)])
              (missing found))
    end.

Fixpoint check_managers (old new : Json) (current : Comparison) (skip : option string)
    (fs : list (string * VersionedSet)) (found : Found) : result Found UpdateFailure :=
  match fs with
  | [] => Ok found
  | (id, vs) :: fs =>
      try found <- check_manager old new current skip id vs found;
      check_managers old new current skip fs found
  end.

Definition conflict_report (conflicts : list (string * FieldSet)) : list ApplyConflict :=
  sort_by (fun a b => not_greater (String.compare (conflict_manager a) (conflict_manager b)))
    (flat_map (fun c => map (fun p => mkConflict (id_manager (identity_of c.1)) (path_string p)) (set_members c.2))
       conflicts).

(** [if let Some(vs) = fields.get_mut(id) { vs.set = vs.set.difference(set) }]. *)
Definition take_from (fs : list (string * VersionedSet)) (c : string * FieldSet) : list (string * VersionedSet) :=
  match obj_get c.1 fs with
  | Some vs =>
      obj_insert c.1 (mkVersioned (set_difference (vs_set vs) c.2) (vs_api_version vs) (vs_applied vs)) fs
  | None => fs
  end.

Definition drop_missing (managed : Managed) (ids : list string) : Managed :=
  foldl (fun m id => mkManaged (obj_remove id (managed_fields m)) (obj_remove id (managed_times m))) managed ids.

Definition update_versions (old new : Json) (managed : Managed) (skip : option string) (force : bool)
    : result (Comparison * Managed) UpdateFailure :=
  let current := compare_at old new (api_version self) in
  try found <- check_managers old new current skip (managed_fields managed) (mkFound [] [] [] []);
  if decide (force = false /\ conflicts found <> []) then Err (Conflicts (conflict_report (conflicts found)))
  else
    let managed := drop_missing managed (missing found) in
    let fs := foldl take_from (managed_fields managed) (conflicts found ++ removals found) in
    Ok (current, mkManaged (List.filter (fun kv => negb (set_is_empty (vs_set kv.2))) fs) (managed_times managed)).

(** ** The Update path *)

(** [if manager.is_empty() { "unknown" } else { manager }]. *)
Definition manager_or_unknown (manager : string) : string := if decide (manager = "") then "unknown" else manager.

(** [if let Some(reset) = reset { set = reset.filter(&set) }]. *)
Definition apply_reset (reset : option Filter) (s : FieldSet) : FieldSet :=
  match reset with Some f => filter_set f s | None => s end.

Definition update_managed (now : Time) (live new : Json) (managed : Managed) (manager : string) (live_is_new : bool)
    : result Managed string :=
  if decide (managed_fields managed = [] /\ live_is_new = false) then Ok managed
  else
    let id := build_manager_identifier (manager_or_unknown manager) OPERATION_UPDATE (api_version self) (subresource self) in
    match update_versions live new managed None true with
    | Err (Convert m) => Err m
    | Err (Conflicts _) => Err "unexpected conflicts on update"
    | Ok (comparison, managed) =>
        let changed := set_union (modified comparison) (added comparison) in
        let current := set_difference (apply_reset reset_filter changed) strip_set in
        let managed :=
          if set_is_empty current then managed
          else
            let merged :=
              match obj_get id (managed_fields managed) with
              | Some previous => set_union current (vs_set previous)
              | None => current
              end in
            mkManaged (obj_insert id (mkVersioned merged (api_version self) false) (managed_fields managed))
              (obj_insert id (Some (trunc_subsecs now)) (managed_times managed)) in
        Ok (cap_update_managers managed DEFAULT_MAX_UPDATE_MANAGERS)
    end.

(** ** Pruning *)

(** The sets of the managers by version. *)
Definition sets_by_version (managed : Managed) : list (string * FieldSet) :=
  foldl (fun m kv =>
           let v := vs_api_version kv.2 in
           obj_insert v (set_union (default set_new (obj_get v m)) (vs_set kv.2)) m) [] (managed_fields managed).

Definition version_order (at_version : list (string * FieldSet)) (last_version : string) : list string :=
  (if decide (is_Some (obj_get last_version at_version)) then [last_version] else [])
  ++ List.filter (fun v => negb (bool_decide (v = last_version))) at_version.*1.

Definition prune_failed (what : string) (e : ConvertError) : UpdateFailure :=
  Convert ("failed to convert merged object " +:+ what +:+ ": " +:+ convert_error_text e).

(** [addBackOwnedItems], over the versions in [order]; gives [pruned_v]. *)
Fixpoint add_back_owned (at_version : list (string * FieldSet)) (order : list string) (merged_v pruned_v : Json)
    : result Json UpdateFailure :=
  match order with
  | [] => Ok pruned_v
  | version :: order =>
      match (try m <- convert_to merged_v version; try p <- convert_to pruned_v version; Ok (m, p)) with
      | Err e =>
          if is_missing_version e then add_back_owned at_version order merged_v pruned_v
          else Err (prune_failed ("at version " +:+ version) e)
      | Ok (m, p) =>
          let owned := set_intersection (default set_new (obj_get version at_version)) (set (fields_of m)) in
          let extracted := foldl (fun out path => extract_path m path out) JNull (set_members owned) in
          add_back_owned at_version order m (if is_null extracted then p else merge_config p extracted)
      end
  end.

Definition prune_versioned (merged : Json) (managed : Managed) (last : FieldSet) (last_version : string)
    : result Json UpdateFailure :=
  match convert_to merged last_version with
  | Err e => if is_missing_version e then Ok merged else Err (prune_failed "to last applied version" e)
  | Ok converted =>
      let pruned := foldl (fun v path => remove_path path v) converted (set_members last) in
      let at_version := sets_by_version managed in
      try pruned_v <- add_back_owned at_version (version_order at_version last_version) converted pruned;
      match convert_to pruned_v (api_version self) with
      | Ok v => Ok v
      | Err e => Err (prune_failed "back to the applying version" e)
      end
  end.

(** ** The Apply path *)

(** The union of what every manager owns. *)
Definition all_owned (managed : Managed) : FieldSet :=
  foldl (fun owned kv => set_union owned (vs_set kv.2)) set_new (managed_fields managed).

Definition prune (merged : Json) (managed : Managed) (last : option (FieldSet * string)) : result Json UpdateFailure :=
  match last with
  | Some (last, last_version) =>
      if set_is_empty last then Ok merged
      else
        match converter self with
        | Some _ => prune_versioned merged managed last last_version
        | None =>
            Ok (foldl (fun v path => remove_path path v) merged (set_members (set_difference last (all_owned managed))))
        end
  | None => Ok merged
  end.

(** [stripMetaManager.Apply]. *)
Definition strip_applier (id : string) (fs : list (string * VersionedSet)) : list (string * VersionedSet) :=
  match obj_get id fs with
  | Some vs =>
      let s := set_difference (vs_set vs) strip_set in
      if set_is_empty s then obj_remove id fs
      else obj_insert id (mkVersioned s (vs_api_version vs) (vs_applied vs)) fs
  | None => fs
  end.

Definition apply_managed (now : Time) (live : Json) (live_exists : bool) (config : Json) (managed : Managed)
    (manager : string) (force : bool) : result (Json * Managed) UpdateFailure :=
  try managed <-
    (if decide (managed_fields managed = [] /\ live_exists = true) then
       match update_managed now (JObject []) live managed BEFORE_FIRST_APPLY true with
       | Ok m => Ok m
       | Err e => Err (Convert e)
       end
     else Ok managed);
  let id := build_manager_identifier (manager_or_unknown manager) OPERATION_APPLY (api_version self) (subresource self) in
  let merged := merge_config live config in
  let last := (fun vs => (vs_set vs, vs_api_version vs)) <$> obj_get id (managed_fields managed) in
  let s := apply_reset reset_filter (set (fields_of config)) in
  let managed := mkManaged (obj_insert id (mkVersioned s (api_version self) true) (managed_fields managed)) (managed_times managed) in
  try merged <- prune merged managed last;
  try (_, managed) <- update_versions live merged managed (Some id) force;
  let managed := mkManaged (strip_applier id (managed_fields managed)) (managed_times managed) in
  if value_eqb merged live then Ok (live, managed)
  else
    Ok (merged, mkManaged (managed_fields managed) (obj_insert id (Some (trunc_subsecs now)) (managed_times managed))).

Context {ET : EntryText} {TF : TextFormat}.

(** [managed.encode()] written into the object's metadata. *)
Definition write_managed (object : Json) (managed : Managed) : Json :=
  match object with
  | JObject o =>
      match default (JObject []) (obj_get "metadata" o) with
      | JObject meta =>
          let meta :=
            match encode managed with
            | Some entries => obj_insert "managedFields" (entries_to_json entries) meta
            | None => obj_remove "managedFields" meta
            end in
          JObject (obj_insert "metadata" (JObject meta) o)
      | _ => object
      end
  | _ => object
  end.

(** The entries of the live object, or none when they cannot be decoded. *)
Definition live_managed (live : option Json) : Managed :=
  match ((live ≫= get "metadata") ≫= get "managedFields") ≫= entries_of_json with
  | Some entries => match decode entries with Ok m => m | Err _ => managed_default end
  | None => managed_default
  end.

Definition apply_value (now : Time) (live : option Json) (config : Json) (manager : string) (force : bool)
    : result Json UpdateFailure :=
  let live_json := remove_managed_fields (default (JObject []) live) in
  let managed := live_managed live in
  try live_json <-
    (if decide (is_Some live /\ is_Some (converter self)) then
       match convert_to live_json (api_version self) with
       | Ok v => Ok v
       | Err e => Err (Convert ("failed to convert live object to proper version: " +:+ convert_error_text e))
       end
     else Ok live_json);
  let config := remove_managed_fields config in
  try (object, managed) <-
    apply_managed now live_json (bool_decide (is_Some live)) config managed manager force;
  Ok (write_managed object managed).
End Apply.
