(* ===== verification/FieldManagerCap.v ===== *)
(** * The cap on update managers

    [cap_update_managers] merges the oldest Update entries into one bucket per
    version.  What the Update entries of a version own together does not change,
    and the entries end up at most as many as the cap, or one per version, as long
    as a bucket of an earlier round is the oldest entry of its version.  When it
    is not, the bucket is merged with itself and dropped. *)

From stdpp Require Import strings gmap.
From Stdlib Require Import ZArith Ascii.
From S2P Require Import Prelude RustText BTree Json Patch FieldSet FieldSetProps FieldSetSpec FieldWalk FieldMerge FieldManager ServerSideApply.

(** The text of an identity can be read back. *)
Class IdTextLaws {IT : IdText} : Prop := {
  id_parse_text i : id_parse (id_text i) = Some i
}.

Section Cap.
Context {IT : IdText} {ITL : IdTextLaws}.

Lemma id_text_inj i j : id_text i = id_text j -> i = j.
Proof. intros H. apply (f_equal id_parse) in H. rewrite !id_parse_text in H. by injection H. Qed.

Lemma bucket_of_inj v w : bucket_of v = bucket_of w -> v = w.
Proof. intros H%id_text_inj. by injection H. Qed.

(** ** Entries *)

(** [id] is an Update entry, at the version [v]. *)
Definition updater_at (m : Managed) (id v : string) : Prop :=
  exists vs, obj_get id (managed_fields m) = Some vs /\ vs_applied vs = false /\ vs_api_version vs = v.

(** Some Update entry at the version [v] owns [p]. *)
Definition update_owns (m : Managed) (v : string) (p : list string) : Prop :=
  exists id vs, obj_get id (managed_fields m) = Some vs
    /\ vs_applied vs = false /\ vs_api_version vs = v /\ set_has p (vs_set vs) = true.

(** The entries are in order, their sets canonical, and only the bucket of a
    version is stored under the bucket's identifier. *)
Record managed_wf (m : Managed) : Prop := {
  mw_sorted : keys_sorted (managed_fields m);
  mw_sets id vs : obj_get id (managed_fields m) = Some vs -> set_wf (vs_set vs);
  mw_bucket v vs : obj_get (bucket_of v) (managed_fields m) = Some vs ->
    vs_applied vs = false /\ vs_api_version vs = v
}.

(** A bucket among the updaters comes before every other updater of its version. *)
Definition buckets_oldest (m : Managed) (updaters : list string) : Prop :=
  forall l1 l2 v, updaters = l1 ++ bucket_of v :: l2 -> forall u, u ∈ l1 -> ~ updater_at m u v.

Lemma updaters_of_spec m id :
  keys_sorted (managed_fields m) -> id ∈ updaters_of m <-> exists v, updater_at m id v.
Proof.
  intros Hs. unfold updaters_of, updater_at. rewrite list_elem_of_In in_map_iff. split.
  - intros ([i vs] & <- & [Hi Hv]%filter_In). apply negb_true_iff in Hv. exists (vs_api_version vs), vs.
    split; [|done]. by apply elem_obj_get, list_elem_of_In.
  - intros (v & vs & Hid & Hv & _). exists (id, vs). split; [done|]. apply filter_In. split; [|by rewrite /= Hv].
    by apply list_elem_of_In, obj_get_elem.
Qed.

Lemma updaters_of_NoDup m : keys_sorted (managed_fields m) -> NoDup (updaters_of m).
Proof.
  unfold updaters_of. induction (managed_fields m) as [|[k vs] fs IH]; simpl; [constructor|].
  intros [Hs Hk]%keys_sorted_cons. destruct (negb (vs_applied vs)); simpl; [|auto]. constructor; [|auto].
  rewrite list_elem_of_In in_map_iff. intros ([a w] & Heq & [Ha _]%filter_In). simpl in Heq. subst a.
  apply list_elem_of_In, Hk in Ha. by destruct (irreflexivity string_lt k).
Qed.

(** ** One merge *)

Section Round.
Variables (m : Managed) (first manager : string) (vs : VersionedSet).
Abbreviation v := (vs_api_version vs).
Abbreviation bucket := (bucket_of v).
Hypothesis Hwf : managed_wf m.
Hypothesis Hmanager : obj_get manager (managed_fields m) = Some vs.
Hypothesis Hupdate : vs_applied vs = false.
Hypothesis Hfirst : obj_get bucket (managed_fields m) = None -> updater_at m first v.
Hypothesis Hne : first <> manager.
Hypothesis Hnb : manager <> bucket.

(** The entries with the bucket in place. *)
Definition with_bucket : list (string * VersionedSet) :=
  match obj_get bucket (managed_fields m) with
  | Some _ => managed_fields m
  | None =>
      match obj_get first (managed_fields m) with
      | Some s => obj_insert bucket s (obj_remove first (managed_fields m))
      | None => managed_fields m
      end
  end.

(** The entry that is merged into: the bucket, or the first of the version. *)
Definition oldest : string := if decide (is_Some (obj_get bucket (managed_fields m))) then bucket else first.

Lemma oldest_bucket x : obj_get bucket (managed_fields m) = Some x -> bucket = oldest.
Proof. intros Hx. unfold oldest. by rewrite decide_True; [eexists|]. Qed.

Lemma oldest_updater : exists b, obj_get oldest (managed_fields m) = Some b /\ vs_applied b = false /\ vs_api_version b = v.
Proof.
  unfold oldest. case_decide as Hb; [|by apply Hfirst, eq_None_not_Some].
  destruct Hb as [b Hb]. exists b. split; [done|]. by apply (mw_bucket _ Hwf).
Qed.

Lemma oldest_ne : oldest <> manager.
Proof. unfold oldest. case_decide; congruence. Qed.

(** Every entry after the round. *)
Lemma merge_into_bucket_get b id :
  obj_get oldest (managed_fields m) = Some b ->
  obj_get id (managed_fields (merge_into_bucket m first manager vs)) =
  if decide (id = bucket) then Some (mkVersioned (set_union (vs_set vs) (vs_set b)) v false)
  else if decide (id = manager \/ id = oldest) then None
  else obj_get id (managed_fields m).
Proof.
  intros Hb. pose proof (mw_sorted _ Hwf) as Hs. unfold oldest in *.
  cbn [merge_into_bucket managed_fields]. rewrite Hupdate. fold with_bucket.
  assert (keys_sorted with_bucket) as Hs'.
  { unfold with_bucket. repeat case_match; auto using obj_insert_sorted, obj_remove_sorted. }
  rewrite obj_get_remove; [by apply obj_insert_sorted|]. rewrite obj_get_insert. unfold with_bucket in *.
  revert Hb. destruct (obj_get bucket (managed_fields m)) as [b'|] eqn:Eb; simpl; intros Hb.
  - rewrite Eb in Hb |- *. injection Hb as ->. simpl. repeat case_decide; naive_solver.
  - rewrite Hb !obj_get_insert (decide_True (P := bucket = bucket)) //. simpl. rewrite obj_get_remove //.
    repeat case_decide; naive_solver.
Qed.

Abbreviation m' := (merge_into_bucket m first manager vs).

Lemma round_bucket : updater_at m' bucket v.
Proof.
  destruct oldest_updater as (b & Hb & _). unfold updater_at. rewrite (merge_into_bucket_get b) // decide_True //. eauto.
Qed.

(** The Update entries after the round. *)
Lemma round_updater id w :
  updater_at m' id w <-> (id = bucket /\ w = v) \/ (id <> manager /\ id <> oldest /\ updater_at m id w).
Proof.
  destruct oldest_updater as (b & Hb & Hba & Hbv). split.
  - intros (x & Hx & Ha & Hv). rewrite (merge_into_bucket_get b) // in Hx.
    case_decide; [left; naive_solver|]. case_decide as Hid; [done|]. right. split_and!; [naive_solver..|by exists x].
  - intros [[-> ->]|(H1 & H2 & x & Hx & Ha & Hv)]; [apply round_bucket|].
    exists x. rewrite (merge_into_bucket_get b) // (decide_False (P := id = manager \/ _)); [naive_solver|].
    rewrite decide_False; [|done]. intros ->. apply H2. by apply (oldest_bucket x).
Qed.

Lemma round_other_version id w : w <> v -> updater_at m' id w <-> updater_at m id w.
Proof.
  intros Hw. rewrite round_updater. split; [naive_solver|]. intros Hid. right.
  destruct oldest_updater as (b & Hb & Hba & Hbv). destruct Hid as (x & Hx & Ha & <-).
  split_and!; [naive_solver|naive_solver|by exists x].
Qed.

Lemma round_owns w p : update_owns m' w p <-> update_owns m w p.
Proof.
  destruct oldest_updater as (b & Hb & Hba & Hbv).
  pose proof (mw_sets _ Hwf _ _ Hmanager) as Hws. pose proof (mw_sets _ Hwf _ _ Hb) as Hwb. split.
  - intros (id & x & Hx & Ha & Hv & Hp). rewrite (merge_into_bucket_get b) // in Hx.
    case_decide; [|case_decide; [done|by exists id, x]]. injection Hx as <-. simpl in *. subst w.
    rewrite has_union // orb_true_iff in Hp. destruct Hp; [by exists manager, vs|by exists oldest, b].
  - intros (id & x & Hx & Ha & Hv & Hp).
    destruct (decide (id = manager \/ id = oldest)) as [Hid|Hid].
    + exists bucket, (mkVersioned (set_union (vs_set vs) (vs_set b)) v false).
      rewrite (merge_into_bucket_get b) // decide_True //. split_and!; [done|done|naive_solver|].
      simpl. rewrite has_union // orb_true_iff. naive_solver.
    + assert (updater_at m' id w) as (y & Hy & _) by (apply round_updater; right; split_and!; [naive_solver..|by exists x]).
      exists id, x. split_and!; [|done..]. rewrite (merge_into_bucket_get b) //.
      rewrite decide_False; [|by rewrite decide_False].
      intros ->. apply Hid. right. by apply (oldest_bucket x).
Qed.

Lemma round_applied id x : vs_applied x = true -> obj_get id (managed_fields m') = Some x <-> obj_get id (managed_fields m) = Some x.
Proof.
  destruct oldest_updater as (b & Hb & Hba & Hbv). intros Ha. rewrite (merge_into_bucket_get b) //.
  case_decide as Hid.
  - split; [naive_solver|]. intros Hx. subst id. destruct (mw_bucket _ Hwf _ _ Hx). congruence.
  - case_decide as Ho; [|done]. split; [done|]. intros Hx. destruct Ho as [-> | ->]; congruence.
Qed.

Lemma round_wf : managed_wf m'.
Proof.
  destruct oldest_updater as (b & Hb & Hba & Hbv). split.
  - pose proof (mw_sorted _ Hwf). cbn [merge_into_bucket managed_fields].
    repeat case_match; auto 10 using obj_insert_sorted, obj_remove_sorted.
  - intros id x. rewrite (merge_into_bucket_get b) //. repeat case_decide; [|done|by apply (mw_sets _ Hwf)].
    intros [= <-]. simpl. apply union_wf; by eapply (mw_sets _ Hwf).
  - intros w x. rewrite (merge_into_bucket_get b) //.
    case_decide as E; [apply bucket_of_inj in E as ->; naive_solver|]. case_decide; [done|by apply (mw_bucket _ Hwf)].
Qed.

(** One entry less. *)
Lemma round_length : length (updaters_of m) = S (length (updaters_of m')).
Proof.
  destruct oldest_updater as (b & Hb & Hba & Hbv).
  pose proof (mw_sorted _ Hwf) as Hs. pose proof (mw_sorted _ round_wf) as Hs'.
  pose (rest := filter (fun id => id <> manager /\ id <> oldest) (updaters_of m)).
  pose proof (updaters_of_NoDup m Hs) as Hnd.
  assert (updaters_of m ≡ₚ manager :: oldest :: rest) as ->.
  { apply NoDup_Permutation; [done| |].
    - constructor; [rewrite not_elem_of_cons; split; [by apply not_eq_sym, oldest_ne|]|constructor; [|by apply NoDup_filter]];
        intros [[? ?] _]%list_elem_of_filter; done.
    - intros id. rewrite !elem_of_cons list_elem_of_filter updaters_of_spec //. split.
      + destruct (decide (id = manager)), (decide (id = oldest)); naive_solver.
      + intros [->|[->|[_ ?]]]; [by exists v, vs|by exists v, b|done]. }
  assert (updaters_of m' ≡ₚ bucket :: rest) as ->; [|done].
  apply NoDup_Permutation; [by apply updaters_of_NoDup| |].
  - constructor; [|by apply NoDup_filter]. intros [[_ Ho] (w & x & Hx & _)%updaters_of_spec]%list_elem_of_filter; [|done].
    apply Ho. by apply (oldest_bucket x).
  - intros id. rewrite elem_of_cons list_elem_of_filter !updaters_of_spec //. setoid_rewrite round_updater. naive_solver.
Qed.
End Round.

(** ** The loop *)

Section Loop.
Variable m0 : Managed.

(** The state of the loop before the updaters [rest]. *)
Record cap_inv (rest : list string) (vtf : list (string * string)) (len : nat) (m : Managed) : Prop := {
  ci_wf : managed_wf m;
  ci_owns v p : update_owns m v p <-> update_owns m0 v p;
  ci_applied id vs : vs_applied vs = true ->
    obj_get id (managed_fields m) = Some vs <-> obj_get id (managed_fields m0) = Some vs;
  ci_len : length (updaters_of m) = len;
  ci_nodup : NoDup rest;
  ci_rest u : u ∈ rest ->
    obj_get u (managed_fields m) = obj_get u (managed_fields m0) /\ exists v, updater_at m0 u v;
  ci_first v f : obj_get v vtf = Some f ->
    (f ∉ rest) /\ (obj_get (bucket_of v) (managed_fields m) = None -> updater_at m f v);
  ci_bucket v f : obj_get v vtf = Some f -> bucket_of v ∉ rest;
  ci_oldest : buckets_oldest m0 rest;
  ci_done id v : updater_at m id v -> id ∉ rest ->
    exists f, obj_get v vtf = Some f
      /\ id = (if decide (is_Some (obj_get (bucket_of v) (managed_fields m))) then bucket_of v else f)
}.

Lemma buckets_oldest_tail u rest : buckets_oldest m0 (u :: rest) -> buckets_oldest m0 rest.
Proof. intros H l1 l2 v -> x Hx. apply (H (u :: l1) l2 v eq_refl). by right. Qed.

(** An updater whose version is new is remembered as the first of it. *)
Lemma cap_inv_first manager rest vtf len m vs :
  cap_inv (manager :: rest) vtf len m ->
  obj_get manager (managed_fields m) = Some vs -> obj_get (vs_api_version vs) vtf = None ->
  cap_inv rest (obj_insert (vs_api_version vs) manager vtf) len m.
Proof.
  intros [Hwf Ho Ha Hl Hnd Hr Hf Hb Hold Hd] Hm Hv. apply NoDup_cons in Hnd as [Hnew Hnd].
  destruct (Hr manager) as [Hsame (w & x & Hx & Hxa & Hxv)]; [left|].
  assert (x = vs) as -> by congruence. subst w. split; try done.
  - intros u Hu. apply Hr. by right.
  - intros w f. rewrite obj_get_insert. case_decide; [intros [= <-]|intros [??]%Hf; split; [set_solver|done]].
    split; [done|]. intros _. subst w. by exists vs.
  - intros w f. rewrite obj_get_insert. case_decide as E; [|intros H%Hb; set_solver]. intros _ Hin. subst w.
    apply list_elem_of_split in Hin as (l1 & l2 & ->).
    apply (Hold (manager :: l1) l2 _ eq_refl manager); [left|by exists vs].
  - by eapply buckets_oldest_tail.
  - intros id w Hid Hnin. destruct (decide (id = manager)) as [->|Hne].
    + assert (w = vs_api_version vs) as -> by (destruct Hid as (y & ? & ? & <-); congruence).
      exists manager. rewrite obj_get_insert_eq. split; [done|]. case_decide as Hbk; [|done].
      destruct Hbk as [b Hbk]. destruct (mw_bucket _ Hwf _ _ Hbk) as [Hba Hbv].
      destruct (decide (bucket_of (vs_api_version vs) = manager)) as [|Hbm]; [done|].
      destruct (decide (bucket_of (vs_api_version vs) ∈ rest)) as [Hin|Hnr].
      * apply list_elem_of_split in Hin as (l1 & l2 & ->).
        destruct (Hold (manager :: l1) l2 _ eq_refl manager); [left|by exists vs].
      * destruct (Hd (bucket_of (vs_api_version vs)) (vs_api_version vs)) as (f & ? & _); [by exists b|set_solver|congruence].
    + destruct (Hd id w Hid) as (f & Hfw & Heq); [set_solver|]. exists f. split; [|done].
      rewrite obj_get_insert_ne //. congruence.
Qed.

(** An updater of a known version is merged. *)
Lemma cap_inv_merge manager first rest vtf len m vs :
  cap_inv (manager :: rest) vtf len m ->
  obj_get manager (managed_fields m) = Some vs -> obj_get (vs_api_version vs) vtf = Some first ->
  cap_inv rest vtf (len - 1) (merge_into_bucket m first manager vs).
Proof.
  intros [Hwf Ho Ha Hl Hnd Hr Hf Hb Hold Hd] Hm Hv. apply NoDup_cons in Hnd as [Hnew Hnd].
  destruct (Hr manager) as [Hsame (w & x & Hx & Hxa & Hxv)]; [left|].
  assert (x = vs) as -> by congruence. subst w.
  destruct (Hf _ _ Hv) as [Hfn Hfu]. apply not_elem_of_cons in Hfn as [Hfm Hfr].
  pose proof (Hb _ _ Hv) as Hbn. apply not_elem_of_cons in Hbn as [Hbm%not_eq_sym Hbr].
  assert (managed_wf (merge_into_bucket m first manager vs)) as Hwf' by (eapply round_wf; eauto).
  assert (updater_at (merge_into_bucket m first manager vs) (bucket_of (vs_api_version vs)) (vs_api_version vs)) as Hbu
    by (eapply round_bucket; eauto).
  assert (exists b, obj_get (oldest m first vs) (managed_fields m) = Some b) as [b Hbo].
  { edestruct (oldest_updater m first vs) as (b & Hbo & _); eauto. }
  assert (oldest m first vs ∉ rest) as Hor by (unfold oldest; by case_decide).
  assert (forall w, w <> vs_api_version vs ->
    (is_Some (obj_get (bucket_of w) (managed_fields (merge_into_bucket m first manager vs)))
     <-> is_Some (obj_get (bucket_of w) (managed_fields m)))) as Hbw.
  { intros w Hw.
    assert (forall n, managed_wf n -> is_Some (obj_get (bucket_of w) (managed_fields n)) <-> updater_at n (bucket_of w) w) as Hn.
    { intros n Hn. split; [intros [y Hy]|intros (y & Hy & _); eauto]. exists y. split; [done|]. by apply (mw_bucket _ Hn). }
    rewrite !Hn //. by apply round_other_version. }
  split.
  - done.
  - intros w p. rewrite round_owns //.
  - intros id y Hy. rewrite round_applied //. auto.
  - enough (length (updaters_of m) = S (length (updaters_of (merge_into_bucket m first manager vs)))) by lia.
    eapply round_length; eauto.
  - done.
  - intros u Hu. destruct (Hr u) as [Hu1 Hu2]; [by right|]. split; [|done].
    erewrite merge_into_bucket_get; eauto.
    rewrite decide_False; [by intros ->|]. rewrite decide_False; [intros [->| ->]; done|done].
  - intros w f Hw. destruct (Hf w f Hw) as [Hfn' Hfu']. split; [set_solver|]. intros Hnone.
    destruct (decide (w = vs_api_version vs)) as [->|Hwv].
    + destruct Hbu as (y & Hy & _). congruence.
    + apply round_other_version; try done. apply Hfu'. apply eq_None_not_Some.
      intros H%Hbw; [|done]. rewrite Hnone in H. by destruct H.
  - intros w f Hw. pose proof (Hb w f Hw). set_solver.
  - by eapply buckets_oldest_tail.
  - intros id w Hid Hnin. destruct (decide (w = vs_api_version vs)) as [->|Hwv].
    + exists first. split; [done|]. apply round_updater in Hid; try done.
      destruct Hid as [[-> _]|(Hidm & Hido & Hid)].
      * destruct Hbu as (y & Hy & _). rewrite decide_True //.
      * destruct (Hd id _ Hid) as (f & Hf' & ->); [set_solver|]. exfalso. apply Hido. unfold oldest.
        assert (f = first) as -> by congruence. done.
    + apply round_other_version in Hid; try done.
      assert (id <> manager) as Hidm by (intros ->; destruct Hid as (y & ? & ? & ?); congruence).
      destruct (Hd id w Hid) as (f & Hf' & Heq); [set_solver|]. exists f. split; [done|].
      rewrite Heq. by apply decide_ext; rewrite Hbw.
Qed.

Lemma cap_loop_inv max rest len vtf m :
  cap_inv rest vtf len m ->
  exists rest' vtf' len',
    cap_inv rest' vtf' len' (cap_loop max rest len vtf m) /\ (len' <= max \/ rest' = []).
Proof.
  revert len vtf m. induction rest as [|manager rest IH]; intros len vtf m Hinv; cbn [cap_loop].
  { exists [], vtf, len. split; [done|by right]. }
  case_decide; [exists (manager :: rest), vtf, len; split; [done|by left]|].
  destruct (ci_rest _ _ _ _ Hinv manager) as [Hsame (w & vs & Hvs & _)]; [left|].
  rewrite Hsame Hvs. destruct (obj_get (vs_api_version vs) vtf) as [first|] eqn:E; apply IH.
  - eapply cap_inv_merge; [done|congruence|done].
  - eapply cap_inv_first; [done|congruence|done].
Qed.

Lemma cap_inv_start :
  managed_wf m0 -> buckets_oldest m0 (sorted_updaters m0) ->
  cap_inv (sorted_updaters m0) [] (length (updaters_of m0)) m0.
Proof.
  intros Hwf Hold. pose proof (mw_sorted _ Hwf) as Hs.
  assert (sorted_updaters m0 ≡ₚ updaters_of m0) as Hperm by apply sort_by_perm.
  split; try done.
  - rewrite Hperm. by apply updaters_of_NoDup.
  - intros u. rewrite Hperm updaters_of_spec //.
  - intros id v Hid []. rewrite Hperm updaters_of_spec //. eauto.
Qed.
End Loop.

(** C19: capping the managers loses no ownership.  When the entries are in order,
    their sets canonical, and every bucket left by an earlier round is the oldest
    Update entry of its version, then after [cap_update_managers] the Update
    entries of each version own together exactly the paths they owned before, the
    Apply entries are untouched, and there are at most [max] Update entries, or
    one for each version. *)
Theorem cap_keeps_ownership m0 max :
  managed_wf m0 -> buckets_oldest m0 (sorted_updaters m0) ->
  let m := cap_update_managers m0 max in
  managed_wf m
  /\ (forall v p, update_owns m v p <-> update_owns m0 v p)
  /\ (forall id vs, vs_applied vs = true ->
        (obj_get id (managed_fields m) = Some vs <-> obj_get id (managed_fields m0) = Some vs))
  /\ (length (updaters_of m) <= max
      \/ forall id id' v, updater_at m id v -> updater_at m id' v -> id = id').
Proof.
  intros Hwf Hold m. subst m. unfold cap_update_managers. case_decide as Hle; [split_and!; [done..|by left]|].
  destruct (cap_loop_inv m0 max _ _ _ _ (cap_inv_start m0 Hwf Hold)) as (rest & vtf & len & Hinv & Hend).
  split_and!; [apply Hinv..|]. destruct Hend as [Hend| ->]; [left; by rewrite (ci_len _ _ _ _ _ Hinv)|right].
  intros id id' v Hid Hid'.
  destruct (ci_done _ _ _ _ _ Hinv id v Hid) as (f & Hf & ->); [apply not_elem_of_nil|].
  destruct (ci_done _ _ _ _ _ Hinv id' v Hid') as (f' & Hf' & ->); [apply not_elem_of_nil|].
  assert (f = f') as -> by congruence. done.
Qed.
End Cap.

(** ** A text of identities *)

(** Every character after an ["x"], a [";"] after every field. *)
Module SampleId.

Fixpoint write_field (s : string) (rest : string) : string :=
  match s with
  | EmptyString => String ";"%char rest
  | String c s => String "x"%char (String c (write_field s rest))
  end.

Fixpoint read_field (s : string) : option (string * string) :=
  match s with
  | String a s' =>
      if decide (a = ";"%char) then Some ("", s')
      else match s' with
           | String c s'' => fr ← read_field s''; Some (String c fr.1, fr.2)
           | EmptyString => None
           end
  | EmptyString => None
  end.

Lemma read_write s rest : read_field (write_field s rest) = Some (s, rest).
Proof. induction s as [|c s IH]; [done|]. simpl. by rewrite IH. Qed.

#[export] Instance sample_id : IdText := {
  id_text i :=
    write_field (id_manager i) (write_field (id_operation i)
      (write_field (id_api_version i) (write_field (id_subresource i) "")));
  id_parse s :=
    '(a, s) ← read_field s;
    '(b, s) ← read_field s;
    '(c, s) ← read_field s;
    '(d, s) ← read_field s;
    if decide (s = "") then Some (mkIdentity a b c d) else None
}.

#[export] Instance sample_id_laws : IdTextLaws.
Proof. split. intros [a b c d]. simpl. by repeat (rewrite read_write; simpl). Qed.

(** A printer and a parser for values whose text is not looked at. *)
#[export] Instance sample_json_text : JsonText := fun _ => "".
#[export] Instance sample_json_parse : JsonParse := fun _ => None.

End SampleId.

Section Examples.
Import SampleId.


(** Update entries of the managers at a version, all of one second. *)
Definition updated_by (l : list (string * list (list string))) : Managed :=
  mkManaged
    (foldl (fun fs nm => obj_insert (build_manager_identifier nm.1 OPERATION_UPDATE "v1" "") (mkVersioned (set_of nm.2) "v1" false) fs) [] l)
    [].

Lemma updated_by_wf l :
  managed_wf (updated_by l) .
Proof.
  unfold updated_by.
  assert (forall fs, keys_sorted fs ->
    (forall id vs, obj_get id fs = Some vs -> set_wf (vs_set vs)) ->
    (forall v vs, obj_get (bucket_of v) fs = Some vs -> vs_applied vs = false /\ vs_api_version vs = v) ->
    managed_wf (mkManaged (foldl (fun fs nm => obj_insert (build_manager_identifier nm.1 OPERATION_UPDATE "v1" "") (mkVersioned (set_of nm.2) "v1" false) fs) fs l) [])) as H.
  { induction l as [|[n ps] l IH]; intros fs Hs Hw Hb; [by split|]. apply IH; [by apply obj_insert_sorted|..].
    - intros id vs. rewrite obj_get_insert. case_decide; [intros [= <-]; apply set_of_wf|eauto].
    - intros v vs. rewrite obj_get_insert. case_decide as E; [|eauto]. intros [= <-].
      apply id_text_inj in E. injection E as ??. by subst. }
  apply H; [apply keys_sorted_nil|done|done].
Qed.

Definition three_updaters : Managed := updated_by [("a", [["f:x"]]); ("b", [["f:y"]]); ("c", [["f:z"]])].

Lemma three_updaters_oldest : buckets_oldest three_updaters (sorted_updaters three_updaters).
Proof.
  intros l1 l2 v Heq u Hu Huv. assert (bucket_of v ∈ sorted_updaters three_updaters) as H by (rewrite Heq; set_solver).
  rewrite /sorted_updaters sort_by_perm updaters_of_spec in H; [apply updated_by_wf|].
  destruct H as (w & x & Hx & _). revert Hx. cbn [three_updaters updated_by managed_fields foldl].
  rewrite !obj_get_insert. repeat (case_decide as E; [apply id_text_inj in E; discriminate|]). done.
Qed.

Lemma cap_keeps_ownership_witness :
  let m := cap_update_managers three_updaters 2 in
  managed_wf m /\ update_owns m "v1" ["f:y"].
Proof.
  destruct (cap_keeps_ownership three_updaters 2 (updated_by_wf _) three_updaters_oldest) as (Hwf & Hown & _).
  split; [exact Hwf|]. apply Hown. exists (build_manager_identifier "b" OPERATION_UPDATE "v1" ""), (mkVersioned (set_of [["f:y"]]) "v1" false).
  split_and!; reflexivity.
Defined.

(** ** A bucket that is merged with itself *)

Definition manager_v1 : FieldManager := field_manager_new "v1" None reset_none.

(** Updates of one object within one second: the managers in order, each with the
    field it adds. *)
Fixpoint updates (live : list (string * Json)) (managed : Managed) (l : list (string * string)) : Managed :=
  match l with
  | [] => managed
  | (manager, name) :: l =>
      let new := obj_insert name (JBool true) live in
      match update_managed manager_v1 0%Z (JObject live) (JObject new) managed manager (bool_decide (live = [])) with
      | Ok managed => updates new managed l
      | Err _ => managed
      end
  end.

Lemma not_owned m v p :
  forallb (fun kv => negb (set_has p (vs_set kv.2))) (managed_fields m) = true -> ~ update_owns m v p.
Proof.
  rewrite forallb_forall. intros H (id & vs & Hid%obj_get_elem & _ & _ & Hp).
  specialize (H (id, vs) (proj1 (list_elem_of_In _ _) Hid)). simpl in H. by rewrite Hp in H.
Qed.

Definition eleven_then_first : list (string * string) :=
  [("a", "fa"); ("b1", "f1"); ("b2", "f2"); ("b3", "f3"); ("b4", "f4"); ("b5", "f5"); ("b6", "f6");
   ("b7", "f7"); ("b8", "f8"); ("b9", "f9"); ("c", "fc"); ("a", "fb")].

(** The cap can forget ownership.  Eleven managers each add a field of an
    object within one second, and then the first of them adds one more: the bucket
    of the two oldest entries is then younger, by its identifier, than an entry of
    its version, is merged with itself and removed.  The fields the two added are
    still there and nobody changed them, but no entry owns them any more; one
    update before, they were owned. *)
Theorem cap_forgets_ancient_changes :
  update_owns (updates [] managed_default (take 11 eleven_then_first)) "v1" ["f:f1"]
  /\ length (updaters_of (updates [] managed_default (take 11 eleven_then_first))) = DEFAULT_MAX_UPDATE_MANAGERS
  /\ ~ update_owns (updates [] managed_default eleven_then_first) "v1" ["f:f1"]
  /\ ~ update_owns (updates [] managed_default eleven_then_first) "v1" ["f:fa"].
Proof.
  split_and!; [|by vm_compute|by apply not_owned; vm_compute..].
  exists (bucket_of "v1"). eexists. split_and!; [vm_compute; reflexivity|reflexivity..].
Qed.
End Examples.
