(* ===== verification/UpdateProps.v ===== *)
(** * Conflicts and ownership

    What [update_versions] reports and takes away: a conflict for exactly the
    paths that another manager owns and the operation changes, each compared at
    that manager's version; and after it, no other manager owns a path that was
    changed or removed. *)

From stdpp Require Import strings gmap sorting.
From Stdlib Require Import ZArith.
From S2P Require Import Prelude RustText BTree Json Patch FieldSet FieldSetProps FieldSetSpec FieldWalk FieldWalkProps FieldMerge FieldManager FieldManagerCap ServerSideApply.

Section Update.
Context {JT : JsonText} {JP : JsonParse} {IT : IdText}.
Variable self : FieldManager.

Lemma fields_of_wf obj : fields_wf (fields_of self obj).
Proof. unfold fields_of. destruct (schema self); [apply fields_of_typed_wf|apply fields_of_object_wf]. Qed.

Lemma compare_at_wf old new v : comparison_wf (compare_at self old new v).
Proof.
  unfold compare_at. pose proof (compare_wf _ _ (fields_of_wf old) (fields_of_wf new)).
  destruct (reset_filter_for self v); auto using filter_fields_wf.
Qed.

Section Versions.
Variables (old new : Json) (skip : option string).

(** The comparison for a manager at the version [v]; [None] when the version is
    missing. *)
Definition manager_comparison (v : string) : result (option Comparison) UpdateFailure :=
  if decide (v = api_version self) then Ok (Some (compare_at self old new v))
  else
    let failed which e :=
      if is_missing_version self e then Ok None
      else Err (Convert ("failed to convert " +:+ which +:+ " object: " +:+ convert_error_text e)) in
    match convert_to self old v with
    | Err e => failed "old" e
    | Ok o =>
        match convert_to self new v with
        | Err e => failed "new" e
        | Ok n => Ok (Some (compare_at self o n v))
        end
    end.

Lemma manager_comparison_wf v c : manager_comparison v = Ok (Some c) -> comparison_wf c.
Proof. unfold manager_comparison. intros H. repeat case_match; simplify_eq; apply compare_at_wf. Qed.

(** The paths an operation changes. *)
Definition changed (c : Comparison) : FieldSet := set_union (modified c) (added c).

Lemma changed_wf c : comparison_wf c -> set_wf (changed c).
Proof. intros []. by apply union_wf. Qed.

(** What one manager contributes to the lists of the loop. *)
Definition conflicts_of (e : string * VersionedSet) : list (string * FieldSet) :=
  if decide (skip = Some e.1) then []
  else
    match manager_comparison (vs_api_version e.2) with
    | Ok (Some c) =>
        let s := set_intersection (vs_set e.2) (changed c) in if set_is_empty s then [] else [(e.1, s)]
    | _ => []
    end.

Definition removals_of (e : string * VersionedSet) : list (string * FieldSet) :=
  if decide (skip = Some e.1) then []
  else
    match manager_comparison (vs_api_version e.2) with
    | Ok (Some c) => if set_is_empty (removed c) then [] else [(e.1, removed c)]
    | _ => []
    end.

Definition missing_of (e : string * VersionedSet) : list string :=
  if decide (skip = Some e.1) then []
  else match manager_comparison (vs_api_version e.2) with Ok None => [e.1] | _ => [] end.

(** The comparisons found so far are those of their versions. *)
Definition cache_ok (found : Found) : Prop :=
  forall v c, obj_get v (versions found) = Some c -> v <> api_version self -> manager_comparison v = Ok (Some c).

Abbreviation current := (compare_at self old new (api_version self)).

Lemma comparison_for_spec v found :
  cache_ok found ->
  match manager_comparison v with
  | Err e => comparison_for self old new current v found = Err e
  | Ok None => comparison_for self old new current v found = Ok None
  | Ok (Some c) =>
      exists found', comparison_for self old new current v found = Ok (Some (c, found'))
        /\ cache_ok found' /\ conflicts found' = conflicts found
        /\ removals found' = removals found /\ missing found' = missing found
  end.
Proof.
  intros Hc. unfold comparison_for. destruct (decide (v = api_version self)) as [->|Hv].
  { unfold manager_comparison. rewrite decide_True //. by exists found. }
  destruct (obj_get v (versions found)) as [c|] eqn:E.
  { rewrite (Hc v c E Hv). by exists found. }
  unfold manager_comparison at 1. rewrite decide_False //.
  destruct (convert_to self old v) as [o|e] eqn:Eo; [|by destruct (is_missing_version self e)].
  destruct (convert_to self new v) as [n|e] eqn:En; [|by destruct (is_missing_version self e)].
  eexists. split; [done|]. split_and!; [|done..]. intros w c. simpl. rewrite obj_get_insert.
  case_decide as Ew; [|by apply Hc]. intros [= <-] _. subst w. unfold manager_comparison.
  by rewrite decide_False // Eo En.
Qed.

Lemma push_unless {A} (b : bool) (l : list A) x r :
  (if b then l else l ++ [x]) ++ r = l ++ (if b then [] else [x]) ++ r.
Proof. destruct b; [done|by rewrite -app_assoc]. Qed.

Lemma check_managers_spec fs found :
  cache_ok found ->
  (forall e, e ∈ fs -> skip <> Some e.1 -> exists oc, manager_comparison (vs_api_version e.2) = Ok oc) ->
  exists found', check_managers self old new current skip fs found = Ok found'
    /\ conflicts found' = conflicts found ++ flat_map conflicts_of fs
    /\ removals found' = removals found ++ flat_map removals_of fs
    /\ missing found' = missing found ++ flat_map missing_of fs.
Proof.
  revert found. induction fs as [|[id vs] fs IH]; intros found Hc Hok; cbn [check_managers flat_map].
  { exists found. by rewrite !app_nil_r. }
  unfold conflicts_of at 1, removals_of at 1, missing_of at 1, check_manager. cbn [fst snd].
  assert (forall e, e ∈ fs -> skip <> Some e.1 -> exists oc, manager_comparison (vs_api_version e.2) = Ok oc) as Hok'
    by (intros e He; apply Hok; by right).
  case_decide as Hs; [cbn [result_bind app]; by apply IH|].
  destruct (Hok (id, vs)) as [oc Hoc]; [left|done|]. simpl in Hoc.
  pose proof (comparison_for_spec (vs_api_version vs) found Hc) as H. rewrite Hoc in H |- *.
  destruct oc as [c|].
  - destruct H as (found' & -> & Hc' & Hcon & Hrem & Hmis). cbn [result_bind].
    rewrite -Hcon -Hrem -Hmis. fold (changed c).
    edestruct (IH (mkFound (versions found')
       (if set_is_empty (set_intersection (vs_set vs) (changed c)) then conflicts found'
        else conflicts found' ++ [(id, set_intersection (vs_set vs) (changed c))])
       (if set_is_empty (removed c) then removals found' else removals found' ++ [(id, removed c)])
       (missing found')) Hc' Hok') as (found'' & -> & H1 & H2 & H3).
    exists found''. split; [done|]. rewrite H1 H2 H3. cbn [conflicts removals missing]. by rewrite !push_unless.
  - rewrite H. cbn [result_bind].
    destruct (IH (mkFound (versions found) (conflicts found) (removals found) (missing found ++ [id])) Hc Hok')
      as (found'' & -> & H1 & H2 & H3).
    exists found''. split; [done|]. rewrite H1 H2 H3. simpl. by rewrite -app_assoc.
Qed.

(** A conversion that fails with another error ends the operation. *)
Lemma check_managers_fails fs found e0 err :
  cache_ok found -> e0 ∈ fs -> skip <> Some e0.1 -> manager_comparison (vs_api_version e0.2) = Err err ->
  exists m, check_managers self old new current skip fs found = Err (Convert m).
Proof.
  revert found. induction fs as [|[id vs] fs IH]; intros found Hc Hin Hs He; [by apply elem_of_nil in Hin|].
  cbn [check_managers]. unfold check_manager. case_decide as Hsk.
  { apply elem_of_cons in Hin as [->|Hin]; [done|]. cbn [result_bind]. by apply IH. }
  pose proof (comparison_for_spec (vs_api_version vs) found Hc) as H.
  destruct (manager_comparison (vs_api_version vs)) as [[c|]|err'] eqn:Ec.
  - destruct H as (found' & -> & Hc' & _). cbn [result_bind]. apply IH; [exact Hc'| |done|done].
    apply elem_of_cons in Hin as [->|Hin]; [simpl in He; congruence|done].
  - rewrite H. cbn [result_bind]. apply IH; [exact Hc| |done|done].
    apply elem_of_cons in Hin as [->|Hin]; [simpl in He; congruence|done].
  - rewrite H. cbn [result_bind]. clear -Ec. unfold manager_comparison in Ec.
    repeat case_match; simplify_eq; eauto.
Qed.

(** ** Conflicts *)

(** The entries are in order and their sets canonical. *)
Definition entries_wf (fs : list (string * VersionedSet)) : Prop :=
  keys_sorted fs /\ forall id vs, obj_get id fs = Some vs -> set_wf (vs_set vs).

(** A manager other than the operation's own owns [p], and the operation changes
    it, compared at the manager's version. *)
Definition contested (fs : list (string * VersionedSet)) (id : string) (p : list string) : Prop :=
  exists vs c, obj_get id fs = Some vs /\ skip <> Some id
    /\ manager_comparison (vs_api_version vs) = Ok (Some c)
    /\ p ∈ paths (vs_set vs) /\ (p ∈ paths (modified c) \/ p ∈ paths (added c)).

Lemma elem_conflicts_of fs id s :
  entries_wf fs ->
  (id, s) ∈ flat_map conflicts_of fs <->
  exists vs c, obj_get id fs = Some vs /\ skip <> Some id
    /\ manager_comparison (vs_api_version vs) = Ok (Some c)
    /\ s = set_intersection (vs_set vs) (changed c) /\ set_is_empty s = false.
Proof.
  intros [Hs _]. rewrite list_elem_of_In in_flat_map. split.
  - intros ([a vs] & Ha & Hin). apply list_elem_of_In, elem_obj_get in Ha; [|done]. unfold conflicts_of in Hin. cbn in Hin.
    repeat case_match; simpl in Hin; try done. destruct Hin as [[= <- <-]|[]]. eauto 10.
  - intros (vs & c & Hid & Hsk & Hc & -> & He). exists (id, vs). split; [by apply list_elem_of_In, obj_get_elem|].
    unfold conflicts_of. cbn. rewrite decide_False // Hc He. by left.
Qed.

Lemma conflict_set_paths vs c p :
  set_wf (vs_set vs) -> comparison_wf c ->
  p ∈ paths (set_intersection (vs_set vs) (changed c)) <->
  p ∈ paths (vs_set vs) /\ (p ∈ paths (modified c) \/ p ∈ paths (added c)).
Proof.
  intros Hs Hc. rewrite paths_intersection //; [by apply changed_wf|]. unfold changed.
  rewrite paths_union; [apply Hc..|]. set_solver.
Qed.

(** Conflicts are found exactly when a path is contested. *)
Lemma conflicts_contested fs :
  entries_wf fs -> flat_map conflicts_of fs <> [] <-> exists id p, contested fs id p.
Proof.
  intros Hwf. split.
  - destruct (flat_map conflicts_of fs) as [|[id s] cs] eqn:E; [done|]. intros _.
    assert ((id, s) ∈ flat_map conflicts_of fs) as Hin by (rewrite E; left).
    apply elem_conflicts_of in Hin as (vs & c & Hid & Hsk & Hc & -> & He); [|done].
    pose proof (proj2 Hwf _ _ Hid) as Hs. pose proof (manager_comparison_wf _ _ Hc) as Hcw.
    destruct (set_wf_inhabited _ (intersection_wf _ Hs (changed c)) He) as [p Hp].
    rewrite -elem_paths in Hp; [by apply intersection_wf|]. rewrite conflict_set_paths // in Hp.
    exists id, p, vs, c. naive_solver.
  - intros (id & p & vs & c & Hid & Hsk & Hc & Hp) Hnil.
    pose proof (proj2 Hwf _ _ Hid) as Hs. pose proof (manager_comparison_wf _ _ Hc) as Hcw.
    assert ((id, set_intersection (vs_set vs) (changed c)) ∈ flat_map conflicts_of fs) as Hin; [|by rewrite Hnil in Hin; apply elem_of_nil in Hin].
    apply elem_conflicts_of; [done|]. exists vs, c. split_and!; [done..|].
    apply not_true_iff_false. rewrite paths_empty; [by apply intersection_wf|]. intros Hem.
    pose proof (proj2 (conflict_set_paths vs c p Hs Hcw) Hp). rewrite Hem in H. set_solver.
Qed.

Lemma elem_conflict_report cs x :
  x ∈ conflict_report cs <->
  exists id s p, (id, s) ∈ cs /\ p ∈ set_members s /\ x = mkConflict (id_manager (identity_of id)) (path_string p).
Proof.
  unfold conflict_report. rewrite sort_by_perm list_elem_of_In in_flat_map. split.
  - intros ([id s] & Hin & (p & <- & Hp)%in_map_iff). exists id, s, p. by rewrite !list_elem_of_In.
  - intros (id & s & p & Hin & Hp & ->). exists (id, s). split; [by apply list_elem_of_In|].
    apply (in_map (fun p => mkConflict (id_manager (identity_of id)) (path_string p))). by apply list_elem_of_In.
Qed.

Lemma elem_report_contested fs x :
  entries_wf fs ->
  x ∈ conflict_report (flat_map conflicts_of fs) <->
  exists id p, contested fs id p /\ x = mkConflict (id_manager (identity_of id)) (path_string p).
Proof.
  intros Hwf. rewrite elem_conflict_report. split.
  - intros (id & s & p & Hin & Hp & ->). exists id, p. split; [|done].
    apply elem_conflicts_of in Hin as (vs & c & Hid & Hsk & Hc & -> & He); [|done].
    pose proof (proj2 Hwf _ _ Hid) as Hs. pose proof (manager_comparison_wf _ _ Hc) as Hcw.
    exists vs, c. split; [done|]. split; [done|]. split; [done|]. apply conflict_set_paths; [done|done|].
    apply elem_paths; [by apply intersection_wf|]. apply elem_members; [by apply intersection_wf|done].
  - intros (id & p & (vs & c & Hid & Hsk & Hc & Hp) & ->).
    pose proof (proj2 Hwf _ _ Hid) as Hs. pose proof (manager_comparison_wf _ _ Hc) as Hcw.
    assert (p ∈ paths (set_intersection (vs_set vs) (changed c))) as Hpi by (by apply conflict_set_paths).
    exists id, (set_intersection (vs_set vs) (changed c)), p. split_and!; [|by apply elem_members, elem_paths; auto using intersection_wf|done].
    apply elem_conflicts_of; [done|]. exists vs, c. split_and!; [done..|].
    apply not_true_iff_false. rewrite paths_empty; [by apply intersection_wf|]. intros Hem. rewrite Hem in Hpi. set_solver.
Qed.

(** No conversion fails: every other manager's version can be compared at, or is
    missing. *)
Definition versions_comparable (fs : list (string * VersionedSet)) : Prop :=
  forall id vs, obj_get id fs = Some vs -> skip <> Some id -> is_ok (manager_comparison (vs_api_version vs)) = true.

Lemma check_managers_found fs :
  keys_sorted fs -> versions_comparable fs ->
  exists found, check_managers self old new current skip fs (mkFound [] [] [] []) = Ok found
    /\ conflicts found = flat_map conflicts_of fs
    /\ removals found = flat_map removals_of fs
    /\ missing found = flat_map missing_of fs.
Proof.
  intros Hs Hok. apply (check_managers_spec fs (mkFound [] [] [] [])); [done|].
  intros [id vs] He Hsk. apply elem_obj_get in He; [|done]. specialize (Hok id vs He Hsk). simpl.
  destruct (manager_comparison (vs_api_version vs)); [eauto|done].
Qed.

Lemma update_versions_conflicts managed :
  entries_wf (managed_fields managed) -> versions_comparable (managed_fields managed) ->
  match update_versions self old new managed skip false with
  | Err (Conflicts l) =>
      l <> [] /\ forall x, x ∈ l <->
        exists id p, contested (managed_fields managed) id p
          /\ x = mkConflict (id_manager (identity_of id)) (path_string p)
  | Err (Convert _) => False
  | Ok _ => ~ exists id p, contested (managed_fields managed) id p
  end.
Proof.
  intros Hwf Hok. destruct (check_managers_found _ (proj1 Hwf) Hok) as (found & Hf & Hcs & _).
  unfold update_versions. rewrite Hf. cbn [result_bind]. rewrite Hcs.
  case_decide as Hc.
  - pose proof (proj1 (conflicts_contested _ Hwf) (proj2 Hc)) as (id & p & Hid).
    pose proof (elem_report_contested (managed_fields managed)) as Hrep. split; [|intros x; by apply Hrep].
    intros Hnil. assert (mkConflict (id_manager (identity_of id)) (path_string p) ∈ conflict_report (flat_map conflicts_of (managed_fields managed))) as Hin
      by (apply Hrep; eauto). rewrite Hnil in Hin. by apply elem_of_nil in Hin.
  - intros Hex. apply Hc. split; [done|]. by apply conflicts_contested.
Qed.

(** C18: without [force], an operation is refused exactly when it changes a path
    that another manager owns, and the conflicts it reports are exactly those
    paths with the names of their owners.  Each manager is compared at the version
    of its own entry; the operation's own entry and entries of a missing version
    never conflict. *)
Theorem apply_conflicts_exact managed :
  entries_wf (managed_fields managed) -> versions_comparable (managed_fields managed) ->
  match update_versions self old new managed skip false with
  | Err (Conflicts l) =>
      l <> [] /\ forall x, x ∈ l <->
        exists id p, contested (managed_fields managed) id p
          /\ x = mkConflict (id_manager (identity_of id)) (path_string p)
  | Err (Convert _) => False
  | Ok _ => ~ exists id p, contested (managed_fields managed) id p
  end.
Proof. apply update_versions_conflicts. Qed.

(** ** What the managers own afterwards *)

Definition owned (fs : list (string * VersionedSet)) (id : string) : gset (list string) :=
  from_option (fun vs => paths (vs_set vs)) ∅ (obj_get id fs).

Lemma get_drop_missing m ids id :
  keys_sorted (managed_fields m) ->
  obj_get id (managed_fields (drop_missing m ids)) = (if decide (id ∈ ids) then None else obj_get id (managed_fields m))
  /\ keys_sorted (managed_fields (drop_missing m ids)).
Proof.
  unfold drop_missing. revert m. induction ids as [|a ids IH]; intros m Hs; simpl; [done|].
  destruct (IH (mkManaged (obj_remove a (managed_fields m)) (obj_remove a (managed_times m)))) as [-> ?];
    [by apply obj_remove_sorted|]. split; [|done]. simpl. rewrite obj_get_remove //.
  repeat case_decide; set_solver.
Qed.

(** What is left of an entry when the sets of [cs] for it are taken. *)
Definition taken (id : string) (cs : list (string * FieldSet)) (vs : VersionedSet) : VersionedSet :=
  foldl (fun vs c => if decide (id = c.1) then mkVersioned (set_difference (vs_set vs) c.2) (vs_api_version vs) (vs_applied vs) else vs) vs cs.

Lemma get_take_from fs cs id :
  keys_sorted fs ->
  obj_get id (foldl take_from fs cs) = taken id cs <$> obj_get id fs /\ keys_sorted (foldl take_from fs cs).
Proof.
  revert fs. induction cs as [|c cs IH]; intros fs Hs; [split; [simpl; by destruct (obj_get id fs)|done]|]. cbn [foldl].
  assert (keys_sorted (take_from fs c)) as Hs' by (unfold take_from; case_match; auto using obj_insert_sorted).
  destruct (IH _ Hs') as [-> ?]. split; [|done]. unfold taken at 2, take_from. cbn [foldl].
  fold (taken id cs). destruct (obj_get c.1 fs) as [vs|] eqn:E.
  - rewrite obj_get_insert. destruct (decide (id = c.1)) as [->|]; [by rewrite E|done].
  - destruct (obj_get id fs) eqn:E'; [|done]. simpl. rewrite decide_False //. congruence.
Qed.

Lemma taken_spec id cs vs :
  set_wf (vs_set vs) ->
  set_wf (vs_set (taken id cs vs)) /\ vs_api_version (taken id cs vs) = vs_api_version vs
  /\ vs_applied (taken id cs vs) = vs_applied vs
  /\ forall p, set_has p (vs_set (taken id cs vs)) = true <->
       set_has p (vs_set vs) = true /\ forall s, (id, s) ∈ cs -> set_has p s = false.
Proof.
  unfold taken. revert vs. induction cs as [|[a s] cs IH]; intros vs Hs; simpl.
  { split_and!; [done..|]. intros p. split; [|naive_solver]. intros ?. split; [done|]. intros ? []%elem_of_nil. }
  destruct (IH (if decide (id = a) then mkVersioned (set_difference (vs_set vs) s) (vs_api_version vs) (vs_applied vs) else vs))
    as (H1 & H2 & H3 & H4); [case_decide; simpl; auto with fieldset|].
  split_and!; [done|rewrite H2; by case_decide|rewrite H3; by case_decide|].
  intros p. rewrite H4. setoid_rewrite elem_of_cons. case_decide as E; [|naive_solver]. subst a. simpl.
  rewrite has_difference // andb_true_iff negb_true_iff. naive_solver.
Qed.

Lemma elem_removals_of fs id s :
  keys_sorted fs ->
  (id, s) ∈ flat_map removals_of fs <->
  exists vs c, obj_get id fs = Some vs /\ skip <> Some id
    /\ manager_comparison (vs_api_version vs) = Ok (Some c) /\ s = removed c /\ set_is_empty s = false.
Proof.
  intros Hs. rewrite list_elem_of_In in_flat_map. split.
  - intros ([a vs] & Ha & Hin). apply list_elem_of_In, elem_obj_get in Ha; [|done]. unfold removals_of in Hin. cbn in Hin.
    repeat case_match; simpl in Hin; try done. destruct Hin as [[= <- <-]|[]]. eauto 10.
  - intros (vs & c & Hid & Hsk & Hc & -> & He). exists (id, vs). split; [by apply list_elem_of_In, obj_get_elem|].
    unfold removals_of. cbn. rewrite decide_False // Hc He. by left.
Qed.

Lemma elem_missing_of fs id :
  keys_sorted fs ->
  id ∈ flat_map missing_of fs <->
  exists vs, obj_get id fs = Some vs /\ skip <> Some id /\ manager_comparison (vs_api_version vs) = Ok None.
Proof.
  intros Hs. rewrite list_elem_of_In in_flat_map. split.
  - intros ([a vs] & Ha & Hin). apply list_elem_of_In, elem_obj_get in Ha; [|done]. unfold missing_of in Hin. cbn in Hin.
    repeat case_match; simpl in Hin; try done. destruct Hin as [<-|[]]. eauto.
  - intros (vs & Hid & Hsk & Hc). exists (id, vs). split; [by apply list_elem_of_In, obj_get_elem|].
    unfold missing_of. cbn. rewrite decide_False // Hc. by left.
Qed.

(** The conflicts and the removals of a manager are what it loses. *)
Lemma taken_of_manager fs id vs c p :
  entries_wf fs -> obj_get id fs = Some vs -> skip <> Some id ->
  manager_comparison (vs_api_version vs) = Ok (Some c) -> set_has p (vs_set vs) = true ->
  (forall s, (id, s) ∈ flat_map conflicts_of fs ++ flat_map removals_of fs -> set_has p s = false) <->
  set_has p (changed c) = false /\ set_has p (removed c) = false.
Proof.
  intros Hwf Hid Hsk Hc Hp. pose proof (proj2 Hwf _ _ Hid) as Hs.
  setoid_rewrite elem_of_app. setoid_rewrite elem_conflicts_of; [|done]. setoid_rewrite elem_removals_of; [|apply Hwf]. split.
  - intros H. split.
    + destruct (set_is_empty (set_intersection (vs_set vs) (changed c))) eqn:E.
      * apply set_is_empty_true in E. pose proof (has_intersection (vs_set vs) (changed c) p Hs) as Hi.
        by rewrite E has_set_new Hp in Hi.
      * assert (set_has p (set_intersection (vs_set vs) (changed c)) = false) as Hi by (apply H; left; eauto 10).
        by rewrite has_intersection // Hp in Hi.
    + destruct (set_is_empty (removed c)) eqn:E; [|apply H; right; eauto 10].
      apply set_is_empty_true in E. by rewrite E has_set_new.
  - intros [H1 H2] s [(vs' & c' & ? & _ & ? & -> & _)|(vs' & c' & ? & _ & ? & -> & _)];
      (assert (vs' = vs) as -> by congruence); (assert (c' = c) as -> by congruence); [|done].
    by rewrite has_intersection // H1 andb_false_r.
Qed.

(** The entries after the operation. *)
Lemma update_versions_get managed force cur managed' :
  entries_wf (managed_fields managed) ->
  update_versions self old new managed skip force = Ok (cur, managed') ->
  versions_comparable (managed_fields managed)
  /\ cur = current
  /\ keys_sorted (managed_fields managed')
  /\ forall id, obj_get id (managed_fields managed') =
       vs ← (if decide (id ∈ flat_map missing_of (managed_fields managed)) then None else obj_get id (managed_fields managed));
       let vs' := taken id (flat_map conflicts_of (managed_fields managed) ++ flat_map removals_of (managed_fields managed)) vs in
       if set_is_empty (vs_set vs') then None else Some vs'.
Proof.
  intros Hwf Hup. assert (versions_comparable (managed_fields managed)) as Hok.
  { intros id vs Hid Hsk. destruct (manager_comparison (vs_api_version vs)) as [|err] eqn:E; [done|]. exfalso.
    apply obj_get_elem in Hid.
    edestruct (check_managers_fails (managed_fields managed) (mkFound [] [] [] []) (id, vs) err) as [m Hm]; [done..|].
    unfold update_versions in Hup. by rewrite Hm in Hup. }
  split; [done|]. destruct (check_managers_found _ (proj1 Hwf) Hok) as (found & Hf & Hcs & Hrs & Hms).
  unfold update_versions in Hup. rewrite Hf in Hup. cbn [result_bind] in Hup. case_decide; [done|].
  injection Hup as <- <-. cbn [managed_fields]. rewrite Hcs Hrs Hms. split; [done|].
  destruct (get_drop_missing managed (flat_map missing_of (managed_fields managed)) "" (proj1 Hwf)) as [_ Hs].
  split; [by apply obj_filter_sorted; apply (get_take_from _ _ "" Hs)|]. intros id.
  rewrite obj_get_filter; [by apply (get_take_from _ _ "" Hs)|]. destruct (get_take_from _ (flat_map conflicts_of (managed_fields managed) ++ flat_map removals_of (managed_fields managed)) id Hs) as [-> _].
  rewrite (proj1 (get_drop_missing managed _ id (proj1 Hwf))). case_decide; [done|].
  destruct (obj_get id (managed_fields managed)); [|done]. simpl. by destruct (set_is_empty _).
Qed.

Lemma update_versions_wf managed force cur managed' :
  entries_wf (managed_fields managed) ->
  update_versions self old new managed skip force = Ok (cur, managed') -> entries_wf (managed_fields managed').
Proof.
  intros Hwf Hup. destruct (update_versions_get _ _ _ _ Hwf Hup) as (_ & _ & Hs & Hget).
  split; [done|]. intros id vs. rewrite Hget. case_decide; [done|].
  destruct (obj_get id (managed_fields managed)) as [x|] eqn:E; [|done]. cbn [mbind option_bind].
  pose proof (taken_spec id (flat_map conflicts_of (managed_fields managed) ++ flat_map removals_of (managed_fields managed)) x (proj2 Hwf _ _ E)) as (Hx & _).
  case_match; [done|]. intros [= <-]. done.
Qed.

Lemma update_versions_facts managed force cur managed' :
  entries_wf (managed_fields managed) ->
  update_versions self old new managed skip force = Ok (cur, managed') ->
  entries_wf (managed_fields managed')
  /\ forall id,
       match obj_get id (managed_fields managed) with
       | None => obj_get id (managed_fields managed') = None
       | Some vs =>
           (forall vs', obj_get id (managed_fields managed') = Some vs' ->
              vs_api_version vs' = vs_api_version vs /\ vs_applied vs' = vs_applied vs
              /\ set_is_empty (vs_set vs') = false)
           /\ owned (managed_fields managed') id =
                (if decide (skip = Some id) then paths (vs_set vs)
                 else
                   match manager_comparison (vs_api_version vs) with
                   | Ok (Some c) =>
                       paths (vs_set vs) ∖ (paths (modified c) ∪ paths (added c) ∪ paths (removed c))
                   | _ => ∅
                   end)
       end.
Proof.
  intros Hwf Hup. split; [by eapply update_versions_wf|].
  destruct (update_versions_get _ _ _ _ Hwf Hup) as (Hok & _ & Hs & Hget). intros id.
  pose proof (Hget id) as Hid. pose proof (elem_missing_of _ id (proj1 Hwf)) as Hmis.
  destruct (obj_get id (managed_fields managed)) as [vs|] eqn:E; [|by case_decide].
  pose proof (taken_spec id (flat_map conflicts_of (managed_fields managed) ++ flat_map removals_of (managed_fields managed)) vs (proj2 Hwf _ _ E)) as (Ht & Htv & Hta & Htp).
  set (vs1 := taken id _ vs) in *. split.
  { intros vs' Hvs'. rewrite Hid in Hvs'. case_decide; [done|]. cbn [mbind option_bind] in Hvs'. fold vs1 in Hvs'.
    destruct (set_is_empty (vs_set vs1)) eqn:Ee; [done|]. injection Hvs' as <-. done. }
  assert (owned (managed_fields managed') id =
    if decide (id ∈ flat_map missing_of (managed_fields managed)) then ∅ else paths (vs_set vs1)) as ->.
  { unfold owned. rewrite Hid. case_decide; [done|]. cbn [mbind option_bind]. fold vs1.
    destruct (set_is_empty (vs_set vs1)) eqn:Ee; [|done]. apply paths_empty in Ee; [by rewrite Ee|done]. }
  case_decide as Hm.
  { apply Hmis in Hm as (x & [= <-] & Hsk & Hc). by rewrite decide_False // Hc. }
  apply set_eq. intros p. rewrite elem_paths // Htp. case_decide as Hsk.
  - rewrite elem_paths; [by apply (proj2 Hwf _ _ E)|]. split; [naive_solver|]. intros Hp. split; [done|].
    intros s [(? & ? & _ & ? & _)%elem_conflicts_of|(? & ? & _ & ? & _)%elem_removals_of]%elem_of_app;
      [done|done|done|apply Hwf].
  - specialize (Hok id vs E Hsk). destruct (manager_comparison (vs_api_version vs)) as [[c|]|] eqn:Ec; [|naive_solver|done].
    pose proof (manager_comparison_wf _ _ Ec) as Hcw. pose proof (proj2 Hwf _ _ E) as Hws.
    transitivity (set_has p (vs_set vs) = true /\ set_has p (changed c) = false /\ set_has p (removed c) = false).
    { pose proof (taken_of_manager _ id vs c p Hwf E Hsk Ec) as Htm. naive_solver. }
    unfold changed. rewrite has_union; [apply Hcw..|]. destruct Hcw as [Hr1 Hm1 Ha1].
    rewrite elem_of_difference !elem_of_union !elem_paths // orb_false_iff -!not_true_iff_false. tauto.
Qed.

(** C26: an operation that goes through takes from every other manager exactly
    what it changed or removed, compared at that manager's version, and nothing
    else: the manager keeps the rest under the same version and operation, its
    entry goes when nothing is left, the entries of a missing version go, no entry
    appears, and the operation's own entry is not touched. *)
Theorem update_takes_what_changed managed force cur managed' :
  entries_wf (managed_fields managed) ->
  update_versions self old new managed skip force = Ok (cur, managed') ->
  entries_wf (managed_fields managed')
  /\ forall id,
       match obj_get id (managed_fields managed) with
       | None => obj_get id (managed_fields managed') = None
       | Some vs =>
           (forall vs', obj_get id (managed_fields managed') = Some vs' ->
              vs_api_version vs' = vs_api_version vs /\ vs_applied vs' = vs_applied vs
              /\ set_is_empty (vs_set vs') = false)
           /\ owned (managed_fields managed') id =
                (if decide (skip = Some id) then paths (vs_set vs)
                 else
                   match manager_comparison (vs_api_version vs) with
                   | Ok (Some c) =>
                       paths (vs_set vs) ∖ (paths (modified c) ∪ paths (added c) ∪ paths (removed c))
                   | _ => ∅
                   end)
       end.
Proof. apply update_versions_facts. Qed.
End Versions.
End Update.

(** ** Examples *)

Section Examples.
Import SampleId.

Definition replicas (n : string) : Json := JObject [("spec", JObject [("replicas", JNumber n)])].

(** The manager ["a"] set the replicas; another manager changes them. *)
Definition set_by_a : Managed := updated_by [("a", [["f:spec"; "f:replicas"]])].

Lemma updated_by_entries l : entries_wf (managed_fields (updated_by l)).
Proof. destruct (updated_by_wf l) as [Hs Hw _]. split; [done|exact Hw]. Qed.

Lemma sample_comparable old new skip fs :
  Forall (fun e => vs_api_version e.2 = "v1") fs -> versions_comparable manager_v1 old new skip fs.
Proof.
  intros Hfs id vs Hid%obj_get_elem _. rewrite Forall_forall in Hfs. specialize (Hfs _ Hid). simpl in Hfs.
  unfold manager_comparison. by rewrite Hfs.
Qed.

Lemma sample_comparison old new :
  manager_comparison manager_v1 old new "v1" = Ok (Some (compare_at manager_v1 old new "v1")).
Proof. done. Qed.

Lemma set_by_a_v1 : Forall (fun e => vs_api_version e.2 = "v1") (managed_fields set_by_a).
Proof. repeat constructor. Qed.

Lemma apply_conflicts_exact_witness :
  update_versions manager_v1 (replicas "1") (replicas "2") set_by_a None false
  = Err (Conflicts [mkConflict "a" ".spec.replicas"])
  /\ exists id p, contested manager_v1 (replicas "1") (replicas "2") None (managed_fields set_by_a) id p.
Proof.
  pose proof (apply_conflicts_exact manager_v1 (replicas "1") (replicas "2") None set_by_a
    (updated_by_entries _) (sample_comparable _ _ _ _ set_by_a_v1)) as H.
  assert (update_versions manager_v1 (replicas "1") (replicas "2") set_by_a None false
    = Err (Conflicts [mkConflict "a" ".spec.replicas"])) as E by (vm_compute; reflexivity).
  rewrite E in H. split; [exact E|]. destruct H as [_ H].
  destruct (proj1 (H (mkConflict "a" ".spec.replicas")) (proj2 (list_elem_of_singleton _ _) eq_refl)) as (id & p & Hc & _).
  exists id, p. exact Hc.
Defined.

Lemma update_takes_what_changed_witness :
  let a := build_manager_identifier "a" OPERATION_UPDATE "v1" "" in
  exists cur managed',
    update_versions manager_v1 (replicas "1") (replicas "2") set_by_a None true = Ok (cur, managed')
    /\ ["f:spec"; "f:replicas"] ∈ owned (managed_fields set_by_a) a
    /\ ["f:spec"; "f:replicas"] ∉ owned (managed_fields managed') a.
Proof.
  intros a. eexists _, _. split; [vm_compute; reflexivity|].
  pose proof (update_takes_what_changed manager_v1 (replicas "1") (replicas "2") None set_by_a true _ _
    (updated_by_entries _) eq_refl) as [_ H]. specialize (H a).
  rewrite (eq_refl : obj_get a (managed_fields set_by_a) = Some (mkVersioned (set_of [["f:spec"; "f:replicas"]]) "v1" false)) in H.
  destruct H as [_ H]. cbn [vs_api_version] in H. rewrite sample_comparison in H.
  split; [apply elem_paths; [apply set_of_wf|reflexivity]|]. rewrite H.
  intros [_ Hno]%elem_of_difference. apply Hno. do 2 (apply elem_of_union; left).
  rewrite (elem_paths _ _ (cw_modified _ (compare_at_wf manager_v1 (replicas "1") (replicas "2") "v1"))). vm_compute. reflexivity.
Defined.
End Examples.
