(* ===== verification/ApplyProps.v ===== *)
(** * Ownership after an update and after an apply

    What each manager owns after [apply_managed], with whatever versions and
    reset fields the resource has; and, for a resource served at one version and
    without reset fields, what each owns after [update_managed], and that an apply
    that changes nothing succeeds and changes nothing. *)

From stdpp Require Import strings gmap sorting.
From Stdlib Require Import ZArith.
From S2P Require Import Prelude RustText BTree Json Patch FieldSet FieldSetProps FieldSetSpec FieldWalk FieldWalkProps FieldMerge FieldManager FieldManagerCap ServerSideApply UpdateProps.

Lemma strip_set_wf : set_wf strip_set.
Proof.
  unfold strip_set. enough (forall l s, set_wf s -> set_wf (foldl (fun s p => set_insert (field_path p) s) s l)) as H
    by apply H, set_new_wf.
  induction l; simpl; auto with fieldset.
Qed.

Lemma owned_insert fs id vs id' :
  owned (obj_insert id vs fs) id' = if decide (id' = id) then paths (vs_set vs) else owned fs id'.
Proof. unfold owned. rewrite obj_get_insert. by case_decide. Qed.

Lemma entries_wf_insert fs id vs : entries_wf fs -> set_wf (vs_set vs) -> entries_wf (obj_insert id vs fs).
Proof.
  intros [Hs Hw] Hv. split; [by apply obj_insert_sorted|]. intros a x. rewrite obj_get_insert.
  case_decide; [by intros [= <-]|eauto].
Qed.

Section Apply.
Context {JT : JsonText} {JP : JsonParse} {IT : IdText}.
Variable self : FieldManager.

(** The paths an operation changes or removes. *)
Definition touched (c : Comparison) : gset (list string) := paths (modified c) ∪ paths (added c) ∪ paths (removed c).

(** ** The entries an operation starts from *)

Lemma updaters_subset fs fs' ts ts' :
  keys_sorted fs -> keys_sorted fs' ->
  (forall id vs', obj_get id fs' = Some vs' -> vs_applied vs' = false ->
     exists vs, obj_get id fs = Some vs /\ vs_applied vs = false) ->
  length (updaters_of (mkManaged fs' ts')) <= length (updaters_of (mkManaged fs ts)).
Proof.
  intros Hs Hs' H. apply submseteq_length, NoDup_submseteq; [by apply updaters_of_NoDup|].
  intros id. rewrite !updaters_of_spec //. intros (v & vs' & Hid & Ha & _). destruct (H id vs' Hid Ha) as (vs & ? & ?).
  by exists (vs_api_version vs), vs.
Qed.

Lemma updaters_insert fs ts ts' id vs :
  keys_sorted fs -> length (updaters_of (mkManaged (obj_insert id vs fs) ts')) <= S (length (updaters_of (mkManaged fs ts))).
Proof.
  intros Hs. change (S (length (updaters_of (mkManaged fs ts)))) with (length (id :: updaters_of (mkManaged fs ts))).
  apply submseteq_length, NoDup_submseteq; [by apply updaters_of_NoDup, obj_insert_sorted|].
  intros a. rewrite elem_of_cons !updaters_of_spec //; [by apply obj_insert_sorted|].
  intros (v & x & Hx & ? & ?). simpl in Hx. rewrite obj_get_insert in Hx. case_decide; [by left|right].
  by exists v, x.
Qed.

(** The entries an apply starts from: an object that exists and has none gets one
    for what it has. *)
Definition starting_entries (now : Time) (live : Json) (live_exists : bool) (managed : Managed)
    : result Managed UpdateFailure :=
  if decide (managed_fields managed = [] /\ live_exists = true) then
    match update_managed self now (JObject []) live managed BEFORE_FIRST_APPLY true with
    | Ok m => Ok m
    | Err e => Err (Convert e)
    end
  else Ok managed.

Lemma update_versions_updaters old new managed skip force cur managed' :
  entries_wf (managed_fields managed) -> update_versions self old new managed skip force = Ok (cur, managed') ->
  entries_wf (managed_fields managed') /\ length (updaters_of managed') <= length (updaters_of managed).
Proof.
  intros Hwf Hup. destruct (update_versions_facts self old new skip _ _ _ _ Hwf Hup) as [Hwf' Hid]. split; [done|].
  destruct managed' as [fs' ts'], managed as [fs ts]. apply updaters_subset; [apply Hwf|apply Hwf'|].
  intros a vs' Hvs' Hap. specialize (Hid a). simpl in *. destruct (obj_get a fs) as [vs|]; [|congruence].
  destruct Hid as [H _]. destruct (H vs' Hvs') as (_ & ? & _). exists vs. split; [done|congruence].
Qed.

Lemma starting_entries_wf now live live_exists managed m0 :
  entries_wf (managed_fields managed) -> starting_entries now live live_exists managed = Ok m0 ->
  entries_wf (managed_fields m0).
Proof.
  intros Hwf. unfold starting_entries. case_decide as Hd; [|by intros [= <-]]. destruct Hd as [Hnil _].
  unfold update_managed. rewrite decide_False; [naive_solver|].
  destruct (update_versions _ _ _ _ _ _) as [[c m1]|[]] eqn:Hup; [|done..].
  destruct (update_versions_updaters _ _ _ _ _ _ _ Hwf Hup) as [Hwf1 Hlen].
  assert (length (updaters_of managed) = 0) as H0 by (destruct managed as [fs ts]; simpl in Hnil; by subst).
  assert (set_wf (set_difference (apply_reset (reset_filter self) (set_union (modified c) (added c))) strip_set)) as Hs.
  { destruct (update_versions_get self _ _ _ _ _ _ _ Hwf Hup) as (_ & -> & _ & _).
    destruct (compare_at_wf self (JObject []) live (api_version self)). apply difference_wf.
    unfold apply_reset. destruct (reset_filter self); auto with fieldset. }
  intros [= <-]. unfold cap_update_managers. destruct (set_is_empty _).
  { by rewrite decide_True; [unfold DEFAULT_MAX_UPDATE_MANAGERS; lia|]. }
  rewrite decide_True.
  { destruct m1 as [fs1 ts1]. cbn [managed_fields managed_times].
    etrans; [apply (updaters_insert _ ts1), Hwf1|]. unfold DEFAULT_MAX_UPDATE_MANAGERS. lia. }
  apply entries_wf_insert; [done|]. destruct (obj_get _ (managed_fields m1)) as [prev|] eqn:Ep; simpl; [|done].
  pose proof (proj2 Hwf1 _ _ Ep). auto with fieldset.
Qed.

(** ** What an apply leaves *)

(** The fields of a configuration that its applier owns. *)
Definition applied_set (config : Json) : FieldSet := apply_reset (reset_filter self) (set (fields_of self config)).

Lemma applied_set_wf config : set_wf (applied_set config).
Proof.
  unfold applied_set, apply_reset. pose proof (fields_of_wf self config) as Hf.
  destruct (reset_filter self); [apply filter_set_wf|]; apply Hf.
Qed.

Lemma strip_applier_owned id fs a :
  entries_wf fs ->
  owned (strip_applier id fs) a = (if decide (a = id) then owned fs id ∖ paths strip_set else owned fs a)
  /\ entries_wf (strip_applier id fs).
Proof.
  intros Hwf. unfold strip_applier. destruct (obj_get id fs) as [vs|] eqn:E.
  - pose proof (proj2 Hwf _ _ E) as Hvs. assert (set_wf (set_difference (vs_set vs) strip_set)) as Hd by auto with fieldset.
    assert (owned fs id = paths (vs_set vs)) as Ho by (unfold owned; by rewrite E).
    destruct (set_is_empty _) eqn:Ee.
    + apply paths_empty in Ee; [|done]. rewrite paths_difference in Ee; [done|apply strip_set_wf|].
      split; [|split; [by apply obj_remove_sorted, Hwf|]].
      * unfold owned at 1. rewrite obj_get_remove; [apply Hwf|]. case_decide; [|done]. rewrite Ho. by rewrite Ee.
      * intros b x. rewrite obj_get_remove; [apply Hwf|]. case_decide; [done|]. apply Hwf.
    + split; [|by apply entries_wf_insert]. rewrite owned_insert. case_decide; [|done]. simpl.
      rewrite Ho paths_difference //. apply strip_set_wf.
  - split; [|done]. case_decide; [|done]. subst. unfold owned. rewrite E. simpl. set_solver.
Qed.

(** The entries with the configuration's fields under the applier's name. *)
Definition with_applier (config : Json) (managed : Managed) (id : string) : Managed :=
  mkManaged (obj_insert id (mkVersioned (applied_set config) (api_version self) true) (managed_fields managed))
    (managed_times managed).

(** The object before it is compared: the merge, less what the applier applied
    last time and nobody owns now. *)
Definition merged_object (live config : Json) (managed : Managed) (id : string) : Json :=
  match obj_get id (managed_fields managed) with
  | Some vs =>
      foldl (fun v path => remove_path path v) (merge_config self live config)
        (set_members (set_difference (vs_set vs) (all_owned (with_applier config managed id))))
  | None => merge_config self live config
  end.

(** What the applier applied last time. *)
Definition last_applied (managed : Managed) (id : string) : option (FieldSet * string) :=
  (fun vs => (vs_set vs, vs_api_version vs)) <$> obj_get id (managed_fields managed).

Lemma prune_unconverted live config managed id :
  converter self = None ->
  prune self (merge_config self live config) (with_applier config managed id) (last_applied managed id)
  = Ok (merged_object live config managed id).
Proof.
  intros Hc. unfold prune, merged_object, last_applied. destruct (obj_get id (managed_fields managed)) as [vs|] eqn:E; [|done].
  cbn [fmap option_fmap option_map]. rewrite Hc. destruct (set_is_empty (vs_set vs)) eqn:Ee; [|done].
  apply set_is_empty_true in Ee. rewrite Ee. done.
Qed.

(** The steps of an apply that goes through. *)
Lemma apply_managed_ok now live live_exists config managed manager force object managed' :
  let id := build_manager_identifier (manager_or_unknown manager) OPERATION_APPLY (api_version self) (subresource self) in
  apply_managed self now live live_exists config managed manager force = Ok (object, managed') ->
  exists m0 merged c m,
    starting_entries now live live_exists managed = Ok m0 /\
    prune self (merge_config self live config) (with_applier config m0 id) (last_applied m0 id) = Ok merged /\
    update_versions self live merged (with_applier config m0 id) (Some id) force = Ok (c, m) /\
    managed_fields managed' = strip_applier id (managed_fields m) /\
    (object = merged \/ object = live /\ value_eqb merged live = true).
Proof.
  intros id. unfold apply_managed. fold (starting_entries now live live_exists managed).
  destruct (starting_entries now live live_exists managed) as [m0|]; [|done]. cbn [result_bind]. fold id.
  fold (applied_set config) (with_applier config m0 id) (last_applied m0 id).
  destruct (prune _ _ _ _) as [merged|] eqn:Hp; [|done]. cbn [result_bind].
  destruct (update_versions _ _ _ _ _ _) as [[c m]|] eqn:Hup; [|done]. cbn [result_bind].
  intros Hr. exists m0, merged, c, m. do 3 (split; [done|]).
  destruct (value_eqb merged live); injection Hr as <- <-; auto.
Qed.

(** C25: ownership after an apply that goes through, for every resource: with
    conversions between versions and reset fields, and for objects that had no
    entries yet.  From the entries it starts with (those of the object, or the one
    that an object without entries gets first), the applier ends up owning exactly
    the fields of its configuration, but for the reset fields and the stripped
    metadata; every other manager owns what it owned less what the apply changed
    or removed, compared at that manager's version without the fields that are
    reset there, and nothing when its version is gone; without [force] the apply
    changed nothing that another manager owned.  The object is the merge of the
    configuration into the live object after the pruning, or the live object when
    they are equal; without conversions the pruning takes away exactly the fields
    that the applier owned before and nobody owns now. *)
Theorem apply_ownership now live live_exists config managed manager force object managed' :
  let id := build_manager_identifier (manager_or_unknown manager) OPERATION_APPLY (api_version self) (subresource self) in
  entries_wf (managed_fields managed) ->
  apply_managed self now live live_exists config managed manager force = Ok (object, managed') ->
  exists m0 merged,
    starting_entries now live live_exists managed = Ok m0
    /\ prune self (merge_config self live config) (with_applier config m0 id) (last_applied m0 id) = Ok merged
    /\ (converter self = None -> merged = merged_object live config m0 id)
    /\ (object = merged \/ object = live /\ value_eqb merged live = true)
    /\ owned (managed_fields managed') id = paths (applied_set config) ∖ paths strip_set
    /\ forall a, a <> id ->
         match obj_get a (managed_fields m0) with
         | None => owned (managed_fields managed') a = ∅
         | Some vs =>
             match manager_comparison self live merged (vs_api_version vs) with
             | Ok (Some c) =>
                 owned (managed_fields managed') a = paths (vs_set vs) ∖ touched c
                 /\ (force = false -> paths (vs_set vs) ## paths (modified c) ∪ paths (added c))
             | Ok None => owned (managed_fields managed') a = ∅
             | Err _ => False
             end
         end.
Proof.
  intros id Hwf Hap. destruct (apply_managed_ok _ _ _ _ _ _ _ _ _ Hap) as (m0 & merged & c & m & H0 & Hp & Hup & Hf & Ho).
  fold id in Hp, Hup, Hf. exists m0, merged. pose proof (starting_entries_wf _ _ _ _ _ Hwf H0) as Hwf0.
  assert (entries_wf (managed_fields (with_applier config m0 id))) as Hwf1 by (apply entries_wf_insert; [done|apply applied_set_wf]).
  destruct (update_versions_get self live merged (Some id) _ _ _ _ Hwf1 Hup) as (Hcmp & _).
  destruct (update_versions_facts self live merged (Some id) _ _ _ _ Hwf1 Hup) as [Hwf2 Hid].
  assert (forall a, owned (managed_fields managed') a = if decide (a = id) then owned (managed_fields m) id ∖ paths strip_set else owned (managed_fields m) a) as Hstrip
    by (intros a; rewrite Hf; by apply strip_applier_owned).
  split; [done|]. split; [done|]. split; [intros Hc; rewrite prune_unconverted // in Hp; congruence|]. split; [done|]. split.
  - rewrite Hstrip decide_True //. specialize (Hid id). cbn [with_applier managed_fields] in Hid.
    rewrite obj_get_insert_eq decide_True // in Hid. by destruct Hid as [_ ->].
  - intros a Ha. rewrite Hstrip decide_False //. specialize (Hid a). specialize (Hcmp a).
    cbn [with_applier managed_fields] in Hid, Hcmp. rewrite obj_get_insert_ne // in Hid. rewrite obj_get_insert_ne // in Hcmp.
    destruct (obj_get a (managed_fields m0)) as [vs|] eqn:E; [|unfold owned; by rewrite Hid].
    specialize (Hcmp vs eq_refl ltac:(congruence)). destruct Hid as [_ Hid]. rewrite decide_False in Hid; [congruence|].
    destruct (manager_comparison self live merged (vs_api_version vs)) as [[cc|]|] eqn:Ec; [|done..].
    split; [done|]. intros ->. apply elem_of_disjoint. intros p Hpo Hch%elem_of_union.
    pose proof (update_versions_conflicts self live merged (Some id) (with_applier config m0 id) Hwf1) as Hno.
    rewrite Hup in Hno. apply Hno; [|exists a, p, vs, cc; split_and!; try done].
    + intros b vb Hb Hs. destruct (update_versions_get self live merged (Some id) _ _ _ _ Hwf1 Hup) as (Hcb & _). by eapply Hcb.
    + cbn. by rewrite obj_get_insert_ne.
    + congruence.
Qed.
End Apply.

Section Single.
Context {JT : JsonText} {JP : JsonParse} {IT : IdText}.
Variable self : FieldManager.
Hypothesis Hconverter : converter self = None.
Hypothesis Hreset : forall v, reset_filter_for self v = None.

(** What an operation from [old] to [new] changes and removes. *)
Definition delta (old new : Json) : Comparison := compare (fields_of self old) (fields_of self new).

Lemma delta_wf old new : comparison_wf (delta old new).
Proof. apply compare_wf; apply fields_of_wf. Qed.

Lemma manager_comparison_single old new v : manager_comparison self old new v = Ok (Some (delta old new)).
Proof.
  unfold manager_comparison, convert_to, compare_at. rewrite Hreset Hconverter. by case_decide.
Qed.

Lemma versions_comparable_single old new skip fs : versions_comparable self old new skip fs.
Proof. intros id vs _ _. by rewrite manager_comparison_single. Qed.

Lemma update_versions_single old new managed skip force cur managed' :
  entries_wf (managed_fields managed) ->
  update_versions self old new managed skip force = Ok (cur, managed') ->
  cur = delta old new /\ entries_wf (managed_fields managed')
  /\ (forall id, owned (managed_fields managed') id =
       if decide (skip = Some id) then owned (managed_fields managed) id
       else owned (managed_fields managed) id ∖ touched (delta old new))
  /\ (forall id vs', obj_get id (managed_fields managed') = Some vs' ->
       exists vs, obj_get id (managed_fields managed) = Some vs
         /\ vs_api_version vs' = vs_api_version vs /\ vs_applied vs' = vs_applied vs).
Proof.
  intros Hwf Hup. destruct (update_versions_get self old new skip _ _ _ _ Hwf Hup) as (_ & -> & _ & _).
  destruct (update_versions_facts self old new skip _ _ _ _ Hwf Hup) as (Hwf' & Hid).
  split_and!; [unfold compare_at; by rewrite Hreset|done| |].
  - intros id. specialize (Hid id). unfold owned at 2 3. destruct (obj_get id (managed_fields managed)) as [vs|].
    + destruct Hid as [_ ->]. case_decide; [done|]. by rewrite manager_comparison_single.
    + unfold owned. rewrite Hid. simpl. case_decide; set_solver.
  - intros id vs' Hvs'. specialize (Hid id). destruct (obj_get id (managed_fields managed)) as [vs|]; [|congruence].
    destruct Hid as [H _]. destruct (H vs' Hvs') as (? & ? & _). eauto.
Qed.

(** ** Updates *)

Lemma update_versions_total old new managed skip force :
  entries_wf (managed_fields managed) ->
  force = true \/ ~ (exists id p, contested self old new skip (managed_fields managed) id p) ->
  exists cur managed', update_versions self old new managed skip force = Ok (cur, managed')
    /\ managed_times managed' = managed_times managed.
Proof.
  intros Hwf Hno. destruct (check_managers_found self old new skip _ (proj1 Hwf) (versions_comparable_single _ _ _ _)) as (found & Hf & Hc & _ & Hm).
  unfold update_versions. rewrite Hf. cbn [result_bind]. case_decide as Hd.
  - destruct Hno as [->|Hno]; [by destruct Hd|]. destruct Hno. apply conflicts_contested; [done|]. rewrite -Hc. by destruct Hd.
  - do 2 eexists. split; [done|]. cbn [managed_times]. rewrite Hm.
    assert (flat_map (missing_of self old new skip) (managed_fields managed) = []) as ->; [|done].
    clear -Hconverter Hreset. induction (managed_fields managed) as [|e fs IH]; [done|]. cbn [flat_map]. rewrite IH. unfold missing_of.
    rewrite manager_comparison_single. by case_decide.
Qed.

(** An update records its author.  For a resource at one version without
    reset fields and with fewer than ten Update entries, an update that is tracked
    (the object has managers, or is new) succeeds, and afterwards the updater owns
    what it changed, but for the stripped metadata, together with what it owned
    and the update left alone; every other manager owns what it owned before less
    what the update changed or removed. *)
Theorem update_ownership now live new managed manager live_is_new :
  let id := build_manager_identifier (manager_or_unknown manager) OPERATION_UPDATE (api_version self) (subresource self) in
  let d := delta live new in
  entries_wf (managed_fields managed) ->
  managed_fields managed <> [] \/ live_is_new = true ->
  length (updaters_of managed) < DEFAULT_MAX_UPDATE_MANAGERS ->
  exists managed', update_managed self now live new managed manager live_is_new = Ok managed'
    /\ entries_wf (managed_fields managed')
    /\ forall a, owned (managed_fields managed') a =
         if decide (a = id)
         then ((paths (modified d) ∪ paths (added d)) ∖ paths strip_set) ∪ (owned (managed_fields managed) id ∖ touched d)
         else owned (managed_fields managed) a ∖ touched d.
Proof.
  intros id d Hwf Htrack Hlen. unfold update_managed. rewrite decide_False; [naive_solver|]. fold id.
  destruct (update_versions_total live new managed None true Hwf (or_introl eq_refl)) as (cur & m1 & Hup & _). rewrite Hup.
  destruct (update_versions_single _ _ _ _ _ _ _ Hwf Hup) as (-> & Hwf1 & Hown & Hsub). fold d.
  unfold reset_filter. rewrite Hreset. cbn [apply_reset].
  pose proof (delta_wf live new) as [Hr Hm Ha]. fold d in Hr, Hm, Ha.
  set (ch := set_union (modified d) (added d)).
  assert (set_wf ch) as Hch by (by apply union_wf). assert (set_wf (set_difference ch strip_set)) as Hcur by auto with fieldset.
  set (m2 := if set_is_empty _ then m1 else _).
  assert (entries_wf (managed_fields m2)
    /\ (forall a, owned (managed_fields m2) a =
         if decide (a = id) then paths (set_difference ch strip_set) ∪ owned (managed_fields m1) id else owned (managed_fields m1) a)
    /\ length (updaters_of m2) <= S (length (updaters_of m1))) as (Hwf2 & Hown2 & Hlen2).
  { subst m2. destruct (set_is_empty (set_difference ch strip_set)) eqn:Ee.
    - apply paths_empty in Ee; [|done]. split_and!; [done| |lia]. intros a. rewrite Ee. case_decide; [subst; set_solver|done].
    - destruct m1 as [fs1 ts1]. cbn [managed_fields] in *. unfold owned at 2. destruct (obj_get id fs1) as [prev|] eqn:Ep.
      + pose proof (proj2 Hwf1 _ _ Ep). split_and!; [apply entries_wf_insert; simpl; auto with fieldset| |by apply updaters_insert, Hwf1].
        intros a. rewrite owned_insert. case_decide; [|done]. simpl. by rewrite paths_union.
      + split_and!; [by apply entries_wf_insert| |by apply updaters_insert, Hwf1].
        intros a. rewrite owned_insert. case_decide; [|done]. simpl. set_solver. }
  assert (length (updaters_of m1) <= length (updaters_of managed)) as Hlen1.
  { destruct m1 as [fs1 ts1], managed as [fs ts]. apply updaters_subset; [apply Hwf|apply Hwf1|].
    intros a vs' Hvs' Hap. destruct (Hsub a vs' Hvs') as (vs & ? & _ & ?). exists vs. split; [done|congruence]. }
  eexists. split; [done|]. unfold cap_update_managers. rewrite decide_True; [unfold DEFAULT_MAX_UPDATE_MANAGERS in *; lia|].
  split; [done|]. intros a. rewrite Hown2 !Hown. rewrite paths_difference //; [apply strip_set_wf|].
  unfold ch. by rewrite paths_union.
Qed.

(** ** Applies *)

(** [apply_managed] once the first entry is there. *)
Lemma apply_managed_single now live live_exists config managed manager force :
  managed_fields managed <> [] \/ live_exists = false -> entries_wf (managed_fields managed) ->
  let id := build_manager_identifier (manager_or_unknown manager) OPERATION_APPLY (api_version self) (subresource self) in
  let merged := merged_object self live config managed id in
  apply_managed self now live live_exists config managed manager force =
  match update_versions self live merged (with_applier self config managed id) (Some id) force with
  | Err e => Err e
  | Ok (_, m) =>
      Ok (if value_eqb merged live then (live, mkManaged (strip_applier id (managed_fields m)) (managed_times m))
          else (merged, mkManaged (strip_applier id (managed_fields m))
                          (obj_insert id (Some (trunc_subsecs now)) (managed_times m))))
  end.
Proof.
  intros Hm Hwf id merged. unfold apply_managed. rewrite decide_False; [naive_solver|]. cbn [result_bind]. fold id.
  fold (applied_set self config) (with_applier self config managed id) (last_applied managed id).
  rewrite prune_unconverted //. cbn [result_bind]. fold merged.
  destruct (update_versions self live merged _ (Some id) force) as [[c m]|e]; [|done]. cbn [result_bind].
  by destruct (value_eqb merged live).
Qed.

(** ** Applying again *)

Lemma all_owned_paths managed p :
  entries_wf (managed_fields managed) ->
  set_wf (all_owned managed)
  /\ (set_has p (all_owned managed) = true <-> exists id vs, obj_get id (managed_fields managed) = Some vs /\ set_has p (vs_set vs) = true).
Proof.
  intros [Hs Hw]. unfold all_owned.
  assert (forall (fs : list (string * VersionedSet)) s, (forall e, e ∈ fs -> set_wf (vs_set e.2)) -> set_wf s ->
    set_wf (foldl (fun owned kv => set_union owned (vs_set kv.2)) s fs)
    /\ (set_has p (foldl (fun owned kv => set_union owned (vs_set kv.2)) s fs) = true <->
        set_has p s = true \/ exists e, e ∈ fs /\ set_has p (vs_set e.2) = true)) as H.
  { induction fs as [|e fs IH]; intros s He Hss; cbn [foldl].
    - split; [done|]. split; [auto|]. intros [?|(? & []%elem_of_nil & _)]; done.
    - destruct (IH (set_union s (vs_set e.2))) as [H1 H2]; [intros; apply He; by right|apply union_wf; [apply He; left|done]|].
      split; [done|]. rewrite H2 has_union //; [apply He; left|]. rewrite orb_true_iff. setoid_rewrite elem_of_cons. naive_solver. }
  destruct (H (managed_fields managed) set_new) as [H1 H2]; [intros [id vs] He%elem_obj_get; [by apply (Hw id)|done]|apply set_new_wf|].
  split; [done|]. rewrite H2 has_set_new. split.
  - intros [?|([id vs] & He & Hp)]; [done|]. exists id, vs. split; [by apply elem_obj_get|done].
  - intros (id & vs & Hid%obj_get_elem & Hp). right. by exists (id, vs).
Qed.

Lemma delta_self live : touched (delta live live) = ∅.
Proof.
  unfold touched, delta. pose proof (fields_of_wf self live) as Hf. destruct (compare_wf _ _ Hf Hf) as [Hr Hm Ha].
  apply set_eq. intros p. split; [|set_solver].
  destruct (compare_self (fields_of self live) p Hf) as (H1 & H2 & H3).
  intros [[H%elem_paths|H%elem_paths]%elem_of_union|H%elem_paths]%elem_of_union; congruence.
Qed.

(** Nothing is pruned when the configuration has all the applier's fields. *)
Lemma merged_object_live live config managed id :
  entries_wf (managed_fields managed) -> merge_config self live config = live ->
  owned (managed_fields managed) id ⊆ paths (applied_set self config) ->
  merged_object self live config managed id = live.
Proof.
  intros Hwf Hmerge Hlast. pose proof (applied_set_wf self config) as Hcw.
  assert (entries_wf (managed_fields (with_applier self config managed id))) as Hwf1 by (by apply entries_wf_insert).
  unfold merged_object. destruct (obj_get id (managed_fields managed)) as [vs|] eqn:E; [|done].
  pose proof (proj2 Hwf _ _ E) as Hvs. rewrite Hmerge.
  assert (set_difference (vs_set vs) (all_owned (with_applier self config managed id)) = set_new) as ->; [|done].
  apply set_is_empty_true, paths_empty; [auto with fieldset|]. apply set_eq. intros p.
  rewrite elem_paths; [auto with fieldset|]. rewrite has_difference // andb_true_iff negb_true_iff -not_true_iff_false.
  rewrite (proj2 (all_owned_paths _ p Hwf1)). split; [|set_solver]. intros [Hp []].
  exists id, (mkVersioned (applied_set self config) (api_version self) true). split; [apply obj_get_insert_eq|].
  apply elem_paths; [done|]. apply Hlast. unfold owned. rewrite E. by apply elem_paths.
Qed.

(** Applying a configuration that the object already has is a no-op that
    cannot fail.  When merging the configuration leaves the live object as it is
    and the applier's previous fields are all in the configuration, the apply
    succeeds with or without [force], returns the live object, takes nothing from
    any other manager, and moves no timestamp. *)
Theorem reapply_is_noop now live live_exists config managed manager force :
  let id := build_manager_identifier (manager_or_unknown manager) OPERATION_APPLY (api_version self) (subresource self) in
  managed_fields managed <> [] \/ live_exists = false ->
  entries_wf (managed_fields managed) ->
  merge_config self live config = live ->
  owned (managed_fields managed) id ⊆ paths (applied_set self config) ->
  exists managed',
    apply_managed self now live live_exists config managed manager force = Ok (live, managed')
    /\ (forall a, a <> id -> owned (managed_fields managed') a = owned (managed_fields managed) a)
    /\ owned (managed_fields managed') id = paths (applied_set self config) ∖ paths strip_set
    /\ managed_times managed' = managed_times managed.
Proof.
  intros id Hm Hwf Hmerge Hlast. pose proof (applied_set_wf self config) as Hcw.
  assert (entries_wf (managed_fields (with_applier self config managed id))) as Hwf1 by (by apply entries_wf_insert).
  rewrite apply_managed_single //. fold id. rewrite merged_object_live //.
  destruct (update_versions_total live live (with_applier self config managed id) (Some id) force Hwf1) as (cur & m & Hup & Htimes).
  { right. intros (a & p & vs & c & _ & _ & Hc & _ & Hch). rewrite manager_comparison_single in Hc. injection Hc as <-.
    pose proof (delta_self live) as Hd. unfold touched in Hd. set_solver. }
  rewrite Hup value_eqb_refl.
  destruct (update_versions_single _ _ _ _ _ _ _ Hwf1 Hup) as (_ & Hwf2 & Hown & _).
  eexists. split; [done|]. cbn [managed_fields managed_times]. split_and!; [| |done].
  - intros a Ha. rewrite (proj1 (strip_applier_owned id _ a Hwf2)) decide_False // Hown delta_self.
    rewrite owned_insert (decide_False (P := a = id)) //. case_decide; set_solver.
  - rewrite (proj1 (strip_applier_owned id _ id Hwf2)) decide_True // Hown decide_True //.
    by rewrite owned_insert decide_True.
Qed.
End Single.

(** ** Examples *)

Section Examples.
Import SampleId.

Lemma v1_no_reset v : reset_filter_for manager_v1 v = None.
Proof. done. Qed.

Lemma set_by_a_nonempty : managed_fields set_by_a <> [] \/ true = false.
Proof. left. vm_compute. discriminate. Qed.

(** A resource that resets its status. *)
Definition resets_status : FieldManager :=
  mkFieldManager "v1" "" (with_set reset_none "v1" [["status"]]) None None.

Definition with_status (n phase : string) : Json :=
  JObject [("spec", JObject [("replicas", JNumber n)]); ("status", JObject [("phase", JString phase)])].

(** The manager ["a"] owns the replicas and the phase; ["b"] applies both, by
    force: it takes the replicas, and the phase stays with ["a"]. *)
Definition a_owns_both : Managed := updated_by [("a", [["f:spec"; "f:replicas"]; ["f:status"; "f:phase"]])].

Lemma apply_ownership_witness :
  let a := build_manager_identifier "a" OPERATION_UPDATE "v1" "" in
  let b := build_manager_identifier "b" OPERATION_APPLY "v1" "" in
  exists object managed',
    apply_managed resets_status 0%Z (with_status "1" "Pending") true (with_status "2" "Running") a_owns_both "b" true
      = Ok (object, managed')
    /\ ["f:spec"; "f:replicas"] ∈ owned (managed_fields managed') b
    /\ (["f:status"; "f:phase"] ∉ owned (managed_fields managed') b)
    /\ owned (managed_fields managed') a = {[ ["f:status"; "f:phase"] ]}.
Proof.
  intros a b.
  assert (exists object managed',
    apply_managed resets_status 0%Z (with_status "1" "Pending") true (with_status "2" "Running") a_owns_both "b" true
      = Ok (object, managed')) as (object & managed' & Hap) by (eexists _, _; vm_compute; reflexivity).
  exists object, managed'. split; [exact Hap|].
  destruct (apply_ownership resets_status 0%Z (with_status "1" "Pending") true (with_status "2" "Running") a_owns_both "b" true
    object managed' (updated_by_entries _) Hap) as (m0 & merged & H0 & Hp & _ & _ & Hb & Ha).
  assert (m0 = a_owns_both) as -> by (injection H0 as <-; reflexivity).
  assert (merged = with_status "2" "Running") as -> by (assert (Ok merged = Ok (E := UpdateFailure) (with_status "2" "Running")) as [= ->] by (rewrite -Hp; vm_compute; reflexivity); reflexivity).
  split_and!.
  - rewrite Hb. vm_compute. reflexivity.
  - rewrite Hb. vm_compute. discriminate.
  - assert (a <> b) as Hab by (vm_compute; discriminate). specialize (Ha a Hab).
    rewrite (eq_refl : obj_get a (managed_fields a_owns_both) = Some (mkVersioned (set_of [["f:spec"; "f:replicas"]; ["f:status"; "f:phase"]]) "v1" false)) in Ha.
    destruct Ha as [Ha _]. rewrite Ha. vm_compute. reflexivity.
Defined.

(** The manager ["b"] applies what the object already has. *)
Lemma reapply_is_noop_witness :
  exists managed',
    apply_managed manager_v1 0%Z (replicas "1") true (replicas "1") set_by_a "b" false = Ok (replicas "1", managed').
Proof.
  destruct (reapply_is_noop manager_v1 eq_refl v1_no_reset 0%Z (replicas "1") true (replicas "1") set_by_a "b" false
    set_by_a_nonempty (updated_by_entries _)) as (managed' & H & _).
  - vm_compute. reflexivity.
  - assert (owned (managed_fields set_by_a)
      (build_manager_identifier (manager_or_unknown "b") OPERATION_APPLY (api_version manager_v1) (subresource manager_v1)) = ∅)
      as -> by (vm_compute; reflexivity). apply empty_subseteq.
  - exists managed'. exact H.
Defined.

Lemma update_ownership_witness :
  exists managed',
    update_managed manager_v1 0%Z (replicas "1") (replicas "2") set_by_a "b" false = Ok managed'
    /\ ["f:spec"; "f:replicas"] ∈ owned (managed_fields managed') (build_manager_identifier "b" OPERATION_UPDATE "v1" "").
Proof.
  destruct (update_ownership manager_v1 eq_refl v1_no_reset 0%Z (replicas "1") (replicas "2") set_by_a "b" false) as (managed' & H & _ & Ho).
  - apply updated_by_entries.
  - left. vm_compute. discriminate.
  - vm_compute. lia.
  - exists managed'. split; [exact H|]. rewrite Ho. apply elem_of_union_l, elem_of_difference.
    split; [apply elem_of_union_l|].
    + rewrite (elem_paths _ _ (cw_modified _ (delta_wf manager_v1 _ _))). vm_compute. reflexivity.
    + rewrite (elem_paths _ _ strip_set_wf). vm_compute. discriminate.
Defined.
End Examples.
