(* ===== verification/AllocInterface.v ===== *)
(** * What a range allocator promises its clients

    The trait [Interface] of
    [crates/api-server/src/registry/core/service/allocator/mod.rs] as the class
    [Interface], the promise its clients rely on as the class [Allocator], and
    its two implementations: [InMemory], a bitmap behind a lock, and [Etcd]
    ([allocator/storage.rs]), a bitmap persisted after every change.

    - A call of [allocate_next] takes the two draws of its random scan.
    - [None] is a panic, or for [Etcd] the end of the fuel of the retry loop.
    - A failed call leaves what is held as it was.
    - For [Etcd] the promise is about one server between the writes of others;
      [RangeAllocator] shows that the calls of several servers are ordered. *)

From S2P Require Import Prelude AllocBitmap RangeAllocator.

Class Interface (A : Type) := {
  if_allocate : A -> nat -> option (A * result bool AllocError);
  if_allocate_next : A -> nat * nat -> option (A * result (option nat) AllocError);
  if_release : A -> nat -> option (A * result unit AllocError);
  if_allocated : A -> list nat;
  if_has : A -> nat -> bool;
  if_free : A -> option nat;
  if_snapshot : A -> result (string * list Z) AllocError;
  if_restore : A -> string -> list Z -> A * result unit AllocError
}.

(** The draws of [random_range] on a range of [max] items whose first [off] are
    the static band. *)
Definition draw_ok (max off : nat) (d : nat * nat) : Prop :=
  (d.1 < max - off \/ max = 0) /\ (d.2 < off \/ off = 0).

(** The promise: [al_held] is what is taken of [0, al_max). *)
Class Allocator (A : Type) `{!Interface A} := {
  al_inv : A -> Prop;
  al_max : A -> nat;
  al_off : A -> nat;
  al_held : A -> gset nat;
  al_bound a o : al_inv a -> o ∈ al_held a -> o < al_max a;
  al_allocate a o : al_inv a -> o < al_max a ->
    exists a' r, if_allocate a o = Some (a', r) /\
      (al_inv a' /\ al_max a' = al_max a /\ al_off a' = al_off a) /\
      match r with
      | Ok true => (o ∉ al_held a) /\ al_held a' = {[o]} ∪ al_held a
      | Ok false => o ∈ al_held a /\ al_held a' = al_held a
      | Err _ => al_held a' = al_held a
      end;
  al_allocate_next a d : al_inv a -> draw_ok (al_max a) (al_off a) d ->
    exists a' r, if_allocate_next a d = Some (a', r) /\
      (al_inv a' /\ al_max a' = al_max a /\ al_off a' = al_off a) /\
      match r with
      | Ok (Some o) => o < al_max a /\ (o ∉ al_held a) /\ al_held a' = {[o]} ∪ al_held a
      | Ok None => (forall o, o < al_max a -> o ∈ al_held a) /\ al_held a' = al_held a
      | Err _ => al_held a' = al_held a
      end;
  al_release a o : al_inv a ->
    exists a' r, if_release a o = Some (a', r) /\
      (al_inv a' /\ al_max a' = al_max a /\ al_off a' = al_off a) /\
      match r with
      | Ok _ => al_held a' = al_held a ∖ {[o]}
      | Err _ => al_held a' = al_held a
      end
}.

(** ** [InMemory] *)

Definition internal_err {A} (r : result A string) : result A AllocError :=
  match r with Ok a => Ok a | Err msg => Err (EInternal msg) end.

#[export] Instance InMemory : Interface AllocationBitmap := {
  if_allocate b o := let '(b', r) := allocate b o in Some (b', internal_err r);
  if_allocate_next b d := '(b', r) ← allocate_next b d.1 d.2; Some (b', Ok r);
  if_release b o := Some (release b o, Ok tt);
  if_allocated := allocated;
  if_has := bm_has;
  if_free := bm_free;
  if_snapshot b := Ok (snapshot b);
  if_restore b range_spec data :=
    let '(b', r) := restore b range_spec data in (b', internal_err r)
}.

#[export] Program Instance InMemory_allocator : Allocator AllocationBitmap := {
  al_inv := bm_inv;
  al_max := bm_max;
  al_off := bm_offset;
  al_held := taken
}.
Next Obligation. intros b o Hi Ho%elem_of_taken. by apply (bi_range _ Hi). Qed.
Next Obligation.
  intros b o Hi Ho. cbn [if_allocate InMemory]. pose proof (allocate_spec b o Hi) as Ha.
  destruct (allocate b o) as [b' r]. destruct Ha as (Hi' & Hm & Hf & _ & Hr).
  eexists _, _. split; [done|]. split; [done|].
  destruct r as [[]|msg]; simpl; [|destruct Hr as (? & ? & ->)|]; naive_solver.
Qed.
Next Obligation.
  intros b d Hi [H1 H2]. cbn [if_allocate_next InMemory].
  destruct (allocate_next_spec b d.1 d.2 Hi H1 H2) as (b' & r & -> & Hi' & Hm & Hf & _ & Hr).
  eexists _, _. split; [done|]. split; [done|].
  destruct r as [o|]; [|destruct Hr as [-> ?]]; naive_solver.
Qed.
Next Obligation.
  intros b o Hi. destruct (release_spec b o Hi) as (Hi' & Hm & Hf & _ & Ht). by eexists _, _.
Qed.

(** ** [Etcd] *)

Record Etcd (St : Type) := mkEtcd { et_store : St; et_state : AllocState; et_resource : string }.
Arguments mkEtcd {St} _ _ _.
Arguments et_store {St} _.
Arguments et_state {St} _.
Arguments et_resource {St} _.

(** The loop of [try_update]; [fuel] bounds its turns. *)
Fixpoint try_update {St} `{!RangeStore St} (fuel : nat) (a : Etcd St) (op : alloc_op) (d : nat * nat)
    : option (Etcd St * result nat AllocError) :=
  match fuel with
  | 0 => None
  | S fuel' =>
      '(st, r) ← read_turn (et_resource a) (et_store a) (et_state a) op d.1 d.2;
      match r with
      | Err e => Some (mkEtcd (et_store a) st (et_resource a), Err e)
      | Ok (updated, offset) =>
          match write_turn (et_store a) updated with
          | (s, Some (Ok _)) => Some (mkEtcd s st (et_resource a), Ok offset)
          | (s, Some (Err e)) => Some (mkEtcd s st (et_resource a), Err e)
          | (s, None) => try_update fuel' (mkEtcd s st (et_resource a)) op d
          end
      end
  end.

(** With nobody writing in between, the first turn succeeds. *)
Definition TURNS : nat := 1.

Definition etcd_allocate {St} `{!RangeStore St} (a : Etcd St) (offset : nat)
    : option (Etcd St * result bool AllocError) :=
  '(a', r) ← try_update TURNS a (AAllocate offset) (0, 0);
  Some (a', match r with
            | Ok _ => Ok true
            | Err (EInternal msg) =>
                if decide (msg = UNABLE_TO_ALLOCATE) then Ok false else Err (EInternal msg)
            | Err e => Err e
            end).

Definition etcd_allocate_next {St} `{!RangeStore St} (a : Etcd St) (d : nat * nat)
    : option (Etcd St * result (option nat) AllocError) :=
  '(a', r) ← try_update TURNS a AAllocateNext d;
  Some (a', match r with
            | Ok offset => Ok (Some offset)
            | Err (EInternal msg) =>
                if decide (msg = UNABLE_TO_ALLOCATE) then Ok None else Err (EInternal msg)
            | Err e => Err e
            end).

Definition etcd_release {St} `{!RangeStore St} (a : Etcd St) (offset : nat)
    : option (Etcd St * result unit AllocError) :=
  '(a', r) ← try_update TURNS a (ARelease offset) (0, 0);
  Some (a', result_map (fun _ => tt) r).

Definition not_snapshottable {A} : result A AllocError := Err (EInternal "not a snapshottable allocator").

#[export] Instance EtcdInterface {St} `{!RangeStore St} : Interface (Etcd St) := {
  if_allocate := etcd_allocate;
  if_allocate_next := etcd_allocate_next;
  if_release := etcd_release;
  if_allocated a := allocated (st_alloc (et_state a));
  if_has a := bm_has (st_alloc (et_state a));
  if_free a := bm_free (st_alloc (et_state a));
  if_snapshot _ := not_snapshottable;
  if_restore a _ _ := (a, not_snapshottable)
}.

Section EtcdFacts.
Context {St : Type} {RS : RangeStore St}.
Implicit Types (a : Etcd St) (held : gset nat).

(** A turn that goes on to write holds the version it read. *)
Lemma read_turn_version resource s st op d1 d2 st' r offset :
  read_turn resource s st op d1 d2 = Some (st', Ok (r, offset)) -> version s = Some (st_last st').
Proof.
  unfold read_turn, stored, version. destruct (rs_get s) as [e|]; [|done]. simpl.
  destruct (ra_resource_version e) as [rv|]; [|done].
  destruct (if decide (rv = st_last st) then _ else _) as [b1 [|msg]]; [|done].
  intros ([b2 r2] & _ & H)%bind_Some. destruct r2; [|done]. destruct (snapshot b2). by simplify_eq.
Qed.

Lemma try_update_spec max off range a op d held :
  store_ok max off range (et_store a) held ->
  server_ok max off range (et_store a) held (mkServer (et_state a) Idle) -> draw_ok max off d ->
  exists a' r held', try_update TURNS a op d = Some (a', r) /\
    store_ok max off range (et_store a') held' /\
    server_ok max off range (et_store a') held' (mkServer (et_state a') Idle) /\
    match r with
    | Ok offset => effect max op held offset held'
    | Err _ => refusal max op held /\ held' = held
    end.
Proof.
  intros Hs Hok [H1 H2]. unfold TURNS. cbn [try_update].
  destruct (read_turn_spec (et_resource a) max off range _ _ op d.1 d.2 held Hs Hok H1 H2)
    as (st' & res & Hrd & Hres). rewrite Hrd /=.
  destruct res as [[r offset]|e]; last first.
  { destruct Hres. by eexists _, _, held. }
  destruct (write_turn_spec max off range _ st' op r offset held Hs Hres) as
    [(s1 & rv & b' & -> & Hv & Hnu & Hu & Hs1 & Heff)|[_ Hv]].
  - eexists _, _, _. split; [done|]. split; [exact Hs1|]. split; [|done].
    destruct Hres as (Hr & Hl & _). split; [done|]. simpl in *. split; [rewrite Hu; set_solver|].
    destruct (version_used _ _ Hv). rewrite Hv. intros [= ->]. set_solver.
  - by apply read_turn_version in Hrd.
Qed.

Definition etcd_held a : gset nat :=
  match rs_get (et_store a) with
  | Some e => taken (restore (st_alloc (et_state a)) (ra_range e) (ra_data e)).1
  | None => ∅
  end.

Lemma etcd_held_store max off range a held :
  store_ok max off range (et_store a) held -> bm_range_spec (st_alloc (et_state a)) = range ->
  etcd_held a = held.
Proof.
  intros (e & b & He & Hi & (_ & _ & Hr) & Hre & Hd & <-) Hrg. unfold etcd_held. rewrite He Hre Hd -Hr.
  rewrite (restore_snapshot b) //. congruence.
Qed.

Definition etcd_max a : nat := bm_max (st_alloc (et_state a)).
Definition etcd_off a : nat := bm_offset (st_alloc (et_state a)).

(** The range has been initialised, and the server has not read its latest
    version yet. *)
Definition etcd_inv a : Prop :=
  let range := bm_range_spec (st_alloc (et_state a)) in
  (etcd_max a = 0 \/ etcd_off a < etcd_max a) /\
  exists held, store_ok (etcd_max a) (etcd_off a) range (et_store a) held /\
    server_ok (etcd_max a) (etcd_off a) range (et_store a) held (mkServer (et_state a) Idle).

(** What one call does, from the invariant to the invariant. *)
Lemma etcd_call a op d :
  etcd_inv a -> draw_ok (etcd_max a) (etcd_off a) d ->
  exists a' r, try_update TURNS a op d = Some (a', r) /\
    (etcd_inv a' /\ etcd_max a' = etcd_max a /\ etcd_off a' = etcd_off a) /\
    match r with
    | Ok offset => effect (etcd_max a) op (etcd_held a) offset (etcd_held a')
    | Err _ => refusal (etcd_max a) op (etcd_held a) /\ etcd_held a' = etcd_held a
    end.
Proof.
  intros (Hlt & held & Hs & Hok) Hd.
  destruct (try_update_spec _ _ _ a op d held Hs Hok Hd) as (a' & r & held' & -> & Hs' & Hok' & Hr).
  eexists _, _. split; [done|]. pose proof (proj1 Hok') as (Hm & Ho & Hrg).
  rewrite (etcd_held_store _ _ _ _ _ Hs' Hrg) (etcd_held_store _ _ _ _ _ Hs eq_refl).
  split; [|done]. unfold etcd_inv, etcd_max, etcd_off in *. simpl in Hm, Ho, Hrg. rewrite Hm Ho Hrg. split_and!; [done|by exists held'|done..].
Qed.

(** The draws of a call that does not scan do not matter. *)
Lemma no_draw max off : max = 0 \/ off < max -> draw_ok max off (0, 0).
Proof. unfold draw_ok. simpl. lia. Qed.

Lemma etcd_bound a o : etcd_inv a -> o ∈ etcd_held a -> o < etcd_max a.
Proof.
  intros (_ & held & Hs & _). rewrite (etcd_held_store _ _ _ _ _ Hs eq_refl).
  destruct Hs as (e & b & _ & Hi & (Hm & _ & _) & _ & _ & <-). intros Ho%elem_of_taken.
  rewrite -Hm. by apply (bi_range _ Hi).
Qed.

End EtcdFacts.

#[export] Program Instance Etcd_allocator {St} `{!RangeStore St} : Allocator (Etcd St) := {
  al_inv := etcd_inv;
  al_max := etcd_max;
  al_off := etcd_off;
  al_held := etcd_held;
  al_bound := etcd_bound
}.
Next Obligation.
  intros St RS a o Hi Ho. cbn [if_allocate EtcdInterface]. unfold etcd_allocate.
  destruct (etcd_call a (AAllocate o) (0, 0) Hi) as (a' & r & -> & Hi' & Hr); [apply no_draw, Hi|].
  eexists _, _. split; [done|]. split; [done|]. destruct r as [x|[msg|msg|msg]]; simpl in Hr.
  - by destruct Hr as (-> & ? & ? & ->).
  - apply Hr.
  - destruct Hr as [Href Hh]. case_decide; [|done]. split; [|done]. destruct Href; [lia|done].
  - apply Hr.
Qed.
Next Obligation.
  intros St RS a d Hi Hd. cbn [if_allocate_next EtcdInterface]. unfold etcd_allocate_next.
  destruct (etcd_call a AAllocateNext d Hi Hd) as (a' & r & -> & Hi' & Hr).
  eexists _, _. split; [done|]. split; [done|]. destruct r as [x|[msg|msg|msg]]; simpl in Hr.
  - by destruct Hr as (? & ? & ->).
  - apply Hr.
  - by case_decide; destruct Hr.
  - apply Hr.
Qed.
Next Obligation.
  intros St RS a o Hi. cbn [if_release EtcdInterface]. unfold etcd_release.
  destruct (etcd_call a (ARelease o) (0, 0) Hi) as (a' & r & -> & Hi' & Hr); [apply no_draw, Hi|].
  eexists _, _. split; [done|]. split; [done|]. destruct r as [x|e]; simpl in *.
  - by destruct Hr as (_ & ->).
  - apply Hr.
Qed.
