(* ===== verification/PortAllocator.v ===== *)
(** * The node-port allocator

    Model of [crates/api-server/src/registry/core/service/portallocator/mod.rs]:
    port ranges and their text, and the allocator of ports over any range
    allocator.

    - A [usize] is a [Z]; a port is one too, its offset in the range a [nat].
    - The draws of the random scans to come are the stream [pa_rng] of the
      allocator, one pair per call of [allocate_next].
    - [None] is a panic: of the allocator behind, or the overflow of [min+offset]
      in a range. *)

From stdpp Require Import strings pretty.
From Stdlib Require Import Ascii.
From S2P Require Import Prelude RustText Quantity QuantityText Patch PatchPointer AllocBitmap RangeAllocator AllocInterface.

Local Open Scope Z_scope.

(** ** Port ranges *)

Record PortRange := mkPortRange { pr_base : Z; pr_size : Z }.

#[export] Instance PortRange_eq_dec : EqDecision PortRange.
Proof. solve_decision. Defined.

Definition DEFAULT_SERVICE_NODE_PORT_RANGE : PortRange := mkPortRange 30000 2768.

Definition pr_contains (pr : PortRange) (p : Z) : bool :=
  (pr_base pr <=? p) && (p - pr_base pr <? pr_size pr).

Definition USIZE_MAX : Z := 2 ^ 64 - 1.

(** Why [str::parse::<usize>] fails on the digits [s] after [v]: the first
    character that is no digit, or the first that overflows. *)
Fixpoint int_error_loop (v : Z) (s : string) : string :=
  match s with
  | EmptyString => "number too large to fit in target type"
  | String c s' =>
      if is_ascii_digit c then
        let v' := 10 * v + digit_value c in
        if decide (v' <= USIZE_MAX) then int_error_loop v' s'
        else "number too large to fit in target type"
      else "invalid digit found in string"
  end.

(** [Display] of the [ParseIntError] of a text that is no [usize]. *)
Definition int_error (s : string) : string :=
  match s with
  | EmptyString => "cannot parse integer from empty string"
  | String c EmptyString => "invalid digit found in string"
  | String c s' => int_error_loop 0 (if decide (c = "+"%char) then s' else s)
  end.

Section PortText.
Context `{!TextFormat}.

Definition atoi (s : string) : result Z string :=
  match parse_usize s with
  | Some v => Ok v
  | None => Err ("strconv.Atoi: parsing " +:+ debug_str s +:+ ": " +:+ int_error s)
  end.

(** The bounds of a range; [None] is the overflow of [low + atoi(..)]. *)
Definition range_bounds (value : string) : option (result (Z * Z) string) :=
  match split_once "-"%char value, split_once "+"%char value with
  | None, None => Some (try port <- atoi value; Ok (port, port))%rust
  | Some (l, h), None => Some (try low <- atoi l; try high <- atoi h; Ok (low, high))%rust
  | None, Some (l, h) =>
      match atoi l with
      | Err e => Some (Err e)
      | Ok low =>
          match atoi h with
          | Err e => Some (Err e)
          | Ok n => if decide (low + n <= USIZE_MAX) then Some (Ok (low, low + n)) else None
          end
      end
  | Some _, Some _ => Some (Err ("unable to parse port range: " +:+ value))
  end.

Definition pr_parse (value : string) : option (result PortRange string) :=
  let value := trim value in
  if decide (value = "") then Some (Ok (mkPortRange 0 0))
  else
    bounds ← range_bounds value;
    Some (try (low, high) <- bounds;
          if decide (65535 < low \/ 65535 < high) then
            Err ("the port range cannot be greater than 65535: " +:+ value)
          else if decide (high < low) then
            Err ("end port cannot be less than start port: " +:+ value)
          else Ok (mkPortRange low (1 + high - low)))%rust.

End PortText.

(** [Display for PortRange] *)
Definition pr_to_string (pr : PortRange) : string :=
  if decide (pr_size pr = 0) then ""
  else pretty (pr_base pr) +:+ "-" +:+ pretty (pr_base pr + pr_size pr - 1).

(** The static band at the bottom of the range. *)
Definition calculate_range_offset (pr : PortRange) : Z :=
  if decide (pr_size pr <= 16) then 0
  else Z.max 16 (Z.min 128 (pr_size pr / 32)).

(** ** Errors *)

Inductive PortError :=
| PEFull
| PEAllocated
| PENotInRange (valid_ports : string)
| PEMismatchedNetwork
| PEOther (e : AllocError).

(** [Display for Error], for the errors of [AllocError]. *)
Definition alloc_error_text (e : AllocError) : string :=
  match e with
  | EConflict msg => "Conflict: " +:+ msg
  | EInternal msg => "Internal error: " +:+ msg
  | ENotFound msg => "Resource not found: " +:+ msg
  end.

Definition port_error_text (e : PortError) : string :=
  match e with
  | PEFull => "range is full"
  | PEAllocated => "provided port is already allocated"
  | PENotInRange valid_ports =>
      "provided port is not in the valid range. The range of valid ports is " +:+ valid_ports
  | PEMismatchedNetwork => "the provided port range does not match the current port range"
  | PEOther e => alloc_error_text e
  end.

(** ** The allocator *)

Record PortAllocator (A : Type) := mkPortAllocator {
  pa_range : PortRange;
  pa_alloc : A;
  pa_rng : nat -> nat * nat
}.
Arguments mkPortAllocator {A} _ _ _.
Arguments pa_range {A} _.
Arguments pa_alloc {A} _.
Arguments pa_rng {A} _.

Section Ops.
Context {A : Type} `{!Interface A}.
Abbreviation PA := (PortAllocator A).
Implicit Types (pa : PA) (port : Z).

Definition set_alloc pa (a : A) : PA := mkPortAllocator (pa_range pa) a (pa_rng pa).

(** [PortAllocator::new]: [factory] builds the allocator behind. *)
Definition pa_new (pr : PortRange) (factory : nat -> string -> nat -> result A AllocError)
    (rng : nat -> nat * nat) : result PA AllocError :=
  result_map (fun a => mkPortAllocator pr a rng)
    (factory (Z.to_nat (pr_size pr)) (pr_to_string pr) (Z.to_nat (calculate_range_offset pr))).

(** The private [contains]: the offset of a port of the range. *)
Definition pa_contains pa port : option nat :=
  if pr_contains (pa_range pa) port then Some (Z.to_nat (port - pr_base (pa_range pa))) else None.

Definition pa_free pa : option nat := if_free (pa_alloc pa).

Definition pa_allocate pa port : option (PA * result unit PortError) :=
  match pa_contains pa port with
  | None => Some (pa, Err (PENotInRange (pr_to_string (pa_range pa))))
  | Some offset =>
      '(a, r) ← if_allocate (pa_alloc pa) offset;
      Some (set_alloc pa a, match r with
                            | Ok true => Ok tt
                            | Ok false => Err PEAllocated
                            | Err e => Err (PEOther e)
                            end)
  end.

Definition pa_allocate_next pa : option (PA * result Z PortError) :=
  '(a, r) ← if_allocate_next (pa_alloc pa) (pa_rng pa 0%nat);
  Some (mkPortAllocator (pa_range pa) a (fun n => pa_rng pa (S n)),
        match r with
        | Ok (Some offset) => Ok (pr_base (pa_range pa) + Z.of_nat offset)
        | Ok None => Err PEFull
        | Err e => Err (PEOther e)
        end).

(** Every allocated port. *)
Definition pa_allocated pa : list Z :=
  (fun offset => pr_base (pa_range pa) + Z.of_nat offset) <$> if_allocated (pa_alloc pa).

(** A port outside the range is ignored. *)
Definition pa_release pa port : option (PA * result unit PortError) :=
  match pa_contains pa port with
  | None => Some (pa, Ok tt)
  | Some offset =>
      '(a, r) ← if_release (pa_alloc pa) offset;
      Some (set_alloc pa a, match r with Ok _ => Ok tt | Err e => Err (PEOther e) end)
  end.

Definition pa_has pa port : bool :=
  match pa_contains pa port with
  | Some offset => if_has (pa_alloc pa) offset
  | None => false
  end.

Definition pa_snapshot pa (dst : RangeAllocation) : result RangeAllocation PortError :=
  match if_snapshot (pa_alloc pa) with
  | Ok (range, data) => Ok (set_payload dst range data)
  | Err e => Err (PEOther e)
  end.

Definition pa_restore pa (pr : PortRange) (data : list Z) : PA * result unit PortError :=
  if decide (pr = pa_range pa) then
    let '(a, r) := if_restore (pa_alloc pa) (pr_to_string pr) data in
    (set_alloc pa a, match r with Ok _ => Ok tt | Err e => Err (PEOther e) end)
  else (pa, Err PEMismatchedNetwork).

End Ops.

(** [PortAllocator::new_in_memory]; a repair allocates no random port, so its
    allocators draw nothing. *)
Definition new_in_memory (pr : PortRange) : PortAllocator AllocationBitmap :=
  mkPortAllocator pr
    (with_offset (Z.to_nat (pr_size pr)) (pr_to_string pr) (Z.to_nat (calculate_range_offset pr)))
    (fun _ => (0, 0)%nat).

Definition from_snapshot `{!TextFormat} (snap : RangeAllocation)
    : option (result (PortAllocator AllocationBitmap) PortError) :=
  pr ← pr_parse (ra_range snap);
  Some (match pr with
        | Err e => Err (PEOther (EInternal e))
        | Ok pr =>
            match pa_restore (new_in_memory pr) pr (ra_data snap) with
            | (r, Ok _) => Ok r
            | (_, Err e) => Err e
            end
        end).

(** ** The text of a range *)

(** What [pr_parse] accepts. *)
Definition pr_ok (pr : PortRange) : Prop :=
  0 <= pr_base pr /\ 0 <= pr_size pr /\ pr_base pr + pr_size pr <= 65536 /\
  (pr_size pr = 0 -> pr_base pr = 0).

Lemma digits_no_split c d : digits d = true -> is_ascii_digit c = false -> split_once c d = None.
Proof.
  intros Hd Hc. induction d as [|a d IH]; [done|]. cbn [digits split_once] in *.
  apply andb_true_iff in Hd as [Ha Hd]. rewrite decide_False; [congruence|]. by rewrite IH.
Qed.

Lemma split_once_app_none c l r :
  split_once c l = None -> split_once c r = None -> split_once c (l +:+ r) = None.
Proof.
  intros Hl Hr. induction l as [|a l IH]; [done|].
  change (String a l +:+ r) with (String a (l +:+ r)). cbn [split_once] in *. case_decide; [done|].
  destruct (split_once c l) as [[]|]; [done|]. by rewrite IH.
Qed.

Lemma pretty_nonneg z : 0 <= z -> exists c d, pretty z = String c d /\ digits (pretty z) = true /\
  is_ascii_digit c = true /\ dec_value 0 (pretty z) = z.
Proof.
  intros Hz. destruct (pretty_Z_spec z) as (d & Hp & Hd & Hv & Hne). rewrite Hp.
  unfold sign_string. rewrite decide_False; [lia|]. change ("" +:+ d) with d.
  destruct d as [|c d]; [done|]. exists c, d. split_and!; try done; [|lia].
  cbn [digits] in Hd. by apply andb_true_iff in Hd as [? _].
Qed.

Lemma parse_usize_pretty z : 0 <= z <= USIZE_MAX -> parse_usize (pretty z) = Some z.
Proof.
  unfold USIZE_MAX. intros [H0 H1]. destruct (pretty_nonneg z H0) as (c & d & Hp & Hd & Hc & Hv).
  unfold parse_usize. rewrite Hp decide_False; [by intros ->|]. rewrite -Hp.
  rewrite all_digits_spec //; [by rewrite Hp|]. rewrite Hv decide_True //. lia.
Qed.

Section Text.
Context `{!TextFormat}.

Lemma pr_parse_to_string pr : pr_ok pr -> pr_parse (pr_to_string pr) = Some (Ok pr).
Proof.
  destruct pr as [b n]. intros (Hb & Hn & Hmax & Hz). simpl in *. unfold pr_to_string. simpl.
  case_decide as Hsz; [by rewrite Hsz Hz|].
  destruct (pretty_nonneg b Hb) as (c1 & d1 & Hp1 & Hd1 & Hc1 & _).
  destruct (pretty_nonneg (b + n - 1) ltac:(lia)) as (c2 & d2 & Hp2 & Hd2 & Hc2 & _).
  set (t := pretty b +:+ "-" +:+ pretty (b + n - 1)).
  assert (trim t = t) as Ht.
  { apply trim_plain. by rewrite /t plain_app plain_pretty plain_app plain_pretty. }
  unfold pr_parse. rewrite Ht decide_False; [by rewrite /t Hp1|].
  assert (range_bounds t = Some (Ok (b, b + n - 1))) as ->.
  { unfold range_bounds, t. rewrite (split_once_append "-"%char); [by apply digits_no_split|].
    rewrite split_once_app_none; [by apply digits_no_split| |].
    { change ("-" +:+ pretty (b + n - 1)) with (String "-" (pretty (b + n - 1))). cbn [split_once].
      by rewrite (digits_no_split "+"%char). }
    unfold atoi. rewrite !parse_usize_pretty; unfold USIZE_MAX; [lia|lia|done]. }
  simpl. rewrite decide_False; [lia|]. rewrite decide_False; [lia|]. do 3 f_equal. lia.
Qed.

Lemma pr_parse_ok s pr : pr_parse s = Some (Ok pr) -> pr_ok pr.
Proof.
  unfold pr_parse. case_decide; [intros [= <-]; unfold pr_ok; simpl; lia|].
  intros (b & Hb & Hr)%bind_Some. destruct b as [[low high]|]; [|done]. simpl in Hr.
  case_decide; [done|]. case_decide; [done|]. injection Hr as <-.
  assert (0 <= low) as Hlow; [|unfold pr_ok; simpl; lia].
  assert (forall s v, atoi s = Ok v -> 0 <= v) as Hat.
  { intros s' v. unfold atoi. destruct (parse_usize s') as [v'|] eqn:E; [|done]. intros [= <-].
    apply parse_usize_range in E. lia. }
  unfold range_bounds in Hb.
  destruct (split_once "-"%char (trim s)) as [[l h]|], (split_once "+"%char (trim s)) as [[l' h']|]; [done|..].
  all: repeat (match type of Hb with context [atoi ?x] =>
    let E := fresh in destruct (atoi x) eqn:E; [apply Hat in E|]; simpl in Hb; try done end).
  all: try (case_decide; [|done]); by simplify_eq.
Qed.

End Text.

(** The text of a port range and its parser agree: a text that is
    accepted denotes a range of ports below 65536, and the text printed for that
    range is read back as the same range. *)
Theorem port_range_roundtrip `{!TextFormat} s pr :
  pr_parse s = Some (Ok pr) -> pr_ok pr /\ pr_parse (pr_to_string pr) = Some (Ok pr).
Proof. intros Hp%pr_parse_ok. split; [done|by apply pr_parse_to_string]. Qed.

#[local] Instance bare_text : TextFormat := Build_TextFormat (fun s => s) (fun s => s).

Lemma port_range_roundtrip_witness :
  pr_parse " 30000+199" = Some (Ok (mkPortRange 30000 200)) /\
  pr_parse (pr_to_string (mkPortRange 30000 200)) = Some (Ok (mkPortRange 30000 200)).
Proof.
  split; [vm_compute; reflexivity|].
  apply (port_range_roundtrip " 30000+199"). vm_compute. reflexivity.
Defined.

(** The static band: none for a small range, at most a half of any other. *)
Lemma calculate_range_offset_bounds pr :
  0 <= pr_size pr ->
  let off := calculate_range_offset pr in
  (pr_size pr <= 16 -> off = 0) /\ (16 < pr_size pr -> 16 <= off <= 128 /\ off < pr_size pr).
Proof.
  intros Hn off. subst off. unfold calculate_range_offset. case_decide; [split; [done|lia]|].
  split; [lia|]. intros _. assert (pr_size pr / 32 < pr_size pr) by (apply Z.div_lt; lia). lia.
Qed.

(** ** What the allocator does to the ports it holds *)

Section Facts.
Context {A : Type} `{!Interface A, !Allocator A}.
Implicit Types (pa : PortAllocator A) (p : Z).

Definition pa_held pa : gset Z :=
  set_map (fun o : nat => pr_base (pa_range pa) + Z.of_nat o) (al_held (pa_alloc pa)).

Record pa_inv pa : Prop := {
  pi_alloc : al_inv (pa_alloc pa);
  pi_max : al_max (pa_alloc pa) = Z.to_nat (pr_size (pa_range pa));
  pi_range : 0 <= pr_base (pa_range pa) /\ 0 <= pr_size (pa_range pa);
  pi_rng n : draw_ok (al_max (pa_alloc pa)) (al_off (pa_alloc pa)) (pa_rng pa n)
}.

(** A call leaves the invariant and the range. *)
Definition pa_next pa pa' : Prop := pa_inv pa' /\ pa_range pa' = pa_range pa.

Lemma pa_contains_Some pa p o :
  pa_contains pa p = Some o <->
  p = pr_base (pa_range pa) + Z.of_nat o /\ Z.of_nat o < pr_size (pa_range pa).
Proof.
  unfold pa_contains, pr_contains. destruct (_ && _) eqn:E; split.
  - intros [= <-]. apply andb_true_iff in E as [?%Z.leb_le ?%Z.ltb_lt]. lia.
  - intros [-> ?]. f_equal. lia.
  - done.
  - intros [-> ?]. apply andb_false_iff in E as [?%Z.leb_gt|?%Z.ltb_ge]; lia.
Qed.

Lemma pa_contains_iff pa p : pr_contains (pa_range pa) p = true <-> is_Some (pa_contains pa p).
Proof. unfold pa_contains. by destruct (pr_contains _ _); split; [eauto|..| |intros []]. Qed.

Lemma elem_of_pa_held pa p o : pa_contains pa p = Some o -> p ∈ pa_held pa <-> o ∈ al_held (pa_alloc pa).
Proof.
  intros [-> _]%pa_contains_Some. unfold pa_held. rewrite elem_of_map. split; [|eauto].
  intros (o' & Ho & Hin). by replace o with o' by lia.
Qed.

Lemma pa_held_range pa p : pa_inv pa -> p ∈ pa_held pa -> pr_contains (pa_range pa) p = true.
Proof.
  intros Hi. unfold pa_held. rewrite elem_of_map. intros (o & -> & Ho%al_bound); [|by apply pi_alloc].
  rewrite (pi_max _ Hi) in Ho. apply pa_contains_iff. exists o. apply pa_contains_Some. lia.
Qed.

Lemma pa_held_insert pa a p o :
  pa_contains pa p = Some o -> al_held a = {[o]} ∪ al_held (pa_alloc pa) ->
  forall rng, pa_held (mkPortAllocator (pa_range pa) a rng) = {[p]} ∪ pa_held pa.
Proof.
  intros [-> _]%pa_contains_Some Ha rng. unfold pa_held. simpl. by rewrite Ha set_map_union_L set_map_singleton_L.
Qed.

Lemma pa_held_delete pa a p o :
  pa_contains pa p = Some o -> al_held a = al_held (pa_alloc pa) ∖ {[o]} ->
  pa_held (set_alloc pa a) = pa_held pa ∖ {[p]}.
Proof.
  intros [-> _]%pa_contains_Some Ha. apply set_eq. intros x. unfold pa_held. simpl.
  rewrite Ha elem_of_difference !elem_of_map elem_of_singleton. split.
  - intros (o' & -> & [Hin Hne]%elem_of_difference). split; [eauto|].
    rewrite elem_of_singleton in Hne. lia.
  - intros [(o' & -> & Hin) Hne]. exists o'. split; [done|]. set_solver by lia.
Qed.

Lemma pa_held_same pa a rng :
  al_held a = al_held (pa_alloc pa) -> pa_held (mkPortAllocator (pa_range pa) a rng) = pa_held pa.
Proof. intros Ha. unfold pa_held. simpl. by rewrite Ha. Qed.

Lemma pa_next_refl pa : pa_inv pa -> pa_next pa pa.
Proof. by split. Qed.

Lemma pa_next_trans pa pa1 pa2 : pa_next pa pa1 -> pa_next pa1 pa2 -> pa_next pa pa2.
Proof. intros [_ H1] [? H2]. split; congruence. Qed.

Lemma pa_next_alloc pa a rng :
  pa_inv pa ->
  al_inv a /\ al_max a = al_max (pa_alloc pa) /\ al_off a = al_off (pa_alloc pa) ->
  (forall n, exists m, rng n = pa_rng pa m) -> pa_next pa (mkPortAllocator (pa_range pa) a rng).
Proof.
  intros [Ha Hm Hr Hg] (Ha' & Hm' & Ho') Hrng. split; [|done]. split; simpl; [done|congruence|done|].
  intros n. destruct (Hrng n) as [m ->]. by rewrite Hm' Ho'.
Qed.

Lemma pa_allocate_spec pa p :
  pa_inv pa ->
  exists pa' r, pa_allocate pa p = Some (pa', r) /\ pa_next pa pa' /\
    match r with
    | Ok _ => pr_contains (pa_range pa) p = true /\ (p ∉ pa_held pa) /\ pa_held pa' = {[p]} ∪ pa_held pa
    | Err PEAllocated => p ∈ pa_held pa /\ pa_held pa' = pa_held pa
    | Err (PENotInRange _) => pr_contains (pa_range pa) p = false /\ pa_held pa' = pa_held pa
    | Err (PEOther _) => pa_held pa' = pa_held pa
    | Err _ => False
    end.
Proof.
  intros Hi. unfold pa_allocate. destruct (pa_contains pa p) as [o|] eqn:Hc; last first.
  { eexists _, _. split; [done|]. split; [by apply pa_next_refl|]. split; [|done].
    destruct (pr_contains (pa_range pa) p) eqn:E; [|done]. apply pa_contains_iff in E as [? E]. congruence. }
  assert ((o < al_max (pa_alloc pa))%nat) as Ho.
  { rewrite (pi_max _ Hi). apply pa_contains_Some in Hc. lia. }
  destruct (al_allocate _ o (pi_alloc _ Hi) Ho) as (a & r & -> & Ha & Hr). simpl.
  eexists _, _. split; [done|]. split; [apply pa_next_alloc; eauto|].
  assert (pr_contains (pa_range pa) p = true) by (apply pa_contains_iff; eauto).
  pose proof (elem_of_pa_held _ _ _ Hc) as He. destruct r as [[]|e].
  - destruct Hr. rewrite He. split_and!; try done. by eapply pa_held_insert.
  - destruct Hr. rewrite He. split; [done|]. by apply pa_held_same.
  - by apply pa_held_same.
Qed.

Lemma pa_allocate_next_spec pa :
  pa_inv pa ->
  exists pa' r, pa_allocate_next pa = Some (pa', r) /\ pa_next pa pa' /\
    match r with
    | Ok p => pr_contains (pa_range pa) p = true /\ (p ∉ pa_held pa) /\ pa_held pa' = {[p]} ∪ pa_held pa
    | Err PEFull => (forall p, pr_contains (pa_range pa) p = true -> p ∈ pa_held pa) /\ pa_held pa' = pa_held pa
    | Err (PEOther _) => pa_held pa' = pa_held pa
    | Err _ => False
    end.
Proof.
  intros Hi. unfold pa_allocate_next.
  destruct (al_allocate_next _ (pa_rng pa 0%nat) (pi_alloc _ Hi) (pi_rng _ Hi 0%nat)) as (a & r & -> & Ha & Hr).
  simpl. eexists _, _. split; [done|]. split; [apply pa_next_alloc; eauto|].
  destruct r as [[o|]|e].
  - destruct Hr as (Hlt & Hn & Hh). rewrite (pi_max _ Hi) in Hlt.
    assert (pa_contains pa (pr_base (pa_range pa) + Z.of_nat o) = Some o) as Hc.
    { apply pa_contains_Some. pose proof (pi_range _ Hi). lia. }
    split; [apply pa_contains_iff; eauto|]. rewrite (elem_of_pa_held _ _ _ Hc). split; [done|].
    by eapply pa_held_insert.
  - destruct Hr as [Hf Hh]. split; [|by apply pa_held_same]. intros p [o Hc]%pa_contains_iff.
    rewrite (elem_of_pa_held _ _ _ Hc). apply Hf. rewrite (pi_max _ Hi). apply pa_contains_Some in Hc. lia.
  - by apply pa_held_same.
Qed.

Lemma pa_release_spec pa p :
  pa_inv pa ->
  exists pa' r, pa_release pa p = Some (pa', r) /\ pa_next pa pa' /\
    match r with Ok _ => pa_held pa' = pa_held pa ∖ {[p]} | Err _ => pa_held pa' = pa_held pa end.
Proof.
  intros Hi. unfold pa_release. destruct (pa_contains pa p) as [o|] eqn:Hc; last first.
  { eexists _, _. split; [done|]. split; [by apply pa_next_refl|].
    assert (p ∉ pa_held pa) as Hn; [|set_solver].
    intros Hp%pa_held_range%pa_contains_iff; [|done]. rewrite Hc in Hp. by destruct Hp. }
  destruct (al_release _ o (pi_alloc _ Hi)) as (a & r & -> & Ha & Hr). simpl.
  eexists _, _. split; [done|]. split; [apply pa_next_alloc; eauto|].
  destruct r; [by eapply pa_held_delete|by apply pa_held_same].
Qed.

(** What a call gave out; a refused call changes nothing. *)
Lemma pa_allocate_held pa p pa' r :
  pa_inv pa -> pa_allocate pa p = Some (pa', r) ->
  pa_next pa pa' /\
  match r with
  | Ok _ => (p ∉ pa_held pa) /\ pa_held pa' = {[p]} ∪ pa_held pa
  | Err _ => pa_held pa' = pa_held pa
  end.
Proof.
  intros Hi H. destruct (pa_allocate_spec pa p Hi) as (pa1 & r1 & H1 & Hn & Hr). rewrite H in H1.
  injection H1 as <- <-. split; [done|]. destruct r as [|[]]; naive_solver.
Qed.

Lemma pa_allocate_next_held pa pa' r :
  pa_inv pa -> pa_allocate_next pa = Some (pa', r) ->
  pa_next pa pa' /\
  match r with
  | Ok p => pr_contains (pa_range pa) p = true /\ (p ∉ pa_held pa) /\ pa_held pa' = {[p]} ∪ pa_held pa
  | Err _ => pa_held pa' = pa_held pa
  end.
Proof.
  intros Hi H. destruct (pa_allocate_next_spec pa Hi) as (pa1 & r1 & H1 & Hn & Hr). rewrite H in H1.
  injection H1 as <- <-. split; [done|]. destruct r as [|[]]; naive_solver.
Qed.

Lemma pa_release_held pa p pa' r :
  pa_inv pa -> pa_release pa p = Some (pa', r) ->
  pa_next pa pa' /\ pa_held pa' = if is_ok r then pa_held pa ∖ {[p]} else pa_held pa.
Proof.
  intros Hi H. destruct (pa_release_spec pa p Hi) as (pa1 & r1 & H1 & Hn & Hr). rewrite H in H1.
  injection H1 as <- <-. split; [done|]. by destruct r.
Qed.

End Facts.
