(* ===== verification/PortOperation.v ===== *)
(** * The transaction of a request over the node ports

    Model of
    [crates/api-server/src/registry/core/service/portallocator/operation.rs] and
    of [settle] of [crates/api-server/src/registry/core/service/alloc.rs]:
    ports are allocated at once and released on commit; an operation that is not
    committed releases what it allocated.

    The operation shares its allocator with other requests ([Arc]): the
    allocator is passed from call to call, and [txn_step] lets others call it in
    between. *)

From stdpp Require Import strings.
From S2P Require Import Prelude AllocBitmap RangeAllocator AllocInterface PortAllocator.

Local Open Scope Z_scope.

Record PortAllocationOperation := mkOp {
  op_allocated : list Z;
  op_release_deferred : list Z;
  op_should_rollback : bool;
  op_dry_run : bool
}.

(** [PortAllocationOperation::start] *)
Definition op_start (dry_run : bool) : PortAllocationOperation := mkOp [] [] true dry_run.

(** [Vec::push] on the two lists. *)
Definition push_allocated (op : PortAllocationOperation) (port : Z) : PortAllocationOperation :=
  mkOp (op_allocated op ++ [port]) (op_release_deferred op) (op_should_rollback op) (op_dry_run op).

(** [release_deferred] *)
Definition defer_release (op : PortAllocationOperation) (port : Z) : PortAllocationOperation :=
  mkOp (op_allocated op) (op_release_deferred op ++ [port]) (op_should_rollback op) (op_dry_run op).

(** [iter().max()] *)
Definition max_port (p : Z) (l : list Z) : Z := foldl Z.max p l.

Section Ops.
Context {A : Type} `{!Interface A}.
Abbreviation PA := (PortAllocator A).
Implicit Types (pa : PA) (op : PortAllocationOperation).

(** The loop of [rollback] and of [commit]. *)
Fixpoint release_ports pa (ports : list Z) : option (PA * list PortError) :=
  match ports with
  | [] => Some (pa, [])
  | port :: ports' =>
      '(pa1, r) ← pa_release pa port;
      '(pa2, errors) ← release_ports pa1 ports';
      Some (pa2, match r with Ok _ => errors | Err e => e :: errors end)
  end.

Definition rollback pa op : option (PA * list PortError) :=
  if op_dry_run op then Some (pa, []) else release_ports pa (op_allocated op).

Definition commit pa op : option (PA * PortAllocationOperation * list PortError) :=
  if op_dry_run op then Some (pa, op, [])
  else
    '(pa', errors) ← release_ports pa (op_release_deferred op);
    Some (pa', mkOp (op_allocated op) (op_release_deferred op) false (op_dry_run op), errors).

Definition finish pa op : option PA :=
  if op_should_rollback op then fst <$> rollback pa op else Some pa.

Definition op_allocate pa op (port : Z) : option (PA * PortAllocationOperation * result unit PortError) :=
  if op_dry_run op then
    if pa_has pa port || bool_decide (port ∈ op_allocated op) then Some (pa, op, Err PEAllocated)
    else Some (pa, push_allocated op port, Ok tt)
  else
    '(pa', r) ← pa_allocate pa port;
    match r with
    | Ok _ => Some (pa', push_allocated op port, Ok tt)
    | Err e => Some (pa', op, Err e)
    end.

(** [None] is also the overflow of [last_port + 1]. *)
Definition op_allocate_next pa op : option (PA * PortAllocationOperation * result Z PortError) :=
  if op_dry_run op then
    let last_port := match op_allocated op with [] => 32768 | p :: l => max_port p l end in
    if decide (last_port + 1 <= USIZE_MAX) then
      Some (pa, push_allocated op (last_port + 1), Ok (last_port + 1))
    else None
  else
    '(pa', r) ← pa_allocate_next pa;
    match r with
    | Ok port => Some (pa', push_allocated op port, Ok port)
    | Err e => Some (pa', op, Err e)
    end.

(** [settle]: commit when the write succeeded, and finish. *)
Definition settle pa op (success : bool) : option PA :=
  '(pa', op') ← (if success then '(pa1, op1, _) ← commit pa op; Some (pa1, op1) else Some (pa, op));
  finish pa' op'.

(** ** Other requests in between *)

(** What the allocator holds for others: [others] starts as everything held, and
    follows what other requests allocate and release; [foreign] are the ports of
    the operation that another request has released under it. *)
Record Txn := mkTxn { tx_pa : PA; tx_op : PortAllocationOperation; tx_others : gset Z; tx_foreign : gset Z }.

(** A release of [port] by another request. *)
Definition released_by_other op (port : Z) (ok : bool) (others foreign : gset Z) : gset Z * gset Z :=
  if ok then (others ∖ {[port]}, if negb (op_dry_run op) && bool_decide (port ∈ op_allocated op)
                                 then {[port]} ∪ foreign else foreign)
  else (others, foreign).

Inductive txn_step : Txn -> Txn -> Prop :=
| ts_allocate pa op others foreign port pa' op' r :
    op_allocate pa op port = Some (pa', op', r) ->
    txn_step (mkTxn pa op others foreign) (mkTxn pa' op' others foreign)
| ts_allocate_next pa op others foreign pa' op' r :
    op_allocate_next pa op = Some (pa', op', r) ->
    txn_step (mkTxn pa op others foreign) (mkTxn pa' op' others foreign)
| ts_defer pa op others foreign port :
    txn_step (mkTxn pa op others foreign) (mkTxn pa (defer_release op port) others foreign)
| ts_other_allocate pa op others foreign port pa' r :
    pa_allocate pa port = Some (pa', r) ->
    txn_step (mkTxn pa op others foreign) (mkTxn pa' op (if is_ok r then {[port]} ∪ others else others) foreign)
| ts_other_allocate_next pa op others foreign pa' r :
    pa_allocate_next pa = Some (pa', r) ->
    txn_step (mkTxn pa op others foreign)
      (mkTxn pa' op (match r with Ok port => {[port]} ∪ others | Err _ => others end) foreign)
| ts_other_release pa op others foreign port pa' r :
    pa_release pa port = Some (pa', r) ->
    txn_step (mkTxn pa op others foreign)
      (mkTxn pa' op (released_by_other op port (is_ok r) others foreign).1
         (released_by_other op port (is_ok r) others foreign).2).

End Ops.

Arguments Txn : clear implicits.
Arguments mkTxn {A} _ _ _ _.

(** No release fails. *)
Class Reliable (A : Type) `{!Interface A, !Allocator A} : Prop :=
  reliable_release a o a' r : al_inv a -> if_release a o = Some (a', r) -> r = Ok tt.

#[export] Instance InMemory_reliable : Reliable AllocationBitmap.
Proof. intros b o b' r _ H. cbn [if_release InMemory] in H. by simplify_eq. Qed.

#[export] Instance Etcd_reliable {St} `{!RangeStore St} : Reliable (Etcd St).
Proof.
  intros a o a' r Hi. cbn [if_release EtcdInterface]. unfold etcd_release.
  destruct (etcd_call a (ARelease o) (0, 0)%nat Hi) as (a1 & r1 & -> & _ & Hr); [apply no_draw, Hi|].
  simpl. intros H. simplify_eq. destruct r1 as [?|e]; [done|]. by destruct Hr.
Qed.

Section Facts.
Context {A : Type} `{!Interface A, !Allocator A}.
Implicit Types (pa : PortAllocator A) (op : PortAllocationOperation).

Lemma release_ports_spec ports : forall pa, pa_inv pa ->
  exists pa' errors, release_ports pa ports = Some (pa', errors) /\ pa_next pa pa' /\
    pa_held pa ∖ list_to_set ports ⊆ pa_held pa' /\ pa_held pa' ⊆ pa_held pa /\
    (Reliable A -> errors = [] /\ pa_held pa' = pa_held pa ∖ list_to_set ports).
Proof.
  induction ports as [|port ports IH]; intros pa Hi; cbn [release_ports].
  { eexists _, _. split; [done|]. split; [by apply pa_next_refl|]. set_solver. }
  destruct (pa_release_spec pa port Hi) as (pa1 & r & Hrel & Hn1 & Hr). rewrite Hrel /=.
  destruct (IH pa1 (proj1 Hn1)) as (pa2 & errors & -> & Hn2 & Hlo & Hhi & Hrl). simpl.
  eexists _, _. split; [done|]. split; [by eapply pa_next_trans|].
  assert (pa_held pa ∖ {[port]} ⊆ pa_held pa1 /\ pa_held pa1 ⊆ pa_held pa) as [H1 H2].
  { destruct r; set_solver. }
  split; [clear -Hlo H1; set_solver|]. split; [by etrans|]. intros HR. destruct (Hrl HR) as [He Hh].
  assert (r = Ok tt) as ->; [|split; [done|]; clear -Hh Hr; set_solver].
  unfold pa_release in Hrel. destruct (pa_contains pa port); [|by simplify_eq].
  apply bind_Some in Hrel as ([a ra] & Hra & Hrel). apply HR in Hra as ->; [|apply Hi]. by simplify_eq.
Qed.

(** The state of a transaction: but for the foreign ports, what is held is held
    for the others or for the operation, and not for both. *)
Record txn_inv (t : Txn A) : Prop := {
  ti_pa : pa_inv (tx_pa t);
  ti_mine : op_dry_run (tx_op t) = false -> forall p, p ∉ tx_foreign t ->
    (p ∈ pa_held (tx_pa t) <-> p ∈ tx_others t \/ p ∈ op_allocated (tx_op t)) /\
    (p ∈ tx_others t -> p ∉ op_allocated (tx_op t));
  ti_dry : op_dry_run (tx_op t) = true -> pa_held (tx_pa t) = tx_others t /\ tx_foreign t = ∅;
  ti_open : op_should_rollback (tx_op t) = true
}.

Lemma txn_start_inv pa dry_run : pa_inv pa -> txn_inv (mkTxn pa (op_start dry_run) (pa_held pa) ∅).
Proof. intros Hi. split; simpl; try done. intros _ p _. rewrite elem_of_nil. tauto. Qed.

(** A port the operation takes. *)
Lemma txn_inv_push pa op others foreign pa' port :
  txn_inv (mkTxn pa op others foreign) -> pa_inv pa' -> op_dry_run op = false ->
  port ∉ pa_held pa -> pa_held pa' = {[port]} ∪ pa_held pa ->
  txn_inv (mkTxn pa' (push_allocated op port) others foreign).
Proof.
  intros [Hi Hm Hd Ho] Hi' Hdry Hp Hh. simpl in *. specialize (Hm Hdry).
  split; simpl; [done| |by rewrite Hdry|done]. intros _ p Hf. destruct (Hm p Hf) as [Heq Hdis].
  rewrite Hh elem_of_union elem_of_singleton elem_of_app list_elem_of_singleton. destruct (decide (p = port)) as [->|]; tauto.
Qed.

(** A step that changes nothing. *)
Lemma txn_inv_same pa op others foreign pa' :
  txn_inv (mkTxn pa op others foreign) -> pa_inv pa' -> pa_held pa' = pa_held pa -> txn_inv (mkTxn pa' op others foreign).
Proof. intros [Hi Hm Hd Ho] Hi' Hh. split; simpl in *; rewrite ?Hh; done. Qed.

(** A port another request takes. *)
Lemma txn_inv_other pa op others foreign pa' port :
  txn_inv (mkTxn pa op others foreign) -> pa_inv pa' -> port ∉ pa_held pa -> pa_held pa' = {[port]} ∪ pa_held pa ->
  txn_inv (mkTxn pa' op ({[port]} ∪ others) foreign).
Proof.
  intros [Hi Hm Hd Ho] Hi' Hp Hh. simpl in *. split; simpl; [done| | |done]; rewrite Hh.
  - intros Hdry p Hf. destruct (Hm Hdry p Hf) as [Heq Hdis].
    rewrite !elem_of_union !elem_of_singleton. destruct (decide (p = port)) as [->|]; tauto.
  - intros Hdry. destruct (Hd Hdry) as [-> ->]. done.
Qed.

Lemma txn_inv_dry_push pa op others foreign port :
  txn_inv (mkTxn pa op others foreign) -> op_dry_run op = true -> txn_inv (mkTxn pa (push_allocated op port) others foreign).
Proof. intros [Hi Hm Hd Ho] Hdry. simpl in *. split; simpl; try done. by rewrite Hdry. Qed.

(** A port another request gives back, be it the operation's. *)
Lemma txn_inv_release pa op others foreign pa' port :
  txn_inv (mkTxn pa op others foreign) -> pa_inv pa' -> pa_held pa' = pa_held pa ∖ {[port]} ->
  txn_inv (mkTxn pa' op (released_by_other op port true others foreign).1 (released_by_other op port true others foreign).2).
Proof.
  intros [Hi Hm Hd Ho] Hi' Hh. simpl in *. unfold released_by_other. split; simpl; [done| | |done]; rewrite Hh.
  - intros Hdry p. rewrite Hdry /= !elem_of_difference elem_of_singleton. case_bool_decide as Hp.
    + rewrite elem_of_union elem_of_singleton. intros Hf. destruct (Hm Hdry p) as [Heq Hdis]; tauto.
    + intros Hf. destruct (Hm Hdry p Hf) as [Heq Hdis]. destruct (decide (p = port)) as [->|]; tauto.
  - intros Hdry. destruct (Hd Hdry) as [-> ->]. by rewrite Hdry.
Qed.

Lemma txn_step_inv t t' : txn_inv t -> txn_step t t' -> txn_inv t'.
Proof.
  intros Ht Hs. destruct Hs as [pa op others foreign port pa' op' r H|pa op others foreign pa' op' r H|pa op others foreign port
    |pa op others foreign port pa' r H|pa op others foreign pa' r H|pa op others foreign port pa' r H];
    pose proof (ti_pa _ Ht) as Hi; simpl in Hi.
  - unfold op_allocate in H. destruct (op_dry_run op) eqn:Hdry.
    { destruct (_ || _); simplify_eq; [done|by apply txn_inv_dry_push]. }
    apply bind_Some in H as ([pa1 r1] & H1 & H). apply pa_allocate_held in H1 as [[Hi1 _] Hr]; [|done].
    destruct r1; simplify_eq; [by eapply txn_inv_push; [..|apply Hr|apply Hr]|by eapply txn_inv_same].
  - unfold op_allocate_next in H. destruct (op_dry_run op) eqn:Hdry.
    { case_decide; simplify_eq. by apply txn_inv_dry_push. }
    apply bind_Some in H as ([pa1 r1] & H1 & H). apply pa_allocate_next_held in H1 as [[Hi1 _] Hr]; [|done].
    destruct r1; simplify_eq; [by eapply txn_inv_push; [..|apply Hr|apply Hr]|by eapply txn_inv_same].
  - destruct Ht. by split.
  - apply pa_allocate_held in H as [[Hi1 _] Hr]; [|done].
    destruct r; simpl; [by eapply txn_inv_other; [..|apply Hr|apply Hr]|by eapply txn_inv_same].
  - apply pa_allocate_next_held in H as [[Hi1 _] Hr]; [|done].
    destruct r; simpl; [by eapply txn_inv_other; [..|apply Hr|apply Hr]|by eapply txn_inv_same].
  - apply pa_release_held in H as [[Hi1 _] Hh]; [|done].
    destruct (is_ok r); [by eapply txn_inv_release|by eapply txn_inv_same].
Qed.

Lemma txn_step_dry t t' : txn_step t t' -> op_dry_run (tx_op t') = op_dry_run (tx_op t).
Proof.
  destruct 1 as [pa op others foreign port pa' op' r H|pa op others foreign pa' op' r H| | | |]; try done; simpl.
  - unfold op_allocate in H. destruct (op_dry_run op) eqn:E; [by destruct (_ || _); simplify_eq|].
    apply bind_Some in H as ([pa1 r1] & _ & H). by destruct r1; simplify_eq.
  - unfold op_allocate_next in H. destruct (op_dry_run op) eqn:E; [by case_decide; simplify_eq|].
    apply bind_Some in H as ([pa1 r1] & _ & H). by destruct r1; simplify_eq.
Qed.

Lemma txn_steps_dry t t' : rtc txn_step t t' -> op_dry_run (tx_op t') = op_dry_run (tx_op t).
Proof. induction 1 as [|x y z Hxy _ IH]; [done|]. by rewrite IH (txn_step_dry x y). Qed.

Lemma txn_steps_inv t t' : rtc txn_step t t' -> txn_inv t -> txn_inv t'.
Proof. induction 1; [done|]. eauto using txn_step_inv. Qed.

(** The ports the allocator holds after the operation is settled. *)
Definition settled (t : Txn A) (success : bool) : gset Z :=
  if op_dry_run (tx_op t) then tx_others t
  else if success then
    (tx_others t ∪ list_to_set (op_allocated (tx_op t))) ∖ list_to_set (op_release_deferred (tx_op t))
  else tx_others t.

Lemma settle_spec t success :
  txn_inv t ->
  exists pa', settle (tx_pa t) (tx_op t) success = Some pa' /\ pa_next (tx_pa t) pa' /\
    settled t success ∖ tx_foreign t ⊆ pa_held pa' /\ pa_held pa' ⊆ pa_held (tx_pa t) /\
    (Reliable A -> pa_held pa' ∖ tx_foreign t = settled t success ∖ tx_foreign t).
Proof.
  intros [Hi Hm Hd Ho]. unfold settle, finish, commit, rollback, settled. destruct (op_dry_run (tx_op t)) eqn:Hdry.
  { destruct (Hd eq_refl) as [Hh Hf]. destruct success; cbn [mbind option_bind]; rewrite Ho Hdry /=;
      (eexists; split; [done|]; split; [by apply pa_next_refl|]; rewrite Hf !difference_empty_L Hh; auto). }
  pose proof (Hm eq_refl) as Hme. destruct success.
  - destruct (release_ports_spec (op_release_deferred (tx_op t)) _ Hi) as (pa' & errors & -> & Hn & Hlo & Hhi & Hrl).
    simpl. eexists. split; [done|]. split; [done|]. split; [|split; [done|]].
    + intros p. rewrite !elem_of_difference elem_of_union !(elem_of_list_to_set p (op_release_deferred (tx_op t))) !(elem_of_list_to_set p (op_allocated (tx_op t))). intros [[Hp Hr] Hf].
      eapply elem_of_weaken; [|exact Hlo]. rewrite elem_of_difference (elem_of_list_to_set p (op_release_deferred (tx_op t))). split; [|done]. by apply (Hme p Hf).
    + intros [_ ->]%Hrl. apply set_eq. intros p. rewrite !elem_of_difference elem_of_union !(elem_of_list_to_set p (op_release_deferred (tx_op t))) !(elem_of_list_to_set p (op_allocated (tx_op t))).
      destruct (decide (p ∈ tx_foreign t)) as [|Hf]; [tauto|]. destruct (Hme p Hf). tauto.
  - cbn [mbind option_bind]. rewrite Ho Hdry.
    destruct (release_ports_spec (op_allocated (tx_op t)) _ Hi) as (pa' & errors & -> & Hn & Hlo & Hhi & Hrl).
    simpl. eexists. split; [done|]. split; [done|]. split; [|split; [done|]].
    + intros p. rewrite !elem_of_difference. intros [Hp Hf]. eapply elem_of_weaken; [|exact Hlo]. rewrite elem_of_difference !(elem_of_list_to_set p (op_allocated (tx_op t))).
      destruct (Hme p Hf). tauto.
    + intros [_ ->]%Hrl. apply set_eq. intros p. rewrite !elem_of_difference !(elem_of_list_to_set p (op_allocated (tx_op t))).
      destruct (decide (p ∈ tx_foreign t)) as [|Hf]; [tauto|]. destruct (Hme p Hf). tauto.
Qed.

(** C15: a port transaction is atomic, whatever other requests do in between:
    but for the ports that another request releases while the operation holds
    them, its ports are never held for anybody else, and once it is settled, a
    committed operation has added what it allocated and removed what it deferred,
    and an operation that failed or ran dry leaves no trace.  When releases fail,
    ports can only leak: everything that should be held is. *)
Theorem port_transaction_atomic pa dry_run t success :
  pa_inv pa -> rtc txn_step (mkTxn pa (op_start dry_run) (pa_held pa) ∅) t ->
  (dry_run = false -> tx_others t ∖ tx_foreign t ## list_to_set (op_allocated (tx_op t))) /\
  exists pa', settle (tx_pa t) (tx_op t) success = Some pa' /\ pa_inv pa' /\
    settled t success ∖ tx_foreign t ⊆ pa_held pa' /\
    (Reliable A -> pa_held pa' ∖ tx_foreign t = settled t success ∖ tx_foreign t).
Proof.
  intros Hi Hs. pose proof (txn_steps_inv _ _ Hs (txn_start_inv pa dry_run Hi)) as Ht.
  split; last first.
  { destruct (settle_spec t success Ht) as (pa' & H & [Hn _] & Hlo & _ & Hr). eauto 10. }
  intros ->. apply elem_of_disjoint. intros p [Hp Hf]%elem_of_difference. rewrite elem_of_list_to_set.
  by apply (ti_mine _ Ht (txn_steps_dry _ _ Hs)).
Qed.

End Facts.

(** Witnesses: an operation that takes a port of its choice and two of the
    allocator's, while another request takes and gives back ports, one of the
    operation's among them. *)
Definition demo_ports : PortAllocator AllocationBitmap :=
  mkPortAllocator (mkPortRange 30000 200) demo_bitmap (fun _ => (5, 2)%nat).

Lemma demo_ports_inv : pa_inv demo_ports.
Proof.
  split; [exact demo_bitmap_inv|reflexivity|simpl; lia|]. intros n. split; left; vm_compute; lia.
Qed.

Lemma port_transaction_atomic_witness :
  exists t pa', rtc txn_step (mkTxn demo_ports (op_start false) (pa_held demo_ports) ∅) t /\
    settle (tx_pa t) (tx_op t) true = Some pa' /\ tx_foreign t = {[30040]} /\
    pa_held pa' ∖ {[30040]} = {[30050; 30021; 30060]}.
Proof.
  eassert (rtc txn_step (mkTxn demo_ports (op_start false) (pa_held demo_ports) ∅) _) as Hs.
  { eapply rtc_l; [eapply (ts_allocate _ _ _ _ 30050); vm_compute; reflexivity|].
    eapply rtc_l; [eapply (ts_other_allocate _ _ _ _ 30060); vm_compute; reflexivity|].
    eapply rtc_l; [eapply ts_allocate_next; vm_compute; reflexivity|].
    eapply rtc_l; [eapply (ts_other_release _ _ _ _ 30070); vm_compute; reflexivity|].
    eapply rtc_l; [eapply (ts_allocate _ _ _ _ 30040); vm_compute; reflexivity|].
    eapply rtc_l; [eapply (ts_other_release _ _ _ _ 30040); vm_compute; reflexivity|].
    eapply rtc_l; [apply (ts_defer _ _ _ _ 30003)|]. apply rtc_refl. }
  destruct (port_transaction_atomic demo_ports false _ true demo_ports_inv Hs)
    as (_ & pa' & Hset & _ & _ & Hh).
  eexists _, pa'. split; [exact Hs|]. split; [exact Hset|]. split; [vm_compute; reflexivity|].
  specialize (Hh InMemory_reliable). etrans; [|etrans; [exact Hh|]]; [f_equal|]; vm_compute; reflexivity.
Defined.
