(* ===== verification/ServiceTypes.v ===== *)
(** * Services

    The types of [crates/common/src/resources/service.rs], and the parts of
    [ObjectMeta] that the service registry reads.  A [u16] or [i32] is a [Z]; the
    conditions of a status are carried along as a text. *)

From stdpp Require Import strings.
From S2P Require Import Prelude.

Inductive ServiceType :=
| TClusterIP | TNodePort | TLoadBalancer | TExternalName
| TUnknown (s : string).

Inductive IPFamily :=
| IPv4 | IPv6
| FUnknown (s : string).

Inductive IPFamilyPolicy :=
| SingleStack | PreferDualStack | RequireDualStack
| PUnknown (s : string).

Inductive ServiceInternalTrafficPolicy :=
| ItpCluster | ItpLocal
| ItpUnknown (s : string).

Inductive ServiceExternalTrafficPolicy :=
| EtpCluster | EtpLocal
| EtpUnknown (s : string).

Inductive IntOrString :=
| IosInt (n : Z)
| IosString (s : string).

Record ServicePort := mkServicePort {
  sp_name : option string;
  sp_port : Z;
  sp_target_port : option IntOrString;
  sp_protocol : string;
  sp_node_port : option Z;
  sp_app_protocol : option string
}.

Record ClientIPConfig := mkClientIPConfig { timeout_seconds : option Z }.
Record SessionAffinityConfig := mkSessionAffinityConfig { client_ip : option ClientIPConfig }.

Record ServiceSpec := mkServiceSpec {
  ss_selector : option (gmap string string);
  ss_ports : list ServicePort;
  ss_service_type : option ServiceType;
  ss_cluster_ip : option string;
  ss_external_ips : option (list string);
  ss_session_affinity : option string;
  ss_external_name : option string;
  ss_cluster_ips : option (list string);
  ss_ip_families : option (list IPFamily);
  ss_ip_family_policy : option IPFamilyPolicy;
  ss_internal_traffic_policy : option ServiceInternalTrafficPolicy;
  ss_external_traffic_policy : option ServiceExternalTrafficPolicy;
  ss_health_check_node_port : option Z;
  ss_load_balancer_class : option string;
  ss_load_balancer_ip : option string;
  ss_load_balancer_source_ranges : option (list string);
  ss_allocate_load_balancer_node_ports : option bool;
  ss_publish_not_ready_addresses : option bool;
  ss_session_affinity_config : option SessionAffinityConfig;
  ss_traffic_distribution : option string
}.

Record PortStatus := mkPortStatus { ps_port : Z; ps_protocol : string; ps_error : option string }.

Record LoadBalancerIngress := mkIngress {
  ing_ip : option string;
  ing_hostname : option string;
  ing_ip_mode : option string;
  ing_ports : option (list PortStatus)
}.

Record LoadBalancerStatus := mkLoadBalancerStatus { ingress : list LoadBalancerIngress }.

Record ServiceStatus := mkServiceStatus {
  load_balancer : option LoadBalancerStatus;
  status_conditions : option string
}.

Record ServiceMeta := mkServiceMeta {
  sm_name : string;
  sm_namespace : option string;
  sm_uid : string;
  sm_resource_version : option string
}.

Record Service := mkService {
  svc_metadata : ServiceMeta;
  svc_spec : ServiceSpec;
  svc_status : option ServiceStatus
}.

#[export] Instance ServiceType_eq_dec : EqDecision ServiceType.
Proof. solve_decision. Defined.
#[export] Instance IPFamily_eq_dec : EqDecision IPFamily.
Proof. solve_decision. Defined.
#[export] Instance IPFamilyPolicy_eq_dec : EqDecision IPFamilyPolicy.
Proof. solve_decision. Defined.
#[export] Instance ServiceInternalTrafficPolicy_eq_dec : EqDecision ServiceInternalTrafficPolicy.
Proof. solve_decision. Defined.
#[export] Instance ServiceExternalTrafficPolicy_eq_dec : EqDecision ServiceExternalTrafficPolicy.
Proof. solve_decision. Defined.
#[export] Instance IntOrString_eq_dec : EqDecision IntOrString.
Proof. solve_decision. Defined.
#[export] Instance ServicePort_eq_dec : EqDecision ServicePort.
Proof. solve_decision. Defined.
#[export] Instance ClientIPConfig_eq_dec : EqDecision ClientIPConfig.
Proof. solve_decision. Defined.
#[export] Instance SessionAffinityConfig_eq_dec : EqDecision SessionAffinityConfig.
Proof. solve_decision. Defined.
#[export] Instance ServiceSpec_eq_dec : EqDecision ServiceSpec.
Proof. solve_decision. Defined.

(** [ServiceSpec::default] *)
Definition spec_default : ServiceSpec :=
  mkServiceSpec None [] None None None None None None None None None None None None None None None None None None.

(** ** Assignments to a field *)

Definition with_spec (svc : Service) (s : ServiceSpec) : Service :=
  mkService (svc_metadata svc) s (svc_status svc).
Definition with_status (svc : Service) (st : option ServiceStatus) : Service :=
  mkService (svc_metadata svc) (svc_spec svc) st.

Definition set_ports (s : ServiceSpec) (v : list ServicePort) : ServiceSpec :=
  mkServiceSpec (ss_selector s) v (ss_service_type s) (ss_cluster_ip s) (ss_external_ips s)
    (ss_session_affinity s) (ss_external_name s) (ss_cluster_ips s) (ss_ip_families s)
    (ss_ip_family_policy s) (ss_internal_traffic_policy s) (ss_external_traffic_policy s)
    (ss_health_check_node_port s) (ss_load_balancer_class s) (ss_load_balancer_ip s)
    (ss_load_balancer_source_ranges s) (ss_allocate_load_balancer_node_ports s)
    (ss_publish_not_ready_addresses s) (ss_session_affinity_config s) (ss_traffic_distribution
    s).
Definition set_service_type (s : ServiceSpec) (v : option ServiceType) : ServiceSpec :=
  mkServiceSpec (ss_selector s) (ss_ports s) v (ss_cluster_ip s) (ss_external_ips s)
    (ss_session_affinity s) (ss_external_name s) (ss_cluster_ips s) (ss_ip_families s)
    (ss_ip_family_policy s) (ss_internal_traffic_policy s) (ss_external_traffic_policy s)
    (ss_health_check_node_port s) (ss_load_balancer_class s) (ss_load_balancer_ip s)
    (ss_load_balancer_source_ranges s) (ss_allocate_load_balancer_node_ports s)
    (ss_publish_not_ready_addresses s) (ss_session_affinity_config s) (ss_traffic_distribution
    s).
Definition set_cluster_ip (s : ServiceSpec) (v : option string) : ServiceSpec :=
  mkServiceSpec (ss_selector s) (ss_ports s) (ss_service_type s) v (ss_external_ips s)
    (ss_session_affinity s) (ss_external_name s) (ss_cluster_ips s) (ss_ip_families s)
    (ss_ip_family_policy s) (ss_internal_traffic_policy s) (ss_external_traffic_policy s)
    (ss_health_check_node_port s) (ss_load_balancer_class s) (ss_load_balancer_ip s)
    (ss_load_balancer_source_ranges s) (ss_allocate_load_balancer_node_ports s)
    (ss_publish_not_ready_addresses s) (ss_session_affinity_config s) (ss_traffic_distribution
    s).
Definition set_cluster_ips (s : ServiceSpec) (v : option (list string)) : ServiceSpec :=
  mkServiceSpec (ss_selector s) (ss_ports s) (ss_service_type s) (ss_cluster_ip s)
    (ss_external_ips s) (ss_session_affinity s) (ss_external_name s) v (ss_ip_families s)
    (ss_ip_family_policy s) (ss_internal_traffic_policy s) (ss_external_traffic_policy s)
    (ss_health_check_node_port s) (ss_load_balancer_class s) (ss_load_balancer_ip s)
    (ss_load_balancer_source_ranges s) (ss_allocate_load_balancer_node_ports s)
    (ss_publish_not_ready_addresses s) (ss_session_affinity_config s) (ss_traffic_distribution
    s).
Definition set_ip_families (s : ServiceSpec) (v : option (list IPFamily)) : ServiceSpec :=
  mkServiceSpec (ss_selector s) (ss_ports s) (ss_service_type s) (ss_cluster_ip s)
    (ss_external_ips s) (ss_session_affinity s) (ss_external_name s) (ss_cluster_ips s) v
    (ss_ip_family_policy s) (ss_internal_traffic_policy s) (ss_external_traffic_policy s)
    (ss_health_check_node_port s) (ss_load_balancer_class s) (ss_load_balancer_ip s)
    (ss_load_balancer_source_ranges s) (ss_allocate_load_balancer_node_ports s)
    (ss_publish_not_ready_addresses s) (ss_session_affinity_config s) (ss_traffic_distribution
    s).
Definition set_ip_family_policy (s : ServiceSpec) (v : option IPFamilyPolicy) : ServiceSpec :=
  mkServiceSpec (ss_selector s) (ss_ports s) (ss_service_type s) (ss_cluster_ip s)
    (ss_external_ips s) (ss_session_affinity s) (ss_external_name s) (ss_cluster_ips s)
    (ss_ip_families s) v (ss_internal_traffic_policy s) (ss_external_traffic_policy s)
    (ss_health_check_node_port s) (ss_load_balancer_class s) (ss_load_balancer_ip s)
    (ss_load_balancer_source_ranges s) (ss_allocate_load_balancer_node_ports s)
    (ss_publish_not_ready_addresses s) (ss_session_affinity_config s) (ss_traffic_distribution
    s).
Definition set_internal_traffic_policy (s : ServiceSpec) (v : option ServiceInternalTrafficPolicy) : ServiceSpec :=
  mkServiceSpec (ss_selector s) (ss_ports s) (ss_service_type s) (ss_cluster_ip s)
    (ss_external_ips s) (ss_session_affinity s) (ss_external_name s) (ss_cluster_ips s)
    (ss_ip_families s) (ss_ip_family_policy s) v (ss_external_traffic_policy s)
    (ss_health_check_node_port s) (ss_load_balancer_class s) (ss_load_balancer_ip s)
    (ss_load_balancer_source_ranges s) (ss_allocate_load_balancer_node_ports s)
    (ss_publish_not_ready_addresses s) (ss_session_affinity_config s) (ss_traffic_distribution
    s).
Definition set_external_traffic_policy (s : ServiceSpec) (v : option ServiceExternalTrafficPolicy) : ServiceSpec :=
  mkServiceSpec (ss_selector s) (ss_ports s) (ss_service_type s) (ss_cluster_ip s)
    (ss_external_ips s) (ss_session_affinity s) (ss_external_name s) (ss_cluster_ips s)
    (ss_ip_families s) (ss_ip_family_policy s) (ss_internal_traffic_policy s) v
    (ss_health_check_node_port s) (ss_load_balancer_class s) (ss_load_balancer_ip s)
    (ss_load_balancer_source_ranges s) (ss_allocate_load_balancer_node_ports s)
    (ss_publish_not_ready_addresses s) (ss_session_affinity_config s) (ss_traffic_distribution
    s).
Definition set_health_check_node_port (s : ServiceSpec) (v : option Z) : ServiceSpec :=
  mkServiceSpec (ss_selector s) (ss_ports s) (ss_service_type s) (ss_cluster_ip s)
    (ss_external_ips s) (ss_session_affinity s) (ss_external_name s) (ss_cluster_ips s)
    (ss_ip_families s) (ss_ip_family_policy s) (ss_internal_traffic_policy s)
    (ss_external_traffic_policy s) v (ss_load_balancer_class s) (ss_load_balancer_ip s)
    (ss_load_balancer_source_ranges s) (ss_allocate_load_balancer_node_ports s)
    (ss_publish_not_ready_addresses s) (ss_session_affinity_config s) (ss_traffic_distribution
    s).
Definition set_load_balancer_class (s : ServiceSpec) (v : option string) : ServiceSpec :=
  mkServiceSpec (ss_selector s) (ss_ports s) (ss_service_type s) (ss_cluster_ip s)
    (ss_external_ips s) (ss_session_affinity s) (ss_external_name s) (ss_cluster_ips s)
    (ss_ip_families s) (ss_ip_family_policy s) (ss_internal_traffic_policy s)
    (ss_external_traffic_policy s) (ss_health_check_node_port s) v (ss_load_balancer_ip s)
    (ss_load_balancer_source_ranges s) (ss_allocate_load_balancer_node_ports s)
    (ss_publish_not_ready_addresses s) (ss_session_affinity_config s) (ss_traffic_distribution
    s).
Definition set_allocate_load_balancer_node_ports (s : ServiceSpec) (v : option bool) : ServiceSpec :=
  mkServiceSpec (ss_selector s) (ss_ports s) (ss_service_type s) (ss_cluster_ip s)
    (ss_external_ips s) (ss_session_affinity s) (ss_external_name s) (ss_cluster_ips s)
    (ss_ip_families s) (ss_ip_family_policy s) (ss_internal_traffic_policy s)
    (ss_external_traffic_policy s) (ss_health_check_node_port s) (ss_load_balancer_class s)
    (ss_load_balancer_ip s) (ss_load_balancer_source_ranges s) v
    (ss_publish_not_ready_addresses s) (ss_session_affinity_config s) (ss_traffic_distribution
    s).
Definition set_session_affinity (s : ServiceSpec) (v : option string) : ServiceSpec :=
  mkServiceSpec (ss_selector s) (ss_ports s) (ss_service_type s) (ss_cluster_ip s)
    (ss_external_ips s) v (ss_external_name s) (ss_cluster_ips s) (ss_ip_families s)
    (ss_ip_family_policy s) (ss_internal_traffic_policy s) (ss_external_traffic_policy s)
    (ss_health_check_node_port s) (ss_load_balancer_class s) (ss_load_balancer_ip s)
    (ss_load_balancer_source_ranges s) (ss_allocate_load_balancer_node_ports s)
    (ss_publish_not_ready_addresses s) (ss_session_affinity_config s) (ss_traffic_distribution
    s).
Definition set_session_affinity_config (s : ServiceSpec) (v : option SessionAffinityConfig) : ServiceSpec :=
  mkServiceSpec (ss_selector s) (ss_ports s) (ss_service_type s) (ss_cluster_ip s)
    (ss_external_ips s) (ss_session_affinity s) (ss_external_name s) (ss_cluster_ips s)
    (ss_ip_families s) (ss_ip_family_policy s) (ss_internal_traffic_policy s)
    (ss_external_traffic_policy s) (ss_health_check_node_port s) (ss_load_balancer_class s)
    (ss_load_balancer_ip s) (ss_load_balancer_source_ranges s)
    (ss_allocate_load_balancer_node_ports s) (ss_publish_not_ready_addresses s) v
    (ss_traffic_distribution s).

(** [i32 as usize], [usize as u16] and [usize as i32] *)
Definition i32_as_usize (n : Z) : Z := (n mod 2 ^ 64)%Z.
Definition as_u16 (n : Z) : Z := (n mod 2 ^ 16)%Z.
Definition as_i32 (n : Z) : Z := ((n + 2 ^ 31) mod 2 ^ 32 - 2 ^ 31)%Z.

(** [port.node_port = v] *)
Definition set_sp_node_port (p : ServicePort) (v : option Z) : ServicePort :=
  mkServicePort (sp_name p) (sp_port p) (sp_target_port p) (sp_protocol p) v (sp_app_protocol p).
