(* ===== verification/PortRepair.v ===== *)
(** * The repair loop of the node ports

    Model of
    [crates/api-server/src/registry/core/service/portallocator/repair.rs]: a pass
    rebuilds the allocation from the ports the stored services use, reports what
    it finds with events, keeps a port nobody uses for a while in case a request
    is just about to use it, and writes the result back.

    - What storage answers during one pass is an argument ([Answers]): the
      attempts to read the snapshot, the list of services, and the answer to the
      write.  [pass_on_store] is a pass on a storage of [RangeAllocator].
    - The delays between attempts and the logging are left out. *)

From stdpp Require Import strings pretty.
From Stdlib Require Import Sorted.
From S2P Require Import Prelude RustText AllocBitmap RangeAllocator AllocInterface PortAllocator ServiceTypes.

Local Open Scope Z_scope.

Definition NUM_REPAIRS_BEFORE_LEAK_CLEANUP : nat := 3.
Definition COMPONENT : string := "portallocator-repair-controller".

(** ** The ports of a service *)

(** The loop over the ports: the ports pushed, and the protocols [seen] by port. *)
Fixpoint collect_loop (l : list ServicePort) (seen : gmap Z (gset string))
    : list Z * gmap Z (gset string) :=
  match l with
  | [] => ([], seen)
  | port :: l' =>
      match sp_node_port port with
      | Some node_port =>
          if decide (node_port = 0) then collect_loop l' seen
          else
            let protocols := default ∅ (seen !! node_port) in
            let proto := sp_protocol port in
            if decide (protocols = ∅) then
              let '(out, seen') := collect_loop l' (<[node_port := {[proto]}]> seen) in
              (node_port :: out, seen')
            else if decide (proto ∈ protocols) then
              let '(out, seen') := collect_loop l' seen in (node_port :: out, seen')
            else collect_loop l' (<[node_port := {[proto]} ∪ protocols]> seen)
      | None => collect_loop l' seen
      end
  end.

Definition collect_service_node_ports (svc : Service) : list Z :=
  let '(out, seen) := collect_loop (ss_ports (svc_spec svc)) ∅ in
  match ss_health_check_node_port (svc_spec svc) with
  | Some h =>
      if decide (h = 0) then out
      else
        let health := i32_as_usize h in
        let free := match seen !! health with None => true | Some s => bool_decide ("TCP" ∈ s) end in
        if free then out ++ [health] else out
  | None => out
  end.

(** ** Events *)

Record ObjectReference := mkObjectReference {
  or_kind : option string;
  or_namespace : option string;
  or_name : option string;
  or_uid : option string;
  or_api_version : option string;
  or_resource_version : option string
}.

(** A call of [recorder.event], of type [Warning]. *)
Record RepairEvent := mkRepairEvent {
  re_involved : ObjectReference;
  re_component : string;
  re_reason : string;
  re_message : string
}.

Definition event (svc : Service) (reason message : string) : RepairEvent :=
  let md := svc_metadata svc in
  mkRepairEvent
    (mkObjectReference (Some "Service") (sm_namespace md) (Some (sm_name md)) (Some (sm_uid md))
       (Some "v1") (sm_resource_version md))
    COMPONENT reason message.

(** ** One pass *)

Abbreviation MemPorts := (PortAllocator AllocationBitmap).

Record Repair := mkRepair { rp_range : PortRange; rp_leaks : gmap Z nat }.

(** What a pass has built so far. *)
Record Pass := mkPass {
  ps_rebuilt : MemPorts;
  ps_stored : MemPorts;
  ps_leaks : gmap Z nat;
  ps_events : list RepairEvent
}.

Definition add_event (s : Pass) (e : RepairEvent) : Pass :=
  mkPass (ps_rebuilt s) (ps_stored s) (ps_leaks s) (ps_events s ++ [e]).

Definition svc_label (svc : Service) : string :=
  sm_name (svc_metadata svc) +:+ "/" +:+ default "" (sm_namespace (svc_metadata svc)).

(** One port of one service. *)
Definition process_port (pr : PortRange) (svc : Service) (s : Pass) (port : Z)
    : option (Pass * result unit AllocError) :=
  '(rebuilt, r) ← pa_allocate (ps_rebuilt s) port;
  let s1 := mkPass rebuilt (ps_stored s) (ps_leaks s) (ps_events s) in
  let range := pr_to_string pr in
  match r with
  | Ok _ =>
      s2 ← (if pa_has (ps_stored s1) port then
              '(stored, _) ← pa_release (ps_stored s1) port;
              Some (mkPass (ps_rebuilt s1) stored (ps_leaks s1) (ps_events s1))
            else Some (add_event s1 (event svc "PortNotAllocated"
                   ("Port " +:+ pretty port +:+ " is not allocated; repairing"))));
      Some (mkPass (ps_rebuilt s2) (ps_stored s2) (delete port (ps_leaks s2)) (ps_events s2), Ok tt)
  | Err PEAllocated =>
      Some (add_event s1 (event svc "PortAlreadyAllocated"
        ("Port " +:+ pretty port +:+ " was assigned to multiple services; please recreate service")), Ok tt)
  | Err (PENotInRange _) =>
      Some (add_event s1 (event svc "PortOutOfRange"
        ("Port " +:+ pretty port +:+ " is not within the port range " +:+ range +:+ "; please recreate service")), Ok tt)
  | Err PEFull =>
      Some (add_event s1 (event svc "PortRangeFull"
        ("Port range " +:+ range +:+ " is full; you must widen the port range in order to create new services")),
        Err (EInternal ("the port range " +:+ range +:+
          " is full; you must widen the port range in order to create new services")))
  | Err e =>
      Some (add_event s1 (event svc "UnknownError"
        ("Unable to allocate port " +:+ pretty port +:+ " due to an unknown error")),
        Err (EInternal ("unable to allocate port " +:+ pretty port +:+ " for service " +:+ svc_label svc +:+
          " due to an unknown error, exiting: " +:+ port_error_text e)))
  end.

(** The loop over the ports of one service. *)
Fixpoint process_ports (pr : PortRange) (svc : Service) (s : Pass) (l : list Z)
    : option (Pass * result unit AllocError) :=
  match l with
  | [] => Some (s, Ok tt)
  | port :: l' =>
      '(s', r) ← process_port pr svc s port;
      match r with
      | Ok _ => process_ports pr svc s' l'
      | Err e => Some (s', Err e)
      end
  end.

(** The loop over the services. *)
Fixpoint process_services (pr : PortRange) (s : Pass) (l : list Service)
    : option (Pass * result unit AllocError) :=
  match l with
  | [] => Some (s, Ok tt)
  | svc :: l' =>
      '(s', r) ← process_ports pr svc s (collect_service_node_ports svc);
      match r with
      | Ok _ => process_services pr s' l'
      | Err e => Some (s', Err e)
      end
  end.

(** The count a port left in the old set goes on with; [None] when it has
    expired. *)
Definition leak_count (leaks : gmap Z nat) (port : Z) : option nat :=
  match leaks !! port with
  | None => Some (NUM_REPAIRS_BEFORE_LEAK_CLEANUP - 1)%nat
  | Some c => if decide (0 < c)%nat then Some c else None
  end.

(** The loop over the ports that appear to have leaked. *)
Fixpoint leak_loop (rebuilt : MemPorts) (leaks : gmap Z nat) (l : list Z) : option (MemPorts * gmap Z nat) :=
  match l with
  | [] => Some (rebuilt, leaks)
  | port :: l' =>
      match leak_count leaks port with
      | Some count =>
          '(rebuilt', _) ← pa_allocate rebuilt port;
          leak_loop rebuilt' (<[port := (count - 1)%nat]> leaks) l'
      | None => leak_loop rebuilt leaks l'
      end
  end.

(** What storage answers during one pass: the reads of the snapshot, one per
    attempt, the services, and the write. *)
Record Answers := mkAnswers {
  an_get : nat -> result RangeAllocation AllocError;
  an_list : result (list Service) AllocError;
  an_put : RangeAllocation -> result unit AllocError
}.

(** [for attempt in 0..=30]: the first snapshot read, or the last error. *)
Fixpoint get_loop (get : nat -> result RangeAllocation AllocError) (attempts attempt : nat)
    (last_err : option AllocError) : result RangeAllocation (option AllocError) :=
  match attempts with
  | O => Err last_err
  | S attempts' =>
      match get attempt with
      | Ok s => Ok s
      | Err e => get_loop get attempts' (S attempt) (Some e)
      end
  end.

Definition internal_error_of (prefix : string) (e : AllocError) : AllocError :=
  EInternal (prefix +:+ alloc_error_text e).

Section Run.
Context `{!TextFormat}.

(** A pass up to its write: the snapshot it is going to write. *)
Definition rebuild (rp : Repair) (an : Answers)
    : option (Repair * list RepairEvent * result RangeAllocation AllocError) :=
  let pr := rp_range rp in
  match get_loop (an_get an) 31 0 None with
  | Err last_err =>
      Some (rp, [], Err (EInternal ("unable to refresh the port allocations: " +:+
                           default "" (alloc_error_text <$> last_err))))
  | Ok snapshot =>
      let snapshot := if decide (ra_range snapshot = "")
                      then set_payload snapshot (pr_to_string pr) (ra_data snapshot) else snapshot in
      stored ← from_snapshot snapshot;
      match stored with
      | Err e => Some (rp, [], Err (EInternal ("unable to rebuild allocator from snapshot: " +:+ port_error_text e)))
      | Ok stored =>
          match an_list an with
          | Err e => Some (rp, [], Err (internal_error_of "unable to refresh the port block: " e))
          | Ok services =>
              '(s, r) ← process_services pr (mkPass (new_in_memory pr) stored (rp_leaks rp) []) services;
              match r with
              | Err e => Some (mkRepair pr (ps_leaks s), ps_events s, Err e)
              | Ok _ =>
                  '(rebuilt, leaks) ← leak_loop (ps_rebuilt s) (ps_leaks s) (pa_allocated (ps_stored s));
                  Some (mkRepair pr leaks, ps_events s,
                        match pa_snapshot rebuilt snapshot with
                        | Err e => Err (EInternal ("unable to snapshot the updated port allocations: " +:+ port_error_text e))
                        | Ok snapshot => Ok snapshot
                        end)
              end
          end
      end
  end.

(** The answer to [create_or_update], as the pass returns it. *)
Definition put_result (r : result unit AllocError) : result unit AllocError :=
  match r with
  | Ok _ => Ok tt
  | Err (EConflict msg) => Err (EConflict msg)
  | Err e => Err (internal_error_of "unable to persist the updated port allocations: " e)
  end.

Definition do_run_once (rp : Repair) (an : Answers)
    : option (Repair * list RepairEvent * result unit AllocError) :=
  '(rp', events, w) ← rebuild rp an;
  Some (rp', events, match w with Ok w => put_result (an_put an w) | Err e => Err e end).

(** The loop of [run_once]: [steps] attempts, each with the answers it gets. *)
Fixpoint run_once_loop (steps : nat) (an : nat -> Answers) (rp : Repair)
    : option (Repair * list RepairEvent * result unit AllocError) :=
  match steps with
  | O => None
  | S steps' =>
      '(rp1, ev1, r) ← do_run_once rp (an 0%nat);
      match r, steps' with
      | Err (EConflict _), S _ =>
          '(rp2, ev2, r2) ← run_once_loop steps' (fun n => an (S n)) rp1;
          Some (rp2, ev1 ++ ev2, r2)
      | _, _ => Some (rp1, ev1, r)
      end
  end.

Definition run_once (rp : Repair) (an : nat -> Answers) : option (Repair * list RepairEvent * result unit AllocError) :=
  run_once_loop 4 an rp.

(** A pass of the server [a] that reads its snapshot from the storage [s0], and
    writes to what the storage has become by then. *)
Definition pass_on_store {St} `{!RangeStore St} (s0 : St) (services : list Service) (a : Etcd St) (rp : Repair)
    : option (Etcd St * Repair * list RepairEvent * result unit AllocError) :=
  let '(s, st, resource) := (et_store a, et_state a, et_resource a) in
  let an := mkAnswers (fun _ => Ok (registry_get s0)) (Ok services)
              (fun w => (create_or_update resource s st w).2) in
  '(rp', events, w) ← rebuild rp an;
  Some (match w with
        | Ok w => let '(s', st', r) := create_or_update resource s st w in
                  (mkEtcd s' st' resource, rp', events, put_result r)
        | Err e => (a, rp', events, Err e)
        end).

(** [n] passes in a row, with nobody else writing. *)
Fixpoint passes {St} `{!RangeStore St} (n : nat) (services : list Service) (a : Etcd St) (rp : Repair)
    : option (Etcd St * Repair) :=
  match n with
  | O => Some (a, rp)
  | S n' =>
      '(a', rp', _, _) ← pass_on_store (et_store a) services a rp;
      passes n' services a' rp'
  end.

End Run.
