(* ===== verification/PortRepairProps.v ===== *)
(** * The repair loop of the node ports: what a pass does

    A pass leaves the ports the services use and, for a while, those nobody
    uses; three passes in a row clean up a leak.  The count of a port that was
    cleaned up, or that conflicts used up, is not started again. *)

From stdpp Require Import strings pretty.
From Stdlib Require Import Sorted.
From S2P Require Import Prelude RustText AllocBitmap RangeAllocator AllocInterface PortAllocator ServiceTypes PortRepair.

Local Open Scope Z_scope.

(** ** In-memory ports *)

Record mem_inv (pr : PortRange) (pa : MemPorts) : Prop := {
  mi_pa : pa_inv pa;
  mi_range : pa_range pa = pr;
  mi_off : bm_offset (pa_alloc pa) = Z.to_nat (calculate_range_offset pr);
  mi_spec : bm_range_spec (pa_alloc pa) = pr_to_string pr
}.

Lemma calculate_offset_lt pr :
  0 <= pr_size pr ->
  Z.to_nat (pr_size pr) = 0%nat \/ (Z.to_nat (calculate_range_offset pr) < Z.to_nat (pr_size pr))%nat.
Proof. intros Hn. destruct (calculate_range_offset_bounds pr Hn). lia. Qed.

Lemma mem_of_bitmap pr b :
  0 <= pr_base pr -> 0 <= pr_size pr -> bm_inv b -> bm_max b = Z.to_nat (pr_size pr) ->
  bm_offset b = Z.to_nat (calculate_range_offset pr) -> bm_range_spec b = pr_to_string pr ->
  mem_inv pr (mkPortAllocator pr b (fun _ => (0, 0)%nat)).
Proof.
  intros Hb Hn Hi Hm Ho Hs. split; [|done..]. split; [done|done|done|]. intros n. cbn. rewrite Hm Ho.
  apply no_draw. by apply calculate_offset_lt.
Qed.

Lemma new_in_memory_inv pr : 0 <= pr_base pr -> 0 <= pr_size pr -> mem_inv pr (new_in_memory pr).
Proof.
  intros Hb Hn. apply mem_of_bitmap; try done. apply inv_with_offset. by apply calculate_offset_lt.
Qed.

Lemma new_in_memory_held pr : pa_held (new_in_memory pr) = ∅.
Proof. unfold pa_held. cbn. by rewrite /taken /alloc_set /= set_map_empty. Qed.

Lemma mem_allocate pr pa p :
  mem_inv pr pa ->
  exists pa' r, pa_allocate pa p = Some (pa', r) /\ mem_inv pr pa' /\
    match r with
    | Ok _ => pr_contains pr p = true /\ (p ∉ pa_held pa) /\ pa_held pa' = {[p]} ∪ pa_held pa
    | Err PEAllocated => p ∈ pa_held pa /\ pa_held pa' = pa_held pa
    | Err (PENotInRange _) => pr_contains pr p = false /\ pa_held pa' = pa_held pa
    | Err _ => False
    end.
Proof.
  intros [Hi Hr Ho Hs]. destruct (pa_allocate_spec pa p Hi) as (pa' & r & H & [Hi' Hr'] & Hres).
  exists pa', r. split; [done|]. rewrite Hr in Hr' Hres.
  assert (mem_inv pr pa' /\ (forall e, r <> Err (PEOther e))) as [Hm He].
  - unfold pa_allocate in H. destruct (pa_contains pa p) as [o|] eqn:Hc; [|by simplify_eq].
    cbn [if_allocate InMemory] in H. pose proof (allocate_spec (pa_alloc pa) o (pi_alloc _ Hi)) as Ha.
    destruct (allocate (pa_alloc pa) o) as [b rb]. destruct Ha as (_ & _ & Hoff & Hspec & Hrb).
    simplify_eq/=. split; [split; simpl; congruence|]. intros e. destruct rb as [[]|msg]; simpl; try done.
    destruct Hrb as [Hle _]. apply pa_contains_Some in Hc. pose proof (pi_max _ Hi) as Hmax. simpl in Hmax. lia.
  - split; [done|]. destruct r as [|[]]; try done. by edestruct He.
Qed.

Lemma mem_release pr pa p :
  mem_inv pr pa ->
  exists pa' r, pa_release pa p = Some (pa', r) /\ mem_inv pr pa' /\ pa_held pa' = pa_held pa ∖ {[p]}.
Proof.
  intros [Hi Hr Ho Hs]. destruct (pa_release_spec pa p Hi) as (pa' & r & H & [Hi' Hr'] & Hres).
  exists pa', r. split; [done|]. unfold pa_release in H. destruct (pa_contains pa p) as [o|]; simplify_eq/=.
  - destruct (release_spec (pa_alloc pa) o (pi_alloc _ Hi)) as (_ & _ & Hoff & Hspec & _).
    split; [split; simpl; congruence|done].
  - by split.
Qed.

Lemma mem_has pr pa p : mem_inv pr pa -> pa_has pa p = bool_decide (p ∈ pa_held pa).
Proof.
  intros [Hi _ _ _]. unfold pa_has. destruct (pa_contains pa p) as [o|] eqn:Hc.
  - apply elem_of_pa_held in Hc. cbn in *. unfold bm_has. destruct (bit (pa_alloc pa) o) eqn:Hb.
    + rewrite bool_decide_eq_true_2 // Hc. by apply elem_of_taken.
    + rewrite bool_decide_eq_false_2 // Hc. by apply not_taken.
  - rewrite bool_decide_eq_false_2 //. intros Hp%pa_held_range%pa_contains_iff; [|done].
    rewrite Hc in Hp. by destruct Hp.
Qed.

Lemma sorted_lt_NoDup (l : list nat) : StronglySorted lt l -> NoDup l.
Proof.
  induction 1 as [|x l _ IH Hx]; constructor; [|done]. intros Hin.
  rewrite Forall_forall in Hx. apply Hx in Hin. lia.
Qed.

Lemma mem_allocated pr pa : mem_inv pr pa ->
  NoDup (pa_allocated pa) /\ forall p, p ∈ pa_allocated pa <-> p ∈ pa_held pa.
Proof.
  intros [Hi _ _ _]. unfold pa_allocated. cbn [if_allocated InMemory].
  destruct (words_bits_spec 0 (bm_words (pa_alloc pa)) (bi_words _ (pi_alloc _ Hi))) as [Hin Hsort]. split.
  - apply NoDup_fmap_2; [intros x y; lia|]. by apply sorted_lt_NoDup.
  - intros p. unfold pa_held. rewrite list_elem_of_fmap elem_of_map. cbn.
    assert (forall o, o ∈ allocated (pa_alloc pa) <-> o ∈ taken (pa_alloc pa)) as Ha.
    { intros o. unfold allocated. rewrite Hin elem_of_taken Nat.mul_0_l Nat.sub_0_r /bit. intuition lia. }
    by setoid_rewrite Ha.
Qed.

(** ** Snapshots *)

(** [r] is the snapshot of the ports [held] of the range [pr]. *)
Definition snapshot_of (pr : PortRange) (r : RangeAllocation) (held : gset Z) : Prop :=
  exists pa, mem_inv pr pa /\ ra_range r = pr_to_string pr /\ ra_data r = (snapshot (pa_alloc pa)).2 /\
    pa_held pa = held.

(** Nothing was stored yet, or the ports [held] of the range [pr0]. *)
Definition read_of (pr : PortRange) (r : RangeAllocation) (pr0 : PortRange) (held : gset Z) : Prop :=
  (snapshot_of pr0 r held /\ ra_range r <> "") \/ (ra_range r = "" /\ ra_data r = [] /\ pr0 = pr /\ held = ∅).

Lemma read_of_snapshot pr r pr0 held : 0 <= pr_base pr -> 0 <= pr_size pr ->
  read_of pr r pr0 held ->
  snapshot_of pr0 (if decide (ra_range r = "") then set_payload r (pr_to_string pr) (ra_data r) else r) held.
Proof.
  intros Hb Hn [[Hs Hne]|(Hr & Hd & -> & ->)]; [by rewrite decide_False|]. rewrite decide_True //.
  exists (new_in_memory pr). split; [by apply new_in_memory_inv|]. split; [done|]. rewrite Hd.
  split; [reflexivity|apply new_in_memory_held].
Qed.

Lemma pa_snapshot_of pr pa dst : mem_inv pr pa ->
  exists w, pa_snapshot pa dst = Ok w /\ snapshot_of pr w (pa_held pa) /\
    ra_resource_version w = ra_resource_version dst.
Proof.
  intros Hm. eexists. split; [reflexivity|]. split; [|done]. exists pa. cbn. split_and!; try done. apply Hm.
Qed.

Lemma from_snapshot_spec `{!TextFormat} pr r held :
  pr_ok pr -> snapshot_of pr r held ->
  exists pa, from_snapshot r = Some (Ok pa) /\ mem_inv pr pa /\ pa_held pa = held.
Proof.
  intros Hok (pa & Hm & Hr & Hd & Hh). unfold from_snapshot. rewrite Hr pr_parse_to_string //=.
  unfold pa_restore. rewrite decide_True //. cbn [if_restore InMemory new_in_memory pa_alloc].
  pose proof (restore_snapshot (pa_alloc pa) (pa_alloc (new_in_memory pr)) (pi_alloc _ (mi_pa _ _ Hm))) as Hrs.
  cbn [snapshot fst] in Hrs. rewrite (mi_spec _ _ Hm) -Hd in Hrs.
  rewrite Hrs //. cbn [internal_err]. eexists. split; [done|].
  assert (set_alloc (new_in_memory pr) (mkBitmap (Z.to_nat (calculate_range_offset pr)) (Z.to_nat (pr_size pr))
    (pr_to_string pr) (bm_count (pa_alloc pa)) (bm_words (pa_alloc pa))) =
    mkPortAllocator pr (pa_alloc pa) (fun _ => (0, 0)%nat)) as Heq.
  { unfold set_alloc. simpl. f_equal. destruct Hm as [Hi Hrg Ho Hs]. pose proof (pi_max _ Hi) as Hmax. simpl in Hmax.
    destruct (pa_alloc pa); simpl in *. rewrite Ho Hmax Hs Hrg //. }
  cbn in Heq |- *. rewrite Heq. destruct Hm as [Hi Hrg Ho Hs]. split.
  - pose proof (pi_max _ Hi) as Hmax. simpl in Hmax. apply mem_of_bitmap; try done; [apply Hok|apply Hok|apply Hi|congruence].
  - rewrite -Hh. unfold pa_held. by rewrite Hrg.
Qed.

(** ** The services *)

(** The ports of the range that the services use. *)
Definition used (pr : PortRange) (services : list Service) : gset Z :=
  filter (fun p => pr_contains pr p = true) (list_to_set (services ≫= collect_service_node_ports)).

(** The ports found in use after a list of ports. *)
Definition used_of (pr : PortRange) (l : list Z) : gset Z :=
  filter (fun p => pr_contains pr p = true) (list_to_set l).

Lemma used_of_cons pr p l U :
  used_of pr l ∪ (if pr_contains pr p then {[p]} ∪ U else U) = used_of pr (p :: l) ∪ U.
Proof.
  unfold used_of. apply set_eq. intros x. rewrite list_to_set_cons !elem_of_union !elem_of_filter
    elem_of_union elem_of_singleton.
  destruct (pr_contains pr p) eqn:E; rewrite ?elem_of_union ?elem_of_singleton; naive_solver congruence.
Qed.

(** *** What there is to report *)

(** The services' ports in the order the pass meets them. *)
Definition ports_of_services (services : list Service) : list (Service * Z) :=
  services ≫= fun svc => pair svc <$> collect_service_node_ports svc.

(** What is wrong with the port of a service, when the ports [H] are held and
    the services met before use [U]. *)
Definition finding (pr : PortRange) (H U : gset Z) (svc : Service) (port : Z) : option RepairEvent :=
  if pr_contains pr port then
    if decide (port ∈ U) then Some (event svc "PortAlreadyAllocated"
        ("Port " +:+ pretty port +:+ " was assigned to multiple services; please recreate service"))
    else if decide (port ∈ H) then None
    else Some (event svc "PortNotAllocated" ("Port " +:+ pretty port +:+ " is not allocated; repairing"))
  else Some (event svc "PortOutOfRange"
        ("Port " +:+ pretty port +:+ " is not within the port range " +:+ pr_to_string pr +:+ "; please recreate service")).

(** The findings of a list of ports; each port is judged by those before it. *)
Definition findings (pr : PortRange) (H U : gset Z) (l : list (Service * Z)) : list RepairEvent :=
  concat (imap (fun i sp => option_list (finding pr H (used_of pr (take i l.*2) ∪ U) sp.1 sp.2)) l).

Lemma findings_cons pr H U svc port l :
  findings pr H U ((svc, port) :: l) =
  option_list (finding pr H U svc port) ++ findings pr H (if pr_contains pr port then {[port]} ∪ U else U) l.
Proof.
  unfold findings. cbn [imap concat fst snd]. f_equal; [by rewrite /used_of filter_empty_L union_empty_l_L|].
  f_equal. apply imap_ext. intros i sp _. cbn. by rewrite -used_of_cons.
Qed.

Lemma findings_app pr H l1 l2 : forall U,
  findings pr H U (l1 ++ l2) = findings pr H U l1 ++ findings pr H (used_of pr l1.*2 ∪ U) l2.
Proof.
  induction l1 as [|[svc port] l1 IH]; intros U; [by rewrite /used_of filter_empty_L union_empty_l_L|].
  rewrite -app_comm_cons !findings_cons IH -app_assoc. cbn. by rewrite used_of_cons.
Qed.

(** Nothing is reported exactly when the ports are in the range, distinct and
    held. *)
Lemma findings_nil pr H l : forall U,
  findings pr H U l = [] <->
  NoDup l.*2 /\ forall port, port ∈ l.*2 -> pr_contains pr port = true /\ port ∈ H /\ port ∉ U.
Proof.
  induction l as [|[svc port] l IH]; intros U; [split; [split; [constructor|set_solver]|done]|].
  rewrite findings_cons. cbn [fmap list_fmap snd]. rewrite NoDup_cons. unfold finding.
  destruct (pr_contains pr port) eqn:Hc.
  - destruct (decide (port ∈ U)) as [Hu|Hu]; [split; [done|]; intros [_ Hall]; by destruct (Hall port) as (_ & _ & ?); [left|]|].
    destruct (decide (port ∈ H)) as [Hh|Hh]; [|split; [done|]; intros [_ Hall]; by destruct (Hall port) as (_ & ? & _); [left|]].
    cbn [option_list app]. rewrite IH. setoid_rewrite elem_of_cons. setoid_rewrite elem_of_union.
    setoid_rewrite elem_of_singleton. split.
    + intros [Hn Hall]. split; [split; [|done]|].
      * intros Hin. destruct (Hall port Hin) as (_ & _ & []). by left.
      * intros p [->|Hin]; [done|]. destruct (Hall p Hin) as (? & ? & ?). split; [done|]. split; [done|]. tauto.
    + intros [[Hn1 Hn] Hall]. split; [done|]. intros p Hin. destruct (Hall p (or_intror Hin)) as (? & ? & ?).
      split; [done|]. split; [done|]. intros [->|?]; done.
  - split; [done|]. intros [_ Hall]. destruct (Hall port) as (? & _); [by left|congruence].
Qed.

(** What the pass knows after some ports: [U] are the ports found in use so
    far, [H] the ports held at first. *)
Record pass_inv (pr pr0 : PortRange) (H U : gset Z) (leaks : gmap Z nat) (s : Pass) : Prop := {
  pv_rebuilt : mem_inv pr (ps_rebuilt s) /\ pa_held (ps_rebuilt s) = U;
  pv_stored : mem_inv pr0 (ps_stored s) /\ pa_held (ps_stored s) = H ∖ U;
  pv_leaks p : ps_leaks s !! p = if decide (p ∈ U) then None else leaks !! p
}.

Lemma process_port_spec pr pr0 H U leaks svc s port :
  pass_inv pr pr0 H U leaks s ->
  exists s', process_port pr svc s port = Some (s', Ok tt) /\
    pass_inv pr pr0 H (if pr_contains pr port then {[port]} ∪ U else U) leaks s' /\
    ps_events s' = ps_events s ++ option_list (finding pr H U svc port).
Proof.
  intros [[Hr HU] [Hst HS] HL]. unfold process_port.
  destruct (mem_allocate pr _ port Hr) as (rebuilt & r & -> & Hr' & Hres). cbn [mbind option_bind].
  destruct r as [|[]]; try done.
  - destruct Hres as (Hc & Hn & Hh). rewrite Hc. rewrite HU in Hn Hh. cbn [ps_stored].
    assert (forall p, delete port (ps_leaks s) !! p = if decide (p ∈ {[port]} ∪ U) then None else leaks !! p) as HL'.
    { intros p. destruct (decide (p = port)) as [->|Hp]; [rewrite lookup_delete_eq decide_True //; set_solver|].
      rewrite lookup_delete_ne // HL. destruct (decide (p ∈ U)); [rewrite decide_True //|rewrite decide_False //]; set_solver. }
    unfold finding. rewrite Hc (decide_False (P := port ∈ U)) //.
    rewrite (mem_has pr0) // HS. case_bool_decide as Hin.
    + rewrite decide_True; [clear -Hin; set_solver|].
      destruct (mem_release pr0 _ port Hst) as (stored & rr & -> & Hst' & Hh'). cbn [mbind option_bind].
      eexists. split; [done|]. split; [|by rewrite app_nil_r]. split; cbn; [done| |exact HL']. split; [done|].
      rewrite Hh' HS. clear. set_solver.
    + rewrite decide_False; [clear -Hn Hin; set_solver|].
      eexists. split; [done|]. split; [|done]. split; cbn; [done| |exact HL']. split; [done|]. rewrite HS.
      clear -Hn Hin. set_solver.
  - destruct Hres as [Hin Hh]. eexists. split; [done|]. rewrite HU in Hin.
    assert (pr_contains pr port = true) as Hc by (destruct Hr as [Hi <- _ _]; apply pa_held_range; [done|by rewrite HU]).
    rewrite /finding Hc decide_True //. split; [|done].
    replace ({[port]} ∪ U) with U by (clear -Hin; set_solver). split; cbn; [by rewrite Hh|done|done].
  - destruct Hres as [Hc Hh]. rewrite /finding Hc. eexists. split; [done|]. split; [|done].
    split; cbn; [by rewrite Hh|done|done].
Qed.

Lemma process_ports_spec pr pr0 H leaks svc l : forall U s,
  pass_inv pr pr0 H U leaks s ->
  exists s', process_ports pr svc s l = Some (s', Ok tt) /\ pass_inv pr pr0 H (used_of pr l ∪ U) leaks s' /\
    ps_events s' = ps_events s ++ findings pr H U (pair svc <$> l).
Proof.
  induction l as [|p l IH]; intros U s Hs; cbn [process_ports].
  { exists s. split; [done|]. split; [|by rewrite app_nil_r]. by replace (used_of pr [] ∪ U) with U by (unfold used_of; set_solver). }
  destruct (process_port_spec pr pr0 H U leaks svc s p Hs) as (s1 & -> & Hs1 & He1). cbn [mbind option_bind].
  destruct (IH _ _ Hs1) as (s2 & -> & Hs2 & He2). exists s2. split; [done|]. split; [by rewrite used_of_cons in Hs2|].
  by rewrite He2 He1 fmap_cons findings_cons -app_assoc.
Qed.

Lemma process_services_spec pr pr0 H leaks services : forall U s,
  pass_inv pr pr0 H U leaks s ->
  exists s', process_services pr s services = Some (s', Ok tt) /\
    pass_inv pr pr0 H (used pr services ∪ U) leaks s' /\
    ps_events s' = ps_events s ++ findings pr H U (ports_of_services services).
Proof.
  induction services as [|svc services IH]; intros U s Hs; cbn [process_services].
  { exists s. split; [done|]. split; [|by rewrite app_nil_r]. by replace (used pr [] ∪ U) with U by (unfold used; set_solver). }
  destruct (process_ports_spec pr pr0 H leaks svc (collect_service_node_ports svc) U s Hs) as (s1 & -> & Hs1 & He1).
  cbn [mbind option_bind]. destruct (IH _ _ Hs1) as (s2 & -> & Hs2 & He2). exists s2. split; [done|]. split.
  - replace (used pr (svc :: services) ∪ U) with
      (used pr services ∪ (used_of pr (collect_service_node_ports svc) ∪ U)); [done|].
    unfold used, used_of. rewrite bind_cons list_to_set_app_L filter_union_L. set_solver.
  - rewrite He2 He1 -app_assoc. f_equal. unfold ports_of_services. cbn [mbind list_bind]. rewrite findings_app.
    by rewrite -list_fmap_compose list_fmap_id.
Qed.

(** ** The leaks *)

(** The count of a leaked port after a pass. *)
Definition leak_next (c : option nat) : option nat :=
  match c with None => Some 1%nat | Some O => Some O | Some (S c) => Some c end.

Lemma leak_loop_spec pr : forall l rebuilt leaks,
  mem_inv pr rebuilt -> NoDup l -> (forall p, p ∈ l -> p ∉ pa_held rebuilt) ->
  exists rebuilt' leaks', leak_loop rebuilt leaks l = Some (rebuilt', leaks') /\ mem_inv pr rebuilt' /\
    (forall p, p ∈ pa_held rebuilt' <->
       p ∈ pa_held rebuilt \/ p ∈ l /\ leaks !! p <> Some 0%nat /\ pr_contains pr p = true) /\
    (forall p, leaks' !! p = if decide (p ∈ l) then leak_next (leaks !! p) else leaks !! p).
Proof.
  induction l as [|port l IH]; intros rebuilt leaks Hm Hnd Hfresh; cbn [leak_loop].
  { exists rebuilt, leaks. split; [done|]. split; [done|]. split; [set_solver|]. intros p. done. }
  apply NoDup_cons in Hnd as [Hport Hnd].
  assert (forall count, leak_count leaks port = Some count ->
    leaks !! port <> Some 0%nat /\ leak_next (leaks !! port) = Some (count - 1)%nat) as Hcount.
  { intros count. unfold leak_count. destruct (leaks !! port) as [[|c]|]; simpl; [done|..]; intros [= <-]; split; try done.
    simpl. by rewrite Nat.sub_0_r. }
  destruct (leak_count leaks port) as [count|] eqn:Hc.
  - destruct (Hcount _ eq_refl) as [Hne Hnx].
    destruct (mem_allocate pr rebuilt port Hm) as (rb & r & -> & Hm' & Hres). cbn [mbind option_bind].
    assert (forall p, p ∈ pa_held rb <-> p ∈ pa_held rebuilt \/ p = port /\ pr_contains pr p = true) as Hrb.
    { intros p. destruct r as [|[]]; try done.
      - destruct Hres as (? & ? & ->). set_solver.
      - destruct Hres as [Hin ->]. exfalso. apply (Hfresh port); [set_solver|done].
      - destruct Hres as [Hf ->]. split; [tauto|]. intros [?|[-> ?]]; [done|congruence]. }
    destruct (IH rb (<[port:=(count - 1)%nat]> leaks) Hm' Hnd) as (rb' & leaks' & -> & Hm'' & Hh & Hl).
    { intros p Hp. rewrite Hrb. intros [?|[-> _]]; [|done]. apply (Hfresh p); [set_solver|done]. }
    eexists _, _. split; [done|]. split; [done|]. split; intros p.
    + rewrite Hh Hrb elem_of_cons. destruct (decide (p = port)) as [->|Hp].
      * rewrite lookup_insert_eq. naive_solver.
      * rewrite lookup_insert_ne //. naive_solver.
    + rewrite Hl. destruct (decide (p = port)) as [->|Hp].
      * rewrite lookup_insert_eq decide_False // decide_True //. by left.
      * rewrite lookup_insert_ne //. apply decide_ext. rewrite elem_of_cons. naive_solver.
  - destruct (IH rebuilt leaks Hm Hnd) as (rb' & leaks' & -> & Hm'' & Hh & Hl).
    { intros p Hp. apply Hfresh. set_solver. }
    assert (leaks !! port = Some 0%nat) as H0.
    { unfold leak_count in Hc. destruct (leaks !! port) as [[|c]|]; simpl in Hc; done. }
    eexists _, _. split; [done|]. split; [done|]. split; intros p.
    + rewrite Hh elem_of_cons. destruct (decide (p = port)) as [->|Hp]; naive_solver.
    + rewrite Hl. destruct (decide (p = port)) as [->|Hp].
      * rewrite decide_False // decide_True; [by left|]. by rewrite H0.
      * apply decide_ext. rewrite elem_of_cons. naive_solver.
Qed.

(** ** A pass *)

(** What is held after a pass: the ports in use, and those nobody uses whose
    count has not expired. *)
Definition held_after (pr : PortRange) (services : list Service) (H : gset Z) (leaks : gmap Z nat) : gset Z :=
  used pr services ∪
  filter (fun p => leaks !! p <> Some 0%nat /\ pr_contains pr p = true) (H ∖ used pr services).

(** The counts after a pass. *)
Definition leaks_after (pr : PortRange) (services : list Service) (H : gset Z) (leaks leaks' : gmap Z nat) : Prop :=
  forall p, leaks' !! p = if decide (p ∈ used pr services) then None
                          else if decide (p ∈ H) then leak_next (leaks !! p) else leaks !! p.

Section Passes.
Context `{!TextFormat}.

Lemma rebuild_spec pr pr0 leaks an r held services :
  pr_ok pr -> pr_ok pr0 -> get_loop (an_get an) 31 0 None = Ok r -> read_of pr r pr0 held ->
  an_list an = Ok services ->
  exists w leaks', rebuild (mkRepair pr leaks) an =
      Some (mkRepair pr leaks', findings pr held ∅ (ports_of_services services), Ok w) /\
    snapshot_of pr w (held_after pr services held leaks) /\ ra_resource_version w = ra_resource_version r /\
    leaks_after pr services held leaks leaks'.
Proof.
  intros Hok Hok0 Hget Hread Hlist. unfold rebuild. rewrite Hget Hlist. cbn [rp_range rp_leaks].
  assert (0 <= pr_base pr /\ 0 <= pr_size pr) as [Hb Hn] by (split; apply Hok).
  apply read_of_snapshot in Hread; [|done..]. set (r' := if decide _ then _ else _) in Hread |- *.
  assert (ra_resource_version r' = ra_resource_version r) as Hrv by (subst r'; by case_decide).
  destruct (from_snapshot_spec pr0 r' held Hok0 Hread) as (stored & -> & Hst & HH). cbn [mbind option_bind].
  destruct (process_services_spec pr pr0 held leaks services ∅ (mkPass (new_in_memory pr) stored leaks []))
    as (s & -> & [[Hr HU] [Hs HS] HL] & Hev).
  { split; cbn; [split; [by apply new_in_memory_inv|apply new_in_memory_held]|split; [done|set_solver]|done]. }
  cbn [mbind option_bind]. rewrite union_empty_r_L in HU HS HL.
  destruct (mem_allocated _ _ Hs) as [Hnd Hal].
  destruct (leak_loop_spec pr (pa_allocated (ps_stored s)) (ps_rebuilt s) (ps_leaks s) Hr Hnd)
    as (rb & leaks' & -> & Hrb & Hh & Hl).
  { intros p. rewrite Hal HS HU. set_solver. }
  cbn [mbind option_bind]. destruct (pa_snapshot_of pr rb r' Hrb) as (w & -> & Hw & Hwv).
  exists w, leaks'. rewrite Hev. split; [done|]. rewrite Hwv Hrv. split; [|split; [done|]].
  - replace (held_after pr services held leaks) with (pa_held rb); [done|]. apply set_eq. intros p.
    rewrite Hh HU Hal HS HL. unfold held_after. rewrite elem_of_union elem_of_filter elem_of_difference.
    destruct (decide (p ∈ used pr services)); naive_solver.
  - intros p. rewrite Hl HL. destruct (decide (p ∈ used pr services)) as [Hp|Hp].
    + rewrite decide_False //. rewrite Hal HS. set_solver.
    + apply decide_ext. rewrite Hal HS. set_solver.
Qed.

End Passes.

(** ** Passes on a storage *)

Section Store.
Context `{!TextFormat} {St : Type} `{!RangeStore St}.
Implicit Types (s : St) (a : Etcd St).

(** What a pass over the range [pr] reads: [held] of the range [pr0] (which
    another configuration may have left), or nothing yet. *)
Definition reads (pr : PortRange) s (pr0 : PortRange) (held : gset Z) : Prop :=
  match rs_get s with
  | Some e => read_of pr e pr0 held
  | None => pr0 = pr /\ held = ∅
  end.

Definition stored_is (pr : PortRange) s (held : gset Z) : Prop :=
  exists e, rs_get s = Some e /\ snapshot_of pr e held.

Lemma reads_read_of pr s pr0 held : reads pr s pr0 held -> read_of pr (registry_get s) pr0 held.
Proof.
  unfold reads, registry_get, stored. destruct (rs_get s) as [e|]; [done|]. intros [-> ->]. by right.
Qed.

Lemma create_or_update_ok resource s st snap :
  bm_range_spec (st_alloc st) = ra_range snap ->
  rs_get s = None \/ (exists e, rs_get s = Some e /\ ra_resource_version e = ra_resource_version snap) ->
  exists s' st' e, create_or_update resource s st snap = (s', st', Ok tt) /\ rs_get s' = Some e /\
    ra_range e = ra_range snap /\ ra_data e = ra_data snap /\
    bm_range_spec (st_alloc st') = bm_range_spec (st_alloc st).
Proof.
  intros Hr Hs. unfold create_or_update, stored, restore. rewrite Hr decide_True //.
  destruct Hs as [Hs|(e & Hs & Hv)]; rewrite Hs.
  - destruct (rs_create_ok s (mkRangeAllocation "RangeAllocation" "v1" None (ra_range snap) (ra_data snap)) Hs)
      as (s' & rv & -> & Hg & _). by eexists _, _, _.
  - destruct (rs_get_version s e Hs) as (rv & Hrv & Hne & _). rewrite -Hv Hrv. simpl.
    rewrite decide_False; [naive_solver|]. rewrite decide_False; [naive_solver|].
    destruct (rs_update_ok s snap e Hs) as (s' & rv' & -> & Hg & _); [right; congruence|]. by eexists _, _, _.
Qed.

(** The bitmap of a server is one of the range. *)
Definition serves (pr : PortRange) a : Prop := bm_range_spec (st_alloc (et_state a)) = pr_to_string pr.

Lemma pass_on_store_spec pr pr0 s0 services a leaks held :
  pr_ok pr -> pr_ok pr0 -> serves pr a -> reads pr s0 pr0 held ->
  exists a' leaks' r, pass_on_store s0 services a (mkRepair pr leaks) =
      Some (a', mkRepair pr leaks', findings pr held ∅ (ports_of_services services), r) /\
    serves pr a' /\ leaks_after pr services held leaks leaks' /\
    if decide (rs_get (et_store a) = None \/ version (et_store a) = version s0) then
      r = Ok tt /\ stored_is pr (et_store a') (held_after pr services held leaks)
    else (exists msg, r = Err (EConflict msg)) /\ a' = a.
Proof.
  intros Hok Hok0 Hsv Hread%reads_read_of. unfold pass_on_store. cbn [an_get an_list an_put].
  set (an := mkAnswers _ _ _).
  destruct (rebuild_spec pr pr0 leaks an (registry_get s0) held services) as (w & leaks' & -> & Hw & Hv & Hl);
    [done|done|done|done|done|]. cbn [mbind option_bind].
  pose proof Hw as (pa & Hm & Hwr & Hwd & Hwh).
  assert (version s0 = ra_resource_version w) as Hvs.
  { rewrite Hv. unfold version, registry_get, stored. by destruct (rs_get s0). }
  assert (bm_range_spec (st_alloc (et_state a)) = ra_range w) as Hspec by (rewrite Hwr; exact Hsv).
  destruct (decide _) as [Hs|Hs].
  - destruct (create_or_update_ok (et_resource a) (et_store a) (et_state a) w Hspec)
      as (s' & st' & e & -> & Hg & Her & Hed & Hsp).
    { destruct Hs as [Hs|Hs]; [by left|]. destruct (rs_get (et_store a)) as [e|] eqn:Hg; [|by left].
      right. exists e. split; [done|]. rewrite -Hvs -Hs /version Hg //. }
    eexists _, _, _. split; [done|]. split; [|split; [done|split; [done|]]].
    + unfold serves in *. cbn. congruence.
    + exists e. split; [done|]. exists pa. split_and!; congruence.
  - pose proof (create_or_update_compares (et_resource a) (et_store a) (et_state a) w Hspec) as Hc.
    destruct (create_or_update _ _ _ _) as [[s' st'] r]. destruct (rs_get (et_store a)) as [e|] eqn:Hg; [|tauto].
    rewrite decide_False in Hc; [|destruct Hc as (msg & -> & -> & ->)].
    { intros He. apply Hs. right. by rewrite Hvs He /version Hg. }
    destruct a as [s st res]. eexists _, _, _. split; [done|]. split; [done|]. split; [done|]. split; [by eexists|done].
Qed.

(** C17: a repair pass rebuilds and reports exactly: its events are, in the order
    of the services' ports, one for each port out of the range, each port that an
    earlier one of the services' ports repeats, and each port that was not held,
    and there is none only when the ports are distinct, in the range and held; it
    stores the ports of the range that the services use and those nobody uses
    whose count has not expired; every count goes on; and when another server
    wrote after the pass read its snapshot, it answers a conflict and overwrites
    nothing. *)
Theorem repair_pass_exact pr pr0 s0 services a leaks held :
  pr_ok pr -> pr_ok pr0 -> serves pr a -> reads pr s0 pr0 held ->
  exists a' leaks' events r, pass_on_store s0 services a (mkRepair pr leaks) = Some (a', mkRepair pr leaks', events, r) /\
    events = findings pr held ∅ (ports_of_services services) /\
    (events = [] <-> NoDup (ports_of_services services).*2 /\
       forall port, port ∈ (ports_of_services services).*2 -> pr_contains pr port = true /\ port ∈ held) /\
    leaks_after pr services held leaks leaks' /\
    if decide (rs_get (et_store a) = None \/ version (et_store a) = version s0) then
      r = Ok tt /\ stored_is pr (et_store a') (held_after pr services held leaks)
    else (exists msg, r = Err (EConflict msg)) /\ a' = a.
Proof.
  intros H1 H2 H3 H4. destruct (pass_on_store_spec pr pr0 s0 services a leaks held H1 H2 H3 H4)
    as (a' & leaks' & r & ? & _ & ? & ?). eexists a', leaks', _, r. split; [done|]. split; [done|]. split; [|done].
  rewrite findings_nil. apply and_iff_compat_l. split; intros Hall port Hin; destruct (Hall port Hin) as [? Hp].
  - split; [done|apply Hp].
  - split; [done|]. split; [done|]. apply not_elem_of_empty.
Qed.

(** ** Passes in a row *)

Lemma pr_to_string_nonempty pr : 0 <= pr_base pr -> 0 < pr_size pr -> pr_to_string pr <> "".
Proof.
  intros Hb Hn. unfold pr_to_string. rewrite decide_False; [lia|].
  destruct (pretty_nonneg (pr_base pr) Hb) as (c & d & -> & _). done.
Qed.

Lemma stored_reads pr s held : pr_ok pr -> 0 < pr_size pr -> stored_is pr s held -> reads pr s pr held.
Proof.
  intros Hok Hn (e & He & Hs). unfold reads. rewrite He. left. split; [done|].
  destruct Hs as (pa & _ & -> & _). apply pr_to_string_nonempty; [apply Hok|done].
Qed.

(** The ports held and the counts after a pass that nobody interrupts. *)
Lemma passes_S pr pr0 services a leaks held :
  pr_ok pr -> 0 < pr_size pr -> pr_ok pr0 -> serves pr a -> reads pr (et_store a) pr0 held ->
  exists a' leaks',
    (forall n, passes (S n) services a (mkRepair pr leaks) = passes n services a' (mkRepair pr leaks')) /\
    serves pr a' /\ stored_is pr (et_store a') (held_after pr services held leaks) /\
    leaks_after pr services held leaks leaks'.
Proof.
  intros Hok Hn Hok0 Hsv Hr.
  destruct (pass_on_store_spec pr pr0 (et_store a) services a leaks held Hok Hok0 Hsv Hr)
    as (a' & leaks' & r & Hp & Hsv' & Hl & Hd).
  rewrite decide_True in Hd; [by right|]. destruct Hd as [-> Hd].
  exists a', leaks'. split; [|done]. intros n. cbn [passes]. by rewrite Hp.
Qed.

Lemma held_after_leaked pr services held leaks p :
  p ∉ used pr services -> p ∈ held_after pr services held leaks <->
  p ∈ held /\ leaks !! p <> Some 0%nat /\ pr_contains pr p = true.
Proof. intros Hp. unfold held_after. rewrite elem_of_union elem_of_filter elem_of_difference. tauto. Qed.

Lemma held_after_used pr services held leaks : used pr services ⊆ held_after pr services held leaks.
Proof. unfold held_after. set_solver. Qed.

Lemma used_in_range pr services p : p ∈ used pr services -> pr_contains pr p = true.
Proof. unfold used. rewrite elem_of_filter. tauto. Qed.

(** An expired count stays so until the port is used. *)
Lemma expired_stays pr services held l l' p :
  leaks_after pr services held l l' -> p ∉ used pr services -> l !! p = Some 0%nat -> l' !! p = Some 0%nat.
Proof. intros Hl Hp H0. rewrite Hl decide_False // H0. by case_decide. Qed.

(** A port that a pass drops has expired. *)
Lemma dropped_expired pr services held leaks p :
  p ∉ used pr services -> p ∈ held -> pr_contains pr p = true -> p ∉ held_after pr services held leaks ->
  leaks !! p = Some 0%nat.
Proof.
  intros Hp Hin Hpr Hn. destruct (decide (leaks !! p = Some 0%nat)) as [|Hne]; [done|].
  exfalso. apply Hn. by apply held_after_leaked.
Qed.

(** Three passes: what the second and the third leave. *)
Lemma three_passes pr pr0 services a leaks held :
  pr_ok pr -> 0 < pr_size pr -> pr_ok pr0 -> serves pr a -> reads pr (et_store a) pr0 held ->
  (forall p c, leaks !! p = Some c -> (c <= 1)%nat) ->
  exists a2 leaks2 held2 a3 leaks3,
    passes 2 services a (mkRepair pr leaks) = Some (a2, mkRepair pr leaks2) /\
    stored_is pr (et_store a2) held2 /\
    (forall p, p ∈ held -> pr_contains pr p = true -> leaks !! p = None -> p ∈ held2) /\
    passes 3 services a (mkRepair pr leaks) = Some (a3, mkRepair pr leaks3) /\
    stored_is pr (et_store a3) (used pr services) /\ serves pr a3 /\
    (forall p, p ∈ held -> p ∉ used pr services -> pr_contains pr p = true -> leaks3 !! p = Some 0%nat).
Proof.
  intros Hok Hn Hok0 Hsv Hr Hc.
  destruct (passes_S pr pr0 services a leaks held Hok Hn Hok0 Hsv Hr) as (a1 & l1 & E1 & Hsv1 & Hs1 & Hl1).
  pose proof (stored_reads _ _ _ Hok Hn Hs1) as Hr1.
  destruct (passes_S pr pr services a1 l1 _ Hok Hn Hok Hsv1 Hr1) as (a2 & l2 & E2 & Hsv2 & Hs2 & Hl2).
  pose proof (stored_reads _ _ _ Hok Hn Hs2) as Hr2.
  destruct (passes_S pr pr services a2 l2 _ Hok Hn Hok Hsv2 Hr2) as (a3 & l3 & E3 & Hsv3 & Hs3 & Hl3).
  set (h1 := held_after pr services held leaks) in *. set (h2 := held_after pr services h1 l1) in *.
  set (h3 := held_after pr services h2 l2) in *.
  exists a2, l2, h2, a3, l3. split; [by rewrite E1 E2|]. split; [done|].
  (* a count of at most 1 is used up by the second pass *)
  assert (forall p, p ∉ used pr services -> p ∈ h1 -> l1 !! p <> None /\ forall c, l1 !! p = Some c -> (c <= 1)%nat) as Hc1.
  { intros p Hp Hh. apply held_after_leaked in Hh as (Hin & Hne & _); [|done].
    rewrite Hl1 decide_False // decide_True //. destruct (leaks !! p) as [c|] eqn:E; simpl; [|split; [done|]; intros ? [= <-]; lia].
    apply Hc in E. destruct c as [|c]; [done|]. split; [done|]. intros ? [= <-]. lia. }
  assert (forall p, p ∉ used pr services -> p ∈ h2 -> l2 !! p = Some 0%nat) as Hc2.
  { intros p Hp Hh. apply held_after_leaked in Hh as (Hin & Hne & _); [|done].
    destruct (Hc1 p Hp Hin) as [Hs Hle]. rewrite Hl2 decide_False // decide_True //.
    destruct (l1 !! p) as [c|]; [|done]. specialize (Hle _ eq_refl). destruct c as [|[|c]]; [done|done|lia]. }
  assert (h3 = used pr services) as Hh3.
  { apply set_eq. intros p. split; [|apply held_after_used]. destruct (decide (p ∈ used pr services)) as [|Hp]; [done|].
    intros (Hin & Hne & _)%held_after_leaked; [|done]. by apply Hc2 in Hin. }
  split; [|split; [by rewrite E1 E2 E3|split; [by rewrite -Hh3|split; [done|]]]].
  - intros p Hin Hpr Hnone. destruct (decide (p ∈ used pr services)) as [Hu|Hu]; [by apply held_after_used|].
    assert (p ∈ h1) as Hp1 by (apply held_after_leaked; [done|]; rewrite Hnone; done).
    apply held_after_leaked; [done|]. split; [done|]. split; [|done].
    rewrite Hl1 decide_False // decide_True // Hnone. done.
  - intros p Hin Hu Hpr. apply (expired_stays _ _ _ _ _ _ Hl3 Hu).
    destruct (decide (p ∈ h2)) as [H2|H2]; [by apply Hc2|]. apply (expired_stays _ _ _ _ _ _ Hl2 Hu).
    destruct (decide (p ∈ h1)) as [H1|H1]; [by eapply dropped_expired|].
    apply (expired_stays _ _ _ _ _ _ Hl1 Hu). by eapply dropped_expired.
Qed.

(** C38: leaks are cleaned up: when a pass runs three times in a row and the
    services do not change, the ports stored are then exactly those of the range
    that the services use, and a port that was not counted before is still kept
    after the second pass. *)
Theorem repair_frees_leaks pr pr0 services a leaks held :
  pr_ok pr -> 0 < pr_size pr -> pr_ok pr0 -> serves pr a -> reads pr (et_store a) pr0 held ->
  (forall p c, leaks !! p = Some c -> (c <= 1)%nat) ->
  exists a2 rp2 held2 a3 rp3,
    passes 2 services a (mkRepair pr leaks) = Some (a2, rp2) /\ stored_is pr (et_store a2) held2 /\
    (forall p, p ∈ held -> pr_contains pr p = true -> leaks !! p = None -> p ∈ held2) /\
    passes 3 services a (mkRepair pr leaks) = Some (a3, rp3) /\ stored_is pr (et_store a3) (used pr services).
Proof.
  intros H1 H2 H3 H4 H5 H6.
  destruct (three_passes pr pr0 services a leaks held H1 H2 H3 H4 H5 H6)
    as (a2 & l2 & h2 & a3 & l3 & P2 & S2 & K2 & P3 & S3 & _ & _). by exists a2, (mkRepair pr l2), h2, a3, (mkRepair pr l3).
Qed.

(** The grace of three passes is given once: a port that leaked and was
    cleaned up, and that a request then allocates again, is freed by the very
    next pass if its service is not stored yet; the port can then be handed out a
    second time. *)
Theorem repair_second_leak_freed_at_once pr pr0 services a held port :
  pr_ok pr -> 0 < pr_size pr -> pr_ok pr0 -> serves pr a -> reads pr (et_store a) pr0 held ->
  port ∈ held -> port ∉ used pr services -> pr_contains pr port = true ->
  exists a3 rp3, passes 3 services a (mkRepair pr ∅) = Some (a3, rp3) /\
    forall s held', stored_is pr s held' -> port ∈ held' ->
    exists a4 rp4 held4, passes 1 services (mkEtcd s (et_state a3) (et_resource a3)) rp3 = Some (a4, rp4) /\
      stored_is pr (et_store a4) held4 /\ port ∉ held4.
Proof.
  intros Hok Hn Hok0 Hsv Hr Hin Hu Hpr.
  destruct (three_passes pr pr0 services a ∅ held Hok Hn Hok0 Hsv Hr)
    as (a2 & l2 & h2 & a3 & l3 & _ & _ & _ & P3 & _ & Hsv3 & Hl3); [intros p c; by rewrite lookup_empty|].
  exists a3, (mkRepair pr l3). split; [done|]. intros s held' Hs Hp.
  destruct (passes_S pr pr services (mkEtcd s (et_state a3) (et_resource a3)) l3 held' Hok Hn Hok Hsv3
    (stored_reads _ _ _ Hok Hn Hs)) as (a4 & l4 & E4 & _ & Hs4 & _).
  eexists _, _, _. split; [apply (E4 0%nat)|]. split; [exact Hs4|].
  intros (_ & Hne & _)%held_after_leaked; [|done]. by rewrite Hl3 in Hne.
Qed.

End Store.

(** ** Conflicts *)

(** Conflicts use the grace up: the attempts of one run share the counts,
    so a run whose first two writes meet a conflict frees in its third attempt a
    port that was not counted before. *)
Theorem repair_conflicts_hasten `{!TextFormat} pr an r held services port msg0 msg1 :
  pr_ok pr -> (forall n, get_loop (an_get (an n)) 31 0 None = Ok (r n)) ->
  (forall n, read_of pr (r n) pr (held n)) -> (forall n, an_list (an n) = Ok (services n)) ->
  (forall n, port ∈ held n) -> (forall n, port ∉ used pr (services n)) ->
  (forall w, an_put (an 0%nat) w = Err (EConflict msg0)) -> (forall w, an_put (an 1%nat) w = Err (EConflict msg1)) ->
  (forall w, an_put (an 2%nat) w = Ok tt) ->
  exists leaks events w held', run_once (mkRepair pr ∅) an = Some (mkRepair pr leaks, events, put_result (an_put (an 2%nat) w)) /\
    snapshot_of pr w held' /\ port ∉ held'.
Proof.
  intros Hok Hg Hr Hl Hin Hu P0 P1 P2.
  destruct (rebuild_spec pr pr ∅ (an 0%nat) _ _ _ Hok Hok (Hg _) (Hr _) (Hl _)) as (w0 & l0 & R0 & _ & _ & L0).
  destruct (rebuild_spec pr pr l0 (an 1%nat) _ _ _ Hok Hok (Hg _) (Hr _) (Hl _)) as (w1 & l1 & R1 & _ & _ & L1).
  destruct (rebuild_spec pr pr l1 (an 2%nat) _ _ _ Hok Hok (Hg _) (Hr _) (Hl _)) as (w2 & l2 & R2 & S2 & _ & L2).
  unfold run_once. cbn [run_once_loop]. unfold do_run_once. rewrite R0 /= P0 /= R1 /= P1 /= R2 /= P2 /=.
  eexists _, _, w2, _. split; [by rewrite P2|]. split; [exact S2|]. intros (_ & Hne & _)%held_after_leaked; [|done].
  apply Hne. rewrite L1 decide_False // decide_True // L0 decide_False // decide_True //.
Qed.

(** Witnesses: ports 30003 and 30070 are held, a service uses 30003. *)
#[local] Instance plain_text : TextFormat := Build_TextFormat (fun s => s) (fun s => s).

Definition demo_range : PortRange := mkPortRange 30000 200.

Definition node_port_service (name : string) (port : Z) : Service :=
  mkService (mkServiceMeta name (Some "default") "uid" None)
    (set_service_type (set_ports spec_default [mkServicePort None 80 None "TCP" (Some port) None])
       (Some TNodePort)) None.

Definition demo_services : list Service := [node_port_service "web" 30003].

Lemma demo_mem_inv : mem_inv demo_range (mkPortAllocator demo_range demo_bitmap (fun _ => (0, 0)%nat)).
Proof. apply mem_of_bitmap; [done|done|exact demo_bitmap_inv|done..]. Qed.

Lemma demo_reads : reads demo_range demo_cell demo_range {[30003; 30070]}.
Proof.
  unfold reads. cbn [rs_get cell_store]. left. split; [|done].
  eexists. split; [exact demo_mem_inv|]. split; [reflexivity|]. split; [reflexivity|]. vm_compute. reflexivity.
Qed.

Lemma demo_range_ok : pr_ok demo_range.
Proof. unfold pr_ok. simpl. lia. Qed.

Definition demo_etcd : Etcd Cell := mkEtcd demo_cell (sv_state demo_server) demo_res.

Lemma demo_serves : serves demo_range demo_etcd.
Proof. reflexivity. Qed.

(** 30070 is not in use, and stays for now; of the other services, one repeats
    30003, one uses a port that is not held, and one a port out of the range. *)
Definition damaged_services : list Service :=
  [node_port_service "web" 30003; node_port_service "db" 30003; node_port_service "api" 30100;
   node_port_service "edge" 40000].

Lemma repair_pass_exact_witness :
  exists a' rp' events, pass_on_store demo_cell damaged_services demo_etcd (mkRepair demo_range ∅) = Some (a', rp', events, Ok tt) /\
    (fun e => (or_name (re_involved e), re_reason e)) <$> events =
      [(Some "db", "PortAlreadyAllocated"); (Some "api", "PortNotAllocated"); (Some "edge", "PortOutOfRange")] /\
    stored_is demo_range (et_store a') {[30003; 30070; 30100]}.
Proof.
  destruct (repair_pass_exact demo_range demo_range demo_cell damaged_services demo_etcd ∅ {[30003; 30070]}
    demo_range_ok demo_range_ok demo_serves demo_reads) as (a' & l' & ev & r & Hp & He & _ & _ & Hd).
  case_decide as Hc; [|exfalso; apply Hc; by right]. destruct Hd as [-> Hd].
  exists a', (mkRepair demo_range l'), ev. split; [exact Hp|]. split; [rewrite He; vm_compute; reflexivity|].
  replace ({[30003; 30070; 30100]} : gset Z) with (held_after demo_range damaged_services {[30003; 30070]} ∅); [done|].
  vm_compute. reflexivity.
Defined.

(** Two passes later it is gone. *)
Lemma repair_frees_leaks_witness :
  exists a3 rp3, passes 3 demo_services demo_etcd (mkRepair demo_range ∅) = Some (a3, rp3) /\
    stored_is demo_range (et_store a3) {[30003]}.
Proof.
  destruct (repair_frees_leaks demo_range demo_range demo_services demo_etcd ∅ {[30003; 30070]}
    demo_range_ok eq_refl demo_range_ok demo_serves demo_reads) as (_ & _ & _ & a3 & rp3 & _ & _ & _ & H3 & S3).
  { intros p c. by rewrite lookup_empty. }
  exists a3, rp3. split; [exact H3|].
  replace ({[30003]} : gset Z) with (used demo_range demo_services); [done|]. vm_compute. reflexivity.
Defined.

(** Allocated again, it goes in one. *)
Lemma repair_second_leak_freed_at_once_witness :
  exists a3 rp3 a4 rp4 held4, passes 3 demo_services demo_etcd (mkRepair demo_range ∅) = Some (a3, rp3) /\
    passes 1 demo_services (mkEtcd demo_cell (et_state a3) (et_resource a3)) rp3 = Some (a4, rp4) /\
    stored_is demo_range (et_store a4) held4 /\ 30070 ∉ held4.
Proof.
  destruct (repair_second_leak_freed_at_once demo_range demo_range demo_services demo_etcd {[30003; 30070]} 30070
    demo_range_ok eq_refl demo_range_ok demo_serves demo_reads) as (a3 & rp3 & H3 & Hnext).
  { by apply (bool_decide_unpack _). }
  { by apply (bool_decide_unpack _). }
  { reflexivity. }
  destruct (Hnext demo_cell {[30003; 30070]}) as (a4 & rp4 & held4 & H4 & S4 & N4).
  { eexists. split; [reflexivity|]. eexists. split; [exact demo_mem_inv|]. split; [reflexivity|].
    split; [reflexivity|]. vm_compute. reflexivity. }
  { by apply (bool_decide_unpack _). }
  exists a3, rp3, a4, rp4, held4. split; [exact H3|]. split; [exact H4|]. split; [exact S4|exact N4].
Defined.

(** Two conflicts, and it goes in one run. *)
Definition demo_answers (n : nat) : Answers :=
  mkAnswers (fun _ => Ok (registry_get demo_cell)) (Ok demo_services)
    (fun _ => if decide (n < 2)%nat then Err (EConflict "modified") else Ok tt).

Lemma repair_conflicts_hasten_witness :
  exists leaks events w held', run_once (mkRepair demo_range ∅) demo_answers = Some (mkRepair demo_range leaks, events, put_result (an_put (demo_answers 2%nat) w)) /\
    snapshot_of demo_range w held' /\ 30070 ∉ held'.
Proof.
  apply (repair_conflicts_hasten demo_range demo_answers (fun _ => registry_get demo_cell)
    (fun _ => {[30003; 30070]}) (fun _ => demo_services) 30070 "modified" "modified").
  - exact demo_range_ok.
  - reflexivity.
  - intros _. apply reads_read_of. exact demo_reads.
  - reflexivity.
  - intros _. by apply (bool_decide_unpack _).
  - intros _. by apply (bool_decide_unpack _).
  - reflexivity.
  - reflexivity.
  - reflexivity.
Defined.
