(* ===== verification/ServicePorts.v ===== *)
(** * The node ports of a service

    Model of the node-port half of
    [crates/api-server/src/registry/core/service/alloc.rs]: how a create or an
    update of a service claims node ports through a [PortAllocationOperation],
    and how a delete gives them back.

    - A handler takes the allocator and the service ([&mut]) and returns both
      with its answer; the loops run over the indices of the ports.
    - [None] is a panic of the allocator. *)

From stdpp Require Import strings pretty.
From S2P Require Import Prelude RustText BTree Json FieldErrors AllocBitmap RangeAllocator AllocInterface PortAllocator PortOperation ServiceTypes.

Local Open Scope Z_scope.

(** The errors of the handlers: [Error::new_invalid] with its arguments, and
    [Error::Internal]. *)
Inductive RegistryError :=
| RegInvalid (group kind name : string) (errs : list FieldError)
| RegInternal (msg : string).

Definition internal_error (msg : string) : RegistryError := RegInternal ("Internal error occurred: " +:+ msg).

Definition invalid_service (service : Service) (errs : list FieldError) : RegistryError :=
  RegInvalid "" "Service" (sm_name (svc_metadata service)) errs.

Definition is_node_port_type (t : option ServiceType) : bool :=
  match t with Some TNodePort | Some TLoadBalancer => true | _ => false end.

Definition is_type (svc : Service) (t : ServiceType) : bool :=
  bool_decide (ss_service_type (svc_spec svc) = Some t).

Definition needs_health_check (service : Service) : bool :=
  match ss_service_type (svc_spec service), ss_external_traffic_policy (svc_spec service) with
  | Some TLoadBalancer, Some EtpLocal => true
  | _, _ => false
  end.

Definition should_allocate_node_ports (service : Service) : bool :=
  match ss_service_type (svc_spec service) with
  | Some TNodePort => true
  | Some TLoadBalancer => default true (ss_allocate_load_balancer_node_ports (svc_spec service))
  | _ => false
  end.

Definition node_port (p : option Z) : Z := default 0 p.

(** The port asked for by the first entry of the same [port] that names one. *)
Definition find_requested_node_port (port : Z) (service : Service) : Z :=
  match List.find (fun p => bool_decide (sp_port p = port) && negb (bool_decide (node_port (sp_node_port p) = 0)))
          (ss_ports (svc_spec service)) with
  | Some p => node_port (sp_node_port p)
  | None => 0
  end.

Definition collect_service_node_ports (service : Service) : list Z :=
  filter (fun p => p <> 0) ((fun p => node_port (sp_node_port p)) <$> ss_ports (svc_spec service)).

Definition node_port_path (i : nat) : Path := child (index (child (path_new "spec") "ports") i) "nodePort".

(** [usize as i64] *)
Definition as_i64 (n : Z) : Z := (n + 2 ^ 63) mod 2 ^ 64 - 2 ^ 63.

Definition invalid_node_port (service : Service) (i : nat) (value : Z) (err : PortError) : RegistryError :=
  invalid_service service [invalid (node_port_path i) (BvI64 (as_i64 value)) (port_error_text err)].

Definition with_ports (svc : Service) (l : list ServicePort) : Service :=
  with_spec svc (set_ports (svc_spec svc) l).

Definition set_node_port (service : Service) (i : nat) (port : Z) : Service :=
  with_ports service (alter (fun p => set_sp_node_port p (Some (as_u16 port))) i (ss_ports (svc_spec service))).

Definition set_health_check (service : Service) (port : Z) : Service :=
  with_spec service (set_health_check_node_port (svc_spec service) (Some port)).

(** [spec.health_check_node_port.unwrap_or(0)] *)
Definition hc_port (service : Service) : Z := default 0 (ss_health_check_node_port (svc_spec service)).

Section Handlers.
Context {A : Type} `{!Interface A}.
Abbreviation PA := (PortAllocator A).
Abbreviation Op := PortAllocationOperation.

(** ** Create *)

(** One turn of the loop of [init_node_ports], and the loop. *)
Definition init_node_port (pa : PA) (op : Op) (service : Service) (svc_port_to_node_port : gmap Z Z) (i : nat)
    : option (PA * Op * Service * gmap Z Z * result unit RegistryError) :=
  p ← ss_ports (svc_spec service) !! i;
  let port := sp_port p in
  let requested := node_port (sp_node_port p) in
  if bool_decide (requested = 0) && negb (should_allocate_node_ports service) then
    Some (pa, op, service, svc_port_to_node_port, Ok tt)
  else
    let allocated := default 0 (svc_port_to_node_port !! port) in
    if decide (allocated = 0) then
      let np := find_requested_node_port port service in
      if negb (bool_decide (np = 0)) then
        '(pa, op, r) ← op_allocate pa op np;
        match r with
        | Ok _ => Some (pa, op, set_node_port service i np, <[port := np]> svc_port_to_node_port, Ok tt)
        | Err e => Some (pa, op, service, svc_port_to_node_port, Err (invalid_node_port service i np e))
        end
      else
        '(pa, op, r) ← op_allocate_next pa op;
        match r with
        | Ok np => Some (pa, op, set_node_port service i np, <[port := np]> svc_port_to_node_port, Ok tt)
        | Err e => Some (pa, op, service, svc_port_to_node_port,
                     Err (internal_error ("failed to allocate a nodePort: " +:+ port_error_text e)))
        end
    else if negb (bool_decide (requested = allocated)) then
      if decide (requested = 0) then
        Some (pa, op, set_node_port service i allocated, svc_port_to_node_port, Ok tt)
      else
        '(pa, op, r) ← op_allocate pa op requested;
        match r with
        | Ok _ => Some (pa, op, service, svc_port_to_node_port, Ok tt)
        | Err e => Some (pa, op, service, svc_port_to_node_port, Err (invalid_node_port service i requested e))
        end
    else Some (pa, op, service, svc_port_to_node_port, Ok tt).

Fixpoint init_loop (pa : PA) (op : Op) (service : Service) (m : gmap Z Z) (l : list nat)
    : option (PA * Op * Service * result unit RegistryError) :=
  match l with
  | [] => Some (pa, op, service, Ok tt)
  | i :: l' =>
      '(pa, op, service, m, r) ← init_node_port pa op service m i;
      match r with
      | Ok _ => init_loop pa op service m l'
      | Err e => Some (pa, op, service, Err e)
      end
  end.

Definition init_node_ports (pa : PA) (op : Op) (service : Service)
    : option (PA * Op * Service * result unit RegistryError) :=
  init_loop pa op service ∅ (seq 0 (length (ss_ports (svc_spec service)))).

Definition alloc_health_check_node_port (pa : PA) (op : Op) (service : Service)
    : option (PA * Op * Service * result unit string) :=
  let requested := hc_port service in
  if negb (bool_decide (requested = 0)) then
    '(pa, op, r) ← op_allocate pa op (i32_as_usize requested);
    Some (pa, op, service, match r with
      | Ok _ => Ok tt
      | Err e => Err ("failed to allocate requested HealthCheck NodePort " +:+ pretty requested +:+ ": " +:+ port_error_text e)
      end)
  else
    '(pa, op, r) ← op_allocate_next pa op;
    match r with
    | Ok np => Some (pa, op, set_health_check service (as_i32 np), Ok tt)
    | Err e => Some (pa, op, service, Err ("failed to allocate a HealthCheck NodePort 0: " +:+ port_error_text e))
    end.

(** [finish] and return the error. *)
Definition fail_op (pa : PA) (op : Op) (service : Service) (e : RegistryError)
    : option (PA * Service * result Op RegistryError) :=
  pa ← finish pa op; Some (pa, service, Err e).

Definition txn_alloc_node_ports (pa : PA) (service : Service) (dry_run : bool)
    : option (PA * Service * result Op RegistryError) :=
  let op := op_start dry_run in
  '(pa, op, service, r) ← (if is_node_port_type (ss_service_type (svc_spec service))
                           then init_node_ports pa op service else Some (pa, op, service, Ok tt));
  match r with
  | Err e => fail_op pa op service e
  | Ok _ =>
      if needs_health_check service then
        '(pa, op, service, r) ← alloc_health_check_node_port pa op service;
        match r with
        | Err e => fail_op pa op service (internal_error e)
        | Ok _ => Some (pa, service, Ok op)
        end
      else Some (pa, service, Ok op)
  end.

(** ** Update *)

(** What the loop of [update_node_ports] has collected: the entries of
    [new_node_ports] and the ports allocated. *)
Definition update_node_port (old_numbers : list Z) (pa : PA) (op : Op) (service : Service)
    (new_node_ports : list (string * Z)) (port_allocated : gset Z) (i : nat)
    : option (PA * Op * Service * list (string * Z) * gset Z * result unit RegistryError) :=
  p ← ss_ports (svc_spec service) !! i;
  let np := node_port (sp_node_port p) in
  if bool_decide (np = 0) && negb (should_allocate_node_ports service) then
    Some (pa, op, service, new_node_ports, port_allocated, Ok tt)
  else
    '(pa, op, service, port_allocated, r) ←
      (if negb (bool_decide (np = 0)) then
         if negb (bool_decide (np ∈ old_numbers)) && negb (bool_decide (np ∈ port_allocated)) then
           '(pa, op, r) ← op_allocate pa op np;
           match r with
           | Ok _ => Some (pa, op, service, {[np]} ∪ port_allocated, Ok np)
           | Err e => Some (pa, op, service, port_allocated, Err (invalid_node_port service i np e))
           end
         else Some (pa, op, service, port_allocated, Ok np)
       else
         '(pa, op, r) ← op_allocate_next pa op;
         match r with
         | Ok np => Some (pa, op, set_node_port service i np, port_allocated, Ok np)
         | Err e => Some (pa, op, service, port_allocated,
                      Err (internal_error ("failed to allocate a nodePort: " +:+ port_error_text e)))
         end);
    match r with
    | Err e => Some (pa, op, service, new_node_ports, port_allocated, Err e)
    | Ok np =>
        let entry := (sp_protocol p, np) in
        if decide (entry ∈ new_node_ports) then
          Some (pa, op, service, new_node_ports, port_allocated,
            Err (internal_error ("duplicate nodePort: {" +:+ sp_protocol p +:+ " " +:+ pretty np +:+ "}")))
        else Some (pa, op, service, new_node_ports ++ [entry], port_allocated, Ok tt)
    end.

Fixpoint update_loop (old_numbers : list Z) (pa : PA) (op : Op) (service : Service)
    (new_node_ports : list (string * Z)) (port_allocated : gset Z) (l : list nat)
    : option (PA * Op * Service * result unit RegistryError) :=
  match l with
  | [] => Some (pa, op, service, Ok tt)
  | i :: l' =>
      '(pa, op, service, new_node_ports, port_allocated, r) ←
        update_node_port old_numbers pa op service new_node_ports port_allocated i;
      match r with
      | Ok _ => update_loop old_numbers pa op service new_node_ports port_allocated l'
      | Err e => Some (pa, op, service, Err e)
      end
  end.

(** The loop of [release_deferred] over the old ports that are gone. *)
Definition defer_gone (op : Op) (old_numbers new_numbers : list Z) : Op :=
  foldl defer_release op (filter (fun old => old ∉ new_numbers) old_numbers).

Definition update_node_ports (pa : PA) (op : Op) (service old_service : Service)
    : option (PA * Op * Service * result unit RegistryError) :=
  let old_numbers := collect_service_node_ports old_service in
  '(pa, op, service, r) ←
    update_loop old_numbers pa op service [] ∅ (seq 0 (length (ss_ports (svc_spec service))));
  match r with
  | Err e => Some (pa, op, service, Err e)
  | Ok _ => Some (pa, defer_gone op old_numbers (collect_service_node_ports service), service, Ok tt)
  end.

Definition update_health_check_node_port (pa : PA) (op : Op) (service old_service : Service)
    : option (PA * Op * Service * result unit RegistryError) :=
  let needed := needs_health_check old_service in
  let needs := needs_health_check service in
  if negb needed && needs then
    '(pa, op, service, r) ← alloc_health_check_node_port pa op service;
    Some (pa, op, service, match r with Ok _ => Ok tt | Err e => Err (internal_error e) end)
  else if needed && negb needs then
    Some (pa, defer_release op (i32_as_usize (hc_port old_service)), service, Ok tt)
  else Some (pa, op, service, Ok tt).

Definition txn_update_node_ports (pa : PA) (service old_service : Service) (dry_run : bool)
    : option (PA * Service * result Op RegistryError) :=
  let op := op_start dry_run in
  let gone := match ss_service_type (svc_spec service) with
              | Some TExternalName | Some TClusterIP => true | _ => false end in
  let op := if is_node_port_type (ss_service_type (svc_spec old_service)) && gone
            then foldl defer_release op (collect_service_node_ports old_service) else op in
  '(pa, op, service, r) ← (if is_node_port_type (ss_service_type (svc_spec service))
                           then update_node_ports pa op service old_service else Some (pa, op, service, Ok tt));
  match r with
  | Err e => fail_op pa op service e
  | Ok _ =>
      '(pa, op, service, r) ← update_health_check_node_port pa op service old_service;
      match r with
      | Err e => fail_op pa op service e
      | Ok _ => Some (pa, service, Ok op)
      end
  end.

(** ** Delete *)

(** A failed release is only logged. *)
Definition release_node_ports (pa : PA) (service : Service) : option PA :=
  '(pa, _) ← release_ports pa (collect_service_node_ports service);
  if needs_health_check service then
    let np := hc_port service in
    if decide (0 < np) then '(pa, _) ← pa_release pa (i32_as_usize np); Some pa else Some pa
  else Some pa.

End Handlers.
