(* ===== verification/ServicePortsProps.v ===== *)
(** * The node ports of a service: what a request does to the allocation

    A create or an update that succeeds holds exactly the ports of its service
    once the write is known; one that fails leaves no trace.  So the ports held
    are always those of the stored services, each held by one service. *)

From stdpp Require Import strings pretty.
From S2P Require Import Prelude RustText BTree Json FieldErrors AllocBitmap RangeAllocator AllocInterface PortAllocator PortOperation ServiceTypes ServicePorts.

Local Open Scope Z_scope.

(** A range of ports that fit a [u16], zero excepted. *)
Definition pr_good (pr : PortRange) : Prop := 0 < pr_base pr /\ 0 <= pr_size pr /\ pr_base pr + pr_size pr <= 65536.

Lemma good_port pr p : pr_good pr -> pr_contains pr p = true -> 0 < p < 65536.
Proof. intros (Hb & Hn & Hm). unfold pr_contains. intros [?%Z.leb_le ?%Z.ltb_lt]%andb_true_iff. lia. Qed.

Lemma as_u16_id p : 0 <= p < 65536 -> as_u16 p = p.
Proof. intros Hp. unfold as_u16. by apply Z.mod_small. Qed.

Lemma as_i32_id p : 0 <= p < 65536 -> as_i32 p = p.
Proof. intros Hp. unfold as_i32. rewrite Z.mod_small; lia. Qed.

Lemma i32_as_usize_id p : 0 <= p < 65536 -> i32_as_usize p = p.
Proof. intros Hp. unfold i32_as_usize. apply Z.mod_small. lia. Qed.

(** ** Calls of an operation in flight *)

Section Calls.
Context {A : Type} `{!Interface A, !Allocator A}.
Implicit Types (pa : PortAllocator A) (op : PortAllocationOperation).

(** An operation in flight over a range, [others] being held by others. *)
Definition op_ok (others : gset Z) (pr : PortRange) pa op : Prop :=
  txn_inv (mkTxn pa op others ∅) /\ op_dry_run op = false /\ pa_range pa = pr.

(** The ports of the operation. *)
Definition mine op : gset Z := list_to_set (op_allocated op).

Lemma op_ok_held others pr pa op : op_ok others pr pa op -> pa_held pa = others ∪ mine op /\ others ## mine op.
Proof.
  intros (Ht & Hd & _).
  pose proof (ti_mine _ Ht Hd) as Hm. simpl in Hm. unfold mine. split.
  - apply set_eq. intros p. rewrite elem_of_union elem_of_list_to_set. apply Hm, not_elem_of_empty.
  - apply elem_of_disjoint. intros p Hp. rewrite elem_of_list_to_set. by apply Hm; [apply not_elem_of_empty|].
Qed.

Lemma op_ok_start pr pa : pa_inv pa -> pa_range pa = pr -> op_ok (pa_held pa) pr pa (op_start false).
Proof. intros Hi Hr. split; [by apply txn_start_inv|done]. Qed.

Lemma op_ok_defer others pr pa op p : op_ok others pr pa op -> op_ok others pr pa (defer_release op p).
Proof. intros (Ht & Hd & Hr). split; [|done]. by eapply txn_step_inv; [|apply ts_defer]. Qed.

(** What a call that takes a port does. *)
Definition took others pr pa op pa' op' (p : Z) : Prop :=
  op_ok others pr pa' op' /\ op_release_deferred op' = op_release_deferred op /\
  mine op' = {[p]} ∪ mine op /\ (p ∉ others) /\ (p ∉ mine op) /\ pr_contains pr p = true.

(** What a call that is refused does. *)
Definition refused others pr pa op pa' op' : Prop :=
  op_ok others pr pa' op' /\ op_release_deferred op' = op_release_deferred op /\ mine op' = mine op.

Lemma op_allocate_spec others pr pa op p :
  op_ok others pr pa op ->
  exists pa' op' r, op_allocate pa op p = Some (pa', op', r) /\
    match r with Ok _ => took others pr pa op pa' op' p | Err _ => refused others pr pa op pa' op' end.
Proof.
  intros Hok. pose proof Hok as (Ht & Hd & Hr). destruct (op_ok_held _ _ _ _ Hok) as [Hh _].
  destruct (pa_allocate_spec pa p (ti_pa _ Ht)) as (pa' & r & Hp & [Hi' Hr'] & Hres).
  assert (exists op', op_allocate pa op p = Some (pa', op', r) /\
    op' = if is_ok r then push_allocated op p else op) as (op' & Hop & ->).
  { unfold op_allocate. rewrite Hd Hp. destruct r as [[]|e]; eauto. }
  pose proof (txn_step_inv _ _ Ht (ts_allocate _ _ others ∅ _ _ _ _ Hop)) as Ht'.
  eexists _, _, _. split; [exact Hop|]. destruct r as [[]|e]; simpl in *.
  - destruct Hres as (Hc & Hn & _). split; [split; [done|split; [done|congruence]]|]. rewrite Hh in Hn.
    split; [done|]. split; [unfold mine; simpl; rewrite list_to_set_app_L; set_solver|].
    split; [set_solver|]. split; [set_solver|congruence].
  - split; [split; [done|split; [done|congruence]]|done].
Qed.

Lemma op_allocate_next_spec others pr pa op :
  op_ok others pr pa op ->
  exists pa' op' r, op_allocate_next pa op = Some (pa', op', r) /\
    match r with Ok p => took others pr pa op pa' op' p | Err _ => refused others pr pa op pa' op' end.
Proof.
  intros Hok. pose proof Hok as (Ht & Hd & Hr). destruct (op_ok_held _ _ _ _ Hok) as [Hh _].
  destruct (pa_allocate_next_spec pa (ti_pa _ Ht)) as (pa' & r & Hp & [Hi' Hr'] & Hres).
  assert (exists op', op_allocate_next pa op = Some (pa', op', r) /\
    op' = match r with Ok p => push_allocated op p | Err _ => op end) as (op' & Hop & ->).
  { unfold op_allocate_next. rewrite Hd Hp. destruct r as [p|e]; eauto. }
  pose proof (txn_step_inv _ _ Ht (ts_allocate_next _ _ others ∅ _ _ _ Hop)) as Ht'.
  eexists _, _, _. split; [exact Hop|]. destruct r as [p|e]; simpl in *.
  - destruct Hres as (Hc & Hn & _). split; [split; [done|split; [done|congruence]]|]. rewrite Hh in Hn.
    split; [done|]. split; [unfold mine; simpl; rewrite list_to_set_app_L; set_solver|].
    split; [set_solver|]. split; [set_solver|congruence].
  - split; [split; [done|split; [done|congruence]]|done].
Qed.

(** The end of an operation. *)
Lemma settle_ok `{!Reliable A} others pr pa op success :
  op_ok others pr pa op ->
  exists pa', settle pa op success = Some pa' /\ pa_inv pa' /\ pa_range pa' = pr /\
    pa_held pa' = if success then (others ∪ mine op) ∖ list_to_set (op_release_deferred op) else others.
Proof.
  intros (Ht & Hd & Hr). destruct (settle_spec (mkTxn pa op others ∅) success Ht) as (pa' & H & [Hi Hr'] & _ & _ & Hh).
  exists pa'. split; [done|]. split; [done|]. split; [by rewrite -Hr|].
  cbn [tx_foreign] in Hh. rewrite !difference_empty_L in Hh. rewrite Hh. unfold settled. by rewrite /= Hd.
Qed.

Lemma fail_op_ok `{!Reliable A} others pr pa op service e :
  op_ok others pr pa op ->
  exists pa', fail_op pa op service e = Some (pa', service, Err e) /\ pa_inv pa' /\ pa_range pa' = pr /\
    pa_held pa' = others.
Proof.
  intros Hok. destruct (settle_ok others pr pa op false Hok) as (pa' & H & Hi & Hr & Hh).
  unfold settle in H. cbn [mbind option_bind] in H. unfold fail_op. rewrite H. by exists pa'.
Qed.

End Calls.

(** ** The ports of a service *)

(** The ports of the first [n] entries, zero excepted. *)
Definition processed (l : list ServicePort) (n : nat) : gset Z :=
  list_to_set (filter (fun p => p <> 0) ((fun p => node_port (sp_node_port p)) <$> take n l)).

Definition nonzero (p : Z) : gset Z := if decide (p = 0) then ∅ else {[p]}.

Lemma processed_S l n p : l !! n = Some p ->
  processed l (S n) = processed l n ∪ nonzero (node_port (sp_node_port p)).
Proof.
  intros Hp. unfold processed. rewrite (take_S_r _ _ _ Hp) fmap_app filter_app list_to_set_app_L. f_equal.
  unfold nonzero. simpl. unfold filter. simpl.
  destruct (decide (node_port (sp_node_port p) = 0)) as [E|E]; case_decide; [done|done| |done].
  simpl. set_solver.
Qed.

Lemma processed_insert l n p : processed (<[n := p]> l) n = processed l n.
Proof. unfold processed. by rewrite take_insert_ge. Qed.

Lemma processed_all service : processed (ss_ports (svc_spec service)) (length (ss_ports (svc_spec service))) =
  list_to_set (collect_service_node_ports service).
Proof. unfold processed, collect_service_node_ports. by rewrite take_ge. Qed.

Lemma node_port_set p v : node_port (sp_node_port (set_sp_node_port p v)) = node_port v.
Proof. done. Qed.

(** What a request does to the entry of a port: it fills in the node port when
    none is asked for. *)
Definition filled (p p' : ServicePort) : Prop :=
  p' = p \/
  exists n, p' = set_sp_node_port p (Some n) /\ (node_port (sp_node_port p) = 0 \/ node_port (sp_node_port p) = n).

Lemma filled_refl p : filled p p.
Proof. by left. Qed.

Lemma filled_kept p p' : filled p p' -> node_port (sp_node_port p) <> 0 ->
  node_port (sp_node_port p') = node_port (sp_node_port p).
Proof. intros [->|(n & -> & [?|?])]; by simpl. Qed.

(** What a request does to the service: nothing but to fill in node ports. *)
Definition filled_service (svc svc' : Service) : Prop :=
  svc_metadata svc' = svc_metadata svc /\ svc_status svc' = svc_status svc /\
  set_health_check_node_port (set_ports (svc_spec svc') []) None =
    set_health_check_node_port (set_ports (svc_spec svc) []) None /\
  Forall2 filled (ss_ports (svc_spec svc)) (ss_ports (svc_spec svc')) /\
  (hc_port svc <> 0 -> hc_port svc' = hc_port svc).

(** The same, the health check port left alone too. *)
Definition ports_filled (svc svc' : Service) : Prop :=
  svc_metadata svc' = svc_metadata svc /\ svc_status svc' = svc_status svc /\
  set_ports (svc_spec svc') [] = set_ports (svc_spec svc) [] /\
  Forall2 filled (ss_ports (svc_spec svc)) (ss_ports (svc_spec svc')).

Lemma find_first {B} (f : B -> bool) l n x :
  l !! n = Some x -> f x = true -> (forall j y, (j < n)%nat -> l !! j = Some y -> f y = false) ->
  List.find f l = Some x.
Proof.
  revert n. induction l as [|y l IH]; intros n Hn Hf Hj; [done|]. simpl. destruct n as [|n].
  - injection Hn as ->. by rewrite Hf.
  - rewrite (Hj 0%nat y) //; [lia|]. apply (IH n); [done|done|]. intros j z Hlt Hz. apply (Hj (S j)); [lia|done].
Qed.

Lemma set_node_port_eq service i p port : ss_ports (svc_spec service) !! i = Some p ->
  set_node_port service i port =
  with_ports service (<[i := set_sp_node_port p (Some (as_u16 port))]> (ss_ports (svc_spec service))).
Proof.
  intros Hp. unfold set_node_port. f_equal. apply list_eq. intros j. destruct (decide (i = j)) as [->|Hj].
  - rewrite list_lookup_alter_eq Hp list_lookup_insert_eq //. by eapply lookup_lt_Some.
  - by rewrite list_lookup_alter_ne // list_lookup_insert_ne.
Qed.

Lemma with_ports_id service i p : ss_ports (svc_spec service) !! i = Some p ->
  with_ports service (<[i := p]> (ss_ports (svc_spec service))) = service.
Proof. intros Hp. rewrite list_insert_id //. by destruct service as [? [] ?]. Qed.

Lemma filled_trans p1 p2 p3 : filled p1 p2 -> filled p2 p3 -> filled p1 p3.
Proof.
  intros [->|(n & -> & Hn)] [->|(m & -> & Hm)]; [by left|right; eauto|right; eauto|].
  right. exists m. split; [done|]. simpl in Hm. destruct Hn as [?| <-]; [by left|tauto].
Qed.

(** [with_ports] and the type of the service. *)
Lemma with_ports_flags service l :
  ss_service_type (svc_spec (with_ports service l)) = ss_service_type (svc_spec service) /\
  should_allocate_node_ports (with_ports service l) = should_allocate_node_ports service /\
  needs_health_check (with_ports service l) = needs_health_check service /\
  hc_port (with_ports service l) = hc_port service.
Proof. done. Qed.

Lemma ports_filled_refl service : ports_filled service service.
Proof. split_and!; try done. by apply Forall2_same_length_lookup; split; [|intros; simplify_eq; left]. Qed.

Lemma ports_filled_insert svc service n p p' :
  ports_filled svc service -> ss_ports (svc_spec service) !! n = Some p -> filled p p' ->
  ports_filled svc (with_ports service (<[n := p']> (ss_ports (svc_spec service)))).
Proof.
  intros (Hm & Hs & Hx & Hf) Hp Hpp. split_and!; [done|done|done|].
  apply Forall2_same_length_lookup. simpl. rewrite length_insert. split; [by eapply Forall2_length|].
  intros i x y Hx' Hy. destruct (decide (n = i)) as [<-|Hi].
  - rewrite list_lookup_insert_eq in Hy; [by eapply lookup_lt_Some|]. injection Hy as <-.
    eapply filled_trans; [|done]. by eapply Forall2_lookup_lr.
  - rewrite list_lookup_insert_ne // in Hy. by eapply Forall2_lookup_lr.
Qed.

Lemma ports_filled_hc svc svc' : ports_filled svc svc' -> hc_port svc' = hc_port svc.
Proof.
  intros (_ & _ & Hx & _). destruct svc as [? [] ?], svc' as [? [] ?]. unfold set_ports in Hx. simpl in Hx.
  injection Hx as. by subst.
Qed.

Lemma ports_filled_filled svc svc' : ports_filled svc svc' -> filled_service svc svc'.
Proof.
  intros Hf. pose proof (ports_filled_hc _ _ Hf). destruct Hf as (? & ? & Hx & ?). split_and!; try done.
  destruct svc as [? [] ?], svc' as [? [] ?]. unfold set_ports, set_health_check_node_port in *. simpl in *.
  injection Hx as. by subst.
Qed.

(** ** Create *)

Section Create.
Context {A : Type} `{!Interface A, !Allocator A}.
Context (others : gset Z) (pr : PortRange) (Hpr : pr_good pr).
Implicit Types (pa : PortAllocator A) (op : PortAllocationOperation).

Lemma took_port pa op pa' op' p : took others pr pa op pa' op' p -> 0 < p < 65536 /\ as_u16 p = p.
Proof.
  intros (_ & _ & _ & _ & _ & Hc). pose proof (good_port pr p Hpr Hc). split; [done|]. apply as_u16_id. lia.
Qed.

(** After the first [n] ports of the service [svc]. *)
Record init_inv (svc : Service) (n : nat) pa op (service : Service) (m : gmap Z Z) : Prop := {
  ii_op : op_ok others pr pa op /\ op_release_deferred op = [];
  ii_mine : processed (ss_ports (svc_spec service)) n = mine op;
  ii_map port np : m !! port = Some np -> np <> 0 /\ np ∈ mine op /\ pr_contains pr np = true;
  ii_seen j q : (j < n)%nat -> ss_ports (svc_spec service) !! j = Some q ->
    node_port (sp_node_port q) <> 0 -> is_Some (m !! sp_port q);
  ii_filled : ports_filled svc service;
  ii_all j q : should_allocate_node_ports service = true -> (j < n)%nat ->
    ss_ports (svc_spec service) !! j = Some q -> node_port (sp_node_port q) <> 0
}.

(** One port done: [p'] is its new entry. *)
Lemma init_inv_step svc n pa op service m p p' pa' op' m' :
  init_inv svc n pa op service m -> ss_ports (svc_spec service) !! n = Some p ->
  op_ok others pr pa' op' -> op_release_deferred op' = [] ->
  filled p p' -> sp_port p' = sp_port p ->
  mine op' = mine op ∪ nonzero (node_port (sp_node_port p')) ->
  (forall port np, m' !! port = Some np -> m !! port = Some np \/ np <> 0 /\ np ∈ mine op' /\ pr_contains pr np = true) ->
  (forall port, is_Some (m !! port) -> is_Some (m' !! port)) ->
  (node_port (sp_node_port p') <> 0 -> is_Some (m' !! sp_port p)) ->
  (should_allocate_node_ports service = true -> node_port (sp_node_port p') <> 0) ->
  init_inv svc (S n) pa' op' (with_ports service (<[n := p']> (ss_ports (svc_spec service)))) m'.
Proof.
  intros [[Hop Hdef] Hmine Hmap Hseen Hfill Hall] Hp Hop' Hdef' Hpp Hport Hm' Hmap' Hsub Hnew Hsh.
  pose proof (lookup_lt_Some _ _ _ Hp) as Hlt.
  assert (<[n := p']> (ss_ports (svc_spec service)) !! n = Some p') as Hp' by by apply list_lookup_insert_eq.
  split; simpl.
  - done.
  - by rewrite (processed_S _ _ _ Hp') processed_insert Hmine Hm'.
  - intros port np Hx. destruct (Hmap' _ _ Hx) as [Hy|?]; [|done].
    destruct (Hmap _ _ Hy) as (? & ? & ?). rewrite Hm'. set_solver.
  - intros j q Hj Hq Hne. destruct (decide (j = n)) as [->|Hjn].
    + rewrite Hp' in Hq. injection Hq as <-. rewrite Hport. by apply Hnew.
    + rewrite list_lookup_insert_ne // in Hq. apply Hsub, (Hseen j q); [lia|done|done].
  - by eapply ports_filled_insert.
  - intros j q Hs Hj Hq. destruct (decide (j = n)) as [->|Hjn].
    + rewrite Hp' in Hq. injection Hq as <-. by apply Hsh.
    + rewrite list_lookup_insert_ne // in Hq. apply (Hall j q Hs); [lia|done].
Qed.

(** What the turn of one port leaves. *)
Definition init_step (svc : Service) (n : nat) (x : PortAllocator A * PortAllocationOperation * Service * gmap Z Z * result unit RegistryError) : Prop :=
  let '(pa, op, service, m, r) := x in
  match r with
  | Ok _ => init_inv svc n pa op service m
  | Err _ => op_ok others pr pa op
  end.

(** The port asked for by the entry at hand, when an earlier entry of the same
    port has none. *)
Lemma requested_first svc n pa op service m p :
  init_inv svc n pa op service m -> ss_ports (svc_spec service) !! n = Some p ->
  default 0 (m !! sp_port p) = 0 -> node_port (sp_node_port p) <> 0 ->
  find_requested_node_port (sp_port p) service = node_port (sp_node_port p).
Proof.
  intros Hi Hp Hm Hne. unfold find_requested_node_port. erewrite (find_first _ _ n p); [done|done| |].
  - rewrite bool_decide_eq_true_2 // bool_decide_eq_false_2 //.
  - intros j q Hj Hq. apply andb_false_iff. destruct (decide (node_port (sp_node_port q) = 0)) as [E|E];
      [right; by rewrite bool_decide_eq_true_2|left]. apply bool_decide_eq_false_2. intros Hport.
    destruct (ii_seen _ _ _ _ _ _ Hi j q Hj Hq E) as [np Hnp]. rewrite Hport in Hnp. rewrite Hnp in Hm.
    simpl in Hm. by apply (ii_map _ _ _ _ _ _ Hi) in Hnp as [? _].
Qed.

(** A port taken for the entry at hand. *)
Lemma init_inv_took svc n pa op service m p pa' op' np :
  init_inv svc n pa op service m -> ss_ports (svc_spec service) !! n = Some p ->
  took others pr pa op pa' op' np -> node_port (sp_node_port p) = 0 \/ node_port (sp_node_port p) = np ->
  init_inv svc (S n) pa' op' (set_node_port service n np) (<[sp_port p := np]> m).
Proof.
  intros Hi Hp Ht Hreq. destruct (took_port _ _ _ _ _ Ht) as [Hnp Hu].
  destruct Ht as (Hok' & Hdef' & Hm' & _ & _ & Hc). rewrite (set_node_port_eq _ _ _ _ Hp) Hu.
  eapply init_inv_step; try done.
  - rewrite Hdef'. apply (ii_op _ _ _ _ _ _ Hi).
  - right. eauto.
  - rewrite Hm' /= /nonzero decide_False; [lia|]. set_solver.
  - intros port x. rewrite lookup_insert_Some. intros [[_ <-]|[_ ?]]; [right|by left].
    rewrite Hm'. split; [lia|]. set_solver.
  - intros port Hs. apply lookup_insert_is_Some'. by right.
  - intros _. rewrite lookup_insert_eq. eauto.
  - intros _. simpl. lia.
Qed.

Lemma refused_step svc n pa op service m pa' op' e :
  refused others pr pa op pa' op' -> init_step svc n (pa', op', service, m, Err e).
Proof. by intros (? & _). Qed.

Lemma init_node_port_spec svc n pa op service m p :
  init_inv svc n pa op service m -> ss_ports (svc_spec service) !! n = Some p ->
  exists x, init_node_port pa op service m n = Some x /\ init_step svc (S n) x.
Proof.
  intros Hi Hp. pose proof (ii_op _ _ _ _ _ _ Hi) as [Hop Hdef]. unfold init_node_port. rewrite Hp /=.
  set (np := node_port (sp_node_port p)) in *.
  destruct (bool_decide (np = 0) && _) eqn:Hskip.
  { apply andb_true_iff in Hskip as [H0%bool_decide_eq_true Hs%negb_true_iff]. eexists. split; [done|]. simpl.
    rewrite -(with_ports_id service n p Hp).
    eapply init_inv_step; try done; fold np; [by left|by rewrite H0 union_empty_r_L|tauto|by rewrite Hs]. }
  destruct (decide (default 0 (m !! sp_port p) = 0)) as [Hal|Hal].
  - pose proof (requested_first svc n pa op service m p Hi Hp Hal) as Hfirst. fold np in Hfirst.
    destruct (bool_decide (find_requested_node_port (sp_port p) service = 0)) eqn:Hreq; simpl.
    + apply bool_decide_eq_true in Hreq.
      destruct (op_allocate_next_spec others pr pa op Hop) as (pa' & op' & r & -> & Hr). simpl.
      destruct r as [x|e]; (eexists; split; [done|]); [|by eapply refused_step].
      eapply init_inv_took; try done. left. destruct (decide (np = 0)); [done|]. by rewrite Hfirst in Hreq.
    + apply bool_decide_eq_false in Hreq.
      destruct (op_allocate_spec others pr pa op (find_requested_node_port (sp_port p) service) Hop)
        as (pa' & op' & r & -> & Hr). simpl.
      destruct r as [x|e]; (eexists; split; [done|]); [|by eapply refused_step].
      eapply init_inv_took; try done. destruct (decide (np = 0)); [by left|right]. by rewrite Hfirst.
  - destruct (m !! sp_port p) as [al|] eqn:Hm; [|done]. simpl in Hal |- *.
    destruct (ii_map _ _ _ _ _ _ Hi _ _ Hm) as (_ & Hin & Hc). pose proof (good_port pr al Hpr Hc) as Hb.
    destruct (bool_decide (np = al)) eqn:Hreq; simpl.
    { apply bool_decide_eq_true in Hreq. eexists. split; [done|]. simpl. rewrite -(with_ports_id service n p Hp).
      eapply init_inv_step; try done; fold np; [by left| |intros; by left|intros; lia].
      rewrite /nonzero decide_False; [lia|]. set_solver. }
    apply bool_decide_eq_false in Hreq. destruct (decide (np = 0)) as [H0|H0].
    + eexists. split; [done|]. simpl. rewrite (set_node_port_eq _ _ _ _ Hp) as_u16_id; [lia|].
      eapply init_inv_step; try done; [by right; eauto| |intros; by left].
      rewrite /= /nonzero decide_False; [lia|]. set_solver.
    + destruct (op_allocate_spec others pr pa op np Hop) as (pa' & op' & r & -> & Hr). simpl.
      destruct r as [x|e]; (eexists; split; [done|]); [|by eapply refused_step]. simpl.
      destruct Hr as (Hok' & Hdef' & Hm' & _ & _ & Hc'). rewrite -(with_ports_id service n p Hp).
      eapply init_inv_step; try done; fold np; [congruence|by left| |].
      { rewrite Hm' /nonzero decide_False //. set_solver. }
      intros; by left.
Qed.

Lemma filled_length svc service : ports_filled svc service ->
  length (ss_ports (svc_spec service)) = length (ss_ports (svc_spec svc)).
Proof. intros (_ & _ & _ & Hf). symmetry. by eapply Forall2_length. Qed.

Lemma init_loop_spec svc k : forall n pa op service m,
  init_inv svc n pa op service m -> (n + k)%nat = length (ss_ports (svc_spec service)) ->
  exists pa' op' service' r, init_loop pa op service m (seq n k) = Some (pa', op', service', r) /\
    match r with
    | Ok _ => exists m', init_inv svc (length (ss_ports (svc_spec service'))) pa' op' service' m'
    | Err _ => op_ok others pr pa' op'
    end.
Proof.
  induction k as [|k IH]; intros n pa op service m Hi Hn; cbn [seq init_loop].
  { eexists _, _, _, (Ok tt). split; [done|]. exists m. by rewrite -Hn Nat.add_0_r. }
  destruct (lookup_lt_is_Some_2 (ss_ports (svc_spec service)) n ltac:(lia)) as [p Hp].
  destruct (init_node_port_spec svc n pa op service m p Hi Hp) as ([[[[pa1 op1] s1] m1] r1] & -> & Hs). simpl.
  destruct r1 as [[]|e]; [|by eexists _, _, _, (Err e)]. apply IH; [done|]. simpl in Hs.
  rewrite (filled_length svc s1 (ii_filled _ _ _ _ _ _ Hs)) -(filled_length svc service (ii_filled _ _ _ _ _ _ Hi)). lia.
Qed.

(** The loop over all the ports of a service. *)
Lemma init_node_ports_spec pa op service :
  op_ok others pr pa op -> op_release_deferred op = [] -> mine op = ∅ ->
  exists pa' op' service' r, init_node_ports pa op service = Some (pa', op', service', r) /\
    match r with
    | Ok _ => op_ok others pr pa' op' /\ op_release_deferred op' = [] /\ ports_filled service service' /\
        mine op' = list_to_set (collect_service_node_ports service') /\
        (should_allocate_node_ports service' = true ->
         Forall (fun q => node_port (sp_node_port q) <> 0) (ss_ports (svc_spec service')))
    | Err _ => op_ok others pr pa' op'
    end.
Proof.
  intros Hop Hdef Hm. unfold init_node_ports.
  destruct (init_loop_spec service (length (ss_ports (svc_spec service))) 0 pa op service ∅)
    as (pa' & op' & service' & r & -> & Hr); [|done|].
  { split; [done|by rewrite Hm|intros port np; by rewrite lookup_empty|lia|apply ports_filled_refl|lia]. }
  eexists _, _, _, _. split; [done|]. destruct r as [[]|e]; [|done]. destruct Hr as [m [[Hop' Hdef'] Hmine _ _ Hf Hall]].
  split_and!; [done|done|done|by rewrite -Hmine processed_all|]. intros Hs. apply Forall_lookup. intros j q Hq.
  apply (Hall j q Hs); [by eapply lookup_lt_Some|done].
Qed.

(** The health check port. *)
Definition hc_i32 (service : Service) : Prop := - 2 ^ 31 <= hc_port service < 2 ^ 31.

Lemma alloc_health_spec pa op service :
  op_ok others pr pa op -> hc_i32 service ->
  exists pa' op' service' r, alloc_health_check_node_port pa op service = Some (pa', op', service', r) /\
    match r with
    | Ok _ => took others pr pa op pa' op' (hc_port service') /\ filled_service service service' /\
        ss_ports (svc_spec service') = ss_ports (svc_spec service)
    | Err _ => op_ok others pr pa' op'
    end.
Proof.
  intros Hop Hi32. unfold alloc_health_check_node_port. destruct (bool_decide (hc_port service = 0)) eqn:H0; simpl.
  - apply bool_decide_eq_true in H0.
    destruct (op_allocate_next_spec others pr pa op Hop) as (pa' & op' & r & -> & Hr). simpl.
    destruct r as [np|e]; (eexists _, _, _, _; split; [done|]); [|by destruct Hr].
    destruct (took_port _ _ _ _ _ Hr) as [Hnp _].
    assert (hc_port (set_health_check service (as_i32 np)) = np) as Hhc by (cbn; apply as_i32_id; lia).
    rewrite Hhc. split; [done|]. split; [|done]. destruct (ports_filled_filled _ _ (ports_filled_refl service)) as (? & ? & ? & ? & _).
    by split_and!.
  - apply bool_decide_eq_false in H0.
    destruct (op_allocate_spec others pr pa op (i32_as_usize (hc_port service)) Hop) as (pa' & op' & r & -> & Hr). simpl.
    destruct r as [[]|e]; (eexists _, _, _, _; split; [done|]); [|by destruct Hr].
    destruct (took_port _ _ _ _ _ Hr) as [Hb _].
    assert (i32_as_usize (hc_port service) = hc_port service) as Hid.
    { apply i32_as_usize_id. unfold i32_as_usize, hc_i32 in *. destruct (decide (0 <= hc_port service)).
      - rewrite Z.mod_small in Hb; lia.
      - rewrite -(Z.mod_unique (hc_port service) (2 ^ 64) (-1) (hc_port service + 2 ^ 64)) in Hb; lia. }
    rewrite Hid in Hr. split; [done|]. split; [apply ports_filled_filled, ports_filled_refl|done].
Qed.

End Create.

(** The node ports a service occupies. *)
Definition used_ports (svc : Service) : gset Z :=
  (if is_node_port_type (ss_service_type (svc_spec svc)) then list_to_set (collect_service_node_ports svc) else ∅) ∪
  (if needs_health_check svc then {[hc_port svc]} else ∅).

(** The health check port is none of the node ports. *)
Definition hc_apart (svc : Service) : Prop :=
  needs_health_check svc = true -> hc_port svc ∉ collect_service_node_ports svc.

Lemma filled_flags svc svc' : filled_service svc svc' ->
  ss_service_type (svc_spec svc') = ss_service_type (svc_spec svc) /\
  should_allocate_node_ports svc' = should_allocate_node_ports svc /\
  needs_health_check svc' = needs_health_check svc.
Proof.
  intros (_ & _ & Hx & _). destruct svc as [? [] ?], svc' as [? [] ?]. unfold set_ports, set_health_check_node_port in Hx.
  simpl in Hx. injection Hx as. subst. done.
Qed.

Lemma filled_service_trans s1 s2 s3 : filled_service s1 s2 -> filled_service s2 s3 -> filled_service s1 s3.
Proof.
  intros (? & ? & ? & Hf1 & Hh1) (? & ? & ? & Hf2 & Hh2). split_and!; [congruence..| |].
  - eapply Forall2_trans; [|done|done]; apply filled_trans.
  - intros Hne. rewrite Hh2; [by rewrite Hh1|by apply Hh1].
Qed.

Lemma needs_is_node_port svc : needs_health_check svc = true -> is_node_port_type (ss_service_type (svc_spec svc)) = true.
Proof. unfold needs_health_check. destruct (ss_service_type (svc_spec svc)) as [[]|]; try done. Qed.

Section CreateTheorem.
Context {A : Type} `{!Interface A, !Allocator A, !Reliable A}.
Implicit Types (pa : PortAllocator A).

(** The outcome of a claim, of a create or an update: [goal] is what is held
    once the service is written. *)
Definition claim_outcome pa (svc : Service) (goal : Service -> gset Z)
    (x : PortAllocator A * Service * result PortAllocationOperation RegistryError) : Prop :=
  let '(pa', svc', r) := x in
  match r with
  | Ok op =>
      filled_service svc svc' /\ hc_apart svc' /\
      (is_node_port_type (ss_service_type (svc_spec svc)) = false -> ss_ports (svc_spec svc') = ss_ports (svc_spec svc)) /\
      (should_allocate_node_ports svc = true ->
       Forall (fun q => node_port (sp_node_port q) <> 0) (ss_ports (svc_spec svc'))) /\
      forall success, exists pa2, settle pa' op success = Some pa2 /\ pa_inv pa2 /\ pa_range pa2 = pa_range pa /\
        pa_held pa2 = if success then goal svc' else pa_held pa
  | Err _ => pa_inv pa' /\ pa_range pa' = pa_range pa /\ pa_held pa' = pa_held pa
  end.

Lemma fail_outcome pa pa' op svc svc' e goal :
  op_ok (pa_held pa) (pa_range pa) pa' op -> exists x, fail_op pa' op svc' e = Some x /\ claim_outcome pa svc goal x.
Proof.
  intros Hop. destruct (fail_op_ok _ _ _ _ svc' e Hop) as (pa2 & -> & Hi & Hr & Hh). eexists. by split.
Qed.

(** The node ports of a create. *)
Lemma create_ports pa svc :
  pa_inv pa -> pr_good (pa_range pa) ->
  exists pa1 op1 svc1 r1,
    (if is_node_port_type (ss_service_type (svc_spec svc)) then init_node_ports pa (op_start false) svc
     else Some (pa, op_start false, svc, Ok tt)) = Some (pa1, op1, svc1, r1) /\
    op_ok (pa_held pa) (pa_range pa) pa1 op1 /\
    (r1 = Ok tt -> op_release_deferred op1 = [] /\ ports_filled svc svc1 /\
      mine op1 = (if is_node_port_type (ss_service_type (svc_spec svc))
                  then list_to_set (collect_service_node_ports svc1) else ∅) /\
      (is_node_port_type (ss_service_type (svc_spec svc)) = false -> svc1 = svc) /\
      (should_allocate_node_ports svc = true ->
       Forall (fun q => node_port (sp_node_port q) <> 0) (ss_ports (svc_spec svc1)))).
Proof.
  intros Hi Hg. pose proof (op_ok_start (pa_range pa) pa Hi eq_refl) as Hop0.
  destruct (is_node_port_type _) eqn:Ht.
  - destruct (init_node_ports_spec (pa_held pa) (pa_range pa) Hg pa (op_start false) svc Hop0 eq_refl eq_refl)
      as (pa1 & op1 & svc1 & r1 & -> & Hr). eexists _, _, _, _. split; [done|].
    destruct r1 as [[]|]; [|by split]. destruct Hr as (? & ? & Hf & ? & Hall). split; [done|]. intros _.
    split_and!; try done. intros Hs. apply Hall.
    destruct (filled_flags _ _ (ports_filled_filled _ _ Hf)) as (_ & -> & _). done.
  - eexists _, _, _, (Ok tt). split; [done|]. split; [done|]. intros _. split_and!; try done; [apply ports_filled_refl|].
    intros Hs. exfalso. unfold should_allocate_node_ports in Hs.
    by destruct (ss_service_type (svc_spec svc)) as [[]|].
Qed.

Lemma create_spec pa svc :
  pa_inv pa -> pr_good (pa_range pa) -> hc_i32 svc ->
  exists x, txn_alloc_node_ports pa svc false = Some x /\
    claim_outcome pa svc (fun svc' => pa_held pa ∪ used_ports svc') x /\
    (forall op, x.2 = Ok op -> used_ports x.1.2 ## pa_held pa).
Proof.
  intros Hi Hg Hhc. unfold txn_alloc_node_ports.
  destruct (create_ports pa svc Hi Hg) as (pa1 & op1 & svc1 & r1 & -> & Hop1 & H1). cbn [mbind option_bind].
  destruct r1 as [[]|e]; last first.
  { destruct (fail_outcome pa pa1 op1 svc svc1 e (fun svc' => pa_held pa ∪ used_ports svc') Hop1) as (x & Hf & Ho).
    exists x. split; [exact Hf|]. split; [done|]. intros op Hop. unfold fail_op in Hf.
    apply bind_Some in Hf as (? & _ & Hf). by simplify_eq. }
  destruct (H1 eq_refl) as (Hdef1 & Hf1 & Hm1 & Hsm & Hall1). clear H1.
  pose proof (ports_filled_filled _ _ Hf1) as Hff1. destruct (filled_flags _ _ Hff1) as (Hty & _ & Hnh).
  pose proof (ports_filled_hc _ _ Hf1) as Hhc1. destruct (needs_health_check svc1) eqn:Hneed.
  - assert (hc_i32 svc1) as Hi32 by by rewrite /hc_i32 Hhc1.
    destruct (alloc_health_spec (pa_held pa) (pa_range pa) Hg pa1 op1 svc1 Hop1 Hi32)
      as (pa2 & op2 & svc2 & r2 & -> & Hr). cbn [mbind option_bind].
    destruct r2 as [[]|e]; last first.
    { destruct (fail_outcome pa pa2 op2 svc svc2 (internal_error e) (fun svc' => pa_held pa ∪ used_ports svc') Hr)
        as (x & Hf & Ho). exists x. split; [exact Hf|]. split; [done|]. intros op Hop. unfold fail_op in Hf.
      apply bind_Some in Hf as (? & _ & Hf). by simplify_eq. }
    destruct Hr as ((Hop2 & Hdef2 & Hm2 & Hno & Hnm & _) & Hf2 & Hp2). destruct (filled_flags _ _ Hf2) as (Hty2 & _ & Hnh2).
    assert (collect_service_node_ports svc2 = collect_service_node_ports svc1) as Hcol by (unfold collect_service_node_ports; by rewrite Hp2).
    assert (used_ports svc2 = mine op2) as Hu.
    { unfold used_ports. rewrite Hnh2 Hneed Hty2 Hty Hcol Hm2 Hm1. set_solver. }
    eexists. split; [done|]. destruct (op_ok_held _ _ _ _ Hop2) as [_ Hdis]. split.
    + split; [by eapply filled_service_trans|]. split; [|split; [|split]].
      * intros _. rewrite Hcol. apply needs_is_node_port in Hneed. rewrite -Hty Hneed in Hm1. rewrite Hm1 in Hnm. clear -Hnm. set_solver.
      * intros E. by rewrite Hp2 Hsm.
      * by rewrite Hp2.
      * intros success. destruct (settle_ok _ _ _ _ success Hop2) as (pa3 & ? & ? & ? & Hh3).
        exists pa3. split_and!; try done. rewrite Hh3 Hdef2 Hdef1 Hu. destruct success; [set_solver|done].
    + intros op' _. simpl. rewrite Hu. set_solver.
  - assert (used_ports svc1 = mine op1) as Hu.
    { unfold used_ports. rewrite Hneed Hty Hm1. set_solver. }
    eexists. split; [done|]. destruct (op_ok_held _ _ _ _ Hop1) as [_ Hdis]. split.
    + split; [done|]. split; [by intros Hx; rewrite Hx in Hneed|]. split; [intros E; by rewrite Hsm|]. split; [done|].
      intros success. destruct (settle_ok _ _ _ _ success Hop1) as (pa3 & ? & ? & ? & Hh3).
      exists pa3. split_and!; try done. rewrite Hh3 Hdef1 Hu. destruct success; [set_solver|done].
    + intros op' _. simpl. rewrite Hu. set_solver.
Qed.

End CreateTheorem.

(** ** Update *)

Section Update.
Context {A : Type} `{!Interface A, !Allocator A}.
Context (others : gset Z) (pr : PortRange) (Hpr : pr_good pr).
Context (old_numbers : list Z) (Hold : list_to_set old_numbers ⊆ others).
Implicit Types (pa : PortAllocator A) (op : PortAllocationOperation).

(** After the first [n] ports: what is new among them has been allocated. *)
Record upd_inv (svc : Service) (n : nat) pa op (service : Service) (port_allocated : gset Z) : Prop := {
  ui_op : op_ok others pr pa op /\ op_release_deferred op = [];
  ui_mine : processed (ss_ports (svc_spec service)) n ∖ list_to_set old_numbers = mine op;
  ui_explicit : port_allocated ⊆ mine op;
  ui_filled : ports_filled svc service;
  ui_all j q : should_allocate_node_ports service = true -> (j < n)%nat ->
    ss_ports (svc_spec service) !! j = Some q -> node_port (sp_node_port q) <> 0
}.

Lemma upd_inv_step svc n pa op service ex p p' pa' op' ex' :
  upd_inv svc n pa op service ex -> ss_ports (svc_spec service) !! n = Some p ->
  op_ok others pr pa' op' -> op_release_deferred op' = [] -> filled p p' ->
  mine op' = mine op ∪ nonzero (node_port (sp_node_port p')) ∖ list_to_set old_numbers ->
  ex' ⊆ mine op' ->
  (should_allocate_node_ports service = true -> node_port (sp_node_port p') <> 0) ->
  upd_inv svc (S n) pa' op' (with_ports service (<[n := p']> (ss_ports (svc_spec service)))) ex'.
Proof.
  intros [[Hop Hdef] Hmine Hex Hfill Hall] Hp Hop' Hdef' Hpp Hm' Hex' Hsh.
  assert (<[n := p']> (ss_ports (svc_spec service)) !! n = Some p') as Hp'.
  { apply list_lookup_insert_eq. by eapply lookup_lt_Some. }
  split; simpl.
  - done.
  - rewrite (processed_S _ _ _ Hp') processed_insert Hm' -Hmine. set_solver.
  - done.
  - by eapply ports_filled_insert.
  - intros j q Hs Hj Hq. destruct (decide (j = n)) as [->|Hjn].
    + rewrite Hp' in Hq. injection Hq as <-. by apply Hsh.
    + rewrite list_lookup_insert_ne // in Hq. apply (Hall j q Hs); [lia|done].
Qed.

Definition upd_step (svc : Service) (n : nat)
    (x : PortAllocator A * PortAllocationOperation * Service * list (string * Z) * gset Z * result unit RegistryError) : Prop :=
  let '(pa, op, service, _, ex, r) := x in
  match r with
  | Ok _ => upd_inv svc n pa op service ex
  | Err _ => op_ok others pr pa op
  end.

Lemma nonzero_fresh np : np <> 0 -> np ∉ others -> nonzero np ∖ list_to_set old_numbers = {[np]}.
Proof. intros Hne Hn. rewrite /nonzero decide_False //. set_solver. Qed.

Lemma update_node_port_spec svc n pa op service entries ex p :
  upd_inv svc n pa op service ex -> ss_ports (svc_spec service) !! n = Some p ->
  exists x, update_node_port old_numbers pa op service entries ex n = Some x /\ upd_step svc (S n) x.
Proof.
  intros Hi Hp. pose proof (ui_op _ _ _ _ _ _ Hi) as [Hop Hdef]. unfold update_node_port. rewrite Hp /=.
  set (np := node_port (sp_node_port p)) in *.
  assert (np = 0 \/ np ∈ old_numbers \/ np ∈ ex -> (should_allocate_node_ports service = true -> np <> 0) ->
    upd_inv svc (S n) pa op service ex) as Hsame.
  { intros Hnp Hs. rewrite -(with_ports_id service n p Hp).
    eapply upd_inv_step; try done; fold np; [by left| |apply (ui_explicit _ _ _ _ _ _ Hi)].
    pose proof (ui_explicit _ _ _ _ _ _ Hi). unfold nonzero. case_decide; [set_solver|].
    destruct Hnp as [?|[?|?]]; [done|set_solver|set_solver]. }
  destruct (bool_decide (np = 0) && _) eqn:Hskip.
  { apply andb_true_iff in Hskip as [H0%bool_decide_eq_true Hs%negb_true_iff]. eexists. split; [done|]. simpl.
    apply Hsame; [by left|by rewrite Hs]. }
  destruct (bool_decide (np = 0)) eqn:H0; simpl.
  - apply bool_decide_eq_true in H0.
    destruct (op_allocate_next_spec others pr pa op Hop) as (pa' & op' & r & -> & Hr). simpl.
    destruct r as [x|e]; [|eexists; split; [done|by destruct Hr]].
    assert (upd_inv svc (S n) pa' op' (set_node_port service n x) ex) as Hnew.
    { destruct (took_port others pr Hpr _ _ _ _ _ Hr) as [Hb Hu]. destruct Hr as (Hok' & Hdef' & Hm' & Hno & _ & _).
      rewrite (set_node_port_eq _ _ _ _ Hp) Hu. eapply upd_inv_step; try done; simpl; [congruence|by right; eauto| | |lia].
      - rewrite Hm' nonzero_fresh //; [lia|]. set_solver.
      - pose proof (ui_explicit _ _ _ _ _ _ Hi). rewrite Hm'. set_solver. }
    cbn [mbind option_bind]. destruct (decide (_ ∈ entries)); (eexists; split; [done|]); [|done]. simpl. apply (ui_op _ _ _ _ _ _ Hnew).
  - apply bool_decide_eq_false in H0. destruct (negb _ && negb _) eqn:Hnew; simpl.
    + apply andb_true_iff in Hnew as [H1%negb_true_iff%bool_decide_eq_false H2%negb_true_iff%bool_decide_eq_false].
      destruct (op_allocate_spec others pr pa op np Hop) as (pa' & op' & r & -> & Hr). simpl.
      destruct r as [[]|e]; [|eexists; split; [done|by destruct Hr]].
      assert (upd_inv svc (S n) pa' op' service ({[np]} ∪ ex)) as Hnew.
      { destruct Hr as (Hok' & Hdef' & Hm' & Hno & _ & _). rewrite -(with_ports_id service n p Hp).
        eapply upd_inv_step; try done; simpl; fold np; [congruence|by left| |].
        - rewrite Hm' nonzero_fresh //. set_solver.
        - pose proof (ui_explicit _ _ _ _ _ _ Hi). rewrite Hm'. set_solver. }
      cbn [mbind option_bind]. destruct (decide (_ ∈ entries)); (eexists; split; [done|]); [|done]. simpl. apply (ui_op _ _ _ _ _ _ Hnew).
    + assert (np ∈ old_numbers \/ np ∈ ex) as Hin.
      { apply andb_false_iff in Hnew as [Hx%negb_false_iff%bool_decide_eq_true|Hx%negb_false_iff%bool_decide_eq_true]; tauto. }
      cbn [mbind option_bind]. destruct (decide (_ ∈ entries)); (eexists; split; [done|]); [done|]. simpl. apply Hsame; [by right|done].
Qed.

Lemma update_loop_spec svc k : forall n pa op service entries ex,
  upd_inv svc n pa op service ex -> (n + k)%nat = length (ss_ports (svc_spec service)) ->
  exists pa' op' service' r, update_loop old_numbers pa op service entries ex (seq n k) = Some (pa', op', service', r) /\
    match r with
    | Ok _ => exists ex', upd_inv svc (length (ss_ports (svc_spec service'))) pa' op' service' ex'
    | Err _ => op_ok others pr pa' op'
    end.
Proof.
  induction k as [|k IH]; intros n pa op service entries ex Hi Hn; cbn [seq update_loop].
  { eexists _, _, _, (Ok tt). split; [done|]. exists ex. by rewrite -Hn Nat.add_0_r. }
  destruct (lookup_lt_is_Some_2 (ss_ports (svc_spec service)) n ltac:(lia)) as [p Hp].
  destruct (update_node_port_spec svc n pa op service entries ex p Hi Hp)
    as ([[[[[pa1 op1] s1] en1] ex1] r1] & -> & Hs). simpl.
  destruct r1 as [[]|e]; [|by eexists _, _, _, (Err e)]. apply IH; [done|]. simpl in Hs.
  rewrite (filled_length svc s1 (ui_filled _ _ _ _ _ _ Hs)) -(filled_length svc service (ui_filled _ _ _ _ _ _ Hi)). lia.
Qed.

Lemma defer_all l : forall pa op, op_ok others pr pa op ->
  op_ok others pr pa (foldl defer_release op l) /\
  op_release_deferred (foldl defer_release op l) = op_release_deferred op ++ l /\
  mine (foldl defer_release op l) = mine op.
Proof.
  induction l as [|p l IH]; intros pa op Hop; simpl; [by rewrite app_nil_r|].
  destruct (IH pa (defer_release op p) (op_ok_defer _ _ _ _ p Hop)) as (? & -> & ->).
  split; [done|]. split; [|done]. simpl. by rewrite -app_assoc.
Qed.

End Update.

Lemma update_node_ports_spec {A} `{!Interface A, !Allocator A} others pr (pa : PortAllocator A) op service old :
  pr_good pr -> list_to_set (collect_service_node_ports old) ⊆ others ->
  op_ok others pr pa op -> op_release_deferred op = [] -> mine op = ∅ ->
  exists pa' op' service' r, update_node_ports pa op service old = Some (pa', op', service', r) /\
    op_ok others pr pa' op' /\
    (r = Ok tt -> ports_filled service service' /\
      list_to_set (op_release_deferred op') =@{gset Z}
        list_to_set (collect_service_node_ports old) ∖ list_to_set (collect_service_node_ports service') /\
      mine op' = list_to_set (collect_service_node_ports service') ∖ list_to_set (collect_service_node_ports old) /\
      (should_allocate_node_ports service = true ->
       Forall (fun q => node_port (sp_node_port q) <> 0) (ss_ports (svc_spec service')))).
Proof.
  intros Hpr Hold Hop Hdef Hm. unfold update_node_ports.
  destruct (update_loop_spec others pr Hpr _ Hold service (length (ss_ports (svc_spec service))) 0 pa op service [] ∅)
    as (pa' & op' & service' & r & -> & Hr); [|done|].
  { split; [done|rewrite Hm; unfold processed; simpl; set_solver|set_solver|apply ports_filled_refl|lia]. }
  cbn [mbind option_bind]. destruct r as [[]|e]; [|by eexists _, _, _, _].
  destruct Hr as [ex [[Hop' Hdef'] Hmine _ Hf Hall]]. unfold defer_gone.
  destruct (defer_all others pr (filter (fun old => old ∉ collect_service_node_ports service') (collect_service_node_ports old)) pa' op' Hop')
    as (Hop2 & Hd2 & Hm2).
  eexists _, _, _, _. split; [done|]. split; [done|]. intros _. split; [done|]. split; [|split].
  - rewrite Hd2 Hdef'. apply set_eq. intros x. simpl.
    rewrite elem_of_difference !elem_of_list_to_set list_elem_of_filter. tauto.
  - by rewrite Hm2 -Hmine processed_all.
  - intros Hs. apply Forall_lookup. intros j q Hq. apply (Hall j q); [|by eapply lookup_lt_Some|done].
    destruct (filled_flags _ _ (ports_filled_filled _ _ Hf)) as (_ & -> & _). done.
Qed.

(** An update that the validation admits: the type is a known one, a service
    that has no node ports names none, and a health check port that is still
    needed is not changed. *)
Definition known_type (svc : Service) : Prop :=
  ss_service_type (svc_spec svc) ∈ [Some TClusterIP; Some TNodePort; Some TLoadBalancer; Some TExternalName].

Definition no_stray_ports (svc : Service) : Prop :=
  is_node_port_type (ss_service_type (svc_spec svc)) = false -> collect_service_node_ports svc = [].

Definition same_hc (svc old : Service) : Prop :=
  needs_health_check old = true -> needs_health_check svc = true -> hc_port svc = hc_port old.

Section UpdateHealth.
Context {A : Type} `{!Interface A, !Allocator A}.
Implicit Types (pa : PortAllocator A) (op : PortAllocationOperation).

(** The health check of an update: [HO] and [HN] are the old and the new port. *)
Definition hc_set (svc : Service) : gset Z := if needs_health_check svc then {[hc_port svc]} else ∅.

Lemma update_health_spec others pr pa op svc old :
  pr_good pr -> op_ok others pr pa op -> hc_i32 svc -> 0 <= hc_port old < 65536 \/ needs_health_check old = false ->
  same_hc svc old ->
  exists pa' op' svc' r, update_health_check_node_port pa op svc old = Some (pa', op', svc', r) /\
    op_ok others pr pa' op' /\
    (r = Ok tt -> filled_service svc svc' /\ ss_ports (svc_spec svc') = ss_ports (svc_spec svc) /\
      list_to_set (op_release_deferred op') =@{gset Z} list_to_set (op_release_deferred op) ∪ (hc_set old ∖ hc_set svc') /\
      (mine op' = mine op /\ hc_set svc' ⊆ hc_set old \/
       hc_set old = ∅ /\ mine op' = hc_set svc' ∪ mine op /\ hc_set svc' ## others ∪ mine op)).
Proof.
  intros Hpr Hop Hi32 Hold Hsame. unfold update_health_check_node_port, hc_set.
  destruct (needs_health_check old) eqn:Ho, (needs_health_check svc) eqn:Hn; simpl.
  - eexists _, _, _, (Ok tt). split; [done|]. split; [done|]. intros _. split; [apply ports_filled_filled, ports_filled_refl|].
    split; [done|]. rewrite Hn (Hsame Ho Hn). split; [set_solver|]. left. set_solver.
  - eexists _, _, _, (Ok tt). split; [done|]. split; [by apply op_ok_defer|]. intros _.
    split; [apply ports_filled_filled, ports_filled_refl|]. split; [done|]. rewrite Hn. destruct Hold as [Hold|]; [|done].
    simpl. rewrite list_to_set_app_L i32_as_usize_id //. split; [set_solver|]. left. set_solver.
  - destruct (alloc_health_spec others pr Hpr pa op svc Hop Hi32) as (pa' & op' & svc' & r & -> & Hr). simpl.
    eexists _, _, _, _. split; [done|]. destruct r as [[]|e]; [|by split].
    destruct Hr as ((Hop' & Hd & Hm & H1 & H2 & _) & Hf & Hp). split; [done|]. intros _. split; [done|]. split; [done|].
    destruct (filled_flags _ _ Hf) as (_ & _ & ->). rewrite Hn Hd Hm. split; [set_solver|]. right. set_solver.
  - eexists _, _, _, (Ok tt). split; [done|]. split; [done|]. intros _. split; [apply ports_filled_filled, ports_filled_refl|].
    split; [done|]. rewrite Hn. split; [set_solver|]. left. set_solver.
Qed.

End UpdateHealth.

(** What is left of the ports held: [UO] and [UN] are the node ports of the old
    and of the new service. *)
Lemma settled_sets (H UO UN HO HN D M1 M : gset Z) :
  UO ∪ HO ⊆ H -> HO ## UO -> M1 = UN ∖ UO -> M1 ## H -> M ## H ->
  D = (UO ∖ UN) ∪ (HO ∖ HN) -> (M = M1 /\ HN ⊆ HO \/ HO = ∅ /\ M = HN ∪ M1 /\ HN ## H ∪ M1) ->
  (H ∪ M) ∖ D = H ∖ (UO ∪ HO) ∪ (UN ∪ HN) /\ HN ## UN /\ UN ∪ HN ## H ∖ (UO ∪ HO).
Proof.
  intros H1 H2 -> H3 H4 -> [[-> H5]|(-> & -> & H5)].
  - assert (UN ## HO) as H6.
    { intros x Hx Hy. destruct (decide (x ∈ UO)); set_solver. }
    split; [|set_solver]. apply set_eq. intros x.
    destruct (decide (x ∈ UO)), (decide (x ∈ UN)), (decide (x ∈ HO)), (decide (x ∈ HN)); set_solver.
  - assert (HN ## UN) as H6.
    { intros x Hx Hy. destruct (decide (x ∈ UO)); set_solver. }
    split; [|set_solver]. apply set_eq. intros x.
    destruct (decide (x ∈ UO)), (decide (x ∈ UN)), (decide (x ∈ HN)); set_solver.
Qed.

Section UpdateTheorem.
Context {A : Type} `{!Interface A, !Allocator A, !Reliable A}.
Implicit Types (pa : PortAllocator A).

(** The node ports of an update, before the health check. *)
Lemma update_ports pa svc old :
  pa_inv pa -> pr_good (pa_range pa) -> known_type svc -> no_stray_ports old -> used_ports old ⊆ pa_held pa ->
  let UO := if is_node_port_type (ss_service_type (svc_spec old))
            then list_to_set (collect_service_node_ports old) else ∅ : gset Z in
  let gone := match ss_service_type (svc_spec svc) with
              | Some TExternalName | Some TClusterIP => true | _ => false end in
  let op0 := if is_node_port_type (ss_service_type (svc_spec old)) && gone
             then foldl defer_release (op_start false) (collect_service_node_ports old) else op_start false in
  exists pa1 op1 svc1 r1,
    (if is_node_port_type (ss_service_type (svc_spec svc)) then update_node_ports pa op0 svc old
     else Some (pa, op0, svc, Ok tt)) = Some (pa1, op1, svc1, r1) /\
    op_ok (pa_held pa) (pa_range pa) pa1 op1 /\
    (r1 = Ok tt ->
      let UN := if is_node_port_type (ss_service_type (svc_spec svc))
                then list_to_set (collect_service_node_ports svc1) else ∅ : gset Z in
      ports_filled svc svc1 /\ list_to_set (op_release_deferred op1) = UO ∖ UN /\ mine op1 = UN ∖ UO /\
      (is_node_port_type (ss_service_type (svc_spec svc)) = false -> svc1 = svc) /\
      (should_allocate_node_ports svc = true ->
       Forall (fun q => node_port (sp_node_port q) <> 0) (ss_ports (svc_spec svc1)))).
Proof.
  intros Hi Hg Hkt Hns Hus UO gone op0. pose proof (op_ok_start (pa_range pa) pa Hi eq_refl) as Hop0.
  assert (list_to_set (collect_service_node_ports old) = UO) as HUO.
  { subst UO. destruct (is_node_port_type (ss_service_type (svc_spec old))) eqn:E; [done|]. by rewrite Hns. }
  assert (UO ⊆ pa_held pa) as Hsub.
  { unfold used_ports in Hus. fold UO in Hus. set_solver. }
  destruct (is_node_port_type (ss_service_type (svc_spec svc))) eqn:Ht.
  - assert (op0 = op_start false) as ->.
    { subst op0 gone. by destruct (ss_service_type (svc_spec svc)) as [[]|]; rewrite ?andb_false_r. }
    destruct (update_node_ports_spec (pa_held pa) (pa_range pa) pa (op_start false) svc old Hg) as
      (pa1 & op1 & svc1 & r1 & -> & Hop1 & Hr); [by rewrite HUO|done|done|done|].
    eexists _, _, _, _. split; [done|]. split; [done|]. intros ->. destruct (Hr eq_refl) as (? & Hd & Hm & ?).
    rewrite HUO in Hd Hm. by split_and!.
  - eexists _, _, _, (Ok tt). split; [done|].
    assert (op_ok (pa_held pa) (pa_range pa) pa op0 /\ op_release_deferred op0 =
      (if is_node_port_type (ss_service_type (svc_spec old)) then collect_service_node_ports old else []) /\ mine op0 = ∅)
      as (Hop & Hd & Hm).
    { assert (gone = true) as Hgone.
      { subst gone. unfold known_type in Hkt. destruct (ss_service_type (svc_spec svc)) as [[]|]; try done.
        all: exfalso; clear -Hkt; set_solver. }
      subst op0. rewrite Hgone andb_true_r. destruct (is_node_port_type (ss_service_type (svc_spec old))); [|done].
      destruct (defer_all (pa_held pa) (pa_range pa) (collect_service_node_ports old) pa (op_start false) Hop0) as (? & -> & ->).
      done. }
    split; [done|]. intros _. split; [apply ports_filled_refl|]. rewrite Hd Hm. split; [|split; [set_solver|split; [done|]]].
    + subst UO. destruct (is_node_port_type (ss_service_type (svc_spec old))); set_solver.
    + intros Hs. exfalso. unfold should_allocate_node_ports in Hs. by destruct (ss_service_type (svc_spec svc)) as [[]|].
Qed.

Lemma update_spec pa svc old :
  pa_inv pa -> pr_good (pa_range pa) -> hc_i32 svc -> known_type svc -> same_hc svc old ->
  no_stray_ports old -> hc_apart old -> used_ports old ⊆ pa_held pa ->
  exists x, txn_update_node_ports pa svc old false = Some x /\
    claim_outcome pa svc (fun svc' => pa_held pa ∖ used_ports old ∪ used_ports svc') x /\
    (forall op, x.2 = Ok op -> used_ports x.1.2 ## pa_held pa ∖ used_ports old).
Proof.
  intros Hi Hg Hhc Hkt Hsame Hns Hap Hus. unfold txn_update_node_ports.
  destruct (update_ports pa svc old Hi Hg Hkt Hns Hus) as (pa1 & op1 & svc1 & r1 & -> & Hop1 & H1). cbn [mbind option_bind].
  set (goal := fun svc' => pa_held pa ∖ used_ports old ∪ used_ports svc').
  assert (forall pa2 op2 svc2 e, op_ok (pa_held pa) (pa_range pa) pa2 op2 ->
    exists x, fail_op pa2 op2 svc2 e = Some x /\ claim_outcome pa svc goal x /\
      (forall op, x.2 = Ok op -> used_ports x.1.2 ## pa_held pa ∖ used_ports old)) as Hfail.
  { intros pa2 op2 svc2 e Hop2. destruct (fail_outcome pa pa2 op2 svc svc2 e goal Hop2) as (x & Hf & Ho).
    exists x. split; [exact Hf|]. split; [done|]. intros op Hop. unfold fail_op in Hf.
    apply bind_Some in Hf as (? & _ & Hf). by simplify_eq. }
  destruct r1 as [[]|e]; [|by apply Hfail].
  set (UO := if is_node_port_type (ss_service_type (svc_spec old)) then _ else ∅ : gset Z) in H1.
  specialize (H1 eq_refl). cbv zeta in H1. destruct H1 as (Hf1 & Hd1 & Hm1 & Hsm & Hall1).
  set (UN := if is_node_port_type (ss_service_type (svc_spec svc)) then _ else ∅ : gset Z) in Hd1, Hm1.
  destruct (filled_flags _ _ (ports_filled_filled _ _ Hf1)) as (Hty & _ & Hnh).
  pose proof (ports_filled_hc _ _ Hf1) as Hhc1. destruct (op_ok_held _ _ _ _ Hop1) as [_ Hdis1].
  assert (used_ports old = UO ∪ hc_set old) as Huo by done.
  destruct (update_health_spec (pa_held pa) (pa_range pa) pa1 op1 svc1 old Hg Hop1) as
    (pa2 & op2 & svc2 & r2 & -> & Hop2 & H2).
  { by rewrite /hc_i32 Hhc1. }
  { destruct (needs_health_check old) eqn:E; [left|by right]. assert (hc_port old ∈ pa_held pa) as Hin.
    { apply Hus. rewrite Huo /hc_set E. set_solver. }
    apply pa_held_range in Hin; [|done]. apply good_port in Hin; [lia|done]. }
  { intros E1 E2. rewrite Hhc1. apply Hsame; [done|congruence]. }
  cbn [mbind option_bind]. destruct r2 as [[]|e]; [|by apply Hfail].
  destruct (H2 eq_refl) as (Hf2 & Hp2 & Hd2 & Hm2). destruct (filled_flags _ _ Hf2) as (Hty2 & _ & Hnh2).
  destruct (op_ok_held _ _ _ _ Hop2) as [_ Hdis2].
  assert (collect_service_node_ports svc2 = collect_service_node_ports svc1) as Hcol.
  { unfold collect_service_node_ports. by rewrite Hp2. }
  assert (used_ports svc2 = UN ∪ hc_set svc2) as Hun.
  { unfold used_ports. by rewrite Hty2 Hty Hcol. }
  destruct (settled_sets (pa_held pa) UO UN (hc_set old) (hc_set svc2) (list_to_set (op_release_deferred op2)) (mine op1) (mine op2))
    as (Hset & Hapart & Hdisj).
  { by rewrite -Huo. }
  { unfold hc_set. destruct (needs_health_check old) eqn:E; [|by apply disjoint_empty_l]. apply Hap in E.
    subst UO. clear -E. destruct (is_node_port_type _); set_solver. }
  { done. } { by symmetry. } { by symmetry. } { by rewrite Hd2 Hd1. } { done. }
  eexists. split; [done|]. split.
  - split; [eapply filled_service_trans; [by apply ports_filled_filled|done]|]. split; [|split; [|split]].
    + intros E. pose proof (needs_is_node_port _ E) as Ht. rewrite Hty2 Hty in Ht. unfold hc_set in Hapart.
      rewrite E in Hapart. subst UN. rewrite Ht in Hapart. rewrite Hcol. clear -Hapart. set_solver.
    + intros E. by rewrite Hp2 Hsm.
    + by rewrite Hp2.
    + intros success. destruct (settle_ok _ _ _ _ success Hop2) as (pa3 & ? & ? & ? & Hh3).
      exists pa3. split_and!; try done. rewrite Hh3. destruct success; [|done]. by rewrite Hset /goal Huo Hun.
  - intros op _. simpl. by rewrite Hun Huo.
Qed.

End UpdateTheorem.
