(* ===== verification/NodePortSystem.v ===== *)
(** * The node ports of all services

    The requests on services against the node-port allocator: [request] runs the
    claims of [ServicePorts], the write, and [settle] or the release after a
    delete.  The ports held are those of the stored services, each held by one
    service; a service of a type without node ports breaks this when it names
    some, since nothing claims them and its deletion releases them. *)

From stdpp Require Import strings.
From S2P Require Import Prelude AllocBitmap RangeAllocator AllocInterface PortAllocator PortOperation ServiceTypes ServicePorts ServicePortsProps.

Local Open Scope Z_scope.

Section System.
Context {A : Type} `{!Interface A, !Allocator A, !Reliable A}.
Implicit Types (pa : PortAllocator A).

Record Cluster := mkCluster { cl_ports : PortAllocator A; cl_services : gmap string Service }.

(** A request that is not a dry run; [written] is whether the storage takes the
    write. *)
Inductive Request :=
| ReqCreate (key : string) (svc : Service) (written : bool)
| ReqUpdate (key : string) (svc : Service) (written : bool)
| ReqDelete (key : string).

(** The claim of a request, the write, and the end of its transaction. *)
Definition finish_write (services : gmap string Service) (key : string) (written : bool)
    (x : PortAllocator A * Service * result PortAllocationOperation RegistryError) : option Cluster :=
  let '(pa, svc, r) := x in
  match r with
  | Err _ => Some (mkCluster pa services)
  | Ok op =>
      pa' ← settle pa op written;
      Some (mkCluster pa' (if written then <[key := svc]> services else services))
  end.

Definition request (c : Cluster) (req : Request) : option Cluster :=
  match req with
  | ReqCreate key svc written =>
      x ← txn_alloc_node_ports (cl_ports c) svc false;
      (* a create of a stored key is refused by the storage *)
      finish_write (cl_services c) key (written && bool_decide (cl_services c !! key = None)) x
  | ReqUpdate key svc written =>
      match cl_services c !! key with
      | None => Some c
      | Some old =>
          x ← txn_update_node_ports (cl_ports c) svc old false;
          finish_write (cl_services c) key written x
      end
  | ReqDelete key =>
      match cl_services c !! key with
      | None => Some c
      | Some old =>
          pa' ← release_node_ports (cl_ports c) old;
          Some (mkCluster pa' (delete key (cl_services c)))
      end
  end.

(** What the validation admits. *)
Definition admitted (c : Cluster) (req : Request) : Prop :=
  match req with
  | ReqCreate _ svc _ => hc_i32 svc /\ no_stray_ports svc
  | ReqUpdate key svc _ => hc_i32 svc /\ no_stray_ports svc /\ known_type svc /\
      forall old, cl_services c !! key = Some old -> same_hc svc old
  | ReqDelete _ => True
  end.

(** The ports held are those of the stored services, and no two share one. *)
Record cluster_ok (c : Cluster) : Prop := {
  co_pa : pa_inv (cl_ports c) /\ pr_good (pa_range (cl_ports c));
  co_held p : p ∈ pa_held (cl_ports c) <-> exists key svc, cl_services c !! key = Some svc /\ p ∈ used_ports svc;
  co_apart k1 k2 s1 s2 : cl_services c !! k1 = Some s1 -> cl_services c !! k2 = Some s2 -> k1 <> k2 ->
    used_ports s1 ## used_ports s2;
  co_services key svc : cl_services c !! key = Some svc -> no_stray_ports svc /\ hc_apart svc
}.

(** What is held for the services other than [key]. *)
Lemma held_others c key old :
  cluster_ok c -> cl_services c !! key = Some old ->
  forall p, p ∈ pa_held (cl_ports c) ∖ used_ports old <->
    exists k svc, delete key (cl_services c) !! k = Some svc /\ p ∈ used_ports svc.
Proof.
  intros Hc Hk p. rewrite elem_of_difference (co_held _ Hc). split.
  - intros [(k & svc & Hs & Hp) Hn]. exists k, svc. split; [|done]. rewrite lookup_delete_ne //. intros ->. congruence.
  - intros (k & svc & [Hne Hs]%lookup_delete_Some & Hp). split; [eauto|]. intros Hold.
    by apply (co_apart _ Hc key k old svc Hk Hs Hne p).
Qed.

(** Storing a service whose ports are held, and nobody else's. *)
Lemma cluster_ok_store c key svc pa' rest :
  cluster_ok c -> (forall k s, rest !! k = Some s -> cl_services c !! k = Some s) -> rest !! key = None ->
  pa_inv pa' -> pa_range pa' = pa_range (cl_ports c) -> no_stray_ports svc -> hc_apart svc ->
  (forall p, p ∈ pa_held pa' <-> p ∈ used_ports svc \/ exists k s, rest !! k = Some s /\ p ∈ used_ports s) ->
  (forall k s, rest !! k = Some s -> used_ports svc ## used_ports s) ->
  cluster_ok (mkCluster pa' (<[key := svc]> rest)).
Proof.
  intros [[Hi Hg] _ Hap Hsv] Hrest Hnone Hi' Hr' Hns Ha Hh Hdis. split; simpl.
  - by rewrite Hr'.
  - intros p. rewrite Hh. split.
    + intros [Hp|(k & s & Hs & Hp)]; [exists key, svc; by rewrite lookup_insert_eq|].
      exists k, s. rewrite lookup_insert_ne; [intros ->; congruence|done].
    + intros (k & s & [[_ <-]|[_ Hs]]%lookup_insert_Some & Hp); [by left|right; eauto].
  - intros k1 k2 s1 s2 [[<- <-]|[Hk1 H1]]%lookup_insert_Some [[<- <-]|[Hk2 H2]]%lookup_insert_Some Hne; [done|..].
    + by eapply Hdis.
    + symmetry. by eapply Hdis.
    + by eapply Hap; [apply Hrest|apply Hrest|].
  - intros k s [[_ <-]|[_ Hs]]%lookup_insert_Some; [done|]. eauto.
Qed.

(** The same services over an allocator that holds the same. *)
Lemma cluster_ok_same c pa' :
  cluster_ok c -> pa_inv pa' -> pa_range pa' = pa_range (cl_ports c) -> pa_held pa' = pa_held (cl_ports c) ->
  cluster_ok (mkCluster pa' (cl_services c)).
Proof.
  intros [[Hi Hg] Hh Hap Hsv] Hi' Hr' Hh'. split; simpl; [by rewrite Hr'|by rewrite Hh'|done|done].
Qed.

Lemma no_stray_filled svc svc' : filled_service svc svc' ->
  (is_node_port_type (ss_service_type (svc_spec svc)) = false -> ss_ports (svc_spec svc') = ss_ports (svc_spec svc)) ->
  no_stray_ports svc -> no_stray_ports svc'.
Proof.
  intros Hf Hp Hn. destruct (filled_flags _ _ Hf) as (Hty & _ & _). intros E. rewrite Hty in E.
  unfold collect_service_node_ports. rewrite Hp //. by apply Hn.
Qed.

Lemma release_node_ports_spec pa svc :
  pa_inv pa -> pr_good (pa_range pa) -> no_stray_ports svc -> used_ports svc ⊆ pa_held pa ->
  exists pa', release_node_ports pa svc = Some pa' /\ pa_inv pa' /\ pa_range pa' = pa_range pa /\
    pa_held pa' = pa_held pa ∖ used_ports svc.
Proof.
  intros Hi Hg Hns Hus. unfold release_node_ports.
  destruct (release_ports_spec (collect_service_node_ports svc) pa Hi) as (pa1 & errors & -> & [Hi1 Hr1] & _ & _ & Hh1).
  destruct (Hh1 _) as [_ Hh]. cbn [mbind option_bind].
  assert (used_ports svc = list_to_set (collect_service_node_ports svc) ∪ hc_set svc) as Hu.
  { unfold used_ports. fold (hc_set svc). destruct (is_node_port_type _) eqn:E; [done|]. by rewrite (Hns E). }
  unfold hc_set in Hu. destruct (needs_health_check svc) eqn:En.
  - assert (0 < hc_port svc < 65536) as Hb.
    { eapply good_port; [exact Hg|]. apply pa_held_range; [done|]. apply Hus. rewrite Hu. set_solver. }
    rewrite decide_True; [lia|]. rewrite i32_as_usize_id; [lia|].
    destruct (release_ports_spec [hc_port svc] pa1 Hi1) as (pa2 & e2 & Hrel & [Hi2 Hr2] & _ & _ & Hh2).
    destruct (Hh2 _) as [_ Hhh]. cbn [release_ports] in Hrel. destruct (pa_release pa1 (hc_port svc)) as [[pa3 r3]|]; [|done].
    simpl in Hrel. injection Hrel as -> _. eexists. split; [done|]. split; [done|]. split; [congruence|].
    rewrite Hhh Hh Hu. clear. set_solver.
  - eexists. split; [done|]. split; [done|]. split; [congruence|]. rewrite Hh Hu. clear. set_solver.
Qed.

Lemma create_ok c key svc written :
  cluster_ok c -> hc_i32 svc -> no_stray_ports svc ->
  exists c', request c (ReqCreate key svc written) = Some c' /\ cluster_ok c'.
Proof.
  intros Hc Hhc Hns. pose proof (co_pa _ Hc) as [Hi Hg]. cbn [request].
  destruct (create_spec (cl_ports c) svc Hi Hg Hhc) as ([[pa1 svc1] r1] & -> & Hout & Hdis). cbn [mbind option_bind finish_write].
  destruct r1 as [op|e]; [|destruct Hout as (? & ? & ?); eexists; split; [done|by apply cluster_ok_same]].
  destruct Hout as (Hf & Hap & Hsm & _ & Hset).
  destruct (Hset (written && bool_decide (cl_services c !! key = None))) as (pa2 & -> & Hi2 & Hr2 & Hh2). cbn [mbind option_bind].
  eexists. split; [done|]. destruct (written && _) eqn:Hw; [|by apply cluster_ok_same].
  apply andb_true_iff in Hw as [_ Hnone%bool_decide_eq_true].
  specialize (Hdis op eq_refl). simpl in Hdis.
  apply (cluster_ok_store c key svc1 pa2 (cl_services c)); try done; [by eapply no_stray_filled| |].
  - intros p. rewrite Hh2 elem_of_union (co_held _ Hc). tauto.
  - intros k s Hs. intros p Hp1 Hp2. apply (Hdis p Hp1). apply (co_held _ Hc). eauto.
Qed.

Lemma update_ok c key svc written :
  cluster_ok c -> admitted c (ReqUpdate key svc written) ->
  exists c', request c (ReqUpdate key svc written) = Some c' /\ cluster_ok c'.
Proof.
  intros Hc (Hhc & Hns & Hkt & Hsame). pose proof (co_pa _ Hc) as [Hi Hg]. cbn [request].
  destruct (cl_services c !! key) as [old|] eqn:Hk; [|by eexists].
  destruct (co_services _ Hc _ _ Hk) as [Hnso Hapo].
  assert (used_ports old ⊆ pa_held (cl_ports c)) as Hus by (intros p Hp; apply (co_held _ Hc); eauto).
  destruct (update_spec (cl_ports c) svc old Hi Hg Hhc Hkt (Hsame _ eq_refl) Hnso Hapo Hus)
    as ([[pa1 svc1] r1] & -> & Hout & Hdis). cbn [mbind option_bind finish_write].
  destruct r1 as [op|e]; [|destruct Hout as (? & ? & ?); eexists; split; [done|by apply cluster_ok_same]].
  destruct Hout as (Hf & Hap & Hsm & _ & Hset). destruct (Hset written) as (pa2 & -> & Hi2 & Hr2 & Hh2). cbn [mbind option_bind].
  eexists. split; [done|]. destruct written; [|by apply cluster_ok_same].
  specialize (Hdis op eq_refl). simpl in Hdis. rewrite -insert_delete_eq.
  apply (cluster_ok_store c key svc1 pa2 (delete key (cl_services c))); try done.
  - intros k s [_ ?]%lookup_delete_Some. done.
  - apply lookup_delete_eq.
  - by eapply no_stray_filled.
  - intros p. rewrite Hh2 elem_of_union (held_others c key old Hc Hk p). tauto.
  - intros k s Hs p Hp1 Hp2. apply (Hdis p Hp1). apply (held_others c key old Hc Hk). eauto.
Qed.

Lemma delete_ok c key :
  cluster_ok c -> exists c', request c (ReqDelete key) = Some c' /\ cluster_ok c'.
Proof.
  intros Hc. pose proof (co_pa _ Hc) as [Hi Hg]. cbn [request].
  destruct (cl_services c !! key) as [old|] eqn:Hk; [|by eexists].
  destruct (co_services _ Hc _ _ Hk) as [Hnso _].
  assert (used_ports old ⊆ pa_held (cl_ports c)) as Hus by (intros p Hp; apply (co_held _ Hc); eauto).
  destruct (release_node_ports_spec (cl_ports c) old Hi Hg Hnso Hus) as (pa' & -> & Hi' & Hr' & Hh'). cbn [mbind option_bind].
  eexists. split; [done|]. split; simpl.
  - by rewrite Hr'.
  - intros p. rewrite Hh'. apply (held_others c key old Hc Hk).
  - intros k1 k2 s1 s2 [_ H1]%lookup_delete_Some [_ H2]%lookup_delete_Some. by apply (co_apart _ Hc).
  - intros k s [_ Hs]%lookup_delete_Some. by eapply (co_services _ Hc).
Qed.

Lemma request_ok c req : cluster_ok c -> admitted c req -> exists c', request c req = Some c' /\ cluster_ok c'.
Proof.
  intros Hc Ha. destruct req as [key svc w|key svc w|key].
  - destruct Ha. by apply create_ok.
  - by apply update_ok.
  - by apply delete_ok.
Qed.

Definition cluster_step (c c' : Cluster) : Prop := exists req, admitted c req /\ request c req = Some c'.

(** C4: the ports held are exactly those of the stored services, and no port is
    held by two services: this holds after any sequence of admitted creates,
    updates and deletes, whatever claims are refused and whatever writes fail, and
    the next request never panics. *)
Theorem node_ports_are_the_services c c' req :
  cluster_ok c -> rtc cluster_step c c' ->
  cluster_ok c' /\ (admitted c' req -> is_Some (request c' req)).
Proof.
  intros Hc Hs. assert (cluster_ok c') as Hc'.
  { induction Hs as [|x y z (rq & Ha & Hr) _ IH]; [done|]. apply IH.
    destruct (request_ok x rq Hc Ha) as (y' & Hr' & Hy). congruence. }
  split; [done|]. intros Ha. destruct (request_ok c' req Hc' Ha) as (c2 & -> & _). eauto.
Qed.

(** C16: an update that succeeds trades the node ports of the old service for
    those of the new one, and only fills in the ports that were left open; one
    that fails, in the claim or in the write, changes nothing that is held. *)
Theorem update_node_ports_exact pa svc old :
  pa_inv pa -> pr_good (pa_range pa) -> hc_i32 svc -> known_type svc -> same_hc svc old ->
  no_stray_ports old -> hc_apart old -> used_ports old ⊆ pa_held pa ->
  exists pa' svc' r, txn_update_node_ports pa svc old false = Some (pa', svc', r) /\
    match r with
    | Ok op => filled_service svc svc' /\ used_ports svc' ## pa_held pa ∖ used_ports old /\
        (should_allocate_node_ports svc = true ->
         Forall (fun q => node_port (sp_node_port q) <> 0) (ss_ports (svc_spec svc'))) /\
        forall success, exists pa2, settle pa' op success = Some pa2 /\
          pa_held pa2 = if success then pa_held pa ∖ used_ports old ∪ used_ports svc' else pa_held pa
    | Err _ => pa_held pa' = pa_held pa
    end.
Proof.
  intros H1 H2 H3 H4 H5 H6 H7 H8.
  destruct (update_spec pa svc old H1 H2 H3 H4 H5 H6 H7 H8) as ([[pa' svc'] r] & E & Hout & Hdis).
  exists pa', svc', r. split; [done|]. destruct r as [op|e]; [|apply Hout].
  destruct Hout as (Hf & _ & _ & Hall & Hset). split; [done|]. split; [by apply (Hdis op)|]. split; [done|].
  intros success. destruct (Hset success) as (pa2 & ? & _ & _ & ?). eauto.
Qed.

(** C39: a service of type [ExternalName] may name node ports, which nothing
    claims; its deletion releases them all the same, also when another service
    holds them. *)
Theorem external_name_frees_foreign_ports pa svc p :
  pa_inv pa -> ss_service_type (svc_spec svc) = Some TExternalName -> p ∈ collect_service_node_ports svc ->
  txn_alloc_node_ports pa svc false = Some (pa, svc, Ok (op_start false)) /\
  exists pa', release_node_ports pa svc = Some pa' /\ p ∉ pa_held pa'.
Proof.
  intros Hi Ht Hp. split.
  - unfold txn_alloc_node_ports, needs_health_check. rewrite Ht. simpl. by rewrite Ht.
  - unfold release_node_ports, needs_health_check. rewrite Ht.
    destruct (release_ports_spec (collect_service_node_ports svc) pa Hi) as (pa1 & errors & -> & _ & _ & _ & Hh1).
    destruct (Hh1 _) as [_ Hh]. eexists. split; [done|]. rewrite Hh elem_of_difference. intros [_ Hn].
    apply Hn. by apply elem_of_list_to_set.
Qed.

End System.

Arguments Cluster : clear implicits.

(** Witnesses: two stored services over a bitmap that holds their ports; one more
    is created with a port to be chosen, one asks for a taken port, one is
    changed. *)
Definition demo_service (name : string) (type : ServiceType) (port : option Z) : Service :=
  mkService (mkServiceMeta name (Some "default") "uid" None)
    (set_service_type (set_ports spec_default [mkServicePort None 80 None "TCP" port None]) (Some type)) None.

Definition demo_cluster : Cluster AllocationBitmap :=
  mkCluster demo_ports (<["web" := demo_service "web" TNodePort (Some 30003)]>
    (<["db" := demo_service "db" TNodePort (Some 30070)]> ∅)).

Lemma demo_held : pa_held demo_ports = {[30003; 30070]}.
Proof. vm_compute. reflexivity. Qed.

Lemma demo_services_cases key svc :
  cl_services demo_cluster !! key = Some svc ->
  (key = "web" /\ svc = demo_service "web" TNodePort (Some 30003)) \/
  (key = "db" /\ svc = demo_service "db" TNodePort (Some 30070)).
Proof.
  simpl. intros [[<- <-]|[_ [[<- <-]|[_ H]]%lookup_insert_Some]]%lookup_insert_Some; [by left|by right|].
  by rewrite lookup_empty in H.
Qed.

Lemma demo_used name p : used_ports (demo_service name TNodePort (Some p)) = if decide (p = 0) then ∅ else {[p]}.
Proof.
  unfold used_ports. change (collect_service_node_ports _) with (filter (fun q : Z => q <> 0) [p]).
  rewrite filter_cons filter_nil /=. case_decide as H.
  - rewrite decide_False //. set_solver.
  - rewrite decide_True //.
Qed.

Lemma demo_cluster_ok : cluster_ok demo_cluster.
Proof.
  split.
  - split; [exact demo_ports_inv|]. repeat split; simpl; lia.
  - intros p. simpl cl_ports. rewrite demo_held. split.
    + intros Hp. apply elem_of_union in Hp as [->%elem_of_singleton| ->%elem_of_singleton].
      * exists "web", (demo_service "web" TNodePort (Some 30003)). rewrite demo_used /=. split; [done|set_solver].
      * exists "db", (demo_service "db" TNodePort (Some 30070)). rewrite demo_used /=. split; [done|set_solver].
    + intros (k & s & [[-> ->] | [-> ->]]%demo_services_cases & Hp); rewrite demo_used /= in Hp; set_solver.
  - intros k1 k2 s1 s2 [[-> ->] | [-> ->]]%demo_services_cases [[-> ->] | [-> ->]]%demo_services_cases Hne; try done;
      rewrite !demo_used /=; set_solver.
  - intros k s [[-> ->] | [-> ->]]%demo_services_cases; split; done.
Qed.

Lemma demo_i32 name type port : hc_i32 (demo_service name type port).
Proof. unfold hc_i32, hc_port. simpl. lia. Qed.

Lemma node_ports_are_the_services_witness :
  exists c', rtc cluster_step demo_cluster c' /\ cluster_ok c' /\
    cl_services c' !! "api" = Some (demo_service "api" TNodePort (Some 30021)) /\
    cl_services c' !! "late" = None /\
    cl_services c' !! "web" = Some (demo_service "web" TClusterIP None) /\
    pa_held (cl_ports c') = {[30021; 30070]} /\
    is_Some (request c' (ReqDelete "db")).
Proof.
  eassert (rtc cluster_step demo_cluster _) as Hs.
  { eapply rtc_l; [exists (ReqCreate "api" (demo_service "api" TNodePort None) true); split;
      [by split; [apply demo_i32|]|vm_compute; reflexivity]|].
    eapply rtc_l; [exists (ReqCreate "late" (demo_service "late" TNodePort (Some 30070)) true); split;
      [by split; [apply demo_i32|]|vm_compute; reflexivity]|].
    eapply rtc_l; [exists (ReqUpdate "web" (demo_service "web" TClusterIP None) true); split|apply rtc_refl].
    - split; [apply demo_i32|]. split; [done|]. split; [left|done].
    - vm_compute. reflexivity. }
  destruct (node_ports_are_the_services demo_cluster _ (ReqDelete "db") demo_cluster_ok Hs) as [Hok Hd].
  eexists. split; [exact Hs|]. split; [exact Hok|]. split; [vm_compute; reflexivity|].
  split; [vm_compute; reflexivity|]. split; [vm_compute; reflexivity|]. split; [vm_compute; reflexivity|].
  by apply Hd.
Defined.

Lemma update_node_ports_exact_witness :
  exists pa2, (x ← txn_update_node_ports demo_ports (demo_service "web" TNodePort None)
                     (demo_service "web" TNodePort (Some 30003)) false;
               match x.2 with Ok op => settle x.1.1 op true | Err _ => None end) = Some pa2 /\
    pa_held pa2 = {[30021; 30070]}.
Proof.
  destruct (update_node_ports_exact demo_ports (demo_service "web" TNodePort None)
    (demo_service "web" TNodePort (Some 30003))) as (pa' & svc' & r & E & Hout).
  - exact demo_ports_inv.
  - repeat split; simpl; lia.
  - apply demo_i32.
  - right. left.
  - done.
  - done.
  - done.
  - rewrite demo_used demo_held /=. set_solver.
  - rewrite E. cbn [mbind option_bind]. vm_compute in E. injection E as <- <- <-.
    destruct Hout as (_ & _ & _ & Hset). destruct (Hset true) as (pa2 & Hp2 & Hh).
    exists pa2. split; [exact Hp2|]. rewrite Hh. vm_compute. reflexivity.
Defined.

Lemma external_name_frees_foreign_ports_witness :
  30003 ∈ pa_held demo_ports /\
  exists pa', release_node_ports demo_ports (demo_service "alias" TExternalName (Some 30003)) = Some pa' /\
    30003 ∉ pa_held pa'.
Proof.
  split; [rewrite demo_held; set_solver|].
  apply (external_name_frees_foreign_ports demo_ports (demo_service "alias" TExternalName (Some 30003)) 30003 demo_ports_inv).
  - reflexivity.
  - change (30003 ∈ [30003]). left.
Defined.
