(* ===== verification/F64.v ===== *)
(** * [f64]

    The double-precision floats of Rust, as the executable specification of
    IEEE 754 in the Standard Library ([SpecFloat]): the conversions, the product
    and the quotient the controllers use, and the parser. *)

From stdpp Require Import strings.
From Stdlib Require Import Ascii.
From Stdlib Require SpecFloat.
From S2P Require Import Prelude Quantity.

Local Open Scope string_scope.
Local Open Scope Z_scope.

Abbreviation f64 := SpecFloat.spec_float.

(** Binary64: 53 bits of mantissa, exponents below 1024. *)
Definition f64_of_Z (z : Z) : f64 := SpecFloat.binary_normalize 53 1024 z 0 false.
Definition f64_mul (x y : f64) : f64 := SpecFloat.SFmul 53 1024 x y.
Definition f64_div (x y : f64) : f64 := SpecFloat.SFdiv 53 1024 x y.

(** ** To an integer *)

(** A finite float is [num / den], [den] positive. *)
Definition f64_num (s : bool) (m : positive) (e : Z) : Z :=
  (if s then -1 else 1) * Zpos m * 2 ^ Z.max e 0.
Definition f64_den (e : Z) : Z := 2 ^ Z.max (- e) 0.

(** The least integer above, and the nearest one, halves away from zero. *)
Definition ceil_div (n d : Z) : Z := - (- n / d).
Definition round_div (n d : Z) : Z := Z.sgn n * ((2 * Z.abs n + d) / (2 * d)).

(** [as i32]: saturating, and zero for a NaN. *)
Definition f64_as_i32 (rounding : Z -> Z -> Z) (x : f64) : Z :=
  match x with
  | SpecFloat.S754_nan | SpecFloat.S754_zero _ => 0
  | SpecFloat.S754_infinity s => if s then I32_MIN else I32_MAX
  | SpecFloat.S754_finite s m e => i32_saturate (rounding (f64_num s m e) (f64_den e))
  end.

(** [x.ceil() as i32] and [x.round() as i32] *)
Definition f64_ceil_i32 : f64 -> Z := f64_as_i32 ceil_div.
Definition f64_round_i32 : f64 -> Z := f64_as_i32 round_div.

Lemma f64_as_i32_range rounding x : I32_MIN <= f64_as_i32 rounding x <= I32_MAX.
Proof. unfold f64_as_i32, i32_saturate, I32_MIN, I32_MAX. destruct x as [s|[|]| |s m e]; lia. Qed.

(** ** Parsing *)

(** The value [n * 10 ^ k], correctly rounded. *)
Definition f64_decimal (negative : bool) (n k : Z) : f64 :=
  match n with
  | Zpos p =>
      let x := SpecFloat.S754_finite negative p 0 in
      if decide (0 <= k) then
        SpecFloat.binary_normalize 53 1024 ((if negative then -1 else 1) * n * 10 ^ k) 0 negative
      else f64_div x (SpecFloat.S754_finite false (Z.to_pos (10 ^ (- k))) 0)
  | _ => SpecFloat.S754_zero negative
  end.

Definition to_lower (c : Ascii.ascii) : Ascii.ascii :=
  let n := Ascii.N_of_ascii c in
  if ((65 <=? n) && (n <=? 90))%N then Ascii.ascii_of_N (n + 32) else c.

Fixpoint lower (s : string) : string :=
  match s with String c s' => String (to_lower c) (lower s') | EmptyString => EmptyString end.

(** The exponent that ends a number. *)
Definition parse_exponent (s : string) : option Z :=
  match s with
  | EmptyString => Some 0
  | String c s' =>
      if decide (to_lower c = "e"%char) then
        let '(sign, ds) :=
          match s' with
          | String c' s'' =>
              if decide (c' = "+"%char) then (1, s'') else if decide (c' = "-"%char) then (-1, s'') else (1, s')
          | EmptyString => (1, s')
          end in
        if all_digits ds then Some (sign * dec_value 0 ds) else None
      else None
  end.

Definition parse_number (negative : bool) (s : string) : option f64 :=
  let '(whole, rest) := span_digits s in
  let '(fraction, rest) :=
    match rest with
    | String c rest' => if decide (c = "."%char) then span_digits rest' else (EmptyString, rest)
    | EmptyString => (EmptyString, rest)
    end in
  if decide (whole = "" /\ fraction = "") then None
  else
    e ← parse_exponent rest;
    Some (f64_decimal negative (dec_value 0 (whole +:+ fraction)) (e - Z.of_nat (String.length fraction))).

(** [s.parse::<f64>()] *)
Definition parse_f64 (s : string) : option f64 :=
  let '(negative, body) :=
    match s with
    | String c s' =>
        if decide (c = "+"%char) then (false, s') else if decide (c = "-"%char) then (true, s') else (false, s)
    | EmptyString => (false, s)
    end in
  let word := lower body in
  if decide (word = "inf" \/ word = "infinity") then Some (SpecFloat.S754_infinity negative)
  else if decide (word = "nan") then Some SpecFloat.S754_nan
  else parse_number negative body.

Example parse_f64_ex : parse_f64 "25" = Some (f64_of_Z 25) /\ parse_f64 ".5e1" = Some (f64_of_Z 5) /\
  parse_f64 "1e400" = Some (SpecFloat.S754_infinity false) /\ parse_f64 "5%" = None /\ parse_f64 "." = None /\
  parse_f64 "0.07" = Some (f64_div (f64_of_Z 7) (f64_of_Z 100)).
Proof. vm_compute. repeat split. Qed.

(** ** Signs *)

(** No negative value; what a NaN becomes is no matter. *)
Definition f64_nonneg (x : f64) : Prop :=
  match x with
  | SpecFloat.S754_zero s | SpecFloat.S754_infinity s | SpecFloat.S754_finite s _ _ => s = false
  | SpecFloat.S754_nan => True
  end.

Lemma round_aux_nonneg m e l : f64_nonneg (SpecFloat.binary_round_aux 53 1024 false m e l).
Proof.
  unfold SpecFloat.binary_round_aux. repeat case_match; done.
Qed.

Lemma f64_of_Z_nonneg z : 0 <= z -> f64_nonneg (f64_of_Z z).
Proof.
  unfold f64_of_Z, SpecFloat.binary_normalize, SpecFloat.binary_round. destruct z; [done| |lia].
  intros _. destruct (SpecFloat.shl_align _ _ _). apply round_aux_nonneg.
Qed.

Lemma f64_mul_nonneg x y : f64_nonneg x -> f64_nonneg y -> f64_nonneg (f64_mul x y).
Proof.
  unfold f64_mul. destruct x as [[]|[]| |[]], y as [[]|[]| |[]]; cbn; try done. intros _ _. apply round_aux_nonneg.
Qed.

Lemma f64_div_nonneg x y : f64_nonneg x -> f64_nonneg y -> f64_nonneg (f64_div x y).
Proof.
  unfold f64_div. destruct x as [[]|[]| |[] m e], y as [[]|[]| |[] m' e']; try done. intros _ _.
  unfold SpecFloat.SFdiv. destruct (SpecFloat.SFdiv_core_binary _ _ _ _ _ _) as [[q e2] l]. apply round_aux_nonneg.
Qed.

Lemma f64_round_nonneg x : f64_nonneg x -> 0 <= f64_round_i32 x.
Proof.
  unfold f64_round_i32, f64_as_i32. destruct x as [|[]| |[] m e]; try done.
  intros _. unfold i32_saturate, round_div. assert (0 <= f64_num false m e) as Hn by (unfold f64_num; lia).
  assert (0 <= Z.sgn (f64_num false m e) * ((2 * Z.abs (f64_num false m e) + f64_den e) / (2 * f64_den e))).
  { apply Z.mul_nonneg_nonneg; [lia|]. assert (0 < f64_den e) by (unfold f64_den; lia). apply Z.div_pos; lia. }
  unfold I32_MIN, I32_MAX in *. lia.
Qed.
