(* ===== verification/DeploymentTypes.v ===== *)
(** * Deployments, ReplicaSets and their pods

    The parts of [crates/common/src/resources/deployment.rs], [workloads.rs],
    [pod.rs] and [types.rs] that the deployment controller reads and writes.  An
    [i32] is a [Z], a time is [Z] nanoseconds.  What a pod template serialises to
    besides its labels is carried as JSON. *)

From stdpp Require Import strings pretty.
From Stdlib Require Import Ascii.
From S2P Require Import Prelude BTree Json Authz ServiceTypes RustText Quantity F64.

Record OwnerReference := mkOwnerRef {
  or_api_version : string;
  or_kind : string;
  or_name : string;
  or_uid : string;
  or_block_owner_deletion : option bool;
  or_controller : option bool
}.

(** [ObjectMeta] *)
Record Meta := mkMeta {
  m_name : string;
  m_namespace : option string;
  m_uid : string;
  m_generation : option Z;
  m_creation_timestamp : option Z;
  m_deletion_timestamp : option Z;
  m_labels : option (gmap string string);
  m_annotations : option (gmap string string);
  m_owner_references : option (list OwnerReference)
}.

Inductive Phase := Pending | Running | Succeeded | Failed | PhUnknown | Active | Terminating.

Record PodCondition := mkPodCondition {
  pc_type : string;
  pc_status : string;
  pc_last_transition_time : option Z
}.

Record PodStatus := mkPodStatus {
  pst_phase : option Phase;
  pst_conditions : option (list PodCondition)
}.

Record Pod := mkPod { pod_metadata : Meta; pod_status : option PodStatus }.

(** The metadata of a template: its labels, and the other members as they are
    serialised. *)
Record TemplateMeta := mkTemplateMeta {
  tm_labels : option (gmap string string);
  tm_rest : list (string * Json)
}.

Record PodTemplateSpec := mkTemplate { pt_metadata : option TemplateMeta; pt_spec : Json }.

Record ReplicaSetCondition := mkRsCondition {
  rsc_type : string;
  rsc_status : string;
  rsc_reason : option string;
  rsc_message : option string
}.

Record ReplicaSetStatus := mkRsStatus {
  rst_replicas : Z;
  rst_ready_replicas : Z;
  rst_available_replicas : Z;
  rst_conditions : option (list ReplicaSetCondition)
}.

Record ReplicaSetSpec := mkRsSpec {
  rsp_replicas : Z;
  rsp_selector : LabelSelector;
  rsp_template : PodTemplateSpec;
  rsp_min_ready_seconds : option Z
}.

Record ReplicaSet := mkReplicaSet {
  rs_metadata : Meta;
  rs_spec : ReplicaSetSpec;
  rs_status : option ReplicaSetStatus
}.

Record RollingUpdateDeployment := mkRollingUpdate {
  ru_max_unavailable : option IntOrString;
  ru_max_surge : option IntOrString
}.

Record DeploymentStrategy := mkStrategy {
  st_strategy_type : string;
  st_rolling_update : option RollingUpdateDeployment
}.

Record DeploymentSpec := mkDeploymentSpec {
  ds_replicas : option Z;
  ds_selector : LabelSelector;
  ds_template : PodTemplateSpec;
  ds_strategy : option DeploymentStrategy;
  ds_min_ready_seconds : option Z;
  ds_revision_history_limit : option Z;
  ds_paused : option bool;
  ds_progress_deadline_seconds : option Z
}.

Record DeploymentCondition := mkDeploymentCondition {
  dc_type : string;
  dc_status : string;
  dc_reason : option string;
  dc_message : option string;
  dc_last_update_time : option Z;
  dc_last_transition_time : option Z
}.

Record DeploymentStatus := mkDeploymentStatus {
  dst_replicas : option Z;
  dst_updated_replicas : option Z;
  dst_ready_replicas : option Z;
  dst_available_replicas : option Z;
  dst_unavailable_replicas : option Z;
  dst_conditions : option (list DeploymentCondition);
  dst_collision_count : option Z;
  dst_observed_generation : option Z;
  dst_terminating_replicas : option Z
}.

Record Deployment := mkDeployment {
  d_metadata : Meta;
  d_spec : DeploymentSpec;
  d_status : option DeploymentStatus
}.

#[export] Instance OwnerReference_eq_dec : EqDecision OwnerReference.
Proof. solve_decision. Defined.

(** ** Assignments *)

Definition set_annotations (m : Meta) (a : option (gmap string string)) : Meta :=
  mkMeta (m_name m) (m_namespace m) (m_uid m) (m_generation m) (m_creation_timestamp m) (m_deletion_timestamp m)
    (m_labels m) a (m_owner_references m).

(** [annotations.get_or_insert_with(HashMap::new).insert(k, v)] *)
Definition insert_annotation (m : Meta) (k v : string) : Meta :=
  set_annotations m (Some (<[k := v]> (default ∅ (m_annotations m)))).

Definition annotation (m : Meta) (k : string) : option string :=
  a ← m_annotations m; a !! k.

Definition push_owner (m : Meta) (o : OwnerReference) : Meta :=
  mkMeta (m_name m) (m_namespace m) (m_uid m) (m_generation m) (m_creation_timestamp m) (m_deletion_timestamp m)
    (m_labels m) (m_annotations m) (Some (default [] (m_owner_references m) ++ [o])).

Definition with_rs_meta (rs : ReplicaSet) (m : Meta) : ReplicaSet := mkReplicaSet m (rs_spec rs) (rs_status rs).

Definition set_replicas (rs : ReplicaSet) (n : Z) : ReplicaSet :=
  let s := rs_spec rs in
  mkReplicaSet (rs_metadata rs) (mkRsSpec n (rsp_selector s) (rsp_template s) (rsp_min_ready_seconds s)) (rs_status rs).

Definition with_d_meta (d : Deployment) (m : Meta) : Deployment := mkDeployment m (d_spec d) (d_status d).
Definition with_d_status (d : Deployment) (st : DeploymentStatus) : Deployment :=
  mkDeployment (d_metadata d) (d_spec d) (Some st).

Definition rs_name (rs : ReplicaSet) : string := m_name (rs_metadata rs).
Definition rs_replicas (rs : ReplicaSet) : Z := rsp_replicas (rs_spec rs).

(** [IntOrString]'s [to_string] *)
Definition int_or_string_text (v : IntOrString) : string :=
  match v with IosInt n => pretty n | IosString s => s end.

(** ** The serialised template *)

Definition json_of_labels (l : gmap string string) : Json :=
  JObject (foldr (fun kv m => obj_insert kv.1 (JString kv.2) m) [] (map_to_list l)).

Definition json_of_template_meta (tm : TemplateMeta) : Json :=
  JObject (match tm_labels tm with
           | Some l => obj_insert "labels" (json_of_labels l) (tm_rest tm)
           | None => tm_rest tm
           end).

(** [serde_json::to_value(&template)] *)
Definition json_of_template (t : PodTemplateSpec) : Json :=
  let spec := [("spec", pt_spec t)] in
  JObject (match pt_metadata t with
           | Some tm => obj_insert "metadata" (json_of_template_meta tm) spec
           | None => spec
           end).

(** * The arithmetic of a rollout

    The parts of [crates/controller-manager/src/controllers/deployment.rs] that
    compute: percentages, the parameters of a rolling update, and whether two pod
    templates are the same. *)

Local Open Scope string_scope.
Local Open Scope Z_scope.

(** ** Percentages *)

Definition percent : ascii := "%"%char.

Definition parse_int_or_percent (s : string) (total : Z) : Z :=
  if ends_with percent s then
    let pct := default (f64_of_Z 25) (parse_f64 (trim_end_matches percent s)) in
    f64_ceil_i32 (f64_mul (f64_div pct (f64_of_Z 100)) (f64_of_Z total))
  else default 1 (parse_i32 s).

Definition compute_rolling_update_counts (desired : Z) (max_surge max_unavailable : string) : Z * Z :=
  (parse_int_or_percent max_surge desired, parse_int_or_percent max_unavailable desired).

Definition is_rolling_update (d : Deployment) : bool :=
  match ds_strategy (d_spec d) with
  | Some s => bool_decide (st_strategy_type s = "RollingUpdate")
  | None => true
  end.

(** The texts of [maxSurge] and [maxUnavailable]. *)
Definition rolling_update_params (d : Deployment) : string * string :=
  match ds_strategy (d_spec d) ≫= st_rolling_update with
  | Some ru => (default "25%" (int_or_string_text <$> ru_max_surge ru),
                default "25%" (int_or_string_text <$> ru_max_unavailable ru))
  | None => ("25%", "25%")
  end.

Definition desired_of (d : Deployment) : Z := default 1 (ds_replicas (d_spec d)).

(** [(max_surge, max_unavailable)] *)
Definition rolling_counts (d : Deployment) : Z * Z :=
  compute_rolling_update_counts (desired_of d) (rolling_update_params d).1 (rolling_update_params d).2.

(** ** Templates *)

(** The members of an object, changed. *)
Definition with_object (f : list (string * Json) -> list (string * Json)) (v : Json) : Json :=
  match v with JObject m => JObject (f m) | _ => v end.

(** The member [k], changed where it is. *)
Definition with_member (k : string) (f : Json -> Json) (m : list (string * Json)) : list (string * Json) :=
  match obj_get k m with Some v => obj_insert k (f v) m | None => m end.

Definition remove_if (k : string) (p : Json -> bool) (m : list (string * Json)) : list (string * Json) :=
  match obj_get k m with Some v => if p v then obj_remove k m else m | None => m end.

Definition is_json (w v : Json) : bool := json_eqb v w.
Definition is_null_or (w v : Json) : bool := json_eqb v JNull || json_eqb v w.

Definition POD_TEMPLATE_HASH : string := "pod-template-hash".

Definition optional_fields : list string :=
  ["nodeName"; "nodeSelector"; "hostname"; "subdomain"; "priority"; "runtimeClassName"; "overhead";
   "serviceAccountName"; "serviceAccount"; "automountServiceAccountToken"; "preemptionPolicy"].

Definition strip_container (m : list (string * Json)) : list (string * Json) :=
  let m := remove_if "terminationMessagePath" (is_json (JString "/dev/termination-log")) m in
  let m := remove_if "terminationMessagePolicy" (is_json (JString "File")) m in
  let m := obj_remove "imagePullPolicy" m in
  remove_if "resources" (is_json (JObject [])) m.

Definition strip_containers (v : Json) : Json :=
  match v with JArray l => JArray (with_object strip_container <$> l) | _ => v end.

Definition strip_spec (m : list (string * Json)) : list (string * Json) :=
  let m := remove_if "dnsPolicy" (is_json (JString "ClusterFirst")) m in
  let m := remove_if "restartPolicy" (is_json (JString "Always")) m in
  let m := remove_if "schedulerName" (is_json (JString "default-scheduler")) m in
  let m := remove_if "terminationGracePeriodSeconds" (is_json (JNumber "30")) m in
  let m := remove_if "securityContext" (is_null_or (JObject [])) m in
  let m := foldl (fun m field => remove_if field (is_null_or (JString "")) m) m optional_fields in
  let m := foldl (fun m field => with_member field strip_containers m) m ["containers"; "initContainers"] in
  remove_if "volumes" (is_null_or (JArray [])) m.

(** The hash label and the defaults taken out of a serialised template. *)
Definition strip_template (v : Json) : Json :=
  let v := with_object (with_member "metadata" (with_object (with_member "labels"
             (with_object (obj_remove POD_TEMPLATE_HASH))))) v in
  with_object (with_member "spec" (with_object strip_spec)) v.

Definition replicaset_matches_template (rs : ReplicaSet) (d : Deployment) : bool :=
  json_eqb (strip_template (json_of_template (rsp_template (rs_spec rs))))
           (strip_template (json_of_template (ds_template (d_spec d)))).

(** [compute_pod_template_hash]: the digits of a SHA-256 of the serialised
    template, a library's. *)
Class TemplateHash := template_hash : Json -> string.

Definition compute_pod_template_hash `{!TemplateHash} (d : Deployment) : string :=
  template_hash (json_of_template (ds_template (d_spec d))).

Example counts_ex : compute_rolling_update_counts 10 "25%" "2" = (3, 2) /\ parse_int_or_percent "abc%" 10 = 3 /\
  parse_int_or_percent "" 10 = 1 /\ parse_int_or_percent "100%%" 7 = 7 /\ parse_int_or_percent "-0%" 5 = 0.
Proof. vm_compute. repeat split. Qed.

Example seven_percent : parse_int_or_percent "7%" 100 = 8.
Proof. vm_compute. reflexivity. Qed.
