(* ===== verification/DeploymentController.v ===== *)
(** * The deployment controller

    A pass of [crates/controller-manager/src/controllers/deployment.rs] over one
    deployment.

    - [World] is what the pass reads and writes: the ReplicaSets of the namespace
      in the order of their keys, its pods, the deployment as it is stored, the
      parked write of this pass, and the answers of the storage to the next
      writes (a write past the end of the list is taken).
    - [M] is the monad of the pass: it returns [None] when an [i32] or [i64]
      operation overflows, and [Err] when it ends at a refused write.
    - The clock is read once per pass: [now]. *)

From stdpp Require Import strings pretty.
From S2P Require Import Prelude RustText BTree Json Authz ServiceTypes Quantity LabelSelector F64 DeploymentTypes.

Local Open Scope string_scope.
Local Open Scope Z_scope.

Record World := mkWorld {
  w_rss : list ReplicaSet;
  w_pods : list Pod;
  w_deployment : option Deployment;
  w_own_write : option Deployment;
  w_answers : list bool
}.

Inductive ControllerError := WriteRefused.

Definition set_rss (l : list ReplicaSet) (w : World) : World :=
  mkWorld l (w_pods w) (w_deployment w) (w_own_write w) (w_answers w).
Definition set_stored (d : option Deployment) (w : World) : World :=
  mkWorld (w_rss w) (w_pods w) d (w_own_write w) (w_answers w).
Definition set_own_write (d : option Deployment) (w : World) : World :=
  mkWorld (w_rss w) (w_pods w) (w_deployment w) d (w_answers w).
Definition set_answers (l : list bool) (w : World) : World :=
  mkWorld (w_rss w) (w_pods w) (w_deployment w) (w_own_write w) l.

(** ** The monad *)

Definition M (A : Type) : Type := World -> option (World * result A ControllerError).

Definition ret {A} (a : A) : M A := fun w => Some (w, Ok a).
Definition bind {A B} (m : M A) (f : A -> M B) : M B := fun w =>
  match m w with
  | Some (w', Ok a) => f a w'
  | Some (w', Err e) => Some (w', Err e)
  | None => None
  end.
Definition fail {A} (e : ControllerError) : M A := fun w => Some (w, Err e).
(** [let _ = ..] and [if let Ok(..) = ..]: an error is dropped. *)
Definition attempt {A} (m : M A) : M (option A) := fun w =>
  match m w with
  | Some (w', Ok a) => Some (w', Ok (Some a))
  | Some (w', Err _) => Some (w', Ok None)
  | None => None
  end.
(** An arithmetic operation, which can overflow. *)
Definition num {A} (o : option A) : M A := fun w => a ← o; Some (w, Ok a).
Definition reads {A} (f : World -> A) : M A := fun w => Some (w, Ok (f w)).
Definition modify (f : World -> World) : M unit := fun w => Some (f w, Ok tt).

Declare Scope controller_scope.
Delimit Scope controller_scope with controller.
Notation "'let!' x := m 'in' k" := (bind m (fun x => k))
  (at level 100, x pattern, m at level 200, k at level 200, right associativity) : controller_scope.
Notation "m ;; k" := (bind m (fun _ => k)) (at level 100, right associativity) : controller_scope.
Local Open Scope controller_scope.

Fixpoint for_each {A} (f : A -> M unit) (l : list A) : M unit :=
  match l with [] => ret tt | x :: l' => f x ;; for_each f l' end.

(** ** Overflow *)

Definition checked64 (z : Z) : option Z := if decide (- 2 ^ 63 <= z < 2 ^ 63) then Some z else None.

(** [iter.sum::<i32>()] *)
Definition sum32 (l : list Z) : option Z := foldl (fun acc z => a ← acc; checked32 (a + z)) (Some 0) l.

(** ** The storage *)

(** The answer to the next write. *)
Definition ask : M bool := fun w =>
  match w_answers w with
  | [] => Some (w, Ok true)
  | b :: l => Some (set_answers l w, Ok b)
  end.

Definition find_rs (name : string) (l : list ReplicaSet) : option ReplicaSet :=
  List.find (fun rs => bool_decide (rs_name rs = name)) l.

Definition replace_rs (rs : ReplicaSet) (l : list ReplicaSet) : list ReplicaSet :=
  (fun r => if decide (rs_name r = rs_name rs) then rs else r) <$> l.

(** [storage.update] of a ReplicaSet. *)
Definition store_rs (rs : ReplicaSet) : M unit :=
  let! ok := ask in
  let! l := reads w_rss in
  if ok && bool_decide (is_Some (find_rs (rs_name rs) l)) then modify (fun w => set_rss (replace_rs rs (w_rss w)) w)
  else fail WriteRefused.

(** [storage.create] of a ReplicaSet: an existing key is no error to the caller. *)
Definition create_rs (rs : ReplicaSet) : M unit :=
  let! l := reads w_rss in
  if bool_decide (is_Some (find_rs (rs_name rs) l)) then ret tt
  else
    let! ok := ask in
    if ok then modify (fun w => set_rss (insert_by_key rs_name rs (w_rss w)) w) else fail WriteRefused.

Definition delete_rs (name : string) : M unit :=
  let! ok := ask in
  if ok then modify (fun w => set_rss (filter (fun rs => rs_name rs <> name) (w_rss w)) w) else fail WriteRefused.

Definition store_deployment (d : Deployment) : M Deployment :=
  let! ok := ask in
  let! stored := reads w_deployment in
  if ok && bool_decide (is_Some stored) then modify (set_stored (Some d)) ;; ret d else fail WriteRefused.

(** [update_status_cas]: only the status of what is stored changes. *)
Definition store_status (d : Deployment) : M unit :=
  let! ok := ask in
  let! stored := reads w_deployment in
  match ok, stored, d_status d with
  | true, Some s, Some st => modify (set_stored (Some (with_d_status s st)))
  | true, Some s, None => ret tt
  | _, _, _ => fail WriteRefused
  end.

Definition remember_own_write (written : Deployment) : M unit := modify (set_own_write (Some written)).
Definition take_own_write : M (option Deployment) :=
  let! d := reads w_own_write in modify (set_own_write None) ;; ret d.

(** ** Ownership and adoption *)

Definition is_owned_by_deployment (rs : ReplicaSet) (d : Deployment) : bool :=
  match m_owner_references (rs_metadata rs) with
  | Some refs => existsb (fun o => bool_decide (or_kind o = "Deployment" /\ or_name o = m_name (d_metadata d) /\
                                                or_uid o = m_uid (d_metadata d))) refs
  | None => false
  end.

Definition owned_by (d : Deployment) (l : list ReplicaSet) : list ReplicaSet :=
  filter (fun rs => is_owned_by_deployment rs d = true) l.

Definition has_controller_owner (rs : ReplicaSet) : bool :=
  match m_owner_references (rs_metadata rs) with
  | Some refs => existsb (fun o => bool_decide (or_controller o = Some true)) refs
  | None => false
  end.

(** [match_labels.iter().all(|(k, v)| labels.get(k) == Some(v))] *)
Definition labels_match (match_labels : option (gmap string string)) (labels : option (gmap string string)) : bool :=
  match match_labels, labels with
  | Some m, Some l => forallb (fun kv => bool_decide (l !! kv.1 = Some kv.2)) (map_to_list m)
  | _, _ => false
  end.

Definition deployment_owner (d : Deployment) : OwnerReference :=
  mkOwnerRef "apps/v1" "Deployment" (m_name (d_metadata d)) (m_uid (d_metadata d)) (Some true) (Some true).

Definition adopt (d : Deployment) (rs : ReplicaSet) : M unit :=
  if is_owned_by_deployment rs d then ret tt
  else if has_controller_owner rs then ret tt
  else if labels_match (match_labels (ds_selector (d_spec d))) (m_labels (rs_metadata rs)) then
    attempt (store_rs (with_rs_meta rs (push_owner (rs_metadata rs) (deployment_owner d)))) ;; ret tt
  else ret tt.

(** ** Revisions *)

Definition REVISION : string := "deployment.kubernetes.io/revision".
Definition DESIRED_REPLICAS : string := "deployment.kubernetes.io/desired-replicas".
Definition MAX_REPLICAS : string := "deployment.kubernetes.io/max-replicas".

Definition revision_of (rs : ReplicaSet) : option Z := annotation (rs_metadata rs) REVISION ≫= parse_i64.

Definition hash_of (rs : ReplicaSet) : string := default "" (m_labels (rs_metadata rs) ≫= (.!! POD_TEMPLATE_HASH)).

(** [iter.max()] *)
Definition max_of (l : list Z) : option Z :=
  match l with [] => None | z :: l' => Some (foldl Z.max z l') end.

Section Pass.
Context `{!TemplateHash}.

(** The revision of the new ReplicaSet: one more than those of the old ones. *)
Definition revision_for (d : Deployment) (owned : list ReplicaSet) : option Z :=
  let hash := compute_pod_template_hash d in
  let max_old := default 0 (max_of (omap revision_of (filter (fun rs => hash_of rs <> hash) owned))) in
  let newest := default 0 (max_of (omap revision_of (filter (fun rs => hash_of rs = hash) owned))) in
  next ← checked64 (max_old + 1);
  Some (Z.max (Z.max next newest) 1).

Definition annotate_revision (d : Deployment) (revision : string) (rs : ReplicaSet) : M unit :=
  if decide (hash_of rs = compute_pod_template_hash d /\ default "" (annotation (rs_metadata rs) REVISION) <> revision) then
    attempt (store_rs (with_rs_meta rs (insert_annotation (rs_metadata rs) REVISION revision))) ;; ret tt
  else ret tt.

Definition sync_revision (d : Deployment) (owned : list ReplicaSet) : M unit :=
  let! n := num (revision_for d owned) in
  let revision := pretty n in
  for_each (annotate_revision d revision) owned ;;
  if decide (default "" (annotation (d_metadata d) REVISION) = revision) then ret tt
  else
    let! written := attempt (store_deployment (with_d_meta d (insert_annotation (d_metadata d) REVISION revision))) in
    match written with Some dep => remember_own_write dep | None => ret tt end.

(** ** Writing replicas *)

Definition update_replicaset_replicas (rs : ReplicaSet) (replicas : Z) : M unit :=
  let! l := reads w_rss in
  let updated := default rs (find_rs (rs_name rs) l) in
  if decide (rs_replicas updated = replicas) then ret tt else store_rs (set_replicas updated replicas).

Definition set_desired_replicas_annotation (rs : ReplicaSet) (desired max_surge : Z) : M unit :=
  let! l := reads w_rss in
  match find_rs (rs_name rs) l with
  | None => ret tt
  | Some fresh =>
      let! max_replicas := num (checked32 (desired + max_surge)) in
      let m0 := set_annotations (rs_metadata fresh) (Some (default ∅ (m_annotations (rs_metadata fresh)))) in
      let m1 := if decide (annotation m0 DESIRED_REPLICAS = Some (pretty desired)) then m0
                else insert_annotation m0 DESIRED_REPLICAS (pretty desired) in
      let m2 := if decide (annotation m1 MAX_REPLICAS = Some (pretty max_replicas)) then m1
                else insert_annotation m1 MAX_REPLICAS (pretty max_replicas) in
      if decide (annotation m0 DESIRED_REPLICAS = Some (pretty desired) /\
                 annotation m1 MAX_REPLICAS = Some (pretty max_replicas)) then ret tt
      else attempt (store_rs (with_rs_meta fresh m2)) ;; ret tt
  end.

(** ** Scaling events *)

Definition active_of (d : Deployment) (owned : list ReplicaSet) : option ReplicaSet :=
  List.find (fun rs => replicaset_matches_template rs d) owned.

Definition old_of (d : Deployment) (owned : list ReplicaSet) : list ReplicaSet :=
  match active_of d owned with
  | Some active => filter (fun rs => rs_name rs <> rs_name active) owned
  | None => owned
  end.

Definition old_rs_total (d : Deployment) (owned : list ReplicaSet) : option Z := sum32 (rs_replicas <$> old_of d owned).

Definition with_replicas (owned : list ReplicaSet) : list ReplicaSet := filter (fun rs => 0 < rs_replicas rs) owned.

(** The annotation of a ReplicaSet that names another count. *)
Definition rescaled (desired : Z) (rs : ReplicaSet) : bool :=
  match annotation (rs_metadata rs) DESIRED_REPLICAS ≫= parse_i32 with
  | Some annotated => negb (bool_decide (annotated = desired))
  | None => false
  end.

Definition is_scaling_event (d : Deployment) (owned : list ReplicaSet) (old_total : Z) : bool :=
  is_rolling_update d && bool_decide (0 < old_total) && existsb (rescaled (desired_of d)) (with_replicas owned).

Definition single_active_rs (owned : list ReplicaSet) : option ReplicaSet :=
  match with_replicas owned with [only] => Some only | _ => None end.

(** The order of the distribution: by size, then by age, then by name. *)
Definition option_cmp (a b : option Z) : comparison :=
  match a, b with
  | None, None => Eq | None, Some _ => Lt | Some _, None => Gt
  | Some x, Some y => (x ?= y)%Z
  end.

Definition then_with (c d : comparison) : comparison := match c with Eq => d | _ => c end.

Definition size_cmp (scaling_up : bool) (a b : ReplicaSet) : comparison :=
  let older := option_cmp (m_creation_timestamp (rs_metadata a)) (m_creation_timestamp (rs_metadata b)) in
  then_with (rs_replicas b ?= rs_replicas a)%Z
    (then_with (if scaling_up then CompOpp older else older) (String.compare (rs_name a) (rs_name b))).

Definition not_greater (c : comparison) : bool := match c with Gt => false | _ => true end.

Definition sorted_by_size (scaling_up : bool) (owned : list ReplicaSet) : list ReplicaSet :=
  sort_by (fun a b => not_greater (size_cmp scaling_up a b)) owned.

(** The share of one ReplicaSet, in floats. *)
Definition fraction_of (allowed_size all_replicas : Z) (rs : ReplicaSet) : option Z :=
  let old_max := default all_replicas (annotation (rs_metadata rs) MAX_REPLICAS ≫= parse_i32) in
  if decide (0 < old_max) then
    checked32 (f64_round_i32 (f64_div (f64_mul (f64_of_Z (rs_replicas rs)) (f64_of_Z allowed_size)) (f64_of_Z old_max))
               - rs_replicas rs)
  else Some 0.

(** One turn of the distribution: [(added, updates)]. *)
Definition distribute_one (allowed_size all_replicas to_add : Z) (st : Z * list (string * Z)) (rs : ReplicaSet)
    : option (Z * list (string * Z)) :=
  let '(added, updates) := st in
  if decide (rs_replicas rs = 0) then Some st
  else
    fraction ← fraction_of allowed_size all_replicas rs;
    allowed ← checked32 (to_add - added);
    let proportion := if decide (0 < to_add) then Z.max (Z.min fraction allowed) 0
                      else Z.min (Z.max fraction allowed) 0 in
    sized ← checked32 (rs_replicas rs + proportion);
    let new_replicas := Z.max sized 0 in
    added' ← checked32 (added + proportion);
    Some (added', if decide (new_replicas = rs_replicas rs) then updates
                  else (updates ++ [(rs_name rs, new_replicas)])%list).

Fixpoint distribute (allowed_size all_replicas to_add : Z) (st : Z * list (string * Z)) (l : list ReplicaSet)
    : option (Z * list (string * Z)) :=
  match l with
  | [] => Some st
  | rs :: l' => st' ← distribute_one allowed_size all_replicas to_add st rs; distribute allowed_size all_replicas to_add st' l'
  end.

(** What is left over goes to the first that changes. *)
Definition give_leftover (to_add added : Z) (updates : list (string * Z)) : option (list (string * Z)) :=
  match updates with
  | (name, n) :: rest =>
      if decide (to_add = added) then Some updates
      else
        leftover ← checked32 (to_add - added);
        n' ← checked32 (n + leftover);
        Some ((name, Z.max n' 0) :: rest)
  | [] => Some []
  end.

Definition proportional_updates (owned : list ReplicaSet) (allowed_size all_replicas to_add : Z)
    : option (list (string * Z)) :=
  '(added, updates) ← distribute allowed_size all_replicas to_add (0, []) (sorted_by_size (bool_decide (0 < to_add)) owned);
  give_leftover to_add added updates.

Definition apply_update (owned : list ReplicaSet) (u : string * Z) : M unit :=
  match find_rs u.1 owned with
  | Some rs => update_replicaset_replicas rs u.2
  | None => ret tt
  end.

(** Whether the pass ends with the scaling: an update was made. *)
Definition scale_proportionally (owned : list ReplicaSet) (desired max_surge : Z) : M bool :=
  let! all_replicas := num (sum32 (rs_replicas <$> owned)) in
  let! allowed_size := num (checked32 (desired + max_surge)) in
  let! to_add := num (checked32 (allowed_size - all_replicas)) in
  if decide (to_add = 0) then ret false
  else
    let! updates := num (proportional_updates owned allowed_size all_replicas to_add) in
    for_each (apply_update owned) updates ;;
    for_each (fun rs => set_desired_replicas_annotation rs desired max_surge) (with_replicas owned) ;;
    ret (negb (bool_decide (updates = []))).

(** ** Counting pods *)

(** The time of an observation as [num_seconds] of the difference. *)
Definition seconds_since (now t : Z) : Z := Z.quot (now - t) (10 ^ 9).

Definition owner_named (name : string) (pod : Pod) : bool :=
  match m_owner_references (pod_metadata pod) with
  | Some refs => existsb (fun o => bool_decide (or_name o = name)) refs
  | None => false
  end.

Definition conditions_of (pod : Pod) : list PodCondition := default [] (pod_status pod ≫= pst_conditions).

Definition is_ready_condition (c : PodCondition) : bool := bool_decide (pc_type c = "Ready" /\ pc_status c = "True").

Definition pod_ready (pod : Pod) : bool := existsb is_ready_condition (conditions_of pod).

(** Ready for at least [min_ready] seconds. *)
Definition available_min_ready (now min_ready : Z) (pod : Pod) : bool :=
  match List.find is_ready_condition (conditions_of pod) with
  | None => false
  | Some c =>
      if decide (min_ready = 0) then true
      else match pc_last_transition_time c with
           | Some t => bool_decide (min_ready <= seconds_since now t)
           | None => true
           end
  end.

Definition count {A} (p : A -> bool) (l : list A) : Z := Z.of_nat (length (filter (fun x => p x = true) l)).

Definition count_available_pods_min_ready (now : Z) (pods : list Pod) (rs : ReplicaSet) : Z :=
  let min_ready := Z.max (default 0 (rsp_min_ready_seconds (rs_spec rs))) 0 in
  let owned := filter (fun pod => owner_named (rs_name rs) pod = true) pods in
  if decide (owned = []) then default 0 (rst_available_replicas <$> rs_status rs)
  else count (available_min_ready now min_ready) owned.

Definition count_available_pods_for_rs (pods : list Pod) (name : string) : Z :=
  count (fun pod => owner_named name pod && pod_ready pod) pods.

(** ** The old ReplicaSets *)

(** What a phase takes from a ReplicaSet of [cur] replicas, [limit] at most. *)
Definition take_from (limit : Z) (st : Z * gmap string Z) (wanted : string -> Z -> Z) (name : string)
    : option (Z * gmap string Z) :=
  let '(done, cur_replicas) := st in
  if decide (limit <= done) then Some st
  else
    cur ← cur_replicas !! name;
    if decide (cur = 0) then Some st
    else
      room ← checked32 (limit - done);
      let scale := Z.min (wanted name cur) room in
      if decide (scale <= 0) then Some st
      else
        cur' ← checked32 (cur - scale);
        done' ← checked32 (done + scale);
        Some (done', <[name := cur']> cur_replicas).

Fixpoint take_phase (limit : Z) (wanted : string -> Z -> Z) (st : Z * gmap string Z) (l : list string)
    : option (Z * gmap string Z) :=
  match l with
  | [] => Some st
  | name :: l' => st' ← take_from limit st wanted name; take_phase limit wanted st' l'
  end.

Definition by_age (l : list ReplicaSet) : list ReplicaSet :=
  sort_by (fun a b => not_greater (option_cmp (m_creation_timestamp (rs_metadata a))
                                     (m_creation_timestamp (rs_metadata b)))) l.

Definition map_of (f : ReplicaSet -> Z) (l : list ReplicaSet) : gmap string Z :=
  foldl (fun m rs => <[rs_name rs := f rs]> m) ∅ l.

(** The replicas every old ReplicaSet is scaled down to: [available] counts the
    pods of a ReplicaSet, and [None] is an overflow; [Some None] when none is
    scaled. *)
Definition old_targets (available : ReplicaSet -> Z) (owned : list ReplicaSet) (active_name : string)
    (new_active desired max_unavailable : Z) : option (option (gmap string Z)) :=
  least ← checked32 (desired - max_unavailable);
  let min_available := Z.max least 0 in
  let old := filter (fun rs => rs_name rs <> active_name) owned in
  if decide (Forall (fun rs => rs_replicas rs = 0) old) then Some None
  else
    let new_available := match find_rs active_name owned with Some rs => available rs | None => 0 end in
    gap ← checked32 (new_active - new_available);
    let new_unavailable := Z.max gap 0 in
    old_sum ← sum32 (rs_replicas <$> old);
    all_pods ← checked32 (new_active + old_sum);
    d1 ← checked32 (all_pods - min_available);
    d2 ← checked32 (d1 - new_unavailable);
    let max_scaled_down := Z.max d2 0 in
    if decide (max_scaled_down <= 0) then Some None
    else
      let old_available := map_of available old in
      let names := rs_name <$> by_age old in
      '(_, cur1) ← take_phase max_scaled_down
        (fun name cur => Z.max (cur - default 0 (old_available !! name)) 0) (0, map_of rs_replicas old) names;
      total_old ← sum32 (snd <$> map_to_list old_available);
      total_available ← checked32 (new_available + total_old);
      surplus ← checked32 (total_available - min_available);
      '(_, cur2) ← take_phase (Z.max surplus 0) (fun _ cur => cur) (0, cur1) names;
      Some (Some cur2).

Definition reconcile_old_replicasets (now : Z) (owned : list ReplicaSet) (active_name : string)
    (new_active desired max_unavailable : Z) : M unit :=
  let! pods := reads w_pods in
  let! targets := num (old_targets (count_available_pods_min_ready now pods) owned active_name new_active desired
                         max_unavailable) in
  match targets with
  | None => ret tt
  | Some cur =>
      for_each (fun rs =>
          let target := default 0 (cur !! rs_name rs) in
          if decide (target = rs_replicas rs) then ret tt else update_replicaset_replicas rs target)
        (filter (fun rs => rs_name rs <> active_name) owned)
  end.

(** ** Creating a ReplicaSet *)

(** The revision annotation of the deployment: three tries. *)
Fixpoint write_revision (tries : nat) (revision : string) : M unit :=
  match tries with
  | O => ret tt
  | S tries' =>
      let! stored := reads w_deployment in
      match stored with
      | None => ret tt
      | Some dep =>
          let! written := attempt (store_deployment (with_d_meta dep (insert_annotation (d_metadata dep) REVISION revision))) in
          match written with
          | Some dep' => remember_own_write dep'
          | None => write_revision tries' revision
          end
      end
  end.

Definition rs_owner_named (name : string) (rs : ReplicaSet) : bool :=
  match m_owner_references (rs_metadata rs) with
  | Some refs => existsb (fun o => bool_decide (or_name o = name)) refs
  | None => false
  end.

Definition next_revision (d : Deployment) (l : list ReplicaSet) : option Z :=
  let mine := filter (fun rs => rs_owner_named (m_name (d_metadata d)) rs = true) l in
  checked64 (default 0 (max_of (omap revision_of mine)) + 1).

Definition surge_text (d : Deployment) : string :=
  match ds_strategy (d_spec d) ≫= st_rolling_update with
  | Some ru => default "25%" (int_or_string_text <$> ru_max_surge ru)
  | None => "25%"
  end.

Definition hashed (hash : string) (labels : option (gmap string string)) : gmap string string :=
  <[POD_TEMPLATE_HASH := hash]> (default ∅ labels).

(** [fresh]: the uid, the metadata of a template that has none, and the time. *)
Record Fresh := mkFresh { fr_uid : string; fr_template_meta : list (string * Json); fr_now : Z }.

Definition new_replicaset (fresh : Fresh) (d : Deployment) (revision : string) (desired max_replicas replicas : Z)
    : ReplicaSet :=
  let hash := compute_pod_template_hash d in
  let template := ds_template (d_spec d) in
  let tm := default (mkTemplateMeta None (fr_template_meta fresh)) (pt_metadata template) in
  let selector := ds_selector (d_spec d) in
  mkReplicaSet
    (mkMeta (m_name (d_metadata d) +:+ "-" +:+ hash) (Some (default "default" (m_namespace (d_metadata d))))
       (fr_uid fresh) None (Some (fr_now fresh)) None
       (Some (hashed hash (pt_metadata template ≫= tm_labels)))
       (Some (<[MAX_REPLICAS := pretty max_replicas]> (<[DESIRED_REPLICAS := pretty desired]>
          (<[REVISION := revision]> ∅))))
       (Some [deployment_owner d]))
    (mkRsSpec replicas
       (mkLabelSelector (Some (hashed hash (match_labels selector))) (match_expressions selector))
       (mkTemplate (Some (mkTemplateMeta (Some (hashed hash (tm_labels tm))) (tm_rest tm))) (pt_spec template))
       (ds_min_ready_seconds (d_spec d)))
    None.

Definition create_replicaset_with_replicas (fresh : Fresh) (d : Deployment) (replicas : Z) : M unit :=
  let! l := reads w_rss in
  let! n := num (next_revision d l) in
  let revision := pretty n in
  let desired := desired_of d in
  let! max_replicas := num (checked32 (desired + parse_int_or_percent (surge_text d) desired)) in
  write_revision 3 revision ;;
  create_rs (new_replicaset fresh d revision desired max_replicas replicas).

Definition create_replicaset (fresh : Fresh) (d : Deployment) : M unit :=
  create_replicaset_with_replicas fresh d (desired_of d).

(** ** The rollout *)

Definition scale_to (n : Z) (rs : ReplicaSet) : M unit :=
  if decide (0 < rs_replicas rs) then update_replicaset_replicas rs n else ret tt.

(** The ReplicaSets other than [active] that have replicas, to zero. *)
Definition drain_others (active_name : string) (owned : list ReplicaSet) : M unit :=
  for_each (scale_to 0) (filter (fun rs => rs_name rs <> active_name) owned).

(** [reconcileNewReplicaSet]: the replicas of the new ReplicaSet. *)
Definition new_active_replicas (owned : list ReplicaSet) (active_replicas desired max_surge : Z) : option Z :=
  max_total ← checked32 (desired + max_surge);
  current ← sum32 (rs_replicas <$> owned);
  d1 ← checked32 (max_total - current);
  d2 ← checked32 (desired - active_replicas);
  checked32 (active_replicas + Z.min (Z.max d1 0) d2).

Definition active_available (pods : list Pod) (active : ReplicaSet) : Z :=
  match rs_status active with
  | Some st => rst_available_replicas st
  | None => count_available_pods_for_rs pods (rs_name active)
  end.

(** The pass when a ReplicaSet has the template of the deployment; [true] when
    it ends here. *)
Definition roll_with_active (now : Z) (d : Deployment) (owned : list ReplicaSet) (active : ReplicaSet)
    (old_total : Z) (scaling : bool) (max_surge max_unavailable : Z) : M bool :=
  let name := rs_name active in
  let n := rs_replicas active in
  let desired := desired_of d in
  if decide (old_total = 0 /\ n <> desired) then update_replicaset_replicas active desired ;; ret true
  else
    let! pods := reads w_pods in
    let saturated := bool_decide (n = desired) && bool_decide (active_available pods active = desired) in
    (if saturated && bool_decide (0 < old_total) && negb scaling then drain_others name owned else ret tt) ;;
    (if is_rolling_update d && bool_decide (n < desired) && bool_decide (0 < old_total) then
       let! new_active := num (new_active_replicas owned n desired max_surge) in
       (if decide (new_active = n) then ret tt else update_replicaset_replicas active new_active) ;;
       reconcile_old_replicasets now owned name new_active desired max_unavailable
     else
       (if decide (n = desired) then ret tt else update_replicaset_replicas active desired) ;;
       if is_rolling_update d then reconcile_old_replicasets now owned name desired desired max_unavailable
       else
         let! pods := reads w_pods in
         if bool_decide (desired <= count_available_pods_for_rs pods name) && bool_decide (0 < old_total)
         then drain_others name owned else ret tt) ;;
    ret false.

(** A pod that an owned ReplicaSet still has, unless it is being deleted. *)
Definition old_pod (owned : list ReplicaSet) (pod : Pod) : bool :=
  bool_decide (m_deletion_timestamp (pod_metadata pod) = None) &&
  match m_owner_references (pod_metadata pod) with
  | Some refs => existsb (fun o => bool_decide (or_kind o = "ReplicaSet") &&
                                   existsb (fun rs => bool_decide (or_uid o = m_uid (rs_metadata rs))) owned) refs
  | None => false
  end.

(** The pass when none has. *)
Definition roll_without_active (fresh : Fresh) (d : Deployment) (owned : list ReplicaSet) (old_total max_surge : Z)
    : M unit :=
  let desired := desired_of d in
  if negb (is_rolling_update d) && bool_decide (0 < old_total) then
    for_each (scale_to 0) owned ;;
    let! pods := reads w_pods in
    if bool_decide (0 < count (old_pod owned) pods) then ret tt else create_replicaset fresh d
  else if is_rolling_update d && bool_decide (0 < old_total) then
    let! max_total := num (checked32 (desired + max_surge)) in
    let! d1 := num (checked32 (max_total - old_total)) in
    create_replicaset_with_replicas fresh d (Z.max (Z.min (Z.max d1 0) desired) 0)
  else create_replicaset fresh d.

(** ** The history *)

Definition old_empty (d : Deployment) (rs : ReplicaSet) : Prop :=
  replicaset_matches_template rs d = false /\ rs_replicas rs = 0.

#[export] Instance old_empty_dec d rs : Decision (old_empty d rs).
Proof. unfold old_empty. apply _. Defined.

Definition revision_or_zero (rs : ReplicaSet) : Z := default 0 (revision_of rs).

(** The ReplicaSets that the history limit leaves no room for, oldest first. *)
Definition beyond_history (d : Deployment) (owned : list ReplicaSet) : option (list ReplicaSet) :=
  let limit := default 10 (ds_revision_history_limit (d_spec d)) in
  if decide (0 <= limit) then
    let old := sort_by (fun a b => revision_or_zero a <=? revision_or_zero b) (filter (old_empty d) owned) in
    to_delete ← checked32 (Z.of_nat (length old) - limit);
    Some (take (Z.to_nat to_delete) old)
  else Some [].

Definition clean_up_history (d : Deployment) : M unit :=
  let! l := reads w_rss in
  let! gone := num (beyond_history d (owned_by d l)) in
  for_each (fun rs => attempt (delete_rs (rs_name rs)) ;; ret tt) gone.

(** ** The status *)

(** A pod of the ReplicaSet that counts: by its owner, or by its labels. *)
Definition counts_for (rs : ReplicaSet) (pod : Pod) : bool :=
  bool_decide (m_deletion_timestamp (pod_metadata pod) = None) &&
  match pod_status pod ≫= pst_phase with Some Failed | Some Succeeded => false | _ => true end &&
  (match m_owner_references (pod_metadata pod) with
   | Some refs => existsb (fun o => bool_decide (or_kind o = "ReplicaSet" /\ or_name o = rs_name rs)) refs
   | None => false
   end ||
   labels_match (match_labels (rsp_selector (rs_spec rs))) (m_labels (pod_metadata pod))).

Definition available_since_creation (now min_ready : Z) (pod : Pod) : bool :=
  if decide (0 < min_ready) then
    match m_creation_timestamp (pod_metadata pod) with
    | Some t => bool_decide (min_ready <= seconds_since now t)
    | None => false
    end
  else true.

(** [(total, ready, available)] *)
Definition count_pods_for_replicaset (now : Z) (pods : list Pod) (rs : ReplicaSet) : Z * Z * Z :=
  let mine := filter (fun pod => counts_for rs pod = true) pods in
  (Z.of_nat (length mine), count pod_ready mine,
   count (fun pod => pod_ready pod &&
                     available_since_creation now (default 0 (rsp_min_ready_seconds (rs_spec rs))) pod) mine).

Record Totals := mkTotals { to_replicas : Z; to_ready : Z; to_available : Z; to_updated : Z }.

(** What one ReplicaSet adds. *)
Definition add_replicaset (now : Z) (pods : list Pod) (d : Deployment) (t : Totals) (rs : ReplicaSet) : option Totals :=
  let '(pod_total, pod_ready, pod_available) := count_pods_for_replicaset now pods rs in
  let best (field : ReplicaSetStatus -> Z) (n : Z) :=
    match rs_status rs with Some st => Z.max (field st) n | None => n end in
  replicas ← checked32 (to_replicas t + best rst_replicas pod_total);
  ready ← checked32 (to_ready t + best rst_ready_replicas pod_ready);
  available ← checked32 (to_available t + best rst_available_replicas pod_available);
  updated ← (if replicaset_matches_template rs d then checked32 (to_updated t + best rst_replicas pod_total)
             else Some (to_updated t));
  Some (mkTotals replicas ready available updated).

Fixpoint add_replicasets (now : Z) (pods : list Pod) (d : Deployment) (t : Totals) (l : list ReplicaSet) : option Totals :=
  match l with
  | [] => Some t
  | rs :: l' => t' ← add_replicaset now pods d t rs; add_replicasets now pods d t' l'
  end.

Definition condition (now : Z) (type status reason message : string) : DeploymentCondition :=
  mkDeploymentCondition type status (Some reason) (Some message) (Some now) (Some now).

Definition available_condition (now available desired : Z) : DeploymentCondition :=
  if decide (desired <= available) then
    condition now "Available" "True" "MinimumReplicasAvailable" "Deployment has minimum availability."
  else
    condition now "Available" "False" "MinimumReplicasUnavailable"
      ("Deployment does not have minimum availability. " +:+ pretty available +:+ " of " +:+ pretty desired +:+ " available.").

Definition dquoted (s : string) : string := dquote +:+ s +:+ dquote.

Definition deadline_exceeded (now available desired : Z) (d : Deployment) : bool :=
  bool_decide (available < desired) &&
  match m_creation_timestamp (d_metadata d) with
  | Some ct => bool_decide (default 600 (ds_progress_deadline_seconds (d_spec d)) < seconds_since now ct)
  | None => false
  end.

Definition progressing_condition (now available updated desired : Z) (d : Deployment) (owned : list ReplicaSet)
    : DeploymentCondition :=
  let first := dquoted (match owned with rs :: _ => rs_name rs | [] => "unknown" end) in
  if deadline_exceeded now available desired d then
    condition now "Progressing" "False" "ProgressDeadlineExceeded" ("ReplicaSet " +:+ first +:+ " has timed out progressing.")
  else if decide (updated = desired /\ desired <= available) then
    condition now "Progressing" "True" "NewReplicaSetAvailable" ("ReplicaSet " +:+ first +:+ " has successfully progressed.")
  else condition now "Progressing" "True" "ReplicaSetUpdated" ("ReplicaSet " +:+ first +:+ " is progressing.").

Definition replica_failure (now : Z) (owned : list ReplicaSet) : list DeploymentCondition :=
  match omap (fun rs => List.find (fun c => bool_decide (rsc_type c = "ReplicaFailure" /\ rsc_status c = "True"))
                          (default [] (rs_status rs ≫= rst_conditions))) owned with
  | c :: _ => [mkDeploymentCondition "ReplicaFailure" "True" (rsc_reason c) (rsc_message c) (Some now) (Some now)]
  | [] => []
  end.

Definition managed_condition (c : DeploymentCondition) : Prop :=
  dc_type c = "Available" \/ dc_type c = "Progressing" \/ dc_type c = "ReplicaFailure".

#[export] Instance managed_condition_dec c : Decision (managed_condition c).
Proof. unfold managed_condition. apply _. Defined.

Definition status_conditions (now : Z) (t : Totals) (d : Deployment) (owned : list ReplicaSet) : list DeploymentCondition :=
  (filter (fun c => ~ managed_condition c) (default [] (d_status d ≫= dst_conditions)) ++
   [available_condition now (to_available t) (desired_of d);
    progressing_condition now (to_available t) (to_updated t) (desired_of d) d owned] ++
   replica_failure now owned)%list.

Definition compute_status (now : Z) (t : Totals) (d : Deployment) (owned : list ReplicaSet) : option DeploymentStatus :=
  unavailable ← (if decide (to_available t < to_replicas t) then checked32 (to_replicas t - to_available t) else Some 0);
  Some (mkDeploymentStatus (Some (to_replicas t)) (Some (to_updated t)) (Some (to_ready t)) (Some (to_available t))
          (Some unavailable) (Some (status_conditions now t d owned)) None (m_generation (d_metadata d)) None).

Definition condition_keys (st : DeploymentStatus) : option (list (string * string * option string)) :=
  option_map (map (fun c => (dc_type c, dc_status c, dc_reason c))) (dst_conditions st).

(** Everything but the times, the collision count and the terminating pods. *)
Definition status_key (st : DeploymentStatus) :=
  (dst_replicas st, dst_ready_replicas st, dst_available_replicas st, dst_unavailable_replicas st,
   dst_updated_replicas st, dst_observed_generation st, condition_keys st).

Definition status_changed (d : Deployment) (new : DeploymentStatus) : bool :=
  match d_status d with
  | Some old => negb (bool_decide (status_key old = status_key new))
  | None => true
  end.

Definition revision_changed (d : Deployment) (max_revision : option Z) : bool :=
  match max_revision with
  | Some rev => negb (bool_decide (annotation (d_metadata d) REVISION ≫= parse_i64 = Some rev))
  | None => false
  end.

Definition update_deployment_status (now : Z) (d : Deployment) : M unit :=
  let! l := reads w_rss in
  let! pods := reads w_pods in
  let owned := owned_by d l in
  let! t := num (add_replicasets now pods d (mkTotals 0 0 0 0) owned) in
  let! new_status := num (compute_status now t d owned) in
  let max_revision := max_of (omap revision_of owned) in
  if status_changed d new_status || revision_changed d max_revision then
    let! parked := take_own_write in
    let updated := default d parked in
    let! updated :=
      match max_revision with
      | Some rev =>
          let m := set_annotations (d_metadata updated) (Some (default ∅ (m_annotations (d_metadata updated)))) in
          if decide (annotation m REVISION = Some (pretty rev)) then ret (with_d_meta updated m)
          else store_deployment (with_d_meta updated (insert_annotation m REVISION (pretty rev)))
      | None => ret updated
      end in
    if status_changed d new_status then store_status (with_d_status updated new_status) else ret tt
  else ret tt.

(** ** The pass *)

(** The scaling of a pass; [true] when the pass ends with it. *)
Definition scaling_step (d : Deployment) (owned : list ReplicaSet) (scaling : bool) (max_surge : Z) : M bool :=
  let desired := desired_of d in
  match single_active_rs owned with
  | Some only =>
      if scaling && negb (bool_decide (rs_replicas only = desired)) then
        update_replicaset_replicas only desired ;;
        set_desired_replicas_annotation only desired max_surge ;;
        ret true
      else ret false
  | None => if scaling then scale_proportionally owned desired max_surge else ret false
  end.

(** Scaling, rollout, history: what comes after the revision. *)
Definition rollout (fresh : Fresh) (d : Deployment) (owned : list ReplicaSet) : M unit :=
  let now := fr_now fresh in
  let '(max_surge, max_unavailable) := rolling_counts d in
  let! old_total := num (old_rs_total d owned) in
  let scaling := is_scaling_event d owned old_total in
  let! ends := scaling_step d owned scaling max_surge in
  if (ends : bool) then ret tt
  else
    let! ends :=
      match active_of d owned with
      | Some active => roll_with_active now d owned active old_total scaling max_surge max_unavailable
      | None => roll_without_active fresh d owned old_total max_surge ;; ret false
      end in
    if (ends : bool) then ret tt else clean_up_history d.

Definition reconcile_deployment (fresh : Fresh) (d : Deployment) : M unit :=
  if decide (is_Some (m_deletion_timestamp (d_metadata d))) then ret tt
  else
    modify (set_own_write None) ;;
    let! all := reads w_rss in
    for_each (adopt d) all ;;
    let! all := reads w_rss in
    let owned := owned_by d all in
    sync_revision d owned ;;
    (if default false (ds_paused (d_spec d)) then ret tt else rollout fresh d owned) ;;
    update_deployment_status (fr_now fresh) d.

End Pass.
