(* ===== verification/DeploymentRuns.v ===== *)
(** * What a pass of the deployment controller writes

    Total correctness triples for the monad of [DeploymentController], and the
    relation [moved] between the ReplicaSets before and after: only annotations
    and counts change, and a count only to a value the pass aims at. *)

From stdpp Require Import strings pretty.
From S2P Require Import Prelude RustText BTree Json Authz ServiceTypes Quantity LabelSelector F64 DeploymentTypes DeploymentController.

Local Open Scope Z_scope.

(** ** Sums *)

Fixpoint zsum (l : list Z) : Z := match l with [] => 0 | z :: l' => z + zsum l' end.

Lemma zsum_app l k : zsum (l ++ k) = zsum l + zsum k.
Proof. induction l; simpl; lia. Qed.

Lemma zsum_perm l k : l ≡ₚ k -> zsum l = zsum k.
Proof. induction 1; simpl; lia. Qed.

Lemma zsum_nonneg l : Forall (fun z => 0 <= z) l -> 0 <= zsum l.
Proof. induction 1; simpl; lia. Qed.

Lemma zsum_map_le {A} (f g : A -> Z) l : (forall x, x ∈ l -> f x <= g x) -> zsum (f <$> l) <= zsum (g <$> l).
Proof.
  induction l as [|x l IH]; intros H; [done|]. rewrite !fmap_cons /=.
  pose proof (H x ltac:(left)). assert (zsum (f <$> l) <= zsum (g <$> l)) by (apply IH; intros y Hy; apply H; by right). lia.
Qed.

Lemma zsum_sub {A} (f g : A -> Z) l : zsum ((fun x => f x - g x) <$> l) = zsum (f <$> l) - zsum (g <$> l).
Proof. induction l as [|x l IH]; [done|]. rewrite !fmap_cons /= IH. lia. Qed.

Lemma zsum_elem {A} (f : A -> Z) l x : (forall y, y ∈ l -> 0 <= f y) -> x ∈ l -> f x <= zsum (f <$> l).
Proof.
  induction l as [|y l IH]; intros Hf Hx; [by apply elem_of_nil in Hx|]. rewrite fmap_cons /=.
  assert (0 <= zsum (f <$> l)) by (apply zsum_nonneg, Forall_fmap, Forall_forall; intros z Hz; apply Hf; by right).
  apply elem_of_cons in Hx as [->|Hx]; [lia|]. pose proof (Hf y ltac:(left)).
  assert (f x <= zsum (f <$> l)) by (apply IH; [intros z Hz; apply Hf; by right|done]). lia.
Qed.

Lemma zsum_zero {A} (f : A -> Z) l : (forall y, y ∈ l -> 0 <= f y) -> zsum (f <$> l) <= 0 -> forall x, x ∈ l -> f x = 0.
Proof. intros Hf Hs x Hx. pose proof (zsum_elem f l x Hf Hx). pose proof (Hf x Hx). lia. Qed.

Lemma zsum_all_zero {A} (f : A -> Z) l : (forall y, y ∈ l -> f y = 0) -> zsum (f <$> l) = 0.
Proof.
  induction l as [|x l IH]; intros H; [done|]. rewrite fmap_cons /= (H x ltac:(left)) IH; [|done].
  intros y Hy. apply H. by right.
Qed.

Lemma zsum_split {A} (f : A -> Z) (P : A -> Prop) `{forall x, Decision (P x)} l :
  zsum (f <$> l) = zsum (f <$> filter P l) + zsum (f <$> filter (fun x => ~ P x) l).
Proof.
  induction l as [|x l IH]; [done|]. rewrite !filter_cons fmap_cons /= IH.
  destruct (decide (P x)), (decide (~ P x)); try done; rewrite fmap_cons /=; lia.
Qed.

Lemma NoDup_fmap_filter {A B} (f : A -> B) (P : A -> Prop) `{forall x, Decision (P x)} l :
  NoDup (f <$> l) -> NoDup (f <$> filter P l).
Proof.
  induction l as [|x l IH]; intros Hn; [constructor|]. rewrite fmap_cons in Hn. apply NoDup_cons in Hn as [Hnin Hn].
  rewrite filter_cons. case_decide; [|by apply IH]. rewrite fmap_cons. constructor; [|by apply IH].
  intros (y & Hy & [_ Hin]%list_elem_of_filter)%list_elem_of_fmap. apply Hnin. rewrite Hy. by apply list_elem_of_fmap_2.
Qed.

Lemma filter_all {A} (P : A -> Prop) `{forall x, Decision (P x)} (l : list A) : (forall x, x ∈ l -> P x) -> filter P l = l.
Proof.
  induction l as [|x l IH]; intros Hl; [done|]. rewrite filter_cons_True; [apply Hl; left|]. f_equal. apply IH.
  intros y Hy. apply Hl. by right.
Qed.

(** What a filter takes out that adds nothing. *)
Lemma zsum_filter {A} (f : A -> Z) (P : A -> Prop) `{forall x, Decision (P x)} (l : list A) :
  (forall x, x ∈ l -> ~ P x -> f x = 0) -> zsum (f <$> filter P l) = zsum (f <$> l).
Proof.
  induction l as [|x l IH]; intros Hl; [done|].
  assert (zsum (f <$> filter P l) = zsum (f <$> l)) as He by (apply IH; intros y Hy; apply Hl; by right).
  rewrite filter_cons. case_decide as Hp; rewrite !fmap_cons /= He; [done|]. rewrite (Hl x); [left|done|lia].
Qed.

Lemma find_filter {A} (p : A -> bool) (P : A -> Prop) `{forall x, Decision (P x)} (l : list A) :
  (forall x, x ∈ l -> ~ P x -> p x = false) -> List.find p (filter P l) = List.find p l.
Proof.
  induction l as [|x l IH]; intros Hl; [done|].
  assert (List.find p (filter P l) = List.find p l) as He by (apply IH; intros y Hy; apply Hl; by right).
  rewrite filter_cons. case_decide as Hp; simpl; rewrite He; [done|]. by rewrite (Hl x ltac:(left) Hp).
Qed.

Lemma find_Forall2 {A B} (R : A -> B -> Prop) (p : A -> bool) (q : B -> bool) l l' :
  Forall2 R l l' -> (forall x y, R x y -> p x = q y) -> option_Forall2 R (List.find p l) (List.find q l').
Proof.
  intros H Hpq. induction H as [|x y l l' Hxy _ IH]; simpl; [constructor|]. rewrite -(Hpq x y Hxy).
  destruct (p x); [by constructor|done].
Qed.

Lemma checked32_fits z : I32_MIN <= z <= I32_MAX -> checked32 z = Some z.
Proof. intros H. by apply decide_True. Qed.

Lemma sum32_from l : forall acc, 0 <= acc -> Forall (fun z => 0 <= z) l -> acc + zsum l <= I32_MAX ->
  foldl (fun acc z => a ← acc; checked32 (a + z)) (Some acc) l = Some (acc + zsum l).
Proof.
  induction l as [|z l IH]; intros acc Ha Hl Hs; cbn [zsum foldl] in *; [by rewrite Z.add_0_r|].
  apply Forall_cons in Hl as [Hz Hl]. pose proof (zsum_nonneg l Hl).
  cbn [mbind option_bind]. rewrite checked32_fits; [unfold I32_MIN; lia|]. rewrite IH; [lia|done|lia|]. f_equal. lia.
Qed.

Lemma sum32_fits l : Forall (fun z => 0 <= z) l -> zsum l <= I32_MAX -> sum32 l = Some (zsum l).
Proof. intros. by rewrite /sum32 sum32_from. Qed.

(** ** Triples *)

Definition runs {A} (m : M A) (w : World) (Q : World -> result A ControllerError -> Prop) : Prop :=
  exists w' r, m w = Some (w', r) /\ Q w' r.

Lemma runs_mono {A} (m : M A) w (Q Q' : World -> result A ControllerError -> Prop) :
  runs m w Q -> (forall w' r, Q w' r -> Q' w' r) -> runs m w Q'.
Proof. intros (w' & r & E & H) HQ. exists w', r. eauto. Qed.

(** A run is one run. *)
Lemma runs_and {A} (m : M A) w (Q Q' : World -> result A ControllerError -> Prop) :
  runs m w Q -> runs m w Q' -> runs m w (fun w' r => Q w' r /\ Q' w' r).
Proof. intros (w1 & r1 & E1 & H1) (w2 & r2 & E2 & H2). rewrite E1 in E2. injection E2 as <- <-. by exists w1, r1. Qed.

Lemma runs_ret {A} (a : A) w (Q : World -> result A ControllerError -> Prop) : Q w (Ok a) -> runs (ret a) w Q.
Proof. intros H. by exists w, (Ok a). Qed.

Lemma runs_bind {A B} (m : M A) (f : A -> M B) w (Q : World -> result B ControllerError -> Prop) :
  runs m w (fun w' r => match r with Ok a => runs (f a) w' Q | Err e => Q w' (Err e) end) -> runs (bind m f) w Q.
Proof.
  intros (w' & [a|e] & E & H).
  - destruct H as (w2 & r & E2 & H). exists w2, r. split; [|done]. unfold bind. by rewrite E.
  - exists w', (Err e). split; [|done]. unfold bind. by rewrite E.
Qed.

Lemma runs_reads {A} (f : World -> A) w (Q : World -> result A ControllerError -> Prop) : Q w (Ok (f w)) -> runs (reads f) w Q.
Proof. intros H. by eexists _, _. Qed.

Lemma runs_num {A} (o : option A) a w (Q : World -> result A ControllerError -> Prop) :
  o = Some a -> Q w (Ok a) -> runs (num o) w Q.
Proof. intros -> H. by eexists _, _. Qed.

Lemma runs_modify f w (Q : World -> result unit ControllerError -> Prop) : Q (f w) (Ok tt) -> runs (modify f) w Q.
Proof. intros H. by eexists _, _. Qed.

Lemma runs_attempt {A} (m : M A) w (Q : World -> result (option A) ControllerError -> Prop) :
  runs m w (fun w' r => Q w' (Ok (match r with Ok a => Some a | Err _ => None end))) -> runs (attempt m) w Q.
Proof. intros (w' & [a|e] & E & H); eexists _, _; (split; [unfold attempt; by rewrite E|done]). Qed.

(** ** The ReplicaSets before and after *)

Definition like (rs rs' : ReplicaSet) : Prop :=
  exists a n, rs' = set_replicas (with_rs_meta rs (set_annotations (rs_metadata rs) a)) n.

Lemma like_refl rs : like rs rs.
Proof. exists (m_annotations (rs_metadata rs)), (rs_replicas rs). by destruct rs as [[] [] ?]. Qed.

Lemma like_trans r1 r2 r3 : like r1 r2 -> like r2 r3 -> like r1 r3.
Proof. intros (a & n & ->) (b & k & ->). by exists b, k. Qed.

Lemma like_name r r' : like r r' -> rs_name r' = rs_name r.
Proof. by intros (a & n & ->). Qed.

Lemma like_replicas rs n : like rs (set_replicas rs n).
Proof. exists (m_annotations (rs_metadata rs)), n. by destruct rs as [[] [] ?]. Qed.

Lemma like_annotations rs a : like rs (with_rs_meta rs (set_annotations (rs_metadata rs) a)).
Proof. exists a, (rs_replicas rs). by destruct rs as [[] [] ?]. Qed.

(** Counts change only to what [T] allows for the name, annotations only where
    [K] does not keep them. *)
Definition keeps (K : string -> Prop) (rs rs' : ReplicaSet) : Prop :=
  forall k, K k -> annotation (rs_metadata rs') k = annotation (rs_metadata rs) k.

Definition moved (R : relation ReplicaSet) (T : string -> Z -> Prop) : list ReplicaSet -> list ReplicaSet -> Prop :=
  Forall2 (fun rs rs' => like rs rs' /\ R rs rs' /\
             (rs_replicas rs' = rs_replicas rs \/ T (rs_name rs) (rs_replicas rs'))).

(** All annotations kept. *)
Definition kept : relation ReplicaSet := keeps (fun _ => True).
Definition no_move : string -> Z -> Prop := fun _ _ => False.
Definition one_move (name : string) (n : Z) : string -> Z -> Prop := fun x k => x = name /\ k = n.

#[export] Instance keeps_preorder K : PreOrder (keeps K).
Proof. split; [done|]. intros x y z H1 H2 k Hk. by rewrite H2 // H1. Qed.

#[export] Instance kept_preorder : PreOrder kept.
Proof. apply keeps_preorder. Qed.

Lemma moved_refl R T l : Reflexive R -> moved R T l l.
Proof. intros HR. apply Forall_Forall2_diag, Forall_forall. intros rs _. split; [apply like_refl|]. split; [done|by left]. Qed.

Lemma moved_trans R T l1 l2 l3 : Transitive R -> moved R T l1 l2 -> moved R T l2 l3 -> moved R T l1 l3.
Proof.
  intros HR H. revert l3. induction H as [|r1 r2 l1 l2 (Hl & Hk & Hr) _ IH]; intros l3 H3;
    inversion H3 as [|? r3 ? l3' (Hl' & Hk' & Hr') H]; subst; [done|].
  constructor; [|by apply IH]. split; [by eapply like_trans|]. split; [by etrans|].
  rewrite (like_name _ _ Hl) in Hr'. destruct Hr' as [->|?]; [done|by right].
Qed.

Lemma moved_mono (R R' : relation ReplicaSet) (T T' : string -> Z -> Prop) l l' :
  (forall x y, R x y -> R' x y) -> (forall x n, T x n -> T' x n) -> moved R T l l' -> moved R' T' l l'.
Proof. intros HR HT H. eapply Forall2_impl; [exact H|]. intros rs rs' (Hl & Hk & Hr). split; [done|]. split; [by apply HR|naive_solver]. Qed.

Lemma moved_aim R (T T' : string -> Z -> Prop) l l' : (forall x n, T x n -> T' x n) -> moved R T l l' -> moved R T' l l'.
Proof. by apply moved_mono. Qed.

Lemma moved_names R T l l' : moved R T l l' -> rs_name <$> l' = rs_name <$> l.
Proof. induction 1 as [|r r' l l' [Hl _] _ IH]; [done|]. by rewrite !fmap_cons IH (like_name _ _ Hl). Qed.

Lemma moved_filter R T (P : ReplicaSet -> Prop) `{forall rs, Decision (P rs)} l l' :
  (forall r r', like r r' -> P r <-> P r') -> moved R T l l' -> moved R T (filter P l) (filter P l').
Proof.
  intros HP. induction 1 as [|r r' l l' (Hl & Hr) _ IH]; [by constructor|]. rewrite !filter_cons.
  pose proof (HP _ _ Hl). destruct (decide (P r)), (decide (P r')); try tauto. by constructor.
Qed.

Lemma like_owned d r r' : like r r' -> is_owned_by_deployment r d = true <-> is_owned_by_deployment r' d = true.
Proof. by intros (a & n & ->). Qed.

Lemma moved_owned R T d l l' : moved R T l l' -> moved R T (owned_by d l) (owned_by d l').
Proof. apply moved_filter. apply like_owned. Qed.

Lemma find_rs_Some name l rs : find_rs name l = Some rs -> rs ∈ l /\ rs_name rs = name.
Proof.
  intros [Hin Hn]%find_some. apply bool_decide_eq_true in Hn. split; [by apply list_elem_of_In|done].
Qed.

Lemma find_rs_None name l : find_rs name l = None -> name ∉ rs_name <$> l.
Proof.
  intros H [rs [-> Hin]]%list_elem_of_fmap. apply list_elem_of_In in Hin.
  pose proof (find_none _ _ H _ Hin) as Hn. by rewrite bool_decide_eq_true_2 in Hn.
Qed.

Lemma find_rs_is_Some name l : is_Some (find_rs name l) <-> name ∈ rs_name <$> l.
Proof.
  split.
  - intros [rs [Hin <-]%find_rs_Some]. by apply list_elem_of_fmap_2.
  - intros H. destruct (find_rs name l) as [rs|] eqn:E; [eauto|]. by apply find_rs_None in E.
Qed.

Lemma names_inj l r1 r2 : NoDup (rs_name <$> l) -> r1 ∈ l -> r2 ∈ l -> rs_name r1 = rs_name r2 -> r1 = r2.
Proof.
  induction l as [|r l IH]; intros Hn H1 H2 He; [by apply elem_of_nil in H1|].
  rewrite fmap_cons in Hn. apply NoDup_cons in Hn as [Hnin Hn].
  apply elem_of_cons in H1 as [->|H1], H2 as [->|H2]; [done|..].
  - destruct Hnin. rewrite He. by apply list_elem_of_fmap_2.
  - destruct Hnin. rewrite -He. by apply list_elem_of_fmap_2.
  - by apply IH.
Qed.

Lemma find_rs_elem l rs : NoDup (rs_name <$> l) -> rs ∈ l -> find_rs (rs_name rs) l = Some rs.
Proof.
  intros Hn Hin. destruct (find_rs (rs_name rs) l) as [r|] eqn:E.
  - apply find_rs_Some in E as [Hr He]. f_equal. by apply (names_inj l).
  - apply find_rs_None in E. destruct E. by apply list_elem_of_fmap_2.
Qed.

(** Replacing one ReplicaSet by one like it. *)
Lemma moved_replace R l rs rs' n : Reflexive R ->
  NoDup (rs_name <$> l) -> rs ∈ l -> like rs rs' -> R rs rs' -> (rs_replicas rs' = rs_replicas rs \/ rs_replicas rs' = n) ->
  moved R (one_move (rs_name rs) n) l (replace_rs rs' l).
Proof.
  intros HR Hn Hin Hl Hk Hr. unfold moved, replace_rs. apply Forall2_fmap_r, Forall_Forall2_diag, Forall_forall.
  intros r Hrl. unfold compose. rewrite (like_name _ _ Hl). case_decide as E; [|split; [apply like_refl|split; [done|by left]]].
  assert (r = rs) as -> by by apply (names_inj l). split; [done|]. split; [done|]. destruct Hr; [by left|right]. by split.
Qed.

Lemma replace_elem l rs' r : r ∈ replace_rs rs' l -> rs_name r = rs_name rs' -> r = rs'.
Proof.
  unfold replace_rs. intros [q [-> Hq]]%list_elem_of_fmap. case_decide; [done|]. done.
Qed.

(** ** Writes *)

(** What every write leaves: the pods, a storage that takes everything, a
    deployment that is stored. *)
Record frame (w w' : World) : Prop := {
  fr_pods : w_pods w' = w_pods w;
  fr_takes : w_answers w = [] -> w_answers w' = [];
  fr_stored : is_Some (w_deployment w) -> is_Some (w_deployment w')
}.

Lemma frame_refl w : frame w w.
Proof. done. Qed.

Lemma frame_trans w1 w2 w3 : frame w1 w2 -> frame w2 w3 -> frame w1 w3.
Proof. intros [] []. split; [congruence|auto|auto]. Qed.

Lemma frame_rss w l : frame w (set_rss l w).
Proof. done. Qed.

Lemma ask_runs w : runs ask w (fun w' r => frame w w' /\ w_rss w' = w_rss w /\ w_deployment w' = w_deployment w /\
  exists b, r = Ok b /\ (w_answers w = [] -> b = true)).
Proof.
  unfold ask, runs. destruct (w_answers w) as [|b l] eqn:E.
  - eexists _, _. split; [done|]. split; [done|]. eauto.
  - eexists _, _. split; [done|]. split; [split; simpl; [done|by rewrite E|done]|]. split; [done|]. split; [done|].
    exists b. split; [done|discriminate].
Qed.

(** A write of one ReplicaSet that is stored. *)
Lemma store_rs_runs R w rs rs' n : PreOrder R ->
  NoDup (rs_name <$> w_rss w) -> rs ∈ w_rss w -> like rs rs' -> R rs rs' -> (rs_replicas rs' = rs_replicas rs \/ rs_replicas rs' = n) ->
  runs (store_rs rs') w (fun w' r => frame w w' /\ moved R (one_move (rs_name rs) n) (w_rss w) (w_rss w') /\
    (w_answers w = [] -> r = Ok tt) /\
    (forall y, y ∈ w_rss w -> rs_name y <> rs_name rs -> y ∈ w_rss w') /\
    (r = Ok tt -> forall x, x ∈ w_rss w' -> rs_name x = rs_name rs -> rs_replicas x = rs_replicas rs')).
Proof.
  intros HR Hn Hin Hl Hk Hr. unfold store_rs. apply runs_bind. eapply runs_mono; [apply ask_runs|].
  intros w1 r (Hf & Hrss & Hd & b & -> & Hb). simpl. apply runs_bind, runs_reads. simpl.
  rewrite Hrss (like_name _ _ Hl) find_rs_elem //.
  rewrite (bool_decide_eq_true_2 (is_Some (Some rs))); [eauto|]. destruct b; simpl.
  - apply runs_modify. split; [by eapply frame_trans|]. split; [simpl; rewrite Hrss; apply moved_replace; [apply _|done..]|].
    split; [done|]. split.
    { intros y Hy Hne. simpl. rewrite Hrss. apply list_elem_of_fmap. exists y. split; [|done].
      rewrite (like_name _ _ Hl) decide_False //. }
    intros _ x Hx Hxn. simpl in Hx. rewrite Hrss in Hx.
    by rewrite (replace_elem _ _ _ Hx) // (like_name _ _ Hl).
  - eexists _, _. split; [done|]. split; [done|]. rewrite Hrss. split; [apply moved_refl, _|]. split; [|done].
    intros Ha. by apply Hb in Ha.
Qed.

Lemma update_replicas_runs w rs n :
  NoDup (rs_name <$> w_rss w) -> rs_name rs ∈ rs_name <$> w_rss w ->
  runs (update_replicaset_replicas rs n) w (fun w' r => frame w w' /\
    moved kept (one_move (rs_name rs) n) (w_rss w) (w_rss w') /\ (w_answers w = [] -> r = Ok tt) /\
    (r = Ok tt -> forall x, x ∈ w_rss w' -> rs_name x = rs_name rs -> rs_replicas x = n)).
Proof.
  intros Hn Hin. unfold update_replicaset_replicas. apply runs_bind, runs_reads.
  apply find_rs_is_Some in Hin as [fresh Hf]. rewrite Hf. cbn [default from_option id].
  apply find_rs_Some in Hf as [Hfin Hfn]. case_decide as E.
  - apply runs_ret. split; [done|]. split; [apply moved_refl, _|]. split; [done|]. intros _ x Hx Hxn.
    assert (x = fresh) as -> by (apply (names_inj (w_rss w)); [done..|congruence]). done.
  - eapply runs_mono; [apply (store_rs_runs kept w fresh (set_replicas fresh n) n kept_preorder Hn Hfin)|].
    + apply like_replicas.
    + done.
    + by right.
    + rewrite Hfn. intros w' r (? & ? & ? & ? & ?). done.
Qed.

Lemma moved_in R T l l' x : moved R T l l' -> x ∈ l' -> exists r, r ∈ l /\ like r x /\ R r x /\
  (rs_replicas x = rs_replicas r \/ T (rs_name r) (rs_replicas x)).
Proof.
  intros H. induction H as [|r r' l l' (Hl & Hk & Hr) _ IH]; intros Hx; [by apply elem_of_nil in Hx|].
  apply elem_of_cons in Hx as [->|Hx].
  - exists r. split; [left|]. done.
  - destruct (IH Hx) as (q & ? & ?). exists q. split; [by right|done].
Qed.

(** A loop of writes: each body aims one name at one count. *)
Definition aims {A} (R : relation ReplicaSet) (f : A -> M unit) (name : A -> string) (t : A -> Z) (x : A) : Prop :=
  forall w, NoDup (rs_name <$> w_rss w) -> name x ∈ rs_name <$> w_rss w ->
    runs (f x) w (fun w' r => frame w w' /\ moved R (one_move (name x) (t x)) (w_rss w) (w_rss w') /\
      (w_answers w = [] -> r = Ok tt)).

Definition targets {A} (name : A -> string) (t : A -> Z) (l : list A) (s : string) (n : Z) : Prop :=
  exists x, x ∈ l /\ name x = s /\ t x = n.

Lemma for_each_runs {A} R (f : A -> M unit) name t (l : list A) w : PreOrder R ->
  NoDup (rs_name <$> w_rss w) -> (forall x, x ∈ l -> aims R f name t x /\ name x ∈ rs_name <$> w_rss w) ->
  runs (for_each f l) w (fun w' r => frame w w' /\ moved R (targets name t l) (w_rss w) (w_rss w') /\
    (w_answers w = [] -> r = Ok tt)).
Proof.
  intros HR. revert w. induction l as [|x l IH]; intros w Hn Hl; cbn [for_each].
  { apply runs_ret. split; [done|]. split; [apply moved_refl, _|done]. }
  apply runs_bind. destruct (Hl x ltac:(left)) as [Hx Hin]. eapply runs_mono; [by apply Hx|].
  intros w1 r (Hf1 & Hm1 & Ha1). assert (moved R (targets name t (x :: l)) (w_rss w) (w_rss w1)) as Hm1'.
  { eapply moved_aim; [|exact Hm1]. intros s n [-> ->]. exists x. split; [left|done]. }
  destruct r as [[]|e]; [|split; [done|split; [done|]]; intros Ha; by apply Ha1 in Ha].
  eapply runs_mono; [apply IH|].
  - by rewrite (moved_names _ _ _ _ Hm1).
  - intros y Hy. rewrite (moved_names _ _ _ _ Hm1). apply Hl. by right.
  - intros w2 r (Hf2 & Hm2 & Ha2). split; [by eapply frame_trans|]. split.
    + eapply moved_trans; [apply _|exact Hm1'|]. eapply moved_aim; [|exact Hm2]. intros s n (y & Hy & ? & ?).
      exists y. split; [by right|done].
    + intros Ha. apply Ha2. by apply (fr_takes _ _ Hf1).
Qed.
