(* ===== verification/RolloutArith.v ===== *)
(** * The arithmetic of a rollout: what it keeps

    Facts on the pure parts of [DeploymentController]: what the two phases of
    [old_targets] take, what they leave available, and what the proportional
    distribution adds up to.  None of them overflows on counts that add up to an
    [i32]. *)

From stdpp Require Import strings pretty.
From S2P Require Import Prelude RustText BTree Json Authz ServiceTypes Quantity LabelSelector F64 DeploymentTypes DeploymentController DeploymentRuns.

Local Open Scope Z_scope.

(** A count that cannot overflow. *)
Definition small (z : Z) : Prop := 0 <= z <= I32_MAX.

Ltac fits :=
  match goal with
  | |- context [mbind _ (checked32 ?z)] =>
      rewrite (checked32_fits z); [unfold small, I32_MIN, I32_MAX in *; lia|]; cbn [mbind option_bind]
  end.

(** ** The phases *)

Lemma take_from_spec limit wanted m done name c :
  small done -> small limit -> small c -> m !! name = Some c -> wanted name c <= c ->
  exists x, take_from limit (done, m) wanted name = Some (done + x, <[name := c - x]> m) /\
    0 <= x <= Z.max 0 (wanted name c) /\ done + x <= Z.max done limit /\
    (done + x < limit -> x = Z.max 0 (wanted name c)).
Proof.
  intros Hd Hl Hc Hm Hw. unfold take_from.
  assert (Some (done, m) = Some (done + 0, <[name := c - 0]> m)) as Hid
    by (rewrite Z.add_0_r Z.sub_0_r insert_id //).
  case_decide as E1; [exists 0; split; [done|lia]|]. rewrite Hm. cbn [mbind option_bind].
  case_decide as E2; [exists 0; split; [done|lia]|]. fits.
  case_decide as E3; [exists 0; split; [done|lia]|].
  fits. fits. eexists. split; [done|]. lia.
Qed.

Lemma take_phase_spec limit wanted names : forall m done,
  small done -> small limit -> NoDup names ->
  (forall name, name ∈ names -> exists c, m !! name = Some c /\ small c /\ wanted name c <= c) ->
  exists done' m', take_phase limit wanted (done, m) names = Some (done', m') /\
    done <= done' <= Z.max done limit /\
    (forall name, name ∈ names -> exists c c', m !! name = Some c /\ m' !! name = Some c' /\
       0 <= c - c' <= Z.max 0 (wanted name c) /\ (done' < limit -> c - c' = Z.max 0 (wanted name c))) /\
    (forall name, name ∉ names -> m' !! name = m !! name) /\
    zsum ((fun name => default 0 (m !! name) - default 0 (m' !! name)) <$> names) = done' - done.
Proof.
  induction names as [|name names IH]; intros m done Hd Hl Hn Hm; cbn [take_phase].
  { eexists _, _. split; [done|]. split; [lia|]. split; [intros ? H; by apply elem_of_nil in H|]. split; [done|]. simpl. lia. }
  apply NoDup_cons in Hn as [Hnin Hn]. destruct (Hm name ltac:(left)) as (c & Hc & Hcs & Hw).
  destruct (take_from_spec limit wanted m done name c Hd Hl Hcs Hc Hw) as (x & -> & Hx & Hdx & Hfull).
  cbn [mbind option_bind].
  destruct (IH (<[name := c - x]> m) (done + x)) as (done' & m' & -> & Hd' & Hin & Hout & Hsum); try done.
  - unfold small in *. lia.
  - intros y Hy. assert (y <> name) by congruence. rewrite lookup_insert_ne //. apply Hm. by right.
  - eexists _, _. split; [done|]. split; [lia|]. split_and!.
    + intros y Hy. destruct (decide (y = name)) as [->|Hne].
      * exists c, (c - x). rewrite Hout // lookup_insert_eq. split_and!; [done|done|lia|lia|]. intros Hlt. apply Z.le_antisymm; lia.
      * apply elem_of_cons in Hy as [?|Hy]; [done|]. destruct (Hin y Hy) as (k & k' & Hk & Hk' & ?).
        exists k, k'. rewrite lookup_insert_ne // in Hk.
    + intros y Hy. apply not_elem_of_cons in Hy as [Hy1 Hy2]. rewrite Hout // lookup_insert_ne //.
    + cbn [zsum]. rewrite fmap_cons /= Hc Hout // lookup_insert_eq /=.
      replace ((fun name0 => default 0 (m !! name0) - default 0 (m' !! name0)) <$> names)
        with ((fun name0 => default 0 (<[name := c - x]> m !! name0) - default 0 (m' !! name0)) <$> names); [lia|].
      apply list_fmap_ext. intros i y Hy. apply list_elem_of_lookup_2 in Hy. rewrite lookup_insert_ne //. congruence.
Qed.

(** ** Maps of ReplicaSets *)

Lemma map_of_snoc f l x : map_of f (l ++ [x]) = <[rs_name x := f x]> (map_of f l).
Proof. unfold map_of. by rewrite foldl_app. Qed.

Lemma map_of_not f l s : s ∉ rs_name <$> l -> map_of f l !! s = None.
Proof.
  induction l as [|x l IH] using rev_ind; intros H; [done|]. rewrite map_of_snoc.
  rewrite fmap_app in H. apply not_elem_of_app in H as [H1 H2]. rewrite lookup_insert_ne; [set_solver|by apply IH].
Qed.

Lemma map_of_lookup f l rs : NoDup (rs_name <$> l) -> rs ∈ l -> map_of f l !! rs_name rs = Some (f rs).
Proof.
  induction l as [|x l IH] using rev_ind; intros Hn Hin; [by apply elem_of_nil in Hin|].
  rewrite map_of_snoc. rewrite fmap_app in Hn. apply NoDup_app in Hn as (Hn & Hdis & _).
  apply elem_of_app in Hin as [Hin|Hin].
  - rewrite lookup_insert_ne; [|by apply IH]. intros He. apply (Hdis (rs_name rs)); [by apply list_elem_of_fmap_2|].
    rewrite -He. apply list_elem_of_fmap_2. left.
  - apply list_elem_of_singleton in Hin as ->. by rewrite lookup_insert_eq.
Qed.

Lemma map_of_values f l : NoDup (rs_name <$> l) -> (snd <$> map_to_list (map_of f l)) ≡ₚ (f <$> l).
Proof.
  induction l as [|x l IH] using rev_ind; intros Hn; [done|].
  rewrite fmap_app in Hn. apply NoDup_app in Hn as (Hn & Hdis & _). rewrite map_of_snoc map_to_list_insert.
  { apply map_of_not. intros H. apply (Hdis _ H). apply list_elem_of_fmap_2. left. }
  rewrite !fmap_cons /= IH // fmap_app /=. by rewrite Permutation_app_comm.
Qed.

Lemma by_age_perm l : by_age l ≡ₚ l.
Proof. apply sort_by_perm. Qed.

(** ** The old ReplicaSets *)

Definition olds (active_name : string) (owned : list ReplicaSet) : list ReplicaSet :=
  filter (fun rs => rs_name rs <> active_name) owned.

Definition old_target (o : option (gmap string Z)) (rs : ReplicaSet) : Z :=
  match o with Some cur => default 0 (cur !! rs_name rs) | None => rs_replicas rs end.

(** What the computation needs not to overflow. *)
Record counts_fit (available : ReplicaSet -> Z) (owned : list ReplicaSet) (active_name : string)
    (new_active desired max_unavailable : Z) : Prop := {
  cf_names : NoDup (rs_name <$> owned);
  cf_replicas rs : rs ∈ owned -> 0 <= rs_replicas rs;
  cf_available rs : rs ∈ owned -> 0 <= available rs;
  cf_sum : new_active + zsum (rs_replicas <$> olds active_name owned) <= I32_MAX;
  cf_total : zsum (available <$> owned) <= I32_MAX;
  cf_new : 0 <= new_active;
  cf_desired : small desired;
  cf_unavailable : small max_unavailable
}.

Section Targets.
Context (available : ReplicaSet -> Z) (owned : list ReplicaSet) (active_name : string).
Context (new_active desired max_unavailable : Z).
Let old := olds active_name owned.
Let new_available := match find_rs active_name owned with Some rs => available rs | None => 0 end.
Let min_available := Z.max (desired - max_unavailable) 0.

Lemma available_split : NoDup (rs_name <$> owned) ->
  zsum (available <$> owned) = new_available + zsum (available <$> old).
Proof.
  intros Hn. rewrite (zsum_split available (fun rs => rs_name rs <> active_name)).
  fold (olds active_name owned). fold old. rewrite Z.add_comm. f_equal. unfold new_available.
  assert (forall l, NoDup (rs_name <$> l) ->
    zsum (available <$> filter (fun x => ~ rs_name x <> active_name) l) =
    match find_rs active_name l with Some rs => available rs | None => 0 end) as H; [|by apply H].
  clear. induction l as [|x l IH]; intros Hn; [done|].
  rewrite fmap_cons in Hn. apply NoDup_cons in Hn as [Hnin Hn]. rewrite filter_cons. unfold find_rs. cbn [List.find].
  fold (find_rs active_name l). destruct (decide (rs_name x = active_name)) as [E|E].
  - rewrite decide_True; [auto|]. rewrite bool_decide_eq_true_2 //. rewrite fmap_cons /=.
    assert (zsum (available <$> filter (fun y => ~ rs_name y <> active_name) l) = 0) as ->; [|lia].
    apply zsum_all_zero. intros y [Hy Hin]%list_elem_of_filter. destruct Hnin. rewrite E. apply dec_stable in Hy.
    rewrite -Hy. by apply list_elem_of_fmap_2.
  - rewrite decide_False; [auto|]. rewrite bool_decide_eq_false_2 //. by apply IH.
Qed.

Hypothesis Hfit : counts_fit available owned active_name new_active desired max_unavailable.

Lemma old_in rs : rs ∈ old -> rs ∈ owned.
Proof. intros [_ ?]%list_elem_of_filter. done. Qed.

Lemma old_names : NoDup (rs_name <$> old).
Proof. apply NoDup_fmap_filter, (cf_names _ _ _ _ _ _ Hfit). Qed.

Lemma old_replicas_bound rs : rs ∈ old -> 0 <= rs_replicas rs <= I32_MAX - new_active.
Proof.
  intros Hin. split; [by apply (cf_replicas _ _ _ _ _ _ Hfit), old_in|].
  assert (rs_replicas rs <= zsum (rs_replicas <$> old)); [|pose proof (cf_sum _ _ _ _ _ _ Hfit) as Hs; fold old in Hs; lia].
  apply zsum_elem; [|done]. intros y Hy. by apply (cf_replicas _ _ _ _ _ _ Hfit), old_in.
Qed.

Lemma new_available_bound : 0 <= new_available /\ 0 <= zsum (available <$> old) /\
  new_available + zsum (available <$> old) <= I32_MAX.
Proof.
  pose proof (available_split (cf_names _ _ _ _ _ _ Hfit)). pose proof (cf_total _ _ _ _ _ _ Hfit).
  split; [|split; [|lia]].
  - unfold new_available. destruct (find_rs active_name owned) eqn:E; [|lia]. apply find_rs_Some in E as [Hin _].
    by apply (cf_available _ _ _ _ _ _ Hfit).
  - apply zsum_nonneg, Forall_fmap, Forall_forall. intros x Hx. by apply (cf_available _ _ _ _ _ _ Hfit), old_in.
Qed.

Lemma old_sum_nonneg : 0 <= zsum (rs_replicas <$> old).
Proof. apply zsum_nonneg, Forall_fmap, Forall_forall. intros x Hx. by apply (cf_replicas _ _ _ _ _ _ Hfit), old_in. Qed.

(** Every old ReplicaSet shrinks or stays. *)
Definition shrinks (o : option (gmap string Z)) : Prop := forall rs, rs ∈ old -> 0 <= old_target o rs <= rs_replicas rs.

(** The pods that remain available reach the minimum, or all that were
    available remain. *)
Definition spares (o : option (gmap string Z)) : Prop :=
  (forall rs, rs ∈ old -> available rs <= rs_replicas rs) ->
  Z.min min_available (new_available + zsum (available <$> old)) <=
  new_available + zsum ((fun rs => Z.min (available rs) (old_target o rs)) <$> old).

(** It takes all the surplus it can. *)
Definition takes_surplus (o : option (gmap string Z)) : Prop :=
  (forall rs, rs ∈ old -> available rs = rs_replicas rs) -> new_available <= new_active \/ min_available <= new_active ->
  zsum (rs_replicas <$> old) - zsum (old_target o <$> old) =
  Z.max 0 (Z.min (new_available + zsum (rs_replicas <$> old) - min_available) (zsum (rs_replicas <$> old))).

Lemma untouched_safe : shrinks None /\ spares None.
Proof.
  split; [intros rs Hrs; simpl; pose proof (old_replicas_bound rs Hrs); lia|]. intros Hle. simpl.
  assert (zsum (available <$> old) <= zsum ((fun rs => Z.min (available rs) (rs_replicas rs)) <$> old)); [|lia].
  apply zsum_map_le. intros x Hx. pose proof (Hle x Hx). lia.
Qed.

Let names := rs_name <$> by_age old.

Lemma names_perm : names ≡ₚ rs_name <$> old.
Proof. unfold names. by rewrite by_age_perm. Qed.

Lemma names_nodup : NoDup names.
Proof. rewrite names_perm. apply old_names. Qed.

Lemma available_lookup rs : rs ∈ old -> map_of available old !! rs_name rs = Some (available rs).
Proof. intros. apply map_of_lookup; [apply old_names|done]. Qed.

(** The unavailable pods go first. *)
Lemma unavailable_phase limit : small limit -> exists d1 cur1,
  take_phase limit (fun name cur => Z.max (cur - default 0 (map_of available old !! name)) 0) (0, map_of rs_replicas old) names
    = Some (d1, cur1) /\
  (forall rs, rs ∈ old -> exists c1, cur1 !! rs_name rs = Some c1 /\
     0 <= rs_replicas rs - c1 <= Z.max (rs_replicas rs - available rs) 0).
Proof.
  intros Hl.
  destruct (take_phase_spec limit (fun name cur => Z.max (cur - default 0 (map_of available old !! name)) 0) names
    (map_of rs_replicas old) 0) as (d1 & cur1 & E1 & _ & Hin1 & _); [unfold small, I32_MAX; lia|unfold small in *; lia|apply names_nodup| |].
  { intros name Hname. rewrite names_perm in Hname. apply list_elem_of_fmap in Hname as (rs & -> & Hrs).
    pose proof (old_replicas_bound rs Hrs). pose proof (cf_available _ _ _ _ _ _ Hfit rs (old_in rs Hrs)).
    pose proof (cf_new _ _ _ _ _ _ Hfit). exists (rs_replicas rs).
    rewrite (map_of_lookup rs_replicas old rs old_names Hrs) available_lookup //=.
    split; [done|]. split; [unfold small; lia|]. lia. }
  exists d1, cur1. split; [done|]. intros rs Hrs.
  destruct (Hin1 (rs_name rs)) as (c & c1 & Hc & Hc1 & Hb & _); [rewrite names_perm; by apply list_elem_of_fmap_2|].
  rewrite (map_of_lookup rs_replicas old rs old_names Hrs) in Hc. injection Hc as <-. rewrite available_lookup // in Hb.
  simpl in Hb. exists c1. split; [done|]. lia.
Qed.

(** Then the surplus of the available ones. *)
Lemma surplus_phase surplus (cur1 : gmap string Z) : surplus <= I32_MAX ->
  (forall rs, rs ∈ old -> exists c1, cur1 !! rs_name rs = Some c1 /\
     0 <= rs_replicas rs - c1 <= Z.max (rs_replicas rs - available rs) 0) ->
  exists d2 cur2, take_phase (Z.max surplus 0) (fun _ cur => cur) (0, cur1) names = Some (d2, cur2) /\ 0 <= d2 <= Z.max surplus 0 /\
    (forall rs, rs ∈ old -> exists c1, cur1 !! rs_name rs = Some c1 /\
       0 <= rs_replicas rs - c1 <= Z.max (rs_replicas rs - available rs) 0 /\
       0 <= c1 - default 0 (cur2 !! rs_name rs) <= c1 /\ (d2 < Z.max surplus 0 -> default 0 (cur2 !! rs_name rs) = 0)) /\
    zsum ((fun rs => default 0 (cur1 !! rs_name rs) - default 0 (cur2 !! rs_name rs)) <$> old) = d2.
Proof.
  intros Hs H1.
  destruct (take_phase_spec (Z.max surplus 0) (fun _ cur => cur) names cur1 0) as (d2 & cur2 & E2 & Hd2 & Hin2 & _ & Hsum2);
    [unfold small, I32_MAX; lia|unfold small, I32_MAX in *; lia|apply names_nodup| |].
  { intros name Hname. rewrite names_perm in Hname. apply list_elem_of_fmap in Hname as (rs & -> & Hrs).
    destruct (H1 rs Hrs) as (c1 & Hc1 & Hb). pose proof (old_replicas_bound rs Hrs).
    pose proof (cf_available _ _ _ _ _ _ Hfit rs (old_in rs Hrs)). pose proof (cf_new _ _ _ _ _ _ Hfit).
    exists c1. split; [done|]. split; [|done]. unfold small. lia. }
  exists d2, cur2. split; [done|]. split; [lia|]. split.
  - intros rs Hrs. destruct (H1 rs Hrs) as (c1 & Hc1 & Hb). exists c1. split; [done|]. split; [done|].
    destruct (Hin2 (rs_name rs)) as (c & c2 & Hc & Hc2 & Hb2 & Hfull); [rewrite names_perm; by apply list_elem_of_fmap_2|].
    pose proof (cf_available _ _ _ _ _ _ Hfit rs (old_in rs Hrs)). pose proof (old_replicas_bound rs Hrs).
    rewrite Hc2 /=. simplify_eq. split; [lia|]. intros Hlt%Hfull. lia.
  - rewrite Z.sub_0_r in Hsum2. rewrite -Hsum2. rewrite (zsum_perm _ _ (fmap_Permutation _ _ _ names_perm)).
    by rewrite -list_fmap_compose.
Qed.

Lemma phases_spec (cur1 cur2 : gmap string Z) d2 :
  let surplus := new_available + zsum (available <$> old) - min_available in
  0 <= d2 <= Z.max surplus 0 ->
  (forall rs, rs ∈ old -> exists c1, cur1 !! rs_name rs = Some c1 /\
     0 <= rs_replicas rs - c1 <= Z.max (rs_replicas rs - available rs) 0 /\
     0 <= c1 - default 0 (cur2 !! rs_name rs) <= c1 /\ (d2 < Z.max surplus 0 -> default 0 (cur2 !! rs_name rs) = 0)) ->
  zsum ((fun rs => default 0 (cur1 !! rs_name rs) - default 0 (cur2 !! rs_name rs)) <$> old) = d2 ->
  shrinks (Some cur2) /\ spares (Some cur2) /\ takes_surplus (Some cur2).
Proof.
  intros surplus Hd2 Hrs Htaken. split_and!.
  - intros rs Hin. destruct (Hrs rs Hin) as (c1 & _ & ? & ? & _). simpl. lia.
  - intros Hle. assert (zsum (available <$> old) - d2 <=
      zsum ((fun rs => Z.min (available rs) (default 0 (cur2 !! rs_name rs))) <$> old)); [|unfold surplus, old_target in *; lia].
    rewrite -Htaken -zsum_sub. apply zsum_map_le. intros rs Hin. destruct (Hrs rs Hin) as (c1 & -> & ? & ? & _).
    pose proof (Hle rs Hin). simpl. lia.
  - intros Heq _. change (old_target (Some cur2)) with (fun rs => default 0 (cur2 !! rs_name rs)).
    assert (zsum (available <$> old) = zsum (rs_replicas <$> old)) as Hsame
      by (f_equal; apply list_fmap_ext; intros i x Hx; apply Heq; by eapply list_elem_of_lookup_2).
    assert (zsum (rs_replicas <$> old) - zsum ((fun rs => default 0 (cur2 !! rs_name rs)) <$> old) = d2) as ->.
    { rewrite -Htaken -zsum_sub. f_equal. apply list_fmap_ext. intros i rs Hi. apply list_elem_of_lookup_2 in Hi.
      destruct (Hrs rs Hi) as (c1 & -> & Hb & _). rewrite (Heq rs Hi) in Hb. simpl. lia. }
    assert (d2 <= zsum (rs_replicas <$> old)) as Hmax.
    { rewrite -Htaken. apply zsum_map_le. intros rs Hi. destruct (Hrs rs Hi) as (c1 & -> & ? & ? & _). simpl. lia. }
    destruct (decide (d2 < Z.max surplus 0)) as [Hlt|Hge]; [|unfold surplus in *; lia].
    assert (d2 = zsum (rs_replicas <$> old)); [|unfold surplus in *; lia].
    rewrite -Htaken. f_equal. apply list_fmap_ext. intros i rs Hi. apply list_elem_of_lookup_2 in Hi.
    destruct (Hrs rs Hi) as (c1 & -> & Hb & ? & Hz). rewrite (Hz Hlt) /=. rewrite (Heq rs Hi) in Hb. lia.
Qed.

Lemma available_values : sum32 (snd <$> map_to_list (map_of available old)) = Some (zsum (available <$> old)).
Proof.
  destruct new_available_bound as (? & ? & ?). rewrite -(zsum_perm _ _ (map_of_values available old old_names)). apply sum32_fits.
  - rewrite map_of_values; [apply old_names|]. apply Forall_fmap, Forall_forall. intros x Hx.
    by apply (cf_available _ _ _ _ _ _ Hfit), old_in.
  - rewrite (zsum_perm _ _ (map_of_values available old old_names)). lia.
Qed.

(** What [old_targets] does: no overflow, and the three properties above. *)
Lemma old_targets_spec :
  exists o, old_targets available owned active_name new_active desired max_unavailable = Some o /\
    shrinks o /\ spares o /\ takes_surplus o.
Proof.
  pose proof (cf_desired _ _ _ _ _ _ Hfit) as Hdes. pose proof (cf_unavailable _ _ _ _ _ _ Hfit) as Hun.
  pose proof (cf_sum _ _ _ _ _ _ Hfit) as Hsum. pose proof (cf_new _ _ _ _ _ _ Hfit) as Hnew. fold old in Hsum.
  destruct new_available_bound as (Hna & Hoa & Htot). pose proof old_sum_nonneg as Hor.
  unfold old_targets. fits. fold (olds active_name owned). fold old. fold new_available. fold min_available.
  destruct untouched_safe as [Hsh Hsp]. case_decide as Hzero.
  { exists None. do 3 (split; [done|]). intros _ _. change (old_target None) with rs_replicas.
    assert (zsum (rs_replicas <$> old) = 0) as ->; [|lia]. apply zsum_all_zero. by apply Forall_forall. }
  fits. assert (sum32 (rs_replicas <$> old) = Some (zsum (rs_replicas <$> old))) as ->.
  { apply sum32_fits; [|lia]. apply Forall_fmap, Forall_forall. intros x Hx. by apply (cf_replicas _ _ _ _ _ _ Hfit), old_in. }
  cbn [mbind option_bind]. fits.
  assert (small min_available) as Hmin by (unfold small, min_available in *; lia). fits. fits.
  case_decide as Hdown.
  { exists None. do 3 (split; [done|]). intros Heq Hle. change (old_target None) with rs_replicas.
    assert (0 < zsum (rs_replicas <$> old)) as Hpos; [|destruct Hle; lia].
    destruct (decide (0 < zsum (rs_replicas <$> old))) as [?|Hn]; [done|]. exfalso. apply Hzero, Forall_forall.
    apply zsum_zero; [|lia]. intros x Hx. by apply (cf_replicas _ _ _ _ _ _ Hfit), old_in. }
  set (limit := Z.max (new_active + zsum (rs_replicas <$> old) - min_available - Z.max (new_active - new_available) 0) 0) in *.
  destruct (unavailable_phase limit) as (d1 & cur1 & E1 & H1); [unfold small, limit in *; lia|]. unfold names in E1. rewrite E1.
  cbn [mbind option_bind]. rewrite available_values. cbn [mbind option_bind]. fits. fits.
  set (surplus := new_available + zsum (available <$> old) - min_available) in *.
  destruct (surplus_phase surplus cur1) as (d2 & cur2 & E2 & Hd2 & H2 & Ht); [unfold small, surplus in *; lia|done|].
  unfold names in E2. rewrite E2.
  exists (Some cur2). split; [done|]. by apply (phases_spec cur1 cur2 d2).
Qed.

End Targets.

(** * Proportional scaling: what the distribution adds up to

    Whatever the rounding of the shares, scaling up adds exactly the replicas the
    deployment gained, and scaling down removes no more than it lost; every
    ReplicaSet moves in the same direction. *)

Local Open Scope Z_scope.

(** The count of a ReplicaSet under a list of updates. *)
Definition updated (m : gmap string Z) (rs : ReplicaSet) : Z := default (rs_replicas rs) (m !! rs_name rs).

Definition update_map (updates : list (string * Z)) : gmap string Z := list_to_map updates.

Lemma updated_insert m l rs n :
  NoDup (rs_name <$> l) -> rs ∈ l ->
  zsum (updated (<[rs_name rs := n]> m) <$> l) = zsum (updated m <$> l) + n - updated m rs.
Proof.
  induction l as [|x l IH]; intros Hn Hin; [by apply elem_of_nil in Hin|].
  rewrite fmap_cons in Hn. apply NoDup_cons in Hn as [Hnin Hn]. rewrite !fmap_cons /=.
  destruct (decide (rs_name x = rs_name rs)) as [He|Hne].
  - assert (x = rs) as ->.
    { apply elem_of_cons in Hin as [->|Hin]; [done|]. destruct Hnin. rewrite He. by apply list_elem_of_fmap_2. }
    assert (updated (<[rs_name rs := n]> m) <$> l = updated m <$> l) as ->.
    { apply list_fmap_ext. intros i y Hy. unfold updated. rewrite lookup_insert_ne //.
      intros He'. destruct Hnin. rewrite He'. apply list_elem_of_fmap_2. by eapply list_elem_of_lookup_2. }
    unfold updated at 1. rewrite lookup_insert_eq /=. lia.
  - apply elem_of_cons in Hin as [->|Hin]; [done|]. rewrite IH //. unfold updated at 1. rewrite lookup_insert_ne //.
    fold (updated m x). lia.
Qed.

Lemma update_map_snoc updates name n :
  name ∉ fst <$> updates -> update_map (updates ++ [(name, n)]) = <[name := n]> (update_map updates).
Proof. intros H. unfold update_map. rewrite list_to_map_snoc //. Qed.

Lemma update_map_not updates name : name ∉ fst <$> updates -> update_map updates !! name = None.
Proof. apply not_elem_of_list_to_map_1. Qed.

Lemma update_map_in updates name n : NoDup (fst <$> updates) -> (name, n) ∈ updates -> update_map updates !! name = Some n.
Proof. apply elem_of_list_to_map_1. Qed.

Section Distribution.
Context (owned : list ReplicaSet) (allowed_size to_add : Z).
Let total := zsum (rs_replicas <$> owned).
Hypothesis Hnames : NoDup (rs_name <$> owned).
Hypothesis Hnonneg : forall rs, rs ∈ owned -> 0 <= rs_replicas rs.
Hypothesis Hallowed : small allowed_size.
Hypothesis Htotal : total <= I32_MAX.
Hypothesis Hadd : to_add = allowed_size - total.

Lemma fraction_fits rs : rs ∈ owned -> exists f, fraction_of allowed_size total rs = Some f /\ - rs_replicas rs <= f <= I32_MAX.
Proof.
  intros Hin. pose proof (Hnonneg rs Hin). pose proof (zsum_elem rs_replicas owned rs Hnonneg Hin). fold total in H0.
  unfold fraction_of. case_decide; [|exists 0; unfold I32_MAX; split; [done|lia]].
  set (x := f64_div _ _). assert (0 <= f64_round_i32 x <= I32_MAX) as Hx.
  { split; [|apply f64_as_i32_range]. apply f64_round_nonneg, f64_div_nonneg; [apply f64_mul_nonneg|];
      apply f64_of_Z_nonneg; unfold small in *; lia. }
  eexists. split; [apply checked32_fits; unfold I32_MIN, I32_MAX in *; lia|]. lia.
Qed.

(** The invariant of the loop: [done] has been visited. *)
Record dist_inv (done : list string) (added : Z) (updates : list (string * Z)) : Prop := {
  di_names : NoDup (fst <$> updates);
  di_done name n : (name, n) ∈ updates -> name ∈ done /\ exists rs, rs ∈ owned /\ rs_name rs = name /\ 0 <= n /\
    if decide (0 < to_add) then rs_replicas rs < n else n < rs_replicas rs;
  di_added : if decide (0 < to_add) then 0 <= added <= to_add else to_add <= added <= 0;
  di_sum : if decide (0 < to_add) then zsum (updated (update_map updates) <$> owned) = total + added
           else total + added <= zsum (updated (update_map updates) <$> owned) <= total
}.

Lemma distribute_one_ok rs seen added updates :
  rs ∈ owned -> rs_name rs ∉ seen -> dist_inv seen added updates ->
  exists added' updates', distribute_one allowed_size total to_add (added, updates) rs = Some (added', updates') /\
    dist_inv (rs_name rs :: seen) added' updates'.
Proof.
  intros Hin Hseen [Hnd Hdone Hadded Hsum]. pose proof (Hnonneg rs Hin) as Hr.
  pose proof (zsum_elem rs_replicas owned rs Hnonneg Hin) as Hrt. fold total in Hrt.
  assert (rs_name rs ∉ fst <$> updates) as Hfresh.
  { intros ([s n] & E & Hu)%list_elem_of_fmap. simpl in E. subst s. apply Hdone in Hu as [Hu _]. done. }
  assert (forall added', (if decide (0 < to_add) then added' = added else to_add <= added' <= added) ->
    dist_inv (rs_name rs :: seen) added' updates) as Hskip.
  { intros added' Ha. split; [done| |destruct (decide (0 < to_add)); lia|destruct (decide (0 < to_add)); [by rewrite Ha|lia]].
    intros s n Hu. destruct (Hdone s n Hu) as [? ?]. split; [by right|done]. }
  unfold distribute_one. destruct (decide (rs_replicas rs = 0)) as [Hz|Hz].
  { eexists _, _. split; [done|]. apply Hskip. destruct (decide (0 < to_add)); [done|lia]. }
  destruct (fraction_fits rs Hin) as (f & -> & Hf). cbn [mbind option_bind].
  assert (0 <= total) as Ht0 by (apply zsum_nonneg, Forall_fmap, Forall_forall; exact Hnonneg).
  assert (I32_MIN <= to_add - added <= I32_MAX) as Hroom.
  { unfold small, I32_MIN, I32_MAX in *. destruct (decide (0 < to_add)); lia. }
  rewrite (checked32_fits (to_add - added)) //. cbn [mbind option_bind].
  set (p := if decide (0 < to_add) then _ else _).
  assert (if decide (0 < to_add) then 0 <= p <= to_add - added else to_add - added <= p <= 0) as Hp
    by (unfold p; destruct (decide (0 < to_add)); lia).
  assert (- rs_replicas rs <= p) as Hlow.
  { unfold p. destruct (decide (0 < to_add)); lia. }
  assert (I32_MIN <= rs_replicas rs + p <= I32_MAX /\ I32_MIN <= added + p <= I32_MAX) as [Hs1 Hs2].
  { unfold small, I32_MIN, I32_MAX in *. destruct (decide (0 < to_add)); lia. }
  rewrite (checked32_fits (rs_replicas rs + p)) //. cbn [mbind option_bind].
  rewrite (checked32_fits (added + p)) //. cbn [mbind option_bind].
  eexists _, _. split; [done|]. rewrite Z.max_l; [lia|]. clearbody p.
  destruct (decide (rs_replicas rs + p = rs_replicas rs)) as [Hsame|Hsame].
  { apply Hskip. destruct (decide (0 < to_add)); lia. }
  split.
  - rewrite fmap_app. apply NoDup_app. split; [done|]. split; [|apply NoDup_singleton].
    intros s Hs ->%list_elem_of_singleton. done.
  - intros s n [Hu|[= -> ->]%list_elem_of_singleton]%elem_of_app.
    + destruct (Hdone s n Hu) as [? ?]. split; [by right|done].
    + split; [left|]. exists rs. split_and!; [done|done|lia|]. destruct (decide (0 < to_add)); lia.
  - destruct (decide (0 < to_add)); lia.
  - rewrite update_map_snoc // updated_insert //.
    assert (updated (update_map updates) rs = rs_replicas rs) as -> by (unfold updated; by rewrite update_map_not).
    destruct (decide (0 < to_add)); lia.
Qed.

Lemma distribute_ok l : forall seen added updates,
  (forall rs, rs ∈ l -> rs ∈ owned) -> NoDup (rs_name <$> l) -> (forall s, s ∈ rs_name <$> l -> s ∉ seen) ->
  dist_inv seen added updates ->
  exists added' updates' seen', distribute allowed_size total to_add (added, updates) l = Some (added', updates') /\
    dist_inv seen' added' updates'.
Proof.
  induction l as [|rs l IH]; intros seen added updates Hl Hn Hs Hi; cbn [distribute]; [by eexists _, _, _|].
  rewrite fmap_cons in Hn, Hs. apply NoDup_cons in Hn as [Hnin Hn].
  destruct (distribute_one_ok rs seen added updates) as (a1 & u1 & -> & Hi1); [apply Hl; left|apply Hs; left|done|].
  cbn [mbind option_bind]. eapply IH; [|done| |done].
  - intros x Hx. apply Hl. by right.
  - intros s Hin [->|Hin']%elem_of_cons; [done|]. apply (Hs s); [by right|done].
Qed.

Lemma give_leftover_ok seen added updates :
  dist_inv seen added updates ->
  exists updates', give_leftover to_add added updates = Some updates' /\ NoDup (fst <$> updates') /\
    (forall name n, (name, n) ∈ updates' -> exists rs, rs ∈ owned /\ rs_name rs = name /\ 0 <= n /\
       if decide (0 < to_add) then rs_replicas rs <= n else n <= rs_replicas rs) /\
    (updates' <> [] -> if decide (0 < to_add) then zsum (updated (update_map updates') <$> owned) = total + to_add
                       else total + to_add <= zsum (updated (update_map updates') <$> owned) <= total).
Proof.
  intros [Hnd Hdone Hadded Hsum]. unfold give_leftover. destruct updates as [|[name n] rest].
  { exists []. split; [done|]. split; [constructor|]. split; [|done]. intros ? ? H. by apply elem_of_nil in H. }
  assert (forall name0 n0, (name0, n0) ∈ (name, n) :: rest -> exists rs, rs ∈ owned /\ rs_name rs = name0 /\ 0 <= n0 /\
       if decide (0 < to_add) then rs_replicas rs <= n0 else n0 <= rs_replicas rs) as Hall.
  { intros s k Hu. destruct (Hdone s k Hu) as (_ & rs & ? & ? & ? & ?). exists rs. split_and!; try done.
    destruct (decide (0 < to_add)); lia. }
  destruct (decide (to_add = added)) as [Heq|Heq].
  { exists ((name, n) :: rest). split; [done|]. split; [done|]. split; [done|]. intros _. rewrite Heq.
    destruct (decide (0 < added)); rewrite -Heq in Hsum |- *; destruct (decide (0 < to_add)); lia. }
  destruct (Hall name n ltac:(left)) as (rs & Hin & <- & Hn0 & Hdir).
  pose proof (zsum_elem (updated (update_map ((rs_name rs, n) :: rest))) owned rs) as Hel.
  rewrite fmap_cons in Hnd. apply NoDup_cons in Hnd as [Hnin Hnd]. simpl in Hnin.
  assert (updated (update_map ((rs_name rs, n) :: rest)) rs = n) as Hupd
    by (unfold updated, update_map; simpl; by rewrite lookup_insert_eq).
  assert (n <= zsum (updated (update_map ((rs_name rs, n) :: rest)) <$> owned)) as Hns.
  { rewrite -{1}Hupd. apply (zsum_elem (updated (update_map ((rs_name rs, n) :: rest)))); [|done]. intros y Hy. unfold updated.
    destruct (update_map _ !! rs_name y) as [k|] eqn:E; [|by apply Hnonneg]. simpl.
    apply elem_of_list_to_map_2 in E. by apply Hall in E as (? & _ & _ & ? & _). }
  assert (0 <= total) as Ht0 by (apply zsum_nonneg, Forall_fmap, Forall_forall; exact Hnonneg).
  assert (I32_MIN <= to_add - added <= I32_MAX /\ I32_MIN <= n + (to_add - added) <= I32_MAX) as [H1 H2].
  { unfold small, I32_MIN, I32_MAX in *. destruct (decide (0 < to_add)); lia. }
  rewrite (checked32_fits (to_add - added)) //. cbn [mbind option_bind].
  rewrite (checked32_fits (n + _)) //. cbn [mbind option_bind]. eexists. split; [done|].
  split; [constructor; [done|done]|]. split.
  - intros s k [[= -> ->]|Hu]%elem_of_cons; [|apply Hall; by right]. exists rs. split_and!; [done|done|lia|].
    destruct (decide (0 < to_add)); lia.
  - intros _. set (n' := Z.max (n + (to_add - added)) 0).
    assert (update_map ((rs_name rs, n') :: rest) = <[rs_name rs := n']> (update_map ((rs_name rs, n) :: rest))) as ->.
    { unfold update_map. simpl. by rewrite insert_insert_eq. }
    rewrite updated_insert // Hupd. unfold n'. destruct (decide (0 < to_add)); lia.
Qed.

(** The updates of a scaling event. *)
Lemma proportional_updates_spec :
  to_add <> 0 ->
  exists updates, proportional_updates owned allowed_size total to_add = Some updates /\ NoDup (fst <$> updates) /\
    (forall name n, (name, n) ∈ updates -> exists rs, rs ∈ owned /\ rs_name rs = name /\ 0 <= n /\
       if decide (0 < to_add) then rs_replicas rs <= n else n <= rs_replicas rs) /\
    (updates <> [] -> if decide (0 < to_add) then zsum (updated (update_map updates) <$> owned) = allowed_size
                      else allowed_size <= zsum (updated (update_map updates) <$> owned) <= total).
Proof.
  intros Hnz. unfold proportional_updates.
  assert (sorted_by_size (bool_decide (0 < to_add)) owned ≡ₚ owned) as Hperm by apply sort_by_perm.
  destruct (distribute_ok (sorted_by_size (bool_decide (0 < to_add)) owned) [] 0 []) as (added & updates & seen & -> & Hi).
  - intros rs. by rewrite Hperm.
  - by rewrite Hperm.
  - intros s _ H. by apply elem_of_nil in H.
  - split; [constructor| |destruct (decide (0 < to_add)); lia|].
    + intros ? ? H. by apply elem_of_nil in H.
    + assert (zsum (updated (update_map []) <$> owned) = total) as ->; [|destruct (decide (0 < to_add)); lia].
      unfold total. f_equal.
  - cbn [mbind option_bind]. destruct (give_leftover_ok _ _ _ Hi) as (u & -> & ? & ? & Hs).
    exists u. split_and!; try done. intros Hne%Hs. pose proof Hadd. destruct (decide _); lia.
Qed.

End Distribution.
