(* ===== verification/RolloutPass.v ===== *)
(** * A pass of the deployment controller, piece by piece

    Each piece of [reconcile_deployment] runs without an overflow and moves the
    counts of the ReplicaSets only as its plan says. *)

From stdpp Require Import strings pretty.
From S2P Require Import Prelude RustText BTree Json Authz ServiceTypes Quantity QuantityText LabelSelector F64 DeploymentTypes DeploymentController DeploymentRuns RolloutArith.

Local Open Scope Z_scope.

Lemma parse_i64_pretty n : 0 <= n < 2 ^ 63 -> parse_i64 (pretty n) = Some n.
Proof.
  intros Hn. destruct (pretty_Z_spec n) as (ds & -> & Hd & Hv & Hne). unfold parse_i64, sign_string.
  rewrite (decide_False (P := n < 0)); [lia|]. simpl. destruct ds as [|c ds]; [done|]. pose proof Hd as Hd'. simpl in Hd'.
  apply andb_true_iff in Hd' as [Hc _]. destruct (digit_not_sign c Hc). rewrite (decide_False (P := c = _)) // (decide_False (P := c = _)) //.
  rewrite all_digits_spec // Hv Z.mul_1_l Z.abs_eq; [lia|]. rewrite decide_True //. lia.
Qed.

Section Pass.
Context `{!TemplateHash} (d : Deployment).

(** ** Adoption *)

Definition no_orphans (l : list ReplicaSet) : Prop := forall rs, rs ∈ l ->
  is_owned_by_deployment rs d = true \/ has_controller_owner rs = true \/
  labels_match (match_labels (ds_selector (d_spec d))) (m_labels (rs_metadata rs)) = false.

Lemma adopt_none l w : no_orphans l -> for_each (adopt d) l w = Some (w, Ok tt).
Proof.
  induction l as [|rs l IH]; intros Hl; [done|]. cbn [for_each]. unfold bind.
  assert (adopt d rs w = Some (w, Ok tt)) as ->.
  { unfold adopt. destruct (Hl rs ltac:(left)) as [->|[Ho|Hm]]; [done|..].
    - rewrite Ho. by destruct (is_owned_by_deployment rs d).
    - rewrite Hm. by destruct (is_owned_by_deployment rs d), (has_controller_owner rs). }
  apply IH. intros x Hx. apply Hl. by right.
Qed.

(** ** Annotations *)

Lemma moved_same R l l' rs :
  NoDup (rs_name <$> l) -> rs ∈ l -> moved R (one_move (rs_name rs) (rs_replicas rs)) l l' -> moved R no_move l l'.
Proof.
  intros Hn Hin Hm. unfold moved in *. rewrite Forall2_lookup in Hm. rewrite Forall2_lookup. intros i. specialize (Hm i).
  destruct (l !! i) as [x|] eqn:Hx; inversion Hm as [x0 y (Hl & Hk & Hr) E1 E2|]; subst; constructor.
  split; [done|]. split; [done|]. left. destruct Hr as [?|[He ->]]; [done|].
  f_equal. symmetry. apply (names_inj l); try done. by eapply list_elem_of_lookup_2.
Qed.

Lemma store_annotations_runs R w rs a :
  PreOrder R -> NoDup (rs_name <$> w_rss w) -> rs ∈ w_rss w ->
  R rs (with_rs_meta rs (set_annotations (rs_metadata rs) a)) ->
  runs (attempt (store_rs (with_rs_meta rs (set_annotations (rs_metadata rs) a)))) w (fun w' r =>
    frame w w' /\ (exists o, r = Ok o) /\ moved R no_move (w_rss w) (w_rss w') /\
    (forall y, y ∈ w_rss w -> rs_name y <> rs_name rs -> y ∈ w_rss w')).
Proof.
  intros HR Hn Hin Hr. apply runs_attempt. eapply runs_mono.
  - apply (store_rs_runs R w rs _ (rs_replicas rs) HR Hn Hin); [apply like_annotations|done|by left].
  - intros w' r (Hf & Hm & _ & Hk & _). split; [done|]. split; [eauto|]. split; [|done].
    by apply (moved_same R _ _ rs).
Qed.

(** Only the revision annotation may change, to [n]. *)
Definition revised (n : Z) : relation ReplicaSet := fun rs rs' =>
  keeps (fun k => k <> REVISION) rs rs' /\ (revision_of rs' = revision_of rs \/ revision_of rs' = Some n).

#[local] Instance revised_preorder n : PreOrder (revised n).
Proof.
  split; [intros x; split; [done|by left]|]. intros x y z [H1 H2] [H3 H4]. split; [by etrans|].
  destruct H4 as [->|?]; [done|by right].
Qed.

Lemma annotation_insert m k v k' :
  annotation (insert_annotation m k v) k' = if decide (k = k') then Some v else annotation m k'.
Proof.
  unfold annotation, insert_annotation. simpl. rewrite lookup_insert. case_decide; [done|].
  destruct (m_annotations m); [done|]. simpl. by rewrite lookup_empty.
Qed.

Lemma annotation_insert_eq m k v : annotation (insert_annotation m k v) k = Some v.
Proof. rewrite annotation_insert. by destruct (decide (k = k)). Qed.

Lemma annotation_insert_ne m k v k' : k <> k' -> annotation (insert_annotation m k v) k' = annotation m k'.
Proof. intros Hk. rewrite annotation_insert. by destruct (decide (k = k')). Qed.

Lemma annotate_runs n l : parse_i64 (pretty n) = Some n -> forall w,
  NoDup (rs_name <$> w_rss w) -> NoDup (rs_name <$> l) -> (forall rs, rs ∈ l -> rs ∈ w_rss w) ->
  runs (for_each (annotate_revision d (pretty n)) l) w (fun w' r =>
    r = Ok tt /\ frame w w' /\ moved (revised n) no_move (w_rss w) (w_rss w')).
Proof.
  intros Hp. induction l as [|rs l IH]; intros w Hn Hnl Hl; cbn [for_each].
  { apply runs_ret. split; [done|]. split; [done|apply moved_refl, _]. }
  rewrite fmap_cons in Hnl. apply NoDup_cons in Hnl as [Hnin Hnl]. apply runs_bind. unfold annotate_revision. case_decide as Hc.
  - apply runs_bind. eapply runs_mono.
    + apply (store_annotations_runs (revised n) w rs _ _ Hn); [apply Hl; left|]. split.
      * intros k Hk. by apply annotation_insert_ne.
      * right. unfold revision_of.
        pose proof (annotation_insert_eq (rs_metadata rs) REVISION (pretty n)) as Ha.
        change (annotation (insert_annotation (rs_metadata rs) REVISION (pretty n)) REVISION ≫= parse_i64 = Some n).
        by rewrite Ha /= Hp.
    + intros w1 r (Hf & [o ->] & Hm & Hk). apply runs_ret. eapply runs_mono; [apply IH|].
      * by rewrite (moved_names _ _ _ _ Hm).
      * done.
      * intros x Hx. apply Hk; [apply Hl; by right|]. intros He. apply Hnin. rewrite -He. by apply list_elem_of_fmap_2.
      * intros w2 r (-> & Hf2 & Hm2). split; [done|]. split; [by eapply frame_trans|by eapply moved_trans; [apply _|..]].
  - apply runs_ret. apply IH; [done..|]. intros x Hx. apply Hl. by right.
Qed.

(** ** Revisions *)

Definition revisions_below (b : Z) (l : list ReplicaSet) : Prop :=
  forall rs r, rs ∈ l -> revision_of rs = Some r -> r < b.

Lemma revision_range rs r : revision_of rs = Some r -> - 2 ^ 63 <= r < 2 ^ 63.
Proof.
  unfold revision_of. destruct (annotation _ _) as [s|]; simpl; [|done]. unfold parse_i64.
  destruct (match s with String _ _ => _ | _ => _ end) as [sg ds]. destruct (all_digits ds); [|done].
  by case_decide; intros [= <-].
Qed.

Lemma max_of_in l : forall m, max_of l = Some m -> m ∈ l.
Proof.
  destruct l as [|z l]; intros m; [done|]. simpl. intros [= <-]. revert z. induction l as [|y l IH]; intros z; simpl; [left|].
  destruct (Z.max_spec z y) as [[_ ->]|[_ ->]].
  - right. apply IH.
  - pose proof (IH z) as Hz. apply elem_of_cons in Hz as [E|Hz]; [rewrite E; left|right; by right].
Qed.

Lemma max_revision_range (P : ReplicaSet -> Prop) `{forall rs, Decision (P rs)} b l : 0 < b -> revisions_below b l ->
  - 2 ^ 63 <= default 0 (max_of (omap revision_of (filter P l))) < b.
Proof.
  intros Hb Hr. destruct (max_of _) as [m|] eqn:E; simpl; [|lia]. apply max_of_in in E.
  apply list_elem_of_omap in E as (rs & [_ Hin]%list_elem_of_filter & Hm). pose proof (revision_range rs m Hm).
  pose proof (Hr rs m Hin Hm). lia.
Qed.

Lemma checked64_fits z : - 2 ^ 63 <= z < 2 ^ 63 -> checked64 z = Some z.
Proof. apply decide_True. Qed.

Lemma revision_for_fits b owned : 0 < b < 2 ^ 63 -> revisions_below b owned ->
  exists n, revision_for d owned = Some n /\ 1 <= n <= b.
Proof.
  intros Hb Hr. unfold revision_for.
  pose proof (max_revision_range (fun rs => hash_of rs <> compute_pod_template_hash d) b owned ltac:(lia) Hr) as H1.
  pose proof (max_revision_range (fun rs => hash_of rs = compute_pod_template_hash d) b owned ltac:(lia) Hr) as H2.
  rewrite checked64_fits; [lia|]. cbn [mbind option_bind]. eexists. split; [done|]. lia.
Qed.

Lemma store_deployment_runs dep w : runs (store_deployment dep) w (fun w' _ => frame w w' /\ w_rss w' = w_rss w).
Proof.
  unfold store_deployment. apply runs_bind. eapply runs_mono; [apply ask_runs|]. intros w1 r (Hf & Hr & Hd & b & -> & _).
  apply runs_bind, runs_reads. rewrite Hd. destruct b, (w_deployment w) eqn:E; simpl; try by eexists _, _.
  apply runs_bind, runs_modify. apply runs_ret. split; [|done]. destruct Hf as [H1 H2 H3]. split; simpl; eauto.
Qed.

Lemma remember_runs dep w : runs (remember_own_write dep) w (fun w' r => r = Ok tt /\ frame w w' /\ w_rss w' = w_rss w).
Proof. apply runs_modify. done. Qed.

Lemma sync_revision_runs b w owned : 0 < b < 2 ^ 63 -> NoDup (rs_name <$> w_rss w) -> NoDup (rs_name <$> owned) ->
  (forall rs, rs ∈ owned -> rs ∈ w_rss w) -> revisions_below b (w_rss w) ->
  runs (sync_revision d owned) w (fun w' r => r = Ok tt /\ frame w w' /\
    exists n, 1 <= n <= b /\ moved (revised n) no_move (w_rss w) (w_rss w')).
Proof.
  intros Hb Hn Hno Hin Hr. unfold sync_revision.
  destruct (revision_for_fits b owned Hb) as (n & Hfor & Hnb); [intros rs r Hrs; apply Hr, Hin; done|].
  apply runs_bind, (runs_num _ n _ _ Hfor). apply runs_bind. eapply runs_mono.
  { apply annotate_runs; [apply parse_i64_pretty; lia|done..]. }
  intros w1 r (-> & Hf & Hm). case_decide; [apply runs_ret; eauto|].
  apply runs_bind, runs_attempt. eapply runs_mono; [apply store_deployment_runs|]. intros w2 r (Hf2 & Hr2).
  assert (frame w w2) by (by eapply frame_trans). destruct r as [dep|e].
  - eapply runs_mono; [apply remember_runs|]. intros w3 r (-> & Hf3 & Hr3). split; [done|].
    split; [by eapply frame_trans|]. exists n. split; [done|]. by rewrite Hr3 Hr2.
  - apply runs_ret. split; [done|]. split; [done|]. exists n. by rewrite Hr2.
Qed.

Lemma set_desired_runs w rs desired max_surge :
  NoDup (rs_name <$> w_rss w) -> small (desired + max_surge) ->
  runs (set_desired_replicas_annotation rs desired max_surge) w (fun w' r => r = Ok tt /\ frame w w' /\
    moved (keeps (fun k => k = REVISION)) no_move (w_rss w) (w_rss w')).
Proof.
  intros Hn Hs. unfold set_desired_replicas_annotation. apply runs_bind, runs_reads.
  destruct (find_rs (rs_name rs) (w_rss w)) as [fresh|] eqn:E;
    [|apply runs_ret; split; [done|]; split; [done|]; apply moved_refl, _].
  apply find_rs_Some in E as [Hin _]. apply runs_bind. eapply runs_num.
  { apply checked32_fits. unfold small, I32_MIN, I32_MAX in *. lia. }
  set (m0 := set_annotations _ _). set (m1 := if decide _ then m0 else _). set (m2 := if decide _ then m1 else _).
  case_decide; [apply runs_ret; split; [done|]; split; [done|]; apply moved_refl, _|].
  assert (exists a, m2 = set_annotations (rs_metadata fresh) a /\ forall k, k = REVISION -> annotation m2 k = annotation (rs_metadata fresh) k)
    as (a & Hm2 & Hk).
  { assert (forall k, annotation m0 k = annotation (rs_metadata fresh) k) as Hz.
    { intros k. unfold m0, annotation. simpl. destruct (m_annotations (rs_metadata fresh)); simpl; [done|apply lookup_empty]. }
    assert (exists a, m1 = set_annotations (rs_metadata fresh) a /\ forall k, k = REVISION -> annotation m1 k = annotation (rs_metadata fresh) k)
      as (a1 & Ha1 & Hk1).
    { unfold m1. case_decide; [exists (m_annotations m0); split; [done|auto]|]. eexists. split; [done|]. intros k ->.
      rewrite annotation_insert_ne //. }
    unfold m2. case_decide; [exists a1; done|]. rewrite {1}Ha1. eexists. split; [done|]. intros k ->.
    rewrite annotation_insert_ne // Hk1 //. }
  apply runs_bind. rewrite Hm2. eapply runs_mono.
  { apply (store_annotations_runs (keeps (fun k => k = REVISION)) w fresh a _ Hn Hin).
    intros k Hkk. rewrite -(Hk k Hkk) Hm2. done. }
  intros w1 r (Hf & [o ->] & Hm & _). apply runs_ret. done.
Qed.

Lemma set_desired_all_runs l desired max_surge : small (desired + max_surge) -> forall w,
  NoDup (rs_name <$> w_rss w) ->
  runs (for_each (fun rs => set_desired_replicas_annotation rs desired max_surge) l) w (fun w' r => r = Ok tt /\ frame w w' /\
    moved (keeps (fun k => k = REVISION)) no_move (w_rss w) (w_rss w')).
Proof.
  intros Hs. induction l as [|rs l IH]; intros w Hn; cbn [for_each]; [apply runs_ret; split; [done|]; split; [done|]; apply moved_refl, _|].
  apply runs_bind. eapply runs_mono; [by apply set_desired_runs|]. intros w1 r (-> & Hf & Hm).
  eapply runs_mono; [apply IH; by rewrite (moved_names _ _ _ _ Hm)|]. intros w2 r (-> & Hf2 & Hm2).
  split; [done|]. split; [by eapply frame_trans|by eapply moved_trans; [apply _|..]].
Qed.
End Pass.

(** * The rollout of a pass

    With a rolling update, the scaling and the rollout of a pass run without an
    overflow, and their writes stay between two plans: [capped], the counts the
    surge allows, and [floored], the counts that the minimum of available pods
    needs. *)

Local Open Scope Z_scope.

(** What the computations of a pass need not to overflow; [available] counts
    the pods of a ReplicaSet. *)
Record pass_fits (available : ReplicaSet -> Z) (d : Deployment) (owned : list ReplicaSet) : Prop := {
  pf_names : NoDup (rs_name <$> owned);
  pf_replicas rs : rs ∈ owned -> 0 <= rs_replicas rs;
  pf_desired : 0 <= desired_of d;
  pf_surge : 0 <= (rolling_counts d).1;
  pf_unavailable : small (rolling_counts d).2;
  pf_total : zsum (rs_replicas <$> owned) + desired_of d + (rolling_counts d).1 <= I32_MAX;
  pf_available rs : rs ∈ owned -> 0 <= available rs;
  pf_all_available : zsum (available <$> owned) <= I32_MAX
}.

Section Rollout.
Context `{!TemplateHash} (d : Deployment) (now : Z) (pods : list Pod) (owned : list ReplicaSet).
Let available := count_available_pods_min_ready now pods.
Let desired := desired_of d.
Let max_surge := (rolling_counts d).1.
Let max_unavailable := (rolling_counts d).2.
Let total := zsum (rs_replicas <$> owned).
Hypothesis Hfit : pass_fits available d owned.
Hypothesis Hrolling : is_rolling_update d = true.

(** [T] and a new ReplicaSet of [C] replicas stay below a plan that the surge
    allows. *)
Definition capped (T : string -> Z -> Prop) (C : Z -> Prop) : Prop :=
  exists (hi : string -> Z) (new : Z), 0 <= new /\ (forall rs, rs ∈ owned -> rs_replicas rs <= hi (rs_name rs)) /\
    (forall s n, T s n -> n <= hi s) /\ (forall n, C n -> n <= new) /\
    zsum ((fun rs => hi (rs_name rs)) <$> owned) + new <= Z.max total (desired + max_surge).

(** [T] stays above a plan that keeps the minimum available. *)
Definition floored (T : string -> Z -> Prop) : Prop :=
  exists lo : string -> Z, (forall rs, rs ∈ owned -> lo (rs_name rs) <= rs_replicas rs) /\
    (forall s n, T s n -> lo s <= n) /\
    Z.min (zsum (available <$> owned)) (desired - max_unavailable) <=
    zsum ((fun rs => Z.min (available rs) (lo (rs_name rs))) <$> owned).

(** What a plan by ReplicaSet is, by name. *)
Definition by_name (f : ReplicaSet -> Z) (s : string) : Z :=
  match find_rs s owned with Some rs => f rs | None => 0 end.

Lemma by_name_of f rs : rs ∈ owned -> by_name f (rs_name rs) = f rs.
Proof. intros Hin. unfold by_name. by rewrite (find_rs_elem _ _ (pf_names _ _ _ Hfit) Hin). Qed.

Lemma sum_by_name (g : ReplicaSet -> Z -> Z) f :
  zsum ((fun rs => g rs (by_name f (rs_name rs))) <$> owned) = zsum ((fun rs => g rs (f rs)) <$> owned).
Proof. f_equal. apply list_fmap_ext. intros i rs Hi. rewrite by_name_of //. by eapply list_elem_of_lookup_2. Qed.

(** A plan for the names of ReplicaSets the pass owns. *)
Definition plans (T : string -> Z -> Prop) (P : ReplicaSet -> Z -> Prop) : Prop :=
  forall s n, T s n -> exists rs, rs ∈ owned /\ rs_name rs = s /\ P rs n.

Lemma capped_by T (C : Z -> Prop) (hi : ReplicaSet -> Z) new : 0 <= new ->
  (forall rs, rs ∈ owned -> rs_replicas rs <= hi rs) -> plans T (fun rs n => n <= hi rs) -> (forall n, C n -> n <= new) ->
  zsum (hi <$> owned) + new <= Z.max total (desired + max_surge) -> capped T C.
Proof.
  intros Hn H1 H2 H3 H4. exists (by_name hi), new. split_and!; [done| | |done|].
  - intros rs Hin. rewrite by_name_of //. by apply H1.
  - intros s n (rs & Hin & <- & Hle)%H2. by rewrite by_name_of.
  - by rewrite (sum_by_name (fun _ z => z)).
Qed.

Lemma floored_by T (lo : ReplicaSet -> Z) :
  (forall rs, rs ∈ owned -> lo rs <= rs_replicas rs) -> plans T (fun rs n => lo rs <= n) ->
  Z.min (zsum (available <$> owned)) (desired - max_unavailable) <= zsum ((fun rs => Z.min (available rs) (lo rs)) <$> owned) ->
  floored T.
Proof.
  intros H1 H2 H3. exists (by_name lo). split_and!.
  - intros rs Hin. rewrite by_name_of //. by apply H1.
  - intros s n (rs & Hin & <- & Hle)%H2. by rewrite by_name_of.
  - by rewrite (sum_by_name (fun rs z => Z.min (available rs) z)).
Qed.

(** Nothing written. *)
Lemma plans_none P : plans no_move P.
Proof. intros s n []. Qed.

Lemma capped_none (C : Z -> Prop) new : 0 <= new -> (forall n, C n -> n <= new) ->
  total + new <= Z.max total (desired + max_surge) -> capped no_move C.
Proof. intros Hn HC Hs. by apply (capped_by _ _ rs_replicas new); [| |apply plans_none|..]. Qed.

Lemma floored_none : (forall rs, rs ∈ owned -> available rs <= rs_replicas rs) -> floored no_move.
Proof.
  intros Hle. apply (floored_by _ rs_replicas); [done|apply plans_none|].
  assert (zsum (available <$> owned) <= zsum ((fun rs => Z.min (available rs) (rs_replicas rs)) <$> owned)); [|lia].
  apply zsum_map_le. intros rs Hin. pose proof (Hle rs Hin). lia.
Qed.

(** ** Scaling *)

(** A storage that has the ReplicaSets of the pass. *)
Definition sees (w : World) : Prop :=
  NoDup (rs_name <$> w_rss w) /\ forall rs, rs ∈ owned -> rs_name rs ∈ rs_name <$> w_rss w.

Lemma sees_moved R T w w' : sees w -> moved R T (w_rss w) (w_rss w') -> sees w'.
Proof. intros [Hn Hs] Hm. unfold sees. by rewrite (moved_names _ _ _ _ Hm). Qed.

Lemma total_nonneg : 0 <= total.
Proof. apply zsum_nonneg, Forall_fmap, Forall_forall. apply (pf_replicas _ _ _ Hfit). Qed.

Lemma sum32_owned : sum32 (rs_replicas <$> owned) = Some total.
Proof.
  pose proof (pf_total _ _ _ Hfit). pose proof (pf_desired _ _ _ Hfit). pose proof (pf_surge _ _ _ Hfit).
  apply sum32_fits; [|unfold total; lia]. apply Forall_fmap, Forall_forall. apply (pf_replicas _ _ _ Hfit).
Qed.

Lemma apply_update_aims u rs : rs ∈ owned -> rs_name rs = u.1 -> aims kept (apply_update owned) fst snd u.
Proof.
  intros Hin Hn w Hnd Hinw. unfold apply_update. rewrite -Hn (find_rs_elem _ _ (pf_names _ _ _ Hfit) Hin).
  eapply runs_mono; [by apply update_replicas_runs; [|rewrite Hn]|]. intros w' r (? & Hm & ? & _). done.
Qed.

Lemma surge_fits : small (desired + max_surge).
Proof.
  pose proof (pf_total _ _ _ Hfit). pose proof (pf_desired _ _ _ Hfit). pose proof (pf_surge _ _ _ Hfit).
  pose proof total_nonneg. unfold small, total, desired, max_surge in *. lia.
Qed.

(** The updates of a scaling event. *)
Definition moves_to (updates : list (string * Z)) (s : string) (n : Z) : Prop := (s, n) ∈ updates.

Lemma updates_capped updates to_add : to_add = desired + max_surge - total -> NoDup (fst <$> updates) ->
  (forall name n, (name, n) ∈ updates -> exists rs, rs ∈ owned /\ rs_name rs = name /\ 0 <= n /\
     if decide (0 < to_add) then rs_replicas rs <= n else n <= rs_replicas rs) ->
  (updates <> [] -> if decide (0 < to_add) then zsum (updated (update_map updates) <$> owned) = desired + max_surge
                    else desired + max_surge <= zsum (updated (update_map updates) <$> owned) <= total) ->
  capped (moves_to updates) (fun _ => False).
Proof.
  intros Hadd Hnd Hu Hs. destruct (decide (updates = [])) as [->|Hne].
  { destruct (capped_none (fun _ => False) 0) as (hi & nw & ? & ? & _ & Hr); [lia|done|lia|].
    exists hi, nw. split_and!; try done; [|apply Hr..]. intros s n Hin. by apply elem_of_nil in Hin. }
  pose proof (Hs Hne) as Hsum. pose proof (pf_names _ _ _ Hfit) as Hnames.
  assert (forall rs n, rs ∈ owned -> update_map updates !! rs_name rs = Some n ->
    if decide (0 < to_add) then rs_replicas rs <= n else n <= rs_replicas rs) as Hdir.
  { intros rs n Hin Hl. apply elem_of_list_to_map_2, Hu in Hl as (rs' & Hin' & He & _ & Hd).
    assert (rs' = rs) as -> by by apply (names_inj owned). done. }
  destruct (decide (0 < to_add)) as [Hp|Hp].
  - apply (capped_by _ _ (updated (update_map updates)) 0); [lia| | |done|lia].
    + intros rs Hin. unfold updated. destruct (update_map updates !! rs_name rs) as [n|] eqn:E; simpl; [|lia]. by apply Hdir.
    + intros s n Hin. destruct (Hu s n Hin) as (rs & Hrs & <- & _). exists rs. split_and!; [done..|].
      unfold updated. rewrite (update_map_in _ _ _ Hnd Hin) /=. lia.
  - apply (capped_by _ _ rs_replicas 0); [lia|done| |done|fold total; lia].
    intros s n Hin. destruct (Hu s n Hin) as (rs & Hrs & <- & _ & Hle). by exists rs.
Qed.

Lemma scale_proportionally_runs w : sees w ->
  runs (scale_proportionally owned desired max_surge) w (fun w' r => frame w w' /\ exists updates,
    moved (keeps (fun k => k = REVISION)) (moves_to updates) (w_rss w) (w_rss w') /\
    capped (moves_to updates) (fun _ => False) /\ (forall s n, (s, n) ∈ updates -> 0 <= n) /\ (r = Ok false -> updates = [])).
Proof.
  intros Hsees. pose proof Hsees as [Hn Hin]. unfold scale_proportionally. pose proof surge_fits as Hsf. pose proof total_nonneg.
  pose proof (pf_total _ _ _ Hfit) as Ht. fold total desired max_surge in Ht. pose proof (pf_desired _ _ _ Hfit) as Hd0. pose proof (pf_surge _ _ _ Hfit) as Hs0. fold desired in Hd0. fold max_surge in Hs0.
  assert (I32_MIN <= desired + max_surge - total <= I32_MAX) as Hadd by (unfold small, I32_MIN, I32_MAX in *; lia).
  apply runs_bind, (runs_num _ _ _ _ sum32_owned). apply runs_bind. eapply runs_num.
  { apply checked32_fits. unfold small, I32_MIN, I32_MAX in *. lia. }
  apply runs_bind. eapply runs_num; [by apply checked32_fits|].
  assert (moved (keeps (fun k => k = REVISION)) (moves_to []) (w_rss w) (w_rss w)) as Hnone by apply moved_refl, _.
  assert (capped (moves_to []) (fun _ => False)) as Hcap0.
  { apply (updates_capped [] (desired + max_surge - total)); [done|constructor|intros ? ? Hx; by apply elem_of_nil in Hx|done]. }
  case_decide as Hz.
  { apply runs_ret. split; [done|]. exists []. split_and!; [done..| |done]. intros ? ? Hx. by apply elem_of_nil in Hx. }
  destruct (proportional_updates_spec owned (desired + max_surge) (desired + max_surge - total) (pf_names _ _ _ Hfit)
    (pf_replicas _ _ _ Hfit) Hsf) as (updates & Hup & Hnd & Hu & Hs); [fold total; lia|done|done|].
  fold total in Hup. apply runs_bind. eapply runs_num; [exact Hup|].
  pose proof (updates_capped updates (desired + max_surge - total) eq_refl Hnd Hu Hs) as Hcap.
  assert (forall s n, (s, n) ∈ updates -> 0 <= n) as Hpos by (intros s n Hx; by destruct (Hu s n Hx) as (? & _ & _ & ? & _)).
  apply runs_bind. eapply runs_mono.
  { apply (for_each_runs kept (apply_update owned) fst snd updates w kept_preorder Hn). intros [s n] Hx.
    destruct (Hu s n Hx) as (rs & Hrs & Hname & _). split; [by apply (apply_update_aims _ rs)|]. simpl. rewrite -Hname. by apply Hin. }
  intros w1 r (Hf & Hm & _).
  assert (moved (keeps (fun k => k = REVISION)) (moves_to updates) (w_rss w) (w_rss w1)) as Hm1.
  { eapply moved_mono; [| |exact Hm]; [intros x y Hk k _; by apply Hk|]. by intros s n ([s' n'] & Hx & <- & <-). }
  destruct r as [[]|e]; [|split; [done|]; exists updates; split_and!; done].
  apply runs_bind. eapply runs_mono; [apply set_desired_all_runs; [done|by destruct (sees_moved _ _ _ _ Hsees Hm1)]|].
  intros w2 r (-> & Hf2 & Hm2). apply runs_ret. split; [by eapply frame_trans|]. exists updates. split_and!; [|done..|].
  - eapply moved_trans; [apply _|exact Hm1|]. eapply moved_aim; [|exact Hm2]. by intros ? ? [].
  - intros [= He]. by apply negb_false_iff, bool_decide_eq_true in He.
Qed.

(** ** The old ReplicaSets *)

Lemma targets_map {A} (name : A -> string) t (l : list A) (P : string -> Z -> Prop) :
  (forall x, x ∈ l -> P (name x) (t x)) -> forall s n, targets name t l s n -> P s n.
Proof. intros HP s n (x & Hx & <- & <-). by apply HP. Qed.

Lemma olds_in name rs : rs ∈ olds name owned -> rs ∈ owned /\ rs_name rs <> name.
Proof. intros [? ?]%list_elem_of_filter. done. Qed.

Lemma scale_to_aims k rs : k = 0 -> 0 <= rs_replicas rs -> aims kept (scale_to k) rs_name (fun _ => 0) rs.
Proof.
  intros -> Hk w Hn Hin. unfold scale_to. case_decide.
  - eapply runs_mono; [by apply update_replicas_runs|]. intros w' r (? & ? & ? & _). done.
  - apply runs_ret. split; [done|]. split; [apply moved_refl, _|done].
Qed.

Lemma drain_others_runs name w : sees w ->
  runs (drain_others name owned) w (fun w' r => frame w w' /\
    moved kept (targets rs_name (fun _ => 0) (olds name owned)) (w_rss w) (w_rss w') /\ (w_answers w = [] -> r = Ok tt)).
Proof.
  intros [Hn Hin]. apply for_each_runs; [apply _|done|]. intros rs [Hrs _]%olds_in.
  split; [apply scale_to_aims; [done|by apply (pf_replicas _ _ _ Hfit)]|by apply Hin].
Qed.

Lemma counts_fit_of name new : 0 <= new -> new + zsum (rs_replicas <$> olds name owned) <= I32_MAX ->
  counts_fit available owned name new desired max_unavailable.
Proof.
  intros Hn Hs. pose proof total_nonneg. pose proof surge_fits. pose proof (pf_desired _ _ _ Hfit). pose proof (pf_surge _ _ _ Hfit).
  split; try apply Hfit; try done. unfold small, max_surge, desired in *. lia.
Qed.

Lemma reconcile_old_runs name new w : sees w -> w_pods w = pods ->
  0 <= new -> new + zsum (rs_replicas <$> olds name owned) <= I32_MAX ->
  exists o, old_targets available owned name new desired max_unavailable = Some o /\
    runs (reconcile_old_replicasets now owned name new desired max_unavailable) w (fun w' r => frame w w' /\
      moved kept (targets rs_name (old_target o) (olds name owned)) (w_rss w) (w_rss w') /\ (w_answers w = [] -> r = Ok tt)).
Proof.
  intros [Hn Hin] Hp Hnew Hs. destruct (old_targets_spec _ _ _ _ _ _ (counts_fit_of name new Hnew Hs)) as (o & Ho & _).
  exists o. split; [done|]. unfold reconcile_old_replicasets. apply runs_bind, runs_reads. rewrite Hp.
  apply runs_bind. eapply runs_num; [exact Ho|]. destruct o as [cur|].
  - apply for_each_runs; [apply _|done|]. intros rs [Hrs _]%olds_in. split; [|by apply Hin].
    intros w1 Hn1 Hin1. simpl. case_decide as He.
    + apply runs_ret. split; [done|]. split; [apply moved_refl, _|done].
    + eapply runs_mono; [by apply update_replicas_runs|]. intros w' r (? & ? & ? & _). done.
  - apply runs_ret. split; [done|]. split; [apply moved_refl, _|done].
Qed.

(** A sum over the active ReplicaSet and the others. *)
Lemma zsum_active (f : ReplicaSet -> Z) active : active ∈ owned ->
  zsum (f <$> owned) = f active + zsum (f <$> olds (rs_name active) owned).
Proof.
  intros Hin. rewrite (available_split f owned (rs_name active) (pf_names _ _ _ Hfit)).
  by rewrite (find_rs_elem _ _ (pf_names _ _ _ Hfit) Hin).
Qed.

Lemma zsum_olds_ext (f g : ReplicaSet -> Z) name : (forall rs, rs ∈ olds name owned -> f rs = g rs) ->
  zsum (f <$> olds name owned) = zsum (g <$> olds name owned).
Proof. intros H1. f_equal. apply list_fmap_ext. intros i x Hx. apply H1. by eapply list_elem_of_lookup_2. Qed.

(** The plan that gives the active ReplicaSet [a] and the others [f]. *)
Definition split_plan (name : string) (a : Z) (f : ReplicaSet -> Z) (rs : ReplicaSet) : Z :=
  if decide (rs_name rs = name) then a else f rs.

Lemma split_plan_sum (g : ReplicaSet -> Z -> Z) active a f : active ∈ owned ->
  zsum ((fun rs => g rs (split_plan (rs_name active) a f rs)) <$> owned) =
  g active a + zsum ((fun rs => g rs (f rs)) <$> olds (rs_name active) owned).
Proof.
  intros Hin. rewrite (zsum_active _ active Hin). unfold split_plan at 1. rewrite decide_True //. f_equal.
  apply zsum_olds_ext. intros rs [_ Hne]%olds_in. unfold split_plan. by rewrite decide_False.
Qed.

Lemma split_plan_capped T active a : active ∈ owned -> rs_replicas active <= a ->
  plans T (fun rs n => n <= split_plan (rs_name active) a rs_replicas rs) ->
  a + zsum (rs_replicas <$> olds (rs_name active) owned) <= Z.max total (desired + max_surge) ->
  capped T (fun _ => False).
Proof.
  intros Hin Ha Hp Hs. apply (capped_by _ _ (split_plan (rs_name active) a rs_replicas) 0); [lia| |done|done|].
  - intros rs Hrs. unfold split_plan. case_decide as He; [|lia].
    assert (rs = active) as -> by (by apply (names_inj owned); [apply Hfit|..]). done.
  - rewrite (split_plan_sum (fun _ z => z) active a rs_replicas Hin). rewrite Z.add_0_r. exact Hs.
Qed.

Lemma split_plan_floored T active a f : active ∈ owned -> a <= rs_replicas active ->
  (forall rs, rs ∈ olds (rs_name active) owned -> f rs <= rs_replicas rs) ->
  plans T (fun rs n => split_plan (rs_name active) a f rs <= n) ->
  Z.min (zsum (available <$> owned)) (desired - max_unavailable) <=
    Z.min (available active) a + zsum ((fun rs => Z.min (available rs) (f rs)) <$> olds (rs_name active) owned) ->
  floored T.
Proof.
  intros Hin Ha Hf Hp Hs. apply (floored_by _ (split_plan (rs_name active) a f)); [|done|].
  - intros rs Hrs. unfold split_plan. case_decide as He.
    + assert (rs = active) as -> by (by apply (names_inj owned); [apply Hfit|..]). done.
    + apply Hf, list_elem_of_filter. done.
  - by rewrite (split_plan_sum (fun rs z => Z.min (available rs) z) active a f Hin).
Qed.

(** ** The rollout with an active ReplicaSet *)

(** The status of the active ReplicaSet claims no pod that is not available. *)
Definition status_current (active : ReplicaSet) : Prop := active_available pods active <= available active.

Definition all_counted : Prop := forall rs, rs ∈ owned -> available rs <= rs_replicas rs.

Lemma only_active_planned active : active ∈ owned ->
  zsum (rs_replicas <$> olds (rs_name active) owned) = 0 ->
  let T := one_move (rs_name active) desired in
  capped T (fun _ => False) /\ (all_counted -> floored T).
Proof.
  intros Hin Hz T. pose proof (zsum_active rs_replicas active Hin) as Ht. fold total in Ht.
  pose proof (pf_surge _ _ _ Hfit) as Hs. pose proof (pf_unavailable _ _ _ Hfit) as Hu. fold max_surge in Hs. fold max_unavailable in Hu.
  assert (forall (P : ReplicaSet -> Z -> Prop), P active desired -> plans T P) as Hplan
    by (intros P HP s n [-> ->]; by exists active).
  split.
  - apply (split_plan_capped _ active (Z.max (rs_replicas active) desired) Hin); [lia| |unfold small in Hu; lia].
    apply Hplan. unfold split_plan. rewrite decide_True //. lia.
  - intros Hcount. apply (split_plan_floored _ active (Z.min (rs_replicas active) desired) (fun rs => rs_replicas rs) Hin); [lia|done| |].
    + apply Hplan. unfold split_plan. rewrite decide_True //. lia.
    + rewrite (zsum_active available active Hin). pose proof (Hcount active Hin).
      assert (zsum (available <$> olds (rs_name active) owned) <=
              zsum ((fun rs => Z.min (available rs) (rs_replicas rs)) <$> olds (rs_name active) owned)) as Hle.
      { apply zsum_map_le. intros rs [Hrs _]%olds_in. pose proof (Hcount rs Hrs). lia. }
      assert (0 <= zsum (available <$> olds (rs_name active) owned)).
      { apply zsum_nonneg, Forall_fmap, Forall_forall. intros rs [Hrs _]%olds_in. by apply (pf_available _ _ _ Hfit). }
      unfold small in Hu. lia.
Qed.

(** What a pass with an active ReplicaSet may write: the active one to [new],
    the others to their targets, or to zero when the active one is [saturated]. *)
Definition rolls (name : string) (new : Z) (o : option (gmap string Z)) (saturated : bool) (s : string) (n : Z) : Prop :=
  (s = name /\ n = new) \/
  exists rs, rs ∈ olds name owned /\ rs_name rs = s /\ (n = old_target o rs \/ saturated = true /\ n = 0).

Lemma rolls_plans name new o sat active (P : ReplicaSet -> Z -> Prop) : active ∈ owned -> rs_name active = name ->
  P active new -> (forall rs, rs ∈ olds name owned -> P rs (old_target o rs) /\ (sat = true -> P rs 0)) ->
  plans (rolls name new o sat) P.
Proof.
  intros Hin Hn Ha Ho s n [[-> ->]|(rs & Hrs & <- & Hk)]; [by exists active|].
  destruct (Ho rs Hrs) as [H1 H2]. exists rs. split; [by apply (olds_in name)|]. split; [done|].
  destruct Hk as [->|[-> ->]]; auto.
Qed.

Lemma rolls_planned active new o sat :
  active ∈ owned -> 0 <= new ->
  new + zsum (rs_replicas <$> olds (rs_name active) owned) <= Z.max total (desired + max_surge) ->
  (new = desired \/ rs_replicas active <= new) ->
  (sat = true -> active_available pods active = desired /\ new = desired) ->
  old_targets available owned (rs_name active) new desired max_unavailable = Some o ->
  let T := rolls (rs_name active) new o sat in
  (forall s n, T s n -> 0 <= n) /\ capped T (fun _ => False) /\ (all_counted -> status_current active -> floored T).
Proof.
  intros Hin Hnew Hcap Hdir Hsat Ho T. pose proof (zsum_active rs_replicas active Hin) as Ht. fold total in Ht.
  pose proof (pf_unavailable _ _ _ Hfit) as Hu. fold max_unavailable in Hu.
  pose proof (pf_total _ _ _ Hfit) as Htt. fold total desired max_surge in Htt.
  pose proof (pf_surge _ _ _ Hfit) as Hs. fold max_surge in Hs. pose proof (pf_desired _ _ _ Hfit) as Hd0. fold desired in Hd0. pose proof total_nonneg as Ht0.
  destruct (old_targets_spec _ _ _ _ _ _ (counts_fit_of (rs_name active) new Hnew ltac:(lia))) as (o' & Ho' & Htgt & Hav & _).
  rewrite Ho in Ho'. injection Ho' as <-.
  assert (forall rs, rs ∈ olds (rs_name active) owned -> 0 <= rs_replicas rs) as Hpos
    by (intros rs [Hrs _]%olds_in; by apply (pf_replicas _ _ _ Hfit)).
  split; [|split].
  - intros s n [[-> ->]|(rs & Hrs & <- & [->|[_ ->]])]; [done|by destruct (Htgt rs Hrs)|done].
  - apply (split_plan_capped _ active (Z.max (rs_replicas active) new) Hin); [lia| |lia].
    apply (rolls_plans _ _ _ _ active); [done..| |]; unfold split_plan.
    + rewrite decide_True //. lia.
    + intros rs Hrs. destruct (olds_in _ _ Hrs) as [_ Hne]. rewrite decide_False //. destruct (Htgt rs Hrs). pose proof (Hpos rs Hrs). done.
  - intros Hcount Hcur. unfold status_current in Hcur.
    set (f := fun rs => if sat then 0 else old_target o rs).
    apply (split_plan_floored _ active (Z.min (rs_replicas active) new) f Hin); [lia| | |].
    + intros rs Hrs. destruct (Htgt rs Hrs). unfold f. destruct sat; [by apply Hpos|done].
    + apply (rolls_plans _ _ _ _ active); [done..| |]; unfold split_plan.
      * rewrite decide_True //. lia.
      * intros rs Hrs. destruct (olds_in _ _ Hrs) as [_ Hne]. rewrite decide_False //. destruct (Htgt rs Hrs). unfold f.
        destruct sat; split; intros; done || lia.
    + pose proof (Hcount active Hin) as Hca.
      assert (0 <= zsum ((fun rs => Z.min (available rs) (f rs)) <$> olds (rs_name active) owned)) as Hge.
      { apply zsum_nonneg, Forall_fmap, Forall_forall. intros rs Hrs. simpl. destruct (Htgt rs Hrs), (olds_in _ _ Hrs) as [Hrs' _].
        pose proof (pf_available _ _ _ Hfit rs Hrs'). unfold f. destruct sat; lia. }
      destruct sat.
      * destruct (Hsat eq_refl) as [Ha ->]. unfold small in Hu. lia.
      * assert (forall rs, rs ∈ olds (rs_name active) owned -> available rs <= rs_replicas rs) as Hle
          by (intros rs [Hrs _]%olds_in; by apply Hcount).
        specialize (Hav Hle). rewrite (find_rs_elem _ _ (pf_names _ _ _ Hfit) Hin) in Hav.
        rewrite (zsum_active available active Hin).
        destruct (decide (available active <= desired)); [|unfold small in Hu; lia]. unfold f. lia.
Qed.

Lemma turn_runs w active new P `{!Decision P} : sees w -> w_pods w = pods -> active ∈ owned ->
  0 <= new -> new + zsum (rs_replicas <$> olds (rs_name active) owned) <= I32_MAX ->
  exists o, old_targets available owned (rs_name active) new desired max_unavailable = Some o /\
    runs ((if decide P then ret tt else update_replicaset_replicas active new) ;;
          reconcile_old_replicasets now owned (rs_name active) new desired max_unavailable)%controller w
      (fun w' r => frame w w' /\ moved kept (rolls (rs_name active) new o false) (w_rss w) (w_rss w')).
Proof.
  intros Hs Hp Hin Hn Hfits.
  destruct (reconcile_old_runs (rs_name active) new w Hs Hp Hn Hfits) as (o & Ho & _). exists o. split; [done|].
  apply runs_bind. eapply (runs_mono _ _ (fun w' r => frame w w' /\ moved kept (one_move (rs_name active) new) (w_rss w) (w_rss w'))).
  { case_decide; [apply runs_ret; split; [done|apply moved_refl, _]|]. destruct Hs as [Hnd Hall].
    eapply runs_mono; [apply update_replicas_runs; [done|by apply Hall]|]. intros w' r (? & ? & _). done. }
  intros w1 r (Hf & Hm).
  assert (moved kept (rolls (rs_name active) new o false) (w_rss w) (w_rss w1)) as Hm1.
  { eapply moved_aim; [|exact Hm]. intros s n [-> ->]. by left. }
  destruct r as [[]|e]; [|done].
  destruct (reconcile_old_runs (rs_name active) new w1) as (o' & Ho' & Hr); [by eapply sees_moved|by rewrite (fr_pods _ _ Hf)|done..|].
  rewrite Ho in Ho'. injection Ho' as <-. eapply runs_mono; [exact Hr|]. intros w2 r (Hf2 & Hm2 & _).
  split; [by eapply frame_trans|]. eapply moved_trans; [apply _|exact Hm1|]. eapply moved_aim; [|exact Hm2].
  intros s n (rs & Hrs & <- & <-). right. exists rs. split; [done|]. split; [done|]. by left.
Qed.

Lemma new_active_fits active : active ∈ owned -> rs_replicas active < desired ->
  exists new, new_active_replicas owned (rs_replicas active) desired max_surge = Some new /\
    rs_replicas active <= new /\ new + zsum (rs_replicas <$> olds (rs_name active) owned) <= Z.max total (desired + max_surge).
Proof.
  intros Hin Hlt. pose proof (zsum_active rs_replicas active Hin) as Ht. fold total in Ht. pose proof surge_fits as Hs.
  pose proof (pf_total _ _ _ Hfit) as Htt. fold total desired max_surge in Htt. pose proof (pf_replicas _ _ _ Hfit active Hin) as Hr.
  pose proof (pf_surge _ _ _ Hfit) as Hs0. fold max_surge in Hs0. pose proof total_nonneg as Ht0.
  unfold new_active_replicas. fits. rewrite sum32_owned. cbn [mbind option_bind]. fits. fits.
  eexists. split; [apply checked32_fits; unfold small, I32_MIN, I32_MAX in *; lia|]. lia.
Qed.

(** A run that moved the counts by a plan within the bounds of the pass. *)
Definition planned active w w' : Prop :=
  frame w w' /\ exists T, moved kept T (w_rss w) (w_rss w') /\ (forall s n, T s n -> 0 <= n) /\
    capped T (fun _ => False) /\ (all_counted -> status_current active -> floored T).

(** What the pass drains before its turn: the others, once [active] is saturated. *)
Definition drains active (scaling : bool) : bool :=
  bool_decide (rs_replicas active = desired) && bool_decide (active_available pods active = desired) &&
  bool_decide (0 < zsum (rs_replicas <$> olds (rs_name active) owned)) && negb scaling.

Lemma drains_true active scaling : drains active scaling = true ->
  rs_replicas active = desired /\ active_available pods active = desired.
Proof. unfold drains. rewrite !andb_true_iff !bool_decide_eq_true. tauto. Qed.

Lemma olds_nonneg name : 0 <= zsum (rs_replicas <$> olds name owned).
Proof. apply zsum_nonneg, Forall_fmap, Forall_forall. intros rs [Hrs _]%olds_in. by apply (pf_replicas _ _ _ Hfit). Qed.

Lemma drain_step_runs w active scaling : sees w ->
  runs (if drains active scaling then drain_others (rs_name active) owned else ret tt) w (fun w' r => frame w w' /\
    (forall new o, moved kept (rolls (rs_name active) new o (drains active scaling)) (w_rss w) (w_rss w')) /\
    (drains active scaling = false -> r = Ok tt)).
Proof.
  intros Hs. destruct (drains active scaling).
  - eapply runs_mono; [by apply drain_others_runs|]. intros w' r (Hf & Hm & _). split; [done|]. split; [|done].
    intros new o. eapply moved_aim; [|exact Hm]. apply targets_map. intros rs Hrs.
    right. exists rs. split; [done|]. split; [done|]. by right.
  - apply runs_ret. split; [done|]. split; [|done]. intros new o. apply moved_refl, _.
Qed.

(** After the drain, a turn that takes [active] to [new] stays within the bounds. *)
Lemma drained_turn active new o scaling w w1 w' : active ∈ owned -> 0 <= new ->
  new + zsum (rs_replicas <$> olds (rs_name active) owned) <= Z.max total (desired + max_surge) ->
  (new = desired \/ rs_replicas active <= new) -> (drains active scaling = true -> new = desired) ->
  old_targets available owned (rs_name active) new desired max_unavailable = Some o ->
  frame w w1 -> moved kept (rolls (rs_name active) new o (drains active scaling)) (w_rss w) (w_rss w1) ->
  frame w1 w' /\ moved kept (rolls (rs_name active) new o false) (w_rss w1) (w_rss w') -> planned active w w'.
Proof.
  intros Hin Hn Hc Hdir Hd Ho Hf1 Hm1 [Hf Hm]. split; [by eapply frame_trans|].
  exists (rolls (rs_name active) new o (drains active scaling)). split.
  - eapply moved_trans; [apply _|exact Hm1|]. eapply moved_aim; [|exact Hm].
    intros s n [?|(rs & ? & ? & [?|[? _]])]; [by left| |done]. right. exists rs. split; [done|]. split; [done|]. by left.
  - apply rolls_planned; [done..| |done]. intros Hdr. by split; [apply (drains_true _ _ Hdr)|apply Hd].
Qed.

(** The count the active ReplicaSet goes to in its turn. *)
Definition turn_count active : option Z :=
  if bool_decide (rs_replicas active < desired) && bool_decide (0 < zsum (rs_replicas <$> olds (rs_name active) owned))
  then new_active_replicas owned (rs_replicas active) desired max_surge else Some desired.

Lemma turn_count_fits active scaling : active ∈ owned ->
  ~ (zsum (rs_replicas <$> olds (rs_name active) owned) = 0 /\ rs_replicas active <> desired) ->
  exists new, turn_count active = Some new /\ 0 <= new /\
    new + zsum (rs_replicas <$> olds (rs_name active) owned) <= Z.max total (desired + max_surge) /\
    (new = desired \/ rs_replicas active <= new) /\ (drains active scaling = true -> new = desired).
Proof.
  intros Hin Hnz. pose proof (zsum_active rs_replicas active Hin) as Ht. fold total in Ht.
  pose proof (pf_replicas _ _ _ Hfit active Hin). pose proof (olds_nonneg (rs_name active)).
  pose proof (pf_surge _ _ _ Hfit) as Hs0. fold max_surge in Hs0. pose proof (pf_desired _ _ _ Hfit) as Hd0. fold desired in Hd0.
  unfold turn_count. destruct (_ && _) eqn:Hgrow.
  - rewrite andb_true_iff !bool_decide_eq_true in Hgrow. destruct Hgrow as [Hlt _].
    destruct (new_active_fits active Hin Hlt) as (new & Hnew & Hge & Hcap). exists new. split; [done|].
    split; [lia|]. split; [done|]. split; [by right|]. intros [? _]%drains_true. lia.
  - rewrite andb_false_iff !bool_decide_eq_false in Hgrow. exists desired. split; [done|].
    split; [lia|]. split; [|by split; [left|]].
    destruct (decide (zsum (rs_replicas <$> olds (rs_name active) owned) = 0)); [|destruct Hgrow]; lia.
Qed.

Lemma bind_ext {A B} (m : M A) (f g : A -> M B) w : (forall a w', f a w' = g a w') -> bind m f w = bind m g w.
Proof. intros Hfg. unfold bind. destruct (m w) as [[w' [a|e]]|]; [apply Hfg|done..]. Qed.

(** [roll_with_active] of a rolling update when something else has pods or the
    count is right: the drain, then one turn. *)
Lemma roll_shape w active scaling new : w_pods w = pods ->
  ~ (zsum (rs_replicas <$> olds (rs_name active) owned) = 0 /\ rs_replicas active <> desired) ->
  turn_count active = Some new ->
  roll_with_active now d owned active (zsum (rs_replicas <$> olds (rs_name active) owned)) scaling max_surge max_unavailable w =
  ((if drains active scaling then drain_others (rs_name active) owned else ret tt) ;;
   ((if decide (new = rs_replicas active) then ret tt else update_replicaset_replicas active new) ;;
    reconcile_old_replicasets now owned (rs_name active) new desired max_unavailable) ;;
   ret false)%controller w.
Proof.
  intros Hp Hnz Hnew. unfold roll_with_active. fold desired. rewrite decide_False //.
  unfold bind at 1. unfold reads at 1. rewrite Hp. fold (drains active scaling).
  apply bind_ext. intros _ w1. rewrite Hrolling. cbn [andb]. unfold turn_count in Hnew.
  destruct (_ && _).
  - unfold bind at 1 2. rewrite Hnew. done.
  - injection Hnew as <-. unfold bind. destruct (decide (rs_replicas active = desired)), (decide (desired = rs_replicas active)); done.
Qed.

Lemma roll_straight_runs w active scaling : sees w -> active ∈ owned -> rs_replicas active <> desired ->
  zsum (rs_replicas <$> olds (rs_name active) owned) = 0 ->
  runs (roll_with_active now d owned active 0 scaling max_surge max_unavailable) w (fun w' r => planned active w w').
Proof.
  intros [Hnd Hall] Hin Hne Hz. pose proof (pf_desired _ _ _ Hfit) as Hd0. fold desired in Hd0.
  unfold roll_with_active. fold desired. rewrite decide_True //. apply runs_bind.
  eapply runs_mono; [apply update_replicas_runs; [done|by apply Hall]|]. intros w1 r (Hf & Hm & _).
  destruct (only_active_planned active Hin Hz) as [Hc Hfl].
  destruct r; [apply runs_ret|]; (split; [done|]; eexists; split; [exact Hm|]; split; [by intros s n [_ ->]|]; split; [done|]; intros Ha _; by apply Hfl).
Qed.

Lemma roll_with_active_runs w active scaling : sees w -> w_pods w = pods -> active ∈ owned ->
  runs (roll_with_active now d owned active (zsum (rs_replicas <$> olds (rs_name active) owned)) scaling max_surge max_unavailable) w
    (fun w' r => planned active w w').
Proof.
  intros Hs Hp Hin.
  destruct (decide (zsum (rs_replicas <$> olds (rs_name active) owned) = 0 /\ rs_replicas active <> desired)) as [[Hz Hne]|Hnz].
  { rewrite Hz. by apply roll_straight_runs. }
  destruct (turn_count_fits active scaling Hin Hnz) as (new & Hnew & Hn & Hc & Hdir & Hd).
  pose proof (pf_total _ _ _ Hfit) as Htt. fold total desired max_surge in Htt. pose proof total_nonneg.
  pose proof (pf_surge _ _ _ Hfit) as Hs0. fold max_surge in Hs0. pose proof (pf_desired _ _ _ Hfit) as Hd0. fold desired in Hd0.
  unfold runs. rewrite (roll_shape w active scaling new) //. apply runs_bind.
  eapply runs_mono; [by apply drain_step_runs|]. intros w1 r (Hf1 & Hm1 & Hok).
  destruct (turn_runs w1 active new (new = rs_replicas active)) as (o & Ho & Hrun);
    [by eapply sees_moved, (Hm1 new None)|by rewrite (fr_pods _ _ Hf1)|done|done|lia|].
  assert (forall w', frame w1 w' /\ moved kept (rolls (rs_name active) new o false) (w_rss w1) (w_rss w') -> planned active w w') as Hdone
    by (intros w'; by eapply drained_turn).
  destruct r as [[]|e]; [|apply Hdone; split; [done|apply moved_refl, _]].
  apply runs_bind. eapply runs_mono; [exact Hrun|]. intros w2 r Hw2.
  destruct r; [apply runs_ret|]; by apply Hdone.
Qed.
End Rollout.
