(* ===== verification/DeploymentSafety.v ===== *)
(** * A pass of the deployment controller: what it keeps

    The counts of the ReplicaSets after a whole pass: with a rolling update they
    add up to no more than the surge allows, and the pods that stay reach the
    minimum of available pods. *)

From stdpp Require Import strings pretty.
From S2P Require Import Prelude RustText BTree Json Authz ServiceTypes Quantity QuantityText LabelSelector F64 DeploymentTypes DeploymentController DeploymentRuns RolloutArith RolloutPass.

Local Open Scope Z_scope.

(** ** The ReplicaSets of a pass *)

(** The largest count that the status of a ReplicaSet claims. *)
Definition claims (rs : ReplicaSet) : Z :=
  match rs_status rs with
  | Some st => Z.max 0 (Z.max (rst_replicas st) (Z.max (rst_ready_replicas st) (rst_available_replicas st)))
  | None => 0
  end.

(** From [l] to [l']: counts moved as [T] allows, at most one ReplicaSet of [C]
    replicas is new, and only empty ones are gone. *)
Definition evolved (T : string -> Z -> Prop) (C : Z -> Prop) (l l' : list ReplicaSet) : Prop :=
  exists l1 news gone, moved (fun _ _ => True) T l l1 /\ (length news <= 1)%nat /\
    (forall rs, rs ∈ news -> ~ (rs_name rs ∈ rs_name <$> l) /\ rs_status rs = None /\ C (rs_replicas rs)) /\
    Permutation (news ++ l1) (gone ++ l') /\ (forall rs, rs ∈ gone -> rs_replicas rs = 0).

Lemma evolved_moved R T C l l' : moved R T l l' -> evolved T C l l'.
Proof.
  intros Hm. exists l', [], []. split_and!; [by eapply moved_mono; [done|done|exact Hm]|simpl; lia| |done|];
    intros rs Hrs; by apply elem_of_nil in Hrs.
Qed.

Lemma evolved_mono (T T' : string -> Z -> Prop) (C C' : Z -> Prop) l l' :
  (forall s n, T s n -> T' s n) -> (forall n, C n -> C' n) -> evolved T C l l' -> evolved T' C' l l'.
Proof.
  intros HT HC (l1 & news & gone & Hm & Hlen & Hnew & Hp & Hg). exists l1, news, gone. split_and!; try done.
  - eapply moved_aim; [exact HT|done].
  - intros rs Hrs. destruct (Hnew rs Hrs) as (? & ? & ?). eauto.
Qed.

(** No name comes twice, the ReplicaSets that are gone included. *)
Lemma evolved_nodup T l l1 (C : Z -> Prop) news gone l' :
  NoDup (rs_name <$> l) -> moved (fun _ _ => True) T l l1 -> (length news <= 1)%nat ->
  (forall rs, rs ∈ news -> ~ (rs_name rs ∈ rs_name <$> l) /\ rs_status rs = None /\ C (rs_replicas rs)) -> Permutation (news ++ l1) (gone ++ l') ->
  NoDup (rs_name <$> (gone ++ l')).
Proof.
  intros Hn Hm Hlen Hnew Hp. rewrite -Hp fmap_app (moved_names _ _ _ _ Hm). apply NoDup_app.
  destruct news as [|x [|y news]]; simpl in Hlen; [..|lia].
  - split; [constructor|]. split; [|done]. intros s Hs. by apply elem_of_nil in Hs.
  - split; [apply NoDup_singleton|]. split; [|done]. intros s ->%list_elem_of_singleton. apply (Hnew x). left.
Qed.

Lemma evolved_names T C l l' : NoDup (rs_name <$> l) -> evolved T C l l' -> NoDup (rs_name <$> l').
Proof.
  intros Hn (l1 & news & gone & Hm & Hlen & Hnew & Hp & _).
  pose proof (evolved_nodup _ _ _ _ _ _ _ Hn Hm Hlen Hnew Hp) as Hall.
  rewrite fmap_app in Hall. by apply NoDup_app in Hall as (_ & _ & ?).
Qed.

Lemma evolved_drop T C l l' gone l2 : evolved T C l l' -> Permutation l' (gone ++ l2) -> (forall rs, rs ∈ gone -> rs_replicas rs = 0) ->
  evolved T C l l2.
Proof.
  intros (l1 & news & gone' & Hm & Hlen & Hnew & Hp & Hg) Hp' Hg'. exists l1, news, (gone' ++ gone)%list. split_and!; try done.
  - by rewrite Hp Hp' app_assoc.
  - intros rs [?|?]%elem_of_app; auto.
Qed.

Lemma moved_claims R T l l' : moved R T l l' -> claims <$> l' = claims <$> l.
Proof. induction 1 as [|r r' l l' [(a & n & ->) _] _ IH]; [done|]. by rewrite !fmap_cons IH. Qed.

Lemma claims_nonneg rs : 0 <= claims rs.
Proof. unfold claims. destruct (rs_status rs); lia. Qed.

Lemma evolved_length T C l l' : evolved T C l l' -> (length l' <= S (length l))%nat.
Proof.
  intros (l1 & news & gone & Hm & Hlen & _ & Hp & _). pose proof (Forall2_length _ _ _ Hm).
  apply Permutation_length in Hp. rewrite !length_app in Hp. lia.
Qed.

Lemma evolved_claims T C l l' : evolved T C l l' -> zsum (claims <$> l') <= zsum (claims <$> l).
Proof.
  intros (l1 & news & gone & Hm & Hlen & Hnew & Hp & _).
  pose proof (zsum_perm _ _ (fmap_Permutation claims _ _ Hp)) as Hs. rewrite !fmap_app !zsum_app (moved_claims _ _ _ _ Hm) in Hs.
  assert (zsum (claims <$> news) = 0) as Hz.
  { apply zsum_all_zero. intros rs Hrs. destruct (Hnew rs Hrs) as (_ & Hn & _). unfold claims. by rewrite Hn. }
  assert (0 <= zsum (claims <$> gone)); [|lia].
  apply zsum_nonneg, Forall_fmap, Forall_forall. intros rs _. apply claims_nonneg.
Qed.

(** [total_of]: the replicas of the deployment. *)
Definition total_of (d : Deployment) (l : list ReplicaSet) : Z := zsum (rs_replicas <$> owned_by d l).

(** The replicas under a name, 0 when it is gone. *)
Definition count_in (l : list ReplicaSet) (name : string) : Z :=
  match find_rs name l with Some rs => rs_replicas rs | None => 0 end.

Lemma owned_app d l k : owned_by d (l ++ k) = (owned_by d l ++ owned_by d k)%list.
Proof. apply filter_app. Qed.

Lemma owned_perm d l k : l ≡ₚ k -> owned_by d l ≡ₚ owned_by d k.
Proof. intros H. unfold owned_by. by rewrite H. Qed.

Lemma evolved_total d T C l l' (hi : string -> Z) new : 0 <= new -> evolved T C l l' ->
  (forall rs, rs ∈ owned_by d l -> rs_replicas rs <= hi (rs_name rs)) ->
  (forall s n, T s n -> n <= hi s) -> (forall n, C n -> n <= new) ->
  total_of d l' <= zsum ((fun rs => hi (rs_name rs)) <$> owned_by d l) + new.
Proof.
  intros Hn (l1 & news & gone & Hm & Hlen & Hnew & Hp & Hg) Hhi HT HC.
  pose proof (owned_perm d _ _ Hp) as Ho. rewrite !owned_app in Ho.
  pose proof (zsum_perm _ _ (fmap_Permutation rs_replicas _ _ Ho)) as Hs. rewrite !fmap_app !zsum_app in Hs.
  assert (zsum (rs_replicas <$> owned_by d gone) = 0) as Hz.
  { apply zsum_all_zero. intros rs [_ Hrs]%list_elem_of_filter. by apply Hg. }
  assert (zsum (rs_replicas <$> owned_by d news) <= new) as Hnw.
  { destruct news as [|x [|y news]]; simpl in Hlen; [done| |lia]. unfold owned_by. rewrite filter_cons filter_nil.
    case_decide; [|done]. simpl. destruct (Hnew x ltac:(left)) as (_ & _ & Hc). apply HC in Hc. lia. }
  assert (zsum (rs_replicas <$> owned_by d l1) <= zsum ((fun rs => hi (rs_name rs)) <$> owned_by d l)); [|unfold total_of; lia].
  apply (moved_owned _ _ d) in Hm. clear -Hm Hhi HT. induction Hm as [|r r' k k' (Hl & _ & Hr) _ IH]; [done|].
  rewrite !fmap_cons /=. assert (rs_replicas r' <= hi (rs_name r)).
  { destruct Hr as [->|Ht]; [apply Hhi; left|by apply HT]. }
  assert (zsum (rs_replicas <$> k') <= zsum ((fun rs => hi (rs_name rs)) <$> k)); [|lia].
  apply IH. intros rs Hrs. apply Hhi. by right.
Qed.

Lemma evolved_count T C l l' rs : NoDup (rs_name <$> l) -> evolved T C l l' -> rs ∈ l ->
  count_in l' (rs_name rs) = rs_replicas rs \/ T (rs_name rs) (count_in l' (rs_name rs)).
Proof.
  intros Hnd Hev Hin. pose proof (evolved_names _ _ _ _ Hnd Hev) as Hnd'.
  destruct Hev as (l1 & news & gone & Hm & Hlen & Hnew & Hp & Hg).
  assert (exists r1, r1 ∈ l1 /\ like rs r1 /\ (rs_replicas r1 = rs_replicas rs \/ T (rs_name rs) (rs_replicas r1)))
    as (r1 & Hr1 & Hl & Hc).
  { unfold moved in Hm. apply list_elem_of_lookup_1 in Hin as [i Hi]. eapply Forall2_lookup_l in Hm as (r1 & Hr1 & ? & _ & ?); [|exact Hi].
    exists r1. split; [by eapply list_elem_of_lookup_2|done]. }
  assert (count_in l' (rs_name rs) = rs_replicas r1) as ->; [|done].
  assert (r1 ∈ (gone ++ l')%list) as [Hgone|Hkept]%elem_of_app by (rewrite -Hp; apply elem_of_app; by right).
  - rewrite (Hg r1 Hgone). unfold count_in. destruct (find_rs (rs_name rs) l') as [r2|] eqn:E; [|done].
    apply find_rs_Some in E as [Hr2 He]. exfalso.
    pose proof (evolved_nodup _ _ _ _ _ _ _ Hnd Hm Hlen Hnew Hp) as Hall.
    rewrite fmap_app in Hall. apply NoDup_app in Hall as (_ & Hdis & _). apply (Hdis (rs_name r1)); [by apply list_elem_of_fmap_2|].
    rewrite (like_name _ _ Hl) -He. by apply list_elem_of_fmap_2.
  - unfold count_in. by rewrite -(like_name _ _ Hl) (find_rs_elem _ _ Hnd' Hkept).
Qed.

(** ** Creating a ReplicaSet *)

Section Pass.
Context `{!TemplateHash} (d : Deployment) (fresh : Fresh).

Lemma next_revision_fits b l : 0 < b < 2 ^ 63 -> revisions_below b l -> exists n, next_revision d l = Some n.
Proof.
  intros Hb Hr. unfold next_revision.
  pose proof (max_revision_range (fun rs => rs_owner_named (m_name (d_metadata d)) rs = true) b l ltac:(lia) Hr).
  rewrite checked64_fits; [lia|]. eauto.
Qed.

Lemma write_revision_runs tries revision : forall w,
  runs (write_revision tries revision) w (fun w' r => r = Ok tt /\ frame w w' /\ w_rss w' = w_rss w).
Proof.
  induction tries as [|tries IH]; intros w; simpl; [by apply runs_ret|].
  apply runs_bind, runs_reads. destruct (w_deployment w) as [dep|]; [|by apply runs_ret].
  apply runs_bind, runs_attempt. eapply runs_mono; [apply store_deployment_runs|]. intros w1 r (Hf & Hr). destruct r as [dep'|e].
  - eapply runs_mono; [apply remember_runs|]. intros w2 r (-> & Hf2 & Hr2). split; [done|]. split; [by eapply frame_trans|congruence].
  - eapply runs_mono; [apply IH|]. intros w2 r (-> & Hf2 & Hr2). split; [done|]. split; [by eapply frame_trans|congruence].
Qed.

Definition new_name : string := (m_name (d_metadata d) +:+ "-" +:+ compute_pod_template_hash d)%string.

(** What a create leaves: one ReplicaSet more, or nothing changed when the name
    is taken or the storage refuses. *)
Definition created (replicas : Z) (w w' : World) : Prop :=
  (exists revision max_replicas,
     let rs := new_replicaset fresh d revision (desired_of d) max_replicas replicas in
     ~ (new_name ∈ rs_name <$> w_rss w) /\ w_rss w' = insert_by_key rs_name rs (w_rss w)) \/
  (w_rss w' = w_rss w /\ (new_name ∈ rs_name <$> w_rss w \/ w_answers w <> [])).

Lemma create_runs replicas b w : 0 < b < 2 ^ 63 -> revisions_below b (w_rss w) ->
  small (desired_of d + (rolling_counts d).1) ->
  runs (create_replicaset_with_replicas fresh d replicas) w (fun w' _ => frame w w' /\ created replicas w w').
Proof.
  intros Hb Hr Hs. destruct (next_revision_fits b _ Hb Hr) as [n Hn]. unfold create_replicaset_with_replicas.
  apply runs_bind, runs_reads, runs_bind. eapply runs_num; [exact Hn|]. apply runs_bind.
  assert (surge_text d = (rolling_update_params d).1) as Htext
    by (unfold surge_text, rolling_update_params; by destruct (ds_strategy (d_spec d) ≫= st_rolling_update)).
  rewrite Htext. change (parse_int_or_percent (rolling_update_params d).1 (desired_of d)) with (rolling_counts d).1.
  eapply runs_num; [apply checked32_fits; unfold small, I32_MIN, I32_MAX in *; lia|].
  apply runs_bind. eapply runs_mono; [apply write_revision_runs|]. intros w1 r (-> & Hf1 & Hr1).
  unfold create_rs. apply runs_bind, runs_reads. rewrite Hr1. case_bool_decide as He.
  { apply runs_ret. split; [done|]. right. split; [done|]. left. by apply find_rs_is_Some. }
  apply runs_bind. eapply runs_mono; [apply ask_runs|]. intros w2 r (Hf2 & Hr2 & _ & ok & -> & Hok). simpl. destruct ok.
  - apply runs_modify. split; [eapply frame_trans; [exact Hf1|]; eapply frame_trans; [exact Hf2|apply frame_rss]|].
    left. eexists _, _. split; [|simpl; by rewrite Hr2 Hr1]. intros Hin. apply He. by apply find_rs_is_Some.
  - eexists _, _. split; [done|]. split; [by eapply frame_trans|]. right. split; [congruence|]. right. intros Ha.
    apply (fr_takes _ _ Hf1) in Ha. by specialize (Hok Ha).
Qed.

Lemma new_replicaset_replicas revision desired max_replicas replicas :
  rs_replicas (new_replicaset fresh d revision desired max_replicas replicas) = replicas.
Proof. done. Qed.

Lemma evolved_create T rs l l' l2 : rs_status rs = None -> moved (fun _ _ => True) T l l' -> rs_name rs ∉ rs_name <$> l' ->
  l2 = insert_by_key rs_name rs l' -> evolved T (fun n => n = rs_replicas rs) l l2.
Proof.
  intros Hst Hm Hn ->. exists l', [rs], []. split_and!; [done|simpl; lia| | |by intros ? ?%elem_of_nil].
  - intros x ->%list_elem_of_singleton. by rewrite -(moved_names _ _ _ _ Hm).
  - by rewrite insert_by_key_perm.
Qed.

(** ** The history *)

(** Some empty ReplicaSets of another template are gone. *)
Definition trimmed (l l' : list ReplicaSet) : Prop :=
  exists names : list string, l' = filter (fun rs => rs_name rs ∉ names) l /\
    forall rs, rs ∈ l -> rs_name rs ∈ names -> old_empty d rs.

Lemma trimmed_gone l l' : trimmed l l' -> exists gone, Permutation l (gone ++ l') /\ forall rs, rs ∈ gone -> rs_replicas rs = 0.
Proof.
  intros (names & -> & Hz). exists (filter (fun rs => ~ (rs_name rs ∉ names)) l). split.
  - rewrite Permutation_app_comm. symmetry. apply filter_app_complement.
  - intros rs [Hn Hin]%list_elem_of_filter. apply dec_stable in Hn. by destruct (Hz rs Hin Hn).
Qed.

Lemma delete_all_runs l : forall w,
  runs (for_each (fun rs => (attempt (delete_rs (rs_name rs)) ;; ret tt)%controller) l) w (fun w' r => r = Ok tt /\ frame w w' /\
    exists names : list string, w_rss w' = filter (fun rs => rs_name rs ∉ names) (w_rss w) /\ forall s, s ∈ names -> s ∈ rs_name <$> l).
Proof.
  assert (forall k : list ReplicaSet, k = filter (fun rs => rs_name rs ∉ []) k) as Hnil.
  { intros k. symmetry. apply filter_all. by intros x _ ?%elem_of_nil. }
  induction l as [|x l IH]; intros w; cbn [for_each].
  { apply runs_ret. split; [done|]. split; [done|]. exists []. split; [apply Hnil|]. by intros s ?%elem_of_nil. }
  apply runs_bind, runs_bind, runs_attempt. unfold delete_rs. apply runs_bind. eapply runs_mono; [apply ask_runs|].
  intros w1 r (Hf & Hr & _ & ok & -> & _). simpl.
  assert (forall w2, frame w1 w2 -> (exists names : list string, w_rss w2 = filter (fun rs => rs_name rs ∉ names) (w_rss w) /\
      forall s, s ∈ names -> s ∈ rs_name <$> (x :: l)) ->
    runs (for_each (fun rs => (attempt (delete_rs (rs_name rs)) ;; ret tt)%controller) l) w2 (fun w' r => r = Ok tt /\ frame w w' /\
      exists names : list string, w_rss w' = filter (fun rs => rs_name rs ∉ names) (w_rss w) /\ forall s, s ∈ names -> s ∈ rs_name <$> (x :: l))) as Hrest.
  { intros w2 Hf2 (names & Hw2 & Hsub). eapply runs_mono; [apply IH|]. intros w3 r (-> & Hf3 & names3 & Hw3 & Hsub3).
    split; [done|]. split; [by do 2 (eapply frame_trans; [eassumption|])|]. exists (names3 ++ names)%list. split.
    - rewrite Hw3 Hw2 list_filter_filter. apply list_filter_iff. intros rs. rewrite not_elem_of_app. done.
    - intros s [Hs|Hs]%elem_of_app; [|by apply Hsub]. rewrite fmap_cons. right. by apply Hsub3. }
  destruct ok.
  - apply runs_modify. apply runs_ret, Hrest; [apply frame_rss|]. exists [rs_name x]. simpl. rewrite Hr. split.
    + apply list_filter_iff. intros rs. rewrite list_elem_of_singleton. done.
    + intros s ->%list_elem_of_singleton. left.
  - eexists _, _. split; [done|]. apply runs_ret, Hrest; [done|]. exists []. rewrite Hr. split; [apply Hnil|]. by intros s ?%elem_of_nil.
Qed.

(** A history limit that leaves no difference to overflow. *)
Definition history_fits (l : list ReplicaSet) : Prop :=
  Z.of_nat (length l) <= I32_MAX /\ default 10 (ds_revision_history_limit (d_spec d)) <= I32_MAX.

Lemma clean_up_runs w : NoDup (rs_name <$> w_rss w) -> history_fits (w_rss w) ->
  runs (clean_up_history d) w (fun w' r => r = Ok tt /\ frame w w' /\ trimmed (w_rss w) (w_rss w')).
Proof.
  intros Hn [Hlen Hlim]. unfold clean_up_history. apply runs_bind, runs_reads, runs_bind.
  set (owned := owned_by d (w_rss w)).
  assert (exists l, beyond_history d owned = Some l /\ forall x, x ∈ l -> x ∈ w_rss w /\ old_empty d x) as (l & Hl & Hin).
  { unfold beyond_history. case_decide as Hpos; [|eexists; split; [done|]; by intros ? ?%elem_of_nil].
    set (old := sort_by _ _). assert (old ≡ₚ filter (old_empty d) owned) as Hperm by apply sort_by_perm.
    assert (Z.of_nat (length old) <= Z.of_nat (length (w_rss w))).
    { rewrite Hperm. pose proof (length_filter (old_empty d) owned).
      pose proof (length_filter (fun rs => is_owned_by_deployment rs d = true) (w_rss w)). assert (length owned <= length (w_rss w))%nat by done. lia. }
    rewrite checked32_fits; [unfold I32_MIN, I32_MAX in *; lia|]. cbn [mbind option_bind]. eexists. split; [done|].
    intros x Hx. assert (x ∈ old) as Hold by (eapply subseteq_take; exact Hx). rewrite Hperm in Hold.
    apply list_elem_of_filter in Hold as [He [_ Ho]%list_elem_of_filter]. done. }
  eapply runs_num; [exact Hl|]. eapply runs_mono; [apply delete_all_runs|].
  intros w' r (-> & Hf & names & Hw & Hsub). split; [done|]. split; [done|]. exists names. split; [done|].
  intros rs Hrs (x & He & Hx)%Hsub%list_elem_of_fmap. destruct (Hin x Hx) as [Hxin Hz].
  by assert (rs = x) as -> by by apply (names_inj (w_rss w)).
Qed.

(** ** The rollout *)

Section Rollout.
Context (pods : list Pod) (owned : list ReplicaSet) (b : Z).
Let available := count_available_pods_min_ready (fr_now fresh) pods.
Hypothesis Hfit : pass_fits available d owned.
Hypothesis Hrolling : is_rolling_update d = true.
Hypothesis Hb : 0 < b < 2 ^ 63.

(** A storage on which the rollout runs. *)
Record rolls_on (w : World) : Prop := {
  ro_sees : sees owned w;
  ro_pods : w_pods w = pods;
  ro_revisions : revisions_below b (w_rss w);
  ro_length : Z.of_nat (length (w_rss w)) < I32_MAX;
  ro_limit : default 10 (ds_revision_history_limit (d_spec d)) <= I32_MAX
}.

(** No ReplicaSet that has replicas is annotated with another desired count. *)
Definition no_rescaling : Prop := existsb (rescaled (desired_of d)) (with_replicas owned) = false.

(** What the status of the active ReplicaSet may claim. *)
Definition statuses_current : Prop := forall active, active_of d owned = Some active ->
  status_current (fr_now fresh) pods active.

(** The plan a step of the rollout stays within. *)
Definition planned (T : string -> Z -> Prop) (C : Z -> Prop) : Prop :=
  capped d owned T C /\ (forall s n, T s n -> 0 <= n) /\ (forall n, C n -> 0 <= n) /\
  (no_rescaling -> all_counted (fr_now fresh) pods owned -> statuses_current -> floored d (fr_now fresh) pods owned T).

Definition rolled (w w' : World) : Prop := frame w w' /\ exists T C, planned T C /\ evolved T C (w_rss w) (w_rss w').

Lemma revisions_moved T l l' : moved (keeps (fun k => k = REVISION)) T l l' -> revisions_below b l -> revisions_below b l'.
Proof.
  intros Hm Hr rs r Hin Hrev. destruct (moved_in _ _ _ _ _ Hm Hin) as (rs0 & Hin0 & _ & Hk & _).
  apply (Hr rs0 r Hin0). unfold revision_of in *. by rewrite -(Hk REVISION eq_refl).
Qed.

Lemma rolls_on_moved T w w' : rolls_on w -> frame w w' -> moved (keeps (fun k => k = REVISION)) T (w_rss w) (w_rss w') -> rolls_on w'.
Proof.
  intros [H1 H2 H3 H4 H5] Hf Hm. split; [by eapply sees_moved|by rewrite (fr_pods _ _ Hf)|by eapply revisions_moved| |done].
  by rewrite -(Forall2_length _ _ _ Hm).
Qed.

Lemma kept_keeps K x y : kept x y -> keeps K x y.
Proof. intros Hk k _. by apply Hk. Qed.

Lemma old_total_runs : old_rs_total d owned = Some (zsum (rs_replicas <$> old_of d owned)).
Proof.
  assert (forall rs, rs ∈ old_of d owned -> rs ∈ owned) as Hin.
  { unfold old_of. destruct (active_of d owned); [|done]. by intros rs [_ ?]%list_elem_of_filter. }
  assert (zsum (rs_replicas <$> old_of d owned) <= zsum (rs_replicas <$> owned)) as Hle.
  { unfold old_of. destruct (active_of d owned) as [active|]; [|done].
    rewrite (zsum_split rs_replicas (fun rs => rs_name rs <> rs_name active) owned).
    assert (0 <= zsum (rs_replicas <$> filter (fun rs => ~ rs_name rs <> rs_name active) owned)); [|lia].
    apply zsum_nonneg, Forall_fmap, Forall_forall. intros rs [_ Hrs]%list_elem_of_filter. by apply (pf_replicas _ _ _ Hfit). }
  pose proof (pf_total _ _ _ Hfit). pose proof (pf_desired _ _ _ Hfit). pose proof (pf_surge _ _ _ Hfit).
  apply sum32_fits; [|lia]. apply Forall_fmap, Forall_forall. intros rs Hrs. by apply (pf_replicas _ _ _ Hfit), Hin.
Qed.

(** Writes of counts only. *)
Lemma rolled_moved R T w w' : frame w w' -> moved R T (w_rss w) (w_rss w') -> planned T (fun _ => False) -> rolled w w'.
Proof. intros Hf Hm Hp. split; [done|]. exists T, (fun _ => False). split; [done|by eapply evolved_moved]. Qed.

Lemma planned_none : planned no_move (fun _ => False).
Proof.
  pose proof (pf_surge _ _ _ Hfit). pose proof (pf_desired _ _ _ Hfit). split_and!; [|by intros ? ? []|done|].
  - apply (capped_none d _ _ _ Hfit (fun _ => False) 0); [done|done|lia].
  - intros _ Hc _. by apply floored_none.
Qed.

Lemma without_active_runs w : rolls_on w ->
  runs (roll_without_active fresh d owned (zsum (rs_replicas <$> owned)) (rolling_counts d).1) w (fun w' _ => rolled w w').
Proof.
  intros Hw. pose proof (pf_replicas _ _ _ Hfit) as Hr0. pose proof (surge_fits _ _ _ _ Hfit) as Hs. pose proof (total_nonneg _ _ _ _ Hfit) as Ht0.
  pose proof (pf_total _ _ _ Hfit) as Ht. pose proof (pf_desired _ _ _ Hfit) as Hd. pose proof (pf_surge _ _ _ Hfit) as Hs0.
  set (total := zsum (rs_replicas <$> owned)) in *.
  assert (forall k, 0 <= k -> total + k <= Z.max total (desired_of d + (rolling_counts d).1) ->
    runs (create_replicaset_with_replicas fresh d k) w (fun w' _ => rolled w w')) as Hcreate.
  { intros k Hk Hle. eapply runs_mono; [apply (create_runs k b); [done|apply Hw|done]|]. intros w' _ (Hf & Hev). split; [done|].
    exists no_move, (fun n => n = k). split.
    - split_and!; [apply (capped_none d _ _ _ Hfit _ k); [done|by intros n ->|done]|by intros ? ? []|by intros ? ->|].
      intros _ Hc _. by apply floored_none.
    - destruct Hev as [(rev & mx & Hn & ->)|[-> _]].
      + apply (evolved_create no_move (new_replicaset fresh d rev (desired_of d) mx k) _ (w_rss w)); [done|by apply moved_refl|exact Hn|done].
      + apply (evolved_moved eq). apply moved_refl, _. }
  unfold roll_without_active. rewrite Hrolling. cbn [negb andb]. case_bool_decide as Hpos.
  - apply runs_bind. eapply runs_num; [apply checked32_fits; unfold small, I32_MIN, I32_MAX in *; lia|].
    apply runs_bind. eapply runs_num; [apply checked32_fits; unfold small, I32_MIN, I32_MAX in *; lia|].
    apply Hcreate; lia.
  - unfold create_replicaset. apply Hcreate; lia.
Qed.

Lemma evolved_after R T C l l0 l' : moved R no_move l l0 -> evolved T C l0 l' -> evolved T C l l'.
Proof.
  intros Hm0 (l1 & news & gone & Hm & Hlen & Hnew & Hp & Hg). exists l1, news, gone. split_and!; try done.
  - eapply moved_trans; [by intros ?|eapply (moved_mono R _ no_move); [done| |exact Hm0]; by intros ? ? []|done].
  - by rewrite -(moved_names _ _ _ _ Hm0).
Qed.

Lemma rolled_after R w w0 w' : frame w w0 -> moved R no_move (w_rss w) (w_rss w0) -> rolled w0 w' -> rolled w w'.
Proof.
  intros Hf Hm (Hf' & T & C & Hp & Hev). split; [by eapply frame_trans|]. exists T, C. split; [done|by eapply evolved_after].
Qed.

Lemma rolled_drop w w1 w' gone : rolled w w1 -> frame w1 w' -> Permutation (w_rss w1) (gone ++ w_rss w') ->
  (forall rs, rs ∈ gone -> rs_replicas rs = 0) -> rolled w w'.
Proof.
  intros (Hf & T & C & Hp & Hev) Hf' Hperm Hg. split; [by eapply frame_trans|]. exists T, C. split; [done|by eapply evolved_drop].
Qed.

Lemma single_active_rest only : single_active_rs owned = Some only ->
  only ∈ owned /\ zsum (rs_replicas <$> olds (rs_name only) owned) = 0.
Proof.
  unfold single_active_rs. destruct (with_replicas owned) as [|x [|y l]] eqn:E; intros [= ->].
  assert (only ∈ with_replicas owned) as [_ Hin]%list_elem_of_filter by (rewrite E; left). split; [done|].
  apply zsum_all_zero. intros rs [Hrs Hne]%olds_in. pose proof (pf_replicas _ _ _ Hfit rs Hrs).
  destruct (decide (0 < rs_replicas rs)) as [Hpos|]; [|lia].
  assert (rs ∈ with_replicas owned) as Hact by by apply list_elem_of_filter.
  rewrite E in Hact. apply list_elem_of_singleton in Hact as ->. done.
Qed.

Lemma scaling_step_runs scaling w : rolls_on w -> (scaling = true -> ~ no_rescaling) ->
  runs (scaling_step d owned scaling (rolling_counts d).1) w (fun w' r =>
    rolled w w' /\ (r = Ok false -> frame w w' /\ moved (keeps (fun k => k = REVISION)) no_move (w_rss w) (w_rss w'))).
Proof.
  intros Hw Hsc. unfold scaling_step. pose proof (ro_sees _ Hw) as Hs. pose proof Hs as [Hn Hin].
  assert (runs (ret false) w (fun w' r => rolled w w' /\ (r = Ok false -> frame w w' /\
    moved (keeps (fun k => k = REVISION)) no_move (w_rss w) (w_rss w')))) as Hskip.
  { apply runs_ret. assert (moved (keeps (fun k => k = REVISION)) no_move (w_rss w) (w_rss w)) as Hm by apply moved_refl, _.
    split; [by eapply rolled_moved; [|exact Hm|apply planned_none]|done]. }
  destruct (single_active_rs owned) as [only|] eqn:E.
  - destruct (scaling && _) eqn:Hgo; [|done]. apply andb_true_iff in Hgo as [-> _].
    destruct (single_active_rest only E) as [Hino Hz]. destruct (only_active_planned d _ pods owned Hfit only Hino Hz) as [Hcap Hfloor].
    assert (planned (one_move (rs_name only) (desired_of d)) (fun _ => False)) as Hplan.
    { split_and!; [done|intros s n [_ ->]; apply Hfit|done|]. intros Hno. by destruct (Hsc eq_refl). }
    apply runs_bind. eapply runs_mono; [apply update_replicas_runs; [done|by apply Hin]|]. intros w1 r (Hf & Hm & _).
    destruct r as [[]|e]; [|split; [by eapply rolled_moved|done]].
    apply runs_bind. eapply runs_mono; [apply set_desired_runs; [by destruct (sees_moved _ _ _ _ _ Hs Hm)|apply (surge_fits _ _ _ _ Hfit)]|].
    intros w2 r (-> & Hf2 & Hm2). apply runs_ret. split; [|done].
    eapply (rolled_moved (keeps (fun k => k = REVISION))); [by eapply frame_trans| |exact Hplan].
    eapply moved_trans; [apply _|eapply moved_mono; [| |exact Hm]|eapply moved_aim; [|exact Hm2]]; [apply kept_keeps|done|by intros ? ? []].
  - destruct scaling; [|done]. eapply runs_mono; [by apply (scale_proportionally_runs _ _ _ _ Hfit)|].
    intros w' r (Hf & updates & Hm & Hcap & Hpos & Hfalse). split.
    + eapply rolled_moved; [done|exact Hm|]. split_and!; [done|done|done|]. intros Hno. by destruct (Hsc eq_refl).
    + intros ->%Hfalse. split; [done|]. eapply moved_aim; [|exact Hm]. by intros ? ? ?%elem_of_nil.
Qed.

Lemma rollout_runs w : rolls_on w -> runs (rollout fresh d owned) w (fun w' _ => rolled w w').
Proof.
  intros Hw. unfold rollout. rewrite (surjective_pairing (rolling_counts d)).
  apply runs_bind. eapply runs_num; [apply old_total_runs|]. set (old_total := zsum _).
  set (scaling := is_scaling_event d owned old_total). apply runs_bind.
  assert (scaling = true -> ~ no_rescaling) as Hsc.
  { unfold scaling, is_scaling_event, no_rescaling. rewrite !andb_true_iff. intros [_ ->]. done. }
  eapply runs_mono; [by apply (scaling_step_runs scaling)|]. intros w1 r (Hroll1 & Hfalse).
  destruct r as [[]|e]; [by apply runs_ret| |done]. destruct (Hfalse eq_refl) as [Hf1 Hm1].
  pose proof (rolls_on_moved _ _ _ Hw Hf1 Hm1) as Hw1. apply runs_bind.
  eapply (runs_mono _ _ (fun w' _ => rolled w w')).
  - destruct (active_of d owned) as [active|] eqn:Ha.
    + assert (active ∈ owned) as Hin by (apply list_elem_of_In; by eapply find_some).
      assert (old_total = zsum (rs_replicas <$> olds (rs_name active) owned)) as Hold
        by (unfold old_total, old_of; by rewrite Ha). rewrite Hold.
      eapply runs_mono; [apply (roll_with_active_runs d _ pods owned Hfit Hrolling); apply Hw1 || done|].
      intros w2 r (Hf2 & T & Hm2 & Hpos & Hcap & Hfl). eapply rolled_after; [exact Hf1|exact Hm1|].
      eapply rolled_moved; [done|exact Hm2|]. split_and!; [done|done|done|]. intros _ Hc Hcur. by apply Hfl, Hcur.
    + assert (old_total = zsum (rs_replicas <$> owned)) as -> by (unfold old_total, old_of; by rewrite Ha).
      apply runs_bind. eapply runs_mono; [by apply without_active_runs|]. intros w2 r Hr2.
      destruct r; [apply runs_ret|]; by eapply rolled_after.
  - intros w2 r Hr2. destruct r as [[]|e]; [by apply runs_ret| |done].
    destruct (Hr2) as (Hf2 & T & C & _ & Hev). eapply runs_mono.
    + apply clean_up_runs; [eapply evolved_names; [apply Hw|done]|]. split; [|apply Hw].
      pose proof (evolved_length _ _ _ _ Hev). pose proof (ro_length _ Hw). lia.
    + intros w3 r (_ & Hf3 & (gone & Hp & Hg)%trimmed_gone). by eapply rolled_drop.
Qed.
End Rollout.

(** ** The status *)

(** What claims and pods add up to, one new ReplicaSet included. *)
Definition claims_fit (pods : list Pod) (l : list ReplicaSet) : Prop :=
  zsum (claims <$> l) + (Z.of_nat (length l) + 1) * Z.of_nat (length pods) <= I32_MAX.

Lemma count_range {A} (p : A -> bool) (l : list A) : 0 <= count p l <= Z.of_nat (length l).
Proof. unfold count. pose proof (length_filter (fun x => p x = true) l). lia. Qed.

Definition totals_between (lo hi : Z) (t : Totals) : Prop :=
  lo <= to_replicas t <= hi /\ lo <= to_ready t <= hi /\ lo <= to_available t <= hi /\ lo <= to_updated t <= hi.

Lemma add_replicaset_fits now pods acc t rs : totals_between 0 acc t -> acc + claims rs + Z.of_nat (length pods) <= I32_MAX ->
  exists t', add_replicaset now pods d t rs = Some t' /\ totals_between 0 (acc + claims rs + Z.of_nat (length pods)) t'.
Proof.
  intros (H1 & H2 & H3 & H4) Hle. unfold add_replicaset, count_pods_for_replicaset.
  set (mine := filter _ pods). pose proof (length_filter (fun pod => counts_for rs pod = true) pods) as Hm. fold mine in Hm.
  pose proof (count_range pod_ready mine) as Hr. match goal with |- context [count ?p mine] =>
    lazymatch p with pod_ready => fail | _ => pose proof (count_range p mine) as Ha; set (available := count p mine) in * end end.
  set (ready := count pod_ready mine) in *.
  assert (forall (field : ReplicaSetStatus -> Z) n, 0 <= n <= Z.of_nat (length pods) ->
    (forall st, rs_status rs = Some st -> field st <= claims rs) ->
    0 <= match rs_status rs with Some st => Z.max (field st) n | None => n end <= claims rs + Z.of_nat (length pods)) as Hbest.
  { intros field n Hn Hf. pose proof (claims_nonneg rs).
    destruct (rs_status rs) as [st|]; [|lia]. pose proof (Hf st eq_refl). lia. }
  assert (forall st, rs_status rs = Some st -> rst_replicas st <= claims rs /\ rst_ready_replicas st <= claims rs /\
    rst_available_replicas st <= claims rs) as Hc by (intros st E; unfold claims; rewrite E; lia).
  pose proof (Hbest rst_replicas (Z.of_nat (length mine)) ltac:(lia) ltac:(intros st E; by apply Hc)) as Hb1.
  pose proof (Hbest rst_ready_replicas ready ltac:(lia) ltac:(intros st E; by apply Hc)) as Hb2.
  pose proof (Hbest rst_available_replicas available ltac:(lia) ltac:(intros st E; by apply Hc)) as Hb3.
  unfold I32_MIN, I32_MAX in *.
  rewrite !checked32_fits; try (unfold I32_MIN, I32_MAX; lia). cbn [mbind option_bind].
  destruct (replicaset_matches_template rs d); cbn [mbind option_bind]; (eexists; split; [done|]);
    unfold totals_between; simpl; lia.
Qed.

Lemma add_replicasets_fits now pods l : forall acc t, totals_between 0 acc t ->
  acc + zsum (claims <$> l) + Z.of_nat (length l) * Z.of_nat (length pods) <= I32_MAX ->
  exists t', add_replicasets now pods d t l = Some t' /\ totals_between 0 I32_MAX t'.
Proof.
  induction l as [|rs l IH]; intros acc t Ht Hle; cbn [add_replicasets].
  { exists t. split; [done|]. unfold totals_between in *. simpl in Hle. lia. }
  rewrite fmap_cons in Hle. cbn [zsum length] in Hle.
  assert (0 <= zsum (claims <$> l)) as Hz.
  { apply zsum_nonneg, Forall_fmap, Forall_forall. intros x _. apply claims_nonneg. }
  destruct (add_replicaset_fits now pods acc t rs Ht) as (t1 & -> & Ht1); [lia|]. cbn [mbind option_bind].
  apply (IH _ _ Ht1). lia.
Qed.

Lemma status_runs now w : zsum (claims <$> w_rss w) + Z.of_nat (length (w_rss w)) * Z.of_nat (length (w_pods w)) <= I32_MAX ->
  runs (update_deployment_status now d) w (fun w' _ => frame w w' /\ w_rss w' = w_rss w).
Proof.
  intros Hle. unfold update_deployment_status. apply runs_bind, runs_reads, runs_bind, runs_reads, runs_bind.
  set (owned := owned_by d (w_rss w)).
  destruct (add_replicasets_fits now (w_pods w) owned 0 (mkTotals 0 0 0 0)) as (t & Ht & Hr).
  { unfold totals_between. simpl. lia. }
  { assert (zsum (claims <$> owned) <= zsum (claims <$> w_rss w)).
    { rewrite (zsum_split claims (fun rs => is_owned_by_deployment rs d = true) (w_rss w)). fold (owned_by d (w_rss w)).
      assert (0 <= zsum (claims <$> filter (fun x => ~ is_owned_by_deployment x d = true) (w_rss w))); [|unfold owned; lia].
      apply zsum_nonneg, Forall_fmap, Forall_forall. intros x _. apply claims_nonneg. }
    assert (length owned <= length (w_rss w))%nat by apply length_filter. nia. }
  eapply runs_num; [exact Ht|]. apply runs_bind. destruct Hr as (H1 & H2 & H3 & H4).
  assert (exists st, compute_status now t d owned = Some st) as [st Hst].
  { unfold compute_status. case_decide; [rewrite checked32_fits; [unfold I32_MIN, I32_MAX in *; lia|]|]; cbn [mbind option_bind]; eauto. }
  eapply runs_num; [exact Hst|]. destruct (status_changed d st || _); [|by apply runs_ret].
  apply runs_bind, runs_bind, runs_reads, runs_bind, runs_modify, runs_ret.
  assert (forall dep w1, frame w w1 -> w_rss w1 = w_rss w ->
    runs (if status_changed d st then store_status dep else ret tt) w1 (fun w' _ => frame w w' /\ w_rss w' = w_rss w)) as Hstore.
  { intros dep w1 Hf Hr1. destruct (status_changed d st); [|by apply runs_ret]. unfold store_status.
    apply runs_bind. eapply runs_mono; [apply ask_runs|]. intros w2 r (Hf2 & Hr2 & Hd & ok & -> & _). apply runs_bind, runs_reads.
    assert (frame w w2 /\ w_rss w2 = w_rss w) as [Hf3 Hr3] by (split; [by eapply frame_trans|congruence]).
    destruct ok, (w_deployment w2) eqn:E, (d_status dep); try by eexists _, _.
    - apply runs_modify. split; [|done]. eapply frame_trans; [exact Hf3|]. split; simpl; eauto. }
  assert (frame w (set_own_write None w)) as Hf0 by done.
  apply runs_bind. destruct (max_of _) as [rev|]; [|apply runs_ret; by apply Hstore].
  case_decide; [apply runs_ret; by apply Hstore|]. eapply runs_mono; [apply store_deployment_runs|]. intros w1 r (Hf1 & Hr1).
  assert (frame w w1) by (by eapply frame_trans). destruct r; [apply Hstore|]; done.
Qed.
End Pass.

(** * Rolling updates are safe

    A whole pass of the deployment controller returns without an overflow, keeps
    the replicas within the surge and the available pods at their minimum. *)

Local Open Scope Z_scope.

Section Pass.
Context `{!TemplateHash} (fresh : Fresh) (d : Deployment).

(** The world after the adoption of orphans, with which the pass goes on. *)
Definition adopted (w w1 : World) : Prop :=
  for_each (adopt d) (w_rss w) (set_own_write None w) = Some (w1, Ok tt).

(** The bound on the revisions of the ReplicaSets. *)
Definition MAX_REVISION : Z := 2 ^ 63 - 2.

Definition available_in (w : World) : ReplicaSet -> Z := count_available_pods_min_ready (fr_now fresh) (w_pods w).

(** What a pass needs not to overflow. *)
Record pass_ok (w : World) : Prop := {
  po_names : NoDup (rs_name <$> w_rss w);
  po_fits : pass_fits (available_in w) d (owned_by d (w_rss w));
  po_revisions : revisions_below MAX_REVISION (w_rss w);
  po_limit : default 10 (ds_revision_history_limit (d_spec d)) <= I32_MAX;
  po_length : Z.of_nat (length (w_rss w)) < I32_MAX;
  po_claims : claims_fit (w_pods w) (w_rss w)
}.

Lemma owned_sub l rs : rs ∈ owned_by d l -> rs ∈ l.
Proof. by intros [_ ?]%list_elem_of_filter. Qed.

Lemma owned_names l : NoDup (rs_name <$> l) -> NoDup (rs_name <$> owned_by d l).
Proof. apply NoDup_fmap_filter. Qed.

Lemma revised_below n b l l' : moved (revised n) no_move l l' -> n <= b -> revisions_below b l -> revisions_below (b + 1) l'.
Proof.
  intros Hm Hn Hb rs r Hin Hr. destruct (moved_in _ _ _ _ _ Hm Hin) as (rs0 & Hin0 & _ & [_ Hrev] & _).
  rewrite Hr in Hrev. destruct Hrev as [He|[= ->]]; [|lia]. pose proof (Hb rs0 r Hin0 (eq_sym He)). lia.
Qed.

(** After the revisions the rollout can run. *)
Lemma synced_rolls_on w1 w2 n : pass_ok w1 -> frame w1 w2 -> n <= MAX_REVISION -> moved (revised n) no_move (w_rss w1) (w_rss w2) ->
  rolls_on d (w_pods w1) (owned_by d (w_rss w1)) (MAX_REVISION + 1) w2.
Proof.
  intros Hok Hf Hn Hm. split; [split|..].
  - rewrite (moved_names _ _ _ _ Hm). apply Hok.
  - intros rs Hrs%owned_sub. rewrite (moved_names _ _ _ _ Hm). by apply list_elem_of_fmap_2.
  - apply (fr_pods _ _ Hf).
  - apply (revised_below n _ (w_rss w1)); [done|lia|apply Hok].
  - rewrite -(Forall2_length _ _ _ Hm). apply Hok.
  - apply Hok.
Qed.

(** Whatever the rollout left, the status is computed. *)
Lemma status_after w1 w3 T C : pass_ok w1 -> frame w1 w3 -> evolved T C (w_rss w1) (w_rss w3) ->
  runs (update_deployment_status (fr_now fresh) d) w3 (fun w' _ => w_rss w' = w_rss w3).
Proof.
  intros Hok Hf Hev. eapply runs_mono; [apply status_runs|by intros w4 r [_ ->]].
  rewrite (fr_pods _ _ Hf). pose proof (evolved_length _ _ _ _ Hev). pose proof (evolved_claims _ _ _ _ Hev).
  pose proof (po_claims _ Hok) as Hc. unfold claims_fit in Hc. nia.
Qed.

(** The revisions, from the world after the adoption. *)
Lemma sync_ok w1 : pass_ok w1 ->
  runs (sync_revision d (owned_by d (w_rss w1))) w1 (fun w2 r => r = Ok tt /\ frame w1 w2 /\
    exists n, n <= MAX_REVISION /\ moved (revised n) no_move (w_rss w1) (w_rss w2)).
Proof.
  intros Hok. eapply runs_mono.
  { apply (sync_revision_runs d MAX_REVISION w1); [done|apply Hok|by apply owned_names, Hok|apply owned_sub|apply Hok]. }
  intros w2 r (-> & Hf & n & Hn & Hm). split; [done|]. split; [done|]. exists n. split; [lia|done].
Qed.

Lemma pass_runs w w1 : m_deletion_timestamp (d_metadata d) = None -> is_rolling_update d = true ->
  adopted w w1 -> pass_ok w1 ->
  runs (reconcile_deployment fresh d) w (fun w' _ => exists T C,
    planned d fresh (w_pods w1) (owned_by d (w_rss w1)) T C /\ evolved T C (w_rss w1) (w_rss w')).
Proof.
  intros Hdel Hroll Hadopt Hok. unfold reconcile_deployment. rewrite Hdel.
  destruct (decide (is_Some None)) as [[? ?]|_]; [done|]. apply runs_bind, runs_modify, runs_bind, runs_reads, runs_bind.
  exists w1, (Ok tt). split; [exact Hadopt|]. apply runs_bind, runs_reads, runs_bind.
  eapply runs_mono; [by apply sync_ok|]. intros w2 r (-> & Hf2 & n & Hn & Hm2).
  apply runs_bind. destruct (default false (ds_paused (d_spec d))).
  - apply runs_ret. assert (evolved no_move (fun _ => False) (w_rss w1) (w_rss w2)) as Hev by by eapply evolved_moved.
    eapply runs_mono; [by eapply (status_after w1)|]. intros w3 r ->. exists no_move, (fun _ => False).
    split; [by apply planned_none, Hok|done].
  - eapply runs_mono; [apply (rollout_runs d fresh _ _ (MAX_REVISION + 1) (po_fits _ Hok)); [done|done|by apply (synced_rolls_on w1 w2 n)]|].
    intros w3 r (Hf3 & T & C & Hp & Hev). assert (evolved T C (w_rss w1) (w_rss w3)) as Hev1 by by eapply evolved_after.
    destruct r as [[]|e]; [|by exists T, C]. eapply runs_mono; [eapply (status_after w1); [done|by eapply frame_trans|done]|].
    intros w4 r ->. by exists T, C.
Qed.

(** C7: a pass of a rolling update of a deployment that is not being deleted, in
    the world the adoption of orphans leaves: when the replicas of its ReplicaSets,
    the desired count and the surge add up to an [i32] (and the names, revisions
    and pod counts are as [pass_ok] asks), the pass returns without an overflow,
    whatever the storage answers to its writes, and leaves no more replicas than
    there were, or than the desired count and the surge allow.  The bound is
    needed: [surge_overflows]. *)
Theorem rollout_within_surge w w1 :
  m_deletion_timestamp (d_metadata d) = None -> is_rolling_update d = true -> adopted w w1 -> pass_ok w1 ->
  exists w' r, reconcile_deployment fresh d w = Some (w', r) /\
    total_of d (w_rss w') <= Z.max (total_of d (w_rss w1)) (desired_of d + (rolling_counts d).1).
Proof.
  intros Hdel Hroll Ha Hok. destruct (pass_runs w w1 Hdel Hroll Ha Hok) as (w' & r & E & T & C & Hp & Hev).
  exists w', r. split; [done|]. destruct Hp as ((hi & new & Hn & Hhi & HT & HC & Hsum) & _).
  pose proof (evolved_total d T C _ _ hi new Hn Hev Hhi HT HC). unfold total_of in *. lia.
Qed.

(** C8: a pass of a rolling update keeps the minimum of available pods, under the
    conditions of [rollout_within_surge] and three more: no ReplicaSet with
    replicas is annotated with another desired count (the pass is no scaling), no
    ReplicaSet has more available pods than replicas, and the status of the new
    ReplicaSet claims no more available pods than there are.  Then the pods that
    the counts after the pass leave available are at least the desired ones less
    maxUnavailable, or all that were available.  The second condition is needed:
    [surplus_pods_break_minimum]. *)
Theorem rollout_keeps_available w w1 :
  m_deletion_timestamp (d_metadata d) = None -> is_rolling_update d = true -> adopted w w1 -> pass_ok w1 ->
  no_rescaling d (owned_by d (w_rss w1)) ->
  all_counted (fr_now fresh) (w_pods w1) (owned_by d (w_rss w1)) ->
  statuses_current d fresh (w_pods w1) (owned_by d (w_rss w1)) ->
  exists w' r, reconcile_deployment fresh d w = Some (w', r) /\
    Z.min (zsum (available_in w1 <$> owned_by d (w_rss w1))) (desired_of d - (rolling_counts d).2) <=
    zsum ((fun rs => Z.min (available_in w1 rs) (count_in (w_rss w') (rs_name rs))) <$> owned_by d (w_rss w1)).
Proof.
  intros Hdel Hroll Ha Hok Hno Hc Hs. destruct (pass_runs w w1 Hdel Hroll Ha Hok) as (w' & r & E & T & C & Hp & Hev).
  exists w', r. split; [done|]. destruct Hp as (_ & _ & _ & Hfl). destruct (Hfl Hno Hc Hs) as (lo & Hlo & HT & Hsum).
  eapply Z.le_trans; [exact Hsum|]. apply zsum_map_le. intros rs Hrs.
  assert (lo (rs_name rs) <= count_in (w_rss w') (rs_name rs)); [|unfold available_in; lia].
  destruct (evolved_count _ _ _ _ rs (po_names _ Hok) Hev (owned_sub _ _ Hrs)) as [->|Ht]; [by apply Hlo|by apply HT].
Qed.

End Pass.

(** ** A rollout *)

Module Example.

Local Open Scope string_scope.
Local Open Scope Z_scope.

#[export] Instance hash : TemplateHash := fun j => if json_eqb j (JObject []) then "empty" else "1a2b".

Definition labels : gmap string string := {["app" := "web"]}.

Definition template (image : string) : PodTemplateSpec :=
  mkTemplate (Some (mkTemplateMeta (Some labels) []))
    (JObject [("containers", JArray [JObject [("image", JString image); ("name", JString "c")]])]).

Definition meta (name uid : string) (annotations : gmap string string) (owners : list OwnerReference) : Meta :=
  mkMeta name (Some "default") uid (Some 1) (Some 0) None (Some labels) (Some annotations) (Some owners).

Definition selector : LabelSelector := mkLabelSelector (Some labels) None.

(** Four replicas; a surge of one, one unavailable. *)
Definition web : Deployment :=
  mkDeployment (meta "web" "d1" ∅ [])
    (mkDeploymentSpec (Some 4) selector (template "v2") None None None None None) None.

Definition replicaset (name image : string) (replicas : Z) : ReplicaSet :=
  mkReplicaSet (meta name name ∅ [deployment_owner web]) (mkRsSpec replicas selector (template image) None) None.

Definition pod (rs : string) : Pod :=
  mkPod (meta (rs +:+ "-pod") "p" ∅ [mkOwnerRef "apps/v1" "ReplicaSet" rs rs None (Some true)])
    (Some (mkPodStatus (Some Running) (Some [mkPodCondition "Ready" "True" (Some 0)]))).

(** Four pods of the old template, one of the new. *)
Definition world : World :=
  mkWorld [replicaset "web-1" "v1" 4; replicaset "web-2" "v2" 1] [pod "web-1"; pod "web-1"; pod "web-1"; pod "web-1"; pod "web-2"]
    (Some web) None [].

Definition now : Fresh := mkFresh "u" [] (10 ^ 12).

(** The pass takes two old pods: three of the five have to stay. *)
Example pass_counts :
  (fun r => map (fun rs => (rs_name rs, rs_replicas rs)) (w_rss r.1)) <$> reconcile_deployment now web world =
  Some [("web-1", 2); ("web-2", 1)].
Proof. vm_compute. reflexivity. Qed.

Lemma all_of {A} (P : A -> Prop) `{forall x, Decision (P x)} l :
  forallb (fun x => bool_decide (P x)) l = true -> forall x, x ∈ l -> P x.
Proof. intros Hl x Hx. eapply forallb_forall in Hl; [by apply bool_decide_eq_true in Hl|]. by apply list_elem_of_In. Qed.

(** Everything a pass needs, computed. *)
Ltac compute_pass_ok :=
  split;
  [ by refine (bool_decide_unpack _ _); vm_compute
  | split;
    [ by refine (bool_decide_unpack _ _); vm_compute | by refine (all_of _ _ _); vm_compute | by vm_compute | by vm_compute
    | by vm_compute | by vm_compute | by refine (all_of _ _ _); vm_compute | by vm_compute ]
  | let rs := fresh in let r := fresh in let Hin := fresh in let Hr := fresh in
    intros rs r Hin Hr; enough (default 0 (revision_of rs) < MAX_REVISION) as Hlt; [by rewrite Hr in Hlt|];
    clear r Hr; revert rs Hin; by refine (all_of _ _ _); vm_compute
  | done | done | by vm_compute ].

Lemma world_ok : pass_ok now web world.
Proof. compute_pass_ok. Qed.

Lemma rollout_within_surge_witness :
  exists w' r, reconcile_deployment now web world = Some (w', r) /\
    total_of web (w_rss w') <= Z.max (total_of web (w_rss world)) (desired_of web + (rolling_counts web).1).
Proof. apply (rollout_within_surge now web world world); [done|done|by vm_compute|apply world_ok]. Defined.

Lemma rollout_keeps_available_witness :
  exists w' r, reconcile_deployment now web world = Some (w', r) /\
    Z.min (zsum (available_in now world <$> owned_by web (w_rss world))) (desired_of web - (rolling_counts web).2) <=
    zsum ((fun rs => Z.min (available_in now world rs) (count_in (w_rss w') (rs_name rs))) <$> owned_by web (w_rss world)).
Proof.
  apply (rollout_keeps_available now web world world); [done|done|by vm_compute|apply world_ok|by vm_compute| |].
  - by refine (all_of _ _ _); vm_compute.
  - intros active. assert (active_of web (owned_by web (w_rss world)) = Some (replicaset "web-2" "v2" 1)) as -> by by vm_compute.
    intros [= <-]. by vm_compute.
Defined.

(** The largest count the API takes: adding the surge overflows. *)
Definition with_count (n : Z) : Deployment :=
  mkDeployment (meta "web" "d1" ∅ [])
    (mkDeploymentSpec (Some n) selector (template "v2") None None None None None) None.

Lemma surge_overflows : reconcile_deployment now (with_count I32_MAX) world = None.
Proof. vm_compute. reflexivity. Qed.

(** Ten replicas, a surge of three, three unavailable: the old ReplicaSet still
    has the ten pods it had before it was scaled to four, and five of the nine new
    pods are available.  The pass scales the old one to zero. *)
Definition surplus_world : World :=
  mkWorld [replicaset "web-1" "v1" 4; replicaset "web-2" "v2" 9]
    (replicate 10 (pod "web-1") ++ replicate 5 (pod "web-2")) (Some (with_count 10)) None [].

Lemma surplus_pods_break_minimum :
  rolling_counts (with_count 10) = (3, 3) /\
  (fun r => map (fun rs => (rs_name rs, rs_replicas rs)) (w_rss r.1)) <$> reconcile_deployment now (with_count 10) surplus_world =
  Some [("web-1", 0); ("web-2", 9)].
Proof. vm_compute. split; reflexivity. Qed.

End Example.
