(* ===== verification/RolloutExact.v ===== *)
(** * A pass to which the storage answers yes

    When every write is taken, a pass sets exactly the counts it computed.  [exact]
    relates the ReplicaSets before and after: the counts of a map set, the rest
    kept but for the revision annotations and the statuses. *)

From stdpp Require Import strings pretty.
From S2P Require Import Prelude RustText BTree Json Authz ServiceTypes Quantity QuantityText LabelSelector F64 DeploymentTypes DeploymentController DeploymentRuns RolloutArith RolloutPass DeploymentSafety.

Local Open Scope Z_scope.

(** A storage that takes every write. *)
Definition takes (w : World) : Prop := w_answers w = [] /\ is_Some (w_deployment w).

Lemma frame_takes w w' : frame w w' -> takes w -> takes w'.
Proof. intros Hf [Ha Hd]. split; [by apply (fr_takes _ _ Hf)|by apply (fr_stored _ _ Hf)]. Qed.

(** Every annotation but the revision. *)
Definition other_annotations : relation ReplicaSet := keeps (fun k => k <> REVISION).

Definition set_to (m : gmap string Z) (rs : ReplicaSet) : Z := default (rs_replicas rs) (m !! rs_name rs).

Definition exact (m : gmap string Z) : list ReplicaSet -> list ReplicaSet -> Prop :=
  Forall2 (fun rs rs' => like rs rs' /\ other_annotations rs rs' /\ rs_replicas rs' = set_to m rs).

#[export] Instance other_annotations_preorder : PreOrder other_annotations.
Proof. apply keeps_preorder. Qed.

Lemma exact_refl l : exact ∅ l l.
Proof. apply Forall_Forall2_diag, Forall_forall. intros rs _. split; [apply like_refl|]. done. Qed.

Lemma exact_trans m1 m2 l1 l2 l3 : exact m1 l1 l2 -> exact m2 l2 l3 -> exact (m2 ∪ m1) l1 l3.
Proof.
  intros H. revert l3. induction H as [|r1 r2 l1 l2 (Hl & Hk & Hr) _ IH]; intros l3 H3;
    inversion H3 as [|? r3 ? l3' (Hl' & Hk' & Hr') H]; subst; [constructor|].
  constructor; [|by apply IH]. split; [by eapply like_trans|]. split; [by etrans|].
  rewrite Hr' /set_to (like_name _ _ Hl) lookup_union Hr /set_to. by destruct (m2 !! rs_name r1), (m1 !! rs_name r1).
Qed.

Lemma exact_names m l l' : exact m l l' -> rs_name <$> l' = rs_name <$> l.
Proof. induction 1 as [|r r' l l' [Hl _] _ IH]; [done|]. by rewrite !fmap_cons IH (like_name _ _ Hl). Qed.

Lemma exact_moved m l l' : exact m l l' -> moved other_annotations (fun s n => m !! s = Some n) l l'.
Proof.
  intros H. eapply Forall2_impl; [exact H|]. intros rs rs' (? & ? & ->). split; [done|]. split; [done|].
  unfold set_to. destruct (m !! rs_name rs); [by right|by left].
Qed.

Lemma moved_exact R l l' : (forall x y, R x y -> other_annotations x y) -> moved R no_move l l' -> exact ∅ l l'.
Proof.
  intros HR H. eapply Forall2_impl; [exact H|]. intros rs rs' (? & ? & [?|[]]). split; [done|]. split; [by apply HR|done].
Qed.

(** A pass, or a piece of it, that sets the counts of [m]. *)
Definition sets {A} (c : M A) (w : World) (m : gmap string Z) (a : A) : Prop :=
  runs c w (fun w' r => r = Ok a /\ frame w w' /\ exact m (w_rss w) (w_rss w')).

Lemma sets_bind {A B} (c : M A) (f : A -> M B) w m1 m2 m a b : sets c w m1 a ->
  (forall w', frame w w' -> exact m1 (w_rss w) (w_rss w') -> sets (f a) w' m2 b) -> m2 ∪ m1 = m -> sets (bind c f) w m b.
Proof.
  intros Hc Hf <-. apply runs_bind. eapply runs_mono; [exact Hc|]. intros w1 r (-> & Hf1 & He1).
  eapply runs_mono; [by apply Hf|]. intros w2 r (-> & Hf2 & He2). split; [done|].
  split; [by eapply frame_trans|by eapply exact_trans].
Qed.

Lemma sets_ret {A} (a : A) w : sets (ret a) w ∅ a.
Proof. apply runs_ret. split; [done|]. split; [done|apply exact_refl]. Qed.

Lemma update_sets rs n w : takes w -> NoDup (rs_name <$> w_rss w) -> rs_name rs ∈ rs_name <$> w_rss w ->
  sets (update_replicaset_replicas rs n) w {[rs_name rs := n]} tt.
Proof.
  intros [Ha _] Hn Hin. eapply runs_mono; [by apply update_replicas_runs|]. intros w' r (Hf & Hm & Hok & Hhit).
  specialize (Hok Ha). split; [done|]. split; [done|]. specialize (Hhit Hok).
  apply Forall2_same_length_lookup. split; [by eapply Forall2_length|]. intros i x y Hx Hy.
  destruct (Forall2_lookup_lr _ _ _ _ _ _ Hm Hx Hy) as (Hl & Hk & Hr). split; [done|]. split; [intros k _; by apply Hk|].
  unfold set_to. destruct (decide (rs_name x = rs_name rs)) as [He|Hne].
  - rewrite He lookup_singleton_eq /=. apply Hhit; [by eapply list_elem_of_lookup_2|]. by rewrite (like_name _ _ Hl).
  - rewrite lookup_singleton_ne //=. destruct Hr as [?|[? _]]; done.
Qed.

(** What a loop sets: an item sets its name, or nothing. *)
Definition item_map {A} (name : A -> string) (t : A -> option Z) (x : A) : gmap string Z :=
  match t x with Some n => {[name x := n]} | None => ∅ end.

Fixpoint items_map {A} (name : A -> string) (t : A -> option Z) (l : list A) : gmap string Z :=
  match l with [] => ∅ | x :: l' => items_map name t l' ∪ item_map name t x end.

Lemma items_map_other {A} (name : A -> string) t l s : s ∉ name <$> l -> items_map name t l !! s = None.
Proof.
  induction l as [|x l IH]; intros Hs; [done|]. rewrite fmap_cons in Hs. apply not_elem_of_cons in Hs as [Hne Hs].
  simpl. rewrite lookup_union IH // left_id. unfold item_map. destruct (t x); [by rewrite lookup_singleton_ne|done].
Qed.

Lemma items_map_at {A} (name : A -> string) t l x : NoDup (name <$> l) -> x ∈ l -> items_map name t l !! name x = t x.
Proof.
  induction l as [|y l IH]; intros Hn Hin; [by apply elem_of_nil in Hin|]. rewrite fmap_cons in Hn.
  apply NoDup_cons in Hn as [Hnin Hn]. simpl. rewrite lookup_union. apply elem_of_cons in Hin as [->|Hin].
  - rewrite items_map_other // left_id. unfold item_map. destruct (t y); [by rewrite lookup_singleton_eq|done].
  - rewrite IH //. assert (item_map name t y !! name x = None) as ->; [|by destruct (t x)].
    unfold item_map. destruct (t y); [|done]. rewrite lookup_singleton_ne //. intros He. apply Hnin. rewrite He.
    by apply list_elem_of_fmap_2.
Qed.

Lemma for_each_sets {A} (f : A -> M unit) name t (l : list A) : forall w, takes w -> NoDup (rs_name <$> w_rss w) ->
  (forall x, x ∈ l -> name x ∈ rs_name <$> w_rss w /\
     forall w', takes w' -> NoDup (rs_name <$> w_rss w') -> name x ∈ rs_name <$> w_rss w' -> sets (f x) w' (item_map name t x) tt) ->
  sets (for_each f l) w (items_map name t l) tt.
Proof.
  induction l as [|x l IH]; intros w Ht Hn Hl; cbn [for_each items_map]; [apply sets_ret|].
  destruct (Hl x ltac:(left)) as [Hin Hx]. eapply sets_bind; [by apply Hx| |done].
  intros w1 Hf He. apply IH; [by eapply frame_takes|by rewrite (exact_names _ _ _ He)|].
  intros y Hy. rewrite (exact_names _ _ _ He). apply Hl. by right.
Qed.

(** An update of a count, or nothing. *)
Lemma maybe_update_sets (t : option Z) rs w : takes w -> NoDup (rs_name <$> w_rss w) -> rs_name rs ∈ rs_name <$> w_rss w ->
  sets (match t with Some n => update_replicaset_replicas rs n | None => ret tt end) w
    (match t with Some n => {[rs_name rs := n]} | None => ∅ end) tt.
Proof. intros. destruct t; [by apply update_sets|apply sets_ret]. Qed.

Section Exact.
Context `{!TemplateHash} (d : Deployment) (now : Z) (pods : list Pod) (owned : list ReplicaSet).
Let available := count_available_pods_min_ready now pods.
Let desired := desired_of d.
Let max_surge := (rolling_counts d).1.
Let max_unavailable := (rolling_counts d).2.
Let total := zsum (rs_replicas <$> owned).
Hypothesis Hfit : pass_fits available d owned.
Hypothesis Hrolling : is_rolling_update d = true.

(** A storage that takes every write and has the ReplicaSets of the pass. *)
Definition ready (w : World) : Prop := takes w /\ sees owned w /\ w_pods w = pods.

Lemma ready_step m w w' : ready w -> frame w w' -> exact m (w_rss w) (w_rss w') -> ready w'.
Proof.
  intros (Ht & Hs & Hp) Hf He. split; [by eapply frame_takes|]. split; [by eapply sees_moved, exact_moved|].
  by rewrite (fr_pods _ _ Hf).
Qed.

Lemma olds_names name : NoDup (rs_name <$> olds name owned).
Proof. apply NoDup_fmap_filter, Hfit. Qed.

(** A loop over ReplicaSets of the pass. *)
Lemma owned_loop_sets (f : ReplicaSet -> M unit) t name w : ready w ->
  (forall rs, f rs = match t rs with Some n => update_replicaset_replicas rs n | None => ret tt end) ->
  sets (for_each f (olds name owned)) w (items_map rs_name t (olds name owned)) tt.
Proof.
  intros (Ht & [Hn Hin] & _) Hf. apply for_each_sets; [done..|]. intros rs [Hrs _]%olds_in. split; [by apply Hin|].
  intros w' Ht' Hn' Hin'. rewrite Hf. by apply maybe_update_sets.
Qed.

Definition drained (rs : ReplicaSet) : option Z := if decide (0 < rs_replicas rs) then Some 0 else None.

Definition retargeted (o : option (gmap string Z)) (rs : ReplicaSet) : option Z :=
  if decide (old_target o rs = rs_replicas rs) then None else Some (old_target o rs).

Lemma drain_sets name w : ready w ->
  sets (drain_others name owned) w (items_map rs_name drained (olds name owned)) tt.
Proof.
  intros Hr. apply owned_loop_sets; [done|]. intros rs. unfold scale_to, drained. by case_decide.
Qed.

Lemma reconcile_old_sets name new o w : ready w ->
  old_targets available owned name new desired max_unavailable = Some o ->
  sets (reconcile_old_replicasets now owned name new desired max_unavailable) w
    (items_map rs_name (retargeted o) (olds name owned)) tt.
Proof.
  intros Hr Ho. pose proof Hr as (_ & _ & Hp). unfold reconcile_old_replicasets. apply runs_bind, runs_reads. rewrite Hp.
  apply runs_bind. eapply runs_num; [exact Ho|]. destruct o as [cur|].
  - apply owned_loop_sets; [done|]. intros rs. unfold retargeted. simpl. by case_decide.
  - assert (items_map rs_name (retargeted None) (olds name owned) = ∅) as ->; [|apply sets_ret].
    generalize (olds name owned). intros l. induction l as [|rs l IH]; [done|]. simpl. rewrite IH left_id_L.
    unfold item_map, retargeted. simpl. by rewrite decide_True.
Qed.

Lemma turn_sets active new o w P `{!Decision P} : ready w -> active ∈ owned ->
  old_targets available owned (rs_name active) new desired max_unavailable = Some o ->
  sets ((if decide P then ret tt else update_replicaset_replicas active new) ;;
        reconcile_old_replicasets now owned (rs_name active) new desired max_unavailable)%controller w
    (items_map rs_name (retargeted o) (olds (rs_name active) owned) ∪ (if bool_decide P then ∅ else {[rs_name active := new]})) tt.
Proof.
  intros Hr Hin Ho. pose proof Hr as (Ht & [Hn Hall] & _). rewrite -decide_bool_decide.
  eapply sets_bind; [|intros w1 Hf He; apply reconcile_old_sets; [by eapply ready_step|done]|done].
  case_decide; [apply sets_ret|]. apply update_sets; [done|done|by apply Hall].
Qed.


(** The counts a turn leaves: [new], and at most the targets. *)
Definition turn_map (active : ReplicaSet) (new : Z) (o : option (gmap string Z)) (stay drain : bool) : gmap string Z :=
  (items_map rs_name (retargeted o) (olds (rs_name active) owned) ∪ (if stay then ∅ else {[rs_name active := new]})) ∪
  (if drain then items_map rs_name drained (olds (rs_name active) owned) else ∅).

Lemma olds_other name : name ∉ rs_name <$> olds name owned.
Proof. intros (rs & -> & [_ Hne]%olds_in)%list_elem_of_fmap. done. Qed.

Lemma turn_map_active active new o stay drain : (stay = true -> new = rs_replicas active) ->
  set_to (turn_map active new o stay drain) active = new.
Proof.
  intros Hs. unfold set_to, turn_map. rewrite !lookup_union items_map_other; [apply olds_other|]. rewrite left_id.
  assert ((if drain then items_map rs_name drained (olds (rs_name active) owned) else ∅) !! rs_name active = None) as ->.
  { destruct drain; [apply items_map_other, olds_other|done]. }
  destruct stay; [by rewrite Hs|]. by rewrite lookup_singleton_eq.
Qed.

Lemma turn_map_old active new o stay drain rs : rs ∈ olds (rs_name active) owned -> 0 <= old_target o rs <= rs_replicas rs ->
  0 <= set_to (turn_map active new o stay drain) rs <= old_target o rs.
Proof.
  intros Hin Ht. destruct (olds_in _ _ _ Hin) as [_ Hne]. unfold set_to, turn_map. rewrite !lookup_union.
  rewrite (items_map_at _ _ _ _ (olds_names _) Hin).
  assert ((if stay then ∅ else {[rs_name active := new]} : gmap string Z) !! rs_name rs = None) as ->.
  { destruct stay; [done|]. by rewrite lookup_singleton_ne. }
  set (x := (if drain then _ else _) !! rs_name rs).
  assert (x = None \/ x = Some 0) as Hx.
  { unfold x. destruct drain; [|by left]. rewrite (items_map_at _ _ _ _ (olds_names _) Hin). unfold drained. case_decide; auto. }
  unfold retargeted. destruct (decide (old_target o rs = rs_replicas rs)) as [He|He], Hx as [-> | ->]; simpl; lia.
Qed.

(** Every pod of the deployment is available. *)
Definition healthy : Prop :=
  (forall rs, rs ∈ owned -> available rs = rs_replicas rs) /\
  forall active, active_of d owned = Some active -> active_available pods active = rs_replicas active.

(** How far the counts are from the end of the rollout. *)
Definition distance (active old : Z) : Z := Z.abs (desired - active) + old.

(** What a map of counts comes to: closer to the end. *)
Definition closer (active : ReplicaSet) (m : gmap string Z) : Prop :=
  0 <= set_to m active /\ (forall rs, rs ∈ olds (rs_name active) owned -> 0 <= set_to m rs) /\
  distance (set_to m active) (zsum (set_to m <$> olds (rs_name active) owned)) <=
  Z.max 0 (distance (rs_replicas active) (zsum (rs_replicas <$> olds (rs_name active) owned)) - 1).

Lemma turn_closer active new o stay drain : active ∈ owned -> healthy -> 0 < max_surge + max_unavailable ->
  (stay = true -> new = rs_replicas active) -> 0 <= new ->
  new + zsum (rs_replicas <$> olds (rs_name active) owned) <= I32_MAX ->
  old_targets available owned (rs_name active) new desired max_unavailable = Some o ->
  let n := rs_replicas active in
  let old := zsum (rs_replicas <$> olds (rs_name active) owned) in
  (n < desired /\ 0 < old /\ new = n + Z.min (Z.max (desired + max_surge - total) 0) (desired - n)) \/
  (new = desired /\ (desired <= n)) ->
  closer active (turn_map active new o stay drain).
Proof.
  intros Hin [Hh _] Hsu Hs Hn Hb Ho n old Hcase. pose proof (pf_unavailable _ _ _ Hfit) as Hu. fold max_unavailable in Hu.
  pose proof (pf_surge _ _ _ Hfit) as Hs0. fold max_surge in Hs0. pose proof (pf_desired _ _ _ Hfit) as Hd0. fold desired in Hd0.
  pose proof (zsum_active d now pods owned Hfit rs_replicas active Hin) as Ht. fold total n old in Ht.
  pose proof (pf_replicas _ _ _ Hfit active Hin) as Hn0. fold n in Hn0.
  assert (forall rs, rs ∈ olds (rs_name active) owned -> rs ∈ owned) as Hsub by (intros rs Hrs; by apply olds_in in Hrs as [? _]).
  assert (0 <= old) as Hold.
  { apply zsum_nonneg, Forall_fmap, Forall_forall. intros rs Hrs. by apply (pf_replicas _ _ _ Hfit), Hsub. }
  destruct (old_targets_spec _ _ _ _ _ _ (counts_fit_of d now pods owned Hfit (rs_name active) new Hn Hb)) as (o' & Ho' & Htgt & _ & Hshrink).
  fold available desired max_unavailable in Ho'. rewrite Ho in Ho'. injection Ho' as <-. unfold takes_surplus in Hshrink.
  rewrite (find_rs_elem _ _ (pf_names _ _ _ Hfit) Hin) in Hshrink. pose proof (Hh active Hin) as Ha. unfold available in Ha. rewrite Ha in Hshrink. fold n old desired max_unavailable in Hshrink.
  assert (n <= new \/ Z.max (desired - max_unavailable) 0 <= new) as Hcond by (unfold small in Hu; lia).
  specialize (Hshrink ltac:(intros rs Hrs; by apply Hh, Hsub) Hcond).
  assert (forall rs, rs ∈ olds (rs_name active) owned ->
    0 <= set_to (turn_map active new o stay drain) rs <= old_target o rs) as Hset by (intros rs Hrs; apply turn_map_old; [done|by apply Htgt]).
  assert (zsum (set_to (turn_map active new o stay drain) <$> olds (rs_name active) owned) <=
          zsum (old_target o <$> olds (rs_name active) owned)) as Hsum by (apply zsum_map_le; intros rs Hrs; by apply Hset).
  assert (0 <= zsum (set_to (turn_map active new o stay drain) <$> olds (rs_name active) owned)).
  { apply zsum_nonneg, Forall_fmap, Forall_forall. intros rs Hrs. by apply Hset. }
  unfold closer. rewrite (turn_map_active active new o stay drain Hs). split; [done|]. split; [intros rs Hrs; by apply Hset|].
  fold n old. unfold distance, small in *. lia.
Qed.

(** The count of a turn, by what is missing. *)
Lemma turn_count_cases active new : active ∈ owned ->
  let old := zsum (rs_replicas <$> olds (rs_name active) owned) in
  let n := rs_replicas active in
  ~ (old = 0 /\ n <> desired) -> turn_count d owned active = Some new ->
  (n < desired /\ 0 < old /\ new = n + Z.min (Z.max (desired + max_surge - total) 0) (desired - n)) \/ (new = desired /\ desired <= n).
Proof.
  intros Hin old n Hnz Hnew. pose proof (olds_nonneg d now pods owned Hfit (rs_name active)) as Hold. fold old in Hold.
  unfold turn_count in Hnew. destruct (_ && _) eqn:Hgrow.
  - rewrite andb_true_iff !bool_decide_eq_true in Hgrow. destruct Hgrow as [Hlt Hpos]. left. split; [done|]. split; [done|].
    unfold new_active_replicas in Hnew. rewrite (sum32_owned d now pods owned Hfit) in Hnew. inv_bind.
    repeat match goal with Hc : checked32 _ = Some _ |- _ => apply checked32_Some in Hc as [-> _] end. done.
  - injection Hnew as <-. rewrite andb_false_iff !bool_decide_eq_false in Hgrow. right. split; [done|].
    fold desired n old in Hgrow. destruct Hgrow; [lia|]. destruct (decide (n = desired)); lia.
Qed.

(** Straight to the count, when nothing else has pods. *)
Lemma straight_closer active : active ∈ owned -> rs_replicas active <> desired ->
  zsum (rs_replicas <$> olds (rs_name active) owned) = 0 -> closer active {[rs_name active := desired]}.
Proof.
  intros Hin Hne Hz. pose proof (pf_desired _ _ _ Hfit) as Hd0. fold desired in Hd0.
  assert (set_to {[rs_name active := desired]} active = desired) as Ha by (unfold set_to; by rewrite lookup_singleton_eq).
  assert (zsum (set_to {[rs_name active := desired]} <$> olds (rs_name active) owned) = 0) as Ho.
  { rewrite -Hz. apply (zsum_olds_ext owned). intros rs [_ Hne']%olds_in. unfold set_to. by rewrite lookup_singleton_ne. }
  split; [by rewrite Ha|]. split.
  - intros rs [Hrs Hne']%olds_in. unfold set_to. rewrite lookup_singleton_ne //=. by apply (pf_replicas _ _ _ Hfit).
  - rewrite Ha Ho Hz. unfold distance. lia.
Qed.

Lemma roll_turn_sets w active new o : ready w -> active ∈ owned ->
  ~ (zsum (rs_replicas <$> olds (rs_name active) owned) = 0 /\ rs_replicas active <> desired) ->
  turn_count d owned active = Some new ->
  old_targets available owned (rs_name active) new desired max_unavailable = Some o ->
  sets (roll_with_active now d owned active (zsum (rs_replicas <$> olds (rs_name active) owned)) false max_surge max_unavailable) w
    (turn_map active new o (bool_decide (new = rs_replicas active)) (drains d pods owned active false)) false.
Proof.
  intros Hr Hin Hnz Hnew Ho. pose proof Hr as (_ & _ & Hp).
  unfold sets, runs. rewrite (roll_shape d now pods owned Hrolling w active false new) //.
  eapply sets_bind; [|intros w1 Hf He; eapply sets_bind; [|intros; apply sets_ret|by rewrite left_id_L]|reflexivity].
  - destruct (drains d pods owned active false); [by apply drain_sets|apply sets_ret].
  - apply turn_sets; [by eapply ready_step|done|done].
Qed.

(** A pass over the active ReplicaSet and the others. *)
Lemma roll_with_active_sets w active : ready w -> active_of d owned = Some active -> healthy -> 0 < max_surge + max_unavailable ->
  exists m b, sets (roll_with_active now d owned active (zsum (rs_replicas <$> olds (rs_name active) owned)) false
                      max_surge max_unavailable) w m b /\ closer active m /\
    (b = true -> zsum (rs_replicas <$> olds (rs_name active) owned) = 0).
Proof.
  intros Hr Hact Hh Hsu. pose proof Hr as (Ht & [Hnd Hall] & Hp).
  assert (active ∈ owned) as Hin by (apply list_elem_of_In; by eapply find_some).
  destruct (decide (zsum (rs_replicas <$> olds (rs_name active) owned) = 0 /\ rs_replicas active <> desired)) as [[Hz Hne]|Hnz].
  { exists {[rs_name active := desired]}, true. split; [|split; [by apply straight_closer|done]].
    unfold roll_with_active. fold desired. rewrite decide_True //.
    eapply sets_bind; [apply update_sets; [done|done|by apply Hall]|intros; apply sets_ret|by rewrite left_id_L]. }
  destruct (turn_count_fits d now pods owned Hfit active false Hin Hnz) as (new & Hnew & Hn & Hc & _).
  pose proof (pf_total _ _ _ Hfit) as Htt. fold total desired max_surge in Htt. pose proof (total_nonneg d now pods owned Hfit) as Ht0.
  pose proof (pf_surge _ _ _ Hfit) as Hs0. fold max_surge in Hs0. pose proof (pf_desired _ _ _ Hfit) as Hd0. fold desired in Hd0.
  assert (new + zsum (rs_replicas <$> olds (rs_name active) owned) <= I32_MAX) as Hb by (fold total desired max_surge in Hc, Ht0; lia).
  destruct (old_targets_spec _ _ _ _ _ _ (counts_fit_of d now pods owned Hfit (rs_name active) new Hn Hb)) as (o & Ho & _).
  exists (turn_map active new o (bool_decide (new = rs_replicas active)) (drains d pods owned active false)), false.
  split; [by apply roll_turn_sets|]. split; [|done].
  apply turn_closer; try done; [by intros ?%bool_decide_eq_true|]. by apply turn_count_cases.
Qed.
End Exact.
