(* ===== verification/RolloutLiveness.v ===== *)
(** * Rollouts end

    A pass over a healthy deployment brings the counts closer to the end of the
    rollout, so a rolling update completes within as many rounds as there are
    replicas to move, and one to create the ReplicaSet. *)

From stdpp Require Import strings pretty.
From S2P Require Import Prelude RustText BTree Json Authz ServiceTypes Quantity QuantityText LabelSelector F64 DeploymentTypes DeploymentController DeploymentRuns RolloutArith RolloutPass DeploymentSafety RolloutExact.

Local Open Scope string_scope.
Local Open Scope Z_scope.

(** ** A new ReplicaSet has the template of its deployment *)

Definition labels_members (l : list (string * string)) : list (string * Json) :=
  foldr (fun kv m => obj_insert kv.1 (JString kv.2) m) [] l.

Lemma labels_members_sorted l : keys_sorted (labels_members l).
Proof. induction l as [|kv l IH]; simpl; [by constructor|]. by apply obj_insert_sorted. Qed.

Lemma labels_members_get l k : obj_get k (labels_members l) = JString <$> (list_to_map l : gmap string string) !! k.
Proof.
  induction l as [|[a v] l IH]; simpl; [done|]. rewrite obj_get_insert lookup_insert IH.
  destruct (decide (k = a)), (decide (a = k)); by try congruence.
Qed.

(** The hash label is what the comparison takes out. *)
Lemma strip_hash_label hash labels :
  obj_remove POD_TEMPLATE_HASH (labels_members (map_to_list (<[POD_TEMPLATE_HASH := hash]> labels))) =
  obj_remove POD_TEMPLATE_HASH (labels_members (map_to_list labels)).
Proof.
  apply obj_ext; [apply obj_remove_sorted, labels_members_sorted..|]. intros k.
  rewrite !obj_get_remove; [apply labels_members_sorted..|].
  destruct (decide (k = POD_TEMPLATE_HASH)) as [->|Hne]; [done|].
  rewrite !labels_members_get !list_to_map_to_list lookup_insert_ne //.
Qed.

Definition labelled (d : Deployment) : Prop :=
  exists tm labels, pt_metadata (ds_template (d_spec d)) = Some tm /\ tm_labels tm = Some labels /\ keys_sorted (tm_rest tm).

(** The part of [strip_template] for the metadata. *)
Definition strip_metadata : Json -> Json :=
  with_object (with_member "labels" (with_object (obj_remove POD_TEMPLATE_HASH))).

Lemma strip_template_split metadata spec :
  strip_template (JObject (obj_insert "metadata" metadata [("spec", spec)])) =
  with_object (with_member "spec" (with_object strip_spec)) (JObject (obj_insert "metadata" (strip_metadata metadata) [("spec", spec)])).
Proof. reflexivity. Qed.

Lemma strip_metadata_labels labels rest : keys_sorted rest ->
  strip_metadata (json_of_template_meta (mkTemplateMeta (Some labels) rest)) =
  JObject (obj_insert "labels" (JObject (obj_remove POD_TEMPLATE_HASH (labels_members (map_to_list labels)))) rest).
Proof.
  intros Hs. unfold strip_metadata, json_of_template_meta, with_object, with_member. simpl tm_labels. simpl tm_rest.
  cbv beta iota. rewrite obj_get_insert_eq. f_equal. by rewrite obj_insert_insert.
Qed.

Lemma new_replicaset_matches `{!TemplateHash} fresh d revision desired max_replicas replicas :
  labelled d -> replicaset_matches_template (new_replicaset fresh d revision desired max_replicas replicas) d = true.
Proof.
  intros ([ls rest] & labels & Htm & Hl & Hs). simpl in Hl, Hs. subst ls. unfold replicaset_matches_template. apply json_eqb_eq.
  unfold json_of_template, new_replicaset. rewrite Htm. simpl rsp_template. simpl pt_metadata. cbv beta iota.
  rewrite !strip_template_split. do 3 f_equal. rewrite !strip_metadata_labels //. unfold hashed. simpl.
  by rewrite strip_hash_label.
Qed.

(** ** The end of a rollout *)

Section Rounds.
Context `{!TemplateHash} (d : Deployment).

(** The ReplicaSets that have the template, and the others, of the deployment. *)
Definition active_in (l : list ReplicaSet) : option ReplicaSet := active_of d (owned_by d l).
Definition olds_in_sum (l : list ReplicaSet) (active : ReplicaSet) : Z :=
  zsum (rs_replicas <$> olds (rs_name active) (owned_by d l)).

(** How many rounds are left at most. *)
Definition remaining (l : list ReplicaSet) : Z :=
  match active_in l with
  | Some active => distance d (rs_replicas active) (olds_in_sum l active)
  | None => desired_of d + total_of d l + 1
  end.

Definition complete (l : list ReplicaSet) : Prop :=
  exists active, active_in l = Some active /\ rs_replicas active = desired_of d /\
    forall rs, rs ∈ olds (rs_name active) (owned_by d l) -> rs_replicas rs = 0.

(** What a round keeps: nothing to adopt, no scaling, a name for a new ReplicaSet. *)
Record rollable (l : list ReplicaSet) : Prop := {
  ra_orphans : no_orphans d l;
  ra_unscaled rs : rs ∈ owned_by d l -> rescaled (desired_of d) rs = false;
  ra_replicas rs : rs ∈ owned_by d l -> 0 <= rs_replicas rs;
  ra_name : active_in l = None -> new_name d ∉ rs_name <$> l
}.

Lemma complete_remaining l : rollable l -> remaining l <= 0 -> 0 <= desired_of d -> complete l.
Proof.
  intros Hr Hz Hd. unfold remaining in Hz. destruct (active_in l) as [active|] eqn:E.
  - assert (forall rs, rs ∈ olds (rs_name active) (owned_by d l) -> 0 <= rs_replicas rs) as Hpos
      by (intros rs [Hrs _]%olds_in; by apply (ra_replicas _ Hr)).
    assert (0 <= olds_in_sum l active) by (apply zsum_nonneg, Forall_fmap, Forall_forall; exact Hpos).
    unfold distance in Hz. exists active. split; [done|]. split; [lia|]. apply zsum_zero; [done|]. unfold olds_in_sum in *. lia.
  - assert (0 <= total_of d l) by (apply zsum_nonneg, Forall_fmap, Forall_forall; apply (ra_replicas _ Hr)). lia.
Qed.

(** ** Lists of ReplicaSets that are alike *)

Lemma like_matches rs rs' : like rs rs' -> replicaset_matches_template rs d = replicaset_matches_template rs' d.
Proof. by intros (a & n & ->). Qed.

Definition same_spec (rs rs' : ReplicaSet) : Prop := rs_metadata rs' = rs_metadata rs /\ rs_spec rs' = rs_spec rs.

(** [R] keeps what the controller looks for. *)
Definition lookalike (R : relation ReplicaSet) : Prop := forall rs rs', R rs rs' ->
  rs_name rs' = rs_name rs /\ replicaset_matches_template rs d = replicaset_matches_template rs' d /\
  is_owned_by_deployment rs d = is_owned_by_deployment rs' d.

Section Alike.
Context (R : relation ReplicaSet) (l l' : list ReplicaSet).
Hypothesis HR : lookalike R.
Hypothesis Hl : Forall2 R l l'.

Lemma alike_owned : Forall2 R (owned_by d l) (owned_by d l').
Proof. apply Forall2_filter; [|done]. intros x y Hxy. destruct (HR x y Hxy) as (_ & _ & ->). done. Qed.

Lemma alike_active : option_Forall2 R (active_in l) (active_in l').
Proof. eapply find_Forall2; [apply alike_owned|]. intros x y Hxy. by apply HR. Qed.

Lemma alike_olds name : Forall2 R (olds name (owned_by d l)) (olds name (owned_by d l')).
Proof. apply Forall2_filter; [|apply alike_owned]. intros x y Hxy. by destruct (HR x y Hxy) as (-> & _). Qed.

Lemma alike_names : rs_name <$> l' = rs_name <$> l.
Proof. revert Hl. induction 1 as [|x y k k' Hxy _ IH]; [done|]. rewrite !fmap_cons IH. by destruct (HR x y Hxy) as (-> & _). Qed.
End Alike.

Lemma alike_sum (R : relation ReplicaSet) (f : ReplicaSet -> Z) l l' : Forall2 R l l' -> (forall x y, R x y -> rs_replicas y = f x) ->
  zsum (rs_replicas <$> l') = zsum (f <$> l).
Proof. intros Hk Hf. induction Hk as [|x y k k' Hxy _ IH]; [done|]. by rewrite !fmap_cons /= IH (Hf x y Hxy). Qed.

Lemma exact_lookalike m : lookalike (fun rs rs' => like rs rs' /\ other_annotations rs rs' /\ rs_replicas rs' = set_to m rs).
Proof. intros rs rs' (Hl & _). split; [by apply like_name|]. split; [by apply like_matches|]. by destruct Hl as (a & n & ->). Qed.

Lemma same_spec_lookalike : lookalike same_spec.
Proof.
  intros rs rs' [Hm Hs]. unfold rs_name, replicaset_matches_template, is_owned_by_deployment. by rewrite Hm Hs.
Qed.

(** ** The clean-up takes nothing that counts *)

Lemma owned_filter P `{forall rs, Decision (P rs)} (l : list ReplicaSet) :
  owned_by d (filter P l) = filter P (owned_by d l).
Proof.
  unfold owned_by. rewrite !list_filter_filter. apply list_filter_iff. tauto.
Qed.

Lemma olds_filter name P `{forall rs, Decision (P rs)} (l : list ReplicaSet) :
  olds name (filter P l) = filter P (olds name l).
Proof. unfold olds. rewrite !list_filter_filter. apply list_filter_iff. tauto. Qed.

Lemma trimmed_active l l' : trimmed d l l' -> active_in l' = active_in l.
Proof.
  intros (names & -> & Hz). unfold active_in, active_of. rewrite owned_filter. apply find_filter.
  intros rs [_ Hrs]%list_elem_of_filter Hn. apply dec_stable in Hn. by destruct (Hz rs Hrs Hn).
Qed.

Lemma trimmed_sum l l' active : trimmed d l l' -> olds_in_sum l' active = olds_in_sum l active.
Proof.
  intros (names & -> & Hz). unfold olds_in_sum. rewrite owned_filter olds_filter. apply zsum_filter.
  intros rs [Hrs _]%olds_in Hn. apply dec_stable in Hn. by destruct (Hz rs (owned_sub _ _ _ Hrs) Hn).
Qed.

Lemma trimmed_sub l l' rs : trimmed d l l' -> rs ∈ l' -> rs ∈ l.
Proof. intros (names & -> & _). by intros [_ ?]%list_elem_of_filter. Qed.


Lemma trimmed_refl l : trimmed d l l.
Proof. exists []. split; [symmetry; apply filter_all; by intros rs _ ?%elem_of_nil|by intros rs _ ?%elem_of_nil]. Qed.

(** ** One pass *)

(** The deployments whose rollouts end. *)
Record progresses : Prop := {
  pg_live : m_deletion_timestamp (d_metadata d) = None;
  pg_rolling : is_rolling_update d = true;
  pg_running : default false (ds_paused (d_spec d)) = false;
  pg_desired : 0 <= desired_of d;
  pg_moves : 0 < (rolling_counts d).1 + (rolling_counts d).2;
  pg_labelled : labelled d
}.

(** What a pass did to the ReplicaSets: the counts are closer to the end, or there
    is a new ReplicaSet. *)
Definition stepped (fresh : Fresh) (l l' : list ReplicaSet) : Prop :=
  (exists active m l1, active_in l = Some active /\ exact m l l1 /\ closer d (owned_by d l) active m /\ trimmed d l1 l') \/
  (active_in l = None /\ exists k revision max_replicas l1, 0 <= k <= desired_of d /\ exact ∅ l l1 /\
     trimmed d (insert_by_key rs_name (new_replicaset fresh d revision (desired_of d) max_replicas k) l1) l').

Lemma exact_in m l l' rs : exact m l l' -> rs ∈ owned_by d l' -> exists rs0, rs0 ∈ owned_by d l /\ like rs0 rs /\
  other_annotations rs0 rs /\ rs_replicas rs = set_to m rs0.
Proof.
  intros He Hin. pose proof (alike_owned _ _ _ (exact_lookalike m) He) as Ho.
  apply list_elem_of_lookup_1 in Hin as [i Hi]. destruct (Forall2_lookup_r _ _ _ _ _ Ho Hi) as (rs0 & Hi0 & Hr).
  exists rs0. split; [by eapply list_elem_of_lookup_2|done].
Qed.

Lemma exact_orphans m l l' : exact m l l' -> no_orphans d l -> no_orphans d l'.
Proof.
  intros He Ho rs Hin. destruct (moved_in _ _ _ _ _ (exact_moved _ _ _ He) Hin) as (rs0 & Hin0 & (a & n & ->) & _).
  apply (Ho rs0 Hin0).
Qed.

Lemma unscaled_like rs rs' : other_annotations rs rs' -> rescaled (desired_of d) rs' = rescaled (desired_of d) rs.
Proof. intros Hk. unfold rescaled. by rewrite (Hk DESIRED_REPLICAS). Qed.

Lemma trimmed_owned l l' rs : trimmed d l l' -> rs ∈ owned_by d l' -> rs ∈ owned_by d l.
Proof. intros Ht [Ho Hin]%list_elem_of_filter. apply list_elem_of_filter. split; [done|by eapply trimmed_sub]. Qed.

Lemma active_owned l active : active_in l = Some active -> active ∈ owned_by d l.
Proof. intros Ha. apply list_elem_of_In. by eapply find_some. Qed.

(** The counts got closer to the end. *)
Lemma closer_advances m l l1 l' active : rollable l -> NoDup (rs_name <$> l) -> active_in l = Some active -> exact m l l1 ->
  closer d (owned_by d l) active m -> trimmed d l1 l' -> rollable l' /\ remaining l' <= Z.max 0 (remaining l - 1).
Proof.
  intros Hr Hn Ha He (Hc1 & Hc2 & Hc3) Ht. pose proof (exact_lookalike m) as Hlook.
  pose proof (alike_active _ _ _ Hlook He) as Hact. rewrite Ha in Hact.
  inversion Hact as [x active' (Hl & _ & Hcount) E1 E2|]; subst x. symmetry in E2.
  assert (active_in l' = Some active') as Ha' by by rewrite (trimmed_active _ _ Ht).
  split; [split|].
  - intros rs Hin. eapply exact_orphans; [exact He|apply Hr|by eapply trimmed_sub].
  - intros rs Hin. apply (trimmed_owned _ _ _ Ht) in Hin. destruct (exact_in _ _ _ _ He Hin) as (rs0 & Hin0 & _ & Hk & _).
    rewrite (unscaled_like _ _ Hk). by apply (ra_unscaled _ Hr).
  - intros rs Hin. apply (trimmed_owned _ _ _ Ht) in Hin. destruct (exact_in _ _ _ _ He Hin) as (rs0 & Hin0 & _ & _ & ->).
    destruct (decide (rs_name rs0 = rs_name active)) as [Heq|Hne].
    + by assert (rs0 = active) as -> by by apply (names_inj (owned_by d l)); [by apply owned_names| |apply active_owned|].
    + apply Hc2, list_elem_of_filter. done.
  - by rewrite Ha'.
  - unfold remaining. rewrite Ha' Ha (trimmed_sum _ _ _ Ht) Hcount.
    assert (olds_in_sum l1 active' = zsum (set_to m <$> olds (rs_name active) (owned_by d l))) as ->; [|exact Hc3].
    unfold olds_in_sum. rewrite (like_name _ _ Hl). eapply alike_sum; [by apply (alike_olds _ _ _ Hlook)|]. by intros x y (_ & _ & ?).
Qed.

Lemma find_unique {A} (p : A -> bool) l x : x ∈ l -> p x = true -> (forall y, y ∈ l -> p y = true -> y = x) -> List.find p l = Some x.
Proof.
  intros Hin Hp Hu. destruct (List.find p l) as [y|] eqn:E.
  - apply find_some in E as [Hy Hpy]. f_equal. apply Hu; [by apply list_elem_of_In|done].
  - apply list_elem_of_In in Hin. by rewrite (find_none _ _ E x Hin) in Hp.
Qed.

(** A ReplicaSet was created. *)
Lemma create_advances fresh revision max_replicas k l l1 l' : rollable l -> labelled d -> active_in l = None ->
  0 <= k <= desired_of d -> desired_of d <= I32_MAX -> exact ∅ l l1 ->
  trimmed d (insert_by_key rs_name (new_replicaset fresh d revision (desired_of d) max_replicas k) l1) l' ->
  rollable l' /\ remaining l' <= Z.max 0 (remaining l - 1).
Proof.
  intros Hr Hlab Ha Hk Hmax He Ht. set (new := new_replicaset fresh d revision (desired_of d) max_replicas k) in *.
  set (l2 := insert_by_key rs_name new l1) in *. pose proof (exact_lookalike ∅) as Hlook.
  assert (active_in l1 = None) as Ha1.
  { pose proof (alike_active _ _ _ Hlook He) as Hact. rewrite Ha in Hact. by inversion Hact. }
  assert (l2 ≡ₚ new :: l1) as Hperm by apply insert_by_key_perm.
  assert (is_owned_by_deployment new d = true) as Hown.
  { unfold is_owned_by_deployment, new, new_replicaset. simpl. rewrite bool_decide_eq_true_2 //. }
  assert (replicaset_matches_template new d = true) as Hmatch by by apply new_replicaset_matches.
  assert (owned_by d l2 ≡ₚ new :: owned_by d l1) as Hperm2.
  { rewrite (owned_perm d _ _ Hperm). unfold owned_by. by rewrite filter_cons_True. }
  assert (active_in l2 = Some new) as Ha2.
  { apply find_unique; [rewrite Hperm2; left|done|]. intros y Hy Hm. rewrite Hperm2 in Hy.
    apply elem_of_cons in Hy as [->|Hy]; [done|]. apply list_elem_of_In in Hy. by rewrite (find_none _ _ Ha1 y Hy) in Hm. }
  assert (forall rs, rs ∈ owned_by d l' -> rs = new \/ exists rs0, rs0 ∈ owned_by d l /\ other_annotations rs0 rs /\ rs_replicas rs = rs_replicas rs0) as Hcases.
  { intros rs Hin%(trimmed_owned _ _ _ Ht). rewrite Hperm2 in Hin. apply elem_of_cons in Hin as [->|Hin]; [by left|]. right.
    destruct (exact_in _ _ _ _ He Hin) as (rs0 & ? & _ & ? & ?). by exists rs0. }
  split; [split|].
  - intros rs Hin%(trimmed_sub _ _ _ Ht). rewrite Hperm in Hin. apply elem_of_cons in Hin as [->|Hin]; [by left|].
    eapply exact_orphans; [exact He|apply Hr|done].
  - intros rs [->|(rs0 & Hin0 & Hk0 & _)]%Hcases; [|rewrite (unscaled_like _ _ Hk0); by apply (ra_unscaled _ Hr)].
    unfold rescaled, new, new_replicaset, annotation. simpl.
    rewrite lookup_insert_ne // lookup_insert_eq /= parse_i32_pretty; [unfold i32, I32_MIN, I32_MAX in *; lia|].
    by rewrite bool_decide_eq_true_2.
  - intros rs [->|(rs0 & Hin0 & _ & ->)]%Hcases; [unfold new; by rewrite new_replicaset_replicas; lia|by apply (ra_replicas _ Hr)].
  - by rewrite (trimmed_active _ _ Ht) Ha2.
  - unfold remaining. rewrite (trimmed_active _ _ Ht) Ha2 Ha (trimmed_sum _ _ _ Ht).
    assert (olds_in_sum l2 new = total_of d l) as ->.
    { unfold olds_in_sum. rewrite (zsum_perm _ _ (fmap_Permutation rs_replicas _ _ (filter_Permutation (fun rs => rs_name rs <> rs_name new) _ _ Hperm2))).
      rewrite filter_cons_False; [tauto|]. rewrite filter_all.
      - intros rs Hrs He'. apply (ra_name _ Hr Ha). rewrite -(exact_names _ _ _ He).
        change (new_name d) with (rs_name new). rewrite -He'. apply list_elem_of_fmap_2. by apply owned_sub in Hrs.
      - apply (alike_sum _ rs_replicas _ _ (alike_owned _ _ _ Hlook He)). by intros x y (_ & _ & ->). }
    unfold new. rewrite new_replicaset_replicas. unfold distance. lia.
Qed.

Lemma unscaled_event owned old_total : (forall rs, rs ∈ owned -> rescaled (desired_of d) rs = false) ->
  is_scaling_event d owned old_total = false.
Proof.
  intros Hu. unfold is_scaling_event. apply andb_false_iff. right. apply not_true_is_false. intros (rs & Hin & Hr)%existsb_exists.
  apply list_elem_of_In, list_elem_of_filter in Hin as [_ Hin]. by rewrite Hu in Hr.
Qed.

Lemma scaling_step_none owned max_surge w : scaling_step d owned false max_surge w = Some (w, Ok false).
Proof. unfold scaling_step. by destruct (single_active_rs owned). Qed.

Section Steps.
Context (fresh : Fresh) (b : Z) (l : list ReplicaSet) (w2 : World).
Let owned := owned_by d l.
Let pods := w_pods w2.
Hypothesis Hp : progresses.
Hypothesis Hr : rollable l.
Hypothesis Hfit : pass_fits (count_available_pods_min_ready (fr_now fresh) pods) d owned.
Hypothesis Hb : 0 < b < 2 ^ 63.
Hypothesis He : exact ∅ l (w_rss w2).
Hypothesis Htk : takes w2.
Hypothesis Hon : rolls_on d pods owned b w2.

Definition steps (w' : World) (_ : result unit ControllerError) : Prop := frame w2 w' /\ stepped fresh l (w_rss w').

(** The new ReplicaSet, and the clean-up after it. *)
Lemma create_steps k : active_in l = None -> 0 <= k <= desired_of d ->
  runs (create_replicaset_with_replicas fresh d k) w2 (fun w' r =>
    match r with Ok _ => runs (clean_up_history d) w' steps | Err e => steps w' (Err e) end).
Proof.
  intros Ha Hk. eapply runs_mono; [apply (create_runs d fresh k b); [done|apply Hon|by apply (surge_fits _ _ _ _ Hfit)]|].
  intros w' r [Hf Hcr].
  assert (exists rev mx, w_rss w' = insert_by_key rs_name (new_replicaset fresh d rev (desired_of d) mx k) (w_rss w2) /\
    new_name d ∉ rs_name <$> w_rss w2) as (rev & mx & Hw & Hnn).
  { destruct Hcr as [(rev & mx & Hn & ->)|[_ [Hn|Hn]]]; [by exists rev, mx| |by destruct Htk].
    rewrite (exact_names _ _ _ He) in Hn. by destruct (ra_name _ Hr Ha). }
  assert (forall l', trimmed d (w_rss w') l' -> stepped fresh l l') as Hst.
  { intros l' Ht. right. split; [done|]. exists k, rev, mx, (w_rss w2). split_and!; [lia|lia|done|by rewrite -Hw]. }
  destruct r; [|split; [done|apply Hst, trimmed_refl]]. eapply runs_mono; [apply clean_up_runs|].
  - rewrite Hw insert_by_key_perm fmap_cons. constructor; [exact Hnn|]. by destruct (ro_sees _ _ _ _ _ Hon).
  - split; [|apply Hon]. rewrite Hw insert_by_key_perm /=. pose proof (ro_length _ _ _ _ _ Hon). lia.
  - intros w4 r (_ & Hf4 & Ht). split; [by eapply frame_trans|by apply Hst].
Qed.

Lemma without_active_steps : active_in l = None ->
  runs (roll_without_active fresh d owned (zsum (rs_replicas <$> owned)) (rolling_counts d).1) w2 (fun w' r =>
    match r with Ok _ => runs (clean_up_history d) w' steps | Err e => steps w' (Err e) end).
Proof.
  intros Ha. pose proof (total_nonneg _ _ _ _ Hfit) as Ht0. pose proof (pf_desired _ _ _ Hfit) as Hd0. pose proof (pf_surge _ _ _ Hfit) as Hs0.
  pose proof (pf_total _ _ _ Hfit) as Htt. set (total := zsum (rs_replicas <$> owned)) in *.
  unfold roll_without_active. rewrite (pg_rolling Hp). cbn [negb andb]. case_bool_decide.
  - apply runs_bind. eapply runs_num; [apply checked32_fits; unfold I32_MIN, I32_MAX in *; lia|].
    apply runs_bind. eapply runs_num; [apply checked32_fits; unfold I32_MIN, I32_MAX in *; lia|]. apply create_steps; [done|lia].
  - apply create_steps; [done|lia].
Qed.

(** The rollout of a healthy deployment, from [w2], which still has the counts of [l]. *)
Lemma rollout_steps : healthy d (fr_now fresh) pods owned -> runs (rollout fresh d owned) w2 steps.
Proof.
  intros Hh. assert (ready pods owned w2) as Hready by (split; [done|]; split; [apply Hon|done]).
  unfold rollout. rewrite (surjective_pairing (rolling_counts d)). apply runs_bind.
  eapply runs_num; [by apply (old_total_runs d fresh pods)|]. rewrite unscaled_event; [apply Hr|].
  apply runs_bind. eexists _, _. split; [apply scaling_step_none|]. apply runs_bind.
  destruct (active_of d owned) as [active|] eqn:Ha.
  - assert (zsum (rs_replicas <$> old_of d owned) = zsum (rs_replicas <$> olds (rs_name active) owned)) as -> by (unfold old_of; by rewrite Ha).
    destruct (roll_with_active_sets d _ pods owned Hfit (pg_rolling Hp) w2 active Hready Ha Hh (pg_moves Hp)) as (m & ends & Hsets & Hc & _).
    eapply runs_mono; [exact Hsets|]. intros w3 r (-> & Hf3 & He3). pose proof (exact_trans _ _ _ _ _ He He3) as Hall.
    rewrite right_id_L in Hall. destruct ends.
    + apply runs_ret. split; [done|]. left. exists active, m, (w_rss w3). split_and!; [done..|apply trimmed_refl].
    + eapply runs_mono; [apply clean_up_runs|].
      * rewrite (exact_names _ _ _ He3). by destruct (ro_sees _ _ _ _ _ Hon).
      * split; [|apply Hon]. rewrite -(Forall2_length _ _ _ He3). pose proof (ro_length _ _ _ _ _ Hon). lia.
      * intros w4 r (_ & Hf4 & Ht). split; [by eapply frame_trans|]. left. by exists active, m, (w_rss w3).
  - assert (zsum (rs_replicas <$> old_of d owned) = zsum (rs_replicas <$> owned)) as -> by (unfold old_of; by rewrite Ha).
    apply runs_bind. eapply runs_mono; [by apply without_active_steps|]. intros w3 r Hw3. destruct r; [by apply runs_ret|exact Hw3].
Qed.
End Steps.

(** ** Rounds *)

(** Between two passes the ReplicaSet controller and the kubelets settle: the
    storage is free, every pod of the deployment is available, and the counts fit. *)
Record settled (fresh : Fresh) (w : World) : Prop := {
  st_ok : pass_ok fresh d w;
  st_takes : takes w;
  st_healthy : healthy d (fr_now fresh) (w_pods w) (owned_by d (w_rss w))
}.

Lemma stepped_advances fresh l l' : progresses -> rollable l -> NoDup (rs_name <$> l) -> desired_of d <= I32_MAX ->
  stepped fresh l l' -> rollable l' /\ remaining l' <= Z.max 0 (remaining l - 1).
Proof.
  intros Hp Hr Hn Hmax [(active & m & l1 & Ha & He & Hc & Ht)|(Ha & k & rev & mx & l1 & Hk & He & Ht)].
  - by eapply closer_advances.
  - eapply create_advances; [done|apply Hp|done|exact Hk|done|exact He|exact Ht].
Qed.

(** A pass over a settled deployment. *)
Lemma pass_steps fresh w : progresses -> rollable (w_rss w) -> settled fresh w ->
  runs (reconcile_deployment fresh d) w (fun w' _ => stepped fresh (w_rss w) (w_rss w')).
Proof.
  intros Hp Hr [Hok Htk Hh]. unfold reconcile_deployment. rewrite (pg_live Hp).
  destruct (decide (is_Some None)) as [[? ?]|_]; [done|]. apply runs_bind, runs_modify, runs_bind, runs_reads, runs_bind.
  eexists _, _. split; [apply adopt_none, (ra_orphans _ Hr)|]. apply runs_bind, runs_reads, runs_bind. simpl w_rss.
  assert (pass_ok fresh d (set_own_write None w)) as Hok0 by (by destruct Hok).
  eapply runs_mono; [apply (sync_ok fresh d _ Hok0)|]. simpl. intros w2 r (-> & Hf2 & n & Hn & Hm2).
  assert (exact ∅ (w_rss w) (w_rss w2)) as He by (eapply moved_exact; [|exact Hm2]; by intros x y [? _]).
  assert (w_pods w2 = w_pods w) as Hpods by apply (fr_pods _ _ Hf2).
  pose proof (synced_rolls_on fresh d _ w2 n Hok0 Hf2 Hn Hm2) as Hon. simpl in Hon.
  rewrite (pg_running Hp). apply runs_bind. eapply runs_mono.
  { apply runs_and; [apply (rollout_runs d fresh _ _ (MAX_REVISION + 1) (po_fits _ _ _ Hok) (pg_rolling Hp)); [done|exact Hon]|].
    apply (rollout_steps fresh (MAX_REVISION + 1) (w_rss w) w2); rewrite ?Hpods; try done; [apply Hok|].
    by apply (frame_takes _ _ Hf2). }
  intros w3 r ((Hf3 & T & C & _ & Hev) & _ & Hst). destruct r as [[]|e]; [|exact Hst].
  eapply runs_mono; [eapply (status_after fresh d _ w3 T C Hok0); [by eapply frame_trans|by eapply evolved_after]|].
  by intros w4 r ->.
Qed.
End Rounds.

(** The deployment as a later pass reads it: its annotations, its labels and its
    status may have changed. *)
Definition same_goal (d d' : Deployment) : Prop :=
  d_spec d' = d_spec d /\ m_name (d_metadata d') = m_name (d_metadata d) /\ m_uid (d_metadata d') = m_uid (d_metadata d) /\
  m_deletion_timestamp (d_metadata d') = m_deletion_timestamp (d_metadata d).

Section Runs.
Context `{!TemplateHash}.

(** [n] rounds: a pass, after which only statuses change until the deployment has
    settled again. *)
Inductive rounds (d : Deployment) : nat -> World -> World -> Prop :=
| rounds_done w : rounds d 0 w w
| rounds_next n fresh d' w w1 r w2 w3 :
    same_goal d d' -> settled d' fresh w -> reconcile_deployment fresh d' w = Some (w1, r) ->
    Forall2 same_spec (w_rss w1) (w_rss w2) -> rounds d n w2 w3 -> rounds d (S n) w w3.

Ltac open_goals d d' H :=
  destruct d as [[? ? ? ? ? ? ? ? ?] ? ?], d' as [[? ? ? ? ? ? ? ? ?] ? ?]; destruct H as (? & ? & ? & ?); simpl in *; subst.

Lemma same_goal_remaining d d' l : same_goal d d' -> remaining d' l = remaining d l.
Proof. intros Hs. open_goals d d' Hs. reflexivity. Qed.

Lemma same_goal_rollable d d' l : same_goal d d' -> rollable d l <-> rollable d' l.
Proof. intros Hs. open_goals d d' Hs. split; intros [H1 H2 H3 H4]; (split; [exact H1|exact H2|exact H3|exact H4]). Qed.

Lemma same_goal_progresses d d' : same_goal d d' -> progresses d -> progresses d'.
Proof. intros Hs. open_goals d d' Hs. intros [H1 H2 H3 H4 H5 H6]. split; [exact H1|exact H2|exact H3|exact H4|exact H5|exact H6]. Qed.

(** Statuses do not matter. *)
Lemma settling d l l' : Forall2 same_spec l l' -> rollable d l -> rollable d l' /\ remaining d l' = remaining d l.
Proof.
  intros Hl Hr. pose proof (same_spec_lookalike d) as Hlook. pose proof (alike_active d _ _ _ Hlook Hl) as Ha.
  assert (forall rs', rs' ∈ owned_by d l' -> exists rs, rs ∈ owned_by d l /\ same_spec rs rs') as Ho.
  { intros rs' [i Hi]%list_elem_of_lookup_1. destruct (Forall2_lookup_r _ _ _ _ _ (alike_owned d _ _ _ Hlook Hl) Hi) as (rs & Hi' & Hs).
    exists rs. split; [by eapply list_elem_of_lookup_2|done]. }
  split; [split|].
  - intros rs' [i Hi]%list_elem_of_lookup_1. destruct (Forall2_lookup_r _ _ _ _ _ Hl Hi) as (rs & Hi' & [Hm _]).
    pose proof (ra_orphans _ _ Hr rs ltac:(by eapply list_elem_of_lookup_2)) as Hor.
    unfold is_owned_by_deployment, has_controller_owner in *. by rewrite Hm.
  - intros rs' (rs & Hin & [Hm _])%Ho. unfold rescaled. rewrite Hm. by apply (ra_unscaled _ _ Hr).
  - intros rs' (rs & Hin & [_ Hs])%Ho. unfold rs_replicas. rewrite Hs. by apply (ra_replicas _ _ Hr).
  - intros Hn. rewrite (alike_names d _ _ _ Hlook Hl). apply (ra_name _ _ Hr). rewrite Hn in Ha. by inversion Ha.
  - unfold remaining. inversion Ha as [a a' [Hm Hs] E1 E2|E1 E2].
    + assert (rs_name a' = rs_name a) as Hn by (unfold rs_name; by rewrite Hm). unfold olds_in_sum. rewrite Hn. unfold rs_replicas at 1 3.
      rewrite Hs. f_equal. eapply alike_sum; [by apply (alike_olds d _ _ _ Hlook Hl)|]. intros x y [_ Hy]. unfold rs_replicas. by rewrite Hy.
    + do 2 f_equal. eapply alike_sum; [apply (alike_owned d _ _ _ Hlook Hl)|]. intros x y [_ Hy]. unfold rs_replicas. by rewrite Hy.
Qed.

End Runs.

(** ** A rollout from the creation to the end *)

Module RoundsExample.
Import Example.

(** One replica, of the old template. *)
Definition small_web : Deployment :=
  mkDeployment (meta "web" "d1" ∅ [])
    (mkDeploymentSpec (Some 1) selector (template "v2") None None None None None) None.

Definition start : World := mkWorld [replicaset "web-1" "v1" 1] [pod "web-1"] (Some small_web) None [].

(** A pass, after which these pods are there. *)
Definition after (w : World) : World := from_option fst w (reconcile_deployment now small_web w).
Definition with_pods (pods : list Pod) (w : World) : World := mkWorld (w_rss w) pods (w_deployment w) None [].

Definition w1 : World := Eval vm_compute in with_pods [pod "web-1"; pod "web-1a2b"] (after start).
Definition w2 : World := Eval vm_compute in with_pods [pod "web-1a2b"] (after w1).
Definition w3 : World := Eval vm_compute in with_pods [pod "web-1a2b"] (after w2).

Example round_counts :
  map (fun w => map (fun rs => (rs_name rs, rs_replicas rs)) (w_rss w)) [start; w1; w2] =
  [[("web-1", 1)]; [("web-1", 1); ("web-1a2b", 1)]; [("web-1", 0); ("web-1a2b", 1)]].
Proof. vm_compute. reflexivity. Qed.

Ltac compute_settled :=
  split;
  [ compute_pass_ok
  | by split; [|eexists]
  | split; [by refine (all_of _ _ _); vm_compute|];
    let a := fresh in let Ha := fresh in intros a Ha; vm_compute in Ha; first [discriminate|injection Ha as <-; by vm_compute] ].

Lemma start_settled : settled small_web now start.
Proof. compute_settled. Qed.
Lemma w1_settled : settled small_web now w1.
Proof. compute_settled. Qed.
Lemma w2_settled : settled small_web now w2.
Proof. compute_settled. Qed.

Lemma start_rollable : rollable small_web (w_rss start).
Proof.
  split; [|by refine (all_of _ _ _); vm_compute|by refine (all_of _ _ _); vm_compute|].
  - intros rs ->%list_elem_of_singleton. by left.
  - intros _. by refine (bool_decide_unpack _ _); vm_compute.
Qed.

Lemma small_web_progresses : progresses small_web.
Proof.
  split; [done|done|done|done|by vm_compute|]. eexists _, _. split; [reflexivity|]. split; [reflexivity|]. constructor.
Qed.

Lemma three_rounds : rounds small_web 3 start w3.
Proof.
  assert (forall l : list ReplicaSet, Forall2 same_spec l l) as Hrefl by (intros l; apply Forall_Forall2_diag, Forall_forall; done).
  apply (rounds_next small_web 2 now small_web start (after start) (Ok tt) w1); [done|apply start_settled|by vm_compute|apply Hrefl|].
  apply (rounds_next small_web 1 now small_web w1 (after w1) (Ok tt) w2); [done|apply w1_settled|by vm_compute|apply Hrefl|].
  apply (rounds_next small_web 0 now small_web w2 (after w2) (Ok tt) w3); [done|apply w2_settled|by vm_compute|apply Hrefl|].
  constructor.
Qed.


End RoundsExample.
